(* ===== verification/_CoqProject ===== *)
-Q . S2P
Prelude.v
Numerals.v
Nom.v
HtPkg.v
HtLabel.v
HtAddr.v
HtIntern.v
HtMatcher.v
MatchTarget.v
HtQuery.v
Capacity.v
Resources.v
ResourcePool.v
EnginePools.v
Template.v
Duration.v
DepPath.v
Reconcile.v
TaskCell.v
WaitGraph.v
HLock.v
Sorts.v
DepDag.v
RequestState.v
SandboxCleaner.v
Gc.v
Clean.v
TargetRef.v
Expand.v
HtValue.v
Wire.v
WireDef.v
LogTail.v
AddrKey.v
FailureSlot.v
FailureGc.v
CodegenOverlap.v
Gitignore.v
WriteQueue.v
CacheTiers.v
MemTier.v
Revisions.v
Resolution.v
Deferred.v
Scratch.v
ScratchLocks.v
Definitions.v
RemoteHealth.v
RemoteConfig.v
Sniff.v
RemoteKeys.v
RemotePush.v
RemotePull.v
