(* ===== verification/Prelude.v ===== *)
(** * Verification of heph

    heph is a build system written in Rust. Users name targets by address
    ([//pkg:name@arg=value]) and select them with a query language; providers
    list and define targets, drivers run them, and an engine resolves the graph,
    admits work to machine resources, memoizes every computation of a request,
    and caches results under a directory named after the address. This library
    models the parts that decide what is built, in what order and how often, and
    proves what they promise. File and function names are those of the
    repository under [crates/].

    ** Files

    - [Prelude] (this file), [Numerals], [Sorts]: the [std] operations the sources
      use: [Result], [str] as a list of Unicode scalar values, [u64] arithmetic at
      its width, [BTreeMap] as a sorted association list, numbers as text, stable
      sorts.
    - [Nom]: the interface to the third-party [nom] combinators, with laws.
    - [HtPkg], [HtLabel], [HtAddr]: [model/src/htpkg/pkg.rs], [htlabel.rs],
      [htaddr/addr.rs] and [htaddr/parse.rs]: package paths, labels, addresses,
      their printer and parser.
    - [HtIntern]: the sharded interning table of [htaddr/addr.rs] as a step
      relation over its lock sections, and the hash that names the cache
      directory in [engine/local_cache_fs.rs].
    - [HtMatcher], [MatchTarget], [HtQuery]: [htmatcher/], [htquery/mod.rs],
      [htpkg/parse.rs] and the engine's [matcher_spec.rs], [matcher_target.rs],
      [listed.rs] and [Selection] of [request_state.rs]: the predicate on
      targets, its staged evaluation, and its concrete syntax.
    - [Capacity], [Resources], [ResourcePool], [EnginePools]: [core/src/units.rs]
      and [capacity.rs], [plugin/src/driver.rs], [engine/resource_pool.rs]: the
      amounts a target declares, and the admission pool that grants them. The
      pool's state is the content of its mutex; every operation that takes the
      lock is a function, and [ResourcePool.step] interleaves them.
    - [TaskCell], [WaitGraph]: [core/src/hmemoizer/]: the memoizer. A cell, the
      body task that computes it, the callers that wait for it and the async
      runtime interleave through [TaskCell.step], one constructor per critical
      section; [WaitGraph] is the cycle detector of [once].
    - [HLock]: [lock/src/hlock/]: the transformable lock built out of two locks
      and the registry of one lock per key, each proved against the interface of
      the lock below it.
    - [DepDag], [RequestState]: [engine/request_state.rs]: the dependency graph of
      a request, kept in topological order as edges arrive, with its index
      widths; the states that share it, their forks and what they track.
    - [TargetRef], [Expand]: [TargetAddr] and the sandbox of
      [plugin/src/driver.rs], and [engine/expand.rs]: references to outputs,
      what a target hands to its dependents, and the rewriting of declared
      inputs into the inputs a target runs with.
    - [DepPath], [Reconcile]: [engine/deppath.rs] and [engine/query.rs]: why one
      target depends on another, and what several listings of one name agree on.
    - [SandboxCleaner]: [engine/sandbox_cleaner.rs] and the teardown of
      [engine/execute.rs]: sandbox directories, their generations, and removals
      that run beside later runs of the same path, as a step relation.
    - [Gc], [Clean]: [engine/gc.rs] and [engine/clean.rs]: trimming the history of
      the local cache, sweeping it, and [heph clean], over the interface
      [Gc.LocalCacheLaws] to the cache.
    - [WriteQueue], [CacheTiers], [MemTier]: [engine/local_cache_sqlite.rs],
      [local_cache_spill.rs], [local_cache_mem.rs] and the traits of
      [local_cache.rs]: the queue of writes behind the SQLite cache, with the thread
      that commits them and the callers that wait, as a step relation; the tier that
      keeps large entries in files, over the interface [CacheTiers.BackendLaws]; the
      tier that keeps small ones in memory, over the weaker [MemTier.TierLaws], whose
      [agree] says when two stores hold one entry in the same way. A read of the memory
      tier is its accesses one by one, beside the changes that are under way and those
      of other processes.
    - [Revisions], [Resolution]: [engine/local_cache.rs], [result.rs] and
      [result_lock.rs]: the artifacts and the manifest of a revision, written by
      concurrent jobs, read back, probed and duplicated, over the interface
      [Revisions.StoreLaws] to a tier, which may acknowledge a write and lose it, as a
      failed batch of the SQLite cache does; the requests and sweeps that contend for a
      target, and the guard a caller rides, as a step relation whose steps are the
      calls that take or leave a lock.
    - [RemoteHealth], [RemoteConfig], [RemoteKeys], [RemotePush], [RemotePull], [Sniff]:
      [engine/remote_cache.rs], [remote_cache_objstore.rs], [remote_cache_latency.rs],
      the materialization of hits in [result.rs] and
      [core/src/hartifactcontent/sniff.rs]: the breaker of a cache and the permits of
      its requests, as step relations over the atomics, the clock, the semaphores and the
      limit of the store; the settings
      of a store and the order caches are read in; the names of objects; a push, its
      concurrent uploads and the machines that push to one bucket, as a step relation
      over the interface [RemotePush.RemoteLaws]; lookups, pulls in the order of a
      schedule and the cells callers share; the scan that tells whether an archive is
      worth compressing.
    - [Definitions]: [get_spec_inner], [get_def_inner] and [inner_meta] of
      [engine/result.rs], [link.rs], [meta.rs], [approval.rs] and [states.rs]: which
      provider answers for an address, the checks a definition passes, the inputs
      merged into it, and the key its results are cached under.
    - [Deferred]: [engine/deferred.rs]: values that name the output of another target,
      the edges they add, and their substitution once the outputs exist.
    - [Scratch], [ScratchLocks]: [builtins/src/pluginscratch/mod.rs],
      [engine/scratch.rs] and [scratch_store.rs]: directories that outlive a run: their
      names, what a declaration may ask, how they are prepared and swept, and the locks
      under which consumers share them, as a step relation.
    - [LogTail], [AddrKey], [FailureSlot], [FailureGc]: [plugin/src/error.rs],
      [engine/failure_slot.rs] and [failure_gc.rs]: the last lines of a log, read
      backwards from its end; the directory that keeps the log and manifest of a
      target's last failure, its name, its atomic replacement by a rename, and its
      sweep. Every call of the file system may fail, and a run may stop anywhere.
    - [CodegenOverlap], [Gitignore]: [engine/validate.rs], [gitignore.rs],
      [fanout.rs] and [core/src/paths.rs]: outputs copied into the source tree,
      those that would overwrite each other, and the section of [.gitignore] that
      lists them.
    - [HtValue], [Wire], [WireDef]: [core/src/htvalue/] and
      [plugin-abi/src/convert.rs]: dynamic values, the signatures plugin functions
      are checked against, and the messages of the plugin boundary. [Wire.Wire] is
      the contract of a pair of conversions.
    - [Template], [Duration]: [core/src/template.rs], [units.rs], [version.rs]:
      [${...}] references, durations, versions.

    ** What is shown

    - The pool: no interleaving of requests, drops and cancellations holds more
      of a pool than its capacity, the queue is served in order, no wake-up is
      lost, and dropping reservations drains it. A request is granted exactly
      what it declares, clamped; the configured pools agree with what is linked.
    - The memoizer: a completed cell serves every caller until it is evicted;
      nobody waits for a computation that will not come; no wake-up is lost; two
      bodies of a key do not overlap on calm executions, and do on one that is
      not. The wait-for graph stays acyclic and its search is exact.
    - Locks: guards in hand are compatible, for a bridge and for a key; the bridge
      does not deadlock and the registry leaves nothing behind.
    - The dependency graph: offering an edge refuses exactly the edges that close
      a cycle and keeps the order topological; however the states of a request
      interleave, they are answered as one graph would answer them.
    - Expansion: the guarded recursion over groups computes what the unguarded one
      means, whenever that is finite, and names a real obstacle otherwise; what
      comes out is routed as the declared input was. [dep_path] returns a shortest
      path, and a path exactly when one exists.
    - Sandboxes and the cache: no removal touches the sandbox of a live run, and
      one that a cancelled run queued is carried out; a trim keeps what it must, what
      was just written and what is in use, and of all else nothing is left, manifests
      and artifacts, but for deletions the cache acknowledged and did not carry out.
    - The local cache: a reader sees every write queued before it looked, and no
      caller waits for ever, while the writer thread is in its loop; over backends that
      keep what they acknowledge, an artifact ends in the one backend its size says and a
      manifest in the primary, complete, however they were cut into chunks; memory
      serves what the backend serves, as long as reads and changes of a key come one
      after the other and other processes leave alone what is in memory. The spilling tier keeps what [Gc] asks of a
      cache, so the theorems of [Gc] and [Clean] hold of it
      ([CacheTiers.tier_gc_laws]).
    - Revisions: one that was stored is all there, one that has a manifest has every
      artifact it names, both but for what the store acknowledged and lost; a hit hands
      out what the build handed out, a duplicate in a store that loses nothing serves
      every byte. While a caller rides a revision nothing changes under it, given that a
      rebuild under it makes what was there, a
      miss that lost the race shares what the winner built, and a rebuild of lost
      bytes is accepted exactly when it makes what was promised.
    - Remote caches: while whoever pushes a revision pushes the same bytes, a manifest in
      a bucket has all its blobs, however many machines push and whatever fails, and what
      is pulled is what was pushed, byte for byte; a push ends; a hit is taken on evidence and leaves no trace when it is not, and what is
      established for a caller is there; a key has one owner as long as separators and
      hashes allow. A trip pauses a cache for fifteen seconds to five minutes, doubled
      from trip to trip, metadata does not wait for blobs when the budget is two requests
      or more, settings of two namespaces are never mixed, every readable cache is
      asked once, and the scan that stops early answers as the whole one.
    - Definitions: an address is resolved by the first provider that has it, past those
      that have not; what a driver answers to its transitive inputs decides the inputs, but
      neither the entrypoint nor the resources; two targets have one cache key exactly when their
      drivers, definitions and hashed inputs have the same hashes.
    - Deferred values: the edges collected are those the value reads, and every
      reference is replaced by what its output holds, a path when the field and its
      target can be told apart by the origin of the edge ([Deferred.lone_src]).
    - Scratch directories: preparing touches one head and leaves it as the
      configuration says; a sweep keeps the most recently used slots that fit; consumers
      of an exclusive slot exclude each other, and no set of consumers deadlocks.
    - Failure slots: whatever fails, a reader sees no slot, the old one or the new
      one; a target that resolves has its slot cleared; the sweep removes only what
      it scanned, unlocked, and old enough or dead; a name is safe on every file
      system; the tail read backwards is the tail of the whole log.
    - Generated outputs: the sorted scan finds the collisions the comparison of all
      pairs finds; the managed section parses back, and nothing else of the file is
      touched.
    - Functions and messages: a call is checked against its signature exactly;
      what one side of the plugin boundary encodes the other decodes, nothing that
      a cache key or a gate depends on is guessed, and a descriptor in a message
      is owned once.
    - Text: addresses, references to outputs, queries, templates, units and
      durations round-trip through their printers as far as the code lets them,
      and every parser ends.
    - Selection: each stage of matching is refined by the next, up to the one
      that always decides, so stopping early is sound; listings of one name are
      reconciled to what all of them say, in any order.
    - Interning: pointer equality of addresses is equality of their contents.

    Theorems that record a defect say so in their comment: the hash of an
    address does not delimit its parts ([HtIntern.target_dir_collision]), a
    printed query can select something else ([HtQuery.query_format_not_inverse]),
    a bracket inside a reference is taken for its filters
    ([TargetRef.target_addr_bracket_misread]), durations saturate
    ([Duration.duration_saturates]), a fourth generation of a cancelled
    computation can overlap the first ([TaskCell.task_cell_overlap]), the counter
    of speculative states underflows ([RequestState.speculative_live_miscounts]),
    a failed run with secret outputs leaves them on disk
    ([SandboxCleaner.material_failure_keeps_tree]), a manifest that does not
    decode keeps its target from being trimmed
    ([Gc.corrupt_manifest_blocks_trim]), a collision of outputs spelled with a [.]
    goes unreported ([CodegenOverlap.dotted_overlap_missed]), a waiter whose slot was
    displaced is forgotten when the writer thread panics
    ([WriteQueue.panic_strands_superseded]), a failed batch is reported as one that
    landed ([WriteQueue.failed_batch_unreported]), a failed promotion leaves a
    truncated entry ([CacheTiers.failed_spill_surfaces]), a read beside an open writer
    makes memory stale ([MemTier.mem_stale_after_commit]), one beside a delete brings the
    entry back ([MemTier.mem_revives_deleted]), a failed batch leaves a manifest without
    its artifacts ([Revisions.failed_batch_mixes]), a forced run that fails
    leaves the old manifest over new bytes ([Revisions.failed_rebuild_mixes]), so does a
    second push that is abandoned ([RemotePull.repush_mixes]), two addresses have one
    remote key ([RemoteKeys.remote_key_alias]), a lookup that failed is kept as an absent
    revision ([RemotePull.failed_lookup_sticks]), a cache whose name extends that of
    another one breaks it ([RemoteConfig.namespace_overlap]), failures that coincide
    double the first pause ([RemoteHealth.first_pause_doubled]), with a budget of one
    request metadata waits for blobs ([RemoteHealth.budget_of_one]), the key of
    a definition does not say which group an input is in
    ([Definitions.key_blind_to_groups]) nor where a part of it ends
    ([Definitions.key_ambiguous]), two [src] references in one field get each other's
    files ([Deferred.src_fields_conflated]), two branches have one scratch directory, and
    all slots one under the scope [..] ([Scratch.scopes_conflated]), mounts of one place under two spellings are accepted
    ([Scratch.mounts_overlap_missed]), a shared scratch over its cap is emptied under a
    target that runs ([ScratchLocks.shared_prepare_drops_running]), and a file with a
    stray or unterminated marker is not rendered idempotently
    ([Gitignore.gitignore_not_idempotent]). [Resolution.rebuild_under_read] is not
    one of them: it is the one write under a riding read, which the locking documents
    and the theorems take as their premise.

    ** Fuel

    Loops that are not structural carry fuel, and a theorem shows it suffices:
    the tokenizer and the unescaper get the length of the input, the query parser
    the nesting limit plus one ([HtQuery.query_parse_total]); the template and
    duration scanners the length of the input; [HtPkg.parent_packages] the length
    of the package; the walk of [DepPath] the number of targets; the search of
    [WaitGraph] the number of cells plus two ([WaitGraph.find_cycle_exact]); the
    searches of [DepDag] the number of nodes plus one ([DepDag.add_dep_refines]);
    the expansion of [Expand] one more than the number of targets below the
    inputs ([Expand.expand_inputs_exact]); the positional reads of [LogTail] more
    than the length of the log plus the number of interrupted reads in a row
    ([LogTail.read_tail_exact]); [CacheTiers.write_all] the length of the data, since
    every write takes a byte or fails. The jobs of [Revisions.run_jobs] take as many
    steps as the schedule has, and [Revisions.revision_stored] says how often a job
    has to be scheduled to end; likewise [RemotePush.run_push] and [RemotePull.run_pulls],
    with [RemotePush.push_ends] and [RemotePull.fan_out_ends]. [RemoteHealth.run_note] has
    a step for each access a note makes.

    ** What is not modelled

    Third-party code is a parameter: [nom] and [tokio] are interfaces with laws
    ([Nom.NomLaws], [TaskCell.TokioLaws]), the in-memory and file locks are
    interfaces ([HLock.OuterLaws], [HLock.InnerLaws]), so are the local cache
    ([Gc.LocalCacheLaws]) and its backends ([CacheTiers.BackendLaws]) and the stores of
    remote caches ([RemotePush.RemoteLaws]), and the
    directory of failure slots answers each call as an environment decides; hashes,
    the edit distance, the providers' answers, the packing of an output into a tar, the
    members read from one, compression and
    the encodings of a manifest and of a driver's own definition are functions. Instants, logging
    and reports for people are left out, as is what goes through floating-point
    numbers ([human_bytes], [Resources::from_value]) and the YAML values of a
    plugin's options. The files, rows and connections of the local cache, processes,
    the FUSE file system, the terminal interface and the transports under the plugin
    boundary are I/O. What an execution does between its locks is a step of
    [Resolution] that leaves some manifest. Of the remote
    caches the sweep of temporary files, the task that uploads in the background, the
    classification of errors and the builders of stores are left out, and a pull is one
    step. Not reached: the paths and process stamps of the result locks, reverse dependencies, the snapshots of scratch directories, credentials,
    the Go plugin's variants, [sed] and [grep] of the core utilities.

    The rest of this file is the shared vocabulary: notations, the hint database
    [heph], the tactics and the generic lemmas of the component files. *)
From stdpp Require Export base gmap sets list strings.
From Stdlib Require Import Ascii.
Export AsciiSyntax.

(** ** Scopes, literals *)

Declare Scope heph_scope.
Delimit Scope heph_scope with heph.

(** A Rust [char] is a Unicode scalar value; a [str] is a sequence of them. *)
Abbreviation char := N.
Abbreviation str := (list N).

Definition lit (s : string) : str := N_of_ascii <$> String.list_ascii_of_string s.

(** [$"abc"] is the string literal and [#"c"] the character literal, both
    already evaluated to code points. *)
Notation "$ s" :=
  (ltac:(let v := eval vm_compute in (lit s%string) in exact v))
  (at level 1, s at level 0, only parsing) : heph_scope.
Notation "# a" :=
  (ltac:(let v := eval vm_compute in (N_of_ascii a%char) in exact v))
  (at level 1, a at level 0, only parsing) : heph_scope.
Open Scope heph_scope.

(** The double quote, which has no literal of its own here. *)
Definition dquote : char := 34%N.
Definition backslash : char := 92%N.

(** ** Results *)

(** Rust's [Result<A, E>]. *)
Inductive result (E A : Type) : Type :=
| Ok (a : A)
| Err (e : E).
Arguments Ok {E A} a.
Arguments Err {E A} e.

#[export] Instance result_ret E : MRet (result E) := fun A a => Ok a.
#[export] Instance result_bind E : MBind (result E) := fun A B f r =>
  match r with Ok a => f a | Err e => Err e end.
#[export] Instance result_fmap E : FMap (result E) := fun A B f r =>
  match r with Ok a => Ok (f a) | Err e => Err e end.

Definition is_ok {E A} (r : result E A) : bool :=
  match r with Ok _ => true | Err _ => false end.

(** [map_err] and [ok_or]. *)
Definition map_err {E F A} (f : E -> F) (r : result E A) : result F A :=
  match r with Ok a => Ok a | Err e => Err (f e) end.
Definition ok_or {E A} (e : E) (o : option A) : result E A :=
  match o with Some a => Ok a | None => Err e end.

Lemma result_bind_ok {E A B} (f : A -> result E B) r b :
  (r ≫= f) = Ok b <-> exists a, r = Ok a /\ f a = Ok b.
Proof. destruct r; naive_solver. Qed.

Lemma result_fmap_ok {E A B} (f : A -> B) (r : result E A) b :
  f <$> r = Ok b <-> exists a, r = Ok a /\ b = f a.
Proof. destruct r; naive_solver. Qed.

Lemma map_err_ok {E F A} (f : E -> F) (r : result E A) a :
  map_err f r = Ok a <-> r = Ok a.
Proof. destruct r; naive_solver. Qed.

#[export] Instance Ok_inj E A : Inj (=) (=) (@Ok E A).
Proof. by intros ?? [=]. Qed.

(** ** Characters *)

(** [char::is_whitespace]: the Unicode White_Space property. *)
Definition is_whitespace (c : char) : bool :=
  ((9 <=? c) && (c <=? 13) || (c =? 32) || (c =? 133) || (c =? 160) || (c =? 5760)
   || (8192 <=? c) && (c <=? 8202) || (c =? 8232) || (c =? 8233) || (c =? 8239)
   || (c =? 8287) || (c =? 12288))%N.

(** [char::is_control]: the general category Cc. *)
Definition is_control (c : char) : bool :=
  ((c <=? 31) || (127 <=? c) && (c <=? 159))%N.

Definition is_ascii_digit (c : char) : bool := ((48 <=? c) && (c <=? 57))%N.
Definition is_ascii_lowercase (c : char) : bool := ((97 <=? c) && (c <=? 122))%N.
Definition is_ascii_uppercase (c : char) : bool := ((65 <=? c) && (c <=? 90))%N.
Definition is_ascii_alphanumeric (c : char) : bool :=
  is_ascii_digit c || is_ascii_lowercase c || is_ascii_uppercase c.
Definition is_ascii_hexdigit (c : char) : bool :=
  is_ascii_digit c || ((97 <=? c) && (c <=? 102))%N || ((65 <=? c) && (c <=? 70))%N.

(** [char::from_u32] accepts exactly the scalar values. *)
Definition is_scalar (n : N) : bool :=
  ((n <? 55296) || (57344 <=? n) && (n <=? 1114111))%N.

Definition to_ascii_lower_char (c : char) : char :=
  if is_ascii_uppercase c then (c + 32)%N else c.
Definition to_ascii_lowercase (s : str) : str := to_ascii_lower_char <$> s.

(** The bytes of a scalar value in UTF-8, and [str::len], which counts them. *)
Definition utf8_len (c : char) : N :=
  (if c <? 128 then 1 else if c <? 2048 then 2 else if c <? 65536 then 3 else 4)%N.
Definition str_len (s : str) : N := foldr (fun c n => (utf8_len c + n)%N) 0%N s.

(** ** Strings *)

Fixpoint strip_prefix (p s : str) : option str :=
  match p, s with
  | [], _ => Some s
  | x :: p', y :: s' => if decide (x = y) then strip_prefix p' s' else None
  | _ :: _, [] => None
  end.
Definition starts_with (p s : str) : bool :=
  match strip_prefix p s with Some _ => true | None => false end.
Definition strip_suffix (p s : str) : option str :=
  reverse <$> strip_prefix (reverse p) (reverse s).
Definition ends_with (p s : str) : bool :=
  match strip_suffix p s with Some _ => true | None => false end.

Definition contains_char (c : char) (s : str) : bool := existsb (N.eqb c) s.
Definition any_of (cs : str) (c : char) : bool := existsb (N.eqb c) cs.

(** The longest prefix whose characters all fail [stop], and the rest. *)
Fixpoint span_till (stop : char -> bool) (s : str) : str * str :=
  match s with
  | [] => ([], [])
  | c :: r => if stop c then ([], s) else let '(a, b) := span_till stop r in (c :: a, b)
  end.

(** [str::split_once] and [str::rsplit_once] at a character. *)
Fixpoint split_once (d : char) (s : str) : option (str * str) :=
  match s with
  | [] => None
  | c :: r =>
      if decide (c = d) then Some ([], r)
      else (fun '(a, b) => (c :: a, b)) <$> split_once d r
  end.
Fixpoint rsplit_once (d : char) (s : str) : option (str * str) :=
  match s with
  | [] => None
  | c :: r =>
      match rsplit_once d r with
      | Some (a, b) => Some (c :: a, b)
      | None => if decide (c = d) then Some ([], r) else None
      end
  end.

(** [str::split] at a character: never the empty list. *)
Fixpoint split_on (d : char) (s : str) : list str :=
  match s with
  | [] => [[]]
  | c :: r =>
      if decide (c = d) then [] :: split_on d r
      else match split_on d r with
           | h :: t => (c :: h) :: t
           | [] => [[c]]
           end
  end.

(** [slice::join]. *)
Fixpoint join (sep : str) (l : list str) : str :=
  match l with
  | [] => []
  | [x] => x
  | x :: r => x ++ sep ++ join sep r
  end.

Fixpoint trim_start_matches (p : char -> bool) (s : str) : str :=
  match s with
  | c :: r => if p c then trim_start_matches p r else s
  | [] => []
  end.
Definition trim_end_matches (p : char -> bool) (s : str) : str :=
  reverse (trim_start_matches p (reverse s)).
Definition trim (s : str) : str :=
  trim_end_matches is_whitespace (trim_start_matches is_whitespace s).

(** Lexicographic order. UTF-8 preserves code point order, so comparing scalar
    values is comparing the bytes Rust compares. *)
Fixpoint str_compare (a b : str) : comparison :=
  match a, b with
  | [], [] => Eq
  | [], _ :: _ => Lt
  | _ :: _, [] => Gt
  | x :: a', y :: b' =>
      match (x ?= y)%N with Eq => str_compare a' b' | c => c end
  end.
Definition str_lt (a b : str) : Prop := str_compare a b = Lt.

(** [sort_unstable]: equal strings are indistinguishable, so any sort is it. *)
Fixpoint insert_sorted (x : str) (l : list str) : list str :=
  match l with
  | [] => [x]
  | y :: r => match str_compare x y with Gt => y :: insert_sorted x r | _ => x :: l end
  end.
Definition sort (l : list str) : list str := foldr insert_sorted [] l.

(** ** Machine integers *)

Definition u64_max : N := 18446744073709551615%N.
Definition is_u64 (n : N) : Prop := (n <= u64_max)%N.
Definition checked_add (a b : N) : option N :=
  if (a + b <=? u64_max)%N then Some (a + b)%N else None.
Definition checked_mul (a b : N) : option N :=
  if (a * b <=? u64_max)%N then Some (a * b)%N else None.
Definition saturating_add (a b : N) : N := N.min (a + b) u64_max.
Definition saturating_mul (a b : N) : N := N.min (a * b) u64_max.
Definition saturating_sub (a b : N) : N := (a - b)%N.
Definition wrapping_add (a b : N) : N := ((a + b) mod (u64_max + 1))%N.

(** ** BTreeMap with string keys *)

Section btree.
Context {V : Type}.

Fixpoint bt_insert (k : str) (v : V) (m : list (str * V)) : list (str * V) :=
  match m with
  | [] => [(k, v)]
  | (k', v') :: r =>
      match str_compare k k' with
      | Lt => (k, v) :: m
      | Eq => (k, v) :: r
      | Gt => (k', v') :: bt_insert k v r
      end
  end.

Fixpoint bt_get (k : str) (m : list (str * V)) : option V :=
  match m with
  | [] => None
  | (k', v) :: r => if decide (k = k') then Some v else bt_get k r
  end.

Definition bt_collect (l : list (str * V)) : list (str * V) :=
  foldl (fun m '(k, v) => bt_insert k v m) [] l.

(** The representation invariant: keys strictly increasing. *)
Fixpoint bt_sorted (m : list (str * V)) : Prop :=
  match m with
  | [] => True
  | (k, _) :: r => Forall (fun kv => str_lt k kv.1) r /\ bt_sorted r
  end.
End btree.

(** ** Automation *)

Create HintDb heph.

(** Case analysis on every boolean test or [decide] in sight, with [N]'s
    comparisons reflected, then linear arithmetic or congruence. *)
Ltac bool_simpl :=
  repeat match goal with
  | H : _ && _ = true |- _ => apply andb_true_iff in H as [??]
  | H : _ || _ = false |- _ => apply orb_false_iff in H as [??]
  | H : negb _ = true |- _ => apply negb_true_iff in H
  | H : negb _ = false |- _ => apply negb_false_iff in H
  | H : (_ =? _)%N = true |- _ => apply N.eqb_eq in H
  | H : (_ =? _)%N = false |- _ => apply N.eqb_neq in H
  | H : (_ <=? _)%N = true |- _ => apply N.leb_le in H
  | H : (_ <=? _)%N = false |- _ => apply N.leb_gt in H
  | H : (_ <? _)%N = true |- _ => apply N.ltb_lt in H
  | H : (_ <? _)%N = false |- _ => apply N.ltb_ge in H
  end.

(** Splits a successful [Result] computation into its successful steps. *)
Ltac ok_inv :=
  repeat match goal with
  | H : (_ ≫= _) = Ok _ |- _ => apply result_bind_ok in H as (? & ? & H)
  | H : _ <$> _ = Ok _ |- _ => apply result_fmap_ok in H as (? & ? & H)
  | H : map_err _ _ = Ok _ |- _ => apply map_err_ok in H
  | H : Ok _ = Ok _ |- _ => injection H as H; try subst
  | H : mret _ = Ok _ |- _ => injection H as H; try subst
  | H : Err _ = Ok _ |- _ => discriminate H
  end.

(** ** String lemmas *)

Lemma strip_prefix_Some p s r : strip_prefix p s = Some r <-> s = p ++ r.
Proof.
  revert s; induction p as [|x p IH]; intros s; simpl; [naive_solver|].
  destruct s as [|y s]; [naive_solver|].
  case_decide; subst; rewrite ?IH; naive_solver.
Qed.

Lemma strip_prefix_app p r : strip_prefix p (p ++ r) = Some r.
Proof. by apply strip_prefix_Some. Qed.

Lemma strip_prefix_None p s : strip_prefix p s = None <-> forall r, s <> p ++ r.
Proof.
  destruct (strip_prefix p s) eqn:E.
  - apply strip_prefix_Some in E. naive_solver.
  - split; [|done]. intros _ r ->. by rewrite strip_prefix_app in E.
Qed.

Lemma starts_with_true p s : starts_with p s = true <-> exists r, s = p ++ r.
Proof.
  unfold starts_with. destruct (strip_prefix p s) eqn:E.
  - apply strip_prefix_Some in E. naive_solver.
  - rewrite strip_prefix_None in E. naive_solver.
Qed.

Lemma strip_suffix_Some p s r : strip_suffix p s = Some r <-> s = r ++ p.
Proof.
  unfold strip_suffix. rewrite fmap_Some. setoid_rewrite strip_prefix_Some. split.
  - intros (t & E & ->). apply (f_equal reverse) in E.
    by rewrite reverse_involutive, reverse_app, reverse_involutive in E.
  - intros ->. exists (reverse r). by rewrite reverse_app, reverse_involutive.
Qed.

Lemma strip_suffix_app p r : strip_suffix p (r ++ p) = Some r.
Proof. by apply strip_suffix_Some. Qed.

Lemma ends_with_true p s : ends_with p s = true <-> exists r, s = r ++ p.
Proof.
  unfold ends_with. destruct (strip_suffix p s) eqn:E.
  - apply strip_suffix_Some in E. naive_solver.
  - split; [done|]. intros [r ->]. by rewrite strip_suffix_app in E.
Qed.

Lemma contains_char_true c s : contains_char c s = true <-> c ∈ s.
Proof.
  unfold contains_char. rewrite existsb_exists, list_elem_of_In.
  setoid_rewrite N.eqb_eq. naive_solver.
Qed.

Lemma contains_char_false c s : contains_char c s = false <-> c ∉ s.
Proof. rewrite <-contains_char_true. by destruct (contains_char c s). Qed.

Lemma any_of_true cs c : any_of cs c = true <-> c ∈ cs.
Proof. exact (contains_char_true c cs). Qed.

Lemma any_of_false cs c : any_of cs c = false <-> c ∉ cs.
Proof. exact (contains_char_false c cs). Qed.

Lemma span_till_spec stop s a b : span_till stop s = (a, b) ->
  s = a ++ b /\ Forall (fun c => stop c = false) a /\
  (b = [] \/ exists c r, b = c :: r /\ stop c = true).
Proof.
  revert a b; induction s as [|c s IH]; intros a b; simpl.
  - intros [= <- <-]. eauto.
  - destruct (stop c) eqn:E.
    + intros [= <- <-]. split_and!; eauto.
    + destruct (span_till stop s) as [a' b'] eqn:E'. intros [= <- <-].
      destruct (IH a' b' eq_refl) as (-> & ? & ?). split_and!; eauto.
Qed.

Lemma span_till_app stop a b :
  Forall (fun c => stop c = false) a ->
  (b = [] \/ exists c r, b = c :: r /\ stop c = true) ->
  span_till stop (a ++ b) = (a, b).
Proof.
  intros Ha Hb. induction Ha as [|c a Hc _ IH]; simpl.
  - destruct Hb as [->|(c & r & -> & E)]; simpl; [done|by rewrite E].
  - by rewrite Hc, IH.
Qed.

Lemma span_till_all stop a :
  Forall (fun c => stop c = false) a -> span_till stop a = (a, []).
Proof.
  intros Ha. rewrite <-(app_nil_r a) at 1. apply span_till_app; auto.
Qed.

Lemma split_once_Some d s a b :
  split_once d s = Some (a, b) <-> s = a ++ d :: b /\ d ∉ a.
Proof.
  revert a b; induction s as [|c s IH]; intros a b; simpl.
  - split; [done|]. by intros [E%eq_sym%app_eq_nil _]; destruct E.
  - case_decide as Hd; subst.
    + split; [intros [= <- <-]; split; [done|set_solver]|].
      intros [E Ha]. destruct a as [|x a]; [naive_solver|].
      simplify_eq/=. set_solver.
    + rewrite fmap_Some. split.
      * intros ([a' b'] & [-> Ha]%IH & [= -> ->]). split; [done|set_solver].
      * intros [E Ha]. destruct a as [|x a]; simplify_eq/=.
        exists (a, b). split; [apply IH; set_solver|done].
Qed.

Lemma split_once_None d s : split_once d s = None <-> d ∉ s.
Proof.
  induction s as [|c s IH]; simpl; [set_solver|].
  case_decide; subst; [set_solver|]. rewrite fmap_None, IH. set_solver.
Qed.

Lemma rsplit_once_None d s : rsplit_once d s = None <-> d ∉ s.
Proof.
  induction s as [|c s IH]; simpl; [set_solver|].
  destruct (rsplit_once d s) as [[a b]|].
  - split; [done|]. intros H. destruct IH as [_ IH]. discriminate IH. set_solver.
  - case_decide; set_solver.
Qed.

Lemma rsplit_once_Some d s a b :
  rsplit_once d s = Some (a, b) <-> s = a ++ d :: b /\ d ∉ b.
Proof.
  revert a b; induction s as [|c s IH]; intros a b; simpl.
  - split; [done|]. by intros [E%eq_sym%app_eq_nil _]; destruct E.
  - destruct (rsplit_once d s) as [[a' b']|] eqn:E.
    + destruct (proj1 (IH a' b') eq_refl) as [-> Hb']. split.
      * by intros [= <- <-].
      * intros [Es Hb]. destruct a as [|x a]; simplify_eq/=; [set_solver|].
        assert (Some (a', b') = Some (a, b)) as [= -> ->]; [|done].
        apply IH. naive_solver.
    + apply rsplit_once_None in E. case_decide; subst.
      * split; [intros [= <- <-]; done|]. intros [Es Hb].
        destruct a as [|x a]; simplify_eq/=; [done|set_solver].
      * split; [done|]. intros [Es Hb]. destruct a; simplify_eq/=. set_solver.
Qed.

Lemma split_on_nonempty d s : split_on d s <> [].
Proof. destruct s; simpl; [done|]. case_decide; [done|]. by case_match. Qed.

Lemma join_split_on d s : join [d] (split_on d s) = s.
Proof.
  induction s as [|c s IH]; simpl; [done|].
  pose proof (split_on_nonempty d s) as Hne.
  case_decide as Hc; destruct (split_on d s) as [|h t]; try done.
  - change (join [d] ([] :: h :: t)) with (d :: join [d] (h :: t)). by rewrite IH, Hc.
  - by destruct t; simpl in *; rewrite IH.
Qed.

Lemma split_on_Forall d s : Forall (fun x => d ∉ x) (split_on d s).
Proof.
  induction s as [|c s IH]; simpl; [constructor; [set_solver|done]|].
  case_decide; [constructor; [set_solver|done]|].
  destruct (split_on d s); inversion IH; repeat constructor; set_solver.
Qed.

Lemma split_on_no_sep d x : d ∉ x -> split_on d x = [x].
Proof.
  induction x as [|c x IH]; simpl; intros Hx; [done|].
  rewrite decide_False by set_solver. by rewrite IH by set_solver.
Qed.

Lemma split_on_app d a b : split_on d (a ++ d :: b) = split_on d a ++ split_on d b.
Proof.
  induction a as [|c a IH]; simpl; [by rewrite decide_True|].
  rewrite IH. case_decide; [done|].
  pose proof (split_on_nonempty d a). by destruct (split_on d a).
Qed.

Lemma split_on_join d l : l <> [] -> Forall (fun x => d ∉ x) l ->
  split_on d (join [d] l) = l.
Proof.
  intros Hne Hl. induction Hl as [|x l Hx Hl IH]; [done|].
  destruct l as [|y l]; simpl in *; [by apply split_on_no_sep|].
  rewrite split_on_app, IH by done. by rewrite split_on_no_sep.
Qed.

Lemma join_app sep l1 l2 : l1 <> [] -> l2 <> [] ->
  join sep (l1 ++ l2) = join sep l1 ++ sep ++ join sep l2.
Proof.
  intros H1 H2. induction l1 as [|x l1 IH]; [done|].
  destruct l1 as [|y l1]; simpl in *.
  - by destruct l2.
  - rewrite IH by done. by rewrite <-!app_assoc.
Qed.

(** ** Order lemmas *)

Lemma str_compare_refl a : str_compare a a = Eq.
Proof. induction a as [|x a IH]; simpl; [done|]. by rewrite N.compare_refl. Qed.

Lemma str_compare_eq a b : str_compare a b = Eq <-> a = b.
Proof.
  split; [|intros ->; apply str_compare_refl].
  revert b; induction a as [|x a IH]; intros [|y b]; simpl; try done.
  destruct (N.compare_spec x y); try done; subst. intros H. by rewrite (IH b H).
Qed.

Lemma str_compare_antisym a b : str_compare b a = CompOpp (str_compare a b).
Proof.
  revert b; induction a as [|x a IH]; intros [|y b]; simpl; try done.
  rewrite (N.compare_antisym x y). destruct (x ?= y)%N; simpl; auto.
Qed.

Lemma str_compare_gt a b : str_compare a b = Gt <-> str_lt b a.
Proof.
  unfold str_lt. rewrite (str_compare_antisym a b). by destruct (str_compare a b).
Qed.

Lemma str_lt_irrefl a : ~ str_lt a a.
Proof. unfold str_lt. by rewrite str_compare_refl. Qed.

Lemma str_lt_trans a b c : str_lt a b -> str_lt b c -> str_lt a c.
Proof.
  unfold str_lt. revert b c; induction a as [|x a IH]; intros [|y b] [|z c]; simpl; try done.
  destruct (N.compare_spec x y), (N.compare_spec y z); try done; subst; intros H1 H2.
  - rewrite N.compare_refl. eauto.
  - by destruct (N.compare_spec y z); try lia.
  - by destruct (N.compare_spec x z); try lia.
  - by destruct (N.compare_spec x z); try lia.
Qed.

#[export] Instance str_lt_transitive : Transitive str_lt.
Proof. intros a b c. apply str_lt_trans. Qed.

Lemma insert_sorted_elem x l y : y ∈ insert_sorted x l <-> y = x \/ y ∈ l.
Proof.
  induction l as [|z l IH]; simpl; [by rewrite list_elem_of_singleton, elem_of_nil; intuition|].
  destruct (str_compare x z); rewrite ?elem_of_cons, ?IH; intuition.
Qed.

Lemma sort_elem l y : y ∈ sort l <-> y ∈ l.
Proof.
  induction l as [|x l IH]; simpl; [done|]. by rewrite insert_sorted_elem, IH, elem_of_cons.
Qed.

Lemma size_list_to_set_le `{Countable A} (l : list A) : size (list_to_set l : gset A) <= length l.
Proof.
  induction l as [|x l IH]; [done|]. cbn [list_to_set length]. rewrite size_union_alt, size_singleton.
  pose proof (subseteq_size (list_to_set l ∖ {[x]} : gset A) (list_to_set l) ltac:(set_solver)). lia.
Qed.

Section btree_lemmas.
Context {V : Type}.
Implicit Types m : list (str * V).

Lemma bt_insert_lb k' k (v : V) m :
  str_lt k' k -> Forall (fun kv => str_lt k' kv.1) m ->
  Forall (fun kv => str_lt k' kv.1) (bt_insert k v m).
Proof.
  intros Hk. induction 1 as [|[k1 v1] m H1 Hm IH]; simpl; [by repeat constructor|].
  destruct (str_compare k k1); repeat constructor; auto.
Qed.

Lemma bt_insert_sorted k (v : V) m : bt_sorted m -> bt_sorted (bt_insert k v m).
Proof.
  induction m as [|[k1 v1] m IH]; simpl; [by repeat constructor|].
  intros [H1 H2]. destruct (str_compare k k1) eqn:E; simpl.
  - apply str_compare_eq in E as ->. done.
  - split; [|done]. constructor; [done|].
    eapply Forall_impl; [exact H1|]. intros [k2 v2] ?. by etrans.
  - split; [|auto]. apply bt_insert_lb; [by apply str_compare_gt|done].
Qed.

Lemma bt_collect_sorted (l : list (str * V)) : bt_sorted (bt_collect l).
Proof.
  unfold bt_collect. assert (H : @bt_sorted V []) by done. revert H.
  generalize (@nil (str * V)). induction l as [|[k v] l IH]; intros m Hm; simpl; [done|].
  apply IH. by apply bt_insert_sorted.
Qed.

Lemma bt_insert_last k (v : V) m :
  Forall (fun kv => str_lt kv.1 k) m -> bt_insert k v m = m ++ [(k, v)].
Proof.
  induction 1 as [|[k1 v1] m H1 Hm IH]; simpl; [done|].
  apply str_compare_gt in H1. simpl in H1. by rewrite H1, IH.
Qed.

(** Collecting a list that is already sorted is the identity. *)
Lemma bt_collect_id m : bt_sorted m -> bt_collect m = m.
Proof.
  unfold bt_collect. intros Hm.
  assert (forall acc, Forall (fun kv : str * V => Forall (fun kv' => str_lt kv'.1 kv.1) acc) m ->
    foldl (fun m '(k, v) => bt_insert k v m) acc m = acc ++ m) as H.
  { induction m as [|[k v] m IH]; intros acc Hacc; simpl; [by rewrite app_nil_r|].
    inversion_clear Hacc as [|?? Hk Hr]. destruct Hm as [Hlt Hm].
    rewrite bt_insert_last by done. rewrite IH; [by rewrite <-app_assoc|done|].
    apply Forall_forall. intros [k2 v2] Hin.
    rewrite Forall_forall in Hlt, Hr.
    apply Forall_app. split; [by apply Hr|]. constructor; [|done]. by apply (Hlt (k2, v2)). }
  apply H. apply Forall_forall. constructor.
Qed.

Lemma bt_get_insert_eq k (v : V) m : bt_get k (bt_insert k v m) = Some v.
Proof.
  induction m as [|[k1 v1] m IH]; simpl; [by rewrite decide_True|].
  destruct (str_compare k k1) eqn:E; simpl; [by rewrite decide_True..|].
  apply str_compare_gt in E. rewrite decide_False; [done|].
  intros ->. by apply str_lt_irrefl in E.
Qed.

Lemma bt_get_insert_ne k k' (v : V) m : k <> k' -> bt_get k' (bt_insert k v m) = bt_get k' m.
Proof.
  intros Hk. induction m as [|[k1 v1] m IH]; simpl; [by rewrite decide_False|].
  destruct (str_compare k k1) eqn:E; simpl.
  - apply str_compare_eq in E as ->. by rewrite !decide_False.
  - by rewrite (decide_False (P := k' = k)).
  - case_decide; auto.
Qed.

Lemma bt_insert_elem k (v : V) m kv :
  kv ∈ bt_insert k v m -> kv = (k, v) \/ kv ∈ m.
Proof.
  induction m as [|[k1 v1] m IH]; simpl; [set_solver|].
  destruct (str_compare k k1); set_solver.
Qed.

Lemma bt_collect_Forall (P : str * V -> Prop) l : Forall P l -> Forall P (bt_collect l).
Proof.
  unfold bt_collect. intros Hl. assert (H : Forall P []) by done. revert H.
  generalize (@nil (str * V)). induction Hl as [|[k v] l Hkv Hl IH]; intros m Hm; simpl; [done|].
  apply IH. apply Forall_forall. intros kv [->|Hin]%bt_insert_elem; [done|].
  rewrite Forall_forall in Hm. auto.
Qed.
Lemma bt_get_elem k (v : V) m : bt_get k m = Some v -> (k, v) ∈ m.
Proof.
  induction m as [|[k' v'] m IH]; simpl; [done|]. case_decide; [intros [= ->]; subst; by left|].
  intros H'. right. auto.
Qed.

Lemma bt_elem_get k (v : V) m : bt_sorted m -> (k, v) ∈ m -> bt_get k m = Some v.
Proof.
  induction m as [|[k' v'] m IH]; simpl; [by intros _ ?%elem_of_nil|].
  intros [Hlt Hs] [E|Hin]%elem_of_cons.
  - injection E as -> ->. by rewrite decide_True.
  - rewrite decide_False; [auto|]. intros ->. rewrite Forall_forall in Hlt.
    by apply (str_lt_irrefl k'), (Hlt _ Hin).
Qed.
End btree_lemmas.

#[export] Hint Resolve bt_collect_sorted bt_insert_sorted split_on_nonempty : heph.
