(* ===== verification/Numerals.v ===== *)
(** Numbers as text: Rust's [Display], [{:x}], [{:04X}], [{:06}] formatting and
    [str::parse::<u64>] / [u64::from_str_radix], with the round trip between
    them that the unit and address files rely on. *)
From S2P Require Import Prelude.

Local Open Scope N_scope.

(** ** Digits in a base *)

Section digits.
Variable base : N.

(** Most significant digit first; [fuel] bounds the number of digits. *)
Fixpoint digits_fuel (fuel : nat) (n : N) (acc : list N) : list N :=
  match fuel with
  | O => acc
  | S fuel =>
      let acc := n mod base :: acc in
      if n / base =? 0 then acc else digits_fuel fuel (n / base) acc
  end.

(** A number has at most as many digits as it has bits (one for zero). *)
Definition digits (n : N) : list N := digits_fuel (S (N.size_nat n)) n [].

Definition value (ds : list N) : N := foldl (fun acc d => acc * base + d) 0 ds.

Lemma value_app a b :
  value (a ++ b) = value a * base ^ N.of_nat (length b) + value b.
Proof.
  unfold value. rewrite foldl_app. generalize (foldl (fun acc d => acc * base + d) 0 a).
  induction b as [|d b IH] using rev_ind; intros x; simpl; [by rewrite N.mul_1_r, N.add_0_r|].
  rewrite length_app, !foldl_app, IH. simpl.
  rewrite Nat.add_1_r, Nat2N.inj_succ, N.pow_succ_r by lia. lia.
Qed.

Lemma value_cons d b : value (d :: b) = d * base ^ N.of_nat (length b) + value b.
Proof. exact (value_app [d] b). Qed.

Hypothesis Hbase : 2 <= base.

Lemma digits_fuel_value fuel n acc : n < 2 ^ N.of_nat fuel -> (0 < fuel)%nat ->
  value (digits_fuel fuel n acc) = n * base ^ N.of_nat (length acc) + value acc.
Proof.
  revert n acc; induction fuel as [|fuel IH]; intros n acc Hn Hf; [lia|]. simpl digits_fuel.
  pose proof (N.div_mod n base ltac:(lia)) as Hdm.
  pose proof (N.mod_upper_bound n base ltac:(lia)) as Hm.
  destruct (N.eqb_spec (n / base) 0) as [Hz|Hz].
  - rewrite value_cons, (N.mod_small n base) by nia. done.
  - destruct fuel as [|fuel].
    { destruct Hz. apply N.div_small. simpl in Hn. lia. }
    rewrite IH; [|apply N.Div0.div_lt_upper_bound;
      rewrite (Nat2N.inj_succ (S fuel)), N.pow_succ_r in Hn by lia; nia|lia].
    rewrite value_cons. simpl length. rewrite Nat2N.inj_succ, N.pow_succ_r by lia. nia.
Qed.

Lemma size_nat_bound n : n < 2 ^ N.of_nat (S (N.size_nat n)).
Proof.
  destruct (decide (n = 0)) as [->|Hn]; [simpl; lia|].
  rewrite Nat2N.inj_succ. pose proof (N.size_gt n).
  assert (N.of_nat (N.size_nat n) = N.size n) as ->.
  { destruct n as [|p]; [done|]. change (N.of_nat (Pos.size_nat p) = N.pos (Pos.size p)).
    clear. induction p as [p IH|p IH|]; cbn [Pos.size_nat Pos.size]; [| |done];
      by rewrite Nat2N.inj_succ, IH. }
  rewrite N.pow_succ_r by lia. lia.
Qed.

Lemma digits_value n : value (digits n) = n.
Proof.
  unfold digits. rewrite digits_fuel_value by (apply size_nat_bound || lia).
  simpl. unfold value. simpl. lia.
Qed.

Lemma digits_fuel_Forall fuel n acc :
  Forall (fun d => d < base) acc -> Forall (fun d => d < base) (digits_fuel fuel n acc).
Proof.
  revert n acc; induction fuel as [|fuel IH]; intros n acc H; simpl; [done|].
  assert (Forall (fun d => d < base) (n mod base :: acc)).
  { constructor; [apply N.mod_upper_bound; lia|done]. }
  destruct (_ =? 0); auto.
Qed.

Lemma digits_Forall n : Forall (fun d => d < base) (digits n).
Proof. by apply digits_fuel_Forall. Qed.

Lemma digits_fuel_nonempty fuel n acc : (0 < fuel)%nat \/ acc <> [] -> digits_fuel fuel n acc <> [].
Proof.
  revert n acc; induction fuel as [|fuel IH]; intros n acc H; simpl; [by destruct H as [H%Nat.nlt_0_r|H]|].
  destruct (_ =? 0); [done|]. apply IH. by right.
Qed.

Lemma digits_nonempty n : digits n <> [].
Proof. apply digits_fuel_nonempty. left. apply Nat.lt_0_succ. Qed.
End digits.

(** ** Characters *)

Definition dec_char (d : N) : char := 48 + d.
Definition hex_char (d : N) : char := if d <? 10 then 48 + d else 87 + d.
Definition hex_char_upper (d : N) : char := if d <? 10 then 48 + d else 55 + d.
Definition digit_of (c : char) : N := c - 48.
Definition hex_digit_of (c : char) : N :=
  if c <=? 57 then c - 48 else if c <=? 70 then c - 55 else c - 87.

(** [u64::to_string], [{:x}], [{:X}]. *)
Definition to_dec (n : N) : str := dec_char <$> digits 10 n.
Definition to_hex (n : N) : str := hex_char <$> digits 16 n.
Definition to_hex_upper (n : N) : str := hex_char_upper <$> digits 16 n.

(** Zero padding on the left, as in [{:06}] and [{:04X}]. *)
Definition pad0 (w : nat) (s : str) : str := replicate (w - length s) #"0" ++ s.

(** [str::parse::<u64>] of a string that is digits only (no sign reaches it
    where the sources call it): empty and overflowing inputs are errors. *)
Definition parse_u64 (s : str) : option N :=
  match s with
  | [] => None
  | _ =>
      if forallb is_ascii_digit s then
        let n := value 10 (digit_of <$> s) in if n <=? u64_max then Some n else None
      else None
  end.

(** [u32::from_str_radix(s, 16)] for at most six hex digits. *)
Definition parse_hex (s : str) : option N :=
  match s with
  | [] => None
  | _ => if forallb is_ascii_hexdigit s then Some (value 16 (hex_digit_of <$> s)) else None
  end.

(** ** Round trips *)

Lemma is_digit_dec_char d : d < 10 -> is_ascii_digit (dec_char d) = true.
Proof. intros H. unfold is_ascii_digit, dec_char. apply andb_true_iff. rewrite !N.leb_le. lia. Qed.

Lemma digit_of_dec_char d : digit_of (dec_char d) = d.
Proof. unfold digit_of, dec_char. lia. Qed.

Lemma to_dec_digits n : Forall (fun c => is_ascii_digit c = true) (to_dec n).
Proof.
  unfold to_dec. apply Forall_fmap. eapply Forall_impl; [by apply digits_Forall|].
  intros d Hd. by apply is_digit_dec_char.
Qed.

Lemma digits_of_dec (ds : list N) : digit_of <$> (dec_char <$> ds) = ds.
Proof.
  induction ds as [|d ds IH]; [done|]. rewrite !fmap_cons, IH. by rewrite digit_of_dec_char.
Qed.

Lemma to_dec_nonempty n : to_dec n <> [].
Proof.
  unfold to_dec. pose proof (digits_nonempty 10 n). by destruct (digits 10 n).
Qed.

Lemma Forall_forallb {A} (p : A -> bool) l :
  Forall (fun x => p x = true) l -> forallb p l = true.
Proof. induction 1 as [|x l Hx _ IH]; simpl; [done|]. by rewrite Hx, IH. Qed.

Lemma forallb_Forall {A} (p : A -> bool) l :
  forallb p l = true -> Forall (fun x => p x = true) l.
Proof. induction l as [|x l IH]; simpl; [done|]. intros [??]%andb_true_iff. auto. Qed.

Lemma to_dec_value n : value 10 (digit_of <$> to_dec n) = n.
Proof. unfold to_dec. by rewrite digits_of_dec, digits_value by lia. Qed.

(** Printing a [u64] and parsing it back. *)
Lemma parse_u64_to_dec n : is_u64 n -> parse_u64 (to_dec n) = Some n.
Proof.
  intros Hn. unfold parse_u64. pose proof (to_dec_nonempty n).
  destruct (to_dec n) as [|c s] eqn:E; [done|]. rewrite <-E.
  rewrite Forall_forallb by apply to_dec_digits. rewrite to_dec_value.
  by rewrite (proj2 (N.leb_le _ _) Hn).
Qed.

Lemma is_hex_hex_char d : d < 16 -> is_ascii_hexdigit (hex_char d) = true.
Proof.
  intros H. unfold is_ascii_hexdigit, is_ascii_digit, hex_char.
  destruct (N.ltb_spec d 10).
  - rewrite (proj2 (N.leb_le 48 _)), (proj2 (N.leb_le _ 57)) by lia. done.
  - rewrite (proj2 (N.leb_le 97 _)), (proj2 (N.leb_le _ 102)) by lia.
    by rewrite andb_true_r, orb_true_r.
Qed.

Lemma hex_digit_of_hex_char d : d < 16 -> hex_digit_of (hex_char d) = d.
Proof.
  intros H. unfold hex_digit_of, hex_char.
  destruct (N.ltb_spec d 10).
  - rewrite (proj2 (N.leb_le _ 57)) by lia. lia.
  - rewrite (proj2 (N.leb_gt _ 57)), (proj2 (N.leb_gt _ 70)) by lia. lia.
Qed.

Lemma to_hex_hexdigits n : Forall (fun c => is_ascii_hexdigit c = true) (to_hex n).
Proof.
  unfold to_hex. apply Forall_fmap. eapply Forall_impl; [by apply digits_Forall|].
  intros d Hd. by apply is_hex_hex_char.
Qed.

Lemma to_hex_nonempty n : to_hex n <> [].
Proof. unfold to_hex. pose proof (digits_nonempty 16 n). by destruct (digits 16 n). Qed.

Lemma parse_hex_to_hex n : parse_hex (to_hex n) = Some n.
Proof.
  unfold parse_hex. pose proof (to_hex_nonempty n).
  destruct (to_hex n) as [|c s] eqn:E; [done|]. rewrite <-E.
  rewrite Forall_forallb by apply to_hex_hexdigits. f_equal. unfold to_hex.
  assert (forall ds : list N, Forall (fun d => d < 16) ds -> hex_digit_of <$> (hex_char <$> ds) = ds) as Hd.
  { induction 1 as [|d ds Hd _ IH]; [done|]. by rewrite !fmap_cons, IH, hex_digit_of_hex_char. }
  by rewrite Hd, digits_value by (by apply digits_Forall || lia).
Qed.

(** ** Fixed width *)

Lemma digits_fuel_length base fuel n acc k :
  2 <= base -> n < base ^ N.of_nat k -> (0 < k)%nat ->
  (length (digits_fuel base fuel n acc) <= length acc + k)%nat.
Proof.
  intros Hb. revert n acc k. induction fuel as [|fuel IH]; intros n acc k Hn Hk; simpl; [lia|].
  destruct (N.eqb_spec (n / base) 0) as [Hz|Hz]; [simpl; lia|]. destruct k as [|k]; [lia|].
  rewrite Nat2N.inj_succ, N.pow_succ_r in Hn by lia.
  destruct k as [|k]; [destruct Hz; apply N.div_small; simpl in Hn; lia|].
  trans (length ((n mod base)%N :: acc) + S k)%nat; [|simpl; lia].
  apply IH; [by apply N.Div0.div_lt_upper_bound|lia].
Qed.

(** A number below [16 ^ w] printed at width [w] has that width exactly, and is
    determined by what is printed. *)
Lemma pad0_hex_length w n : (0 < w)%nat -> n < 16 ^ N.of_nat w -> length (pad0 w (to_hex n)) = w.
Proof.
  intros Hw Hn. assert (length (to_hex n) <= w)%nat.
  { unfold to_hex, digits. rewrite length_fmap. trans (length (@nil N) + w)%nat; [|done].
    by apply digits_fuel_length. }
  unfold pad0. rewrite length_app, length_replicate. lia.
Qed.

Lemma value_leading_zeros base k ds : value base (replicate k 0 ++ ds) = value base ds.
Proof.
  rewrite value_app. assert (value base (replicate k 0) = 0) as ->; [|lia].
  unfold value. induction k as [|k IH]; [done|]. exact IH.
Qed.

Lemma pad0_hex_value w n : value 16 (hex_digit_of <$> pad0 w (to_hex n)) = n.
Proof.
  unfold pad0. rewrite fmap_app, fmap_replicate. change (hex_digit_of _) with 0.
  rewrite value_leading_zeros. pose proof (parse_hex_to_hex n) as H. unfold parse_hex in H.
  by repeat case_match; simplify_eq.
Qed.

Lemma pad0_hex_inj w m n : pad0 w (to_hex m) = pad0 w (to_hex n) -> m = n.
Proof. intros E. by rewrite <- (pad0_hex_value w m), E, pad0_hex_value. Qed.

Lemma pad0_hex_lower w n :
  Forall (fun c => is_ascii_digit c || is_ascii_lowercase c = true) (pad0 w (to_hex n)).
Proof.
  unfold pad0. apply Forall_app. split; [by apply Forall_replicate|]. unfold to_hex. apply Forall_fmap.
  eapply Forall_impl; [by apply digits_Forall|]. intros d Hd. simpl in Hd.
  unfold compose, hex_char, is_ascii_digit, is_ascii_lowercase.
  destruct (N.ltb_spec d 10); rewrite orb_true_iff, !andb_true_iff, !N.leb_le; lia.
Qed.
