(* ===== verification/Nom.v ===== *)
(** The interface to the [nom] parser combinators.

    [nom] is a third-party crate, so its combinators are parameters here: [Nom]
    lists the operations [htaddr/parse.rs] calls and [NomLaws] their documented
    behaviour. All of the parsers are the [complete] variants and none of them
    cuts, so a failure is always the recoverable [Err::Error] and a parser is a
    partial function from the input to the rest of the input and an output.
    [nom_ref] is a concrete instance, used to show that the laws can hold and
    to run the parsers. *)
From S2P Require Import Prelude.

(** [IResult<&str, A>]. *)
Definition IResult (A : Type) : Type := option (str * A).
Definition parser (A : Type) : Type := str -> IResult A.

Class Nom := {
  tag : str -> parser str;
  nchar : char -> parser char;
  take_till : (char -> bool) -> parser str;
  take_till1 : (char -> bool) -> parser str;
  opt : forall {A}, parser A -> parser (option A);
  preceded : forall {A B}, parser A -> parser B -> parser B;
  delimited : forall {A B C}, parser A -> parser B -> parser C -> parser B;
  alt2 : forall {A}, parser A -> parser A -> parser A;
  separated_list1 : forall {A B}, parser B -> parser A -> parser (list A);
  all_consuming : forall {A}, parser A -> parser A;
}.

Class NomLaws (nom : Nom) : Prop := {
  tag_law t i : tag t i = (fun r => (r, t)) <$> strip_prefix t i;
  nchar_law c i :
    nchar c i = match i with
                | x :: r => if decide (x = c) then Some (r, c) else None
                | [] => None
                end;
  take_till_law p i : take_till p i = let '(a, b) := span_till p i in Some (b, a);
  take_till1_law p i :
    take_till1 p i = let '(a, b) := span_till p i in
                     match a with [] => None | _ => Some (b, a) end;
  opt_law {A} (f : parser A) i :
    opt f i = match f i with Some (r, a) => Some (r, Some a) | None => Some (i, None) end;
  preceded_law {A B} (f : parser A) (g : parser B) i :
    preceded f g i = match f i with Some (r, _) => g r | None => None end;
  delimited_law {A B C} (f : parser A) (g : parser B) (h : parser C) i :
    delimited f g h i =
      match f i with
      | Some (r, _) =>
          match g r with
          | Some (r', b) => match h r' with Some (r'', _) => Some (r'', b) | None => None end
          | None => None
          end
      | None => None
      end;
  alt2_law {A} (f g : parser A) i :
    alt2 f g i = match f i with Some x => Some x | None => g i end;
  (** The first element is mandatory; a separator not followed by an element
      is left in the input. *)
  separated_list1_law {A B} (sep : parser B) (f : parser A) i :
    (forall s r b, sep s = Some (r, b) -> length r < length s) ->
    (forall s r a, f s = Some (r, a) -> length r <= length s) ->
    separated_list1 sep f i =
      match f i with
      | None => None
      | Some (r, a) =>
          match sep r with
          | None => Some (r, [a])
          | Some (r', _) =>
              match f r' with
              | None => Some (r, [a])
              | Some _ =>
                  match separated_list1 sep f r' with
                  | Some (r'', l) => Some (r'', a :: l)
                  | None => None
                  end
              end
          end
      end;
  all_consuming_law {A} (f : parser A) i :
    all_consuming f i = match f i with Some ([], a) => Some ([], a) | _ => None end;
}.

(** ** A concrete instance *)

Fixpoint ref_separated_list1 {A B} (fuel : nat) (sep : parser B) (f : parser A) (i : str)
    : IResult (list A) :=
  match fuel with
  | O => None
  | S fuel =>
      match f i with
      | None => None
      | Some (r, a) =>
          match sep r with
          | None => Some (r, [a])
          | Some (r', _) =>
              match f r' with
              | None => Some (r, [a])
              | Some _ =>
                  match ref_separated_list1 fuel sep f r' with
                  | Some (r'', l) => Some (r'', a :: l)
                  | None => None
                  end
              end
          end
      end
  end.

Lemma ref_separated_list1_fuel {A B} (sep : parser B) (f : parser A) n m i :
  (forall s r b, sep s = Some (r, b) -> length r < length s) ->
  (forall s r a, f s = Some (r, a) -> length r <= length s) ->
  length i < n -> length i < m ->
  ref_separated_list1 n sep f i = ref_separated_list1 m sep f i.
Proof.
  intros Hsep Hf. revert m i; induction n as [|n IH]; intros [|m] i Hn Hm; try lia. simpl.
  destruct (f i) as [[r a]|] eqn:E1; [|done]. destruct (sep r) as [[r' b]|] eqn:E2; [|done].
  apply Hf in E1. apply Hsep in E2. destruct (f r'); [|done]. by rewrite (IH m) by lia.
Qed.

#[local] Instance nom_ref : Nom := {
  tag t i := (fun r => (r, t)) <$> strip_prefix t i;
  nchar c i := match i with
               | x :: r => if decide (x = c) then Some (r, c) else None
               | [] => None
               end;
  take_till p i := let '(a, b) := span_till p i in Some (b, a);
  take_till1 p i := let '(a, b) := span_till p i in
                    match a with [] => None | _ => Some (b, a) end;
  opt A f i := match f i with Some (r, a) => Some (r, Some a) | None => Some (i, None) end;
  preceded A B f g i := match f i with Some (r, _) => g r | None => None end;
  delimited A B C f g h i :=
    match f i with
    | Some (r, _) =>
        match g r with
        | Some (r', b) => match h r' with Some (r'', _) => Some (r'', b) | None => None end
        | None => None
        end
    | None => None
    end;
  alt2 A f g i := match f i with Some x => Some x | None => g i end;
  separated_list1 A B sep f i := ref_separated_list1 (S (length i)) sep f i;
  all_consuming A f i := match f i with Some ([], a) => Some ([], a) | _ => None end;
}.

#[local] Instance nom_ref_laws : NomLaws nom_ref.
Proof.
  split; try done. intros A B sep f i Hsep Hf. simpl.
  destruct (f i) as [[r a]|] eqn:E1; [|done]. destruct (sep r) as [[r' b]|] eqn:E2; [|done].
  destruct (f r') as [p|] eqn:E3; [|done]. pose proof (Hf _ _ _ E1). pose proof (Hsep _ _ _ E2).
  rewrite (ref_separated_list1_fuel sep f (length i) (S (length r')) r') by (done || lia).
  simpl. by rewrite E3.
Qed.
