(* ===== verification/HtPkg.v ===== *)
(** Package paths: [crates/model/src/htpkg/pkg.rs].

    A [PkgBuf] is a newtype over [String]; here it is the string itself. The
    file models prefix tests, ancestor enumeration and the lexical join that
    bounds every path to the workspace root, and proves that the join lands on
    canonical packages, fails exactly when a [..] climbs above the root, and
    composes. *)
From S2P Require Import Prelude.

Abbreviation PkgBuf := (list N).

(** ** Operations *)

Inductive pkg_error := EscapesRoot (joined : str).

Definition is_empty (p : PkgBuf) : bool := match p with [] => true | _ => false end.

Definition components (p : PkgBuf) : list str :=
  filter (fun s => s <> []) (split_on #"/" p).

Definition has_prefix (self prefix : PkgBuf) : bool :=
  if is_empty prefix then true
  else match strip_prefix prefix self with
       | Some [] => true
       | Some rest => starts_with $"/" rest
       | None => false
       end.

(** One [next] of the iterator: the current package and what follows it. *)
Definition parent_next (cur : str) : option str :=
  if is_empty cur then None
  else Some match rsplit_once #"/" cur with
            | Some (parent, _) => parent
            | None => []
            end.

Fixpoint parent_packages_from (fuel : nat) (next : option str) : list PkgBuf :=
  match fuel, next with
  | S fuel, Some cur => cur :: parent_packages_from fuel (parent_next cur)
  | _, _ => []
  end.

(** Every step shortens the package, so its length bounds the iteration. *)
Definition parent_packages (p : PkgBuf) : list PkgBuf :=
  parent_packages_from (S (length p)) (Some p).

Definition join_raw (pkg rel : str) : str :=
  if is_empty pkg then rel
  else if is_empty rel then pkg
  else pkg ++ $"/" ++ rel.

Definition finish (out : list str) (original : str) : str :=
  let s := join $"/" out in
  if ends_with $"/" original && negb (is_empty s) then s ++ $"/" else s.

(** The segment loop. [out] is the [Vec] with its last element first. *)
Fixpoint normalize (segs out : list str) : option (list str) :=
  match segs with
  | [] => Some out
  | c :: r =>
      if decide (c = [] \/ c = $".") then normalize r out
      else if decide (c = $"..") then
        match out with [] => None | _ :: out' => normalize r out' end
      else normalize r (c :: out)
  end.

Definition join_rel_checked (pkg rel : str) : result pkg_error str :=
  let joined := join_raw pkg rel in
  match normalize (split_on #"/" joined) [] with
  | None => Err (EscapesRoot joined)
  | Some out => Ok (finish (reverse out) joined)
  end.

Definition join_rel_checked_pkg (pkg rel : str) : result pkg_error str :=
  trim_end_matches (N.eqb #"/") <$> join_rel_checked pkg rel.

(** ** Canonical packages *)

(** A segment that names a directory. *)
Definition good_seg (s : str) : Prop :=
  s <> [] /\ s <> $"." /\ s <> $".." /\ #"/" ∉ s.

(** A canonical package: good segments joined by single slashes. *)
Definition canonical (p : PkgBuf) : Prop :=
  exists segs, Forall good_seg segs /\ p = join $"/" segs.

#[export] Instance good_seg_dec s : Decision (good_seg s).
Proof. unfold good_seg. apply _. Defined.

Lemma good_seg_no_slash segs :
  Forall good_seg segs -> Forall (fun x => #"/" ∉ x) segs.
Proof. intros H. eapply Forall_impl; [exact H|]. unfold good_seg. naive_solver. Qed.

Lemma good_seg_nonempty segs : Forall good_seg segs -> Forall (fun x => x <> []) segs.
Proof. intros H. eapply Forall_impl; [exact H|]. unfold good_seg. naive_solver. Qed.

Lemma filter_nonempty_id (l : list str) :
  Forall (fun x => x <> []) l -> filter (fun s => s <> []) l = l.
Proof.
  induction 1 as [|x l Hx Hl IH]; [done|]. rewrite filter_cons_True by done. by rewrite IH.
Qed.

Lemma components_join segs :
  Forall good_seg segs -> components (join $"/" segs) = segs.
Proof.
  intros H. unfold components. destruct segs as [|x segs]; [done|].
  rewrite split_on_join; [|done|by apply good_seg_no_slash].
  by apply filter_nonempty_id, good_seg_nonempty.
Qed.

Lemma canonical_components p :
  canonical p -> Forall good_seg (components p) /\ p = join $"/" (components p).
Proof. intros (segs & H & ->). by rewrite !components_join. Qed.

Lemma canonical_inj p q : canonical p -> canonical q -> components p = components q -> p = q.
Proof.
  intros [_ Hp]%canonical_components [_ Hq]%canonical_components E. by rewrite Hp, Hq, E.
Qed.

Lemma join_eq_nil segs : Forall good_seg segs -> join $"/" segs = [] -> segs = [].
Proof.
  intros H E. apply (f_equal components) in E. by rewrite components_join in E.
Qed.

Lemma canonical_nil : canonical [].
Proof. by exists []. Qed.

#[export] Instance canonical_dec p : Decision (canonical p).
Proof.
  refine (cast_if (decide (Forall good_seg (components p) /\ p = join $"/" (components p)))).
  - abstract (unfold canonical; naive_solver).
  - abstract (by intros ?%canonical_components).
Defined.

(** ** The segment loop *)

Lemma normalize_app a b out :
  normalize (a ++ b) out = normalize a out ≫= normalize b.
Proof.
  revert out; induction a as [|c a IH]; intros out; simpl; [done|].
  repeat case_decide; auto. by destruct out.
Qed.

Lemma normalize_skip_nil segs out :
  normalize (filter (fun s => s <> []) segs) out = normalize segs out.
Proof.
  revert out; induction segs as [|c segs IH]; intros out; [done|].
  destruct (decide (c = [])) as [->|Hc].
  - rewrite filter_cons_False by naive_solver. simpl. by rewrite IH.
  - rewrite filter_cons_True by done. simpl. by repeat case_decide; try destruct out.
Qed.

Lemma components_app_sep a b :
  components (a ++ #"/" :: b) = components a ++ components b.
Proof. unfold components. by rewrite split_on_app, filter_app. Qed.

(** Joining concatenates the components of both sides. *)
Lemma components_join_raw pkg rel :
  components (join_raw pkg rel) = components pkg ++ components rel.
Proof.
  unfold join_raw. destruct pkg as [|c pkg], rel as [|c' rel]; simpl is_empty; cbv iota.
  - done.
  - done.
  - by rewrite app_nil_r.
  - exact (components_app_sep (c :: pkg) (c' :: rel)).
Qed.

(** The result of the loop, as packages: the segments it pushed are good, and
    a trailing slash is trimmed again by the package form. *)
Definition walk (segs : list str) : option (list str) := reverse <$> normalize segs [].

Lemma normalize_good segs out out' :
  Forall (fun x => #"/" ∉ x) segs -> Forall good_seg out ->
  normalize segs out = Some out' -> Forall good_seg out'.
Proof.
  intros Hsegs. revert out. induction Hsegs as [|c segs Hc _ IH]; intros out Ho; simpl.
  - by intros [= <-].
  - repeat case_decide.
    + by apply IH.
    + destruct out; [done|]. inversion Ho; eauto.
    + apply IH. constructor; [|done]. unfold good_seg. naive_solver.
Qed.

Lemma normalize_good_id segs out :
  Forall good_seg segs -> normalize segs out = Some (reverse segs ++ out).
Proof.
  intros H. revert out. induction H as [|c segs (H1 & H2 & H3 & H4) _ IH]; intros out; [done|].
  simpl. rewrite decide_False by naive_solver. rewrite decide_False by done.
  by rewrite IH, reverse_cons, <-app_assoc.
Qed.

Lemma trim_start_matches_head p c s :
  p c = false -> trim_start_matches p (c :: s) = c :: s.
Proof. simpl. by intros ->. Qed.

Lemma trim_end_matches_snoc_keep p s c :
  p c = false -> trim_end_matches p (s ++ [c]) = s ++ [c].
Proof.
  intros H. unfold trim_end_matches. rewrite reverse_snoc, trim_start_matches_head by done.
  by rewrite reverse_cons, reverse_involutive.
Qed.

Lemma trim_end_matches_snoc_drop p s c :
  p c = true -> trim_end_matches p (s ++ [c]) = trim_end_matches p s.
Proof. intros H. unfold trim_end_matches. by rewrite reverse_snoc; simpl; rewrite H. Qed.

Lemma join_good_last segs : Forall good_seg segs -> segs <> [] ->
  exists s c, join $"/" segs = s ++ [c] /\ c <> #"/".
Proof.
  intros H Hne. destruct segs as [|x segs _] using rev_ind; [done|].
  apply Forall_app in H as [H1 (Hx & _ & _ & Hs)%Forall_singleton].
  destruct x as [|c x _] using rev_ind; [done|].
  assert (c <> #"/") by set_solver.
  destruct (decide (segs = [])) as [->|Hs']; [by exists x, c|].
  rewrite join_app by done. exists (join $"/" segs ++ $"/" ++ x), c.
  split; [|done]. simpl. by rewrite <-app_assoc.
Qed.

Lemma trim_join segs : Forall good_seg segs ->
  trim_end_matches (N.eqb #"/") (join $"/" segs) = join $"/" segs.
Proof.
  intros H. destruct (decide (segs = [])) as [->|Hne]; [done|].
  destruct (join_good_last segs H Hne) as (s & c & -> & Hc).
  apply trim_end_matches_snoc_keep. by apply N.eqb_neq.
Qed.

Lemma trim_finish segs original : Forall good_seg segs ->
  trim_end_matches (N.eqb #"/") (finish segs original) = join $"/" segs.
Proof.
  intros H. unfold finish. destruct (_ && _); [|by apply trim_join].
  rewrite trim_end_matches_snoc_drop by done. by apply trim_join.
Qed.

(** The package join is the walk over the components of both sides. *)
Lemma join_rel_checked_pkg_walk pkg rel :
  join_rel_checked_pkg pkg rel =
  match walk (components pkg ++ components rel) with
  | Some out => Ok (join $"/" out)
  | None => Err (EscapesRoot (join_raw pkg rel))
  end.
Proof.
  unfold join_rel_checked_pkg, join_rel_checked, walk.
  rewrite <-components_join_raw. unfold components at 1. rewrite normalize_skip_nil.
  destruct (normalize _ []) as [out|] eqn:E; simpl; [|done].
  rewrite trim_finish; [done|]. apply Forall_reverse.
  by eapply normalize_good in E; [|apply split_on_Forall|constructor].
Qed.

Lemma components_no_slash p : Forall (fun x => #"/" ∉ x) (components p).
Proof.
  pose proof (split_on_Forall #"/" p) as H. rewrite Forall_forall in H.
  apply Forall_forall. intros x [_ Hx]%list_elem_of_filter. auto.
Qed.

Lemma walk_good segs out :
  Forall (fun x => #"/" ∉ x) segs -> walk segs = Some out -> Forall good_seg out.
Proof.
  unfold walk. intros H. rewrite fmap_Some. intros (o & E & ->).
  apply Forall_reverse. by eapply normalize_good; [..|exact E].
Qed.

Lemma walk_good_id segs : Forall good_seg segs -> walk segs = Some segs.
Proof.
  intros H. unfold walk. rewrite normalize_good_id by done. simpl.
  by rewrite app_nil_r, reverse_involutive.
Qed.

Lemma walk_app a b :
  walk (a ++ b) = walk a ≫= (fun o => reverse <$> normalize b (reverse o)).
Proof.
  unfold walk. rewrite normalize_app. destruct (normalize a []); simpl; [|done].
  by rewrite reverse_involutive.
Qed.

Lemma walk_app_good a o b : Forall good_seg o -> walk a = Some o ->
  walk (a ++ b) = walk (o ++ b).
Proof. intros Ho E. by rewrite !walk_app, E, walk_good_id. Qed.

(** A canonical relative path joined on the root package is itself. *)
Lemma join_root_canonical p : canonical p -> join_rel_checked_pkg [] p = Ok p.
Proof.
  intros (segs & H & ->). rewrite join_rel_checked_pkg_walk. simpl.
  by rewrite components_join, walk_good_id.
Qed.

Lemma join_canonical pkg rel q : join_rel_checked_pkg pkg rel = Ok q -> canonical q.
Proof.
  rewrite join_rel_checked_pkg_walk. destruct (walk _) as [out|] eqn:E; [|done].
  intros [= <-]. exists out. split; [|done]. eapply walk_good; [|exact E].
  apply Forall_app. split; apply components_no_slash.
Qed.
#[export] Hint Resolve join_canonical join_root_canonical canonical_nil : heph.

(** ** Characters *)

Lemma split_on_chars d s x c : x ∈ split_on d s -> c ∈ x -> c ∈ s.
Proof.
  revert x; induction s as [|y s IH]; intros x; simpl.
  { by intros ->%list_elem_of_singleton. }
  rewrite elem_of_cons. case_decide.
  - intros [->|Hx]%elem_of_cons; [by intros ?%elem_of_nil|eauto].
  - destruct (split_on d s) as [|h t].
    + intros ->%list_elem_of_singleton ->%list_elem_of_singleton. by left.
    + intros [->|Hx]%elem_of_cons Hc; [|right; apply (IH x); [by right|done]].
      apply elem_of_cons in Hc as [->|Hc]; [by left|right]. apply (IH h); [by left|done].
Qed.

Lemma normalize_subset segs out out' x :
  normalize segs out = Some out' -> x ∈ out' -> x ∈ segs \/ x ∈ out.
Proof.
  revert out; induction segs as [|c segs IH]; intros out; simpl; [intros [= ->]; auto|].
  rewrite elem_of_cons. intros E Hx. repeat case_decide.
  - destruct (IH _ E Hx); auto.
  - destruct out as [|o out]; [done|]. rewrite elem_of_cons. destruct (IH _ E Hx); auto.
  - destruct (IH _ E Hx) as [|[->|]%elem_of_cons]; auto.
Qed.

Lemma join_elem sep l c : c ∈ join sep l -> c ∈ sep \/ exists x, x ∈ l /\ c ∈ x.
Proof.
  induction l as [|x l IH]; [by intros ?%elem_of_nil|].
  destruct l as [|y l]; [intros Hc; right; exists x; split; [by left|done]|].
  change (join sep (x :: y :: l)) with (x ++ sep ++ join sep (y :: l)).
  rewrite !elem_of_app. intros [Hc|[Hc|Hc]]; [right; exists x; split; [by left|done]|by left|].
  destruct (IH Hc) as [?|(z & Hz & ?)]; [by left|right]. exists z. split; [by right|done].
Qed.

(** A join invents no character but the separator. *)
Lemma join_rel_checked_pkg_chars pkg rel q c :
  join_rel_checked_pkg pkg rel = Ok q -> c ∈ q -> c = #"/" \/ c ∈ pkg \/ c ∈ rel.
Proof.
  rewrite join_rel_checked_pkg_walk. destruct (walk _) as [out|] eqn:E; [|done].
  intros [= <-] [Hc|(x & Hx & Hc)]%join_elem; [left; set_solver|right].
  unfold walk in E. apply fmap_Some in E as (o & E & ->). rewrite elem_of_reverse in Hx.
  destruct (normalize_subset _ _ _ _ E Hx) as [H|H]; [|by apply elem_of_nil in H].
  apply elem_of_app in H as [H|H]; apply list_elem_of_filter in H as [_ H];
    eapply split_on_chars in H; eauto.
Qed.

(** ** Escaping the root *)

(** How far a list of segments ends below (or above) where it starts. *)
Fixpoint depth (segs : list str) : Z :=
  match segs with
  | [] => 0
  | c :: r =>
      (if decide (c = [] \/ c = $".") then 0 else if decide (c = $"..") then -1 else 1) + depth r
  end%Z.

Lemma normalize_None segs out :
  normalize segs out = None <-> exists k, (Z.of_nat (length out) + depth (take k segs) < 0)%Z.
Proof.
  revert out; induction segs as [|c segs IH]; intros out; simpl.
  - split; [done|]. intros [k Hk]. rewrite take_nil in Hk. simpl in Hk. lia.
  - assert (Hs : forall z, (exists k, (z + depth (take k (c :: segs)) < 0)%Z) <->
      (z < 0 \/ exists k, z + (depth [c] + depth (take k segs)) < 0)%Z).
    { intros z. split.
      - intros [[|k] Hk]; [left; simpl in Hk; lia|right; exists k; simpl in *; lia].
      - intros [Hz|[k Hk]]; [exists 0; simpl; lia|exists (S k); simpl in *; lia]. }
    rewrite Hs. simpl. repeat case_decide.
    + rewrite IH. split; [intros [k Hk]; right; exists k; lia|].
      intros [?|[k Hk]]; [lia|exists k; lia].
    + destruct out as [|o out]; simpl.
      * split; [|done]. intros _. right. exists 0. simpl. lia.
      * rewrite IH. split; [intros [k Hk]; right; exists k; lia|].
        intros [?|[k Hk]]; [lia|exists k; lia].
    + rewrite IH. simpl. split; [intros [k Hk]; right; exists k; lia|].
      intros [?|[k Hk]]; [lia|exists k; lia].
Qed.

(** ** Prefixes and ancestors *)

Lemma join_length segs : Forall good_seg segs -> length segs <= length (join $"/" segs).
Proof.
  induction 1 as [|x segs (Hx & _) Hs IH]; simpl; [lia|].
  destruct x as [|c x]; [done|].
  destruct segs; simpl in *; [lia|]. rewrite length_app. simpl. lia.
Qed.

Lemma parent_next_snoc segs x :
  Forall good_seg (segs ++ [x]) -> parent_next (join $"/" (segs ++ [x])) = Some (join $"/" segs).
Proof.
  intros H. unfold parent_next.
  destruct (is_empty _) eqn:E.
  { destruct (join _ _) eqn:E' in E; [|done]. apply join_eq_nil in E'; [|done].
    by destruct segs. }
  apply Forall_app in H as [H (Hx & _ & _ & Hs)%Forall_singleton].
  destruct (decide (segs = [])) as [->|Hne].
  - simpl. by rewrite (proj2 (rsplit_once_None _ _) Hs).
  - rewrite join_app by done.
    by rewrite (proj2 (rsplit_once_Some #"/" _ (join $"/" segs) x)).
Qed.

Lemma parent_packages_from_join fuel segs :
  Forall good_seg segs -> length segs < fuel ->
  parent_packages_from fuel (Some (join $"/" segs)) =
  (fun k => join $"/" (take k segs)) <$> reverse (seq 0 (S (length segs))).
Proof.
  revert segs; induction fuel as [|fuel IH]; intros segs H Hf; [lia|].
  destruct segs as [|x segs _] using rev_ind; [by destruct fuel|].
  rewrite length_app in *. simpl length in *. rewrite Nat.add_1_r in *.
  change (parent_packages_from (S fuel) (Some (join $"/" (segs ++ [x])))) with
    (join $"/" (segs ++ [x]) ::
     parent_packages_from fuel (parent_next (join $"/" (segs ++ [x])))).
  rewrite parent_next_snoc by done. apply Forall_app in H as [H _].
  rewrite IH by (done || lia). rewrite (seq_S (S (length segs))).
  rewrite reverse_app, fmap_app.
  assert (Hks : forall k, k ∈ reverse (seq 0 (S (length segs))) -> k <= length segs).
  { intros k. rewrite elem_of_reverse, elem_of_seq. lia. }
  revert Hks. generalize (reverse (seq 0 (S (length segs)))). intros ks Hks.
  simpl. f_equal.
  - by rewrite take_ge by (rewrite length_app; simpl; lia).
  - apply list_fmap_ext. intros i k Hk. apply list_elem_of_lookup_2, Hks in Hk.
    by rewrite take_app_le by lia.
Qed.

Lemma parent_packages_eq p : canonical p ->
  parent_packages p =
  (fun k => join $"/" (take k (components p))) <$> reverse (seq 0 (S (length (components p)))).
Proof.
  intros (segs & H & ->). rewrite components_join by done.
  apply parent_packages_from_join; [done|]. pose proof (join_length _ H). lia.
Qed.

Lemma join_prefix segs l : Forall good_seg segs -> segs <> [] ->
  exists r, join $"/" (segs ++ l) = join $"/" segs ++ r /\
    (r = [] \/ exists r', r = #"/" :: r').
Proof.
  intros H Hne. destruct l as [|y l].
  - exists []. rewrite !app_nil_r. eauto.
  - exists ($"/" ++ join $"/" (y :: l)). rewrite join_app by done. eauto.
Qed.

Lemma has_prefix_iff p q : canonical p -> canonical q ->
  has_prefix p q = true <-> components q `prefix_of` components p.
Proof.
  intros Hp Hq. pose proof (canonical_components p Hp) as [Gp Ep].
  pose proof (canonical_components q Hq) as [Gq Eq]. unfold has_prefix.
  destruct (is_empty q) eqn:Eq0.
  { destruct q; [|done]. split; [|done]. intros _. apply prefix_nil. }
  assert (components q <> []) as Hne by (intros E; rewrite E in Eq; by subst).
  split.
  - destruct (strip_prefix q p) as [r|] eqn:E; [|done]. apply strip_prefix_Some in E.
    destruct r as [|c r]; [rewrite app_nil_r in E; by subst|].
    rewrite starts_with_true. intros [r' E']. simpl in E'. injection E' as -> ->.
    rewrite E, components_app_sep. by exists (components r').
  - intros [l El]. destruct (join_prefix (components q) l Gq Hne) as (r & Er & Hr).
    assert (p = q ++ r) as E by (rewrite Ep, El, Er, <-Eq; done).
    rewrite E, strip_prefix_app. by destruct Hr as [->|[r' ->]].
Qed.

(** ** Theorems *)

(** The workspace-root bound. A join fails exactly when, reading the
    components of the base and of the relative path from the left, some prefix
    has more [..] than named segments; every other join succeeds with a
    canonical package. *)
Theorem join_rel_checked_pkg_total pkg rel :
  (join_rel_checked_pkg pkg rel = Err (EscapesRoot (join_raw pkg rel)) /\
   exists k, (depth (take k (components pkg ++ components rel)) < 0)%Z) \/
  ((exists q, join_rel_checked_pkg pkg rel = Ok q /\ canonical q) /\
   forall k, (0 <= depth (take k (components pkg ++ components rel)))%Z).
Proof.
  pose proof (normalize_None (components pkg ++ components rel) []) as HN.
  destruct (join_rel_checked_pkg pkg rel) as [q|e] eqn:E; [right|left];
    rewrite join_rel_checked_pkg_walk in E; unfold walk in E.
  - split; [exists q; split; [done|]|].
    { by eapply join_canonical, eq_trans; [apply join_rel_checked_pkg_walk|]. }
    intros k. apply Z.nlt_ge. intros Hk.
    rewrite (proj2 HN) in E; [done|]. by exists k.
  - destruct (normalize _ _); simpl in E; [done|]. split; [done|by apply HN].
Qed.

(** Joins compose: resolving [a] from [p] and then [b] from the result is
    resolving the path [a/b] from [p]; in particular an escape is reported by
    one exactly when it is reported by the other. *)
Theorem join_rel_checked_pkg_assoc p a b q :
  join_rel_checked_pkg p a = Ok q ->
  map_err (fun _ => tt) (join_rel_checked_pkg q b) =
  map_err (fun _ => tt) (join_rel_checked_pkg p (a ++ $"/" ++ b)).
Proof.
  intros H. pose proof (join_canonical _ _ _ H) as Hq.
  rewrite join_rel_checked_pkg_walk in H. destruct (walk _) as [o|] eqn:E; [|done].
  injection H as <-. rewrite !join_rel_checked_pkg_walk.
  change (a ++ $"/" ++ b) with (a ++ #"/" :: b). rewrite components_app_sep, app_assoc.
  assert (Forall good_seg o) as Ho.
  { eapply walk_good; [|exact E]. apply Forall_app. split; apply components_no_slash. }
  rewrite (walk_app_good _ _ _ Ho E), components_join by done.
  by destruct (walk (o ++ components b)).
Qed.

Lemma join_rel_checked_pkg_assoc_witness :
  exists q, join_rel_checked_pkg $"a/b" $"../c" = Ok q /\
  map_err (fun _ => tt) (join_rel_checked_pkg q $"./d") =
  map_err (fun _ => tt) (join_rel_checked_pkg $"a/b" ($"../c" ++ $"/" ++ $"./d")).
Proof.
  exists $"a/c". split; [by vm_compute|].
  apply join_rel_checked_pkg_assoc. by vm_compute.
Defined.

(** On canonical packages the allocation-free string test [has_prefix] is
    the component-wise prefix test, so [ab] is not under [a]. *)
Theorem has_prefix_components p q : canonical p -> canonical q ->
  has_prefix p q = true <-> components q `prefix_of` components p.
Proof. apply has_prefix_iff. Qed.

Lemma has_prefix_components_witness :
  has_prefix $"foo/bar" $"foo" = true <-> components $"foo" `prefix_of` components $"foo/bar".
Proof. apply has_prefix_components; by apply (bool_decide_unpack _); vm_compute. Defined.

(** [parent_packages] of a canonical package yields its ancestors, itself
    first and the root last, and they are exactly the canonical packages it
    [has_prefix] of. *)
Theorem parent_packages_ancestors p : canonical p ->
  parent_packages p =
    (fun k => join $"/" (take k (components p))) <$> reverse (seq 0 (S (length (components p)))) /\
  forall q, q ∈ parent_packages p <-> canonical q /\ has_prefix p q = true.
Proof.
  intros Hp. split; [by apply parent_packages_eq|]. intros q.
  pose proof (canonical_components p Hp) as [Gp Ep].
  rewrite (parent_packages_eq p Hp), list_elem_of_fmap. split.
  - intros (k & -> & Hk). assert (canonical (join $"/" (take k (components p)))) as Hc.
    { exists (take k (components p)). split; [by apply Forall_take|done]. }
    split; [done|]. rewrite has_prefix_iff by done.
    rewrite components_join by (by apply Forall_take). apply prefix_take.
  - intros [Hq H]. rewrite has_prefix_iff in H by done. destruct H as [l Hl].
    exists (length (components q)). rewrite Hl, take_app_length. split.
    + by apply canonical_components.
    + rewrite elem_of_reverse, elem_of_seq, length_app. lia.
Qed.

Lemma parent_packages_ancestors_witness :
  parent_packages $"a/b/c" = [$"a/b/c"; $"a/b"; $"a"; []] /\
  forall q, q ∈ parent_packages $"a/b/c" <-> canonical q /\ has_prefix $"a/b/c" q = true.
Proof.
  split; [by vm_compute|].
  apply parent_packages_ancestors. by apply (bool_decide_unpack _); vm_compute.
Defined.
