(* ===== verification/HtLabel.v ===== *)
(** The label grammar: [crates/model/src/htlabel.rs]. *)
From S2P Require Import Prelude Numerals.

Inductive label_error :=
| EmptyLabel
| InvalidLabel (described : str).

Definition is_label_char (c : char) : bool :=
  is_ascii_alphanumeric c || (c =? #"-")%N || (c =? #"_")%N.

Definition is_valid (s : str) : bool :=
  match s with [] => false | _ => forallb is_label_char s end.

Definition describe_char (c : char) : str :=
  if decide (c = #" ") then $"a space"
  else if decide (c = 9%N) then $"a tab"
  else if is_whitespace c || is_control c then $"U+" ++ pad0 4 (to_hex_upper c)
  else $"`" ++ [c] ++ $"`".

Definition find_char (p : char -> bool) (s : str) : option char := List.find p s.

Definition validate (s : str) : result label_error unit :=
  match s with
  | [] => Err EmptyLabel
  | _ =>
      match find_char (fun c => negb (is_label_char c)) s with
      | Some bad => Err (InvalidLabel (describe_char bad))
      | None => Ok tt
      end
  end.

Definition looks_like_query_expr (s : str) : bool :=
  existsb (fun c => any_of $"&|!()" c || is_whitespace c) s.

Lemma find_char_None (p : char -> bool) s :
  find_char (fun c => negb (p c)) s = None <-> forallb p s = true.
Proof.
  unfold find_char. induction s as [|c s IH]; simpl; [done|].
  by destruct (p c); simpl.
Qed.

(** The declaring side ([validate]) and the selecting side ([is_valid]) accept
    the same labels. *)
Lemma validate_iff s : validate s = Ok tt <-> is_valid s = true.
Proof.
  unfold validate, is_valid. destruct s as [|c s]; [done|].
  rewrite <-find_char_None. by destruct (find_char _ _).
Qed.

(** A rejected non-empty label is rejected for its first offending character. *)
Lemma validate_first_offender a c b :
  forallb is_label_char a = true -> is_label_char c = false ->
  validate (a ++ c :: b) = Err (InvalidLabel (describe_char c)).
Proof.
  intros Ha Hc. unfold validate.
  assert (find_char (fun c => negb (is_label_char c)) (a ++ c :: b) = Some c) as ->.
  { unfold find_char. induction a as [|x a IH]; simpl in *; [by rewrite Hc|].
    apply andb_true_iff in Ha as [Hx Ha]. rewrite Hx. simpl. auto. }
  by destruct a.
Qed.

Lemma label_char_not_special c :
  is_label_char c = true -> any_of $"&|!()" c || is_whitespace c = false.
Proof.
  unfold is_label_char, is_ascii_alphanumeric, is_ascii_digit, is_ascii_lowercase,
    is_ascii_uppercase, any_of, is_whitespace.
  rewrite !orb_true_iff, !andb_true_iff, !N.leb_le, !N.eqb_eq. intros H.
  apply not_true_iff_false. simpl.
  rewrite !orb_true_iff, !andb_true_iff, !N.leb_le, !N.eqb_eq. lia.
Qed.

(** The query hint never fires on a label that validates. *)
Lemma valid_label_not_query_expr s :
  is_valid s = true -> looks_like_query_expr s = false.
Proof.
  unfold is_valid, looks_like_query_expr. destruct s as [|c s]; [done|].
  generalize (c :: s). clear. intros s H. apply not_true_iff_false.
  rewrite existsb_exists. intros (x & Hin & Hx).
  apply forallb_Forall in H. rewrite List.Forall_forall in H.
  by rewrite label_char_not_special in Hx by auto.
Qed.
