(* ===== verification/HtAddr.v ===== *)
(** Target addresses: [crates/model/src/htaddr/addr.rs] and [parse.rs].

    An [Addr] is a reference to an interned [AddrInner]; here it is the
    interned content, which is what equality compares once [Intern] below has
    shown that pointer equality is content equality. [args] is a [BTreeMap],
    kept as the strictly sorted association list it iterates as. *)
From S2P Require Import Prelude Numerals Nom HtPkg.

(** ** Data *)

Record Addr := mkAddr { package : PkgBuf; name : str; args : list (str * str) }.

#[export] Instance Addr_eq_dec : EqDecision Addr.
Proof. solve_decision. Defined.

(** [Addr::new]. *)
Definition Addr_new (package : PkgBuf) (name : str) (args : list (str * str)) : Addr :=
  mkAddr package name args.

(** ** Display *)

(** Values that would break [bare_value] parsing are quoted. *)
Definition needs_quotes (v : str) : bool :=
  match v with [] => true | _ => existsb (any_of ($" ,|" ++ [dquote])) v end.

Definition fmt_arg_kv (kv : str * str) : str :=
  let '(k, v) := kv in
  if needs_quotes v then k ++ $"=" ++ [dquote] ++ v ++ [dquote] else k ++ $"=" ++ v.

(** The [for (i, (k, v)) in args.iter().enumerate()] loop, [first] being [i == 0]. *)
Fixpoint fmt_args (first : bool) (kvs : list (str * str)) : str :=
  match kvs with
  | [] => []
  | kv :: r => (if first then [] else $",") ++ fmt_arg_kv kv ++ fmt_args false r
  end.

Definition format (a : Addr) : str :=
  $"//" ++ package a ++ $":" ++ name a ++
  (match args a with [] => [] | kvs => $"@" ++ fmt_args true kvs end).

(** ** Parsing *)

Inductive addr_error :=
| InvalidSyntax
| AddrPkg (e : pkg_error)
| MissingTargetName
| NotAReference.

Section parse.
Context {nom : Nom}.

Definition pkg : parser str := take_till (fun c => any_of $": " c).
Definition name_p : parser str := take_till1 (any_of $"@: |").
Definition key : parser str := take_till1 (any_of ($"=,@ |" ++ [dquote])).
Definition bare_value : parser str := take_till1 (any_of ($", |" ++ [dquote])).
Definition quoted_value : parser str :=
  delimited (nchar dquote) (take_till (fun c => (c =? dquote)%N)) (nchar dquote).
Definition value_p : parser str := alt2 quoted_value bare_value.

Definition arg : parser (str * str) := fun i =>
  match key i with
  | Some (i, k) =>
      match opt (preceded (nchar #"=") value_p) i with
      | Some (i, v) => Some (i, (k, default [] v))
      | None => None
      end
  | None => None
  end.

Definition args_p : parser (list (str * str)) := separated_list1 (nchar #",") arg.

Definition addr_parser : parser (str * str * list (str * str)) := fun i =>
  match tag $"//" i with
  | Some (i, _) =>
      match pkg i with
      | Some (i, p) =>
          match nchar #":" i with
          | Some (i, _) =>
              match name_p i with
              | Some (i, n) =>
                  match opt (preceded (nchar #"@") args_p) i with
                  | Some (i, a) => Some (i, (p, n, default [] a))
                  | None => None
                  end
              | None => None
              end
          | None => None
          end
      | None => None
      end
  | None => None
  end.

Definition parse_addr (input : str) : result addr_error Addr :=
  match all_consuming addr_parser input with
  | None => Err InvalidSyntax
  | Some (_, (p, n, kvs)) =>
      package ← map_err AddrPkg (join_rel_checked_pkg [] p);
      Ok (Addr_new package n (bt_collect kvs))
  end.

Definition resolve_relative_pkg (base : PkgBuf) (rel : str) : result pkg_error str :=
  join_rel_checked_pkg base rel.

Definition parse_addr_with_base (input : str) (base : PkgBuf) : result addr_error Addr :=
  if starts_with $"//" input then parse_addr input
  else if starts_with $":" input then parse_addr ($"//" ++ base ++ input)
  else if starts_with $"./" input || starts_with $"../" input then
    match split_once #":" input with
    | None => Err MissingTargetName
    | Some (path_part, after) =>
        pkg ← map_err AddrPkg (resolve_relative_pkg base path_part);
        parse_addr ($"//" ++ pkg ++ #":" :: after)
    end
  else Err NotAReference.
End parse.

(** ** Well-formed addresses *)

Definition key_ok (k : str) : Prop :=
  k <> [] /\ Forall (fun c => any_of ($"=,@ |" ++ [dquote]) c = false) k.

(** What the address grammar can express: the shape of every parsed address. *)
Record addr_wf (a : Addr) : Prop := {
  wf_package : canonical (package a);
  wf_package_chars : Forall (fun c => any_of $": " c = false) (package a);
  wf_name : name a <> [] /\ Forall (fun c => any_of $"@: |" c = false) (name a);
  wf_args : bt_sorted (args a);
  wf_kvs : Forall (fun kv => key_ok kv.1 /\ dquote ∉ kv.2) (args a);
}.

(** ** The grammar read forwards *)

Section laws.
Context {nom : Nom} {laws : NomLaws nom}.

Lemma nchar_eq c r : nchar c (c :: r) = Some (r, c).
Proof. rewrite nchar_law. by rewrite decide_True. Qed.

Lemma nchar_shrinks c s r b : nchar c s = Some (r, b) -> length r < length s.
Proof.
  rewrite nchar_law. destruct s as [|x s]; [done|]. case_decide; [|done].
  intros [= <- <-]. simpl. lia.
Qed.

(** A quoted value ends at its closing quote. *)
Lemma quoted_value_app v rest : dquote ∉ v ->
  quoted_value (dquote :: v ++ dquote :: rest) = Some (rest, v).
Proof.
  intros Hv. unfold quoted_value. rewrite delimited_law, nchar_eq, take_till_law.
  rewrite span_till_app.
  - by rewrite nchar_eq.
  - apply Forall_forall. intros c Hc. apply N.eqb_neq. congruence.
  - right. by exists dquote, rest.
Qed.

Lemma needs_quotes_false v : needs_quotes v = false ->
  v <> [] /\ Forall (fun c => any_of ($", |" ++ [dquote]) c = false) v.
Proof.
  unfold needs_quotes. destruct v as [|c v]; [done|]. intros H. split; [done|].
  apply Forall_forall. intros x Hx. apply any_of_false. intros Hin.
  assert (existsb (any_of ($" ,|" ++ [dquote])) (c :: v) = true); [|congruence].
  apply existsb_exists. exists x. split; [by apply list_elem_of_In|].
  apply any_of_true. set_solver.
Qed.

(** What may follow an argument: the end of the input or a separator. *)
Definition arg_end (rest : str) : Prop := rest = [] \/ exists r, rest = #"," :: r.

Lemma quoted_value_bare c v : c <> dquote -> quoted_value (c :: v) = None.
Proof.
  intros Hc. unfold quoted_value. rewrite delimited_law, nchar_law. by rewrite decide_False.
Qed.

Lemma arg_fmt kv rest : key_ok kv.1 -> dquote ∉ kv.2 -> arg_end rest ->
  arg (fmt_arg_kv kv ++ rest) = Some (rest, kv).
Proof.
  destruct kv as [k v]. cbn [fst snd]. intros [Hk Hks] Hv Hrest. unfold arg.
  assert (exists body, fmt_arg_kv (k, v) ++ rest = k ++ #"=" :: body /\
    value_p body = Some (rest, v)) as (body & -> & Hbody).
  { unfold fmt_arg_kv, value_p. destruct (needs_quotes v) eqn:E.
    - exists (dquote :: v ++ dquote :: rest). split; [by rewrite <-!app_assoc|].
      by rewrite alt2_law, quoted_value_app.
    - exists (v ++ rest). split; [by rewrite <-!app_assoc|].
      apply needs_quotes_false in E as [Hne Hall]. destruct v as [|c v]; [done|].
      rewrite alt2_law. change ((c :: v) ++ rest) with (c :: (v ++ rest)) at 1.
      rewrite quoted_value_bare by set_solver.
      unfold bare_value. rewrite take_till1_law, span_till_app; [done|done|].
      destruct Hrest as [->|[r ->]]; [by left|right]. by exists #",", r. }
  unfold key. rewrite take_till1_law, span_till_app; [|done|right; by exists #"=", body].
  destruct k as [|c k]; [done|]. by rewrite opt_law, preceded_law, nchar_eq, Hbody.
Qed.

Lemma arg_shrinks s r a : arg s = Some (r, a) -> length r <= length s.
Proof.
  unfold arg, key. rewrite take_till1_law. destruct (span_till _ s) as [k i] eqn:E.
  apply span_till_spec in E as (-> & _ & _). destruct k as [|c k]; [done|].
  rewrite opt_law, preceded_law, nchar_law. simpl. rewrite length_app.
  assert (Hv : forall i r v, value_p i = Some (r, v) -> length r <= length i).
  { clear -laws. intros i r v. unfold value_p, quoted_value, bare_value.
    rewrite alt2_law, delimited_law, nchar_law, take_till1_law. intros H.
    assert (forall p, (let '(a, b) := span_till p i in
      match a with [] => None | _ => Some (b, a) end) = Some (r, v) -> length r <= length i) as Hb.
    { intros p. destruct (span_till p i) as [a b] eqn:E. apply span_till_spec in E as (-> & _).
      rewrite length_app. destruct a; [done|]. intros [= -> ->]. lia. }
    destruct i as [|x i]; [by apply Hb in H|]. case_decide; [|by apply Hb in H].
    rewrite take_till_law in H. destruct (span_till (fun c => (c =? dquote)%N) i) as [a b] eqn:E.
    apply span_till_spec in E as (-> & _). rewrite nchar_law in H.
    destruct b as [|y b]; [by apply Hb in H|]. case_decide; [|by apply Hb in H].
    injection H as -> ->. simpl. rewrite length_app. simpl. lia. }
  destruct i as [|x i]; [intros [= <- <-]; simpl; lia|].
  case_decide; [|intros [= <- <-]; simpl; lia].
  destruct (value_p i) as [[r' v]|] eqn:E; intros [= <- <-]; simpl; [apply Hv in E|]; lia.
Qed.

Lemma args_p_eq i :
  args_p i = match arg i with
             | None => None
             | Some (r, a) =>
                 match nchar #"," r with
                 | None => Some (r, [a])
                 | Some (r', _) =>
                     match arg r' with
                     | None => Some (r, [a])
                     | Some _ =>
                         match args_p r' with
                         | Some (r'', l) => Some (r'', a :: l)
                         | None => None
                         end
                     end
                 end
             end.
Proof.
  apply separated_list1_law; [apply nchar_shrinks|apply arg_shrinks].
Qed.

Lemma fmt_args_end kvs : arg_end (fmt_args false kvs).
Proof. destruct kvs; [by left|right; eauto]. Qed.

Lemma args_p_fmt kv kvs : Forall (fun kv => key_ok kv.1 /\ dquote ∉ kv.2) (kv :: kvs) ->
  args_p (fmt_args true (kv :: kvs)) = Some ([], kv :: kvs).
Proof.
  revert kv; induction kvs as [|kv' kvs IH]; intros kv H;
    inversion_clear H as [|?? [Hk Hv] Hr]; rewrite args_p_eq; simpl.
  - rewrite arg_fmt by (done || by left). by rewrite nchar_law.
  - rewrite arg_fmt by (done || right; eauto). rewrite nchar_eq.
    specialize (IH kv' Hr). simpl in IH. inversion_clear Hr as [|?? [Hk' Hv'] _].
    rewrite arg_fmt by (done || apply fmt_args_end). by rewrite IH.
Qed.

(** A formatted address parses back to itself. *)
Lemma parse_addr_format a : addr_wf a -> parse_addr (format a) = Ok a.
Proof.
  intros [Hp Hpc [Hn Hnc] Hs Hkv]. destruct a as [p n kvs]. simpl in *.
  assert (addr_parser (format (mkAddr p n kvs)) = Some ([], (p, n, kvs))) as E.
  { unfold addr_parser, format. rewrite tag_law. simpl.
    unfold pkg. rewrite take_till_law, span_till_app; [|done|right; by eexists _, _].
    simpl. rewrite nchar_eq. unfold name_p. rewrite take_till1_law, span_till_app; [|done|].
    - destruct n as [|c n]; [done|]. rewrite opt_law, preceded_law.
      destruct kvs as [|kv kvs]; [by rewrite nchar_law|].
      pose proof (args_p_fmt kv kvs Hkv) as E. simpl in E. by rewrite nchar_eq, E.
    - destruct kvs; [by left|right; eauto]. }
  unfold parse_addr. rewrite all_consuming_law, E.
  rewrite join_root_canonical by done. simpl. unfold Addr_new. by rewrite bt_collect_id.
Qed.
End laws.

(** ** The grammar read backwards *)

Section inversion.
Context {nom : Nom} {laws : NomLaws nom}.

Lemma value_p_chars i r v : value_p i = Some (r, v) -> dquote ∉ v.
Proof.
  unfold value_p, quoted_value, bare_value.
  rewrite alt2_law, delimited_law, nchar_law, take_till1_law. intros H.
  assert (Hb : (let '(a, b) := span_till (any_of ($", |" ++ [dquote])) i in
    match a with [] => None | _ => Some (b, a) end) = Some (r, v) -> dquote ∉ v).
  { destruct (span_till _ i) as [a b] eqn:E. apply span_till_spec in E as (_ & Ha & _).
    destruct a as [|c a]; [done|]. intros [= <- <-] Hin. rewrite Forall_forall in Ha.
    by specialize (Ha _ Hin). }
  destruct i as [|x i]; [by apply Hb|]. case_decide; [|by apply Hb].
  rewrite take_till_law in H. destruct (span_till (fun c => (c =? dquote)%N) i) as [a b] eqn:E.
  apply span_till_spec in E as (_ & Ha & _). rewrite nchar_law in H.
  destruct b as [|y b]; [by apply Hb|]. case_decide; [|by apply Hb].
  injection H as -> ->. intros Hin. rewrite Forall_forall in Ha. by specialize (Ha _ Hin).
Qed.

Lemma arg_ok i r kv : arg i = Some (r, kv) -> key_ok kv.1 /\ dquote ∉ kv.2.
Proof.
  unfold arg, key. rewrite take_till1_law. destruct (span_till _ i) as [k i'] eqn:E.
  apply span_till_spec in E as (_ & Hk & _). destruct k as [|c k]; [done|].
  rewrite opt_law, preceded_law.
  assert (key_ok (c :: k)) by done.
  destruct (nchar _ i') as [[i'' ?]|]; [|intros [= <- <-]; split; [done|set_solver]].
  destruct (value_p i'') as [[r' v]|] eqn:E; intros [= <- <-]; (split; [done|]).
  - by eapply value_p_chars.
  - set_solver.
Qed.

Lemma args_p_ok i r kvs : args_p i = Some (r, kvs) ->
  Forall (fun kv => key_ok kv.1 /\ dquote ∉ kv.2) kvs.
Proof.
  remember (length i) as n eqn:Hn. revert i r kvs Hn.
  induction n as [n IH] using lt_wf_ind. intros i r kvs ->. rewrite args_p_eq.
  destruct (arg i) as [[i1 a]|] eqn:E1; [|done].
  pose proof (arg_ok _ _ _ E1). pose proof (arg_shrinks _ _ _ E1).
  destruct (nchar _ i1) as [[i2 ?]|] eqn:E2; [|by intros [= <- <-]; constructor].
  apply nchar_shrinks in E2.
  destruct (arg i2); [|by intros [= <- <-]; constructor].
  destruct (args_p i2) as [[i3 l]|] eqn:E3; [|done]. intros [= <- <-].
  constructor; [done|]. eapply IH; [|done|exact E3]. lia.
Qed.

Lemma addr_parser_ok i r p n kvs : addr_parser i = Some (r, (p, n, kvs)) ->
  Forall (fun c => any_of $": " c = false) p /\
  (n <> [] /\ Forall (fun c => any_of $"@: |" c = false) n) /\
  Forall (fun kv => key_ok kv.1 /\ dquote ∉ kv.2) kvs.
Proof.
  unfold addr_parser, pkg, name_p. destruct (tag _ i) as [[i1 ?]|]; [|done].
  rewrite take_till_law. destruct (span_till _ i1) as [p' i2] eqn:E1.
  apply span_till_spec in E1 as (_ & Hp & _).
  destruct (nchar _ i2) as [[i3 ?]|]; [|done]. rewrite take_till1_law.
  destruct (span_till _ i3) as [n' i4] eqn:E2. apply span_till_spec in E2 as (_ & Hn & _).
  destruct n' as [|c n']; [done|]. rewrite opt_law, preceded_law.
  destruct (nchar _ i4) as [[i5 ?]|]; [|by intros [= <- <- <- <-]].
  destruct (args_p i5) as [[i6 kvl]|] eqn:E3; intros [= <- <- <- <-]; [|done].
  split_and!; [done..|]. by eapply args_p_ok.
Qed.

Lemma parse_addr_ok_wf input a : parse_addr input = Ok a -> addr_wf a.
Proof.
  unfold parse_addr. rewrite all_consuming_law.
  destruct (addr_parser input) as [[[|? ?] [[p n] kvs]]|] eqn:E; try done.
  apply addr_parser_ok in E as (Hp & Hn & Hk). intros H. ok_inv.
  match goal with H : join_rel_checked_pkg _ _ = Ok ?q |- _ => rename q into q'; rename H into Hq end.
  unfold Addr_new. split; simpl; auto with heph.
  - eauto with heph.
  - apply Forall_forall. intros c Hc.
    destruct (join_rel_checked_pkg_chars _ _ _ _ Hq Hc) as [->|[H|H]]; [done|by apply elem_of_nil in H|].
    rewrite Forall_forall in Hp. by apply (Hp c).
  - by apply bt_collect_Forall.
Qed.

(** Every address the grammar accepts prints back to text that parses to
    the very same address, and has a canonical, root-bounded package. *)
Theorem parse_addr_roundtrip input a : parse_addr input = Ok a ->
  addr_wf a /\ parse_addr (format a) = Ok a.
Proof.
  intros H%parse_addr_ok_wf. split; [done|]. by apply parse_addr_format.
Qed.

Lemma parse_addr_with_base_ok_wf input base a :
  parse_addr_with_base input base = Ok a -> addr_wf a.
Proof.
  unfold parse_addr_with_base.
  destruct (starts_with _ _); [apply parse_addr_ok_wf|].
  destruct (starts_with _ _); [apply parse_addr_ok_wf|].
  destruct (_ || _); [|done]. destruct (split_once _ _) as [[path after]|]; [|done].
  intros H. ok_inv. by eapply parse_addr_ok_wf.
Qed.

(** The text of an address after its package. *)
Definition local_part (a : Addr) : str :=
  $":" ++ name a ++ (match args a with [] => [] | kvs => $"@" ++ fmt_args true kvs end).

Lemma format_local a : format a = $"//" ++ package a ++ local_part a.
Proof. done. Qed.

Lemma split_once_colon path a : Forall (fun c => any_of $": " c = false) path ->
  split_once #":" (path ++ local_part a) =
  Some (path, name a ++ (match args a with [] => [] | kvs => $"@" ++ fmt_args true kvs end)).
Proof.
  intros Hp. apply split_once_Some. split; [done|]. intros Hin.
  rewrite Forall_forall in Hp. by specialize (Hp _ Hin).
Qed.

(** The three spellings of a reference agree. A well-formed address in
    package [p] is denoted by its absolute form from any base, by [:name] from
    its own package, and by [./path:name] from any base the path leads from. *)
Theorem parse_addr_with_base_spellings a base path :
  addr_wf a -> Forall (fun c => any_of $": " c = false) path ->
  parse_addr_with_base (format a) base = Ok a /\
  parse_addr_with_base (local_part a) (package a) = Ok a /\
  (join_rel_checked_pkg base ($"./" ++ path) = Ok (package a) ->
   parse_addr_with_base ($"./" ++ path ++ local_part a) base = Ok a).
Proof.
  intros Hwf Hpath. split_and!.
  - unfold parse_addr_with_base. change (starts_with $"//" (format a)) with true.
    by apply parse_addr_format.
  - unfold parse_addr_with_base.
    change (starts_with $"//" (local_part a)) with false.
    change (starts_with $":" (local_part a)) with true. cbv iota.
    rewrite <-format_local. by apply parse_addr_format.
  - intros Hj. unfold parse_addr_with_base.
    change (starts_with $"//" ($"./" ++ path ++ local_part a)) with false.
    change (starts_with $":" ($"./" ++ path ++ local_part a)) with false.
    change (starts_with $"./" ($"./" ++ path ++ local_part a)) with true. cbv iota.
    rewrite (app_assoc $"./"), split_once_colon by (by repeat constructor).
    unfold resolve_relative_pkg. simpl orb. cbv iota. rewrite Hj. simpl.
    by rewrite (parse_addr_format a).
Qed.
End inversion.

(** ** Witnesses *)

(** [//a/b/../c:name@z=1,k="v w"], whose package is normalised and whose
    arguments are sorted. *)
Definition sample_text : str :=
  $"//a/b/../c:name@z=1,k=" ++ [dquote] ++ $"v w" ++ [dquote].
Definition sample_addr : Addr := mkAddr $"a/c" $"name" [($"k", $"v w"); ($"z", $"1")].

Lemma parse_addr_roundtrip_witness :
  @parse_addr nom_ref sample_text = Ok sample_addr /\
  addr_wf sample_addr /\ @parse_addr nom_ref (format sample_addr) = Ok sample_addr.
Proof.
  assert (H : @parse_addr nom_ref sample_text = Ok sample_addr) by (vm_compute; reflexivity).
  split; [exact H|]. exact (@parse_addr_roundtrip nom_ref nom_ref_laws sample_text sample_addr H).
Defined.

Lemma parse_addr_with_base_spellings_witness :
  @parse_addr_with_base nom_ref (format sample_addr) $"q" = Ok sample_addr /\
  @parse_addr_with_base nom_ref (local_part sample_addr) $"a/c" = Ok sample_addr /\
  @parse_addr_with_base nom_ref ($"./" ++ $"../a/c" ++ local_part sample_addr) $"q"
    = Ok sample_addr.
Proof.
  assert (H : addr_wf sample_addr).
  { apply (@parse_addr_ok_wf nom_ref nom_ref_laws sample_text). vm_compute. reflexivity. }
  destruct (@parse_addr_with_base_spellings nom_ref nom_ref_laws sample_addr $"q" $"../a/c" H)
    as (H1 & H2 & H3).
  - repeat constructor.
  - split; [exact H1|]. split; [exact H2|]. apply H3. vm_compute. reflexivity.
Defined.
