(* ===== verification/HtIntern.v ===== *)
(** Interning and hashing of addresses: the sharded table of
    [crates/model/src/htaddr/addr.rs] and the on-disk target directory of
    [crates/engine/src/engine/local_cache_fs.rs] that is named after an
    address's hash.

    [PartialEq for Addr] compares [Arc] pointers. [intern] takes a shard's read
    lock to look the content up, and on a miss its write lock to look again and
    insert; threads interleave at the locks. The step relation below has one
    transition per critical section, so its executions are those interleavings,
    and the theorem is that whatever they are, two interned addresses are
    pointer-equal exactly when their contents are equal. *)
From S2P Require Import Prelude Numerals Nom HtPkg HtAddr.

(** ** Hashing *)

(** The UTF-8 encoding of a scalar value, and [str::as_bytes]. *)
Definition utf8_encode (c : char) : list N :=
  (if c <? 128 then [c]
   else if c <? 2048 then [192 + c / 64; 128 + c mod 64]
   else if c <? 65536 then [224 + c / 4096; 128 + (c / 64) mod 64; 128 + c mod 64]
   else [240 + c / 262144; 128 + (c / 4096) mod 64; 128 + (c / 64) mod 64; 128 + c mod 64])%N.
Definition as_bytes (s : str) : list N := s ≫= utf8_encode.

(** [Hash for AddrInner]: the sequence of [Hasher::write] calls. *)
Definition hash_writes (a : Addr) : list (list N) :=
  [as_bytes (package a); as_bytes (name a)] ++
  (args a ≫= fun '(k, v) => [as_bytes k; as_bytes v]).

Section hashing.
(** The one-shot XXH3 digest; its streaming form digests the concatenation of
    what it was fed. *)
Variable xxh3 : list N -> N.

Definition hash_str (a : Addr) : str := to_hex (xxh3 (concat (hash_writes a))).

(** [PathBuf::push]. *)
Definition path_push (base p : str) : str :=
  if starts_with $"/" p then p
  else match base with
       | [] => p
       | _ => if ends_with $"/" base then base ++ p else base ++ $"/" ++ p
       end.

(** [LocalCacheFS::target_dir]. *)
Definition target_dir (root : str) (addr : Addr) : str :=
  let path := path_push root (package addr) in
  match args addr with
  | [] => path_push path ($"__target_" ++ name addr)
  | _ => path_push path ($"__target_" ++ name addr ++ $"_" ++ hash_str addr)
  end.

(** [LocalCacheFS::get_path]. *)
Definition get_path (root : str) (addr : Addr) (hashin entry : str) : str :=
  path_push (path_push (target_dir root addr) hashin) entry.

(** The digest only sees the concatenation of the writes. *)
Lemma hash_str_concat a b :
  concat (hash_writes a) = concat (hash_writes b) -> hash_str a = hash_str b.
Proof. unfold hash_str. by intros ->. Qed.
End hashing.

(** Two different, well-formed addresses of one package and name. *)
Definition colliding_1 : Addr := mkAddr $"p" $"x" [($"a", $"bc")].
Definition colliding_2 : Addr := mkAddr $"p" $"x" [($"ab", $"c")].

(** The hash of an address does not delimit the strings it writes, so
    distinct addresses such as [//p:x@a=bc] and [//p:x@ab=c], both accepted by
    the parser, share their [hash_str] under every digest, and with it the
    cache directory that is meant to tell targets with arguments apart. *)
Theorem target_dir_collision :
  colliding_1 <> colliding_2 /\
  @parse_addr nom_ref $"//p:x@a=bc" = Ok colliding_1 /\
  @parse_addr nom_ref $"//p:x@ab=c" = Ok colliding_2 /\
  forall (xxh3 : list N -> N) root hashin entry,
    hash_str xxh3 colliding_1 = hash_str xxh3 colliding_2 /\
    get_path xxh3 root colliding_1 hashin entry = get_path xxh3 root colliding_2 hashin entry.
Proof. split_and!; [done|by vm_compute|by vm_compute|]. done. Qed.

(** ** The intern table *)

Definition SHARDS : N := 64.

#[export] Instance Addr_countable : Countable Addr.
Proof.
  refine (inj_countable' (fun a => (package a, name a, args a))
    (fun '(p, n, k) => mkAddr p n k) _).
  by intros [].
Defined.

(** [Arc<AddrInner>]: an allocation, identified by its number. *)
Abbreviation arc := N.

(** The table: one content-keyed set per shard, and the allocator. *)
Record table := mkTable { shards : list (gmap Addr arc); next_arc : arc }.

(** [INTERNED.get_or_init]. *)
Definition intern_shards : table := mkTable (replicate (N.to_nat SHARDS) ∅) 0.

(** What one call of [intern] does next. *)
Inductive call :=
| ToRead (inner : Addr)
| ToWrite (inner : Addr)
| Interned (inner : Addr) (a : arc).

Section intern.
(** [FxHasher]'s digest of a sequence of writes: any function will do. *)
Variable fx : list (list N) -> N.

Definition shard_index (inner : Addr) : nat :=
  N.to_nat (N.land (fx (hash_writes inner)) (SHARDS - 1)).

(** [shard.get(..).expect(..)] then [r.get(&inner)]. *)
Definition shard_get (t : table) (inner : Addr) : option arc :=
  shards t !! shard_index inner ≫= (!!) inner.

(** The read-locked section. *)
Definition intern_read (t : table) (inner : Addr) : call :=
  match shard_get t inner with
  | Some existing => Interned inner existing
  | None => ToWrite inner
  end.

(** The write-locked section: look again, then allocate and insert. *)
Definition intern_write (t : table) (inner : Addr) : table * call :=
  match shard_get t inner with
  | Some existing => (t, Interned inner existing)
  | None =>
      (mkTable (alter (<[inner := next_arc t]>) (shard_index inner) (shards t)) (next_arc t + 1)%N,
       Interned inner (next_arc t))
  end.

(** [intern] run by one thread alone. *)
Definition intern (t : table) (inner : Addr) : table * arc :=
  match intern_read t inner with
  | Interned _ a => (t, a)
  | _ => match intern_write t inner with
         | (t', Interned _ a) => (t', a)
         | (t', _) => (t', 0%N)
         end
  end.

(** All threads: a call starts, reads, or writes. *)
Inductive intern_step : table * list call -> table * list call -> Prop :=
| step_call t cs inner : intern_step (t, cs) (t, cs ++ [ToRead inner])
| step_read t cs i inner :
    cs !! i = Some (ToRead inner) ->
    intern_step (t, cs) (t, <[i := intern_read t inner]> cs)
| step_write t t' cs i inner c :
    cs !! i = Some (ToWrite inner) -> intern_write t inner = (t', c) ->
    intern_step (t, cs) (t', <[i := c]> cs).

Definition intern_reachable (s : table * list call) : Prop :=
  rtc intern_step (intern_shards, []) s.

(** ** Invariant *)

Record table_ok (t : table) : Prop := {
  ok_shards : length (shards t) = N.to_nat SHARDS;
  ok_fresh a p : shard_get t a = Some p -> (p < next_arc t)%N;
  ok_inj a b p : shard_get t a = Some p -> shard_get t b = Some p -> a = b;
}.

Definition calls_ok (t : table) (cs : list call) : Prop :=
  forall a p, Interned a p ∈ cs -> shard_get t a = Some p.

Lemma shard_index_lt inner : shard_index inner < N.to_nat SHARDS.
Proof.
  unfold shard_index. change (SHARDS - 1)%N with (N.ones 6). rewrite N.land_ones.
  pose proof (N.mod_upper_bound (fx (hash_writes inner)) (2 ^ 6)). unfold SHARDS. simpl in *. lia.
Qed.

Lemma table_ok_init : table_ok intern_shards.
Proof.
  assert (H : forall a p, shard_get intern_shards a <> Some p).
  { intros a p. unfold shard_get, intern_shards. cbn [shards].
    rewrite bind_Some. intros (m & [-> _]%lookup_replicate & Hm). by rewrite lookup_empty in Hm. }
  split; [apply length_replicate|by intros ?? ?%H|by intros ??? ?%H].
Qed.

Lemma intern_write_miss t inner t' c : table_ok t -> shard_get t inner = None ->
  intern_write t inner = (t', c) ->
  c = Interned inner (next_arc t) /\ next_arc t' = (next_arc t + 1)%N /\
  length (shards t') = length (shards t) /\
  forall a, shard_get t' a = if decide (a = inner) then Some (next_arc t) else shard_get t a.
Proof.
  intros Hok Hn. unfold intern_write. rewrite Hn. intros [= <- <-]. split_and!; try done.
  { simpl. apply length_alter. }
  intros a. unfold shard_get. cbn [shards].
  pose proof (shard_index_lt inner) as Hlt. rewrite <-(ok_shards _ Hok) in Hlt.
  apply lookup_lt_is_Some_2 in Hlt as [m Hm].
  destruct (decide (shard_index inner = shard_index a)) as [Heq|Hne].
  - rewrite <-Heq, list_lookup_alter_eq, Hm. simpl. case_decide as Ha; subst.
    + by rewrite lookup_insert_eq.
    + by rewrite lookup_insert_ne.
  - rewrite list_lookup_alter_ne by done. rewrite decide_False by congruence. done.
Qed.

Lemma intern_write_ok t inner t' c : table_ok t -> intern_write t inner = (t', c) ->
  table_ok t' /\ (forall a p, shard_get t a = Some p -> shard_get t' a = Some p) /\
  exists p, c = Interned inner p /\ shard_get t' inner = Some p.
Proof.
  intros Hok H. destruct (shard_get t inner) as [p|] eqn:E.
  - unfold intern_write in H. rewrite E in H. injection H as <- <-. eauto.
  - destruct (intern_write_miss _ _ _ _ Hok E H) as (-> & Hnext & Hlen & Hget).
    destruct Hok as [H1 H2 H3]. split_and!.
    + split.
      * by rewrite Hlen.
      * intros a p. rewrite Hget, Hnext. case_decide; [intros [= <-]; lia|].
        intros ?%H2. lia.
      * intros a b p. rewrite !Hget. repeat case_decide; subst; try done; eauto.
        -- intros [= <-] ?%H2. lia.
        -- intros ?%H2 [= <-]. lia.
    + intros a p Ha. rewrite Hget. case_decide; [congruence|done].
    + exists (next_arc t). split; [done|]. rewrite Hget. by rewrite decide_True.
Qed.

Lemma elem_of_list_insert {A} (l : list A) i x y : y ∈ <[i := x]> l -> y = x \/ y ∈ l.
Proof.
  intros [j Hj]%list_elem_of_lookup. destruct (decide (i = j)) as [->|].
  - destruct (decide (j < length l)).
    + rewrite list_lookup_insert_eq in Hj by done. left. congruence.
    + rewrite list_insert_ge in Hj by lia. right. by eapply list_elem_of_lookup_2.
  - rewrite list_lookup_insert_ne in Hj by done. right. by eapply list_elem_of_lookup_2.
Qed.

Lemma intern_step_ok t cs t' cs' : table_ok t /\ calls_ok t cs ->
  intern_step (t, cs) (t', cs') -> table_ok t' /\ calls_ok t' cs'.
Proof.
  intros [Hok Hcs] Hstep. inversion Hstep as [? ? inner|? ? i inner Hi|? ? ? i inner c Hi Hw]; subst.
  - split; [done|]. intros a p [?|Hin%list_elem_of_singleton]%elem_of_app; [auto|done].
  - split; [done|]. intros a p [Heq|?]%elem_of_list_insert; [|auto].
    unfold intern_read in Heq. destruct (shard_get t' inner) eqn:E; [|done]. congruence.
  - destruct (intern_write_ok _ _ _ _ Hok Hw) as (Hok' & Hmono & p' & -> & Hp').
    split; [done|]. intros a p [Heq|?]%elem_of_list_insert; [congruence|auto].
Qed.

Lemma intern_reachable_ok t cs : intern_reachable (t, cs) -> table_ok t /\ calls_ok t cs.
Proof.
  unfold intern_reachable. intros H.
  enough (forall s, rtc intern_step (intern_shards, []) s -> table_ok s.1 /\ calls_ok s.1 s.2) as G
    by exact (G (t, cs) H).
  clear. apply rtc_ind_r.
  - split; [apply table_ok_init|]. by intros ?? ?%elem_of_nil.
  - intros [t1 cs1] [t2 cs2] _ Hstep IH. by eapply intern_step_ok.
Qed.

(** Under every interleaving of concurrent [intern] calls and every hash
    function, two interned addresses are the same [Arc] exactly when their
    contents are equal, so [PartialEq]'s pointer comparison is sound and
    complete. *)
Theorem intern_ptr_eq_iff t cs a p b q :
  intern_reachable (t, cs) -> Interned a p ∈ cs -> Interned b q ∈ cs -> p = q <-> a = b.
Proof.
  intros [Hok Hcs]%intern_reachable_ok Ha%Hcs Hb%Hcs. split.
  - intros ->. by eapply ok_inj.
  - intros ->. congruence.
Qed.

(** [intern] alone is the two critical sections run back to back: it
    returns the existing allocation of an interned content and otherwise a
    fresh one, and interning again returns the same allocation. *)
Theorem intern_idempotent t inner t' p : table_ok t -> intern t inner = (t', p) ->
  table_ok t' /\ intern t' inner = (t', p) /\
  (shard_get t inner = Some p \/ shard_get t inner = None /\ p = next_arc t).
Proof.
  unfold intern, intern_read. intros Hok. destruct (shard_get t inner) as [e|] eqn:E.
  - intros [= <- <-]. rewrite E. auto.
  - destruct (intern_write t inner) as [t2 c] eqn:Ew.
    destruct (intern_write_ok _ _ _ _ Hok Ew) as (Hok' & _ & p' & -> & Hp').
    destruct (intern_write_miss _ _ _ _ Hok E Ew) as ([= ->] & _).
    intros [= <- <-]. rewrite Hp'. auto.
Qed.
End intern.

(** Two threads race to intern the same address: both miss under the read
    lock, and the loser of the write lock finds the winner's allocation. *)
Lemma intern_ptr_eq_iff_witness :
  let fx := fun _ : list (list N) => 0%N in
  exists t cs, intern_reachable fx (t, cs) /\
    Interned colliding_1 0 ∈ cs /\
    (0%N = 0%N <-> colliding_1 = colliding_1).
Proof.
  intros fx.
  set (t1 := (intern_write fx intern_shards colliding_1).1).
  exists t1, [Interned colliding_1 0; Interned colliding_1 0].
  assert (H : intern_reachable fx (t1, [Interned colliding_1 0; Interned colliding_1 0])).
  { unfold intern_reachable.
    eapply rtc_l; [apply step_call|]. eapply rtc_l; [apply step_call|].
    eapply rtc_l; [apply (step_read fx _ _ 0 colliding_1); reflexivity|].
    eapply rtc_l; [apply (step_read fx _ _ 1 colliding_1); reflexivity|].
    eapply rtc_l; [apply (step_write fx _ t1 _ 0 colliding_1 (Interned colliding_1 0)); reflexivity|].
    eapply rtc_l; [apply (step_write fx _ t1 _ 1 colliding_1 (Interned colliding_1 0)); reflexivity|].
    apply rtc_refl. }
  split; [exact H|]. split; [left|].
  eapply (intern_ptr_eq_iff fx); [exact H|left|right; left].
Defined.

Lemma intern_idempotent_witness :
  let fx := fun _ : list (list N) => 5%N in
  let t' := (intern fx intern_shards colliding_1).1 in
  table_ok fx t' /\ intern fx t' colliding_1 = (t', 0%N) /\
  (shard_get fx intern_shards colliding_1 = Some 0%N \/
   shard_get fx intern_shards colliding_1 = None /\ 0%N = next_arc intern_shards).
Proof.
  intros fx t'. apply (intern_idempotent fx intern_shards colliding_1 t' 0%N).
  - apply table_ok_init.
  - reflexivity.
Defined.
