(* ===== verification/HtMatcher.v ===== *)
(** The matcher predicate: [crates/model/src/htmatcher/matcher.rs] and
    [listed.rs].

    A matcher answers in three values. [MatchShrug] means "not decidable from
    what is known so far"; every stage that knows more must keep the definite
    answers of the stages before it. [refines] is that order, and the theorems
    are that the package-level answer is refined by the address-level one, and
    the address-level one by every set of listed facts that extends it. *)
From S2P Require Import Prelude HtPkg HtAddr.

(** ** Data *)

Inductive MatchResult := MatchYes | MatchNo | MatchShrug.

#[export] Instance MatchResult_eq_dec : EqDecision MatchResult.
Proof. solve_decision. Defined.

Inductive Matcher :=
| MAddr (a : Addr)
| Label (l : str)
| Driver (d : str)
| Package (p : PkgBuf)
| PackagePrefix (p : PkgBuf)
| TreeOutputTo (p : PkgBuf)
| Or (ms : list Matcher)
| And (ms : list Matcher)
| Not (m : Matcher).

(** The induction principle that reaches the children of [Or] and [And]. *)
Section matcher_ind.
Variable P : Matcher -> Prop.
Hypothesis HAddr : forall a, P (MAddr a).
Hypothesis HLabel : forall l, P (Label l).
Hypothesis HDriver : forall d, P (Driver d).
Hypothesis HPackage : forall p, P (Package p).
Hypothesis HPackagePrefix : forall p, P (PackagePrefix p).
Hypothesis HTreeOutputTo : forall p, P (TreeOutputTo p).
Hypothesis HOr : forall ms, Forall P ms -> P (Or ms).
Hypothesis HAnd : forall ms, Forall P ms -> P (And ms).
Hypothesis HNot : forall m, P m -> P (Not m).

Fixpoint Matcher_full_ind (m : Matcher) : P m :=
  let fix go (ms : list Matcher) : Forall P ms :=
    match ms with
    | [] => Forall_nil_2 P
    | m :: r => Forall_cons_2 P m r (Matcher_full_ind m) (go r)
    end in
  match m with
  | MAddr a => HAddr a
  | Label l => HLabel l
  | Driver d => HDriver d
  | Package p => HPackage p
  | PackagePrefix p => HPackagePrefix p
  | TreeOutputTo p => HTreeOutputTo p
  | Or ms => HOr ms (go ms)
  | And ms => HAnd ms (go ms)
  | Not m => HNot m (Matcher_full_ind m)
  end.
End matcher_ind.

(** ** Listed facts *)

Definition MAX_LISTED_DRIVER_LEN : N := 256.

Record ListedFacts := mkFacts {
  labels : option (list str);
  driver : option str;
  has_codegen : option bool;
}.

#[export] Instance ListedFacts_eq_dec : EqDecision ListedFacts.
Proof. solve_decision. Defined.

Definition UNKNOWN : ListedFacts := mkFacts None None None.

(** [Vec::dedup]: drops an element equal to the one kept before it. *)
Fixpoint dedup (l : list str) : list str :=
  match l with
  | x :: (y :: _) as r => if decide (x = y) then dedup r else x :: dedup r
  | _ => l
  end.

Definition with_label_set (self : ListedFacts) (ls : list str) : ListedFacts :=
  mkFacts (Some ls) (driver self) (has_codegen self).
Definition with_labels (self : ListedFacts) (ls : list str) : ListedFacts :=
  with_label_set self (dedup (sort ls)).
Definition with_driver (self : ListedFacts) (d : str) : ListedFacts :=
  mkFacts (labels self)
    (if negb (is_empty d) && (str_len d <=? MAX_LISTED_DRIVER_LEN)%N then Some d else None)
    (has_codegen self).
Definition with_has_codegen (self : ListedFacts) (b : bool) : ListedFacts :=
  mkFacts (labels self) (driver self) (Some b).

Definition is_unknown (self : ListedFacts) : bool :=
  match labels self, driver self, has_codegen self with
  | None, None, None => true
  | _, _, _ => false
  end.

Definition agree_field {A} `{EqDecision A} (x y : option A) : option A :=
  if decide (x = y) then x else None.
Definition agree (self other : ListedFacts) : ListedFacts :=
  mkFacts (agree_field (labels self) (labels other))
          (agree_field (driver self) (driver other))
          (agree_field (has_codegen self) (has_codegen other)).

(** ** Evaluation *)

(** The loops of the [Or] and [And] arms: [shrug] records an undecided arm, a
    deciding arm returns at once. *)
Section loops.
Context {A : Type} (f : A -> MatchResult).

Fixpoint or_loop (shrug : bool) (ms : list A) : MatchResult :=
  match ms with
  | [] => if shrug then MatchShrug else MatchNo
  | m :: r =>
      match f m with
      | MatchYes => MatchYes
      | MatchShrug => or_loop true r
      | MatchNo => or_loop shrug r
      end
  end.

Fixpoint and_loop (shrug : bool) (ms : list A) : MatchResult :=
  match ms with
  | [] => if shrug then MatchShrug else MatchYes
  | m :: r =>
      match f m with
      | MatchNo => MatchNo
      | MatchShrug => and_loop true r
      | MatchYes => and_loop shrug r
      end
  end.
End loops.

Definition not_result (r : MatchResult) : MatchResult :=
  match r with MatchYes => MatchNo | MatchNo => MatchYes | MatchShrug => MatchShrug end.

Definition yes_if (b : bool) : MatchResult := if b then MatchYes else MatchNo.
Definition shrug_if (b : bool) : MatchResult := if b then MatchShrug else MatchNo.

Fixpoint matches_pkg (m : Matcher) (pkg : PkgBuf) : MatchResult :=
  match m with
  | MAddr a => shrug_if (bool_decide (package a = pkg))
  | Label _ | Driver _ => MatchShrug
  | TreeOutputTo matcher_pkg => shrug_if (has_prefix pkg matcher_pkg || has_prefix matcher_pkg pkg)
  | Package p => yes_if (bool_decide (pkg = p))
  | PackagePrefix prefix => yes_if (has_prefix pkg prefix)
  | Or matchers => or_loop (fun m => matches_pkg m pkg) false matchers
  | And matchers => and_loop (fun m => matches_pkg m pkg) false matchers
  | Not m => not_result (matches_pkg m pkg)
  end.

Fixpoint matches_listed (m : Matcher) (addr : Addr) (facts : ListedFacts) : MatchResult :=
  match m with
  | MAddr a => yes_if (bool_decide (a = addr))
  | Label l =>
      match labels facts with
      | Some ls => yes_if (bool_decide (l ∈ ls))
      | None => MatchShrug
      end
  | Driver d =>
      match driver facts with
      | Some d' => yes_if (bool_decide (d' = d))
      | None => MatchShrug
      end
  | TreeOutputTo matcher_pkg =>
      if bool_decide (has_codegen facts = Some false) then MatchNo
      else shrug_if (has_prefix (package addr) matcher_pkg || has_prefix matcher_pkg (package addr))
  | Package pkg => yes_if (bool_decide (package addr = pkg))
  | PackagePrefix prefix => yes_if (has_prefix (package addr) prefix)
  | Or matchers => or_loop (fun m => matches_listed m addr facts) false matchers
  | And matchers => and_loop (fun m => matches_listed m addr facts) false matchers
  | Not m => not_result (matches_listed m addr facts)
  end.

Definition matches_addr (m : Matcher) (addr : Addr) : MatchResult := matches_listed m addr UNKNOWN.

Fixpoint reads_listed_facts (m : Matcher) : bool :=
  match m with
  | Label _ | Driver _ | TreeOutputTo _ => true
  | Or ms | And ms => existsb reads_listed_facts ms
  | Not m => reads_listed_facts m
  | MAddr _ | Package _ | PackagePrefix _ => false
  end.

(** ** The information order *)

(** [s] knows at least what [r] knows. *)
Definition refines (r s : MatchResult) : Prop := r = MatchShrug \/ r = s.

#[export] Instance refines_refl : Reflexive refines.
Proof. intros r. by right. Qed.
#[export] Instance refines_trans : Transitive refines.
Proof. intros r s t [-> | ->]; [by left|done]. Qed.

Lemma refines_not r s : refines r s -> refines (not_result r) (not_result s).
Proof. intros [-> | ->]; [by left|by right]. Qed.

Section loop_lemmas.
Context {A : Type} (f : A -> MatchResult).

Lemma exists_elem_cons (P : A -> Prop) m ms :
  (exists x, x ∈ m :: ms /\ P x) <-> P m \/ exists x, x ∈ ms /\ P x.
Proof.
  split.
  - intros (x & [->|?]%elem_of_cons & ?); eauto.
  - intros [?|(x & ? & ?)]; [exists m|exists x]; rewrite elem_of_cons; eauto.
Qed.

(** A definite answer of a loop, characterised. *)
Lemma or_loop_yes b ms : or_loop f b ms = MatchYes <-> exists m, m ∈ ms /\ f m = MatchYes.
Proof.
  revert b; induction ms as [|m ms IH]; intros b; simpl.
  - split; [by destruct b|]. by intros (? & ?%elem_of_nil & _).
  - rewrite exists_elem_cons. destruct (f m) eqn:E; rewrite ?IH; intuition congruence.
Qed.

Lemma or_loop_no b ms : or_loop f b ms = MatchNo <-> b = false /\ Forall (fun m => f m = MatchNo) ms.
Proof.
  revert b; induction ms as [|m ms IH]; intros b; simpl.
  - destruct b; naive_solver.
  - rewrite Forall_cons. destruct (f m) eqn:E; rewrite ?IH; intuition congruence.
Qed.

Lemma and_loop_no b ms : and_loop f b ms = MatchNo <-> exists m, m ∈ ms /\ f m = MatchNo.
Proof.
  revert b; induction ms as [|m ms IH]; intros b; simpl.
  - split; [by destruct b|]. by intros (? & ?%elem_of_nil & _).
  - rewrite exists_elem_cons. destruct (f m) eqn:E; rewrite ?IH; intuition congruence.
Qed.

Lemma and_loop_yes b ms :
  and_loop f b ms = MatchYes <-> b = false /\ Forall (fun m => f m = MatchYes) ms.
Proof.
  revert b; induction ms as [|m ms IH]; intros b; simpl.
  - destruct b; naive_solver.
  - rewrite Forall_cons. destruct (f m) eqn:E; rewrite ?IH; intuition congruence.
Qed.
End loop_lemmas.

Section loop_mono.
Context {A : Type} (f g : A -> MatchResult).

Lemma or_loop_refines b b' ms : (b' = true -> b = true) ->
  Forall (fun m => refines (f m) (g m)) ms -> refines (or_loop f b ms) (or_loop g b' ms).
Proof.
  intros Hb H. destruct (or_loop f b ms) eqn:E; [right|right|by left]; symmetry.
  - apply or_loop_yes in E as (m & Hm & Em). apply or_loop_yes. exists m. split; [done|].
    rewrite Forall_forall in H. destruct (H m Hm); congruence.
  - apply or_loop_no in E as [-> E]. apply or_loop_no. split; [destruct b'; naive_solver|].
    rewrite Forall_forall in *. intros m Hm. specialize (E m Hm). destruct (H m Hm); simpl in *; congruence.
Qed.

Lemma and_loop_refines b b' ms : (b' = true -> b = true) ->
  Forall (fun m => refines (f m) (g m)) ms -> refines (and_loop f b ms) (and_loop g b' ms).
Proof.
  intros Hb H. destruct (and_loop f b ms) eqn:E; [right|right|by left]; symmetry.
  - apply and_loop_yes in E as [-> E]. apply and_loop_yes. split; [destruct b'; naive_solver|].
    rewrite Forall_forall in *. intros m Hm. specialize (E m Hm). destruct (H m Hm); simpl in *; congruence.
  - apply and_loop_no in E as (m & Hm & Em). apply and_loop_no. exists m. split; [done|].
    rewrite Forall_forall in H. destruct (H m Hm); congruence.
Qed.
End loop_mono.

Lemma shrug_if_refines b : refines (shrug_if b) MatchShrug -> shrug_if b = MatchShrug.
Proof. intros [?|?]; done. Qed.

#[export] Hint Resolve refines_refl refines_not or_loop_refines and_loop_refines : heph.

(** [solve_loops]: the [Or]/[And]/[Not] cases of a refinement by induction. *)
Ltac solve_loops :=
  first [ apply or_loop_refines; [done|assumption]
        | apply and_loop_refines; [done|assumption]
        | apply refines_not; assumption ].

(** ** Theorems *)

(** Pruning a package is sound. What [matches_pkg] decides for a package is
    what every target address in it evaluates to, whatever facts are listed for
    it; in particular [MatchNo] for the package means no target in it can match. *)
Theorem matches_pkg_sound m addr facts :
  refines (matches_pkg m (package addr)) (matches_listed m addr facts).
Proof.
  induction m using Matcher_full_ind; simpl; try solve_loops.
  - case_bool_decide as H; [by left|]. right. simpl.
    rewrite bool_decide_eq_false_2; [done|]. by intros ->.
  - by left.
  - by left.
  - reflexivity.
  - reflexivity.
  - destruct (_ || _); simpl; [by left|]. by case_bool_decide.
Qed.

(** [g] knows at least the facts [f] knows. *)
Definition facts_le (f g : ListedFacts) : Prop :=
  (labels f = None \/ labels f = labels g) /\
  (driver f = None \/ driver f = driver g) /\
  (has_codegen f = None \/ has_codegen f = has_codegen g).

Lemma facts_le_unknown g : facts_le UNKNOWN g.
Proof. split_and!; by left. Qed.

Lemma matches_listed_refines m addr f g : facts_le f g ->
  refines (matches_listed m addr f) (matches_listed m addr g).
Proof.
  intros (Hl & Hd & Hc). induction m using Matcher_full_ind; simpl; try solve_loops;
    try reflexivity.
  - destruct Hl as [-> | ->]; [by left|reflexivity].
  - destruct Hd as [-> | ->]; [by left|reflexivity].
  - destruct Hc as [-> | ->]; [|reflexivity]. rewrite bool_decide_eq_false_2 by done.
    case_bool_decide; [|reflexivity]. by destruct (_ || _); [left|right].
Qed.

(** Learning more facts never revises a verdict: the answer with fewer
    known facts is refined by the answer with more, so the address-only answer
    is refined by any listing, and merging listings (which forgets what they
    disagree on) is always safe. *)
Theorem matches_listed_monotone m addr f g : facts_le f g ->
  refines (matches_listed m addr f) (matches_listed m addr g) /\
  refines (matches_addr m addr) (matches_listed m addr f).
Proof.
  intros H. split; apply matches_listed_refines; [done|apply facts_le_unknown].
Qed.

Lemma matches_listed_monotone_witness :
  let a := mkAddr $"foo" $"bar" [] in
  let f := with_labels UNKNOWN [$"test"] in
  let g := with_driver f $"exec" in
  refines (matches_listed (And [Label $"test"; Driver $"exec"]) a f)
          (matches_listed (And [Label $"test"; Driver $"exec"]) a g) /\
  refines (matches_addr (And [Label $"test"; Driver $"exec"]) a)
          (matches_listed (And [Label $"test"; Driver $"exec"]) a f).
Proof.
  intros a f g. apply matches_listed_monotone. split; [right|split; [left|left]]; reflexivity.
Defined.

(** A matcher that reads no fact evaluates the same with and without them. *)
Lemma or_loop_ext {A} (f g : A -> MatchResult) b ms :
  Forall (fun m => f m = g m) ms -> or_loop f b ms = or_loop g b ms.
Proof.
  intros H. revert b. induction H as [|m ms Hm _ IH]; intros b; simpl; [done|].
  rewrite Hm. by destruct (g m).
Qed.

Lemma and_loop_ext {A} (f g : A -> MatchResult) b ms :
  Forall (fun m => f m = g m) ms -> and_loop f b ms = and_loop g b ms.
Proof.
  intros H. revert b. induction H as [|m ms Hm _ IH]; intros b; simpl; [done|].
  rewrite Hm. by destruct (g m).
Qed.

Lemma existsb_false_Forall {A} (p : A -> bool) l :
  existsb p l = false -> Forall (fun x => p x = false) l.
Proof. induction l as [|x l IH]; simpl; [done|]. intros [??]%orb_false_iff. auto. Qed.

Lemma Forall_impl2 {A} (P Q R : A -> Prop) l :
  (forall x, P x -> Q x -> R x) -> Forall P l -> Forall Q l -> Forall R l.
Proof. intros H HP. induction HP; intros HQ; inversion HQ; constructor; auto. Qed.

(** [reads_listed_facts] is sound: when it is [false], facts cannot change
    the verdict, so a walk may skip merging listings. *)
Theorem reads_listed_facts_sound m addr facts :
  reads_listed_facts m = false -> matches_listed m addr facts = matches_addr m addr.
Proof.
  unfold matches_addr.
  induction m as [| | | | | |ms IH|ms IH|m IH] using Matcher_full_ind; simpl; try done.
  - intros H%existsb_false_Forall. apply or_loop_ext.
    by eapply Forall_impl2; [|exact IH|exact H]; simpl; auto.
  - intros H%existsb_false_Forall. apply and_loop_ext.
    by eapply Forall_impl2; [|exact IH|exact H]; simpl; auto.
  - intros H. by rewrite IH.
Qed.

Lemma reads_listed_facts_sound_witness :
  let m := Not (And [Package $"foo"; PackagePrefix []]) in
  let a := mkAddr $"foo" $"bar" [] in
  matches_listed m a (with_labels UNKNOWN [$"x"]) = matches_addr m a.
Proof. intros m a. apply reads_listed_facts_sound. reflexivity. Defined.

(** ** Reconciling listings *)

Lemma agree_field_comm {A} `{EqDecision A} (x y : option A) : agree_field x y = agree_field y x.
Proof. unfold agree_field. repeat case_decide; congruence. Qed.

Lemma agree_field_assoc {A} `{EqDecision A} (x y z : option A) :
  agree_field (agree_field x y) z = agree_field x (agree_field y z).
Proof. unfold agree_field. repeat case_decide; congruence. Qed.

Lemma agree_comm f g : agree f g = agree g f.
Proof. unfold agree. f_equal; apply agree_field_comm. Qed.

Lemma agree_assoc f g h : agree (agree f g) h = agree f (agree g h).
Proof. unfold agree. simpl. f_equal; apply agree_field_assoc. Qed.

Lemma agree_le f g : facts_le (agree f g) f.
Proof. unfold agree, agree_field. split_and!; simpl; case_decide; auto. Qed.

Lemma facts_le_trans f g h : facts_le f g -> facts_le g h -> facts_le f h.
Proof. unfold facts_le. intros (?&?&?) (?&?&?). split_and!; intuition congruence. Qed.

Lemma fold_agree_perm f ls ls' : ls ≡ₚ ls' -> foldl agree f ls = foldl agree f ls'.
Proof.
  intros Hp. revert f. induction Hp as [|x l l' _ IH|x y l|l l' l'' _ IH1 _ IH2]; intros f; simpl.
  - done.
  - apply IH.
  - by rewrite !agree_assoc, (agree_comm x y).
  - by rewrite IH1.
Qed.

Lemma fold_agree_le f ls : facts_le (foldl agree f ls) f.
Proof.
  revert f. induction ls as [|g ls IH]; intros f; simpl; [split_and!; by right|].
  eapply facts_le_trans; [apply IH|apply agree_le].
Qed.

Lemma fold_agree_le_elem f g ls : g ∈ f :: ls -> facts_le (foldl agree f ls) g.
Proof.
  intros [->|Hg]%elem_of_cons; [apply fold_agree_le|]. revert f.
  induction ls as [|x ls IH]; intros f; [by apply elem_of_nil in Hg|].
  apply elem_of_cons in Hg as [->|Hg]; simpl; [|by apply IH].
  rewrite agree_comm. eapply facts_le_trans; [apply fold_agree_le|apply agree_le].
Qed.

(** Reconciling any number of listings of a target does not depend on
    their order, keeps only facts every listing states, and therefore never
    yields a verdict that one of the listings alone would contradict. *)
Theorem fold_agree_sound f ls ls' m addr g :
  ls ≡ₚ ls' -> g ∈ f :: ls ->
  foldl agree f ls = foldl agree f ls' /\
  facts_le (foldl agree f ls) g /\
  refines (matches_listed m addr (foldl agree f ls)) (matches_listed m addr g).
Proof.
  intros Hp Hg. split; [by apply fold_agree_perm|].
  pose proof (fold_agree_le_elem f g ls Hg). split; [done|]. by apply matches_listed_refines.
Qed.

Lemma fold_agree_sound_witness :
  let f := with_labels UNKNOWN [$"a"] in
  let g := with_driver f $"exec" in
  foldl agree f [g; f] = foldl agree f [f; g] /\
  facts_le (foldl agree f [g; f]) g /\
  refines (matches_listed (Driver $"exec") (mkAddr [] $"x" []) (foldl agree f [g; f]))
          (matches_listed (Driver $"exec") (mkAddr [] $"x" []) g).
Proof.
  intros f g. apply (fold_agree_sound f [g; f] [f; g]).
  - apply Permutation_swap.
  - right. left.
Defined.
