(* ===== verification/MatchTarget.v ===== *)
(** Evaluating a matcher against resolved targets: [engine/matcher_spec.rs],
    [engine/matcher_target.rs], the listed-fact audit of [engine/listed.rs] and
    the selection ladder of [engine/request_state.rs].

    A walk evaluates a matcher in stages of growing cost: package, address with
    listed facts, spec, def. [match_target], the last one, always decides; the
    theorems show that every earlier stage is refined by it, so stopping at the
    first definite answer gives the answer the full evaluation would. *)
From S2P Require Import Prelude HtPkg HtAddr HtMatcher.

(** ** The target data model the matcher reads *)

Inductive CodegenMode := CodegenNone | CodegenCopy | CodegenInPlace.
Inductive Content := FilePath (p : str) | DirPath (p : str) | Glob (g : str).
Record Path := mkPath { content : Content; codegen_tree : CodegenMode }.
Record Output := mkOutput { group : str; paths : list Path }.
Record TargetDef := mkDef { def_addr : Addr; def_labels : list str; outputs : list Output }.
Record TargetSpec := mkSpec { spec_addr : Addr; spec_driver : str; spec_labels : list str }.

(** ** [matcher_spec.rs] *)

Fixpoint match_spec (m : Matcher) (spec : TargetSpec) : MatchResult :=
  match m with
  | MAddr addr => yes_if (bool_decide (spec_addr spec = addr))
  | Label label => yes_if (bool_decide (label ∈ spec_labels spec))
  | Driver d => yes_if (bool_decide (spec_driver spec = d))
  | Package pkg => yes_if (bool_decide (package (spec_addr spec) = pkg))
  | PackagePrefix pkg => yes_if (has_prefix (package (spec_addr spec)) pkg)
  | Or matchers => or_loop (fun m => match_spec m spec) false matchers
  | And matchers => and_loop (fun m => match_spec m spec) false matchers
  | TreeOutputTo _ => MatchShrug
  | Not m => not_result (match_spec m spec)
  end.

(** ** [matcher_target.rs] *)

(** The [while let Some(rest) = s.strip_prefix("./")] loop. *)
Fixpoint strip_dot_slash (s : str) : str :=
  match s with
  | c :: (d :: rest) as r =>
      if decide (c = #"." /\ d = #"/") then strip_dot_slash rest else s
  | _ => s
  end.

Definition path_to_pkg (s : str) : str :=
  if decide (s = $"." \/ s = []) then []
  else trim_end_matches (N.eqb #"/") (strip_dot_slash s).

Definition parent_dir (p : str) : str :=
  match rsplit_once #"/" p with Some (parent, _) => parent | None => [] end.

Definition is_glob_meta (c : char) : bool := any_of $"*?[{" c.

(** The byte loop of [glob_split]: [i] is the index of the head of [rest]. *)
Fixpoint glob_split_loop (g : str) (i seg_start : nat) (rest : str) : str * str :=
  match rest with
  | [] => (g, [])
  | c :: rest =>
      if decide (c = #"/") then glob_split_loop g (S i) (S i) rest
      else if is_glob_meta c then (take (seg_start - 1) g, drop seg_start g)
      else glob_split_loop g (S i) seg_start rest
  end.
Definition glob_split (g : str) : str * str := glob_split_loop g 0 0 g.

(** The package a codegen path lands in, and whether a containing package
    counts as a match too. *)
Definition out_pkg (c : Content) : PkgBuf * bool :=
  match c with
  | FilePath p => (path_to_pkg (parent_dir p), false)
  | DirPath p => (path_to_pkg p, true)
  | Glob g => (path_to_pkg (glob_split g).1, true)
  end.

Definition path_matches (matcher_pkg : PkgBuf) (path : Path) : bool :=
  match codegen_tree path with
  | CodegenNone => false
  | _ =>
      let '(out, accept_either) := out_pkg (content path) in
      if accept_either then has_prefix out matcher_pkg || has_prefix matcher_pkg out
      else has_prefix out matcher_pkg
  end.

Definition tree_scan (matcher_pkg : PkgBuf) (def : TargetDef) : bool :=
  existsb (fun output => existsb (path_matches matcher_pkg) (paths output)) (outputs def).

Fixpoint match_target (m : Matcher) (spec : TargetSpec) (def : TargetDef) : MatchResult :=
  match m with
  | Driver d => yes_if (bool_decide (spec_driver spec = d))
  | MAddr addr => yes_if (bool_decide (def_addr def = addr))
  | Label label => yes_if (bool_decide (label ∈ def_labels def))
  | TreeOutputTo matcher_pkg =>
      if negb (has_prefix (package (def_addr def)) matcher_pkg)
         && negb (has_prefix matcher_pkg (package (def_addr def)))
      then MatchNo
      else yes_if (tree_scan matcher_pkg def)
  | Package pkg => yes_if (bool_decide (package (def_addr def) = pkg))
  | PackagePrefix prefix => yes_if (has_prefix (package (def_addr def)) prefix)
  | Or matchers => or_loop (fun m => match_target m spec def) false matchers
  | And matchers => and_loop (fun m => match_target m spec def) false matchers
  | Not m => not_result (match_target m spec def)
  end.

(** ** [listed.rs]: auditing listed facts *)

Definition def_has_codegen (def : TargetDef) : bool :=
  existsb (fun p => match codegen_tree p with CodegenNone => false | _ => true end)
    (outputs def ≫= paths).

Inductive ListedField := FieldLabels | FieldDriver | FieldHasCodegen.

Definition listed_differences (facts : ListedFacts) (spec : TargetSpec)
    (def : option TargetDef) : list ListedField :=
  (match labels facts with
   | Some listed =>
       let resolved := default [] (labels (with_labels UNKNOWN (spec_labels spec))) in
       if decide (listed = resolved) then [] else [FieldLabels]
   | None => []
   end) ++
  (match driver facts with
   | Some listed => if decide (listed = spec_driver spec) then [] else [FieldDriver]
   | None => []
   end) ++
  (match has_codegen facts, def with
   | Some listed, Some def => if decide (listed = def_has_codegen def) then [] else [FieldHasCodegen]
   | _, _ => []
   end).

(** ** [request_state.rs]: the selection ladder *)

Record Selection := mkSelection {
  matcher : Matcher;
  packages : list (list str);
  sel_force : bool;
  sel_no_scratch : bool;
}.

Definition selects (self : Selection) (addr : Addr) (spec : TargetSpec) (def : TargetDef) : bool :=
  let by_addr := matches_addr (matcher self) addr in
  if decide (by_addr = MatchNo) then false
  else
    let pkg := package addr in
    let enumerated := existsb (fun pkgs => bool_decide (pkg ∈ pkgs)) (packages self) in
    if negb enumerated then false
    else if decide (by_addr = MatchYes) then true
    else match match_spec (matcher self) spec with
         | MatchYes => true
         | MatchNo => false
         | MatchShrug => bool_decide (match_target (matcher self) spec def = MatchYes)
         end.

Definition effective (self : Selection) (force no_scratch : bool)
    (addr : Addr) (spec : TargetSpec) (def : TargetDef) : bool * bool :=
  let adds := (sel_force self && negb force) || (sel_no_scratch self && negb no_scratch) in
  if negb adds || negb (selects self addr spec def) then (force, no_scratch)
  else (force || sel_force self, no_scratch || sel_no_scratch self).

(** ** The stages agree *)

(** A def belongs to its spec: the engine resolved one from the other, so the
    address is the same and the driver copies the labels over. *)
Definition def_of (spec : TargetSpec) (def : TargetDef) : Prop :=
  def_addr def = spec_addr spec /\ forall l, l ∈ def_labels def <-> l ∈ spec_labels spec.

Lemma not_result_decided r : r <> MatchShrug -> not_result r <> MatchShrug.
Proof. by destruct r. Qed.

Lemma yes_if_decided b : yes_if b <> MatchShrug.
Proof. by destruct b. Qed.

Lemma or_loop_decided {A} (f : A -> MatchResult) ms :
  Forall (fun m => f m <> MatchShrug) ms -> or_loop f false ms <> MatchShrug.
Proof. induction 1 as [|m ms Hm _ IH]; simpl; [done|]. by destruct (f m). Qed.

Lemma and_loop_decided {A} (f : A -> MatchResult) ms :
  Forall (fun m => f m <> MatchShrug) ms -> and_loop f false ms <> MatchShrug.
Proof. induction 1 as [|m ms Hm _ IH]; simpl; [done|]. by destruct (f m). Qed.

#[export] Hint Resolve not_result_decided yes_if_decided or_loop_decided and_loop_decided : heph.

(** The def always decides. *)
Lemma match_target_decided m spec def : match_target m spec def <> MatchShrug.
Proof.
  induction m using Matcher_full_ind; simpl; auto with heph.
  by destruct (_ && _); auto with heph.
Qed.

Lemma match_spec_refines m spec def : def_of spec def ->
  refines (match_spec m spec) (match_target m spec def).
Proof.
  intros [Ha Hl]. induction m using Matcher_full_ind; simpl; try solve_loops;
    try (rewrite Ha; reflexivity); try reflexivity; try by left.
  right. f_equal. apply bool_decide_ext. by rewrite Hl.
Qed.

(** What it takes for listed facts to be exact. *)
Definition facts_exact (facts : ListedFacts) (spec : TargetSpec) (def : TargetDef) : Prop :=
  (forall ls, labels facts = Some ls -> forall l, l ∈ ls <-> l ∈ spec_labels spec) /\
  (forall d, driver facts = Some d -> d = spec_driver spec) /\
  (forall b, has_codegen facts = Some b -> b = def_has_codegen def).

Lemma no_codegen_no_tree def p : def_has_codegen def = false -> tree_scan p def = false.
Proof.
  unfold def_has_codegen, tree_scan. intros H. apply not_true_iff_false.
  rewrite existsb_exists. intros (o & Ho & Hp). apply existsb_exists in Hp as (x & Hx & Hm).
  apply not_true_iff_false in H. apply H. apply existsb_exists. exists x. split.
  - apply list_elem_of_In, list_elem_of_bind. exists o. by rewrite !list_elem_of_In.
  - unfold path_matches in Hm. by destruct (codegen_tree x).
Qed.

Lemma matches_listed_refines_target m facts spec def :
  def_of spec def -> facts_exact facts spec def ->
  refines (matches_listed m (spec_addr spec) facts) (match_target m spec def).
Proof.
  intros [Ha Hl] (Fl & Fd & Fc). induction m using Matcher_full_ind; simpl; try solve_loops;
    try (rewrite Ha; reflexivity).
  - right. f_equal. apply bool_decide_ext. by rewrite Ha.
  - destruct (labels facts) as [ls|]; [|by left]. right. f_equal. apply bool_decide_ext.
    by rewrite (Fl ls eq_refl), Hl.
  - destruct (driver facts) as [d'|]; [|by left]. right. by rewrite (Fd d' eq_refl).
  - rewrite Ha. case_bool_decide as Hc.
    + right. apply Fc in Hc. symmetry in Hc. rewrite (no_codegen_no_tree _ _ Hc).
      by destruct (_ && _).
    + destruct (has_prefix _ _), (has_prefix _ _); simpl; by (left + right).
Qed.

Lemma matches_addr_refines_target m spec def : def_of spec def ->
  refines (matches_addr m (spec_addr spec)) (match_target m spec def).
Proof. intros H. apply matches_listed_refines_target; [done|]. by split_and!. Qed.

(** ** Sorting labels keeps them *)


Lemma dedup_elem l y : y ∈ dedup l <-> y ∈ l.
Proof.
  induction l as [|x l IH]; [done|]. destruct l as [|z l]; [done|].
  change (dedup (x :: z :: l)) with
    (if decide (x = z) then dedup (z :: l) else x :: dedup (z :: l)).
  case_decide; subst; rewrite ?elem_of_cons, IH, ?elem_of_cons; intuition.
Qed.

Lemma listed_differences_exact facts spec def :
  listed_differences facts spec (Some def) = [] -> facts_exact facts spec def.
Proof.
  unfold listed_differences. intros [Hl [Hd Hc]%app_eq_nil]%app_eq_nil. split_and!.
  - intros ls E l. rewrite E in Hl. simpl in Hl. case_decide as H; [|done].
    rewrite H. by rewrite dedup_elem, sort_elem.
  - intros d E. rewrite E in Hd. by case_decide.
  - intros b E. rewrite E in Hc. by case_decide.
Qed.

(** ** Theorems *)

(** What the audit accepts may be trusted. When [listed_differences] reports
    nothing for a resolved target, every definite verdict taken from its listed
    facts is the verdict [match_target] gives, for every matcher. *)
Theorem listed_verdict_is_target_verdict m facts spec def :
  def_of spec def -> listed_differences facts spec (Some def) = [] ->
  refines (matches_listed m (spec_addr spec) facts) (match_target m spec def).
Proof.
  intros Hd H. by apply matches_listed_refines_target; [|apply listed_differences_exact].
Qed.

(** A codegen target with one generated file. *)
Definition sample_spec : TargetSpec :=
  mkSpec (mkAddr $"foo" $"gen" []) $"exec" [$"codegen"; $"test"; $"codegen"].
Definition sample_def : TargetDef :=
  mkDef (mkAddr $"foo" $"gen" []) [$"codegen"; $"test"]
    [mkOutput [] [mkPath (FilePath $"foo/gen/x.go") CodegenCopy]].
Definition sample_facts : ListedFacts :=
  with_has_codegen (with_driver (with_labels UNKNOWN [$"test"; $"codegen"]) $"exec") true.

Lemma sample_def_of : def_of sample_spec sample_def.
Proof.
  split; [done|]. intros l. simpl. rewrite !elem_of_cons. intuition.
Qed.

Lemma listed_verdict_is_target_verdict_witness :
  let m := And [Label $"test"; Not (TreeOutputTo $"bar")] in
  matches_listed m (spec_addr sample_spec) sample_facts = MatchYes /\
  refines (matches_listed m (spec_addr sample_spec) sample_facts)
          (match_target m sample_spec sample_def).
Proof.
  intros m. split; [by vm_compute|].
  apply listed_verdict_is_target_verdict; [apply sample_def_of|by vm_compute].
Defined.

Lemma selects_spec self spec def : def_of spec def ->
  selects self (spec_addr spec) spec def =
  existsb (fun pkgs => bool_decide (package (spec_addr spec) ∈ pkgs)) (packages self)
  && bool_decide (match_target (matcher self) spec def = MatchYes).
Proof.
  intros Hd. unfold selects.
  pose proof (matches_addr_refines_target (matcher self) spec def Hd) as Ha.
  pose proof (match_spec_refines (matcher self) spec def Hd) as Hs.
  destruct (existsb _ _); simpl; [|by case_decide].
  destruct (matches_addr (matcher self) (spec_addr spec)); simpl.
  - destruct Ha as [?|<-]; [done|]. done.
  - destruct Ha as [?|<-]; [done|]. done.
  - destruct (match_spec _ _).
    + destruct Hs as [?|<-]; [done|]. done.
    + destruct Hs as [?|<-]; [done|]. done.
    + done.
Qed.

(** The selection ladder (address, then package membership, then spec, then
    def) computes exactly "the package was enumerated and the def matches": no
    early exit changes the answer. *)
Theorem selects_ladder self spec def : def_of spec def ->
  selects self (spec_addr spec) spec def = true <->
  (exists pkgs, pkgs ∈ packages self /\ package (spec_addr spec) ∈ pkgs) /\
  match_target (matcher self) spec def = MatchYes.
Proof.
  intros Hd. rewrite (selects_spec self spec def Hd), andb_true_iff, bool_decide_eq_true, existsb_exists.
  setoid_rewrite bool_decide_eq_true. by setoid_rewrite list_elem_of_In.
Qed.

Lemma selects_ladder_witness :
  let self := mkSelection (TreeOutputTo $"foo/gen") [[$"bar"]; [[]; $"foo"]] true false in
  selects self (spec_addr sample_spec) sample_spec sample_def = true <->
  (exists pkgs, pkgs ∈ packages self /\ package (spec_addr sample_spec) ∈ pkgs) /\
  match_target (matcher self) sample_spec sample_def = MatchYes.
Proof. intros self. apply selects_ladder. apply sample_def_of. Defined.

(** [effective] only ever turns flags on, and only for a selected target. *)
Lemma effective_spec self force no_scratch addr spec def :
  effective self force no_scratch addr spec def =
  (force || sel_force self && selects self addr spec def,
   no_scratch || sel_no_scratch self && selects self addr spec def).
Proof.
  unfold effective.
  by destruct force, no_scratch, (sel_force self), (sel_no_scratch self), (selects _ _ _ _).
Qed.

(** ** The cheap reject of [TreeOutputTo] *)

(** Every codegen path of the def lands at or under the def's own package. *)
Definition outputs_rooted (def : TargetDef) : Prop :=
  forall o p, o ∈ outputs def -> p ∈ paths o -> codegen_tree p <> CodegenNone ->
    canonical (out_pkg (content p)).1 /\
    has_prefix (out_pkg (content p)).1 (package (def_addr def)) = true.

(** The reject by package path loses nothing. For a def whose outputs are
    package-rooted, [match_target]'s verdict on [TreeOutputTo] is the scan over
    the outputs alone. *)
Theorem tree_output_reject_sound matcher_pkg spec def :
  canonical matcher_pkg -> canonical (package (def_addr def)) -> outputs_rooted def ->
  match_target (TreeOutputTo matcher_pkg) spec def = yes_if (tree_scan matcher_pkg def).
Proof.
  intros Hm Hd Hr. simpl.
  destruct (has_prefix (package _) matcher_pkg) eqn:E1; [done|].
  destruct (has_prefix matcher_pkg (package _)) eqn:E2; [done|]. simpl.
  enough (tree_scan matcher_pkg def = false) as -> by done.
  apply not_true_iff_false. unfold tree_scan. rewrite existsb_exists.
  intros (o & Ho%list_elem_of_In & Hp). apply existsb_exists in Hp as (p & Hin%list_elem_of_In & Hp).
  unfold path_matches in Hp.
  assert (codegen_tree p <> CodegenNone) as Hcg by (by intros E; rewrite E in Hp).
  destruct (Hr o p Ho Hin Hcg) as [Hc Hroot].
  assert (has_prefix (out_pkg (content p)).1 matcher_pkg = true \/
          has_prefix matcher_pkg (out_pkg (content p)).1 = true) as Hrel.
  { destruct (codegen_tree p); [done|..]; destruct (out_pkg (content p)) as [out [|]];
      simpl in *; rewrite ?orb_true_iff in Hp; tauto. }
  apply not_true_iff_false in E1, E2. rewrite has_prefix_iff in E1, E2, Hroot by done.
  rewrite !has_prefix_iff in Hrel by done. destruct Hrel as [H|H].
  - destruct (prefix_weak_total _ _ _ Hroot H); contradiction.
  - by apply E2; etrans.
Qed.

Lemma tree_output_reject_sound_witness :
  match_target (TreeOutputTo $"bar") sample_spec sample_def
  = yes_if (tree_scan $"bar" sample_def).
Proof.
  apply tree_output_reject_sound.
  - by apply (bool_decide_unpack _); vm_compute.
  - by apply (bool_decide_unpack _); vm_compute.
  - intros o p Ho Hp _. apply list_elem_of_singleton in Ho as ->.
    apply list_elem_of_singleton in Hp as ->. split.
    + by apply (bool_decide_unpack _); vm_compute.
    + by vm_compute.
Defined.
