(* ===== verification/HtQuery.v ===== *)
(** The query language: [crates/model/src/htquery/mod.rs], with the package
    references of [crates/model/src/htpkg/parse.rs] it is built on.

    [tokenize] and the recursive-descent parser are loops over the remaining
    characters and tokens; [Parser::pos] is the list of tokens still to read and
    [Parser::depth], which every [parse_not] restores, is an argument. The
    printer writes into a [String], here the text it appends. Loops carry fuel:
    the length of what is left to read, and the nesting limit for the descent.
    [query_parse_total] shows the fuel never runs out. *)
From S2P Require Import Prelude Numerals Nom HtPkg HtLabel HtAddr HtMatcher.

(** ** Errors *)

Inductive pkg_ref_error :=
| PkgRefEscapes (e : pkg_error)
| InvalidPkgRef (input : str).

Inductive query_error :=
| SingleAmp
| SinglePipe
| UnterminatedQuoted
| UnterminatedLiteral
| ExpectedBrace
| MalformedUnicode
| NotACharacter (hex : str)
| UnknownEscape (c : char)
| UnexpectedTok (described : str)
| TooDeep (limit : nat)
| ExpectedClose (described : str)
| UnclosedParen
| ExpectedArgument (w described : str)
| MissingArgument (w : str)
| ExpectedCloseAfter (call described : str)
| UnclosedCall (w : str)
| EmptyDriver
| UnexpectedEnd
| UnknownFunction (other : str)
| BadLabel (e : label_error)
| BadAddr (e : addr_error)
| BadPkg (e : pkg_error)
| BadPkgRef (e : pkg_ref_error)
| InContext (ctx : str) (e : query_error)
| OutOfFuel.

(** ** Package references *)

(** [htpkg::parse]. *)
Definition htpkg_parse (input : str) (base : PkgBuf) : result pkg_ref_error Matcher :=
  match strip_prefix $"//" input with
  | Some abs =>
      if decide (abs = $"...") then Ok (PackagePrefix [])
      else match strip_suffix $"/..." abs with
           | Some prefix => PackagePrefix <$> map_err PkgRefEscapes (join_rel_checked_pkg [] prefix)
           | None => Package <$> map_err PkgRefEscapes (join_rel_checked_pkg [] abs)
           end
  | None =>
      if bool_decide (input = $".") || bool_decide (input = $"..")
         || starts_with $"./" input || starts_with $"../" input then
        let '(path_part, has_ellipsis) :=
          match strip_suffix $"/..." input with
          | Some p => (p, true)
          | None => (input, false)
          end in
        pkg ← map_err PkgRefEscapes (resolve_relative_pkg base path_part);
        Ok (if has_ellipsis then PackagePrefix pkg else Package pkg)
      else Err (InvalidPkgRef input)
  end.

(** ** Printing *)

Definition DRIVER_FN : str := $"driver".

Definition is_word_break (c : char) : bool :=
  is_whitespace c || any_of ($"()&|!" ++ [dquote]) c.

Definition is_bare_word (s : str) : bool :=
  negb (is_empty s) && forallb (fun c => negb (is_word_break c) && negb (is_control c)) s.

Definition quote_char (c : char) : str :=
  if decide (c = backslash) then [backslash; backslash]
  else if decide (c = dquote) then [backslash; dquote]
  else if decide (c = 10%N) then [backslash; #"n"]
  else if decide (c = 13%N) then [backslash; #"r"]
  else if decide (c = 9%N) then [backslash; #"t"]
  else if is_control c then [backslash; #"u"; #"{"] ++ to_hex c ++ [ #"}" ]
  else [c].

Definition quote_string (s : str) : str :=
  [dquote] ++ concat (quote_char <$> s) ++ [dquote].

Definition fmt_arg (arg : str) : str :=
  if is_empty arg || is_bare_word arg then arg else quote_string arg.

Definition fmt_call (name arg : str) : str := name ++ $"(" ++ fmt_arg arg ++ $")".

Definition call_display (name arg : str) : str := fmt_call name arg.

Definition fmt_pattern (bare func arg : str) : str :=
  if is_bare_word bare then bare else fmt_call func arg.

Definition prec (m : Matcher) : nat :=
  match m with Or _ => 1 | And _ => 2 | _ => 3 end.

(** The [for (i, c) in children.iter().enumerate()] loop, [first] being [i == 0]. *)
Fixpoint fmt_join (fmt : Matcher -> str) (sep : str) (first : bool) (children : list Matcher) : str :=
  match children with
  | [] => []
  | c :: r => (if first then [] else sep) ++ fmt c ++ fmt_join fmt sep false r
  end.

Definition prefix_bare (p : PkgBuf) : str :=
  if is_empty p then $"//..." else $"//" ++ p ++ $"/...".

Fixpoint fmt_prec (m : Matcher) (parent_prec : nat) : str :=
  let body :=
    match m with
    | MAddr a => fmt_pattern (HtAddr.format a) $"addr" (HtAddr.format a)
    | Package p => fmt_pattern ($"//" ++ p) $"package" p
    | PackagePrefix p => fmt_pattern (prefix_bare p) $"package_prefix" p
    | Label l => fmt_call $"label" l
    | Driver d => fmt_call DRIVER_FN d
    | TreeOutputTo p => fmt_call $"tree_output" p
    | And children => fmt_join (fun c => fmt_prec c 2) $" && " true children
    | Or children => fmt_join (fun c => fmt_prec c 1) $" || " true children
    | Not inner => $"!" ++ fmt_prec inner 3
    end in
  if bool_decide (prec m < parent_prec) then $"(" ++ body ++ $")" else body.

Definition format (m : Matcher) : str := fmt_prec m 0.

(** ** Tokens *)

Inductive Tok :=
| TAnd
| TOr
| TNot
| LParen
| RParen
| Word (w : str)
| Str (s : str).

#[export] Instance Tok_eq_dec : EqDecision Tok.
Proof. solve_decision. Defined.

Definition describe (t : Tok) : str :=
  match t with
  | TAnd => $"&&"
  | TOr => $"||"
  | TNot => $"!"
  | LParen => $"("
  | RParen => $")"
  | Word w => w
  | Str s => quote_string s
  end.

(** The digits of a [\u{HEX}] escape, through the closing brace. *)
Fixpoint read_hex (hex : str) (chars : str) : result query_error (str * str) :=
  match chars with
  | [] => Err MalformedUnicode
  | c :: r =>
      if decide (c = #"}") then Ok (hex, r)
      else if is_ascii_hexdigit c && bool_decide (length hex < 6) then read_hex (hex ++ [c]) r
      else Err MalformedUnicode
  end.

(** [u32::from_str_radix(&hex, 16).ok().and_then(char::from_u32)]. *)
Definition char_of_hex (hex : str) : option char :=
  match parse_hex hex with
  | Some n => if is_scalar n then Some n else None
  | None => None
  end.

(** The literal and the characters after its closing quote. *)
Fixpoint unescape_string (fuel : nat) (s : str) (chars : str) : result query_error (str * str) :=
  match fuel with
  | O => Err OutOfFuel
  | S fuel =>
      match chars with
      | [] => Err UnterminatedLiteral
      | c :: r =>
          if decide (c = dquote) then Ok (s, r)
          else if decide (c = backslash) then
            match r with
            | [] => Err UnterminatedLiteral
            | e :: r =>
                if decide (e = backslash) then unescape_string fuel (s ++ [backslash]) r
                else if decide (e = dquote) then unescape_string fuel (s ++ [dquote]) r
                else if decide (e = #"n") then unescape_string fuel (s ++ [10%N]) r
                else if decide (e = #"r") then unescape_string fuel (s ++ [13%N]) r
                else if decide (e = #"t") then unescape_string fuel (s ++ [9%N]) r
                else if decide (e = #"u") then
                  match r with
                  | b :: r =>
                      if decide (b = #"{") then
                        '(hex, r) ← read_hex [] r;
                        match char_of_hex hex with
                        | Some c => unescape_string fuel (s ++ [c]) r
                        | None => Err (NotACharacter hex)
                        end
                      else Err ExpectedBrace
                  | [] => Err ExpectedBrace
                  end
                else Err (UnknownEscape e)
            end
          else unescape_string fuel (s ++ [c]) r
      end
  end.

(** Whether the last two tokens are a word and an opening parenthesis.
    [tokens] holds the last token first. *)
Definition in_argument (tokens : list Tok) : bool :=
  match tokens with LParen :: Word _ :: _ => true | _ => false end.

(** One turn of the [while let Some(&c) = chars.peek()] loop on [c :: r]: the
    tokens and characters after it. *)
Definition tokenize_step (c : char) (r : str) (tokens : list Tok)
    : result query_error (list Tok * str) :=
  if is_whitespace c then Ok (tokens, r)
  else if decide (c = #"(") then Ok (LParen :: tokens, r)
  else if decide (c = #")") then Ok (RParen :: tokens, r)
  else if decide (c = #"!") then Ok (TNot :: tokens, r)
  else if decide (c = #"&") then
    match r with
    | c' :: r' => if decide (c' = #"&") then Ok (TAnd :: tokens, r') else Err SingleAmp
    | [] => Err SingleAmp
    end
  else if decide (c = #"|") then
    match r with
    | c' :: r' => if decide (c' = #"|") then Ok (TOr :: tokens, r') else Err SinglePipe
    | [] => Err SinglePipe
    end
  else if decide (c = dquote) then
    if in_argument tokens then
      '(s, r) ← unescape_string (S (length r)) [] r;
      Ok (Str s :: tokens, r)
    else
      match split_once dquote r with
      | Some (s, r) => Ok (Word s :: tokens, r)
      | None => Err UnterminatedQuoted
      end
  else
    let '(s, r) := span_till is_word_break (c :: r) in
    Ok (Word s :: tokens, r).

Fixpoint tokenize_loop (fuel : nat) (tokens : list Tok) (chars : str)
    : result query_error (list Tok) :=
  match chars with
  | [] => Ok (reverse tokens)
  | c :: r =>
      match fuel with
      | O => Err OutOfFuel
      | S fuel =>
          '(tokens, r) ← tokenize_step c r tokens;
          tokenize_loop fuel tokens r
      end
  end.

Definition tokenize (input : str) : result query_error (list Tok) :=
  tokenize_loop (length input) [] input.

(** ** Parsing *)

Definition MAX_NESTING_DEPTH : nat := 256.

Definition to_pkg (arg : str) : result pkg_error PkgBuf :=
  join_rel_checked_pkg [] (default arg (strip_prefix $"//" arg)).

Section parser.
Context {nom : Nom} (base : PkgBuf).

Definition func_to_matcher (name arg : str) : result query_error Matcher :=
  let ctx := InContext ($"parsing " ++ call_display name arg) in
  if decide (name = $"label") then
    _ ← map_err (fun e => ctx (BadLabel e)) (validate arg);
    Ok (Label arg)
  else if decide (name = $"tree_output" \/ name = $"tree_output_to") then
    TreeOutputTo <$> map_err (fun e => ctx (BadPkg e)) (to_pkg arg)
  else if decide (name = $"addr") then
    MAddr <$> map_err (fun e => ctx (BadAddr e)) (parse_addr_with_base arg base)
  else if decide (name = $"package" \/ name = $"pkg") then
    Package <$> map_err (fun e => ctx (BadPkg e)) (to_pkg arg)
  else if decide (name = $"package_prefix") then
    PackagePrefix <$> map_err (fun e => ctx (BadPkg e)) (to_pkg arg)
  else Err (UnknownFunction name).

Definition pattern_to_matcher (word : str) : result query_error Matcher :=
  let ctx := InContext ($"parsing `" ++ word ++ $"`") in
  if contains_char #":" word then
    MAddr <$> map_err (fun e => ctx (BadAddr e)) (parse_addr_with_base word base)
  else map_err (fun e => ctx (BadPkgRef e)) (htpkg_parse word base).

(** The [driver] check and the dispatch once the call is closed. *)
Definition call_to_matcher (w : str) (arg : option str) : result query_error Matcher :=
  if decide (w = DRIVER_FN) then
    match arg with
    | Some ((_ :: _) as a) => Ok (Driver a)
    | _ => Err EmptyDriver
    end
  else func_to_matcher w (default [] arg).

(** The closing parenthesis of a call. *)
Definition close_call (w : str) (arg : option str) (toks : list Tok)
    : result query_error (Matcher * list Tok) :=
  match toks with
  | RParen :: toks => (fun m => (m, toks)) <$> call_to_matcher w arg
  | other :: _ => Err (ExpectedCloseAfter (call_display w (default [] arg)) (describe other))
  | [] => Err (UnclosedCall w)
  end.

(** [toks] is what follows [w(]. *)
Definition parse_call (w : str) (toks : list Tok) : result query_error (Matcher * list Tok) :=
  match toks with
  | RParen :: _ => close_call w None toks
  | Word a :: toks | Str a :: toks => close_call w (Some a) toks
  | other :: _ => Err (ExpectedArgument w (describe other))
  | [] => Err (MissingArgument w)
  end.

Section descent.
Context (parse_not : list Tok -> result query_error (Matcher * list Tok)).

Definition peek_is (op : Tok) (toks : list Tok) : bool :=
  match toks with t :: _ => bool_decide (t = op) | [] => false end.

(** [while matches!(self.peek(), Some(op)) { self.bump(); terms.push(term()?); }] *)
Fixpoint while_op (op : Tok) (term : list Tok -> result query_error (Matcher * list Tok))
    (fuel : nat) (terms : list Matcher) (toks : list Tok)
    : result query_error (list Matcher * list Tok) :=
  match toks with
  | t :: toks' =>
      if decide (t = op) then
        match fuel with
        | O => Err OutOfFuel
        | S fuel =>
            '(m, toks) ← term toks';
            while_op op term fuel (terms ++ [m]) toks
        end
      else Ok (terms, toks)
  | [] => Ok (terms, [])
  end.

Definition parse_and (toks : list Tok) : result query_error (Matcher * list Tok) :=
  '(first, toks) ← parse_not toks;
  if negb (peek_is TAnd toks) then Ok (first, toks)
  else
    '(terms, toks) ← while_op TAnd parse_not (length toks) [first] toks;
    Ok (And terms, toks).

Definition parse_or (toks : list Tok) : result query_error (Matcher * list Tok) :=
  '(first, toks) ← parse_and toks;
  if negb (peek_is TOr toks) then Ok (first, toks)
  else
    '(terms, toks) ← while_op TOr parse_and (length toks) [first] toks;
    Ok (Or terms, toks).

Definition parse_atom (toks : list Tok) : result query_error (Matcher * list Tok) :=
  match toks with
  | LParen :: toks =>
      '(inner, toks) ← parse_or toks;
      match toks with
      | RParen :: toks => Ok (inner, toks)
      | other :: _ => Err (ExpectedClose (describe other))
      | [] => Err UnclosedParen
      end
  | Word w :: LParen :: toks => parse_call w toks
  | Word w :: toks => (fun m => (m, toks)) <$> pattern_to_matcher w
  | other :: _ => Err (UnexpectedTok (describe other))
  | [] => Err UnexpectedEnd
  end.
End descent.

(** [parse_not] with [parse_not_inner]: [depth] is the counter before the call.
    The nested [parse_not] of a [(…)] is the one reached through [parse_atom],
    [parse_or] and [parse_and]. *)
Fixpoint parse_not (fuel : nat) (depth : nat) (toks : list Tok)
    : result query_error (Matcher * list Tok) :=
  match fuel with
  | O => Err OutOfFuel
  | S fuel =>
      let depth := S depth in
      if bool_decide (MAX_NESTING_DEPTH < depth) then Err (TooDeep MAX_NESTING_DEPTH)
      else match toks with
           | TNot :: toks => (fun '(inner, toks) => (Not inner, toks)) <$> parse_not fuel depth toks
           | _ => parse_atom (parse_not fuel depth) toks
           end
  end.

(** Every level of nesting raises [depth], so one more than the limit is
    enough fuel for the descent. *)
Definition parse (input : str) : result query_error Matcher :=
  tokens ← map_err (InContext $"tokenizing query") (tokenize input);
  '(m, toks) ← parse_or (parse_not (S MAX_NESTING_DEPTH) 0) tokens;
  match toks with
  | tok :: _ => Err (UnexpectedTok (describe tok))
  | [] => Ok m
  end.
End parser.

(** ** Fuel *)

Lemma read_hex_shrinks hex cs h r : read_hex hex cs = Ok (h, r) -> length r < length cs.
Proof.
  revert hex; induction cs as [|c cs IH]; intros hex; simpl; [done|].
  case_decide; [intros [= <- <-]; lia|]. destruct (_ && _); [|done].
  intros Hr%IH. lia.
Qed.

Lemma read_hex_fuel hex cs : read_hex hex cs <> Err OutOfFuel.
Proof.
  revert hex; induction cs as [|c cs IH]; intros hex; simpl; [done|].
  case_decide; [done|]. by destruct (_ && _).
Qed.

(** What [unescape_string] returns given enough fuel: never [OutOfFuel], and a
    shorter rest. *)
Lemma unescape_string_fuel n s cs : length cs < n ->
  unescape_string n s cs <> Err OutOfFuel /\
  forall s' r, unescape_string n s cs = Ok (s', r) -> length r < length cs.
Proof.
  revert s cs; induction n as [|n IH]; intros s cs Hn; [lia|]. simpl.
  assert (Hrec : forall s r, length r < length cs ->
    unescape_string n s r <> Err OutOfFuel /\
    forall s' r', unescape_string n s r = Ok (s', r') -> length r' < length cs).
  { intros s0 r0 Hr. destruct (IH s0 r0 ltac:(lia)) as [F1 F2]. split; [done|].
    intros s' r' H%F2. lia. }
  clear IH. destruct cs as [|c cs]; [done|]. simpl in *.
  case_decide; [split; [done|]; intros s' r [= <- <-]; lia|].
  case_decide; [|apply Hrec; lia].
  destruct cs as [|e cs]; [done|]. simpl in *.
  do 5 (case_decide; [apply Hrec; lia|]).
  case_decide; [|done]. destruct cs as [|b cs]; [done|]. simpl in *.
  case_decide; [|done]. destruct (read_hex [] cs) as [[hex r]|e'] eqn:E; simpl.
  - apply read_hex_shrinks in E. destruct (char_of_hex hex); [apply Hrec; lia|done].
  - split; [|done]. intros [= ->]. by apply read_hex_fuel in E.
Qed.

Lemma tokenize_step_fuel c r toks :
  tokenize_step c r toks <> Err OutOfFuel /\
  forall toks' r', tokenize_step c r toks = Ok (toks', r') -> length r' <= length r.
Proof.
  unfold tokenize_step.
  destruct (is_whitespace c) eqn:Ew; [split; [done|]; intros ?? [= <- <-]; lia|].
  do 3 (case_decide; [split; [done|]; intros ?? [= <- <-]; lia|]).
  case_decide; [destruct r as [|c' r]; [done|]; case_decide; [|done];
    split; [done|]; intros ?? [= <- <-]; simpl; lia|].
  case_decide; [destruct r as [|c' r]; [done|]; case_decide; [|done];
    split; [done|]; intros ?? [= <- <-]; simpl; lia|].
  case_decide; [destruct (in_argument toks)|].
  - destruct (unescape_string_fuel (S (length r)) [] r) as [F1 F2]; [lia|].
    destruct (unescape_string _ _ _) as [[s r'']|e]; simpl.
    + split; [done|]. intros ?? [= <- <-]. specialize (F2 s r'' eq_refl). lia.
    + split; [|done]. intros [= ->]. by apply F1.
  - destruct (split_once dquote r) as [[s r'']|] eqn:E; [|done].
    apply split_once_Some in E as [-> _]. split; [done|]. intros ?? [= <- <-].
    rewrite length_app. simpl. lia.
  - destruct (span_till is_word_break (c :: r)) as [s r''] eqn:E. split; [done|].
    intros ?? [= <- <-]. simpl in E.
    assert (is_word_break c = false) as Hc.
    { unfold is_word_break. rewrite Ew. unfold any_of. simpl. rewrite !orb_false_iff, !N.eqb_neq. done. }
    rewrite Hc in E. destruct (span_till is_word_break r) as [a b] eqn:E'.
    injection E as <- <-. apply span_till_spec in E' as [-> _]. rewrite length_app. lia.
Qed.

(** The tokenizer without its fuel. *)
Lemma tokenize_loop_fuel n m toks cs : length cs <= n -> length cs <= m ->
  tokenize_loop n toks cs = tokenize_loop m toks cs /\ tokenize_loop n toks cs <> Err OutOfFuel.
Proof.
  revert m toks cs; induction n as [|n IH]; intros m toks cs Hn Hm.
  { destruct cs; [by destruct m|]. simpl in *; lia. }
  destruct cs as [|c r]; [by destruct m|]. destruct m as [|m]; simpl in *; [lia|].
  pose proof (tokenize_step_fuel c r toks) as [F1 F2].
  destruct (tokenize_step c r toks) as [[toks' r']|e]; simpl.
  - specialize (F2 toks' r' eq_refl). apply IH; lia.
  - split; [done|]. intros [= ->]. by apply F1.
Qed.

Definition tok_run (toks : list Tok) (cs : str) : result query_error (list Tok) :=
  tokenize_loop (length cs) toks cs.

Lemma tok_run_step c r toks toks' r' : tokenize_step c r toks = Ok (toks', r') ->
  tok_run toks (c :: r) = tok_run toks' r'.
Proof.
  intros E. unfold tok_run. cbn [length tokenize_loop]. rewrite E. simpl.
  apply tokenize_loop_fuel; [|done]. by apply tokenize_step_fuel in E.
Qed.

Lemma tokenize_fuel input : tokenize input <> Err OutOfFuel.
Proof. by apply (tokenize_loop_fuel _ (length input)). Qed.

(** A parser of one term: it never runs out of fuel and never gives back more
    tokens than it was given. *)
Definition well_behaved {A} (p : list Tok -> result query_error (A * list Tok)) : Prop :=
  forall toks, p toks <> Err OutOfFuel /\
    forall x toks', p toks = Ok (x, toks') -> length toks' <= length toks.

Section fuel.
Context {nom : Nom} (base : PkgBuf).

Lemma while_op_fuel op term n terms toks : well_behaved term -> length toks <= n ->
  while_op op term n terms toks <> Err OutOfFuel /\
  forall x toks', while_op op term n terms toks = Ok (x, toks') -> length toks' <= length toks.
Proof.
  intros Ht. revert terms toks; induction n as [|n IH]; intros terms toks Hn.
  - destruct toks; simpl in *; [|lia]. split; [done|]. by intros ?? [= <- <-].
  - destruct toks as [|t toks]; simpl in *; [split; [done|]; by intros ?? [= <- <-]|].
    case_decide; [|split; [done|]; by intros ?? [= <- <-]].
    destruct (Ht toks) as [F1 F2]. destruct (term toks) as [[m toks']|e]; simpl.
    + specialize (F2 m toks' eq_refl). destruct (IH (terms ++ [m]) toks') as [F3 F4]; [lia|].
      split; [done|]. intros ?? Hq%F4. lia.
    + split; [|done]. intros [= ->]. by apply F1.
Qed.

Section chain.
Context (term : list Tok -> result query_error (Matcher * list Tok)).
Context (op : Tok) (mk : list Matcher -> Matcher).

(** The shape [parse_and] and [parse_or] share. *)
Definition chain (toks : list Tok) : result query_error (Matcher * list Tok) :=
  '(first, toks) ← term toks;
  if negb (peek_is op toks) then Ok (first, toks)
  else
    '(terms, toks) ← while_op op term (length toks) [first] toks;
    Ok (mk terms, toks).

Lemma chain_well_behaved : well_behaved term -> well_behaved chain.
Proof.
  intros Ht toks. unfold chain. destruct (Ht toks) as [F1 F2].
  destruct (term toks) as [[m toks']|e]; simpl; [|split; [|done]; intros [= ->]; by apply F1].
  specialize (F2 m toks' eq_refl).
  destruct (negb _); [split; [done|]; by intros ?? [= <- <-]|].
  destruct (while_op_fuel op term (length toks') [m] toks' Ht) as [F3 F4]; [done|].
  destruct (while_op _ _ _ _ _) as [[ms toks'']|e]; simpl.
  - split; [done|]. intros ?? [= <- <-]. specialize (F4 ms toks'' eq_refl). lia.
  - split; [|done]. intros [= ->]. by apply F3.
Qed.
End chain.

Lemma parse_or_chain pn toks : parse_or pn toks = chain (chain pn TAnd And) TOr Or toks.
Proof. done. Qed.

Lemma map_err_fuel {E A} (f : E -> query_error) (r : result E A) :
  (forall e, f e <> OutOfFuel) -> map_err f r <> Err OutOfFuel.
Proof. intros H. destruct r; simpl; [done|]. intros [= E']. by apply (H e). Qed.

Lemma fmap_fuel {A B} (f : A -> B) (r : result query_error A) :
  r <> Err OutOfFuel -> f <$> r <> Err OutOfFuel.
Proof. destruct r; simpl; [done|]. intros H [= ->]. by apply H. Qed.

Lemma call_to_matcher_fuel w arg : call_to_matcher base w arg <> Err OutOfFuel.
Proof.
  unfold call_to_matcher. case_decide; [by destruct arg as [[|]|]|].
  unfold func_to_matcher. case_decide.
  { pose proof (map_err_fuel (fun e => InContext
      ($"parsing " ++ call_display w (default [] arg)) (BadLabel e)) (validate (default [] arg))) as Hv.
    destruct (map_err _ _); simpl; [done|]. intros [= ->]. by apply Hv. }
  repeat (case_decide; [apply fmap_fuel, map_err_fuel; done|]). done.
Qed.

Lemma pattern_to_matcher_fuel w : pattern_to_matcher base w <> Err OutOfFuel.
Proof.
  unfold pattern_to_matcher. destruct (contains_char _ _); [apply fmap_fuel|]; by apply map_err_fuel.
Qed.

Lemma close_call_well_behaved w arg : well_behaved (close_call base w arg).
Proof.
  intros toks. unfold close_call.
  destruct toks as [|[] toks]; try (split; [done|by intros]).
  pose proof (call_to_matcher_fuel w arg) as H.
  split; [by apply fmap_fuel|]. destruct (call_to_matcher _ _ _); simpl; [|done].
  intros ?? [= <- <-]. lia.
Qed.

Lemma parse_call_well_behaved w : well_behaved (parse_call base w).
Proof.
  intros toks. unfold parse_call.
  destruct toks as [|[] toks]; try (split; [done|by intros]); try apply close_call_well_behaved.
  all: match goal with |- context [close_call _ _ ?a _] =>
    destruct (close_call_well_behaved w a toks) as [F1 F2] end.
  all: split; [done|]; intros ?? Hq%F2; simpl; lia.
Qed.

Lemma parse_atom_well_behaved pn : well_behaved pn -> well_behaved (parse_atom base pn).
Proof.
  intros Hpn toks. unfold parse_atom. destruct toks as [|[] toks]; try (split; [done|by intros]).
  - destruct (chain_well_behaved _ TOr Or (chain_well_behaved _ TAnd And Hpn) toks) as [F1 F2].
    rewrite <-parse_or_chain in F1. destruct (parse_or pn toks) as [[m toks']|e] eqn:E; simpl.
    + rewrite parse_or_chain in E. specialize (F2 m toks' E).
      destruct toks' as [|[] toks']; try (split; [done|by intros]).
      split; [done|]. intros ?? [= <- <-]. simpl in *. lia.
    + split; [|done]. intros [= ->]. by apply F1.
  - pose proof (pattern_to_matcher_fuel w) as Hp.
    assert (Hpat : (fun m : Matcher => (m, toks)) <$> pattern_to_matcher base w <> Err OutOfFuel /\
      forall x toks', (fun m => (m, toks)) <$> pattern_to_matcher base w = Ok (x, toks') ->
        length toks' <= S (length toks)).
    { split; [by apply fmap_fuel|]. destruct (pattern_to_matcher base w); simpl; [|done].
      intros ?? [= <- <-]. lia. }
    destruct toks as [|[] toks]; try exact Hpat.
    destruct (parse_call_well_behaved w toks) as [F1 F2]. split; [done|].
    intros ?? Hq%F2. simpl. lia.
Qed.

Lemma parse_not_well_behaved n d : d <= MAX_NESTING_DEPTH < n + d ->
  well_behaved (parse_not base n d).
Proof.
  revert d; induction n as [|n IH]; intros d Hn toks; cbn [parse_not].
  - lia.
  - case_bool_decide; [done|].
    assert (Hpn : well_behaved (parse_not base n (S d))) by (apply IH; lia).
    destruct toks as [|[] toks]; try by apply parse_atom_well_behaved.
    destruct (Hpn toks) as [F1 F2]. split; [by apply fmap_fuel|].
    destruct (parse_not base n (S d) toks) as [[m toks']|]; simpl; [|done].
    intros ?? [= <- <-]. specialize (F2 m toks' eq_refl). lia.
Qed.
End fuel.

(** ** Quoting *)

Lemma control_hex_short c : is_control c = true -> length (to_hex c) <= 6.
Proof.
  intros Hc. assert (Hall : forallb (fun n => Nat.leb (length (to_hex (N.of_nat n))) 6)
    (seq 0 160) = true) by (vm_compute; reflexivity).
  rewrite forallb_forall in Hall. specialize (Hall (N.to_nat c)).
  rewrite N2Nat.id in Hall. apply Nat.leb_le, Hall, in_seq.
  unfold is_control in Hc. apply orb_true_iff in Hc. rewrite andb_true_iff, !N.leb_le in Hc. lia.
Qed.

Lemma read_hex_app hex s r : Forall (fun c => is_ascii_hexdigit c = true) s ->
  length hex + length s <= 6 -> read_hex hex (s ++ #"}" :: r) = Ok (hex ++ s, r).
Proof.
  intros Hs. revert hex; induction Hs as [|c s Hc Hs IH]; intros hex Hl; simpl.
  - by rewrite app_nil_r.
  - simpl in Hl. rewrite decide_False by (by intros ->).
    rewrite Hc, bool_decide_true by lia. simpl. rewrite IH.
    + by rewrite <-app_assoc.
    + rewrite length_app. simpl. lia.
Qed.

Lemma control_scalar c : is_control c = true -> is_scalar c = true.
Proof.
  unfold is_control, is_scalar. rewrite !orb_true_iff, !andb_true_iff, !N.leb_le, N.ltb_lt. lia.
Qed.

(** Reading one quoted character costs one unit of fuel. *)
Lemma unescape_quote_char n s c r :
  unescape_string (S n) s (quote_char c ++ r) = unescape_string n (s ++ [c]) r.
Proof.
  unfold quote_char.
  case_decide as H1; [by subst|]. case_decide as H2; [by subst|].
  case_decide as H3; [by subst|]. case_decide as H4; [by subst|].
  case_decide as H5; [by subst|].
  destruct (is_control c) eqn:Hc.
  - rewrite <-!app_assoc. cbn [app unescape_string].
    change ([ #"}" ] ++ r) with (#"}" :: r).
    rewrite (decide_False (P := backslash = dquote)) by done.
    rewrite (decide_True (P := backslash = backslash)) by done.
    do 5 (rewrite decide_False by done). do 2 (rewrite decide_True by done).
    rewrite read_hex_app; [|apply to_hex_hexdigits|by apply control_hex_short].
    simpl. unfold char_of_hex. by rewrite parse_hex_to_hex, control_scalar.
  - simpl. by rewrite !decide_False.
Qed.

(** Unescaping a quoted string gives it back. *)
Lemma unescape_quote n s t rest : length t < n ->
  unescape_string n s (concat (quote_char <$> t) ++ dquote :: rest) = Ok (s ++ t, rest).
Proof.
  revert n s; induction t as [|c t IH]; intros n s Hn.
  - destruct n; [simpl in Hn; lia|]. simpl. by rewrite app_nil_r.
  - destruct n as [|n]; [simpl in Hn; lia|]. rewrite fmap_cons. cbn [concat].
    rewrite <-app_assoc, unescape_quote_char. rewrite IH by (simpl in Hn; lia).
    by rewrite <-app_assoc.
Qed.

Lemma quote_char_length c : 1 <= length (quote_char c).
Proof. unfold quote_char. repeat case_decide; simpl; try lia. case_match; simpl; lia. Qed.

Lemma quoted_length t : length t <= length (concat (quote_char <$> t)).
Proof.
  induction t as [|c t IH]; [done|]. rewrite fmap_cons. cbn [concat length].
  rewrite length_app. pose proof (quote_char_length c). lia.
Qed.

(** ** Tokenizing what the printer writes *)

(** What may follow a word. *)
Definition word_end (rest : str) : Prop :=
  rest = [] \/ exists c r, rest = c :: r /\ is_word_break c = true.

(** [s] is read as the tokens [ts], whatever precedes it. *)
Definition reads (s : str) (ts : list Tok) : Prop :=
  forall toks rest, word_end rest -> tok_run toks (s ++ rest) = tok_run (reverse ts ++ toks) rest.

Lemma reads_nil : reads [] [].
Proof. done. Qed.

Lemma reads_app a b ta tb : reads a ta -> reads b tb ->
  (b = [] \/ exists c r, b = c :: r /\ is_word_break c = true) -> reads (a ++ b) (ta ++ tb).
Proof.
  intros Ha Hb Hbreak toks rest Hrest. rewrite <-app_assoc, Ha.
  - by rewrite Hb, reverse_app, <-app_assoc.
  - destruct Hbreak as [-> | (c & r & -> & Hc)]; [done|]. right. by exists c, (r ++ rest).
Qed.

(** A token that is not a word may be followed by anything. *)
Definition reads_all (s : str) (ts : list Tok) : Prop :=
  forall toks rest, tok_run toks (s ++ rest) = tok_run (reverse ts ++ toks) rest.

Lemma reads_all_reads s ts : reads_all s ts -> reads s ts.
Proof. intros H toks rest _. apply H. Qed.

Lemma reads_all_app a b ta tb : reads_all a ta -> reads b tb -> reads (a ++ b) (ta ++ tb).
Proof.
  intros Ha Hb toks rest Hr. rewrite <-app_assoc, Ha, Hb by done.
  by rewrite reverse_app, <-app_assoc.
Qed.

Lemma reads_lparen : reads_all $"(" [LParen].
Proof. intros toks rest. by apply tok_run_step. Qed.
Lemma reads_rparen : reads_all $")" [RParen].
Proof. intros toks rest. by apply tok_run_step. Qed.
Lemma reads_not : reads_all $"!" [TNot].
Proof. intros toks rest. by apply tok_run_step. Qed.
Lemma reads_space toks rest : tok_run toks (#" " :: rest) = tok_run toks rest.
Proof. by apply tok_run_step. Qed.
Lemma reads_and : reads_all $" && " [TAnd].
Proof.
  intros toks rest. simpl. rewrite reads_space.
  rewrite (tok_run_step _ _ _ (TAnd :: toks) (#" " :: rest)) by done. apply reads_space.
Qed.
Lemma reads_or : reads_all $" || " [TOr].
Proof.
  intros toks rest. simpl. rewrite reads_space.
  rewrite (tok_run_step _ _ _ (TOr :: toks) (#" " :: rest)) by done. apply reads_space.
Qed.

Lemma word_break_false c : is_word_break c = false ->
  is_whitespace c = false /\ c <> #"(" /\ c <> #")" /\ c <> #"!" /\ c <> #"&" /\ c <> #"|" /\ c <> dquote.
Proof.
  unfold is_word_break, any_of. simpl. rewrite !orb_false_iff, !N.eqb_neq. naive_solver.
Qed.

Lemma bare_word_spec w : is_bare_word w = true ->
  w <> [] /\ Forall (fun c => is_word_break c = false) w.
Proof.
  unfold is_bare_word. intros [Hne Hall]%andb_true_iff. split; [by destruct w|].
  apply forallb_Forall in Hall. eapply Forall_impl; [exact Hall|].
  intros c [Hc _]%andb_true_iff. by apply negb_true_iff.
Qed.

Lemma reads_word w : is_bare_word w = true -> reads w [Word w].
Proof.
  intros [Hne Hw]%bare_word_spec toks rest Hrest. destruct w as [|c w]; [done|].
  apply (tok_run_step c (w ++ rest)). inversion_clear Hw as [|?? Hc Hws].
  destruct (word_break_false c Hc) as (E & Hn). unfold tokenize_step. rewrite E.
  rewrite !decide_False by naive_solver.
  change (c :: w ++ rest) with ((c :: w) ++ rest). rewrite span_till_app; [done|by constructor|done].
Qed.

(** The argument of a call as tokens. *)
Definition arg_toks (arg : str) : list Tok :=
  if is_empty arg then [] else if is_bare_word arg then [Word arg] else [Str arg].
Definition call_toks (name arg : str) : list Tok := [Word name; LParen] ++ arg_toks arg ++ [RParen].

Lemma reads_call name arg : is_bare_word name = true -> reads (fmt_call name arg) (call_toks name arg).
Proof.
  intros Hn toks rest Hrest. unfold fmt_call, call_toks. rewrite <-!app_assoc.
  rewrite (reads_word name Hn) by (right; eexists _, _; split; reflexivity).
  rewrite reads_lparen.
  change (reverse [LParen] ++ reverse [Word name] ++ toks) with (LParen :: Word name :: toks).
  assert (Harg : forall rest, tok_run (LParen :: Word name :: toks) (fmt_arg arg ++ $")" ++ rest) =
    tok_run (reverse (arg_toks arg) ++ LParen :: Word name :: toks) ($")" ++ rest)).
  { clear rest Hrest. intros rest. unfold fmt_arg, arg_toks. destruct (is_empty arg) eqn:E.
    - destruct arg; [|done]. done.
    - destruct (is_bare_word arg) eqn:Ew; simpl orb; cbv iota.
      + apply reads_word; [done|]. right. by exists #")", rest.
      + unfold quote_string. rewrite <-!app_assoc.
        apply (tok_run_step dquote (concat (quote_char <$> arg) ++ dquote :: $")" ++ rest)).
        unfold tokenize_step. simpl is_whitespace. cbv iota.
        do 5 (rewrite decide_False by done). rewrite decide_True by done. cbn [in_argument].
        cbv iota. rewrite unescape_quote; [done|]. rewrite length_app. pose proof (quoted_length arg). lia. }
  rewrite Harg, reads_rparen. f_equal.
  rewrite !reverse_app. by rewrite <-!app_assoc.
Qed.

(** The tokens of a printed matcher. *)
Definition pattern_toks (bare func arg : str) : list Tok :=
  if is_bare_word bare then [Word bare] else call_toks func arg.

Fixpoint join_toks (f : Matcher -> list Tok) (op : Tok) (first : bool) (ms : list Matcher) : list Tok :=
  match ms with
  | [] => []
  | m :: r => (if first then [] else [op]) ++ f m ++ join_toks f op false r
  end.

Fixpoint toks_of (m : Matcher) (p : nat) : list Tok :=
  let body :=
    match m with
    | MAddr a => pattern_toks (HtAddr.format a) $"addr" (HtAddr.format a)
    | Package p => pattern_toks ($"//" ++ p) $"package" p
    | PackagePrefix p => pattern_toks (prefix_bare p) $"package_prefix" p
    | Label l => call_toks $"label" l
    | Driver d => call_toks DRIVER_FN d
    | TreeOutputTo p => call_toks $"tree_output" p
    | And ms => join_toks (fun c => toks_of c 2) TAnd true ms
    | Or ms => join_toks (fun c => toks_of c 1) TOr true ms
    | Not m => TNot :: toks_of m 3
    end in
  if bool_decide (prec m < p) then [LParen] ++ body ++ [RParen] else body.

Lemma reads_pattern bare func arg : is_bare_word func = true ->
  reads (fmt_pattern bare func arg) (pattern_toks bare func arg).
Proof.
  intros Hf. unfold fmt_pattern, pattern_toks. destruct (is_bare_word bare) eqn:E.
  - by apply reads_word.
  - by apply reads_call.
Qed.

Lemma reads_paren s ts b : reads s ts ->
  reads (if b : bool then $"(" ++ s ++ $")" else s) (if b then [LParen] ++ ts ++ [RParen] else ts).
Proof.
  intros Hs. destruct b; [|done]. apply reads_all_app; [apply reads_lparen|].
  apply reads_app; [done|apply reads_all_reads, reads_rparen|right; eexists _, _; split; reflexivity].
Qed.

Lemma reads_join fmt f sep op ms first :
  reads_all sep [op] -> (exists c r, sep = c :: r /\ is_word_break c = true) ->
  Forall (fun m => reads (fmt m) (f m)) ms ->
  reads (fmt_join fmt sep first ms) (join_toks f op first ms).
Proof.
  intros Hsep (c & r & Es & Hc) Hms. revert first.
  induction Hms as [|m ms Hm Hms IH]; intros first; simpl; [apply reads_nil|].
  assert (Hrest : reads (fmt m ++ fmt_join fmt sep false ms) (f m ++ join_toks f op false ms)).
  { apply reads_app; [done|apply IH|]. destruct ms; [by left|right]. simpl. rewrite Es.
    by eexists c, _. }
  destruct first; [done|]. by apply reads_all_app.
Qed.

(** The printed text tokenizes to the printed tokens. *)
Lemma fmt_prec_reads m p : reads (fmt_prec m p) (toks_of m p).
Proof.
  revert p; induction m as [a|l|d|q|q|q|ms IH|ms IH|m IH] using Matcher_full_ind; intros p;
    cbn [fmt_prec toks_of]; apply reads_paren.
  - by apply reads_pattern.
  - by apply reads_call.
  - by apply reads_call.
  - by apply reads_pattern.
  - by apply reads_pattern.
  - by apply reads_call.
  - apply reads_join; [apply reads_or|by eexists _, _|]. by eapply Forall_impl.
  - apply reads_join; [apply reads_and|by eexists _, _|]. by eapply Forall_impl.
  - apply (reads_all_app _ _ [TNot]); [apply reads_not|apply IH].
Qed.

Lemma tokenize_format m : tokenize (format m) = Ok (toks_of m 0).
Proof.
  change (tok_run [] (format m) = Ok (toks_of m 0)). unfold format.
  rewrite <-(app_nil_r (fmt_prec m 0)), fmt_prec_reads by (by left).
  rewrite app_nil_r. unfold tok_run. simpl. by rewrite reverse_involutive.
Qed.

(** ** What re-parsing yields *)

(** [mk [x]] is [x]: the parser builds no one-element conjunction. *)
Definition mk1 (mk : list Matcher -> Matcher) (l : list Matcher) : Matcher :=
  match l with [m] => m | _ => mk l end.

(** The terms of the [||]-chain and of the [&&]-chain a matcher prints as. *)
Fixpoint chain_terms (m : Matcher) : list Matcher * list Matcher :=
  match m with
  | Or ms =>
      let ors := concat (map (fun c => (chain_terms c).1) ms) in (ors, [mk1 Or ors])
  | And ms =>
      let ands := concat (map (fun c => (chain_terms c).2) ms) in ([mk1 And ands], ands)
  | Not m => let n := Not (mk1 Or (chain_terms m).1) in ([n], [n])
  | m => ([m], [m])
  end.
Abbreviation ors m := ((chain_terms m).1).
Abbreviation ands m := ((chain_terms m).2).

(** Nested chains of one operator flattened, one-element chains unwrapped. *)
Definition norm (m : Matcher) : Matcher := mk1 Or (ors m).

(** How deep [parse_not] recurses on a printed matcher. *)
Fixpoint nest (m : Matcher) (p : nat) : nat :=
  let body :=
    match m with
    | And ms => foldr Nat.max 0 (map (fun c => nest c 2) ms)
    | Or ms => foldr Nat.max 0 (map (fun c => nest c 1) ms)
    | Not m => S (nest m 3)
    | _ => 1
    end in
  if bool_decide (prec m < p) then S body else body.

(** Conjunction over a list, in a form recursive definitions may use. *)
Definition all_of {A} (P : A -> Prop) : list A -> Prop :=
  fix go l := match l with [] => True | x :: r => P x /\ go r end.

Lemma all_of_Forall {A} (P : A -> Prop) l : all_of P l <-> Forall P l.
Proof. induction l as [|x l IH]; simpl; [by split|]. by rewrite Forall_cons, IH. Qed.

(** What every parsed matcher satisfies. *)
Fixpoint wf_matcher (m : Matcher) : Prop :=
  match m with
  | MAddr a => addr_wf a
  | Label l => is_valid l = true
  | Driver d => d <> []
  | Package p | PackagePrefix p | TreeOutputTo p => canonical p
  | And ms | Or ms => ms <> [] /\ all_of wf_matcher ms
  | Not m => wf_matcher m
  end.

(** A package printed as a bare pattern must not read as an address or as a
    subtree pattern. *)
Definition bare_pkg_ok (p : PkgBuf) : Prop :=
  is_bare_word p = true -> (#":" ∉ p) /\ (p <> $"...") /\ strip_suffix $"/..." p = None.

Fixpoint bare_ok (m : Matcher) : Prop :=
  match m with
  | Package p => bare_pkg_ok p
  | PackagePrefix p => is_bare_word p = true -> #":" ∉ p
  | And ms | Or ms => all_of bare_ok ms
  | Not m => bare_ok m
  | _ => True
  end.

(** ** Normalisation preserves meaning *)

Section meaning.
Context (eval : Matcher -> MatchResult).
Hypothesis eval_Or : forall ms, eval (Or ms) = or_loop eval false ms.
Hypothesis eval_And : forall ms, eval (And ms) = and_loop eval false ms.
Hypothesis eval_Not : forall m, eval (Not m) = not_result (eval m).

Lemma match_result_ext r s :
  (r = MatchYes <-> s = MatchYes) -> (r = MatchNo <-> s = MatchNo) -> r = s.
Proof. destruct r, s; naive_solver. Qed.

Lemma eval_mk1_Or l : eval (mk1 Or l) = or_loop eval false l.
Proof. destruct l as [|m [|m' l]]; simpl; rewrite ?eval_Or; try done. by destruct (eval m). Qed.
Lemma eval_mk1_And l : eval (mk1 And l) = and_loop eval false l.
Proof. destruct l as [|m [|m' l]]; simpl; rewrite ?eval_And; try done. by destruct (eval m). Qed.

Lemma elem_of_concat_map {A B} (f : A -> list B) l y :
  y ∈ concat (map f l) <-> exists x, x ∈ l /\ y ∈ f x.
Proof.
  induction l as [|x l IH]; simpl; [|rewrite elem_of_app, IH]; set_solver.
Qed.

Lemma Forall_concat_map {A B} (f : A -> list B) (P : B -> Prop) l :
  Forall P (concat (map f l)) <-> Forall (fun x => Forall P (f x)) l.
Proof. induction l as [|x l IH]; simpl; [done|]. by rewrite Forall_app, Forall_cons, IH. Qed.

(** Flattening a chain of chains. *)
Lemma or_flatten (f : Matcher -> list Matcher) ms :
  Forall (fun m => or_loop eval false (f m) = eval m) ms ->
  or_loop eval false (concat (map f ms)) = or_loop eval false ms.
Proof.
  rewrite Forall_forall. intros H. apply match_result_ext.
  - rewrite !or_loop_yes. split.
    + intros (y & (x & Hx & Hy)%elem_of_concat_map & E). exists x. split; [done|].
      rewrite <-H by done. apply or_loop_yes. eauto.
    + intros (x & Hx & E). rewrite <-H in E by done. apply or_loop_yes in E as (y & Hy & E).
      exists y. split; [|done]. apply elem_of_concat_map. eauto.
  - rewrite !or_loop_no, Forall_concat_map, !Forall_forall.
    split; intros [_ Hn]; (split; [done|]); intros x Hx; specialize (Hn x Hx); specialize (H x Hx).
    + rewrite <-H. by apply or_loop_no.
    + rewrite <-H in Hn. by apply or_loop_no in Hn as [_ Hn].
Qed.

Lemma and_flatten (f : Matcher -> list Matcher) ms :
  Forall (fun m => and_loop eval false (f m) = eval m) ms ->
  and_loop eval false (concat (map f ms)) = and_loop eval false ms.
Proof.
  rewrite Forall_forall. intros H. apply match_result_ext.
  - rewrite !and_loop_yes, Forall_concat_map, !Forall_forall.
    split; intros [_ Hn]; (split; [done|]); intros x Hx; specialize (Hn x Hx); specialize (H x Hx).
    + rewrite <-H. by apply and_loop_yes.
    + rewrite <-H in Hn. by apply and_loop_yes in Hn as [_ Hn].
  - rewrite !and_loop_no. split.
    + intros (y & (x & Hx & Hy)%elem_of_concat_map & E). exists x. split; [done|].
      rewrite <-H by done. apply and_loop_no. eauto.
    + intros (x & Hx & E). rewrite <-H in E by done. apply and_loop_no in E as (y & Hy & E).
      exists y. split; [|done]. apply elem_of_concat_map. eauto.
Qed.

Lemma eval_chain_terms m :
  or_loop eval false (ors m) = eval m /\ and_loop eval false (ands m) = eval m.
Proof.
  assert (H1 : forall m, or_loop eval false [m] = eval m) by (intros n; simpl; by destruct (eval n)).
  assert (H2 : forall m, and_loop eval false [m] = eval m) by (intros n; simpl; by destruct (eval n)).
  induction m as [a|l|d|q|q|q|ms IH|ms IH|m IH] using Matcher_full_ind; cbn [chain_terms fst snd];
    rewrite ?H1, ?H2; try done.
  - rewrite eval_mk1_Or, eval_Or. split; apply or_flatten; eapply Forall_impl; [exact IH| |exact IH|];
      by intros x [? ?].
  - rewrite eval_mk1_And, eval_And. split; apply and_flatten; eapply Forall_impl; [exact IH| |exact IH|];
      by intros x [? ?].
  - rewrite !eval_Not, eval_mk1_Or. destruct IH as [-> _]. done.
Qed.

Lemma eval_norm m : eval (norm m) = eval m.
Proof. unfold norm. rewrite eval_mk1_Or. apply eval_chain_terms. Qed.
End meaning.

(** ** Parsing what the printer writes *)

Lemma canonical_no_slash p r : canonical p -> p <> #"/" :: r.
Proof.
  intros (segs & Hs & ->). destruct Hs as [|x segs Hx Hs]; [done|].
  destruct Hx as (Hx & Hdot & Hdd & Hn). destruct x as [|c x]; [done|]. intros E.
  assert (c = #"/") as ->; [|set_solver]. by destruct segs; injection E.
Qed.

Lemma to_pkg_canonical p : canonical p -> to_pkg p = Ok p.
Proof.
  intros Hp. unfold to_pkg. destruct (strip_prefix $"//" p) as [r|] eqn:E.
  - apply strip_prefix_Some in E. by apply canonical_no_slash in E.
  - by apply join_root_canonical.
Qed.

Lemma bare_word_app a b : is_bare_word (a ++ b) = true ->
  b <> [] -> is_bare_word b = true.
Proof.
  unfold is_bare_word. rewrite forallb_app, !andb_true_iff. intros (_ & _ & Hb) Hne.
  split; [by destruct b|done].
Qed.

(** Reading a chain [t1 op t2 op …] of terms. *)
Section chains.
Context (term : list Tok -> result query_error (Matcher * list Tok)) (op : Tok).

Inductive items : list Tok -> list Matcher -> list Tok -> Prop :=
| items_nil toks : peek_is op toks = false -> items toks [] toks
| items_cons toks m toks' l r :
    term toks = Ok (m, toks') -> items toks' l r -> items (op :: toks) (m :: l) r.

Definition starts (toks : list Tok) (l : list Matcher) (r : list Tok) : Prop :=
  exists m ms toks', l = m :: ms /\ term toks = Ok (m, toks') /\ items toks' ms r.

Lemma while_op_items n acc toks l r : well_behaved term -> length toks <= n ->
  items toks l r -> while_op op term n acc toks = Ok (acc ++ l, r).
Proof.
  intros Ht Hn Hi. revert n acc Hn; induction Hi as [toks Hp|toks m toks' l r E Hi IH]; intros n acc Hn.
  - rewrite app_nil_r. destruct toks as [|t toks]; [by destruct n|]. simpl in Hp.
    apply bool_decide_eq_false in Hp. destruct n; simpl; by rewrite decide_False.
  - destruct n as [|n]; simpl in Hn; [lia|]. simpl. rewrite decide_True by done. rewrite E. simpl.
    rewrite IH; [by rewrite <-app_assoc|]. apply Ht in E. lia.
Qed.

Lemma chain_starts mk toks l r : well_behaved term -> starts toks l r ->
  chain term op mk toks = Ok (mk1 mk l, r).
Proof.
  intros Ht (m & ms & toks' & -> & E & Hi). unfold chain. rewrite E. simpl.
  inversion Hi as [? Hp|toks'' m' t' l' r' E' Hi']; subst.
  - by rewrite Hp.
  - assert (peek_is op (op :: toks'') = true) as -> by (simpl; by rewrite bool_decide_true).
    cbn [negb]. by rewrite (while_op_items (length (op :: toks'')) [m] _ _ _ Ht (le_n _) Hi).
Qed.

Lemma starts_items toks l r : starts toks l r -> items (op :: toks) l r.
Proof. intros (m & ms & toks' & -> & E & Hi). by econstructor. Qed.

(** A printed chain is read term by term. [ok] is what may follow a term. *)
Lemma join_starts (ok : list Tok -> Prop) f g ms rest l r :
  (forall toks, ok (op :: toks)) -> ok rest -> items rest l r ->
  Forall (fun m => forall rest l r, ok rest -> items rest l r -> starts (f m ++ rest) (g m ++ l) r) ms ->
  items (join_toks f op false ms ++ rest) (concat (map g ms) ++ l) r /\
  (ms <> [] -> starts (join_toks f op true ms ++ rest) (concat (map g ms) ++ l) r).
Proof.
  intros Hop Hok Hrest Hms. induction Hms as [|m ms Hm Hms [IH _]]; simpl; [done|].
  assert (Hs : starts ((f m ++ join_toks f op false ms) ++ rest) ((g m ++ concat (map g ms)) ++ l) r).
  { rewrite <-!app_assoc. apply Hm; [|done]. destruct ms; [done|apply Hop]. }
  split; [by apply starts_items|done].
Qed.
End chains.

(** What may follow a printed conjunct, and a printed disjunct. *)
Definition after_and (rest : list Tok) : Prop := peek_is LParen rest = false.
Definition after_or (rest : list Tok) : Prop := after_and rest /\ peek_is TAnd rest = false.

Section reparse.
Context {nom : Nom} {laws : NomLaws nom} (base : PkgBuf).

(** A term of a chain read at depth [d], with the fuel left there. *)
Definition fuel_at (n d : nat) : Prop := n + d = S MAX_NESTING_DEPTH.

Definition parses_not (m : Matcher) : Prop := forall n d rest,
  fuel_at n d -> nest m 3 + d <= MAX_NESTING_DEPTH -> after_and rest ->
  parse_not base n d (toks_of m 3 ++ rest) = Ok (norm m, rest).
Definition parses_and (m : Matcher) : Prop := forall n d rest l r,
  fuel_at n d -> nest m 2 + d <= MAX_NESTING_DEPTH -> after_and rest ->
  items (parse_not base n d) TAnd rest l r ->
  starts (parse_not base n d) TAnd (toks_of m 2 ++ rest) (ands m ++ l) r.
Definition parses_or (m : Matcher) : Prop := forall n d rest l r,
  fuel_at n d -> nest m 1 + d <= MAX_NESTING_DEPTH -> after_or rest ->
  items (parse_and (parse_not base n d)) TOr rest l r ->
  starts (parse_and (parse_not base n d)) TOr (toks_of m 1 ++ rest) (ors m ++ l) r.

Lemma pn_well_behaved n d : fuel_at n d -> d <= MAX_NESTING_DEPTH -> well_behaved (parse_not base n d).
Proof. unfold fuel_at. intros. apply parse_not_well_behaved. lia. Qed.

Lemma parse_not_atom n d toks : fuel_at n d -> S d <= MAX_NESTING_DEPTH ->
  peek_is TNot toks = false ->
  exists n', fuel_at n' (S d) /\ parse_not base n d toks = parse_atom base (parse_not base n' (S d)) toks.
Proof.
  unfold fuel_at. intros Hn Hd Ht. destruct n as [|n]; [lia|]. exists n. split; [lia|].
  cbn [parse_not]. rewrite bool_decide_false by lia. by destruct toks as [|[] toks].
Qed.

(** A parenthesised disjunction is a term. *)
Lemma paren_not m body : parses_or m -> toks_of m 1 = body ->
  toks_of m 3 = [LParen] ++ body ++ [RParen] -> nest m 3 = S (nest m 1) -> parses_not m.
Proof.
  intros Hor Hb Ht Hnest n d rest Hn Hd Hrest. rewrite Ht, Hnest in *.
  destruct (parse_not_atom n d (([LParen] ++ body ++ [RParen]) ++ rest)) as (n' & Hn' & ->); [done|lia|done|].
  rewrite <-!app_assoc. cbn [app parse_atom]. rewrite parse_or_chain, <-Hb.
  assert (Hwb : well_behaved (parse_not base n' (S d))) by (apply pn_well_behaved; [done|lia]).
  erewrite chain_starts; [|by apply chain_well_behaved|apply Hor with (l := []); [done|lia|done|]].
  2: by constructor.
  rewrite app_nil_r. done.
Qed.

(** A term is a one-element conjunction. *)
Lemma not_and m : parses_not m -> toks_of m 2 = toks_of m 3 -> nest m 2 = nest m 3 ->
  ands m = [norm m] -> parses_and m.
Proof.
  intros Hnot Ht Hnest Ha n d rest l r Hn Hd Hrest Hi. rewrite Ht, Ha.
  exists (norm m), l, rest. split_and!; [done| |done]. apply Hnot; [done|lia|done].
Qed.

(** A conjunction is a one-element disjunction. *)
Lemma and_or m : parses_and m -> toks_of m 1 = toks_of m 2 -> nest m 1 = nest m 2 ->
  ors m = [mk1 And (ands m)] -> parses_or m.
Proof.
  intros Hand Ht Hnest Ho n d rest l r Hn Hd [Hr1 Hr2] Hi. rewrite Ht, Ho.
  exists (mk1 And (ands m)), l, rest. split_and!; [done| |done].
  change (chain (parse_not base n d) TAnd And (toks_of m 2 ++ rest) = Ok (mk1 And (ands m), rest)).
  apply chain_starts; [apply pn_well_behaved; [done|lia]|].
  rewrite <-(app_nil_r (ands m)). apply Hand; [done|lia|done|]. by constructor.
Qed.

Lemma max_le l k : foldr Nat.max 0 l <= k <-> Forall (fun x => x <= k) l.
Proof. induction l as [|x l IH]; simpl; [split; [done|lia]|]. rewrite Forall_cons, <-IH. lia. Qed.

Lemma max_bound {A} (f : A -> nat) l d k :
  foldr Nat.max 0 (map f l) + d <= k -> Forall (fun x => f x + d <= k) l.
Proof.
  intros H. destruct (decide (d <= k)).
  - assert (H' : foldr Nat.max 0 (map f l) <= k - d) by lia.
    apply max_le in H'. apply List.Forall_map in H'. eapply Forall_impl; [exact H'|]. simpl. lia.
  - lia.
Qed.

(** A printed chain of conjuncts, and of disjuncts. *)
Lemma parses_And ms : ms <> [] -> Forall parses_and ms -> parses_and (And ms).
Proof.
  intros Hne Hms n d rest l r Hn Hd Hrest Hi. cbn [toks_of nest chain_terms fst snd prec] in *.
  rewrite bool_decide_false in * by lia.
  apply (join_starts _ _ after_and); try done.
  apply max_bound in Hd. rewrite Forall_forall in *. intros m Hm rest' l' r' Hok' Hi'.
  apply Hms; auto.
Qed.

Lemma parses_Or ms : ms <> [] -> Forall parses_or ms -> parses_or (Or ms).
Proof.
  intros Hne Hms n d rest l r Hn Hd Hrest Hi. cbn [toks_of nest chain_terms fst snd prec] in *.
  rewrite bool_decide_false in * by lia.
  apply (join_starts _ _ after_or); try done.
  apply max_bound in Hd. rewrite Forall_forall in *. intros m Hm rest' l' r' Hok' Hi'.
  apply Hms; auto.
Qed.

(** The three readings of a matcher that prints without parentheses. *)
Definition parses (m : Matcher) : Prop := parses_not m /\ parses_and m /\ parses_or m.

Lemma term_parses m : prec m = 3 -> (exists x, ors m = [x]) -> ands m = ors m ->
  parses_not m -> parses m.
Proof.
  intros Hp [x Hx] Ha Hn.
  assert (Hand : parses_and m).
  { apply not_and; [done| | |unfold norm; by rewrite Ha, Hx].
    - destruct m; try done.
    - destruct m; try done. }
  split_and!; [done..|]. apply and_or; [done| | |by rewrite Ha, Hx].
  - destruct m; try done.
  - destruct m; try done.
Qed.

Lemma call_parses n w arg rest m :
  call_to_matcher base w (if is_empty arg then None else Some arg) = Ok m ->
  parse_atom base n (call_toks w arg ++ rest) = Ok (m, rest).
Proof.
  intros E. unfold call_toks, arg_toks. destruct arg as [|c arg]; simpl in *.
  - by rewrite E.
  - destruct (is_bare_word (c :: arg)); simpl; by rewrite E.
Qed.

Lemma pattern_parses n bare w arg rest m : after_and rest ->
  (is_bare_word bare = true -> pattern_to_matcher base bare = Ok m) ->
  call_to_matcher base w (if is_empty arg then None else Some arg) = Ok m ->
  parse_atom base n (pattern_toks bare w arg ++ rest) = Ok (m, rest).
Proof.
  intros Hrest Hb Hc. unfold pattern_toks. destruct (is_bare_word bare); [|by apply call_parses].
  unfold parse_atom. cbn [app]. rewrite (Hb eq_refl).
  destruct rest as [|[] rest]; try done.
Qed.

(** The leaves. *)
Lemma leaf_parses m : prec m = 3 -> chain_terms m = ([m], [m]) -> nest m 3 = 1 ->
  peek_is TNot (toks_of m 3) = false -> toks_of m 3 <> [] ->
  (forall n rest, after_and rest -> parse_atom base n (toks_of m 3 ++ rest) = Ok (m, rest)) ->
  parses m.
Proof.
  intros Hp Hc Hnest Hnot Hne Hatom.
  apply term_parses; [done|by rewrite Hc; eexists|by rewrite Hc|].
  intros n d rest Hn Hd Hrest. rewrite Hnest in Hd.
  destruct (parse_not_atom n d (toks_of m 3 ++ rest)) as (n' & Hn' & ->); [done|lia| |].
  - by destruct (toks_of m 3).
  - rewrite Hatom by done. unfold norm. by rewrite Hc.
Qed.

Lemma pattern_toks_head bare w arg :
  peek_is TNot (pattern_toks bare w arg) = false /\ pattern_toks bare w arg <> [].
Proof. unfold pattern_toks. by destruct (is_bare_word bare). Qed.

Lemma contains_colon_format a : contains_char #":" (HtAddr.format a) = true.
Proof. apply contains_char_true. unfold HtAddr.format. rewrite !elem_of_app. right. right. left. set_solver. Qed.

Lemma addr_with_base_format a : addr_wf a -> parse_addr_with_base (HtAddr.format a) base = Ok a.
Proof.
  intros Ha. unfold parse_addr_with_base.
  change (starts_with $"//" (HtAddr.format a)) with true. by apply parse_addr_format.
Qed.

Lemma leaf_MAddr a : addr_wf a -> parses (MAddr a).
Proof.
  intros Ha. destruct (pattern_toks_head (HtAddr.format a) $"addr" (HtAddr.format a)).
  apply leaf_parses; try done. intros n rest Hrest. apply pattern_parses; [done| |].
  - intros _. unfold pattern_to_matcher. rewrite contains_colon_format.
    by rewrite addr_with_base_format.
  - change (is_empty (HtAddr.format a)) with false. cbv iota.
    unfold call_to_matcher, func_to_matcher. rewrite decide_False by done.
    rewrite decide_False by done. rewrite decide_False by (by intros [?|?]).
    rewrite decide_True by done. simpl default. by rewrite addr_with_base_format.
Qed.

Lemma leaf_Label l : is_valid l = true -> parses (Label l).
Proof.
  intros Hl. apply leaf_parses; try done. intros n rest Hrest. apply call_parses.
  destruct l as [|c l]; [done|]. unfold call_to_matcher, func_to_matcher.
  rewrite decide_False by done. rewrite decide_True by done. simpl default.
  apply validate_iff in Hl. by rewrite Hl.
Qed.

Lemma leaf_Driver d : d <> [] -> parses (Driver d).
Proof.
  intros Hd. apply leaf_parses; try done. intros n rest Hrest. apply call_parses.
  by destruct d.
Qed.

Lemma default_arg (p : str) : default [] (if is_empty p then None else Some p) = p.
Proof. by destruct p. Qed.

Lemma leaf_TreeOutputTo p : canonical p -> parses (TreeOutputTo p).
Proof.
  intros Hp. apply leaf_parses; try done. intros n rest Hrest. apply call_parses.
  unfold call_to_matcher, func_to_matcher. rewrite default_arg.
  rewrite decide_False by done. rewrite decide_False by done.
  rewrite decide_True by (by left). by rewrite to_pkg_canonical.
Qed.

Lemma bare_slashes p : is_bare_word ($"//" ++ p) = true -> p <> [] -> is_bare_word p = true.
Proof. apply bare_word_app. Qed.

Lemma no_colon_slashes p : #":" ∉ p -> contains_char #":" ($"//" ++ p) = false.
Proof. intros Hp. apply contains_char_false. set_solver. Qed.

Lemma leaf_Package p : canonical p -> bare_pkg_ok p -> parses (Package p).
Proof.
  intros Hp Hb. destruct (pattern_toks_head ($"//" ++ p) $"package" p).
  apply leaf_parses; try done. intros n rest Hrest. apply pattern_parses; [done| |].
  - intros Hw. unfold pattern_to_matcher.
    assert ((#":" ∉ p) /\ (p <> $"...") /\ strip_suffix $"/..." p = None) as (Hc & Hd & Hs).
    { destruct (decide (p = [])) as [->|Hne]; [split_and!; [set_solver|done..]|].
      apply Hb. by apply bare_slashes. }
    rewrite no_colon_slashes by done. unfold htpkg_parse. rewrite strip_prefix_app.
    rewrite decide_False by done. rewrite Hs. by rewrite join_root_canonical.
  - unfold call_to_matcher, func_to_matcher. rewrite default_arg.
    do 2 (rewrite decide_False by done). rewrite decide_False by (by intros [?|?]).
    rewrite decide_False by done. rewrite decide_True by (by left). by rewrite to_pkg_canonical.
Qed.

Lemma leaf_PackagePrefix p : canonical p -> (is_bare_word p = true -> #":" ∉ p) ->
  parses (PackagePrefix p).
Proof.
  intros Hp Hb. destruct (pattern_toks_head (prefix_bare p) $"package_prefix" p).
  apply leaf_parses; try done. intros n rest Hrest. apply pattern_parses; [done| |].
  - unfold prefix_bare. intros Hw. destruct p as [|c p]; [done|]. simpl is_empty in *. cbv iota in *.
    assert (Hc : #":" ∉ c :: p).
    { apply Hb. apply (bare_word_app $"//") in Hw; [|done].
      unfold is_bare_word in *. rewrite forallb_app in Hw. bool_simpl. by apply andb_true_iff. }
    unfold pattern_to_matcher. rewrite no_colon_slashes by set_solver.
    unfold htpkg_parse. rewrite strip_prefix_app. rewrite decide_False.
    + rewrite strip_suffix_app. by rewrite join_root_canonical.
    + intros E. apply (f_equal length) in E. rewrite length_app in E. simpl in E. lia.
  - unfold call_to_matcher, func_to_matcher. rewrite default_arg.
    do 2 (rewrite decide_False by done). rewrite decide_False by (by intros [?|?]).
    rewrite decide_False by done. rewrite decide_False by (by intros [?|?]).
    rewrite decide_True by done. by rewrite to_pkg_canonical.
Qed.

Lemma Not_parses m : parses_not m -> parses (Not m).
Proof.
  intros Hm. apply term_parses; [done|by eexists|done|].
  intros n d rest Hn Hd Hrest. cbn [toks_of nest] in *. unfold fuel_at in Hn.
  rewrite bool_decide_false in * by (simpl; lia). destruct n as [|n]; [lia|].
  cbn [app parse_not]. rewrite bool_decide_false by lia.
  rewrite Hm; [done|unfold fuel_at; lia|lia|done].
Qed.

Lemma matcher_parses m : wf_matcher m -> bare_ok m -> parses m.
Proof.
  induction m as [a|l|d|q|q|q|ms IH|ms IH|m IH] using Matcher_full_ind; cbn [wf_matcher bare_ok].
  - intros ? _. by apply leaf_MAddr.
  - intros ? _. by apply leaf_Label.
  - intros ? _. by apply leaf_Driver.
  - apply leaf_Package.
  - apply leaf_PackagePrefix.
  - intros ? _. by apply leaf_TreeOutputTo.
  - rewrite !all_of_Forall. intros [Hne Hwf] Hb.
    assert (Hor : parses_or (Or ms)).
    { apply parses_Or; [done|]. rewrite Forall_forall in *. intros m Hm. by apply IH; auto. }
    assert (Hn : parses_not (Or ms)) by (by eapply paren_not).
    split_and!; [done| |done]. by apply not_and.
  - rewrite !all_of_Forall. intros [Hne Hwf] Hb.
    assert (Ha : parses_and (And ms)).
    { apply parses_And; [done|]. rewrite Forall_forall in *. intros m Hm. by apply IH; auto. }
    assert (Hor : parses_or (And ms)) by (by apply and_or).
    split_and!; [|done..]. by eapply paren_not.
  - intros Hwf Hb. by apply Not_parses, IH.
Qed.

(** A printed matcher re-parses to its normal form. *)
Lemma parse_format m : wf_matcher m -> bare_ok m -> nest m 0 <= MAX_NESTING_DEPTH ->
  parse base (format m) = Ok (norm m).
Proof.
  intros Hwf Hb Hnest. unfold parse. rewrite tokenize_format. cbn [map_err mbind result_bind].
  rewrite parse_or_chain.
  assert (E0 : toks_of m 0 = toks_of m 1) by (by destruct m).
  assert (N0 : nest m 0 = nest m 1) by (by destruct m).
  rewrite E0, <-(app_nil_r (toks_of m 1)).
  rewrite (chain_starts _ TOr Or (toks_of m 1 ++ []) (ors m) []); [done| |].
  - apply chain_well_behaved, pn_well_behaved; [done|lia].
  - destruct (matcher_parses m Hwf Hb) as (_ & _ & Hor).
    rewrite <-(app_nil_r (ors m)). apply Hor; [done|lia|done|]. by constructor.
Qed.

(** ** What the parser accepts *)

Lemma nest_mono m p q : p <= q -> nest m p <= nest m q <= S (nest m p).
Proof. intros H. destruct m; simpl; repeat case_bool_decide; lia. Qed.

(** A matcher read at depth [d] in a context of precedence [p]. *)
Definition accepted (p d : nat) (m : Matcher) : Prop :=
  wf_matcher m /\ nest m p + d <= MAX_NESTING_DEPTH.

Definition yields (p d : nat) (f : list Tok -> result query_error (Matcher * list Tok)) : Prop :=
  forall toks m toks', f toks = Ok (m, toks') -> accepted p d m.

Lemma accepted_mono p q d m : p <= q -> accepted q d m -> accepted p d m.
Proof. intros Hpq [Hw Hn]. split; [done|]. pose proof (nest_mono m p q Hpq). lia. Qed.

Lemma while_op_yields p d op term n acc toks l toks' : yields p d term ->
  Forall (accepted p d) acc -> while_op op term n acc toks = Ok (l, toks') ->
  Forall (accepted p d) l /\ (acc <> [] -> l <> []).
Proof.
  intros Ht. revert acc toks; induction n as [|n IH]; intros acc toks Hacc.
  - destruct toks; simpl; [by intros [= <- <-]|]. case_decide; [done|]. by intros [= <- <-].
  - destruct toks as [|t toks]; simpl; [by intros [= <- <-]|].
    case_decide; [|by intros [= <- <-]]. intros Hw. ok_inv.
    destruct x as [m toks'']. destruct (IH (acc ++ [m]) toks'') as [H1 H2]; [|done|].
    + apply Forall_app. split; [done|]. constructor; [by eapply Ht|done].
    + split; [done|]. intros _. apply H2. by destruct acc.
Qed.

Lemma max_bound_2 {A} (f : A -> nat) l d k : l <> [] ->
  Forall (fun x => f x + d <= k) l -> foldr Nat.max 0 (map f l) + d <= k.
Proof.
  intros Hne H. destruct l as [|x l]; [done|].
  assert (Hd : d <= k) by (inversion H; lia).
  assert (foldr Nat.max 0 (map f (x :: l)) <= k - d); [|lia].
  apply max_le, List.Forall_map. eapply Forall_impl; [exact H|]. simpl. lia.
Qed.

Lemma chain_yields p d op term mk : yields (S p) d term ->
  (forall ms, ms <> [] -> Forall (accepted p d) ms -> accepted p d (mk ms)) ->
  yields p d (chain term op mk).
Proof.
  intros Ht Hmk toks m toks'. unfold chain. intros E. ok_inv. destruct x as [first toks1].
  assert (Hf : accepted p d first) by (eapply accepted_mono; [|by eapply Ht]; lia).
  destruct (negb _); [by injection E as <- <-|]. ok_inv. destruct x as [terms toks2].
  simplify_eq/=.
  assert (Hs : yields p d term) by (intros ????; eapply accepted_mono; [|by eapply Ht]; lia).
  match goal with Hw : while_op _ _ _ _ _ = Ok _ |- _ =>
    eapply while_op_yields in Hw as [H1 H2]; [|exact Hs|by constructor] end.
  apply Hmk; [by apply H2|exact H1].
Qed.

Lemma accepted_And d ms : ms <> [] -> Forall (accepted 2 d) ms -> accepted 2 d (And ms).
Proof.
  intros Hne H. apply Forall_and in H as [Hw Hn]. split.
  - simpl. by rewrite all_of_Forall.
  - cbn [nest prec]. rewrite bool_decide_false by lia. by apply max_bound_2.
Qed.

Lemma accepted_Or d ms : ms <> [] -> Forall (accepted 1 d) ms -> accepted 1 d (Or ms).
Proof.
  intros Hne H. apply Forall_and in H as [Hw Hn]. split.
  - simpl. by rewrite all_of_Forall.
  - cbn [nest prec]. rewrite bool_decide_false by lia. by apply max_bound_2.
Qed.

Lemma htpkg_parse_wf input m : htpkg_parse input base = Ok m ->
  wf_matcher m /\ prec m = 3 /\ forall p, nest m p = if bool_decide (3 < p) then 2 else 1.
Proof.
  unfold htpkg_parse. destruct (strip_prefix _ _) as [abs|].
  - case_decide; [intros [= <-]; split_and!; [|done..]; by exists []|].
    destruct (strip_suffix _ _); intros Hr; ok_inv; subst; split_and!; try done; by eapply join_canonical.
  - destruct (_ || _ || _ || _); [|done]. destruct (strip_suffix _ _); intros Hr; ok_inv;
      split_and!; try done; by eapply join_canonical.
Qed.

Lemma to_pkg_wf arg p : to_pkg arg = Ok p -> canonical p.
Proof. apply join_canonical. Qed.

Lemma pattern_to_matcher_wf w m : pattern_to_matcher base w = Ok m -> accepted 3 0 m /\ nest m 3 = 1.
Proof.
  unfold pattern_to_matcher, accepted. destruct (contains_char _ _); intros H; ok_inv; subst.
  - split; [|done]. split; [by eapply parse_addr_with_base_ok_wf|]. unfold MAX_NESTING_DEPTH. simpl. lia.
  - apply htpkg_parse_wf in H as (Hw & _ & Hn). rewrite Hn. unfold MAX_NESTING_DEPTH. simpl.
    split; [|done]. split; [done|lia].
Qed.

Lemma call_to_matcher_wf w arg m : call_to_matcher base w arg = Ok m -> wf_matcher m /\ nest m 3 = 1.
Proof.
  unfold call_to_matcher, func_to_matcher. case_decide.
  { destruct arg as [[|c a]|]; [done| |done]. by intros [= <-]. }
  repeat case_decide; intros Hr; ok_inv; subst; split; try done.
  - simpl. apply validate_iff. by destruct x.
  - by eapply to_pkg_wf.
  - by eapply parse_addr_with_base_ok_wf.
  - by eapply to_pkg_wf.
  - by eapply to_pkg_wf.
Qed.

Lemma leaf_accepted d m : S d <= MAX_NESTING_DEPTH -> wf_matcher m /\ nest m 3 = 1 -> accepted 3 d m.
Proof. intros Hd [Hw Hn]. split; [done|]. lia. Qed.

Lemma parse_call_yields d w : S d <= MAX_NESTING_DEPTH -> yields 3 d (parse_call base w).
Proof.
  intros Hd toks m toks'. unfold parse_call, close_call.
  assert (forall arg (r : list Tok), (fun m => (m, r)) <$> call_to_matcher base w arg = Ok (m, toks') ->
    accepted 3 d m) as Hc.
  { intros arg r Hr. ok_inv. injection Hr as -> ->. apply leaf_accepted; [done|].
    by eapply call_to_matcher_wf. }
  destruct toks as [|[] toks]; try done; [apply Hc| |];
    (destruct toks as [|[] toks]; try done; apply Hc).
Qed.

Lemma parse_not_yields n d : fuel_at n d -> yields 3 d (parse_not base n d).
Proof.
  revert d; induction n as [|n IH]; intros d Hn toks m toks'; cbn [parse_not]; [done|].
  case_bool_decide as Hd; [done|]. unfold fuel_at in Hn.
  assert (Hpn : yields 3 (S d) (parse_not base n (S d))) by (apply IH; unfold fuel_at; lia).
  assert (Hatom : yields 3 d (parse_atom base (parse_not base n (S d)))).
  { clear toks m toks'. intros toks m toks'. unfold parse_atom.
    assert (Hpat : forall w (r : list Tok),
      (fun m => (m, r)) <$> pattern_to_matcher base w = Ok (m, toks') -> accepted 3 d m).
    { intros w r Hr. ok_inv. injection Hr as -> ->. apply leaf_accepted; [lia|].
      destruct (pattern_to_matcher_wf w x) as [[? _] ?]; done. }
    destruct toks as [|[] toks]; try done.
    - intros Hr. ok_inv. destruct x as [inner toks1]. destruct toks1 as [|[] toks1]; try done.
      injection Hr as -> ->.
      assert (Hi : accepted 1 (S d) m).
      { eapply (chain_yields 1 (S d) TOr _ Or); [|apply accepted_Or|done].
        apply (chain_yields 2 (S d) TAnd _ And); [done|apply accepted_And]. }
      destruct Hi as [Hw Hni]. split; [done|]. pose proof (nest_mono m 1 3). lia.
    - destruct toks as [|[] toks]; try apply Hpat. apply parse_call_yields. lia. }
  destruct toks as [|[] toks]; try apply Hatom.
  intros Hr. ok_inv. destruct x as [inner toks1]. injection Hr as -> ->.
  destruct (Hpn _ _ _ H) as [Hw Hni]. split; [done|]. cbn [nest prec].
  rewrite bool_decide_false by lia. lia.
Qed.

Lemma parse_ok input m : parse base input = Ok m -> wf_matcher m /\ nest m 0 <= MAX_NESTING_DEPTH.
Proof.
  unfold parse. intros E. ok_inv. destruct x0 as [m' toks']. destruct toks'; [|done].
  injection E as ->.
  assert (accepted 1 0 m) as [Hw Hn].
  { eapply (chain_yields 1 0 TOr _ Or); [|apply accepted_Or|done].
    apply (chain_yields 2 0 TAnd _ And); [by apply parse_not_yields|apply accepted_And]. }
  split; [done|]. pose proof (nest_mono m 0 1). lia.
Qed.

Lemma too_deep_not n d ops rest : fuel_at n d -> d <= MAX_NESTING_DEPTH ->
  Forall (fun t => t = TNot \/ t = LParen) ops -> MAX_NESTING_DEPTH <= length ops + d ->
  parse_not base n d (ops ++ rest) = Err (TooDeep MAX_NESTING_DEPTH).
Proof.
  unfold fuel_at. intros Hn Hd Hops. revert n d Hn Hd.
  induction Hops as [|t ops Ht Hops IH]; intros n d Hn Hd Hl; (destruct n as [|n]; [lia|]); cbn [parse_not].
  - by rewrite bool_decide_true by (simpl in Hl; lia).
  - case_bool_decide; [done|]. simpl in Hl.
    assert (E : parse_not base n (S d) (ops ++ rest) = Err (TooDeep MAX_NESTING_DEPTH)) by (apply IH; lia).
    destruct Ht as [-> | ->]; cbn [app]; [by rewrite E|].
    unfold parse_atom, parse_or, parse_and. by rewrite E.
Qed.
End reparse.

(** ** Properties *)

Section properties.
Context {nom : Nom} {laws : NomLaws nom}.

(** The query parser is total. Whatever the input, tokenizing and parsing
    end within their fuel, and a query that parses has valid labels, non-empty
    driver names, canonical packages, well-formed addresses, no empty [&&] or
    [||], and prints within the nesting limit. *)
Theorem query_parse_total base input :
  tokenize input <> Err OutOfFuel /\ parse base input <> Err OutOfFuel /\
  forall m, parse base input = Ok m -> wf_matcher m /\ nest m 0 <= MAX_NESTING_DEPTH.
Proof.
  split_and!; [apply tokenize_fuel| |apply parse_ok].
  unfold parse. pose proof (tokenize_fuel input) as Hf.
  destruct (tokenize input) as [toks|e]; cbn [map_err mbind result_bind]; [|done].
  rewrite parse_or_chain.
  destruct (chain_well_behaved _ TOr Or (chain_well_behaved _ TAnd And
    (pn_well_behaved base (S MAX_NESTING_DEPTH) 0 eq_refl ltac:(lia))) toks) as [F _].
  destruct (chain _ _ _ toks) as [[m [|t r]]|e]; simpl; [done..|].
  intros [= ->]. by apply F.
Qed.

(** C27: printing a parsed query and parsing it again, from any base package,
    yields a matcher that answers like the first one at every stage; it is the
    first one with nested chains of one operator flattened. The packages printed
    as bare patterns must not hold a [:] or end in [...]. *)
Theorem query_format_roundtrip base base' input m :
  parse base input = Ok m -> bare_ok m ->
  parse base' (format m) = Ok (norm m) /\
  (forall pkg, matches_pkg (norm m) pkg = matches_pkg m pkg) /\
  (forall addr facts, matches_listed (norm m) addr facts = matches_listed m addr facts).
Proof.
  intros [Hw Hn]%parse_ok Hb. split; [by apply parse_format|]. split.
  - intros pkg. by apply (eval_norm (fun m => matches_pkg m pkg)).
  - intros addr facts. by apply (eval_norm (fun m => matches_listed m addr facts)).
Qed.

(** Nesting is bounded. A query whose tokens begin with 256 or more of [!]
    and [(] is refused with the nesting error, whatever follows. *)
Theorem query_nesting_limit base input ops rest :
  tokenize input = Ok (ops ++ rest) -> Forall (fun t => t = TNot \/ t = LParen) ops ->
  MAX_NESTING_DEPTH <= length ops -> parse base input = Err (TooDeep MAX_NESTING_DEPTH).
Proof.
  intros E Hops Hl. unfold parse. rewrite E. cbn [map_err mbind result_bind].
  unfold parse_or, parse_and.
  rewrite (too_deep_not base (S MAX_NESTING_DEPTH) 0 ops rest); [done|done|lia|done|lia].
Qed.

(** [format] is not always the inverse of [parse]. The query [package(...)]
    selects the package named [...]; it prints as [//...], which parses to the
    whole tree, and the two disagree on every other package. *)
Theorem query_format_not_inverse base :
  parse base $"package(...)" = Ok (Package $"...") /\
  parse base (format (Package $"...")) = Ok (PackagePrefix []) /\
  forall pkg, pkg <> $"..." ->
    matches_pkg (Package $"...") pkg = MatchNo /\ matches_pkg (PackagePrefix []) pkg = MatchYes.
Proof.
  split_and!; [vm_compute; reflexivity..|]. intros pkg Hp. simpl.
  by rewrite bool_decide_false.
Qed.
End properties.

(** ** Witnesses *)

Definition sample_query : str := $"//some/... && !(label(foo) || driver(go)) && (./b:c && package(x))".
Definition sample_matcher : Matcher :=
  And [PackagePrefix $"some"; Not (Or [Label $"foo"; Driver $"go"]);
       And [MAddr (mkAddr $"cwd/b" $"c" []); Package $"x"]].

Lemma query_format_roundtrip_witness :
  @parse nom_ref $"cwd" sample_query = Ok sample_matcher /\
  norm sample_matcher <> sample_matcher /\
  @parse nom_ref [] (format sample_matcher) = Ok (norm sample_matcher).
Proof.
  assert (H : @parse nom_ref $"cwd" sample_query = Ok sample_matcher) by (vm_compute; reflexivity).
  split; [exact H|]. split; [done|].
  apply (@query_format_roundtrip nom_ref nom_ref_laws $"cwd" [] sample_query sample_matcher H).
  cbn [bare_ok all_of sample_matcher]. split_and!; try exact I.
  - intros _. apply contains_char_false. reflexivity.
  - intros _. split_and!; [apply contains_char_false; reflexivity|discriminate|reflexivity].
Defined.

(** 256 negations of a pattern. *)
Definition deep_query : str := replicate 256 #"!" ++ $"//a".

Lemma query_nesting_limit_witness :
  @parse nom_ref [] deep_query = Err (TooDeep 256).
Proof.
  apply (@query_nesting_limit nom_ref [] deep_query (replicate 256 TNot) [Word $"//a"]).
  - vm_compute. reflexivity.
  - apply Forall_replicate. by left.
  - rewrite length_replicate. unfold MAX_NESTING_DEPTH. lia.
Defined.

Lemma query_parse_total_witness : wf_matcher sample_matcher /\ nest sample_matcher 0 <= MAX_NESTING_DEPTH.
Proof.
  apply (proj2 (proj2 (@query_parse_total nom_ref nom_ref_laws $"cwd" sample_query))).
  vm_compute. reflexivity.
Defined.

Lemma query_format_not_inverse_witness :
  matches_pkg (Package $"...") $"a" = MatchNo /\ matches_pkg (PackagePrefix []) $"a" = MatchYes.
Proof. apply (proj2 (proj2 (@query_format_not_inverse nom_ref []))). discriminate. Defined.
