(* ===== verification/Capacity.v ===== *)
(** Amounts as a person writes them: [crates/core/src/units.rs] (the two size
    parsers) and [crates/core/src/capacity.rs] (pool names, units, capacities).

    Amounts are [u64]; [N] with the bound written out where the code checks it.
    [human_bytes] divides floating-point numbers and is not modelled. *)
From S2P Require Import Prelude Numerals HtPkg.
Local Open Scope N_scope.

(** ** Sizes *)

Inductive size_error :=
| NoNumber
| UnknownUnit
| TooLarge
| Overflows.

(** [find(|c| !c.is_ascii_digit())] and [split_at]. *)
Definition split_digits (s : str) : str * str := span_till (fun c => negb (is_ascii_digit c)) s.

(** The unit table both parsers spell out. *)
Definition unit_mult (unit : str) : option N :=
  if decide (unit = [] \/ unit = $"b") then Some 1
  else if decide (unit = $"k" \/ unit = $"kb" \/ unit = $"kib") then Some (2 ^ 10)
  else if decide (unit = $"m" \/ unit = $"mb" \/ unit = $"mib") then Some (2 ^ 20)
  else if decide (unit = $"g" \/ unit = $"gb" \/ unit = $"gib") then Some (2 ^ 30)
  else if decide (unit = $"t" \/ unit = $"tb" \/ unit = $"tib") then Some (2 ^ 40)
  else None.

Definition parse_size (s : str) : result size_error N :=
  let '(num, unit) := split_digits (trim s) in
  n ← ok_or NoNumber (parse_u64 num);
  mult ← ok_or UnknownUnit (unit_mult (to_ascii_lowercase (trim unit)));
  ok_or Overflows (checked_mul n mult).

Definition parse_memory_size (s : str) : result size_error N :=
  let '(num, unit) := split_digits s in
  if is_empty num then Err NoNumber
  else
    n ← ok_or TooLarge (parse_u64 num);
    mult ← ok_or UnknownUnit (unit_mult (to_ascii_lowercase unit));
    ok_or Overflows (checked_mul n mult).

(** ** Pool names and units *)

Definition MICROS_PER_CPU : N := 1000000.
Definition CPU : str := $"cpu".
Definition MEMORY : str := $"memory".
Definition MAX_POOL_NAME_LEN : N := 64.

(** The bytes of a string are inspected; a non-ASCII character has no byte in
    the accepted ranges, so reading characters answers the same. *)
Definition is_pool_name (s : str) : bool :=
  match s with
  | c :: r =>
      is_ascii_lowercase c && (str_len s <=? MAX_POOL_NAME_LEN)
      && forallb (fun b => is_ascii_lowercase b || is_ascii_digit b || (b =? #"_")) r
  | [] => false
  end.

Inductive Unit := Count | Cpu | Bytes.

#[export] Instance Unit_eq_dec : EqDecision Unit.
Proof. solve_decision. Defined.

Definition ALL : list Unit := [Count; Cpu; Bytes].

Definition unit_name (u : Unit) : str :=
  match u with Count => $"count" | Cpu => $"cpu" | Bytes => $"bytes" end.

Definition from_name (s : str) : option Unit :=
  List.find (fun u => bool_decide (unit_name u = s)) ALL.

Definition of_builtin (pool : str) : option Unit :=
  if decide (pool = CPU) then Some Cpu
  else if decide (pool = MEMORY) then Some Bytes
  else None.

Definition default_for (pool : str) : Unit := default Count (of_builtin pool).

Inductive amount_error :=
| NotACount
| NotACpuNumber
| CpuTooLarge
| BelowSmallestStep
| BadSize (e : size_error)
| PercentWithoutDefault
| NotAPercentage
| EmptyPercentage
| ZeroForARun
| FixedUnit (fixed u : Unit).

(** Digits only, and a [u64]. *)
Definition whole (s : str) : option N :=
  if is_empty s || negb (forallb is_ascii_digit s) then None else parse_u64 s.

(** [for _ in 0..k { part = part * 10 + digits.next().unwrap_or(0) }]: the
    accumulated value and the digits left. *)
Fixpoint read_fraction (k : nat) (part : N) (digits : list N) : N * list N :=
  match k with
  | O => (part, digits)
  | S k =>
      match digits with
      | d :: r => read_fraction k (part * 10 + d) r
      | [] => read_fraction k (part * 10) []
      end
  end.

Definition parse_cpu (s : str) : result amount_error N :=
  let '(int, frac) :=
    match split_once #"." s with Some (i, f) => (i, Some f) | None => (s, None) end in
  int ← ok_or NotACpuNumber (whole int);
  micros ← ok_or CpuTooLarge (checked_mul int MICROS_PER_CPU);
  match frac with
  | None => Ok micros
  | Some frac =>
      if is_empty frac || negb (forallb is_ascii_digit frac) then Err NotACpuNumber
      else
        let '(part, digits) := read_fraction 6 0 (digit_of <$> frac) in
        let part := match digits with d :: _ => if 5 <=? d then part + 1 else part | [] => part end in
        micros ← ok_or CpuTooLarge (checked_add micros part);
        if (micros =? 0) && existsb (fun b => negb (b =? #"0")) frac then Err BelowSmallestStep
        else Ok micros
  end.

Definition unit_parse (u : Unit) (s : str) : result amount_error N :=
  match u with
  | Count => ok_or NotACount (whole s)
  | Cpu => parse_cpu s
  | Bytes => map_err BadSize (parse_memory_size s)
  end.

Definition div_ceil (a b : N) : N := (a + b - 1) / b.

Definition render (u : Unit) (amount : N) : str :=
  match u with
  | Cpu => to_dec (div_ceil amount MICROS_PER_CPU)
  | Count | Bytes => to_dec amount
  end.

Definition unit_canonical (u : Unit) (amount : N) : str :=
  match u with
  | Cpu =>
      let int := amount / MICROS_PER_CPU in
      let frac := amount mod MICROS_PER_CPU in
      if frac =? 0 then to_dec int
      else to_dec int ++ $"." ++ trim_end_matches (N.eqb #"0") (pad0 6 (to_dec frac))
  | Count | Bytes => to_dec amount
  end.

(** ** Capacities *)

Inductive Capacity := Amount (n : N) | Percent (pct : N).
Inductive Zero := Allowed | Refused.

Definition capacity_parse (pool : str) (unit : Unit) (s : str) (zero : Zero)
    : result amount_error Capacity :=
  match strip_suffix $"%" s with
  | Some digits =>
      match of_builtin pool with
      | None => Err PercentWithoutDefault
      | Some _ =>
          pct ← ok_or NotAPercentage (whole digits);
          if pct =? 0 then Err EmptyPercentage else Ok (Percent pct)
      end
  | None =>
      amount ← unit_parse unit s;
      match zero with
      | Refused => if amount =? 0 then Err ZeroForARun else Ok (Amount amount)
      | Allowed => Ok (Amount amount)
      end
  end.

(** [dflt] is only read for a percentage, so a value stands for the closure.
    The [u128] product never overflows: see [resolve_bounds]. *)
Definition capacity_resolve (self : Capacity) (unit : Unit) (dflt : N) : N :=
  match self with
  | Amount n => n
  | Percent pct =>
      let scaled := dflt * pct in
      let n := if decide (unit = Cpu) then N.max ((scaled + 50) / 100) 1 else scaled / 100 in
      if n <=? u64_max then n else u64_max
  end.

Record PoolSpec := mkPoolSpec { spec_unit : Unit; spec_capacity : option Capacity }.

Definition from_written (pool : str) (unit : option Unit) (value : option str)
    : result amount_error PoolSpec :=
  unit ←
    match unit, of_builtin pool with
    | Some u, Some fixed => if decide (u <> fixed) then Err (FixedUnit fixed u) else Ok u
    | Some u, None => Ok u
    | None, _ => Ok (default_for pool)
    end;
  match value with
  | Some v =>
      c ← capacity_parse pool unit v Allowed;
      Ok (mkPoolSpec unit (Some c))
  | None => Ok (mkPoolSpec unit None)
  end.

(** ** Lemmas *)

Lemma whole_to_dec n : is_u64 n -> whole (to_dec n) = Some n.
Proof.
  intros Hn. unfold whole. pose proof (to_dec_nonempty n).
  rewrite (Forall_forallb _ _ (to_dec_digits n)). destruct (to_dec n) eqn:E; [done|].
  cbn [is_empty negb orb]. rewrite <-E. by apply parse_u64_to_dec.
Qed.

Lemma whole_Some s n : whole s = Some n <->
  s <> [] /\ Forall (fun c => is_ascii_digit c = true) s /\ n = value 10 (digit_of <$> s) /\ is_u64 n.
Proof.
  unfold whole, parse_u64, is_u64. destruct s as [|c s]; [naive_solver|]. cbn [is_empty orb].
  destruct (forallb is_ascii_digit (c :: s)) eqn:E; cbn [negb].
  - apply forallb_Forall in E. case_match eqn:El; bool_simpl; naive_solver lia.
  - split; [done|]. intros (_ & H & _). by rewrite Forall_forallb in E.
Qed.

Lemma value_trailing_zeros b ds k : value b (ds ++ replicate k 0) = value b ds * b ^ N.of_nat k.
Proof.
  rewrite value_app, length_replicate.
  assert (forall k, value b (replicate k 0) = 0) as ->; [|lia].
  intros j. induction j as [|j IH]; [done|]. simpl replicate. rewrite value_cons, IH. lia.
Qed.

Lemma value_bound b ds : Forall (fun d => d < b) ds -> value b ds < b ^ N.of_nat (length ds).
Proof.
  induction 1 as [|d ds Hd Hds IH]; [unfold value; simpl; lia|].
  rewrite value_cons. cbn [length]. rewrite Nat2N.inj_succ, N.pow_succ_r'. nia.
Qed.

(** Reading past the end of the digits reads zeros. *)
Lemma read_fraction_spec k part ds : (length ds <= k)%nat ->
  read_fraction k part ds = (part * 10 ^ N.of_nat k + value 10 ds * 10 ^ N.of_nat (k - length ds), []).
Proof.
  revert part ds; induction k as [|k IH]; intros part ds Hk.
  { destruct ds; simpl in *; [f_equal; unfold value; simpl; lia|lia]. }
  cbn [read_fraction]. destruct ds as [|d ds]; cbn [length] in *; rewrite IH by (simpl; lia).
  - cbn [length]. rewrite Nat.sub_0_r, Nat2N.inj_succ, N.pow_succ_r'. f_equal.
    change (value 10 []) with 0. lia.
  - f_equal. replace (S k - S (length ds))%nat with (k - length ds)%nat by lia.
    rewrite value_cons, Nat2N.inj_succ, N.pow_succ_r'.
    set (j := (k - length ds)%nat). assert (Hj : k = (length ds + j)%nat) by lia.
    clearbody j. subst k. rewrite Nat2N.inj_add, N.pow_add_r. ring.
Qed.

Lemma read_fraction_long k part a b : length a = k ->
  read_fraction k part (a ++ b) = (part * 10 ^ N.of_nat k + value 10 a, b).
Proof.
  revert part a; induction k as [|k IH]; intros part a Ha.
  { destruct a; [|done]. simpl. f_equal. unfold value. simpl. lia. }
  destruct a as [|d a]; [done|]. cbn [read_fraction app]. rewrite IH by (simpl in Ha; lia).
  f_equal. injection Ha as <-. rewrite value_cons, Nat2N.inj_succ, N.pow_succ_r'. nia.
Qed.

(** ** CPU amounts are rounded half up *)

(** [a / b] rounded to the nearest integer, halves up. *)
Definition half_up (a b : N) : N := (2 * a + b) / (2 * b).

Lemma half_up_exact q b : b <> 0 -> half_up (q * b) b = q.
Proof.
  intros Hb. unfold half_up. replace (2 * (q * b) + b) with (q * (2 * b) + b) by lia.
  rewrite N.div_add_l by lia. rewrite N.div_small by lia. lia.
Qed.

Lemma half_up_add q a b : b <> 0 -> half_up (q * b + a) b = q + half_up a b.
Proof.
  intros Hb. unfold half_up. replace (2 * (q * b + a) + b) with (q * (2 * b) + (2 * a + b)) by lia.
  by rewrite N.div_add_l by lia.
Qed.

Lemma half_up_scale a b c : b <> 0 -> c <> 0 -> half_up (a * c) (b * c) = half_up a b.
Proof.
  intros Hb Hc. unfold half_up.
  replace (2 * (a * c) + b * c) with ((2 * a + b) * c) by lia.
  replace (2 * (b * c)) with (2 * b * c) by lia. apply N.Div0.div_mul_cancel_r; lia.
Qed.

(** The seventh digit decides. *)
Lemma half_up_digit a d v P : d < 10 -> v < P ->
  half_up (a * (10 * P) + (d * P + v)) (10 * P) = if 5 <=? d then a + 1 else a.
Proof.
  intros Hd Hv. rewrite half_up_add by lia. unfold half_up. destruct (N.leb_spec 5 d).
  - replace (_ / _) with 1; [lia|].
    apply (N.div_unique _ _ 1 (2 * (d * P + v) + 10 * P - 2 * (10 * P))); nia.
  - rewrite N.div_small; [lia|]. nia.
Qed.

Lemma digit_lt c : is_ascii_digit c = true -> digit_of c < 10.
Proof. unfold is_ascii_digit, digit_of. intros. bool_simpl. lia. Qed.

Lemma digits_lt s : Forall (fun c => is_ascii_digit c = true) s ->
  Forall (fun d => d < 10) (digit_of <$> s).
Proof. intros H. apply Forall_fmap. eapply Forall_impl; [exact H|]. apply digit_lt. Qed.

(** What the fraction loop and the seventh digit compute. *)
Lemma fraction_half_up ds : Forall (fun d => d < 10) ds ->
  (let '(part, digits) := read_fraction 6 0 ds in
   match digits with d :: _ => if 5 <=? d then part + 1 else part | [] => part end) =
  half_up (value 10 ds * 10 ^ 6) (10 ^ N.of_nat (length ds)).
Proof.
  intros Hds. destruct (decide (length ds <= 6)%nat) as [Hl|Hl].
  - rewrite read_fraction_spec by done.
    set (j := (6 - length ds)%nat).
    replace (10 ^ 6) with (10 ^ N.of_nat (length ds) * 10 ^ N.of_nat j)
      by (rewrite <-N.pow_add_r; f_equal; lia).
    replace (value 10 ds * (10 ^ N.of_nat (length ds) * 10 ^ N.of_nat j))
      with ((value 10 ds * 10 ^ N.of_nat j) * 10 ^ N.of_nat (length ds)) by ring.
    rewrite half_up_exact by (apply N.pow_nonzero; lia). lia.
  - rewrite <-(take_drop 6 ds). destruct (drop 6 ds) as [|d r] eqn:Ed.
    { apply (f_equal length) in Ed. rewrite length_drop in Ed. simpl in Ed. lia. }
    assert (Ha : length (take 6 ds) = 6%nat) by (rewrite length_take; lia).
    rewrite read_fraction_long by done.
    rewrite <-(take_drop 6 ds), Ed in Hds. apply Forall_app in Hds as [_ Hr].
    inversion_clear Hr as [|?? Hd Hr'].
    pose proof (value_bound 10 r Hr') as Hv.
    rewrite length_app, Ha, value_app, value_cons. cbn [length].
    set (P := 10 ^ N.of_nat (length r)) in *.
    replace (N.of_nat (6 + S (length r))) with (6 + N.succ (N.of_nat (length r))) by lia.
    rewrite (N.pow_add_r 10 6).
    replace (10 ^ N.of_nat (S (length r))) with (10 * P) by (by rewrite Nat2N.inj_succ, N.pow_succ_r').
    replace (10 ^ N.succ (N.of_nat (length r))) with (10 * P) by (by rewrite N.pow_succ_r').
    assert (P <> 0) by (apply N.pow_nonzero; lia).
    rewrite (N.mul_comm (10 ^ 6)), half_up_scale by (try apply N.pow_nonzero; lia).
    by rewrite half_up_digit.
Qed.

Lemma value_zero_iff s : Forall (fun c => is_ascii_digit c = true) s ->
  value 10 (digit_of <$> s) = 0 <-> existsb (fun b => negb (b =? #"0")) s = false.
Proof.
  induction 1 as [|c s Hc Hs IH]; [done|]. rewrite fmap_cons, value_cons. simpl existsb.
  rewrite orb_false_iff, <-IH, negb_false_iff, N.eqb_eq.
  unfold is_ascii_digit in Hc. bool_simpl. unfold digit_of at 1.
  assert (0 < 10 ^ N.of_nat (length (digit_of <$> s))) by (apply N.neq_0_lt_0, N.pow_nonzero; lia).
  nia.
Qed.

Lemma whole_digits s : s <> [] -> Forall (fun c => is_ascii_digit c = true) s ->
  whole s = if value 10 (digit_of <$> s) <=? u64_max then Some (value 10 (digit_of <$> s)) else None.
Proof.
  intros Hne Hs. unfold whole, parse_u64. rewrite (Forall_forallb _ _ Hs). by destruct s.
Qed.

Lemma digits_no_dot s : Forall (fun c => is_ascii_digit c = true) s -> #"." ∉ s.
Proof. intros H Hin. rewrite Forall_forall in H. by specialize (H _ Hin). Qed.

Lemma parse_cpu_decimal int frac m :
  int <> [] -> frac <> [] ->
  Forall (fun c => is_ascii_digit c = true) int -> Forall (fun c => is_ascii_digit c = true) frac ->
  parse_cpu (int ++ #"." :: frac) = Ok m <->
  m = half_up (value 10 (digit_of <$> int ++ frac) * MICROS_PER_CPU) (10 ^ N.of_nat (length frac)) /\
  is_u64 m /\ (m = 0 -> value 10 (digit_of <$> int ++ frac) = 0).
Proof.
  intros Hi Hf Di Df. unfold parse_cpu.
  rewrite (proj2 (split_once_Some #"." (int ++ #"." :: frac) int frac)) by (split; [done|by apply digits_no_dot]).
  rewrite whole_digits by done. rewrite (Forall_forallb _ _ Df).
  rewrite fmap_app, value_app, length_fmap.
  pose proof (fraction_half_up (digit_of <$> frac) (digits_lt _ Df)) as HP.
  rewrite length_fmap in HP.
  pose proof (value_zero_iff frac Df) as Hz.
  set (I := value 10 (digit_of <$> int)) in *. set (F := value 10 (digit_of <$> frac)) in *.
  set (T := 10 ^ N.of_nat (length frac)) in *.
  assert (HT : T <> 0) by (apply N.pow_nonzero; lia).
  replace ((I * T + F) * MICROS_PER_CPU) with (I * MICROS_PER_CPU * T + F * MICROS_PER_CPU) by ring.
  rewrite half_up_add by done. change (10 ^ 6) with MICROS_PER_CPU in HP.
  unfold is_u64, checked_mul, checked_add, MICROS_PER_CPU, u64_max in *.
  destruct (read_fraction 6 0 (digit_of <$> frac)) as [part digits].
  destruct frac as [|c frac]; [done|]. cbn [is_empty orb negb].
  rewrite <-HP. set (Q := match digits with d :: _ => _ | [] => part end) in *. clearbody Q. clear HP.
  destruct (N.leb_spec I 18446744073709551615); simpl; [|split; [done|]; intros (-> & ? & _); lia].
  destruct (N.leb_spec (I * 1000000) 18446744073709551615); simpl; [|split; [done|]; intros (-> & ? & _); lia].
  destruct (N.leb_spec (I * 1000000 + Q) 18446744073709551615); simpl; [|split; [done|]; intros (-> & ? & _); lia].
  destruct (existsb _ (c :: frac)) eqn:Ez; simpl in Ez; rewrite Ez in *.
  - assert (F <> 0) by (intros E; apply Hz in E; done).
    destruct (N.eqb_spec (I * 1000000 + Q) 0) as [E|E]; simpl.
    + split; [done|]. intros (-> & _ & H'). specialize (H' E). nia.
    + split; [intros [= <-]|intros (-> & _)]; [|done]. split_and!; [done..|]. lia.
  - assert (F = 0) as HF by (by apply Hz). rewrite andb_false_r.
    split; [intros [= <-]|by intros (-> & _)]. split_and!; [done..|]. intros E.
    assert (I = 0) as -> by lia. lia.
Qed.

(** ** Printing an amount exactly *)

Lemma to_dec_length n k : n < 10 ^ N.of_nat k -> (1 <= k)%nat -> (length (to_dec n) <= k)%nat.
Proof.
  intros Hn Hk. unfold to_dec. rewrite length_fmap.
  pose proof (digits_fuel_length 10 (S (N.size_nat n)) n [] k ltac:(lia) Hn Hk) as H.
  exact H.
Qed.

Lemma trim_start_zeros s : exists j, s = replicate j #"0" ++ trim_start_matches (N.eqb #"0") s.
Proof.
  induction s as [|c s [j IH]]; [by exists 0%nat|]. cbn [trim_start_matches].
  destruct (N.eqb_spec #"0" c) as [<-|]; [|by exists 0%nat]. exists (S j). simpl. by f_equal.
Qed.

Lemma trim_end_zeros s : exists j, s = trim_end_matches (N.eqb #"0") s ++ replicate j #"0".
Proof.
  destruct (trim_start_zeros (reverse s)) as [j E]. exists j. unfold trim_end_matches.
  apply (f_equal reverse) in E. by rewrite reverse_involutive, reverse_app, reverse_replicate in E.
Qed.

Lemma pad0_props w n : n < 10 ^ N.of_nat w -> (1 <= w)%nat ->
  length (pad0 w (to_dec n)) = w /\
  Forall (fun c => is_ascii_digit c = true) (pad0 w (to_dec n)) /\
  value 10 (digit_of <$> pad0 w (to_dec n)) = n.
Proof.
  intros Hn Hw. pose proof (to_dec_length n w Hn Hw). unfold pad0. split_and!.
  - rewrite length_app, length_replicate. lia.
  - apply Forall_app. split; [by apply Forall_replicate|apply to_dec_digits].
  - rewrite fmap_app, fmap_replicate, value_app, to_dec_value. change (digit_of #"0") with 0.
    pose proof (value_trailing_zeros 10 [] (w - length (to_dec n))) as E. simpl app in E. rewrite E.
    change (value 10 []) with 0. lia.
Qed.

(** The trimmed fraction of a CPU amount. *)
Lemma trimmed_fraction f : f < MICROS_PER_CPU -> f <> 0 ->
  let t := trim_end_matches (N.eqb #"0") (pad0 6 (to_dec f)) in
  t <> [] /\ Forall (fun c => is_ascii_digit c = true) t /\
  value 10 (digit_of <$> t) * MICROS_PER_CPU = f * 10 ^ N.of_nat (length t).
Proof.
  intros Hf Hf0 t. destruct (pad0_props 6 f Hf ltac:(lia)) as (Hl & Hd & Hv).
  destruct (trim_end_zeros (pad0 6 (to_dec f))) as [j E]. fold t in E.
  rewrite E in Hl, Hd, Hv. apply Forall_app in Hd as [Hd _].
  rewrite fmap_app, fmap_replicate in Hv. change (digit_of #"0") with 0 in Hv.
  rewrite value_trailing_zeros in Hv. rewrite length_app, length_replicate in Hl.
  assert (E6 : MICROS_PER_CPU = 10 ^ N.of_nat (length t) * 10 ^ N.of_nat j).
  { rewrite <-N.pow_add_r, <-Nat2N.inj_add, Hl. reflexivity. }
  split_and!; [|done|].
  - intros Et. rewrite Et in Hv. change (value 10 (digit_of <$> [])) with 0 in Hv. lia.
  - rewrite E6, <-Hv. ring.
Qed.

Lemma parse_cpu_whole n : is_u64 (n * MICROS_PER_CPU) -> parse_cpu (to_dec n) = Ok (n * MICROS_PER_CPU).
Proof.
  intros Hn. unfold parse_cpu.
  rewrite (proj2 (split_once_None _ _) (digits_no_dot _ (to_dec_digits n))).
  rewrite whole_to_dec by (unfold is_u64, MICROS_PER_CPU in *; lia). simpl.
  unfold checked_mul. unfold is_u64 in Hn. apply N.leb_le in Hn. by rewrite Hn.
Qed.

Lemma parse_cpu_canonical n : is_u64 n -> parse_cpu (unit_canonical Cpu n) = Ok n.
Proof.
  intros Hn. unfold unit_canonical. set (f := n mod MICROS_PER_CPU). set (i := n / MICROS_PER_CPU).
  assert (E : n = i * MICROS_PER_CPU + f).
  { unfold i, f. rewrite N.mul_comm. apply N.div_mod. done. }
  assert (Hf : f < MICROS_PER_CPU) by (by apply N.mod_lt).
  clearbody f i. destruct (N.eqb_spec f 0) as [->|Hf0].
  - rewrite N.add_0_r in E. subst n. by apply parse_cpu_whole.
  - destruct (trimmed_fraction f Hf Hf0) as (Ht & Hd & Hv).
    set (t := trim_end_matches _ _) in *. clearbody t.
    apply parse_cpu_decimal; [apply to_dec_nonempty|done|apply to_dec_digits|done|].
    rewrite fmap_app, value_app, to_dec_value, length_fmap.
    replace (_ * MICROS_PER_CPU) with (n * 10 ^ N.of_nat (length t)).
    + rewrite half_up_exact by (apply N.pow_nonzero; lia). split_and!; [done..|]. lia.
    + rewrite N.mul_add_distr_r, Hv, E. ring.
Qed.

Lemma split_digits_app num unit : Forall (fun c => is_ascii_digit c = true) num ->
  (unit = [] \/ exists c r, unit = c :: r /\ is_ascii_digit c = false) ->
  split_digits (num ++ unit) = (num, unit).
Proof.
  intros Hn Hu. apply span_till_app.
  - eapply Forall_impl; [exact Hn|]. simpl. by intros c ->.
  - destruct Hu as [->|(c & r & -> & Hc)]; [by left|right]. exists c, r. by rewrite Hc.
Qed.

Lemma parse_memory_size_to_dec n : is_u64 n -> parse_memory_size (to_dec n) = Ok n.
Proof.
  intros Hn. unfold parse_memory_size. rewrite <-(app_nil_r (to_dec n)).
  rewrite split_digits_app by (apply to_dec_digits || by left).
  pose proof (to_dec_nonempty n). destruct (to_dec n) as [|c s] eqn:E; [done|]. cbn [is_empty].
  rewrite <-E, parse_u64_to_dec by done. simpl. unfold checked_mul. rewrite N.mul_1_r.
  unfold is_u64 in Hn. apply N.leb_le in Hn. by rewrite Hn.
Qed.

(** ** The two size parsers *)

Definition no_whitespace (s : str) : Prop := Forall (fun c => is_whitespace c = false) s.

Lemma trim_start_id p s : Forall (fun c => p c = false) s -> trim_start_matches p s = s.
Proof. by intros [|c s' Hc Hs]; simpl; [|rewrite Hc]. Qed.

Lemma trim_id s : no_whitespace s -> trim s = s.
Proof.
  intros H. unfold trim, trim_end_matches. rewrite (trim_start_id _ s H).
  rewrite trim_start_id by (by apply Forall_reverse). apply reverse_involutive.
Qed.

Lemma digit_no_whitespace c : is_ascii_digit c = true -> is_whitespace c = false.
Proof.
  unfold is_ascii_digit, is_whitespace. intros. bool_simpl. apply not_true_iff_false.
  rewrite !orb_true_iff, !andb_true_iff, !N.leb_le, !N.eqb_eq. lia.
Qed.

Lemma whitespace_lower c : is_whitespace c = true -> to_ascii_lower_char c = c.
Proof.
  unfold to_ascii_lower_char. destruct (is_ascii_uppercase c) eqn:E; [|done].
  unfold is_ascii_uppercase, is_whitespace in *. bool_simpl.
  rewrite !orb_true_iff, !andb_true_iff, !N.leb_le, !N.eqb_eq. lia.
Qed.

Lemma unit_mult_no_whitespace u m : unit_mult (to_ascii_lowercase u) = Some m -> no_whitespace u.
Proof.
  intros H. assert (Hl : no_whitespace (to_ascii_lowercase u)).
  { revert H. generalize (to_ascii_lowercase u). intros v. unfold unit_mult.
    repeat case_decide; [..|done]; intros _; naive_solver (repeat constructor). }
  apply Forall_forall. intros c Hc. apply not_true_iff_false. intros Hw.
  unfold no_whitespace, to_ascii_lowercase in Hl. rewrite Forall_fmap, Forall_forall in Hl.
  specialize (Hl c Hc). simpl in Hl. rewrite whitespace_lower in Hl by done. congruence.
Qed.

Lemma split_digits_spec s num unit : split_digits s = (num, unit) ->
  s = num ++ unit /\ Forall (fun c => is_ascii_digit c = true) num.
Proof.
  intros H. apply span_till_spec in H as (-> & H & _). split; [done|].
  eapply Forall_impl; [exact H|]. intros c. apply negb_false_iff.
Qed.

Lemma parse_size_strict s n :
  parse_memory_size s = Ok n <-> parse_size s = Ok n /\ no_whitespace s.
Proof.
  unfold parse_memory_size, parse_size. split.
  - destruct (split_digits s) as [num unit] eqn:E. destruct (is_empty num) eqn:Ee; [done|].
    intros H. destruct (parse_u64 num) as [k|] eqn:Ek; [|done].
    destruct (unit_mult _) as [mult|] eqn:Em; [|done]. pose proof (unit_mult_no_whitespace _ _ Em) as Hu.
    pose proof (split_digits_spec _ _ _ E) as [Es Hd].
    assert (Hs : no_whitespace s).
    { rewrite Es. apply Forall_app. split; [|done]. eapply Forall_impl; [exact Hd|].
      apply digit_no_whitespace. }
    rewrite trim_id, E by done. rewrite Ek. simpl. rewrite trim_id, Em by done. done.
  - intros [H Hs]. rewrite trim_id in H by done.
    destruct (split_digits s) as [num unit] eqn:E. pose proof (split_digits_spec _ _ _ E) as [Es _].
    rewrite Es in Hs. apply Forall_app in Hs as [_ Hu]. rewrite trim_id in H by done.
    destruct num as [|c num]; [done|]. cbn [is_empty].
    destruct (parse_u64 (c :: num)); [|done]. done.
Qed.

(** ** Properties *)

(** An amount printed exactly parses back to itself, in every unit and over
    the whole [u64] range. *)
Theorem unit_canonical_roundtrip u n : is_u64 n -> unit_parse u (unit_canonical u n) = Ok n.
Proof.
  intros Hn. destruct u; cbn [unit_parse].
  - cbn [unit_canonical]. by rewrite whole_to_dec.
  - by apply parse_cpu_canonical.
  - cbn [unit_canonical]. by rewrite parse_memory_size_to_dec.
Qed.

(** A CPU amount written as a decimal is read as its value in micro-CPUs
    rounded half up, whatever the number of digits; it is refused exactly when
    the result does not fit 64 bits or a non-zero amount rounds to nothing. *)
Theorem parse_cpu_rounds_half_up int frac m :
  int <> [] -> frac <> [] ->
  Forall (fun c => is_ascii_digit c = true) int -> Forall (fun c => is_ascii_digit c = true) frac ->
  parse_cpu (int ++ #"." :: frac) = Ok m <->
  m = half_up (value 10 (digit_of <$> int ++ frac) * MICROS_PER_CPU) (10 ^ N.of_nat (length frac)) /\
  is_u64 m /\ (m = 0 -> value 10 (digit_of <$> int ++ frac) = 0).
Proof. apply parse_cpu_decimal. Qed.

(** The strict and the lenient size parser agree: the strict one accepts
    exactly what the lenient one accepts written without whitespace, with the
    same number of bytes. *)
Theorem size_parsers_agree s n :
  parse_memory_size s = Ok n <-> parse_size s = Ok n /\ Forall (fun c => is_whitespace c = false) s.
Proof. apply parse_size_strict. Qed.

(** A resolved percentage is the percentage of the default, rounded half up
    and at least one micro-CPU for [cpu], floored otherwise, saturated at the
    largest [u64]; the intermediate product fits 128 bits. *)
Theorem resolve_bounds pct dflt unit : is_u64 pct -> is_u64 dflt ->
  dflt * pct + 50 < 2 ^ 128 /\
  capacity_resolve (Percent pct) unit dflt =
    N.min u64_max (match unit with
                   | Cpu => N.max 1 (half_up (dflt * pct) 100)
                   | _ => dflt * pct / 100
                   end) /\
  is_u64 (capacity_resolve (Percent pct) unit dflt).
Proof.
  unfold is_u64, capacity_resolve. intros Hp Hd. split.
  - assert (dflt * pct <= u64_max * u64_max) by (by apply N.mul_le_mono).
    change (u64_max * u64_max) with 340282366920938463426481119284349108225 in *. lia.
  - assert (E : half_up (dflt * pct) 100 = (dflt * pct + 50) / 100).
    { unfold half_up. replace (2 * (dflt * pct) + 100) with ((dflt * pct + 50) * 2) by lia.
      apply (N.Div0.div_mul_cancel_r _ 100 2). done. }
    destruct unit; rewrite ?E; simpl decide; case_decide; try done;
      (case_match; bool_simpl; lia).
Qed.

(** ** Witnesses *)

Lemma unit_canonical_roundtrip_witness :
  unit_canonical Cpu 1500010 = $"1.50001" /\ unit_parse Cpu (unit_canonical Cpu 1500010) = Ok 1500010.
Proof.
  split; [vm_compute; reflexivity|].
  apply (unit_canonical_roundtrip Cpu 1500010). unfold is_u64, u64_max. lia.
Defined.

Lemma parse_cpu_rounds_half_up_witness :
  parse_cpu ($"0" ++ #"." :: $"0000005") = Ok 1.
Proof.
  apply (parse_cpu_rounds_half_up $"0" $"0000005" 1); [done|done|repeat constructor|repeat constructor|].
  vm_compute. split_and!; [reflexivity|discriminate|discriminate].
Defined.

Lemma resolve_bounds_witness :
  capacity_resolve (Percent 50) Cpu 3000001 =
    N.min u64_max (N.max 1 (half_up (3000001 * 50) 100)) /\
  capacity_resolve (Percent 50) Cpu 3000001 = 1500001.
Proof.
  split; [|vm_compute; reflexivity].
  apply (resolve_bounds 50 3000001 Cpu); unfold is_u64, u64_max; lia.
Defined.
