(* ===== verification/Resources.v ===== *)
(** What a target reserves: [PoolName] of [crates/plugin/src/provider.rs],
    [Resources] and [Demand] of [crates/plugin/src/driver.rs].

    [Resources] keeps the amounts as written and [Demand] as parsed, each a
    [BTreeMap] from pool name to amount. Reading the BUILD-file value itself
    ([from_value]) goes through floating-point numbers and is not modelled. *)
From S2P Require Import Prelude Numerals HtPkg Capacity.
Local Open Scope N_scope.

Inductive resources_error :=
| InvalidPoolName (s : str)
| TooManyPools (pool : str)
| NotAPool (pool : str)
| BadAmount (pool : str) (unit : Unit) (e : amount_error)
| Advertising (pool : str) (e : resources_error).

(** [PoolName::try_from]. *)
Definition pool_name_try_from (s : str) : result resources_error str :=
  if is_pool_name s then Ok s else Err (InvalidPoolName s).

Definition MAX_POOLS : nat := 16.
Definition DEFAULT_CPU_MICROS : N := MICROS_PER_CPU.
Definition VIEW_CPU : str := $"0".
Definition IO_CPU : str := $"0.1".

(** ** Declared, as written *)

Definition Resources := list (str * str).

Definition contains_key {V} (k : str) (m : list (str * V)) : bool :=
  match bt_get k m with Some _ => true | None => false end.

(** The guard both [insert] and [Demand::try_from_pairs] apply. *)
Definition bounded_insert {V} (m : list (str * V)) (pool : str) (v : V)
    : result resources_error (list (str * V)) :=
  if bool_decide (MAX_POOLS <= length m)%nat && negb (contains_key pool m)
  then Err (TooManyPools pool) else Ok (bt_insert pool v m).

Definition resources_insert (self : Resources) (pool amount : str)
    : result resources_error Resources := bounded_insert self pool amount.

Fixpoint resources_from_pairs (out : Resources) (pairs : list (str * str))
    : result resources_error Resources :=
  match pairs with
  | [] => Ok out
  | (k, v) :: r =>
      pool ← pool_name_try_from k;
      out ← resources_insert out pool v;
      resources_from_pairs out r
  end.
Definition resources_try_from_pairs (pairs : list (str * str)) : result resources_error Resources :=
  resources_from_pairs [] pairs.

Definition advertise (self : Resources) (pool amount : str) : result resources_error Resources :=
  if contains_key pool self then Ok self
  else map_err (Advertising pool) (resources_insert self pool amount).

(** ** Parsed *)

Definition Demand := list (str * N).

Fixpoint parse_loop (unit_of : str -> option Unit) (declared : Demand) (self : Resources)
    : result resources_error Demand :=
  match self with
  | [] => Ok declared
  | (pool, text) :: r =>
      unit ← ok_or (NotAPool pool) (unit_of pool);
      amount ← map_err (BadAmount pool unit) (unit_parse unit text);
      parse_loop unit_of (bt_insert pool amount declared) r
  end.
Definition resources_parse (self : Resources) (unit_of : str -> option Unit)
    : result resources_error Demand := parse_loop unit_of [] self.

Fixpoint demand_from_pairs (out : Demand) (pairs : list (str * N)) : result resources_error Demand :=
  match pairs with
  | [] => Ok out
  | (k, v) :: r =>
      pool ← pool_name_try_from k;
      out ← bounded_insert out pool v;
      demand_from_pairs out r
  end.
Definition demand_try_from_pairs (pairs : list (str * N)) : result resources_error Demand :=
  demand_from_pairs [] pairs.

Definition demand_declared (self : Demand) (pool : str) : option N := bt_get pool self.

Definition demand_amount (self : Demand) (pool : str) : N :=
  match demand_declared self pool with
  | Some n => n
  | None => if decide (pool = CPU) then DEFAULT_CPU_MICROS else 0
  end.

Definition reserves (self : Demand) (pool : str) : bool :=
  bool_decide (pool = CPU)
  || match demand_declared self pool with Some n => 0 <? n | None => false end.

(** ** Invariant *)

(** Sorted, at most [MAX_POOLS] entries, every name well-formed. *)
Record pools_wf {V} (m : list (str * V)) : Prop := {
  wf_sorted : bt_sorted m;
  wf_bound : (length m <= MAX_POOLS)%nat;
  wf_names : Forall (fun kv => is_pool_name kv.1 = true) m;
}.

Lemma pools_wf_nil {V} : pools_wf (@nil (str * V)).
Proof. split; [done|unfold MAX_POOLS; simpl; lia|done]. Qed.

Lemma bt_insert_length {V} k (v : V) m : bt_sorted m ->
  length (bt_insert k v m) = if contains_key k m then length m else S (length m).
Proof.
  unfold contains_key. induction m as [|[k' v'] m IH]; simpl; [done|]. intros [Hlt Hs].
  destruct (str_compare k k') eqn:E; simpl.
  - apply str_compare_eq in E as ->. by rewrite decide_True.
  - rewrite decide_False by (intros ->; rewrite str_compare_refl in E; done).
    assert (bt_get k m = None) as ->; [|done].
    clear IH Hs. induction Hlt as [|[k2 v2] m H2 Hm IHm]; simpl; [done|].
    rewrite decide_False; [done|]. intros ->. apply (str_lt_irrefl k2). by etrans.
  - rewrite IH by done. rewrite decide_False by (intros ->; rewrite str_compare_refl in E; done).
    by destruct (bt_get k m).
Qed.

Lemma bounded_insert_wf {V} (m : list (str * V)) pool v m' :
  pools_wf m -> is_pool_name pool = true -> bounded_insert m pool v = Ok m' ->
  pools_wf m' /\ bt_get pool m' = Some v /\ forall k, k <> pool -> bt_get k m' = bt_get k m.
Proof.
  intros [Hs Hb Hn] Hp. unfold bounded_insert.
  destruct (_ && _) eqn:E; [done|]. intros [= <-]. split; [split|split].
  - by apply bt_insert_sorted.
  - rewrite bt_insert_length by done. destruct (contains_key pool m); [done|].
    rewrite andb_true_r in E. apply bool_decide_eq_false in E. lia.
  - apply Forall_forall. intros kv [->|Hin]%bt_insert_elem; [done|].
    rewrite Forall_forall in Hn. auto.
  - apply bt_get_insert_eq.
  - intros k Hk. by apply bt_get_insert_ne.
Qed.

Lemma pool_name_ok s p : pool_name_try_from s = Ok p -> p = s /\ is_pool_name s = true.
Proof. unfold pool_name_try_from. destruct (is_pool_name s) eqn:E; naive_solver. Qed.

Lemma resources_from_pairs_wf out pairs r :
  pools_wf out -> resources_from_pairs out pairs = Ok r -> pools_wf r.
Proof.
  revert out; induction pairs as [|[k v] pairs IH]; intros out Hw; simpl; [by intros [= <-]|].
  intros H. ok_inv. apply pool_name_ok in H0 as [-> Hk]. eapply IH; [|exact H].
  by eapply bounded_insert_wf.
Qed.

(** Parsing keeps the declared pools and reads each amount in its unit. *)
Lemma parse_loop_spec unit_of acc self d :
  bt_sorted self -> bt_sorted acc ->
  Forall (fun kv => Forall (fun kv' : str * N => str_lt kv'.1 kv.1) acc) self ->
  parse_loop unit_of acc self = Ok d ->
  exists d', d = acc ++ d' /\
    Forall2 (fun kv kn => kv.1 = kn.1 /\ exists u, unit_of kv.1 = Some u /\ unit_parse u kv.2 = Ok kn.2)
      self d'.
Proof.
  revert acc; induction self as [|[k t] self IH]; intros acc Hs Ha Hlt; simpl.
  - intros [= <-]. exists []. split; [by rewrite app_nil_r|constructor].
  - inversion_clear Hlt as [|?? Hk Hr]. destruct Hs as [Hkr Hs]. intros H. ok_inv.
    rewrite bt_insert_last in H by done.
    destruct (unit_of k) as [u|] eqn:Eu; [|done]. simpl in H0. injection H0 as <-.
    apply IH in H as (d' & -> & H2); [|done| |].
    + exists ((k, x0) :: d'). split; [by rewrite <-app_assoc|]. constructor; [|done]. simpl. eauto.
    + rewrite <-bt_insert_last by done. by apply bt_insert_sorted.
    + rewrite Forall_forall in *. intros [k' t'] Hin. apply Forall_app. split; [by apply Hr|].
      constructor; [|done]. by apply (Hkr (k', t')).
Qed.

Lemma resources_parse_spec self unit_of d : bt_sorted self -> resources_parse self unit_of = Ok d ->
  Forall2 (fun kv kn => kv.1 = kn.1 /\ exists u, unit_of kv.1 = Some u /\ unit_parse u kv.2 = Ok kn.2)
    self d.
Proof.
  intros Hs H. destruct (parse_loop_spec unit_of [] self d Hs) as (d' & -> & H2); try done.
  apply Forall_forall. intros. constructor.
Qed.

Lemma parse_loop_sorted unit_of acc self d :
  bt_sorted acc -> parse_loop unit_of acc self = Ok d -> bt_sorted d.
Proof.
  revert acc; induction self as [|[k t] self IH]; intros acc Ha; simpl; [by intros [= <-]|].
  intros H. ok_inv. eapply IH; [|exact H]. by apply bt_insert_sorted.
Qed.

Lemma resources_parse_wf self unit_of d :
  pools_wf self -> resources_parse self unit_of = Ok d -> pools_wf d.
Proof.
  intros [Hs Hb Hn] H. pose proof (resources_parse_spec _ _ _ Hs H) as H2. split.
  - by apply (parse_loop_sorted unit_of [] self).
  - by rewrite <-(Forall2_length _ _ _ H2).
  - clear -Hn H2. induction H2 as [|kv kn l k [E _] _ IH]; [done|].
    apply Forall_cons in Hn as [Hk Hn]. apply Forall_cons. split; [by rewrite <-E|auto].
Qed.

(** ** Properties *)

(** Reservations stay well-formed from the wire to admission. Declared pools
    are sorted, at most sixteen and well-named; parsing them keeps exactly the
    declared pools, in order, each amount read in its pool's unit. *)
Theorem resources_parse_preserves pairs r unit_of d :
  resources_try_from_pairs pairs = Ok r -> resources_parse r unit_of = Ok d ->
  pools_wf r /\ pools_wf d /\
  Forall2 (fun kv kn => kv.1 = kn.1 /\ exists u, unit_of kv.1 = Some u /\ unit_parse u kv.2 = Ok kn.2)
    r d.
Proof.
  intros Hr Hd. assert (Hw : pools_wf r) by (eapply resources_from_pairs_wf; [apply pools_wf_nil|done]).
  split_and!; [done|by eapply resources_parse_wf|]. apply resources_parse_spec; [apply Hw|done].
Qed.

(** A driver's advertised cost never overrides the target's own declaration,
    and adds nothing but that one pool otherwise. *)
Theorem advertise_target_wins self pool amount r :
  pools_wf self -> is_pool_name pool = true -> advertise self pool amount = Ok r ->
  pools_wf r /\
  bt_get pool r = Some (default amount (bt_get pool self)) /\
  forall k, k <> pool -> bt_get k r = bt_get k self.
Proof.
  intros Hw Hp. unfold advertise, contains_key. destruct (bt_get pool self) eqn:E.
  - intros [= <-]. by rewrite E.
  - intros H%map_err_ok. apply bounded_insert_wf in H; done.
Qed.

(** ** Witnesses *)

Definition sample_resources : Resources := [($"cpu", $"0.5"); ($"memory", $"4G")].

Lemma resources_parse_preserves_witness :
  resources_try_from_pairs [($"memory", $"4G"); ($"cpu", $"0.5")] = Ok sample_resources /\
  pools_wf [($"cpu", 500000); ($"memory", 4294967296)].
Proof.
  split; [vm_compute; reflexivity|].
  refine (proj1 (proj2 (resources_parse_preserves [($"memory", $"4G"); ($"cpu", $"0.5")]
    sample_resources of_builtin _ _ _))); vm_compute; reflexivity.
Defined.

Lemma advertise_target_wins_witness :
  bt_get $"cpu" sample_resources = Some $"0.5" /\
  advertise sample_resources $"cpu" IO_CPU = Ok sample_resources.
Proof.
  split; [|reflexivity].
  refine (proj1 (proj2 (advertise_target_wins sample_resources $"cpu" IO_CPU sample_resources _ _ _)));
    [|reflexivity|reflexivity].
  eapply resources_from_pairs_wf; [apply pools_wf_nil|].
  instantiate (1 := [($"memory", $"4G"); ($"cpu", $"0.5")]). reflexivity.
Defined.
