(* ===== verification/ResourcePool.v ===== *)
(** The execute-admission pool: [crates/engine/src/engine/resource_pool.rs].

    [Lane]'s immutable part (names, capacities, the [cpu] index) is a record
    and the state behind its mutex another; every operation that takes the lock
    is a function from state to state, and an interleaving of tasks is a
    sequence of these operations ([step]). A [Reservation] is the amounts it
    holds; the reservations that were granted and not dropped, wherever they
    live (a task, an [Acquire], a channel), are the [live] list of the system.
    [oneshot::Sender::send] fails when the receiver is gone: [alive] says
    whether the receiver of an arrival sequence number still exists, and every
    theorem holds for all of its answers. Instants, which only reports read,
    are left out. *)
From Stdlib Require Import Sorted.
From S2P Require Import Prelude Numerals HtPkg Capacity Resources.
Local Open Scope N_scope.

(** ** Data *)

Inductive AcquireError :=
| ZeroCapacity (pool : str)
| UnknownPool (pool : str)
| Closed.

Inductive Limit := Bounded (n : N) | Unbounded.

#[export] Instance Limit_eq_dec : EqDecision Limit.
Proof. solve_decision. Defined.

Definition bounded (l : Limit) : option N :=
  match l with Bounded n => Some n | Unbounded => None end.

(** Amounts by pool index. *)
Abbreviation needs_t := (list (nat * N)).

Record Lane := mkLane {
  names : list str;
  capacity : list Limit;
  cpu_idx : option nat;
}.

Record Waiter := mkWaiter { need : needs_t; clamped : bool }.

(** [waiters] is a [BTreeMap] on arrival numbers: ascending keys. *)
Record State := mkState {
  held : list N;
  waiters : list (N * Waiter);
  next_seq : N;
}.

Inductive GrantError := GrantUnknown | GrantZeroCapacity.

Definition naming (e : GrantError) (pool : str) : AcquireError :=
  match e with
  | GrantUnknown => UnknownPool pool
  | GrantZeroCapacity => ZeroCapacity pool
  end.

(** ** Amounts *)

Definition free_of (limit : Limit) (h : N) : option N :=
  (fun cap => saturating_sub cap h) <$> bounded limit.

Definition fits (capacity : list Limit) (held : list N) (need : needs_t) : bool :=
  forallb (fun '(idx, n) =>
    match capacity !! idx, held !! idx with
    | Some Unbounded, Some _ => true
    | Some (Bounded cap), Some h => n <=? saturating_sub cap h
    | _, _ => false
    end) need.

(** [if let Some(h) = held.get_mut(idx)]: [alter] is the identity out of range. *)
Definition take (held : list N) (need : needs_t) : list N :=
  foldl (fun held '(idx, n) => alter (fun h => saturating_add h n) idx held) held need.

(** [checked_sub(n)], or 0; the error it logs below zero is not state. *)
Definition give (held : list N) (granted : needs_t) : list N :=
  foldl (fun held '(idx, n) => alter (fun h => if n <=? h then h - n else 0) idx held) held granted.

(** ** The lane *)

(** [binary_search_by] on the sorted, duplicate-free names. *)
Definition find_index (names : list str) (pool : str) : option nat :=
  fst <$> list_find (fun p => p = pool) names.

Definition lane_new (capacities : list (str * Limit)) : Lane :=
  let names := fst <$> capacities in
  mkLane names (snd <$> capacities) (find_index names CPU).

Definition state_new (capacities : list (str * Limit)) : State :=
  mkState (replicate (length capacities) 0) [] 0.

Definition index (lane : Lane) (pool : str) : option nat := find_index (names lane) pool.

Definition grant (lane : Lane) (idx : option nat) (amount : N) (acc : needs_t * bool)
    : result GrantError (needs_t * bool) :=
  let '(need, clamped) := acc in
  idx ← ok_or GrantUnknown idx;
  granted ←
    match capacity lane !! idx with
    | Some Unbounded => Ok amount
    | Some (Bounded cap) => if cap =? 0 then Err GrantZeroCapacity else Ok (N.min amount cap)
    | None => Err GrantZeroCapacity
    end;
  if amount =? 0 then Ok (need, clamped)
  else Ok (need ++ [(idx, granted)], clamped || (granted <? amount)).

(** A grant sent through a channel: the arrival number and what it holds. *)
Abbreviation Sent := (N * Waiter)%type.

Section operations.
Context (lane : Lane) (alive : N -> bool).

(** The [while let Some(head) = st.waiters.first_entry()] loop. Each turn
    removes a waiter, so it is a recursion on the queue. *)
Fixpoint grant_loop (h : list N) (ws : list (N * Waiter)) : list N * list (N * Waiter) * list Sent :=
  match ws with
  | [] => (h, [], [])
  | (seq, w) :: r =>
      if negb (fits (capacity lane) h (need w)) then (h, ws, [])
      else
        let h := take h (need w) in
        if alive seq then
          let '(h, ws, sent) := grant_loop h r in (h, ws, (seq, w) :: sent)
        else grant_loop (give h (need w)) r
  end.

Definition grant_chain (st : State) : State * list Sent :=
  let '(h, ws, sent) := grant_loop (held st) (waiters st) in
  (mkState h ws (next_seq st), sent).

Definition grant_now (st : State) (need : needs_t) : State :=
  match need with
  | [] => st
  | _ => mkState (take (held st) need) (waiters st) (next_seq st)
  end.

Inductive Acquire := Ready (need : needs_t) (clamped : bool) | Waiting (seq : N).

(** [BTreeMap::insert]. *)
Fixpoint seq_insert (k : N) (w : Waiter) (m : list (N * Waiter)) : list (N * Waiter) :=
  match m with
  | [] => [(k, w)]
  | (k', w') :: r =>
      match k ?= k' with
      | Lt => (k, w) :: m
      | Eq => (k, w) :: r
      | Gt => (k', w') :: seq_insert k w r
      end
  end.

Definition enqueue (st : State) (need : needs_t) (clamped : bool) : Acquire * State * list Sent :=
  if bool_decide (waiters st = []) && fits (capacity lane) (held st) need then
    (Ready need clamped, mkState (take (held st) need) (waiters st) (next_seq st), [])
  else
    let seq := next_seq st in
    let st := mkState (held st) (seq_insert seq (mkWaiter need clamped) (waiters st)) (wrapping_add seq 1) in
    let '(st, sent) := grant_chain st in
    (Waiting seq, st, sent).

Definition release (st : State) (granted : needs_t) : State * list Sent :=
  match granted with
  | [] => (st, [])
  | _ => grant_chain (mkState (give (held st) granted) (waiters st) (next_seq st))
  end.

(** [BTreeMap::remove]. *)
Definition seq_remove (seq : N) (m : list (N * Waiter)) : list (N * Waiter) :=
  filter (fun kw => kw.1 <> seq) m.
Definition seq_get (seq : N) (m : list (N * Waiter)) : option Waiter :=
  (fun kw => kw.2.2) <$> list_find (fun kw => kw.1 = seq) m.

Definition cancel (st : State) (seq : N) : State * list Sent :=
  match seq_get seq (waiters st) with
  | Some _ => grant_chain (mkState (held st) (seq_remove seq (waiters st)) (next_seq st))
  | None => (st, [])
  end.

(** ** Requests *)

Fixpoint resolve_pools (request : Demand) (acc : needs_t * bool) : result AcquireError (needs_t * bool) :=
  match request with
  | [] => Ok acc
  | (pool, amount) :: r =>
      acc ← map_err (fun e => naming e pool) (grant lane (index lane pool) amount acc);
      resolve_pools r acc
  end.

Definition resolve (request : Demand) : result AcquireError (needs_t * bool) :=
  acc ← resolve_pools request ([], false);
  match demand_declared request CPU with
  | None => map_err (fun e => naming e CPU) (grant lane (cpu_idx lane) DEFAULT_CPU_MICROS acc)
  | Some _ => Ok acc
  end.

Definition is_bounded (l : option Limit) : bool :=
  match l with Some (Bounded _) => true | _ => false end.

Definition acquire (st : State) (request : Demand) : result AcquireError (Acquire * State * list Sent) :=
  '(need, clamped) ← resolve request;
  if existsb (fun '(idx, _) => is_bounded (capacity lane !! idx)) need
  then Ok (enqueue st need clamped)
  else Ok (Ready need clamped, grant_now st need, []).

(** ** Reports *)

Record PoolNeed := mkPoolNeed { pn_pool : str; pn_need : N; pn_free : option N }.

Definition pool_need (held : list N) (unmet_only : bool) (entry : nat * N) : option PoolNeed :=
  let '(idx, amount) := entry in
  limit ← capacity lane !! idx;
  h ← held !! idx;
  let free := free_of limit h in
  if unmet_only && match free with None => true | Some f => amount <=? f end then None
  else
    pool ← names lane !! idx;
    Some (mkPoolNeed pool amount free).

Definition needs (held : list N) (need : needs_t) (unmet_only : bool) : list PoolNeed :=
  omap (pool_need held unmet_only) need.

Record WaitInfo := mkWaitInfo { ahead : nat; wi_pools : list PoolNeed }.

Definition wait_info (st : State) (seq : N) : option WaitInfo :=
  w ← seq_get seq (waiters st);
  Some (mkWaitInfo (length (filter (fun kw => kw.1 < seq) (waiters st)))
                   (needs (held st) (need w) false)).

Record PoolSnapshot := mkPoolSnapshot {
  ps_pool : str; ps_unit : Unit; ps_capacity : Limit; ps_held : N }.
Record LaneSnapshot := mkLaneSnapshot {
  ls_pools : list PoolSnapshot; queued : nat; ls_head : option (list PoolNeed) }.

Fixpoint pool_snapshots (names : list str) (capacity : list Limit) (held : list N) : list PoolSnapshot :=
  match names, capacity, held with
  | n :: ns, c :: cs, h :: hs => mkPoolSnapshot n (default_for n) c h :: pool_snapshots ns cs hs
  | _, _, _ => []
  end.

Definition snapshot (st : State) : LaneSnapshot :=
  mkLaneSnapshot (pool_snapshots (names lane) (capacity lane) (held st)) (length (waiters st))
    ((fun kw => needs (held st) (need kw.2) true) <$> head (waiters st)).

(** [ResourcePool::available] and [ResourcePool::capacity]. *)
Definition pool_capacity (pool : str) : option Limit :=
  idx ← index lane pool; capacity lane !! idx.
Definition available (st : State) (pool : str) : option N :=
  idx ← index lane pool;
  limit ← capacity lane !! idx;
  cap ← bounded limit;
  h ← held st !! idx;
  Some (saturating_sub cap h).
End operations.

(** ** The system *)

Record Sys := mkSys { st : State; live : list needs_t }.

Definition sent_needs (sent : list Sent) : list needs_t := (fun s => need s.2) <$> sent.

(** One locked operation, by whichever task runs next. A grant lives from the
    moment it is made until it is dropped. Fewer than [2^64] requests queue. *)
Inductive step (lane : Lane) : Sys -> Sys -> Prop :=
| step_acquire alive request s live acq s' sent :
    pools_wf request -> next_seq s < u64_max ->
    acquire lane alive s request = Ok (acq, s', sent) ->
    step lane (mkSys s live)
      (mkSys s' (match acq with Ready need _ => [need] | Waiting _ => [] end ++ sent_needs sent ++ live))
| step_refused alive request s live e :
    acquire lane alive s request = Err e -> step lane (mkSys s live) (mkSys s live)
| step_drop alive s l1 granted l2 s' sent :
    release lane alive s granted = (s', sent) ->
    step lane (mkSys s (l1 ++ granted :: l2)) (mkSys s' (sent_needs sent ++ l1 ++ l2))
| step_cancel alive s live seq s' sent :
    cancel lane alive s seq = (s', sent) ->
    step lane (mkSys s live) (mkSys s' (sent_needs sent ++ live)).

Definition init (capacities : list (str * Limit)) : Sys := mkSys (state_new capacities) [].
Definition reachable (capacities : list (str * Limit)) : Sys -> Prop :=
  rtc (step (lane_new capacities)) (init capacities).

(** What [BTreeMap] and [u64] guarantee of the capacities. *)
Definition capacities_wf (capacities : list (str * Limit)) : Prop :=
  bt_sorted capacities /\ Forall (fun kl => match kl.2 with Bounded n => is_u64 n | Unbounded => True end) capacities.

(** ** Accounting *)

(** What a grant, and a list of grants, hold of a pool. *)
Definition amount_at (g : needs_t) (i : nat) : N :=
  foldr (fun '(j, n) acc => if decide (j = i) then n + acc else acc) 0 g.
Definition total_at (live : list needs_t) (i : nat) : N :=
  foldr (fun g acc => amount_at g i + acc) 0 live.

Lemma amount_at_nil g i : i ∉ g.*1 -> amount_at g i = 0.
Proof.
  induction g as [|[j n] g IH]; simpl; [done|]. intros H. rewrite decide_False by set_solver.
  apply IH. set_solver.
Qed.

Lemma amount_at_elem g i n : NoDup g.*1 -> (i, n) ∈ g -> amount_at g i = n.
Proof.
  induction g as [|[j m] g IH]; simpl; [by intros _ ?%elem_of_nil|].
  intros [Hj Hnd]%NoDup_cons [E|Hin]%elem_of_cons.
  - injection E as -> ->. rewrite decide_True by done. rewrite amount_at_nil by done. lia.
  - rewrite decide_False; [auto|]. intros ->. apply Hj. apply list_elem_of_fmap. by exists (i, n).
Qed.

Lemma amount_at_app a b i : amount_at (a ++ b) i = amount_at a i + amount_at b i.
Proof. induction a as [|[j n] a IH]; simpl; [done|]. rewrite IH. case_decide; lia. Qed.

Lemma total_at_app a b i : total_at (a ++ b) i = total_at a i + total_at b i.
Proof. induction a as [|g a IH]; simpl; [done|]. rewrite IH. lia. Qed.

#[export] Instance total_at_Permutation : Proper (Permutation ==> eq ==> eq) total_at.
Proof. intros a b H i ? <-. induction H; simpl; lia. Qed.

Lemma take_length h g : length (take h g) = length h.
Proof.
  unfold take. revert h; induction g as [|[j n] g IH]; intros h; simpl; [done|].
  by rewrite IH, length_alter.
Qed.

Lemma give_length h g : length (give h g) = length h.
Proof.
  unfold give. revert h; induction g as [|[j n] g IH]; intros h; simpl; [done|].
  by rewrite IH, length_alter.
Qed.

Lemma take_lookup h g i x : h !! i = Some x -> x + amount_at g i <= u64_max ->
  take h g !! i = Some (x + amount_at g i).
Proof.
  unfold take. revert h x; induction g as [|[j n] g IH]; intros h x Hx Hb; simpl in *.
  - by rewrite N.add_0_r.
  - case_decide as E; [subst j|].
    + rewrite (IH _ (x + n)); [f_equal; lia| |lia].
      rewrite list_lookup_alter_eq, Hx. simpl. f_equal. unfold saturating_add. lia.
    + apply IH; [by rewrite list_lookup_alter_ne|done].
Qed.

Lemma give_lookup h g i x : h !! i = Some x -> amount_at g i <= x ->
  give h g !! i = Some (x - amount_at g i).
Proof.
  unfold give. revert h x; induction g as [|[j n] g IH]; intros h x Hx Hb; simpl in *.
  - by rewrite N.sub_0_r.
  - case_decide as E; [subst j|].
    + rewrite (IH _ (x - n)); [f_equal; lia| |lia].
      rewrite list_lookup_alter_eq, Hx. simpl. f_equal.
      destruct (N.leb_spec n x); [done|lia].
    + apply IH; [by rewrite list_lookup_alter_ne|done].
Qed.

(** A request as [resolve] makes it. *)
Record need_ok (caps : list Limit) (g : needs_t) : Prop := {
  need_nodup : NoDup g.*1;
  need_range : Forall (fun '(i, n) => 0 < n /\ exists l, caps !! i = Some l /\
                 match l with Bounded c => n <= c | Unbounded => True end) g;
}.

Section accounting.
Context (caps : list Limit).
Hypothesis Hcaps : Forall (fun l => match l with Bounded n => is_u64 n | Unbounded => True end) caps.

(** Every bounded pool holds exactly what the live grants hold, within its
    capacity. *)
Definition balanced (h : list N) (live : list needs_t) : Prop :=
  length h = length caps /\
  forall i c, caps !! i = Some (Bounded c) -> h !! i = Some (total_at live i) /\ total_at live i <= c.

Lemma cap_u64 i c : caps !! i = Some (Bounded c) -> c <= u64_max.
Proof. intros H. rewrite Forall_lookup in Hcaps. exact (Hcaps _ _ H). Qed.

Lemma balanced_Permutation h a b : a ≡ₚ b -> balanced h a -> balanced h b.
Proof. intros Hp [Hl H]. split; [done|]. intros i c Hi. rewrite <-Hp. by apply H. Qed.

Lemma balanced_take h live g : balanced h live ->
  (forall i c, caps !! i = Some (Bounded c) -> total_at live i + amount_at g i <= c) ->
  balanced (take h g) (g :: live).
Proof.
  intros [Hl H] Hg. split; [by rewrite take_length|]. intros i c Hi. simpl.
  destruct (H i c Hi) as [Hh _]. specialize (Hg i c Hi). pose proof (cap_u64 i c Hi).
  split; [|lia]. rewrite (take_lookup _ _ _ _ Hh) by lia. f_equal. lia.
Qed.

Lemma balanced_give h l1 g l2 : balanced h (l1 ++ g :: l2) -> balanced (give h g) (l1 ++ l2).
Proof.
  intros [Hl H]. split; [by rewrite give_length|]. intros i c Hi.
  destruct (H i c Hi) as [Hh Hc]. rewrite total_at_app in *. simpl in *. split; [|lia].
  rewrite (give_lookup _ _ _ _ Hh) by lia. f_equal. lia.
Qed.

Lemma fits_bound h live g : balanced h live -> NoDup g.*1 -> fits caps h g = true ->
  forall i c, caps !! i = Some (Bounded c) -> total_at live i + amount_at g i <= c.
Proof.
  intros [_ H] Hnd Hf i c Hi. destruct (H i c Hi) as [Hh Hc].
  destruct (decide (i ∈ g.*1)) as [Hin|Hni]; [|rewrite amount_at_nil by done; lia].
  apply list_elem_of_fmap in Hin as ([j n] & -> & Hin). simpl in *.
  rewrite (amount_at_elem g j n) by done.
  unfold fits in Hf. apply forallb_Forall in Hf. rewrite Forall_forall in Hf. specialize (Hf _ Hin).
  simpl in Hf. rewrite Hi, Hh in Hf. apply N.leb_le in Hf. unfold saturating_sub in Hf. lia.
Qed.

(** Whether a request fits depends on the bounded pools only. *)
Lemma fits_ext h h' g : length h = length h' ->
  (forall i c, caps !! i = Some (Bounded c) -> h !! i = h' !! i) -> fits caps h g = fits caps h' g.
Proof.
  intros Hl H. unfold fits. induction g as [|[i n] g IH]; simpl; [done|]. rewrite IH. f_equal.
  destruct (caps !! i) as [[c|]|] eqn:E; [by erewrite H| |done].
  destruct (h !! i) eqn:E1, (h' !! i) eqn:E2; try done.
  - apply lookup_lt_Some in E1. apply lookup_ge_None in E2. lia.
  - apply lookup_lt_Some in E2. apply lookup_ge_None in E1. lia.
Qed.

(** With no bounded amount held, a resolved request fits. *)
Lemma fits_idle h live g : balanced h live -> need_ok caps g ->
  (forall i c, caps !! i = Some (Bounded c) -> total_at live i = 0) -> fits caps h g = true.
Proof.
  intros [Hl H] [_ Hr] H0. unfold fits. apply Forall_forallb.
  eapply Forall_impl; [exact Hr|]. intros [i n] (_ & l & Hi & Hn). rewrite Hi.
  destruct l as [c|].
  - destruct (H i c Hi) as [-> _]. rewrite (H0 i c Hi). unfold saturating_sub.
    apply N.leb_le. lia.
  - destruct (h !! i) eqn:E; [done|]. apply lookup_ge_None in E. apply lookup_lt_Some in Hi. lia.
Qed.
End accounting.

(** ** The queue *)

Definition need_of (kw : N * Waiter) : needs_t := need kw.2.

(** The head of the queue does not fit: nobody waits who could run. *)
Definition head_blocked (caps : list Limit) (h : list N) (ws : list (N * Waiter)) : Prop :=
  match ws with [] => True | kw :: _ => fits caps h (need_of kw) = false end.

Lemma seq_remove_absent seq m : seq_get seq m = None -> seq_remove seq m = m.
Proof.
  unfold seq_get, seq_remove. intros E%fmap_None%list_find_None.
  induction E as [|kw m Hk _ IH]; [done|]. rewrite filter_cons_True by done. by rewrite IH.
Qed.

Section chain.
Context (lane : Lane) (alive : N -> bool).
Abbreviation caps := (capacity lane).
Hypothesis Hcaps : Forall (fun l => match l with Bounded n => is_u64 n | Unbounded => True end) caps.

(** The chain serves a prefix of the queue, in order; what it could not send it
    gave back; it stops at a head that does not fit. *)
Lemma grant_loop_spec h ws live h' ws' sent :
  balanced caps h live -> Forall (fun kw => need_ok caps (need_of kw)) ws ->
  grant_loop lane alive h ws = (h', ws', sent) ->
  balanced caps h' (sent_needs sent ++ live) /\ head_blocked caps h' ws' /\
  exists served, ws = served ++ ws' /\ sent = filter (fun kw => alive kw.1 = true) served.
Proof.
  revert h live h' ws' sent; induction ws as [|[seq w] ws IH]; intros h live h' ws' sent Hb Hws; simpl.
  - intros [= <- <- <-]. split_and!; [done..|]. by exists [].
  - apply Forall_cons in Hws as [Hw Hws]. unfold need_of in Hw. simpl in Hw.
    destruct (fits caps h (need w)) eqn:Hf; simpl.
    2: { intros [= <- <- <-]. split_and!; [done..|]. by exists []. }
    assert (Ht : balanced caps (take h (need w)) (need w :: live)).
    { apply balanced_take; [done..|]. eapply fits_bound; [done|apply Hw|done]. }
    destruct (alive seq) eqn:Ha.
    + destruct (grant_loop lane alive (take h (need w)) ws) as [[h1 ws1] sent1] eqn:E.
      intros [= <- <- <-]. apply (IH _ (need w :: live)) in E as (Hb' & Hh & served & -> & ->); [|done..].
      split_and!; [|done|].
      * eapply balanced_Permutation; [|exact Hb']. simpl. by rewrite Permutation_middle.
      * exists ((seq, w) :: served). split; [done|]. by rewrite filter_cons_True.
    + intros E. apply (balanced_give _ _ [] (need w) live) in Ht.
      apply (IH _ live) in E as (Hb' & Hh & served & -> & ->); [|done..].
      split_and!; [done..|]. exists ((seq, w) :: served). split; [done|].
      rewrite filter_cons_False; [done|]. simpl. by rewrite Ha.
Qed.

Lemma grant_chain_spec s live s' sent :
  balanced caps (held s) live -> Forall (fun kw => need_ok caps (need_of kw)) (waiters s) ->
  grant_chain lane alive s = (s', sent) ->
  balanced caps (held s') (sent_needs sent ++ live) /\ head_blocked caps (held s') (waiters s') /\
  next_seq s' = next_seq s /\
  exists served, waiters s = served ++ waiters s' /\ sent = filter (fun kw => alive kw.1 = true) served.
Proof.
  intros Hb Hws. unfold grant_chain.
  destruct (grant_loop lane alive (held s) (waiters s)) as [[h ws] sn] eqn:E.
  intros [= <- <-]. simpl. apply (grant_loop_spec _ _ live) in E as (? & ? & ?); done.
Qed.

(** A blocked head stops the chain at once. *)
Lemma grant_chain_blocked s : head_blocked caps (held s) (waiters s) ->
  grant_chain lane alive s = (s, []).
Proof.
  unfold grant_chain, head_blocked, need_of. destruct s as [h [|[seq w] ws] n]; simpl; [done|].
  by intros ->.
Qed.
End chain.

(** ** Resolving a request *)

Lemma find_index_Some ns pool i : find_index ns pool = Some i -> ns !! i = Some pool.
Proof.
  unfold find_index. intros ([j x] & Hj & E)%fmap_Some. simpl in E. subst j.
  apply list_find_Some in Hj as (H & -> & _). done.
Qed.

Lemma find_index_elem ns pool : pool ∈ ns -> is_Some (find_index ns pool).
Proof.
  intros H. unfold find_index. apply fmap_is_Some.
  by apply (list_find_elem_of _ ns pool).
Qed.

(** All the pools a request asks of, the implicit [cpu] included. *)
Definition effective_request (request : Demand) : list (str * N) :=
  request ++ match demand_declared request CPU with
             | None => [(CPU, DEFAULT_CPU_MICROS)]
             | Some _ => []
             end.

Lemma bt_get_None {V} k (m : list (str * V)) : bt_get k m = None -> k ∉ m.*1.
Proof.
  induction m as [|[k' v] m IH]; simpl; [set_solver|]. case_decide; [done|]. intros H'%IH. set_solver.
Qed.

Lemma bt_sorted_NoDup {V} (m : list (str * V)) : bt_sorted m -> NoDup m.*1.
Proof.
  induction m as [|[k v] m IH]; simpl; [constructor|]. intros [Hlt Hs]. constructor; [|auto].
  intros ([k' v'] & -> & Hin)%list_elem_of_fmap. rewrite Forall_forall in Hlt.
  by apply (str_lt_irrefl k'), (Hlt _ Hin).
Qed.

Lemma effective_NoDup request : bt_sorted request -> NoDup (effective_request request).*1.
Proof.
  intros Hs. unfold effective_request, demand_declared.
  destruct (bt_get CPU request) eqn:E; [rewrite app_nil_r; by apply bt_sorted_NoDup|].
  rewrite fmap_app. apply NoDup_app. split_and!; [by apply bt_sorted_NoDup| |apply NoDup_singleton].
  apply bt_get_None in E. intros p Hp ->%list_elem_of_singleton. done.
Qed.

Section resolving.
Context (capacities : list (str * Limit)).
Hypothesis Hwf : capacities_wf capacities.
Abbreviation lane := (lane_new capacities).
Abbreviation caps := (capacity lane).

Lemma caps_u64 : Forall (fun l => match l with Bounded n => is_u64 n | Unbounded => True end) caps.
Proof. destruct Hwf as [_ H]. simpl. by apply Forall_fmap. Qed.

Lemma names_caps i pool : names lane !! i = Some pool ->
  exists l, caps !! i = Some l /\ (pool, l) ∈ capacities.
Proof.
  simpl. rewrite !list_lookup_fmap. intros ([p l] & E & ->)%fmap_Some. exists l.
  rewrite E. simpl. split; [done|]. by eapply list_elem_of_lookup_2.
Qed.

(** What [grant] adds: the amount clamped to the capacity, unless it is 0. *)
Definition granted_amount (l : Limit) (amount : N) : N :=
  match l with Bounded c => N.min amount c | Unbounded => amount end.
Definition refused (l : Limit) : Prop := l = Bounded 0.

Lemma grant_ok idx amount nd cl nd' cl' :
  grant lane idx amount (nd, cl) = Ok (nd', cl') <->
  exists i l, idx = Some i /\ caps !! i = Some l /\ ~ refused l /\
    nd' = nd ++ (if amount =? 0 then [] else [(i, granted_amount l amount)]) /\
    cl' = cl || (granted_amount l amount <? amount).
Proof.
  assert (Hlt : forall x, (x <? 0) = false) by (by intros []).
  assert (Hif : forall l i,
    (if amount =? 0 then Ok (nd, cl)
     else Ok (E := GrantError) (nd ++ [(i, granted_amount l amount)], cl || (granted_amount l amount <? amount)))
    = Ok (nd ++ (if amount =? 0 then [] else [(i, granted_amount l amount)]),
          cl || (granted_amount l amount <? amount))).
  { intros l i. destruct (N.eqb_spec amount 0) as [->|]; [|done]. by rewrite Hlt, app_nil_r, orb_false_r. }
  unfold grant, refused. destruct idx as [i|]; simpl; [|naive_solver].
  destruct ((snd <$> capacities) !! i) as [l|] eqn:E; [|naive_solver].
  assert (Hg : forall nd' cl', l <> Bounded 0 ->
    Ok (E := GrantError) (nd ++ (if amount =? 0 then [] else [(i, granted_amount l amount)]),
        cl || (granted_amount l amount <? amount)) = Ok (nd', cl') <->
    exists i0 l0, Some i = Some i0 /\ (snd <$> capacities) !! i0 = Some l0 /\ l0 <> Bounded 0 /\
      nd' = nd ++ (if amount =? 0 then [] else [(i0, granted_amount l0 amount)]) /\
      cl' = cl || (granted_amount l0 amount <? amount)).
  { intros nd1 cl1 Hl. split; [intros [= <- <-]; naive_solver|].
    intros (i0 & l0 & [= <-] & El & _ & -> & ->). by rewrite E in El; injection El as <-. }
  destruct l as [c|]; simpl.
  - destruct (N.eqb_spec c 0) as [->|Hc]; simpl; [naive_solver|].
    pose proof (Hif (Bounded c) i) as H. cbn [granted_amount] in H. rewrite H. apply Hg. naive_solver.
  - pose proof (Hif Unbounded i) as H. cbn [granted_amount] in H. rewrite H. by apply Hg.
Qed.

(** One declared amount, resolved. *)
Definition entry_of (pool : str) (amount : N) (e : needs_t) : Prop :=
  exists i l, index lane pool = Some i /\ caps !! i = Some l /\ ~ refused l /\
    e = if amount =? 0 then [] else [(i, granted_amount l amount)].

Lemma resolve_pools_ok request nd cl nd' cl' :
  resolve_pools lane request (nd, cl) = Ok (nd', cl') ->
  exists es, Forall2 (fun pa e => entry_of pa.1 pa.2 e) request es /\ nd' = nd ++ concat es.
Proof.
  revert nd cl; induction request as [|[pool amount] request IH]; intros nd cl; cbn [resolve_pools].
  - intros [= <- <-]. exists []. split; [constructor|]. by rewrite app_nil_r.
  - intros H. ok_inv. destruct x as [nd1 cl1]. apply grant_ok in H0 as (i & l & Hi & Hl & Hr & -> & ->).
    apply IH in H as (es & H2 & ->). eexists (_ :: es). split; [constructor; [|exact H2]|].
    + exists i, l. by split_and!.
    + by rewrite <-app_assoc.
Qed.

Lemma resolve_ok request nd cl : resolve lane request = Ok (nd, cl) ->
  exists es, Forall2 (fun pa e => entry_of pa.1 pa.2 e) (effective_request request) es /\ nd = concat es.
Proof.
  unfold resolve, effective_request. intros H. ok_inv. destruct x as [nd1 cl1].
  apply resolve_pools_ok in H0 as (es & H2 & E). simpl in E. subst nd1.
  destruct (demand_declared request CPU).
  - injection H as <- <-. exists es. by rewrite app_nil_r.
  - ok_inv. apply grant_ok in H as (i & l & Hi & Hl & Hr & -> & ->).
    exists (es ++ [if DEFAULT_CPU_MICROS =? 0 then [] else [(i, granted_amount l DEFAULT_CPU_MICROS)]]).
    rewrite concat_app. split; [|cbn [concat]; by rewrite app_nil_r].
    apply Forall2_app; [done|]. constructor; [|constructor]. exists i, l. by split_and!.
Qed.

Lemma entry_index pool amount e i n : entry_of pool amount e -> (i, n) ∈ e -> names lane !! i = Some pool.
Proof.
  intros (j & l & Hj & _ & _ & ->) Hin. destruct (amount =? 0); [by apply elem_of_nil in Hin|].
  apply list_elem_of_singleton in Hin. injection Hin as -> ->. by apply find_index_Some in Hj.
Qed.

(** A resolved request names each pool at most once and asks of each at most
    its capacity, and more than nothing. *)
Lemma resolve_need_ok request nd cl : bt_sorted request -> resolve lane request = Ok (nd, cl) ->
  need_ok caps nd.
Proof.
  intros Hs (es & H2 & ->)%resolve_ok. apply effective_NoDup in Hs.
  induction H2 as [|[pool amount] e req es He H2 IH]; simpl; [by repeat constructor|].
  cbn [fst snd] in He. rewrite fmap_cons in Hs. apply NoDup_cons in Hs as [Hp Hs]. destruct (IH Hs) as [IHn IHr]. split.
  - rewrite fmap_app. apply NoDup_app. split_and!; [| |done].
    + destruct He as (i & l & _ & _ & _ & ->). destruct (amount =? 0); [constructor|apply NoDup_singleton].
    + intros i ([i1 n1] & -> & Hi)%list_elem_of_fmap ([i2 n2] & E & Hi2)%list_elem_of_fmap.
      simpl in E. subst i2. apply Hp. apply entry_index with (pool := pool) (amount := amount) in Hi; [|done].
      apply list_elem_of_In, in_concat in Hi2 as (e2 & He2 & Hin2).
      apply list_elem_of_In in He2, Hin2.
      apply list_elem_of_lookup in He2 as [k Hk].
      destruct (Forall2_lookup_r _ _ _ _ _ H2 Hk) as ([p2 a2] & Hk2 & He2).
      apply entry_index with (pool := p2) (amount := a2) in Hin2; [|done].
      assert (p2 = pool) as -> by congruence.
      apply list_elem_of_fmap. exists (pool, a2). split; [done|]. by eapply list_elem_of_lookup_2.
  - apply Forall_app. split; [|done]. destruct He as (i & l & Hi & Hl & Hr & ->). simpl in Hl.
    destruct (N.eqb_spec amount 0); [constructor|]. constructor; [|constructor].
    unfold refused, granted_amount in *. split; [|exists l; split; [done|]]; destruct l as [c|]; try lia.
    assert (c <> 0) by (intros ->; done). lia.
Qed.
End resolving.

(** ** The invariant *)

Record inv (caps : list Limit) (s : Sys) : Prop := {
  inv_balanced : balanced caps (held (st s)) (live s);
  inv_needs : Forall (fun kw => need_ok caps (need_of kw)) (waiters (st s));
  inv_keys : StronglySorted N.lt (waiters (st s)).*1;
  inv_next : Forall (fun k => k < next_seq (st s)) (waiters (st s)).*1;
  inv_blocked : head_blocked caps (held (st s)) (waiters (st s));
}.

Lemma seq_insert_last k w m : Forall (fun k' => k' < k) m.*1 -> seq_insert k w m = m ++ [(k, w)].
Proof.
  induction m as [|[k' w'] m IH]; simpl; [done|]. intros [Hk Hm]%Forall_cons.
  destruct (N.compare_spec k k'); try lia. by rewrite IH.
Qed.

Lemma StronglySorted_app_inv_r {A} (R : A -> A -> Prop) l1 l2 :
  StronglySorted R (l1 ++ l2) -> StronglySorted R l2.
Proof. induction l1 as [|x l1 IH]; simpl; [done|]. inversion 1; auto. Qed.

Lemma StronglySorted_snoc {A} (R : A -> A -> Prop) l x :
  StronglySorted R l -> Forall (fun y => R y x) l -> StronglySorted R (l ++ [x]).
Proof.
  induction 1 as [|y l Hs IH Hy]; intros Hx; simpl; [repeat constructor|].
  apply Forall_cons in Hx as [Hyx Hx]. constructor; [auto|]. apply Forall_app. by repeat constructor.
Qed.

Lemma StronglySorted_filter (P : N * Waiter -> Prop) `{forall x, Decision (P x)} l :
  StronglySorted N.lt l.*1 -> StronglySorted N.lt (filter P l).*1.
Proof.
  induction l as [|x l IH]; [done|]. rewrite fmap_cons. inversion_clear 1 as [|?? Hs Hx].
  rewrite filter_cons. case_decide; [|auto]. rewrite fmap_cons. constructor; [auto|].
  rewrite Forall_fmap in *. rewrite Forall_forall in *. intros y [_ Hy]%list_elem_of_filter. auto.
Qed.

Section invariant.
Context (capacities : list (str * Limit)).
Hypothesis Hwf : capacities_wf capacities.
Abbreviation lane := (lane_new capacities).
Abbreviation caps := (capacity lane).

Lemma init_inv : inv caps (init capacities).
Proof.
  split; simpl; [|by constructor..]. split; [by rewrite length_replicate, length_fmap|].
  intros i c Hi. split; [|simpl; lia]. apply lookup_replicate. split; [done|].
  apply lookup_lt_Some in Hi. by rewrite length_fmap in Hi.
Qed.

(** A mutation that ends by running the chain restores the invariant. *)
Lemma grant_chain_inv alive h ws n lv s' sent :
  balanced caps h lv -> Forall (fun kw => need_ok caps (need_of kw)) ws ->
  StronglySorted N.lt ws.*1 -> Forall (fun k => k < n) ws.*1 ->
  grant_chain lane alive (mkState h ws n) = (s', sent) ->
  inv caps (mkSys s' (sent_needs sent ++ lv)).
Proof.
  intros Hb Hw Hk Hn H. apply (grant_chain_spec lane alive (caps_u64 _ Hwf) _ lv) in H
    as (Hb' & Hh & En & served & E & _); [|done..]. simpl in *.
  split; simpl; [done| | | |done].
  - rewrite E in Hw. by apply Forall_app in Hw as [_ Hw].
  - rewrite E, fmap_app in Hk. by apply StronglySorted_app_inv_r in Hk.
  - rewrite En. rewrite E, fmap_app in Hn. by apply Forall_app in Hn as [_ Hn].
Qed.

Lemma unbounded_amount nd i c :
  existsb (fun '(idx, _) => is_bounded (caps !! idx)) nd = false ->
  caps !! i = Some (Bounded c) -> amount_at nd i = 0.
Proof.
  intros Hu Hi. apply amount_at_nil. intros ([j n] & -> & Hin)%list_elem_of_fmap. simpl in Hi.
  assert (existsb (fun '(idx, _) => is_bounded (caps !! idx)) nd = true); [|congruence].
  apply existsb_exists. exists (j, n). split; [by apply list_elem_of_In|]. simpl. by rewrite Hi.
Qed.

(** A grant of unbounded pools only changes no bounded account. *)
Lemma grant_now_inv s lv nd :
  inv caps (mkSys s lv) -> existsb (fun '(idx, _) => is_bounded (caps !! idx)) nd = false ->
  inv caps (mkSys (grant_now s nd) (nd :: lv)).
Proof.
  intros [Hb Hw Hk Hn Hh] Hu. simpl in *.
  assert (Hb' : balanced caps (take (held s) nd) (nd :: lv)).
  { apply balanced_take; [apply caps_u64; done|done|]. intros i c Hi.
    rewrite (unbounded_amount nd i c) by done. destruct Hb as [_ Hb]. destruct (Hb i c Hi). lia. }
  assert (E : grant_now s nd = mkState (take (held s) nd) (waiters s) (next_seq s))
    by (by destruct nd, s).
  rewrite E. split; simpl; try done.
  unfold head_blocked in *. destruct (waiters s) as [|kw ws]; [done|]. rewrite <-Hh.
  apply fits_ext; [by rewrite take_length|]. intros i c Hi.
  destruct Hb as [_ Hb], Hb' as [_ Hb']. destruct (Hb i c Hi) as [-> _], (Hb' i c Hi) as [-> _].
  simpl. by rewrite (unbounded_amount nd i c).
Qed.

Lemma enqueue_inv alive s lv nd cl acq s' sent :
  inv caps (mkSys s lv) -> need_ok caps nd -> next_seq s < u64_max ->
  enqueue lane alive s nd cl = (acq, s', sent) ->
  inv caps (mkSys s' (match acq with Ready n _ => [n] | Waiting _ => [] end ++ sent_needs sent ++ lv)).
Proof.
  intros [Hb Hw Hk Hn Hh] Hnd Hseq. unfold enqueue. cbn [st live] in *.
  destruct (bool_decide (waiters s = []) && fits caps (held s) nd) eqn:E.
  - apply andb_true_iff in E as [Ee%bool_decide_eq_true Ef]. intros [= <- <- <-].
    rewrite Ee in *. split; simpl; [|by constructor..].
    apply (balanced_take caps (caps_u64 _ Hwf)); [done|].
    eapply fits_bound; [done|apply Hnd|done].
  - destruct (grant_chain lane alive _) as [s1 sent1] eqn:Ec. intros [= <- <- <-]. simpl.
    rewrite seq_insert_last in Ec by done.
    eapply grant_chain_inv; [| | | |exact Ec]; try done.
    + apply Forall_app. split; [done|]. by repeat constructor; apply Hnd.
    + rewrite fmap_app. by apply StronglySorted_snoc.
    + rewrite fmap_app. unfold wrapping_add. rewrite N.mod_small by lia. apply Forall_app. split.
      * eapply Forall_impl; [exact Hn|]. simpl. lia.
      * constructor; [simpl; lia|constructor].
Qed.

Lemma step_inv s s' : inv caps s -> step lane s s' -> inv caps s'.
Proof.
  intros Hinv Hstep. destruct Hstep as [alive request s lv acq s' sent Hr Hseq Ha|
    alive request s lv e Ha|alive s l1 g l2 s' sent Hrel|alive s lv seq s' sent Hc]; [| done| |].
  - unfold acquire in Ha. ok_inv. destruct x as [nd cl].
    assert (Hnd : need_ok caps nd) by (eapply resolve_need_ok; [apply Hr|done]).
    destruct (existsb _ nd) eqn:Eb; injection Ha as Ha.
    + by eapply enqueue_inv.
    + simplify_eq. by apply grant_now_inv.
  - destruct Hinv as [Hb Hw Hk Hn Hh]. simpl in *. apply balanced_give in Hb.
    unfold release in Hrel. destruct g as [|e g].
    + injection Hrel as <- <-. by split.
    + by eapply grant_chain_inv.
  - unfold cancel in Hc. destruct (seq_get seq (waiters s)); [|by injection Hc as <- <-].
    destruct Hinv as [Hb Hw Hk Hn Hh]. simpl in *.
    eapply grant_chain_inv; [| | | |exact Hc]; [done| | |].
    + rewrite Forall_forall in *. intros x [_ Hx]%list_elem_of_filter. auto.
    + by apply StronglySorted_filter.
    + rewrite Forall_fmap in *. rewrite Forall_forall in *. intros x [_ Hx]%list_elem_of_filter. auto.
Qed.

Lemma reachable_inv s : reachable capacities s -> inv caps s.
Proof.
  unfold reachable. intros H. remember (init capacities) as s0 eqn:E.
  assert (H0 : inv caps s0) by (subst; apply init_inv). clear E.
  induction H; eauto using step_inv.
Qed.

(** A waiting head means some live grant holds of a bounded pool. *)
Lemma waiting_held s : inv caps s -> waiters (st s) <> [] ->
  exists i c, caps !! i = Some (Bounded c) /\ 0 < total_at (live s) i.
Proof.
  intros [Hb Hw _ _ Hh] Hne. destruct (waiters (st s)) as [|kw ws]; [done|].
  apply Forall_cons in Hw as [Hkw _]. cbn [head_blocked] in Hh.
  destruct (decide (Exists (fun '(i, _) => is_bounded (caps !! i) = true /\ 0 < total_at (live s) i)
    (need_of kw))) as [He|He].
  - apply Exists_exists in He as ([i n] & _ & Hi & Ht). exists i.
    destruct (caps !! i) as [[c|]|]; [by exists c|done..].
  - assert (fits caps (held (st s)) (need_of kw) = true); [|congruence].
    apply not_Exists_Forall in He; [|intros [??]; apply _].
    unfold fits. apply Forall_forallb. destruct Hb as [Hl Hb]. rewrite Forall_forall in *.
    intros [i n] Hin. pose proof (need_range _ _ Hkw) as Hr. rewrite Forall_forall in Hr.
    destruct (Hr _ Hin) as (_ & l & Hi & Hn). specialize (He _ Hin). rewrite Hi.
    destruct l as [c|].
    + destruct (Hb i c Hi) as [-> _]. unfold saturating_sub. apply N.leb_le.
      assert (total_at (live s) i = 0); [|lia]. simpl in He.
      destruct (decide (0 < total_at (live s) i)); [|lia]. exfalso. apply He. change (is_bounded (caps !! i) = true /\ 0 < total_at (live s) i). by rewrite Hi.
    + destruct (held (st s) !! i) eqn:E; [done|]. apply lookup_ge_None in E.
      apply lookup_lt_Some in Hi. lia.
Qed.
End invariant.

(** ** What a request is granted *)

Section resolved.
Context (capacities : list (str * Limit)).
Abbreviation lane := (lane_new capacities).
Abbreviation caps := (capacity lane).

Lemma concat_amount req es pool i l :
  index lane pool = Some i -> caps !! i = Some l -> NoDup req.*1 ->
  Forall2 (fun pa e => entry_of capacities pa.1 pa.2 e) req es ->
  amount_at (concat es) i = match bt_get pool req with Some a => granted_amount l a | None => 0 end.
Proof.
  intros Hi Hl Hnd H2. induction H2 as [|[p a] e req es He H2 IH]; [done|].
  rewrite fmap_cons in Hnd. apply NoDup_cons in Hnd as [Hp Hnd]. specialize (IH Hnd).
  cbn [concat bt_get fst snd] in *. rewrite amount_at_app, IH.
  destruct He as (j & l' & Hj & Hl' & _ & ->). case_decide as E.
  - subst p. rewrite Hi in Hj. injection Hj as <-. rewrite Hl in Hl'. injection Hl' as <-.
    assert (bt_get pool req = None) as ->.
    { destruct (bt_get pool req) eqn:Eg; [|done]. exfalso. apply Hp.
      apply bt_get_elem in Eg. apply list_elem_of_fmap. by exists (pool, n). }
    destruct (N.eqb_spec a 0) as [->|]; simpl; [|rewrite decide_True by done; lia].
    unfold granted_amount. destruct l; lia.
  - assert (j <> i).
    { intros ->. apply find_index_Some in Hi, Hj. congruence. }
    destruct (a =? 0); simpl; [done|]. by rewrite decide_False.
Qed.

Lemma effective_get request pool :
  match bt_get pool (effective_request request) with Some a => a | None => 0 end =
  demand_amount request pool.
Proof.
  unfold effective_request, demand_amount, demand_declared.
  assert (Happ : forall (a b : list (str * N)),
    bt_get pool (a ++ b) = match bt_get pool a with Some x => Some x | None => bt_get pool b end).
  { intros a b. induction a as [|[k v] a IH]; simpl; [done|]. by case_decide. }
  rewrite Happ. destruct (bt_get pool request) eqn:E; [done|].
  destruct (bt_get CPU request) eqn:Ec.
  - simpl. by rewrite decide_False by congruence.
  - simpl. by case_decide.
Qed.

Lemma resolve_amount request nd cl pool i l : bt_sorted request ->
  resolve lane request = Ok (nd, cl) -> index lane pool = Some i -> caps !! i = Some l ->
  amount_at nd i = granted_amount l (demand_amount request pool).
Proof.
  intros Hs (es & H2 & ->)%resolve_ok Hi Hl.
  rewrite (concat_amount (effective_request request) es pool i l); [|done..| |done].
  - rewrite <-effective_get. destruct (bt_get pool (effective_request request)); [done|].
    destruct l; simpl; lia.
  - by apply effective_NoDup.
Qed.

(** A pool a request may name: it exists and its capacity is not 0. *)
Definition admissible (pool : str) : Prop :=
  exists i l, index lane pool = Some i /\ caps !! i = Some l /\ ~ refused l.

Lemma grant_total idx amount acc :
  is_ok (grant lane idx amount acc) = true <-> exists i l, idx = Some i /\ caps !! i = Some l /\ ~ refused l.
Proof.
  destruct acc as [nd cl]. pose proof (grant_ok capacities idx amount nd cl) as H.
  destruct (grant lane idx amount (nd, cl)) as [[nd' cl']|e]; simpl.
  - specialize (H nd' cl') as [H _]. destruct (H eq_refl) as (i & l & ? & ? & ? & _). naive_solver.
  - split; [done|]. intros (i & l & H1 & H2 & H3).
    pose proof (proj2 (H _ _) (ex_intro _ i (ex_intro _ l
      (conj H1 (conj H2 (conj H3 (conj eq_refl eq_refl))))))). done.
Qed.

Lemma resolve_pools_total request acc :
  is_ok (resolve_pools lane request acc) = true <-> Forall (fun pa => admissible pa.1) request.
Proof.
  revert acc; induction request as [|[p a] request IH]; intros acc; cbn [resolve_pools]; [done|].
  rewrite Forall_cons. pose proof (grant_total (index lane p) a acc) as Hg.
  destruct (grant lane (index lane p) a acc) as [acc'|e]; cbn [map_err mbind result_bind is_ok] in *.
  - rewrite IH. unfold admissible at 2. simpl fst. naive_solver.
  - split; [done|]. intros [H _]. by apply Hg in H.
Qed.

Lemma resolve_total request :
  is_ok (resolve lane request) = true <-> Forall (fun pa => admissible pa.1) (effective_request request).
Proof.
  unfold resolve, effective_request. rewrite Forall_app, <-(resolve_pools_total request ([], false)).
  destruct (resolve_pools lane request ([], false)) as [acc|e]; cbn [mbind result_bind is_ok]; [|naive_solver].
  destruct (demand_declared request CPU); [naive_solver|].
  rewrite Forall_singleton. simpl fst.
  pose proof (grant_total (cpu_idx lane) DEFAULT_CPU_MICROS acc) as Hg.
  change (cpu_idx lane) with (index lane CPU) in *. unfold admissible. rewrite <-Hg.
  destruct (grant _ _ _ _); naive_solver.
Qed.
End resolved.

(** ** Draining *)

(** Some live reservation is dropped. *)
Definition drops (lane : Lane) (s s' : Sys) : Prop :=
  exists alive s0 l1 g l2 s1 sent, s = mkSys s0 (l1 ++ g :: l2) /\
    release lane alive s0 g = (s1, sent) /\ s' = mkSys s1 (sent_needs sent ++ l1 ++ l2).

Definition outstanding (s : Sys) : nat := length (waiters (st s)) + length (live s).

Lemma drops_step lane s s' : drops lane s s' -> step lane s s'.
Proof. intros (alive & s0 & l1 & g & l2 & s1 & sent & -> & H & ->). by eapply step_drop. Qed.

Lemma grant_loop_length lane alive h ws h' ws' sent :
  grant_loop lane alive h ws = (h', ws', sent) -> (length sent + length ws' <= length ws)%nat.
Proof.
  revert h h' ws' sent; induction ws as [|[k w] ws IH]; intros h h' ws' sent; simpl.
  { intros [= <- <- <-]. simpl. lia. }
  destruct (negb _); [intros [= <- <- <-]; simpl; lia|].
  destruct (alive k).
  - destruct (grant_loop lane alive (take h (need w)) ws) as [[h1 ws1] sent1] eqn:E.
    intros [= <- <- <-]. apply IH in E. simpl. lia.
  - intros E%IH. lia.
Qed.

Lemma drops_decrease lane s s' : drops lane s s' -> (outstanding s' < outstanding s)%nat.
Proof.
  intros (alive & s0 & l1 & g & l2 & s1 & sent & -> & H & ->).
  unfold outstanding. simpl. rewrite !length_app. simpl. unfold sent_needs. rewrite length_fmap.
  assert (length sent + length (waiters s1) <= length (waiters s0))%nat; [|lia].
  unfold release in H. destruct g; [injection H as <- <-; simpl; lia|].
  unfold grant_chain in H. simpl in H.
  destruct (grant_loop _ _ _ _) as [[h ws] sn] eqn:E. injection H as <- <-. simpl.
  by eapply grant_loop_length.
Qed.

Lemma drops_possible lane s : live s <> [] -> exists s', drops lane s s'.
Proof.
  destruct s as [s0 [|g lv]]; [done|]. intros _.
  destruct (release lane (fun _ => true) s0 g) as [s1 sent] eqn:E.
  eexists. exists (fun _ => true), s0, [], g, lv, s1, sent. by split_and!.
Qed.

(** ** Reports *)

Lemma unmet_nonempty lane h g : length (names lane) = length (capacity lane) ->
  length h = length (capacity lane) -> need_ok (capacity lane) g ->
  fits (capacity lane) h g = false -> needs lane h g true <> [].
Proof.
  intros Hn Hh [_ Hr] Hf E. assert (fits (capacity lane) h g = true); [|congruence].
  clear Hf. apply Forall_forallb. induction Hr as [|[i n] g (_ & l & Hi & _) Hr IH]; [done|].
  unfold needs in E. cbn [omap list_omap] in E.
  destruct (pool_need lane h true (i, n)) eqn:En; [done|]. constructor; [|by apply IH].
  assert (Hlt : (i < length (capacity lane))%nat) by (by eapply lookup_lt_Some).
  destruct (lookup_lt_is_Some_2 h i) as [x Hx]; [lia|].
  destruct (lookup_lt_is_Some_2 (names lane) i) as [p Hp]; [lia|].
  unfold pool_need, free_of in En. rewrite Hi, Hx in *. simpl in En.
  destruct l as [c|]; [|done]. simpl in En.
  destruct (n <=? saturating_sub c x); [done|]. by rewrite Hp in En.
Qed.

(** ** Properties *)

Section properties.
Context (capacities : list (str * Limit)).
Hypothesis Hwf : capacities_wf capacities.
Abbreviation lane := (lane_new capacities).
Abbreviation caps := (capacity lane).

(** C1: the pool is never oversubscribed. In every state any interleaving of
    requests, drops and cancellations reaches, what a bounded pool counts as
    held is exactly what the live reservations hold of it, that is within its
    capacity, and [available] is the rest. *)
Theorem pool_never_oversubscribed s pool i c :
  reachable capacities s -> index lane pool = Some i -> caps !! i = Some (Bounded c) ->
  held (st s) !! i = Some (total_at (live s) i) /\ total_at (live s) i <= c /\
  available lane (st s) pool = Some (c - total_at (live s) i).
Proof.
  intros Hr%reachable_inv Hi Hc; [|done]. destruct (inv_balanced _ _ Hr) as [_ Hb].
  destruct (Hb i c Hc) as [Hh Hle]. split_and!; [done..|].
  unfold available. rewrite Hi. cbn [mbind option_bind]. rewrite Hc. cbn [mbind option_bind bounded].
  by rewrite Hh.
Qed.

(** No wakeup is lost. Whenever somebody waits, the head of the queue really
    does not fit, some live reservation holds part of a bounded pool (so its
    drop will run the chain), and the snapshot names a pool the head waits for. *)
Theorem pool_no_lost_wakeup s :
  reachable capacities s -> waiters (st s) <> [] ->
  head_blocked caps (held (st s)) (waiters (st s)) /\
  (exists i c, caps !! i = Some (Bounded c) /\ 0 < total_at (live s) i) /\
  exists unmet, ls_head (snapshot lane (st s)) = Some unmet /\ unmet <> [].
Proof.
  intros Hr%reachable_inv Hne; [|done]. split_and!; [apply Hr|by apply waiting_held|].
  destruct Hr as [[Hl _] Hw _ _ Hh]. unfold snapshot. cbn [ls_head].
  destruct (waiters (st s)) as [|kw ws]; [done|]. eexists. split; [reflexivity|].
  apply Forall_cons in Hw as [Hkw _]. apply unmet_nonempty; [|done..].
  simpl. by rewrite !length_fmap.
Qed.

(** Admission is first come, first served. While somebody waits, a request
    that names a bounded pool goes to the end of the queue and nothing is
    granted; a drop and a cancellation serve a prefix of the queue, in order,
    and the grants sent are those whose receiver still exists. *)
Theorem pool_fifo s alive :
  reachable capacities s -> next_seq (st s) < u64_max ->
  (forall nd cl, waiters (st s) <> [] ->
     enqueue lane alive (st s) nd cl =
       (Waiting (next_seq (st s)),
        mkState (held (st s)) (waiters (st s) ++ [(next_seq (st s), mkWaiter nd cl)]) (next_seq (st s) + 1),
        [])) /\
  (forall g l1 l2 s' sent, live s = l1 ++ g :: l2 -> release lane alive (st s) g = (s', sent) ->
     exists served, waiters (st s) = served ++ waiters s' /\
       sent = filter (fun kw => alive kw.1 = true) served) /\
  (forall seq s' sent, cancel lane alive (st s) seq = (s', sent) ->
     exists served, seq_remove seq (waiters (st s)) = served ++ waiters s' /\
       sent = filter (fun kw => alive kw.1 = true) served).
Proof.
  intros Hr%reachable_inv Hseq; [|done]. pose proof (caps_u64 _ Hwf) as Hu. split_and!.
  - intros nd cl Hne. unfold enqueue. rewrite bool_decide_false by done. cbn [andb].
    rewrite seq_insert_last by apply Hr. unfold wrapping_add. rewrite N.mod_small by lia.
    rewrite grant_chain_blocked; [done|]. destruct Hr as [_ _ _ _ Hh]. simpl.
    by destruct (waiters (st s)).
  - intros g l1 l2 s' sent El H. destruct Hr as [Hb Hw Hk Hn Hh]. rewrite El in Hb.
    unfold release in H. destruct g as [|e g].
    + injection H as <- <-. by exists [].
    + apply balanced_give in Hb.
      apply (grant_chain_spec lane alive Hu _ (l1 ++ l2)) in H as (_ & _ & _ & H); done.
  - intros seq s' sent H. destruct Hr as [Hb Hw Hk Hn Hh]. unfold cancel in H.
    destruct (seq_get seq (waiters (st s))) eqn:E.
    + apply (grant_chain_spec lane alive Hu _ (live s)) in H as (_ & _ & _ & H); [done|done|].
      rewrite Forall_forall in *. intros x [_ Hx]%list_elem_of_filter. auto.
    + injection H as <- <-. exists []. split; [|done]. by apply seq_remove_absent.
Qed.

(** The queue drains. Every drop of a reservation strictly lowers the number
    of waiting and running requests together, so any schedule of drops ends,
    and it can only end with nothing held and nobody waiting. *)
Theorem pool_drains s : reachable capacities s ->
  (forall s', drops lane s s' -> (outstanding s' < outstanding s)%nat /\ reachable capacities s') /\
  ((forall s', ~ drops lane s s') -> live s = [] /\ waiters (st s) = []).
Proof.
  intros Hr. split.
  - intros s' Hd. split; [by eapply drops_decrease|]. eapply rtc_r; [exact Hr|]. by apply drops_step.
  - intros Hn. assert (El : live s = []).
    { destruct (decide (live s = [])) as [|Hne]; [done|].
      destruct (drops_possible lane s Hne) as [s' Hd]. by destruct (Hn s'). }
    split; [done|]. destruct (decide (waiters (st s) = [])) as [|Hne]; [done|].
    apply reachable_inv in Hr; [|done]. destruct (waiting_held capacities s Hr Hne) as (i & c & _ & Ht).
    rewrite El in Ht. simpl in Ht. lia.
Qed.

(** A request is admitted for exactly what it asks. It resolves if and only
    if every pool it names, the implicit [cpu] included, exists with a capacity
    other than 0; it then reserves of each pool the amount it declared (one CPU
    if it declared no [cpu]), clamped to a bounded capacity. *)
Theorem resolve_exact request : pools_wf request ->
  (is_ok (resolve lane request) = true <->
     Forall (fun pa => admissible capacities pa.1) (effective_request request)) /\
  forall nd cl, resolve lane request = Ok (nd, cl) ->
    need_ok caps nd /\
    forall pool i l, index lane pool = Some i -> caps !! i = Some l ->
      amount_at nd i = granted_amount l (demand_amount request pool).
Proof.
  intros Hp. split; [apply resolve_total|]. intros nd cl H. split.
  - eapply resolve_need_ok; [apply Hp|exact H].
  - intros pool i l Hi Hl. eapply resolve_amount; [apply Hp|exact H|done|done].
Qed.
End properties.

(** ** Witnesses *)

(** Two CPUs; a first target takes both, a second asks for one and waits. *)
Definition sample_caps : list (str * Limit) := [(CPU, Bounded 2000000); (MEMORY, Unbounded)].
Definition sample_all (_ : N) : bool := true.
Definition sample_first : State := mkState [2000000; 0] [] 0.
Definition sample_busy : Sys :=
  mkSys (mkState [2000000; 0] [(0, mkWaiter [(0%nat, 1000000)] false)] 1) [[(0%nat, 2000000)]].

Lemma sample_caps_wf : capacities_wf sample_caps.
Proof.
  split; [by repeat constructor|]. repeat constructor. unfold is_u64, u64_max. simpl. lia.
Qed.

Lemma sample_demand_wf (n : N) : pools_wf [(CPU, n)].
Proof. split; [by repeat constructor|unfold MAX_POOLS; simpl; lia|by repeat constructor]. Qed.

Lemma sample_reachable : reachable sample_caps sample_busy.
Proof.
  apply (rtc_l _ _ (mkSys sample_first [[(0%nat, 2000000)]])).
  - apply (step_acquire _ sample_all [(CPU, 5000000)] _ _ (Ready [(0%nat, 2000000)] true) _ []).
    + apply sample_demand_wf.
    + done.
    + vm_compute. reflexivity.
  - apply rtc_once. apply (step_acquire _ sample_all [(CPU, 1000000)] _ _ (Waiting 0) _ []).
    + apply sample_demand_wf.
    + done.
    + vm_compute. reflexivity.
Qed.

Lemma pool_never_oversubscribed_witness :
  total_at (live sample_busy) 0 <= 2000000 /\
  available (lane_new sample_caps) (st sample_busy) CPU = Some (2000000 - total_at (live sample_busy) 0).
Proof.
  refine (proj2 (pool_never_oversubscribed sample_caps sample_caps_wf sample_busy CPU 0 2000000
    sample_reachable _ _)); reflexivity.
Defined.

Lemma pool_no_lost_wakeup_witness :
  exists unmet, ls_head (snapshot (lane_new sample_caps) (st sample_busy)) = Some unmet /\ unmet <> [].
Proof.
  refine (proj2 (proj2 (pool_no_lost_wakeup sample_caps sample_caps_wf sample_busy sample_reachable _))).
  discriminate.
Defined.

Lemma pool_fifo_witness :
  exists served, waiters (st sample_busy) =
      served ++ waiters (release (lane_new sample_caps) sample_all (st sample_busy) [(0%nat, 2000000)]).1 /\
    (release (lane_new sample_caps) sample_all (st sample_busy) [(0%nat, 2000000)]).2 =
      filter (fun kw => sample_all kw.1 = true) served.
Proof.
  refine (proj1 (proj2 (pool_fifo sample_caps sample_caps_wf sample_busy sample_all sample_reachable _))
    [(0%nat, 2000000)] [] [] _ _ _ _); reflexivity.
Defined.

(** The first reservation is dropped and the queued request takes its place. *)
Definition sample_drained : Sys :=
  mkSys (release (lane_new sample_caps) sample_all (st sample_busy) [(0%nat, 2000000)]).1 [[(0%nat, 1000000)]].

Lemma pool_drains_witness :
  (outstanding sample_drained < outstanding sample_busy)%nat /\ reachable sample_caps sample_drained.
Proof.
  apply (proj1 (pool_drains sample_caps sample_caps_wf sample_busy sample_reachable)).
  exists sample_all, (st sample_busy), [], [(0%nat, 2000000)], [], (st sample_drained).
  eexists. split_and!; vm_compute; reflexivity.
Defined.

Lemma resolve_exact_witness :
  resolve (lane_new sample_caps) [(CPU, 5000000)] = Ok ([(0%nat, 2000000)], true) /\
  amount_at [(0%nat, 2000000)] 0 = granted_amount (Bounded 2000000) (demand_amount [(CPU, 5000000)] CPU).
Proof.
  split; [vm_compute; reflexivity|].
  refine (proj2 (proj2 (resolve_exact sample_caps [(CPU, 5000000)] (sample_demand_wf _)) _ true _) CPU 0%nat _ _ _);
    vm_compute; reflexivity.
Defined.
