(* ===== verification/EnginePools.v ===== *)
(** Capacities from the configuration: [resolve_capacities] and [EnginePools]
    of [crates/engine/src/engine/resource_pool.rs].

    The configured pools are a [BTreeMap] from name to [PoolSpec]. The host's
    memory is read by a closure only when needed; here it is the value it would
    return, 0 for "could not read". [strsim::levenshtein] is a parameter. The
    pool built on first use is the lane of [resolve_capacities]'s answer. *)
From S2P Require Import Prelude Numerals HtPkg Capacity Resources ResourcePool.
Local Open Scope N_scope.

Definition resolve_cpu (specs : list (str * PoolSpec)) (parallelism : N) : N :=
  let cpu_default := saturating_mul parallelism MICROS_PER_CPU in
  match bt_get CPU specs ≫= spec_capacity with
  | Some c => capacity_resolve c Cpu cpu_default
  | None => cpu_default
  end.

Definition resolve_memory (specs : list (str * PoolSpec)) (host : N) : Limit :=
  match bt_get MEMORY specs ≫= spec_capacity with
  | Some (Amount n) => Bounded (capacity_resolve (Amount n) Bytes 0)
  | Some c => if host =? 0 then Unbounded else Bounded (capacity_resolve c Bytes host)
  | None => if host =? 0 then Unbounded else Bounded host
  end.

Definition custom_limit (s : PoolSpec) : Limit :=
  match spec_capacity s with
  | None => Unbounded
  | Some c => Bounded (capacity_resolve c (spec_unit s) 0)
  end.

Definition resolve_capacities (specs : list (str * PoolSpec)) (parallelism host : N)
    : list (str * Limit) :=
  [(CPU, Bounded (resolve_cpu specs parallelism)); (MEMORY, resolve_memory specs host)]
  ++ ((fun ps => (ps.1, custom_limit ps.2)) <$> filter (fun ps => ps.1 <> CPU /\ ps.1 <> MEMORY) specs).

(** [ResourcePool::new]: collected into a [BTreeMap], the last capacity wins. *)
Definition pool_capacities (specs : list (str * PoolSpec)) (parallelism host : N) : list (str * Limit) :=
  bt_collect (resolve_capacities specs parallelism host).

Record EnginePools := mkEnginePools { specs : list (str * PoolSpec); parallelism : N; ep_cpu : N }.

(** The [cpu] capacity is looked up in the resolved list, without the host. *)
Definition engine_pools_new (specs : list (str * PoolSpec)) (parallelism : N) : EnginePools :=
  mkEnginePools specs parallelism
    (default 0 ((list_find (fun pc => pc.1 = CPU) (resolve_capacities specs parallelism 0))
                ≫= fun ipc => bounded ipc.2.2)).

Definition ep_unit (self : EnginePools) (name : str) : option Unit :=
  match spec_unit <$> bt_get name (specs self) with
  | Some u => Some u
  | None => of_builtin name
  end.

Definition is_pool (self : EnginePools) (name : str) : bool :=
  match ep_unit self name with Some _ => true | None => false end.

Definition ep_names (self : EnginePools) : list str :=
  sort (filter (fun n => contains_key n (specs self) = false) [CPU; MEMORY] ++ (specs self).*1).

Section hints.
Context (levenshtein : str -> str -> N).

(** [min_by_key]: the first of the smallest. *)
Fixpoint min_by_key (l : list (N * str)) : option (N * str) :=
  match l with
  | [] => None
  | (d, p) :: r =>
      match min_by_key r with
      | Some (d', p') => if d' <? d then Some (d', p') else Some (d, p)
      | None => Some (d, p)
      end
  end.

Definition closest (self : EnginePools) (name : str) : option str :=
  snd <$> min_by_key
    (filter (fun dp => dp.1 <= 2 /\ dp.1 < str_len name)
      ((fun p => (levenshtein name p, p)) <$> ep_names self)).

Definition unknown_hint (self : EnginePools) (name declare : str) : str :=
  let near := match closest self name with
              | Some p => $" (did you mean " ++ p ++ $"?)"
              | None => []
              end in
  name ++ $" is not a pool" ++ near ++ $": add resources: {" ++ name ++ $": " ++ declare
    ++ $"} to .hephconfig, or --resource " ++ name ++ $"=<n> for one run (known: "
    ++ join $", " (ep_names self) ++ $")".
End hints.

(** ** Lemmas *)

Lemma bt_collect_keys {V} (l : list (str * V)) k : k ∈ (bt_collect l).*1 <-> k ∈ l.*1.
Proof.
  assert (Hins : forall k0 (v : V) m, k ∈ (bt_insert k0 v m).*1 <-> k = k0 \/ k ∈ m.*1).
  { intros k0 v m. induction m as [|[k1 v1] m IH]; simpl.
    - by rewrite list_elem_of_singleton, elem_of_nil; intuition.
    - destruct (str_compare k0 k1) eqn:E; simpl; rewrite ?elem_of_cons, ?IH; try by intuition.
      apply str_compare_eq in E as ->. intuition. }
  unfold bt_collect. assert (Hgen : forall acc,
    k ∈ (foldl (fun m '(k, v) => bt_insert k v m) acc l).*1 <-> k ∈ acc.*1 \/ k ∈ l.*1).
  { induction l as [|[k1 v1] l IH]; intros acc; simpl.
    - rewrite elem_of_nil. intuition.
    - rewrite IH, Hins, elem_of_cons. intuition. }
  rewrite Hgen. simpl. rewrite elem_of_nil. intuition.
Qed.

Lemma resolve_keys sp par host k :
  k ∈ (resolve_capacities sp par host).*1 <-> k = CPU \/ k = MEMORY \/ k ∈ sp.*1.
Proof.
  unfold resolve_capacities. rewrite fmap_app, elem_of_app. simpl.
  rewrite !elem_of_cons, elem_of_nil, <-list_fmap_compose, !list_elem_of_fmap. split.
  - intros [[?|[?|[]]]|([p s] & -> & [_ Hin]%list_elem_of_filter)]; [by left|by right; left|].
    right. right. by exists (p, s).
  - intros [-> | [-> | ([p s] & -> & Hin)]]; [left; by left|left; right; by left|].
    simpl. destruct (decide (p = CPU)); [left; by left|].
    destruct (decide (p = MEMORY)); [left; right; by left|].
    right. exists (p, s). split; [done|]. by apply list_elem_of_filter.
Qed.

Lemma bt_get_key {V} k (m : list (str * V)) : is_Some (bt_get k m) <-> k ∈ m.*1.
Proof.
  split.
  - intros [v H%bt_get_elem]. apply list_elem_of_fmap. by exists (k, v).
  - intros H. destruct (bt_get k m) eqn:E; [done|]. by apply bt_get_None in E.
Qed.

Lemma is_pool_iff sp par name :
  is_pool (engine_pools_new sp par) name = true <-> name = CPU \/ name = MEMORY \/ name ∈ sp.*1.
Proof.
  unfold is_pool, ep_unit, of_builtin. simpl. rewrite <-(bt_get_key name sp).
  destruct (bt_get name sp) eqn:E; simpl.
  - split; [intros _; right; right; by eexists|done].
  - repeat case_decide; subst; naive_solver.
Qed.

Lemma index_iff capacities name :
  is_Some (index (lane_new capacities) name) <-> name ∈ capacities.*1.
Proof.
  unfold index. simpl. split.
  - intros [i H%find_index_Some]. by eapply list_elem_of_lookup_2.
  - apply find_index_elem.
Qed.

(** ** Properties *)

(** The configuration and the pool agree on what a pool is. A name is a pool
    to the configuration exactly when it is listed among the known names and
    exactly when the pool built from it can find it, whatever the host's memory. *)
Theorem engine_pools_agree sp par host name :
  (is_pool (engine_pools_new sp par) name = true <-> name ∈ ep_names (engine_pools_new sp par)) /\
  (is_pool (engine_pools_new sp par) name = true <->
     is_Some (index (lane_new (pool_capacities sp par host)) name)).
Proof.
  rewrite is_pool_iff. split.
  - unfold ep_names. rewrite sort_elem, elem_of_app, list_elem_of_filter, !elem_of_cons, elem_of_nil.
    simpl specs. unfold contains_key. destruct (bt_get name sp) eqn:E.
    + assert (name ∈ sp.*1) by (apply bt_get_key; by eexists). intuition.
    + apply bt_get_None in E. intuition.
  - unfold pool_capacities. by rewrite index_iff, bt_collect_keys, resolve_keys.
Qed.

(** Linking is enough for admission. A reservation whose amounts were parsed
    with the configured units is never refused as naming an unknown pool. *)
Theorem linked_demand_known sp par host r d alive s p :
  pools_wf r -> resources_parse r (ep_unit (engine_pools_new sp par)) = Ok d ->
  acquire (lane_new (pool_capacities sp par host)) alive s d <> Err (UnknownPool p).
Proof.
  intros Hr Hd. pose proof (resources_parse_spec _ _ _ (wf_sorted _ Hr) Hd) as H2.
  set (lane := lane_new (pool_capacities sp par host)).
  assert (Hknown : forall n, is_pool (engine_pools_new sp par) n = true -> is_Some (index lane n)).
  { intros n Hn. apply index_iff. unfold pool_capacities.
    by rewrite bt_collect_keys, resolve_keys, <-is_pool_iff. }
  assert (Hgrant : forall n a acc, is_Some (index lane n) ->
    map_err (fun e => naming e n) (grant lane (index lane n) a acc) <> Err (UnknownPool p)).
  { intros n a [nd cl] [i ->]. unfold grant. simpl ok_or. cbn [mbind result_bind].
    destruct (capacity lane !! i) as [[c|]|]; [destruct (c =? 0)| |]; cbn [mbind result_bind];
      try done; by destruct (a =? 0). }
  assert (Hloop : forall acc, resolve_pools lane d acc <> Err (UnknownPool p)).
  { clear -H2 Hknown Hgrant. induction H2 as [|kv [n a] r d (E & u & Hu & _) _ IH]; intros acc; [done|].
    cbn [resolve_pools]. simpl in E. rewrite E in Hu.
    assert (Hi : is_Some (index lane n)) by (apply Hknown; unfold is_pool; by rewrite Hu).
    specialize (Hgrant n a acc Hi). destruct (map_err _ _) as [acc'|e]; cbn [mbind result_bind]; [apply IH|].
    intros [= ->]. by apply Hgrant. }
  unfold acquire, resolve. specialize (Hloop ([], false)).
  destruct (resolve_pools lane d ([], false)) as [acc|e]; cbn [mbind result_bind];
    [|intros [= ->]; by apply Hloop].
  assert (Hcpu : is_Some (index lane CPU)) by (apply Hknown, is_pool_iff; by left).
  destruct (demand_declared d CPU); cbn [mbind result_bind].
  - destruct acc as [nd cl]. by destruct (existsb _ _).
  - specialize (Hgrant CPU DEFAULT_CPU_MICROS acc Hcpu). change (cpu_idx lane) with (index lane CPU).
    destruct (map_err _ _) as [[nd cl]|e]; cbn [mbind result_bind]; [by destruct (existsb _ _)|].
    intros [= ->]. by apply Hgrant.
Qed.

(** ** Witnesses *)

Definition sample_specs : list (str * PoolSpec) :=
  [($"gpu", mkPoolSpec Count (Some (Amount 2))); ($"memory", mkPoolSpec Bytes (Some (Percent 50)))].

Lemma linked_demand_known_witness :
  resources_parse sample_resources (ep_unit (engine_pools_new sample_specs 8)) =
    Ok [($"cpu", 500000); ($"memory", 4294967296)] /\
  acquire (lane_new (pool_capacities sample_specs 8 0)) sample_all
    (state_new (pool_capacities sample_specs 8 0)) [($"cpu", 500000); ($"memory", 4294967296)]
    <> Err (UnknownPool $"memory").
Proof.
  split; [vm_compute; reflexivity|].
  apply (linked_demand_known sample_specs 8 0 sample_resources); [|vm_compute; reflexivity].
  eapply resources_from_pairs_wf; [apply pools_wf_nil|].
  instantiate (1 := [($"memory", $"4G"); ($"cpu", $"0.5")]). reflexivity.
Defined.
