(* ===== verification/Template.v ===== *)
(** The [${…}] tokenizer: [crates/core/src/template.rs].

    The scanner keeps two byte offsets, the start of the pending literal and
    the position; here they are the pending literal and the rest of the input.
    It only compares bytes with [$], [{], [}] and [:], all ASCII, so scanning
    characters splits at the same places. A resolver is a function from a
    reference to its replacement or an error. *)
From S2P Require Import Prelude HtPkg Capacity.

Definition dollar : char := #"$".

Record Ref := mkRef { kind : option str; arg : str; raw : str }.

Inductive Piece :=
| Text (t : str)
| Escape
| PRef (r : Ref).

Inductive template_error :=
| Unterminated
| Nested (raw : str)
| TemplateFuel.

Definition READ_KIND : str := $"read".
Definition SRC_KIND : str := $"src".
Definition RESOURCE_KIND : str := $"resource".
Definition DEFERRED_KINDS : list str := [READ_KIND; SRC_KIND; RESOURCE_KIND].

(** ** Tokenizing *)

Definition push_text (out : list Piece) (t : str) : list Piece :=
  match t with [] => out | _ => out ++ [Text t] end.

(** [str::contains]. *)
Fixpoint contains_str (p s : str) : bool :=
  starts_with p s || match s with [] => false | _ :: r => contains_str p r end.

Definition make_ref (body : str) : Ref :=
  let raw := $"${" ++ body ++ $"}" in
  match split_once #":" body with
  | Some (k, a) => mkRef (Some k) a raw
  | None => mkRef None body raw
  end.

Fixpoint parse_loop (fuel : nat) (out : list Piece) (lit rest : str)
    : result template_error (list Piece) :=
  match rest with
  | [] => Ok (push_text out lit)
  | c :: r =>
      match fuel with
      | O => Err TemplateFuel
      | S fuel =>
          if negb (bool_decide (c = dollar)) then parse_loop fuel out (lit ++ [c]) r
          else
            match r with
            | c' :: r' =>
                if decide (c' = dollar) then
                  parse_loop fuel (push_text out lit ++ [Escape]) [] r'
                else if decide (c' = #"{") then
                  match split_once #"}" r' with
                  | None => Err Unterminated
                  | Some (body, after) =>
                      if contains_str $"${" body then Err (Nested ($"${" ++ body ++ $"}"))
                      else parse_loop fuel (push_text out lit ++ [PRef (make_ref body)]) [] after
                  end
                else parse_loop fuel out (lit ++ [c]) r
            | [] => parse_loop fuel out (lit ++ [c]) r
            end
      end
  end.

(** Every turn consumes a character. *)
Definition parse (s : str) : result template_error (list Piece) := parse_loop (length s) [] [] s.

(** [find('$')], then one or two characters. *)
Fixpoint has_ref_loop (fuel : nat) (s : str) : bool :=
  match fuel with
  | O => false
  | S fuel =>
      match split_once dollar s with
      | None => false
      | Some (_, r) =>
          match r with
          | c :: r' =>
              if decide (c = dollar) then has_ref_loop fuel r'
              else if decide (c = #"{") then true
              else has_ref_loop fuel r
          | [] => has_ref_loop fuel r
          end
      end
  end.
Definition has_ref (s : str) : bool := has_ref_loop (S (length s)) s.

(** ** Which references are heph's *)

Definition claims (kind : option str) (arg : str) (kinds : list str) : bool :=
  match kind with
  | Some k =>
      if bool_decide (k ∈ kinds) then
        if decide (k = RESOURCE_KIND) then is_pool_name arg else starts_with $"//" arg
      else false
  | None => false
  end.

Definition claimed (kinds : list str) (p : Piece) : option Ref :=
  match p with
  | PRef r => if claims (kind r) (arg r) kinds then Some r else None
  | _ => None
  end.

Fixpoint find_map {A B} (f : A -> option B) (l : list A) : option B :=
  match l with
  | [] => None
  | x :: r => match f x with Some y => Some y | None => find_map f r end
  end.

Definition first_ref_of (s : str) (kinds : list str) : option Ref :=
  if negb (has_ref s) then None
  else match parse s with
       | Ok pieces => find_map (claimed kinds) pieces
       | Err _ => None
       end.

Definition is_claimed (kinds : list str) (p : Piece) : bool :=
  match p with PRef r => claims (kind r) (arg r) kinds | Text _ | Escape => false end.

Definition has_deferred_ref (s : str) : bool :=
  if negb (has_ref s) then false
  else match parse s with
       | Ok pieces => existsb (is_claimed DEFERRED_KINDS) pieces
       | Err _ => false
       end.

Definition first_deferred_ref (s : str) : option Ref := first_ref_of s DEFERRED_KINDS.

(** ** Substitution *)

Section substitution.
Context {E : Type} (resolve : Ref -> result E str).

Inductive subst_error := BadTemplate (e : template_error) | Unresolved (e : E).

Fixpoint render_pieces (out : str) (pieces : list Piece) : result subst_error str :=
  match pieces with
  | [] => Ok out
  | Text t :: r => render_pieces (out ++ t) r
  | Escape :: r => render_pieces (out ++ [dollar]) r
  | PRef ref :: r =>
      v ← map_err Unresolved (resolve ref);
      render_pieces (out ++ v) r
  end.

(** The [std::ptr::eq] test: the piece is the whole input. *)
Definition render (s : str) : result subst_error str :=
  pieces ← map_err BadTemplate (parse s);
  match pieces with
  | [Text t] => if decide (t = s) then Ok s else render_pieces [] pieces
  | _ => render_pieces [] pieces
  end.

Fixpoint substitute_pieces (want : list str) (out : str) (pieces : list Piece)
    : result subst_error str :=
  match pieces with
  | [] => Ok out
  | Text t :: r => substitute_pieces want (out ++ t) r
  | Escape :: r => substitute_pieces want (out ++ $"$$") r
  | PRef ref :: r =>
      if claims (kind ref) (arg ref) want then
        v ← map_err Unresolved (resolve ref);
        substitute_pieces want (out ++ v) r
      else substitute_pieces want (out ++ raw ref) r
  end.

Definition substitute (s : str) (want : list str) : result subst_error str :=
  pieces ← map_err BadTemplate (parse s);
  if negb (existsb (is_claimed want) pieces) then Ok s
  else substitute_pieces want [] pieces.
End substitution.

(** ** The tokenizer loses nothing *)

(** The input text of a piece. *)
Definition piece_raw (p : Piece) : str :=
  match p with Text t => t | Escape => $"$$" | PRef r => raw r end.
Definition raws (ps : list Piece) : str := concat (piece_raw <$> ps).

Lemma raws_app a b : raws (a ++ b) = raws a ++ raws b.
Proof. unfold raws. by rewrite fmap_app, concat_app. Qed.

Lemma raws_push out t : raws (push_text out t) = raws out ++ t.
Proof.
  destruct t; [by rewrite app_nil_r|]. simpl. rewrite raws_app. f_equal.
  unfold raws. simpl. by rewrite app_nil_r.
Qed.

Lemma make_ref_raw body : raw (make_ref body) = $"${" ++ body ++ $"}".
Proof. unfold make_ref. by destruct (split_once _ _) as [[]|]. Qed.

(** A well-formed piece: text is not empty, a reference is made from its body. *)
Definition piece_ok (p : Piece) : Prop :=
  match p with
  | Text t => t <> []
  | Escape => True
  | PRef r => exists body, r = make_ref body /\ (#"}" ∉ body) /\ contains_str $"${" body = false
  end.

Lemma push_text_ok out t : Forall piece_ok out -> Forall piece_ok (push_text out t).
Proof. intros H. destruct t; [done|]. apply Forall_app. by repeat constructor. Qed.

Lemma parse_loop_ok fuel out lit rest ps :
  parse_loop fuel out lit rest = Ok ps -> Forall piece_ok out ->
  raws ps = raws out ++ lit ++ rest /\ Forall piece_ok ps.
Proof.
  revert out lit rest; induction fuel as [|fuel IH]; intros out lit rest.
  { destruct rest; [|done]. intros [= <-] Ho. rewrite raws_push, app_nil_r.
    split; [done|by apply push_text_ok]. }
  destruct rest as [|c r].
  { intros [= <-] Ho. rewrite raws_push, app_nil_r. split; [done|by apply push_text_ok]. }
  cbn [parse_loop]. case_bool_decide as Hc; cbn [negb].
  2: { intros H Ho. destruct (IH _ _ _ H Ho) as [-> ?]. split; [|done]. by rewrite <-!app_assoc. }
  destruct r as [|c' r'].
  { intros H Ho. destruct (IH _ _ _ H Ho) as [-> ?]. split; [|done]. by rewrite <-!app_assoc. }
  case_decide as H1; [|case_decide as H2]; subst.
  - intros H Ho. apply IH in H as [-> ?].
    + split; [|done]. rewrite raws_app, raws_push, <-!app_assoc. done.
    + apply Forall_app. split; [by apply push_text_ok|]. by repeat constructor.
  - destruct (split_once #"}" r') as [[body after]|] eqn:Es; [|done].
    apply split_once_Some in Es as [-> Hb].
    destruct (contains_str _ body) eqn:En; [done|]. intros H Ho. apply IH in H as [-> ?].
    + split; [|done]. rewrite raws_app, raws_push, <-!app_assoc. unfold raws at 2.
      cbn [fmap list_fmap concat piece_raw]. rewrite make_ref_raw, app_nil_r, <-!app_assoc. done.
    + apply Forall_app. split; [by apply push_text_ok|]. repeat constructor. by exists body.
  - intros H Ho. destruct (IH _ _ _ H Ho) as [-> ?]. split; [|done]. by rewrite <-!app_assoc.
Qed.

Lemma template_parse_ok s ps : parse s = Ok ps -> raws ps = s /\ Forall piece_ok ps.
Proof. intros H. apply parse_loop_ok in H; done. Qed.

(** ** The cheap test agrees with the tokenizer *)

Definition has_PRef (ps : list Piece) : bool :=
  existsb (fun p => match p with PRef _ => true | _ => false end) ps.

Lemma has_PRef_push out t : has_PRef (push_text out t) = has_PRef out.
Proof.
  unfold has_PRef. destruct t; [done|]. simpl. rewrite existsb_app. simpl. by rewrite orb_false_r.
Qed.

(** [has_ref] as a scan of one character at a time. *)
Fixpoint ref_scan (s : str) : bool :=
  match s with
  | c :: ((c' :: r') as r) =>
      if decide (c = dollar) then
        if decide (c' = dollar) then ref_scan r'
        else if decide (c' = #"{") then true
        else ref_scan r
      else ref_scan r
  | _ => false
  end.

Lemma ref_scan_dollar c r : ref_scan (dollar :: c :: r) =
  if decide (c = dollar) then ref_scan r else if decide (c = #"{") then true else ref_scan (c :: r).
Proof. done. Qed.

Lemma ref_scan_skip a s : dollar ∉ a -> ref_scan (a ++ s) = ref_scan s.
Proof.
  induction a as [|c a IH]; intros Ha; [done|]. cbn [app].
  assert (Hc : c <> dollar) by set_solver. rewrite <-IH by set_solver.
  destruct (a ++ s) as [|c' r]; [done|]. simpl. by rewrite decide_False.
Qed.

Lemma has_ref_loop_scan fuel s : length s < fuel -> has_ref_loop fuel s = ref_scan s.
Proof.
  revert s; induction fuel as [|fuel IH]; intros s Hl; [lia|]. cbn [has_ref_loop].
  destruct (split_once dollar s) as [[a r]|] eqn:E.
  - apply split_once_Some in E as [-> Ha]. rewrite ref_scan_skip by done.
    rewrite length_app in Hl. simpl in Hl. destruct r as [|c r']; [by rewrite IH by (simpl; lia)|].
    rewrite ref_scan_dollar. simpl in Hl.
    repeat case_decide; try done; apply IH; simpl; lia.
  - apply split_once_None in E. rewrite <-(app_nil_r s). by rewrite ref_scan_skip.
Qed.

Lemma parse_loop_ref fuel out lit rest : length rest <= fuel ->
  match parse_loop fuel out lit rest with
  | Ok ps => has_PRef ps = has_PRef out || ref_scan rest
  | Err e => ref_scan rest = true /\ e <> TemplateFuel
  end.
Proof.
  revert out lit rest; induction fuel as [|fuel IH]; intros out lit rest Hl.
  { destruct rest; [|simpl in Hl; lia]. simpl. by rewrite has_PRef_push, orb_false_r. }
  destruct rest as [|c r].
  { simpl. by rewrite has_PRef_push, orb_false_r. }
  cbn [parse_loop]. simpl in Hl. case_bool_decide as Hc; cbn [negb].
  2: { specialize (IH out (lit ++ [c]) r ltac:(lia)).
       assert (ref_scan (c :: r) = ref_scan r) as ->; [|done].
       destruct r; [done|]. simpl. by rewrite decide_False. }
  subst c. destruct r as [|c' r'].
  { specialize (IH out (lit ++ [dollar]) [] ltac:(simpl; lia)). done. }
  simpl in Hl. rewrite ref_scan_dollar.
  case_decide as H1; [|case_decide as H2].
  - specialize (IH (push_text out lit ++ [Escape]) [] r' ltac:(lia)).
    unfold has_PRef in IH at 2. rewrite existsb_app in IH. simpl in IH.
    rewrite orb_false_r in IH. fold (has_PRef (push_text out lit)) in IH. by rewrite has_PRef_push in IH.
  - destruct (split_once #"}" r') as [[body after]|] eqn:Es; [|done].
    apply split_once_Some in Es as [-> _]. destruct (contains_str _ body); [done|].
    rewrite length_app in Hl. simpl in Hl.
    specialize (IH (push_text out lit ++ [PRef (make_ref body)]) [] after ltac:(lia)).
    destruct (parse_loop _ _ _ _) as [ps|e]; [|by destruct IH].
    rewrite IH, orb_true_r. unfold has_PRef. rewrite existsb_app. simpl. by rewrite orb_true_r.
  - apply IH. simpl. lia.
Qed.

Lemma parse_ref s :
  match parse s with
  | Ok ps => has_PRef ps = has_ref s
  | Err e => has_ref s = true /\ e <> TemplateFuel
  end.
Proof.
  unfold has_ref. rewrite has_ref_loop_scan by lia.
  pose proof (parse_loop_ref (length s) [] [] s (le_n _)) as H. exact H.
Qed.

(** ** Substitution, piece by piece *)

Section substitution_lemmas.
Context {E : Type} (resolve : Ref -> result E str).

(** The output is the concatenation of each piece's own text or replacement. *)
Lemma substitute_pieces_spec want out ps r :
  substitute_pieces resolve want out ps = Ok r <->
  exists vs, r = out ++ concat vs /\
    Forall2 (fun p v => if is_claimed want p
                        then exists ref, p = PRef ref /\ resolve ref = Ok v
                        else v = piece_raw p) ps vs.
Proof.
  revert out; induction ps as [|p ps IH]; intros out.
  { simpl. split.
    - intros [= <-]. exists []. split; [by rewrite app_nil_r|constructor].
    - intros (vs & -> & H). inversion H. simpl. by rewrite app_nil_r. }
  assert (Hcons : forall v, (exists vs, r = (out ++ v) ++ concat vs /\ Forall2 (fun p v =>
      if is_claimed want p then exists ref, p = PRef ref /\ resolve ref = Ok v else v = piece_raw p) ps vs) <->
    exists vs, r = out ++ concat (v :: vs) /\ Forall2 (fun p v =>
      if is_claimed want p then exists ref, p = PRef ref /\ resolve ref = Ok v else v = piece_raw p) ps vs).
  { intros v. simpl. setoid_rewrite <-app_assoc. done. }
  assert (Hplain : is_claimed want p = false ->
    substitute_pieces resolve want out (p :: ps) = substitute_pieces resolve want (out ++ piece_raw p) ps).
  { destruct p as [t| |ref]; simpl; [done..|]. by intros ->. }
  destruct (is_claimed want p) eqn:Ec.
  - destruct p as [t| |ref]; [done..|]. simpl in *. rewrite Ec.
    destruct (resolve ref) as [v|e] eqn:Er; simpl.
    + rewrite IH, Hcons. split.
      * intros (vs & -> & H). exists (v :: vs). split; [done|]. constructor; [|done]. simpl. rewrite Ec. eauto.
      * intros (vs & -> & H). inversion H as [|? v' ? vs' Hv Hvs]; subst. simpl in Hv. rewrite Ec in Hv.
        destruct Hv as (ref' & [= <-] & Hr). assert (v' = v) as -> by congruence. by exists vs'.
    + split; [done|]. intros (vs & -> & H). inversion H as [|? v' ? vs' Hv Hvs]; subst.
      simpl in Hv. rewrite Ec in Hv. destruct Hv as (ref' & [= <-] & Hr). congruence.
  - rewrite Hplain by done. rewrite IH, Hcons. split.
    + intros (vs & -> & H). exists (piece_raw p :: vs). split; [done|]. constructor; [|done]. by rewrite Ec.
    + intros (vs & -> & H). inversion H as [|? v' ? vs' Hv Hvs]; subst. rewrite Ec in Hv. subst. by exists vs'.
Qed.

Lemma unclaimed_raws want ps : existsb (is_claimed want) ps = false ->
  Forall2 (fun p v => if is_claimed want p then exists ref, p = PRef ref /\ resolve ref = Ok v
                      else v = piece_raw p) ps (piece_raw <$> ps).
Proof.
  induction ps as [|p ps IH]; simpl; [constructor|]. intros [Hp Hps]%orb_false_iff.
  constructor; [by rewrite Hp|auto].
Qed.

(** The early return is what the loop would have computed. *)
Lemma substitute_spec s want r : substitute resolve s want = Ok r <->
  exists ps vs, parse s = Ok ps /\ r = concat vs /\
    Forall2 (fun p v => if is_claimed want p then exists ref, p = PRef ref /\ resolve ref = Ok v
                        else v = piece_raw p) ps vs.
Proof.
  unfold substitute. destruct (parse s) as [ps|e] eqn:Ep; simpl; [|naive_solver].
  destruct (existsb (is_claimed want) ps) eqn:Ec; simpl.
  - rewrite substitute_pieces_spec. naive_solver.
  - pose proof (unclaimed_raws want ps Ec) as Hu. destruct (template_parse_ok s ps Ep) as [Hraw _].
    assert (Hex : Ok s = Ok (E := @subst_error E) r <-> substitute_pieces resolve want [] ps = Ok r).
    { rewrite substitute_pieces_spec. split.
      - intros [= <-]. exists (piece_raw <$> ps). by rewrite <-Hraw at 1.
      - intros (vs & -> & H). f_equal. rewrite <-Hraw. unfold raws. simpl. f_equal.
        clear -H Ec. induction H as [|p v ps vs Hv H IH]; [done|].
        simpl in Ec. apply orb_false_iff in Ec as [Hp Hps]. rewrite Hp in Hv. rewrite fmap_cons.
        f_equal; auto. }
    rewrite Hex, substitute_pieces_spec. naive_solver.
Qed.
End substitution_lemmas.

(** ** Properties *)

(** Tokenizing is total and loses nothing. The pieces of a template, written
    back, are the template byte for byte; every reference was made from the
    text between its braces, with no nested opening. *)
Theorem template_parse_lossless s :
  parse s <> Err TemplateFuel /\
  forall ps, parse s = Ok ps -> raws ps = s /\ Forall piece_ok ps.
Proof.
  split; [|apply template_parse_ok]. pose proof (parse_ref s) as H. destruct (parse s); [done|].
  intros [= ->]. by destruct H.
Qed.

(** The allocation-free test is exact. [has_ref] answers no exactly when the
    template tokenizes and holds no reference. *)
Theorem has_ref_exact s :
  has_ref s = false <-> exists ps, parse s = Ok ps /\ has_PRef ps = false.
Proof.
  pose proof (parse_ref s) as H. destruct (parse s) as [ps|e].
  - rewrite <-H. naive_solver.
  - destruct H as [-> _]. naive_solver.
Qed.

(** Substitution replaces the claimed references and nothing else. Every
    other piece, the [$$] and the foreign references included, is reproduced as
    written; each claimed reference is resolved once, and what it resolves to is
    not scanned again. *)
Theorem substitute_only_claimed {E} (resolve : Ref -> result E str) s want r :
  substitute resolve s want = Ok r <->
  exists ps vs, parse s = Ok ps /\ r = concat vs /\
    Forall2 (fun p v => if is_claimed want p then exists ref, p = PRef ref /\ resolve ref = Ok v
                        else v = piece_raw p) ps vs.
Proof. apply substitute_spec. Qed.

(** The collector and the refuser agree. A field carries a reference heph
    owns exactly when there is a first one, and that one is claimed. *)
Theorem first_deferred_ref_agrees s :
  has_deferred_ref s = true <->
  exists r, first_deferred_ref s = Some r /\ claims (kind r) (arg r) DEFERRED_KINDS = true.
Proof.
  unfold has_deferred_ref, first_deferred_ref, first_ref_of. destruct (negb (has_ref s)); [naive_solver|].
  destruct (parse s) as [ps|e]; [|naive_solver]. induction ps as [|p ps IH]; simpl; [naive_solver|].
  destruct p as [t| |ref]; simpl; [exact IH..|].
  destruct (claims (kind ref) (arg ref) DEFERRED_KINDS) eqn:Ec; simpl; [naive_solver|exact IH].
Qed.

(** A reference of each flavour: an escape, a foreign one and an owned one. *)
Example template_sample :
  substitute (E := unit) (fun r => Ok (arg r)) $"a.$$ ${src:0:3} ${src://x:y}" DEFERRED_KINDS =
  Ok $"a.$$ ${src:0:3} //x:y".
Proof. vm_compute. reflexivity. Qed.

Definition sample_template : str := $"a.$$ ${src:0:3} ${src://x:y}".
Definition sample_pieces : list Piece := match parse sample_template with Ok ps => ps | Err _ => [] end.

Lemma template_parse_lossless_witness :
  length sample_pieces = 6 /\ raws sample_pieces = sample_template /\ Forall piece_ok sample_pieces.
Proof.
  split; [vm_compute; reflexivity|].
  apply (proj2 (template_parse_lossless sample_template)). vm_compute. reflexivity.
Defined.
