(* ===== verification/Duration.v ===== *)
(** Durations and versions as text: [parse_duration] and [human_duration] of
    [crates/core/src/units.rs], [fold_flavour_into_version] and [parse] of
    [crates/core/src/version.rs]. A [Duration] is its whole seconds, which is
    all these functions read or build. *)
From S2P Require Import Prelude Numerals HtPkg Capacity.
Local Open Scope N_scope.

(** ** Durations *)

Inductive duration_error :=
| EmptyDuration
| NotADuration
| UnknownDurationUnit (unit : str)
| DurationOverflows
| DurationFuel.

Definition duration_mult (unit : str) : option N :=
  if decide (unit = [] \/ unit = $"s" \/ unit = $"sec" \/ unit = $"secs") then Some 1
  else if decide (unit = $"m" \/ unit = $"min" \/ unit = $"mins") then Some 60
  else if decide (unit = $"h" \/ unit = $"hr" \/ unit = $"hrs") then Some 3600
  else if decide (unit = $"d") then Some 86400
  else None.

(** The [while !rest.is_empty()] loop; [any] is set by every turn. *)
Fixpoint duration_loop (fuel : nat) (total : N) (rest : str) : result duration_error N :=
  match rest with
  | [] => Ok total
  | _ =>
      match fuel with
      | O => Err DurationFuel
      | S fuel =>
          let '(num, tail) := split_digits rest in
          if is_empty num then Err NotADuration
          else
            n ← ok_or NotADuration (parse_u64 num);
            let '(unit, next) := span_till is_ascii_digit tail in
            let unit := to_ascii_lowercase (trim unit) in
            mult ← ok_or (UnknownDurationUnit unit) (duration_mult unit);
            total ← ok_or DurationOverflows (checked_add total (saturating_mul n mult));
            duration_loop fuel total next
      end
  end.

Definition parse_duration (s : str) : result duration_error N :=
  let t := trim s in
  if is_empty t then Err EmptyDuration else duration_loop (length t) 0 t.

Definition human_duration (secs : N) : str :=
  if secs <? 60 then to_dec secs ++ $"s"
  else if secs <? 3600 then to_dec (secs / 60) ++ $"m" ++ pad0 2 (to_dec (secs mod 60)) ++ $"s"
  else if secs <? 86400 then to_dec (secs / 3600) ++ $"h" ++ pad0 2 (to_dec (secs mod 3600 / 60)) ++ $"m"
  else to_dec (secs / 86400) ++ $"d" ++ pad0 2 (to_dec (secs mod 86400 / 3600)) ++ $"h".

(** ** Versions *)

Record SemVer := mkSemVer {
  major : N; minor : N; patch : N; pre_release : option str; build : option str }.

Definition fold_flavour_into_version (version flavour : str) : str :=
  if is_empty flavour then version
  else match split_once #"+" version with
       | Some (core, build) => core ++ $"+" ++ build ++ $"." ++ flavour
       | None => version ++ $"+" ++ flavour
       end.

Definition non_empty (o : option str) : option str :=
  match o with Some [] => None | _ => o end.

Definition semver_parse (version : str) : option SemVer :=
  let version := default version (strip_prefix $"v" version) in
  let '(rest, build) :=
    match split_once #"+" version with Some (r, b) => (r, Some b) | None => (version, None) end in
  let '(core, pre) :=
    match split_once #"-" rest with Some (c, p) => (c, Some p) | None => (rest, None) end in
  match split_on #"." core with
  | [a; b; c] =>
      major ← parse_u64 a;
      minor ← parse_u64 b;
      patch ← parse_u64 c;
      Some (mkSemVer major minor patch (non_empty pre) (non_empty build))
  | _ => None
  end.

(** ** Lemmas *)

Lemma duration_step fuel total num unit next n mult :
  num <> [] -> Forall (fun c => is_ascii_digit c = true) num -> parse_u64 num = Some n ->
  unit <> [] -> Forall (fun c => is_ascii_digit c = false) unit ->
  duration_mult (to_ascii_lowercase (trim unit)) = Some mult ->
  (next = [] \/ exists c r, next = c :: r /\ is_ascii_digit c = true) ->
  duration_loop (S fuel) total (num ++ unit ++ next) =
  (total ← ok_or DurationOverflows (checked_add total (saturating_mul n mult));
   duration_loop fuel total next).
Proof.
  intros Hn Hd Hp Hu Hnd Hm Hnext. destruct num as [|c num]; [done|]. cbn [duration_loop app].
  change (c :: num ++ unit ++ next) with ((c :: num) ++ unit ++ next).
  rewrite split_digits_app; [|done|].
  - cbn [is_empty]. rewrite Hp. cbn [ok_or mbind result_bind].
    rewrite span_till_app by done. by rewrite Hm.
  - right. destruct unit as [|u unit]; [done|]. inversion_clear Hnd. by exists u, (unit ++ next).
Qed.

Lemma duration_fuel fuel total rest : (length rest <= fuel)%nat ->
  duration_loop fuel total rest <> Err DurationFuel.
Proof.
  revert total rest; induction fuel as [|fuel IH]; intros total rest Hl.
  { by destruct rest; [|simpl in Hl; lia]. }
  destruct rest as [|c rest]; [done|]. cbn [duration_loop].
  destruct (split_digits (c :: rest)) as [num tail] eqn:E.
  destruct num as [|x num]; [done|]. cbn [is_empty].
  destruct (parse_u64 (x :: num)); [|done]. cbn [ok_or mbind result_bind].
  destruct (span_till is_ascii_digit tail) as [unit next] eqn:E2.
  destruct (duration_mult _); [|done]. cbn [ok_or mbind result_bind].
  destruct (checked_add _ _); [|done]. cbn [ok_or mbind result_bind]. apply IH.
  apply split_digits_spec in E as [E _]. apply span_till_spec in E2 as [-> _].
  apply (f_equal length) in E. rewrite !length_app in E. simpl in *. lia.
Qed.

Lemma to_dec_parse n : is_u64 n -> to_dec n <> [] /\
  Forall (fun c => is_ascii_digit c = true) (to_dec n) /\ parse_u64 (to_dec n) = Some n.
Proof. intros. split_and!; [apply to_dec_nonempty|apply to_dec_digits|by apply parse_u64_to_dec]. Qed.

Lemma pad2_parse n : n < 100 -> pad0 2 (to_dec n) <> [] /\
  Forall (fun c => is_ascii_digit c = true) (pad0 2 (to_dec n)) /\ parse_u64 (pad0 2 (to_dec n)) = Some n.
Proof.
  intros Hn. destruct (pad0_props 2 n Hn ltac:(lia)) as (Hl & Hd & Hv).
  split_and!; [by destruct (pad0 2 (to_dec n))|done|].
  unfold parse_u64. destruct (pad0 2 (to_dec n)) as [|c s] eqn:E; [done|]. rewrite <-E in *.
  rewrite (Forall_forallb _ _ Hd), Hv. unfold u64_max.
  by destruct (N.leb_spec n 18446744073709551615); [|lia].
Qed.

Lemma digit_head s : s <> [] -> Forall (fun c => is_ascii_digit c = true) s ->
  forall r, exists c r', s ++ r = c :: r' /\ is_ascii_digit c = true.
Proof. intros Hne Hd r. destruct Hd as [|c s Hc]; [done|]. by exists c, (s ++ r). Qed.

(** Two terms, the second padded to two digits. *)
Lemma duration_two a u1 b u2 m1 m2 :
  is_u64 a -> b < 100 -> duration_mult [u1] = Some m1 -> duration_mult [u2] = Some m2 ->
  is_ascii_digit u1 = false -> is_ascii_digit u2 = false ->
  to_ascii_lowercase (trim [u1]) = [u1] -> to_ascii_lowercase (trim [u2]) = [u2] ->
  is_u64 (a * m1 + b * m2) ->
  duration_loop (length (to_dec a ++ [u1] ++ pad0 2 (to_dec b) ++ [u2])) 0
    (to_dec a ++ [u1] ++ pad0 2 (to_dec b) ++ [u2]) = Ok (a * m1 + b * m2).
Proof.
  intros Ha Hb H1 H2 D1 D2 T1 T2 Hu.
  destruct (to_dec_parse a Ha) as (Na & Da & Pa). destruct (pad2_parse b Hb) as (Nb & Db & Pb).
  assert (exists k, length (to_dec a ++ [u1] ++ pad0 2 (to_dec b) ++ [u2]) = S (S k)) as [k ->].
  { rewrite !length_app. simpl. destruct (to_dec a); [done|]. simpl.
    exists (length l + length (pad0 2 (to_dec b)) + 1 - 1 + 1)%nat. lia. }
  unfold is_u64, u64_max in *.
  rewrite (duration_step _ _ _ [u1] _ a m1); [|done..|by constructor|by rewrite T1|right; by apply digit_head].
  unfold checked_add, saturating_mul, u64_max. rewrite N.min_l by lia.
  destruct (N.leb_spec (0 + a * m1) 18446744073709551615); [|lia]. cbn [ok_or mbind result_bind].
  rewrite <-(app_nil_r [u2]).
  rewrite (duration_step _ _ _ [u2] _ b m2); [|done..|by constructor|by rewrite T2|by left].
  unfold checked_add, saturating_mul, u64_max. rewrite N.min_l by lia.
  destruct (N.leb_spec (0 + a * m1 + b * m2) 18446744073709551615); [|lia]. cbn [ok_or mbind result_bind].
  by destruct k.
Qed.

Lemma digits_text_no_ws a u b v :
  is_whitespace u = false -> is_whitespace v = false -> b < 100 ->
  no_whitespace (to_dec a ++ [u] ++ pad0 2 (to_dec b) ++ [v]).
Proof.
  intros Hu Hv Hb. destruct (pad2_parse b Hb) as (_ & Db & _). unfold no_whitespace.
  rewrite !Forall_app, !Forall_singleton.
  split_and!; [|done| |done]; (eapply Forall_impl; [|apply digit_no_whitespace]);
    [apply to_dec_digits|done].
Qed.

Lemma parse_duration_two a u1 b u2 m1 m2 :
  is_u64 a -> b < 100 -> duration_mult [u1] = Some m1 -> duration_mult [u2] = Some m2 ->
  is_ascii_digit u1 = false -> is_ascii_digit u2 = false ->
  to_ascii_lowercase (trim [u1]) = [u1] -> to_ascii_lowercase (trim [u2]) = [u2] ->
  is_whitespace u1 = false -> is_whitespace u2 = false -> is_u64 (a * m1 + b * m2) ->
  parse_duration (to_dec a ++ [u1] ++ pad0 2 (to_dec b) ++ [u2]) = Ok (a * m1 + b * m2).
Proof.
  intros. unfold parse_duration. rewrite trim_id by (by apply digits_text_no_ws).
  rewrite (duration_two a u1 b u2 m1 m2) by done. pose proof (to_dec_nonempty a). by destruct (to_dec a).
Qed.

Lemma parse_duration_one n u m : is_u64 n -> duration_mult [u] = Some m ->
  is_ascii_digit u = false -> to_ascii_lowercase (trim [u]) = [u] -> is_whitespace u = false ->
  parse_duration (to_dec n ++ [u]) = Ok (N.min (n * m) u64_max).
Proof.
  intros Hn Hm Hd Ht Hw. destruct (to_dec_parse n Hn) as (Na & Da & Pa).
  unfold parse_duration. rewrite trim_id.
  2: { apply Forall_app. split; [|by repeat constructor].
       eapply Forall_impl; [exact Da|apply digit_no_whitespace]. }
  assert (is_empty (to_dec n ++ [u]) = false) as -> by (by destruct (to_dec n)).
  assert (exists k, length (to_dec n ++ [u]) = S k) as [k ->].
  { rewrite length_app. simpl. exists (length (to_dec n)). lia. }
  rewrite <-(app_nil_r [u]).
  rewrite (duration_step _ _ _ [u] _ n m); [|done..|by constructor|by rewrite Ht|by left].
  unfold checked_add, saturating_mul, u64_max.
  destruct (N.leb_spec (0 + N.min (n * m) 18446744073709551615) 18446744073709551615); [|lia].
  cbn [ok_or mbind result_bind]. by destruct k.
Qed.

(** How coarsely [human_duration] shows a duration. *)
Definition shown_step (secs : N) : N :=
  if secs <? 3600 then 1 else if secs <? 86400 then 60 else 3600.

Lemma human_split secs g k : g <> 0 -> k <> 0 ->
  secs / (g * k) * (g * k) + secs mod (g * k) / g * g = secs - secs mod g.
Proof.
  intros Hg Hk. pose proof (N.div_mod secs (g * k) ltac:(nia)) as E1.
  pose proof (N.div_mod (secs mod (g * k)) g Hg) as E2.
  assert (E3 : secs mod g = (secs mod (g * k)) mod g).
  { rewrite E1 at 1. rewrite N.mul_comm, (N.mul_comm g k), N.mul_assoc.
    rewrite N.add_comm, N.Div0.mod_add. by rewrite (N.mul_comm k g). }
  rewrite E3. clear E3. revert E1 E2.
  generalize (secs mod (g * k) / g), (secs mod (g * k) mod g). intros a b.
  generalize (secs / (g * k)), (secs mod (g * k)). intros q r -> ->. lia.
Qed.

(** ** Properties *)

(** A duration shown to a person parses back to itself, truncated to the
    finer of the two units shown; below an hour it is exact. *)
Theorem human_duration_roundtrip secs : is_u64 secs ->
  parse_duration (human_duration secs) = Ok (secs - secs mod shown_step secs).
Proof.
  unfold is_u64, u64_max. intros Hs. unfold human_duration, shown_step.
  assert (Hle : forall g, secs - secs mod g <= secs) by (intros g; apply N.le_sub_l).
  assert (Hdiv : forall k, k <> 0 -> secs / k <= 18446744073709551615).
  { intros k Hk. apply N.Div0.div_le_upper_bound. nia. }
  destruct (N.ltb_spec secs 60).
  { destruct (N.ltb_spec secs 3600); [|lia]. rewrite N.mod_1_r.
    rewrite (parse_duration_one secs #"s" 1); try done. f_equal. unfold u64_max. lia. }
  destruct (N.ltb_spec secs 3600) as [H1|H1].
  { assert (E : secs / 60 * 60 + secs mod 60 * 1 = secs) by (pose proof (N.div_mod secs 60); lia).
    pose proof (N.mod_lt secs 60 ltac:(lia)).
    rewrite N.mod_1_r, N.sub_0_r. transitivity (Ok (E := duration_error) (secs / 60 * 60 + secs mod 60 * 1)); [|by rewrite E].
    apply parse_duration_two; try done; [by apply Hdiv|lia|]. unfold is_u64, u64_max. by rewrite E. }
  destruct (N.ltb_spec secs 86400) as [H2|H2].
  - pose proof (human_split secs 60 60 ltac:(lia) ltac:(lia)) as E. simpl (60 * 60) in E.
    pose proof (N.mod_lt secs 3600 ltac:(lia)).
    assert (Hb : secs mod 3600 / 60 < 60) by (apply N.Div0.div_lt_upper_bound; lia).
    rewrite <-E.
    apply parse_duration_two; try done; [by apply Hdiv|by eapply N.lt_trans; [exact Hb|]|]. unfold is_u64, u64_max.
    rewrite E. by eapply N.le_trans; [apply Hle|].
  - pose proof (human_split secs 3600 24 ltac:(lia) ltac:(lia)) as E. simpl (3600 * 24) in E.
    pose proof (N.mod_lt secs 86400 ltac:(lia)).
    assert (Hb : secs mod 86400 / 3600 < 24) by (apply N.Div0.div_lt_upper_bound; lia).
    rewrite <-E.
    apply parse_duration_two; try done; [by apply Hdiv|by eapply N.lt_trans; [exact Hb|]|]. unfold is_u64, u64_max.
    rewrite E. by eapply N.le_trans; [apply Hle|].
Qed.

(** Parsing a duration always ends, and a single amount too large for 64
    bits of seconds is not refused: it silently becomes the largest duration,
    although the sum of two amounts that overflows is an error. *)
Theorem duration_saturates n : is_u64 n -> u64_max < n * 86400 ->
  (forall s, parse_duration s <> Err DurationFuel) /\
  parse_duration (to_dec n ++ $"d") = Ok u64_max /\
  parse_duration (to_dec u64_max ++ $"s1s") = Err DurationOverflows.
Proof.
  intros Hn Ho. split_and!.
  - intros s. unfold parse_duration. destruct (is_empty (trim s)); [done|]. by apply duration_fuel.
  - rewrite (parse_duration_one n #"d" 86400); try done. f_equal. lia.
  - vm_compute. reflexivity.
Qed.

Lemma split_once_app_none d a b : d ∉ a -> split_once d (a ++ b) = (fun '(x, y) => (a ++ x, y)) <$> split_once d b.
Proof.
  induction a as [|c a IH]; intros Ha; simpl; [by destruct (split_once d b) as [[]|]|].
  rewrite decide_False by set_solver. rewrite IH by set_solver. by destruct (split_once d b) as [[]|].
Qed.

(** Stamping a flavour into a version changes its build metadata and nothing
    else: the numbers and the pre-release parse as before, and the metadata is
    what it was with the flavour appended. *)
Theorem fold_flavour_parses version flavour sv : flavour <> [] ->
  semver_parse version = Some sv ->
  semver_parse (fold_flavour_into_version version flavour) =
    Some (mkSemVer (major sv) (minor sv) (patch sv) (pre_release sv)
            (Some (match split_once #"+" version with
                   | Some (_, b) => b ++ $"." ++ flavour
                   | None => flavour
                   end))).
Proof.
  intros Hf Hp. unfold fold_flavour_into_version. destruct flavour as [|f fs]; [done|]. cbn [is_empty].
  set (fl := f :: fs) in *.
  assert (Hsp : forall v rest, split_once #"+" v = None ->
    split_once #"+" (v ++ #"+" :: rest) = Some (v, rest)).
  { intros v rest Hv. apply split_once_None in Hv. rewrite split_once_app_none by done. simpl.
    by rewrite app_nil_r. }
  assert (Hne : forall b c x, non_empty (Some (b ++ c :: x)) = Some (b ++ c :: x)) by (by intros []).
  unfold semver_parse in *.
  (* the optional leading [v] is kept *)
  assert (Hv : forall s t, s <> [] -> default (s ++ t) (strip_prefix $"v" (s ++ t)) =
    default s (strip_prefix $"v" s) ++ t).
  { intros s t Hs. destruct s as [|c s]; [done|]. simpl. by case_decide. }
  destruct (split_once #"+" version) as [[core b]|] eqn:E.
  - apply split_once_Some in E as [-> Hc].
    assert (Hcore : core <> []) by (intros ->; done).
    change ($"+" ++ b ++ $"." ++ fl) with (#"+" :: b ++ #"." :: fl).
    rewrite !Hv in * by done. set (core' := default core (strip_prefix $"v" core)) in *.
    assert (Hc' : #"+" ∉ core').
    { unfold core'. destruct core as [|c core]; [done|]. simpl. case_decide; set_solver. }
    rewrite !(proj2 (split_once_Some _ _ _ _) (conj eq_refl Hc')) in *.
    destruct (split_once #"-" core') as [[c p]|];
      (destruct (split_on #"." _) as [|x [|y [|z [|? ?]]]]; try done);
      (destruct (parse_u64 x); [|done]; destruct (parse_u64 y); [|done]; destruct (parse_u64 z); [|done]);
      cbn [mbind option_bind] in *; injection Hp as <-; cbn [major minor patch pre_release]; by rewrite Hne.
  - assert (Hver : version <> []) by (intros ->; done).
    change ($"+" ++ fl) with (#"+" :: fl).
    rewrite Hv by done. set (v' := default version (strip_prefix $"v" version)) in *.
    assert (Hc' : #"+" ∉ v').
    { apply split_once_None in E. unfold v'. destruct version as [|c s]; [done|]. simpl. case_decide; set_solver. }
    rewrite (proj2 (split_once_None _ _) Hc') in Hp.
    rewrite Hsp by (by apply split_once_None).
    destruct (split_once #"-" v') as [[c p]|];
      (destruct (split_on #"." _) as [|x [|y [|z [|? ?]]]]; try done);
      (destruct (parse_u64 x); [|done]; destruct (parse_u64 y); [|done]; destruct (parse_u64 z); [|done]);
      cbn [mbind option_bind] in *; by injection Hp as <-.
Qed.

(** ** Witnesses *)

Lemma human_duration_roundtrip_witness :
  human_duration 93784 = $"1d02h" /\ parse_duration (human_duration 93784) = Ok (93784 - 93784 mod 3600).
Proof.
  split; [vm_compute; reflexivity|].
  apply (human_duration_roundtrip 93784). unfold is_u64, u64_max. lia.
Defined.

Lemma duration_saturates_witness : parse_duration (to_dec 300000000000000 ++ $"d") = Ok u64_max.
Proof.
  refine (proj1 (proj2 (duration_saturates 300000000000000 _ _))); unfold is_u64, u64_max; lia.
Defined.

Lemma fold_flavour_parses_witness :
  semver_parse (fold_flavour_into_version $"v1.2.3-rc1+gcf0045d9" $"debug") =
    Some (mkSemVer 1 2 3 (Some $"rc1") (Some $"gcf0045d9.debug")).
Proof.
  refine (fold_flavour_parses $"v1.2.3-rc1+gcf0045d9" $"debug"
    (mkSemVer 1 2 3 (Some $"rc1") (Some $"gcf0045d9")) _ _); [discriminate|vm_compute; reflexivity].
Defined.
