(* ===== verification/DepPath.v ===== *)
(** Why one target depends on another: [crates/engine/src/engine/deppath.rs].

    The walk asks the engine for each target's resolved inputs; that answer is
    the parameter [inputs] (the [get_def] or [get_direct_def] of the request),
    an error included. A level's resolutions run concurrently and are consumed
    in frontier order, so a level is resolved left to right and the first error
    in that order is the one reported. [parents] and [seen] are hash tables
    that are only ever inserted into with fresh keys. *)
From S2P Require Import Prelude HtPkg HtAddr.

Inductive walk_error (E : Type) := ResolveFailed (e : E) | WalkFuel.
Arguments ResolveFailed {E} e.
Arguments WalkFuel {E}.

(** [filter(|dep| seen.insert(dep))]: the first of each, in order. *)
Fixpoint first_seen (seen : list Addr) (l : list Addr) : list Addr :=
  match l with
  | [] => []
  | d :: r => if decide (d ∈ seen) then first_seen seen r else d :: first_seen (d :: seen) r
  end.

Lemma first_seen_elem seen l x : x ∈ first_seen seen l <-> (x ∉ seen) /\ x ∈ l.
Proof.
  revert seen; induction l as [|d l IH]; intros seen; simpl; [set_solver|].
  case_decide; rewrite ?elem_of_cons, IH; [set_solver|].
  destruct (decide (x = d)); set_solver.
Qed.

Section deppath.
Context {E : Type} (inputs : Addr -> result E (list Addr)).

(** ** The walk *)

Definition deps_of (addr : Addr) : result (walk_error E) (list Addr) :=
  first_seen [] <$> map_err ResolveFailed (inputs addr).

Fixpoint get_parent (parents : list (Addr * Addr)) (a : Addr) : option Addr :=
  match parents with
  | [] => None
  | (k, p) :: r => if decide (k = a) then Some p else get_parent r a
  end.

(** [chain.push(parent)] and the final [reverse]: pushed at the front. *)
Fixpoint chain_back (fuel : nat) (parents : list (Addr * Addr)) (from cur : Addr) (chain : list Addr)
    : list Addr :=
  match fuel with
  | O => chain
  | S fuel =>
      if decide (cur = from) then chain
      else match get_parent parents cur with
           | None => chain
           | Some parent => chain_back fuel parents from parent (parent :: chain)
           end
  end.

(** The walk back visits a key at most once, so the table's size is enough. *)
Definition chain_to (parents : list (Addr * Addr)) (from to : Addr) : list Addr :=
  chain_back (length parents) parents from to [to].

Fixpoint resolve_level (frontier : list Addr) : result (walk_error E) (list (Addr * list Addr)) :=
  match frontier with
  | [] => Ok []
  | node :: r =>
      deps ← deps_of node;
      level ← resolve_level r;
      Ok ((node, deps) :: level)
  end.

Inductive Scan :=
| Found (chain : list Addr)
| Continue (seen : list Addr) (parents : list (Addr * Addr)) (next : list Addr).

Fixpoint scan_deps (from to node : Addr) (deps : list Addr)
    (seen : list Addr) (parents : list (Addr * Addr)) (next : list Addr) : Scan :=
  match deps with
  | [] => Continue seen parents next
  | dep :: r =>
      if decide (dep ∈ seen) then scan_deps from to node r seen parents next
      else
        let parents := (dep, node) :: parents in
        if decide (dep = to) then Found (chain_to parents from to)
        else scan_deps from to node r (dep :: seen) parents (next ++ [dep])
  end.

Fixpoint scan_level (from to : Addr) (level : list (Addr * list Addr))
    (seen : list Addr) (parents : list (Addr * Addr)) (next : list Addr) : Scan :=
  match level with
  | [] => Continue seen parents next
  | (node, deps) :: r =>
      match scan_deps from to node deps seen parents next with
      | Found chain => Found chain
      | Continue seen parents next => scan_level from to r seen parents next
      end
  end.

Fixpoint walk (from to : Addr) (fuel : nat) (seen : list Addr) (parents : list (Addr * Addr))
    (frontier : list Addr) : result (walk_error E) (option (list Addr)) :=
  match frontier with
  | [] => Ok None
  | _ =>
      match fuel with
      | O => Err WalkFuel
      | S fuel =>
          level ← resolve_level frontier;
          match scan_level from to level seen parents [] with
          | Found chain => Ok (Some chain)
          | Continue seen parents next => walk from to fuel seen parents next
          end
      end
  end.

(** [fuel] bounds the number of levels. *)
Definition dep_path (fuel : nat) (from to : Addr) : result (walk_error E) (option (list Addr)) :=
  if decide (from = to) then Ok (Some [from])
  else walk from to fuel [from] [] [from].

(** The answer of two walks run concurrently; [first] finished first. *)
Definition settle (first second : result (walk_error E) (option (list Addr)))
    : result (walk_error E) (option (list Addr)) :=
  match first with
  | Ok (Some chain) => Ok (Some chain)
  | _ =>
      match first, second with
      | Ok (Some chain), _ | _, Ok (Some chain) => Ok (Some chain)
      | Err e, _ | _, Err e => Err e
      | _, _ => Ok None
      end
  end.

Definition dep_path_between (forward_first : bool) (fuel : nat) (a b : Addr)
    : result (walk_error E) (option (list Addr)) :=
  let forward := dep_path fuel a b in
  let backward := dep_path fuel b a in
  if forward_first then settle forward backward else settle backward forward.

(** ** Paths *)

(** [y] is an input of [x]. *)
Definition edge (x y : Addr) : Prop := exists ds, inputs x = Ok ds /\ y ∈ ds.

Lemma deps_of_ok x ds : deps_of x = Ok ds ->
  (forall y, y ∈ ds <-> edge x y).
Proof.
  unfold deps_of, edge. intros H y. ok_inv. subst. rewrite first_seen_elem.
  split; [intros [_ ?]; eauto|]. intros (ds & Hd & ?). split; [set_solver|]. congruence.
Qed.

(** The level as a list of edges, in the order they are scanned. *)
Definition edges_of (level : list (Addr * list Addr)) : list (Addr * Addr) :=
  concat (map (fun nd => map (fun d => (nd.1, d)) nd.2) level).

Lemma resolve_level_ok frontier level : resolve_level frontier = Ok level ->
  forall x y, (x, y) ∈ edges_of level <-> x ∈ frontier /\ edge x y.
Proof.
  revert level; induction frontier as [|n frontier IH]; intros level; simpl.
  - intros [= <-] x y. simpl. set_solver.
  - intros H x y. ok_inv. unfold edges_of. simpl. rewrite elem_of_app, elem_of_cons.
    change (concat (map _ x1)) with (edges_of x1). rewrite (IH x1) by done.
    pose proof (deps_of_ok n x0 ltac:(done)) as Hd.
    rewrite list_elem_of_In, in_map_iff. split.
    + intros [(d & [= -> ->] & Hin%list_elem_of_In)|[??]]; [|tauto]. split; [by left|]. by apply Hd.
    + intros [[->|Hx] He]; [left|right; tauto]. exists y. split; [done|].
      by apply list_elem_of_In, Hd.
Qed.

Lemma resolve_level_err frontier e : resolve_level frontier = Err e ->
  exists x e', x ∈ frontier /\ inputs x = Err e' /\ e = ResolveFailed e'.
Proof.
  induction frontier as [|n frontier IH]; simpl; [done|]. unfold deps_of.
  destruct (inputs n) as [ds|e'] eqn:En; simpl.
  - destruct (resolve_level frontier) as [l|e''] eqn:El; simpl; [done|]. intros [= ->].
    destruct IH as (x & e' & ? & ? & ?); [done|]. exists x, e'. set_solver.
  - intros [= <-]. exists n, e'. set_solver.
Qed.

Section scan.
Context (from to : Addr).

Fixpoint scan_edges (es : list (Addr * Addr)) (seen : list Addr) (parents : list (Addr * Addr))
    (next : list Addr) : Scan :=
  match es with
  | [] => Continue seen parents next
  | (node, dep) :: r =>
      if decide (dep ∈ seen) then scan_edges r seen parents next
      else
        let parents := (dep, node) :: parents in
        if decide (dep = to) then Found (chain_to parents from to)
        else scan_edges r (dep :: seen) parents (next ++ [dep])
  end.

Lemma scan_level_edges level seen parents next :
  scan_level from to level seen parents next = scan_edges (edges_of level) seen parents next.
Proof.
  revert seen parents next; induction level as [|[n ds] level IH]; intros seen parents next; [done|].
  unfold edges_of. simpl. fold (edges_of level).
  revert seen parents next; induction ds as [|d ds IHd]; intros seen parents next; simpl; [apply IH|].
  repeat case_decide; auto.
Qed.

(** Entries of nodes already seen are left alone. *)
Definition keeps (seen : list Addr) (p p' : list (Addr * Addr)) : Prop :=
  forall x, x ∈ seen -> get_parent p' x = get_parent p x.

Lemma scan_edges_continue es seen parents next seen' parents' next' :
  to ∉ seen -> NoDup seen ->
  scan_edges es seen parents next = Continue seen' parents' next' ->
  (to ∉ seen') /\ NoDup seen' /\ keeps seen parents parents' /\
  (forall x, x ∈ seen' <-> x ∈ seen \/ exists n, (n, x) ∈ es) /\
  (exists new, next' = next ++ new /\ length seen' = length new + length seen /\
     length parents' = length new + length parents /\
     (forall x, x ∈ new <-> (x ∉ seen) /\ exists n, (n, x) ∈ es) /\
     (forall x, x ∈ new -> exists n, (n, x) ∈ es /\ get_parent parents' x = Some n)).
Proof.
  revert seen parents next; induction es as [|[n d] es IH]; intros seen parents next Hto Hnd; simpl.
  { intros [= <- <- <-]. split_and!; try done; [set_solver|].
    exists []. rewrite app_nil_r. split_and!; try done; set_solver. }
  case_decide as Hd.
  - intros H. apply IH in H as (H1 & H2 & H3 & H4 & new & -> & L1 & L2 & H5 & H6); [|done..].
    split_and!; [done..| |]; [intros x; rewrite H4; set_solver|].
    exists new. split_and!; [done..| |].
    + intros x. rewrite H5. set_solver.
    + intros x Hx. destruct (H6 x Hx) as (m & ? & ?). exists m. set_solver.
  - case_decide as Ht; [done|]. intros H.
    apply IH in H as (H1 & H2 & H3 & H4 & new & -> & L1 & L2 & H5 & H6);
      [|set_solver|by constructor].
    split_and!; [done..| | |].
    + intros x Hx. rewrite H3 by set_solver. simpl. rewrite decide_False; [done|]. set_solver.
    + intros x. rewrite H4. set_solver.
    + exists (d :: new). rewrite <-app_assoc. split_and!; [done|simpl in *; lia|simpl in *; lia| |].
      * intros x. rewrite elem_of_cons, H5. destruct (decide (x = d)); set_solver.
      * intros x [->|Hx]%elem_of_cons.
        -- exists n. split; [set_solver|]. rewrite H3 by set_solver. simpl. by rewrite decide_True.
        -- destruct (H6 x Hx) as (m & ? & ?). exists m. set_solver.
Qed.

Lemma scan_edges_found es seen parents next chain :
  to ∉ seen -> scan_edges es seen parents next = Found chain ->
  exists n parents', (n, to) ∈ es /\ chain = chain_to parents' from to /\
    keeps seen parents parents' /\ get_parent parents' to = Some n /\
    length parents < length parents'.
Proof.
  revert seen parents next; induction es as [|[n d] es IH]; intros seen parents next Hto; simpl; [done|].
  case_decide as Hd; [|case_decide as Ht].
  - intros H. apply IH in H as (m & p' & ? & ? & ? & ? & ?); [|done]. exists m, p'. set_solver.
  - intros [= <-]. subst d. exists n, ((to, n) :: parents). split_and!; [set_solver|done| | |simpl; lia].
    + intros x Hx. simpl. rewrite decide_False; [done|]. set_solver.
    + simpl. by rewrite decide_True.
  - intros H. apply IH in H as (m & p' & ? & ? & Hk & ? & ?); [|set_solver].
    exists m, p'. split_and!; [set_solver|done| |done|simpl in *; lia].
    intros x Hx. rewrite Hk by set_solver. simpl. rewrite decide_False; [done|]. set_solver.
Qed.

(** ** Chains *)

(** [x] is [j] hops from [from] along [parents], all of them seen. *)
Inductive linked (seen : list Addr) (parents : list (Addr * Addr)) : nat -> Addr -> Prop :=
| linked_0 : from ∈ seen -> linked seen parents 0 from
| linked_S j x p : x ∈ seen -> x <> from -> get_parent parents x = Some p -> edge p x ->
    linked seen parents j p -> linked seen parents (S j) x.

Lemma linked_mono seen parents seen' parents' j x :
  keeps seen parents parents' -> (forall x, x ∈ seen -> x ∈ seen') ->
  linked seen parents j x -> linked seen' parents' j x.
Proof.
  intros Hk Hs. induction 1 as [|j x p Hx Hne Hp He Hl IH]; [constructor; auto|].
  econstructor; eauto. by rewrite Hk.
Qed.

(** Consecutive elements are edges. *)
Fixpoint is_path (l : list Addr) : Prop :=
  match l with
  | x :: ((y :: _) as r) => edge x y /\ is_path r
  | _ => True
  end.

Lemma chain_back_spec seen parents j x fuel rest :
  linked seen parents j x -> j <= fuel -> is_path (x :: rest) ->
  exists pre, chain_back fuel parents from x (x :: rest) = pre ++ x :: rest /\
    length pre = j /\ is_path (pre ++ x :: rest) /\ head (pre ++ x :: rest) = Some from.
Proof.
  intros Hl. revert fuel rest; induction Hl as [|j x p Hx Hne Hp He Hl IH]; intros fuel rest Hf Hpath.
  - exists []. split_and!; try done. destruct fuel; simpl; [done|]. by rewrite decide_True.
  - destruct fuel as [|fuel]; [lia|]. cbn [chain_back]. rewrite decide_False by done. rewrite Hp.
    destruct (IH fuel (x :: rest)) as (pre & -> & Hlen & Hp' & Hh); [lia|by split|].
    exists (pre ++ [p]). rewrite <-app_assoc. split_and!; try done. rewrite length_app. simpl. lia.
Qed.

(** What a returned chain is: it leads from [from] to [to] along edges. *)
Definition chain_ok (chain : list Addr) (hops : nat) : Prop :=
  head chain = Some from /\ last chain = Some to /\ is_path chain /\ length chain = S hops.

Lemma chain_to_ok seen parents j : linked seen parents j to -> j <= length parents ->
  chain_ok (chain_to parents from to) j.
Proof.
  intros Hl Hj. unfold chain_to.
  destruct (chain_back_spec seen parents j to (length parents) [] Hl Hj I) as (pre & -> & Hlen & Hp & Hh).
  split_and!; [done|by rewrite last_app|done|]. rewrite length_app. simpl. lia.
Qed.

(** ** The walk is breadth first *)

(** [x] is at distance exactly [k]. *)
Definition at_dist (k : nat) (x : Addr) : Prop :=
  nsteps edge k from x /\ forall j, j < k -> ~ nsteps edge j from x.

Record walk_inv (k : nat) (seen : list Addr) (parents : list (Addr * Addr)) (frontier : list Addr)
    : Prop := {
  wi_seen : forall x, x ∈ seen <-> exists j, j <= k /\ nsteps edge j from x;
  wi_front : forall x, x ∈ frontier <-> at_dist k x;
  wi_to : to ∉ seen;
  wi_nodup : NoDup seen;
  wi_linked : forall x, x ∈ frontier -> linked seen parents k x;
  wi_count : frontier <> [] -> k <= length parents /\ k < length seen;
}.

Lemma walk_inv_init : from <> to -> walk_inv 0 [from] [] [from].
Proof.
  intros Hne. split; simpl; try lia; try set_solver.
  - intros x. rewrite list_elem_of_singleton. split.
    + intros ->. exists 0. split; [lia|constructor].
    + intros (j & Hj & H). assert (j = 0) as -> by lia. by inversion H.
  - intros x. rewrite list_elem_of_singleton. unfold at_dist. split.
    + intros ->. split; [constructor|lia].
    + intros [H _]. by inversion H.
  - apply NoDup_singleton.
  - intros x ->%list_elem_of_singleton. constructor. set_solver.
Qed.

Lemma at_dist_next k x : at_dist (S k) x -> exists y, at_dist k y /\ edge y x.
Proof.
  intros [H Hmin]. apply nsteps_inv_r in H as (y & Hy & He). exists y. split; [|done].
  split; [done|]. intros j Hj Hn. apply (Hmin (S j)); [lia|]. by eapply nsteps_r.
Qed.

Lemma walk_inv_seen_next k (seen : list Addr) x : (forall x, x ∈ seen <-> exists j, j <= k /\ nsteps edge j from x) ->
  (x ∉ seen) -> (exists n, at_dist k n /\ edge n x) <-> at_dist (S k) x.
Proof.
  intros Hs Hx. split; [|intros H; by apply at_dist_next].
  intros (n & [Hn _] & He). split; [by eapply nsteps_r|]. intros j Hj Hst. apply Hx, Hs.
  exists j. split; [lia|done].
Qed.

Lemma walk_inv_step k seen parents frontier level seen' parents' next' :
  walk_inv k seen parents frontier -> frontier <> [] ->
  (forall x y, (x, y) ∈ edges_of level <-> x ∈ frontier /\ edge x y) ->
  scan_edges (edges_of level) seen parents [] = Continue seen' parents' next' ->
  walk_inv (S k) seen' parents' next'.
Proof.
  intros [Hs Hf Ht Hnd Hl Hc] Hne He Hscan. destruct (Hc Hne) as [Hc1 Hc2].
  apply scan_edges_continue in Hscan as (H1 & H2 & H3 & H4 & new & -> & L1 & L2 & H5 & H6); [|done..].
  assert (Hex : forall x, (exists n, (n, x) ∈ edges_of level) <-> exists n, at_dist k n /\ edge n x).
  { intros x. setoid_rewrite He. setoid_rewrite Hf. done. }
  assert (Hfrom : from ∈ seen) by (apply Hs; exists 0; split; [lia|constructor]).
  split; [| |done|done| |].
  - intros x. rewrite H4, Hex. split.
    + intros [Hx|(n & [Hn _] & Hnx)].
      * apply Hs in Hx as (j & ? & ?). exists j. split; [lia|done].
      * exists (S k). split; [lia|]. by eapply nsteps_r.
    + intros (j & Hj & Hn). destruct (decide (x ∈ seen)) as [|Hx]; [by left|right].
      apply (walk_inv_seen_next k seen x Hs Hx). assert (j = S k) as ->.
      { destruct (decide (j = S k)); [done|]. exfalso. apply Hx, Hs. exists j. split; [lia|done]. }
      split; [done|]. intros i Hi Hn'. apply Hx, Hs. exists i. split; [lia|done].
  - intros x. simpl. rewrite H5, Hex. split.
    + intros [Hx H]. by apply (walk_inv_seen_next k seen x Hs Hx).
    + intros H. assert (Hx : x ∉ seen).
      { intros (j & Hj & Hn)%Hs. destruct H as [_ Hmin]. apply (Hmin j); [lia|done]. }
      split; [done|]. by apply (walk_inv_seen_next k seen x Hs Hx).
  - intros x Hx. simpl in Hx. destruct (H6 x Hx) as (n & [Hn Hnx]%He & Hp).
    assert (Hxs : x ∉ seen) by (by apply H5 in Hx as [? _]).
    econstructor; [|by intros ->|exact Hp|done|].
    + apply H4. right. exists n. by apply He.
    + eapply linked_mono; [exact H3| |by apply Hl]. intros y Hy. apply H4. by left.
  - simpl. intros Hnew. destruct new as [|y new]; [done|]. simpl in *. lia.
Qed.

Lemma walk_done k seen parents : walk_inv k seen parents [] -> forall n, ~ nsteps edge n from to.
Proof.
  intros [Hs Hf Ht _ _ _]. assert (Hall : forall n x, nsteps edge n from x -> x ∈ seen).
  { induction n as [|n IH]; intros x Hn.
    - inversion Hn; subst. apply Hs. exists 0. split; [lia|constructor].
    - apply nsteps_inv_r in Hn as (y & Hy & He). destruct (decide (x ∈ seen)) as [|Hx]; [done|exfalso].
      assert (Hyx : forall j, nsteps edge j from y -> k <= j).
      { intros j Hj. destruct (decide (k <= j)); [done|]. exfalso. apply Hx, Hs. exists (S j).
        split; [lia|]. by eapply nsteps_r. }
      apply IH, Hs in Hy as (j & Hj & Hy). pose proof (Hyx j Hy). assert (j = k) as -> by lia.
      assert (Hd : y ∈ []); [|by apply elem_of_nil in Hd].
      apply Hf. split; [done|]. intros i Hi Hn. specialize (Hyx i Hn). lia. }
  intros n Hn. apply Ht. by eapply Hall.
Qed.

(** What the walk may answer. *)
Definition walk_post (r : result (walk_error E) (option (list Addr))) : Prop :=
  match r with
  | Ok (Some chain) =>
      exists hops, chain_ok chain hops /\ forall n, nsteps edge n from to -> hops <= n
  | Ok None => forall n, ~ nsteps edge n from to
  | Err (ResolveFailed e) => exists x n, nsteps edge n from x /\ inputs x = Err e
  | Err WalkFuel => True
  end.

Lemma walk_found k seen parents frontier level chain :
  walk_inv k seen parents frontier -> frontier <> [] ->
  (forall x y, (x, y) ∈ edges_of level <-> x ∈ frontier /\ edge x y) ->
  scan_edges (edges_of level) seen parents [] = Found chain -> walk_post (Ok (Some chain)).
Proof.
  intros [Hs Hf Ht Hnd Hl Hc] Hne He Hscan. destruct (Hc Hne) as [Hc1 _].
  apply scan_edges_found in Hscan as (n & p' & [Hn Hnt]%He & -> & Hk & Hp & Hlen); [|done].
  assert (Hfrom : from ∈ seen) by (apply Hs; exists 0; split; [lia|constructor]).
  exists (S k). split.
  - apply (chain_to_ok (to :: seen)); [|lia]. econstructor; [set_solver| |exact Hp|done|].
    + intros E0. apply Ht. by rewrite E0.
    + eapply linked_mono; [exact Hk| |by apply Hl]. set_solver.
  - intros j Hj. destruct (decide (S k <= j)); [done|]. exfalso. apply Ht, Hs. exists j.
    split; [lia|done].
Qed.

Lemma walk_spec fuel k seen parents frontier : walk_inv k seen parents frontier ->
  walk_post (walk from to fuel seen parents frontier).
Proof.
  revert k seen parents frontier; induction fuel as [|fuel IH]; intros k seen parents frontier Hinv.
  - destruct frontier as [|y fr]; [|done].
    exact (walk_done k seen parents Hinv).
  - destruct frontier as [|y fr]; [exact (walk_done k seen parents Hinv)|].
    cbn [walk]. set (frontier := y :: fr) in *.
    destruct (resolve_level frontier) as [level|e] eqn:El; cbn [mbind result_bind].
    + pose proof (resolve_level_ok _ _ El) as He. rewrite scan_level_edges.
      destruct (scan_edges (edges_of level) seen parents []) as [chain|seen' parents' next'] eqn:Es.
      * by eapply walk_found.
      * apply (IH (S k)). by eapply walk_inv_step.
    + apply resolve_level_err in El as (x & e' & Hx & Hi & ->). exists x, k. split; [|done].
      by apply (wi_front _ _ _ _ Hinv) in Hx as [? _].
Qed.
(** Finitely many targets bound the number of levels. *)
Lemma walk_fuel V fuel k seen parents frontier :
  from ∈ V -> (forall x y, x ∈ V -> edge x y -> y ∈ V) -> length V <= k + fuel ->
  walk_inv k seen parents frontier -> walk from to fuel seen parents frontier <> Err WalkFuel.
Proof.
  intros HV Hcl. revert k seen parents frontier; induction fuel as [|fuel IH];
    intros k seen parents frontier Hlen Hinv; (destruct frontier as [|y fr]; [done|]).
  - exfalso. destruct Hinv as [Hs _ _ Hnd _ Hc]. destruct (Hc ltac:(done)) as [_ Hk].
    assert (length seen <= length V); [|lia]. apply submseteq_length, NoDup_submseteq; [done|].
    intros x (j & _ & Hj)%Hs. clear -HV Hcl Hj. induction Hj as [x|j x y z Hxy Hyz IH]; [done|].
    apply IH. by eapply Hcl.
  - cbn [walk]. set (frontier := y :: fr) in *.
    destruct (resolve_level frontier) as [level|e] eqn:El; cbn [mbind result_bind].
    + pose proof (resolve_level_ok _ _ El) as He. rewrite scan_level_edges.
      destruct (scan_edges (edges_of level) seen parents []) as [chain|seen' parents' next'] eqn:Es; [done|].
      apply (IH (S k)); [lia|]. by eapply walk_inv_step.
    + apply resolve_level_err in El as (x & e' & _ & _ & ->). done.
Qed.
End scan.

Lemma dep_path_post fuel from to : walk_post from to (dep_path fuel from to).
Proof.
  unfold dep_path. case_decide as E0.
  - subst to. exists 0. split; [by repeat split|lia].
  - by eapply walk_spec, walk_inv_init.
Qed.

(** ** Properties *)

(** [dep_path] answers with a shortest chain of dependencies, from the first
    target to the last along resolved inputs; it answers nothing only when no
    chain exists; it fails only on a target it reached whose inputs do not
    resolve; and over finitely many targets it always answers. *)
Theorem dep_path_shortest fuel from to :
  walk_post from to (dep_path fuel from to) /\
  forall V, from ∈ V -> (forall x y, x ∈ V -> edge x y -> y ∈ V) -> length V <= fuel ->
    dep_path fuel from to <> Err WalkFuel.
Proof.
  split; [apply dep_path_post|]. intros V HV Hcl Hl. unfold dep_path. case_decide as E0; [done|].
  by apply (walk_fuel from to V fuel 0); [..|apply walk_inv_init].
Qed.

(** A chain that links [x] to [y]. *)
Lemma chain_ok_nsteps x y chain hops : chain_ok x y chain hops -> nsteps edge hops x y.
Proof.
  unfold chain_ok. revert x hops; induction chain as [|a chain IH]; intros x hops (Hh & Hl & Hp & Hn); [done|].
  simpl in Hh. injection Hh as ->. destruct chain as [|b chain].
  - simpl in *. injection Hl as ->. assert (hops = 0) as -> by lia. constructor.
  - destruct hops as [|hops]; [simpl in Hn; lia|]. destruct Hp as [He Hp].
    econstructor; [exact He|]. apply IH. split_and!; [done| |done|simpl in *; lia].
    by rewrite last_cons_cons in Hl.
Qed.

(** On a graph without cycles the race between the two directions does not
    show. Whichever walk finishes first, the answer is a shortest chain one way
    or the other when there is one, and nothing only when there is none; an
    answer does not depend on which walk won. *)
Theorem dep_path_between_order fuel a b (first first' : bool) :
  (forall n x, nsteps edge (S n) x x -> False) ->
  match dep_path_between first fuel a b with
  | Ok (Some chain) => walk_post a b (Ok (Some chain)) \/ walk_post b a (Ok (Some chain))
  | Ok None => forall n, ~ nsteps edge n a b /\ ~ nsteps edge n b a
  | Err _ => True
  end /\
  (is_ok (dep_path_between first fuel a b) = true ->
   dep_path_between first' fuel a b = dep_path_between first fuel a b).
Proof.
  intros Hac. unfold dep_path_between.
  pose proof (dep_path_post fuel a b) as Hf. pose proof (dep_path_post fuel b a) as Hb.
  destruct (decide (a = b)) as [->|Hab].
  { assert (dep_path fuel b b = Ok (Some [b])) as E0 by (unfold dep_path; by rewrite decide_True).
    rewrite E0 in *. destruct first, first'; simpl; auto. }
  assert (Hboth : forall c c', dep_path fuel a b = Ok (Some c) -> dep_path fuel b a = Ok (Some c') -> False).
  { intros c c' E1 E2. rewrite E1 in Hf. rewrite E2 in Hb. destruct Hf as (n & H1%chain_ok_nsteps & _).
    destruct Hb as (m & H2%chain_ok_nsteps & _). destruct n as [|n]; [by inversion H1|].
    apply (Hac (n + m) a). by apply (nsteps_trans (S n) m a b a). }
  destruct (dep_path fuel a b) as [[c|]|e] eqn:E1, (dep_path fuel b a) as [[c'|]|e'] eqn:E2;
    try (by exfalso; eapply Hboth); destruct first, first'; cbn [settle is_ok];
    (split; [|done]); solve [done | by left | by right].
Qed.
End deppath.

(** ** Witnesses *)

Definition sample_node (n : N) : Addr := mkAddr [] [n] [].
(** [1] depends on [2] and [3], both on [4]. *)
Definition sample_inputs (a : Addr) : result unit (list Addr) :=
  if decide (a = sample_node 49) then Ok [sample_node 50; sample_node 51; sample_node 50]
  else if decide (a = sample_node 50 \/ a = sample_node 51) then Ok [sample_node 52]
  else Ok [].

Definition sample_rank (a : Addr) : nat :=
  if decide (a = sample_node 49) then 2
  else if decide (a = sample_node 50 \/ a = sample_node 51) then 1 else 0.

Lemma sample_edge_rank x y : edge sample_inputs x y -> sample_rank y < sample_rank x.
Proof.
  unfold edge, sample_inputs, sample_rank. intros (ds & Hd & Hy).
  destruct (decide (x = sample_node 49)) as [->|].
  - injection Hd as <-. rewrite !elem_of_cons, elem_of_nil in Hy.
    destruct Hy as [-> | [-> | [-> | []]]]; vm_compute; lia.
  - destruct (decide (x = sample_node 50 \/ x = sample_node 51)) as [[-> | ->]|].
    + injection Hd as <-. apply list_elem_of_singleton in Hy as ->. vm_compute. lia.
    + injection Hd as <-. apply list_elem_of_singleton in Hy as ->. vm_compute. lia.
    + injection Hd as <-. by apply elem_of_nil in Hy.
Qed.

Lemma sample_steps_rank n x y : nsteps (edge sample_inputs) n x y -> sample_rank y + n <= sample_rank x.
Proof.
  induction 1 as [x|n x y z H _ IH]; [lia|]. apply sample_edge_rank in H. lia.
Qed.

Lemma dep_path_shortest_witness :
  dep_path sample_inputs 4 (sample_node 49) (sample_node 52) =
    Ok (Some [sample_node 49; sample_node 50; sample_node 52]) /\
  walk_post sample_inputs (sample_node 49) (sample_node 52)
    (dep_path sample_inputs 4 (sample_node 49) (sample_node 52)).
Proof.
  split; [vm_compute; reflexivity|].
  exact (proj1 (dep_path_shortest sample_inputs 4 (sample_node 49) (sample_node 52))).
Defined.

Lemma dep_path_between_order_witness :
  dep_path_between sample_inputs false 4 (sample_node 52) (sample_node 49) =
  dep_path_between sample_inputs true 4 (sample_node 52) (sample_node 49).
Proof.
  refine (proj2 (dep_path_between_order sample_inputs 4 (sample_node 52) (sample_node 49) true false _) _).
  - intros n x H%sample_steps_rank. lia.
  - vm_compute. reflexivity.
Defined.
