(* ===== verification/Reconcile.v ===== *)
(** Several providers list one name: [reconcile_by_name] and [merge_listings]
    of [crates/engine/src/engine/query.rs].

    The candidates of one name form a group, which the code collects in a hash
    table; groups touch disjoint candidates, so each candidate's answer is
    computed from its own group. Inside a group the listers' views are built in
    listing order, as in the code. Facts are compared through what they say
    ([says]): [agree] keeps exactly what both sides say. *)
From S2P Require Import Prelude HtPkg HtAddr HtMatcher.

Record Candidate := mkCandidate { addr : Addr; facts : ListedFacts; lister : nat }.

(** One lister's listings of one name. *)
Record ListerView := mkView {
  v_lister : nat;
  exact : list (Addr * ListedFacts);
  whole : ListedFacts;
}.

(** ** The code *)

Fixpoint exact_get (a : Addr) (m : list (Addr * ListedFacts)) : option ListedFacts :=
  match m with
  | [] => None
  | (k, f) :: r => if decide (k = a) then Some f else exact_get a r
  end.

(** [entry(&c.addr).and_modify(|f| f.agree(&c.facts)).or_insert_with(…)]. *)
Fixpoint exact_add (c : Candidate) (m : list (Addr * ListedFacts)) : list (Addr * ListedFacts) :=
  match m with
  | [] => [(addr c, facts c)]
  | (k, f) :: r => if decide (k = addr c) then (k, agree f (facts c)) :: r else (k, f) :: exact_add c r
  end.

Definition update_view (v : ListerView) (c : Candidate) : ListerView :=
  mkView (v_lister v) (exact_add c (exact v)) (agree (whole v) (facts c)).

(** The view of the candidate's lister, pushed when it is the first. *)
Fixpoint add_listing (listers : list ListerView) (c : Candidate) : list ListerView :=
  match listers with
  | [] => [update_view (mkView (lister c) [] (facts c)) c]
  | v :: r => if decide (v_lister v = lister c) then update_view v c :: r else v :: add_listing r c
  end.

Definition views (group : list Candidate) : list ListerView := foldl add_listing [] group.

(** What a lister says of an address: by that listing if it has one, by all of
    its listings of the name otherwise. *)
Definition described (a : Addr) (v : ListerView) : ListedFacts :=
  default (whole v) (exact_get a (exact v)).

Definition reconciled (listers : list ListerView) (a : Addr) : ListedFacts :=
  match described a <$> listers with
  | [] => UNKNOWN
  | f :: r => foldl agree f r
  end.

Definition name_key (c : Candidate) : str * str := (package (addr c), name (addr c)).

Definition group_of (candidates : list Candidate) (c : Candidate) : list Candidate :=
  filter (fun c' => name_key c' = name_key c) candidates.

Definition reconcile_by_name (candidates : list Candidate) : list Candidate :=
  (fun c => mkCandidate (addr c) (reconciled (views (group_of candidates c)) (addr c)) (lister c))
  <$> candidates.

(** [retain(|c| seen.insert(c.addr))]. *)
Fixpoint retain_first (seen : list Addr) (cs : list Candidate) : list Candidate :=
  match cs with
  | [] => []
  | c :: r =>
      if decide (addr c ∈ seen) then retain_first seen r else c :: retain_first (addr c :: seen) r
  end.

Definition merge_listings (candidates : list Candidate) : list Candidate :=
  retain_first [] (reconcile_by_name candidates).

(** ** What facts say *)

Inductive Saying := SLabels (ls : list str) | SDriver (d : str) | SCodegen (b : bool).

Definition says (f : ListedFacts) (q : Saying) : Prop :=
  match q with
  | SLabels ls => labels f = Some ls
  | SDriver d => driver f = Some d
  | SCodegen b => has_codegen f = Some b
  end.

Lemma option_ext {A} (x y : option A) : (forall v, x = Some v <-> y = Some v) -> x = y.
Proof. intros H. destruct x as [v|]; [symmetry; by apply H|]. destruct y as [v|]; [|done]. by apply H. Qed.

Lemma says_ext f g : (forall q, says f q <-> says g q) -> f = g.
Proof.
  intros H. destruct f, g. f_equal; apply option_ext; intros v;
    [apply (H (SLabels v))|apply (H (SDriver v))|apply (H (SCodegen v))].
Qed.

Lemma agree_field_Some {A} `{EqDecision A} (x y : option A) v :
  agree_field x y = Some v <-> x = Some v /\ y = Some v.
Proof. unfold agree_field. case_decide; naive_solver. Qed.

Lemma says_agree f g q : says (agree f g) q <-> says f q /\ says g q.
Proof. destruct q; simpl; apply agree_field_Some. Qed.

Lemma says_fold f l q : says (foldl agree f l) q <-> says f q /\ Forall (fun g => says g q) l.
Proof.
  revert f; induction l as [|g l IH]; intros f; simpl; [by split; [|intros [? _]]|].
  rewrite IH, says_agree, Forall_cons. tauto.
Qed.

Lemma says_reconciled vs a q : vs <> [] ->
  says (reconciled vs a) q <-> Forall (fun v => says (described a v) q) vs.
Proof.
  intros Hne. unfold reconciled. destruct vs as [|v vs]; [done|]. rewrite fmap_cons, says_fold, Forall_cons.
  by rewrite Forall_fmap.
Qed.

(** ** The views *)

(** What a view knows after the listings [l]. *)
Record view_ok (l : list Candidate) (v : ListerView) : Prop := {
  vo_some : exists c, c ∈ l /\ lister c = v_lister v;
  vo_whole : forall q, says (whole v) q <-> forall c, c ∈ l -> lister c = v_lister v -> says (facts c) q;
  vo_exact : forall a,
    match exact_get a (exact v) with
    | Some f => (exists c, c ∈ l /\ lister c = v_lister v /\ addr c = a) /\
        forall q, says f q <-> forall c, c ∈ l -> lister c = v_lister v -> addr c = a -> says (facts c) q
    | None => forall c, c ∈ l -> lister c = v_lister v -> addr c <> a
    end;
}.

Lemma exact_add_get c m a : exact_get a (exact_add c m) =
  if decide (a = addr c) then Some (match exact_get a m with Some f => agree f (facts c) | None => facts c end)
  else exact_get a m.
Proof.
  induction m as [|[k f] m IH]; simpl.
  - repeat case_decide; congruence.
  - destruct (decide (k = addr c)) as [->|Hk]; simpl.
    + repeat case_decide; congruence.
    + rewrite IH. destruct (decide (k = a)) as [->|]; [by rewrite decide_False|done].
Qed.

Lemma elem_snoc {A} (x y : A) l : x ∈ l ++ [y] <-> x ∈ l \/ x = y.
Proof. by rewrite elem_of_app, list_elem_of_singleton. Qed.

Lemma view_ok_other l v c : lister c <> v_lister v -> view_ok l v -> view_ok (l ++ [c]) v.
Proof.
  intros Hne [(c0 & Hc0 & Hl0) Hw He]. split.
  - exists c0. rewrite elem_snoc. auto.
  - intros q. rewrite Hw. setoid_rewrite elem_snoc. naive_solver.
  - intros a. specialize (He a). destruct (exact_get a (exact v)).
    + destruct He as [(c1 & ? & ? & ?) Hq]. split.
      * exists c1. rewrite elem_snoc. auto.
      * intros q. rewrite Hq. setoid_rewrite elem_snoc. naive_solver.
    + setoid_rewrite elem_snoc. naive_solver.
Qed.

(** Adding a listing to its own view; [v] may be new, and then knows nothing. *)
Lemma view_ok_update l v c : lister c = v_lister v ->
  (forall q, says (agree (whole v) (facts c)) q <->
     says (facts c) q /\ forall c', c' ∈ l -> lister c' = v_lister v -> says (facts c') q) ->
  (forall a,
    match exact_get a (exact v) with
    | Some f => (exists c, c ∈ l /\ lister c = v_lister v /\ addr c = a) /\
        forall q, says f q <-> forall c, c ∈ l -> lister c = v_lister v -> addr c = a -> says (facts c) q
    | None => forall c, c ∈ l -> lister c = v_lister v -> addr c <> a
    end) ->
  view_ok (l ++ [c]) (update_view v c).
Proof.
  intros Hl Hw He. unfold update_view. split; simpl.
  - exists c. rewrite elem_snoc. auto.
  - intros q. rewrite Hw. setoid_rewrite elem_snoc. naive_solver.
  - intros a. rewrite exact_add_get. specialize (He a). case_decide as Ha.
    + split; [exists c; rewrite elem_snoc; auto|]. intros q. setoid_rewrite elem_snoc.
      destruct (exact_get a (exact v)) as [f|]; rewrite ?says_agree.
      * destruct He as [_ Hq]. rewrite Hq. naive_solver.
      * naive_solver.
    + destruct (exact_get a (exact v)) as [f|].
      * destruct He as [(c1 & ? & ? & ?) Hq]. split; [exists c1; rewrite elem_snoc; auto|].
        intros q. rewrite Hq. setoid_rewrite elem_snoc. naive_solver.
      * setoid_rewrite elem_snoc. naive_solver.
Qed.

Record views_ok (l : list Candidate) (vs : list ListerView) : Prop := {
  vs_each : Forall (view_ok l) vs;
  vs_nodup : NoDup (v_lister <$> vs);
  vs_all : forall c, c ∈ l -> lister c ∈ v_lister <$> vs;
}.

Lemma add_listing_listers vs c : v_lister <$> add_listing vs c =
  if decide (lister c ∈ v_lister <$> vs) then v_lister <$> vs else (v_lister <$> vs) ++ [lister c].
Proof.
  induction vs as [|v vs IH]; cbn [add_listing]; [done|].
  destruct (decide (v_lister v = lister c)) as [E|E]; rewrite !fmap_cons.
  - rewrite decide_True by set_solver. done.
  - rewrite IH. destruct (decide (lister c ∈ v_lister <$> vs)).
    + by rewrite decide_True by set_solver.
    + by rewrite decide_False by set_solver.
Qed.

Lemma add_listing_each l vs c : Forall (view_ok l) vs -> NoDup (v_lister <$> vs) ->
  (lister c ∉ v_lister <$> vs -> forall c', c' ∈ l -> lister c' <> lister c) ->
  Forall (view_ok (l ++ [c])) (add_listing vs c).
Proof.
  induction vs as [|v vs IH]; intros Hv Hnd Hnew; simpl.
  - constructor; [|constructor]. apply view_ok_update; simpl; [done| |].
    + intros q. rewrite says_agree. split; [|naive_solver]. intros [? _]. split; [done|].
      intros c' Hc' El. by destruct (Hnew ltac:(set_solver) c' Hc').
    + intros a c' Hc' El. by destruct (Hnew ltac:(set_solver) c' Hc').
  - apply Forall_cons in Hv as [Hv Hvs]. rewrite fmap_cons in Hnd. apply NoDup_cons in Hnd as [Hn Hnd].
    destruct (decide (v_lister v = lister c)) as [E|E].
    + constructor.
      * apply view_ok_update; [done| |apply Hv]. intros q. rewrite says_agree.
        rewrite (vo_whole _ _ Hv). tauto.
      * rewrite Forall_forall in *. intros v' Hv'. apply view_ok_other; [|auto].
        intros El. apply Hn. apply list_elem_of_fmap. exists v'. split; [congruence|done].
    + constructor; [by apply view_ok_other|]. apply IH; [done..|]. intros Hc. apply Hnew. set_solver.
Qed.

Lemma add_listing_ok l vs c : views_ok l vs -> views_ok (l ++ [c]) (add_listing vs c).
Proof.
  intros [He Hnd Ha]. split.
  - apply add_listing_each; [done..|]. intros Hc c' Hc' El. apply Hc. rewrite <-El. auto.
  - rewrite add_listing_listers. case_decide; [done|]. apply NoDup_app. split_and!; [done| |apply NoDup_singleton].
    set_solver.
  - intros c' [Hc'| ->]%elem_snoc; rewrite add_listing_listers; case_decide; set_solver.
Qed.

Lemma views_spec group : views_ok group (views group).
Proof.
  unfold views. assert (H : forall done vs, views_ok done vs ->
    views_ok (done ++ group) (foldl add_listing vs group)).
  { induction group as [|c group IH]; intros d vs Hvs; simpl; [by rewrite app_nil_r|].
    replace (d ++ c :: group) with ((d ++ [c]) ++ group) by (by rewrite <-app_assoc).
    apply IH. by apply add_listing_ok. }
  apply (H []). split; [done|constructor|set_solver].
Qed.

(** ** The reference *)

(** Listing [c] bears on address [a]: it is a listing of [a] itself, or its
    lister lists the name but not [a]. *)
Definition bears_on (group : list Candidate) (a : Addr) (c : Candidate) : Prop :=
  addr c = a \/ forall c', c' ∈ group -> lister c' = lister c -> addr c' <> a.

Lemma reconciled_says group a q : group <> [] ->
  says (reconciled (views group) a) q <-> forall c, c ∈ group -> bears_on group a c -> says (facts c) q.
Proof.
  intros Hne. destruct (views_spec group) as [He Hnd Ha]. rewrite says_reconciled.
  2: { destruct group as [|c g]; [done|]. intros E. specialize (Ha c ltac:(by left)).
       rewrite E in Ha. by apply elem_of_nil in Ha. }
  assert (Hd : forall v, v ∈ views group ->
    says (described a v) q <->
    forall c, c ∈ group -> lister c = v_lister v -> bears_on group a c -> says (facts c) q).
  { intros v Hv. rewrite Forall_forall in He. destruct (He v Hv) as [_ Hw Hx]. specialize (Hx a).
    unfold described, bears_on. destruct (exact_get a (exact v)) as [f|]; simpl.
    - destruct Hx as [(c1 & Hc1 & Hl1 & Ha1) Hq]. rewrite Hq. split.
      + intros H c Hc Hl [Hb|Hb]; [by apply H|]. destruct (Hb c1 Hc1); congruence.
      + intros H c Hc Hl Hb. apply H; auto.
    - rewrite Hw. split; [naive_solver|]. intros H c Hc Hl. apply H; [done..|]. right.
      intros c' Hc' Hl'. apply Hx; [done|congruence]. }
  rewrite Forall_forall. split.
  - intros H c Hc Hb. pose proof (Ha c Hc) as Hin. apply list_elem_of_fmap in Hin as (v & El & Hv).
    apply (proj1 (Hd v Hv) (H v Hv) c); done.
  - intros H v Hv. apply (Hd v Hv). intros c Hc _ Hb. by apply H.
Qed.

Lemma group_nonempty cs c : c ∈ cs -> group_of cs c <> [].
Proof.
  intros Hc E. assert (H : c ∈ group_of cs c) by (by apply list_elem_of_filter).
  rewrite E in H. by apply elem_of_nil in H.
Qed.

Lemma retain_first_elem seen cs a :
  a ∈ addr <$> retain_first seen cs <-> (a ∉ seen) /\ a ∈ addr <$> cs.
Proof.
  revert seen; induction cs as [|c cs IH]; intros seen; simpl; [set_solver|].
  case_decide; simpl; rewrite ?elem_of_cons, IH; [set_solver|].
  destruct (decide (a = addr c)); set_solver.
Qed.

Lemma retain_first_nodup seen cs : NoDup (addr <$> retain_first seen cs).
Proof.
  revert seen; induction cs as [|c cs IH]; intros seen; simpl; [constructor|].
  case_decide; [apply IH|]. simpl. constructor; [|apply IH]. rewrite retain_first_elem. set_solver.
Qed.

Lemma retain_first_sublist seen cs : sublist (retain_first seen cs) cs.
Proof.
  revert seen; induction cs as [|c cs IH]; intros seen; simpl; [constructor|].
  case_decide; constructor; apply IH.
Qed.

(** ** Properties *)

(** Reconciliation keeps exactly what every description agrees on. The facts
    a candidate ends up with say something if and only if every listing of its
    name that bears on its address says it; the candidates themselves, their
    order and their number are untouched. *)
Theorem reconcile_agreed candidates i c :
  candidates !! i = Some c ->
  exists f, reconcile_by_name candidates !! i = Some (mkCandidate (addr c) f (lister c)) /\
    forall q, says f q <->
      forall c', c' ∈ group_of candidates c -> bears_on (group_of candidates c) (addr c) c' ->
        says (facts c') q.
Proof.
  intros Hi. eexists. split.
  - unfold reconcile_by_name. rewrite list_lookup_fmap, Hi. reflexivity.
  - intros q. apply reconciled_says, group_nonempty. by eapply list_elem_of_lookup_2.
Qed.

(** The outcome does not depend on the order of providers or listings. Two
    orders of the same candidates give an address the same facts. *)
Theorem reconcile_order_independent cs cs' c c' :
  cs ≡ₚ cs' -> c ∈ cs -> c' ∈ cs' -> addr c = addr c' ->
  reconciled (views (group_of cs c)) (addr c) = reconciled (views (group_of cs' c')) (addr c').
Proof.
  intros Hp Hc Hc' Ha. apply says_ext. intros q. rewrite !reconciled_says by (by apply group_nonempty).
  assert (Hg : forall x, x ∈ group_of cs c <-> x ∈ group_of cs' c').
  { intros x. unfold group_of, name_key. rewrite !list_elem_of_filter, Hp, Ha. done. }
  unfold bears_on. rewrite Ha. setoid_rewrite Hg. done.
Qed.

(** Merging lists every address once, in the order it was first listed, and
    loses none. *)
Theorem merge_listings_once candidates :
  NoDup (addr <$> merge_listings candidates) /\
  (forall a, a ∈ addr <$> merge_listings candidates <-> a ∈ addr <$> candidates) /\
  sublist (merge_listings candidates) (reconcile_by_name candidates).
Proof.
  unfold merge_listings. split_and!; [apply retain_first_nodup| |apply retain_first_sublist].
  intros a. rewrite retain_first_elem.
  assert (addr <$> reconcile_by_name candidates = addr <$> candidates) as ->.
  { unfold reconcile_by_name. rewrite <-list_fmap_compose. by apply list_fmap_ext. }
  set_solver.
Qed.

(** ** Witnesses *)

Definition sample_go : Candidate :=
  mkCandidate (mkAddr $"p" $"test" [($"v", $"1")]) (with_driver UNKNOWN $"bash") 0.
Definition sample_build : Candidate :=
  mkCandidate (mkAddr $"p" $"test" []) (with_driver UNKNOWN $"exec") 1.

Lemma reconcile_agreed_witness :
  exists f, reconcile_by_name [sample_go; sample_build] !! 0 = Some (mkCandidate (addr sample_go) f 0) /\
    ~ says f (SDriver $"bash").
Proof.
  destruct (reconcile_agreed [sample_go; sample_build] 0 sample_go eq_refl) as (f & E & Hf).
  exists f. split; [exact E|]. intros H. pose proof (proj1 (Hf _) H sample_build) as Hb.
  assert (driver (facts sample_build) = Some $"bash") as Hd; [|discriminate Hd].
  apply Hb.
  - apply list_elem_of_filter. split; [reflexivity|right; left].
  - right. intros c' Hc' El Ea. apply list_elem_of_filter in Hc' as [_ Hc'].
    apply elem_of_cons in Hc' as [-> | Hc']; [discriminate El|].
    apply list_elem_of_singleton in Hc' as ->. discriminate Ea.
Defined.

Lemma reconcile_order_independent_witness :
  reconciled (views (group_of [sample_go; sample_build] sample_go)) (addr sample_go) =
  reconciled (views (group_of [sample_build; sample_go] sample_go)) (addr sample_go).
Proof.
  apply (reconcile_order_independent [sample_go; sample_build] [sample_build; sample_go]).
  - apply Permutation_swap.
  - left.
  - right. left.
  - reflexivity.
Defined.
