(* ===== verification/TaskCell.v ===== *)
(** The task-backed memoizer cell: [crates/core/src/hmemoizer/task_cell.rs].

    A memoized computation is a cell, which its callers wait on, and a body
    task, which computes its value; [process] makes both together, so one
    number names them and [Gen] (a generation of its key) holds the two. The
    sections that run under the cache lock, the graves lock or one atomic are
    functions on the whole state, and an execution interleaves them: [step] has
    one constructor per section. [tokio] is a third-party crate: what its join
    handles and its [Notify] answer is the interface [Tokio], and when it runs,
    aborts or drops a task is up to the step relation. Instants, the report to
    the inventory and the debug-only stall timer are left out. *)
From S2P Require Import Prelude.
From stdpp Require Import gmap.

(** ** Data *)

Inductive poison := SpawnFailed | DroppedUnpublished.

(** What a body task does next: serialize on its predecessors, run the future,
    publish what it returned, be dropped, wake the waiters. *)
Inductive Phase V :=
| Draining
| Running
| Returned (v : V)
| Dropping
| Notifying
| Gone.
Arguments Draining {V}.
Arguments Running {V}.
Arguments Returned {V} v.
Arguments Dropping {V}.
Arguments Notifying {V}.
Arguments Gone {V}.

(** A [JoinHandle] is the number of the task it joins. *)
Record Grave := mkGrave { handle : nat; g_restarts : N }.

Section data.
Context (K V : Type).

Record TaskCell := mkCell {
  outcome : option (result poison V);
  interest : nat;
  task : option nat;
  restarts : N;
  inline : bool
}.

Record BodyTask := mkBody { key : K; grave : option Grave; phase : Phase V }.

(** A cell, its body, and what the runtime knows of the task: whether it was
    spawned and whether it was asked to abort. *)
Record Gen := mkGen { cell : TaskCell; body : BodyTask; spawned : bool; aborted : bool }.

(** Where a call of [process] is: polling the body on its own stack, at the top
    of the loop of [wait_done], registered with [Notify] but not checked yet,
    suspended ([woken] once notified), about to drop its guard, after the guard
    released the last interest, about to take the decision under the lock,
    about to abort. *)
Inductive Stage :=
| Inlining
| Waiting
| Registered (woken : bool)
| Parked (woken : bool)
| Leaving (armed : bool)
| Deciding
| Cancelling
| Aborting (task : nat).

Record Call := mkCall { c_key : K; c_cell : nat; stage : Stage }.
End data.

#[export] Instance Stage_eq_dec : EqDecision Stage.
Proof. solve_decision. Defined.

Arguments mkCell {V}. Arguments outcome {V}. Arguments interest {V}. Arguments task {V}.
Arguments restarts {V}. Arguments inline {V}.
Arguments mkBody {K V}. Arguments key {K V}. Arguments grave {K V}. Arguments phase {K V}.
Arguments mkGen {K V}. Arguments cell {K V}. Arguments body {K V}.
Arguments spawned {K V}. Arguments aborted {K V}.
Arguments mkCall {K}. Arguments c_key {K}. Arguments c_cell {K}. Arguments stage {K}.

(** The state the callers and the tasks share; [served] records what each call
    returned. *)
Record Sys K V `{Countable K} := mkSys {
  cells : list (gmap K nat);
  graves : gmap K Grave;
  gens : gmap nat (Gen K V);
  calls : list (Call K);
  served : list (K * nat * V)
}.
Arguments mkSys {K V _ _}. Arguments cells {K V _ _}. Arguments graves {K V _ _}.
Arguments gens {K V _ _}. Arguments calls {K V _ _}. Arguments served {K V _ _}.

Definition SHARDS : nat := 64.
Definition SHARD_BITS : N := 6.
Arguments SHARDS : simpl never.

(** ** The runtime *)

(** The call is registered with the [Notify] of [c]. *)
Definition listens {K} (c : nat) (x : Call K) : bool :=
  bool_decide (c_cell x = c) && match stage x with Registered _ | Parked _ => true | _ => false end.

Definition woken_stage (st : Stage) : Stage :=
  match st with Registered _ => Registered true | Parked _ => Parked true | st => st end.

(** [resolved] is what polling a join handle answers; [notify_waiters] is
    [Notify::notify_waiters]. *)
Class Tokio := {
  resolved : forall {K V}, gmap nat (Gen K V) -> nat -> bool;
  notify_waiters : forall {K}, nat -> list (Call K) -> list (Call K)
}.

(** A handle resolves only once its task finished, its future dropped; every
    registered waiter is woken and nobody else is touched. *)
Class TokioLaws `{Tokio} := {
  resolved_gone : forall {K V} (gs : gmap nat (Gen K V)) h,
    resolved gs h = true -> exists g, gs !! h = Some g /\ phase (body g) = Gone;
  notify_all : forall {K} c (xs : list (Call K)),
    notify_waiters c xs =
    (fun x => if listens c x then mkCall (c_key x) (c_cell x) (woken_stage (stage x)) else x) <$> xs
}.

#[export] Instance tokio_ref : Tokio := {|
  resolved K V gs h := match gs !! h with
    | Some g => match phase (body g) with Gone => true | _ => false end
    | None => false
    end;
  notify_waiters K c xs :=
    (fun x => if listens c x then mkCall (c_key x) (c_cell x) (woken_stage (stage x)) else x) <$> xs
|}.

#[export] Instance tokio_ref_laws : TokioLaws.
Proof.
  split; [|done]. intros K V gs h. simpl. destruct (gs !! h) as [g|]; [|done].
  intros Hr. exists g. split; [done|]. by destruct (phase (body g)).
Qed.

(** ** Operations *)

Section operations.
Context {K V : Type} `{Countable K} {tokio : Tokio}.
(** [FxBuildHasher.hash_one], a [u64]. *)
Variable fx : K -> N.
(** [HEPH_MEMOIZER_INLINE] is not 0. *)
Variable inline_first : bool.

Abbreviation gen := (Gen K V).
Abbreviation sys := (Sys K V).

(** *** The cache *)

(** [Maps::shard]. *)
Definition shard (k : K) : nat := N.to_nat (N.shiftr (fx k) (64 - SHARD_BITS)).

Definition cells_get (m : list (gmap K nat)) (k : K) : option nat := m !! shard k ≫= (!!) k.
Definition cache_get (s : sys) (k : K) : option nat := cells_get (cells s) k.
Definition cache_insert (k : K) (c : nat) (m : list (gmap K nat)) := alter <[k := c]> (shard k) m.
Definition cache_remove (k : K) (m : list (gmap K nat)) := alter (delete k) (shard k) m.

(** *** The cell *)

Definition peek (c : TaskCell V) : option V :=
  match outcome c with Some (Ok v) => Some v | _ => None end.
Definition is_done (c : TaskCell V) : bool :=
  match outcome c with Some (Ok _) => true | _ => false end.

(** [OnceLock::set], whose result is dropped. *)
Definition set_outcome (o : result poison V) (c : TaskCell V) : TaskCell V :=
  mkCell (match outcome c with Some o => Some o | None => Some o end)
    (interest c) (task c) (restarts c) (inline c).
Definition set_interest (n : nat) (c : TaskCell V) : TaskCell V :=
  mkCell (outcome c) n (task c) (restarts c) (inline c).
Definition acquire_interest (c : TaskCell V) : TaskCell V := set_interest (S (interest c)) c.
Definition release_interest (c : TaskCell V) : TaskCell V := set_interest (pred (interest c)) c.
Definition set_task (t : option nat) (c : TaskCell V) : TaskCell V :=
  mkCell (outcome c) (interest c) t (restarts c) (inline c).
Definition set_inline (b : bool) (c : TaskCell V) : TaskCell V :=
  mkCell (outcome c) (interest c) (task c) (restarts c) b.

Definition on_cell (f : TaskCell V -> TaskCell V) (g : gen) : gen :=
  mkGen (f (cell g)) (body g) (spawned g) (aborted g).
Definition set_phase (p : Phase V) (g : gen) : gen :=
  mkGen (cell g) (mkBody (key (body g)) (grave (body g)) p) (spawned g) (aborted g).
Definition set_grave (gr : option Grave) (g : gen) : gen :=
  mkGen (cell g) (mkBody (key (body g)) gr (phase (body g))) (spawned g) (aborted g).
Definition set_spawned (g : gen) : gen := mkGen (cell g) (body g) true (aborted g).
Definition set_aborted (g : gen) : gen := mkGen (cell g) (body g) (spawned g) true.

Definition put_gen (c : nat) (g : gen) (s : sys) : sys :=
  mkSys (cells s) (graves s) (<[c := g]> (gens s)) (calls s) (served s).
Definition put_graves (gv : gmap K Grave) (s : sys) : sys :=
  mkSys (cells s) gv (gens s) (calls s) (served s).
Definition put_calls (xs : list (Call K)) (s : sys) : sys :=
  mkSys (cells s) (graves s) (gens s) xs (served s).
Definition put_cells (m : list (gmap K nat)) (s : sys) : sys :=
  mkSys m (graves s) (gens s) (calls s) (served s).
Definition serve (k : K) (c : nat) (v : V) (s : sys) : sys :=
  mkSys (cells s) (graves s) (gens s) (calls s) ((k, c, v) :: served s).

(** *** [Drop for BodyTask] *)

(** The re-park: the predecessor this task still waited for goes back to the
    grave, whatever is there. *)
Definition drop_regrave (g : gen) (gv : gmap K Grave) : gmap K Grave :=
  match grave (body g) with
  | Some gr => <[key (body g) := mkGrave (handle gr) (restarts (cell g))]> gv
  | None => gv
  end.

(** The poison, after which the waiters are notified. *)
Definition drop_poison (g : gen) : gen :=
  match outcome (cell g) with
  | Some _ => set_phase Gone g
  | None => set_phase Notifying (on_cell (set_outcome (Err DroppedUnpublished)) g)
  end.

(** [spawn_body]: the handle is stored; a spawn that panics drops the future on
    the way out, and the second poison finds the first. *)
Definition spawn_body (spawn_ok : bool) (c : nat) (g : gen) (s : sys) : sys :=
  if spawn_ok then put_gen c (on_cell (set_task (Some c)) (set_spawned g)) s
  else put_gen c (on_cell (set_outcome (Err SpawnFailed)) (drop_poison (set_grave None (set_spawned g))))
         (put_graves (drop_regrave g (graves s)) s).

(** *** [TaskInner::process] *)

(** The cell and body a miss makes; the caller already holds an interest. *)
Definition new_gen (k : K) (gr : option Grave) : gen :=
  mkGen
    (mkCell None 1 None
       (match gr with None => 0 | Some g => (g_restarts g + 1) mod 2 ^ 32 end)%N inline_first)
    (mkBody k gr Draining) false false.

(** The section under the cache lock. [fresh] is the new allocation. *)
Definition process_enter (k : K) (fresh : nat) (spawn_ok : bool) (s : sys) : sys :=
  match cache_get s k with
  | Some c =>
      match gens s !! c with
      | Some g =>
          match peek (cell g) with
          | Some v => serve k c v s
          | None =>
              put_calls (mkCall k c Waiting :: calls s) (put_gen c (on_cell acquire_interest g) s)
          end
      | None => s
      end
  | None =>
      let g := new_gen k (graves s !! k) in
      let s := put_graves (delete k (graves s)) s in
      let s := put_cells (cache_insert k fresh (cells s)) (put_gen fresh g s) in
      if inline_first then put_calls (mkCall k fresh Inlining :: calls s) s
      else put_calls (mkCall k fresh Waiting :: calls s) (spawn_body spawn_ok fresh g s)
  end.

(** The inline poll is over: the body ran to its end or panicked, or it
    suspended, and is spawned under the cache lock. *)
Definition inline_end (c : nat) (spawn_ok : bool) (g : gen) (s : sys) : sys :=
  let g := on_cell (set_inline false) g in
  match phase (body g) with
  | Gone => put_gen c g s
  | _ => spawn_body spawn_ok c g s
  end.

(** *** [BodyTask::run] *)

(** The [None] arm of the drain loop. *)
Definition drain_take (c : nat) (g : gen) (s : sys) : sys :=
  match graves s !! key (body g) with
  | Some next => put_gen c (set_grave (Some next) g) (put_graves (delete (key (body g)) (graves s)) s)
  | None => put_gen c (set_phase Running g) s
  end.

(** [publish], up to [notify_waiters]. *)
Definition publish (v : V) (g : gen) : gen :=
  set_phase Notifying (on_cell (fun c => set_task None (set_outcome (Ok v) c)) g).

(** *** Leaving a call *)

(** One turn of [wait_done] after the registration: what the call becomes. *)
Definition check (w : bool) (c : TaskCell V) : Stage :=
  match outcome c with
  | Some (Ok _) => Leaving false
  | Some (Err _) => Leaving true
  | None => Parked w
  end.

(** [Drop for TaskAbandonGuard]: [None] when the call is over. *)
Definition release (armed : bool) (c : TaskCell V) : TaskCell V * option Stage :=
  let c := release_interest c in
  (c, if negb armed || negb (bool_decide (interest c = 0)) then None else Some Deciding).

Definition decide_cancel (c : TaskCell V) : option Stage :=
  if is_done c then None else Some Cancelling.

(** [cancel_abandoned], up to the abort. *)
Definition cancel_abandoned (k : K) (c : nat) (g : gen) (s : sys) : sys * option Stage :=
  if negb (bool_decide (interest (cell g) = 0)) || is_done (cell g) then (s, None)
  else
    let s := if decide (cache_get s k = Some c) then put_cells (cache_remove k (cells s)) s else s in
    match task (cell g) with
    | None => (s, None)
    | Some t =>
        (put_gen c (on_cell (set_task None) g)
           (put_graves (<[k := mkGrave t (restarts (cell g))]> (graves s)) s),
         Some (Aborting t))
    end.

(** [evict_if]. *)
Definition evict_if (k : K) (p : V -> bool) (s : sys) : sys :=
  match (cache_get s k ≫= (gens s !!.)) ≫= (fun g => peek (cell g)) with
  | Some v => if p v then put_cells (cache_remove k (cells s)) s else s
  | None => s
  end.

(** *** Executions *)

(** The values the closures passed for a key can compute. *)
Variable yields : K -> V -> Prop.

(** A stage change of one call; [None] ends it. *)
Definition to_stage (l1 : list (Call K)) (x : Call K) (l2 : list (Call K)) (st : option Stage) : list (Call K) :=
  l1 ++ match st with Some st => mkCall (c_key x) (c_cell x) st :: l2 | None => l2 end.

(** A body suspended or completed by the inline poll. *)
Definition inline_over (p : Phase V) : bool :=
  match p with Draining | Running | Gone => true | _ => false end.

(** The steps of the body tasks, polled on a caller's stack or by the runtime.
    A task is dropped when it was aborted, when its body panics, or when the
    runtime shuts down, which can happen at any time. *)
Inductive task_step (s : sys) : sys -> Prop :=
| step_await c g gr :
    gens s !! c = Some g -> phase (body g) = Draining -> grave (body g) = Some gr ->
    resolved (gens s) (handle gr) = true ->
    task_step s (put_gen c (set_grave None g) s)
| step_take c g :
    gens s !! c = Some g -> phase (body g) = Draining -> grave (body g) = None ->
    task_step s (drain_take c g s)
| step_return c g v :
    gens s !! c = Some g -> phase (body g) = Running -> yields (key (body g)) v ->
    task_step s (put_gen c (set_phase (Returned v) g) s)
| step_publish c g v :
    gens s !! c = Some g -> phase (body g) = Returned v ->
    task_step s (put_gen c (publish v g) s)
| step_drop c g :
    gens s !! c = Some g -> phase (body g) = Running \/ phase (body g) = Draining /\ spawned g = true ->
    task_step s (put_gen c (set_phase Dropping (set_grave None g)) (put_graves (drop_regrave g (graves s)) s))
| step_poison c g :
    gens s !! c = Some g -> phase (body g) = Dropping ->
    task_step s (put_gen c (drop_poison g) s)
| step_notify c g :
    gens s !! c = Some g -> phase (body g) = Notifying ->
    task_step s (put_calls (notify_waiters c (calls s)) (put_gen c (set_phase Gone g) s)).

(** The steps of one call that already has its cell. *)
Inductive call_step (s : sys) (l1 : list (Call K)) (x : Call K) (l2 : list (Call K)) (g : gen) : sys -> Prop :=
| step_inline_end spawn_ok :
    stage x = Inlining -> inline_over (phase (body g)) = true ->
    call_step s l1 x l2 g
      (put_calls (to_stage l1 x l2 (Some Waiting)) (inline_end (c_cell x) spawn_ok g s))
| step_register :
    stage x = Waiting ->
    call_step s l1 x l2 g (put_calls (to_stage l1 x l2 (Some (Registered false))) s)
| step_check w :
    stage x = Registered w ->
    call_step s l1 x l2 g
      (put_calls (to_stage l1 x l2 (Some (check w (cell g))))
         match peek (cell g) with Some v => serve (c_key x) (c_cell x) v s | None => s end)
| step_wake :
    stage x = Parked true ->
    call_step s l1 x l2 g (put_calls (to_stage l1 x l2 (Some Waiting)) s)
| step_abandon w :
    stage x = Parked w ->
    call_step s l1 x l2 g (put_calls (to_stage l1 x l2 (Some (Leaving true))) s)
| step_release armed :
    stage x = Leaving armed ->
    call_step s l1 x l2 g
      (put_calls (to_stage l1 x l2 (release armed (cell g)).2)
         (put_gen (c_cell x) (on_cell (fun c => (release armed c).1) g) s))
| step_decide :
    stage x = Deciding ->
    call_step s l1 x l2 g (put_calls (to_stage l1 x l2 (decide_cancel (cell g))) s)
| step_cancel s' st :
    stage x = Cancelling -> cancel_abandoned (c_key x) (c_cell x) g s = (s', st) ->
    call_step s l1 x l2 g (put_calls (to_stage l1 x l2 st) s').

Inductive step (s : sys) : sys -> Prop :=
| step_enter k fresh spawn_ok :
    gens s !! fresh = None -> step s (process_enter k fresh spawn_ok s)
| step_task s' : task_step s s' -> step s s'
| step_call l1 x l2 g s' :
    calls s = l1 ++ x :: l2 -> gens s !! c_cell x = Some g -> call_step s l1 x l2 g s' -> step s s'
| step_abort l1 x l2 t g :
    calls s = l1 ++ x :: l2 -> stage x = Aborting t -> gens s !! t = Some g ->
    step s (put_calls (l1 ++ l2) (put_gen t (set_aborted g) s))
| step_evict k p : step s (evict_if k p s).

Definition init : sys := mkSys (replicate SHARDS ∅) ∅ ∅ [] [].

Definition reachable (s : sys) : Prop := rtc step init s.
End operations.

(** ** Invariant *)

(** The calls whose guard still owes a release. *)
Definition holds {K} (c : nat) (x : Call K) : nat :=
  if bool_decide (c_cell x = c) then
    match stage x with Deciding | Cancelling | Aborting _ => 0 | _ => 1 end
  else 0.
Definition holders {K} (c : nat) (xs : list (Call K)) : nat := sum_list_with (holds c) xs.

(** The phases before the cell has its outcome. *)
Definition unsettled {V} (p : Phase V) : bool :=
  match p with Draining | Running | Returned _ | Dropping => true | _ => false end.
(** The phases of a task that still has its future. *)
Definition live {V} (p : Phase V) : bool :=
  match p with Draining | Running | Returned _ => true | _ => false end.

Section invariant.
Context {K V : Type} `{Countable K} {tokio : Tokio} {laws : TokioLaws}.
Variable fx : K -> N.
Hypothesis fx_u64 : forall k, (fx k < 2 ^ 64)%N.
Variable inline_first : bool.
Variable yields : K -> V -> Prop.

Abbreviation gen := (Gen K V).
Abbreviation sys := (Sys K V).
Abbreviation cached s k := (cache_get fx s k).

Lemma shard_lt k : shard fx k < SHARDS.
Proof.
  unfold shard, SHARDS. rewrite N.shiftr_div_pow2. change (64 - SHARD_BITS)%N with 58%N.
  specialize (fx_u64 k). assert (fx k / 2 ^ 58 < 64)%N; [|lia].
  apply N.Div0.div_lt_upper_bound. change (2 ^ 58 * 64)%N with (2 ^ 64)%N. done.
Qed.

Lemma cells_get_insert m k c k' : length m = SHARDS ->
  cells_get fx (cache_insert fx k c m) k' = if decide (k' = k) then Some c else cells_get fx m k'.
Proof.
  intros Hl. unfold cells_get, cache_insert. case_decide as Hk.
  - subst. rewrite list_lookup_alter_eq. pose proof (shard_lt k) as Hlt. rewrite <-Hl in Hlt.
    apply lookup_lt_is_Some in Hlt as [x ->]. simpl. by rewrite lookup_insert_eq.
  - destruct (decide (shard fx k = shard fx k')) as [E|].
    + rewrite E, list_lookup_alter_eq. destruct (m !! shard fx k'); simpl; [|done].
      by rewrite lookup_insert_ne.
    + by rewrite list_lookup_alter_ne.
Qed.

Lemma cells_get_remove m k k' :
  cells_get fx (cache_remove fx k m) k' = if decide (k' = k) then None else cells_get fx m k'.
Proof.
  unfold cells_get, cache_remove. case_decide as Hk.
  - subst. rewrite list_lookup_alter_eq. destruct (m !! shard fx k); simpl; [|done].
    by rewrite lookup_delete_eq.
  - destruct (decide (shard fx k = shard fx k')) as [E|].
    + rewrite E, list_lookup_alter_eq. destruct (m !! shard fx k'); simpl; [|done].
      by rewrite lookup_delete_ne.
    + by rewrite list_lookup_alter_ne.
Qed.

Record gen_inv (s : sys) (c : nat) (g : gen) : Prop := {
  gi_outcome : outcome (cell g) = None <-> unsettled (phase (body g)) = true;
  gi_yields v : peek (cell g) = Some v \/ phase (body g) = Returned v -> yields (key (body g)) v;
  gi_task h : task (cell g) = Some h ->
    h = c /\ cached s (key (body g)) = Some c /\ is_done (cell g) = false;
  gi_mapped : 0 < interest (cell g) -> is_done (cell g) = false -> cached s (key (body g)) = Some c;
  gi_aborted : aborted g = true -> interest (cell g) = 0 /\ cached s (key (body g)) <> Some c;
  gi_slot : spawned g = true -> live (phase (body g)) = true -> cached s (key (body g)) = Some c ->
    task (cell g) = Some c;
  gi_interest : interest (cell g) = holders c (calls s);
  gi_driven : spawned g = false -> phase (body g) = Gone \/
    exists x, x ∈ calls s /\ c_cell x = c /\ stage x = Inlining
}.

Record call_inv (s : sys) (x : Call K) (g : gen) : Prop := {
  ci_key : key (body g) = c_key x;
  ci_parked : stage x = Parked false -> outcome (cell g) = None \/ phase (body g) = Notifying;
  ci_aborting t : stage x = Aborting t -> t = c_cell x /\ interest (cell g) = 0 /\ cached s (c_key x) <> Some t
}.

Record inv (s : sys) : Prop := {
  inv_len : length (cells s) = SHARDS;
  inv_cached k c : cached s k = Some c -> exists g, gens s !! c = Some g /\ key (body g) = k;
  inv_gens c g : gens s !! c = Some g -> gen_inv s c g;
  inv_calls x : x ∈ calls s -> exists g, gens s !! c_cell x = Some g /\ call_inv s x g;
  inv_served k c v : (k, c, v) ∈ served s ->
    exists g, gens s !! c = Some g /\ key (body g) = k /\ peek (cell g) = Some v
}.

Lemma cell_init_inv : inv init.
Proof.
  split; cbn [cells gens calls served init].
  - apply length_replicate.
  - intros k c. unfold cache_get, cells_get. cbn [cells init].
    rewrite lookup_replicate_2; [|apply shard_lt].
    cbn. by rewrite lookup_empty.
  - intros c g. by rewrite lookup_empty.
  - intros x Hx. by apply elem_of_nil in Hx.
  - intros k c v Hx. by apply elem_of_nil in Hx.
Qed.

(** What a step of its task does to a generation. *)
Record evolves (g g' : gen) : Prop := {
  ev_key : key (body g') = key (body g);
  ev_interest : interest (cell g') = interest (cell g);
  ev_task : task (cell g') = task (cell g) \/ task (cell g') = None;
  ev_aborted : aborted g' = aborted g;
  ev_spawned : spawned g' = spawned g;
  ev_peek v : peek (cell g) = Some v -> peek (cell g') = Some v;
  ev_done : is_done (cell g') = true -> is_done (cell g) = true \/ task (cell g') = None;
  ev_live : live (phase (body g')) = true -> live (phase (body g)) = true /\ task (cell g') = task (cell g);
  ev_gone : phase (body g) = Gone -> phase (body g') = Gone;
  ev_silent : outcome (cell g) = None \/ phase (body g) = Notifying ->
    outcome (cell g') = None \/ phase (body g') = Notifying
}.

Lemma is_done_peek (c : TaskCell V) : is_done c = true <-> is_Some (peek c).
Proof.
  unfold is_done, peek. destruct (outcome c) as [[v|e]|].
  all: split; [by eauto|by intros [? ?]].
Qed.

Lemma evolves_done g g' : evolves g g' -> is_done (cell g') = false -> is_done (cell g) = false.
Proof.
  intros He Hd. destruct (is_done (cell g)) eqn:E; [|done].
  apply is_done_peek in E as [v Hv]. apply (ev_peek _ _ He) in Hv.
  assert (is_done (cell g') = true); [apply is_done_peek; by eexists|congruence].
Qed.

Lemma inv_evolve s c g g' gv : inv s -> gens s !! c = Some g -> evolves g g' ->
  (outcome (cell g') = None <-> unsettled (phase (body g')) = true) ->
  (forall v, peek (cell g') = Some v \/ phase (body g') = Returned v -> yields (key (body g')) v) ->
  inv (put_gen c g' (put_graves gv s)).
Proof.
  intros [Hlen Hc Hg Hx Hs] E He Ho Hy. split; simpl; [done|..].
  - intros k c' Hk. apply Hc in Hk as (g0 & E0 & <-). destruct (decide (c' = c)) as [->|].
    + exists g'. rewrite lookup_insert_eq. split; [done|]. rewrite (ev_key _ _ He). congruence.
    + exists g0. by rewrite lookup_insert_ne.
  - intros c' g0. rewrite lookup_insert_Some. intros [[<- <-]|[Hne E0]].
    + destruct (Hg _ _ E) as [Ho1 Hy1 Ht1 Hm1 Ha1 Hsl1 Hi1 Hd1].
      pose proof He as [Ek Ei Et Ea Es Ep Ed El Eg _]. split; simpl; rewrite ?Ek, ?Ei, ?Ea, ?Es; try done.
      * by rewrite Ek in Hy.
      * intros h Eh. destruct Et as [Et|Et]; [|congruence]. rewrite Et in Eh.
        destruct (Ht1 _ Eh) as (-> & Hk & Hnd). split_and!; [done|done|].
        destruct (is_done (cell g')) eqn:Edd; [|done]. destruct (Ed eq_refl); congruence.
      * intros Hpos Hnd. apply Hm1; [done|]. by eapply evolves_done.
      * intros Hsp Hl Hk. destruct (El Hl) as [Hl' ->]. by apply Hsl1.
      * intros Hsp. destruct (Hd1 Hsp) as [Hgo|Hin]; [left; by apply Eg|by right].
    + destruct (Hg _ _ E0). by split.
  - intros x Hxx. destruct (Hx x Hxx) as (g0 & E0 & [Hk Hp Hab]). destruct (decide (c_cell x = c)) as [Hcx|].
    + exists g'. rewrite Hcx, lookup_insert_eq. split; [done|]. rewrite Hcx, E in E0. simplify_eq.
      split; rewrite ?(ev_key _ _ He), ?(ev_interest _ _ He); try done.
      intros Hst. by apply (ev_silent _ _ He), Hp.
    + exists g0. rewrite lookup_insert_ne by done. by split.
  - intros k c' v Hin. destruct (Hs _ _ _ Hin) as (g0 & E0 & Hk & Hp). destruct (decide (c' = c)) as [->|].
    + exists g'. rewrite lookup_insert_eq. rewrite E in E0. simplify_eq.
      split_and!; [done|by rewrite (ev_key _ _ He)|by apply (ev_peek _ _ He)].
    + exists g0. by rewrite lookup_insert_ne.
Qed.

Lemma put_graves_id (s : sys) : put_graves (graves s) s = s.
Proof. by destruct s. Qed.

Lemma put_gen_id (s : sys) c g : gens s !! c = Some g -> put_gen c g s = s.
Proof. destruct s. unfold put_gen. simpl. intros E. by rewrite insert_id. Qed.

Lemma inv_evolve_gen s c g g' : inv s -> gens s !! c = Some g -> evolves g g' ->
  (outcome (cell g') = None <-> unsettled (phase (body g')) = true) ->
  (forall v, peek (cell g') = Some v \/ phase (body g') = Returned v -> yields (key (body g')) v) ->
  inv (put_gen c g' s).
Proof. intros. rewrite <-(put_graves_id s). by eapply inv_evolve. Qed.

Definition wake (c : nat) (x : Call K) : Call K :=
  if listens c x then mkCall (c_key x) (c_cell x) (woken_stage (stage x)) else x.

Lemma wake_fields c x : c_key (wake c x) = c_key x /\ c_cell (wake c x) = c_cell x /\
  (forall c', holds c' (wake c x) = holds c' x) /\
  (stage x = Inlining -> wake c x = x) /\
  (stage (wake c x) = Parked false -> stage x = Parked false /\ c_cell x <> c) /\
  (forall t, stage (wake c x) = Aborting t -> stage x = Aborting t).
Proof.
  unfold wake, listens, holds. destruct x as [k c0 st]. simpl.
  case_bool_decide; destruct st; simpl; split_and!; by intros.
Qed.

Lemma holders_wake c c' xs : holders c' (wake c <$> xs) = holders c' xs.
Proof.
  unfold holders. induction xs as [|x xs IH]; [done|]. rewrite fmap_cons.
  cbn [sum_list_with]. rewrite IH. by destruct (wake_fields c x) as (_ & _ & -> & _).
Qed.

Lemma inv_notify s c g : inv s -> gens s !! c = Some g -> phase (body g) = Notifying ->
  inv (put_calls (notify_waiters c (calls s)) (put_gen c (set_phase Gone g) s)).
Proof.
  intros [Hlen Hc Hg Hx Hs] E Hp. rewrite notify_all. fold (wake c). split; simpl; [done|..].
  - intros k c' Hk. apply Hc in Hk as (g0 & E0 & <-). destruct (decide (c' = c)) as [->|].
    + eexists. rewrite lookup_insert_eq. split; [done|]. by simplify_eq.
    + exists g0. by rewrite lookup_insert_ne.
  - assert (Hin : forall c' x, x ∈ calls s /\ c_cell x = c' /\ stage x = Inlining ->
      exists x, x ∈ wake c <$> calls s /\ c_cell x = c' /\ stage x = Inlining).
    { intros c' x (Hxx & Ec & Est). exists x. split_and!; [|done..]. apply list_elem_of_fmap.
      exists x. split; [|done]. destruct (wake_fields c x) as (_ & _ & _ & Hw & _). by rewrite Hw. }
    intros c' g0. rewrite lookup_insert_Some. intros [[<- <-]|[Hne E0]].
    + destruct (Hg _ _ E) as [Ho1 Hy1 Ht1 Hm1 Ha1 Hsl1 Hi1 Hd1]. rewrite Hp in *.
      split; simpl; try done; [naive_solver| |by left]. by rewrite holders_wake.
    + destruct (Hg _ _ E0) as [Ho1 Hy1 Ht1 Hm1 Ha1 Hsl1 Hi1 Hd1]. split; simpl; try done.
      * by rewrite holders_wake.
      * intros Hsp. destruct (Hd1 Hsp) as [|[x Hxx]]; [by left|right; by eapply Hin].
  - intros x' (x & -> & Hxx)%list_elem_of_fmap. destruct (Hx x Hxx) as (g0 & E0 & [Hk Hpk Hab]).
    destruct (wake_fields c x) as (Ek & Ec & _ & _ & Hw & Hw'). rewrite Ec.
    destruct (decide (c_cell x = c)) as [Hcx|Hcx].
    + eexists. rewrite Hcx, lookup_insert_eq. split; [done|]. rewrite Hcx, E in E0. simplify_eq.
      split; rewrite ?Ek, ?Ec; [done| |].
      * intros Hst. by destruct (Hw Hst).
      * intros t Ht. by apply Hab, Hw'.
    + exists g0. rewrite lookup_insert_ne by done. split; [done|].
      split; rewrite ?Ek, ?Ec; [done| |].
      * intros Hst. by apply Hpk, Hw.
      * intros t Ht. by apply Hab, Hw'.
  - intros k c' v Hin. destruct (Hs _ _ _ Hin) as (g0 & E0 & Hk & Hpk). destruct (decide (c' = c)) as [->|].
    + exists (set_phase Gone g). rewrite lookup_insert_eq. rewrite E in E0. by simplify_eq.
    + exists g0. by rewrite lookup_insert_ne.
Qed.

(** The conditions of [inv_evolve] on a generation whose phase is known. *)
Ltac evolve Hi E Hp :=
  let Ho := fresh "Ho" in let Hy := fresh "Hy" in let En := fresh "En" in
  destruct (inv_gens _ Hi _ _ E) as [Ho Hy _ _ _ _ _ _]; rewrite Hp in Ho, Hy;
  assert (En := proj2 Ho); simpl in En; try specialize (En eq_refl);
  lazymatch goal with |- evolves _ _ => split | _ => idtac end;
  unfold peek, is_done, publish, drop_poison, set_outcome in *; try rewrite En in *; simpl in *;
  rewrite ?Hp, ?En; simpl; clear Ho;
  first [done | by left | by right | intros; destruct_or?; simplify_eq; by eauto].

Lemma task_step_inv s s' : inv s -> task_step yields s s' -> inv s'.
Proof.
  intros Hi. destruct 1 as [c g gr E Hp _ _|c g E Hp _|c g v E Hp Hy|c g v E Hp|c g E Hp|c g E Hp|c g E Hp].
  - eapply inv_evolve_gen; [done|done|..]; evolve Hi E Hp.
  - unfold drain_take. destruct (graves s !! _).
    + eapply inv_evolve; [done|done|..]; evolve Hi E Hp.
    + eapply inv_evolve_gen; [done|done|..]; evolve Hi E Hp.
  - eapply inv_evolve_gen; [done|done|..]; evolve Hi E Hp.
  - eapply inv_evolve_gen; [done|done|..]; evolve Hi E Hp.
  - eapply inv_evolve; [done|done|..]; destruct Hp as [Hp|[Hp _]]; evolve Hi E Hp.
  - eapply inv_evolve_gen; [done|done|..]; evolve Hi E Hp.
  - by eapply inv_notify.
Qed.

(** *** Steps of a call *)

(** The interest a stage holds. *)
Definition weight (st : option Stage) : nat :=
  match st with
  | None | Some Deciding | Some Cancelling | Some (Aborting _) => 0
  | Some _ => 1
  end.

Lemma holds_weight c (x : Call K) : holds c x = if decide (c_cell x = c) then weight (Some (stage x)) else 0.
Proof. unfold holds. repeat case_decide; case_bool_decide; try done; by destruct (stage x). Qed.

Lemma holders_to_stage c l1 (x : Call K) l2 st :
  holders c (to_stage l1 x l2 st) + holds c x =
  holders c (l1 ++ x :: l2) + if decide (c_cell x = c) then weight st else 0.
Proof.
  unfold holders, to_stage. rewrite !sum_list_with_app. cbn [sum_list_with].
  destruct st as [st|]; cbn [sum_list_with].
  - rewrite (holds_weight c (mkCall (c_key x) (c_cell x) st)). simpl. lia.
  - simpl. case_decide; lia.
Qed.

Lemma to_stage_elem (y : Call K) l1 x l2 st : y ∈ to_stage l1 x l2 st ->
  y ∈ l1 ++ x :: l2 \/ exists s', st = Some s' /\ y = mkCall (c_key x) (c_cell x) s'.
Proof. unfold to_stage. destruct st; set_solver. Qed.

Lemma to_stage_other (y : Call K) l1 x l2 st : y ∈ l1 ++ x :: l2 -> y = x \/ y ∈ to_stage l1 x l2 st.
Proof. unfold to_stage. destruct st; set_solver. Qed.

(** An inline driver is still there after a step of another call. *)
Definition driver (xs : list (Call K)) (c : nat) : Prop := exists x, x ∈ xs /\ c_cell x = c /\ stage x = Inlining.

Lemma driver_to_stage xs l1 x l2 st c : xs = l1 ++ x :: l2 -> driver xs c ->
  (c_cell x = c -> stage x <> Inlining) -> driver (to_stage l1 x l2 st) c.
Proof.
  intros -> (y & Hy & Ecy & Est) Hx. destruct (to_stage_other y l1 x l2 st Hy) as [->|Hy']; [|by exists y].
  by destruct (Hx Ecy).
Qed.

(** A call that has not released is counted. *)
Lemma call_interest s l1 x l2 g : inv s -> calls s = l1 ++ x :: l2 -> gens s !! c_cell x = Some g ->
  weight (Some (stage x)) = 1 -> 0 < interest (cell g).
Proof.
  intros Hi Ecs E Hw. rewrite (gi_interest _ _ _ (inv_gens _ Hi _ _ E)), Ecs. unfold holders.
  rewrite sum_list_with_app. cbn [sum_list_with]. rewrite holds_weight, decide_True by done. lia.
Qed.

(** What a step of a call does to the generation it waits on. *)
Record serves (s : sys) (x : Call K) (st : option Stage) (g g' : gen) : Prop := {
  sv_key : key (body g') = key (body g);
  sv_aborted : aborted g' = true -> aborted g = true \/
    interest (cell g) = 0 /\ cached s (key (body g)) <> Some (c_cell x);
  sv_interest : interest (cell g') + weight (Some (stage x)) = interest (cell g) + weight st;
  sv_weight : weight st <= weight (Some (stage x));
  sv_peek v : peek (cell g) = Some v -> peek (cell g') = Some v;
  sv_silent : outcome (cell g) = None \/ phase (body g) = Notifying ->
    outcome (cell g') = None \/ phase (body g') = Notifying;
  sv_outcome : outcome (cell g') = None <-> unsettled (phase (body g')) = true;
  sv_yields v : peek (cell g') = Some v \/ phase (body g') = Returned v -> yields (key (body g')) v;
  sv_task h : task (cell g') = Some h ->
    h = c_cell x /\ cached s (key (body g)) = Some (c_cell x) /\ is_done (cell g') = false;
  sv_slot : spawned g' = true -> live (phase (body g')) = true -> cached s (key (body g)) = Some (c_cell x) ->
    task (cell g') = Some (c_cell x);
  sv_driven : spawned g' = false -> spawned g = false /\ phase (body g') = phase (body g) /\
    (stage x = Inlining -> phase (body g') = Gone);
  sv_parked : st = Some (Parked false) -> outcome (cell g') = None \/ phase (body g') = Notifying;
  sv_aborting t : st <> Some (Aborting t)
}.

Lemma inv_serve s l1 x l2 g g' st gv : inv s -> calls s = l1 ++ x :: l2 ->
  gens s !! c_cell x = Some g -> serves s x st g g' ->
  inv (put_calls (to_stage l1 x l2 st) (put_gen (c_cell x) g' (put_graves gv s))).
Proof.
  intros [Hlen Hc Hg Hx Hs] Ecs E Hv. split; simpl; [done|..].
  - intros k c' Hk. apply Hc in Hk as (g0 & E0 & <-). destruct (decide (c' = c_cell x)) as [->|].
    + exists g'. rewrite lookup_insert_eq. split; [done|]. rewrite (sv_key _ _ _ _ _ Hv). congruence.
    + exists g0. by rewrite lookup_insert_ne.
  - intros c' g0. rewrite lookup_insert_Some. intros [[<- <-]|[Hne E0]].
    + destruct (Hg _ _ E) as [Ho1 Hy1 Ht1 Hm1 Ha1 Hsl1 Hi1 Hd1]. pose proof Hv as [Ek Ea Ei Ew Ep _ Eo Ey Et El Ed _ _].
      pose proof (holders_to_stage (c_cell x) l1 x l2 st) as Hh. rewrite <-Ecs, holds_weight, !decide_True in Hh by done.
      split; simpl; rewrite ?Ek; try done.
      * by rewrite Ek in Ey.
      * intros Hpos Hnd. apply Hm1; [lia|]. destruct (is_done (cell g)) eqn:Edd; [|done].
        apply is_done_peek in Edd as [v Hpv]. apply Ep in Hpv.
        assert (is_done (cell g') = true) by (apply is_done_peek; by eexists). congruence.
      * intros [Hab|[]]%Ea; [destruct (Ha1 Hab)|]; (split; [lia|done]).
      * lia.
      * intros Hsp. destruct (Ed Hsp) as (Hsp' & Eph & Hin). rewrite Eph in *.
        destruct (Hd1 Hsp') as [|Hdr]; [by left|]. destruct (decide (stage x = Inlining)) as [|Hni]; [left; by apply Hin|right].
        by eapply driver_to_stage.
    + destruct (Hg _ _ E0) as [Ho1 Hy1 Ht1 Hm1 Ha1 Hsl1 Hi1 Hd1]. split; simpl; try done.
      * pose proof (holders_to_stage c' l1 x l2 st) as Hh. rewrite <-Ecs, holds_weight, !decide_False in Hh by done. lia.
      * intros Hsp. destruct (Hd1 Hsp) as [|Hdr]; [by left|right]. by eapply driver_to_stage.
  - assert (Hold : forall y, y ∈ calls s -> exists g0, <[c_cell x:=g']> (gens s) !! c_cell y = Some g0 /\
      call_inv (put_calls (to_stage l1 x l2 st) (put_gen (c_cell x) g' (put_graves gv s))) y g0).
    { intros y Hy. destruct (Hx y Hy) as (g0 & E0 & [Hk Hp Hab]). destruct (decide (c_cell y = c_cell x)) as [Hcy|].
      - exists g'. rewrite Hcy, lookup_insert_eq. split; [done|]. rewrite Hcy, E in E0. simplify_eq.
        split; rewrite ?(sv_key _ _ _ _ _ Hv); [done| |].
        + intros Hst. by apply (sv_silent _ _ _ _ _ Hv), Hp.
        + intros t Ht. destruct (Hab t Ht) as (? & ? & ?). split_and!; [done| |done].
          pose proof (sv_interest _ _ _ _ _ Hv). pose proof (sv_weight _ _ _ _ _ Hv). lia.
      - exists g0. rewrite lookup_insert_ne by done. by split. }
    intros y [Hy|(st' & -> & ->)]%to_stage_elem; [apply Hold; by rewrite Ecs|].
    simpl. exists g'. rewrite lookup_insert_eq. split; [done|].
    destruct (Hx x) as (g0 & E0 & [Hk _ _]); [rewrite Ecs; apply elem_of_app; right; by left|]. rewrite E in E0. simplify_eq.
    split; simpl; [by rewrite (sv_key _ _ _ _ _ Hv)| |].
    + intros ->. by apply (sv_parked _ _ _ _ _ Hv).
    + intros t ->. by destruct (sv_aborting _ _ _ _ _ Hv t).
  - intros k c' v Hin. destruct (Hs _ _ _ Hin) as (g0 & E0 & Hk & Hp). destruct (decide (c' = c_cell x)) as [->|].
    + exists g'. rewrite lookup_insert_eq. rewrite E in E0. simplify_eq.
      split_and!; [done|by rewrite (sv_key _ _ _ _ _ Hv)|by apply (sv_peek _ _ _ _ _ Hv)].
    + exists g0. by rewrite lookup_insert_ne.
Qed.

Lemma inv_serve_gen s l1 x l2 g g' st : inv s -> calls s = l1 ++ x :: l2 ->
  gens s !! c_cell x = Some g -> serves s x st g g' ->
  inv (put_calls (to_stage l1 x l2 st) (put_gen (c_cell x) g' s)).
Proof. intros. rewrite <-(put_graves_id s). by eapply inv_serve. Qed.

Lemma inv_restage s l1 x l2 g st : inv s -> calls s = l1 ++ x :: l2 -> gens s !! c_cell x = Some g ->
  stage x <> Inlining -> weight st = weight (Some (stage x)) ->
  (st = Some (Parked false) -> outcome (cell g) = None) -> (forall t, st <> Some (Aborting t)) ->
  inv (put_calls (to_stage l1 x l2 st) s).
Proof.
  intros Hi Ecs E Hni Hw Hpk Hab. rewrite <-(put_gen_id s _ _ E). eapply inv_serve_gen; [done..|].
  destruct (inv_gens _ Hi _ _ E) as [Ho Hy Ht Hm Ha Hsl Hin Hd].
  split; try done; [by left|lia|lia|]. intros. left. by apply Hpk.
Qed.

Lemma inv_served_cons s k c g v : inv s -> gens s !! c = Some g -> key (body g) = k ->
  peek (cell g) = Some v -> inv (serve k c v s).
Proof.
  intros [Hlen Hc Hg Hx Hs] E Hk Hp. split; simpl; [done|done| | |].
  - intros c' g' E'. by destruct (Hg c' g' E').
  - intros x Hin. destruct (Hx x Hin) as (g0 & E0 & [? ? ?]). by exists g0.
  - intros k' c' v' [[= -> -> ->]|Hin]%elem_of_cons; [by exists g|by apply Hs].
Qed.

Lemma inline_end_inv s l1 x l2 g ok : inv s -> calls s = l1 ++ x :: l2 -> gens s !! c_cell x = Some g ->
  stage x = Inlining -> inline_over (phase (body g)) = true ->
  inv (put_calls (to_stage l1 x l2 (Some Waiting)) (inline_end (c_cell x) ok g s)).
Proof.
  intros Hi Ecs E Hst Hover. destruct (inv_gens _ Hi _ _ E) as [Ho Hy Ht Hm Ha Hsl Hin Hd].
  assert (Hpos : 0 < interest (cell g)) by (eapply call_interest; [done..|by rewrite Hst]).
  unfold inline_end. cbn [on_cell body].
  assert (Hcase : phase (body g) = Gone \/ outcome (cell g) = None /\
    (phase (body g) = Draining \/ phase (body g) = Running)).
  { destruct (phase (body g)) eqn:Eph; try done; [right|right|by left].
    all: split; [by apply Ho|auto]. }
  destruct Hcase as [Eph|[En Eph]].
  - rewrite Eph in *. eapply inv_serve_gen; [done..|]. split; simpl; rewrite ?Hst, ?Eph; try done; try (intros; by left).
  - assert (Hmap : cached s (key (body g)) = Some (c_cell x)).
    { apply Hm; [done|]. unfold is_done. by rewrite En. }
    assert (Hu : unsettled (phase (body g)) = true) by (by apply Ho).
    assert (Hyy : forall v, phase (body g) <> Returned v) by (by destruct Eph as [->| ->]).
    assert (Hgo : match phase (body g) with Gone => put_gen (c_cell x) (on_cell (set_inline false) g) s
      | _ => spawn_body ok (c_cell x) (on_cell (set_inline false) g) s end =
      spawn_body ok (c_cell x) (on_cell (set_inline false) g) s) by (by destruct Eph as [->| ->]).
    rewrite Hgo. clear Hgo. unfold spawn_body. destruct ok.
    + eapply inv_serve_gen; [done..|].
      split; unfold is_done, peek; simpl; rewrite ?Hst, ?En; try done; try (intros; by left).
      * intros v [?|?]; [done|by destruct (Hyy v)].
      * by intros h [= <-].
    + eapply inv_serve; [done..|]. unfold drop_poison, is_done, peek in *. simpl. rewrite En in *.
      split; unfold is_done, peek; simpl; rewrite ?Hst, ?En; try done; try (intros; by left); [by right|by intros v [?|?]].
Qed.

Lemma release_inv s l1 x l2 g armed : inv s -> calls s = l1 ++ x :: l2 -> gens s !! c_cell x = Some g ->
  stage x = Leaving armed ->
  inv (put_calls (to_stage l1 x l2 (release armed (cell g)).2)
    (put_gen (c_cell x) (on_cell (fun c => (release armed c).1) g) s)).
Proof.
  intros Hi Ecs E Hst. destruct (inv_gens _ Hi _ _ E) as [Ho Hy Ht Hm Ha Hsl Hin Hd].
  assert (Hpos : 0 < interest (cell g)) by (eapply call_interest; [done..|by rewrite Hst]).
  eapply inv_serve_gen; [done..|].
  assert (Hw : weight (release armed (cell g)).2 = 0 /\
    (forall w, (release armed (cell g)).2 <> Some (Parked w)) /\
    (forall t, (release armed (cell g)).2 <> Some (Aborting t))).
  { unfold release. simpl. by destruct (_ || _). }
  destruct Hw as (Hw & Hnp & Hna). revert Hw Hnp Hna.
  generalize (release armed (cell g)).2. intros st Hw Hnp Hna. unfold is_done, peek in *.
  split; unfold is_done, peek; simpl; rewrite ?Hw, ?Hst; simpl; try done; try (intros; by left); [lia|lia|].
  intros Hp. by destruct (Hnp false).
Qed.

Lemma call_step_inv s l1 x l2 g s' : inv s -> calls s = l1 ++ x :: l2 -> gens s !! c_cell x = Some g ->
  (forall s2 st, stage x = Cancelling -> cancel_abandoned fx (c_key x) (c_cell x) g s = (s2, st) ->
     inv (put_calls (to_stage l1 x l2 st) s2)) ->
  call_step fx s l1 x l2 g s' -> inv s'.
Proof.
  intros Hi Ecs E Hcancel. destruct 1 as [ok Hst Hov|Hst|w Hst|Hst|w Hst|armed Hst|Hst|s2 st Hst Hc].
  - by apply inline_end_inv.
  - eapply inv_restage; [done..| | | |]; by rewrite ?Hst.
  - assert (Hi' : inv (match peek (cell g) with Some v => serve (c_key x) (c_cell x) v s | None => s end)).
    { destruct (peek (cell g)) eqn:Ep; [|done]. eapply inv_served_cons; [done..| |done].
      destruct (inv_calls _ Hi x) as (g0 & E0 & [Hk _ _]); [rewrite Ecs; apply elem_of_app; right; by left|].
      congruence. }
    eapply (inv_restage _ l1 x l2 g); [done|by destruct (peek (cell g))|by destruct (peek (cell g))|..].
    + by rewrite Hst.
    + rewrite Hst. unfold check. by destruct (outcome (cell g)) as [[]|].
    + unfold check. by destruct (outcome (cell g)) as [[]|].
    + unfold check. by destruct (outcome (cell g)) as [[]|].
  - eapply inv_restage; [done..| | | |]; by rewrite ?Hst.
  - eapply inv_restage; [done..| | | |]; by rewrite ?Hst.
  - by apply release_inv.
  - eapply inv_restage; [done..| | | |]; rewrite ?Hst; unfold decide_cancel; by destruct (is_done (cell g)).
  - by apply Hcancel.
Qed.

(** *** Entering, cancelling, evicting *)

Lemma inv_uncache s k : inv s ->
  (forall c g, cached s k = Some c -> gens s !! c = Some g ->
     task (cell g) = None /\ (interest (cell g) = 0 \/ is_done (cell g) = true)) ->
  inv (put_cells (cache_remove fx k (cells s)) s).
Proof.
  intros [Hlen Hc Hg Hx Hs] Hk.
  assert (Hsub : forall k' c, cached (put_cells (cache_remove fx k (cells s)) s) k' = Some c ->
    cached s k' = Some c).
  { intros k' c. unfold cache_get at 1. simpl. rewrite cells_get_remove. by case_decide. }
  assert (Hkeep : forall k' c, cached s k' = Some c -> k' <> k ->
    cached (put_cells (cache_remove fx k (cells s)) s) k' = Some c).
  { intros k' c Hc' Hne. unfold cache_get. simpl. by rewrite cells_get_remove, decide_False. }
  split; simpl.
  - unfold cache_remove. by rewrite length_alter.
  - intros k' c Hk'. by apply Hc, Hsub.
  - intros c g E. destruct (Hg c g E) as [Ho Hy Ht Hm Ha Hsl Hin Hd]. split; try done.
    + intros h Hh. destruct (Ht h Hh) as (-> & Hcc & Hnd). split_and!; [done| |done].
      apply Hkeep; [done|]. intros <-. destruct (Hk c g Hcc E). congruence.
    + intros Hpos Hnd. specialize (Hm Hpos Hnd). apply Hkeep; [done|]. intros <-.
      destruct (Hk c g Hm E) as [_ [?|?]]; [lia|congruence].
    + intros Hab. destruct (Ha Hab). split; [done|]. by intros ?%Hsub.
    + intros Hsp Hl Hcc. by apply Hsl, Hsub.
  - intros x Hin. destruct (Hx x Hin) as (g & E & [? ? Hab]). exists g. split; [done|]. split; try done.
    intros t Ht. destruct (Hab t Ht) as (? & ? & ?). split_and!; [done..|]. by intros ?%Hsub.
  - done.
Qed.

Lemma inv_cancel s l1 x l2 g gv : inv s -> calls s = l1 ++ x :: l2 -> gens s !! c_cell x = Some g ->
  stage x = Cancelling -> interest (cell g) = 0 -> cached s (c_key x) = Some (c_cell x) ->
  inv (put_calls (to_stage l1 x l2 (Some (Aborting (c_cell x))))
    (put_gen (c_cell x) (on_cell (set_task None) g)
      (put_graves gv (put_cells (cache_remove fx (c_key x) (cells s)) s)))).
Proof.
  intros Hi Ecs E Hst Hz Hcx. destruct (inv_calls _ Hi x) as (g0 & E0 & [Hkx _ _]);
    [rewrite Ecs; apply elem_of_app; right; by left|]. rewrite E in E0. simplify_eq. destruct Hi as [Hlen Hc Hg Hx Hs].
  assert (Hget : forall k', cells_get fx (cache_remove fx (c_key x) (cells s)) k' =
    if decide (k' = c_key x) then None else cached s k') by (intros; apply cells_get_remove).
  split; unfold cache_get in *; simpl in *.
  - unfold cache_remove. by rewrite length_alter.
  - intros k' c. rewrite Hget. case_decide; [done|]. intros (g & E' & Hk)%Hc.
    destruct (decide (c = c_cell x)) as [->|]; [by simplify_eq|]. exists g. by rewrite lookup_insert_ne.
  - intros c g. rewrite lookup_insert_Some. intros [[<- <-]|[Hne E']].
    + destruct (Hg _ _ E) as [Ho Hy Ht Hm Ha Hsl Hin Hd]. split; unfold cache_get in *; simpl in *; try done.
      * lia.
      * intros _. split; [done|]. by rewrite Hget, Hkx, decide_True.
      * by rewrite Hget, Hkx, decide_True.
      * pose proof (holders_to_stage (c_cell x) l1 x l2 (Some (Aborting (c_cell x)))) as Hh.
        rewrite <-Ecs, holds_weight, !decide_True, Hst in Hh by done. simpl in Hh. lia.
      * intros Hsp. destruct (Hd Hsp) as [|Hdr]; [by left|right]. eapply driver_to_stage; [done|done|congruence].
    + destruct (Hg _ _ E') as [Ho Hy Ht Hm Ha Hsl Hin Hd]. split; unfold cache_get in *; simpl in *; try done.
      * intros h Hh. destruct (Ht h Hh) as (-> & Hcc & Hnd). split_and!; [done| |done].
        rewrite Hget, decide_False; [done|]. congruence.
      * intros Hpos Hnd. specialize (Hm Hpos Hnd). rewrite Hget, decide_False; [done|]. congruence.
      * intros Hab. destruct (Ha Hab). split; [done|]. rewrite Hget. by case_decide.
      * intros Hsp Hl. rewrite Hget. case_decide; [done|]. by apply Hsl.
      * pose proof (holders_to_stage c l1 x l2 (Some (Aborting (c_cell x)))) as Hh.
        rewrite <-Ecs, holds_weight, !decide_False in Hh by done. lia.
      * intros Hsp. destruct (Hd Hsp) as [|Hdr]; [by left|right]. eapply driver_to_stage; [done|done|congruence].
  - intros y [Hy|(st' & [= <-] & ->)]%to_stage_elem.
    + rewrite <-Ecs in Hy. destruct (Hx y Hy) as (g & E' & [Hk Hp Hab]).
      destruct (decide (c_cell y = c_cell x)) as [Hcy|].
      * eexists. rewrite Hcy, lookup_insert_eq. split; [done|]. rewrite Hcy, E in E'. simplify_eq.
        split; unfold cache_get in *; simpl in *; try done.
        intros t Ht. destruct (Hab t Ht) as (? & ? & ?). split_and!; [done..|]. rewrite Hget. by case_decide.
      * exists g. rewrite lookup_insert_ne by done. split; [done|].
        split; unfold cache_get in *; simpl in *; try done.
        intros t Ht. destruct (Hab t Ht) as (? & ? & ?). split_and!; [done..|]. rewrite Hget. by case_decide.
    + simpl. eexists. rewrite lookup_insert_eq. split; [done|].
      split; unfold cache_get in *; simpl in *; try done. intros t [= <-]. split_and!; [done..|].
      by rewrite Hget, decide_True.
  - intros k' c v Hin. destruct (Hs _ _ _ Hin) as (g & E' & Hk & Hp). destruct (decide (c = c_cell x)) as [->|].
    + exists (on_cell (set_task None) g0). rewrite lookup_insert_eq. rewrite E in E'. by simplify_eq.
    + exists g. by rewrite lookup_insert_ne.
Qed.

Lemma cancel_inv s l1 x l2 g s2 st : inv s -> calls s = l1 ++ x :: l2 -> gens s !! c_cell x = Some g ->
  stage x = Cancelling -> cancel_abandoned fx (c_key x) (c_cell x) g s = (s2, st) ->
  inv (put_calls (to_stage l1 x l2 st) s2).
Proof.
  intros Hi Ecs E Hst. unfold cancel_abandoned.
  destruct (negb _ || _) eqn:Eg.
  { intros [= <- <-]. eapply inv_restage; [done..| | | |]; by rewrite ?Hst. }
  apply orb_false_iff in Eg as [Hz%negb_false_iff%bool_decide_eq_true Hnd].
  destruct (inv_gens _ Hi _ _ E) as [Ho Hy Ht Hm Ha Hsl Hin Hd].
  destruct (inv_calls _ Hi x) as (g0 & E0 & [Hkx _ _]); [rewrite Ecs; apply elem_of_app; right; by left|].
  rewrite E in E0. simplify_eq. destruct (task (cell g0)) as [t|] eqn:Etk.
  - destruct (Ht t eq_refl) as (-> & Hcx & _). rewrite Hkx in Hcx. rewrite decide_True by done.
    intros [= <- <-]. by apply inv_cancel.
  - intros [= <- <-]. case_decide as Hcx.
    + eapply (inv_restage _ l1 x l2 g0); [|done|done|by rewrite ?Hst..].
      apply inv_uncache; [done|]. intros c g Hc E'. rewrite Hcx in Hc. simplify_eq. auto.
    + eapply inv_restage; [done..| | | |]; by rewrite ?Hst.
Qed.

Lemma abort_inv s l1 x l2 t g : inv s -> calls s = l1 ++ x :: l2 -> stage x = Aborting t ->
  gens s !! t = Some g -> inv (put_calls (l1 ++ l2) (put_gen t (set_aborted g) s)).
Proof.
  intros Hi Ecs Hst E.
  destruct (inv_calls _ Hi x) as (g0 & E0 & [Hkx _ Hab]); [rewrite Ecs; apply elem_of_app; right; by left|].
  destruct (Hab t Hst) as (-> & Hz & Hnc). rewrite E in E0. simplify_eq.
  destruct (inv_gens _ Hi _ _ E) as [Ho Hy Ht Hm Ha Hsl Hin Hd].
  apply (inv_serve_gen s l1 x l2 g0 _ None); [done..|].
  split; simpl; rewrite ?Hst; simpl; try done. intros _. right. by rewrite Hkx.
Qed.

Lemma evict_if_inv s k p : inv s -> inv (evict_if fx k p s).
Proof.
  intros Hi. unfold evict_if. destruct (cached s k) as [c|] eqn:Ec; simpl; [|done].
  destruct (gens s !! c) as [g|] eqn:E; simpl; [|done]. destruct (peek (cell g)) as [v|] eqn:Ep; [|done].
  destruct (p v); [|done]. apply inv_uncache; [done|]. intros c' g' Hc' E'. rewrite Ec in Hc'. simplify_eq.
  assert (Hd : is_done (cell g) = true) by (apply is_done_peek; by eexists). split; [|by right].
  destruct (task (cell g)) as [h|] eqn:Et; [|done].
  destruct (inv_gens _ Hi _ _ E) as [_ _ Ht _ _ _ _ _]. destruct (Ht h Et) as (_ & _ & ?). congruence.
Qed.

Lemma inv_join s k c g : inv s -> cached s k = Some c -> gens s !! c = Some g -> peek (cell g) = None ->
  inv (put_calls (mkCall k c Waiting :: calls s) (put_gen c (on_cell acquire_interest g) s)).
Proof.
  intros [Hlen Hc Hg Hx Hs] Hk E Hp. destruct (Hc k c Hk) as (g0 & E0 & Ek). rewrite E in E0. simplify_eq.
  split; simpl; [done|..].
  - intros k' c' Hk'. destruct (Hc k' c' Hk') as (g & E' & <-). destruct (decide (c' = c)) as [->|].
    + exists (on_cell acquire_interest g0). rewrite lookup_insert_eq. rewrite E in E'. by simplify_eq.
    + exists g. by rewrite lookup_insert_ne.
  - intros c' g. rewrite lookup_insert_Some. intros [[<- <-]|[Hne E']].
    + destruct (Hg _ _ E) as [Ho Hy Ht Hm Ha Hsl Hin Hd]. split; simpl; try done.
      * intros Hab. by destruct (Ha Hab).
      * unfold holders in *. simpl. rewrite holds_weight, decide_True by done. simpl. lia.
      * intros Hsp. destruct (Hd Hsp) as [|(x & ? & ? & ?)]; [by left|right; exists x]. split_and!; [by right|done..].
    + destruct (Hg _ _ E') as [Ho Hy Ht Hm Ha Hsl Hin Hd]. split; simpl; try done.
      * unfold holders in *. simpl. by rewrite holds_weight, decide_False.
      * intros Hsp. destruct (Hd Hsp) as [|(x & ? & ? & ?)]; [by left|right; exists x]. split_and!; [by right|done..].
  - intros x [->|Hin]%elem_of_cons.
    + eexists. rewrite lookup_insert_eq. split; [done|]. by split.
    + destruct (Hx x Hin) as (g & E' & [Hkx Hpk Hab]). destruct (decide (c_cell x = c)) as [Hcx|].
      * eexists. rewrite Hcx, lookup_insert_eq. split; [done|]. rewrite Hcx, E in E'. simplify_eq.
        split; simpl; try done. intros t Ht. destruct (Hab t Ht) as (-> & ? & Hnc). by rewrite <-Hkx in Hnc.
      * exists g. rewrite lookup_insert_ne by done. by split.
  - intros k' c' v Hin. destruct (Hs _ _ _ Hin) as (g & E' & Hk' & Hpk). destruct (decide (c' = c)) as [->|].
    + exists (on_cell acquire_interest g0). rewrite lookup_insert_eq. rewrite E in E'. by simplify_eq.
    + exists g. by rewrite lookup_insert_ne.
Qed.

(** A fresh generation, whatever became of its spawn. *)
Record born (k : K) (c : nat) (st : Stage) (g : gen) : Prop := {
  bo_key : key (body g) = k;
  bo_interest : interest (cell g) = 1;
  bo_aborted : aborted g = false;
  bo_outcome : outcome (cell g) = None <-> unsettled (phase (body g)) = true;
  bo_peek : peek (cell g) = None;
  bo_returned v : phase (body g) <> Returned v;
  bo_task h : task (cell g) = Some h -> h = c;
  bo_slot : spawned g = true -> live (phase (body g)) = true -> task (cell g) = Some c;
  bo_driven : spawned g = false -> st = Inlining;
  bo_stage : st = Inlining \/ st = Waiting
}.

Lemma inv_born s k c g st gv : inv s -> gens s !! c = None -> cached s k = None -> born k c st g ->
  inv (mkSys (cache_insert fx k c (cells s)) gv (<[c := g]> (gens s)) (mkCall k c st :: calls s) (served s)).
Proof.
  intros [Hlen Hc Hg Hx Hs] E Hk [Bk Bi Ba Bo Bp Br Bt Bs Bd Bst].
  assert (Hget : forall k', cells_get fx (cache_insert fx k c (cells s)) k' =
    if decide (k' = k) then Some c else cached s k') by (intros; by apply cells_get_insert).
  assert (Hno : forall x, x ∈ calls s -> c_cell x <> c).
  { intros x Hin Hcx. destruct (Hx x Hin) as (g0 & E0 & _). congruence. }
  assert (Hd : is_done (cell g) = false).
  { destruct (is_done (cell g)) eqn:Ed; [|done]. apply is_done_peek in Ed as [v Hv]. congruence. }
  split; unfold cache_get in *; simpl.
  - unfold cache_insert. by rewrite length_alter.
  - intros k' c'. rewrite Hget. case_decide as Hkk.
    + intros [= <-]. exists g. rewrite lookup_insert_eq. subst. done.
    + intros (g' & E' & Hk')%Hc. exists g'. rewrite lookup_insert_ne by congruence. done.
  - intros c' g'. rewrite lookup_insert_Some. intros [[<- <-]|[Hne E']].
    + split; unfold cache_get; simpl; rewrite ?Bk, ?Hget, ?decide_True by done; try done.
      * intros v [?|?]; [congruence|by destruct (Br v)].
      * intros h Hh. by rewrite (Bt h Hh).
      * intros. congruence.
      * intros. by apply Bs.
      * rewrite Bi. unfold holders. simpl. rewrite holds_weight, decide_True by done. simpl.
        assert (sum_list_with (holds c) (calls s) = 0) as ->; [|by destruct Bst as [->| ->]].
        clear -Hno. induction (calls s) as [|x xs IH]; [done|]. simpl.
        rewrite IH by (intros y Hy; apply Hno; by right). rewrite holds_weight, decide_False; [done|].
        apply Hno. by left.
      * intros Hsp. right. eexists. split; [by left|]. split; [done|]. by apply Bd.
    + destruct (Hg _ _ E') as [Ho Hy Ht Hm Ha Hsl Hin Hdr].
      assert (Hkeep : cached s (key (body g')) = Some c' ->
        (if decide (key (body g') = k) then Some c else cached s (key (body g'))) = Some c').
      { unfold cache_get. case_decide; congruence. }
      split; unfold cache_get in *; simpl; rewrite ?Hget; try done.
      * intros h Hh. destruct (Ht h Hh) as (-> & ? & ?). eauto.
      * eauto.
      * intros Hab. destruct (Ha Hab). split; [done|]. case_decide; congruence.
      * intros Hsp Hl. case_decide; [congruence|]. by apply Hsl.
      * unfold holders in *. simpl. rewrite holds_weight, decide_False by done. done.
      * intros Hsp. destruct (Hdr Hsp) as [|(x & ? & ? & ?)]; [by left|right; exists x]. split_and!; [by right|done..].
  - intros x [->|Hin]%elem_of_cons.
    + exists g. rewrite lookup_insert_eq. split; [done|]. split; simpl; [done|by destruct Bst as [->| ->]..].
    + destruct (Hx x Hin) as (g' & E' & [Hkx Hpk Hab]). exists g'. rewrite lookup_insert_ne by (intros ?; by eapply Hno).
      split; [done|]. split; unfold cache_get in *; simpl; try done.
      intros t Ht. destruct (Hab t Ht) as (-> & ? & Hnc). split_and!; [done..|]. rewrite Hget.
      case_decide; [|done]. intros [= ?]. by eapply Hno.
  - intros k' c' v Hin. destruct (Hs _ _ _ Hin) as (g' & E' & ? & ?). exists g'.
    rewrite lookup_insert_ne by congruence. done.
Qed.

Lemma enter_inv s k c ok : inv s -> gens s !! c = None -> inv (process_enter fx inline_first k c ok s).
Proof.
  intros Hi E. unfold process_enter. destruct (cached s k) as [c0|] eqn:Ec.
  - destruct (gens s !! c0) as [g|] eqn:E0; [|done]. destruct (peek (cell g)) as [v|] eqn:Ep.
    + eapply inv_served_cons; [done..| |done]. destruct (inv_cached _ Hi _ _ Ec) as (g' & E' & ?). congruence.
    + by apply inv_join.
  - destruct inline_first eqn:Ei; [|destruct ok]; unfold spawn_body, put_calls, put_cells, put_gen, put_graves;
      cbn [cells graves gens calls served].
    + apply inv_born; [done..|]. split; simpl; try done. by left.
    + rewrite insert_insert, decide_True by done.
      apply inv_born; [done..|]. split; simpl; try done; [by intros ? [= ->]|by right].
    + rewrite insert_insert, decide_True by done.
      apply inv_born; [done..|]. split; simpl; try done. by right.
Qed.

Lemma cell_step_inv s s' : inv s -> step fx inline_first yields s s' -> inv s'.
Proof.
  intros Hi. destruct 1 as [k c ok E|s' Ht|l1 x l2 g s' Ecs E Hc|l1 x l2 t g Ecs Hst E|k p].
  - by apply enter_inv.
  - by eapply task_step_inv.
  - eapply call_step_inv; [done..| |done]. intros. by eapply cancel_inv.
  - by eapply abort_inv.
  - by apply evict_if_inv.
Qed.

Lemma cell_reachable_inv s : reachable fx inline_first yields s -> inv s.
Proof.
  intros Hr. unfold reachable in Hr. remember init as s0 eqn:E0. assert (Hi : inv s0) by (subst; apply cell_init_inv).
  clear E0. induction Hr as [|s1 s2 s3 Hst _ IH]; [done|]. apply IH. by eapply cell_step_inv.
Qed.

(** ** Mutual exclusion *)

(** The task a body waits for, and the one the grave of a key names. *)
Definition waits (g : gen) : option nat := handle <$> grave (body g).
Definition parked (s : sys) (k : K) : option nat := handle <$> graves s !! k.

Definition draining (s : sys) (c : nat) (g : gen) : Prop :=
  gens s !! c = Some g /\ phase (body g) = Draining.
Definition running (s : sys) (c : nat) (g : gen) : Prop :=
  gens s !! c = Some g /\ phase (body g) = Running.

Definition is_draining (g : gen) : bool := match phase (body g) with Draining => true | _ => false end.
Definition is_running (g : gen) : bool := match phase (body g) with Running => true | _ => false end.

(** A transition is calm when no task that is still draining is dropped without
    having been aborted (the runtime shuts down), and no computation is
    cancelled while another attempt at its key is still draining or has left a
    grave that nobody picked up yet. *)
Definition calm (s s' : sys) : Prop :=
  map_Forall (fun c g => is_draining g = true ->
     from_option (fun g' => is_draining g' || is_running g' || aborted g = true) True (gens s' !! c)) (gens s) /\
  map_Forall (fun c g => cached s (key (body g)) = Some c -> cached s' (key (body g)) = None ->
     is_done (cell g) = false ->
     graves s !! key (body g) = None /\
     map_Forall (fun c' g' => is_draining g' = true -> key (body g') = key (body g) -> c' = c) (gens s)) (gens s).

#[export] Instance calm_dec s s' : Decision (calm s s').
Proof.
  apply and_dec; apply map_Forall_dec; intros c g.
  - apply impl_dec; [apply _|]. destruct (gens s' !! c); simpl; apply _.
  - apply impl_dec; [apply _|]. apply impl_dec; [apply _|]. apply impl_dec; [apply _|].
    apply and_dec; [apply _|]. apply map_Forall_dec. intros c' g'. apply _.
Defined.

Definition calm_step (s s' : sys) : Prop := step fx inline_first yields s s' /\ calm s s'.

(** Somebody of the key will wait for [c] before running. *)
Definition held (s : sys) (k : K) (c : nat) : Prop :=
  parked s k = Some c \/ exists d g, draining s d g /\ key (body g) = k /\ waits g = Some c.

Record quiet (s : sys) : Prop := {
  q_clean c g : running s c g -> grave (body g) = None;
  q_one c g c' g' : draining s c g -> draining s c' g' -> key (body g) = key (body g') ->
    cached s (key (body g)) <> Some c -> cached s (key (body g)) <> Some c' -> c = c';
  q_dying c g : draining s c g -> cached s (key (body g)) <> Some c ->
    held s (key (body g)) c /\ (forall h, parked s (key (body g)) = Some h -> h = c);
  q_guard c g : running s c g -> cached s (key (body g)) <> Some c -> held s (key (body g)) c;
  q_unique c g c' g' : running s c g -> running s c' g' -> key (body g) = key (body g') -> c = c'
}.

(** A step that neither starts, parks nor drops a waiting task. *)
Lemma quiet_frame s s' : quiet s ->
  (forall k, cached s' k = cached s k) -> (forall k, parked s' k = parked s k) ->
  (forall c g', draining s' c g' \/ running s' c g' -> exists g, gens s !! c = Some g /\
     key (body g) = key (body g') /\ phase (body g) = phase (body g') /\ grave (body g) = grave (body g')) ->
  (forall c g, draining s c g -> exists g', draining s' c g' /\
     key (body g') = key (body g) /\ waits g' = waits g) ->
  quiet s'.
Proof.
  intros [Q1 Q2 Q3 Q4 Q5] Hc Hp Hback Hfwd.
  assert (Hheld : forall k c, held s k c -> held s' k c).
  { intros k c [Hpk|(d & g & Hd & Hk & Hw)]; [left; by rewrite Hp|right].
    destruct (Hfwd d g Hd) as (g' & Hd' & Hk' & Hw'). exists d, g'. split_and!; [done|congruence..]. }
  assert (Hd : forall c g', draining s' c g' -> exists g, draining s c g /\ key (body g) = key (body g')).
  { intros c g' Hdr. destruct (Hback c g' (or_introl Hdr)) as (g & E & Hk & Hph & _).
    exists g. split; [|done]. split; [done|]. rewrite Hph. apply Hdr. }
  assert (Hr : forall c g', running s' c g' -> exists g, running s c g /\
    key (body g) = key (body g') /\ grave (body g) = grave (body g')).
  { intros c g' Hrn. destruct (Hback c g' (or_intror Hrn)) as (g & E & Hk & Hph & Hg).
    exists g. split; [|done]. split; [done|]. rewrite Hph. apply Hrn. }
  split.
  - intros c g' (g & Hrn & _ & <-)%Hr. by eapply Q1.
  - intros c1 g1 c2 g2 (h1 & D1 & <-)%Hd (h2 & D2 & <-)%Hd Hk N1 N2. rewrite Hc in *. by eapply Q2.
  - intros c g' (g & Dg & <-)%Hd N. rewrite Hc in N. destruct (Q3 c g Dg N) as [Hh Hq].
    split; [by apply Hheld|]. intros h. rewrite Hp. apply Hq.
  - intros c g' (g & Rg & <- & _)%Hr N. rewrite Hc in N. apply Hheld. by apply Q4.
  - intros c1 g1 c2 g2 (h1 & D1 & <- & _)%Hr (h2 & D2 & <- & _)%Hr Hk. by eapply Q5.
Qed.

Definition idle (p : Phase V) : Prop := p <> Draining /\ p <> Running.

Lemma quiet_update s s' c g g' : quiet s -> gens s !! c = Some g ->
  (forall k, cached s' k = cached s k) -> (forall k, parked s' k = parked s k) ->
  gens s' = <[c := g']> (gens s) -> key (body g') = key (body g) ->
  (phase (body g') = phase (body g) /\ grave (body g') = grave (body g) \/
   phase (body g) <> Draining /\ idle (phase (body g'))) ->
  quiet s'.
Proof.
  intros Hq E Hc Hp Hg Hk Hph. eapply quiet_frame; [done..| |].
  - intros c0 g0 Hd. assert (E0 : gens s' !! c0 = Some g0 /\ ~ idle (phase (body g0))).
    { unfold idle. destruct Hd as [[? ->]|[? ->]]; naive_solver. }
    destruct E0 as [E0 Hni]. rewrite Hg, lookup_insert_Some in E0. destruct E0 as [[<- <-]|[? E0]]; [|by eauto].
    exists g. destruct Hph as [[-> ->]|[_ ?]]; [by split_and!|done].
  - intros c0 g0 [E0 Hd]. destruct (decide (c0 = c)) as [->|].
    + rewrite E in E0. simplify_eq. destruct Hph as [[Hph Hgr]|[Hph _]]; [|done].
      exists g'. split_and!; [split; [by rewrite Hg, lookup_insert_eq|congruence]|done|unfold waits; by rewrite Hgr].
    + exists g0. split_and!; [split; [by rewrite Hg, lookup_insert_ne|done]|done..].
Qed.

Lemma quiet_same s s' : quiet s -> (forall k, cached s' k = cached s k) -> graves s' = graves s ->
  gens s' = gens s -> quiet s'.
Proof.
  intros Hq Hc Hp Hg. eapply quiet_frame; [done|done|intros k; unfold parked; by rewrite Hp|..];
    unfold draining, running; rewrite Hg; intros; eauto; destruct_or?; destruct_and?; eauto.
Qed.

(** A waiting task learns that the task it waits for is gone. *)
Lemma quiet_await s c g h : quiet s -> draining s c g -> waits g = Some h ->
  (exists gh, gens s !! h = Some gh /\ phase (body gh) = Gone) ->
  quiet (put_gen c (set_grave None g) s).
Proof.
  intros [Q1 Q2 Q3 Q4 Q5] [E Hd] Hw (gh & Eh & Hgone).
  assert (Hdr : forall c0 g0, draining (put_gen c (set_grave None g) s) c0 g0 ->
    exists g1, draining s c0 g1 /\ key (body g1) = key (body g0)).
  { intros c0 g0 [E0 Hd0]. simpl in E0. rewrite lookup_insert_Some in E0.
    destruct E0 as [[<- <-]|[? E0]]; [by exists g|by exists g0]. }
  assert (Hrn : forall c0 g0, running (put_gen c (set_grave None g) s) c0 g0 -> running s c0 g0).
  { intros c0 g0 [E0 Hd0]. simpl in E0. rewrite lookup_insert_Some in E0.
    destruct E0 as [[<- <-]|[? E0]]; [simpl in Hd0; congruence|done]. }
  assert (Hheld : forall k c0, held s k c0 -> c0 <> h -> held (put_gen c (set_grave None g) s) k c0).
  { intros k c0 [Hpk|(d & gd & [Ed Hd'] & Hk & Hw')] Hne; [by left|right].
    destruct (decide (d = c)) as [->|]; [by simplify_eq|].
    exists d, gd. split_and!; [|done..]. split; [|done]. simpl. by rewrite lookup_insert_ne. }
  split.
  - intros c0 g0 R0%Hrn. by eapply Q1.
  - intros c1 g1 c2 g2 (? & D1 & <-)%Hdr (? & D2 & <-)%Hdr Hk N1 N2. by eapply Q2.
  - intros c0 g0 (g1 & D1 & <-)%Hdr N. destruct (Q3 _ _ D1 N) as [Hh Hp]. split; [|done].
    apply Hheld; [done|]. intros ->. destruct D1. congruence.
  - intros c0 g0 R0%Hrn N. apply Hheld; [by apply Q4|]. intros ->. destruct R0. congruence.
  - intros c1 g1 c2 g2 R1%Hrn R2%Hrn Hk. by eapply Q5.
Qed.

(** The drain loop picks up a re-parked grave. *)
Lemma quiet_take s c g gr : quiet s -> draining s c g -> waits g = None -> graves s !! key (body g) = Some gr ->
  quiet (put_gen c (set_grave (Some gr) g) (put_graves (delete (key (body g)) (graves s)) s)).
Proof.
  intros [Q1 Q2 Q3 Q4 Q5] [E Hd] Hw Hgr. set (s' := put_gen _ _ _).
  assert (Hdr : forall c0 g0, draining s' c0 g0 -> exists g1, draining s c0 g1 /\ key (body g1) = key (body g0)).
  { intros c0 g0 [E0 Hd0]. simpl in E0. rewrite lookup_insert_Some in E0.
    destruct E0 as [[<- <-]|[? E0]]; [by exists g|by exists g0]. }
  assert (Hrn : forall c0 g0, running s' c0 g0 -> running s c0 g0).
  { intros c0 g0 [E0 Hd0]. simpl in E0. rewrite lookup_insert_Some in E0.
    destruct E0 as [[<- <-]|[? E0]]; [simpl in Hd0; congruence|done]. }
  assert (Hsub : forall k h, parked s' k = Some h -> parked s k = Some h).
  { intros k h. unfold parked. simpl. destruct (decide (k = key (body g))) as [->|].
    - by rewrite lookup_delete_eq. - by rewrite lookup_delete_ne. }
  assert (Hc' : draining s' c (set_grave (Some gr) g)) by (split; [simpl; by rewrite lookup_insert_eq|done]).
  assert (Hheld : forall k c0, held s k c0 -> held s' k c0).
  { intros k c0 [Hpk|(d & gd & [Ed Hd'] & Hk & Hw')].
    - destruct (decide (k = key (body g))) as [->|].
      + right. eexists c, _. split_and!; [done|done|]. unfold parked in Hpk. by rewrite Hgr in Hpk.
      + left. unfold parked in *. simpl. by rewrite lookup_delete_ne.
    - right. destruct (decide (d = c)) as [->|]; [by simplify_eq|].
      exists d, gd. split_and!; [|done..]. split; [|done]. simpl. by rewrite lookup_insert_ne. }
  split.
  - intros c0 g0 R0%Hrn. by eapply Q1.
  - intros c1 g1 c2 g2 (? & D1 & <-)%Hdr (? & D2 & <-)%Hdr Hk N1 N2. by eapply Q2.
  - intros c0 g0 (g1 & D1 & <-)%Hdr N. destruct (Q3 _ _ D1 N) as [Hh Hp]. split; [by apply Hheld|].
    intros h ?%Hsub. by apply Hp.
  - intros c0 g0 R0%Hrn N. by apply Hheld, Q4.
  - intros c1 g1 c2 g2 R1%Hrn R2%Hrn Hk. by eapply Q5.
Qed.

Lemma draining_fun s c g g' : draining s c g -> draining s c g' -> g = g'.
Proof. intros [? _] [? _]. by simplify_eq. Qed.

Lemma draining_running s c g g' : draining s c g -> running s c g' -> False.
Proof. intros [? ?] [? ?]. simplify_eq. congruence. Qed.

(** A task that leaves the drain loop finds no body of its key running. *)
Lemma quiet_alone s c g t gt : quiet s -> draining s c g -> waits g = None -> parked s (key (body g)) = None ->
  running s t gt -> key (body gt) = key (body g) -> False.
Proof.
  intros [_ Q2 Q3 Q4 _] Dc Hw Hp Rt Hk.
  assert (Hwho : forall y, held s (key (body g)) y -> exists d gd, draining s d gd /\
    key (body gd) = key (body g) /\ waits gd = Some y /\ d <> c).
  { intros y [?|(d & gd & Dd & Hkd & Hwd)]; [congruence|]. exists d, gd. split_and!; [done..|].
    intros ->. rewrite (draining_fun _ _ _ _ Dd Dc) in Hwd. congruence. }
  destruct (decide (cached s (key (body g)) = Some c)) as [Hc|Hc].
  - destruct (Hwho t) as (d & gd & Dd & Hkd & Hwd & Hne).
    { rewrite <-Hk. apply (Q4 t gt Rt). rewrite Hk, Hc. intros [= ->]. by eapply draining_running. }
    destruct (Q3 d gd Dd) as [Hd _]; [rewrite Hkd, Hc; congruence|]. rewrite Hkd in Hd.
    destruct (Hwho d Hd) as (d2 & g2 & D2 & Hk2 & Hw2 & Hne2).
    assert (d2 = d) as -> by (eapply (Q2 d2 g2 d gd); [done|done|congruence|rewrite Hk2, Hc; congruence..]).
    rewrite (draining_fun _ _ _ _ D2 Dd) in Hw2. rewrite Hwd in Hw2. simplify_eq. by eapply draining_running.
  - destruct (Q3 c g Dc Hc) as [Hh _]. destruct (Hwho c Hh) as (d & gd & Dd & Hkd & Hwd & Hne).
    assert (Hcd : cached s (key (body g)) = Some d).
    { destruct (decide (cached s (key (body g)) = Some d)) as [|N]; [done|]. destruct Hne.
      eapply (Q2 d gd c g); [done|done|done|by rewrite Hkd..]. }
    assert (Hct : cached s (key (body g)) <> Some t).
    { rewrite Hcd. intros [= ->]. by eapply draining_running. }
    destruct (Hwho t) as (d3 & g3 & D3 & Hk3 & Hw3 & Hne3); [rewrite <-Hk; apply (Q4 t gt Rt); by rewrite Hk|].
    assert (d3 = d) as ->.
    { destruct (decide (cached s (key (body g)) = Some d3)) as [|N]; [congruence|]. destruct Hne3.
      eapply (Q2 d3 g3 c g); [done|done|done|by rewrite Hk3..]. }
    rewrite (draining_fun _ _ _ _ D3 Dd), Hwd in Hw3. simplify_eq. exact (draining_running _ _ _ _ Dc Rt).
Qed.

Lemma quiet_start s c g : quiet s -> draining s c g -> grave (body g) = None -> graves s !! key (body g) = None ->
  quiet (put_gen c (set_phase Running g) s).
Proof.
  intros Hq Dc Hgr Hg. assert (Hw : waits g = None) by (unfold waits; by rewrite Hgr).
  assert (Hp : parked s (key (body g)) = None) by (unfold parked; by rewrite Hg).
  pose proof (fun t gt => quiet_alone s c g t gt Hq Dc Hw Hp) as Halone.
  pose proof Hq as [Q1 Q2 Q3 Q4 Q5]. pose proof Dc as [E Hd].
  assert (Hdr : forall c0 g0, draining (put_gen c (set_phase Running g) s) c0 g0 -> draining s c0 g0 /\ c0 <> c).
  { intros c0 g0 [E0 Hd0]. simpl in E0. rewrite lookup_insert_Some in E0. destruct E0 as [[<- <-]|[? E0]]; [done|].
    split; [by split|done]. }
  assert (Hrn : forall c0 g0, running (put_gen c (set_phase Running g) s) c0 g0 ->
    running s c0 g0 \/ c0 = c /\ g0 = set_phase Running g).
  { intros c0 g0 [E0 Hd0]. simpl in E0. rewrite lookup_insert_Some in E0. destruct E0 as [[<- <-]|[? E0]]; [by right|].
    left. by split. }
  assert (Hheld : forall k c0, held s k c0 -> held (put_gen c (set_phase Running g) s) k c0).
  { intros k c0 [Hpk|(d & gd & [Ed Hd'] & Hk & Hw')]; [by left|right].
    destruct (decide (d = c)) as [->|]; [by simplify_eq|].
    exists d, gd. split_and!; [|done..]. split; [|done]. simpl. by rewrite lookup_insert_ne. }
  split.
  - intros c0 g0 [R0|[-> ->]]%Hrn; [by eapply Q1|done].
  - intros c1 g1 c2 g2 [D1 _]%Hdr [D2 _]%Hdr Hk N1 N2. by eapply Q2.
  - intros c0 g0 [D0 _]%Hdr N. destruct (Q3 _ _ D0 N) as [Hh Hpk]. split; [by apply Hheld|done].
  - intros c0 g0 [R0|[-> ->]]%Hrn N; [by apply Hheld, Q4|]. apply Hheld. by apply (Q3 c g Dc).
  - intros c1 g1 c2 g2 [R1|[-> ->]]%Hrn [R2|[-> ->]]%Hrn Hk; [by eapply Q5| | |done].
    + by destruct (Halone c1 g1 R1).
    + by destruct (Halone c2 g2 R2).
Qed.

(** An aborted task is dropped while it drains: what it waited for is parked. *)
Lemma quiet_drop s c g : quiet s -> draining s c g -> cached s (key (body g)) <> Some c ->
  quiet (put_gen c (set_phase Dropping (set_grave None g)) (put_graves (drop_regrave g (graves s)) s)).
Proof.
  intros [Q1 Q2 Q3 Q4 Q5] Dc Hnc. pose proof Dc as [E Hd]. set (s' := put_gen _ _ _).
  assert (Hdr : forall c0 g0, draining s' c0 g0 -> draining s c0 g0 /\ c0 <> c).
  { intros c0 g0 [E0 Hd0]. simpl in E0. rewrite lookup_insert_Some in E0. destruct E0 as [[<- <-]|[? E0]]; [done|].
    split; [by split|done]. }
  assert (Hrn : forall c0 g0, running s' c0 g0 -> running s c0 g0).
  { intros c0 g0 [E0 Hd0]. simpl in E0. rewrite lookup_insert_Some in E0. by destruct E0 as [[<- <-]|[? E0]]. }
  assert (Hpk : forall k, k <> key (body g) -> parked s' k = parked s k).
  { intros k Hne. unfold parked. simpl. unfold drop_regrave. destruct (grave (body g)); [|done].
    by rewrite lookup_insert_ne. }
  destruct (Q3 c g Dc Hnc) as [_ Hp].
  assert (Hheld : forall k c0, held s k c0 -> c0 <> c -> held s' k c0).
  { intros k c0 Hh Hne. destruct (decide (k = key (body g))) as [->|Hk].
    - destruct Hh as [Hpp|(d & gd & Dd & Hk & Hw)]; [by destruct (Hne (Hp c0 Hpp))|].
      destruct (decide (d = c)) as [->|].
      + rewrite (draining_fun _ _ _ _ Dd Dc) in Hw. left. unfold parked. simpl. unfold drop_regrave, waits in *.
        destruct (grave (body g)) as [gr|]; [|done]. by rewrite lookup_insert_eq.
      + right. exists d, gd. split_and!; [|done..]. destruct Dd. split; [|done]. simpl. by rewrite lookup_insert_ne.
    - destruct Hh as [Hpp|(d & gd & Dd & Hk' & Hw)]; [left; by rewrite Hpk|right].
      exists d, gd. split_and!; [|done..]. pose proof Dd as [Ed ?]. split; [|done]. simpl. rewrite lookup_insert_ne; [done|].
      intros ->. rewrite E in Ed. simplify_eq. }
  split.
  - intros c0 g0 R0%Hrn. by eapply Q1.
  - intros c1 g1 c2 g2 [D1 _]%Hdr [D2 _]%Hdr Hk N1 N2. by eapply Q2.
  - intros c0 g0 [D0 Hne]%Hdr N. destruct (Q3 _ _ D0 N) as [Hh Hq]. split; [by apply Hheld|].
    intros h. rewrite Hpk; [apply Hq|]. intros Hk. apply Hne. eapply (Q2 c0 g0 c g); [done|done|done|done|by rewrite Hk].
  - intros c0 g0 R0%Hrn N. apply Hheld; [by apply Q4|]. intros ->. by eapply draining_running.
  - intros c1 g1 c2 g2 R1%Hrn R2%Hrn Hk. by eapply Q5.
Qed.

Lemma quiet_init : quiet init.
Proof.
  assert (Hd : forall c g, ~ draining init c g) by (intros c g [E _]; cbn in E; by rewrite lookup_empty in E).
  assert (Hr : forall c g, ~ running init c g) by (intros c g [E _]; cbn in E; by rewrite lookup_empty in E).
  split; intros; exfalso; (by eapply Hd) || (by eapply Hr).
Qed.

(** A cell that neither waits nor runs leaves the map. *)
Lemma quiet_unmap s s' : quiet s -> graves s' = graves s -> gens s' = gens s ->
  (forall c g, draining s c g \/ running s c g -> cached s (key (body g)) = Some c ->
     cached s' (key (body g)) = Some c) ->
  quiet s'.
Proof.
  intros [Q1 Q2 Q3 Q4 Q5] Hgv Hg Hc.
  assert (Hd : forall c g, draining s' c g <-> draining s c g) by (intros; unfold draining; by rewrite Hg).
  assert (Hr : forall c g, running s' c g <-> running s c g) by (intros; unfold running; by rewrite Hg).
  assert (Hp : forall k, parked s' k = parked s k) by (intros; unfold parked; by rewrite Hgv).
  assert (Hh : forall k c, held s k c -> held s' k c).
  { intros k c [?|(d & g & ? & ?)]; [left; by rewrite Hp|right; exists d, g; by rewrite Hd]. }
  split.
  - intros c g R%Hr. by eapply Q1.
  - intros c1 g1 c2 g2 D1%Hd D2%Hd Hk N1 N2. eapply (Q2 c1 g1 c2 g2); [done..| |].
    + intros ?. apply N1, Hc; auto.
    + rewrite Hk in *. intros ?. apply N2, Hc; auto.
  - intros c g D%Hd N. destruct (Q3 c g D) as [? Hq]; [intros ?; apply N, Hc; auto|]. split; [by apply Hh|].
    intros h. rewrite Hp. apply Hq.
  - intros c g R%Hr N. apply Hh, Q4; [done|]. intros ?. apply N, Hc; auto.
  - intros c1 g1 c2 g2 R1%Hr R2%Hr Hk. by eapply Q5.
Qed.

(** A fresh cell: its body takes the grave of its key, or its spawn failed and
    the grave is as it was. *)
Lemma quiet_born s s' k c g : quiet s -> gens s !! c = None -> cached s k = None -> key (body g) = k ->
  gens s' = <[c := g]> (gens s) -> (forall k', cached s' k' = if decide (k' = k) then Some c else cached s k') ->
  (forall k', k' <> k -> parked s' k' = parked s k') ->
  (phase (body g) = Draining /\ waits g = parked s k /\ parked s' k = None \/
   idle (phase (body g)) /\ parked s' k = parked s k) ->
  quiet s'.
Proof.
  intros [Q1 Q2 Q3 Q4 Q5] E Hck Hk Hg Hc Hpo Hcase.
  assert (Hin : forall c0 g0, gens s' !! c0 = Some g0 -> c0 = c /\ g0 = g \/ c0 <> c /\ gens s !! c0 = Some g0).
  { intros c0 g0. rewrite Hg, lookup_insert_Some. naive_solver. }
  assert (Hdr : forall c0 g0, draining s' c0 g0 -> cached s' (key (body g0)) <> Some c0 ->
    draining s c0 g0 /\ cached s (key (body g0)) <> Some c0).
  { intros c0 g0 [E0 D0] N. rewrite Hc in N. destruct (Hin _ _ E0) as [[-> ->]|[Hne E1]].
    - by rewrite Hk, decide_True in N. - split; [by split|]. case_decide; [congruence|done]. }
  assert (Hrn : forall c0 g0, running s' c0 g0 -> running s c0 g0 /\
    (cached s' (key (body g0)) <> Some c0 -> cached s (key (body g0)) <> Some c0)).
  { intros c0 g0 [E0 D0]. destruct (Hin _ _ E0) as [[-> ->]|[Hne E1]].
    - destruct Hcase as [[? _]|[[_ ?] _]]; congruence.
    - split; [by split|]. rewrite Hc. case_decide; [congruence|done]. }
  assert (Hsub : forall k' h, parked s' k' = Some h -> parked s k' = Some h).
  { intros k' h. destruct (decide (k' = k)) as [->|]; [|by rewrite Hpo].
    destruct Hcase as [(_ & _ & ->)|[_ ->]]; done. }
  assert (Hh : forall k' c0, held s k' c0 -> held s' k' c0).
  { intros k' c0 [Hp|(d & gd & [Ed Dd] & Hkd & Hw)].
    - destruct (decide (k' = k)) as [->|]; [|left; by rewrite Hpo].
      destruct Hcase as [(D & Hw & _)|[_ Hs]]; [right|left; by rewrite Hs].
      exists c, g. split_and!; [|done|congruence]. split; [by rewrite Hg, lookup_insert_eq|done].
    - right. exists d, gd. split_and!; [|done..]. split; [|done]. rewrite Hg, lookup_insert_ne; [done|congruence]. }
  split.
  - intros c0 g0 [R _]%Hrn. by eapply Q1.
  - intros c1 g1 c2 g2 D1 D2 Hkk N1 N2. destruct (Hdr _ _ D1 N1). rewrite Hkk in N2. destruct (Hdr _ _ D2 N2).
    eapply (Q2 c1 g1 c2 g2); [done..|congruence].
  - intros c0 g0 D N. destruct (Hdr _ _ D N) as [D' N']. destruct (Q3 _ _ D' N') as [? Hq].
    split; [by apply Hh|]. intros h ?%Hsub. by apply Hq.
  - intros c0 g0 [R Hn]%Hrn N. apply Hh, Q4; auto.
  - intros c1 g1 c2 g2 [R1 _]%Hrn [R2 _]%Hrn Hkk. by eapply Q5.
Qed.

(** A cancelled task goes to the empty grave of its key. *)
Lemma quiet_cancel s s' k c g g' n : quiet s -> gens s !! c = Some g -> key (body g) = k ->
  body g' = body g -> gens s' = <[c := g']> (gens s) -> graves s' = <[k := mkGrave c n]> (graves s) ->
  (forall k', cached s' k' = if decide (k' = k) then None else cached s k') -> cached s k = Some c ->
  graves s !! k = None -> (forall c' g', draining s c' g' -> key (body g') = k -> c' = c) ->
  quiet s'.
Proof.
  intros [Q1 Q2 Q3 Q4 Q5] E Hk Hb Hg Hgv Hc Hck Hno Honly.
  assert (Hin : forall c0 g0, gens s' !! c0 = Some g0 -> exists g1, gens s !! c0 = Some g1 /\ body g1 = body g0).
  { intros c0 g0. rewrite Hg, lookup_insert_Some. intros [[<- <-]|[? ?]]; [by exists g|by exists g0]. }
  assert (Hdr : forall c0 g0, draining s' c0 g0 -> exists g1, draining s c0 g1 /\ body g1 = body g0).
  { intros c0 g0 [E0 D0]. destruct (Hin _ _ E0) as (g1 & E1 & Hb1). exists g1. split; [|done]. split; congruence. }
  assert (Hrn : forall c0 g0, running s' c0 g0 -> exists g1, running s c0 g1 /\ body g1 = body g0).
  { intros c0 g0 [E0 D0]. destruct (Hin _ _ E0) as (g1 & E1 & Hb1). exists g1. split; [|done]. split; congruence. }
  assert (Hpk : parked s' k = Some c) by (unfold parked; by rewrite Hgv, lookup_insert_eq).
  assert (Hpo : forall k', k' <> k -> parked s' k' = parked s k').
  { intros k' Hne. unfold parked. by rewrite Hgv, lookup_insert_ne. }
  assert (Hh : forall k' c0, held s k' c0 -> held s' k' c0).
  { intros k' c0 [Hp|(d & gd & [Ed Dd] & Hkd & Hw)].
    - left. rewrite Hpo; [done|]. intros ->. unfold parked in Hp. by rewrite Hno in Hp.
    - right. destruct (decide (d = c)) as [->|].
      + exists c, g'. rewrite E in Ed. simplify_eq. unfold draining, waits. rewrite Hb, Hg, lookup_insert_eq. done.
      + exists d, gd. split_and!; [|done..]. split; [by rewrite Hg, lookup_insert_ne|done]. }
  assert (Hn : forall c0 k', c0 <> c -> cached s' k' <> Some c0 -> cached s k' <> Some c0).
  { intros c0 k' Hne. rewrite Hc. case_decide; congruence. }
  split.
  - intros c0 g0 (g1 & R & <-)%Hrn. by eapply Q1.
  - intros c1 g1 c2 g2 (h1 & D1 & <-)%Hdr (h2 & D2 & <-)%Hdr Hkk N1 N2.
    destruct (decide (key (body h1) = k)) as [Hk1|Hk1].
    + rewrite (Honly _ _ D1 Hk1). symmetry. apply (Honly _ _ D2). congruence.
    + rewrite Hc, decide_False in N1, N2 by done. by eapply (Q2 c1 h1 c2 h2).
  - intros c0 g0 (g1 & D & <-)%Hdr N. destruct (decide (key (body g1) = k)) as [Hk1|Hk1].
    + rewrite Hk1, (Honly _ _ D Hk1), Hpk. split; [by left|]. by intros h [= <-].
    + rewrite Hc, decide_False in N by done. destruct (Q3 _ _ D N) as [? Hq]. split; [by apply Hh|].
      intros h. rewrite Hpo by done. apply Hq.
  - intros c0 g0 (g1 & R & <-)%Hrn N. destruct (decide (c0 = c)) as [->|].
    + left. destruct R as [Ec _]. rewrite E in Ec. by simplify_eq.
    + apply Hh, Q4; [done|]. by apply Hn.
  - intros c1 g1 c2 g2 (h1 & R1 & <-)%Hrn (h2 & R2 & <-)%Hrn Hkk. by eapply (Q5 c1 h1 c2 h2).
Qed.

Lemma unaborted_draining s c g : inv s -> gens s !! c = Some g -> aborted g = true ->
  cached s (key (body g)) <> Some c.
Proof. intros Hi E Ha. by apply (gi_aborted _ _ _ (inv_gens _ Hi _ _ E)). Qed.

Lemma task_step_quiet s s' : inv s -> quiet s -> task_step yields s s' -> calm s s' -> quiet s'.
Proof.
  intros Hi Hq. destruct 1 as [c g gr E Hp Hgr Hres|c g E Hp Hgr|c g v E Hp Hy|c g v E Hp|c g E Hp|c g E Hp|c g E Hp];
    intros [Hc1 Hc2].
  - eapply (quiet_await s c g (handle gr)); [done|by split|unfold waits; by rewrite Hgr|].
    by apply resolved_gone.
  - unfold drain_take. destruct (graves s !! _) eqn:Eg.
    + apply quiet_take; [done|by split|unfold waits; by rewrite Hgr|done].
    + by apply quiet_start.
  - eapply quiet_update; [done..|]. right. by rewrite Hp.
  - eapply quiet_update; [done..|]. right. by rewrite Hp.
  - destruct Hp as [Hp|[Hp _]].
    + unfold drop_regrave. rewrite (q_clean _ Hq c g) by done. eapply quiet_update; [done..|].
      right. by rewrite Hp.
    + apply quiet_drop; [done|by split|]. apply unaborted_draining; [done..|].
      specialize (Hc1 c g E). unfold is_draining in Hc1. rewrite Hp in Hc1. simpl in Hc1.
      rewrite lookup_insert_eq in Hc1. by apply Hc1.
  - eapply quiet_update; [done..| |]; unfold drop_poison; destruct (outcome (cell g)); try done.
    all: right; by rewrite Hp.
  - eapply quiet_update; [done..|]. right. by rewrite Hp.
Qed.

Lemma inline_end_quiet s l1 x l2 g ok : inv s -> quiet s -> calls s = l1 ++ x :: l2 ->
  gens s !! c_cell x = Some g -> stage x = Inlining -> inline_over (phase (body g)) = true ->
  calm s (put_calls (to_stage l1 x l2 (Some Waiting)) (inline_end (c_cell x) ok g s)) ->
  quiet (put_calls (to_stage l1 x l2 (Some Waiting)) (inline_end (c_cell x) ok g s)).
Proof.
  intros Hi Hq Ecs E Hst Hov [Hcalm _].
  assert (Hpos : 0 < interest (cell g)) by (eapply call_interest; [done..|by rewrite Hst]).
  assert (Hab : aborted g <> true).
  { intros Ha. destruct (gi_aborted _ _ _ (inv_gens _ Hi _ _ E) Ha). lia. }
  pose proof (gi_outcome _ _ _ (inv_gens _ Hi _ _ E)) as Ho.
  unfold inline_end, spawn_body in *. cbn [on_cell body] in *.
  destruct (phase (body g)) eqn:Hp; try done; [..|by eapply quiet_update; [done..|left]].
  - destruct ok; [by eapply quiet_update; [done..|left]|]. exfalso.
    specialize (Hcalm (c_cell x) g E). unfold is_draining in Hcalm. rewrite Hp in Hcalm. simpl in Hcalm.
    rewrite lookup_insert_eq in Hcalm. apply Hab. specialize (Hcalm eq_refl).
    unfold drop_poison, is_running in Hcalm. simpl in Hcalm. by destruct (outcome (cell g)).
  - destruct ok; [by eapply quiet_update; [done..|left]|].
    eapply quiet_update; [done|done|done| |done|..].
    + intros k. unfold parked, drop_regrave. simpl. by rewrite (q_clean _ Hq (c_cell x) g).
    + unfold drop_poison. simpl. by destruct (outcome (cell g)).
    + right. rewrite Hp. split; [done|]. unfold drop_poison. simpl. by destruct (outcome (cell g)).
Qed.

Lemma cancel_quiet s l1 x l2 g s2 st : inv s -> quiet s -> calls s = l1 ++ x :: l2 ->
  gens s !! c_cell x = Some g -> cancel_abandoned fx (c_key x) (c_cell x) g s = (s2, st) ->
  calm s (put_calls (to_stage l1 x l2 st) s2) -> quiet (put_calls (to_stage l1 x l2 st) s2).
Proof.
  intros Hi Hq Ecs E Hcancel [_ Hcalm]. revert Hcancel. unfold cancel_abandoned. destruct (negb _ || _) eqn:Eg.
  { intros [= <- <-]. by eapply quiet_same. }
  apply orb_false_iff in Eg as [Hz%negb_false_iff%bool_decide_eq_true Hnd].
  destruct (inv_gens _ Hi _ _ E) as [Ho Hy Ht Hm Ha Hsl Hin Hd].
  destruct (inv_calls _ Hi x) as (g0 & E0 & [Hkx _ _]); [rewrite Ecs; apply elem_of_app; right; by left|].
  rewrite E in E0. simplify_eq. destruct (task (cell g0)) as [t|] eqn:Etk.
  - destruct (Ht t eq_refl) as (-> & Hcx & _). rewrite Hkx in Hcx. rewrite decide_True by done.
    intros [= <- <-].
    destruct (Hcalm (c_cell x) g0 E) as [Hgv Honly]; [by rewrite Hkx| |done|].
    { unfold cache_get. simpl. by rewrite cells_get_remove, decide_True. }
    rewrite Hkx in Hgv. assert (Hon : forall c' g', draining s c' g' -> key (body g') = c_key x -> c' = c_cell x).
    { intros c' g' [E' Hd'] Hk'. apply (Honly c' g' E'); [unfold is_draining; by rewrite Hd'|congruence]. }
    eapply (quiet_cancel s _ (c_key x) (c_cell x) g0 (on_cell (set_task None) g0) (restarts (cell g0))); try done.
    intros k'. unfold cache_get. simpl. apply cells_get_remove.
  - intros [= <- <-]. case_decide as Hcx; [|by eapply quiet_same]. eapply quiet_unmap; [done..|].
    intros c g Hdr Hc. unfold cache_get. simpl. rewrite cells_get_remove, decide_False; [done|].
    intros Hk. rewrite Hk, Hcx in Hc. simplify_eq.
    assert (gens s !! c_cell x = Some g /\ live (phase (body g)) = true) as [E' Hl].
    { destruct Hdr as [[? ->]|[? ->]]; by split. }
    rewrite E in E'. simplify_eq. destruct (spawned g) eqn:Hsp.
    + discriminate Hsl; [done..|congruence].
    + destruct (Hd eq_refl) as [Hg|(y & Hyy & Ecy & Est)]; [by rewrite Hg in Hl|].
      apply list_elem_of_split in Hyy as (m1 & m2 & Em). rewrite <-Ecy in E.
      assert (0 < interest (cell g)) by (eapply (call_interest s m1 y m2); [done..|by rewrite Est]). lia.
Qed.

Lemma enter_quiet s k c ok : inv s -> quiet s -> gens s !! c = None ->
  quiet (process_enter fx inline_first k c ok s).
Proof.
  intros Hi Hq E. unfold process_enter. destruct (cached s k) as [c0|] eqn:Ec.
  { destruct (gens s !! c0) as [g|] eqn:E0; [|done]. destruct (peek (cell g)); [by eapply quiet_same|].
    eapply (quiet_update s _ c0 g); [done..|by left]. }
  assert (Hcells : forall k', cells_get fx (cache_insert fx k c (cells s)) k' =
    if decide (k' = k) then Some c else cached s k') by (intros; apply cells_get_insert, Hi; done).
  assert (Hdel : forall k', k' <> k -> handle <$> delete k (graves s) !! k' = parked s k').
  { intros k' Hne. by rewrite lookup_delete_ne. }
  assert (Hk0 : handle <$> delete k (graves s) !! k = None) by (by rewrite lookup_delete_eq).
  destruct inline_first eqn:Ei; [|destruct ok].
  - eapply (quiet_born s _ k c (new_gen true k (graves s !! k))); try done. by left.
  - unfold spawn_body. eapply (quiet_born s _ k c (on_cell (set_task (Some c)) (set_spawned (new_gen false k (graves s !! k))))); try done.
    + simpl. by rewrite insert_insert, decide_True.
    + by left.
  - unfold spawn_body. eapply quiet_born; [done|done|done| |simpl; by rewrite insert_insert, decide_True|done|..].
    + done.
    + intros k' Hne. unfold parked, drop_regrave. simpl. destruct (graves s !! k).
      * simpl. by rewrite lookup_insert_ne, Hdel.
      * by apply Hdel.
    + right. split; [done|]. unfold parked, drop_regrave. simpl. destruct (graves s !! k) eqn:Eg; simpl.
      * by rewrite lookup_insert_eq.
      * by rewrite lookup_delete_eq.
Qed.

Lemma evict_if_quiet s k p : inv s -> quiet s -> quiet (evict_if fx k p s).
Proof.
  intros Hi Hq. unfold evict_if. destruct (cached s k) as [c|] eqn:Ec; simpl; [|done].
  destruct (gens s !! c) as [g|] eqn:E; simpl; [|done]. destruct (peek (cell g)) as [v|] eqn:Ep; [|done].
  destruct (p v); [|done]. eapply quiet_unmap; [done..|]. intros c' g' Hdr Hc.
  unfold cache_get. simpl. rewrite cells_get_remove, decide_False; [done|]. intros Hk. rewrite Hk, Ec in Hc. simplify_eq.
  assert (Hu : gens s !! c' = Some g' /\ unsettled (phase (body g')) = true).
  { destruct Hdr as [[? ->]|[? ->]]; by split. }
  destruct Hu as [E' Hu]. rewrite E in E'. simplify_eq.
  apply (gi_outcome _ _ _ (inv_gens _ Hi _ _ E)) in Hu. unfold peek in Ep. by rewrite Hu in Ep.
Qed.

Lemma calm_step_quiet s s' : inv s -> quiet s -> calm_step s s' -> quiet s'.
Proof.
  intros Hi Hq [Hs Hcalm]. destruct Hs as [k c ok E|s' Ht|l1 x l2 g s' Ecs E Hc|l1 x l2 t g Ecs Hst E|k p].
  - by apply enter_quiet.
  - by eapply task_step_quiet.
  - destruct Hc as [ok Hst Hov|Hst|w Hst|Hst|w Hst|armed Hst|Hst|s2 st Hst Hc].
    1: by apply inline_end_quiet.
    5: eapply (quiet_update s _ (c_cell x) g); [done..|by left].
    6: by eapply cancel_quiet.
    2: destruct (peek (cell g)).
    all: by eapply quiet_same.
  - eapply (quiet_update s _ t g); [done..|by left].
  - by apply evict_if_quiet.
Qed.

(** ** What a completed cell keeps *)

Definition settled (s : sys) (c : nat) (v : V) : Prop :=
  exists g, gens s !! c = Some g /\ peek (cell g) = Some v.

Lemma settled_phase s c g v : inv s -> gens s !! c = Some g -> peek (cell g) = Some v ->
  unsettled (phase (body g)) = false.
Proof.
  intros Hi E Hp. destruct (unsettled (phase (body g))) eqn:Hu; [|done].
  apply (gi_outcome _ _ _ (inv_gens _ Hi _ _ E)) in Hu. unfold peek in Hp. by rewrite Hu in Hp.
Qed.

Lemma settled_put s s' c v c0 g0 g0' : settled s c v -> gens s !! c0 = Some g0 ->
  gens s' = <[c0 := g0']> (gens s) -> (peek (cell g0) = Some v -> peek (cell g0') = Some v) -> settled s' c v.
Proof.
  intros (g & E & Hp) E0 Hg Hk. unfold settled. rewrite Hg. destruct (decide (c = c0)) as [->|].
  - exists g0'. rewrite lookup_insert_eq. simplify_eq. auto.
  - exists g. by rewrite lookup_insert_ne.
Qed.

Lemma settled_same s s' c v : settled s c v -> gens s' = gens s -> settled s' c v.
Proof. intros (g & E & Hp) Hg. exists g. by rewrite Hg. Qed.

Lemma peek_set_outcome o (c : TaskCell V) v : peek c = Some v -> peek (set_outcome o c) = Some v.
Proof. unfold peek, set_outcome. simpl. by destruct (outcome c) as [[]|]. Qed.

Lemma peek_drop_poison (g : gen) v : peek (cell g) = Some v -> peek (cell (drop_poison g)) = Some v.
Proof. unfold drop_poison, peek. by destruct (outcome (cell g)) eqn:E; simpl; rewrite ?E. Qed.

Lemma spawn_body_settled ok c0 g0 s c v : settled s c v -> gens s !! c0 = Some g0 ->
  settled (spawn_body ok c0 (on_cell (set_inline false) g0) s) c v.
Proof.
  intros Hs E0. unfold spawn_body. destruct ok; eapply settled_put; [done|done|done| |done..|]; [done|].
  intros Hp. simpl. by apply peek_set_outcome, peek_drop_poison.
Qed.

Lemma task_step_settled s s' c v : settled s c v -> task_step yields s s' -> settled s' c v.
Proof.
  intros Hs. destruct 1 as [c0 g gr E _ _ _|c0 g E _ _|c0 g v0 E _ _|c0 g v0 E _|c0 g E _|c0 g E _|c0 g E _].
  2: unfold drain_take; destruct (graves s !! _).
  all: eapply settled_put; [done|done|done|]; intros Hp; simpl; try done.
  - by apply peek_set_outcome.
  - by apply peek_drop_poison.
Qed.

Lemma task_step_cells s s' : task_step yields s s' -> cells s' = cells s.
Proof. destruct 1; try done. unfold drain_take. by destruct (graves s !! _). Qed.

Lemma cancel_settled s k c v x g s2 st : settled s c v -> cached s k = Some c ->
  gens s !! c_cell x = Some g -> cancel_abandoned fx (c_key x) (c_cell x) g s = (s2, st) ->
  settled s2 c v /\ cached s2 k = Some c.
Proof.
  intros Hs Hk E. pose proof Hs as (g0 & E0 & Hp0). unfold cancel_abandoned. destruct (negb _ || _) eqn:Eg.
  { by intros [= <- <-]. }
  apply orb_false_iff in Eg as [_ Hnd].
  assert (Hcx : c <> c_cell x).
  { intros ->. rewrite E in E0. simplify_eq. assert (is_done (cell g0) = true); [|congruence].
    apply is_done_peek. by eexists. }
  assert (Hkeep : cached s (c_key x) = Some (c_cell x) -> cells_get fx (cache_remove fx (c_key x) (cells s)) k = Some c).
  { intros Hck. rewrite cells_get_remove. case_decide; [congruence|done]. }
  destruct (task (cell g)); intros [= <- <-]; split.
  - by eapply (settled_put s _ c v (c_cell x) g); [..|case_decide|].
  - case_decide; [by apply Hkeep|done].
  - by case_decide; eapply settled_same.
  - case_decide; [by apply Hkeep|done].
Qed.

(** Only [evict_if] takes a completed cell out of the map. *)
Lemma settled_step s s' k c v : inv s -> settled s c v -> cached s k = Some c ->
  step fx inline_first yields s s' ->
  settled s' c v /\ (cached s' k = Some c \/ exists p, p v = true /\ s' = evict_if fx k p s).
Proof.
  intros Hi Hs Hk Hst. pose proof Hs as (g0 & E0 & Hp0).
  destruct Hst as [k' f ok E|s' Ht|l1 x l2 g s' Ecs E Hc|l1 x l2 t g Ecs Hst E|k' p].
  - assert (Hne : c <> f) by (intros ->; congruence). unfold process_enter. destruct (cached s k') as [c'|] eqn:Ec.
    + destruct (gens s !! c') as [g|] eqn:E'; [|auto]. destruct (peek (cell g)).
      * split; [by eapply settled_same|by left].
      * split; [by eapply (settled_put s _ c v c' g)|by left].
    + assert (Hc : cells_get fx (cache_insert fx k' f (cells s)) k = Some c).
      { rewrite cells_get_insert by apply Hi. case_decide; [congruence|done]. }
      destruct inline_first; [|destruct ok]; (split; [|by left]); exists g0; simpl;
        by rewrite ?lookup_insert_ne.
  - split; [by eapply task_step_settled|left]. unfold cache_get. by rewrite (task_step_cells _ _ Ht).
  - destruct Hc as [ok Hst Hov|Hst|w Hst|Hst|w Hst|armed Hst|Hst|s2 st Hst Hc].
    1: { unfold inline_end. cbn [on_cell body]. split.
      - eapply (settled_same (match phase (body g) with Gone => _ | _ => _ end)); [|done].
        destruct (phase (body g)); try (by apply spawn_body_settled).
        by eapply (settled_put s _ c v (c_cell x) g).
      - left. by destruct (phase (body g)), ok. }
    5: by split; [eapply (settled_put s _ c v (c_cell x) g)|left].
    2: destruct (peek (cell g)).
    1-6: by split; [eapply settled_same|left].
    destruct (cancel_settled s k c v x g s2 st Hs Hk E Hc) as [? ?]. split; [by eapply settled_same|by left].
  - split; [by eapply (settled_put s _ c v t g)|by left].
  - destruct (decide (k' = k)) as [->|Hne].
    + destruct (p v) eqn:Epv.
      * split; [|right; by exists p]. unfold evict_if. destruct (_ ≫= _) as [v'|]; [|done].
        destruct (p v'); [by eapply settled_same|done].
      * unfold evict_if. rewrite Hk. simpl. rewrite E0. simpl. rewrite Hp0, Epv. auto.
    + unfold evict_if. destruct (_ ≫= _) as [v'|]; [|auto]. destruct (p v'); [|auto].
      split; [by eapply settled_same|left]. unfold cache_get. simpl. by rewrite cells_get_remove, decide_False.
Qed.
End invariant.

(** ** Running a schedule *)

(** An event is one step, with the choices it leaves open; calls are named by
    their position. *)
Inductive Event K V :=
| EEnter (k : K) (fresh : nat)
| EAwait (c : nat)
| ETake (c : nat)
| EReturn (c : nat) (v : V)
| EPublish (c : nat)
| EDrop (c : nat)
| EPoison (c : nat)
| ENotify (c : nat)
| ECall (i : nat) (leave : bool)
| EAbort (i : nat).
Arguments EEnter {K V}. Arguments EAwait {K V}. Arguments ETake {K V}. Arguments EReturn {K V}.
Arguments EPublish {K V}. Arguments EDrop {K V}. Arguments EPoison {K V}. Arguments ENotify {K V}.
Arguments ECall {K V}. Arguments EAbort {K V}.

Section schedule.
Context {K V : Type} `{Countable K}.
Variable fx : K -> N.
Variable inline_first : bool.

Abbreviation sys := (Sys K V).
Abbreviation any := (fun (_ : K) (_ : V) => True).

(** The next step of the call at position [i]; [leave] drops its future. *)
Definition exec_call (leave : bool) (l1 : list (Call K)) (x : Call K) (l2 : list (Call K)) (g : Gen K V) (s : sys)
    : option sys :=
  let to st s := Some (put_calls (to_stage l1 x l2 st) s) in
  match stage x with
  | Inlining => if inline_over (phase (body g)) then to (Some Waiting) (inline_end (c_cell x) true g s) else None
  | Waiting => to (Some (Registered false)) s
  | Registered w => to (Some (check w (cell g)))
      match peek (cell g) with Some v => serve (c_key x) (c_cell x) v s | None => s end
  | Parked w => if leave then to (Some (Leaving true)) s else if w then to (Some Waiting) s else None
  | Leaving armed => to (release armed (cell g)).2
      (put_gen (c_cell x) (on_cell (fun c => (release armed c).1) g) s)
  | Deciding => to (decide_cancel (cell g)) s
  | Cancelling => let '(s, st) := cancel_abandoned fx (c_key x) (c_cell x) g s in to st s
  | Aborting _ => None
  end.

Definition exec (e : Event K V) (s : sys) : option sys :=
  match e with
  | EEnter k f =>
      match gens s !! f with None => Some (process_enter fx inline_first k f true s) | Some _ => None end
  | EAwait c =>
      g ← gens s !! c;
      match phase (body g), grave (body g) with
      | Draining, Some gr =>
          if resolved (gens s) (handle gr) then Some (put_gen c (set_grave None g) s) else None
      | _, _ => None
      end
  | ETake c =>
      g ← gens s !! c;
      match phase (body g), grave (body g) with Draining, None => Some (drain_take c g s) | _, _ => None end
  | EReturn c v =>
      g ← gens s !! c;
      match phase (body g) with Running => Some (put_gen c (set_phase (Returned v) g) s) | _ => None end
  | EPublish c =>
      g ← gens s !! c;
      match phase (body g) with Returned v => Some (put_gen c (publish v g) s) | _ => None end
  | EDrop c =>
      g ← gens s !! c;
      if (is_running g || is_draining g) && aborted g && spawned g
      then Some (put_gen c (set_phase Dropping (set_grave None g)) (put_graves (drop_regrave g (graves s)) s))
      else None
  | EPoison c =>
      g ← gens s !! c;
      match phase (body g) with Dropping => Some (put_gen c (drop_poison g) s) | _ => None end
  | ENotify c =>
      g ← gens s !! c;
      match phase (body g) with
      | Notifying => Some (put_calls (notify_waiters c (calls s)) (put_gen c (set_phase Gone g) s))
      | _ => None
      end
  | ECall i leave =>
      x ← calls s !! i;
      g ← gens s !! c_cell x;
      exec_call leave (take i (calls s)) x (drop (S i) (calls s)) g s
  | EAbort i =>
      x ← calls s !! i;
      match stage x with
      | Aborting t =>
          g ← gens s !! t;
          Some (put_calls (take i (calls s) ++ drop (S i) (calls s)) (put_gen t (set_aborted g) s))
      | _ => None
      end
  end.

Fixpoint run (es : list (Event K V)) (s : sys) : option sys :=
  match es with [] => Some s | e :: es => s ← exec e s; run es s end.

(** The same, refusing a transition that is not calm. *)
Fixpoint calm_run (es : list (Event K V)) (s : sys) : option sys :=
  match es with
  | [] => Some s
  | e :: es => s' ← exec e s; if bool_decide (calm fx s s') then calm_run es s' else None
  end.

Lemma exec_call_step leave l1 x l2 g s s' :
  exec_call leave l1 x l2 g s = Some s' -> call_step fx s l1 x l2 g s'.
Proof.
  unfold exec_call. destruct (stage x) as [| |w|w|armed| | |t] eqn:Hst; intros He; simplify_eq.
  - destruct (inline_over _) eqn:Ho; simplify_eq. by constructor.
  - by constructor.
  - by econstructor.
  - destruct leave; simplify_eq; [by econstructor|]. destruct w; simplify_eq. by constructor.
  - by econstructor.
  - by constructor.
  - destruct (cancel_abandoned _ _ _ _ _) eqn:Ec. simplify_eq. by econstructor.
Qed.

Lemma exec_step e s s' : exec e s = Some s' -> step fx inline_first any s s'.
Proof.
  destruct e as [k f|c|c|c v|c|c|c|c|i leave|i]; cbn [exec]; intros He.
  - destruct (gens s !! f) eqn:E; simplify_eq. by constructor.
  - apply bind_Some in He as (g & E & He). destruct (phase (body g)) eqn:Hp, (grave (body g)) eqn:Hg; simplify_eq.
    destruct (resolved _ _) eqn:Er; simplify_eq. by eapply step_task, step_await.
  - apply bind_Some in He as (g & E & He). destruct (phase (body g)) eqn:Hp, (grave (body g)) eqn:Hg; simplify_eq.
    by apply step_task, step_take.
  - apply bind_Some in He as (g & E & He). destruct (phase (body g)) eqn:Hp; simplify_eq. by apply step_task, step_return.
  - apply bind_Some in He as (g & E & He). destruct (phase (body g)) eqn:Hp; simplify_eq. by apply step_task, step_publish.
  - apply bind_Some in He as (g & E & He). destruct (_ && _) eqn:Hc; simplify_eq.
    apply step_task, step_drop; [done|]. unfold is_running, is_draining in Hc.
    destruct (phase (body g)); try done; [right|by left]. split; [done|]. by destruct (aborted g).
  - apply bind_Some in He as (g & E & He). destruct (phase (body g)) eqn:Hp; simplify_eq. by apply step_task, step_poison.
  - apply bind_Some in He as (g & E & He). destruct (phase (body g)) eqn:Hp; simplify_eq. by apply step_task, step_notify.
  - apply bind_Some in He as (x & Ex & He). apply bind_Some in He as (g & E & He).
    eapply step_call; [|done|by eapply exec_call_step]. symmetry. by apply take_drop_middle.
  - apply bind_Some in He as (x & Ex & He). destruct (stage x) eqn:Hst; try done.
    apply bind_Some in He as (g & E & He). simplify_eq.
    eapply step_abort; [|done|done]. symmetry. by apply take_drop_middle.
Qed.

Lemma run_reachable es s s' : run es s = Some s' -> rtc (step fx inline_first any) s s'.
Proof.
  revert s; induction es as [|e es IH]; intros s He; simpl in He; [by simplify_eq|].
  apply bind_Some in He as (s1 & E1 & He). eapply rtc_l; [by eapply exec_step|by apply IH].
Qed.

Lemma calm_run_reachable es s s' : calm_run es s = Some s' -> rtc (calm_step fx inline_first any) s s'.
Proof.
  revert s; induction es as [|e es IH]; intros s He; simpl in He; [by simplify_eq|].
  apply bind_Some in He as (s1 & E1 & He). case_bool_decide as Hc; [|done].
  eapply rtc_l; [split; [by eapply exec_step|done]|by apply IH].
Qed.
End schedule.

(** ** Theorems *)

(** The cells of a key whose body is running. *)
Definition bodies {K V} `{Countable K} (s : Sys K V) (k : K) : list nat :=
  fst <$> filter (fun cg => key (body cg.2) = k /\ is_running cg.2 = true) (map_to_list (gens s)).

Lemma bodies_elem {K V} `{Countable K} (s : Sys K V) k c :
  c ∈ bodies s k <-> exists g, running s c g /\ key (body g) = k.
Proof.
  unfold bodies, running, is_running. rewrite list_elem_of_fmap. setoid_rewrite list_elem_of_filter. split.
  - intros ([c' g] & -> & [Hk Hr] & E%elem_of_map_to_list). exists g. simpl in *.
    split; [|done]. split; [done|]. by destruct (phase (body g)).
  - intros (g & [E Hr] & Hk). exists (c, g). simpl. rewrite Hr. split_and!; [done..|]. by apply elem_of_map_to_list.
Qed.

Lemma NoDup_all_eq {A} (l : list A) : NoDup l -> (forall x y, x ∈ l -> y ∈ l -> x = y) -> length l <= 1.
Proof.
  intros Hn He. destruct l as [|x [|y l]]; simpl; [lia..|]. apply NoDup_cons in Hn as [Hx _].
  destruct Hx. rewrite (He x y); set_solver.
Qed.

Section theorems.
Context {K V : Type} `{Countable K} {tokio : Tokio} {laws : TokioLaws}.
Variable fx : K -> N.
Hypothesis fx_u64 : forall k, (fx k < 2 ^ 64)%N.
Variable inline_first : bool.
Variable yields : K -> V -> Prop.

Abbreviation sys := (Sys K V).

(** C2: at most one body per key, on calm executions. Whatever the interleaving
    of callers, cancellations and runtime, and however many generations are
    dying, two bodies of one key never run together, provided no computation is
    cancelled while another attempt at its key is still draining or has just
    re-parked its predecessor, and the runtime drops no task that is still draining. *)
Theorem task_cell_exclusive (s : sys) k :
  rtc (calm_step fx inline_first yields) init s -> length (bodies s k) <= 1.
Proof.
  intros Hr. assert (Hi : inv fx yields s /\ quiet fx s).
  { remember init as s0 eqn:E0. assert (Hi : inv fx yields s0 /\ quiet fx s0).
    { subst. split; [by apply cell_init_inv|apply quiet_init]. }
    clear E0. induction Hr as [|s1 s2 s3 [Hst Hc] _ IH]; [done|]. apply IH. destruct Hi as [Hi Hq].
    split; [by eapply cell_step_inv|]. eapply calm_step_quiet; [done..|by split]. }
  apply NoDup_all_eq.
  - unfold bodies. apply (sublist_NoDup _ (map_to_list (gens s)).*1); [apply NoDup_fst_map_to_list|].
    apply fmap_sublist, sublist_filter.
  - intros c1 c2 (g1 & R1 & K1)%bodies_elem (g2 & R2 & K2)%bodies_elem.
    eapply (q_unique _ _ (proj2 Hi)); [done..|congruence].
Qed.

(** C32: nobody waits for a computation that will not come. Every call that still
    wants its cell is counted in its interest, the cell was not aborted, and
    while it has no outcome it is the one in the map, so every later caller
    joins it, and its body is alive with somebody to poll it: the runtime, or
    the call that runs it inline. *)
Theorem task_cell_never_stranded (s : sys) x :
  reachable fx inline_first yields s -> x ∈ calls s -> weight (Some (stage x)) = 1 ->
  exists g, gens s !! c_cell x = Some g /\ key (body g) = c_key x /\
    interest (cell g) = holders (c_cell x) (calls s) /\ aborted g = false /\
    (outcome (cell g) = None ->
       cache_get fx s (c_key x) = Some (c_cell x) /\ unsettled (phase (body g)) = true /\
       (spawned g = true \/ exists y, y ∈ calls s /\ c_cell y = c_cell x /\ stage y = Inlining)).
Proof.
  intros Hr Hx Hw. apply cell_reachable_inv in Hr as Hi; [|done]. destruct (inv_calls _ _ _ Hi x Hx) as (g & E & [Hk _ _]).
  pose proof Hx as Hx'. apply list_elem_of_split in Hx' as (l1 & l2 & Ecs).
  assert (Hpos : 0 < interest (cell g)) by (by eapply call_interest).
  destruct (inv_gens _ _ _ Hi _ _ E) as [Ho Hy Ht Hm Ha Hsl Hin Hd].
  exists g. split_and!; [done..| |].
  - destruct (aborted g); [|done]. destruct (Ha eq_refl). lia.
  - intros Hn. split_and!.
    + rewrite <-Hk. apply Hm; [done|]. unfold is_done. by rewrite Hn.
    + by apply Ho.
    + destruct (spawned g); [by left|right]. destruct (Hd eq_refl) as [Hg|?]; [|done].
      apply Ho in Hn. by rewrite Hg in Hn.
Qed.

(** No lost wake-up. A call that is suspended and was not woken waits for a
    cell that has no outcome yet, or whose publisher is about to notify. *)
Theorem task_cell_no_lost_wakeup (s : sys) x :
  reachable fx inline_first yields s -> x ∈ calls s -> stage x = Parked false ->
  exists g, gens s !! c_cell x = Some g /\
    (outcome (cell g) = None /\ unsettled (phase (body g)) = true \/ phase (body g) = Notifying).
Proof.
  intros Hr Hx Hst. apply cell_reachable_inv in Hr as Hi; [|done]. destruct (inv_calls _ _ _ Hi x Hx) as (g & E & [_ Hp _]).
  exists g. split; [done|]. destruct (Hp Hst) as [Hn|]; [left|by right]. split; [done|].
  by apply (gi_outcome _ _ _ _ _ (inv_gens _ _ _ Hi _ _ E)).
Qed.

(** A key is computed once. While a completed cell is in the map, every call
    is served its value without a new body, the cell keeps no task handle, and
    no step but an [evict_if] whose predicate accepts the value takes it out;
    every value ever served is the outcome of its cell and one the body of the
    key can compute. *)
Theorem task_cell_memoizes (s : sys) k c g v :
  reachable fx inline_first yields s -> cache_get fx s k = Some c -> gens s !! c = Some g ->
  peek (cell g) = Some v ->
  (forall fresh ok, process_enter fx inline_first k fresh ok s = serve k c v s) /\ task (cell g) = None /\
  (forall s', step fx inline_first yields s s' ->
     (exists g', gens s' !! c = Some g' /\ peek (cell g') = Some v) /\
     (cache_get fx s' k = Some c \/ exists p, p v = true /\ s' = evict_if fx k p s)) /\
  (forall v', (k, c, v') ∈ served s -> v' = v /\ yields k v').
Proof.
  intros Hr Hk E Hp. apply cell_reachable_inv in Hr as Hi; [|done].
  pose proof (inv_gens _ _ _ Hi _ _ E) as [Ho Hy Ht _ _ _ _ _]. split_and!.
  - intros fresh ok. unfold process_enter. by rewrite Hk, E, Hp.
  - destruct (task (cell g)) as [h|]; [|done]. destruct (Ht h eq_refl) as (_ & _ & Hnd).
    assert (is_done (cell g) = true); [apply is_done_peek; by eexists|congruence].
  - intros s' Hs. by eapply (settled_step fx fx_u64 inline_first yields s s' k c v Hi); [exists g| |].
  - intros v' Hin. destruct (inv_served _ _ _ Hi _ _ _ Hin) as (g' & E' & <- & Hp'). simplify_eq. auto.
Qed.
End theorems.

(** ** Schedules *)

Abbreviation ev := (Event nat nat).

(** A call enters as generation [c] and is suspended; then its caller drops it,
    and as the last one cancels and aborts the computation. *)
Definition arrive (c : nat) : list ev :=
  [EEnter 7 c; ECall 0 false; ECall 0 false; ECall 0 false].
Definition abandon : list ev :=
  [ECall 0 true; ECall 0 false; ECall 0 false; ECall 0 false; EAbort 0].
(** The runtime drops an aborted task. *)
Definition bury (c : nat) : list ev := [EDrop c; EPoison c; ENotify c].

(** Generation 0 is running when it is cancelled. *)
Definition first_body : list ev :=
  [EEnter 7 0; ETake 0; ECall 0 false; ECall 0 false; ECall 0 false] ++ abandon.

(** Generation 1 is cancelled while it waits for generation 0; generation 2
    waits for both and runs. *)
Definition three_generations : list ev :=
  first_body ++ arrive 1 ++ abandon ++ arrive 2 ++ bury 1 ++ [EAwait 2; ETake 2] ++
  bury 0 ++ [EAwait 2; ETake 2].

(** Generation 2 is cancelled too, after generation 1 re-parked generation 0 and
    before generation 2 was polled again. *)
Definition four_generations : list ev :=
  first_body ++ arrive 1 ++ abandon ++ arrive 2 ++ bury 1 ++ abandon ++ bury 2 ++
  [EEnter 7 3; EAwait 3; ETake 3].

(** The body of generation 0 runs to its end and a second call is served. *)
Definition one_value : list ev :=
  arrive 0 ++ [ETake 0; EReturn 0 42; EPublish 0; ENotify 0; EEnter 7 1; ECall 0 false; ECall 0 false; ECall 0 false;
    ECall 0 false].

Abbreviation no_hash := (fun _ : nat => 0%N).
Definition sample (es : list ev) : Sys nat nat := default init (run no_hash true es init).

Lemma no_hash_u64 k : (no_hash k < 2 ^ 64)%N.
Proof. done. Qed.

Lemma schedule_reachable es : is_Some (run no_hash true es init) ->
  reachable no_hash true (fun _ _ => True) (sample es).
Proof. intros [s E]. unfold sample. rewrite E. by eapply run_reachable. Qed.

(** The exclusion fails outside calm executions. In the fourth generation
    the canceller of generation 2 overwrites the grave that generation 1
    re-parked, and generation 2 re-parks the handle of generation 1, which is
    dead: generation 3 finds nothing to wait for and runs while the body of
    generation 0 still does. *)
Theorem task_cell_overlap :
  reachable no_hash true (fun _ _ => True) (sample four_generations) /\
  bodies (sample four_generations) 7 = [3; 0].
Proof. split; [apply schedule_reachable; vm_compute; by eexists|vm_compute; reflexivity]. Qed.

(** ** Witnesses *)

Lemma task_cell_exclusive_witness :
  length (bodies (default init (calm_run no_hash true three_generations init)) 7) <= 1 /\
  bodies (default init (calm_run no_hash true three_generations init)) 7 = [2].
Proof.
  split; [|vm_compute; reflexivity].
  apply (task_cell_exclusive no_hash no_hash_u64 true (fun _ _ => True)).
  apply (calm_run_reachable _ _ three_generations). vm_compute. reflexivity.
Defined.

Definition sample_call : Call nat := mkCall 7 0 (Parked false).

Lemma task_cell_never_stranded_witness :
  exists g, gens (sample (arrive 0)) !! 0 = Some g /\ key (body g) = 7 /\
    interest (cell g) = holders 0 (calls (sample (arrive 0))) /\ aborted g = false /\
    (outcome (cell g) = None ->
       cache_get no_hash (sample (arrive 0)) 7 = Some 0 /\ unsettled (phase (body g)) = true /\
       (spawned g = true \/ exists y, y ∈ calls (sample (arrive 0)) /\ c_cell y = 0 /\ stage y = Inlining)).
Proof.
  apply (task_cell_never_stranded no_hash no_hash_u64 true (fun _ _ => True) (sample (arrive 0)) sample_call).
  - apply schedule_reachable. vm_compute. by eexists.
  - vm_compute. by left.
  - reflexivity.
Defined.

Lemma task_cell_no_lost_wakeup_witness :
  exists g, gens (sample (arrive 0)) !! 0 = Some g /\
    (outcome (cell g) = None /\ unsettled (phase (body g)) = true \/ phase (body g) = Notifying).
Proof.
  apply (task_cell_no_lost_wakeup no_hash no_hash_u64 true (fun _ _ => True) (sample (arrive 0)) sample_call).
  - apply schedule_reachable. vm_compute. by eexists.
  - vm_compute. by left.
  - reflexivity.
Defined.

Definition sample_done : Gen nat nat :=
  mkGen (mkCell (Some (Ok 42)) 0 None 0 false) (mkBody 7 None Gone) true false.

Lemma task_cell_memoizes_witness :
  process_enter no_hash true 7 2 true (sample one_value) = serve 7 0 42 (sample one_value) /\
  served (sample one_value) = [(7, 0, 42); (7, 0, 42)].
Proof.
  split; [|vm_compute; reflexivity].
  apply (task_cell_memoizes no_hash no_hash_u64 true (fun _ _ => True) (sample one_value) 7 0 sample_done 42).
  - apply schedule_reachable. vm_compute. by eexists.
  - vm_compute. reflexivity.
  - vm_compute. reflexivity.
  - reflexivity.
Defined.
