(* ===== verification/WaitGraph.v ===== *)
(** Cycle detection of the memoizer: the frame chain and the wait-for graph of
    [crates/core/src/hmemoizer/mod.rs].

    A call of [once] is an invocation; [waiting] maps it to the cells it is
    blocked on, and [cells] maps a cell to the invocation that computes it. The
    depth-first search threads its [visited] set and its [path] through the
    recursion and restores both on the way out, so here they are arguments; it
    carries fuel, the number of cells, which is enough because every recursive
    call visits a new owner. A [HashSet] iterates in any order: [iter] is the
    order, and the theorems hold for each. *)
From S2P Require Import Prelude.
From stdpp Require Import gmap.

(** [(tag, key_hash)]. *)
Abbreviation CellId := (str * N)%type.

Record CellRecord := mkRecord { owner : N; debug_key : str }.

Record WaitGraph := mkGraph { cells : gmap CellId CellRecord; waiting : gmap N (gset CellId) }.

Definition new : WaitGraph := mkGraph ∅ ∅.

Definition add_wait (inv : N) (c : CellId) (wg : WaitGraph) : WaitGraph :=
  mkGraph (cells wg) (<[inv := {[c]} ∪ default ∅ (waiting wg !! inv)]> (waiting wg)).

Definition remove_wait (inv : N) (c : CellId) (wg : WaitGraph) : WaitGraph :=
  match waiting wg !! inv with
  | Some set =>
      let set := set ∖ {[c]} in
      mkGraph (cells wg) (if decide (set = ∅) then delete inv (waiting wg) else <[inv := set]> (waiting wg))
  | None => wg
  end.

Section graph.
Variable iter : gset CellId -> list CellId.

(** [None] is out of fuel; a found cycle is the path to it. *)
Fixpoint dfs (fuel : nat) (wg : WaitGraph) (cur : N) (visited : gset N) (path : list CellId)
    : option (option (list CellId)) :=
  match fuel with
  | O => None
  | S fuel =>
      match waiting wg !! cur with
      | None => Some None
      | Some cs =>
          (fix go (l : list CellId) : option (option (list CellId)) :=
             match l with
             | [] => Some None
             | c :: l =>
                 match cells wg !! c with
                 | None => go l
                 | Some rec =>
                     if decide (owner rec ∈ visited) then Some (Some (path ++ [c]))
                     else
                       match dfs fuel wg (owner rec) ({[owner rec]} ∪ visited) (path ++ [c]) with
                       | Some None => go l
                       | r => r
                       end
                 end
             end) (iter cs)
      end
  end.

Definition find_cycle (wg : WaitGraph) (start : N) : option (option (list CellId)) :=
  dfs (S (S (size (cells wg)))) wg start {[start]} [].

(** *** The registration and the cleanup of [once] *)

Inductive CycleKind := SelfRecursion | CrossTask.

(** What a call must undo. *)
Record Registered := mkRegistered { became_owner : bool; waiter_registered : bool }.

Definition with_parent (f : N -> WaitGraph -> WaitGraph) (parent : option N) (wg : WaitGraph) : WaitGraph :=
  match parent with Some p => f p wg | None => wg end.

(** The section under the graph's lock; [Err] carries the path of the cycle. *)
Definition register (me : N) (parent : option N) (c : CellId) (dbg : str) (wg : WaitGraph)
    : option (result (list CellId) Registered * WaitGraph) :=
  match cells wg !! c with
  | None =>
      let wg := mkGraph (<[c := mkRecord me dbg]> (cells wg)) (waiting wg) in
      Some (Ok (mkRegistered true false), with_parent (fun p => add_wait p c) parent wg)
  | Some _ =>
      let wg := with_parent (fun p => add_wait p c) parent (add_wait me c wg) in
      match find_cycle wg me with
      | None => None
      | Some (Some path) => Some (Err path, with_parent (fun p => remove_wait p c) parent (remove_wait me c wg))
      | Some None => Some (Ok (mkRegistered false true), wg)
      end
  end.

Definition cleanup (me : N) (parent : option N) (c : CellId) (r : Registered) (wg : WaitGraph) : WaitGraph :=
  let wg := if waiter_registered r then remove_wait me c wg else wg in
  let wg := if became_owner r || waiter_registered r then with_parent (fun p => remove_wait p c) parent wg else wg in
  if became_owner r then mkGraph (delete c (cells wg)) (waiting wg) else wg.
End graph.

(** *** The frame chain *)

Record Frame := mkFrame { f_tag : str; key_hash : N; f_debug_key : str; invocation_id : N }.

(** [IN_FLIGHT], the innermost frame first; what is returned is the chain from
    the re-entered frame to the root. *)
Fixpoint check_recursion (tag : str) (hash : N) (chain : list Frame) : option (list Frame) :=
  match chain with
  | [] => None
  | f :: parent =>
      if decide (f_tag f = tag /\ key_hash f = hash) then Some chain else check_recursion tag hash parent
  end.

(** [format_frame_stack], the root first. *)
Definition format_frame_stack (top : list Frame) : list str :=
  reverse ((fun f => $"[" ++ f_tag f ++ $"] " ++ f_debug_key f) <$> top).

(** ** Properties *)

(** The edges: an invocation waits for a cell that another one computes. *)
Definition edge (wg : WaitGraph) (i : N) (c : CellId) (j : N) : Prop :=
  exists cs rec, waiting wg !! i = Some cs /\ c ∈ cs /\ cells wg !! c = Some rec /\ owner rec = j.
Definition blocks (wg : WaitGraph) (i j : N) : Prop := exists c, edge wg i c j.

(** A walk through the graph and the cells on it. *)
Inductive walk (wg : WaitGraph) : N -> list CellId -> N -> Prop :=
| walk_nil i : walk wg i [] i
| walk_snoc i p j c k : walk wg i p j -> edge wg j c k -> walk wg i (p ++ [c]) k.

Section search.
Variable iter : gset CellId -> list CellId.
Hypothesis iter_elem : forall s c, c ∈ iter s <-> c ∈ s.

(** The invocations a search may still visit. *)
Definition owners (wg : WaitGraph) : gset N := list_to_set ((owner ∘ snd) <$> map_to_list (cells wg)).

Lemma owners_elem wg c rec : cells wg !! c = Some rec -> owner rec ∈ owners wg.
Proof.
  intros E. unfold owners. apply elem_of_list_to_set, list_elem_of_fmap. exists (c, rec).
  split; [done|]. by apply elem_of_map_to_list.
Qed.

Lemma owners_size wg : size (owners wg) <= size (cells wg).
Proof.
  unfold owners. rewrite <-length_map_to_list, <-(length_fmap (owner ∘ snd)). apply size_list_to_set_le.
Qed.

Lemma owners_shrink wg c rec visited : cells wg !! c = Some rec -> owner rec ∉ visited ->
  size (owners wg ∖ ({[owner rec]} ∪ visited)) < size (owners wg ∖ visited).
Proof.
  intros E Hn. apply subset_size. apply owners_elem in E. split; [set_solver|]. intros Hs.
  assert (owner rec ∈ owners wg ∖ ({[owner rec]} ∪ visited)); [|set_solver]. apply Hs. set_solver.
Qed.

(** Consecutive invocations of a list block on each other. *)
Fixpoint chain (wg : WaitGraph) (i : N) (vs : list N) : Prop :=
  match vs with [] => True | v :: vs => blocks wg i v /\ chain wg v vs end.

(** No simple path from [cur] that avoids [visited] leads back to itself or to
    [visited]. *)
Definition clear (wg : WaitGraph) (cur : N) (visited : gset N) : Prop :=
  forall vs j, chain wg cur vs -> NoDup vs -> (forall v, v ∈ vs -> v ∉ visited) ->
    blocks wg (List.last vs cur) j -> (j ∉ visited) /\ (j ∉ vs).

(** The path leads to an invocation and from there back to it. *)
Definition closes (wg : WaitGraph) (start : N) (path : list CellId) : Prop :=
  exists p1 p2 j, path = p1 ++ p2 /\ p2 <> [] /\ walk wg start p1 j /\ walk wg j p2 j.

Lemma last_shift (v d : N) vs : List.last (v :: vs) d = List.last vs v.
Proof.
  revert v d; induction vs as [|w vs IH]; intros v d; [done|].
  change (List.last (w :: vs) d = List.last (w :: vs) v). by rewrite !IH.
Qed.

Lemma clear_idle wg cur visited : waiting wg !! cur = None -> clear wg cur visited.
Proof.
  intros E vs j Hc _ _ Hb. exfalso.
  assert (Hno : forall v, ~ blocks wg cur v) by (intros v (c & cs & rec & ? & _); congruence).
  destruct vs as [|v vs]; [by eapply Hno|]. destruct Hc as [Hc _]. by eapply Hno.
Qed.

(** The visited invocations are on the path. *)
Definition on_path (wg : WaitGraph) (start cur : N) (path : list CellId) (visited : gset N) : Prop :=
  forall v, v ∈ visited -> exists p1 p2, path = p1 ++ p2 /\ walk wg start p1 v /\ walk wg v p2 cur.

Lemma visited_extend wg start cur path visited c j : walk wg start path cur -> on_path wg start cur path visited ->
  edge wg cur c j -> on_path wg start j (path ++ [c]) ({[j]} ∪ visited).
Proof.
  intros Hw Hv He v [->%elem_of_singleton|Hin]%elem_of_union.
  - exists (path ++ [c]), []. rewrite app_nil_r. split_and!; [done|by econstructor|constructor].
  - destruct (Hv _ Hin) as (p1 & p2 & -> & Hw1 & Hw2). exists p1, (p2 ++ [c]).
    rewrite app_assoc. split_and!; [done|done|by econstructor].
Qed.

Lemma dfs_spec wg start fuel : forall cur visited path,
  size (owners wg ∖ visited) < fuel -> walk wg start path cur ->
  on_path wg start cur path visited ->
  match dfs iter fuel wg cur visited path with
  | None => False
  | Some (Some path') => closes wg start path'
  | Some None => clear wg cur visited
  end.
Proof.
  induction fuel as [|fuel IH]; intros cur visited path Hf Hw Hv; [lia|]. cbn [dfs].
  destruct (waiting wg !! cur) as [cs|] eqn:Ecs.
  2: { by apply clear_idle. }
  match goal with |- match ?go (iter cs) with _ => _ end => set (loop := go) end.
  assert (Hl : forall l, (forall c, c ∈ l -> c ∈ cs) ->
    match loop l with
    | None => False
    | Some (Some path') => closes wg start path'
    | Some None => forall c rec, c ∈ l -> cells wg !! c = Some rec ->
        (owner rec ∉ visited) /\ clear wg (owner rec) ({[owner rec]} ∪ visited)
    end).
  { induction l as [|c l IHl]; intros Hin; simpl; [set_solver|].
    assert (Hrest : forall c, c ∈ l -> c ∈ cs) by set_solver. specialize (IHl Hrest).
    destruct (cells wg !! c) as [rec|] eqn:Ec.
    - assert (Hedge : edge wg cur c (owner rec)) by (exists cs, rec; split_and!; [done|set_solver|done..]).
      case_decide as Hvis.
      + destruct (Hv _ Hvis) as (p1 & p2 & -> & Hw1 & Hw2). exists p1, (p2 ++ [c]), (owner rec).
        rewrite app_assoc. split_and!; [done|by destruct p2|done|by econstructor].
      + pose proof (owners_shrink wg c rec visited Ec Hvis) as Hsz.
        opose proof* (IH (owner rec) ({[owner rec]} ∪ visited) (path ++ [c])) as Hnext; [lia|by econstructor| |].
        { by eapply visited_extend. }
        destruct (dfs _ _ _ _ _ _) as [[path'|]|]; [done| |done].
        destruct (loop l) as [[path'|]|]; [done| |done].
        intros c' rec' Hc' E'. apply elem_of_cons in Hc' as [->|Hc']; [|by eapply IHl].
        rewrite Ec in E'. by simplify_eq.
    - destruct (loop l) as [[path'|]|]; [done| |done].
      intros c' rec' Hc' E'. apply elem_of_cons in Hc' as [->|Hc']; [congruence|by eapply IHl]. }
  specialize (Hl (iter cs)). destruct (loop (iter cs)) as [[path'|]|].
  - apply Hl. by intros c ?%iter_elem.
  - assert (Hall : forall j, blocks wg cur j -> (j ∉ visited) /\ clear wg j ({[j]} ∪ visited)).
    { intros j (c & cs' & rec & E1 & Hc & E2 & <-). rewrite Ecs in E1. simplify_eq.
      eapply (Hl (fun c' H => proj1 (iter_elem _ _) H) c rec); [by apply iter_elem|done]. }
    intros vs j Hc Hn Hav Hb. destruct vs as [|v vs].
    + split; [by apply Hall|set_solver].
    + destruct Hc as [Hbv Hc]. destruct (Hall v Hbv) as [Hvv Hcl]. apply NoDup_cons in Hn as [Hni Hn].
      destruct (Hcl vs j Hc Hn) as [H1 H2]; [set_solver|by rewrite last_shift in Hb|set_solver].
  - apply Hl. by intros c ?%iter_elem.
Qed.

Lemma find_cycle_spec wg start :
  match find_cycle iter wg start with
  | None => False
  | Some (Some path) => closes wg start path
  | Some None => clear wg start {[start]}
  end.
Proof.
  apply dfs_spec; [|constructor|].
  - assert (size (owners wg ∖ {[start]}) <= size (owners wg)) by (apply subseteq_size; set_solver).
    pose proof (owners_size wg). lia.
  - intros v ->%elem_of_singleton. exists [], []. split_and!; [done|constructor..].
Qed.

(** ** No cycle is missed *)

Lemma chain_snoc wg i vs j : chain wg i vs -> blocks wg (List.last vs i) j -> chain wg i (vs ++ [j]).
Proof.
  revert i; induction vs as [|v vs IH]; intros i; [by intros _ ?|]. intros [Hb Hc] Hj.
  split; [done|]. apply IH; [done|]. by rewrite last_shift in Hj.
Qed.

Lemma last_snoc (vs : list N) j d : List.last (vs ++ [j]) d = j.
Proof. apply List.last_last. Qed.

(** A walk of blocked invocations, as the list of the ones it visits. *)
Lemma tc_chain wg i j : tc (blocks wg) i j -> exists vs, chain wg i vs /\ vs <> [] /\ List.last vs i = j.
Proof.
  induction 1 as [i j Hb|i k j Hb _ (vs & Hc & Hn & Hl)]; [by exists [j]|]. exists (k :: vs).
  split_and!; [done|done|]. by rewrite last_shift.
Qed.

Lemma chain_app wg i vs ws : chain wg i vs -> chain wg (List.last vs i) ws -> chain wg i (vs ++ ws).
Proof.
  revert i; induction vs as [|v vs IH]; intros i; [done|]. intros [Hb Hc] Hw. split; [done|].
  apply IH; [done|]. by rewrite last_shift in Hw.
Qed.

(** A walk that repeats an invocation has a simple prefix that leads back. *)
Lemma chain_repeats wg i vs : chain wg i vs -> ~ NoDup (i :: vs) -> ~ clear wg i {[i]}.
Proof.
  induction vs as [|j vs IH] using rev_ind; intros Hc Hd Hcl.
  { apply Hd. apply NoDup_singleton. }
  assert (Hpre : chain wg i vs /\ blocks wg (List.last vs i) j).
  { clear -Hc. revert i Hc; induction vs as [|v vs IH]; intros i; [by intros [? _]|]. intros [Hb Hc].
    destruct (IH v Hc) as [? ?]. split; [done|]. by rewrite last_shift. }
  destruct Hpre as [Hpre Hb]. destruct (decide (NoDup (i :: vs))) as [Hn|Hn]; [|by apply IH].
  apply NoDup_cons in Hn as [Hi Hn]. destruct (Hcl vs j Hpre Hn) as [H1 H2]; [set_solver|done|].
  apply Hd. apply NoDup_cons. split; [set_solver|]. apply NoDup_app. split_and!; [done|set_solver|apply NoDup_singleton].
Qed.

(** The search finds exactly the cycles. It always ends within its fuel; a
    path it returns leads from the start to an invocation and back to it, every
    step a cell the one waits for and the other computes; and when it returns
    nothing, no invocation the start is blocked on, directly or not, is blocked
    on itself. *)
Theorem find_cycle_exact wg start :
  find_cycle iter wg start <> None /\
  (forall path, find_cycle iter wg start = Some (Some path) -> closes wg start path) /\
  (find_cycle iter wg start = Some None ->
     forall j, rtc (blocks wg) start j -> ~ tc (blocks wg) j j).
Proof.
  pose proof (find_cycle_spec wg start) as Hs. split_and!.
  - intros E. by rewrite E in Hs.
  - intros path E. by rewrite E in Hs.
  - intros E j Hr Hc. rewrite E in Hs.
    destruct (tc_chain _ _ _ Hc) as (ws & Hws & Hne & Hl).
    assert (exists vs, chain wg start vs /\ List.last vs start = j) as (vs & Hvs & Hlast).
    { apply rtc_tc in Hr as [<-|Hr]; [by exists []|]. destruct (tc_chain _ _ _ Hr) as (vs & ? & _ & ?). by exists vs. }
    apply (chain_repeats wg start (vs ++ ws)); [apply chain_app; [done|by rewrite Hlast]| |done].
    assert (Hj : j ∈ ws).
    { destruct ws as [|w ws _] using rev_ind; [done|]. rewrite last_snoc in Hl. set_solver. }
    destruct vs as [|v vs _] using rev_ind.
    + simpl in Hlast. subst. intros [Hin _]%NoDup_cons. set_solver.
    + rewrite last_snoc in Hlast. subst. intros [_ Hn]%NoDup_cons. apply NoDup_app in Hn as (_ & Hx & _). set_solver.
Qed.
End search.

(** ** The graph stays acyclic *)

Definition member (wg : WaitGraph) (i : N) (c : CellId) : Prop :=
  exists cs, waiting wg !! i = Some cs /\ c ∈ cs.

Definition acyclic (wg : WaitGraph) : Prop := forall j, ~ tc (blocks wg) j j.

Lemma blocks_member wg i j :
  blocks wg i j <-> exists c rec, member wg i c /\ cells wg !! c = Some rec /\ owner rec = j.
Proof. unfold blocks, edge, member. naive_solver. Qed.

Lemma exists_Some {A} (x : A) (P : A -> Prop) : (exists y, Some x = Some y /\ P y) <-> P x.
Proof. naive_solver. Qed.
Lemma exists_None {A} (P : A -> Prop) : (exists y, None = Some y /\ P y) <-> False.
Proof. naive_solver. Qed.

Lemma add_wait_member i c wg j d : member (add_wait i c wg) j d <-> member wg j d \/ j = i /\ d = c.
Proof.
  unfold member, add_wait. simpl. destruct (decide (j = i)) as [->|].
  - rewrite lookup_insert_eq. destruct (waiting wg !! i) as [cs|]; simpl;
      rewrite ?exists_Some, ?exists_None; set_solver.
  - rewrite lookup_insert_ne by done. naive_solver.
Qed.

Lemma remove_wait_member i c wg j d : member (remove_wait i c wg) j d <-> member wg j d /\ ~ (j = i /\ d = c).
Proof.
  unfold member, remove_wait. destruct (waiting wg !! i) as [cs|] eqn:E; simpl.
  - destruct (decide (j = i)) as [->|].
    + rewrite E, exists_Some. case_decide as He; rewrite ?lookup_delete_eq, ?lookup_insert_eq, ?exists_Some, ?exists_None;
        set_solver.
    + case_decide; rewrite ?lookup_delete_ne, ?lookup_insert_ne by done; naive_solver.
  - split; [|naive_solver]. intros (cs & E' & Hc). split; [by exists cs|]. intros [-> ->]. congruence.
Qed.

Lemma add_wait_cells i c wg : cells (add_wait i c wg) = cells wg.
Proof. done. Qed.
Lemma remove_wait_cells i c wg : cells (remove_wait i c wg) = cells wg.
Proof. unfold remove_wait. by destruct (waiting wg !! i). Qed.

Lemma acyclic_sub wg wg' : (forall i j, blocks wg' i j -> blocks wg i j) -> acyclic wg -> acyclic wg'.
Proof. intros Hs Ha j Hc. apply (Ha j). eapply (tc_congruence id); [|done]. done. Qed.

(** Edges added towards one invocation close a cycle only through it. *)
Lemma tc_towards {A} (R R' : relation A) o : (forall i j, R' i j -> R i j \/ j = o) ->
  forall i j, tc R' i j -> tc R i j \/ rtc R' i o /\ rtc R' o j.
Proof.
  intros Hn i j. induction 1 as [i j Hr|i k j Hr Ht IH].
  - destruct (Hn _ _ Hr) as [?| ->]; [left; by apply tc_once|]. right. split; [by apply rtc_once|done].
  - destruct IH as [IH|[H1 H2]].
    + destruct (Hn _ _ Hr) as [?| ->]; [left; by eapply tc_l|]. right.
      split; [by apply rtc_once|by apply tc_rtc].
    + right. split; [by eapply rtc_l|done].
Qed.

Lemma acyclic_towards wg wg' o : acyclic wg -> (forall i j, blocks wg' i j -> blocks wg i j \/ j = o) ->
  ~ tc (blocks wg') o o -> acyclic wg'.
Proof.
  intros Ha Hn Ho j Hc. destruct (tc_towards _ _ o Hn j j Hc) as [?|[H1 H2]]; [by apply (Ha j)|].
  apply Ho. eapply tc_rtc_r; [|exact H1]. by eapply tc_rtc_l.
Qed.

Section registration.
Variable iter : gset CellId -> list CellId.
Hypothesis iter_elem : forall s c, c ∈ iter s <-> c ∈ s.

(** The edges the registration of a waiter adds. *)
Lemma with_parent_member parent c wg j d : member (with_parent (fun p => add_wait p c) parent wg) j d <->
  member wg j d \/ parent = Some j /\ d = c.
Proof. destruct parent as [p|]; simpl; [rewrite add_wait_member|]; naive_solver. Qed.

Lemma with_parent_cells (f : N -> WaitGraph -> WaitGraph) parent wg :
  (forall p g, cells (f p g) = cells g) -> cells (with_parent f parent wg) = cells wg.
Proof. intros Hf. destruct parent; simpl; [apply Hf|done]. Qed.

(** The wait-for graph never holds a cycle. Registering a call of [once]
    always answers; the call becomes the owner of a free cell, or waits for a
    cell another call owns, and the edges it adds close no cycle; or it is
    refused, and then its edges did close one. *)
Theorem register_acyclic wg me parent c dbg :
  acyclic wg -> waiting wg !! me = None -> parent <> Some me ->
  exists r wg', register iter me parent c dbg wg = Some (r, wg') /\ acyclic wg' /\
    (forall path, r = Err path ->
       closes (with_parent (fun p => add_wait p c) parent (add_wait me c wg)) me path).
Proof.
  intros Ha Hme Hpar. unfold register. destruct (cells wg !! c) as [rec|] eqn:Ec.
  - set (wg1 := with_parent (fun p => add_wait p c) parent (add_wait me c wg)).
    assert (Hcells : cells wg1 = cells wg) by (unfold wg1; by rewrite with_parent_cells).
    assert (Hmem : forall j d, member wg1 j d <-> member wg j d \/ (j = me \/ parent = Some j) /\ d = c).
    { intros j d. unfold wg1. rewrite with_parent_member, add_wait_member. naive_solver. }
    pose proof (find_cycle_exact iter iter_elem wg1 me) as (Hn & Hs & Hc).
    destruct (find_cycle iter wg1 me) as [[path|]|]; [..|done].
    + eexists _, _. split_and!; [done| |]; [|intros p [= <-]; by apply Hs].
      eapply acyclic_sub; [|exact Ha]. intros i j. rewrite !blocks_member.
      intros (d & rec' & Hd & E & <-). exists d, rec'.
      rewrite with_parent_cells, remove_wait_cells, Hcells in E by (intros; apply remove_wait_cells).
      split_and!; [|done|done].
      assert (Hrm : member (remove_wait me c wg1) i d /\ (parent = Some i -> d <> c)).
      { destruct parent as [p|]; simpl in Hd; [|done]. apply remove_wait_member in Hd as [? ?].
        split; [done|]. intros [= <-] ->. naive_solver. }
      destruct Hrm as [[Hm Hnm]%remove_wait_member Hnp]. apply Hmem in Hm as [?|[[->|Hp] ->]]; naive_solver.
    + eexists _, _. split_and!; [done| |done]. apply (acyclic_towards wg wg1 (owner rec)); [done| |].
      * intros i j. rewrite !blocks_member. intros (d & rec' & [Hd|[_ ->]]%Hmem & E & <-); rewrite Hcells in E;
          [left; by eauto|right; congruence].
      * apply (Hc eq_refl). apply rtc_once, blocks_member. exists c, rec. rewrite Hcells, Hmem. auto.
  - eexists _, _. split_and!; [done| |done]. set (wg1 := with_parent _ _ _).
    assert (Hcells : cells wg1 = <[c := mkRecord me dbg]> (cells wg)) by (unfold wg1; by rewrite with_parent_cells).
    assert (Hmem : forall j d, member wg1 j d -> member wg j d \/ parent = Some j /\ d = c).
    { intros j d [?|?]%with_parent_member; [by left|by right]. }
    apply (acyclic_towards wg wg1 me); [done| |].
    + intros i j. rewrite !blocks_member, Hcells. intros (d & rec' & Hd & E & <-).
      apply lookup_insert_Some in E as [[<- <-]|[Hne E]]; [by right|].
      apply Hmem in Hd as [?|[_ ->]]; [left; by eauto|done].
    + assert (Hno : forall k, ~ blocks wg1 me k).
      { intros k. rewrite blocks_member. intros (d & _ & [(cs & E & _)|[? _]]%Hmem & _); congruence. }
      intros Hcy. inversion Hcy as [? ? Hb|? ? ? Hb _]; by eapply Hno.
Qed.
End registration.

(** ** Witnesses *)

(** Invocation 1 computes [a] and waits for [b], which invocation 2 computes. *)
Definition sample_graph : WaitGraph :=
  mkGraph (<[($"a", 0%N) := mkRecord 1 $"a"]> {[($"b", 0%N) := mkRecord 2 $"b"]})
    {[1%N := {[($"b", 0%N)]}]}.
(** Invocation 2 now waits for [a]. *)
Definition sample_cycle : WaitGraph := add_wait 2 ($"a", 0%N) sample_graph.

Lemma elements_elem (s : gset CellId) c : c ∈ elements s <-> c ∈ s.
Proof. apply elem_of_elements. Qed.

Lemma find_cycle_exact_witness : closes sample_cycle 2 [($"a", 0%N); ($"b", 0%N)].
Proof.
  apply (find_cycle_exact elements elements_elem sample_cycle 2%N). vm_compute. reflexivity.
Defined.

Lemma new_acyclic : acyclic new.
Proof. intros j Hc. inversion Hc as [? ? (c & ? & ? & ? & _)|? ? ? (c & ? & ? & ? & _) _]; by simplify_map_eq. Qed.

Lemma register_acyclic_witness :
  exists r wg', register elements 1 None ($"a", 0%N) $"a" new = Some (r, wg') /\ acyclic wg' /\
    (forall path, r = Err path -> closes (add_wait 1 ($"a", 0%N) new) 1 path).
Proof.
  apply (register_acyclic elements elements_elem new 1%N None ($"a", 0%N) $"a" new_acyclic).
  - vm_compute. reflexivity.
  - discriminate.
Defined.
