(* ===== verification/HLock.v ===== *)
(** Locks: [crates/lock/src/hlock/traits.rs], [bridge.rs] and [keyed.rs].

    A lock hands out guards of three flavours; [compatible] is which of them may
    be held together. [TBridge] builds a transformable lock out of an exclusive
    outer lock and an inner reader/writer lock; [Registry] maps a key to one
    lock instance that lives as long as somebody refers to it. The bridge is
    proved against the interfaces of the two locks below it ([OuterLock],
    [InnerLock]) and discharges the interface [TLock] that the registry's
    theorem is proved against. Which waiter a lock serves first is left open. *)
From S2P Require Import Prelude.
From stdpp Require Import gmap.

(** ** Interfaces *)

(** The guards of [TLock]; an exclusive [Lock] only hands out [Write]. *)
Inductive Mode := Read | Upgradable | Write.

#[export] Instance Mode_eq_dec : EqDecision Mode.
Proof. solve_decision. Defined.

Definition compatible (a b : Mode) : bool :=
  match a, b with
  | Read, Read | Read, Upgradable | Upgradable, Read => true
  | _, _ => false
  end.

Lemma compatible_sym a b : compatible a b = compatible b a.
Proof. by destruct a, b. Qed.

(** [Lock]: whether it may be granted while [held] guards are out. *)
Class OuterLock := { lock_grants : nat -> Prop }.
Class OuterLaws `{OuterLock} := {
  lock_exclusive : forall held, lock_grants held -> held = 0;
  lock_free : lock_grants 0
}.

(** [RWLock]: the same, with the numbers of readers and writers. *)
Class InnerLock := { read_grants : nat -> nat -> Prop; write_grants : nat -> nat -> Prop }.
Class InnerLaws `{InnerLock} := {
  read_shared : forall r w, read_grants r w -> w = 0;
  write_exclusive : forall r w, write_grants r w -> r = 0 /\ w = 0;
  rw_free : read_grants 0 0 /\ write_grants 0 0
}.

(** [TLock]: whether a guard may be granted beside the ones that are held. *)
Class TLock := { grants : list Mode -> Mode -> Prop }.
Class TLockLaws `{TLock} := {
  grants_compatible : forall held m, grants held m -> Forall (fun m' => compatible m' m = true) held
}.

(** ** [TBridge] *)

(** Where a user of the bridge is. [ReadWait] to [WriteGuard] are the acquires
    and the guards they end in; [Upgrading] and [Downgrading] have given up one
    inner guard and wait for the other, the outer guard in hand; [Closing] has
    only the outer guard left, after a drop or an inner error. *)
Inductive Task :=
| ReadWait
| ReadGuard
| UpgOuter
| UpgInner
| UpgGuard
| WriteOuter
| WriteInner
| WriteGuard
| Upgrading
| Downgrading
| Closing.

#[export] Instance Task_eq_dec : EqDecision Task.
Proof. solve_decision. Defined.

Definition holds_outer (t : Task) : nat :=
  match t with
  | UpgInner | UpgGuard | WriteInner | WriteGuard | Upgrading | Downgrading | Closing => 1
  | _ => 0
  end.
Definition holds_read (t : Task) : nat := match t with ReadGuard | UpgGuard => 1 | _ => 0 end.
Definition holds_write (t : Task) : nat := match t with WriteGuard => 1 | _ => 0 end.

(** The guard the user has in hand. *)
Definition mode (t : Task) : option Mode :=
  match t with
  | ReadGuard => Some Read
  | UpgGuard => Some Upgradable
  | WriteGuard => Some Write
  | _ => None
  end.

Section bridge.
Context `{OuterLock, InnerLock}.

Abbreviation outers := (sum_list_with holds_outer).
Abbreviation readers := (sum_list_with holds_read).
Abbreviation writers := (sum_list_with holds_write).

(** What a lock below the bridge lets a waiting task do, [o] outer guards, [r]
    readers and [w] writers being out. *)
Inductive granted (o r w : nat) : Task -> Task -> Prop :=
| gr_read : read_grants r w -> granted o r w ReadWait ReadGuard
| gr_upg_outer : lock_grants o -> granted o r w UpgOuter UpgInner
| gr_upg_inner : read_grants r w -> granted o r w UpgInner UpgGuard
| gr_write_outer : lock_grants o -> granted o r w WriteOuter WriteInner
| gr_write_inner : write_grants r w -> granted o r w WriteInner WriteGuard
| gr_upgrade : write_grants r w -> granted o r w Upgrading WriteGuard
| gr_downgrade : read_grants r w -> granted o r w Downgrading UpgGuard.

(** What the user does: transforms a guard, drops it (the inner guard first), or
    fails to acquire, by an error, a cancellation or a [try_] that finds the
    lock taken; [None] is gone. *)
Inductive acts : Task -> option Task -> Prop :=
| act_upgrade : acts UpgGuard (Some Upgrading)
| act_downgrade : acts WriteGuard (Some Downgrading)
| act_drop_read : acts ReadGuard None
| act_drop_upg : acts UpgGuard (Some Closing)
| act_drop_write : acts WriteGuard (Some Closing)
| act_close : acts Closing None
| act_fail_free t : t ∈ [ReadWait; UpgOuter; WriteOuter] -> acts t None
| act_fail_outer t : t ∈ [UpgInner; WriteInner; Upgrading; Downgrading] -> acts t (Some Closing).

Definition put (l1 : list Task) (t : option Task) (l2 : list Task) : list Task :=
  l1 ++ match t with Some t => t :: l2 | None => l2 end.

Inductive grant_step (ts : list Task) : list Task -> Prop :=
| step_grant l1 t t' l2 :
    ts = l1 ++ t :: l2 -> granted (outers ts) (readers ts) (writers ts) t t' -> grant_step ts (put l1 (Some t') l2).

Inductive bstep (ts : list Task) : list Task -> Prop :=
| step_start t : t ∈ [ReadWait; UpgOuter; WriteOuter] -> bstep ts (t :: ts)
| step_granted ts' : grant_step ts ts' -> bstep ts ts'
| step_act l1 t t' l2 : ts = l1 ++ t :: l2 -> acts t t' -> bstep ts (put l1 t' l2).

Definition breachable (ts : list Task) : Prop := rtc bstep [] ts.

Context {outer_laws : OuterLaws} {inner_laws : InnerLaws}.

(** One gateway, and readers or one writer behind it. *)
Definition bridge_inv (ts : list Task) : Prop :=
  outers ts <= 1 /\ (writers ts = 0 \/ writers ts = 1 /\ readers ts = 0).

Lemma put_sum f l1 t l2 : sum_list_with f (put l1 t l2) =
  sum_list_with f l1 + match t with Some t => f t | None => 0 end + sum_list_with f l2.
Proof. unfold put. rewrite sum_list_with_app. destruct t; simpl; lia. Qed.

Lemma bstep_inv ts ts' : bridge_inv ts -> bstep ts ts' -> bridge_inv ts'.
Proof.
  unfold bridge_inv. destruct 2 as [t Ht|ts' [l1 t t' l2 -> Hg]|l1 t t' l2 -> Ha].
  - assert (holds_outer t = 0 /\ holds_read t = 0 /\ holds_write t = 0) as (E1 & E2 & E3) by set_solver.
    simpl. lia.
  - rewrite !put_sum. rewrite !sum_list_with_app in *. simpl in *.
    inversion Hg as [Hr|Ho|Hr|Ho|Hw|Hw|Hr]; subst; simpl in *.
    1,3,7: apply read_shared in Hr; lia.
    1,2: apply lock_exclusive in Ho; lia.
    all: apply write_exclusive in Hw; lia.
  - rewrite !put_sum. rewrite !sum_list_with_app in *. simpl in *.
    inversion Ha as [| | | | | |t0 Ht|t0 Ht]; subst; simpl in *; try lia.
    all: repeat (apply elem_of_cons in Ht as [->|Ht]; [simpl in *; lia|]); by apply elem_of_nil in Ht.
Qed.

Lemma breachable_inv ts : breachable ts -> bridge_inv ts.
Proof.
  intros Hr. unfold breachable in Hr. remember [] as t0 eqn:E0.
  assert (Hi : bridge_inv t0) by (subst; unfold bridge_inv; simpl; lia).
  clear E0. induction Hr as [|t1 t2 t3 Hs _ IH]; [done|]. apply IH. by eapply bstep_inv.
Qed.

Lemma sum_elem (f : Task -> nat) t ts : t ∈ ts -> f t <= sum_list_with f ts.
Proof. induction 1; simpl; lia. Qed.

Lemma sum_zero (f : Task -> nat) ts : (forall t, t ∈ ts -> f t = 0) -> sum_list_with f ts = 0.
Proof. induction ts as [|t ts IH]; intros Hz; [done|]. simpl. rewrite (Hz t), IH; set_solver. Qed.

(** The guards in hand. *)
Definition in_hand (ts : list Task) : list Mode := omap mode ts.

Lemma bridge_beside l1 t l2 y m m' : bridge_inv (l1 ++ t :: l2) -> y ∈ l1 ++ l2 ->
  mode t = Some m -> mode y = Some m' -> compatible m' m = true.
Proof.
  intros [Ho Hw] Hy Ht Hm'. rewrite !sum_list_with_app in *. simpl in *.
  pose proof (sum_elem holds_outer y _ Hy) as H1. pose proof (sum_elem holds_read y _ Hy) as H2.
  pose proof (sum_elem holds_write y _ Hy) as H3. rewrite !sum_list_with_app in *.
  destruct t; try done; destruct y; try done; simpl in *; simplify_eq; try done; lia.
Qed.

Lemma in_hand_elem m ts : m ∈ in_hand ts <-> exists t, t ∈ ts /\ mode t = Some m.
Proof. unfold in_hand. by rewrite list_elem_of_omap. Qed.

(** The bridge is a transformable lock. At every reachable state the guards
    in hand are pairwise compatible: readers share, at most one of them is
    upgradable, a writer is alone. And between the two halves of an upgrade or
    a downgrade no other user holds a write or an upgradable guard, so what was
    read before an upgrade still holds after it. *)
Theorem tbridge_compatible ts l1 t l2 y :
  breachable ts -> ts = l1 ++ t :: l2 -> y ∈ l1 ++ l2 ->
  (forall m m', mode t = Some m -> mode y = Some m' -> compatible m' m = true) /\
  (t = Upgrading \/ t = Downgrading -> mode y = None \/ mode y = Some Read).
Proof.
  intros Hr%breachable_inv -> Hy. split; [intros m m'; by eapply bridge_beside|].
  destruct Hr as [Ho _]. rewrite sum_list_with_app in Ho. simpl in Ho.
  pose proof (sum_elem holds_outer y _ Hy) as H1. rewrite sum_list_with_app in H1.
  intros [->| ->]; destruct y; simpl in *; auto; lia.
Qed.

(** The bridge does not deadlock. While anybody uses it, somebody has a guard
    in hand or is releasing the gateway, or a lock below grants a waiting user:
    upgrades and downgrades never wait for each other. *)
Theorem tbridge_no_deadlock ts :
  breachable ts -> ts <> [] ->
  (exists t, t ∈ ts /\ (t = Closing \/ is_Some (mode t))) \/ exists ts', grant_step ts ts'.
Proof.
  intros Hr%breachable_inv Hne. destruct rw_free as [Hrf Hwf]. pose proof lock_free as Hof.
  destruct (decide (Exists (fun t => t = Closing \/ is_Some (mode t)) ts)) as [He|Hn].
  { left. apply Exists_exists in He as (t & Ht & ?). by exists t. }
  right. rewrite <-Forall_Exists_neg in Hn. rewrite Forall_forall in Hn.
  assert (Hz : readers ts = 0 /\ writers ts = 0).
  { split; apply sum_zero; intros t Ht; specialize (Hn t Ht); destruct t; simpl in *; auto; destruct Hn; eauto. }
  destruct Hz as [Er Ew].
  assert (Hgo : forall t t', t ∈ ts -> granted (outers ts) 0 0 t t' -> exists ts', grant_step ts ts').
  { intros t t' (l1 & l2 & E)%list_elem_of_split Hg. eexists. eapply step_grant; [exact E|]. by rewrite Er, Ew. }
  destruct (decide (Exists (fun t => holds_outer t = 1) ts)) as [He|Ho].
  - apply Exists_exists in He as (t & Ht & Hh). specialize (Hn t Ht).
    destruct t; try done; try (by eapply Hgo; [done|constructor]); destruct Hn; simpl; eauto.
  - rewrite <-Forall_Exists_neg, Forall_forall in Ho.
    assert (Eo : outers ts = 0).
    { apply sum_zero. intros t Ht. specialize (Ho t Ht). destruct t; simpl in *; auto; done. }
    destruct ts as [|t ts']; [done|]. assert (Ht : t ∈ t :: ts') by by left.
    specialize (Hn t Ht). specialize (Ho t Ht).
    destruct t; try done; try (by eapply Hgo; [done|rewrite ?Eo; constructor]); destruct Hn; simpl; eauto.
Qed.
End bridge.

(** The bridge as a [TLock]: a guard is granted at a reachable state, beside the
    guards that are in hand there. *)
#[export] Instance bridge_tlock `{OuterLock, InnerLock} : TLock := {|
  grants held m := exists l1 t t' l2, breachable (l1 ++ t :: l2) /\ in_hand (l1 ++ l2) = held /\
    mode t' = Some m /\
    granted (sum_list_with holds_outer (l1 ++ t :: l2)) (sum_list_with holds_read (l1 ++ t :: l2))
      (sum_list_with holds_write (l1 ++ t :: l2)) t t'
|}.

#[export] Instance bridge_tlock_laws `{OuterLaws, InnerLaws} : TLockLaws.
Proof.
  split. intros held m (l1 & t & t' & l2 & Hr & <- & Hm & Hg). apply Forall_forall.
  intros m' (y & Hy & Hm')%in_hand_elem. eapply (bridge_beside l1 t' l2); [|done..].
  apply (bstep_inv (l1 ++ t :: l2)); [by apply breachable_inv|]. apply step_granted. by eapply step_grant.
Qed.

(** ** The keyed registry *)

(** What keeps a lock instance alive: the [Arc] in a call or a [KeyedHandle], or
    the one in a [KeyedGuard], which also has the guard. *)
Inductive Ref := Handle (c : nat) | Guard (c : nat) (m : Mode).
#[export] Instance Ref_eq_dec : EqDecision Ref.
Proof. solve_decision. Defined.
Definition ref_cell (r : Ref) : nat := match r with Handle c | Guard c _ => c end.

(** [cells] is the table of weak pointers; [keys] the key of every instance ever
    made; [loose] the guards whose [_cell] field is dropped and whose [inner]
    field is next; [pending] the instances whose [Drop] has yet to take the
    table's lock. *)
Record Reg K `{Countable K} := mkReg {
  cells : gmap K nat;
  keys : gmap nat K;
  refs : list Ref;
  loose : list (nat * Mode);
  pending : list nat
}.
Arguments mkReg {K _ _}. Arguments cells {K _ _}. Arguments keys {K _ _}.
Arguments refs {K _ _}. Arguments loose {K _ _}. Arguments pending {K _ _}.

Section keyed.
Context {K : Type} `{Countable K} {L : TLock}.

(** [Weak::strong_count]. *)
Definition strong_count (rs : list Ref) (c : nat) : nat :=
  length (filter (fun r => ref_cell r = c) rs).

(** The guards of one instance. *)
Definition guards_of (rs : list Ref) (c : nat) : list Mode :=
  omap (fun r => match r with Guard c' m => if decide (c' = c) then Some m else None | Handle _ => None end) rs.
Definition loose_of (ls : list (nat * Mode)) (c : nat) : list Mode :=
  omap (fun cm => if decide (cm.1 = c) then Some cm.2 else None) ls.

(** [Registry::cell], under the table's lock. *)
Definition reg_cell (k : K) (fresh : nat) (s : Reg K) : Reg K :=
  match (c ← cells s !! k; if decide (strong_count (refs s) c = 0) then None else Some c) with
  | Some existing => mkReg (cells s) (keys s) (Handle existing :: refs s) (loose s) (pending s)
  | None =>
      mkReg (<[k := fresh]> (cells s)) (<[fresh := k]> (keys s)) (Handle fresh :: refs s) (loose s) (pending s)
  end.

(** Dropping an [Arc]; the last one leaves the instance to its [Drop]. *)
Definition drop_arc (c : nat) (rs : list Ref) (s : Reg K) : Reg K :=
  mkReg (cells s) (keys s) rs (loose s)
    (if decide (strong_count rs c = 0) then c :: pending s else pending s).

(** [Drop for LockCell]. *)
Definition drop_cell (k : K) (s : Reg K) : gmap K nat :=
  match cells s !! k with
  | Some w => if decide (strong_count (refs s) w = 0) then delete k (cells s) else cells s
  | None => cells s
  end.

Inductive kstep (s : Reg K) : Reg K -> Prop :=
| k_cell k fresh : keys s !! fresh = None -> kstep s (reg_cell k fresh s)
| k_clone l1 r l2 : refs s = l1 ++ r :: l2 ->
    kstep s (mkReg (cells s) (keys s) (Handle (ref_cell r) :: refs s) (loose s) (pending s))
| k_lock l1 c m l2 : refs s = l1 ++ Handle c :: l2 ->
    grants (guards_of (refs s) c ++ loose_of (loose s) c) m ->
    kstep s (mkReg (cells s) (keys s) (l1 ++ Guard c m :: l2) (loose s) (pending s))
| k_transform l1 c m l2 : refs s = l1 ++ Guard c m :: l2 ->
    kstep s (mkReg (cells s) (keys s) (l1 ++ Handle c :: l2) (loose s) (pending s))
| k_drop_handle l1 c l2 : refs s = l1 ++ Handle c :: l2 -> kstep s (drop_arc c (l1 ++ l2) s)
| k_drop_guard l1 c m l2 : refs s = l1 ++ Guard c m :: l2 ->
    kstep s (drop_arc c (l1 ++ l2) (mkReg (cells s) (keys s) (refs s) ((c, m) :: loose s) (pending s)))
| k_release l1 cm l2 : loose s = l1 ++ cm :: l2 ->
    kstep s (mkReg (cells s) (keys s) (refs s) (l1 ++ l2) (pending s))
| k_drop_cell l1 c l2 k : pending s = l1 ++ c :: l2 -> keys s !! c = Some k ->
    kstep s (mkReg (drop_cell k s) (keys s) (refs s) (loose s) (l1 ++ l2)).

Definition kinit : Reg K := mkReg ∅ ∅ [] [] [].
Definition kreachable (s : Reg K) : Prop := rtc kstep kinit s.

Lemma strong_count_pos rs c : strong_count rs c <> 0 <-> exists r, r ∈ rs /\ ref_cell r = c.
Proof.
  unfold strong_count. rewrite length_zero_iff_nil. split.
  - intros Hn. destruct (filter _ rs) as [|r l] eqn:E; [done|]. exists r.
    assert (r ∈ filter (fun r => ref_cell r = c) rs) as [? ?]%list_elem_of_filter by (rewrite E; by left). done.
  - intros (r & Hr & Hc) E. assert (r ∈ filter (fun r => ref_cell r = c) rs) by (by apply list_elem_of_filter).
    rewrite E in *. set_solver.
Qed.

(** Guards that may be held together. *)
Fixpoint pairwise (l : list Mode) : Prop :=
  match l with [] => True | m :: l => Forall (fun m' => compatible m' m = true) l /\ pairwise l end.

Lemma pairwise_middle a m b :
  pairwise (a ++ m :: b) <-> pairwise (a ++ b) /\ Forall (fun m' => compatible m' m = true) (a ++ b).
Proof.
  induction a as [|x a IH]; simpl; [tauto|]. rewrite IH, !Forall_cons, !Forall_app, !Forall_cons, (compatible_sym m x). tauto.
Qed.

Lemma guards_of_app l1 l2 c : guards_of (l1 ++ l2) c = guards_of l1 c ++ guards_of l2 c.
Proof. apply omap_app. Qed.

Lemma guards_of_cons r rs c : guards_of (r :: rs) c =
  match r with Guard c' m => if decide (c' = c) then m :: guards_of rs c else guards_of rs c | Handle _ => guards_of rs c end.
Proof. unfold guards_of. simpl. destruct r as [c'|c' m]; [done|]. by case_decide. Qed.

(** A referenced instance is the one in the table; an entry is of a referenced
    instance or of one about to remove it; the guards of an instance are
    compatible. *)
Record kinv (s : Reg K) : Prop := {
  ki_live r : r ∈ refs s -> exists k, keys s !! ref_cell r = Some k /\ cells s !! k = Some (ref_cell r);
  ki_entry k c : cells s !! k = Some c -> keys s !! c = Some k /\ (strong_count (refs s) c <> 0 \/ c ∈ pending s);
  ki_guards c : pairwise (guards_of (refs s) c)
}.

Lemma kinv_init : kinv kinit.
Proof. split; simpl; [set_solver|by intros k c; rewrite lookup_empty|done]. Qed.

(** A change of the references that keeps which instances are referenced. *)
Lemma kinv_refs s rs ls : kinv s -> (forall c, (exists r, r ∈ rs /\ ref_cell r = c) <-> exists r, r ∈ refs s /\ ref_cell r = c) ->
  (forall c, pairwise (guards_of rs c)) ->
  kinv (mkReg (cells s) (keys s) rs ls (pending s)).
Proof.
  intros [Hl He Hg] Hr Hp. split; simpl; [| |done].
  - intros r Hin. destruct (proj1 (Hr (ref_cell r))) as (r' & Hin' & <-); [by exists r|]. by apply Hl.
  - intros k c Hk. destruct (He k c Hk) as [? [Hs|?]]; (split; [done|]); [left|by right].
    apply strong_count_pos, Hr, strong_count_pos, Hs.
Qed.

Lemma kinv_drop_arc s c rs l1 r l2 ls : kinv s -> refs s = l1 ++ r :: l2 -> ref_cell r = c -> rs = l1 ++ l2 ->
  kinv (drop_arc c rs (mkReg (cells s) (keys s) (refs s) ls (pending s))).
Proof.
  intros [Hl He Hg] E Hc ->. split; simpl.
  - intros r' Hr'. apply Hl. rewrite E. set_solver.
  - intros k c' Hk. destruct (He k c' Hk) as [Hkey Hor]. split; [done|].
    destruct (decide (strong_count (l1 ++ l2) c' = 0)) as [Hz|]; [right|by left].
    destruct Hor as [Hs|?]; [|case_decide; set_solver].
    apply strong_count_pos in Hs as (r' & Hr' & <-). rewrite E in Hr'.
    destruct (decide (r' ∈ l1 ++ l2)) as [Hin|Hni].
    { destruct (proj2 (strong_count_pos (l1 ++ l2) (ref_cell r'))); [by exists r'|done]. }
    assert (r' = r) as -> by set_solver. rewrite decide_True by (by rewrite <-Hc). rewrite Hc. by left.
  - intros c'. specialize (Hg c'). rewrite E, guards_of_app, guards_of_cons in Hg. rewrite guards_of_app.
    destruct r as [c0|c0 m]; [done|]. case_decide; [|done]. by apply pairwise_middle in Hg as [? _].
Qed.

Lemma strong_lookup s c k : kinv s -> keys s !! c = Some k -> strong_count (refs s) c <> 0 -> cells s !! k = Some c.
Proof.
  intros Hi Hk (r & Hr & <-)%strong_count_pos. destruct (ki_live _ Hi r Hr) as (k' & Hk' & ?). congruence.
Qed.

Lemma reg_cell_inv s k fresh : kinv s -> keys s !! fresh = None -> kinv (reg_cell k fresh s).
Proof.
  intros Hi Hf. unfold reg_cell. destruct (_ ≫= _) as [c|] eqn:E.
  - apply bind_Some in E as (c' & Ec & E). case_decide as Hz; [done|]. injection E as ->.
    apply kinv_refs; [done| |].
    + intros c'. split; [|set_solver]. intros (r & [->|Hr]%elem_of_cons & <-); [|by exists r].
      by apply strong_count_pos in Hz.
    + intros c'. rewrite guards_of_cons. apply Hi.
  - assert (Hno : forall r, r ∈ refs s -> keys s !! ref_cell r <> Some k).
    { intros r Hr Hk. destruct (ki_live _ Hi r Hr) as (k' & Hk' & Hc). assert (k' = k) as -> by congruence.
      rewrite Hc in E. simpl in E. case_decide as Hz; [|done].
      apply (proj2 (strong_count_pos (refs s) (ref_cell r))) in Hz; [done|by exists r]. }
    assert (Hne : forall r, r ∈ refs s -> ref_cell r <> fresh).
    { intros r Hr Hc. destruct (ki_live _ Hi r Hr) as (k' & Hk' & _). congruence. }
    split; simpl.
    + intros r [->|Hr]%elem_of_cons; simpl.
      * exists k. by rewrite !lookup_insert_eq.
      * destruct (ki_live _ Hi r Hr) as (k' & Hk' & Hc). exists k'. specialize (Hno r Hr). specialize (Hne r Hr).
        rewrite lookup_insert_ne by done. split; [done|]. rewrite lookup_insert_ne; [done|]. congruence.
    + intros k' c [[<- <-]|[Hk Hc]]%lookup_insert_Some.
      * rewrite lookup_insert_eq. split; [done|left]. apply strong_count_pos. exists (Handle fresh). set_solver.
      * destruct (ki_entry _ Hi k' c Hc) as [Hkc Hor]. split.
        -- rewrite lookup_insert_ne; [done|]. congruence.
        -- destruct Hor as [(r & Hr & Hrc)%strong_count_pos|?]; [left|by right].
           apply strong_count_pos. exists r. set_solver.
    + intros c. exact (ki_guards _ Hi c).
Qed.

Context {laws : TLockLaws}.

Lemma kstep_inv s s' : kinv s -> kstep s s' -> kinv s'.
Proof.
  intros Hi. pose proof Hi as [Hl He Hg].
  destruct 1 as [k f Hf|l1 r l2 E|l1 c m l2 E Hgr|l1 c m l2 E|l1 c l2 E|l1 c m l2 E|l1 cm l2 E|l1 c l2 k E Hk].
  - by apply reg_cell_inv.
  - apply kinv_refs; [done| |intros c; rewrite guards_of_cons; apply Hg].
    intros c. split; [|set_solver]. intros (r' & [->|Hr]%elem_of_cons & <-); [|by exists r'].
    exists r. rewrite E. set_solver.
  - apply kinv_refs; [done|rewrite E; intros c'; split; intros (r & Hr & <-)|].
    + apply elem_of_app in Hr as [?|[->|?]%elem_of_cons]; [exists r; set_solver|exists (Handle c); set_solver|exists r; set_solver].
    + apply elem_of_app in Hr as [?|[->|?]%elem_of_cons]; [exists r; set_solver|exists (Guard c m); set_solver|exists r; set_solver].
    + intros c'. specialize (Hg c'). rewrite E, guards_of_app, guards_of_cons in Hg. rewrite guards_of_app, guards_of_cons.
      case_decide as Hc; [|done]. subst. apply pairwise_middle. split; [done|].
      apply grants_compatible in Hgr. apply Forall_app in Hgr as [Hgr _].
      by rewrite E, guards_of_app, guards_of_cons in Hgr.
  - apply kinv_refs; [done|rewrite E; intros c'; split; intros (r & Hr & <-)|].
    + apply elem_of_app in Hr as [?|[->|?]%elem_of_cons]; [exists r; set_solver|exists (Guard c m); set_solver|exists r; set_solver].
    + apply elem_of_app in Hr as [?|[->|?]%elem_of_cons]; [exists r; set_solver|exists (Handle c); set_solver|exists r; set_solver].
    + intros c'. specialize (Hg c'). rewrite E, guards_of_app, guards_of_cons in Hg. rewrite guards_of_app, guards_of_cons.
      case_decide as Hc; [|done]. by apply pairwise_middle in Hg as [? _].
  - by eapply (kinv_drop_arc s c _ l1 (Handle c) l2 (loose s)).
  - by eapply (kinv_drop_arc s c _ l1 (Guard c m) l2 ((c, m) :: loose s)).
  - by apply (kinv_refs s (refs s)).
  - assert (Hd : forall k' c', drop_cell k s !! k' = Some c' -> cells s !! k' = Some c' /\ (k' = k -> strong_count (refs s) c' <> 0)).
    { intros k' c'. unfold drop_cell. destruct (cells s !! k) as [w|] eqn:Ew; [|naive_solver].
      case_decide as Hz; [rewrite lookup_delete_Some; naive_solver|naive_solver]. }
    split; simpl; [| |done].
    + intros r Hr. destruct (Hl r Hr) as (k' & Hk' & Hc'). exists k'. split; [done|]. unfold drop_cell.
      destruct (cells s !! k) as [w|] eqn:Ew; [|done]. case_decide as Hz; [|done].
      rewrite lookup_delete_ne; [done|]. intros <-. rewrite Ew in Hc'. simplify_eq.
      apply (proj2 (strong_count_pos (refs s) (ref_cell r))) in Hz; [done|by exists r].
    + intros k' c' [Hc' Hs]%Hd. destruct (He k' c' Hc') as [Hkc Hor]. split; [done|].
      destruct (decide (k' = k)) as [->|Hne]; [left; by apply Hs|]. destruct Hor as [?|Hp]; [by left|right].
      rewrite E in Hp. assert (c' <> c) by congruence. set_solver.
Qed.

Lemma kreachable_inv s : kreachable s -> kinv s.
Proof.
  intros Hr. unfold kreachable in Hr. remember kinit as s0 eqn:E0.
  assert (Hi : kinv s0) by (subst; apply kinv_init). clear E0.
  induction Hr as [|s1 s2 s3 Hs _ IH]; [done|]. apply IH. by eapply kstep_inv.
Qed.

(** The guards in hand for a key, over all of its instances. *)
Definition key_guards (s : Reg K) (k : K) : list Mode :=
  omap (fun r => match r with Guard c m => if decide (keys s !! c = Some k) then Some m else None | Handle _ => None end)
    (refs s).

(** A keyed lock is one lock per key. However calls, clones, drops and
    clean-ups interleave, every reference to a key is to the instance in the
    table, which is the one the next call gets, and the guards in hand for the
    key are pairwise compatible, provided each instance only grants compatible
    guards. *)
Theorem keyed_one_lock s k : kreachable s ->
  pairwise (key_guards s k) /\
  (forall r, r ∈ refs s -> keys s !! ref_cell r = Some k ->
     cells s !! k = Some (ref_cell r) /\
     forall fresh, refs (reg_cell k fresh s) = Handle (ref_cell r) :: refs s).
Proof.
  intros Hr%kreachable_inv. pose proof Hr as [Hl He Hg].
  assert (Hone : forall r, r ∈ refs s -> keys s !! ref_cell r = Some k -> cells s !! k = Some (ref_cell r)).
  { intros r Hin Hk. destruct (Hl r Hin) as (k' & Hk' & ?). congruence. }
  split.
  - destruct (decide (Exists (fun r => keys s !! ref_cell r = Some k) (refs s))) as [Hex|Hno].
    + apply Exists_exists in Hex as (r0 & Hr0 & Hk0).
      assert (key_guards s k = guards_of (refs s) (ref_cell r0)) as ->; [|apply Hg].
      unfold key_guards, guards_of. apply list_omap_ext, Forall2_same_length_lookup_2; [done|].
      intros i r1 r2 E1 E2. rewrite E1 in E2. simplify_eq. apply list_elem_of_lookup_2 in E1.
      destruct r2 as [|c m]; [done|]. specialize (Hone _ E1). simpl in Hone. specialize (Hl _ E1). simpl in Hl.
      assert (Hc0 : cells s !! k = Some (ref_cell r0)) by (destruct (ki_live _ Hr r0 Hr0) as (? & ? & ?); congruence).
      repeat case_decide; naive_solver.
    + assert (key_guards s k = []) as ->; [|done]. rewrite <-Forall_Exists_neg in Hno.
      unfold key_guards. clear -Hno. induction Hno as [|r rs Hr _ IH]; [done|]. simpl.
      destruct r as [|c m]; [done|]. by rewrite decide_False.
  - intros r Hin Hk. split; [by apply Hone|]. intros fresh. unfold reg_cell. rewrite (Hone r Hin Hk). simpl.
    rewrite decide_False; [done|]. apply strong_count_pos. by exists r.
Qed.

(** A keyed lock cleans up after itself. When no handle or guard is left and
    the drops have run, the table is empty. *)
Theorem keyed_self_cleaning s : kreachable s -> refs s = [] -> pending s = [] -> cells s = ∅.
Proof.
  intros [Hl He Hg]%kreachable_inv Hr Hp. apply map_empty. intros k. destruct (cells s !! k) as [c|] eqn:E; [|done].
  destruct (He k c E) as [_ [Hs|Hin]]; [by rewrite Hr in Hs|]. rewrite Hp in Hin. by apply elem_of_nil in Hin.
Qed.
End keyed.

(** ** Witnesses *)

(** Locks that grant whatever they may. *)
#[export] Instance eager_lock : OuterLock := {| lock_grants held := held = 0 |}.
#[export] Instance eager_lock_laws : OuterLaws.
Proof. by split. Qed.
#[export] Instance eager_rwlock : InnerLock :=
  {| read_grants r w := w = 0; write_grants r w := r = 0 /\ w = 0 |}.
#[export] Instance eager_rwlock_laws : InnerLaws.
Proof. by split. Qed.

(** A reader and an upgradable reader. *)
Lemma sample_bridge : breachable [UpgGuard; ReadGuard].
Proof.
  eapply rtc_l; [apply (step_start _ ReadWait); set_solver|].
  eapply rtc_l; [apply step_granted, (step_grant _ [] ReadWait ReadGuard []); [done|by constructor]|].
  eapply rtc_l; [apply (step_start _ UpgOuter); set_solver|].
  eapply rtc_l; [apply step_granted, (step_grant _ [] UpgOuter UpgInner [ReadGuard]); [done|by constructor]|].
  eapply rtc_l; [apply step_granted, (step_grant _ [] UpgInner UpgGuard [ReadGuard]); [done|by constructor]|].
  done.
Qed.

Lemma tbridge_compatible_witness : compatible Read Upgradable = true.
Proof.
  refine (proj1 (tbridge_compatible [UpgGuard; ReadGuard] [] UpgGuard [ReadGuard] ReadGuard sample_bridge _ _)
    Upgradable Read _ _); [reflexivity|by left|reflexivity|reflexivity].
Defined.

Lemma tbridge_no_deadlock_witness :
  (exists t, t ∈ [UpgGuard; ReadGuard] /\ (t = Closing \/ is_Some (mode t))) \/
  exists ts', grant_step [UpgGuard; ReadGuard] ts'.
Proof. apply (tbridge_no_deadlock _ sample_bridge). discriminate. Defined.

Definition sample_reg : Reg nat := reg_cell 5 0 kinit.
Definition sample_empty : Reg nat := mkReg ∅ {[0 := 5]} [] [] [].

Lemma sample_reg_reachable : kreachable sample_reg.
Proof. apply rtc_once, k_cell. done. Qed.

Lemma sample_empty_reachable : kreachable sample_empty.
Proof.
  eapply rtc_r; [eapply rtc_r; [exact sample_reg_reachable|]|].
  - apply (k_drop_handle _ [] 0 []). done.
  - refine (eq_rect _ (fun s => kstep _ s) (k_drop_cell _ [] 0 [] 5 _ _) sample_empty _); by vm_compute.
Qed.

Lemma keyed_one_lock_witness :
  cells sample_reg !! 5 = Some 0 /\ forall fresh, refs (reg_cell 5 fresh sample_reg) = [Handle 0; Handle 0].
Proof.
  apply (proj2 (keyed_one_lock sample_reg 5 sample_reg_reachable) (Handle 0)); [by left|reflexivity].
Defined.

Lemma keyed_self_cleaning_witness : cells sample_empty = ∅.
Proof. apply (keyed_self_cleaning sample_empty sample_empty_reachable); reflexivity. Defined.
