(* ===== verification/Sorts.v ===== *)
(** Sorting as [slice::sort_by_key] does it, and what the position of a value in
    a sorted list says about how many values are below it.

    The standard library's sort is stable; [sort_by] is the stable insertion
    sort, which is the same function. A key can also come from a lookup that may
    fail (an index out of bounds panics): [try_sort_by_key] fails when a key
    does. *)
From S2P Require Import Prelude.
From stdpp Require Import sorting.

Section sort_by.
Context {A : Type} (leb : A -> A -> bool).

Fixpoint insert_by (x : A) (l : list A) : list A :=
  match l with
  | [] => [x]
  | y :: r => if leb x y then x :: l else y :: insert_by x r
  end.

Definition sort_by (l : list A) : list A := foldr insert_by [] l.
End sort_by.

Definition le_key {A} (key : A -> N) (a b : A) : bool := (key a <=? key b)%N.
(** [slice::sort_by_key], and with [Reverse] around the key. *)
Definition sort_by_key {A} (key : A -> N) : list A -> list A := sort_by (le_key key).
Definition sort_by_key_reverse {A} (key : A -> N) : list A -> list A :=
  sort_by (fun a b => le_key key b a).

(** [sort_by_key(|n| v[n])]: every key is read, and a bad index panics. *)
Definition try_sort_by_key {A} (key : A -> option N) (l : list A) : option (list A) :=
  ks ← mapM key l;
  Some (snd <$> sort_by_key fst (zip ks l)).

(** [sort_unstable] on numbers. *)
Definition sort_N : list N -> list N := sort_by_key id.

(** ** Lemmas *)

Section sort_by_lemmas.
Context {A : Type} (leb : A -> A -> bool).

Lemma insert_by_perm x l : insert_by leb x l ≡ₚ x :: l.
Proof.
  induction l as [|y l IH]; simpl; [done|]. destruct (leb x y); [done|].
  rewrite IH. apply Permutation_swap.
Qed.

Lemma sort_by_perm l : sort_by leb l ≡ₚ l.
Proof. induction l as [|x l IH]; simpl; [done|]. by rewrite insert_by_perm, IH. Qed.

Lemma sort_by_length l : length (sort_by leb l) = length l.
Proof. by rewrite sort_by_perm. Qed.

Lemma sort_by_elem l x : x ∈ sort_by leb l <-> x ∈ l.
Proof. by rewrite sort_by_perm. Qed.

Lemma sort_by_NoDup l : NoDup (sort_by leb l) <-> NoDup l.
Proof. by rewrite sort_by_perm. Qed.

Context (leb_total : forall x y, leb x y = false -> leb y x = true).
Context (leb_trans : forall x y z, leb x y = true -> leb y z = true -> leb x z = true).

Lemma insert_by_sorted x l :
  StronglySorted (fun a b => leb a b = true) l ->
  StronglySorted (fun a b => leb a b = true) (insert_by leb x l).
Proof.
  induction 1 as [|y l Hs IH Hy]; simpl; [by repeat constructor|].
  destruct (leb x y) eqn:E; constructor; auto; [by constructor| |].
  - constructor; [done|]. eapply Forall_impl; [exact Hy|]. eauto.
  - rewrite insert_by_perm. constructor; auto.
Qed.

Lemma sort_by_sorted l : StronglySorted (fun a b => leb a b = true) (sort_by leb l).
Proof. induction l; simpl; [constructor|]. by apply insert_by_sorted. Qed.

(** Stability: values that are equal for the order keep their order. *)
Definition same (x y : A) : bool := leb x y && leb y x.

Lemma insert_by_same z x l : List.filter (same z) (insert_by leb x l) = List.filter (same z) (x :: l).
Proof.
  induction l as [|y l IH]; simpl; [done|]. destruct (leb x y) eqn:E; [done|].
  simpl. rewrite IH. simpl. destruct (same z x) eqn:Ex, (same z y) eqn:Ey; try done.
  exfalso. unfold same in Ex, Ey. bool_simpl. rewrite (leb_trans x z y) in E by done. done.
Qed.

Lemma sort_by_stable z l : List.filter (same z) (sort_by leb l) = List.filter (same z) l.
Proof.
  induction l as [|x l IH]; [done|].
  change (sort_by leb (x :: l)) with (insert_by leb x (sort_by leb l)).
  rewrite insert_by_same. simpl. by rewrite IH.
Qed.
End sort_by_lemmas.

Lemma le_key_total {A} (key : A -> N) x y : le_key key x y = false -> le_key key y x = true.
Proof. unfold le_key. intros. bool_simpl. apply N.leb_le. lia. Qed.
Lemma le_key_trans {A} (key : A -> N) x y z :
  le_key key x y = true -> le_key key y z = true -> le_key key x z = true.
Proof. unfold le_key. intros. bool_simpl. apply N.leb_le. lia. Qed.

Lemma StronglySorted_impl {A} (R R' : relation A) l :
  (forall x y, R x y -> R' x y) -> StronglySorted R l -> StronglySorted R' l.
Proof.
  intros Hr. induction 1; constructor; [done|]. eapply Forall_impl; [done|]. auto.
Qed.

Lemma sort_by_key_sorted {A} (key : A -> N) l :
  StronglySorted (fun a b => (key a <= key b)%N) (sort_by_key key l).
Proof.
  eapply StronglySorted_impl; [|apply sort_by_sorted, le_key_trans; apply le_key_total].
  intros x y H. by apply N.leb_le.
Qed.

Lemma sort_by_key_reverse_sorted {A} (key : A -> N) l :
  StronglySorted (fun a b => (key b <= key a)%N) (sort_by_key_reverse key l).
Proof.
  eapply StronglySorted_impl; [|apply sort_by_sorted].
  - intros x y H. by apply N.leb_le.
  - intros x y. apply le_key_total.
  - intros x y z H1 H2. by eapply le_key_trans.
Qed.

Lemma StronglySorted_fmap_1 {A B} (f : A -> B) (R : relation B) l :
  StronglySorted (fun a b => R (f a) (f b)) l -> StronglySorted R (f <$> l).
Proof.
  induction 1; simpl; constructor; [done|]. by rewrite Forall_fmap.
Qed.

Lemma StronglySorted_fmap_2 {A B} (f : A -> B) (R : relation B) l :
  StronglySorted R (f <$> l) -> StronglySorted (fun a b => R (f a) (f b)) l.
Proof.
  induction l; simpl; intros H; inversion_clear H as [|? ? Hs Hf]; constructor; [auto|].
  by rewrite Forall_fmap in Hf.
Qed.

Lemma StronglySorted_lookup {A} (R : relation A) l i j x y :
  StronglySorted R l -> l !! i = Some x -> l !! j = Some y -> i < j -> R x y.
Proof.
  intros Hs. revert i j. induction Hs as [|z l Hs IH Hz]; intros i j Hi Hj Hlt; [done|].
  destruct i as [|i], j as [|j]; simpl in *; [lia| |lia|].
  - simplify_eq. rewrite Forall_forall in Hz. apply Hz. by eapply list_elem_of_lookup_2.
  - apply (IH i j); [done|done|lia].
Qed.

Lemma StronglySorted_Forall_impl {A} (P : A -> Prop) (R R' : relation A) l :
  (forall x y, P x -> P y -> R x y -> R' x y) -> Forall P l ->
  StronglySorted R l -> StronglySorted R' l.
Proof.
  intros Hr Hp. induction 1 as [|x l _ IH Hx]; [constructor|].
  inversion_clear Hp as [|? ? Px Pl]. constructor; [auto|].
  rewrite Forall_forall in *. auto.
Qed.

Lemma mapM_total {A B} (key : A -> option B) (k : A -> B) l :
  (forall x, x ∈ l -> key x = Some (k x)) -> mapM key l = Some (k <$> l).
Proof.
  induction l as [|x l IH]; intros Hk; [done|]. simpl. rewrite Hk by set_solver. simpl.
  rewrite IH; [done|]. set_solver.
Qed.

(** What [try_sort_by_key] returns when every key can be read. *)
Lemma try_sort_by_key_spec {A} (key : A -> option N) (k : A -> N) l :
  (forall x, x ∈ l -> key x = Some (k x)) ->
  exists l', try_sort_by_key key l = Some l' /\ l' ≡ₚ l /\
    StronglySorted (fun a b => (k a <= k b)%N) l'.
Proof.
  intros Hk. unfold try_sort_by_key. rewrite (mapM_total key k l Hk). cbn [mbind option_bind].
  eexists. split; [done|]. set (d := zip (k <$> l) l).
  assert (Hp : sort_by_key fst d ≡ₚ (fun x => (k x, x)) <$> l).
  { unfold sort_by_key. rewrite sort_by_perm. unfold d. clear. induction l; simpl; [done|]. by f_equiv. }
  split.
  - rewrite Hp, <-list_fmap_compose. by rewrite list_fmap_id.
  - apply StronglySorted_fmap_1.
    apply (StronglySorted_Forall_impl (fun p => p.1 = k p.2) (fun a b => (a.1 <= b.1)%N));
      [by intros [] [] -> ->| |apply sort_by_key_sorted].
    rewrite Hp. by apply Forall_fmap, Forall_forall.
Qed.

Lemma sort_N_perm l : sort_N l ≡ₚ l.
Proof. apply sort_by_perm. Qed.
Lemma sort_N_sorted l : StronglySorted N.le (sort_N l).
Proof. apply (sort_by_key_sorted id). Qed.

(** Sorted lists of an antisymmetric order are the same exactly when they have the same
    elements. *)
Section sort_unique.
Context {A : Type} (leb : A -> A -> bool).
Hypotheses (total : forall x y, leb x y = false -> leb y x = true)
  (trans : forall x y z, leb x y = true -> leb y z = true -> leb x z = true)
  (antisym : forall x y, leb x y = true -> leb y x = true -> x = y).

Lemma sort_by_unique l1 l2 : sort_by leb l1 = sort_by leb l2 <-> l1 ≡ₚ l2.
Proof.
  split.
  - intros H. by rewrite <- (sort_by_perm leb l1), H, sort_by_perm.
  - intros H. eapply (StronglySorted_unique_strong (fun a b => leb a b = true));
      [|apply sort_by_sorted; eauto..|by rewrite !sort_by_perm]. intros a b _ _. apply antisym.
Qed.
End sort_unique.

(** ** Counting below a position *)

Definition below (x : N) (l : list N) : nat := length (List.filter (fun y => y <? x)%N l).
Definition upto (x : N) (l : list N) : nat := length (List.filter (fun y => y <=? x)%N l).

Lemma below_perm x l l' : l ≡ₚ l' -> below x l = below x l'.
Proof.
  unfold below. induction 1 as [|y l l' _ IH|y z l|l l' l'' _ IH1 _ IH2]; simpl; [done|..|congruence].
  - by destruct (y <? x)%N; simpl; rewrite IH.
  - by destruct (y <? x)%N, (z <? x)%N.
Qed.
Lemma upto_perm x l l' : l ≡ₚ l' -> upto x l = upto x l'.
Proof.
  unfold upto. induction 1 as [|y l l' _ IH|y z l|l l' l'' _ IH1 _ IH2]; simpl; [done|..|congruence].
  - by destruct (y <=? x)%N; simpl; rewrite IH.
  - by destruct (y <=? x)%N, (z <=? x)%N.
Qed.
Lemma upto_app x l l' : upto x (l ++ l') = upto x l + upto x l'.
Proof. unfold upto. by rewrite List.filter_app, length_app. Qed.
Lemma upto_length x l : upto x l <= length l.
Proof. unfold upto. induction l as [|y l IH]; simpl; [done|]. destruct (y <=? x)%N; simpl; lia. Qed.
Lemma upto_below x y l : (x < y)%N -> upto x l <= below y l.
Proof.
  intros H. unfold upto, below. induction l as [|z l IH]; simpl; [done|].
  destruct (z <=? x)%N eqn:E; destruct (z <? y)%N eqn:E'; simpl; bool_simpl; lia.
Qed.

Lemma below_none x l : Forall (N.le x) l -> below x l = 0.
Proof.
  unfold below. induction 1 as [|y l H _ IH]; simpl; [done|].
  destruct (y <? x)%N eqn:E; bool_simpl; [lia|done].
Qed.

(** In a sorted list at most [i] values are below the [i]-th, and more than
    [i] are not above it. *)
Lemma sorted_below l i x : StronglySorted N.le l -> l !! i = Some x -> below x l <= i.
Proof.
  intros Hs. revert i. induction Hs as [|y l Hs IH Hy]; intros i Hi; [done|].
  destruct i as [|i]; simplify_eq/=.
  - rewrite below_none; [done|]. constructor; [lia|done].
  - specialize (IH i Hi). unfold below in *. simpl. destruct (y <? x)%N; simpl; lia.
Qed.
Lemma sorted_upto l i x : StronglySorted N.le l -> l !! i = Some x -> i < upto x l.
Proof.
  intros Hs. revert i. induction Hs as [|y l Hs IH Hy]; intros i Hi; [done|].
  unfold upto. simpl. destruct i as [|i]; simplify_eq/=.
  - rewrite N.leb_refl. simpl. lia.
  - specialize (IH i Hi). unfold upto in IH.
    assert (Hyx : (y <= x)%N) by (rewrite Forall_forall in Hy; apply Hy; by eapply list_elem_of_lookup_2).
    apply N.leb_le in Hyx. rewrite Hyx. simpl. lia.
Qed.

(** Merging two sorted lists moves the values of the first down and, shifted by
    its length, those of the second up. *)
Lemma merged_low p a b i x y : StronglySorted N.le p -> StronglySorted N.le a ->
  p ≡ₚ a ++ b -> a !! i = Some x -> p !! i = Some y -> (y <= x)%N.
Proof.
  intros Hp Ha Hperm Hx Hy. destruct (N.le_gt_cases y x) as [|Hlt]; [done|].
  pose proof (sorted_upto _ _ _ Ha Hx). pose proof (sorted_below _ _ _ Hp Hy).
  pose proof (upto_below x y p Hlt). rewrite (upto_perm _ _ _ Hperm), upto_app in *. lia.
Qed.
Lemma merged_high p a b j x y : StronglySorted N.le p -> StronglySorted N.le b ->
  p ≡ₚ a ++ b -> b !! j = Some x -> p !! (length a + j) = Some y -> (x <= y)%N.
Proof.
  intros Hp Hb Hperm Hx Hy. destruct (N.le_gt_cases x y) as [|Hlt]; [done|].
  pose proof (sorted_upto _ _ _ Hp Hy). pose proof (sorted_below _ _ _ Hb Hx).
  pose proof (upto_below y x b Hlt). rewrite (upto_perm _ _ _ Hperm), upto_app in *.
  pose proof (upto_length y a). lia.
Qed.

(** ** [Vec::dedup] *)

Section dedup_adjacent.
Context {A : Type} `{EqDecision A}.

(** Each element against the last one kept. *)
Fixpoint dedup_from (prev : A) (l : list A) : list A :=
  match l with
  | [] => []
  | x :: r => if decide (x = prev) then dedup_from prev r else x :: dedup_from x r
  end.
Definition dedup_adjacent (l : list A) : list A :=
  match l with [] => [] | x :: r => x :: dedup_from x r end.

Lemma dedup_from_elem prev l x : x ∈ prev :: dedup_from prev l <-> x ∈ prev :: l.
Proof.
  revert prev. induction l as [|y l IH]; intros prev; [done|]. simpl. case_decide; subst.
  - rewrite IH. set_solver.
  - rewrite !(elem_of_cons _ _ prev), IH. done.
Qed.

Lemma dedup_adjacent_elem l x : x ∈ dedup_adjacent l <-> x ∈ l.
Proof. destruct l; [done|]. apply dedup_from_elem. Qed.

Lemma dedup_from_sorted (R : A -> A -> Prop) prev l :
  StronglySorted R (prev :: l) -> StronglySorted R (prev :: dedup_from prev l).
Proof.
  revert prev. induction l as [|y l IH]; intros prev Hs; [done|]. simpl.
  apply StronglySorted_inv in Hs as [Hs Hp]. apply Forall_cons in Hp as [Hpy Hp].
  destruct (decide (y = prev)) as [->|Hne]; [by apply IH|]. constructor; [by apply IH|]. apply Forall_forall. intros x Hx.
  rewrite dedup_from_elem in Hx. apply elem_of_cons in Hx as [->|Hx]; [done|].
  rewrite Forall_forall in Hp. by apply Hp.
Qed.

Lemma dedup_adjacent_sorted (R : A -> A -> Prop) l : StronglySorted R l -> StronglySorted R (dedup_adjacent l).
Proof. destruct l; [done|]. apply dedup_from_sorted. Qed.
End dedup_adjacent.

(** ** Sorting by a text *)

(** The order of a key that is a text. *)
Definition str_key_leb {A} (key : A -> str) (a b : A) : bool :=
  match str_compare (key a) (key b) with Gt => false | _ => true end.

Lemma sort_by_fmap {A B} (f : A -> B) leb leb' l : (forall x y, leb' (f x) (f y) = leb x y) ->
  sort_by leb' (map f l) = map f (sort_by leb l).
Proof.
  intros Hf. induction l as [|x l IH]; [done|]. simpl. rewrite IH. generalize (sort_by leb l). intros l'.
  induction l' as [|y l' IH']; [done|]. simpl. rewrite Hf. destruct (leb x y); simpl; [done|]. by rewrite IH'.
Qed.

Section str_key.
Context {A : Type} (key : A -> str).

Lemma str_key_leb_lt a b : str_key_leb key a b = true <-> key a = key b \/ str_lt (key a) (key b).
Proof.
  unfold str_key_leb, str_lt. destruct (str_compare (key a) (key b)) eqn:E.
  - apply str_compare_eq in E. naive_solver.
  - naive_solver.
  - split; [done|]. intros [H|H]; [|done]. rewrite H, str_compare_refl in E. done.
Qed.

Lemma str_key_leb_total a b : str_key_leb key a b = false -> str_key_leb key b a = true.
Proof. unfold str_key_leb. rewrite (str_compare_antisym (key a)). by destruct (str_compare (key a) (key b)). Qed.

Lemma str_key_leb_trans a b c : str_key_leb key a b = true -> str_key_leb key b c = true -> str_key_leb key a c = true.
Proof.
  rewrite !str_key_leb_lt. intros [H1|H1] [H2|H2]; [left; congruence|right..].
  - by rewrite H1.
  - by rewrite <- H2.
  - by eapply str_lt_trans.
Qed.

Lemma str_key_sorted l : StronglySorted (fun a b => str_key_leb key a b = true) (sort_by (str_key_leb key) l).
Proof. apply sort_by_sorted; [apply str_key_leb_total|apply str_key_leb_trans]. Qed.

(** Two orders of entries with distinct keys sort to the same list. *)
Lemma str_key_sort_perm l l' : NoDup (key <$> l) -> l ≡ₚ l' ->
  sort_by (str_key_leb key) l = sort_by (str_key_leb key) l'.
Proof.
  intros Hn Hp. assert (Hps : sort_by (str_key_leb key) l ≡ₚ sort_by (str_key_leb key) l') by by rewrite !sort_by_perm.
  eapply (StronglySorted_unique_strong (fun a b => str_key_leb key a b = true));
    [|apply str_key_sorted|apply str_key_sorted|done].
  intros a b Ha Hb. rewrite sort_by_elem in Ha. rewrite <- Hps, sort_by_elem in Hb. rewrite !str_key_leb_lt.
  intros H1 H2. assert (Hk : key a = key b).
  { destruct H1 as [?|H1], H2 as [?|H2]; try done. by destruct (str_lt_irrefl (key a)); eapply str_lt_trans. }
  apply list_elem_of_lookup in Ha as [i Hi], Hb as [j Hj].
  assert (i = j); [|by simplify_eq]. apply (NoDup_lookup _ i j (key a) Hn); rewrite list_lookup_fmap.
  - by rewrite Hi.
  - by rewrite Hj, Hk.
Qed.
End str_key.
