(* ===== verification/DepDag.v ===== *)
(** The dependency graph of a request: [DepDag] of
    [crates/engine/src/engine/request_state.rs].

    Every edge a request discovers is offered to [add_dep], which refuses the one
    that closes a cycle. The graph keeps a topological order and repairs it
    locally (Pearce and Kelly): an edge that goes up in the order is committed at
    once; one that goes down makes it search the region between its ends in both
    directions, refuse if the forward search meets the source, and otherwise deal
    the positions of the region out again.

    An interned address is its pointer ([HtIntern.intern_ptr_eq_iff] says that is
    its content), nodes are [u32] indices kept at their width, and an index out of
    bounds, which panics, is [None]. The two searches carry fuel, one more than
    the number of nodes. [DepDag.add_dep_refines] shows that [None] never happens
    below 2^32 nodes and that the answer is the one of the plain definition:
    refused exactly when the target already reaches the source. *)
From S2P Require Import Prelude Sorts HtIntern.
From stdpp Require Import sorting.

Definition as_u32 (n : nat) : N := (N.of_nat n mod 4294967296)%N.

(** [edge_key]: both halves are [u32]. *)
Definition edge_key (from to : N) : N := N.lor (N.shiftl from 32) to.

Record CycleError := mkCycle { c_from : arc; c_to : arc }.

Record DepDag := mkDag {
  nodes : list arc;
  succ : list (list N);
  pred : list (list N);
  ord : list N;
  index_of : gmap arc N;
  edges : gset N;
}.

Definition dag_new : DepDag := mkDag [] [] [] [] ∅ ∅.

Definition get_or_insert (addr : arc) (d : DepDag) : N * DepDag :=
  match index_of d !! addr with
  | Some idx => (idx, d)
  | None =>
      let idx := as_u32 (length (nodes d)) in
      (idx, mkDag (nodes d ++ [addr]) (succ d ++ [[]]) (pred d ++ [[]]) (ord d ++ [idx])
              (<[addr := idx]> (index_of d)) (edges d))
  end.

Definition at_index {A} (l : list A) (i : N) : option A := l !! N.to_nat i.
(** [l[i] = x]. *)
Definition set_index {A} (l : list A) (i : N) (x : A) : option (list A) :=
  if decide (N.to_nat i < length l) then Some (<[N.to_nat i := x]> l) else None.

Definition commit_edge (f t : N) (d : DepDag) : option DepDag :=
  sf ← at_index (succ d) f;
  succ' ← set_index (succ d) f (sf ++ [t]);
  pt ← at_index (pred d) t;
  pred' ← set_index (pred d) t (pt ++ [f]);
  Some (mkDag (nodes d) succ' pred' (ord d) (index_of d) ({[edge_key f t]} ∪ edges d)).

(** *** The two searches *)

Section search.
(** The adjacency lists, the order, the neighbour the search stops at and the
    ones it keeps. *)
Variables (adj : list (list N)) (ords : list N) (hit : N -> bool) (keep : N -> bool).

Inductive scanned := Hit | Scanned (visited : gset N) (delta stack : list N).

(** The [for] loop over one adjacency list. *)
Fixpoint scan (ws : list N) (visited : gset N) (delta stack : list N) : option scanned :=
  match ws with
  | [] => Some (Scanned visited delta stack)
  | w :: ws =>
      if hit w then Some Hit
      else
        o ← at_index ords w;
        if keep o && bool_decide (w ∉ visited)
        then scan ws ({[w]} ∪ visited) (delta ++ [w]) (w :: stack)
        else scan ws visited delta stack
  end.

(** The [while let Some(n) = stack.pop()] loop; the top of the stack is the head.
    [Some None] is a hit. *)
Fixpoint search (fuel : nat) (visited : gset N) (delta stack : list N) : option (option (list N)) :=
  match fuel with
  | O => None
  | S fuel =>
      match stack with
      | [] => Some (Some delta)
      | n :: stack =>
          ws ← at_index adj n;
          r ← scan ws visited delta stack;
          match r with
          | Hit => Some None
          | Scanned visited delta stack => search fuel visited delta stack
          end
      end
  end.
End search.

Definition forward (d : DepDag) (f t upper : N) : option (option (list N)) :=
  search (succ d) (ord d) (fun w => bool_decide (w = f)) (fun o => o <=? upper)%N
    (S (length (nodes d))) {[t]} [t] [t].
Definition backward (d : DepDag) (f lower : N) : option (option (list N)) :=
  search (pred d) (ord d) (fun _ => false) (fun o => lower <=? o)%N
    (S (length (nodes d))) {[f]} [f] [f].

(** [for (i, &n) in ns.iter().enumerate() { ord[n] = positions[base + i] }]. *)
Fixpoint assign (positions : list N) (i : nat) (ns : list N) (ords : list N) : option (list N) :=
  match ns with
  | [] => Some ords
  | n :: ns =>
      p ← positions !! i;
      ords ← set_index ords n p;
      assign positions (S i) ns ords
  end.

(** The order after the searches found the region. *)
Definition reorder (delta_minus delta_plus : list N) (ords : list N) : option (list N) :=
  delta_minus ← try_sort_by_key (at_index ords) delta_minus;
  delta_plus ← try_sort_by_key (at_index ords) delta_plus;
  pm ← mapM (at_index ords) delta_minus;
  pp ← mapM (at_index ords) delta_plus;
  let positions := sort_N (pm ++ pp) in
  ords ← assign positions 0 delta_minus ords;
  assign positions (length delta_minus) delta_plus ords.

(** The part of [add_dep] after its early returns; [Some None] is the cycle. *)
Definition place_edge (f t : N) (d : DepDag) : option (option DepDag) :=
  from_ord ← at_index (ord d) f;
  to_ord ← at_index (ord d) t;
  if (from_ord <? to_ord)%N then Some <$> commit_edge f t d
  else
    r ← forward d f t from_ord;
    match r with
    | None => Some None
    | Some delta_plus =>
        r ← backward d f to_ord;
        delta_minus ← r;
        ords ← reorder delta_minus delta_plus (ord d);
        Some <$> commit_edge f t (mkDag (nodes d) (succ d) (pred d) ords (index_of d) (edges d))
    end.

Definition add_dep (from to : arc) (d : DepDag) : option (result CycleError unit * DepDag) :=
  let '(f, d) := get_or_insert from d in
  let '(t, d) := get_or_insert to d in
  if decide (f = t) then Some (Err (mkCycle from to), d)
  else if decide (edge_key f t ∈ edges d) then Some (Ok tt, d)
  else
    r ← place_edge f t d;
    match r with
    | Some d => Some (Ok tt, d)
    | None => Some (Err (mkCycle from to), d)
    end.

(** ** The searches find exactly what is reachable *)

Section search_spec.
Variables (adj : list (list N)) (ords : list N) (hit : N -> bool) (keep : N -> bool) (size : nat).
(** The order of a node, where it is in range. *)
Variable o : N -> N.

Definition in_range (x : N) : Prop := N.to_nat x < size.

Hypothesis adj_ok : forall x, in_range x -> exists ws, at_index adj x = Some ws /\ Forall in_range ws.
Hypothesis ord_ok : forall x, in_range x -> at_index ords x = Some (o x).

Definition adjacent (x w : N) : Prop := exists ws, at_index adj x = Some ws /\ w ∈ ws.
(** A step of the search. *)
Definition sstep (x w : N) : Prop := adjacent x w /\ keep (o w) = true.

(** Everything next to [x] was looked at. *)
Definition closed (delta : list N) (x : N) : Prop :=
  forall w, adjacent x w -> hit w = false /\ (keep (o w) = true -> w ∈ delta).

Lemma scan_spec ws delta stack : Forall in_range ws -> NoDup delta ->
  (scan ords hit keep ws (list_to_set delta) delta stack = Some Hit /\ exists w, w ∈ ws /\ hit w = true) \/
  (exists news, scan ords hit keep ws (list_to_set delta) delta stack =
      Some (Scanned (list_to_set (delta ++ news)) (delta ++ news) (reverse news ++ stack)) /\
    NoDup (delta ++ news) /\ (forall w, w ∈ news -> w ∈ ws /\ keep (o w) = true) /\
    (forall w, w ∈ ws -> hit w = false /\ (keep (o w) = true -> w ∈ delta ++ news))).
Proof.
  intros Hws. revert delta stack. induction Hws as [|w ws Hw Hws IH]; intros delta stack Hn; simpl.
  { right. exists []. rewrite app_nil_r. split_and!; [done|done|set_solver|set_solver]. }
  destruct (hit w) eqn:Eh.
  { left. split; [done|]. exists w. split; [set_solver|done]. }
  rewrite (ord_ok w Hw). cbn [mbind option_bind].
  destruct (keep (o w)) eqn:Ek; simpl; [case_bool_decide as Hv|].
  - rewrite elem_of_list_to_set in Hv.
    assert (Hn' : NoDup (delta ++ [w])).
    { apply NoDup_app. split_and!; [done|set_solver|apply NoDup_singleton]. }
    replace ({[w]} ∪ list_to_set delta : gset N) with (list_to_set (delta ++ [w]) : gset N)
      by (rewrite list_to_set_app_L; set_solver).
    destruct (IH (delta ++ [w]) (w :: stack) Hn') as [[E (v & ? & ?)]|(news & E & H1 & H2 & H3)].
    + left. split; [done|]. exists v. split; [set_solver|done].
    + right. exists (w :: news).
      replace (delta ++ w :: news) with ((delta ++ [w]) ++ news) by by rewrite <-app_assoc.
      split_and!; [|done| |].
      * rewrite E, reverse_cons, <-(app_assoc (reverse news)). done.
      * intros v [->|Hv']%elem_of_cons; [split; [set_solver|done]|]. destruct (H2 v Hv'). split; [set_solver|done].
      * intros v [->|Hv']%elem_of_cons; [|by apply H3]. split; [done|]. set_solver.
  - rewrite elem_of_list_to_set in Hv.
    destruct (IH delta stack Hn) as [[E (v & ? & ?)]|(news & E & H1 & H2 & H3)].
    + left. split; [done|]. exists v. split; [set_solver|done].
    + right. exists news. split_and!; [done|done|set_solver|].
      intros v [->|Hv']%elem_of_cons; [|by apply H3]. split; [done|]. set_solver.
  - destruct (IH delta stack Hn) as [[E (v & ? & ?)]|(news & E & H1 & H2 & H3)].
    + left. split; [done|]. exists v. split; [set_solver|done].
    + right. exists news. split_and!; [done|done|set_solver|].
      intros v [->|Hv']%elem_of_cons; [|by apply H3]. split; [done|]. congruence.
Qed.

Lemma in_range_bound delta : NoDup delta -> Forall in_range delta -> length delta <= size.
Proof.
  intros Hn Hr. rewrite <-(length_fmap N.to_nat).
  assert (Hs : forall x, x ∈ N.to_nat <$> delta -> x ∈ seq 0 size).
  { intros x (y & -> & Hy)%list_elem_of_fmap. rewrite Forall_forall in Hr. specialize (Hr y Hy).
    unfold in_range in Hr. apply elem_of_seq. lia. }
  assert (HN : NoDup (N.to_nat <$> delta)) by (apply NoDup_fmap; [apply _|done]).
  pose proof (submseteq_length _ _ (NoDup_submseteq _ _ HN Hs)) as Hl. by rewrite length_seq in Hl.
Qed.

(** What holds whenever the loop is at its head. *)
Record search_inv (start : N) (delta stack : list N) : Prop := {
  si_nodup : NoDup delta;
  si_range : Forall in_range delta;
  si_start : start ∈ delta;
  si_stack : forall x, x ∈ stack -> x ∈ delta;
  si_reach : forall x, x ∈ delta -> rtc sstep start x;
  si_closed : forall x, x ∈ delta -> x ∈ stack \/ closed delta x;
}.

Lemma search_inv_step start delta x stack ws news : search_inv start delta (x :: stack) ->
  at_index adj x = Some ws -> Forall in_range ws -> NoDup (delta ++ news) ->
  (forall w, w ∈ news -> w ∈ ws /\ keep (o w) = true) ->
  (forall w, w ∈ ws -> hit w = false /\ (keep (o w) = true -> w ∈ delta ++ news)) ->
  search_inv start (delta ++ news) (reverse news ++ stack).
Proof.
  intros [Hn Hr Hs Hst Hre Hc] Ex Hws Hn' Hnews Hall. rewrite Forall_forall in Hws.
  split; [done| |set_solver| | |].
  - apply Forall_app. split; [done|]. apply Forall_forall. intros w Hw. apply Hws. by apply Hnews.
  - intros y [Hy|Hy]%elem_of_app; [rewrite elem_of_reverse in Hy; set_solver|]. apply elem_of_app. left. set_solver.
  - intros y [Hy|Hy]%elem_of_app; [by apply Hre|]. destruct (Hnews y Hy) as [Hyw Hk].
    eapply rtc_r; [apply (Hre x), Hst; set_solver|]. split; [by exists ws|done].
  - intros y [Hy|Hy]%elem_of_app; [|left; rewrite elem_of_app, elem_of_reverse; by left].
    destruct (decide (y = x)) as [->|Hne].
    { right. intros w (ws' & E & Hw). rewrite Ex in E. simplify_eq. by apply Hall. }
    destruct (Hc y Hy) as [Hys|Hcl]; [left; set_solver|].
    right. intros w Hw. destruct (Hcl w Hw) as [? Hk]. split; [done|]. set_solver.
Qed.

(** The loop ends within its fuel: it pops every visited node once. *)
Lemma search_spec start fuel : forall delta stack, search_inv start delta stack ->
  (size - length delta) + length stack < fuel ->
  (search adj ords hit keep fuel (list_to_set delta) delta stack = Some None /\
     exists x w, rtc sstep start x /\ adjacent x w /\ hit w = true) \/
  (exists delta', search adj ords hit keep fuel (list_to_set delta) delta stack = Some (Some delta') /\
     search_inv start delta' []).
Proof.
  induction fuel as [|fuel IH]; intros delta stack Hinv Hf; [lia|]. cbn [search].
  destruct stack as [|x stack]; [right; by exists delta|].
  assert (Hx : in_range x).
  { pose proof (si_range _ _ _ Hinv) as Hr. rewrite Forall_forall in Hr. apply Hr, Hinv. set_solver. }
  destruct (adj_ok x Hx) as (ws & Ex & Hws). rewrite Ex. cbn [mbind option_bind].
  destruct (scan_spec ws delta stack Hws (si_nodup _ _ _ Hinv)) as [[E (w & Hw & Hh)]|(news & E & H1 & H2 & H3)];
    rewrite E; cbn [mbind option_bind].
  - left. split; [done|]. exists x, w. split_and!; [apply Hinv; apply Hinv; set_solver|by exists ws|done].
  - assert (Hinv' : search_inv start (delta ++ news) (reverse news ++ stack)) by by eapply search_inv_step.
    apply IH; [done|].
    pose proof (in_range_bound _ (si_nodup _ _ _ Hinv') (si_range _ _ _ Hinv')) as Hb.
    rewrite length_app in Hb. rewrite !length_app, length_reverse. simpl in Hf. lia.
Qed.

(** Started on one node, the search hits when it can, and otherwise returns the
    reachable nodes. *)
Lemma search_exact start : in_range start ->
  (search adj ords hit keep (S size) {[start]} [start] [start] = Some None /\
     exists x w, rtc sstep start x /\ adjacent x w /\ hit w = true) \/
  (exists delta, search adj ords hit keep (S size) {[start]} [start] [start] = Some (Some delta) /\
     NoDup delta /\ Forall in_range delta /\ start ∈ delta /\ (forall x, x ∈ delta -> closed delta x) /\
     (forall x, x ∈ delta <-> rtc sstep start x)).
Proof.
  intros Hs. assert (Hinv : search_inv start [start] [start]).
  { split; [apply NoDup_singleton|by constructor|set_solver..| |].
    - intros x Hx. assert (x = start) as -> by set_solver. done.
    - intros x Hx. left. set_solver. }
  replace ({[start]} : gset N) with (list_to_set [start] : gset N) by set_solver.
  assert (Hsz : 0 < size) by (unfold in_range in Hs; lia).
  destruct (search_spec start (S size) [start] [start] Hinv) as [H|(delta & E & [H1 H2 H3 H4 H5 H6])];
    [simpl; lia|by left|].
  right. exists delta. split_and!; [done..|set_solver|].
  intros x. split; [auto|]. revert x. apply rtc_ind_r; [done|]. intros y z _ [Ha Hk] IH.
  destruct (H6 y IH) as [?|Hc]; [set_solver|]. by apply (Hc z Ha).
Qed.
End search_spec.

(** ** Dealing the positions out again *)

Lemma set_index_range {A} (l : list A) i x : N.to_nat i < length l ->
  set_index l i x = Some (<[N.to_nat i := x]> l).
Proof. intros. unfold set_index. by rewrite decide_True. Qed.

Lemma at_index_insert {A} (l : list A) i j x : N.to_nat i < length l ->
  at_index (<[N.to_nat i := x]> l) j = if decide (i = j) then Some x else at_index l j.
Proof.
  intros Hi. unfold at_index. case_decide as H; subst; [by apply list_lookup_insert_eq|].
  apply list_lookup_insert_ne. lia.
Qed.

Lemma assign_spec positions ns : forall i ords, NoDup ns ->
  (forall x, x ∈ ns -> N.to_nat x < length ords) -> i + length ns <= length positions ->
  exists ords', assign positions i ns ords = Some ords' /\ length ords' = length ords /\
    (forall k x, ns !! k = Some x -> at_index ords' x = positions !! (i + k)) /\
    (forall x, x ∉ ns -> at_index ords' x = at_index ords x).
Proof.
  induction ns as [|n ns IH]; intros i ords Hn Hr Hl; simpl.
  { exists ords. split_and!; done. }
  apply NoDup_cons in Hn as [Hni Hn]. simpl in Hl.
  destruct (lookup_lt_is_Some_2 positions i) as [p Ep]; [lia|]. rewrite Ep. cbn [mbind option_bind].
  assert (Hrn : N.to_nat n < length ords) by (apply Hr; set_solver).
  rewrite set_index_range by done. cbn [mbind option_bind].
  destruct (IH (S i) (<[N.to_nat n := p]> ords) Hn) as (ords' & E & Hlen & Hin & Hout).
  - intros x Hx. rewrite length_insert. apply Hr. set_solver.
  - lia.
  - exists ords'. rewrite length_insert in Hlen. split_and!; [done|done| |].
    + intros [|k] x Hk; simplify_eq/=.
      * rewrite Hout, at_index_insert, decide_True, Nat.add_0_r by done. done.
      * rewrite (Hin k x Hk). f_equal. lia.
    + intros x Hx. rewrite Hout, at_index_insert, decide_False by set_solver. done.
Qed.

Lemma fmap_lookup {A B} (f : A -> B) (l : list A) (i : nat) x : l !! i = Some x -> (f <$> l) !! i = Some (f x).
Proof. intros E. by rewrite list_lookup_fmap, E. Qed.

Section reorder_spec.
Variables (dm dp ords : list N) (o : N -> N).
Hypothesis nodup : NoDup (dm ++ dp).
Hypothesis range : forall x, x ∈ dm ++ dp -> at_index ords x = Some (o x).
Hypothesis o_inj : forall x y, x ∈ dm ++ dp -> y ∈ dm ++ dp -> o x = o y -> x = y.

(** The new order: sources move down and targets up, inside the positions of the
    region; the two groups keep their own order and one precedes the other. *)
Record reordered (ords' : list N) (o' : N -> N) : Prop := {
  ro_len : length ords' = length ords;
  ro_in : forall x, x ∈ dm ++ dp -> at_index ords' x = Some (o' x);
  ro_out : forall x, x ∉ dm ++ dp -> at_index ords' x = at_index ords x;
  ro_pos : forall x, x ∈ dm ++ dp -> exists z, z ∈ dm ++ dp /\ o' x = o z;
  ro_inj : forall x y, x ∈ dm ++ dp -> y ∈ dm ++ dp -> o' x = o' y -> x = y;
  ro_down : forall x, x ∈ dm -> (o' x <= o x)%N;
  ro_up : forall x, x ∈ dp -> (o x <= o' x)%N;
  ro_minus : forall x y, x ∈ dm -> y ∈ dm -> (o x < o y)%N -> (o' x < o' y)%N;
  ro_plus : forall x y, x ∈ dp -> y ∈ dp -> (o x < o y)%N -> (o' x < o' y)%N;
  ro_cross : forall x y, x ∈ dm -> y ∈ dp -> (o' x < o' y)%N;
}.

(** The result read off the sorted groups [ms], [ps] and the positions. *)
Section dealt.
Variables (ms ps positions ords' : list N).
Hypothesis ms_perm : ms ≡ₚ dm.
Hypothesis ps_perm : ps ≡ₚ dp.
Hypothesis ms_sorted : StronglySorted (fun a b => (o a <= o b)%N) ms.
Hypothesis ps_sorted : StronglySorted (fun a b => (o a <= o b)%N) ps.
Hypothesis pos_perm : positions ≡ₚ (o <$> ms) ++ (o <$> ps).
Hypothesis pos_sorted : StronglySorted N.le positions.
Hypothesis len : length ords' = length ords.
Hypothesis dealt_in : forall k x, (ms ++ ps) !! k = Some x -> at_index ords' x = positions !! k.
Hypothesis dealt_out : forall x, x ∉ ms ++ ps -> at_index ords' x = at_index ords x.

Local Definition new (x : N) : N := default 0%N (at_index ords' x).

Local Lemma all_perm : ms ++ ps ≡ₚ dm ++ dp.
Proof. by rewrite ms_perm, ps_perm. Qed.

Local Lemma positions_length : length positions = length (ms ++ ps).
Proof. by rewrite pos_perm, !length_app, !length_fmap. Qed.

(** Positions are pairwise different, so they increase strictly. *)
Local Lemma positions_lt i j x y : positions !! i = Some x -> positions !! j = Some y -> i < j -> (x < y)%N.
Proof.
  intros Hi Hj Hlt. pose proof (StronglySorted_lookup _ _ _ _ _ _ pos_sorted Hi Hj Hlt) as Hle.
  assert (Hn : NoDup positions).
  { rewrite pos_perm, <-fmap_app, all_perm. apply NoDup_fmap_2_strong; [|done]. intros. by apply o_inj. }
  assert (x <> y); [|lia]. intros ->. pose proof (NoDup_lookup _ _ _ _ Hn Hi Hj). lia.
Qed.

Local Lemma new_at k x : (ms ++ ps) !! k = Some x -> positions !! k = Some (new x) /\ at_index ords' x = Some (new x).
Proof.
  intros E. destruct (lookup_lt_is_Some_2 positions k) as [p Ep].
  { rewrite positions_length. by eapply lookup_lt_Some. }
  pose proof (dealt_in k x E) as Ek. unfold new. rewrite Ek, Ep. done.
Qed.

Local Lemma find_pos x : x ∈ dm ++ dp -> exists k, (ms ++ ps) !! k = Some x.
Proof. rewrite <-all_perm. apply list_elem_of_lookup_1. Qed.
Local Lemma find_minus x : x ∈ dm -> exists k, ms !! k = Some x /\ (ms ++ ps) !! k = Some x.
Proof.
  rewrite <-ms_perm. intros [k E]%list_elem_of_lookup_1. exists k. split; [done|]. by apply lookup_app_l_Some.
Qed.
Local Lemma find_plus x : x ∈ dp -> exists k, ps !! k = Some x /\ (ms ++ ps) !! (length ms + k) = Some x.
Proof.
  rewrite <-ps_perm. intros [k E]%list_elem_of_lookup_1. exists k. split; [done|].
  rewrite lookup_app_r by lia. by replace (length ms + k - length ms) with k by lia.
Qed.

Local Lemma sorted_index l i j x y : StronglySorted (fun a b => (o a <= o b)%N) l ->
  l !! i = Some x -> l !! j = Some y -> (o x < o y)%N -> i < j.
Proof.
  intros Hs Hi Hj Hlt. destruct (Nat.lt_trichotomy i j) as [|[->|Hji]]; [done|simplify_eq; lia|].
  pose proof (StronglySorted_lookup _ _ _ _ _ _ Hs Hj Hi Hji). simpl in *. lia.
Qed.

Lemma dealt_reordered : reordered ords' new.
Proof.
  assert (Hms : StronglySorted N.le (o <$> ms)) by by apply StronglySorted_fmap_1.
  assert (Hps : StronglySorted N.le (o <$> ps)) by by apply StronglySorted_fmap_1.
  split; [done|..].
  - intros x [k E]%find_pos. by eapply new_at.
  - intros x Hx. apply dealt_out. by rewrite all_perm.
  - intros x [k E]%find_pos. destruct (new_at k x E) as [Ep _]. apply list_elem_of_lookup_2 in Ep.
    rewrite pos_perm, <-fmap_app, all_perm in Ep. apply list_elem_of_fmap in Ep as (z & ? & ?). by exists z.
  - intros x y [i Ei]%find_pos [j Ej]%find_pos Heq.
    destruct (new_at i x Ei) as [Hi _], (new_at j y Ej) as [Hj _].
    destruct (Nat.lt_trichotomy i j) as [H|[->|H]]; [..|pose proof (positions_lt _ _ _ _ Hj Hi H); lia].
    + pose proof (positions_lt _ _ _ _ Hi Hj H). lia.
    + congruence.
  - intros x (k & Em & E)%find_minus. destruct (new_at k x E) as [Ep _].
    eapply merged_low; [exact pos_sorted|exact Hms|exact pos_perm|by apply fmap_lookup|done].
  - intros x (k & Em & E)%find_plus. destruct (new_at _ x E) as [Ep _].
    eapply merged_high; [exact pos_sorted|exact Hps|exact pos_perm|by apply fmap_lookup|by rewrite length_fmap].
  - intros x y (i & Ei & Ei')%find_minus (j & Ej & Ej')%find_minus Hlt.
    destruct (new_at i x Ei') as [Hi _], (new_at j y Ej') as [Hj _].
    eapply positions_lt; [done..|]. by eapply (sorted_index ms).
  - intros x y (i & Ei & Ei')%find_plus (j & Ej & Ej')%find_plus Hlt.
    destruct (new_at _ x Ei') as [Hi _], (new_at _ y Ej') as [Hj _].
    eapply positions_lt; [done..|]. pose proof (sorted_index ps i j x y ps_sorted Ei Ej Hlt). lia.
  - intros x y (i & Ei & Ei')%find_minus (j & Ej & Ej')%find_plus.
    destruct (new_at _ x Ei') as [Hi _], (new_at _ y Ej') as [Hj _].
    eapply positions_lt; [done..|]. apply lookup_lt_Some in Ei. lia.
Qed.
End dealt.

Lemma reorder_spec : exists ords' o', reorder dm dp ords = Some ords' /\ reordered ords' o'.
Proof.
  unfold reorder.
  destruct (try_sort_by_key_spec (at_index ords) o dm) as (ms & -> & Hmp & Hms); [set_solver|].
  destruct (try_sort_by_key_spec (at_index ords) o dp) as (ps & E & Hpp & Hps); [set_solver|].
  cbn [mbind option_bind]. rewrite E. cbn [mbind option_bind].
  assert (Hall : ms ++ ps ≡ₚ dm ++ dp) by by rewrite Hmp, Hpp.
  assert (Hin : forall x, x ∈ ms ++ ps -> at_index ords x = Some (o x)).
  { intros x. rewrite Hall. apply range. }
  rewrite (mapM_total (at_index ords) o ms), (mapM_total (at_index ords) o ps) by set_solver.
  cbn [mbind option_bind]. set (positions := sort_N _).
  assert (Hperm : positions ≡ₚ (o <$> ms) ++ (o <$> ps)) by apply sort_N_perm.
  assert (Hlen : length positions = length ms + length ps) by (rewrite Hperm, length_app, !length_fmap; done).
  assert (Hn : NoDup (ms ++ ps)) by by rewrite Hall.
  pose proof Hn as (Hnm & Hdisj & Hnp)%NoDup_app.
  assert (Hr : forall x, x ∈ ms ++ ps -> N.to_nat x < length ords).
  { intros x Hx%Hin. by eapply lookup_lt_Some. }
  destruct (assign_spec positions ms 0 ords) as (ords1 & -> & Hl1 & Hi1 & Ho1); [done|set_solver|lia|].
  cbn [mbind option_bind].
  destruct (assign_spec positions ps (length ms) ords1) as (ords2 & -> & Hl2 & Hi2 & Ho2); [done| |lia|].
  { intros x Hx. rewrite Hl1. set_solver. }
  eexists _, _. split; [done|].
  apply (dealt_reordered ms ps positions); try done; [apply sort_N_sorted|congruence| |].
  - intros k x [Hk|[Hge Hk]]%lookup_app_Some; [|rewrite (Hi2 _ _ Hk); f_equal; lia].
    rewrite Ho2, (Hi1 _ _ Hk); [done|]. apply Hdisj. by eapply list_elem_of_lookup_2.
  - intros x Hx. rewrite Ho2, Ho1; set_solver.
Qed.
End reorder_spec.

(** ** The invariant *)

Definition arc_in (d : DepDag) (i j : N) : Prop := adjacent (succ d) i j.
Definition ord_of (d : DepDag) (i : N) : N := default 0%N (at_index (ord d) i).
Definition node (d : DepDag) (i : N) : Prop := in_range (length (nodes d)) i.

Record wf (d : DepDag) : Prop := {
  wf_succ_len : length (succ d) = length (nodes d);
  wf_pred_len : length (pred d) = length (nodes d);
  wf_ord_len : length (ord d) = length (nodes d);
  wf_u32 : (N.of_nat (length (nodes d)) <= 4294967296)%N;
  wf_index : forall a i, index_of d !! a = Some i <-> at_index (nodes d) i = Some a;
  wf_ord_nodup : NoDup (ord d);
  wf_ord_bound : Forall (fun o => (o < N.of_nat (length (nodes d)))%N) (ord d);
  wf_pred : forall i j, arc_in d i j <-> adjacent (pred d) j i;
  wf_edges : forall k, k ∈ edges d <-> exists i j, k = edge_key i j /\ arc_in d i j;
  wf_once : Forall NoDup (succ d);
  wf_topo : forall i j, arc_in d i j -> (ord_of d i < ord_of d j)%N;
}.

(** Packed edges of [u32] indices do not collide. *)
Lemma edge_key_value i j : (j < 4294967296)%N -> edge_key i j = (i * 4294967296 + j)%N.
Proof.
  intros Hj. unfold edge_key. rewrite N.shiftl_mul_pow2. change (2 ^ 32)%N with 4294967296%N.
  assert (Hd : N.land (i * 4294967296) j = 0%N).
  { apply N.bits_inj. intros k. rewrite N.land_spec, N.bits_0.
    change 4294967296%N with (2 ^ 32)%N. destruct (N.lt_ge_cases k 32) as [Hk|Hk].
    - by rewrite N.mul_pow2_bits_low.
    - destruct (decide (j = 0%N)) as [->|H0]; [by rewrite N.bits_0, andb_false_r|].
      rewrite (N.bits_above_log2 j k), andb_false_r; [done|].
      apply (N.lt_le_trans _ 32); [|done]. apply N.log2_lt_pow2; [lia|done]. }
  by rewrite <-(N.lxor_lor _ _ Hd), N.add_nocarry_lxor.
Qed.

Lemma edge_key_inj i j i' j' : (j < 4294967296)%N -> (j' < 4294967296)%N ->
  edge_key i j = edge_key i' j' -> i = i' /\ j = j'.
Proof. intros H H'. rewrite !edge_key_value by done. lia. Qed.

Lemma node_u32 d i : wf d -> node d i -> (i < 4294967296)%N.
Proof. intros Hw Hi. pose proof (wf_u32 d Hw). unfold node, in_range in Hi. lia. Qed.

Lemma adjacent_range adj x w : adjacent adj x w -> in_range (length adj) x.
Proof. intros (ws & E & _). by eapply lookup_lt_Some. Qed.

Lemma arc_in_node d i j : wf d -> arc_in d i j -> node d i /\ node d j.
Proof.
  intros Hw Ha. split.
  - unfold node. rewrite <-(wf_succ_len d Hw). by eapply adjacent_range.
  - apply (wf_pred d Hw) in Ha. unfold node. rewrite <-(wf_pred_len d Hw). by eapply adjacent_range.
Qed.

Lemma edges_arc d i j : wf d -> node d j -> edge_key i j ∈ edges d <-> arc_in d i j.
Proof.
  intros Hw Hj. rewrite (wf_edges d Hw). split; [|by exists i, j]. intros (i' & j' & E & Ha).
  pose proof (arc_in_node d i' j' Hw Ha) as [_ Hj'].
  apply edge_key_inj in E as [-> ->]; [done|by eapply node_u32..].
Qed.

Lemma ord_at d i : wf d -> node d i -> at_index (ord d) i = Some (ord_of d i).
Proof.
  intros Hw Hi. unfold ord_of. destruct (lookup_lt_is_Some_2 (ord d) (N.to_nat i)) as [o E].
  - rewrite (wf_ord_len d Hw). exact Hi.
  - unfold at_index. by rewrite E.
Qed.

Lemma ord_inj d i j : wf d -> node d i -> node d j -> ord_of d i = ord_of d j -> i = j.
Proof.
  intros Hw Hi Hj E. pose proof (ord_at d i Hw Hi) as Ei. pose proof (ord_at d j Hw Hj) as Ej.
  rewrite E in Ei. pose proof (NoDup_lookup _ _ _ _ (wf_ord_nodup d Hw) Ei Ej). lia.
Qed.

Lemma index_node d a i : wf d -> index_of d !! a = Some i -> node d i.
Proof. intros Hw E%(wf_index d Hw). by eapply lookup_lt_Some. Qed.

Lemma index_inj d a b i : wf d -> index_of d !! a = Some i -> index_of d !! b = Some i -> a = b.
Proof. intros Hw Ea%(wf_index d Hw) Eb%(wf_index d Hw). congruence. Qed.

(** Along a path the order only grows. *)
Lemma path_ord d i j : wf d -> rtc (arc_in d) i j -> i = j \/ (ord_of d i < ord_of d j)%N.
Proof.
  intros Hw. induction 1 as [|i k j Ha _ IH]; [by left|]. right. apply (wf_topo d Hw) in Ha.
  destruct IH as [->|]; lia.
Qed.

Lemma path_node d i j : wf d -> rtc (arc_in d) i j -> node d i -> node d j.
Proof. intros Hw. induction 1 as [|i k j Ha _ IH]; [done|]. intros _. apply IH. by apply (arc_in_node d i k). Qed.

Lemma wf_new : wf dag_new.
Proof.
  assert (Hno : forall i j, ~ adjacent [] i j).
  { intros i j (ws & E & _). unfold at_index in E. by rewrite lookup_nil in E. }
  split; simpl; try done; try apply NoDup_nil_2; try apply Forall_nil_2.
  - intros i j. split; intros H; [by destruct (Hno i j)|by destruct (Hno j i)].
  - intros k. split; [set_solver|]. intros (i & j & _ & H). by destruct (Hno i j).
  - intros i j H. by destruct (Hno i j).
Qed.

(** *** A node is added *)

Lemma at_index_snoc {A} (l : list A) x i y :
  at_index (l ++ [x]) i = Some y <-> at_index l i = Some y \/ N.to_nat i = length l /\ y = x.
Proof.
  unfold at_index. rewrite lookup_app_Some, list_lookup_singleton_Some. split.
  - intros [?|[? [? ->]]]; [by left|right]. split; [lia|done].
  - intros [?|[? ->]]; [by left|right]. split_and!; [lia|lia|done].
Qed.

Lemma adjacent_snoc adj x w : adjacent (adj ++ [[]]) x w <-> adjacent adj x w.
Proof.
  unfold adjacent. setoid_rewrite at_index_snoc. split.
  - intros (ws & [E|[_ ->]] & Hw); [by exists ws|set_solver].
  - intros (ws & E & Hw). exists ws. auto.
Qed.

Lemma as_u32_small n : (N.of_nat n < 4294967296)%N -> as_u32 n = N.of_nat n.
Proof. intros. unfold as_u32. by apply N.mod_small. Qed.

Lemma get_or_insert_spec a d : wf d -> (N.of_nat (length (nodes d)) < 4294967296)%N ->
  exists i d', get_or_insert a d = (i, d') /\ wf d' /\ index_of d' !! a = Some i /\
    (forall b j, index_of d !! b = Some j -> index_of d' !! b = Some j) /\
    (forall x y, arc_in d' x y <-> arc_in d x y) /\
    length (nodes d) <= length (nodes d') <= S (length (nodes d)).
Proof.
  intros Hw Hlt. unfold get_or_insert. destruct (index_of d !! a) as [i|] eqn:Ea.
  { exists i, d. split_and!; [done..|lia|lia]. }
  rewrite as_u32_small by done. set (n := N.of_nat (length (nodes d))).
  set (d' := mkDag _ _ _ _ _ _).
  assert (Harc : forall x y, arc_in d' x y <-> arc_in d x y) by (intros x y; apply adjacent_snoc).
  assert (Hord : forall x, node d x -> ord_of d' x = ord_of d x).
  { intros x Hx. unfold ord_of. simpl. f_equal. unfold at_index. apply lookup_app_l.
    rewrite (wf_ord_len d Hw). exact Hx. }
  exists n, d'. split_and!; [done| |by apply lookup_insert_eq| |done|simpl; rewrite length_app; simpl; lia..].
  - split; simpl; rewrite ?length_app; simpl.
    + by rewrite (wf_succ_len d Hw).
    + by rewrite (wf_pred_len d Hw).
    + by rewrite (wf_ord_len d Hw).
    + lia.
    + intros b j. rewrite lookup_insert_Some, at_index_snoc, (wf_index d Hw). split.
      * intros [[<- <-]|[_ E]]; [right; split; [lia|done]|by left].
      * intros [E|[E ->]]; [right; split; [|done]|left; split; [done|lia]].
        intros ->. apply (wf_index d Hw) in E. congruence.
    + apply NoDup_app. split_and!; [apply (wf_ord_nodup d Hw)| |apply NoDup_singleton].
      intros x Hx. pose proof (wf_ord_bound d Hw) as Hb. rewrite Forall_forall in Hb. specialize (Hb x Hx).
      apply not_elem_of_cons. split; [lia|set_solver].
    + apply Forall_app. split; [|constructor; [lia|done]]. eapply Forall_impl; [apply (wf_ord_bound d Hw)|]. intros x Hx; simpl in Hx. lia.
    + intros i j. rewrite Harc, (wf_pred d Hw). symmetry. apply adjacent_snoc.
    + intros k. setoid_rewrite Harc. apply (wf_edges d Hw).
    + apply Forall_app. split; [apply (wf_once d Hw)|]. repeat constructor.
    + intros i j Ha%Harc. destruct (arc_in_node d i j Hw Ha). rewrite !Hord by done. by apply (wf_topo d Hw).
  - intros b j E. simpl. rewrite lookup_insert_ne; [done|]. congruence.
Qed.

(** *** An edge is committed *)

Lemma adjacent_push adj f sf t x w : at_index adj f = Some sf ->
  adjacent (<[N.to_nat f := sf ++ [t]]> adj) x w <-> adjacent adj x w \/ x = f /\ w = t.
Proof.
  intros Ef. unfold adjacent. setoid_rewrite at_index_insert; [|by eapply lookup_lt_Some].
  case_decide as H; [subst x|].
  - rewrite Ef. split.
    + intros (ws & [= <-] & [Hw|Hw]%elem_of_app); [left; by exists sf|right; split; [done|set_solver]].
    + intros [(ws & [= <-] & Hw)|[_ ->]]; (eexists; split; [done|set_solver]).
  - naive_solver.
Qed.

Lemma commit_edge_spec d f t : wf d -> node d f -> node d t -> ~ arc_in d f t -> (ord_of d f < ord_of d t)%N ->
  exists d', commit_edge f t d = Some d' /\ wf d' /\ nodes d' = nodes d /\ index_of d' = index_of d /\
    (forall x y, arc_in d' x y <-> arc_in d x y \/ x = f /\ y = t).
Proof.
  intros Hw Hf Ht Hno Hlt. unfold commit_edge.
  assert (Hf' : N.to_nat f < length (succ d)) by by rewrite (wf_succ_len d Hw).
  assert (Ht' : N.to_nat t < length (pred d)) by by rewrite (wf_pred_len d Hw).
  destruct (lookup_lt_is_Some_2 _ _ Hf') as [sf Ef], (lookup_lt_is_Some_2 _ _ Ht') as [pt Et].
  change (at_index (succ d) f = Some sf) in Ef. change (at_index (pred d) t = Some pt) in Et.
  rewrite Ef, Et. cbn [mbind option_bind]. rewrite !set_index_range by done. cbn [mbind option_bind].
  eexists. split; [done|]. set (d' := mkDag _ _ _ _ _ _).
  assert (Harc : forall x y, arc_in d' x y <-> arc_in d x y \/ x = f /\ y = t)
    by (intros x y; by apply adjacent_push).
  split_and!; [|done..].
  split; simpl; rewrite ?length_insert; try apply Hw.
  - intros i j. rewrite Harc, adjacent_push, (wf_pred d Hw) by done. naive_solver.
  - intros k. rewrite elem_of_union, elem_of_singleton, (wf_edges d Hw). setoid_rewrite Harc. naive_solver.
  - apply Forall_insert; [apply (wf_once d Hw)|]. apply NoDup_app.
    split_and!; [|intros x Hx; assert (x <> t); [|set_solver]|apply NoDup_singleton].
    + pose proof (wf_once d Hw) as Ho. rewrite Forall_lookup in Ho. by eapply Ho.
    + intros ->. apply Hno. by exists sf.
  - intros i j [Ha|[-> ->]]%Harc; [by apply (wf_topo d Hw)|done].
Qed.

(** *** The region and its new order *)

Section insert_edge.
Variable d : DepDag.
Hypothesis Hw : wf d.
Variables f t : N.
Hypothesis Hf : node d f.
Hypothesis Ht : node d t.
Hypothesis Hne : f <> t.
Hypothesis Hdown : (ord_of d t <= ord_of d f)%N.

Lemma succ_ok x : node d x -> exists ws, at_index (succ d) x = Some ws /\ Forall (node d) ws.
Proof.
  intros Hx. assert (Hx' : N.to_nat x < length (succ d)) by by rewrite (wf_succ_len d Hw).
  destruct (lookup_lt_is_Some_2 _ _ Hx') as [ws E]. exists ws. split; [done|]. apply Forall_forall.
  intros w Hin. apply (arc_in_node d x w Hw). by exists ws.
Qed.

Lemma pred_ok x : node d x -> exists ws, at_index (pred d) x = Some ws /\ Forall (node d) ws.
Proof.
  intros Hx. assert (Hx' : N.to_nat x < length (pred d)) by by rewrite (wf_pred_len d Hw).
  destruct (lookup_lt_is_Some_2 _ _ Hx') as [ws E]. exists ws. split; [done|]. apply Forall_forall.
  intros w Hin. apply (arc_in_node d w x Hw). apply (wf_pred d Hw). by exists ws.
Qed.

(** A path below [f] in the order stays below it, so the bound of the forward
    search cuts nothing off. *)
Lemma sstep_forward x y : rtc (arc_in d) x y -> (ord_of d y <= ord_of d f)%N ->
  rtc (sstep (succ d) (fun o => o <=? ord_of d f)%N (ord_of d)) x y.
Proof.
  induction 1 as [|x k y Ha Hr IH]; [done|]. intros Hy. apply (rtc_l _ _ k); [|by apply IH].
  split; [done|]. apply N.leb_le. destruct (path_ord d k y Hw Hr) as [->|]; lia.
Qed.

Lemma forward_exact :
  (forward d f t (ord_of d f) = Some None /\ rtc (arc_in d) t f) \/
  (exists dp, forward d f t (ord_of d f) = Some (Some dp) /\ ~ rtc (arc_in d) t f /\
    NoDup dp /\ Forall (node d) dp /\
    (forall x, x ∈ dp <-> rtc (arc_in d) t x /\ (ord_of d x <= ord_of d f)%N)).
Proof.
  unfold forward.
  destruct (search_exact (succ d) (ord d) (fun w => bool_decide (w = f)) (fun o => o <=? ord_of d f)%N
    (length (nodes d)) (ord_of d) succ_ok (fun x => ord_at d x Hw) t Ht)
    as [(E & x & w & Hr & Ha & Hh)|(dp & E & Hn & Hrg & _ & Hc & Hre)]; rewrite E.
  - left. split; [done|]. apply bool_decide_eq_true in Hh as ->.
    eapply rtc_r; [|exact Ha]. eapply (rtc_subrel); [|exact Hr]. by intros ?? [? _].
  - assert (Hiff : forall x, x ∈ dp <-> rtc (arc_in d) t x /\ (ord_of d x <= ord_of d f)%N).
    { intros x. rewrite Hre. split; [|intros []; by apply sstep_forward]. intros Hr. split.
      - eapply (rtc_subrel); [|exact Hr]. by intros ?? [? _].
      - apply rtc_inv_r in Hr as [<-|(y & _ & _ & Hk)]; [done|]. by apply N.leb_le. }
    right. exists dp. split_and!; [done| |done..]. intros Hr.
    apply rtc_inv_r in Hr as [E'|(x & Hx & Ha)]; [done|].
    destruct (Hc x) with (w := f) as [Hh _]; [|done|by apply bool_decide_eq_false in Hh].
    apply Hiff. split; [done|]. apply (wf_topo d Hw) in Ha. lia.
Qed.

Lemma sstep_backward x y : rtc (arc_in d) x y -> (ord_of d t <= ord_of d x)%N ->
  rtc (sstep (pred d) (fun o => ord_of d t <=? o)%N (ord_of d)) y x.
Proof.
  induction 1 as [|x k y Ha Hr IH]; [done|]. intros Hx. pose proof (wf_topo d Hw _ _ Ha).
  eapply rtc_r; [apply IH; lia|]. split; [by apply (wf_pred d Hw)|]. by apply N.leb_le.
Qed.

Lemma backward_exact :
  exists dm, backward d f (ord_of d t) = Some (Some dm) /\ NoDup dm /\ Forall (node d) dm /\
    (forall x, x ∈ dm <-> rtc (arc_in d) x f /\ (ord_of d t <= ord_of d x)%N).
Proof.
  unfold backward.
  destruct (search_exact (pred d) (ord d) (fun _ => false) (fun o => ord_of d t <=? o)%N
    (length (nodes d)) (ord_of d) pred_ok (fun x => ord_at d x Hw) f Hf)
    as [(_ & x & w & _ & _ & Hh)|(dm & E & Hn & Hrg & _ & _ & Hre)]; [done|].
  exists dm. split_and!; [done..|]. intros x. rewrite Hre. split.
  - revert x. apply rtc_ind_r; [by split|]. intros y z _ [Ha Hk] [IH _]. split; [|by apply N.leb_le].
    apply (rtc_l _ _ y); [|done]. by apply (wf_pred d Hw).
  - intros [Hr Hk]. by apply sstep_backward.
Qed.

(** The region's nodes get the region's positions, and every edge still goes up. *)
Section region.
Variables (dm dp : list N).
Hypothesis Hnr : ~ rtc (arc_in d) t f.
Hypothesis dm_nodup : NoDup dm.
Hypothesis dp_nodup : NoDup dp.
Hypothesis dm_iff : forall x, x ∈ dm <-> rtc (arc_in d) x f /\ (ord_of d t <= ord_of d x)%N.
Hypothesis dp_iff : forall x, x ∈ dp <-> rtc (arc_in d) t x /\ (ord_of d x <= ord_of d f)%N.

Local Lemma disjoint x y : x ∈ dp -> rtc (arc_in d) x y -> y ∉ dm.
Proof. intros [Hx _]%dp_iff Hxy [Hy _]%dm_iff. apply Hnr. etrans; [exact Hx|]. by etrans. Qed.

Local Lemma region_nodup : NoDup (dm ++ dp).
Proof. apply NoDup_app. split_and!; [done| |done]. intros x Hm Hp. by apply (disjoint x x). Qed.

Local Lemma region_node x : x ∈ dm ++ dp -> node d x.
Proof.
  intros [Hx|Hx]%elem_of_app.
  - apply dm_iff in Hx as [Hx _]. apply rtc_inv in Hx as [->|(k & Ha & _)]; [done|]. by apply (arc_in_node d x k).
  - apply dp_iff in Hx as [Hx _]. by eapply path_node.
Qed.

Local Lemma region_bounds x : x ∈ dm ++ dp -> (ord_of d t <= ord_of d x <= ord_of d f)%N.
Proof.
  intros [[Hr Hb]%dm_iff|[Hr Hb]%dp_iff]%elem_of_app; (split; [|]); try done.
  - destruct (path_ord d x f Hw Hr) as [->|]; lia.
  - destruct (path_ord d t x Hw Hr) as [->|]; lia.
Qed.

Section new_order.
Variables (ords' : list N) (o' : N -> N).
Hypothesis Hro : reordered dm dp (ord d) (ord_of d) ords' o'.

Local Definition d1 : DepDag := mkDag (nodes d) (succ d) (pred d) ords' (index_of d) (edges d).

Local Lemma d1_in x : x ∈ dm ++ dp -> ord_of d1 x = o' x.
Proof. intros Hx. unfold ord_of. simpl. by rewrite (ro_in _ _ _ _ _ _ Hro x Hx). Qed.
Local Lemma d1_out x : x ∉ dm ++ dp -> ord_of d1 x = ord_of d x.
Proof. intros Hx. unfold ord_of. simpl. by rewrite (ro_out _ _ _ _ _ _ Hro x Hx). Qed.

Local Lemma new_bounds x : x ∈ dm ++ dp -> (ord_of d t <= o' x <= ord_of d f)%N.
Proof. intros (z & Hz & ->)%(ro_pos _ _ _ _ _ _ Hro). by apply region_bounds. Qed.

(** An edge that leaves the forward region ends above the region, and one that
    enters the backward region starts below it. *)
Local Lemma leave_plus x y : x ∈ dp -> arc_in d x y -> y ∉ dp -> (ord_of d f < ord_of d y)%N.
Proof.
  intros [Hx Hb]%dp_iff Ha Hy. destruct (N.le_gt_cases (ord_of d y) (ord_of d f)) as [Hle|]; [|done].
  destruct Hy. apply dp_iff. split; [|done]. by eapply rtc_r.
Qed.
Local Lemma enter_minus x y : y ∈ dm -> arc_in d x y -> x ∉ dm -> (ord_of d x < ord_of d t)%N.
Proof.
  intros [Hy Hb]%dm_iff Ha Hx. destruct (N.le_gt_cases (ord_of d t) (ord_of d x)) as [Hle|]; [|done].
  destruct Hx. apply dm_iff. split; [|done]. by eapply rtc_l.
Qed.

Local Lemma d1_topo x y : arc_in d x y -> (ord_of d1 x < ord_of d1 y)%N.
Proof.
  intros Ha. pose proof (wf_topo d Hw _ _ Ha) as Hlt.
  destruct (decide (x ∈ dm)) as [Hxm|Hxm]; [|destruct (decide (x ∈ dp)) as [Hxp|Hxp]].
  - rewrite (d1_in x) by set_solver. pose proof (ro_down _ _ _ _ _ _ Hro x Hxm).
    destruct (decide (y ∈ dm)) as [Hym|Hym]; [|destruct (decide (y ∈ dp)) as [Hyp|Hyp]].
    + rewrite d1_in by set_solver. by apply (ro_minus _ _ _ _ _ _ Hro).
    + rewrite d1_in by set_solver. by apply (ro_cross _ _ _ _ _ _ Hro).
    + rewrite d1_out by set_solver. lia.
  - rewrite (d1_in x) by set_solver. destruct (decide (y ∈ dp)) as [Hyp|Hyp].
    + rewrite d1_in by set_solver. by apply (ro_plus _ _ _ _ _ _ Hro).
    + assert (Hym : y ∉ dm) by (eapply disjoint; [exact Hxp|by apply rtc_once]).
      rewrite d1_out by set_solver. pose proof (leave_plus x y Hxp Ha Hyp).
      assert (Hx : x ∈ dm ++ dp) by set_solver. pose proof (new_bounds x Hx). lia.
  - rewrite (d1_out x) by set_solver. destruct (decide (y ∈ dm)) as [Hym|Hym]; [|destruct (decide (y ∈ dp)) as [Hyp|Hyp]].
    + rewrite d1_in by set_solver. pose proof (enter_minus x y Hym Ha Hxm).
      assert (Hy : y ∈ dm ++ dp) by set_solver. pose proof (new_bounds y Hy). lia.
    + rewrite d1_in by set_solver. pose proof (ro_up _ _ _ _ _ _ Hro y Hyp). lia.
    + rewrite d1_out by set_solver. lia.
Qed.
Local Lemma d1_lookup i v : ords' !! i = Some v -> node d (N.of_nat i) /\ ord_of d1 (N.of_nat i) = v.
Proof.
  intros E. split.
  - apply lookup_lt_Some in E. unfold node, in_range.
    rewrite Nat2N.id, <-(wf_ord_len d Hw), <-(ro_len _ _ _ _ _ _ Hro). done.
  - unfold ord_of, at_index. simpl. by rewrite Nat2N.id, E.
Qed.

Local Lemma d1_inj x y : node d x -> node d y -> ord_of d1 x = ord_of d1 y -> x = y.
Proof.
  intros Hx Hy. destruct (decide (x ∈ dm ++ dp)) as [Hxr|Hxr], (decide (y ∈ dm ++ dp)) as [Hyr|Hyr].
  - rewrite !d1_in by done. by apply (ro_inj _ _ _ _ _ _ Hro).
  - rewrite d1_in, d1_out by done. destruct (ro_pos _ _ _ _ _ _ Hro x Hxr) as (z & Hz & ->).
    intros ->%(ord_inj d z y Hw (region_node z Hz) Hy). done.
  - rewrite (d1_in y), (d1_out x) by done. destruct (ro_pos _ _ _ _ _ _ Hro y Hyr) as (z & Hz & ->).
    intros E%(ord_inj d x z Hw Hx (region_node z Hz)). congruence.
  - rewrite !d1_out by done. by apply ord_inj.
Qed.

Local Lemma d1_bound x : node d x -> (ord_of d1 x < N.of_nat (length (nodes d)))%N.
Proof.
  assert (Hb : forall z, node d z -> (ord_of d z < N.of_nat (length (nodes d)))%N).
  { intros z Hz. pose proof (wf_ord_bound d Hw) as Hb. rewrite Forall_lookup in Hb.
    exact (Hb _ _ (ord_at d z Hw Hz)). }
  intros Hx. destruct (decide (x ∈ dm ++ dp)) as [Hxr|Hxr]; [|rewrite d1_out; auto].
  rewrite d1_in by done. destruct (ro_pos _ _ _ _ _ _ Hro x Hxr) as (z & Hz & ->). apply Hb. by apply region_node.
Qed.

Local Lemma d1_wf : wf d1.
Proof.
  split; try apply Hw; simpl.
  - rewrite (ro_len _ _ _ _ _ _ Hro). apply Hw.
  - apply NoDup_alt. intros i j v Ei Ej. destruct (d1_lookup _ _ Ei) as [Hi E1], (d1_lookup _ _ Ej) as [Hj E2].
    rewrite <-E2 in E1. apply d1_inj in E1; [lia|done..].
  - apply Forall_lookup. intros i v Ei. destruct (d1_lookup _ _ Ei) as [Hi <-]. by apply d1_bound.
  - apply d1_topo.
Qed.
End new_order.

Lemma reorder_wf : exists ords, reorder dm dp (ord d) = Some ords /\
  wf (mkDag (nodes d) (succ d) (pred d) ords (index_of d) (edges d)) /\
  (ord_of (mkDag (nodes d) (succ d) (pred d) ords (index_of d) (edges d)) f <
   ord_of (mkDag (nodes d) (succ d) (pred d) ords (index_of d) (edges d)) t)%N.
Proof.
  destruct (reorder_spec dm dp (ord d) (ord_of d)) as (ords' & o' & E & Hro).
  - apply region_nodup.
  - intros x Hx. apply ord_at; [done|]. by apply region_node.
  - intros x y Hx Hy. apply ord_inj; [done|by apply region_node..].
  - exists ords'. split_and!; [done|by eapply d1_wf|].
    assert (Hfm : f ∈ dm) by by apply dm_iff. assert (Htp : t ∈ dp) by by apply dp_iff.
    pose proof (d1_in ords' o' Hro) as Hin. unfold d1 in Hin. rewrite !Hin by set_solver.
    by apply (ro_cross _ _ _ _ _ _ Hro).
Qed.
End region.
End insert_edge.

(** Pairwise different and in range, the order numbers the nodes. *)
Lemma wf_ord_perm d : wf d -> ord d ≡ₚ N.of_nat <$> seq 0 (length (nodes d)).
Proof.
  intros Hw. apply submseteq_length_Permutation.
  - apply NoDup_submseteq; [apply (wf_ord_nodup d Hw)|]. intros x Hx.
    pose proof (wf_ord_bound d Hw) as Hb. rewrite Forall_forall in Hb. specialize (Hb x Hx).
    apply list_elem_of_fmap. exists (N.to_nat x). rewrite elem_of_seq. split; lia.
  - rewrite length_fmap, length_seq, (wf_ord_len d Hw). done.
Qed.

(** ** What [add_dep] promises *)

(** The graph on addresses. *)
Definition dep (d : DepDag) (a b : arc) : Prop :=
  exists i j, index_of d !! a = Some i /\ index_of d !! b = Some j /\ arc_in d i j.

(** The specification: a set of edges, and an offered edge is refused exactly
    when its target already reaches its source. *)
Inductive spec_add (E : relation arc) (from to : arc) : result CycleError unit -> relation arc -> Prop :=
| spec_commit : ~ rtc E to from -> spec_add E from to (Ok tt) (fun a b => E a b \/ a = from /\ b = to)
| spec_refuse : rtc E to from -> spec_add E from to (Err (mkCycle from to)) E.

(** The graph represents a set of edges. *)
Definition represents (d : DepDag) (E : relation arc) : Prop := wf d /\ forall a b, dep d a b <-> E a b.

Lemma dep_arc d a b i j : wf d -> index_of d !! a = Some i -> index_of d !! b = Some j ->
  dep d a b <-> arc_in d i j.
Proof. intros Hw Ea Eb. split; [intros (i' & j' & ? & ? & ?); by simplify_eq|by exists i, j]. Qed.

Lemma rtc_dep_arc d a b i j : wf d -> index_of d !! a = Some i -> index_of d !! b = Some j ->
  rtc (dep d) a b <-> rtc (arc_in d) i j.
Proof.
  intros Hw Ea Eb. split.
  - intros Hr. revert i Ea. induction Hr as [a|a c b (i' & k & Ei & Ek & Ha) _ IH]; intros i Ea; [by simplify_eq|].
    rewrite Ei in Ea. simplify_eq. by apply (rtc_l _ _ k), IH.
  - intros Hr. revert a Ea. induction Hr as [i|i k j Ha _ IH]; intros a Ea.
    { by rewrite (index_inj d a b i). }
    destruct (lookup_lt_is_Some_2 (nodes d) (N.to_nat k)) as [c Ec]; [by apply (arc_in_node d i k)|].
    apply (wf_index d Hw) in Ec. apply (rtc_l _ _ c); [by exists i, k|by apply IH].
Qed.

(** A well-formed graph has no cycle. *)
Lemma wf_acyclic d a : wf d -> ~ tc (dep d) a a.
Proof.
  intros Hw Hc. assert (Hi : exists i, index_of d !! a = Some i).
  { inversion Hc as [? ? (i & _ & ? & _)|? ? ? (i & _ & ? & _)]; by exists i. }
  destruct Hi as [i Ei].
  inversion Hc as [? ? (i' & j' & E1 & E2 & Ha)|? b ? (i' & k & E1 & Ek & Ha) Hr]; clear Hc; simplify_eq.
  - apply (wf_topo d Hw) in Ha. lia.
  - apply tc_rtc in Hr. apply (rtc_dep_arc d b a k i Hw Ek Ei) in Hr.
    apply (wf_topo d Hw) in Ha. destruct (path_ord d k i Hw Hr) as [->|]; lia.
Qed.

Lemma place_edge_spec d f t : wf d -> node d f -> node d t -> f <> t -> ~ arc_in d f t ->
  (place_edge f t d = Some None /\ rtc (arc_in d) t f) \/
  (exists d', place_edge f t d = Some (Some d') /\ ~ rtc (arc_in d) t f /\ wf d' /\
     nodes d' = nodes d /\ index_of d' = index_of d /\
     (forall x y, arc_in d' x y <-> arc_in d x y \/ x = f /\ y = t)).
Proof.
  intros Hw Hf Ht Hne Hno. unfold place_edge. rewrite !ord_at by done. cbn [mbind option_bind].
  destruct (ord_of d f <? ord_of d t)%N eqn:Elt; bool_simpl.
  - right. destruct (commit_edge_spec d f t) as (d' & -> & Hw' & Hn & Hi & Ha); [done..|].
    exists d'. split_and!; try done. intros Hr. destruct (path_ord d t f Hw Hr) as [->|]; [done|lia].
  - destruct (forward_exact d Hw f t Ht Hne Elt) as [[-> Hr]|(dp & -> & Hnr & Hnp & _ & Hp)]; cbn [mbind option_bind].
    { left. done. }
    right. destruct (backward_exact d Hw f t Hf Hne Elt) as (dm & -> & Hnm & _ & Hm). cbn [mbind option_bind].
    destruct (reorder_wf d Hw f t Hf Ht Hne Elt dm dp Hnr Hnm Hnp Hm Hp) as (ords & -> & Hw1 & Hlt).
    cbn [mbind option_bind].
    destruct (commit_edge_spec _ f t Hw1) as (d' & -> & Hw' & Hn & Hi & Ha); [done..|].
    exists d'. split_and!; done.
Qed.

Lemma rtc_iff {A} (R R' : relation A) x y : (forall a b, R a b <-> R' a b) -> rtc R x y <-> rtc R' x y.
Proof. intros H. split; apply rtc_subrel; intros a b; by apply H. Qed.

Lemma dep_weaken d d' a b : (forall c i, index_of d !! c = Some i -> index_of d' !! c = Some i) ->
  (forall x y, arc_in d x y -> arc_in d' x y) -> dep d a b -> dep d' a b.
Proof. intros Hi Ha (i & j & ? & ? & ?). exists i, j. auto. Qed.

(** Nodes added without edges change no dependency. *)
Lemma dep_grow d d' : wf d -> wf d' -> (forall c i, index_of d !! c = Some i -> index_of d' !! c = Some i) ->
  (forall x y, arc_in d' x y <-> arc_in d x y) -> forall a b, dep d' a b <-> dep d a b.
Proof.
  intros Hw Hw' Hi Ha a b. split; [|apply dep_weaken; [done|by intros; apply Ha]].
  intros (i & j & Ei & Ej & Hij). apply Ha in Hij. pose proof (arc_in_node d i j Hw Hij) as [Hni Hnj].
  destruct (lookup_lt_is_Some_2 _ _ Hni) as [a' Ea], (lookup_lt_is_Some_2 _ _ Hnj) as [b' Eb].
  apply (wf_index d Hw) in Ea, Eb.
  assert (a' = a) as -> by (eapply index_inj; [exact Hw'|by apply Hi|done]).
  assert (b' = b) as -> by (eapply index_inj; [exact Hw'|by apply Hi|done]).
  by exists i, j.
Qed.

Lemma add_dep_spec d E from to : represents d E ->
  (N.of_nat (length (nodes d)) + 1 < 4294967296)%N ->
  exists r d' E', add_dep from to d = Some (r, d') /\ spec_add E from to r E' /\ represents d' E' /\
    length (nodes d') <= length (nodes d) + 2.
Proof.
  intros [Hw HE] Hroom. unfold add_dep.
  destruct (get_or_insert_spec from d) as (f & d1 & -> & Hw1 & Hf1 & Hi1 & Ha1 & Hn1); [done|lia|].
  destruct (get_or_insert_spec to d1) as (t & d2 & -> & Hw2 & Ht & Hi2 & Ha2 & Hn2); [done|lia|].
  pose proof (Hi2 _ _ Hf1) as Hf.
  assert (HE2 : forall a b, dep d2 a b <-> E a b).
  { intros a b. rewrite <-HE. apply (dep_grow d d2); [done|done|auto|].
    intros x y. by rewrite Ha2, Ha1. }
  assert (Hreach : rtc E to from <-> rtc (arc_in d2) t f).
  { rewrite <-(rtc_iff _ _ to from HE2). by apply rtc_dep_arc. }
  pose proof (index_node _ _ _ Hw2 Hf) as Hnf. pose proof (index_node _ _ _ Hw2 Ht) as Hnt.
  case_decide as Hft; [|case_decide as Hedge].
  - eexists _, _, E. split_and!; [done| |done|lia]. apply spec_refuse.
    subst. by rewrite (index_inj d2 from to t).
  - apply edges_arc in Hedge; [|done|done].
    eexists _, d2, _. split_and!; [done| | |lia].
    + apply spec_commit. rewrite Hreach. intros Hr. apply (wf_topo d2 Hw2) in Hedge.
      destruct (path_ord d2 t f Hw2 Hr) as [->|]; lia.
    + split; [done|]. intros a b. rewrite HE2. split; [by left|]. intros [?|[-> ->]]; [done|].
      apply HE2. by exists f, t.
  - rewrite edges_arc in Hedge by done.
    destruct (place_edge_spec d2 f t) as [[-> Hr]|(d3 & -> & Hnr & Hw3 & Hnd & Hi3 & Ha3)]; [done..| |]; cbn [mbind option_bind].
    + eexists _, _, E. split_and!; [done| |done|lia]. apply spec_refuse. by apply Hreach.
    + eexists _, d3, _. split_and!; [done|apply spec_commit; by rewrite Hreach| |rewrite Hnd; lia].
      split; [done|]. intros a b. rewrite <-HE2. unfold dep. rewrite Hi3. setoid_rewrite Ha3. split.
      * intros (i & j & Ei & Ej & [Ha|[-> ->]]); [left; by exists i, j|right].
        split; by eapply (index_inj d2).
      * intros [(i & j & ? & ? & ?)|[-> ->]]; [exists i, j; auto|exists f, t; auto].
Qed.

(** C3: offering an edge to a well-formed graph of fewer than 2^32 - 1 nodes
    always answers, never out of fuel and never by a panic, and does what the
    specification says: the edge is refused, and the set of edges unchanged,
    exactly when its target already reaches its source or is the source; and
    otherwise committed. The graph stays well-formed, so its adjacency lists and
    its edge index agree and its order is topological, and the set acyclic. *)
Theorem add_dep_refines d E from to : represents d E ->
  (N.of_nat (length (nodes d)) + 1 < 4294967296)%N ->
  exists r d' E', add_dep from to d = Some (r, d') /\ spec_add E from to r E' /\ represents d' E' /\
    (forall a, ~ tc E' a a) /\ ord d' ≡ₚ N.of_nat <$> seq 0 (length (nodes d')).
Proof.
  intros Hr Hroom. destruct (add_dep_spec d E from to Hr Hroom) as (r & d' & E' & Ea & Hs & [Hw HE] & _).
  exists r, d', E'. split_and!; [done..| |by apply wf_ord_perm]. intros a Hc. apply (wf_acyclic d' a Hw).
  eapply (tc_congruence id); [|exact Hc]. intros x y ?. by apply HE.
Qed.

(** ** Witness *)

Lemma represents_new : represents dag_new (fun _ _ => False).
Proof. split; [apply wf_new|]. intros a b. split; [|done]. by intros (i & j & E & _). Qed.

Lemma add_dep_refines_witness :
  exists r d' E', add_dep 7 9 dag_new = Some (r, d') /\ spec_add (fun _ _ => False) 7%N 9%N r E' /\
    represents d' E' /\ (forall a, ~ tc E' a a) /\ ord d' ≡ₚ N.of_nat <$> seq 0 (length (nodes d')).
Proof. apply (add_dep_refines dag_new _ 7%N 9%N represents_new). vm_compute. reflexivity. Defined.

(** Three edges, the last of which goes down in the order of arrival, and a
    fourth that closes a cycle. *)
Definition offer_all (l : list (arc * arc)) : option (list bool * DepDag) :=
  foldl (fun acc '(f, t) =>
    '(rs, d) ← acc; '(r, d) ← add_dep f t d; Some (rs ++ [is_ok r], d)) (Some ([], dag_new)) l.

Example offer_all_reorders :
  (fun '(rs, d) => (rs, ord d)) <$> offer_all [(1, 2); (3, 4); (4, 1); (2, 3)]%N =
  Some ([true; true; true; false], [2; 3; 0; 1]%N).
Proof. vm_compute. reflexivity. Qed.
