(* ===== verification/RequestState.v ===== *)
(** A request's states: [RequestState] and [RequestStateData] of
    [crates/engine/src/engine/request_state.rs].

    A request is one shared [RequestStateData] and a tree of states forked from
    its root with [with_parent], [with_skip_provider] and [speculative]. Every
    dependency a state discovers goes through [track_dep]: a speculative state
    walks its own breadcrumbs and records nothing, an ordinary one offers the edge
    to the shared [DepDag], unless its own [tracked] set already holds it. The
    step relation interleaves the operations of all states of a request;
    [track_dep] holds its state's [tracked] lock across the lock of the graph, so
    it is one step.

    The theorems: whatever the states, the forks and the interleaving, the answers
    are those of the specification of the graph, so the [tracked] shortcut and
    the speculative forks leave no trace; and the counter of live speculative
    states does not count them. *)
From S2P Require Import Prelude HtIntern Sorts DepDag.

(** *** Shared data *)

(** A post-write trim held back until the request is gone. *)
Record PendingTrim := mkTrim { t_keep : N; t_hashin : str }.

Section request.
(** What a failing target leaves behind, and the selection of a forced run. *)
Context {Failure Sel : Type}.

(** The fields with state of their own; the memoizers are [TaskCell]. *)
Record RequestData := mkData {
  dep_dag : DepDag;
  speculative_live : N;
  frozen : bool;
  workers_announced : bool;
  matched_announced : bool;
  (** An [IndexMap]: the order of insertion. *)
  failures : list (arc * Failure);
  hash_only : bool;
  selection : option Sel;
  trims : gmap arc PendingTrim;
  suppressed : bool;
}.

Definition data_new (hash_only : bool) : RequestData :=
  mkData dag_new 0 false false false [] hash_only None ∅ false.

Record RState := mkState {
  rs_parent : option arc;
  skip_providers : gset str;
  (** The chain of [Crumb]s, the innermost first. *)
  crumbs : list arc;
  speculative : bool;
  tracked : gset arc;
}.

Definition state_new : RState := mkState None ∅ [] false ∅.

Definition with_parent (parent : arc) (s : RState) : RState :=
  mkState (Some parent) (skip_providers s) (parent :: crumbs s) (speculative s) ∅.

Definition with_skip_provider (name : str) (s : RState) : RState :=
  mkState (rs_parent s) ({[name]} ∪ skip_providers s) (crumbs s) (speculative s) ∅.

Definition with_live (f : N -> N) (d : RequestData) : RequestData :=
  mkData (dep_dag d) (f (speculative_live d)) (frozen d) (workers_announced d) (matched_announced d)
    (failures d) (hash_only d) (selection d) (trims d) (suppressed d).
Definition with_dag (g : DepDag) (d : RequestData) : RequestData :=
  mkData g (speculative_live d) (frozen d) (workers_announced d) (matched_announced d)
    (failures d) (hash_only d) (selection d) (trims d) (suppressed d).

(** [AtomicUsize::fetch_add(1)] and [fetch_sub(1)] wrap around. *)
Definition count_up (n : N) : N := wrapping_add n 1.
Definition count_down (n : N) : N := wrapping_add n u64_max.

Definition fork_speculative (s : RState) (d : RequestData) : RState * RequestData :=
  (mkState (rs_parent s) (skip_providers s) (crumbs s) true ∅, with_live count_up d).

(** [Drop for RequestState]. *)
Definition drop_state (s : RState) (d : RequestData) : RequestData :=
  if speculative s then with_live count_down d else d.

(** [Engine::new_hash_only_state]. *)
Definition new_hash_only_state (parent : arc) : RState * RequestData :=
  (with_parent parent state_new, data_new true).

(** *** Dependencies *)

(** The walk over the breadcrumbs. *)
Fixpoint crumb_cycle (addr : arc) (cs : list arc) : result CycleError unit :=
  match cs with
  | [] => Ok tt
  | c :: cs => if decide (c = addr) then Err (mkCycle c addr) else crumb_cycle addr cs
  end.

Definition track_dep (addr : arc) (s : RState) (d : RequestData)
    : option (result CycleError unit * RState * RequestData) :=
  if speculative s then Some (crumb_cycle addr (crumbs s), s, d)
  else
    match rs_parent s with
    | Some parent =>
        if decide (addr ∈ tracked s) then Some (Ok tt, s, d)
        else
          '(r, g) ← add_dep parent addr (dep_dag d);
          match r with
          | Err e => Some (Err e, s, with_dag g d)
          | Ok _ =>
              Some (Ok tt,
                mkState (rs_parent s) (skip_providers s) (crumbs s) (speculative s) ({[addr]} ∪ tracked s),
                with_dag g d)
          end
    | None => Some (Ok tt, s, d)
    end.

(** *** Flags, failures, selection *)

(** [AtomicBool::swap(true)]: who comes first. *)
Definition claim_matched_stream (d : RequestData) : bool * RequestData :=
  (negb (matched_announced d),
   mkData (dep_dag d) (speculative_live d) (frozen d) (workers_announced d) true
     (failures d) (hash_only d) (selection d) (trims d) (suppressed d)).

(** Whether the announcement is emitted. *)
Definition announce_request_config (d : RequestData) : bool * RequestData :=
  (negb (workers_announced d),
   mkData (dep_dag d) (speculative_live d) (frozen d) true (matched_announced d)
     (failures d) (hash_only d) (selection d) (trims d) (suppressed d)).

Definition set_frozen (b : bool) (d : RequestData) : RequestData :=
  mkData (dep_dag d) (speculative_live d) b (workers_announced d) (matched_announced d)
    (failures d) (hash_only d) (selection d) (trims d) (suppressed d).

Definition with_failures (fs : list (arc * Failure)) (d : RequestData) : RequestData :=
  mkData (dep_dag d) (speculative_live d) (frozen d) (workers_announced d) (matched_announced d)
    fs (hash_only d) (selection d) (trims d) (suppressed d).

Fixpoint index_get (addr : arc) (fs : list (arc * Failure)) : option Failure :=
  match fs with
  | [] => None
  | (a, f) :: fs => if decide (a = addr) then Some f else index_get addr fs
  end.

(** [entry(addr).or_insert(failure)]. *)
Definition record_failure (addr : arc) (failure : Failure) (d : RequestData) : RequestData :=
  match index_get addr (failures d) with
  | Some _ => d
  | None => with_failures (failures d ++ [(addr, failure)]) d
  end.

Definition take_failures (d : RequestData) : list Failure * RequestData :=
  (snd <$> failures d, with_failures [] d).
Definition get_failure (addr : arc) (d : RequestData) : option Failure := index_get addr (failures d).
Definition first_failure (d : RequestData) : option Failure := snd <$> head (failures d).

(** [OnceLock::set]: the first one stays. *)
Definition install_selection (sel : Sel) (d : RequestData) : RequestData :=
  if hash_only d then d
  else
    match selection d with
    | Some _ => d
    | None =>
        mkData (dep_dag d) (speculative_live d) (frozen d) (workers_announced d) (matched_announced d)
          (failures d) (hash_only d) (Some sel) (trims d) (suppressed d)
    end.

(** *** Deferred trims *)

Definition with_trims (t : gmap arc PendingTrim) (b : bool) (d : RequestData) : RequestData :=
  mkData (dep_dag d) (speculative_live d) (frozen d) (workers_announced d) (matched_announced d)
    (failures d) (hash_only d) (selection d) t b.

(** [DeferredTrims::push]. *)
Definition push_trim (addr : arc) (keep : N) (hashin : str) (d : RequestData) : RequestData :=
  if suppressed d then d
  else with_trims (<[addr := mkTrim keep hashin]> (trims d)) (suppressed d) d.

(** In a build without debug assertions. *)
Definition defer_trim (addr : arc) (keep : N) (hashin : str) (d : RequestData) : RequestData :=
  if hash_only d then d else push_trim addr keep hashin d.

Definition suppress_deferred_trims (d : RequestData) : RequestData := with_trims (trims d) true d.

(** [Drop for DeferredTrims]: the batch that is submitted, when there is one and
    the engine is still there. *)
Definition drain_trims (engine_alive : bool) (d : RequestData) : option (list (arc * N * str)) :=
  match map_to_list (trims d) with
  | [] => None
  | l => if engine_alive then Some ((fun '(a, t) => (a, t_keep t, t_hashin t)) <$> l) else None
  end.
End request.
Arguments RequestData : clear implicits.

(** ** The interleavings of a request *)

Section executions.
Context {Failure Sel : Type}.
Abbreviation Data := (RequestData Failure Sel).

(** The operations on the shared data that touch neither the graph nor the
    states. *)
Inductive data_op : Data -> Data -> Prop :=
| op_claim d : data_op d (claim_matched_stream d).2
| op_announce d : data_op d (announce_request_config d).2
| op_frozen b d : data_op d (set_frozen b d)
| op_failure a f d : data_op d (record_failure a f d)
| op_take d : data_op d (take_failures d).2
| op_select s d : data_op d (install_selection s d)
| op_trim a k h d : data_op d (defer_trim a k h d)
| op_suppress d : data_op d (suppress_deferred_trims d).

(** The shared data and the live states, each behind an [Arc]. *)
Record world := mkWorld { data : Data; states : gmap N RState }.

(** An edge offered by an ordinary state, and the answer. *)
Record offer := mkOffer { o_parent : arc; o_addr : arc; o_answer : result CycleError unit }.

(** One step, and the offer it made, if any. *)
Inductive step : world -> option offer -> world -> Prop :=
| step_data d d' ss : data_op d d' -> step (mkWorld d ss) None (mkWorld d' ss)
| step_parent d ss i s j p : ss !! i = Some s -> ss !! j = None ->
    step (mkWorld d ss) None (mkWorld d (<[j := with_parent p s]> ss))
| step_skip d ss i s j n : ss !! i = Some s -> ss !! j = None ->
    step (mkWorld d ss) None (mkWorld d (<[j := with_skip_provider n s]> ss))
| step_speculative d ss i s j : ss !! i = Some s -> ss !! j = None ->
    step (mkWorld d ss) None
      (mkWorld (fork_speculative s d).2 (<[j := (fork_speculative s d).1]> ss))
| step_drop d ss i s : ss !! i = Some s ->
    step (mkWorld d ss) None (mkWorld (drop_state s d) (delete i ss))
| step_track d ss i s a r s' d' : ss !! i = Some s -> track_dep a s d = Some (r, s', d') ->
    step (mkWorld d ss)
      (match rs_parent s with
       | Some p => if speculative s then None else Some (mkOffer p a r)
       | None => None
       end)
      (mkWorld d' (<[i := s']> ss)).

(** Executions from a new request, with the number of steps and the offers made. *)
Inductive reach (hash_only : bool) : nat -> list offer -> world -> Prop :=
| reach_init i : reach hash_only 0 [] (mkWorld (data_new hash_only) {[i := state_new]})
| reach_step n h w o w' : reach hash_only n h w -> step w o w' -> reach hash_only (S n) (h ++ option_list o) w'.

(** ** Refinement of the graph's specification *)

(** The offers, answered one after the other by the specification. *)
Inductive spec_run : list offer -> relation arc -> Prop :=
| spec_run_nil : spec_run [] (fun _ _ => False)
| spec_run_snoc h E o E' : spec_run h E -> spec_add E (o_parent o) (o_addr o) (o_answer o) E' ->
    spec_run (h ++ [o]) E'.

(** What a state remembers was committed from it. *)
Definition tracked_ok (E : relation arc) (s : RState) : Prop :=
  forall a, a ∈ tracked s -> exists p, rs_parent s = Some p /\ E p a.

(** Every edge of the graph was accepted, so none closes a cycle. *)
Lemma edge_no_return d E p a : represents d E -> E p a -> ~ rtc E a p.
Proof.
  intros [Hw HE] He Hr. apply (wf_acyclic d p Hw). apply (rtc_iff _ _ _ _ HE) in Hr.
  eapply tc_rtc_r; [apply tc_once; by apply HE|done].
Qed.

(** An edge offered again is accepted and changes nothing. *)
Lemma spec_add_again d E p a : represents d E -> E p a ->
  spec_add E p a (Ok tt) (fun x y => E x y \/ x = p /\ y = a).
Proof. intros Hr He. apply spec_commit. by eapply edge_no_return. Qed.

Lemma represents_iff d E E' : represents d E -> (forall x y, E x y <-> E' x y) -> represents d E'.
Proof. intros [Hw HE] H. split; [done|]. intros x y. by rewrite HE. Qed.

(** An ordinary state with a parent answers as the specification does, from its
    [tracked] set or not. *)
Lemma track_dep_spec a s p (d : Data) E : represents (dep_dag d) E -> tracked_ok E s ->
  speculative s = false -> rs_parent s = Some p ->
  (N.of_nat (length (nodes (dep_dag d))) + 1 < 4294967296)%N ->
  exists r s' d' E', track_dep a s d = Some (r, s', d') /\ spec_add E p a r E' /\
    represents (dep_dag d') E' /\ tracked_ok E' s' /\ (forall x y, E x y -> E' x y) /\
    speculative_live d' = speculative_live d /\ speculative s' = speculative s /\
    length (nodes (dep_dag d')) <= length (nodes (dep_dag d)) + 2.
Proof.
  intros Hr Ht Hs Hp Hroom. unfold track_dep. rewrite Hs, Hp. case_decide as Hin.
  - destruct (Ht a Hin) as (p' & E1 & He). rewrite Hp in E1. simplify_eq.
    eexists _, s, d, _. split_and!; [done|by eapply spec_add_again|..|by left|done|done|lia].
    + eapply represents_iff; [exact Hr|]. naive_solver.
    + intros b Hb. destruct (Ht b Hb) as (p & ? & ?). exists p. auto.
  - destruct (add_dep_spec (dep_dag d) E p a Hr Hroom) as (r & g & E' & -> & Hsp & Hr' & Hn).
    cbn [mbind option_bind]. assert (Hmono : forall x y, E x y -> E' x y) by (intros; destruct Hsp; auto).
    assert (Ht' : tracked_ok E' s) by (intros b Hb; destruct (Ht b Hb) as (? & ? & ?); eauto).
    destruct r as [[]|e]; (eexists _, _, _, E'; split_and!; [done|done|done| |done|done|done|done]); [|done].
    intros b [->%elem_of_singleton|Hb]%elem_of_union; [|destruct (Ht' b Hb) as (p' & ? & ?); exists p'; simpl; split; [congruence|done]].
    exists p. split; [done|]. inversion Hsp; subst. by right.
Qed.

(** A state that offers nothing leaves the data as it is. *)
Lemma track_dep_silent a s (d : Data) : speculative s = true \/ rs_parent s = None ->
  exists r, track_dep a s d = Some (r, s, d).
Proof.
  unfold track_dep. intros [->|Hp]; [by eexists|]. destruct (speculative s); [by eexists|]. rewrite Hp. by eexists.
Qed.

Lemma data_op_same d d' : data_op d d' ->
  dep_dag d' = dep_dag d /\ speculative_live d' = speculative_live d /\ hash_only d' = hash_only d.
Proof.
  destruct 1; simpl; try done; unfold record_failure, install_selection, defer_trim, push_trim.
  - by destruct (index_get a (failures d)).
  - by destruct (hash_only d) eqn:?, (selection d).
  - by destruct (hash_only d) eqn:?, (suppressed d).
Qed.

Lemma drop_state_dag s (d : Data) : dep_dag (drop_state s d) = dep_dag d.
Proof. unfold drop_state. by destruct (speculative s). Qed.

Lemma tracked_ok_empty E s : tracked s = ∅ -> tracked_ok E s.
Proof. intros H a. rewrite H. set_solver. Qed.

Lemma request_reach_inv ho n h w : reach ho n h w -> (2 * N.of_nat n < 4294967296)%N ->
  exists E, spec_run h E /\ represents (dep_dag (data w)) E /\ map_Forall (fun _ => tracked_ok E) (states w) /\
    length (nodes (dep_dag (data w))) <= 2 * n.
Proof.
  induction 1 as [i|n h w o w' Hr IH Hs]; intros Hn.
  - exists (fun _ _ => False). split_and!; [constructor| | |done].
    + apply represents_new.
    + apply map_Forall_singleton. by apply tracked_ok_empty.
  - destruct IH as (E & Hrun & Hrep & Htr & Hlen); [lia|].
    assert (Hsame : forall (d' : Data) (ss' : gmap N RState), dep_dag d' = dep_dag (data w) -> map_Forall (fun _ => tracked_ok E) ss' ->
      exists E, spec_run (h ++ []) E /\ represents (dep_dag d') E /\
        map_Forall (fun _ => tracked_ok E) ss' /\ length (nodes (dep_dag d')) <= 2 * S n).
    { intros d' ss' Ed Hss. exists E. rewrite app_nil_r, Ed. split_and!; [done..|lia]. }
    destruct Hs as [d d' ss Hop|d ss i s j p Hi Hj|d ss i s j nm Hi Hj|d ss i s j Hi Hj|d ss i s Hi|d ss i s a r s' d' Hi Ht];
      simpl in *.
    + apply Hsame; [by destruct (data_op_same d d' Hop)|done].
    + apply Hsame; [done|]. apply map_Forall_insert_2; [by apply tracked_ok_empty|done].
    + apply Hsame; [done|]. apply map_Forall_insert_2; [by apply tracked_ok_empty|done].
    + apply Hsame; [done|]. apply map_Forall_insert_2; [by apply tracked_ok_empty|done].
    + apply Hsame; [apply drop_state_dag|]. by apply map_Forall_delete.
    + destruct (rs_parent s) as [p|] eqn:Ep; [destruct (speculative s) eqn:Es|].
      * destruct (track_dep_silent a s d (or_introl Es)) as [r' E']. rewrite Ht in E'. simplify_eq.
        apply Hsame; [done|]. by rewrite insert_id.
      * destruct (track_dep_spec a s p d E Hrep (Htr i s Hi) Es Ep) as
          (r' & s1 & d1 & E' & Et & Hsp & Hrep' & Hok & Hmono & _ & _ & Hl); [lia|].
        rewrite Ht in Et. simplify_eq. exists E'. split_and!; [by econstructor|done| |lia].
        apply map_Forall_insert_2; [done|]. intros j s2 Ej b Hb. destruct (Htr j s2 Ej b Hb) as (p2 & ? & ?). eauto.
      * destruct (track_dep_silent a s d (or_intror Ep)) as [r' E']. rewrite Ht in E'. simplify_eq.
        apply Hsame; [done|]. by rewrite insert_id.
Qed.

(** C31: whatever the states of a request and however their operations
    interleave, the offers they make are answered as the specification of the
    graph answers them in that order, so nothing a speculative fork inspects and
    no answer from a [tracked] set is visible; the graph holds exactly the
    accepted edges and no cycle, and the next offer is answered too. *)
Theorem request_refines_graph ho n h w : reach ho n h w -> (2 * N.of_nat n + 1 < 4294967296)%N ->
  (exists E, spec_run h E /\ (forall a b, dep (dep_dag (data w)) a b <-> E a b)) /\
  (forall a, ~ tc (dep (dep_dag (data w))) a a) /\
  (forall i s a, states w !! i = Some s -> exists r s' d', track_dep a s (data w) = Some (r, s', d')).
Proof.
  intros Hr Hn. destruct (request_reach_inv ho n h w Hr) as (E & Hrun & [Hw HE] & Htr & Hlen); [lia|]. split_and!.
  - by exists E.
  - intros a. by apply wf_acyclic.
  - intros i s a Hi. destruct (rs_parent s) as [p|] eqn:Ep; [destruct (speculative s) eqn:Es|].
    + destruct (track_dep_silent a s (data w) (or_introl Es)) as [r' ?]. eauto.
    + destruct (track_dep_spec a s p (data w) E (conj Hw HE) (Htr i s Hi) Es Ep) as (r & s' & d' & _ & ? & _); [lia|]. eauto.
    + destruct (track_dep_silent a s (data w) (or_intror Ep)) as [r' ?]. eauto.
Qed.
End executions.

(** ** Speculative states *)

(** The breadcrumbs of a state and its parent. *)
Lemma reach_crumbs {Failure Sel} ho n h (w : @world Failure Sel) : reach ho n h w ->
  map_Forall (fun _ s => rs_parent s = head (crumbs s)) (states w).
Proof.
  induction 1 as [i|n h w o w' Hr IH Hs]; [by apply map_Forall_singleton|].
  destruct Hs as [d d' ss Hop|d ss i s j p Hi Hj|d ss i s j nm Hi Hj|d ss i s j Hi Hj|d ss i s Hi|d ss i s a r s' d' Hi Ht];
    simpl in *; try done.
  - apply map_Forall_insert_2; [done|done].
  - apply map_Forall_insert_2; [exact (IH i s Hi)|done].
  - apply map_Forall_insert_2; [exact (IH i s Hi)|done].
  - by apply map_Forall_delete.
  - apply map_Forall_insert_2; [|done]. unfold track_dep in Ht. specialize (IH i s Hi). simpl in IH.
    destruct (speculative s); [by simplify_eq|]. destruct (rs_parent s) eqn:Ep; [|simplify_eq; congruence].
    case_decide; [simplify_eq; congruence|].
    destruct (add_dep _ _ _) as [[[]]|]; simplify_eq/=; congruence.
Qed.

(** A speculative state refuses exactly its ancestors and leaves no trace. *)
Lemma track_dep_speculative {Failure Sel} a s (d : RequestData Failure Sel) : speculative s = true ->
  exists r, track_dep a s d = Some (r, s, d) /\ (is_ok r = false <-> a ∈ crumbs s).
Proof.
  intros E. unfold track_dep. rewrite E. eexists. split; [done|]. clear. induction (crumbs s) as [|c cs IH]; simpl.
  - split; [done|]. set_solver.
  - case_decide as H; simpl; [split; [set_solver|done]|]. rewrite IH. set_solver.
Qed.

(** The counter of live speculative states does not count them. Forking a
    speculative state counts up, but a child of one made by [with_parent] is
    speculative too without having been counted, and counts down when it is
    dropped: a request reaches a state where a speculative state is alive and
    the counter is zero, and one where none is and the counter has wrapped
    around. *)
Theorem speculative_live_miscounts (Failure Sel : Type) :
  (exists n h (w : @world Failure Sel) i s, reach false n h w /\ states w !! i = Some s /\
     speculative s = true /\ speculative_live (data w) = 0%N) /\
  (exists n h (w : @world Failure Sel), reach false n h w /\
     map_Forall (fun _ s => speculative s = false) (states w) /\ speculative_live (data w) = u64_max).
Proof.
  pose proof (reach_init (Failure := Failure) (Sel := Sel) false 0%N) as H.
  eapply reach_step in H; [|eapply (step_speculative _ _ 0%N _ 1%N); reflexivity].
  eapply reach_step in H; [|eapply (step_parent _ _ 1%N _ 2%N 7%N); reflexivity].
  eapply reach_step in H; [|eapply (step_drop _ _ 2%N); reflexivity]. split.
  - eexists _, _, _, 1%N, _. split_and!; [exact H|done..].
  - eapply reach_step in H; [|eapply (step_drop _ _ 1%N); reflexivity].
    eexists _, _, _. split_and!; [exact H| |done]. simpl. rewrite delete_insert_id by done.
    apply map_Forall_lookup. intros i s Hi. apply lookup_delete_Some in Hi as [Hn Hi].
    rewrite lookup_insert_ne in Hi by done. apply lookup_singleton_Some in Hi as [_ <-]. done.
Qed.

(** ** Failures *)

Section failures.
Context {Failure Sel : Type}.

Definition record_all (l : list (arc * Failure)) (d : RequestData Failure Sel) : RequestData Failure Sel :=
  foldl (fun d '(a, f) => record_failure a f d) d l.

Lemma index_get_app a (l1 l2 : list (arc * Failure)) :
  index_get a (l1 ++ l2) = match index_get a l1 with Some f => Some f | None => index_get a l2 end.
Proof. induction l1 as [|[b g] l1 IH]; simpl; [done|]. by case_decide. Qed.

(** The first failure recorded for a target stays, and [first_failure] is the
    first of all. *)
Lemma record_all_get a l d :
  get_failure a (record_all l d) =
  match get_failure a d with Some f => Some f | None => index_get a l end.
Proof.
  revert d; induction l as [|[b g] l IH]; intros d; simpl; [by destruct (get_failure a d)|].
  unfold record_all in *. simpl. rewrite IH. unfold get_failure, record_failure.
  destruct (index_get b (failures d)) as [f|] eqn:Eb.
  - case_decide; subst; [by rewrite Eb|done].
  - simpl. rewrite index_get_app. simpl. destruct (index_get a (failures d)); [done|]. by case_decide.
Qed.

(** Each target is reported once. *)
Lemma record_all_once l d : NoDup (failures d).*1 -> NoDup (failures (record_all l d)).*1.
Proof.
  revert d; induction l as [|[b g] l IH]; intros d Hd; [done|]. apply IH. unfold record_failure.
  destruct (index_get b (failures d)) as [f|] eqn:Eb; [done|]. simpl. rewrite fmap_app.
  apply NoDup_app. split_and!; [done| |apply NoDup_singleton]. intros x Hx ->%list_elem_of_singleton.
  clear -Eb Hx. induction (failures d) as [|[c f] fs IHf]; simpl in *; [set_solver|].
  case_decide; [done|]. apply IHf; [done|]. set_solver.
Qed.
End failures.

(** ** Witness *)

Lemma request_refines_graph_witness :
  exists w : @world unit unit, reach false 2 [mkOffer 1 2 (Ok tt)] w /\ forall a, ~ tc (dep (dep_dag (data w))) a a.
Proof.
  pose proof (reach_init (Failure := unit) (Sel := unit) false 0%N) as H.
  eapply reach_step in H; [|eapply (step_parent _ _ 0%N _ 1%N 1%N); reflexivity].
  eapply reach_step in H; [|eapply (step_track _ _ 1%N _ 2%N); [done|vm_compute; reflexivity]].
  eexists. split; [exact H|].
  apply (request_refines_graph false 2 _ _ H). vm_compute. reflexivity.
Defined.
