(* ===== verification/SandboxCleaner.v ===== *)
(** Sandbox directories and their removal: [crates/engine/src/engine/sandbox_cleaner.rs]
    and its use in [execute.rs].

    A target's sandbox is one directory, reused run after run. Each run claims it,
    advancing the generation of its path; it then waits for a stale removal, runs,
    and resolves its teardown: a success enqueues the bridge's cleanup, a failure
    leaves the tree for the diagnostic, a cancellation enqueues a reclaim. The
    removals run on other threads, later, and walk the tree file by file while
    the next run may have claimed the path. Each takes the path's [walk] lock and
    declines when the generation has moved on.

    [step] has one transition per critical section and per file that appears or
    disappears. A removal may fail at any point. The per-address execute lock
    ([ResultLock::lock_execute]) is the guard of [step_claim]: one run of a path
    at a time. The jobs of both queues run in any order, which includes the order
    they really run in. *)
From S2P Require Import Prelude.

(** ** The gate of a path *)

Record PathGate := mkGate { walk : option N; generation : N }.

Abbreviation gates := (gmap str PathGate).

(** [gates.entry(dir).or_default()]. *)
Definition gate_for (dir : str) (gs : gates) : PathGate := default (mkGate None 0) (gs !! dir).

Definition claim (dir : str) (gs : gates) : N * gates :=
  let gate := gate_for dir gs in
  let generation := wrapping_add (generation gate) 1 in
  (generation, <[dir := mkGate (walk gate) generation]> gs).

(** The lock around a walk, taken and released by a job. *)
Definition lock_walk (dir : str) (job : option N) (gs : gates) : gates :=
  <[dir := mkGate job (generation (gate_for dir gs))]> gs.

(** ** Teardown *)

Inductive JobKind := StaleRemoval | BridgeCleanup | Reclaim.

(** What is queued: the kind, and the directory and generation it is guarded by. *)
Record Job := mkJob { j_kind : JobKind; j_dir : str; j_claimed : N }.

Record SandboxTeardown := mkTeardown { td_dir : str; td_generation : N; td_job : bool; armed : bool }.

Definition arm (dir : str) (generation : N) : SandboxTeardown := mkTeardown dir generation false true.
Definition set_job (job : bool) (td : SandboxTeardown) : SandboxTeardown :=
  mkTeardown (td_dir td) (td_generation td) job (armed td).

(** [Drop]: what it enqueues. *)
Definition drop_teardown (td : SandboxTeardown) : option Job :=
  if armed td then Some (mkJob Reclaim (td_dir td) (td_generation td)) else None.

(** [complete] takes the teardown by value, so it drops it disarmed. *)
Definition complete (td : SandboxTeardown) : option Job :=
  let td' := mkTeardown (td_dir td) (td_generation td) false false in
  match (if td_job td then Some (mkJob BridgeCleanup (td_dir td) (td_generation td)) else None) with
  | Some job => Some job
  | None => drop_teardown td'
  end.

Definition leave_for_diagnostics (td : SandboxTeardown) : option Job :=
  drop_teardown (mkTeardown (td_dir td) (td_generation td) false false).

(** The failure path of [execute]. *)
Definition fail_teardown (outputs_are_material : bool) (td : SandboxTeardown) : option Job :=
  if outputs_are_material then complete td else leave_for_diagnostics td.

(** The success path: the bridge's closure is handed over, then completed. *)
Definition succeed_teardown (sandbox_cleanup : bool) (td : SandboxTeardown) : option Job :=
  complete (set_job sandbox_cleanup td).

(** ** Executions *)

(** [Locked] holds the walk lock and has not compared generations yet. *)
Inductive JobState := Queued | Locked | Walking | Finished (ok : bool).

(** A run that claimed its path: it has yet to queue its stale removal, waits for
    it, or writes. *)
Inductive Phase := Claimed | Preparing (job : N) | Running (written : gset N).

Record Exec := mkExec { e_teardown : SandboxTeardown; e_phase : Phase }.

Definition e_dir (e : Exec) : str := td_dir (e_teardown e).
Definition e_gen (e : Exec) : N := td_generation (e_teardown e).

Record world := mkWorld {
  gs : gates;
  (** The files of each sandbox. *)
  disk : gmap str (gset N);
  execs : gmap N Exec;
  jobs : gmap N (Job * JobState);
  (** [bg_pending]: jobs enqueued to a cleaner lane and not finished. *)
  pending : N;
}.

Definition files (dir : str) (w : world) : gset N := default ∅ (disk w !! dir).

(** The job is counted by [bg_pending]: the stale removal runs on the blocking
    pool instead. *)
Definition on_lane (j : Job) : bool := match j_kind j with StaleRemoval => false | _ => true end.

(** [enqueue]: count, then send. *)
Definition enqueue (id : N) (j : option Job) (w : world) : world :=
  match j with
  | Some j => mkWorld (gs w) (disk w) (execs w) (<[id := (j, Queued)]> (jobs w)) (wrapping_add (pending w) 1)
  | None => w
  end.

(** The run is over and its teardown resolved. *)
Definition resolve (i : N) (id : N) (j : option Job) (w : world) : world :=
  enqueue id j (mkWorld (gs w) (disk w) (delete i (execs w)) (jobs w) (pending w)).

Definition set_job_state (id : N) (j : Job) (s : JobState) (w : world) : world :=
  mkWorld (gs w) (disk w) (execs w) (<[id := (j, s)]> (jobs w)) (pending w).

(** The end of [run_if_current]: the lock is released and, on a lane, the counter
    decremented. *)
Definition finish_job (id : N) (j : Job) (ok : bool) (w : world) : world :=
  mkWorld (lock_walk (j_dir j) None (gs w)) (disk w) (execs w) (<[id := (j, Finished ok)]> (jobs w))
    (if on_lane j then wrapping_add (pending w) u64_max else pending w).

Definition with_disk (dir : str) (fs : gset N) (w : world) : world :=
  mkWorld (gs w) (<[dir := fs]> (disk w)) (execs w) (jobs w) (pending w).
Definition with_exec (i : N) (e : Exec) (w : world) : world :=
  mkWorld (gs w) (disk w) (<[i := e]> (execs w)) (jobs w) (pending w).
Definition with_gates (g : gates) (w : world) : world :=
  mkWorld g (disk w) (execs w) (jobs w) (pending w).

Inductive step : world -> world -> Prop :=
(** A run takes the execute lock of its address and claims the path. *)
| step_claim w i dir : execs w !! i = None -> (forall k e, execs w !! k = Some e -> e_dir e <> dir) ->
    step w (with_exec i (mkExec (arm dir (claim dir (gs w)).1) Claimed) (with_gates (claim dir (gs w)).2 w))
(** [SandboxLease::prepare]: the stale removal is queued and awaited. *)
| step_prepare w i e id : execs w !! i = Some e -> e_phase e = Claimed -> jobs w !! id = None ->
    step w (with_exec i (mkExec (e_teardown e) (Preparing id))
      (set_job_state id (mkJob StaleRemoval (e_dir e) (e_gen e)) Queued w))
| step_run w i e id j : execs w !! i = Some e -> e_phase e = Preparing id -> jobs w !! id = Some (j, Finished true) ->
    step w (with_exec i (mkExec (e_teardown e) (Running ∅)) w)
| step_write w i e written f : execs w !! i = Some e -> e_phase e = Running written ->
    step w (with_disk (e_dir e) ({[f]} ∪ files (e_dir e) w)
      (with_exec i (mkExec (e_teardown e) (Running ({[f]} ∪ written))) w))
| step_succeed w i e written cleanup id : execs w !! i = Some e -> e_phase e = Running written -> jobs w !! id = None ->
    step w (resolve i id (succeed_teardown cleanup (e_teardown e)) w)
(** A failed preparation or run. *)
| step_fail w i e material id : execs w !! i = Some e -> jobs w !! id = None ->
    step w (resolve i id (fail_teardown material (e_teardown e)) w)
| step_cancel w i e id : execs w !! i = Some e -> jobs w !! id = None ->
    step w (resolve i id (drop_teardown (e_teardown e)) w)
(** The jobs: take the walk lock, compare generations, remove files, end. *)
| step_lock w id j : jobs w !! id = Some (j, Queued) -> walk (gate_for (j_dir j) (gs w)) = None ->
    step w (set_job_state id j Locked (with_gates (lock_walk (j_dir j) (Some id) (gs w)) w))
| step_current w id j : jobs w !! id = Some (j, Locked) -> generation (gate_for (j_dir j) (gs w)) = j_claimed j ->
    step w (set_job_state id j Walking w)
| step_decline w id j : jobs w !! id = Some (j, Locked) -> generation (gate_for (j_dir j) (gs w)) <> j_claimed j ->
    step w (finish_job id j true w)
| step_unlink w id j f : jobs w !! id = Some (j, Walking) ->
    step w (with_disk (j_dir j) (files (j_dir j) w ∖ {[f]}) w)
| step_removed w id j : jobs w !! id = Some (j, Walking) -> files (j_dir j) w = ∅ ->
    step w (finish_job id j true w)
| step_error w id j : jobs w !! id = Some (j, Walking) ->
    step w (finish_job id j false w).

(** Executions from any content of the disk, with their number of steps. *)
Inductive reach : nat -> world -> Prop :=
| reach_init d : reach 0 (mkWorld ∅ d ∅ ∅ 0)
| reach_step n w w' : reach n w -> step w w' -> reach (S n) w'.

(** ** The invariant *)

Definition gen (dir : str) (w : world) : N := generation (gate_for dir (gs w)).

Definition unfinished (s : JobState) : bool := match s with Finished _ => false | _ => true end.

(** No removal is at work in the directory. *)
Definition quiet (dir : str) (w : world) : Prop :=
  forall id j, jobs w !! id = Some (j, Walking) -> j_dir j <> dir.

(** What holds of a run: it owns the current generation. Before it queues its
    stale removal no job carries that generation; while it waits only that
    removal does, and once the removal has ended nothing walks the directory;
    while it runs the directory holds exactly what it wrote. *)
Definition exec_ok (w : world) (e : Exec) : Prop :=
  e_gen e = gen (e_dir e) w /\
  match e_phase e with
  | Claimed => forall id j s, jobs w !! id = Some (j, s) -> j_dir j = e_dir e -> (j_claimed j < e_gen e)%N
  | Preparing k =>
      exists j s, jobs w !! k = Some (j, s) /\ j_dir j = e_dir e /\ j_claimed j = e_gen e /\
        (forall id j' s', jobs w !! id = Some (j', s') -> j_dir j' = e_dir e -> id <> k -> (j_claimed j' < e_gen e)%N) /\
        (unfinished s = false -> quiet (e_dir e) w) /\ (s = Finished true -> files (e_dir e) w = ∅)
  | Running written =>
      (forall id j s, jobs w !! id = Some (j, s) -> j_dir j = e_dir e ->
         (j_claimed j < e_gen e)%N \/ unfinished s = false) /\
      quiet (e_dir e) w /\ files (e_dir e) w = written
  end.

Record inv (n : nat) (w : world) : Prop := {
  inv_bound : forall dir, (gen dir w <= N.of_nat n)%N;
  inv_one : forall i k e e', execs w !! i = Some e -> execs w !! k = Some e' -> e_dir e = e_dir e' -> i = k;
  inv_claimed : forall id j s, jobs w !! id = Some (j, s) -> (j_claimed j <= gen (j_dir j) w)%N;
  inv_lock : forall id j s, jobs w !! id = Some (j, s) -> s = Locked \/ s = Walking ->
    walk (gate_for (j_dir j) (gs w)) = Some id;
  inv_exec : forall i e, execs w !! i = Some e -> exec_ok w e;
}.

Lemma gate_for_insert dir dir' g gs :
  gate_for dir (<[dir' := g]> gs) = if decide (dir' = dir) then g else gate_for dir gs.
Proof.
  unfold gate_for. case_decide; subst; [by rewrite lookup_insert_eq|by rewrite lookup_insert_ne].
Qed.

Lemma files_with_disk dir dir' fs w :
  files dir (with_disk dir' fs w) = if decide (dir' = dir) then fs else files dir w.
Proof.
  unfold files, with_disk. simpl. case_decide; subst; [by rewrite lookup_insert_eq|by rewrite lookup_insert_ne].
Qed.

Lemma gen_lock_walk dir dir' o w : generation (gate_for dir (lock_walk dir' o (gs w))) = gen dir w.
Proof. unfold gen, lock_walk. rewrite gate_for_insert. by case_decide; subst. Qed.

(** What happens to other directories does not matter. *)
Lemma exec_ok_frame w w' e : exec_ok w e -> gen (e_dir e) w' = gen (e_dir e) w ->
  files (e_dir e) w' = files (e_dir e) w ->
  (forall id j s, j_dir j = e_dir e -> jobs w' !! id = Some (j, s) <-> jobs w !! id = Some (j, s)) ->
  exec_ok w' e.
Proof.
  intros [Hg Hp] Eg Ef Ej. split; [by rewrite Eg|].
  assert (Hq : quiet (e_dir e) w -> quiet (e_dir e) w').
  { intros Hq id j H Hd. apply (Hq id j); [|done]. by apply Ej. }
  destruct (e_phase e) as [|k|wr].
  - intros id j s H Hd. apply (Hp id j s); [|done]. by apply Ej.
  - destruct Hp as (j & s & E1 & E2 & E3 & E4 & E5 & E6). exists j, s.
    split_and!; [by apply Ej|done|done| |auto|by rewrite Ef].
    intros id j' s' H Hd. apply (E4 id j' s'); [|done]. by apply Ej.
  - destruct Hp as (H1 & H2 & H3). split_and!; [|auto|congruence].
    intros id j s H Hd. apply (H1 id j s); [|done]. by apply Ej.
Qed.

(** A job of the run's own generation is the stale removal it waits for. *)
Lemma exec_ok_own w e id j s : exec_ok w e -> jobs w !! id = Some (j, s) -> j_dir j = e_dir e ->
  j_claimed j = e_gen e -> unfinished s = true -> e_phase e = Preparing id.
Proof.
  intros [Hg Hp] Hj Hd Hc Hu. destruct (e_phase e) as [|k|wr].
  - specialize (Hp id j s Hj Hd). lia.
  - destruct Hp as (j' & s' & E1 & E2 & E3 & E4 & _). destruct (decide (id = k)) as [->|Hne]; [done|].
    specialize (E4 id j s Hj Hd Hne). lia.
  - destruct Hp as (H1 & _). destruct (H1 id j s Hj Hd) as [?|?]; [lia|congruence].
Qed.

(** A job moves on: what its new state must respect. *)
Lemma exec_ok_job w w' e id j s1 s2 : exec_ok w e -> jobs w !! id = Some (j, s1) ->
  jobs w' = <[id := (j, s2)]> (jobs w) -> (forall dir, gen dir w' = gen dir w) ->
  (forall dir, files dir w' = files dir w) -> unfinished s1 = true ->
  (s2 = Walking -> j_dir j = e_dir e -> j_claimed j = e_gen e) ->
  (unfinished s2 = false -> j_dir j = e_dir e -> j_claimed j = e_gen e ->
     (forall id' j', id' <> id -> jobs w !! id' = Some (j', Walking) -> j_dir j' <> j_dir j) /\
     (s2 = Finished true -> files (j_dir j) w = ∅)) ->
  exec_ok w' e.
Proof.
  intros He Hj Ej Eg Ef Hu Hw Hf. pose proof He as [Hg Hp].
  destruct (decide (j_dir j = e_dir e)) as [Hd|Hd].
  2: { apply (exec_ok_frame w); [done..|]. intros id' j' s' Hd'. rewrite Ej, lookup_insert_Some.
       split; [intros [[<- [= <- <-]]|[_ ?]]; done|]. intros H. right. split; [|done]. intros ->. congruence. }
  assert (Hq : quiet (e_dir e) w -> s2 <> Walking -> quiet (e_dir e) w').
  { intros Hq Hn id' j' H. rewrite Ej, lookup_insert_Some in H. destruct H as [[_ [= _ ->]]|[_ H]]; [done|by eapply Hq]. }
  split; [by rewrite Eg|]. destruct (e_phase e) as [|k|wr] eqn:Ep.
  - intros id' j' s' H. rewrite Ej, lookup_insert_Some in H. destruct H as [[_ [= <- _]]|[_ H]]; by eapply Hp.
  - destruct Hp as (jk & sk & E1 & E2 & E3 & E4 & E5 & E6). destruct (decide (id = k)) as [->|Hne].
    + rewrite Hj in E1. simplify_eq. exists jk, s2. rewrite Ej, lookup_insert_eq. split_and!; [done..| | |].
      * intros id' j' s'. rewrite lookup_insert_Some. intros [[<- _]|[_ H]] Hd' Hn; [done|by eapply E4].
      * intros H2. destruct (Hf H2 E2 E3) as [Hno _]. intros id' j'. rewrite Ej, lookup_insert_Some.
        intros [[_ [= _ ->]]|[Hn H]]; [done|]. rewrite <-E2. by eapply Hno.
      * intros ->. rewrite Ef, <-E2. by apply (Hf eq_refl).
    + assert (Hlt : (j_claimed j < e_gen e)%N) by by eapply E4.
      exists jk, sk. rewrite Ej, lookup_insert_ne by done. split_and!; [done..| | |by rewrite Ef].
      * intros id' j' s'. rewrite lookup_insert_Some. intros [[_ [= <- _]]|[_ H]] Hd' Hn; [done|by eapply E4].
      * intros H2. apply Hq; [auto|]. intros ->. specialize (Hw eq_refl Hd). lia.
  - destruct Hp as (H1 & H2 & H3).
    assert (Hlt : (j_claimed j < e_gen e)%N) by (destruct (H1 id j s1 Hj Hd); [done|congruence]).
    split_and!; [|apply Hq; [done|]; intros ->; specialize (Hw eq_refl Hd); lia|by rewrite Ef].
    intros id' j' s'. rewrite Ej, lookup_insert_Some. intros [[_ [= <- _]]|[_ H]] Hd'; [by left|by eapply H1].
Qed.

(** A job that takes, holds or gives up the walk lock of its directory. *)
Lemma inv_job n w w' id j s1 s2 : inv n w -> jobs w !! id = Some (j, s1) -> unfinished s1 = true ->
  jobs w' = <[id := (j, s2)]> (jobs w) -> execs w' = execs w -> (forall dir, gen dir w' = gen dir w) ->
  (forall dir, files dir w' = files dir w) ->
  (forall dir, dir <> j_dir j -> walk (gate_for dir (gs w')) = walk (gate_for dir (gs w))) ->
  (s2 = Locked \/ s2 = Walking -> walk (gate_for (j_dir j) (gs w')) = Some id) ->
  (forall id' j' s', id' <> id -> jobs w !! id' = Some (j', s') -> s' = Locked \/ s' = Walking -> j_dir j' <> j_dir j) ->
  (s2 = Walking -> gen (j_dir j) w = j_claimed j) ->
  (s2 = Finished true -> gen (j_dir j) w = j_claimed j -> files (j_dir j) w = ∅) ->
  inv (S n) w'.
Proof.
  intros Hi Hj Hu Ej Ee Eg Ef Hwo Hwi Hex Hcur Hfin. split.
  - intros dir. rewrite Eg. pose proof (inv_bound n w Hi dir). lia.
  - rewrite Ee. apply (inv_one n w Hi).
  - intros id' j' s'. rewrite Ej, lookup_insert_Some, Eg.
    intros [[_ [= <- _]]|[_ H]]; by eapply (inv_claimed n w Hi).
  - intros id' j' s'. rewrite Ej, lookup_insert_Some. intros [[<- [= <- <-]]|[Hn H]] Hs; [auto|].
    rewrite Hwo; [by eapply (inv_lock n w Hi)|]. by eapply (Hex id').
  - intros i e. rewrite Ee. intros He. pose proof (inv_exec n w Hi i e He) as Hok.
    eapply (exec_ok_job w w' e id j s1 s2); try done.
    + intros -> Hd. rewrite <-Hcur by done. rewrite Hd. symmetry. by apply Hok.
    + intros _ Hd Hc. split.
      * intros id' j' Hn H. eapply (Hex id'); [done..|by right].
      * intros ->. apply Hfin; [done|]. rewrite Hc, Hd. symmetry. apply Hok.
Qed.

(** Two jobs do not hold the lock of one directory. *)
Lemma lock_exclusive n w id j s id' j' s' : inv n w -> jobs w !! id = Some (j, s) -> s = Locked \/ s = Walking ->
  id' <> id -> jobs w !! id' = Some (j', s') -> s' = Locked \/ s' = Walking -> j_dir j' <> j_dir j.
Proof.
  intros Hi Hj Hs Hn Hj' Hs' Hd. pose proof (inv_lock n w Hi _ _ _ Hj Hs) as H1.
  pose proof (inv_lock n w Hi _ _ _ Hj' Hs') as H2. rewrite Hd in H2. congruence.
Qed.

Lemma finish_job_inv n w id j s ok : inv n w -> jobs w !! id = Some (j, s) -> s = Locked \/ s = Walking ->
  (ok = true -> gen (j_dir j) w = j_claimed j -> files (j_dir j) w = ∅) -> inv (S n) (finish_job id j ok w).
Proof.
  intros Hi Hj Hs Hok. eapply (inv_job n w _ id j s (Finished ok)); try done.
  - by destruct Hs as [->| ->].
  - intros dir. apply gen_lock_walk.
  - intros dir Hne. simpl. unfold lock_walk. rewrite gate_for_insert. by case_decide; subst.
  - by intros [?|?].
  - intros id' j' s' Hn Hj' Hs'. by eapply lock_exclusive.
  - intros [= ->]. auto.
Qed.

(** A run and its directory: nothing else in the world changes. *)
Lemma inv_with_exec n w i e e' : inv n w -> execs w !! i = Some e -> e_dir e' = e_dir e -> exec_ok w e' ->
  inv (S n) (with_exec i e' w).
Proof.
  intros Hi He Hd Hok. split; try apply Hi.
  - intros dir. pose proof (inv_bound n w Hi dir). unfold gen in *. simpl. lia.
  - intros a b x y. simpl. rewrite !lookup_insert_Some.
    intros [[<- <-]|[Ha Hx]] [[<- <-]|[Hb Hy]] Hxy; [done| | |by eapply (inv_one n w Hi)].
    + rewrite Hd in Hxy. by eapply (inv_one n w Hi).
    + rewrite Hd in Hxy. by eapply (inv_one n w Hi).
  - intros k x. simpl. rewrite lookup_insert_Some. intros [[<- <-]|[Hk Hx]]; [by apply (exec_ok_frame w)|].
    apply (exec_ok_frame w); [by eapply (inv_exec n w Hi)|done..].
Qed.

(** A run ends, with at most a new job of its own generation. *)
Lemma inv_resolve n w i e id oj : inv n w -> execs w !! i = Some e -> jobs w !! id = None ->
  (forall j, oj = Some j -> j_dir j = e_dir e /\ j_claimed j = e_gen e) -> inv (S n) (resolve i id oj w).
Proof.
  intros Hi He Hid Hoj. pose proof (inv_exec n w Hi i e He) as [Hg _].
  assert (Hgs : gs (resolve i id oj w) = gs w) by by destruct oj.
  assert (Hex : execs (resolve i id oj w) = delete i (execs w)) by by destruct oj.
  assert (Hdk : disk (resolve i id oj w) = disk w) by by destruct oj.
  assert (Hjobs : forall k j s, jobs (resolve i id oj w) !! k = Some (j, s) ->
    jobs w !! k = Some (j, s) \/ k = id /\ s = Queued /\ j_dir j = e_dir e /\ j_claimed j = e_gen e).
  { intros k j s. destruct oj as [j0|]; [|by left]. simpl. rewrite lookup_insert_Some.
    intros [[<- [= <- <-]]|[_ H]]; [right|by left]. destruct (Hoj j0 eq_refl). done. }
  split.
  - intros dir. unfold gen. rewrite Hgs. pose proof (inv_bound n w Hi dir). unfold gen in *. lia.
  - intros a b x y. rewrite Hex. rewrite !lookup_delete_Some. intros [_ Hx] [_ Hy]. by eapply (inv_one n w Hi).
  - intros k j s [H|(-> & -> & Hd & Hc)]%Hjobs; unfold gen; rewrite Hgs; [by eapply (inv_claimed n w Hi)|].
    rewrite Hd, Hc, Hg. done.
  - intros k j s [H|(-> & -> & _)]%Hjobs Hs; [rewrite Hgs; by eapply (inv_lock n w Hi)|naive_solver].
  - intros k x. rewrite Hex, lookup_delete_Some. intros [Hk Hx].
    assert (Hne : e_dir x <> e_dir e).
    { intros E. apply Hk. symmetry. by eapply (inv_one n w Hi). }
    apply (exec_ok_frame w); [by eapply (inv_exec n w Hi)|by unfold gen; rewrite Hgs|by unfold files; rewrite Hdk|].
    intros id' j s Hd. split; [intros [?|(_ & _ & ? & _)]%Hjobs; [done|congruence]|].
    intros H. destruct oj as [j0|]; [|done]. simpl. rewrite lookup_insert_ne; [done|]. congruence.
Qed.

Lemma inv_claim n w i dir : inv n w -> (N.of_nat n < u64_max)%N -> execs w !! i = None ->
  (forall k e, execs w !! k = Some e -> e_dir e <> dir) ->
  inv (S n) (with_exec i (mkExec (arm dir (claim dir (gs w)).1) Claimed) (with_gates (claim dir (gs w)).2 w)).
Proof.
  intros Hi Hn Hno Hfree. pose proof (inv_bound n w Hi dir) as Hb.
  assert (Hg : wrapping_add (generation (gate_for dir (gs w))) 1 = (gen dir w + 1)%N).
  { unfold wrapping_add, gen in *. apply N.mod_small. lia. }
  set (w' := with_exec _ _ _).
  assert (Hgen : forall d, gen d w' = if decide (dir = d) then (gen dir w + 1)%N else gen d w).
  { intros d. unfold gen at 1. simpl. rewrite gate_for_insert. case_decide; [exact Hg|done]. }
  assert (Hwalk : forall d, walk (gate_for d (gs w')) = walk (gate_for d (gs w))).
  { intros d. simpl. rewrite gate_for_insert. by case_decide; subst. }
  split.
  - intros d. rewrite Hgen. pose proof (inv_bound n w Hi d). case_decide; lia.
  - intros a b x y. simpl. rewrite !lookup_insert_Some.
    intros [[<- <-]|[Ha Hx]] [[<- <-]|[Hb' Hy]] Hxy; [done|..|by eapply (inv_one n w Hi)].
    + by destruct (Hfree b y Hy).
    + by destruct (Hfree a x Hx).
  - intros id j s Hj. rewrite Hgen. pose proof (inv_claimed n w Hi id j s Hj). case_decide; subst; lia.
  - intros id j s Hj Hs. rewrite Hwalk. by eapply (inv_lock n w Hi).
  - intros k x. simpl. rewrite lookup_insert_Some. intros [[<- <-]|[Hk Hx]].
    + unfold exec_ok, e_gen, e_dir. simpl. rewrite Hgen, decide_True, Hg by done. split; [done|].
      intros id j s Hj Hd. pose proof (inv_claimed n w Hi id j s Hj) as Hc. rewrite Hd in Hc. lia.
    + apply (exec_ok_frame w); [by eapply (inv_exec n w Hi)| |done..].
      rewrite Hgen, decide_False; [done|]. intros Hd. by destruct (Hfree k x Hx).
Qed.

Lemma inv_prepare n w i e id : inv n w -> execs w !! i = Some e -> e_phase e = Claimed -> jobs w !! id = None ->
  inv (S n) (with_exec i (mkExec (e_teardown e) (Preparing id))
      (set_job_state id (mkJob StaleRemoval (e_dir e) (e_gen e)) Queued w)).
Proof.
  intros Hi He Hp Hid. pose proof (inv_exec n w Hi i e He) as [Hg Hok]. rewrite Hp in Hok. split.
  - intros dir. pose proof (inv_bound n w Hi dir). unfold gen in *. simpl. lia.
  - intros a b x y. simpl. rewrite !lookup_insert_Some.
    intros [[<- <-]|[Ha Hx]] [[<- <-]|[Hb Hy]] Hxy; [done|by eapply (inv_one n w Hi)..].
  - intros k j s. simpl. rewrite lookup_insert_Some. intros [[<- [= <- <-]]|[_ H]]; simpl; [by rewrite Hg|].
    by eapply (inv_claimed n w Hi).
  - intros k j s. simpl. rewrite lookup_insert_Some. intros [[<- [= <- <-]]|[_ H]] Hs; [naive_solver|].
    by eapply (inv_lock n w Hi).
  - intros k x. simpl. rewrite lookup_insert_Some. intros [[<- <-]|[Hk Hx]].
    + split; [done|]. simpl. eexists _, _. rewrite lookup_insert_eq. split_and!; [done..| | |done].
      * intros id' j' s'. rewrite lookup_insert_Some. intros [[<- _]|[_ H]] Hd Hn; [done|by eapply Hok].
      * done.
    + assert (Hne : e_dir x <> e_dir e) by (intros E; apply Hk; symmetry; by eapply (inv_one n w Hi)).
      apply (exec_ok_frame w); [by eapply (inv_exec n w Hi)|done..|]. intros id' j' s' Hd. simpl.
      rewrite lookup_insert_Some. split; [intros [[_ [= <- _]]|[_ ?]]; [by destruct Hne|done]|].
      intros H. right. split; [congruence|done].
Qed.

(** The files of one directory change. *)
Lemma inv_with_disk n w dir fs : inv n w ->
  (forall i e, execs w !! i = Some e -> e_dir e = dir -> exec_ok (with_disk dir fs w) e) ->
  inv (S n) (with_disk dir fs w).
Proof.
  intros Hi Hd. split; try apply Hi.
  - intros d. pose proof (inv_bound n w Hi d). unfold gen in *. simpl. lia.
  - intros i e He. destruct (decide (e_dir e = dir)) as [E|E]; [by eapply Hd|].
    apply (exec_ok_frame w); [by eapply (inv_exec n w Hi)|done| |done].
    rewrite files_with_disk, decide_False; done.
Qed.

Lemma inv_write n w i e wr f : inv n w -> execs w !! i = Some e -> e_phase e = Running wr ->
  inv (S n) (with_disk (e_dir e) ({[f]} ∪ files (e_dir e) w)
      (with_exec i (mkExec (e_teardown e) (Running ({[f]} ∪ wr))) w)).
Proof.
  intros Hi He Hp. pose proof (inv_exec n w Hi i e He) as [Hg Hok]. rewrite Hp in Hok.
  destruct Hok as (H1 & H2 & H3). set (e' := mkExec _ _). set (w' := with_disk _ _ _).
  assert (Hf : forall d, files d w' = if decide (e_dir e = d) then {[f]} ∪ files (e_dir e) w else files d w).
  { intros d. unfold w'. rewrite files_with_disk. done. }
  split; try apply Hi.
  - intros dir. pose proof (inv_bound n w Hi dir). unfold gen in *. simpl. lia.
  - intros a b x y. simpl. rewrite !lookup_insert_Some.
    intros [[<- <-]|[Ha Hx]] [[<- <-]|[Hb Hy]] Hxy; [done|by eapply (inv_one n w Hi)..].
  - intros k x. simpl. rewrite lookup_insert_Some. intros [[<- <-]|[Hk Hx]].
    + split; [done|]. simpl. split_and!; [done|done|]. change (e_dir e') with (e_dir e).
      rewrite Hf, decide_True, H3; done.
    + assert (Hne : e_dir x <> e_dir e) by (intros E; apply Hk; symmetry; by eapply (inv_one n w Hi)).
      apply (exec_ok_frame w); [by eapply (inv_exec n w Hi)|done| |done]. rewrite Hf, decide_False; done.
Qed.

(** A walk only removes files of a directory where no run writes. *)
Lemma inv_unlink n w id j f : inv n w -> jobs w !! id = Some (j, Walking) ->
  inv (S n) (with_disk (j_dir j) (files (j_dir j) w ∖ {[f]}) w).
Proof.
  intros Hi Hj. apply inv_with_disk; [done|]. intros i e He Hd.
  pose proof (inv_exec n w Hi i e He) as [Hg Hok]. split; [done|]. destruct (e_phase e) as [|k|wr].
  - done.
  - destruct Hok as (jk & s & E1 & E2 & E3 & E4 & E5 & E6). exists jk, s. split_and!; [done..|].
    intros ->. specialize (E5 eq_refl id j Hj). done.
  - destruct Hok as (_ & H2 & _). by destruct (H2 id j Hj).
Qed.

Lemma sandbox_step_inv n w w' : inv n w -> (N.of_nat n < u64_max)%N -> step w w' -> inv (S n) w'.
Proof.
  intros Hi Hn Hs.
  destruct Hs as [w i dir Hno Hfree|w i e id He Hp Hid|w i e id j He Hp Hj|w i e wr f He Hp|w i e wr c id He Hp Hid
    |w i e m id He Hid|w i e id He Hid|w id j Hj Hw|w id j Hj Hc|w id j Hj Hc|w id j f Hj|w id j Hj Hf|w id j Hj].
  - by apply inv_claim.
  - by apply inv_prepare.
  - pose proof (inv_exec n w Hi i e He) as [Hg Hok]. rewrite Hp in Hok.
    destruct Hok as (j' & s & E1 & E2 & E3 & E4 & E5 & E6). rewrite Hj in E1. simplify_eq.
    apply (inv_with_exec n w i e); [done..|]. split; [done|]. simpl. split_and!; [|by apply E5|by apply E6].
    intros id' j'' s' Hj' Hd. destruct (decide (id' = id)) as [->|Hne]; [right|left; by eapply E4].
    rewrite Hj in Hj'. by simplify_eq.
  - by apply inv_write.
  - apply (inv_resolve n w i e); [done..|]. intros j. destruct c; simpl; [|done]. by intros [= <-].
  - apply (inv_resolve n w i e); [done..|]. intros j. destruct m; simpl; [|done].
    unfold complete. destruct (td_job _); [|done]. by intros [= <-].
  - apply (inv_resolve n w i e); [done..|]. intros j. unfold drop_teardown. destruct (armed _); [|done]. by intros [= <-].
  - eapply (inv_job n w _ id j Queued Locked); try done.
    + intros d. apply gen_lock_walk.
    + intros d Hd. simpl. unfold lock_walk. rewrite gate_for_insert. by case_decide; subst.
    + intros _. simpl. unfold lock_walk. by rewrite gate_for_insert, decide_True.
    + intros id' j' s' Hne Hj' Hs' Hd. pose proof (inv_lock n w Hi _ _ _ Hj' Hs') as Hl. rewrite Hd in Hl. congruence.
  - eapply (inv_job n w _ id j Locked Walking); try done.
    + intros _. eapply (inv_lock n w Hi); [done|by left].
    + intros id' j' s' Hne Hj' Hs'. eapply (lock_exclusive n w id j Locked); try done. by left.
  - eapply (finish_job_inv n w id j Locked); [done..|by left|]. done.
  - by apply inv_unlink with (id := id).
  - eapply (finish_job_inv n w id j Walking); [done..|by right|]. done.
  - eapply (finish_job_inv n w id j Walking); [done..|by right|]. done.
Qed.

Lemma sandbox_reach_inv n w : reach n w -> (N.of_nat n <= u64_max)%N -> inv n w.
Proof.
  induction 1 as [d|n w w' Hr IH Hs]; intros Hn.
  - split; simpl; try (intros; by simplify_map_eq).
  - apply (sandbox_step_inv n w); [apply IH; lia|lia|done].
Qed.

(** C5: no removal touches a live sandbox. Whatever removals are still queued
    or under way for a directory, from runs that were cancelled, failed or
    succeeded, and however they interleave with the next run of the same target,
    while a run writes its sandbox nothing walks the directory, and it holds
    exactly the files this run wrote: nothing of a previous run and all of its
    own. *)
Theorem live_sandbox_untouched n w i e written : reach n w -> (N.of_nat n <= u64_max)%N ->
  execs w !! i = Some e -> e_phase e = Running written ->
  files (e_dir e) w = written /\ quiet (e_dir e) w /\
  (forall k e', execs w !! k = Some e' -> e_dir e' = e_dir e -> k = i).
Proof.
  intros Hr Hn He Hp. pose proof (sandbox_reach_inv n w Hr Hn) as Hi.
  pose proof (inv_exec n w Hi i e He) as [_ Hok]. rewrite Hp in Hok. destruct Hok as (_ & ? & ?).
  split_and!; [done..|]. intros k e' He' Hd. by eapply (inv_one n w Hi).
Qed.

(** ** A queued removal gets done *)

(** The removal with a given identity, of the current generation [g]: once it has
    succeeded the directory is empty, until the path is claimed again. *)
Definition reclaiming (dir : str) (g : N) (id : N) (w : world) : Prop :=
  (forall k e, execs w !! k = Some e -> e_dir e <> dir) /\ gen dir w = g /\
  exists j s, jobs w !! id = Some (j, s) /\ j_dir j = dir /\ j_claimed j = g /\
    (s = Finished true -> files dir w = ∅).

Lemma reclaiming_frame dir g id w w' :
  reclaiming dir g id w -> gen dir w' = gen dir w ->
  (forall k e, execs w' !! k = Some e -> e_dir e = dir -> exists e', execs w !! k = Some e' /\ e_dir e' = dir) ->
  (files dir w = ∅ -> files dir w' = ∅) -> jobs w' !! id = jobs w !! id -> reclaiming dir g id w'.
Proof.
  intros (Hno & Hg & j & s & Hj & Hd & Hc & Hf) Eg He Ef Ej. split_and!.
  - intros k e Hk Hke. destruct (He k e Hk Hke) as (e' & ? & ?). by eapply Hno.
  - congruence.
  - exists j, s. rewrite Ej. split_and!; auto.
Qed.

(** A run of another directory goes on. *)
Lemma reclaiming_exec dir g id w w' i e e' :
  reclaiming dir g id w -> execs w !! i = Some e -> execs w' = <[i := e']> (execs w) -> e_dir e' = e_dir e ->
  gen dir w' = gen dir w -> (files dir w = ∅ -> files dir w' = ∅) -> jobs w' !! id = jobs w !! id ->
  reclaiming dir g id w'.
Proof.
  intros Hr He Ee Hd Eg Ef Ej. apply (reclaiming_frame _ _ _ w); [done..| |done|done].
  intros x y. rewrite Ee, lookup_insert_Some. intros [[<- <-]|[_ ?]] Hy; [exists e; split; [done|congruence]|by exists y].
Qed.

(** A job moves on, the removal itself or another. *)
Lemma reclaiming_job dir g id w w' k j s s' :
  reclaiming dir g id w -> jobs w !! k = Some (j, s) -> jobs w' = <[k := (j, s')]> (jobs w) ->
  (forall d, gen d w' = gen d w) -> execs w' = execs w -> (forall d, files d w' = files d w) ->
  (k = id -> s' = Finished true -> files dir w = ∅) -> reclaiming dir g id w'.
Proof.
  intros (Hno & Hg & j0 & s0 & Hj & Hd & Hc & Hf) Hk Ej Eg Ee Ef Hfin.
  split_and!; [by rewrite Ee|by rewrite Eg|]. rewrite Ef, Ej. destruct (decide (k = id)) as [->|Hne].
  - rewrite Hk in Hj. simplify_eq. exists j0, s'. rewrite lookup_insert_eq. auto.
  - exists j0, s0. rewrite lookup_insert_ne by done. auto.
Qed.

(** A run ends, of another directory. *)
Lemma reclaiming_resolve dir g id w i k oj : reclaiming dir g id w -> jobs w !! k = None ->
  reclaiming dir g id (resolve i k oj w).
Proof.
  intros Hr Hk. pose proof Hr as (_ & _ & j & s & Hj & _).
  apply (reclaiming_frame _ _ _ w); [done|by destruct oj| |by destruct oj|].
  - intros x e Hx Hd. exists e. split; [|done]. destruct oj; simpl in Hx; by apply lookup_delete_Some in Hx as [_ ?].
  - assert (id <> k) by congruence. destruct oj; simpl; [by rewrite lookup_insert_ne|done].
Qed.

Lemma gen_finish k j ok w d : gen d (finish_job k j ok w) = gen d w.
Proof. unfold gen at 1. simpl. apply gen_lock_walk. Qed.

Lemma reclaiming_step dir g id w w' : reclaiming dir g id w -> step w w' ->
  gen dir w' = g -> (g < u64_max)%N -> reclaiming dir g id w'.
Proof.
  intros Hr Hs Hg Hlt. pose proof Hr as (Hno & Hg0 & j0 & s0 & Hj0 & Hd0 & Hc0 & Hf0).
  destruct Hs as [w i d Hno' Hfree|w i e k He Hp Hk|w i e k j He Hp Hj|w i e wr f He Hp|w i e wr c k He Hp Hk
    |w i e m k He Hk|w i e k He Hk|w k j Hj Hw|w k j Hj Hc|w k j Hj Hc|w k j f Hj|w k j Hj Hf|w k j Hj].
  - apply (reclaiming_frame _ _ _ w); [done|by rewrite Hg| |done|done].
    intros k e. simpl. rewrite lookup_insert_Some. intros [[<- <-]|[_ ?]] Hd; [|by exists e]. exfalso.
    change (d = dir) in Hd. subst d. unfold gen in Hg, Hg0. simpl in Hg. rewrite gate_for_insert, decide_True in Hg by done.
    simpl in Hg. unfold wrapping_add in Hg. rewrite Hg0, N.mod_small in Hg; lia.
  - eapply (reclaiming_exec _ _ _ w _ i e); try done. simpl. rewrite lookup_insert_ne; [done|congruence].
  - by eapply (reclaiming_exec _ _ _ w).
  - eapply (reclaiming_exec _ _ _ w); try done.
    intros Hf. rewrite files_with_disk, decide_False; [done|]. by eapply Hno.
  - by apply reclaiming_resolve.
  - by apply reclaiming_resolve.
  - by apply reclaiming_resolve.
  - eapply (reclaiming_job _ _ _ w _ k j Queued); try done. intros d. apply gen_lock_walk.
  - by eapply (reclaiming_job _ _ _ w _ k j Locked).
  - eapply (reclaiming_job _ _ _ w _ k j Locked); try done; [apply gen_finish|].
    intros -> _. rewrite Hj in Hj0. injection Hj0 as <- <-. destruct Hc. fold (gen (j_dir j) w). congruence.
  - apply (reclaiming_frame _ _ _ w); [done|done|by eauto| |done].
    intros Hf. rewrite files_with_disk. case_decide as E; [|done]. rewrite E, Hf. set_solver.
  - eapply (reclaiming_job _ _ _ w _ k j Walking); try done; [apply gen_finish|].
    intros -> _. rewrite Hj in Hj0. injection Hj0 as <- <-. congruence.
  - eapply (reclaiming_job _ _ _ w _ k j Walking); try done. apply gen_finish.
Qed.

(** A cancelled run's tree is reclaimed. Cancelling a run queues a removal
    that no later step makes decline: as long as the path is not claimed again,
    when that removal has ended without an error the sandbox is empty. *)
Theorem cancelled_tree_reclaimed n w i e id w' :
  reach n w -> (N.of_nat n < u64_max)%N -> execs w !! i = Some e -> armed (e_teardown e) = true -> jobs w !! id = None ->
  rtc (fun a b => step a b /\ gen (e_dir e) b = gen (e_dir e) w)
    (resolve i id (drop_teardown (e_teardown e)) w) w' ->
  exists j s, jobs w' !! id = Some (j, s) /\ j_dir j = e_dir e /\ (s = Finished true -> files (e_dir e) w' = ∅).
Proof.
  intros Hr Hn He Ha Hid Hs. pose proof (sandbox_reach_inv n w Hr (N.lt_le_incl _ _ Hn)) as Hi.
  pose proof (inv_exec n w Hi i e He) as [Hg _]. pose proof (inv_bound n w Hi (e_dir e)) as Hb.
  assert (Hq : reclaiming (e_dir e) (gen (e_dir e) w) id (resolve i id (drop_teardown (e_teardown e)) w)).
  { unfold drop_teardown. rewrite Ha. split_and!; [|done|].
    - intros k x. simpl. rewrite lookup_delete_Some. intros [Hk Hx] Hd. apply Hk. symmetry. by eapply (inv_one n w Hi).
    - eexists _, _. simpl. rewrite lookup_insert_eq. split_and!; [done|done|exact Hg|done]. }
  assert (Hq' : reclaiming (e_dir e) (gen (e_dir e) w) id w').
  { clear -Hs Hq Hb Hn. induction Hs as [|a b c [Hab Hg] _ IH]; [done|]. apply IH. eapply reclaiming_step; [done..|lia]. }
  destruct Hq' as (_ & _ & j & s & ? & ? & _ & ?). by exists j, s.
Qed.

(** ** The counter that holds the process *)

Definition outstanding (x : N * (Job * JobState)) : Prop := on_lane x.2.1 = true /\ unfinished x.2.2 = true.
#[export] Instance outstanding_dec x : Decision (outstanding x).
Proof. unfold outstanding. apply _. Defined.

Definition lane_jobs (js : gmap N (Job * JobState)) : nat := length (filter outstanding (map_to_list js)).

Lemma lane_jobs_insert_new id j s js : js !! id = None ->
  lane_jobs (<[id := (j, s)]> js) = (if on_lane j && unfinished s then 1 else 0) + lane_jobs js.
Proof.
  intros H. unfold lane_jobs. rewrite (map_to_list_insert _ _ _ H), filter_cons. unfold outstanding at 1. simpl.
  case_decide as Hd; destruct (on_lane j), (unfinished s); simpl; naive_solver.
Qed.

Lemma lane_jobs_insert id j s s' js : js !! id = Some (j, s) ->
  lane_jobs (<[id := (j, s')]> js) + (if on_lane j && unfinished s then 1 else 0) =
  (if on_lane j && unfinished s' then 1 else 0) + lane_jobs js.
Proof.
  intros H. rewrite <-(insert_delete_id js id (j, s) H), insert_insert_eq.
  rewrite !lane_jobs_insert_new by apply lookup_delete_eq. lia.
Qed.

Lemma step_pending w w' : step w w' -> pending w = N.of_nat (lane_jobs (jobs w)) ->
  (pending w < u64_max)%N ->
  pending w' = N.of_nat (lane_jobs (jobs w')) /\ (pending w' <= pending w + 1)%N.
Proof.
  intros Hs Hp Hlt.
  assert (Hres : forall i id oj, jobs w !! id = None -> (forall j, oj = Some j -> on_lane j = true) ->
    pending (resolve i id oj w) = N.of_nat (lane_jobs (jobs (resolve i id oj w))) /\
    (pending (resolve i id oj w) <= pending w + 1)%N).
  { intros i id [j|] Hid Hl; [|simpl; split; [done|lia]]. simpl. rewrite lane_jobs_insert_new, (Hl j eq_refl) by done. simpl.
    unfold wrapping_add. rewrite N.mod_small by lia. lia. }
  assert (Hfin : forall id j s ok, jobs w !! id = Some (j, s) -> unfinished s = true ->
    pending (finish_job id j ok w) = N.of_nat (lane_jobs (jobs (finish_job id j ok w))) /\
    (pending (finish_job id j ok w) <= pending w + 1)%N).
  { intros id j s ok Hj Hu. simpl. pose proof (lane_jobs_insert id j s (Finished ok) (jobs w) Hj) as Hc.
    rewrite Hu in Hc. destruct (on_lane j); simpl in Hc; [|lia].
    unfold wrapping_add. replace (pending w + u64_max)%N with (pending w - 1 + 1 * (u64_max + 1))%N by lia.
    rewrite N.Div0.mod_add, N.mod_small by lia. lia. }
  destruct Hs as [w i d Hno' Hfree|w i e k He Hph Hk|w i e k j He Hph Hj|w i e wr f He Hph|w i e wr c k He Hph Hk
    |w i e m k He Hk|w i e k He Hk|w k j Hj Hw|w k j Hj Hc|w k j Hj Hc|w k j f Hj|w k j Hj Hf|w k j Hj];
    try (split; [done|simpl; lia]).
  - simpl. rewrite lane_jobs_insert_new by done. simpl. split; [done|lia].
  - apply Hres; [done|]. destruct c; simpl; [|done]. by intros j [= <-].
  - apply Hres; [done|]. destruct m; simpl; [|done]. unfold complete. destruct (td_job _); [|done]. by intros j [= <-].
  - apply Hres; [done|]. unfold drop_teardown. destruct (armed _); [|done]. by intros j [= <-].
  - simpl. pose proof (lane_jobs_insert k j Queued Locked (jobs w) Hj) as E. simpl in E. lia.
  - simpl. pose proof (lane_jobs_insert k j Locked Walking (jobs w) Hj) as E. simpl in E. lia.
  - by apply (Hfin k j Locked).
  - by apply (Hfin k j Walking).
  - by apply (Hfin k j Walking).
Qed.

(** [bg_pending] is the number of jobs that were enqueued and have not
    finished, so the process that waits for zero never exits under a removal. *)
Theorem pending_counts_jobs n w : reach n w -> (N.of_nat n <= u64_max)%N ->
  pending w = N.of_nat (lane_jobs (jobs w)) /\
  (pending w = 0%N -> forall id j s, jobs w !! id = Some (j, s) -> on_lane j = true -> unfinished s = false).
Proof.
  intros Hr Hn. assert (Hp : pending w = N.of_nat (lane_jobs (jobs w)) /\ (pending w <= N.of_nat n)%N).
  { revert Hn. induction Hr as [d|n w w' Hr IH Hs]; intros Hn; [done|].
    destruct IH as [IH Hb]; [lia|]. destruct (step_pending w w' Hs IH) as [? ?]; [lia|]. split; [done|lia]. }
  destruct Hp as [Hp _]. split; [done|]. intros H0 id j s Hj Hl. destruct (unfinished s) eqn:Hu; [|done]. exfalso.
  rewrite <-(insert_delete_id _ _ _ Hj), lane_jobs_insert_new, Hl, Hu in Hp by apply lookup_delete_eq. simpl in Hp. lia.
Qed.

(** ** Witnesses *)

(** A run claims [/s], is cancelled while its stale removal is queued, and a second
    run claims the path, prepares it and writes a file. *)
Lemma sample_run : exists w e, reach 11 w /\ execs w !! 1%N = Some e /\ e_phase e = Running {[42%N]} /\ e_dir e = $"/s".
Proof.
  pose proof (reach_init ∅) as H.
  eapply reach_step in H; [|eapply (step_claim _ 0%N $"/s"); [done|]; intros ? ? E; simpl in E; by rewrite lookup_empty in E].
  eapply reach_step in H; [|eapply (step_prepare _ 0%N _ 10%N); reflexivity].
  eapply reach_step in H; [|eapply (step_cancel _ 0%N _ 11%N); reflexivity].
  eapply reach_step in H; [|eapply (step_claim _ 1%N $"/s"); [done|]; intros ? ? E; simpl in E; by rewrite delete_insert_eq in E].
  eapply reach_step in H; [|eapply (step_prepare _ 1%N _ 12%N); reflexivity].
  eapply reach_step in H; [|eapply (step_lock _ 12%N); reflexivity].
  eapply reach_step in H; [|eapply (step_current _ 12%N); reflexivity].
  eapply reach_step in H; [|eapply (step_removed _ 12%N); reflexivity].
  eapply reach_step in H; [|eapply (step_run _ 1%N); reflexivity].
  eapply reach_step in H; [|eapply (step_write _ 1%N _ _ 42%N); reflexivity].
  eapply reach_step in H; [|eapply (step_lock _ 11%N); reflexivity].
  eexists _, _. split; [exact H|]. split; [reflexivity|]. split; [reflexivity|reflexivity].
Qed.

(** A failed run whose outputs are secret keeps them on disk. The failure
    path calls [complete] so that nothing is left for the diagnostic, but the
    bridge's cleanup is only handed over by a run that succeeded: [complete]
    finds none, enqueues nothing and disarms the teardown. So a run with material
    outputs that wrote a file and failed leaves that file, with no run alive, no
    job pending and none to come before the target runs again, exactly as a run
    without the flag; a cancellation at the same point queues the removal. *)
Theorem material_failure_keeps_tree :
  exists n w e, reach n w /\ execs w !! 0%N = Some e /\ e_phase e = Running {[42%N]} /\ e_dir e = $"/s" /\
    (let w' := resolve 0 20 (fail_teardown true (e_teardown e)) w in
     step w w' /\ w' = resolve 0 20 (fail_teardown false (e_teardown e)) w /\
     execs w' = ∅ /\ pending w' = 0%N /\ files $"/s" w' = {[42%N]} /\
     map_Forall (fun _ js => unfinished js.2 = false) (jobs w')) /\
    jobs (resolve 0 20 (drop_teardown (e_teardown e)) w) !! 20%N = Some (mkJob Reclaim $"/s" 1, Queued).
Proof.
  pose proof (reach_init ∅) as H.
  eapply reach_step in H; [|eapply (step_claim _ 0%N $"/s"); [done|]; intros ? ? E; simpl in E; by rewrite lookup_empty in E].
  eapply reach_step in H; [|eapply (step_prepare _ 0%N _ 10%N); reflexivity].
  eapply reach_step in H; [|eapply (step_lock _ 10%N); reflexivity].
  eapply reach_step in H; [|eapply (step_current _ 10%N); reflexivity].
  eapply reach_step in H; [|eapply (step_removed _ 10%N); reflexivity].
  eapply reach_step in H; [|eapply (step_run _ 0%N); reflexivity].
  eapply reach_step in H; [|eapply (step_write _ 0%N _ _ 42%N); reflexivity].
  eexists _, _, _. split; [exact H|]. split; [reflexivity|]. split; [reflexivity|]. split; [reflexivity|].
  split; [|reflexivity]. split; [eapply step_fail; reflexivity|]. split; [reflexivity|].
  split; [by vm_compute|]. split; [reflexivity|]. split; [by vm_compute|].
  by apply (bool_decide_unpack _).
Qed.

Lemma live_sandbox_untouched_witness :
  exists w e, execs w !! 1%N = Some e /\ files (e_dir e) w = {[42%N]} /\ quiet (e_dir e) w.
Proof.
  destruct sample_run as (w & e & Hr & He & Hp & _). exists w, e. split; [exact He|].
  destruct (live_sandbox_untouched 11 w 1%N e {[42%N]} Hr) as (H1 & H2 & _); [discriminate|exact He|exact Hp|].
  split; [exact H1|exact H2].
Defined.

(** The first run of a path, cancelled at once. *)
Definition claimed_world : world :=
  with_exec 0 (mkExec (arm $"/s" (claim $"/s" ∅).1) Claimed) (with_gates (claim $"/s" ∅).2 (mkWorld ∅ ∅ ∅ ∅ 0)).

Lemma claimed_world_reach : reach 1 claimed_world.
Proof.
  eapply reach_step; [apply (reach_init ∅)|]. apply (step_claim (mkWorld ∅ ∅ ∅ ∅ 0) 0%N $"/s"); [done|].
  intros k e E. simpl in E. by rewrite lookup_empty in E.
Qed.

Lemma cancelled_tree_reclaimed_witness :
  exists j s, jobs (resolve 0 7 (Some (mkJob Reclaim $"/s" 1)) claimed_world) !! 7%N = Some (j, s) /\ j_dir j = $"/s" /\
    (s = Finished true -> files $"/s" (resolve 0 7 (Some (mkJob Reclaim $"/s" 1)) claimed_world) = ∅).
Proof.
  apply (cancelled_tree_reclaimed 1 claimed_world 0%N (mkExec (arm $"/s" (claim $"/s" ∅).1) Claimed) 7%N);
    [exact claimed_world_reach|reflexivity|reflexivity|reflexivity|reflexivity|].
  apply rtc_refl.
Defined.

Lemma pending_counts_jobs_witness : pending claimed_world = N.of_nat (lane_jobs (jobs claimed_world)).
Proof. apply (pending_counts_jobs 1 claimed_world claimed_world_reach). discriminate. Defined.
