(* ===== verification/Gc.v ===== *)
(** Garbage collection of the local cache: [crates/engine/src/engine/gc.rs].

    A target's revisions are the input hashes it was cached under. A trim keeps
    the newest ones, never the one a request just wrote and never one somebody is
    reading; a sweep decides the fate of every cached target first and applies it
    under the target's lock. The cache is the interface [LocalCache] with the laws
    its trait documents, and the locks answer through parameters: every theorem
    holds whatever they answer. What other processes do to the cache before the
    target's lock is taken is the parameter [others].

    Operations that delete return the state they leave also when they fail. *)
From S2P Require Import Prelude HtIntern Sorts.
From stdpp Require Import sorting.

Definition MANIFEST_V1 : str := $"manifest-v1.borsh".

Record ManifestArtifact := mkArtifact { ma_name : str; ma_size : N }.
Record Manifest := mkManifest { created_at_nanos : Z; m_artifacts : list ManifestArtifact }.

Inductive Existence := Committed (present : bool) | QueuedWrite.

(** ** The interface to the cache *)

Class LocalCache (C E : Type) := {
  read_manifest : arc -> str -> C -> result E (option Manifest);
  lc_exists : arc -> str -> str -> C -> result E bool;
  existence : arc -> str -> str -> C -> result E Existence;
  lc_delete : arc -> str -> str -> C -> result E unit * C;
  list_target_entries : arc -> C -> result E (list str);
}.

(** What it promises: a deletion concerns one entry, and the listing names each
    revision once. [stored] is the content of the cache; [unlanded] are the entries
    whose deletion was acknowledged and not carried out, which the SQLite cache does
    when the batch of the deletion fails. *)
Class LocalCacheLaws (C E : Type) `{LocalCache C E} (stored : C -> arc -> str -> str -> bool)
    (unlanded : C -> arc -> str -> str -> Prop) : Prop := {
  delete_frame c a h n r c' a' h' n' : lc_delete a h n c = (r, c') ->
    (a', h', n') <> (a, h, n) -> stored c' a' h' n' = stored c a' h' n';
  delete_gone c a h n c' : lc_delete a h n c = (Ok tt, c') -> stored c' a h n = false \/ unlanded c' a h n;
  delete_unlanded c a h n r c' a' h' n' : lc_delete a h n c = (r, c') ->
    (a', h', n') <> (a, h, n) -> unlanded c a' h' n' -> unlanded c' a' h' n';
  delete_manifest c a h n r c' a' h' : lc_delete a h n c = (r, c') ->
    (a', h') <> (a, h) -> read_manifest a' h' c' = read_manifest a' h' c;
  list_distinct c a hs : list_target_entries a c = Ok hs -> NoDup hs;
}.

Section gc.
Context {C E : Type} `{LocalCache C E}.
(** [try_write_revision]: [Ok true] is the guard, [Ok false] a revision in use. *)
Variable try_write_revision : arc -> str -> result E bool.

(** The artifacts of a manifest, one after the other. *)
Fixpoint delete_artifacts (addr : arc) (hashin : str) (l : list ManifestArtifact) (bytes : N) (c : C)
    : result E N * C :=
  match l with
  | [] => (Ok bytes, c)
  | a :: l =>
      match lc_exists addr hashin (ma_name a) c with
      | Err e => (Err e, c)
      | Ok present =>
          match lc_delete addr hashin (ma_name a) c with
          | (Err e, c) => (Err e, c)
          | (Ok _, c) =>
              delete_artifacts addr hashin l (if present then saturating_add bytes (ma_size a) else bytes) c
          end
      end
  end.

Definition gc_entry (addr : arc) (hashin : str) (c : C) : result E N * C :=
  match read_manifest addr hashin c with
  | Err e => (Err e, c)
  | Ok m =>
      match (match m with
             | Some m => delete_artifacts addr hashin (m_artifacts m) 0 c
             | None => (Ok 0%N, c)
             end) with
      | (Err e, c) => (Err e, c)
      | (Ok bytes, c) =>
          match lc_delete addr hashin MANIFEST_V1 c with
          | (Err e, c) => (Err e, c)
          | (Ok _, c) => (Ok bytes, c)
          end
      end
  end.

Definition gc_revision (addr : arc) (hashin : str) (c : C) : result E (option N) * C :=
  match try_write_revision addr hashin with
  | Err e => (Err e, c)
  | Ok false => (Ok None, c)
  | Ok true =>
      match gc_entry addr hashin c with
      | (Ok bytes, c) => (Ok (Some bytes), c)
      | (Err e, c) => (Err e, c)
      end
  end.

(** The revisions with their time stamps, the newest first; a missing manifest
    counts as the oldest. *)
Fixpoint with_ts (addr : arc) (hashins : list str) (c : C) : result E (list (str * Z)) :=
  match hashins with
  | [] => Ok []
  | h :: hs =>
      m ← read_manifest addr h c;
      rest ← with_ts addr hs c;
      Ok ((h, from_option created_at_nanos 0%Z m) :: rest)
  end.

Definition newer_first (a b : str * Z) : bool := (b.2 <=? a.2)%Z.

Definition trim_order (addr : arc) (hashins : list str) (keep : N) (protect : option str) (c : C)
    : result E (list (str * Z)) :=
  match (keep =? 0)%N, protect with
  | true, None => Ok ((fun h => (h, 0%Z)) <$> hashins)
  | _, _ => sort_by newer_first <$> with_ts addr hashins c
  end.

Fixpoint trim_loop (addr : arc) (keep : N) (protect : option str) (i : N) (l : list (str * Z))
    (removed kept bytes : N) (c : C) : result E (N * N * N) * C :=
  match l with
  | [] => (Ok (removed, kept, bytes), c)
  | (h, _) :: l =>
      if (i <? keep)%N || bool_decide (protect = Some h)
      then trim_loop addr keep protect (i + 1) l removed (kept + 1) bytes c
      else
        match gc_revision addr h c with
        | (Err e, c) => (Err e, c)
        | (Ok (Some freed), c) =>
            trim_loop addr keep protect (i + 1) l (removed + 1) kept (saturating_add bytes freed) c
        | (Ok None, c) => trim_loop addr keep protect (i + 1) l removed (kept + 1) bytes c
        end
  end.

(** [(removed, kept, bytes)]. *)
Definition trim_addr_history (addr : arc) (hashins : list str) (keep : N) (protect : option str) (c : C)
    : result E (N * N * N) * C :=
  match trim_order addr hashins keep protect c with
  | Err e => (Err e, c)
  | Ok order => trim_loop addr keep protect 0 order 0 0 0 c
  end.

(** *** After a write *)

Inductive TrimOutcome := Settled (removed bytes : N) | Contended | Failed.

Definition len_u32 {A} (l : list A) (extra : nat) : N := (N.of_nat (length l + extra) mod 4294967296)%N.

(** [Ok true]: the target's lock is ours; [Ok false]: held by another. *)
Variable try_lock_target : arc -> result E bool.
(** Whatever happens to the cache until the lock is taken. *)
Variable others : C -> C.

Definition try_trim_after_write (addr : arc) (keep : N) (written : str) (c : C) : TrimOutcome * C :=
  match list_target_entries addr c with
  | Err _ => (Failed, c)
  | Ok pre =>
      match (if decide (written ∈ pre) then Ok (len_u32 pre 0)
             else match existence addr written MANIFEST_V1 c with
                  | Ok QueuedWrite | Ok (Committed true) => Ok (len_u32 pre 1)
                  | Ok (Committed false) => Ok (len_u32 pre 0)
                  | Err e => Err e
                  end) with
      | Err _ => (Failed, c)
      | Ok count =>
          if (count <=? keep)%N then (Settled 0 0, c)
          else
            match try_lock_target addr with
            | Err _ => (Failed, c)
            | Ok false => (Contended, c)
            | Ok true =>
                let c := others c in
                match lc_exists addr written MANIFEST_V1 c with
                | Err _ => (Failed, c)
                | Ok _ =>
                    match list_target_entries addr c with
                    | Err _ => (Failed, c)
                    | Ok hashins =>
                        match trim_addr_history addr hashins keep (Some written) c with
                        | (Ok (removed, _, bytes), c) => (Settled removed bytes, c)
                        | (Err _, c) => (Failed, c)
                        end
                    end
                end
            end
      end
  end.

(** *** The sweep *)

Inductive Decision := Orphan | Trim (history : N) | Skip.

Record TargetOutcome := mkOutcome { o_removed : N; o_kept : N; o_bytes : N; o_orphan : bool }.

(** [gc_decide]: what resolving the target answered. *)
Inductive Resolution := NotFound | SpecFailed | DefFailed | Resolved (history : N).
Definition gc_decide (r : Resolution) : Decision :=
  match r with
  | NotFound => Orphan
  | SpecFailed | DefFailed => Skip
  | Resolved history => Trim history
  end.

(** The lock of the target, waited for. *)
Variable lock_target : arc -> result E unit.

Definition gc_apply (addr : arc) (d : Decision) (c : C) : result E TargetOutcome * C :=
  match list_target_entries addr c with
  | Err e => (Err e, c)
  | Ok pre =>
      let needs_lock :=
        match d with
        | Orphan => negb (bool_decide (pre = []))
        | Trim history => (history <? len_u32 pre 0)%N
        | Skip => false
        end in
      if negb needs_lock
      then (Ok (mkOutcome 0 (match d with Orphan => 0 | _ => N.of_nat (length pre) end) 0 false), c)
      else
        match lock_target addr with
        | Err e => (Err e, c)
        | Ok _ =>
            let c := others c in
            match list_target_entries addr c with
            | Err e => (Err e, c)
            | Ok hashins =>
                match d with
                | Orphan =>
                    match trim_addr_history addr hashins 0 None c with
                    | (Err e, c) => (Err e, c)
                    | (Ok (removed, kept, bytes), c) => (Ok (mkOutcome removed kept bytes (kept =? 0)%N), c)
                    end
                | Trim history =>
                    match trim_addr_history addr hashins history None c with
                    | (Err e, c) => (Err e, c)
                    | (Ok (removed, kept, bytes), c) => (Ok (mkOutcome removed kept bytes false), c)
                    end
                | Skip => (Ok (mkOutcome 0 0 0 false), c)
                end
            end
        end
  end.

Record GcStats := mkStats {
  orphan_targets_removed : N; revisions_removed : N; revisions_kept : N; bytes_removed : N; errored : N;
}.

(** What a spawned task ended with: [None] is a panic. *)
Definition drain_one (joined : option (result E TargetOutcome)) (s : GcStats) : GcStats :=
  match joined with
  | Some (Ok o) =>
      mkStats (orphan_targets_removed s + (if o_orphan o then 1 else 0)) (revisions_removed s + o_removed o)
        (revisions_kept s + o_kept o) (saturating_add (bytes_removed s) (o_bytes o)) (errored s)
  | _ =>
      mkStats (orphan_targets_removed s) (revisions_removed s) (revisions_kept s) (bytes_removed s) (errored s + 1)
  end.

Definition is_skip (d : Decision) : bool := match d with Skip => true | _ => false end.

(** The tasks of phase two, one per target that was decided. *)
Fixpoint gc_sweep (ds : list (arc * Decision)) (s : GcStats) (c : C) : GcStats * C :=
  match ds with
  | [] => (s, c)
  | (a, d) :: ds =>
      if is_skip d then gc_sweep ds s c
      else let '(r, c) := gc_apply a d c in gc_sweep ds (drain_one (Some r) s) c
  end.

Definition gc_all (ds : list (arc * Decision)) (c : C) : GcStats * C :=
  gc_sweep ds (mkStats 0 0 0 0 (N.of_nat (length (List.filter (fun x => is_skip x.2) ds)))) c.
End gc.

(** *** A batch of deferred trims *)

Record TrimBatchReport := mkReport {
  batch : N; retried : N; delayed : N; still_contended : N; b_failed : N; b_removed : N; b_bytes : N;
}.
Definition report_new : TrimBatchReport := mkReport 0 0 0 0 0 0 0.

Section batch.
Context {W T : Type}.
(** [try_trim_after_write] on the state of the world; [None] is a panic. *)
Variable trim : T -> W -> option TrimOutcome * W.
Variable sleep : W -> W.

Definition trim_contained (t : T) (w : W) : TrimOutcome * W :=
  let '(o, w) := trim t w in (default Failed o, w).

Definition settle (removed bytes : N) (r : TrimBatchReport) : TrimBatchReport :=
  mkReport (batch r) (retried r) (delayed r) (still_contended r) (b_failed r) (b_removed r + removed)
    (saturating_add (b_bytes r) bytes).
Definition fail (r : TrimBatchReport) : TrimBatchReport :=
  mkReport (batch r) (retried r) (delayed r) (still_contended r) (b_failed r + 1) (b_removed r) (b_bytes r).
Definition count_batch (r : TrimBatchReport) : TrimBatchReport :=
  mkReport (batch r + 1) (retried r) (delayed r) (still_contended r) (b_failed r) (b_removed r) (b_bytes r).

Definition attempt_trim (t : T) (r : TrimBatchReport) (again : list T) (w : W)
    : TrimBatchReport * list T * W :=
  let '(o, w) := trim_contained t w in
  match o with
  | Settled removed bytes => (settle removed bytes r, again, w)
  | Contended => (r, again ++ [t], w)
  | Failed => (fail r, again, w)
  end.

Fixpoint pass (first : bool) (ts : list T) (r : TrimBatchReport) (again : list T) (w : W)
    : TrimBatchReport * list T * W :=
  match ts with
  | [] => (r, again, w)
  | t :: ts =>
      let '(r, again, w) := attempt_trim t (if first then count_batch r else r) again w in
      pass first ts r again w
  end.

Fixpoint last_pass (ts : list T) (r : TrimBatchReport) (w : W) : TrimBatchReport * W :=
  match ts with
  | [] => (r, w)
  | t :: ts =>
      let '(o, w) := trim_contained t w in
      let r :=
        match o with
        | Settled removed bytes => settle removed bytes r
        | Contended =>
            mkReport (batch r) (retried r) (delayed r) (still_contended r + 1) (b_failed r) (b_removed r) (b_bytes r)
        | Failed => fail r
        end in
      last_pass ts r w
  end.

Definition run_trim_batch_with_delay (ts : list T) (w : W) : TrimBatchReport * W :=
  let '(r, contended, w) := pass true ts report_new [] w in
  match contended with
  | [] => (r, w)
  | _ =>
      let r := mkReport (batch r) (N.of_nat (length contended)) (delayed r) (still_contended r) (b_failed r)
        (b_removed r) (b_bytes r) in
      let '(r, again, w) := pass false contended r [] w in
      match again with
      | [] => (r, w)
      | _ =>
          let r := mkReport (batch r) (retried r) (N.of_nat (length again)) (still_contended r) (b_failed r)
            (b_removed r) (b_bytes r) in
          last_pass again r (sleep w)
      end
  end.
End batch.

(** ** What a trim deletes *)

Section trim_spec.
Context {C E : Type} `{LocalCache C E} (stored : C -> arc -> str -> str -> bool) (unlanded : C -> arc -> str -> str -> Prop)
  `{!LocalCacheLaws C E stored unlanded}.

(** The revision [(addr, h)] was not touched between two states. *)
Definition same_revision (addr : arc) (h : str) (c c' : C) : Prop :=
  (forall n, stored c' addr h n = stored c addr h n) /\ read_manifest addr h c' = read_manifest addr h c /\
  (forall n, unlanded c addr h n -> unlanded c' addr h n).

(** An entry that is gone, as far as the cache reported. *)
Definition gone (addr : arc) (h n : str) (c : C) : Prop := stored c addr h n = false \/ unlanded c addr h n.

(** Every revision but those of [addr] in [vs] is untouched. *)
Definition only_deletes (addr : arc) (vs : list str) (c c' : C) : Prop :=
  forall a h, ~ (a = addr /\ h ∈ vs) -> same_revision a h c c'.

Lemma same_revision_refl a h c : same_revision a h c c.
Proof. done. Qed.
Lemma same_revision_trans a h c1 c2 c3 : same_revision a h c1 c2 -> same_revision a h c2 c3 -> same_revision a h c1 c3.
Proof. intros (H1 & H2 & H3) (H4 & H5 & H6). split_and!; [intros n; by rewrite H4, H1|by rewrite H5, H2|auto]. Qed.
Lemma same_revision_gone a h n c c' : same_revision a h c c' -> gone a h n c -> gone a h n c'.
Proof. intros (H1 & _ & H2) [Hs|Hu]; [left; by rewrite H1|right; auto]. Qed.

Lemma only_deletes_refl addr vs c : only_deletes addr vs c c.
Proof. intros a h _. apply same_revision_refl. Qed.
Lemma only_deletes_trans addr vs ws c1 c2 c3 :
  only_deletes addr vs c1 c2 -> only_deletes addr ws c2 c3 -> only_deletes addr (vs ++ ws) c1 c3.
Proof.
  intros H1 H2 a h Hn. eapply same_revision_trans; [apply H1|apply H2]; intros [-> Hv]; apply Hn; set_solver.
Qed.
Lemma only_deletes_mono addr vs ws c c' : vs ⊆ ws -> only_deletes addr vs c c' -> only_deletes addr ws c c'.
Proof. intros Hs H1 a h Hn. apply H1. intros [-> Hv]. apply Hn. set_solver. Qed.

Lemma delete_only addr h n c r c' : lc_delete addr h n c = (r, c') -> only_deletes addr [h] c c'.
Proof.
  intros Hd a h' Hn. split_and!.
  - intros n'. eapply delete_frame; [exact Hd|]. intros [= -> -> ->]. apply Hn. set_solver.
  - eapply delete_manifest; [exact Hd|]. intros [= -> ->]. apply Hn. set_solver.
  - intros n'. eapply delete_unlanded; [exact Hd|]. intros [= -> -> ->]. apply Hn. set_solver.
Qed.

Lemma delete_artifacts_only addr h l : forall bytes c r c',
  delete_artifacts addr h l bytes c = (r, c') -> only_deletes addr [h] c c'.
Proof.
  induction l as [|a l IH]; intros bytes c r c' Hd; simpl in Hd; [simplify_eq; apply only_deletes_refl|].
  destruct (lc_exists addr h (ma_name a) c) as [present|e]; [|simplify_eq; apply only_deletes_refl].
  destruct (lc_delete addr h (ma_name a) c) as [[u|e] c1] eqn:E1; [|simplify_eq; by eapply delete_only].
  eapply only_deletes_mono, only_deletes_trans; [|by eapply delete_only|by eapply IH]. set_solver.
Qed.

Lemma gc_entry_only addr h c r c' : gc_entry addr h c = (r, c') -> only_deletes addr [h] c c'.
Proof.
  unfold gc_entry. intros Hg. destruct (read_manifest addr h c) as [m|e]; [|simplify_eq; apply only_deletes_refl].
  destruct (match m with Some _ => _ | None => _ end) as [rb c1] eqn:E1.
  assert (H1 : only_deletes addr [h] c c1).
  { destruct m; [by eapply delete_artifacts_only|simplify_eq; apply only_deletes_refl]. }
  destruct rb as [b|e]; [|by simplify_eq].
  destruct (lc_delete addr h MANIFEST_V1 c1) as [[u|e] c2] eqn:E2; simplify_eq;
    (eapply only_deletes_mono, only_deletes_trans; [|exact H1|by eapply delete_only]; set_solver).
Qed.

(** What is gone stays gone when something is deleted. *)
Lemma delete_stays_gone addr h n c c' n' : lc_delete addr h n c = (Ok tt, c') -> gone addr h n' c -> gone addr h n' c'.
Proof.
  intros Hd [Hs|Hu]; (destruct (decide (n' = n)) as [->|Hne]; [by eapply delete_gone|]).
  - left. erewrite delete_frame; [exact Hs|exact Hd|congruence].
  - right. eapply delete_unlanded; [exact Hd|congruence|done].
Qed.

Lemma delete_artifacts_gone addr h l : forall bytes c b c' n, delete_artifacts addr h l bytes c = (Ok b, c') ->
  gone addr h n c \/ n ∈ ma_name <$> l -> gone addr h n c'.
Proof.
  induction l as [|a l IH]; intros bytes c b c' n Hd Hn; simpl in Hd; [simplify_eq; by destruct Hn as [|?%not_elem_of_nil]|].
  destruct (lc_exists addr h (ma_name a) c) as [present|e]; [|done].
  destruct (lc_delete addr h (ma_name a) c) as [[[]|e] c1] eqn:E1; [|done]. eapply IH; [exact Hd|].
  destruct Hn as [Hn|[->|Hn]%elem_of_cons]; [left; by eapply delete_stays_gone|left; by eapply delete_gone|by right].
Qed.

(** The entries of a revision: its manifest, and the artifacts it names. *)
Definition entry_of (addr : arc) (h n : str) (c : C) : Prop :=
  n = MANIFEST_V1 \/ exists m, read_manifest addr h c = Ok (Some m) /\ n ∈ ma_name <$> m_artifacts m.

Lemma gc_entry_gone addr h c b c' : gc_entry addr h c = (Ok b, c') -> forall n, entry_of addr h n c -> gone addr h n c'.
Proof.
  unfold gc_entry. intros Hg n Hn. destruct (read_manifest addr h c) as [m|e] eqn:Em; [|done].
  destruct (match m with Some _ => _ | None => _ end) as [[b1|e] c1] eqn:E1; [|done].
  destruct (lc_delete addr h MANIFEST_V1 c1) as [[[]|e] c2] eqn:E2; [|done]. simplify_eq.
  destruct Hn as [->|(m' & Hm & Hn)]; [by eapply delete_gone|]. rewrite Em in Hm. injection Hm as ->.
  eapply delete_stays_gone; [exact E2|]. eapply delete_artifacts_gone; [exact E1|by right].
Qed.

Variable try_write_revision : arc -> str -> result E bool.

(** A revision the lock is given for. *)
Definition free (addr : arc) (h : str) : bool :=
  match try_write_revision addr h with Ok true => true | _ => false end.

(** The revisions a trim is after: beyond the newest [keep], not protected and not
    in use. *)
Definition victims (addr : arc) (keep : nat) (protect : option str) (order : list (str * Z)) : list str :=
  List.filter (fun h => negb (bool_decide (protect = Some h)) && free addr h) (drop keep order).*1.

Lemma gc_revision_only addr h c r c' : gc_revision try_write_revision addr h c = (r, c') ->
  only_deletes addr (if free addr h then [h] else []) c c' /\
  (forall b, r = Ok (Some b) -> free addr h = true /\ forall n, entry_of addr h n c -> gone addr h n c') /\
  (r = Ok None -> free addr h = false).
Proof.
  unfold gc_revision, free. intros Hg. destruct (try_write_revision addr h) as [[]|e].
  - destruct (gc_entry addr h c) as [[b|e] c1] eqn:E1; simplify_eq; split_and!; try done;
      try (by eapply gc_entry_only). intros b' [= <-]. split; [done|]. by eapply gc_entry_gone.
  - simplify_eq. split_and!; [apply only_deletes_refl|done|done].
  - simplify_eq. split_and!; [apply only_deletes_refl|done|done].
Qed.

Lemma same_entries addr h n c c' : same_revision addr h c c' -> entry_of addr h n c -> entry_of addr h n c'.
Proof. intros (_ & Hm & _) [->|(m & Hr & Hn)]; [by left|right]. exists m. by rewrite Hm. Qed.

Lemma victims_cons addr keep protect h ts l :
  victims addr keep protect ((h, ts) :: l) =
  match keep with
  | S k => victims addr k protect l
  | O => if negb (bool_decide (protect = Some h)) && free addr h then h :: victims addr 0 protect l
         else victims addr 0 protect l
  end.
Proof. unfold victims. destruct keep as [|k]; simpl; [|done]. by destruct (_ && _). Qed.

Lemma victims_sub addr keep protect l h : h ∈ victims addr keep protect l -> h ∈ l.*1.
Proof.
  unfold victims. rewrite list_elem_of_In, filter_In, <-list_elem_of_In. intros [Hin _].
  apply list_elem_of_fmap in Hin as (x & -> & Hx). apply list_elem_of_fmap. exists x. split; [done|].
  rewrite <-(take_drop keep l). set_solver.
Qed.

Lemma trim_loop_spec addr keep protect l : forall i removed kept bytes c r c',
  NoDup l.*1 -> trim_loop try_write_revision addr keep protect i l removed kept bytes c = (r, c') ->
  let vs := victims addr (N.to_nat (keep - i)) protect l in
  only_deletes addr vs c c' /\
  (forall rm kp b, r = Ok (rm, kp, b) ->
     rm = (removed + N.of_nat (length vs))%N /\ (rm + kp = removed + kept + N.of_nat (length l))%N /\
     (forall h n, h ∈ vs -> entry_of addr h n c -> gone addr h n c')).
Proof.
  induction l as [|[h ts] l IH]; intros i removed kept bytes c r c' Hn Ht; cbn [trim_loop] in Ht.
  { simplify_eq. split; [apply only_deletes_refl|]. intros rm kp b [= <- <- <-]. unfold victims.
    rewrite drop_nil. simpl. split_and!; [lia|lia|set_solver]. }
  apply NoDup_cons in Hn as [Hni Hn]. rewrite victims_cons.
  destruct ((i <? keep)%N || bool_decide (protect = Some h)) eqn:Ek.
  - destruct (IH _ _ _ _ _ _ _ Hn Ht) as [Ho Hr].
    assert (Hv : match N.to_nat (keep - i) with S k => victims addr k protect l
      | O => if negb (bool_decide (protect = Some h)) && free addr h then h :: victims addr 0 protect l
             else victims addr 0 protect l end = victims addr (N.to_nat (keep - (i + 1))) protect l).
    { destruct (N.to_nat (keep - i)) as [|k] eqn:Ei.
      - replace (keep - (i + 1))%N with 0%N by lia. apply orb_true_iff in Ek as [Ek|Ek]; [bool_simpl; lia|]. by rewrite Ek.
      - by replace (N.to_nat (keep - (i + 1))) with k by lia. }
    rewrite Hv. split; [done|]. intros rm kp b Hok. destruct (Hr _ _ _ Hok) as (-> & Hs & Hg). simpl. split_and!; [done|lia|done].
  - apply orb_false_iff in Ek as [Ek Ep]. bool_simpl. replace (N.to_nat (keep - i)) with 0 by lia. rewrite Ep. simpl.
    destruct (gc_revision try_write_revision addr h c) as [ro c1] eqn:E1.
    destruct (gc_revision_only _ _ _ _ _ E1) as (Ho & Hsome & Hnone).
    destruct ro as [[freed|]|e].
    + destruct (IH _ _ _ _ _ _ _ Hn Ht) as [Ho2 Hr2]. replace (N.to_nat (keep - (i + 1))) with 0 in * by lia.
      destruct (Hsome _ eq_refl) as [Hf Hgone]. rewrite Hf in *.
      split; [by apply (only_deletes_trans addr [h]) with (c2 := c1)|].
      intros rm kp b Hok. destruct (Hr2 _ _ _ Hok) as (-> & Hs & Hg). simpl. split_and!; [lia|lia|].
      intros h' n [->|Hin]%elem_of_cons Hn'.
      * eapply same_revision_gone; [apply Ho2|by apply Hgone]. intros [_ Hv]. by apply victims_sub in Hv.
      * apply Hg; [done|]. eapply same_entries; [apply Ho|done]. intros [_ ->%list_elem_of_singleton]. by apply victims_sub in Hin.
    + destruct (IH _ _ _ _ _ _ _ Hn Ht) as [Ho2 Hr2]. replace (N.to_nat (keep - (i + 1))) with 0 in * by lia.
      rewrite (Hnone eq_refl) in *. split; [by apply (only_deletes_trans addr []) with (c2 := c1)|].
      intros rm kp b Hok. destruct (Hr2 _ _ _ Hok) as (-> & Hs & Hg). simpl. split_and!; [done|lia|].
      intros h' n Hin Hn'. apply Hg; [done|]. eapply same_entries; [apply Ho|done]. intros [_ ?]. set_solver.
    + simplify_eq. split; [|done]. eapply only_deletes_mono; [|exact Ho]. destruct (free addr h); set_solver.
Qed.

(** The time stamp a trim sorts by. *)
Definition stamp (addr : arc) (c : C) (h : str) : Z :=
  match read_manifest addr h c with Ok (Some m) => created_at_nanos m | _ => 0%Z end.

Lemma with_ts_ok addr hashins c l : with_ts addr hashins c = Ok l -> l = (fun h => (h, stamp addr c h)) <$> hashins.
Proof.
  revert l; induction hashins as [|h hs IH]; intros l Hw; simpl in Hw; [by simplify_eq|].
  ok_inv. simpl. rewrite (IH _ ltac:(eassumption)). unfold stamp at 2.
  match goal with H : read_manifest _ _ _ = Ok ?m |- _ => rewrite H; by destruct m end.
Qed.

Lemma with_ts_err addr hashins c h e : h ∈ hashins -> read_manifest addr h c = Err e ->
  exists e', with_ts addr hashins c = Err e'.
Proof.
  intros Hin He. induction hashins as [|h' hs IH]; [set_solver|]. simpl.
  destruct (read_manifest addr h' c) as [m|e'] eqn:E1; simpl; [|by exists e'].
  apply elem_of_cons in Hin as [->|Hin]; [congruence|]. destruct (IH Hin) as [e' ->]. by exists e'.
Qed.

Lemma newer_first_total x y : newer_first x y = false -> newer_first y x = true.
Proof. unfold newer_first. rewrite Z.leb_gt, Z.leb_le. lia. Qed.
Lemma newer_first_trans x y z : newer_first x y = true -> newer_first y z = true -> newer_first x z = true.
Proof. unfold newer_first. rewrite !Z.leb_le. lia. Qed.

(** The order of a trim: the listed revisions, and, where it matters, the newest
    first. *)
Lemma trim_order_ok addr hashins keep protect c order : trim_order addr hashins keep protect c = Ok order ->
  order.*1 ≡ₚ hashins /\
  (forall h v, h ∈ (take (N.to_nat keep) order).*1 -> v ∈ (drop (N.to_nat keep) order).*1 -> (stamp addr c v <= stamp addr c h)%Z).
Proof.
  unfold trim_order. intros Ho.
  assert (Hcase : (keep = 0%N /\ order = (fun h => (h, 0%Z)) <$> hashins) \/
    exists l, with_ts addr hashins c = Ok l /\ order = sort_by newer_first l).
  { destruct (keep =? 0)%N eqn:E0; [destruct protect|]; [right| |right].
    - ok_inv. eauto.
    - left. bool_simpl. by simplify_eq.
    - ok_inv. eauto. }
  destruct Hcase as [[-> ->]|(l & Hl & ->)].
  - split; [rewrite <-list_fmap_compose; by rewrite list_fmap_id|]. intros h v Hh. simpl in Hh. set_solver.
  - apply with_ts_ok in Hl. split.
    { rewrite sort_by_perm, Hl, <-list_fmap_compose. by rewrite list_fmap_id. }
    pose proof (sort_by_sorted newer_first newer_first_total newer_first_trans l) as Hs.
    assert (Hst : forall x, x ∈ sort_by newer_first l -> x.2 = stamp addr c x.1).
    { intros x. rewrite sort_by_elem, Hl. intros (h & -> & _)%list_elem_of_fmap. done. }
    intros h v (x & -> & Hx)%list_elem_of_fmap (y & -> & Hy)%list_elem_of_fmap.
    rewrite <-(take_drop (N.to_nat keep) (sort_by newer_first l)) in Hs.
    pose proof (StronglySorted_app_1_elem_of _ _ _ _ _ Hs Hx Hy) as Hxy.
    rewrite <-!Hst; [by apply Z.leb_le in Hxy|..]; rewrite <-(take_drop (N.to_nat keep) (sort_by newer_first l)); set_solver.
Qed.

(** The newest [keep] revisions and the ones a trim deletes. *)
Record trim_plan (addr : arc) (hashins : list str) (keep : N) (protect : option str) (c : C)
    (newest vs : list str) : Prop := {
  tp_newest : NoDup newest /\ newest ⊆ hashins /\ length newest = N.to_nat keep `min` length hashins;
  tp_victims : NoDup vs /\ vs ⊆ hashins;
  tp_spared : forall v, v ∈ vs -> (v ∉ newest) /\ protect <> Some v /\ free addr v = true;
  tp_older : forall h v, h ∈ newest -> v ∈ vs -> (stamp addr c v <= stamp addr c h)%Z;
  tp_all : forall h, h ∈ hashins -> h ∉ newest -> protect <> Some h -> free addr h = true -> h ∈ vs;
}.

Lemma trim_plan_order addr hashins keep protect c order : NoDup hashins ->
  trim_order addr hashins keep protect c = Ok order ->
  trim_plan addr hashins keep protect c (take (N.to_nat keep) order).*1 (victims addr (N.to_nat keep) protect order).
Proof.
  intros Hn Ho. destruct (trim_order_ok _ _ _ _ _ _ Ho) as [Hp Hst]. set (k := N.to_nat keep) in *.
  assert (Hsplit : order.*1 = (take k order).*1 ++ (drop k order).*1) by by rewrite <-fmap_app, take_drop.
  assert (Hnd : NoDup ((take k order).*1 ++ (drop k order).*1)) by by rewrite <-Hsplit, Hp.
  assert (Hin : forall h, h ∈ hashins <-> h ∈ (take k order).*1 \/ h ∈ (drop k order).*1).
  { intros h. rewrite <-elem_of_app, <-Hsplit, Hp. done. }
  apply NoDup_app in Hnd as (Hn1 & Hd & Hn2).
  assert (Hv : forall h, h ∈ victims addr k protect order <->
    h ∈ (drop k order).*1 /\ protect <> Some h /\ free addr h = true).
  { intros h. unfold victims. rewrite list_elem_of_In, filter_In, <-list_elem_of_In, andb_true_iff, negb_true_iff, bool_decide_eq_false.
    naive_solver. }
  split.
  - split_and!; [done|intros h Hh; apply Hin; by left|].
    rewrite length_fmap, length_take, <-Hp, length_fmap. done.
  - split; [apply NoDup_ListNoDup, List.NoDup_filter, NoDup_ListNoDup; done|].
    intros h Hh%Hv. apply Hin. right. apply Hh.
  - intros v (Hvd & ? & ?)%Hv. split_and!; [|done|done]. intros Ht. by apply (Hd v).
  - intros h v Hh (Hvd & _)%Hv. by apply Hst.
  - intros h [Ht|Ht]%Hin Hnn Hpr Hf; [done|]. by apply Hv.
Qed.
End trim_spec.

Section collection.
Context {C E : Type} `{LocalCache C E} (stored : C -> arc -> str -> str -> bool) (unlanded : C -> arc -> str -> str -> Prop)
  `{!LocalCacheLaws C E stored unlanded}.
Variable try_write_revision : arc -> str -> result E bool.
Abbreviation only := (only_deletes stored unlanded).
Abbreviation plan := (trim_plan try_write_revision).

Lemma trim_spec addr hashins keep protect c r c' : NoDup hashins ->
  trim_addr_history try_write_revision addr hashins keep protect c = (r, c') ->
  exists newest vs, only addr vs c c' /\
    ((vs = [] /\ c' = c /\ exists e, r = Err e) \/ plan addr hashins keep protect c newest vs) /\
    (forall rm kp b, r = Ok (rm, kp, b) ->
       rm = N.of_nat (length vs) /\ (rm + kp = N.of_nat (length hashins))%N /\
       (forall h n, h ∈ vs -> entry_of addr h n c -> gone stored unlanded addr h n c')).
Proof.
  unfold trim_addr_history. intros Hn Ht. destruct (trim_order addr hashins keep protect c) as [order|e] eqn:Eo.
  - assert (Hp : order.*1 ≡ₚ hashins) by by eapply trim_order_ok.
    destruct (trim_loop_spec stored unlanded try_write_revision addr keep protect order 0 0 0 0 c r c') as [Ho Hr]; [by rewrite Hp|done|].
    rewrite N.sub_0_r in *. eexists _, _. split_and!; [exact Ho|right; by eapply trim_plan_order|].
    intros rm kp b Hok. destruct (Hr _ _ _ Hok) as (-> & Hs & Hg). split_and!; [lia| |done].
    rewrite <-(length_fmap fst order), Hp in Hs. lia.
  - simplify_eq. exists [], []. split_and!; [apply only_deletes_refl|left; by eauto|done].
Qed.

(** C29: a trim deletes old revisions only. Whatever the cache and the locks
    answer, and also when the trim fails half-way, every revision it deletes
    is one that was listed, is not protected, is not in use, and is not newer
    than any of the [keep] revisions it leaves as the newest; everything else, of
    this target and of all others, is untouched. A trim that succeeds has deleted
    all such revisions, the manifest and every artifact it named, but for what the cache
    acknowledged and did not carry out; and what it reports removed and kept adds up to
    the revisions listed. *)
Theorem trim_keeps_newest addr hashins keep protect c r c' : NoDup hashins ->
  trim_addr_history try_write_revision addr hashins keep protect c = (r, c') ->
  exists newest vs, only addr vs c c' /\
    (vs = [] \/ plan addr hashins keep protect c newest vs) /\
    (forall rm kp b, r = Ok (rm, kp, b) ->
       plan addr hashins keep protect c newest vs /\
       rm = N.of_nat (length vs) /\ (rm + kp = N.of_nat (length hashins))%N /\
       (forall h n, h ∈ vs -> entry_of addr h n c -> gone stored unlanded addr h n c')).
Proof.
  intros Hn Ht. destruct (trim_spec _ _ _ _ _ _ _ Hn Ht) as (newest & vs & Ho & Hp & Hr).
  exists newest, vs. split_and!; [done|destruct Hp as [(-> & _)|?]; auto|].
  intros rm kp b Hok. split; [|by eapply Hr]. destruct Hp as [(_ & _ & e & He)|?]; [congruence|done].
Qed.

(** One manifest that cannot be decoded stops the trims of its target. The
    comment in [trim_addr_history] says an unreadable manifest sorts oldest and
    is the first to be reclaimed; it does when the manifest is missing, but a
    manifest that is there and fails to decode makes the read an error, and the
    trim, after a write or in a sweep, returns it before it has deleted
    anything. *)
Theorem corrupt_manifest_blocks_trim addr hashins keep protect c h e :
  h ∈ hashins -> read_manifest addr h c = Err e -> keep <> 0%N \/ protect <> None ->
  exists e', trim_addr_history try_write_revision addr hashins keep protect c = (Err e', c).
Proof.
  intros Hin He Hk. unfold trim_addr_history, trim_order. assert (Hw : exists e', with_ts addr hashins c = Err e') by by eapply with_ts_err.
  destruct Hw as [e' Ew].
  exists e'. destruct (keep =? 0)%N eqn:E0; [destruct protect; [|bool_simpl; naive_solver]|]; by rewrite Ew.
Qed.

Section after_write.
Variable try_lock_target : arc -> result E bool.
Variable others : C -> C.

(** The trim after a write never deletes the revision just written, nor one
    in use, nor anything of another target; and it changes nothing at all unless
    it holds the target's lock, whatever other processes did until then. *)
Theorem post_write_trim_safe addr keep written c o c' :
  try_trim_after_write try_write_revision try_lock_target others addr keep written c = (o, c') ->
  (c' = c /\ (o = Settled 0 0 \/ o = Contended \/ o = Failed)) \/
  (try_lock_target addr = Ok true /\ exists vs, only addr vs (others c) c' /\
     (written ∉ vs) /\ (forall v, v ∈ vs -> free try_write_revision addr v = true) /\
     (forall rm b, o = Settled rm b -> rm = N.of_nat (length vs))).
Proof.
  unfold try_trim_after_write. intros Ht.
  destruct (list_target_entries addr c) as [pre|e]; [|simplify_eq; left; naive_solver].
  destruct (if decide _ then _ else _) as [count|e]; [|simplify_eq; left; naive_solver].
  destruct (count <=? keep)%N; [simplify_eq; left; naive_solver|].
  destruct (try_lock_target addr) as [[]|e] eqn:El; [|simplify_eq; left; naive_solver..].
  right. split; [done|].
  assert (Hnone : c' = others c -> o = Failed -> exists vs, only addr vs (others c) c' /\ (written ∉ vs) /\
    (forall v, v ∈ vs -> free try_write_revision addr v = true) /\ (forall rm b, o = Settled rm b -> rm = N.of_nat (length vs))).
  { intros -> ->. exists []. split_and!; [apply only_deletes_refl|set_solver|set_solver|done]. }
  destruct (lc_exists addr written MANIFEST_V1 (others c)); [|simplify_eq; auto].
  destruct (list_target_entries addr (others c)) as [hashins|e] eqn:Eh; [|simplify_eq; auto].
  destruct (trim_addr_history try_write_revision addr hashins keep (Some written) (others c)) as [r c1] eqn:Et.
  destruct (trim_spec _ _ _ _ _ _ _ (list_distinct _ _ _ Eh) Et) as (newest & vs & Ho & Hp & Hr).
  assert (Hw : (written ∉ vs) /\ forall v, v ∈ vs -> free try_write_revision addr v = true).
  { destruct Hp as [(-> & _)|Hp]; [set_solver|]. split.
    - intros Hv. by destruct (tp_spared _ _ _ _ _ _ _ _ Hp written Hv) as (_ & ? & _).
    - intros v Hv. by destruct (tp_spared _ _ _ _ _ _ _ _ Hp v Hv) as (_ & _ & ?). }
  destruct Hw as [Hw1 Hw2]. exists vs. destruct r as [[[rm kp] b]|e]; simplify_eq; split_and!; try done.
  intros rm' b' [= <- <-]. by destruct (Hr _ _ _ eq_refl) as [-> _].
Qed.
End after_write.

(** ** The sweep *)

Variable lock_target : arc -> result E unit.
Abbreviation apply_quiet := (gc_apply try_write_revision id lock_target).

(** What one target's task deletes is its own. *)
Lemma gc_apply_only addr d c r c' : apply_quiet addr d c = (r, c') ->
  exists vs, only addr vs c c' /\ (forall v, v ∈ vs -> free try_write_revision addr v = true) /\ (d = Skip -> vs = []).
Proof.
  unfold gc_apply. intros Ha.
  assert (Hnone : c' = c -> exists vs, only addr vs c c' /\
    (forall v, v ∈ vs -> free try_write_revision addr v = true) /\ (d = Skip -> vs = [])).
  { intros ->. exists []. split_and!; [apply only_deletes_refl|set_solver|done]. }
  assert (Htrim : forall hashins keep r1 c1, NoDup hashins ->
    trim_addr_history try_write_revision addr hashins keep None c = (r1, c1) -> c' = c1 -> d <> Skip ->
    exists vs, only addr vs c c' /\ (forall v, v ∈ vs -> free try_write_revision addr v = true) /\ (d = Skip -> vs = [])).
  { intros hs keep r1 c1 Hn Ht -> Hd. destruct (trim_spec _ _ _ _ _ _ _ Hn Ht) as (nw & vs & Ho & Hp & _).
    exists vs. split_and!; [done| |done]. intros v Hv. destruct Hp as [(-> & _)|Hp]; [set_solver|].
    by destruct (tp_spared _ _ _ _ _ _ _ _ Hp v Hv) as (_ & _ & ?). }
  destruct (list_target_entries addr c) as [pre|e]; [|simplify_eq; auto].
  destruct (negb _); [simplify_eq; auto|]. destruct (lock_target addr); [|simplify_eq; auto].
  unfold id in Ha at 1 2 3 4. destruct (list_target_entries addr c) as [hs|e] eqn:Eh; [|simplify_eq; auto].
  pose proof (list_distinct _ _ _ Eh) as Hn.
  destruct d; [destruct (trim_addr_history _ addr hs 0 None c) as [[[[rm kp] b]|e] c1] eqn:Et
    |destruct (trim_addr_history _ addr hs history None c) as [[[[rm kp] b]|e] c1] eqn:Et|simplify_eq; auto];
    simplify_eq; by eapply Htrim.
Qed.

Lemma gc_sweep_spec ds : forall st c st' c',
  gc_sweep try_write_revision id lock_target ds st c = (st', c') ->
  (forall a h, (forall d, (a, d) ∈ ds -> d = Skip) \/ free try_write_revision a h = false -> same_revision stored unlanded a h c c') /\
  (errored st <= errored st' <= errored st + N.of_nat (length (List.filter (fun x => negb (is_skip x.2)) ds)))%N.
Proof.
  induction ds as [|[a d] ds IH]; intros st c st' c' Hs; simpl in Hs.
  { simplify_eq. split; [intros; apply same_revision_refl|simpl; lia]. }
  destruct (is_skip d) eqn:Ed.
  - destruct (IH _ _ _ _ Hs) as [H1 H2]. split; [|simpl; rewrite Ed; simpl; lia].
    intros b h [Hb|Hf]; apply H1; [left|by right]. intros d' Hd'. apply Hb. set_solver.
  - destruct (apply_quiet a d c) as [r c1] eqn:Ea. destruct (IH _ _ _ _ Hs) as [H1 H2]. split.
    + intros b h Hb. destruct (gc_apply_only a d c r c1 Ea) as (vs & Ho & Hv & _).
      apply same_revision_trans with c1.
      * apply Ho. intros [-> Hin]. destruct Hb as [Hb|Hf]; [|rewrite (Hv _ Hin) in Hf; done].
        assert (d = Skip) as -> by (apply Hb; set_solver). done.
      * apply H1. destruct Hb as [Hb|Hf]; [left|by right]. intros d' Hd'. apply Hb. set_solver.
    + cbn [List.filter snd]. rewrite Ed. cbn [negb length]. destruct r; simpl in H2; lia.
Qed.

(** A sweep deletes only what was decided and is not in use. With no other
    process at work, every revision of a target that was skipped or is not in the
    cache's listing, and every revision of any target somebody is reading, is
    untouched; and the targets reported as errored are the skipped ones and, at
    most, those whose task failed. *)
Theorem sweep_touches_decided ds c st c' :
  gc_all try_write_revision id lock_target ds c = (st, c') ->
  (forall a h, (forall d, (a, d) ∈ ds -> d = Skip) \/ free try_write_revision a h = false -> same_revision stored unlanded a h c c') /\
  (N.of_nat (length (List.filter (fun x => is_skip x.2) ds)) <= errored st <= N.of_nat (length ds))%N.
Proof.
  unfold gc_all. intros Hs. destruct (gc_sweep_spec _ _ _ _ _ Hs) as [H1 H2]. simpl in H2. split; [done|].
  assert (Hl : length (List.filter (fun x => is_skip x.2) ds) +
    length (List.filter (fun x => negb (is_skip x.2)) ds) = length ds).
  { clear. induction ds as [|[a d] ds IH]; simpl; [done|]. destruct (is_skip d); simpl; lia. }
  lia.
Qed.
End collection.

(** ** The batch *)

Section batch_spec.
Context {W T : Type} (trim : T -> W -> option TrimOutcome * W) (sleep : W -> W).

(** The same batch with every attempt's outcome written down. *)
Definition logged (t : T) (w : W * list TrimOutcome) : option TrimOutcome * (W * list TrimOutcome) :=
  let '(o, w') := trim t w.1 in (o, (w', w.2 ++ [default Failed o])).
Definition logged_sleep (w : W * list TrimOutcome) : W * list TrimOutcome := (sleep w.1, w.2).

Definition is_settled (o : TrimOutcome) : bool := match o with Settled _ _ => true | _ => false end.
Definition settled (log : list TrimOutcome) : N := N.of_nat (length (List.filter is_settled log)).
Definition removed_of (o : TrimOutcome) : N := match o with Settled rm _ => rm | _ => 0%N end.
Definition removed_in (log : list TrimOutcome) : N := foldr (fun o n => (removed_of o + n)%N) 0%N log.

Lemma settled_snoc log o : settled (log ++ [o]) = (settled log + if is_settled o then 1 else 0)%N.
Proof. unfold settled. rewrite List.filter_app, length_app. simpl. destruct (is_settled o); simpl; lia. Qed.
Lemma removed_in_snoc log o : removed_in (log ++ [o]) = (removed_in log + removed_of o)%N.
Proof. unfold removed_in. induction log as [|p log IH]; simpl; [lia|]. rewrite IH. lia. Qed.

(** What a report says of a log: every attempt settled, failed or is still owed. *)
Record accounts (r : TrimBatchReport) (log : list TrimOutcome) (owed : N) : Prop := {
  ac_batch : (batch r = settled log + b_failed r + still_contended r + owed)%N;
  ac_removed : b_removed r = removed_in log;
}.

(** One attempt: the outcome is logged, and the report takes it in. *)
Lemma contained_logged t w o w' : trim_contained logged t w = (o, w') -> w'.2 = w.2 ++ [o].
Proof.
  unfold trim_contained, logged. destruct (trim t w.1) as [o' w1]. intros [= <- <-]. done.
Qed.

Lemma accounts_settle r log owed rm b : accounts r log (owed + 1) -> accounts (settle rm b r) (log ++ [Settled rm b]) owed.
Proof. intros [H1 H2]. split; simpl; [rewrite settled_snoc; simpl; lia|rewrite removed_in_snoc; simpl; lia]. Qed.
Lemma accounts_fail r log owed : accounts r log (owed + 1) -> accounts (fail r) (log ++ [Failed]) owed.
Proof. intros [H1 H2]. split; simpl; [rewrite settled_snoc; simpl; lia|rewrite removed_in_snoc; simpl; lia]. Qed.
Lemma accounts_contended r log owed : accounts r log owed -> accounts r (log ++ [Contended]) owed.
Proof. intros [H1 H2]. split; [rewrite settled_snoc; simpl; lia|rewrite removed_in_snoc; simpl; lia]. Qed.
Lemma accounts_count r log owed : accounts r log owed -> accounts (count_batch r) log (owed + 1).
Proof. intros [H1 H2]. split; simpl; [lia|done]. Qed.

(** The fields a pass leaves alone. *)
Definition same_marks (r r' : TrimBatchReport) : Prop :=
  retried r' = retried r /\ delayed r' = delayed r /\ still_contended r' = still_contended r.

Lemma pass_spec first ts : forall r again w r' again' w',
  pass logged first ts r again w = (r', again', w') ->
  accounts r w.2 (N.of_nat (length again) + if first : bool then 0 else N.of_nat (length ts))%N ->
  accounts r' w'.2 (N.of_nat (length again')) /\ length w'.2 = length w.2 + length ts /\
  length again' <= length again + length ts /\
  batch r' = (batch r + if first then N.of_nat (length ts) else 0)%N /\ same_marks r r'.
Proof.
  induction ts as [|t ts IH]; intros r again w r' again' w' Hp Ha; cbn [pass] in Hp.
  { simplify_eq. split_and!; [|simpl; lia|simpl; lia|destruct first; simpl; lia|done].
    replace (N.of_nat (length again')) with (N.of_nat (length again') + if first then 0 else N.of_nat (length (@nil T)))%N; [done|].
    destruct first; simpl; lia. }
  unfold attempt_trim in Hp. destruct (trim_contained logged t w) as [o w1] eqn:Et.
  pose proof (contained_logged _ _ _ _ Et) as Hl.
  set (r1 := if first then count_batch r else r) in Hp.
  assert (Ha1 : accounts r1 w.2 (N.of_nat (length again) + (if first then 0 else N.of_nat (length ts)) + 1)%N).
  { unfold r1. destruct first; [rewrite N.add_0_r in *; by apply accounts_count|].
    simpl length in Ha. replace (_ + _ + 1)%N with (N.of_nat (length again) + N.of_nat (S (length ts)))%N by lia. done. }
  assert (Hm1 : same_marks r r1) by (unfold r1; by destruct first).
  assert (Hb1 : batch r1 = (batch r + if first then 1 else 0)%N) by (unfold r1; destruct first; simpl; lia).
  destruct o as [rm b| |];
    (eapply IH in Hp as (H1 & H2 & H3 & H4 & H5);
      [|rewrite Hl; first [by apply accounts_settle|by apply accounts_fail|apply accounts_contended]]).
  - rewrite Hl, length_app in H2. split_and!; [done|simpl in *; lia|simpl; lia| |by destruct H5 as (?&?&?), Hm1 as (?&?&?); simpl in *; split_and!; congruence].
    simpl in H4. rewrite H4, Hb1. destruct first; simpl; lia.
  - rewrite Hl, length_app in H2. rewrite length_app in H3. split_and!; [done|simpl in *; lia|simpl in *; lia| |by destruct H5 as (?&?&?), Hm1 as (?&?&?); split_and!; congruence].
    rewrite H4, Hb1. destruct first; simpl; lia.
  - rewrite length_app. simpl length. by replace (N.of_nat (length again + 1) + _)%N with (N.of_nat (length again) + (if first then 0 else N.of_nat (length ts)) + 1)%N by (destruct first; lia).
  - rewrite Hl, length_app in H2. split_and!; [done|simpl in *; lia|simpl; lia| |by destruct H5 as (?&?&?), Hm1 as (?&?&?); simpl in *; split_and!; congruence].
    simpl in H4. rewrite H4, Hb1. destruct first; simpl; lia.
Qed.

Lemma last_pass_spec ts : forall r w r' w', last_pass logged ts r w = (r', w') ->
  accounts r w.2 (N.of_nat (length ts)) ->
  accounts r' w'.2 0 /\ length w'.2 = length w.2 + length ts /\ batch r' = batch r /\ retried r' = retried r /\
  delayed r' = delayed r /\ (still_contended r' <= still_contended r + N.of_nat (length ts))%N.
Proof.
  induction ts as [|t ts IH]; intros r w r' w' Hp Ha; cbn [last_pass] in Hp.
  { simplify_eq. simpl in *. split_and!; [done|lia|done|done|done|lia]. }
  destruct (trim_contained logged t w) as [o w1] eqn:Et. pose proof (contained_logged _ _ _ _ Et) as Hl.
  assert (Ha1 : accounts r w.2 (N.of_nat (length ts) + 1)).
  { simpl length in Ha. by replace (N.of_nat (length ts) + 1)%N with (N.of_nat (S (length ts))) by lia. }
  eapply IH in Hp as (H1 & H2 & H3 & H4 & H5 & H6).
  - rewrite Hl, length_app in H2. simpl length in *. split_and!; [done|lia|..]; destruct o; simpl in *; try done; lia.
  - rewrite Hl. destruct o; [by apply accounts_settle| |by apply accounts_fail].
    destruct Ha1 as [Hb1 Hr1]. split; simpl; [rewrite settled_snoc; simpl; lia|rewrite removed_in_snoc; simpl; lia].
Qed.

(** A batch of deferred trims accounts for every target in it. Each target
    ends settled, failed or still contended, exactly once; it is attempted at
    most three times, once more for every target found contended by a pass; a
    panic counts as a failure and stops nothing; and what the report says was
    removed is what the attempts removed. *)
Theorem trim_batch_accounts ts w r w' log :
  run_trim_batch_with_delay logged logged_sleep ts (w, []) = (r, (w', log)) ->
  batch r = N.of_nat (length ts) /\
  batch r = (settled log + b_failed r + still_contended r)%N /\
  N.of_nat (length log) = (batch r + retried r + delayed r)%N /\
  (still_contended r <= delayed r /\ delayed r <= retried r /\ retried r <= batch r)%N /\
  b_removed r = removed_in log.
Proof.
  unfold run_trim_batch_with_delay. intros Hr.
  destruct (pass logged true ts report_new [] (w, [])) as [[r1 cont] w1] eqn:E1.
  destruct (pass_spec true ts _ _ _ _ _ _ E1) as ([Hb1 Hm1] & Hl1 & Hc1 & Hn1 & Hs1); [done|].
  destruct Hs1 as (Hre & Hde & Hst). simpl in *.
  destruct cont as [|t0 cont]; [injection Hr as -> ->; simpl in *; split_and!; lia|].
  remember (t0 :: cont) as ct eqn:Ect. clear Ect t0 cont.
  destruct (pass logged false ct _ [] w1) as [[r2 ag] w2] eqn:E2.
  eapply pass_spec in E2 as ([Hb2 Hm2] & Hl2 & Hc2 & Hn2 & Hs2); [|split; simpl; [lia|done]].
  destruct Hs2 as (Hre2 & Hde2 & Hst2). simpl in *.
  destruct ag as [|t1 ag]; [injection Hr as -> ->; simpl in *; split_and!; lia|].
  remember (t1 :: ag) as owed eqn:Eag. clear Eag t1 ag.
  eapply last_pass_spec in Hr as ([Hb3 Hm3] & Hl3 & Hn3 & Hre3 & Hde3 & Hst3); [|split; simpl; [lia|done]].
  simpl in *. split_and!; lia.
Qed.
End batch_spec.

(** ** A cache that keeps the laws *)

(** Entries by key: plain bytes, a manifest, or bytes that do not decode. *)
Inductive blob := Bytes | ManifestBlob (m : Manifest) | Corrupt.
Abbreviation mem_cache := (gmap (arc * str * str) blob).

Definition mem_stored (c : mem_cache) (a : arc) (h n : str) : bool := bool_decide (is_Some (c !! (a, h, n))).

#[export] Instance mem_local_cache : LocalCache mem_cache unit := {
  read_manifest a h c :=
    match c !! (a, h, MANIFEST_V1) with
    | None => Ok None
    | Some (ManifestBlob m) => Ok (Some m)
    | Some _ => Err tt
    end;
  lc_exists a h n c := Ok (mem_stored c a h n);
  existence a h n c := Ok (Committed (mem_stored c a h n));
  lc_delete a h n c := (Ok tt, delete (a, h, n) c);
  list_target_entries a c :=
    Ok (remove_dups (omap (fun '(a', h, _, _) => if decide (a' = a) then Some h else None) (map_to_list c)));
}.

(** Nothing is acknowledged and not carried out. *)
Definition all_land {C} (_ : C) (_ : arc) (_ _ : str) : Prop := False.

#[export] Instance mem_local_cache_laws : LocalCacheLaws mem_cache unit mem_stored all_land.
Proof.
  split.
  - intros c a h n r c' a' h' n' [= <- <-] Hn. unfold mem_stored. by rewrite lookup_delete_ne.
  - intros c a h n c' [= <-]. left. unfold mem_stored. by rewrite lookup_delete_eq.
  - done.
  - intros c a h n r c' a' h' [= <- <-] Hn. cbn. rewrite lookup_delete_ne; [done|]. congruence.
  - intros c a hs [= <-]. apply NoDup_remove_dups.
Qed.

(** Three revisions of target 1; the newest is [b], and [c] is the oldest. *)
Definition sample_cache : mem_cache :=
  list_to_map [((1%N, $"a", MANIFEST_V1), ManifestBlob (mkManifest 20 [mkArtifact $"out" 5]));
    ((1%N, $"a", $"out"), Bytes);
    ((1%N, $"b", MANIFEST_V1), ManifestBlob (mkManifest 30 []));
    ((1%N, $"c", MANIFEST_V1), ManifestBlob (mkManifest 10 []))].

Definition all_free (_ : arc) (_ : str) : result unit bool := Ok true.

Definition present_manifests (c : mem_cache) : list bool :=
  (fun h => mem_stored c 1 h MANIFEST_V1) <$> [$"a"; $"b"; $"c"].

(** Keeping one, and protecting the oldest, deletes [a] and its artifact. *)
Example sample_trim :
  (fun '(r, c) => (r, present_manifests c, mem_stored c 1 $"a" $"out"))
    (trim_addr_history all_free 1 [$"a"; $"b"; $"c"] 1 (Some $"c") sample_cache) =
  (Ok (1%N, 2%N, 5%N), [false; true; true], false).
Proof. vm_compute. reflexivity. Qed.

(** ** Witnesses *)

Lemma sample_distinct : NoDup [$"a"; $"b"; $"c"].
Proof. apply (bool_decide_unpack (NoDup [$"a"; $"b"; $"c"])). vm_compute. exact I. Qed.

Lemma trim_keeps_newest_witness :
  exists newest vs, only_deletes mem_stored all_land 1 vs sample_cache
      (trim_addr_history all_free 1 [$"a"; $"b"; $"c"] 1 (Some $"c") sample_cache).2 /\
    (vs = [] \/ trim_plan all_free 1 [$"a"; $"b"; $"c"] 1 (Some $"c") sample_cache newest vs) /\
    (forall rm kp b, (trim_addr_history all_free 1 [$"a"; $"b"; $"c"] 1 (Some $"c") sample_cache).1 = Ok (rm, kp, b) ->
       trim_plan all_free 1 [$"a"; $"b"; $"c"] 1 (Some $"c") sample_cache newest vs /\
       rm = N.of_nat (length vs) /\ (rm + kp = 3)%N /\
       (forall h n, h ∈ vs -> entry_of 1 h n sample_cache ->
          gone mem_stored all_land 1 h n (trim_addr_history all_free 1 [$"a"; $"b"; $"c"] 1 (Some $"c") sample_cache).2)).
Proof.
  apply (trim_keeps_newest mem_stored all_land all_free 1%N [$"a"; $"b"; $"c"] 1%N (Some $"c") sample_cache);
    [exact sample_distinct|]. apply surjective_pairing.
Defined.

(** The revision [d] has a manifest that does not decode. *)
Definition corrupt_cache : mem_cache := <[(1%N, $"d", MANIFEST_V1) := Corrupt]> sample_cache.

Lemma corrupt_manifest_blocks_trim_witness :
  exists e', trim_addr_history all_free 1 [$"a"; $"b"; $"c"; $"d"] 1 None corrupt_cache = (Err e', corrupt_cache).
Proof.
  apply (corrupt_manifest_blocks_trim mem_stored all_land all_free 1%N _ 1%N None corrupt_cache $"d" tt).
  - apply list_elem_of_In. do 3 right. left. reflexivity.
  - vm_compute. reflexivity.
  - left. discriminate.
Defined.

Definition lock_free (_ : arc) : result unit bool := Ok true.

Lemma post_write_trim_safe_witness :
  lock_free 1 = Ok true /\
  ((sample_cache = sample_cache /\ (Settled 1 5 = Settled 0 0 \/ Settled 1 5 = Contended \/ Settled 1 5 = Failed)) \/
   (lock_free 1 = Ok true /\ exists vs,
     only_deletes mem_stored all_land 1 vs sample_cache
       (try_trim_after_write all_free lock_free id 1 1 $"c" sample_cache).2 /\
     ($"c" ∉ vs) /\ (forall v, v ∈ vs -> free all_free 1 v = true) /\
     (forall rm b, Settled 1 5 = Settled rm b -> rm = N.of_nat (length vs)))).
Proof.
  split; [reflexivity|].
  destruct (post_write_trim_safe mem_stored all_land all_free lock_free id 1%N 1%N $"c" sample_cache (Settled 1 5)
    (try_trim_after_write all_free lock_free id 1 1 $"c" sample_cache).2) as [[_ [H|[H|H]]]|H].
  - rewrite (surjective_pairing (try_trim_after_write _ _ _ _ _ _ _)). f_equal.
  - discriminate.
  - discriminate.
  - discriminate.
  - right. exact H.
Defined.

Lemma sweep_touches_decided_witness :
  (forall a h, (forall d, (a, d) ∈ [(1%N, Trim 1); (2%N, Skip)] -> d = Skip) \/ free all_free a h = false ->
     same_revision mem_stored all_land a h sample_cache
       (gc_all all_free id (fun _ => Ok tt) [(1%N, Trim 1); (2%N, Skip)] sample_cache).2) /\
  (1 <= errored (gc_all all_free id (fun _ => Ok tt) [(1%N, Trim 1); (2%N, Skip)] sample_cache).1 <= 2)%N.
Proof.
  apply (sweep_touches_decided mem_stored all_land all_free (fun _ => Ok tt) [(1%N, Trim 1); (2%N, Skip)] sample_cache).
  apply surjective_pairing.
Defined.

(** Two targets: the first settles, the second is contended until the sleep. *)
Definition sample_batch (t : N) (slept : bool) : option TrimOutcome * bool :=
  ((if (t =? 1)%N then Some (Settled 2 7) else if slept then None else Some Contended), slept).

Lemma trim_batch_accounts_witness :
  (2 = settled [Settled 2 7; Contended; Contended; Failed] + 1 + 0)%N.
Proof.
  apply (trim_batch_accounts sample_batch (fun _ => true) [1%N; 2%N] false
    (mkReport 2 1 1 0 1 2 7) true [Settled 2 7; Contended; Contended; Failed]).
  vm_compute. reflexivity.
Defined.
