(* ===== verification/Clean.v ===== *)
(** [heph clean]: [crates/engine/src/engine/clean.rs].

    A selection that can be decided from an address is evaluated against the
    cache's own keys, streamed into deletions; any other is resolved against the
    graph first. Cleaning a target deletes every revision of it, waiting for the
    readers of each. The cache is the interface of [Gc], the parser of addresses
    and the intern table are the ones of the model, here as parameters. *)
From S2P Require Import Prelude HtPkg HtAddr HtMatcher HtIntern MatchTarget Sorts Gc.

Fixpoint is_addr_only (m : Matcher) : bool :=
  match m with
  | Label _ | Driver _ | TreeOutputTo _ => false
  | Or terms | And terms => forallb is_addr_only terms
  | Not inner => is_addr_only inner
  | MAddr _ | Package _ | PackagePrefix _ => true
  end.

Section clean.
Context {C E : Type} `{LocalCache C E}.
Variable parse_addr : str -> option Addr.
Variable intern : Addr -> arc.
Variable lock_target : arc -> result E unit.
(** [write_revision]: waits for the readers; an error is a cancellation. *)
Variable write_revision : arc -> str -> result E unit.
Variable others : C -> C.

(** The keys of the cache, up to the first error of the stream: the addresses the
    matcher says yes to. *)
Fixpoint select_keys (m : Matcher) (keys : list (result E str)) : list Addr :=
  match keys with
  | [] => []
  | Err _ :: _ => []
  | Ok key :: keys =>
      match parse_addr key with
      | None => select_keys m keys
      | Some addr =>
          if decide (matches_addr m addr = MatchYes) then addr :: select_keys m keys else select_keys m keys
      end
  end.

Fixpoint clean_revisions (addr : arc) (hashins : list str) (bytes : N) (c : C) : result E N * C :=
  match hashins with
  | [] => (Ok bytes, c)
  | h :: hs =>
      match write_revision addr h with
      | Err e => (Err e, c)
      | Ok _ =>
          match gc_entry addr h c with
          | (Err e, c) => (Err e, c)
          | (Ok freed, c) => clean_revisions addr hs (saturating_add bytes freed) c
          end
      end
  end.

(** [(removed, bytes)]. *)
Definition clean_addr (addr : arc) (c : C) : result E (N * N) * C :=
  match list_target_entries addr c with
  | Err e => (Err e, c)
  | Ok [] => (Ok (0%N, 0%N), c)
  | Ok _ =>
      match lock_target addr with
      | Err e => (Err e, c)
      | Ok _ =>
          let c := others c in
          match list_target_entries addr c with
          | Err e => (Err e, c)
          | Ok hashins =>
              match clean_revisions addr hashins 0 c with
              | (Err e, c) => (Err e, c)
              | (Ok bytes, c) => (Ok (N.of_nat (length hashins), bytes), c)
              end
          end
      end
  end.

Record CleanStats := mkCleanStats {
  targets_cleaned : N; cl_revisions_removed : N; cl_bytes_removed : N; cl_errored : N;
}.

(** [None] is a panicked task. *)
Definition drain_one_clean (joined : option (result E (N * N))) (s : CleanStats) : CleanStats :=
  match joined with
  | Some (Ok (removed, bytes)) =>
      mkCleanStats (targets_cleaned s + if (0 <? removed)%N then 1 else 0)
        (cl_revisions_removed s + removed) (saturating_add (cl_bytes_removed s) bytes) (cl_errored s)
  | _ => mkCleanStats (targets_cleaned s) (cl_revisions_removed s) (cl_bytes_removed s) (cl_errored s + 1)
  end.

Fixpoint clean_targets (addrs : list Addr) (s : CleanStats) (c : C) : CleanStats * C :=
  match addrs with
  | [] => (s, c)
  | a :: addrs =>
      let '(r, c) := clean_addr (intern a) c in
      clean_targets addrs (drain_one_clean (Some r) s) c
  end.

(** [resolved] is what the walk of the graph matched. *)
Definition clean (m : Matcher) (keys : list (result E str)) (resolved : list Addr) (c : C) : CleanStats * C :=
  clean_targets (if is_addr_only m then select_keys m keys else resolved) (mkCleanStats 0 0 0 0) c.
End clean.

(** ** The address decides *)

Lemma is_addr_only_decides m addr facts : is_addr_only m = true ->
  matches_addr m addr <> MatchShrug /\ matches_listed m addr facts = matches_addr m addr.
Proof.
  unfold matches_addr. induction m as [a|l|d|p|p|p|ms IH|ms IH|m IH] using Matcher_full_ind; simpl; intros Ha; try done.
  - split; [|done]. by destruct (bool_decide (a = addr)).
  - split; [|done]. by destruct (bool_decide (package addr = p)).
  - split; [|done]. by destruct (has_prefix (package addr) p).
  - rewrite forallb_forall in Ha. rewrite Forall_forall in IH. split.
    + apply or_loop_decided, Forall_forall. intros m Hm. apply IH; [done|]. by apply Ha, list_elem_of_In.
    + apply or_loop_ext, Forall_forall. intros m Hm. apply IH; [done|]. by apply Ha, list_elem_of_In.
  - rewrite forallb_forall in Ha. rewrite Forall_forall in IH. split.
    + apply and_loop_decided, Forall_forall. intros m Hm. apply IH; [done|]. by apply Ha, list_elem_of_In.
    + apply and_loop_ext, Forall_forall. intros m Hm. apply IH; [done|]. by apply Ha, list_elem_of_In.
  - destruct (IH Ha) as [Hn ->]. split; [|done]. by destruct (matches_listed m addr UNKNOWN).
Qed.

(** ** What is deleted *)

Section clean_spec.
Context {C E : Type} `{LocalCache C E} (stored : C -> arc -> str -> str -> bool) (unlanded : C -> arc -> str -> str -> Prop)
  `{!LocalCacheLaws C E stored unlanded}.
Variable parse_addr : str -> option Addr.
Variable intern : Addr -> arc.
Variable lock_target : arc -> result E unit.
Variable write_revision : arc -> str -> result E unit.

Lemma clean_revisions_spec addr hs : forall bytes c r c', NoDup hs ->
  clean_revisions write_revision addr hs bytes c = (r, c') ->
  only_deletes stored unlanded addr hs c c' /\
  (forall b, r = Ok b -> forall h n, h ∈ hs -> entry_of addr h n c -> gone stored unlanded addr h n c').
Proof.
  induction hs as [|h hs IH]; intros bytes c r c' Hn Hc; simpl in Hc.
  { simplify_eq. split; [apply only_deletes_refl|set_solver]. }
  apply NoDup_cons in Hn as [Hni Hn].
  destruct (write_revision addr h) as [u|e]; [|simplify_eq; split; [apply only_deletes_refl|done]].
  destruct (gc_entry addr h c) as [[freed|e] c1] eqn:Eg.
  - destruct (IH _ _ _ _ Hn Hc) as [Ho Hr]. assert (Ho1 : only_deletes stored unlanded addr [h] c c1) by by eapply gc_entry_only.
    split; [by apply (only_deletes_trans stored unlanded addr [h]) with c1|]. intros b Hb h' n [->|Hin]%elem_of_cons Hn'.
    + eapply same_revision_gone; [apply Ho; by intros [_ ?]|]. by eapply gc_entry_gone.
    + eapply Hr; [done..|]. eapply same_entries; [apply Ho1|done]. by intros [_ ->%list_elem_of_singleton].
  - simplify_eq. split; [|done]. apply (only_deletes_mono stored unlanded addr [h]); [set_solver|by eapply gc_entry_only].
Qed.

Abbreviation clean_addr_quiet := (clean_addr lock_target write_revision id).

Lemma clean_addr_spec addr c r c' : clean_addr_quiet addr c = (r, c') ->
  (forall a h, a <> addr -> same_revision stored unlanded a h c c') /\
  (forall x, r = Ok x -> forall hs h, list_target_entries addr c = Ok hs -> h ∈ hs -> forall n, entry_of addr h n c -> gone stored unlanded addr h n c').
Proof.
  unfold clean_addr. intros Hc.
  assert (Hsame : forall a h, a <> addr -> same_revision stored unlanded a h c c) by (intros; apply same_revision_refl).
  destruct (list_target_entries addr c) as [hs0|e] eqn:E0; [|by simplify_eq].
  destruct hs0 as [|h0 hs0]; [simplify_eq; split; [done|]; intros; simplify_eq; set_solver|].
  destruct (lock_target addr) as [u|e]; [|by simplify_eq].
  unfold id in Hc. rewrite E0 in Hc. set (hs := h0 :: hs0) in *.
  destruct (clean_revisions write_revision addr hs 0 c) as [rc c1] eqn:Ec.
  destruct (clean_revisions_spec _ _ _ _ _ _ (list_distinct _ _ _ E0) Ec) as [Ho Hr].
  assert (c' = c1) as -> by (destruct rc; by simplify_eq). split.
  - intros a h Ha. apply Ho. by intros [-> _].
  - intros x Hx hs' h [= <-] Hin n Hn. destruct rc as [b|e]; [by eapply Hr|by simplify_eq].
Qed.

Lemma clean_targets_spec addrs : forall s c s' c',
  clean_targets intern lock_target write_revision id addrs s c = (s', c') ->
  (forall a h, (forall x, x ∈ addrs -> intern x <> a) -> same_revision stored unlanded a h c c') /\
  (cl_errored s <= cl_errored s' <= cl_errored s + N.of_nat (length addrs))%N.
Proof.
  induction addrs as [|x addrs IH]; intros s c s' c' Hc; simpl in Hc.
  { simplify_eq. split; [intros; apply same_revision_refl|simpl; lia]. }
  destruct (clean_addr_quiet (intern x) c) as [r c1] eqn:E1. destruct (clean_addr_spec _ _ _ _ E1) as [H1 _].
  destruct (IH _ _ _ _ Hc) as [H2 H3]. split.
  - intros a h Hn. apply same_revision_trans with c1; [apply H1; intros ->; by eapply (Hn x); [set_solver|]|].
    apply H2. set_solver.
  - simpl length. destruct r as [[rm b]|e]; simpl in H3; lia.
Qed.

Lemma select_keys_elem m (keys : list (result E str)) a : a ∈ select_keys parse_addr m keys -> matches_addr m a = MatchYes.
Proof.
  induction keys as [|[key|e] keys IH]; simpl; [set_solver| |set_solver].
  destruct (parse_addr key) as [x|]; [|done]. case_decide; [|done]. intros [->|?]%elem_of_cons; auto.
Qed.

(** Cleaning by address deletes what the selection selects. When every part
    of the selection can be decided from an address, the verdict on an address is
    the one every later stage of matching would give, never undecided, and a run
    on a cache nobody else changes leaves untouched every revision of every target
    the selection does not match. *)
Theorem clean_addr_only_exact m keys resolved c s c' : is_addr_only m = true ->
  clean parse_addr intern lock_target write_revision id m keys resolved c = (s, c') ->
  (forall addr facts, matches_addr m addr <> MatchShrug /\ matches_listed m addr facts = matches_addr m addr) /\
  (forall a h, (forall x, intern x = a -> matches_addr m x = MatchNo) -> same_revision stored unlanded a h c c') /\
  (cl_errored s <= N.of_nat (length (select_keys parse_addr m keys)))%N.
Proof.
  unfold clean. intros Hm Hc. rewrite Hm in Hc. destruct (clean_targets_spec _ _ _ _ _ Hc) as [H1 H2].
  split_and!; [intros; by apply is_addr_only_decides| |simpl in H2; lia].
  intros a h Hn. apply H1. intros x Hx%select_keys_elem Ex. specialize (Hn x Ex). congruence.
Qed.
End clean_spec.

(** ** Witness *)

Definition sample_target : Addr := mkAddr $"p" $"x" [].

Definition sample_clean : CleanStats * mem_cache :=
  clean (fun _ => Some sample_target) (fun _ => 1%N) (fun _ => Ok tt) (fun _ _ => Ok tt) id
    (PackagePrefix $"p") [Ok $"//p:x"] [] sample_cache.

Lemma clean_addr_only_exact_witness :
  present_manifests sample_clean.2 = [false; false; false] /\
  (forall h, same_revision mem_stored all_land 2 h sample_cache sample_clean.2).
Proof.
  split; [vm_compute; reflexivity|]. intros h.
  apply (clean_addr_only_exact mem_stored all_land (fun _ => Some sample_target) (fun _ => 1%N) (fun _ => Ok tt) (fun _ _ => Ok tt)
    (PackagePrefix $"p") [Ok $"//p:x"] [] sample_cache sample_clean.1 sample_clean.2 eq_refl (surjective_pairing _)).
  intros x [=].
Defined.
