(* ===== verification/TargetRef.v ===== *)
(** References to outputs of targets, and the sandbox a target hands to its
    dependents: [TargetAddr] and [mod sandbox] of [crates/plugin/src/driver.rs].

    A [TargetAddr] is written [//pkg:name|output[filter,filter]]. It is printed
    by its [Display] and read back by [TargetAddr::parse], which its [Serialize]
    and [Deserialize] go through as well. The sandbox keeps, beside its tools and
    dependencies, the set of their keys, which deduplicates them. *)
From S2P Require Import Prelude Nom HtPkg HtAddr.

(** ** Target references *)

Record TargetAddr := mkTargetAddr { ref : Addr; output : option str; filters : list str }.

#[export] Instance TargetAddr_eq_dec : EqDecision TargetAddr.
Proof. solve_decision. Defined.

(** [Display for TargetAddr]. *)
Definition display (t : TargetAddr) : str :=
  (match output t with
   | Some output => format (ref t) ++ $"|" ++ output
   | None => format (ref t)
   end) ++
  (match filters t with [] => [] | fs => $"[" ++ join $"," fs ++ $"]" end).

(** The loop of [split_filters]. *)
Fixpoint split_filters_loop (depth : nat) (cur : str) (out : list str) (s : str) : list str :=
  match s with
  | [] => out ++ [cur]
  | c :: s =>
      if decide (c = #"{") then split_filters_loop (S depth) (cur ++ [c]) out s
      else if decide (c = #"}") then split_filters_loop (pred depth) (cur ++ [c]) out s
      else if decide (c = #"," /\ depth = 0) then split_filters_loop depth [] (out ++ [cur]) s
      else split_filters_loop depth (cur ++ [c]) out s
  end.

Definition split_filters (rest : str) : list str :=
  match rest with [] => [] | _ => split_filters_loop 0 [] [] rest end.

Inductive target_addr_error := UnclosedBracket (v : str) | TargetAddrRef (e : addr_error) | InvalidAddress.

(** The trailing [[filter1,filter2]], taken off the text. *)
Definition take_filters (v : str) : result target_addr_error (str * list str) :=
  match rsplit_once #"[" v with
  | Some (addr_part, rest) =>
      match strip_suffix $"]" rest with
      | None => Err (UnclosedBracket v)
      | Some rest => Ok (addr_part, split_filters rest)
      end
  | None => Ok (v, [])
  end.

Section parse.
Context {nom : Nom}.

Definition parse (v : str) (base : PkgBuf) : result target_addr_error TargetAddr :=
  '(v, filters) ← take_filters v;
  match split_on #"|" v with
  | [v] => r ← map_err TargetAddrRef (parse_addr_with_base v base); Ok (mkTargetAddr r None filters)
  | [addr; out] =>
      r ← map_err TargetAddrRef (parse_addr_with_base addr base); Ok (mkTargetAddr r (Some out) filters)
  | _ => Err InvalidAddress
  end.
End parse.

(** ** Sandboxes *)

Inductive Mode := ModeNone | ModeLink.
Record Tool := mkTool { tool_ref : TargetAddr; tool_group : str; tool_hash : bool; tool_id : str }.
Record Dep := mkDep {
  dep_ref : TargetAddr; dep_mode : Mode; dep_group : str; dep_runtime : bool; dep_hash : bool; dep_id : str
}.
Inductive EnvValue := Literal (s : str) | Pass.
Record Env := mkEnv { env_value : EnvValue; env_hash : bool; env_append : bool; env_append_prefix : str }.

Record Sandbox := mkSandbox {
  tools : list Tool; deps : list Dep; env : gmap str Env;
  tool_keys : gset str; dep_keys : gset str
}.

Definition Sandbox_default : Sandbox := mkSandbox [] [] ∅ ∅ ∅.

Definition unit_separator : char := 31%N.

Definition tool_key (t : Tool) : str := display (tool_ref t) ++ unit_separator :: tool_group t.

(** [{:?}] of a mode is its name. *)
Definition dep_key (d : Dep) : str :=
  display (dep_ref d) ++ unit_separator :: dep_group d ++
  unit_separator :: (match dep_mode d with ModeNone => $"None" | ModeLink => $"Link" end).

Definition push_tool (self : Sandbox) (t : Tool) : bool * Sandbox :=
  if decide (tool_key t ∈ tool_keys self) then (false, self)
  else (true, mkSandbox (tools self ++ [t]) (deps self) (env self) ({[tool_key t]} ∪ tool_keys self) (dep_keys self)).

Definition push_dep (self : Sandbox) (d : Dep) : bool * Sandbox :=
  if decide (dep_key d ∈ dep_keys self) then (false, self)
  else (true, mkSandbox (tools self) (deps self ++ [d]) (env self) (tool_keys self) ({[dep_key d]} ∪ dep_keys self)).

(** The renamed tool and dependency of [merge_sandbox]. *)
Definition inbound_tool (id : str) (t : Tool) : Tool :=
  mkTool (tool_ref t) (tool_group t) (tool_hash t) (id ++ $"_tool_" ++ tool_id t).
Definition inbound_dep (id : str) (d : Dep) : Dep :=
  mkDep (dep_ref d) (dep_mode d) (dep_group d) (dep_runtime d) (dep_hash d) (id ++ $"_dep_" ++ dep_id d).

Definition push_tools (self : Sandbox) (ts : list Tool) : Sandbox :=
  foldl (fun s t => (push_tool s t).2) self ts.
Definition push_deps (self : Sandbox) (ds : list Dep) : Sandbox :=
  foldl (fun s d => (push_dep s d).2) self ds.

(** [merge_sandbox]; [extend] lets the inbound entry win. *)
Definition merge_sandbox (self inbound : Sandbox) (id : str) : Sandbox :=
  let self := push_tools self (inbound_tool id <$> tools inbound) in
  let self := push_deps self (inbound_dep id <$> deps inbound) in
  mkSandbox (tools self) (deps self) (env inbound ∪ env self) (tool_keys self) (dep_keys self).

Definition sandbox_empty (self : Sandbox) : bool :=
  bool_decide (tools self = [] /\ deps self = [] /\ env self = ∅).

(** ** Filters *)

(** The brace depth after [s], unless a comma at depth zero splits it. *)
Fixpoint depth_after (depth : nat) (s : str) : option nat :=
  match s with
  | [] => Some depth
  | c :: s =>
      if decide (c = #"{") then depth_after (S depth) s
      else if decide (c = #"}") then depth_after (pred depth) s
      else if decide (c = #"," /\ depth = 0) then None
      else depth_after depth s
  end.

(** A list of filters that reads back: no filter has a comma outside braces or
    leaves a brace open, and the list is not one empty filter. *)
Definition filters_ok (fs : list str) : Prop :=
  Forall (fun f => depth_after 0 f = Some 0 /\ #"[" ∉ f) fs /\ fs <> [[]].

Lemma split_filters_loop_app f : forall depth d cur out s,
  depth_after depth f = Some d ->
  split_filters_loop depth cur out (f ++ s) = split_filters_loop d (cur ++ f) out s.
Proof.
  induction f as [|c f IH]; intros depth d cur out s; simpl; [intros [= ->]; by rewrite app_nil_r|].
  repeat case_decide; intros Hd; try done; by rewrite (IH _ d), <-app_assoc.
Qed.

Lemma split_filters_loop_join fs : forall f out, Forall (fun f => depth_after 0 f = Some 0) (f :: fs) ->
  split_filters_loop 0 [] out (join $"," (f :: fs)) = out ++ f :: fs.
Proof.
  induction fs as [|g fs IH]; intros f out Hf; inversion_clear Hf as [|?? Hd Hfs].
  - simpl. rewrite <-(app_nil_r f) at 1. by rewrite (split_filters_loop_app f 0 0).
  - change (join $"," (f :: g :: fs)) with (f ++ #"," :: join $"," (g :: fs)).
    rewrite (split_filters_loop_app f 0 0) by done. cbn [split_filters_loop].
    rewrite decide_False, decide_False, decide_True by done. rewrite IH by done.
    by rewrite <-app_assoc.
Qed.

Lemma split_filters_join fs : filters_ok fs -> fs <> [] -> split_filters (join $"," fs) = fs.
Proof.
  intros [Hf Hne] Hnil. destruct fs as [|f fs]; [done|].
  assert (Hd : Forall (fun f => depth_after 0 f = Some 0) (f :: fs))
    by (eapply Forall_impl; [exact Hf|]; naive_solver).
  unfold split_filters. destruct (join $"," (f :: fs)) eqn:Hj.
  - exfalso. destruct fs; simpl in Hj; [by subst|]. by destruct f.
  - rewrite <-Hj. by rewrite split_filters_loop_join.
Qed.

(** Splitting loses nothing. *)
Lemma split_filters_lossless s : s <> [] -> join $"," (split_filters s) = s.
Proof.
  intros Hs. assert (forall s depth cur out, join $"," (split_filters_loop depth cur out s) =
    match out with [] => cur ++ s | _ => join $"," out ++ #"," :: cur ++ s end) as H.
  { clear. induction s as [|c s IH]; intros depth cur out; cbn [split_filters_loop].
    - rewrite app_nil_r. destruct out as [|o out]; [done|]. by rewrite join_app.
    - repeat case_decide; rewrite IH, <-?app_assoc; try done. destruct_and?. subst.
      destruct out as [|o out]; [done|]. rewrite join_app by done. simpl. by rewrite <-app_assoc. }
  unfold split_filters. destruct s; [done|]. by rewrite H.
Qed.

(** ** Round trip *)

(** The text before the filters. *)
Definition head (t : TargetAddr) : str :=
  match output t with Some output => format (ref t) ++ $"|" ++ output | None => format (ref t) end.

(** A reference that the syntax can carry: a well-formed address with no bar in
    its text, an output with none either, filters that read back, and no bracket
    outside the filters unless filters follow it. *)
Record target_addr_wf (t : TargetAddr) : Prop := {
  ta_ref : addr_wf (ref t);
  ta_bar : #"|" ∉ format (ref t);
  ta_output : forall o, output t = Some o -> #"|" ∉ o;
  ta_filters : filters_ok (filters t);
  ta_bracket : filters t = [] -> #"[" ∉ head t;
}.

Section laws.
Context {nom : Nom} {laws : NomLaws nom}.

Lemma parse_addr_with_base_format a base : addr_wf a -> parse_addr_with_base (format a) base = Ok a.
Proof.
  intros Ha. unfold parse_addr_with_base. change (starts_with $"//" (format a)) with true.
  by apply parse_addr_format.
Qed.

Lemma split_head t : target_addr_wf t ->
  split_on #"|" (head t) = match output t with Some o => [format (ref t); o] | None => [format (ref t)] end.
Proof.
  intros [_ Hb Ho _ _]. unfold head. destruct (output t) as [o|]; [|by apply split_on_no_sep].
  change (format (ref t) ++ $"|" ++ o) with (format (ref t) ++ #"|" :: o).
  rewrite split_on_app, !split_on_no_sep; [done|by apply Ho|done].
Qed.

Lemma join_chars (c sep : char) l : c <> sep -> Forall (fun x => c ∉ x) l -> c ∉ join [sep] l.
Proof.
  intros Hc. induction 1 as [|x l Hx Hl IH]; [by apply not_elem_of_nil|].
  destruct l as [|y l]; [done|]. change (join [sep] (x :: y :: l)) with (x ++ sep :: join [sep] (y :: l)).
  set_solver.
Qed.

Lemma take_filters_display t : target_addr_wf t -> take_filters (display t) = Ok (head t, filters t).
Proof.
  intros [_ _ _ [Hf Hne] Hb]. unfold take_filters, display. fold (head t). destruct (filters t) as [|f fs] eqn:Hfs.
  - rewrite app_nil_r. by rewrite (proj2 (rsplit_once_None _ _) (Hb eq_refl)).
  - assert (Hn : #"[" ∉ join $"," (f :: fs)).
    { apply join_chars; [done|]. eapply Forall_impl; [exact Hf|]. naive_solver. }
    rewrite (proj2 (rsplit_once_Some #"[" _ (head t) (join $"," (f :: fs) ++ $"]"))); [|set_solver].
    rewrite strip_suffix_app. by rewrite split_filters_join.
Qed.

(** A reference to an output reads back. Printing a reference that its syntax
    can carry and parsing the text, in any package, gives the reference: the
    address, the output group and every filter, commas inside braces included. *)
Theorem target_addr_roundtrip t base : target_addr_wf t -> parse (display t) base = Ok t.
Proof.
  intros Hwf. unfold parse. rewrite take_filters_display by done. cbn [mbind result_bind].
  rewrite split_head by done. pose proof (ta_ref t Hwf) as Ha.
  destruct t as [r [o|] fs]; simpl in *; by rewrite parse_addr_with_base_format.
Qed.

(** What precedes the last bracket of a text is read as an address. *)
Lemma parse_last_bracket a rest base : addr_wf a -> #"|" ∉ format a -> #"[" ∉ rest ->
  parse (format a ++ $"[" ++ rest ++ $"]") base = Ok (mkTargetAddr a None (split_filters rest)).
Proof.
  intros Ha Hb Hr. unfold parse, take_filters.
  rewrite (proj2 (rsplit_once_Some #"[" _ (format a) (rest ++ $"]"))); [|set_solver].
  rewrite strip_suffix_app. cbn [mbind result_bind]. rewrite split_on_no_sep by done.
  by rewrite parse_addr_with_base_format.
Qed.
End laws.

(** [//@heph/fs:glob@p=src/[ab]], the files a character class selects. *)
Definition glob_ref : TargetAddr := mkTargetAddr (mkAddr $"@heph/fs" $"glob" [($"p", $"src/[ab]")]) None [].
Definition misread_ref : TargetAddr :=
  mkTargetAddr (mkAddr $"@heph/fs" $"glob" [($"p", $"src/")]) None [$"ab"].

(** [//foo:bar[src/[ab].go]]: one filter with a character class. *)
Definition class_filter : str := $"//foo:bar[src/[ab].go]".
Definition class_misread : TargetAddr := mkTargetAddr (mkAddr $"foo" $"bar[src/" []) None [$"ab].go"].

Ltac solve_sample_wf := match goal with
  |- addr_wf ?a => apply (@parse_addr_ok_wf nom_ref nom_ref_laws (format a)); vm_compute; reflexivity end.

(** A bracket inside a reference is taken for its filters. The filters start
    at the last bracket, so the text of a well-formed reference to a glob with a
    character class reads back, without an error, as another glob with a filter;
    and a filter that is itself such a glob, which the syntax documents as one,
    names another target. *)
Theorem target_addr_bracket_misread {nom : Nom} {laws : NomLaws nom} base :
  addr_wf (ref glob_ref) /\ parse (display glob_ref) base = Ok misread_ref /\ misread_ref <> glob_ref /\
  parse class_filter base = Ok class_misread.
Proof.
  split_and!; [unfold glob_ref; simpl; solve_sample_wf| |done|].
  - change (display glob_ref) with (format (ref misread_ref) ++ $"[" ++ $"ab" ++ $"]").
    rewrite parse_last_bracket; [done|unfold misread_ref; simpl; solve_sample_wf|vm_compute; set_solver|set_solver].
  - change class_filter with (format (ref class_misread) ++ $"[" ++ $"ab].go" ++ $"]").
    rewrite parse_last_bracket; [done|unfold class_misread; simpl; solve_sample_wf|vm_compute; set_solver|set_solver].
Qed.

(** ** Deduplication *)

(** The key sets mirror the lists, which hold one entry per key. *)
Record sandbox_wf (s : Sandbox) : Prop := {
  sb_tools : tool_keys s = list_to_set (tool_key <$> tools s);
  sb_tools_nodup : NoDup (tool_key <$> tools s);
  sb_deps : dep_keys s = list_to_set (dep_key <$> deps s);
  sb_deps_nodup : NoDup (dep_key <$> deps s);
}.

(** How a run of pushes extends a list: what was there stays in front, what is
    new was pushed, and every key pushed is represented. *)
Definition extends {A} (key : A -> str) (old pushed new : list A) : Prop :=
  (exists added, new = old ++ added /\ added ⊆ pushed) /\
  forall k, k ∈ key <$> new <-> k ∈ key <$> old \/ k ∈ key <$> pushed.

Lemma extends_refl {A} (key : A -> str) l : extends key l [] l.
Proof. split; [exists []; rewrite app_nil_r; by split|]. intros k. set_solver. Qed.

Lemma extends_step {A} (key : A -> str) old x pushed mid new :
  (mid = old ++ [x] \/ mid = old /\ key x ∈ key <$> old) ->
  extends key mid pushed new -> extends key old (x :: pushed) new.
Proof.
  intros Hmid [(added & -> & Hadd) Hk]. split.
  - destruct Hmid as [->|[-> _]]; [exists (x :: added); rewrite <-app_assoc; set_solver|exists added; set_solver].
  - intros k. rewrite Hk, fmap_cons, elem_of_cons. destruct Hmid as [->|[-> Hx]]; [rewrite fmap_app|]; set_solver.
Qed.

Lemma push_tool_spec s t : sandbox_wf s ->
  let s' := (push_tool s t).2 in
  sandbox_wf s' /\ deps s' = deps s /\ env s' = env s /\
  (tools s' = tools s ++ [t] \/ tools s' = tools s /\ tool_key t ∈ tool_key <$> tools s).
Proof.
  intros [Ht Hn Hd Hdn]. unfold push_tool. case_decide as H; simpl.
  - split_and!; try done. right. split; [done|]. rewrite Ht in H. by apply elem_of_list_to_set in H.
  - rewrite Ht in H. rewrite elem_of_list_to_set in H. split_and!; [|done|done|by left]. split; simpl; [| |done|done].
    + rewrite Ht, fmap_app, list_to_set_app_L. simpl. set_solver.
    + rewrite fmap_app. apply NoDup_app. split_and!; [done|set_solver|apply NoDup_singleton].
Qed.

Lemma push_dep_spec s d : sandbox_wf s ->
  let s' := (push_dep s d).2 in
  sandbox_wf s' /\ tools s' = tools s /\ env s' = env s /\
  (deps s' = deps s ++ [d] \/ deps s' = deps s /\ dep_key d ∈ dep_key <$> deps s).
Proof.
  intros [Ht Hn Hd Hdn]. unfold push_dep. case_decide as H; simpl.
  - split_and!; try done. right. split; [done|]. rewrite Hd in H. by apply elem_of_list_to_set in H.
  - rewrite Hd in H. rewrite elem_of_list_to_set in H. split_and!; [|done|done|by left]. split; simpl; [done|done| |].
    + rewrite Hd, fmap_app, list_to_set_app_L. simpl. set_solver.
    + rewrite fmap_app. apply NoDup_app. split_and!; [done|set_solver|apply NoDup_singleton].
Qed.

Lemma push_tools_spec ts : forall s, sandbox_wf s ->
  sandbox_wf (push_tools s ts) /\ deps (push_tools s ts) = deps s /\ env (push_tools s ts) = env s /\
  extends tool_key (tools s) ts (tools (push_tools s ts)).
Proof.
  induction ts as [|t ts IH]; intros s Hs; simpl; [by auto using extends_refl|].
  destruct (push_tool_spec s t Hs) as (Hw & Hd & He & Hx). destruct (IH _ Hw) as (Hw' & Hd' & He' & Hx').
  unfold push_tools in *. split_and!; [done|congruence..|]. by eapply extends_step.
Qed.

Lemma push_deps_spec ds : forall s, sandbox_wf s ->
  sandbox_wf (push_deps s ds) /\ tools (push_deps s ds) = tools s /\ env (push_deps s ds) = env s /\
  extends dep_key (deps s) ds (deps (push_deps s ds)).
Proof.
  induction ds as [|d ds IH]; intros s Hs; simpl; [by auto using extends_refl|].
  destruct (push_dep_spec s d Hs) as (Hw & Hd & He & Hx). destruct (IH _ Hw) as (Hw' & Hd' & He' & Hx').
  unfold push_deps in *. split_and!; [done|congruence..|]. by eapply extends_step.
Qed.

(** Merging sandboxes deduplicates. Whatever is merged in, the key sets keep
    mirroring the tools and dependencies and no key appears twice; what was
    there keeps its place and wins over what comes in; every tool and dependency
    merged in is represented by its key, under an id of its own; and of two
    values for a variable the one merged in wins. *)
Theorem merge_sandbox_dedupes self inbound id :
  sandbox_wf self ->
  let merged := merge_sandbox self inbound id in
  sandbox_wf merged /\
  extends tool_key (tools self) (inbound_tool id <$> tools inbound) (tools merged) /\
  extends dep_key (deps self) (inbound_dep id <$> deps inbound) (deps merged) /\
  forall k, env merged !! k = match env inbound !! k with Some v => Some v | None => env self !! k end.
Proof.
  intros Hs merged. unfold merged, merge_sandbox.
  destruct (push_tools_spec (inbound_tool id <$> tools inbound) self Hs) as (Hw & Hd & He & Hx).
  destruct (push_deps_spec (inbound_dep id <$> deps inbound) _ Hw) as (Hw' & Ht' & He' & Hx').
  rewrite Hd in Hx'. split_and!; simpl.
  - by destruct Hw' as [? ? ? ?].
  - by rewrite Ht'.
  - done.
  - intros k. rewrite lookup_union, He', He. by destruct (env inbound !! k), (env self !! k).
Qed.

(** ** Witnesses *)

Definition sample_ref : TargetAddr :=
  mkTargetAddr (mkAddr $"foo" $"bar" []) (Some $"src") [$"src/{a,b}.go"; $"bin/**"].

Lemma sample_ref_wf : target_addr_wf sample_ref.
Proof.
  split; simpl.
  - solve_sample_wf.
  - vm_compute. set_solver.
  - intros o [= <-]. set_solver.
  - split; [|done]. repeat (apply Forall_cons; split); [split; [reflexivity|set_solver]..|constructor].
  - done.
Qed.

Lemma target_addr_roundtrip_witness : @parse nom_ref (display sample_ref) [] = Ok sample_ref.
Proof. apply (@target_addr_roundtrip nom_ref nom_ref_laws sample_ref [] sample_ref_wf). Defined.

Definition sample_tool : Tool := mkTool sample_ref [] true $"a".
Definition sample_sandbox : Sandbox := (push_tool Sandbox_default sample_tool).2.

Lemma merge_sandbox_dedupes_witness :
  sandbox_wf (merge_sandbox sample_sandbox sample_sandbox $"x") /\
  tools (merge_sandbox sample_sandbox sample_sandbox $"x") = [sample_tool].
Proof.
  split; [|vm_compute; reflexivity]. apply (merge_sandbox_dedupes sample_sandbox sample_sandbox $"x").
  apply (push_tool_spec Sandbox_default). split; [done|constructor|done|constructor].
Defined.

Lemma target_addr_bracket_misread_witness :
  @parse nom_ref (display glob_ref) [] = Ok misread_ref /\ @parse nom_ref class_filter [] = Ok class_misread.
Proof.
  destruct (@target_addr_bracket_misread nom_ref nom_ref_laws []) as (_ & H & _ & H'). split; [exact H|exact H'].
Defined.
