(* ===== verification/Expand.v ===== *)
(** Resolving the inputs of a target: [crates/engine/src/engine/expand.rs], with
    the input data of [plugin/src/driver.rs], the file-system addresses of
    [builtins/src/pluginfs/mod.rs] and the refusal of [engine/invoke.rs].

    Two rewritings turn the inputs a target declares into the inputs it is run
    with. The magic input [//@heph/introspect:outputs] becomes one file-system
    input per output the target declares; then every input that is a transparent
    group is replaced by the members of the group, recursively, each member
    routed the way the group was.

    Definitions come from the request's [get_def], the parameter [get_def]: it
    is memoized per request and an expansion stops at its first error, so within
    one expansion it is a function of the address. [visited] is threaded as the
    code threads it, inserted into before a group is entered and removed from
    after it. The recursion follows the group graph, so it carries fuel. *)
From S2P Require Import Prelude Nom HtPkg HtAddr MatchTarget DepPath TargetRef.

(** ** Data *)

Inductive InputMode := Standard | Link | Tool.
#[export] Instance InputMode_eq_dec : EqDecision InputMode.
Proof. solve_decision. Defined.

(** [annotations] is a [BTreeMap] that is only looked up and inserted into here. *)
Record Input := mkInput {
  input_ref : TargetAddr; mode : InputMode; origin_id : str;
  annotations : gmap str str; hashed : bool; runtime : bool
}.

(** The address an input refers to. *)
Abbreviation input_addr i := (ref (input_ref i)).

(** What an expansion reads of a [TargetDef]; [Ep] is the entrypoint's own data. *)
Record TargetDef (Ep : Type) := mkTargetDef {
  inputs : list Input; def_outputs : list Output; transparent : bool; entrypoint : option Ep
}.
Arguments mkTargetDef {Ep}.
Arguments inputs {Ep} _.
Arguments def_outputs {Ep} _.
Arguments transparent {Ep} _.
Arguments entrypoint {Ep} _.

Record ParentOverride := mkParentOverride {
  po_origin_id : str; po_mode : InputMode; po_annotations : gmap str str;
  po_hashed : bool; po_runtime : bool
}.

(** ** The introspection input *)

Definition INTROSPECT_PKG : str := $"@heph/introspect".
Definition INTROSPECT_OUTPUTS_NAME : str := $"outputs".
Definition FS_PKG : str := $"@heph/fs".

Definition file_addr (path : str) : Addr := Addr_new FS_PKG $"file" [($"f", path)].

Definition glob_addr (pattern : str) (exclude : list str) : Addr :=
  Addr_new FS_PKG $"glob"
    (match exclude with
     | [] => bt_insert $"p" pattern []
     | _ => bt_insert $"e" (join $"," exclude) (bt_insert $"p" pattern [])
     end).

Definition is_introspect_outputs (addr : Addr) : bool :=
  bool_decide (package addr = INTROSPECT_PKG) && bool_decide (name addr = INTROSPECT_OUTPUTS_NAME).

Definition introspect_input (fs_addr : Addr) (template : Input) : Input :=
  mkInput (mkTargetAddr fs_addr None []) (mode template) (origin_id template)
    (annotations template) true true.

(** The [match &path.content] of [synthesized_fs_inputs]. *)
Definition content_addr (c : Content) : Addr :=
  match c with
  | FilePath p => file_addr p
  | Glob p => glob_addr p []
  | DirPath p => glob_addr (trim_end_matches (N.eqb #"/") p ++ $"/**/*") []
  end.

(** The inner loop: [seen] and [out] of the whole expansion. *)
Fixpoint synthesize_paths (template : Input) (ps : list Path) (seen : list Addr) (out : list Input)
    : list Addr * list Input :=
  match ps with
  | [] => (seen, out)
  | p :: ps =>
      let fs_addr := content_addr (content p) in
      if decide (fs_addr ∈ seen) then synthesize_paths template ps seen out
      else synthesize_paths template ps (fs_addr :: seen) (out ++ [introspect_input fs_addr template])
  end.

Fixpoint synthesize_outputs (template : Input) (os : list Output) (seen : list Addr) (out : list Input)
    : list Input :=
  match os with
  | [] => out
  | o :: os =>
      let '(seen, out) := synthesize_paths template (paths o) seen out in
      synthesize_outputs template os seen out
  end.

Definition synthesized_fs_inputs (os : list Output) (template : Input) : list Input :=
  synthesize_outputs template os [] [].

Definition expand_introspect_inputs {Ep} (def : TargetDef Ep) : TargetDef Ep :=
  if negb (existsb (fun i => is_introspect_outputs (input_addr i)) (inputs def)) then def
  else
    mkTargetDef
      (foldl (fun rebuilt input =>
                if is_introspect_outputs (input_addr input)
                then rebuilt ++ synthesized_fs_inputs (def_outputs def) input
                else rebuilt ++ [input]) [] (inputs def))
      (def_outputs def) (transparent def) (entrypoint def).

(** ** Transparent groups *)

Inductive expand_error (E : Type) :=
| DefFailed (e : E)
| EntrypointAsInput (addr : Addr) (origin : str) (consumer : option Addr)
| CircularGroup (s : str)
| ExpandFuel.
Arguments DefFailed {E} e.
Arguments EntrypointAsInput {E} addr origin consumer.
Arguments CircularGroup {E} s.
Arguments ExpandFuel {E}.

(** [name_consumer]: [get_or_insert] on the refusal, anything else unchanged. *)
Definition name_consumer {E} (e : expand_error E) (consumer : Addr) : expand_error E :=
  match e with
  | EntrypointAsInput a o None => EntrypointAsInput a o (Some consumer)
  | _ => e
  end.

(** [merged = p.clone(); for (k, v) in child { merged.insert(k, v) }]. *)
Definition merge_annotations (parent child : gmap str str) : gmap str str :=
  map_fold (fun k v merged => <[k := v]> merged) parent child.

(** [eff]: how the members of the group behind [input] are routed. *)
Definition effective (parent_override : option ParentOverride) (input : Input) : ParentOverride :=
  match parent_override with
  | Some p =>
      mkParentOverride (po_origin_id p) (po_mode p)
        (merge_annotations (po_annotations p) (annotations input)) (po_hashed p) (po_runtime p)
  | None =>
      mkParentOverride (origin_id input) (mode input) (annotations input) (hashed input) (runtime input)
  end.

(** The [Input] pushed for a member that is not a group. *)
Definition overridden (p : ParentOverride) (input : Input) : Input :=
  mkInput (input_ref input) (po_mode p) (po_origin_id p)
    (merge_annotations (po_annotations p) (annotations input)) (po_hashed p) (po_runtime p).

Section expand.
Context {E Ep : Type} (get_def : Addr -> result E (TargetDef Ep)).

(** The [for (idx, input) in inputs.iter().enumerate()] loop, [rec] the
    recursive call; [res] is the allocate-on-write [result]. *)
Fixpoint expand_loop
    (rec : list Input -> option ParentOverride -> gset str -> result (expand_error E) (list Input * gset str))
    (all : list Input) (parent_override : option ParentOverride)
    (idx : nat) (rest : list Input) (res : option (list Input)) (visited : gset str)
    : result (expand_error E) (option (list Input) * gset str) :=
  match rest with
  | [] => Ok (res, visited)
  | input :: rest =>
      def ← map_err DefFailed (get_def (input_addr input));
      match entrypoint def with
      | Some _ => Err (EntrypointAsInput (input_addr input) (origin_id input) None)
      | None =>
          if transparent def then
            let out := default (take idx all) res in
            let addr_str := format (input_addr input) in
            if decide (addr_str ∈ visited) then Err (CircularGroup addr_str)
            else
              '(nested, visited) ← rec (inputs def) (Some (effective parent_override input)) ({[addr_str]} ∪ visited);
              expand_loop rec all parent_override (S idx) rest (Some (out ++ nested)) (visited ∖ {[addr_str]})
          else
            let res :=
              match parent_override, res with
              | Some p, _ => Some (default [] res ++ [overridden p input])
              | None, Some out => Some (out ++ [input])
              | None, None => None
              end in
            expand_loop rec all parent_override (S idx) rest res visited
      end
  end.

Fixpoint expand_inputs (fuel : nat) (ins : list Input) (parent_override : option ParentOverride)
    (visited : gset str) : result (expand_error E) (list Input * gset str) :=
  match fuel with
  | O => Err ExpandFuel
  | S fuel =>
      '(res, visited) ← expand_loop (expand_inputs fuel) ins parent_override 0 ins
                          (match parent_override with Some _ => Some [] | None => None end) visited;
      Ok (default ins res, visited)
  end.

(** The computation [expanded_inputs_for] memoizes; its first lookup is the one
    that tracks no dependency. *)
Definition expanded_inputs_for (get_def_no_track : Addr -> result E (TargetDef Ep)) (fuel : nat) (addr : Addr)
    : result (expand_error E) (list Input) :=
  def ← map_err DefFailed (get_def_no_track addr);
  match expand_inputs fuel (inputs def) None ∅ with
  | Ok (expanded, _) => Ok expanded
  | Err e => Err (name_consumer e addr)
  end.

(** ** What an expansion is *)

(** [a] is a group, [d] its definition. *)
Definition group_def (a : Addr) (d : TargetDef Ep) : Prop :=
  get_def a = Ok d /\ entrypoint d = None /\ transparent d = true.

(** [b] is a member of the group [a]. *)
Definition member (a b : Addr) : Prop := exists d i, group_def a d /\ i ∈ inputs d /\ input_addr i = b.

(** How one input that is not a group is routed. *)
Definition place (po : option ParentOverride) (i : Input) : Input :=
  match po with Some p => overridden p i | None => i end.

(** The expansion without bookkeeping: no visited set, no allocation, one
    derivation per finite tree of groups. *)
Inductive expands : option ParentOverride -> list Input -> list Input -> Prop :=
| expands_nil po : expands po [] []
| expands_leaf po i d rest out :
    get_def (input_addr i) = Ok d -> entrypoint d = None -> transparent d = false ->
    expands po rest out -> expands po (i :: rest) (place po i :: out)
| expands_group po i d nested rest out :
    group_def (input_addr i) d -> expands (Some (effective po i)) (inputs d) nested ->
    expands po rest out -> expands po (i :: rest) (nested ++ out).

(** ** Lemmas *)

(** One address has one definition. *)
Ltac same_def :=
  repeat match goal with
  | H1 : get_def ?a = _, H2 : get_def ?a = _ |- _ => rewrite H1 in H2; simplify_eq
  end; simplify_eq; try congruence.

Lemma expands_det po ins out : expands po ins out -> forall out', expands po ins out' -> out = out'.
Proof.
  induction 1 as [po|po i d rest out Hd He Ht Hr IH|po i d nested rest out (Hd & He & Ht) Hn IHn Hr IH];
    intros out' H'; inversion H'; subst; unfold group_def in *; destruct_and?; same_def.
  - f_equal. by apply IH.
  - f_equal; [by apply IHn|by apply IH].
Qed.

Lemma expands_app po ins1 ins2 out1 out2 :
  expands po ins1 out1 -> expands po ins2 out2 -> expands po (ins1 ++ ins2) (out1 ++ out2).
Proof.
  induction 1; intros Hsnd; simpl; [done|by econstructor; eauto|].
  rewrite <-app_assoc. econstructor; eauto.
Qed.

(** Everything below a finite expansion resolves, is not an entrypoint and is
    well-founded: no group contains itself. *)
Lemma expands_below po ins out : expands po ins out -> forall i a, i ∈ ins -> rtc member (input_addr i) a ->
  Acc (flip member) (input_addr i) /\ exists d, get_def a = Ok d /\ entrypoint d = None.
Proof.
  induction 1 as [po|po i d rest out Hd He Ht Hr IH|po i d nested rest out (Hd & He & Ht) Hn IHn Hr IH];
    intros j a Hj Ha; [by apply elem_of_nil in Hj| |]; apply elem_of_cons in Hj as [->|Hj]; eauto.
  - assert (Hno : forall b, ~ member (input_addr i) b)
      by (intros b (d' & ? & (? & ? & ?) & _); same_def).
    split; [constructor; intros b Hb; by destruct (Hno b)|].
    inversion Ha as [|? b ? Hb]; subst; [eauto|by destruct (Hno b)].
  - assert (Hm : forall b, member (input_addr i) b -> exists k, k ∈ inputs d /\ input_addr k = b)
      by (intros b (d' & k & (Hd' & _ & _) & Hk & Hb); same_def; eauto).
    split.
    + constructor. intros b (k & Hk & <-)%Hm. by eapply IHn.
    + inversion Ha as [|? b ? Hb Hr']; subst; [eauto|]. apply Hm in Hb as (k & Hk & <-). by eapply IHn.
Qed.

(** A group below itself has no finite expansion. *)
Lemma acc_no_cycle a : Acc (flip member) a -> tc member a a -> False.
Proof.
  intros Hacc. induction Hacc as [a _ IH]. intros Ht.
  inversion Ht as [? ? H1|? b ? H1 H2]; subst; [by eapply IH|].
  apply (IH b H1). by eapply tc_r.
Qed.

(** The groups under way contain what is being expanded. *)
Definition under (visited : gset str) (ins : list Input) : Prop :=
  forall s i, s ∈ visited -> i ∈ ins -> exists a, format a = s /\ tc member a (input_addr i).

(** What [expand_inputs] may answer: the expansion, with [visited] as it was, or
    the first obstacle it met. [n] bounds the groups that can still be entered. *)
Definition expand_post (fuel n : nat) (po : option ParentOverride) (ins : list Input) (visited : gset str)
    (r : result (expand_error E) (list Input * gset str)) : Prop :=
  match r with
  | Ok (out, visited') => visited' = visited /\ expands po ins out
  | Err (DefFailed e) => exists i a, i ∈ ins /\ rtc member (input_addr i) a /\ get_def a = Err e
  | Err (EntrypointAsInput a _ c) => c = None /\ exists i d, i ∈ ins /\ rtc member (input_addr i) a /\
      get_def a = Ok d /\ entrypoint d <> None
  | Err (CircularGroup s) => exists i a b d, i ∈ ins /\ rtc member (input_addr i) b /\
      group_def b d /\ tc member a b /\ format a = s /\ format b = s
  | Err ExpandFuel => fuel <= n
  end.

Context (V : list Addr).
Hypothesis V_closed : forall a b, a ∈ V -> member a b -> b ∈ V.

Definition fresh_groups (visited : gset str) : nat :=
  size (list_to_set (format <$> V) ∖ visited : gset str).

Lemma fresh_groups_enter a visited :
  a ∈ V -> format a ∉ visited -> fresh_groups ({[format a]} ∪ visited) < fresh_groups visited.
Proof.
  intros Ha Hv. unfold fresh_groups. apply subset_size. split; [set_solver|].
  intros H. assert (format a ∈ (list_to_set (format <$> V) : gset str)).
  { apply elem_of_list_to_set, list_elem_of_fmap. eauto. }
  set_solver.
Qed.

(** An obstacle met among the members of the group [i] is met below [i]. *)
Lemma expand_post_lift fuel n po po' i ins d visited e :
  i ∈ ins -> group_def (input_addr i) d ->
  expand_post fuel n po (inputs d) visited (Err e) ->
  forall fuel' n' visited', (e = ExpandFuel -> fuel' <= n') ->
  expand_post fuel' n' po' ins visited' (Err e).
Proof.
  intros Hi Hg H fuel' n' visited' Hf. assert (Hup : forall j a, j ∈ inputs d -> rtc member (input_addr j) a ->
    rtc member (input_addr i) a).
  { intros j a Hj Ha. eapply rtc_l; [|exact Ha]. exists d, j. auto. }
  destruct e as [e|a o c|s|]; simpl in *; [| | |by apply Hf].
  - destruct H as (j & a & Hj & Ha & H). eauto 7.
  - destruct H as (-> & j & d' & Hj & Ha & H). eauto 8.
  - destruct H as (j & a & b & d' & Hj & Hb & H). exists i, a, b, d'. eauto.
Qed.

(** Where the loop stands: [out] is the expansion of what precedes [idx], and it
    is allocated unless nothing had to be rewritten. *)
Definition loop_inv (po : option ParentOverride) (before : list Input) (res : option (list Input)) : Prop :=
  expands po before (default before res) /\ (res = None -> po = None).

Lemma loop_inv_leaf po before res i d :
  loop_inv po before res -> get_def (input_addr i) = Ok d -> entrypoint d = None -> transparent d = false ->
  loop_inv po (before ++ [i])
    (match po, res with
     | Some p, _ => Some (default [] res ++ [overridden p i])
     | None, Some out => Some (out ++ [i])
     | None, None => None
     end).
Proof.
  intros [He Hr] Hd Hn Ht.
  assert (Hi : expands po [i] [place po i]) by (econstructor; [done..|constructor]).
  pose proof (expands_app _ _ _ _ _ He Hi) as H.
  destruct po as [p|], res as [out|]; simpl in *; [done|by specialize (Hr eq_refl)|done|].
  by split.
Qed.

Lemma loop_inv_group po before res i d nested :
  loop_inv po before res -> group_def (input_addr i) d ->
  expands (Some (effective po i)) (inputs d) nested ->
  loop_inv po (before ++ [i]) (Some (default before res ++ nested)).
Proof.
  intros [He _] Hg Hn. split; [|done]. simpl. apply expands_app; [done|].
  rewrite <-(app_nil_r nested). econstructor; [done..|constructor].
Qed.

Lemma under_enter visited ins i d :
  under visited ins -> i ∈ ins -> group_def (input_addr i) d ->
  under ({[format (input_addr i)]} ∪ visited) (inputs d).
Proof.
  intros Hu Hi Hg s j [->%elem_of_singleton|Hs]%elem_of_union Hj.
  - exists (input_addr i). split; [done|]. apply tc_once. exists d, j. auto.
  - destruct (Hu s i Hs Hi) as (a & Ha & Hc). exists a. split; [done|].
    eapply tc_r; [exact Hc|]. exists d, j. auto.
Qed.

Lemma expand_loop_post fuel rec all po visited :
  (forall ins po visited, (forall i, i ∈ ins -> input_addr i ∈ V) -> under visited ins ->
     expand_post fuel (fresh_groups visited) po ins visited (rec ins po visited)) ->
  (forall i, i ∈ all -> input_addr i ∈ V) -> under visited all ->
  forall rest before res, all = before ++ rest -> loop_inv po before res ->
  expand_post (S fuel) (fresh_groups visited) po all visited
    ('(res, visited) ← expand_loop rec all po (length before) rest res visited;
     Ok (default all res, visited)).
Proof.
  intros Hrec HV Hu rest. induction rest as [|i rest IH]; intros before res Hall Hinv.
  { rewrite app_nil_r in Hall. subst. split; [done|]. apply Hinv. }
  assert (Hi : i ∈ all) by (subst; set_solver). cbn [expand_loop].
  destruct (get_def (input_addr i)) as [d|e] eqn:Hd; cbn [map_err mbind result_bind].
  2:{ exists i, (input_addr i). auto using rtc_refl. }
  destruct (entrypoint d) as [ep|] eqn:He.
  { split; [done|]. exists i, d. rewrite He. auto using rtc_refl. }
  assert (Hnext : S (length before) = length (before ++ [i])) by (rewrite length_app; simpl; lia).
  destruct (transparent d) eqn:Ht.
  2:{ rewrite Hnext. apply IH; [by rewrite <-app_assoc|]. by eapply loop_inv_leaf. }
  assert (Hg : group_def (input_addr i) d) by done.
  rewrite Hall, take_app_length, <-Hall. case_decide as Hv.
  { destruct (Hu _ _ Hv Hi) as (a & Ha & Hc). exists i, a, (input_addr i), d. by split_and!. }
  assert (Hn : expand_post fuel (fresh_groups ({[format (input_addr i)]} ∪ visited))
    (Some (effective po i)) (inputs d) ({[format (input_addr i)]} ∪ visited)
    (rec (inputs d) (Some (effective po i)) ({[format (input_addr i)]} ∪ visited))).
  { apply Hrec; [|by eapply under_enter]. intros j Hj. apply (V_closed (input_addr i)); [by apply HV|].
    exists d, j. auto. }
  destruct (rec _ _ _) as [[nested visited']|e]; cbn [mbind result_bind].
  - destruct Hn as [-> Hn]. rewrite Hnext.
    replace (({[format (input_addr i)]} ∪ visited) ∖ {[format (input_addr i)]}) with visited by set_solver.
    apply IH; [by rewrite <-app_assoc|]. by eapply loop_inv_group.
  - eapply expand_post_lift; [exact Hi|exact Hg|exact Hn|]. intros ->. simpl in Hn.
    pose proof (fresh_groups_enter (input_addr i) visited (HV i Hi) Hv). lia.
Qed.

Lemma expand_inputs_post fuel : forall ins po visited,
  (forall i, i ∈ ins -> input_addr i ∈ V) -> under visited ins ->
  expand_post fuel (fresh_groups visited) po ins visited (expand_inputs fuel ins po visited).
Proof.
  induction fuel as [|fuel IH]; intros ins po visited HV Hu; [simpl; lia|]. cbn [expand_inputs].
  apply (expand_loop_post fuel _ ins po visited IH HV Hu ins []); [done|].
  split; [destruct po; constructor|by destruct po].
Qed.

Lemma fresh_groups_bound : fresh_groups ∅ <= length V.
Proof.
  unfold fresh_groups. rewrite difference_empty_L, <-(length_fmap format V). apply size_list_to_set_le.
Qed.

(** Groups whose addresses can be written down are told apart by their text. *)
Lemma group_format_inj a b d d' : (forall a d, group_def a d -> addr_wf a) ->
  group_def a d -> group_def b d' -> format a = format b -> a = b.
Proof.
  intros Hwf Ha%Hwf Hb%Hwf Hf.
  apply (@parse_addr_format nom_ref nom_ref_laws) in Ha, Hb. congruence.
Qed.

Lemma tc_member_group a b : tc member a b -> exists d, group_def a d.
Proof. inversion 1 as [? ? (d & ? & Hg & _)|? ? ? (d & ? & Hg & _)]; eauto. Qed.

(** ** Properties *)

(** C4: expansion is exact. With fuel for the groups that can be met, expanding
    the inputs of a target answers [r] exactly when the plain recursive
    replacement of groups by their members is finite and gives [r]: the visited
    set never refuses a group that is merely met twice, never lets a group that
    contains itself through, is left as it was found, and copying the inputs
    only from the first group on does not show. *)
Theorem expand_inputs_exact fuel ins r :
  (forall i, i ∈ ins -> input_addr i ∈ V) -> (forall a d, group_def a d -> addr_wf a) -> length V < fuel ->
  expand_inputs fuel ins None ∅ = Ok (r, ∅) <-> expands None ins r.
Proof.
  intros HV Hwf Hf. pose proof (expand_inputs_post fuel ins None ∅ HV) as H.
  specialize (H ltac:(intros ?? [] % not_elem_of_empty)). pose proof fresh_groups_bound as Hb.
  destruct (expand_inputs fuel ins None ∅) as [[out v]|e]; simpl in H.
  { destruct H as [-> H]. split; [by intros [= <-]|]. intros H'.
    by rewrite (expands_det _ _ _ H _ H'). }
  split; [done|]. intros Hx. pose proof (expands_below _ _ _ Hx) as He. exfalso. destruct e as [e|a o c|s|]; [| | |lia].
  - destruct H as (i & a & Hi & Ha & Hd). destruct (He i a Hi Ha) as (_ & d & Hd' & _). congruence.
  - destruct H as (_ & i & d & Hi & Ha & Hd & Hn). destruct (He i a Hi Ha) as (_ & d' & Hd' & ?). congruence.
  - destruct H as (i & a & b & d & Hi & Hb' & Hg & Hc & Ha & <-).
    destruct (tc_member_group a b Hc) as [d' Hg']. assert (a = b) as -> by by eapply group_format_inj.
    destruct (He i b Hi Hb') as [Hacc _]. apply (acc_no_cycle b); [|done].
    clear -Hacc Hb'. induction Hb' as [|x y z Hxy _ IH]; [done|]. apply IH. by apply Hacc.
Qed.

(** A refused expansion is refused for a reason below its inputs, and with
    fuel for the groups it always answers: a definition that does not resolve,
    an entrypoint (left without consumer, for the caller to name), or a group
    that contains itself, named in the error. *)
Theorem expand_inputs_refuses fuel ins e :
  (forall i, i ∈ ins -> input_addr i ∈ V) -> (forall a d, group_def a d -> addr_wf a) -> length V < fuel ->
  expand_inputs fuel ins None ∅ = Err e ->
  exists i a, i ∈ ins /\ rtc member (input_addr i) a /\
  match e with
  | DefFailed e => get_def a = Err e
  | EntrypointAsInput a' _ consumer =>
      a' = a /\ consumer = None /\ exists d, get_def a = Ok d /\ entrypoint d <> None
  | CircularGroup s => s = format a /\ tc member a a
  | ExpandFuel => False
  end.
Proof.
  intros HV Hwf Hf Hr. pose proof (expand_inputs_post fuel ins None ∅ HV) as H.
  specialize (H ltac:(intros ?? [] % not_elem_of_empty)). pose proof fresh_groups_bound as Hb.
  rewrite Hr in H. destruct e as [e|a o c|s|]; simpl in H; [| | |lia].
  - destruct H as (i & a & H). eauto.
  - destruct H as (-> & i & d & Hi & Ha & Hd). exists i, a. eauto 8.
  - destruct H as (i & a & b & d & Hi & Hb' & Hg & Hc & Ha & <-).
    destruct (tc_member_group a b Hc) as [d' Hg']. assert (a = b) as -> by by eapply group_format_inj.
    exists i, b. eauto.
Qed.

(** ** Routing *)

Lemma merge_annotations_union parent child : merge_annotations parent child = child ∪ parent.
Proof.
  unfold merge_annotations.
  apply (map_fold_weak_ind (fun m child => m = child ∪ parent)); [by rewrite map_empty_union|].
  intros k v m r _ ->. by rewrite insert_union_l.
Qed.

(** [o] is the member [m] routed by [p]. *)
Definition routed_by (p : ParentOverride) (o : Input) : Prop :=
  origin_id o = po_origin_id p /\ mode o = po_mode p /\ hashed o = po_hashed p /\
  runtime o = po_runtime p /\ forall k, is_Some (po_annotations p !! k) -> is_Some (annotations o !! k).

(** An output of an expansion is a plain target below an input, and carries the
    member's own annotations. *)
Definition from_member (i o : Input) : Prop :=
  exists d m, rtc member (input_addr i) (input_addr o) /\ get_def (input_addr o) = Ok d /\
  entrypoint d = None /\ transparent d = false /\ input_ref o = input_ref m /\
  annotations m ⊆ annotations o.

Lemma routed_by_effective po i o : routed_by (effective (Some po) i) o -> routed_by po o.
Proof.
  intros (Ho & Hm & Hh & Hr & Ha). simpl in *. split_and!; try done.
  intros k [v Hk]. apply Ha. rewrite merge_annotations_union. apply lookup_union_is_Some. eauto.
Qed.

Lemma routed_overridden p i : routed_by p (overridden p i).
Proof.
  split_and!; try done. intros k Hk. simpl. rewrite merge_annotations_union.
  apply lookup_union_is_Some. auto.
Qed.

Lemma expands_routed po ins out : expands po ins out -> forall o, o ∈ out ->
  exists i, i ∈ ins /\ from_member i o /\
  match po with
  | Some p => routed_by p o
  | None => o = i \/ exists d, group_def (input_addr i) d /\ routed_by (effective None i) o
  end.
Proof.
  induction 1 as [po|po i d rest out Hd He Ht Hr IH|po i d nested rest out Hg Hn IHn Hr IH];
    intros o Ho; [by apply elem_of_nil in Ho| |].
  - apply elem_of_cons in Ho as [->|Ho]; [|by destruct (IH o Ho) as (j & ? & ?); exists j; split; [right|]].
    exists i. split; [left|]. split.
    + exists d, i. destruct po as [p|]; simpl; split_and!; try done.
      rewrite merge_annotations_union. apply map_union_subseteq_l.
    + destruct po as [p|]; [apply routed_overridden|by left].
  - apply elem_of_app in Ho as [Ho|Ho]; [|by destruct (IH o Ho) as (j & ? & ?); exists j; split; [right|]].
    destruct (IHn o Ho) as (j & Hj & (d' & m & Hm & Hfm) & Hrt). exists i. split; [left|]. split.
    + exists d', m. split; [|done]. eapply rtc_l; [|exact Hm]. exists d, j. auto.
    + destruct po as [p|]; [by eapply routed_by_effective|right; eauto].
Qed.

(** Every input of an expansion is a plain target, neither a group nor an
    entrypoint, reached from a declared input through groups. It is that input
    unchanged, or it is routed as the declared group was: with its origin, mode
    and flags, with a value for every annotation of it, and with the member's
    own annotations wherever the member sets them. Without groups among the
    inputs they come back as they are. *)
Theorem expand_inputs_routing fuel ins r v :
  (forall i, i ∈ ins -> input_addr i ∈ V) -> expand_inputs fuel ins None ∅ = Ok (r, v) ->
  (forall o, o ∈ r -> exists i, i ∈ ins /\ from_member i o /\
     (o = i \/ exists d, group_def (input_addr i) d /\ routed_by (effective None i) o)) /\
  ((forall i d, i ∈ ins -> ~ group_def (input_addr i) d) -> r = ins).
Proof.
  intros HV Hr. pose proof (expand_inputs_post fuel ins None ∅ HV) as H.
  specialize (H ltac:(intros ?? [] % not_elem_of_empty)). rewrite Hr in H. destruct H as [_ H].
  split; [exact (expands_routed None ins r H)|]. clear Hr HV. intros Hno.
  remember None as po eqn:Hpo. induction H as [|po i d rest out Hd He Ht Hr IH|po i d nested rest out Hg]; subst.
  - done.
  - simpl. f_equal. apply IH; [done|]. intros j d' Hj. apply Hno. by right.
  - destruct (Hno i d); [left|done].
Qed.
End expand.

(** ** The introspection input, as a function of the declared outputs *)

(** The paths of all outputs, in order. *)
Definition declared_addrs (os : list Output) : list Addr :=
  content_addr ∘ content <$> (os ≫= paths).

Lemma first_seen_app seen l1 l2 :
  first_seen seen (l1 ++ l2) = first_seen seen l1 ++ first_seen (reverse (first_seen seen l1) ++ seen) l2.
Proof.
  revert seen; induction l1 as [|a l1 IH]; intros seen; simpl; [done|]. case_decide; [apply IH|].
  simpl. by rewrite IH, reverse_cons, <-app_assoc.
Qed.

Lemma synthesize_paths_eq t ps seen out :
  let new := first_seen seen (content_addr ∘ content <$> ps) in
  synthesize_paths t ps seen out = (reverse new ++ seen, out ++ (flip introspect_input t <$> new)).
Proof.
  revert seen out; induction ps as [|p ps IH]; intros seen out; simpl; [by rewrite app_nil_r|].
  case_decide; [apply IH|]. rewrite IH. simpl. by rewrite reverse_cons, <-!app_assoc.
Qed.

Lemma synthesize_outputs_eq t os seen out :
  synthesize_outputs t os seen out = out ++ (flip introspect_input t <$> first_seen seen (declared_addrs os)).
Proof.
  revert seen out; induction os as [|o os IH]; intros seen out; simpl; [by rewrite app_nil_r|].
  rewrite synthesize_paths_eq, IH. unfold declared_addrs. simpl.
  by rewrite fmap_app, first_seen_app, fmap_app, <-app_assoc.
Qed.

Lemma introspect_fold os ins acc :
  foldl (fun rebuilt input =>
           if is_introspect_outputs (input_addr input)
           then rebuilt ++ synthesized_fs_inputs os input else rebuilt ++ [input]) acc ins =
  acc ++ (ins ≫= fun i => if is_introspect_outputs (input_addr i) then synthesized_fs_inputs os i else [i]).
Proof.
  revert acc; induction ins as [|i ins IH]; intros acc; simpl; [by rewrite app_nil_r|].
  destruct (is_introspect_outputs _); by rewrite IH, <-app_assoc.
Qed.

Lemma content_addr_not_magic c : is_introspect_outputs (content_addr c) = false.
Proof. by destruct c. Qed.

(** The introspection input stands for the outputs. Every magic input is
    replaced where it stands by one input per distinct path the target declares,
    in the order they are declared, routed like the magic input and both hashed
    and materialized; the other inputs keep their place. No magic input is left,
    so expanding again changes nothing. *)
Theorem introspect_expansion {Ep} (def : TargetDef Ep) :
  let def' := expand_introspect_inputs def in
  inputs def' =
    (inputs def ≫= fun i => if is_introspect_outputs (input_addr i)
       then flip introspect_input i <$> first_seen [] (declared_addrs (def_outputs def)) else [i]) /\
  (forall i, i ∈ inputs def' -> is_introspect_outputs (input_addr i) = false) /\
  expand_introspect_inputs def' = def'.
Proof.
  intros def'.
  assert (Heq : inputs def' = (inputs def ≫= fun i => if is_introspect_outputs (input_addr i)
       then flip introspect_input i <$> first_seen [] (declared_addrs (def_outputs def)) else [i])).
  { unfold def', expand_introspect_inputs. destruct (existsb _ _) eqn:He; simpl.
    - rewrite introspect_fold. simpl. apply list_bind_ext; [|done]. intros i.
      unfold synthesized_fs_inputs. by rewrite synthesize_outputs_eq.
    - clear def'. induction (inputs def) as [|i l IH]; simpl in *; [done|].
      apply orb_false_iff in He as [-> He]. simpl. f_equal. by apply IH. }
  assert (Hno : forall i, i ∈ inputs def' -> is_introspect_outputs (input_addr i) = false).
  { rewrite Heq. intros i (j & Hi & _)%list_elem_of_bind.
    destruct (is_introspect_outputs (input_addr j)) eqn:Hm; [|by apply list_elem_of_singleton in Hi as ->].
    apply list_elem_of_fmap in Hi as (a & -> & Ha). simpl. apply first_seen_elem in Ha as [_ Ha].
    apply list_elem_of_fmap in Ha as (p & -> & _). exact (content_addr_not_magic (content p)). }
  split_and!; [done..|]. unfold expand_introspect_inputs at 1.
  destruct (existsb _ (inputs def')) eqn:He; [|done]. apply existsb_exists in He as (i & Hi & Hm).
  apply list_elem_of_In in Hi. apply Hno in Hi. congruence.
Qed.

(** ** Witnesses *)

(** [g] groups [h] and [b]; [h] groups [a] and [b]; [k] groups itself. *)
Definition sample_target (s : str) : Addr := mkAddr $"p" s [].
Definition sample_input (s id : str) (ann : gmap str str) : Input :=
  mkInput (mkTargetAddr (sample_target s) None []) Standard id ann true true.

Definition sample_defs (a : Addr) : result unit (TargetDef unit) :=
  if decide (a = sample_target $"g") then
    Ok (mkTargetDef [sample_input $"h" $"i" {[$"x" := $"2"]}; sample_input $"b" $"j" ∅] [] true None)
  else if decide (a = sample_target $"h") then
    Ok (mkTargetDef [sample_input $"a" $"k" ∅; sample_input $"b" $"l" {[$"x" := $"3"]}] [] true None)
  else if decide (a = sample_target $"k") then
    Ok (mkTargetDef [sample_input $"k" $"m" ∅] [] true None)
  else Ok (mkTargetDef [] [] false None).

Definition sample_universe : list Addr := sample_target <$> [$"g"; $"h"; $"a"; $"b"; $"k"].

(** A tool reference to the group, after a plain input. *)
Definition sample_inputs : list Input :=
  [sample_input $"a" $"src" ∅;
   mkInput (mkTargetAddr (sample_target $"g") None []) Tool $"tools" {[$"x" := $"1"]} false true].
Definition sample_expanded : list Input :=
  [sample_input $"a" $"src" ∅;
   mkInput (mkTargetAddr (sample_target $"a") None []) Tool $"tools" {[$"x" := $"2"]} false true;
   mkInput (mkTargetAddr (sample_target $"b") None []) Tool $"tools" {[$"x" := $"3"]} false true;
   mkInput (mkTargetAddr (sample_target $"b") None []) Tool $"tools" {[$"x" := $"1"]} false true].

Lemma sample_closed a b : a ∈ sample_universe -> member sample_defs a b -> b ∈ sample_universe.
Proof.
  intros _ (d & i & (Hd & _ & _) & Hi & <-). unfold sample_defs in Hd. unfold sample_universe.
  repeat case_decide; injection Hd as <-; simpl in Hi; set_solver.
Qed.

Lemma sample_groups_wf a d : group_def sample_defs a d -> addr_wf a.
Proof.
  intros (Hd & _ & Ht). unfold sample_defs in Hd.
  repeat case_decide; simplify_eq/=.
  all: match goal with |- addr_wf ?a => apply (@parse_addr_ok_wf nom_ref nom_ref_laws (format a)) end.
  all: vm_compute; reflexivity.
Qed.

Lemma sample_expansion : expand_inputs sample_defs 6 sample_inputs None ∅ = Ok (sample_expanded, ∅).
Proof. vm_compute. reflexivity. Qed.

Lemma sample_in_universe i : i ∈ sample_inputs -> input_addr i ∈ sample_universe.
Proof. unfold sample_inputs, sample_universe. set_solver. Qed.

Lemma expand_inputs_exact_witness : expands sample_defs None sample_inputs sample_expanded.
Proof.
  apply (expand_inputs_exact sample_defs sample_universe sample_closed 6 sample_inputs sample_expanded
    sample_in_universe sample_groups_wf); [simpl; lia|exact sample_expansion].
Defined.

Lemma expand_inputs_routing_witness :
  exists i, i ∈ sample_inputs /\ from_member sample_defs i (sample_input $"a" $"src" ∅).
Proof.
  destruct (expand_inputs_routing sample_defs sample_universe sample_closed 6 sample_inputs sample_expanded ∅
    sample_in_universe sample_expansion) as [H _].
  destruct (H (sample_input $"a" $"src" ∅)) as (i & Hi & Hm & _); [left|]. exists i. auto.
Defined.

Lemma expand_inputs_refuses_witness :
  exists a, rtc (member sample_defs) (sample_target $"k") a /\ tc (member sample_defs) a a.
Proof.
  assert (Hu : forall i, i ∈ [sample_input $"k" $"src" ∅] -> input_addr i ∈ sample_universe)
    by (unfold sample_universe; set_solver).
  destruct (expand_inputs_refuses sample_defs sample_universe sample_closed 6 [sample_input $"k" $"src" ∅]
    (CircularGroup (format (sample_target $"k"))) Hu sample_groups_wf) as (i & a & Hi & Ha & _ & Hc);
    [simpl; lia|vm_compute; reflexivity|].
  apply list_elem_of_singleton in Hi as ->. exists a. auto.
Defined.
