(* ===== verification/HtValue.v ===== *)
(** Values and the signatures of plugin functions:
    [crates/core/src/htvalue/mod.rs] and [htvalue/signature.rs].

    A [HashMap<String, _>] inside a [Value] is kept as the sorted association
    list of its entries: its own order is never observed, so the sorted list is
    the map. The arguments of a call, which are looked up and removed from, are
    finite maps. A float is the 64 bits it is made of: no operation here looks
    inside one. *)
From S2P Require Import Prelude.

(** ** Values *)

Inductive Value :=
| VString (s : str)
| VBool (b : bool)
| VFloat (bits : N)
| VInt (i : Z)
| VUint (u : N)
| VNull
| VMap (m : list (str * Value))
| VList (l : list Value).

Section value_ind.
Context (P : Value -> Prop)
  (Hs : forall s, P (VString s)) (Hb : forall b, P (VBool b)) (Hf : forall f, P (VFloat f))
  (Hi : forall i, P (VInt i)) (Hu : forall u, P (VUint u)) (Hn : P VNull)
  (Hm : forall m, Forall (fun kv => P kv.2) m -> P (VMap m)) (Hl : forall l, Forall P l -> P (VList l)).

(** Induction through the entries of a map and the items of a list. *)
Fixpoint value_rect (v : Value) : P v :=
  match v with
  | VString s => Hs s | VBool b => Hb b | VFloat f => Hf f | VInt i => Hi i | VUint u => Hu u | VNull => Hn
  | VMap m => Hm m ((fix go m : Forall (fun kv => P kv.2) m :=
      match m with [] => Forall_nil_2 _ | (k, v) :: r => Forall_cons_2 _ (k, v) r (value_rect v) (go r) end) m)
  | VList l => Hl l ((fix go l : Forall P l :=
      match l with [] => Forall_nil_2 _ | v :: r => Forall_cons_2 _ v r (value_rect v) (go r) end) l)
  end.
End value_ind.

(** The maps inside a value are maps. *)
Fixpoint value_wf (v : Value) : Prop :=
  match v with
  | VMap m => bt_sorted m /\ foldr (fun kv P => value_wf kv.2 /\ P) True m
  | VList l => foldr (fun v P => value_wf v /\ P) True l
  | _ => True
  end.

(** ** Reading attributes out of values *)

(** [invalid: expected ..., got ...]: what was found. *)
Inductive value_error := InvalidValue (v : Value).

Definition parse_string (v : Value) : result value_error (option str) :=
  match v with VNull => Ok None | VString s => Ok (Some s) | v => Err (InvalidValue v) end.

(** The [try_fold] of [parse_strings]: nulls are skipped. *)
Fixpoint parse_strings_loop (acc : list str) (l : list Value) : result value_error (list str) :=
  match l with
  | [] => Ok acc
  | v :: l => s ← parse_string v;
      parse_strings_loop (match s with None => acc | Some s => acc ++ [s] end) l
  end.

Definition parse_strings (v : Value) : result value_error (list str) :=
  match v with
  | VNull => Ok []
  | VList l => parse_strings_loop [] l
  | VString s => Ok [s]
  | v => Err (InvalidValue v)
  end.

(** [iter().map(f).collect::<Result<HashMap<_, _>>>()] over the entries. *)
Fixpoint collect_entries {A} (f : Value -> result value_error (option A)) (m : list (str * Value))
    : result value_error (list (str * A)) :=
  match m with
  | [] => Ok []
  | (k, v) :: m => a ← f v; r ← collect_entries f m;
      Ok (match a with Some a => (k, a) :: r | None => r end)
  end.

Definition parse_map_string_strings (v : Value) : result value_error (list (str * list str)) :=
  match parse_strings v with
  | Ok ss => Ok [([], ss)]
  | Err _ =>
      match v with
      | VMap m => collect_entries (fun v => Some <$> parse_strings v) m
      | v => Err (InvalidValue v)
      end
  end.

Definition parse_map_string_map_string_strings (v : Value)
    : result value_error (list (str * list (str * list str))) :=
  match v with
  | VMap m => collect_entries (fun v => Some <$> parse_map_string_strings v) m
  | v => Err (InvalidValue v)
  end.

Definition parse_map_string_string (v : Value) : result value_error (list (str * str)) :=
  match parse_string v with
  | Ok (Some s) => Ok [([], s)]
  | Ok None => Ok []
  | Err _ =>
      match v with
      | VMap m => collect_entries parse_string m
      | v => Err (InvalidValue v)
      end
  end.

Definition parse_bool (v : Value) : result value_error bool :=
  match v with VNull => Ok false | VBool b => Ok b | v => Err (InvalidValue v) end.

(** ** Types *)

(** A [StructField] is the pair of its name and its type. *)
Inductive ParamType :=
| TString | TBool | TInt | TUint | TFloat | TNull
| TList (t : ParamType)
| TMap (t : ParamType)
| TUnion (ts : list ParamType)
| TStruct (fs : list (str * ParamType)).

Section param_type_ind.
Context (P : ParamType -> Prop)
  (Hs : P TString) (Hb : P TBool) (Hi : P TInt) (Hu : P TUint) (Hf : P TFloat) (Hn : P TNull)
  (Hl : forall t, P t -> P (TList t)) (Hm : forall t, P t -> P (TMap t))
  (Hun : forall ts, Forall P ts -> P (TUnion ts))
  (Hst : forall fs, Forall (fun f => P f.2) fs -> P (TStruct fs)).

Fixpoint param_type_rect (t : ParamType) : P t :=
  match t with
  | TString => Hs | TBool => Hb | TInt => Hi | TUint => Hu | TFloat => Hf | TNull => Hn
  | TList t => Hl t (param_type_rect t)
  | TMap t => Hm t (param_type_rect t)
  | TUnion ts => Hun ts ((fix go l : Forall P l :=
      match l with [] => Forall_nil_2 _ | t :: r => Forall_cons_2 _ t r (param_type_rect t) (go r) end) ts)
  | TStruct fs => Hst fs ((fix go l : Forall (fun f => P f.2) l :=
      match l with [] => Forall_nil_2 _ | (n, t) :: r => Forall_cons_2 _ (n, t) r (param_type_rect t) (go r) end) fs)
  end.
End param_type_ind.

Fixpoint render (t : ParamType) : str :=
  match t with
  | TString => $"string" | TBool => $"bool" | TInt => $"int" | TUint => $"uint"
  | TFloat => $"float" | TNull => $"null"
  | TList inner => $"list[" ++ render inner ++ $"]"
  | TMap value => $"map[" ++ render value ++ $"]"
  | TUnion types => join $" | " (render <$> types)
  | TStruct fields =>
      $"struct(" ++ join $", " ((fun f => f.1 ++ $": " ++ render f.2) <$> fields) ++ $")"
  end.

(** [matches]. The [find] of a struct field stops at the first field of that
    name. *)
Fixpoint matches (self : ParamType) (v : Value) : bool :=
  match self, v with
  | TUnion types, _ => existsb (fun t => matches t v) types
  | TString, VString _ => true
  | TBool, VBool _ => true
  | TInt, VInt _ => true
  | TUint, VUint _ => true
  | TFloat, VFloat _ => true
  | TNull, VNull => true
  | TList inner, VList items => forallb (matches inner) items
  | TMap value, VMap m => forallb (fun e => matches value e.2) m
  | TStruct fields, VMap m =>
      forallb (fun e =>
        (fix find_field (fs : list (str * ParamType)) : bool :=
           match fs with
           | [] => false
           | (n, ty) :: fs => if decide (n = e.1) then matches ty e.2 else find_field fs
           end) fields) m
  | _, _ => false
  end.

Definition value_kind (v : Value) : str :=
  match v with
  | VString _ => $"string" | VBool _ => $"bool" | VInt _ => $"int" | VUint _ => $"uint"
  | VFloat _ => $"float" | VNull => $"null" | VMap _ => $"map" | VList _ => $"list"
  end.

(** ** Signatures *)

Record Param := mkParam { p_name : str; ty : ParamType; p_default : option Value }.

Definition Param_required (name : str) (ty : ParamType) : Param := mkParam name ty None.
Definition Param_optional (name : str) (ty : ParamType) (default : Value) : Param :=
  mkParam name ty (Some default).

Record FnSignature := mkSignature {
  positional : list Param; named : list Param; variadic : option Param; returns : ParamType
}.

Definition render_param (p : Param) : str :=
  p_name p ++ (match p_default p with Some _ => $"?" | None => [] end) ++ $": " ++ render (ty p).

Definition render_signature (self : FnSignature) (name : str) : str :=
  name ++ $"(" ++
  join $", " ((render_param <$> positional self) ++
              (match variadic self with
               | Some p => [$"*" ++ p_name p ++ $": " ++ render (ty p)] | None => [] end) ++
              (render_param <$> named self)) ++
  $") -> " ++ render (returns self).

(** What a refused call names: a parameter with its type and the kind it got. *)
Inductive call_error :=
| TooManyPositional (expected got : nat)
| BadPositional (param : str) (expected got : str)
| MissingPositional (param : str)
| BadVariadic (param : str) (expected got : str)
| BadArgument (param : str) (expected got : str)
| MissingArgument (param : str)
| UnknownKeyword (key : str)
| BadReturn (expected got : str).

(** The loop over [self.positional]: [pos] is the iterator over the arguments. *)
Fixpoint bind_positional (params : list Param) (pos out : list Value)
    : result call_error (list Value * list Value) :=
  match params with
  | [] => Ok (pos, out)
  | param :: params =>
      match pos with
      | v :: pos =>
          if negb (matches (ty param) v)
          then Err (BadPositional (p_name param) (render (ty param)) (value_kind v))
          else bind_positional params pos (out ++ [v])
      | [] =>
          match p_default param with
          | Some d => bind_positional params [] (out ++ [d])
          | None => Err (MissingPositional (p_name param))
          end
      end
  end.

Fixpoint bind_variadic (var : Param) (pos out : list Value) : result call_error (list Value) :=
  match pos with
  | [] => Ok out
  | v :: pos =>
      if negb (matches (ty var) v)
      then Err (BadVariadic (p_name var) (render (ty var)) (value_kind v))
      else bind_variadic var pos (out ++ [v])
  end.

(** The loop over [self.named], which takes what it binds out of [named]. *)
Fixpoint bind_named (params : list Param) (given out : gmap str Value)
    : result call_error (gmap str Value * gmap str Value) :=
  match params with
  | [] => Ok (given, out)
  | param :: params =>
      let name := p_name param in
      match given !! name with
      | Some v =>
          if negb (matches (ty param) v)
          then Err (BadArgument name (render (ty param)) (value_kind v))
          else bind_named params (delete name given) (<[name := v]> out)
      | None =>
          match p_default param with
          | Some d => bind_named params given (<[name := d]> out)
          | None => Err (MissingArgument name)
          end
      end
  end.

Definition validate_args (self : FnSignature) (args : list Value) (given : gmap str Value)
    : result call_error (list Value * gmap str Value) :=
  if match variadic self with
     | None => bool_decide (length (positional self) < length args)
     | Some _ => false
     end
  then Err (TooManyPositional (length (positional self)) (length args))
  else
    '(pos, out_positional) ← bind_positional (positional self) args [];
    out_positional ← match variadic self with
                     | Some var => bind_variadic var pos out_positional
                     | None => Ok out_positional
                     end;
    '(given, out_named) ← bind_named (named self) given ∅;
    match (map_to_list given).*1 with
    | key :: _ => Err (UnknownKeyword key)
    | [] => Ok (out_positional, out_named)
    end.

Definition validate_return (self : FnSignature) (v : Value) : result call_error unit :=
  if negb (matches (returns self) v) then Err (BadReturn (render (returns self)) (value_kind v)) else Ok tt.

(** ** What the types mean *)

Inductive has_type : ParamType -> Value -> Prop :=
| ht_string s : has_type TString (VString s)
| ht_bool b : has_type TBool (VBool b)
| ht_int i : has_type TInt (VInt i)
| ht_uint u : has_type TUint (VUint u)
| ht_float f : has_type TFloat (VFloat f)
| ht_null : has_type TNull VNull
| ht_list t l : Forall (has_type t) l -> has_type (TList t) (VList l)
| ht_map t m : Forall (fun e => has_type t e.2) m -> has_type (TMap t) (VMap m)
| ht_union ts t v : t ∈ ts -> has_type t v -> has_type (TUnion ts) v
| ht_struct fs m : (forall k v, (k, v) ∈ m -> exists t, bt_get k fs = Some t /\ has_type t v) ->
    has_type (TStruct fs) (VMap m).

(** The inner loop of [matches] on a struct is a lookup. *)
Lemma matches_struct fs m :
  matches (TStruct fs) (VMap m) =
  forallb (fun e => match bt_get e.1 fs with Some t => matches t e.2 | None => false end) m.
Proof.
  simpl. induction m as [|[k v] m IH]; simpl; [done|]. rewrite IH. f_equal. clear IH.
  induction fs as [|[n t] fs IHf]; simpl; [done|].
  destruct (decide (n = k)) as [->|Hne]; [by rewrite decide_True|]. by rewrite (decide_False (P := k = n)).
Qed.

Lemma matches_iff t : forall v, matches t v = true <-> has_type t v.
Proof.
  induction t as [| | | | | |t IH|t IH|ts IH|fs IH] using param_type_rect; intros v.
  1-6: destruct v; simpl; (split; [try done; constructor|by inversion 1]).
  - destruct v; simpl; try (split; [done|by inversion 1]). rewrite forallb_forall. split.
    + intros H. constructor. apply Forall_forall. intros v Hv. apply IH, H. by apply list_elem_of_In.
    + inversion 1 as [| | | | | |? ? Hl| | |]; subst. intros v Hv%list_elem_of_In.
      rewrite Forall_forall in Hl. by apply IH, Hl.
  - destruct v; simpl; try (split; [done|by inversion 1]). rewrite forallb_forall. split.
    + intros H. constructor. apply Forall_forall. intros v Hv. apply IH, H. by apply list_elem_of_In.
    + inversion 1 as [| | | | | | |? ? Hl| |]; subst. intros v Hv%list_elem_of_In.
      rewrite Forall_forall in Hl. by apply IH, Hl.
  - rewrite Forall_forall in IH. simpl. rewrite existsb_exists. split.
    + intros (t & Ht%list_elem_of_In & H). econstructor; [exact Ht|]. by apply IH.
    + inversion 1 as [| | | | | | | |? t ? Ht Hv|]; subst. exists t. split; [by apply list_elem_of_In|by apply IH].
  - destruct v; try (simpl; split; [done|by inversion 1]). rewrite matches_struct, forallb_forall.
    rewrite Forall_forall in IH. split.
    + intros H. constructor. intros k v Hv%list_elem_of_In. specialize (H _ Hv). simpl in H.
      destruct (bt_get k fs) as [t|] eqn:Hk; [|done]. exists t. split; [done|].
      apply (IH (k, t)); [by apply bt_get_elem|done].
    + inversion 1 as [| | | | | | | | |? ? Hf]; subst. intros [k v] Hv%list_elem_of_In. simpl.
      destruct (Hf k v Hv) as (t & Hk & Ht). rewrite Hk. apply (IH (k, t)); [by apply bt_get_elem|done].
Qed.

(** ** What a call means *)

(** The value a parameter is bound to: what was given, if it fits, or the default. *)
Definition arg_value (p : Param) (given : option Value) : option Value :=
  match given with
  | Some v => if matches (ty p) v then Some v else None
  | None => p_default p
  end.

Lemma bind_positional_ok params : forall pos out rest out',
  bind_positional params pos out = Ok (rest, out') ->
  rest = drop (length params) pos /\ exists vs, out' = out ++ vs /\ length vs = length params /\
  forall i p, params !! i = Some p -> vs !! i = arg_value p (pos !! i).
Proof.
  induction params as [|p params IH]; intros pos out rest out'; simpl.
  { intros [= <- <-]. split; [done|]. exists []. by rewrite app_nil_r. }
  destruct pos as [|v pos].
  - destruct (p_default p) as [d|] eqn:Hd; [|done]. intros (-> & vs & -> & Hl & Hv)%IH. split; [by destruct params|].
    exists (d :: vs). rewrite <-app_assoc. split_and!; [done|simpl; lia|]. intros [|i] p' Hp; simpl in *; [by simplify_eq|].
    by rewrite (Hv i p' Hp).
  - destruct (matches (ty p) v) eqn:Hm; simpl; [|done]. intros (-> & vs & -> & Hl & Hv)%IH. split; [done|].
    exists (v :: vs). rewrite <-app_assoc. split_and!; [done|simpl; lia|]. intros [|i] p' Hp; simpl in *; [|by apply Hv].
    simplify_eq. by rewrite Hm.
Qed.

Lemma bind_positional_total params : forall pos out,
  (forall i p, params !! i = Some p -> is_Some (arg_value p (pos !! i))) ->
  exists r, bind_positional params pos out = Ok r.
Proof.
  induction params as [|p params IH]; intros pos out H; simpl; [eauto|].
  pose proof (H 0 p eq_refl) as [v0 H0]. destruct pos as [|v pos]; simpl in H0.
  - rewrite H0. apply IH. intros i p' Hp. rewrite lookup_nil. exact (H (S i) p' Hp).
  - destruct (matches (ty p) v); [|done]. apply IH. intros i p' Hp. exact (H (S i) p' Hp).
Qed.

Lemma bind_variadic_ok var pos : forall out out',
  bind_variadic var pos out = Ok out' <->
  out' = out ++ pos /\ Forall (fun v => matches (ty var) v = true) pos.
Proof.
  induction pos as [|v pos IH]; intros out out'; simpl.
  { rewrite app_nil_r. split; [by intros [= ->]|by intros [-> _]]. }
  rewrite Forall_cons. destruct (matches (ty var) v); simpl; [|split; [done|by intros (_ & ? & _)]].
  rewrite IH, <-app_assoc. simpl. intuition.
Qed.

Lemma bind_named_ok params : NoDup (p_name <$> params) -> forall given out given' out',
  bind_named params given out = Ok (given', out') ->
  (forall k, given' !! k = if decide (k ∈ p_name <$> params) then None else given !! k) /\
  (forall p, p ∈ params -> out' !! p_name p = arg_value p (given !! p_name p) /\ is_Some (out' !! p_name p)) /\
  (forall k, k ∉ p_name <$> params -> out' !! k = out !! k).
Proof.
  induction params as [|p params IH]; simpl; intros Hnd given out given' out'.
  { intros [= <- <-]. split_and!; [done| |done]. by intros p Hp%elem_of_nil. }
  apply NoDup_cons in Hnd as [Hp Hnd]. intros H.
  assert (exists v, arg_value p (given !! p_name p) = Some v /\
    bind_named params (delete (p_name p) given) (<[p_name p := v]> out) = Ok (given', out')) as (v & Hv & Hr).
  { destruct (given !! p_name p) as [v|] eqn:Hg; simpl.
    - destruct (matches (ty p) v); [|done]. eauto.
    - destruct (p_default p) as [d|]; [|done]. exists d. split; [done|]. by rewrite delete_id. }
  destruct (IH Hnd _ _ _ _ Hr) as (Hg & Ho & Hk). split_and!.
  - intros k. rewrite Hg. destruct (decide (k = p_name p)) as [->|Hne].
    + rewrite lookup_delete_eq. rewrite (decide_True (P := _ ∈ _ :: _)) by by left. by case_decide.
    + rewrite lookup_delete_ne by done. do 2 case_decide; set_solver.
  - intros q [->|Hq]%elem_of_cons.
    + rewrite (Hk (p_name p)) by done. rewrite lookup_insert_eq, Hv. eauto.
    + destruct (Ho q Hq) as [Hq1 Hq2]. split; [|done]. rewrite Hq1, lookup_delete_ne; [done|].
      intros He. apply Hp. rewrite He. by apply list_elem_of_fmap_2.
  - intros k Hk'. rewrite Hk, lookup_insert_ne; set_solver.
Qed.

Lemma bind_named_total params : NoDup (p_name <$> params) -> forall given out,
  (forall p, p ∈ params -> is_Some (arg_value p (given !! p_name p))) ->
  exists r, bind_named params given out = Ok r.
Proof.
  induction params as [|p params IH]; simpl; intros Hnd given out H; [eauto|].
  apply NoDup_cons in Hnd as [Hp Hnd].
  assert (Hrec : forall q, q ∈ params -> is_Some (arg_value q (given !! p_name q))) by (intros q Hq; apply H; by right).
  pose proof (H p ltac:(left)) as [v Hv]. destruct (given !! p_name p) as [w|] eqn:Hg; simpl in Hv.
  - destruct (matches (ty p) w); [|done]. apply IH; [done|]. intros q Hq. rewrite lookup_delete_ne; [by apply Hrec|].
    intros He. apply Hp. rewrite He. by apply list_elem_of_fmap_2.
  - rewrite Hv. by apply IH.
Qed.

(** A call that is accepted, and the arguments its handler gets. *)
Record accepted (sig : FnSignature) (args : list Value) (given : gmap str Value)
    (out : list Value * gmap str Value) : Prop := {
  acc_positional : exists vs, out.1 = vs ++ drop (length (positional sig)) args /\
    length vs = length (positional sig) /\
    forall i p, positional sig !! i = Some p -> vs !! i = arg_value p (args !! i);
  acc_variadic : match variadic sig with
    | Some var => Forall (fun v => matches (ty var) v = true) (drop (length (positional sig)) args)
    | None => length args <= length (positional sig)
    end;
  acc_named : forall p, p ∈ named sig ->
    out.2 !! p_name p = arg_value p (given !! p_name p) /\ is_Some (out.2 !! p_name p);
  acc_only : forall k, k ∉ p_name <$> named sig -> out.2 !! k = None /\ given !! k = None;
}.

Lemma accepted_unique sig args given out out' :
  accepted sig args given out -> accepted sig args given out' -> out = out'.
Proof.
  intros [(vs & Hp & Hl & Hv) _ Hn Ho] [(vs' & Hp' & Hl' & Hv') _ Hn' Ho'].
  destruct out as [o m], out' as [o' m']; simpl in *. subst. f_equal.
  - f_equal. apply list_eq_same_length with (length vs); [lia|lia|]. intros i x y Hi Hx Hy.
    destruct (lookup_lt_is_Some_2 (positional sig) i) as [p Hp]; [lia|].
    rewrite (Hv i p Hp) in Hx. rewrite (Hv' i p Hp) in Hy. congruence.
  - apply map_eq. intros k. destruct (decide (k ∈ p_name <$> named sig)) as [Hk|Hk].
    + apply list_elem_of_fmap in Hk as (p & -> & Hpn).
      by destruct (Hn p Hpn) as [-> _], (Hn' p Hpn) as [-> _].
    + by destruct (Ho k Hk) as [-> _], (Ho' k Hk) as [-> _].
Qed.

Lemma no_keys_left (m : gmap str Value) : (map_to_list m).*1 = [] <-> forall k, m !! k = None.
Proof.
  split.
  - intros H k. destruct (m !! k) as [v|] eqn:Hk; [|done].
    apply elem_of_map_to_list in Hk. apply (list_elem_of_fmap_2 fst) in Hk. rewrite H in Hk. by apply elem_of_nil in Hk.
  - intros H. assert (m = ∅) as -> by (by apply map_eq). by rewrite map_to_list_empty.
Qed.

Lemma validate_args_ok sig args given out : NoDup (p_name <$> named sig) ->
  validate_args sig args given = Ok out -> accepted sig args given out.
Proof.
  intros Hnd. unfold validate_args.
  destruct (match variadic sig with None => _ | Some _ => _ end) eqn:Hlen; [done|].
  destruct (bind_positional _ _ _) as [[pos op]|] eqn:Hp; cbn [mbind result_bind]; [|done].
  apply bind_positional_ok in Hp as (-> & vs & -> & Hl & Hv). intros H.
  apply result_bind_ok in H as (op & Hop & H).
  destruct (bind_named _ _ _) as [[g' om]|] eqn:Hn; cbn [mbind result_bind] in H; [|done].
  apply (bind_named_ok _ Hnd) in Hn as (Hg & Ho & Hk).
  destruct ((map_to_list g').*1) as [|k ks] eqn:Hks; [|done]. injection H as <-.
  rewrite no_keys_left in Hks.
  assert (Hpos : op = vs ++ drop (length (positional sig)) args /\ match variadic sig with
    | Some var => Forall (fun v => matches (ty var) v = true) (drop (length (positional sig)) args)
    | None => length args <= length (positional sig) end).
  { destruct (variadic sig) as [var|]; simpl in Hop; [by apply bind_variadic_ok in Hop|].
    injection Hop as <-. apply bool_decide_eq_false in Hlen. split; [|lia].
    by rewrite drop_ge, app_nil_r by lia. }
  destruct Hpos as [-> Hvar]. split; simpl; [by exists vs|done|done|].
  intros k Hk'. split; [by rewrite Hk|]. specialize (Hks k). by rewrite Hg, decide_False in Hks.
Qed.

Lemma validate_args_total sig args given out : NoDup (p_name <$> named sig) ->
  accepted sig args given out -> exists out', validate_args sig args given = Ok out'.
Proof.
  intros Hnd [(vs & _ & Hl & Hv) Hvar Hn Ho]. unfold validate_args.
  assert (match variadic sig with
    | None => bool_decide (length (positional sig) < length args) | Some _ => false end = false) as ->.
  { destruct (variadic sig); [done|]. apply bool_decide_eq_false. lia. }
  destruct (bind_positional_total (positional sig) args []) as [[pos op] Hp].
  { intros i p Hp. rewrite <-(Hv i p Hp). apply lookup_lt_is_Some. rewrite Hl. by eapply lookup_lt_Some. }
  rewrite Hp. apply bind_positional_ok in Hp as (-> & _). cbn [mbind result_bind].
  assert (exists op', match variadic sig with
    | Some var => bind_variadic var (drop (length (positional sig)) args) op | None => Ok op end = Ok op') as [op' ->].
  { destruct (variadic sig) as [var|]; [|eauto]. eexists. by apply bind_variadic_ok. }
  cbn [mbind result_bind]. destruct (bind_named_total (named sig) Hnd given ∅) as [[g' om] Hb].
  { intros p Hp. destruct (Hn p Hp) as [<- H]. done. }
  rewrite Hb. apply (bind_named_ok _ Hnd) in Hb as (Hg & _ & _). cbn [mbind result_bind].
  rewrite (proj2 (no_keys_left g')); [eauto|]. intros k. rewrite Hg. case_decide as Hk; [done|]. by apply Ho.
Qed.

(** C28: a call is checked exactly. For a signature whose named parameters are
    distinct, [validate_args] hands [out] to the function exactly when the call
    fits: every positional and named parameter gets what was given for it, of
    its type, or its default; surplus arguments go to the variadic parameter one
    by one, of its type, and there are none without one; nothing was given under
    another name and nothing else is passed on. Any other call is an error. *)
Theorem validate_args_exact sig args given out :
  NoDup (p_name <$> named sig) ->
  validate_args sig args given = Ok out <-> accepted sig args given out.
Proof.
  intros Hnd. split; [by apply validate_args_ok|]. intros Ha.
  destruct (validate_args_total sig args given out Hnd Ha) as [out' H].
  rewrite H. f_equal. eapply accepted_unique; [|exact Ha]. by apply validate_args_ok.
Qed.

(** Defaults are handed over unchecked; a signature keeps its promise when they
    have the types it declares. *)
Definition defaults_typed (ps : list Param) : Prop :=
  forall p v, p ∈ ps -> p_default p = Some v -> has_type (ty p) v.

Lemma arg_value_typed ps p g v : defaults_typed ps -> p ∈ ps -> arg_value p g = Some v -> has_type (ty p) v.
Proof.
  intros Hd Hp. destruct g as [w|]; simpl; [|by eauto].
  destruct (matches (ty p) w) eqn:Hm; [|done]. intros [= <-]. by apply matches_iff.
Qed.

(** C40: what a function gets is typed. When the defaults of the signature have
    their declared types, every argument of an accepted call does: the
    positional ones in order, the surplus ones as the variadic parameter, the
    named ones by name; and a value [validate_return] lets through has the
    declared return type. *)
Theorem validated_call_typed sig args given out v :
  NoDup (p_name <$> named sig) -> defaults_typed (positional sig) -> defaults_typed (named sig) ->
  validate_args sig args given = Ok out ->
  (forall i p, positional sig !! i = Some p -> exists v, out.1 !! i = Some v /\ has_type (ty p) v) /\
  (forall i v, length (positional sig) <= i -> out.1 !! i = Some v ->
     exists var, variadic sig = Some var /\ has_type (ty var) v) /\
  (forall p, p ∈ named sig -> exists v, out.2 !! p_name p = Some v /\ has_type (ty p) v) /\
  (validate_return sig v = Ok tt <-> has_type (returns sig) v).
Proof.
  intros Hnd Hdp Hdn H. apply validate_args_ok in H; [|done].
  destruct H as [(vs & -> & Hl & Hv) Hvar Hn Ho]. split_and!.
  - intros i p Hp. pose proof (lookup_lt_Some _ _ _ Hp) as Hi.
    rewrite lookup_app_l by lia. destruct (lookup_lt_is_Some_2 vs i) as [w Hw]; [lia|]. exists w. split; [done|].
    rewrite (Hv i p Hp) in Hw. eapply arg_value_typed; [exact Hdp| |exact Hw]. by eapply list_elem_of_lookup_2.
  - intros i w Hi Hw. rewrite lookup_app_r in Hw by lia.
    destruct (variadic sig) as [var|].
    + exists var. split; [done|]. rewrite Forall_lookup in Hvar. by eapply matches_iff, Hvar.
    + by rewrite drop_ge, lookup_nil in Hw by lia.
  - intros p Hp. destruct (Hn p Hp) as [He [w Hw]]. exists w. split; [done|].
    rewrite He in Hw. by eapply arg_value_typed.
  - unfold validate_return. rewrite <-matches_iff. by destruct (matches _ _).
Qed.

(** A group attribute written without a group is the group with the empty name. *)
Lemma parse_map_shorthand v ss : parse_strings v = Ok ss ->
  parse_map_string_strings v = parse_map_string_strings (VMap [([], v)]).
Proof. intros H. unfold parse_map_string_strings. simpl. by rewrite H. Qed.

(** ** Witnesses *)

(** [join(sep: string, *parts: string, trim?: bool) -> string]. *)
Definition sample_signature : FnSignature :=
  mkSignature [mkParam $"sep" TString None] [mkParam $"trim" TBool (Some (VBool false))]
    (Some (mkParam $"parts" TString None)) TString.
Definition sample_args : list Value := [VString $"/"; VString $"a"; VString $"b"].

Lemma sample_names : NoDup (p_name <$> named sample_signature).
Proof. repeat constructor. set_solver. Qed.

Lemma validate_args_exact_witness :
  accepted sample_signature sample_args ∅ (sample_args, {[ $"trim" := VBool false ]}).
Proof. apply (validate_args_exact _ _ _ _ sample_names). vm_compute. reflexivity. Defined.

Lemma validated_call_typed_witness : has_type TString (VString $"/") /\ has_type TString (VString $"b").
Proof.
  destruct (validated_call_typed sample_signature sample_args ∅ (sample_args, {[ $"trim" := VBool false ]}) VNull
    sample_names) as (Hp & Hv & _ & _).
  - intros p v Hp Hd. apply list_elem_of_singleton in Hp as ->. discriminate Hd.
  - intros p v Hp Hd. apply list_elem_of_singleton in Hp as ->. injection Hd as <-. constructor.
  - vm_compute. reflexivity.
  - destruct (Hp 0 (mkParam $"sep" TString None) eq_refl) as (v & [= <-] & H).
    destruct (Hv 2 (VString $"b")) as (var & [= <-] & H'); [simpl; lia|reflexivity|]. split; [exact H|exact H'].
Defined.
