(* ===== verification/Wire.v ===== *)
(** The wire form of plugin messages: the presence rules, addresses, values,
    matchers, signatures, calls and their outcomes of
    [crates/plugin-abi/src/convert.rs].

    The [pb] types are generated from the schema: every singular field has
    explicit presence, so it is an [option]; a [oneof] is its arm, or none; an
    enum field holds a known variant or the number of an unknown one. A map
    field is the sorted association list of its entries. Every decoder answers
    an error naming the field it could not do without; the contexts that wrap
    it on the way out are text for people and are left out.

    [Wire] is the contract of a pair of conversions: what one side encodes the
    other decodes to the same thing. *)
From S2P Require Import Prelude HtPkg HtAddr HtMatcher HtValue.

(** ** Presence *)

Inductive EnumValue (E : Type) := Known (e : E) | Unknown (n : Z).
Arguments Known {E} e.
Arguments Unknown {E} n.

Inductive wire_error :=
| MissingField (field : str)
| UnknownEnum (field : str) (n : Z)
| UnspecifiedEnum (field : str)
| PresentEmpty (field : str)
| NoMatcherArm
| CannotCarry (targets states : nat)
| Malformed (field : str).

Definition required {T} (v : option T) (field : str) : result wire_error T := ok_or (MissingField field) v.

Definition known_enum {E} (v : EnumValue E) (field : str) : result wire_error E :=
  match v with Known e => Ok e | Unknown n => Err (UnknownEnum field n) end.

Definition required_enum {E} (v : option (EnumValue E)) (field : str) : result wire_error E :=
  v ← required v field; known_enum v field.

Definition absent_if_empty (s : str) : option str := match s with [] => None | _ => Some s end.

Definition absent_not_empty (v : option str) (field : str) : result wire_error (option str) :=
  match v with Some [] => Err (PresentEmpty field) | v => Ok v end.

(** [into_iter().map(f).collect::<Result<_>>()]. *)
Definition traverse {A B} (f : A -> result wire_error B) : list A -> result wire_error (list B) :=
  fix go l := match l with [] => Ok [] | x :: l => y ← f x; r ← go l; Ok (y :: r) end.

(** [opt.map(f).transpose()]. *)
Definition transpose {A B} (f : A -> result wire_error B) (o : option A) : result wire_error (option B) :=
  match o with Some a => Some <$> f a | None => Ok None end.

(** A map field built from the entries of a map, and decoded into one. *)
Definition entries_to_pb {A P} (f : A -> P) (m : list (str * A)) : list (str * P) :=
  bt_collect ((fun e => (e.1, f e.2)) <$> m).
Definition entries_from_pb {A P} (f : P -> result wire_error A) (m : list (str * P))
    : result wire_error (list (str * A)) :=
  bt_collect <$> traverse (fun e => v ← f e.2; Ok (e.1, v)) m.

(** ** Addresses *)

Record pb_Addr := mkPbAddr { pb_package : option str; pb_name : option str; pb_args : list (str * str) }.

Definition addr_to_pb (a : Addr) : pb_Addr :=
  mkPbAddr (Some (package a)) (Some (name a)) (bt_collect (args a)).

Definition addr_from_pb (a : pb_Addr) : result wire_error Addr :=
  package ← required (pb_package a) $"Addr.package";
  name ← required (pb_name a) $"Addr.name";
  Ok (Addr_new package name (bt_collect (pb_args a))).

Definition addr_field (a : option pb_Addr) (field : str) : result wire_error Addr :=
  a ← required a field; addr_from_pb a.

(** ** Values *)

(** [PbNoKind] is a [Value] message none of whose arms this build knows. *)
Inductive pb_Value :=
| PbNoKind
| StringVal (s : str)
| BoolVal (b : bool)
| FloatVal (f : N)
| IntVal (i : Z)
| UintVal (u : N)
| NullVal
| MapVal (entries : list (str * pb_Value))
| ListVal (items : list pb_Value).

Fixpoint value_to_pb (v : Value) : pb_Value :=
  match v with
  | VString s => StringVal s
  | VBool b => BoolVal b
  | VFloat f => FloatVal f
  | VInt i => IntVal i
  | VUint u => UintVal u
  | VNull => NullVal
  | VMap m => MapVal (entries_to_pb value_to_pb m)
  | VList l => ListVal (value_to_pb <$> l)
  end.

Fixpoint value_from_pb (v : pb_Value) : result wire_error Value :=
  match v with
  | PbNoKind => Err (MissingField $"Value.kind")
  | StringVal s => Ok (VString s)
  | BoolVal b => Ok (VBool b)
  | FloatVal f => Ok (VFloat f)
  | IntVal i => Ok (VInt i)
  | UintVal u => Ok (VUint u)
  | NullVal => Ok VNull
  | MapVal m => VMap <$> entries_from_pb value_from_pb m
  | ListVal l => VList <$> traverse value_from_pb l
  end.

Definition values_to_pb (m : list (str * Value)) : list (str * pb_Value) := entries_to_pb value_to_pb m.
Definition values_from_pb (m : list (str * pb_Value)) : result wire_error (list (str * Value)) :=
  entries_from_pb value_from_pb m.

(** ** Types and signatures *)

Inductive Scalar :=
| ScalarUnspecified | ScalarString | ScalarBool | ScalarInt | ScalarUint | ScalarFloat | ScalarNull.

Inductive pb_ParamType :=
| PtNone
| PtScalar (s : EnumValue Scalar)
| PtList (t : pb_ParamType)
| PtMap (t : pb_ParamType)
| PtUnion (ts : list pb_ParamType)
| PtStruct (fs : list (option str * option pb_ParamType)).

Fixpoint param_type_to_pb (t : ParamType) : pb_ParamType :=
  match t with
  | TString => PtScalar (Known ScalarString)
  | TBool => PtScalar (Known ScalarBool)
  | TInt => PtScalar (Known ScalarInt)
  | TUint => PtScalar (Known ScalarUint)
  | TFloat => PtScalar (Known ScalarFloat)
  | TNull => PtScalar (Known ScalarNull)
  | TList t => PtList (param_type_to_pb t)
  | TMap t => PtMap (param_type_to_pb t)
  | TUnion ts => PtUnion (param_type_to_pb <$> ts)
  | TStruct fs => PtStruct ((fun f => (Some f.1, Some (param_type_to_pb f.2))) <$> fs)
  end.

Definition scalar_from_pb (s : EnumValue Scalar) : result wire_error ParamType :=
  s ← known_enum s $"ParamType.scalar";
  match s with
  | ScalarString => Ok TString
  | ScalarBool => Ok TBool
  | ScalarInt => Ok TInt
  | ScalarUint => Ok TUint
  | ScalarFloat => Ok TFloat
  | ScalarNull => Ok TNull
  | ScalarUnspecified => Err (UnspecifiedEnum $"ParamType.scalar")
  end.

Fixpoint param_type_from_pb (t : pb_ParamType) : result wire_error ParamType :=
  match t with
  | PtNone => Err (MissingField $"ParamType.kind")
  | PtScalar s => scalar_from_pb s
  | PtList t => TList <$> param_type_from_pb t
  | PtMap t => TMap <$> param_type_from_pb t
  | PtUnion ts => TUnion <$> traverse param_type_from_pb ts
  | PtStruct fs => TStruct <$> traverse (fun f =>
      name ← required f.1 $"ParamType.Struct.Field.name";
      ty ← match f.2 with
           | Some ty => param_type_from_pb ty
           | None => Err (MissingField $"ParamType.Struct.Field.ty")
           end;
      Ok (name, ty)) fs
  end.

Record pb_Param := mkPbParam {
  pbp_name : option str; pbp_ty : option pb_ParamType; pbp_default : option pb_Value
}.

Definition param_to_pb (p : Param) : pb_Param :=
  mkPbParam (Some (p_name p)) (Some (param_type_to_pb (ty p))) (value_to_pb <$> p_default p).

Definition param_from_pb (p : pb_Param) : result wire_error Param :=
  name ← required (pbp_name p) $"Param.name";
  ty ← required (pbp_ty p) $"Param.ty" ≫= param_type_from_pb;
  d ← transpose value_from_pb (pbp_default p);
  Ok (match d with Some d => Param_optional name ty d | None => Param_required name ty end).

Record pb_FnSignature := mkPbSignature {
  pbs_positional : list pb_Param; pbs_named : list pb_Param;
  pbs_variadic : option pb_Param; pbs_returns : option pb_ParamType
}.

Definition fn_signature_to_pb (s : FnSignature) : pb_FnSignature :=
  mkPbSignature (param_to_pb <$> positional s) (param_to_pb <$> named s)
    (param_to_pb <$> variadic s) (Some (param_type_to_pb (returns s))).

Definition fn_signature_from_pb (s : pb_FnSignature) : result wire_error FnSignature :=
  positional ← traverse param_from_pb (pbs_positional s);
  named ← traverse param_from_pb (pbs_named s);
  variadic ← transpose param_from_pb (pbs_variadic s);
  returns ← required (pbs_returns s) $"FnSignature.returns" ≫= param_type_from_pb;
  Ok (mkSignature positional named variadic returns).

(** ** Schemas *)

Record SchemaField := mkField { f_name : str; f_ty : ParamType; f_doc : str; f_required : bool }.
Record StateSchema := mkStateSchema { state_fields : list SchemaField }.
Record DriverSchema := mkDriverSchema { accepts_deferred : bool; driver_fields : list SchemaField }.

Record pb_SchemaField := mkPbField {
  pbf_name : option str; pbf_ty : option pb_ParamType; pbf_doc : option str; pbf_required : option bool
}.
Record pb_Schema := mkPbSchema { pbs_accepts_deferred : option bool; pbs_fields : list pb_SchemaField }.

Definition schema_field_to_pb (f : SchemaField) : pb_SchemaField :=
  mkPbField (Some (f_name f)) (Some (param_type_to_pb (f_ty f))) (Some (f_doc f)) (Some (f_required f)).

Definition schema_field_from_pb (f : pb_SchemaField) : result wire_error SchemaField :=
  name ← required (pbf_name f) $"SchemaField.name";
  ty ← required (pbf_ty f) $"SchemaField.ty" ≫= param_type_from_pb;
  Ok (mkField name ty (default [] (pbf_doc f)) (default false (pbf_required f))).

Definition state_schema_to_pb (s : StateSchema) : pb_Schema :=
  mkPbSchema (Some false) (schema_field_to_pb <$> state_fields s).
Definition state_schema_from_pb (s : pb_Schema) : result wire_error StateSchema :=
  mkStateSchema <$> traverse schema_field_from_pb (pbs_fields s).

Definition driver_schema_to_pb (s : DriverSchema) : pb_Schema :=
  mkPbSchema (Some (accepts_deferred s)) (schema_field_to_pb <$> driver_fields s).
Definition driver_schema_from_pb (s : pb_Schema) : result wire_error DriverSchema :=
  mkDriverSchema (default false (pbs_accepts_deferred s)) <$> traverse schema_field_from_pb (pbs_fields s).

(** ** Provider state, approvals, declarations *)

Record State := mkState { s_package : PkgBuf; s_provider : str; s_state : list (str * Value) }.
Record pb_State := mkPbState {
  pbst_package : option str; pbst_provider : option str; pbst_state : list (str * pb_Value)
}.

Definition state_to_pb (s : State) : pb_State :=
  mkPbState (Some (s_package s)) (Some (s_provider s)) (values_to_pb (s_state s)).
Definition state_from_pb (s : pb_State) : result wire_error State :=
  package ← required (pbst_package s) $"State.package";
  provider ← required (pbst_provider s) $"State.provider";
  state ← values_from_pb (pbst_state s);
  Ok (mkState package provider state).
Definition states_from_pb (states : list pb_State) : result wire_error (list State) :=
  traverse state_from_pb states.

Record Approval := mkApproval { a_required : bool; a_notice : list str }.
Record pb_Approval := mkPbApproval { pba_required : option bool; pba_notice : list str }.
Definition Approval_default : Approval := mkApproval false [].

Definition approval_to_pb (a : Approval) : pb_Approval := mkPbApproval (Some (a_required a)) (a_notice a).
Definition approval_from_pb (a : pb_Approval) : result wire_error Approval :=
  r ← required (pba_required a) $"Approval.required"; Ok (mkApproval r (pba_notice a)).

Record DeclaredTarget := mkDeclared {
  dt_name : str; dt_driver : str; dt_labels : list str; dt_transitive : Value;
  dt_approval : Approval; dt_config : list (str * Value)
}.
Record pb_DeclaredTarget := mkPbDeclared {
  pbd_name : option str; pbd_driver : option str; pbd_labels : list str; pbd_transitive : option pb_Value;
  pbd_approval : option pb_Approval; pbd_config : list (str * pb_Value)
}.

(** [Null] is "none", and crosses as an absent field. *)
Definition transitive_to_pb (v : Value) : option pb_Value :=
  match v with VNull => None | v => Some (value_to_pb v) end.
Arguments transitive_to_pb : simpl never.

Definition declared_target_to_pb (t : DeclaredTarget) : pb_DeclaredTarget :=
  mkPbDeclared (Some (dt_name t)) (absent_if_empty (dt_driver t)) (dt_labels t)
    (transitive_to_pb (dt_transitive t))
    (Some (approval_to_pb (dt_approval t))) (values_to_pb (dt_config t)).

Definition declared_target_from_pb (t : pb_DeclaredTarget) : result wire_error DeclaredTarget :=
  name ← required (pbd_name t) $"DeclaredTarget.name";
  driver ← absent_not_empty (pbd_driver t) $"DeclaredTarget.driver";
  transitive ← transpose value_from_pb (pbd_transitive t);
  approval ← transpose approval_from_pb (pbd_approval t);
  config ← values_from_pb (pbd_config t);
  Ok (mkDeclared name (default [] driver) (pbd_labels t) (default VNull transitive)
        (default Approval_default approval) config).

Record DeclaredState := mkDeclaredState { ds_provider : str; ds_args : list (str * Value) }.
Record pb_DeclaredState := mkPbDeclaredState { pbds_provider : option str; pbds_args : list (str * pb_Value) }.

Definition declared_state_to_pb (s : DeclaredState) : pb_DeclaredState :=
  mkPbDeclaredState (Some (ds_provider s)) (values_to_pb (ds_args s)).
Definition declared_state_from_pb (s : pb_DeclaredState) : result wire_error DeclaredState :=
  provider ← required (pbds_provider s) $"DeclaredState.provider";
  args ← values_from_pb (pbds_args s);
  Ok (mkDeclaredState provider args).

(** ** Function calls *)

Record FnOutcome := mkOutcome { fo_value : Value; fo_targets : list DeclaredTarget; fo_states : list DeclaredState }.
Record pb_CallFunctionResponse := mkPbResponse {
  pbr_value : option pb_Value; pbr_targets : list pb_DeclaredTarget; pbr_states : list pb_DeclaredState
}.

Definition into_value_only (o : FnOutcome) : result wire_error Value :=
  if (0 <? length (fo_targets o)) || (0 <? length (fo_states o))
  then Err (CannotCarry (length (fo_targets o)) (length (fo_states o)))
  else Ok (fo_value o).

(** [absorb]: the value of the inner outcome, its declarations kept. *)
Definition absorb (self inner : FnOutcome) : Value * FnOutcome :=
  (fo_value inner, mkOutcome (fo_value self) (fo_targets self ++ fo_targets inner) (fo_states self ++ fo_states inner)).

Definition call_function_response (outcome : FnOutcome) (accepts_declarations : bool)
    : result wire_error pb_CallFunctionResponse :=
  if negb accepts_declarations then
    v ← into_value_only outcome; Ok (mkPbResponse (Some (value_to_pb v)) [] [])
  else
    Ok (mkPbResponse (Some (value_to_pb (fo_value outcome)))
          (declared_target_to_pb <$> fo_targets outcome) (declared_state_to_pb <$> fo_states outcome)).

Definition fn_outcome_from_pb (r : pb_CallFunctionResponse) : result wire_error FnOutcome :=
  value ← required (pbr_value r) $"CallFunctionResponse.value" ≫= value_from_pb;
  targets ← traverse declared_target_from_pb (pbr_targets r);
  states ← traverse declared_state_from_pb (pbr_states r);
  Ok (mkOutcome value targets states).

Record FnArgs := mkArgs { fa_positional : list Value; fa_named : list (str * Value) }.

Definition fn_args_to_pb (a : FnArgs) : list pb_Value * list (str * pb_Value) :=
  (value_to_pb <$> fa_positional a, values_to_pb (fa_named a)).
Definition fn_args_from_pb (positional : list pb_Value) (named : list (str * pb_Value)) : result wire_error FnArgs :=
  p ← traverse value_from_pb positional;
  n ← values_from_pb named;
  Ok (mkArgs p n).

(** ** Matchers *)

Inductive pb_Matcher :=
| PmNone
| PmAddr (a : pb_Addr)
| PmLabel (l : str)
| PmDriver (d : str)
| PmPackage (p : str)
| PmPackagePrefix (p : str)
| PmTreeOutputTo (p : str)
| PmOr (ms : list pb_Matcher)
| PmAnd (ms : list pb_Matcher)
| PmNot (m : pb_Matcher).

Fixpoint matcher_to_pb (m : Matcher) : pb_Matcher :=
  match m with
  | MAddr a => PmAddr (addr_to_pb a)
  | Label l => PmLabel l
  | Driver d => PmDriver d
  | Package p => PmPackage p
  | PackagePrefix p => PmPackagePrefix p
  | TreeOutputTo p => PmTreeOutputTo p
  | Or ms => PmOr (matcher_to_pb <$> ms)
  | And ms => PmAnd (matcher_to_pb <$> ms)
  | Not m => PmNot (matcher_to_pb m)
  end.

Fixpoint matcher_from_pb (m : pb_Matcher) : result wire_error Matcher :=
  match m with
  | PmAddr a => MAddr <$> addr_from_pb a
  | PmLabel l => Ok (Label l)
  | PmDriver d => Ok (Driver d)
  | PmPackage p => Ok (Package p)
  | PmPackagePrefix p => Ok (PackagePrefix p)
  | PmTreeOutputTo p => Ok (TreeOutputTo p)
  | PmOr l => Or <$> traverse matcher_from_pb l
  | PmAnd l => And <$> traverse matcher_from_pb l
  | PmNot m => Not <$> matcher_from_pb m
  | PmNone => Err NoMatcherArm
  end.

(** ** Listed facts *)

Record pb_ListedFacts := mkPbFacts {
  pbl_labels : option (list str); pbl_driver : option str; pbl_has_codegen : option bool
}.

Definition listed_facts_to_pb (f : ListedFacts) : option pb_ListedFacts :=
  if is_unknown f then None else Some (mkPbFacts (labels f) (driver f) (has_codegen f)).

(** [intern] shares the driver names of one listing; it returns its argument. *)
Definition listed_facts_from_pb (f : option pb_ListedFacts) : result wire_error ListedFacts :=
  match f with
  | None => Ok UNKNOWN
  | Some f =>
      let out := match pbl_labels f with Some ls => with_labels UNKNOWN ls | None => UNKNOWN end in
      d ← absent_not_empty (pbl_driver f) $"ListedFacts.driver";
      Ok (let out := match d with
                     | Some d => if (str_len d <=? MAX_LISTED_DRIVER_LEN)%N then with_driver out d else out
                     | None => out end in
          match pbl_has_codegen f with Some c => with_has_codegen out c | None => out end)
  end.

(** ** Round trips *)

(** What [to] sends, [from] reads back. *)
Class Wire {A P} (to : A -> P) (from : P -> result wire_error A) (ok : A -> Prop) : Prop :=
  wire_roundtrip a : ok a -> from (to a) = Ok a.
Arguments wire_roundtrip {A P} to from {ok _} a _.

Lemma traverse_cons {A B} (f : A -> result wire_error B) a l :
  traverse f (a :: l) = (b ← f a; r ← traverse f l; Ok (b :: r)).
Proof. done. Qed.

Lemma traverse_ok {A B} (f : A -> result wire_error B) l l' :
  traverse f l = Ok l' <-> Forall2 (fun a b => f a = Ok b) l l'.
Proof.
  revert l'; induction l as [|a l IH]; intros l'.
  { simpl. split; [by intros [= <-]|by inversion 1]. }
  rewrite traverse_cons, result_bind_ok. split.
  - intros (b & Hb & H). apply result_bind_ok in H as (r & Hr & [= <-]). constructor; [done|by apply IH].
  - inversion 1 as [|? b ? r Hb Hr]; subst. exists b. split; [done|]. apply IH in Hr. by rewrite Hr.
Qed.

Lemma traverse_roundtrip {A P} (to : A -> P) from l :
  Forall (fun a => from (to a) = Ok a) l -> traverse from (to <$> l) = Ok l.
Proof. intros H. apply traverse_ok. induction H; simpl; by constructor. Qed.

#[export] Instance wire_list {A P} (to : A -> P) from ok `{!Wire to from ok} :
  Wire (fmap to) (traverse from) (Forall ok).
Proof. intros l Hl. apply traverse_roundtrip. eapply Forall_impl; [exact Hl|]. intros a Ha. by apply (wire_roundtrip to from). Qed.

#[export] Instance wire_option {A P} (to : A -> P) from ok `{!Wire to from ok} :
  Wire (fmap (M := option) to) (transpose from) (fun o => forall a, o = Some a -> ok a).
Proof. intros [a|] Ha; simpl; [|done]. by rewrite (wire_roundtrip to from a (Ha a eq_refl)). Qed.

Lemma bt_sorted_map {A B} (f : A -> B) m : bt_sorted m -> bt_sorted ((fun e => (e.1, f e.2)) <$> m).
Proof.
  induction m as [|[k a] m IH]; simpl; [done|]. intros [Hk Hm]. split; [|by apply IH].
  rewrite Forall_fmap. by eapply Forall_impl.
Qed.

Lemma entries_roundtrip {A P} (to : A -> P) from m :
  bt_sorted m -> Forall (fun e => from (to e.2) = Ok e.2) m ->
  entries_from_pb from (entries_to_pb to m) = Ok m.
Proof.
  intros Hs Hm. unfold entries_from_pb, entries_to_pb. rewrite (bt_collect_id _ (bt_sorted_map to m Hs)).
  rewrite (traverse_roundtrip (fun e : str * A => (e.1, to e.2))); simpl; [by rewrite bt_collect_id|].
  eapply Forall_impl; [exact Hm|]. intros [k a] Ha. simpl in *. by rewrite Ha.
Qed.

(** The address is a [BTreeMap] of arguments. *)
Definition addr_args_ok (a : Addr) : Prop := bt_sorted (args a).

#[export] Instance wire_addr : Wire addr_to_pb addr_from_pb addr_args_ok.
Proof. intros [p n kvs] Ha. unfold addr_args_ok in Ha. unfold addr_from_pb, addr_to_pb. simpl in *. by rewrite !(bt_collect_id kvs Ha). Qed.

#[export] Instance wire_value : Wire value_to_pb value_from_pb value_wf.
Proof.
  intros v. induction v as [| | | | | |m IH|l IH] using value_rect; try done; simpl.
  - intros [Hs Hm]. rewrite (entries_roundtrip value_to_pb value_from_pb); [done|done|].
    clear Hs. induction IH as [|e m He _ IHm]; constructor; destruct Hm; auto.
  - intros Hl. rewrite (traverse_roundtrip value_to_pb value_from_pb); [done|].
    induction IH as [|e l He _ IHm]; constructor; destruct Hl; auto.
Qed.

(** The maps of values a message carries. *)
Definition values_ok (m : list (str * Value)) : Prop := bt_sorted m /\ Forall (fun e => value_wf e.2) m.

#[export] Instance wire_values : Wire values_to_pb values_from_pb values_ok.
Proof.
  intros m [Hs Hm]. apply entries_roundtrip; [done|]. eapply Forall_impl; [exact Hm|]. intros e He. by apply (wire_roundtrip value_to_pb value_from_pb).
Qed.

#[export] Instance wire_param_type : Wire param_type_to_pb param_type_from_pb (fun _ => True).
Proof.
  intros t _. induction t as [| | | | | |t IH|t IH|ts IH|fs IH] using param_type_rect; try done; simpl.
  - by rewrite IH.
  - by rewrite IH.
  - by rewrite (traverse_roundtrip param_type_to_pb param_type_from_pb).
  - rewrite traverse_roundtrip; [done|]. eapply Forall_impl; [exact IH|]. intros [n t] Ht. simpl in *. by rewrite Ht.
Qed.

Definition param_ok (p : Param) : Prop := forall v, p_default p = Some v -> value_wf v.

#[export] Instance wire_param : Wire param_to_pb param_from_pb param_ok.
Proof.
  intros [n t d] Hp. unfold param_from_pb, param_to_pb. simpl.
  rewrite (wire_roundtrip param_type_to_pb param_type_from_pb t I). simpl.
  rewrite (wire_roundtrip (fmap value_to_pb) (transpose value_from_pb) d Hp). by destruct d.
Qed.

Record signature_ok (s : FnSignature) : Prop := {
  so_positional : Forall param_ok (positional s); so_named : Forall param_ok (named s);
  so_variadic : forall p, variadic s = Some p -> param_ok p;
}.

#[export] Instance wire_signature : Wire fn_signature_to_pb fn_signature_from_pb signature_ok.
Proof.
  intros [p n v r] [Hp Hn Hv]. unfold fn_signature_from_pb. simpl in *.
  rewrite (wire_roundtrip (fmap param_to_pb) (traverse param_from_pb) p Hp). simpl.
  rewrite (wire_roundtrip (fmap param_to_pb) (traverse param_from_pb) n Hn). simpl.
  rewrite (wire_roundtrip (fmap param_to_pb) (transpose param_from_pb) v Hv). simpl.
  by rewrite (wire_roundtrip param_type_to_pb param_type_from_pb r I).
Qed.

#[export] Instance wire_schema_field : Wire schema_field_to_pb schema_field_from_pb (fun _ => True).
Proof.
  intros [n t d r] _. unfold schema_field_from_pb. simpl.
  by rewrite (wire_roundtrip param_type_to_pb param_type_from_pb t I).
Qed.

Lemma Forall_True {A} (l : list A) : Forall (fun _ => True) l.
Proof. by apply Forall_forall. Qed.

#[export] Instance wire_state_schema : Wire state_schema_to_pb state_schema_from_pb (fun _ => True).
Proof.
  intros [fs] _. unfold state_schema_from_pb. simpl.
  by rewrite (wire_roundtrip (fmap schema_field_to_pb) (traverse schema_field_from_pb) fs (Forall_True fs)).
Qed.

#[export] Instance wire_driver_schema : Wire driver_schema_to_pb driver_schema_from_pb (fun _ => True).
Proof.
  intros [d fs] _. unfold driver_schema_from_pb. simpl.
  by rewrite (wire_roundtrip (fmap schema_field_to_pb) (traverse schema_field_from_pb) fs (Forall_True fs)).
Qed.

#[export] Instance wire_state : Wire state_to_pb state_from_pb (fun s => values_ok (s_state s)).
Proof.
  intros [p pr st] Hs. unfold state_from_pb. simpl in *. by rewrite (wire_roundtrip values_to_pb values_from_pb st Hs).
Qed.

#[export] Instance wire_approval : Wire approval_to_pb approval_from_pb (fun _ => True).
Proof. by intros [r n] _. Qed.

Lemma absent_roundtrip s field : absent_not_empty (absent_if_empty s) field = Ok (absent_if_empty s).
Proof. by destruct s. Qed.
Lemma absent_default s : default [] (absent_if_empty s) = s.
Proof. by destruct s. Qed.

Definition declared_ok (t : DeclaredTarget) : Prop := value_wf (dt_transitive t) /\ values_ok (dt_config t).

Lemma transitive_roundtrip v : value_wf v ->
  default VNull <$> transpose value_from_pb (transitive_to_pb v) = Ok v.
Proof.
  intros Hv. assert (H : default VNull <$> transpose value_from_pb (Some (value_to_pb v)) = Ok v).
  { cbn [transpose]. by rewrite (wire_roundtrip value_to_pb value_from_pb v Hv). }
  by destruct v.
Qed.

#[export] Instance wire_declared_target : Wire declared_target_to_pb declared_target_from_pb declared_ok.
Proof.
  intros [n d ls t a c] [Ht Hc]. unfold declared_target_from_pb, declared_target_to_pb. simpl in *.
  rewrite absent_roundtrip. cbn [mbind result_bind].
  apply transitive_roundtrip in Ht. apply result_fmap_ok in Ht as (t' & Ht & ?). rewrite Ht. cbn [mbind result_bind].
  destruct a as [r notice]. simpl.
  rewrite (wire_roundtrip values_to_pb values_from_pb c Hc). simpl. rewrite absent_default. by subst.
Qed.

#[export] Instance wire_declared_state :
  Wire declared_state_to_pb declared_state_from_pb (fun s => values_ok (ds_args s)).
Proof.
  intros [p args] Ha. unfold declared_state_from_pb. simpl in *. by rewrite (wire_roundtrip values_to_pb values_from_pb args Ha).
Qed.

Record outcome_ok (o : FnOutcome) : Prop := {
  oo_value : value_wf (fo_value o);
  oo_targets : Forall declared_ok (fo_targets o);
  oo_states : Forall (fun s => values_ok (ds_args s)) (fo_states o);
}.

Definition args_ok (a : FnArgs) : Prop := Forall value_wf (fa_positional a) /\ values_ok (fa_named a).

Lemma fn_args_roundtrip a : args_ok a ->
  fn_args_from_pb (fn_args_to_pb a).1 (fn_args_to_pb a).2 = Ok a.
Proof.
  destruct a as [p n]. intros [Hp Hn]. unfold fn_args_from_pb. simpl in *.
  rewrite (wire_roundtrip (fmap value_to_pb) (traverse value_from_pb) p Hp). simpl.
  by rewrite (wire_roundtrip values_to_pb values_from_pb n Hn).
Qed.

Lemma outcome_roundtrip o : outcome_ok o ->
  fn_outcome_from_pb (mkPbResponse (Some (value_to_pb (fo_value o)))
    (declared_target_to_pb <$> fo_targets o) (declared_state_to_pb <$> fo_states o)) = Ok o.
Proof.
  destruct o as [v ts ss]. intros [Hv Ht Hs]. unfold fn_outcome_from_pb. simpl in *.
  rewrite (wire_roundtrip value_to_pb value_from_pb v Hv). cbn [mbind result_bind].
  rewrite (wire_roundtrip (fmap declared_target_to_pb) (traverse declared_target_from_pb) ts Ht). cbn [mbind result_bind].
  by rewrite (wire_roundtrip (fmap declared_state_to_pb) (traverse declared_state_from_pb) ss Hs).
Qed.

(** A plugin function is called across the wire as it is in process. Its
    signature arrives as it was declared, required and optional parameters told
    apart by the presence of the default alone; the arguments arrive as given;
    and the outcome arrives whole, its declarations included, or, when the
    caller cannot carry declarations and some were made, not at all. *)
Theorem function_call_crosses sig a o accepts :
  signature_ok sig -> args_ok a -> outcome_ok o ->
  fn_signature_from_pb (fn_signature_to_pb sig) = Ok sig /\
  fn_args_from_pb (fn_args_to_pb a).1 (fn_args_to_pb a).2 = Ok a /\
  match call_function_response o accepts with
  | Ok r => fn_outcome_from_pb r = Ok o
  | Err e => accepts = false /\ (fo_targets o <> [] \/ fo_states o <> []) /\
      e = CannotCarry (length (fo_targets o)) (length (fo_states o))
  end.
Proof.
  intros Hs Ha Ho. split_and!; [by apply (wire_roundtrip fn_signature_to_pb fn_signature_from_pb)|by apply fn_args_roundtrip|].
  unfold call_function_response. destruct accepts; simpl; [by apply outcome_roundtrip|].
  pose proof (outcome_roundtrip o Ho) as Hr. unfold into_value_only. destruct o as [v [|t ts] [|s ss]]; simpl in *.
  - done.
  - split_and!; [done|by right|done].
  - split_and!; [done|by left|done].
  - split_and!; [done|by left|done].
Qed.

(** ** Matchers, both ways *)

(** The address arguments of a matcher, and of its message, are maps. *)
Fixpoint matcher_ok (m : Matcher) : Prop :=
  match m with
  | MAddr a => addr_args_ok a
  | Or ms | And ms => foldr (fun m P => matcher_ok m /\ P) True ms
  | Not m => matcher_ok m
  | _ => True
  end.
Fixpoint pb_matcher_ok (p : pb_Matcher) : Prop :=
  match p with
  | PmAddr a => bt_sorted (pb_args a)
  | PmOr ms | PmAnd ms => foldr (fun m P => pb_matcher_ok m /\ P) True ms
  | PmNot m => pb_matcher_ok m
  | _ => True
  end.

(** A message with an arm this build does not know, at any depth. *)
Fixpoint unknown_arm (p : pb_Matcher) : bool :=
  match p with
  | PmNone => true
  | PmOr ms | PmAnd ms => existsb unknown_arm ms
  | PmNot m => unknown_arm m
  | _ => false
  end.

Lemma foldr_and {A} (P : A -> Prop) l : foldr (fun x Q => P x /\ Q) True l <-> Forall P l.
Proof. induction l as [|x l IH]; simpl; [by split|]. by rewrite IH, Forall_cons. Qed.

Lemma matcher_roundtrip m : matcher_ok m -> matcher_from_pb (matcher_to_pb m) = Ok m.
Proof.
  induction m as [a| | | | | |ms IH|ms IH|m IH] using Matcher_full_ind; simpl; try done.
  - destruct a as [p n kvs]. unfold addr_args_ok. simpl. intros Ha. by rewrite !(bt_collect_id kvs Ha).
  - rewrite foldr_and, Forall_forall. rewrite Forall_forall in IH. intros H.
    rewrite (traverse_roundtrip matcher_to_pb matcher_from_pb); [done|]. apply Forall_forall. auto.
  - rewrite foldr_and, Forall_forall. rewrite Forall_forall in IH. intros H.
    rewrite (traverse_roundtrip matcher_to_pb matcher_from_pb); [done|]. apply Forall_forall. auto.
  - intros H. by rewrite IH.
Qed.

Section pb_matcher_ind.
Context (P : pb_Matcher -> Prop) (Hn : P PmNone) (Ha : forall a, P (PmAddr a)) (Hl : forall l, P (PmLabel l))
  (Hd : forall d, P (PmDriver d)) (Hp : forall p, P (PmPackage p)) (Hpp : forall p, P (PmPackagePrefix p))
  (Ht : forall p, P (PmTreeOutputTo p)) (Hor : forall ms, Forall P ms -> P (PmOr ms))
  (Hand : forall ms, Forall P ms -> P (PmAnd ms)) (Hnot : forall m, P m -> P (PmNot m)).

Fixpoint pb_matcher_rect (m : pb_Matcher) : P m :=
  let fix go (ms : list pb_Matcher) : Forall P ms :=
    match ms with [] => Forall_nil_2 P | m :: r => Forall_cons_2 P m r (pb_matcher_rect m) (go r) end in
  match m with
  | PmNone => Hn | PmAddr a => Ha a | PmLabel l => Hl l | PmDriver d => Hd d | PmPackage p => Hp p
  | PmPackagePrefix p => Hpp p | PmTreeOutputTo p => Ht p
  | PmOr ms => Hor ms (go ms) | PmAnd ms => Hand ms (go ms) | PmNot m => Hnot m (pb_matcher_rect m)
  end.
End pb_matcher_ind.

Lemma traverse_matchers ms ms' :
  Forall (fun p => pb_matcher_ok p -> forall m, matcher_from_pb p = Ok m -> matcher_ok m /\ p = matcher_to_pb m) ms ->
  Forall pb_matcher_ok ms -> traverse matcher_from_pb ms = Ok ms' ->
  Forall matcher_ok ms' /\ ms = matcher_to_pb <$> ms'.
Proof.
  intros IH Hok H. apply traverse_ok in H. induction H as [|p m ms ms' Hm _ IHm]; [done|].
  inversion_clear IH as [|?? Hp IHs]. inversion_clear Hok as [|?? Hpo Hos].
  destruct (Hp Hpo m Hm) as [Ho ->]. destruct (IHm IHs Hos) as [Hos' ->]. by split; [constructor|].
Qed.

Lemma matcher_decoded p : pb_matcher_ok p -> forall m, matcher_from_pb p = Ok m ->
  matcher_ok m /\ p = matcher_to_pb m.
Proof.
  induction p as [|a| | | | | |ms IH|ms IH|p IH] using pb_matcher_rect; simpl; intros Hok m.
  2:{ intros H. apply result_fmap_ok in H as (x & Hx & ->). destruct a as [[pk|] [n|] kvs]; try done.
      injection Hx as <-. simpl. split; [apply bt_collect_sorted|]. unfold addr_to_pb. simpl.
      simpl in Hok. by rewrite !(bt_collect_id kvs Hok). }
  2-6: by intros [= <-].
  - done.
  - intros H. apply result_fmap_ok in H as (ms' & Hms & ->). apply foldr_and in Hok.
    destruct (traverse_matchers ms ms' IH Hok Hms) as [Ho ->]. simpl. split; [by apply foldr_and|done].
  - intros H. apply result_fmap_ok in H as (ms' & Hms & ->). apply foldr_and in Hok.
    destruct (traverse_matchers ms ms' IH Hok Hms) as [Ho ->]. simpl. split; [by apply foldr_and|done].
  - intros H. apply result_fmap_ok in H as (m' & Hm & ->). destruct (IH Hok m' Hm) as [Ho ->]. done.
Qed.

Lemma unknown_arm_to_pb m : unknown_arm (matcher_to_pb m) = false.
Proof.
  induction m as [a| | | | | |ms IH|ms IH|m IH] using Matcher_full_ind; simpl; try done.
  all: induction IH as [|m ms Hm _ IHm]; simpl; [done|]; by rewrite Hm.
Qed.

(** A matcher on the wire means one matcher. A message decodes to [m] exactly
    when it is the encoding of [m], whatever its nesting; so a message with an
    arm this build does not know, under any number of negations, is refused
    rather than read as matching nothing or everything. *)
Theorem matcher_wire_exact p m : pb_matcher_ok p ->
  (matcher_from_pb p = Ok m <-> matcher_ok m /\ p = matcher_to_pb m) /\
  (unknown_arm p = true -> is_ok (matcher_from_pb p) = false).
Proof.
  intros Hp. split; [split; [by apply matcher_decoded|]|].
  - intros [Hm ->]. by apply matcher_roundtrip.
  - intros Hu. destruct (matcher_from_pb p) as [m'|] eqn:H; [|done].
    apply matcher_decoded in H as [_ ->]; [|done]. by rewrite unknown_arm_to_pb in Hu.
Qed.

(** ** Listed facts *)

(** Facts a lister can hold: labels sorted and distinct, a driver that fits. *)
Definition facts_ok (f : ListedFacts) : Prop :=
  (forall ls, labels f = Some ls -> dedup (sort ls) = ls) /\
  (forall d, driver f = Some d -> d <> [] /\ (str_len d <= MAX_LISTED_DRIVER_LEN)%N).

Lemma listed_facts_roundtrip f : facts_ok f -> listed_facts_from_pb (listed_facts_to_pb f) = Ok f.
Proof.
  destruct f as [ls d c]. intros [Hl Hd]. unfold listed_facts_to_pb, listed_facts_from_pb.
  destruct (is_unknown _) eqn:Hu; simpl in *.
  { by destruct ls, d, c. }
  assert (Hls : match ls with Some l => with_labels UNKNOWN l | None => UNKNOWN end = mkFacts ls None None).
  { destruct ls as [l|]; [|done]. unfold with_labels, with_label_set. simpl. by rewrite (Hl l eq_refl). }
  rewrite Hls. destruct d as [d|]; simpl; [|by destruct c].
  destruct (Hd d eq_refl) as [Hne Hlen]. destruct d as [|x d]; [done|].
  apply N.leb_le in Hlen. simpl in *. unfold with_driver. simpl. rewrite Hlen. by destruct c.
Qed.

(** ** Witnesses *)

Definition sample_outcome : FnOutcome :=
  mkOutcome (VMap [($"a", VInt 1%Z)])
    [mkDeclared $"t" [] [$"l"] VNull (mkApproval true [$"n"]) [($"k", VList [VBool true])]] [].

Lemma function_call_crosses_witness :
  fn_signature_from_pb (fn_signature_to_pb sample_signature) = Ok sample_signature /\
  call_function_response sample_outcome false = Err (CannotCarry 1 0).
Proof.
  destruct (function_call_crosses sample_signature (mkArgs sample_args []) sample_outcome false) as (Hs & _ & _).
  - split; [|repeat constructor; by intros v [= <-]|by intros p [= <-] v Hv].
    constructor; [by intros v Hv|constructor].
  - split; [repeat constructor|split; [done|constructor]].
  - split; [by vm_compute|repeat constructor|constructor].
  - split; [exact Hs|reflexivity].
Defined.

(** [!(//p:x || <an arm of a newer peer>)]. *)
Definition sample_unknown : pb_Matcher := PmNot (PmOr [PmPackage $"p"; PmNone]).

Lemma matcher_wire_exact_witness :
  matcher_from_pb (matcher_to_pb (Not (Label $"x"))) = Ok (Not (Label $"x")) /\
  is_ok (matcher_from_pb sample_unknown) = false.
Proof.
  split.
  - apply (matcher_wire_exact (matcher_to_pb (Not (Label $"x"))) (Not (Label $"x"))); [exact I|]. split; [exact I|reflexivity].
  - apply (matcher_wire_exact sample_unknown (Label [])); [by vm_compute|reflexivity].
Defined.
