(* ===== verification/WireDef.v ===== *)
(** The wire form of targets, definitions, artifacts and runs: the second half of
    [crates/plugin-abi/src/convert.rs], with the run options of
    [plugin/src/driver.rs].

    The conventions are those of [Wire]. The opaque definition of a driver
    crosses as JSON text: its serializer and its reader are parameters. Paths
    are Unicode text, which [to_string_lossy] leaves as it is. A file descriptor
    in a message is a number of the process; the set of open descriptors is the
    state that decoding a run acts on. *)
From S2P Require Import Prelude Numerals HtPkg HtAddr MatchTarget Capacity Resources HtValue TargetRef Expand Wire.

(** ** Target references and sandboxes *)

Record pb_TargetAddr := mkPbTargetAddr { pbt_ref : option pb_Addr; pbt_output : option str; pbt_filters : list str }.

Definition target_addr_to_pb (t : TargetAddr) : pb_TargetAddr :=
  mkPbTargetAddr (Some (addr_to_pb (ref t))) (output t) (filters t).
Definition target_addr_from_pb (t : pb_TargetAddr) : result wire_error TargetAddr :=
  r ← addr_field (pbt_ref t) $"TargetAddr.ref";
  Ok (mkTargetAddr r (pbt_output t) (pbt_filters t)).
Definition target_addr_field (t : option pb_TargetAddr) (field : str) : result wire_error TargetAddr :=
  t ← required t field; target_addr_from_pb t.

Record pb_Tool := mkPbTool {
  pbto_ref : option pb_TargetAddr; pbto_group : option str; pbto_hash : option bool; pbto_id : option str
}.
Definition tool_to_pb (t : TargetRef.Tool) : pb_Tool :=
  mkPbTool (Some (target_addr_to_pb (tool_ref t))) (Some (tool_group t)) (Some (tool_hash t)) (Some (tool_id t)).
Definition tool_from_pb (t : pb_Tool) : result wire_error TargetRef.Tool :=
  r ← target_addr_field (pbto_ref t) $"Tool.ref";
  h ← required (pbto_hash t) $"Tool.hash";
  Ok (mkTool r (default [] (pbto_group t)) h (default [] (pbto_id t))).

Inductive pb_DepMode := DepModeUnspecified | DepModeNone | DepModeLink.
Record pb_Dep := mkPbDep {
  pbd_ref : option pb_TargetAddr; pbd_mode : option (EnumValue pb_DepMode); pbd_group : option str;
  pbd_runtime : option bool; pbd_hash : option bool; pbd_id : option str
}.
Definition dep_mode_to_pb (m : Mode) : pb_DepMode :=
  match m with ModeNone => DepModeNone | ModeLink => DepModeLink end.
Definition dep_mode_from_pb (m : option (EnumValue pb_DepMode)) : result wire_error Mode :=
  m ← required_enum m $"Dep.mode";
  match m with
  | DepModeNone => Ok ModeNone
  | DepModeLink => Ok ModeLink
  | DepModeUnspecified => Err (UnspecifiedEnum $"Dep.mode")
  end.
Definition dep_to_pb (d : Dep) : pb_Dep :=
  mkPbDep (Some (target_addr_to_pb (dep_ref d))) (Some (Known (dep_mode_to_pb (dep_mode d))))
    (Some (dep_group d)) (Some (dep_runtime d)) (Some (dep_hash d)) (Some (dep_id d)).
Definition dep_from_pb (d : pb_Dep) : result wire_error Dep :=
  m ← dep_mode_from_pb (pbd_mode d);
  r ← target_addr_field (pbd_ref d) $"Dep.ref";
  h ← required (pbd_hash d) $"Dep.hash";
  Ok (mkDep r m (default [] (pbd_group d)) (default false (pbd_runtime d)) h (default [] (pbd_id d))).

Inductive pb_EnvValue := EnvLiteral (s : str) | EnvPass (b : bool).
Record pb_Env := mkPbEnv {
  pbe_value : option pb_EnvValue; pbe_hash : option bool; pbe_append : option bool; pbe_append_prefix : option str
}.
Definition env_to_pb (e : Env) : pb_Env :=
  mkPbEnv (Some (match env_value e with Literal s => EnvLiteral s | Pass => EnvPass true end))
    (Some (env_hash e)) (Some (env_append e)) (Some (env_append_prefix e)).
Definition env_from_pb (e : pb_Env) : result wire_error Env :=
  v ← required (pbe_value e) $"Env.value";
  h ← required (pbe_hash e) $"Env.hash";
  Ok (mkEnv (match v with EnvLiteral s => Literal s | EnvPass _ => Pass end) h
        (default false (pbe_append e)) (default [] (pbe_append_prefix e))).

(** A map field decoded into a finite map. *)
Definition map_from_pb {A P} (f : P -> result wire_error A) (m : gmap str P) : result wire_error (gmap str A) :=
  (list_to_map (M := gmap str A)) <$> traverse (fun e => v ← f e.2; Ok (e.1, v)) (map_to_list m).

Record pb_Sandbox := mkPbSandbox { pbsb_tools : list pb_Tool; pbsb_deps : list pb_Dep; pbsb_env : gmap str pb_Env }.
Definition sandbox_to_pb (s : Sandbox) : pb_Sandbox :=
  mkPbSandbox (tool_to_pb <$> tools s) (dep_to_pb <$> deps s) (env_to_pb <$> env s).

(** The private key sets are rebuilt by the pushes. *)
Definition sandbox_from_pb (s : pb_Sandbox) : result wire_error Sandbox :=
  ts ← traverse tool_from_pb (pbsb_tools s);
  ds ← traverse dep_from_pb (pbsb_deps s);
  e ← map_from_pb env_from_pb (pbsb_env s);
  Ok (let sb := push_deps (push_tools Sandbox_default ts) ds in
      mkSandbox (tools sb) (deps sb) e (tool_keys sb) (dep_keys sb)).

(** ** Specs *)

Record TargetSpec := mkTargetSpec {
  ts_addr : Addr; ts_driver : str; ts_config : list (str * Value); ts_labels : list str;
  ts_transitive : Sandbox; ts_approval : Approval
}.
Record pb_TargetSpec := mkPbTargetSpec {
  pbts_addr : option pb_Addr; pbts_driver : option str; pbts_config : list (str * pb_Value);
  pbts_labels : list str; pbts_transitive : option pb_Sandbox; pbts_approval : option pb_Approval
}.
Definition target_spec_to_pb (t : TargetSpec) : pb_TargetSpec :=
  mkPbTargetSpec (Some (addr_to_pb (ts_addr t))) (Some (ts_driver t)) (values_to_pb (ts_config t))
    (ts_labels t) (Some (sandbox_to_pb (ts_transitive t))) (Some (approval_to_pb (ts_approval t))).
Definition target_spec_from_pb (t : pb_TargetSpec) : result wire_error TargetSpec :=
  addr ← addr_field (pbts_addr t) $"TargetSpec.addr";
  driver ← required (pbts_driver t) $"TargetSpec.driver";
  config ← values_from_pb (pbts_config t);
  transitive ← transpose sandbox_from_pb (pbts_transitive t);
  approval ← transpose approval_from_pb (pbts_approval t);
  Ok (mkTargetSpec addr driver config (pbts_labels t) (default Sandbox_default transitive)
        (default Approval_default approval)).

(** ** Inputs, paths, outputs *)

Inductive pb_InputMode := InputModeUnspecified | InputModeStandard | InputModeLink | InputModeTool.
Record pb_Input := mkPbInput {
  pbi_ref : option pb_TargetAddr; pbi_mode : option (EnumValue pb_InputMode); pbi_origin_id : option str;
  pbi_annotations : gmap str str; pbi_hashed : option bool; pbi_runtime : option bool
}.
Definition input_mode_to_pb (m : InputMode) : pb_InputMode :=
  match m with Standard => InputModeStandard | Link => InputModeLink | Expand.Tool => InputModeTool end.
Definition input_mode_from_pb (m : option (EnumValue pb_InputMode)) : result wire_error InputMode :=
  m ← required_enum m $"Input.mode";
  match m with
  | InputModeStandard => Ok Standard
  | InputModeLink => Ok Link
  | InputModeTool => Ok Expand.Tool
  | InputModeUnspecified => Err (UnspecifiedEnum $"Input.mode")
  end.
Definition input_to_pb (i : Input) : pb_Input :=
  mkPbInput (Some (target_addr_to_pb (input_ref i))) (Some (Known (input_mode_to_pb (mode i))))
    (Some (origin_id i)) (annotations i) (Some (hashed i)) (Some (runtime i)).
Definition input_from_pb (i : pb_Input) : result wire_error Input :=
  r ← target_addr_field (pbi_ref i) $"Input.ref";
  m ← input_mode_from_pb (pbi_mode i);
  h ← required (pbi_hashed i) $"Input.hashed";
  rt ← required (pbi_runtime i) $"Input.runtime";
  Ok (mkInput r m (default [] (pbi_origin_id i)) (pbi_annotations i) h rt).

Inductive pb_CodegenMode := CodegenModeUnspecified | CodegenModeNone | CodegenModeCopy | CodegenModeInPlace.
Definition codegen_to_pb (c : CodegenMode) : pb_CodegenMode :=
  match c with
  | CodegenNone => CodegenModeNone | CodegenCopy => CodegenModeCopy | CodegenInPlace => CodegenModeInPlace
  end.
Definition codegen_from_pb (c : option (EnumValue pb_CodegenMode)) : result wire_error CodegenMode :=
  c ← required_enum c $"Path.codegen_tree";
  match c with
  | CodegenModeNone => Ok CodegenNone
  | CodegenModeCopy => Ok CodegenCopy
  | CodegenModeInPlace => Ok CodegenInPlace
  | CodegenModeUnspecified => Err (UnspecifiedEnum $"Path.codegen_tree")
  end.

(** A [Path] with the [collect] flag the matcher does not read. *)
Record DefPath := mkDefPath { dp_content : Content; dp_codegen : CodegenMode; dp_collect : bool }.
Record pb_Path := mkPbPath {
  pbpa_content : option Content; pbpa_codegen : option (EnumValue pb_CodegenMode); pbpa_collect : option bool
}.
Definition path_to_pb (p : DefPath) : pb_Path :=
  mkPbPath (Some (dp_content p)) (Some (Known (codegen_to_pb (dp_codegen p)))) (Some (dp_collect p)).
Definition path_from_pb (p : pb_Path) : result wire_error DefPath :=
  c ← required (pbpa_content p) $"Path.content";
  g ← codegen_from_pb (pbpa_codegen p);
  Ok (mkDefPath c g (default false (pbpa_collect p))).
Definition paths_from_pb (ps : list pb_Path) : result wire_error (list DefPath) := traverse path_from_pb ps.

Record DefOutput := mkDefOutput { do_group : str; do_paths : list DefPath }.
Record pb_Output := mkPbOutput { pbo_group : option str; pbo_paths : list pb_Path }.
Definition output_to_pb (o : DefOutput) : pb_Output := mkPbOutput (Some (do_group o)) (path_to_pb <$> do_paths o).
Definition output_from_pb (o : pb_Output) : result wire_error DefOutput :=
  ps ← paths_from_pb (pbo_paths o); Ok (mkDefOutput (default [] (pbo_group o)) ps).

Record CacheConfig := mkCacheConfig { cc_enabled : bool; cc_remote_enabled : bool; cc_history : N }.
Record pb_CacheConfig := mkPbCacheConfig {
  pbc_enabled : option bool; pbc_remote_enabled : option bool; pbc_history : option N
}.
Definition cache_config_to_pb (c : CacheConfig) : pb_CacheConfig :=
  mkPbCacheConfig (Some (cc_enabled c)) (Some (cc_remote_enabled c)) (Some (cc_history c)).
Definition cache_config_from_pb (c : pb_CacheConfig) : result wire_error CacheConfig :=
  e ← required (pbc_enabled c) $"CacheConfig.enabled";
  r ← required (pbc_remote_enabled c) $"CacheConfig.remote_enabled";
  h ← required (pbc_history c) $"CacheConfig.history";
  Ok (mkCacheConfig e r h).

(** ** Mounts, deferred fields, allotments *)

Record ScratchMount := mkScratch { sm_addr : Addr; sm_path : str; sm_env : str; sm_dir : str }.
Record pb_ScratchMount := mkPbScratch {
  pbsm_addr : option pb_Addr; pbsm_path : option str; pbsm_env : option str; pbsm_dir : option str
}.
Definition scratch_mount_to_pb (m : ScratchMount) : pb_ScratchMount :=
  mkPbScratch (Some (addr_to_pb (sm_addr m))) (Some (sm_path m)) (Some (sm_env m)) (Some (sm_dir m)).

(** A mount missing any of its fields is dropped, not defaulted. *)
Definition scratch_mount_from_pb (m : pb_ScratchMount) : option ScratchMount :=
  match addr_from_pb <$> pbsm_addr m with
  | Some (Ok addr) =>
      path ← pbsm_path m;
      env ← pbsm_env m;
      dir ← pbsm_dir m;
      Some (mkScratch addr path env dir)
  | _ => None
  end.

Record CredentialMount := mkCredential {
  cm_addr : Addr; cm_env : gmap str str; cm_path_prefix : list str; cm_redact : list str
}.
Record pb_CredentialMount := mkPbCredential {
  pbcm_addr : option pb_Addr; pbcm_env : gmap str str; pbcm_path_prefix : list str; pbcm_redact : list str
}.
Definition credential_mount_to_pb (m : CredentialMount) : pb_CredentialMount :=
  mkPbCredential (Some (addr_to_pb (cm_addr m))) (cm_env m) (cm_path_prefix m) (cm_redact m).
Definition credential_mount_from_pb (m : pb_CredentialMount) : result wire_error CredentialMount :=
  a ← addr_field (pbcm_addr m) $"CredentialMount.addr";
  Ok (mkCredential a (pbcm_env m) (pbcm_path_prefix m) (pbcm_redact m)).

(** [NeedsSandbox] keeps the pieces that are still to be substituted; only a
    finished value crosses. *)
Inductive DeferredValue := Ready (s : str) | NeedsSandbox (reads srcs : gmap str str).
Definition deferred_to_pb (m : gmap str DeferredValue) : result wire_error (gmap str str) :=
  (list_to_map (M := gmap str str)) <$>
  traverse (fun e => match e.2 with
                     | Ready s => Ok (e.1, s)
                     | NeedsSandbox _ _ => Err (Malformed e.1)
                     end) (map_to_list m).

Definition resources_to_pb (r : Resources) : list (str * str) := bt_collect r.

Definition allotment_to_pb (a : list (str * str)) : list (str * str) := bt_collect a.
Definition allotment_from_pb (a : list (str * str)) : result wire_error (option (list (str * str))) :=
  match a with
  | [] => Ok None
  | _ =>
      if negb (contains_key $"cpu" a) then Err (Malformed $"ManagedRunRequest.allotment")
      else
        _ ← traverse (fun e => map_err (fun _ => Malformed $"ManagedRunRequest.allotment") (pool_name_try_from e.1)) a;
        Ok (Some (bt_collect a))
  end.

(** ** Entrypoints and definitions *)

Inductive Workdir := Caller | TreeRoot | WorkdirSandbox | TreePackage.
Record Entrypoint := mkEntrypoint { accepts_args : bool; workdir : Workdir; offers_pty : bool }.
Inductive pb_Workdir := WdUnspecified | WdCaller | WdTreeRoot | WdSandbox | WdTreePackage.
Record pb_Entrypoint := mkPbEntrypoint {
  pben_accepts_args : option bool; pben_workdir : option (EnumValue pb_Workdir); pben_offers_pty : option bool
}.

Definition entrypoint_to_pb (e : Entrypoint) : pb_Entrypoint :=
  mkPbEntrypoint (Some (accepts_args e))
    (Some (Known (match workdir e with
                  | Caller => WdCaller | TreeRoot => WdTreeRoot
                  | WorkdirSandbox => WdSandbox | TreePackage => WdTreePackage end)))
    (Some (offers_pty e)).

Definition workdir_from_pb (w : option (EnumValue pb_Workdir)) : result wire_error Workdir :=
  w ← required_enum w $"Entrypoint.workdir";
  match w with
  | WdCaller => Ok Caller
  | WdTreeRoot => Ok TreeRoot
  | WdSandbox => Ok WorkdirSandbox
  | WdTreePackage => Ok TreePackage
  | WdUnspecified => Err (UnspecifiedEnum $"Entrypoint.workdir")
  end.

(** [Entrypoint::new] offers no PTY; [with_pty] does. *)
Definition entrypoint_from_pb (e : pb_Entrypoint) : result wire_error Entrypoint :=
  w ← workdir_from_pb (pben_workdir e);
  Ok (if default false (pben_offers_pty e)
      then mkEntrypoint (default false (pben_accepts_args e)) w true
      else mkEntrypoint (default false (pben_accepts_args e)) w false).

Section raw_def.
(** The driver's own definition, its JSON writer and the reader of the carrier. *)
Context {RawDef : Type} (to_json : RawDef -> option (list N)) (from_json : list N -> option RawDef).

Inductive pb_Format := FormatUnspecified | FormatJson.
Record pb_RawDefBlob := mkPbBlob { pbb_format : option (EnumValue pb_Format); pbb_data : option (list N) }.

Definition raw_def_to_blob (raw : RawDef) : result wire_error pb_RawDefBlob :=
  data ← ok_or (Malformed $"raw_def") (to_json raw);
  Ok (mkPbBlob (Some (Known FormatJson)) (Some data)).
Definition raw_def_from_blob (blob : pb_RawDefBlob) : result wire_error RawDef :=
  f ← required_enum (pbb_format blob) $"RawDefBlob.format";
  match f with
  | FormatJson =>
      data ← required (pbb_data blob) $"RawDefBlob.data";
      ok_or (Malformed $"raw_def") (from_json data)
  | _ => Err (UnspecifiedEnum $"RawDefBlob.format")
  end.

(** [demand] is the engine's and never crosses. *)
Record TargetDef := mkTargetDef {
  td_addr : Addr; td_labels : list str; raw_def : RawDef; td_inputs : list Input;
  td_outputs : list DefOutput; support_files : list DefPath; cache : CacheConfig;
  td_entrypoint : option Entrypoint; pty : bool; hash : list N; td_transparent : bool;
  resources : Resources; demand : Demand
}.
Record pb_TargetDef := mkPbTargetDef {
  pbtd_addr : option pb_Addr; pbtd_labels : list str; pbtd_raw_def : option pb_RawDefBlob;
  pbtd_inputs : list pb_Input; pbtd_outputs : list pb_Output; pbtd_support_files : list pb_Path;
  pbtd_cache : option pb_CacheConfig; pbtd_pty : option bool; pbtd_hash : option (list N);
  pbtd_transparent : option bool; pbtd_entrypoint : option pb_Entrypoint; pbtd_resources : list (str * str)
}.

Definition target_def_to_pb (td : TargetDef) : result wire_error pb_TargetDef :=
  blob ← raw_def_to_blob (raw_def td);
  Ok (mkPbTargetDef (Some (addr_to_pb (td_addr td))) (td_labels td) (Some blob)
        (input_to_pb <$> td_inputs td) (output_to_pb <$> td_outputs td) (path_to_pb <$> support_files td)
        (Some (cache_config_to_pb (cache td))) (Some (pty td)) (Some (hash td)) (Some (td_transparent td))
        (entrypoint_to_pb <$> td_entrypoint td) (resources_to_pb (resources td))).

Definition target_def_from_pb (td : pb_TargetDef) : result wire_error TargetDef :=
  addr ← addr_field (pbtd_addr td) $"TargetDef.addr";
  raw ← required (pbtd_raw_def td) $"TargetDef.raw_def" ≫= raw_def_from_blob;
  ins ← traverse input_from_pb (pbtd_inputs td);
  outs ← traverse output_from_pb (pbtd_outputs td);
  sup ← paths_from_pb (pbtd_support_files td);
  cc ← required (pbtd_cache td) $"TargetDef.cache" ≫= cache_config_from_pb;
  h ← required (pbtd_hash td) $"TargetDef.hash";
  ep ← transpose entrypoint_from_pb (pbtd_entrypoint td);
  res ← map_err (fun _ => Malformed $"TargetDef.resources") (resources_try_from_pairs (pbtd_resources td));
  Ok (mkTargetDef addr (pbtd_labels td) raw ins outs sup cc ep (default false (pbtd_pty td)) h
        (default false (pbtd_transparent td)) res []).
End raw_def.
Arguments pb_TargetDef : clear implicits.

(** ** Artifacts *)

Inductive ArtifactType := OaOutput | OaLog | OaSupportFile.
Inductive pb_ArtifactType := AtUnspecified | AtOutput | AtLog | AtSupportFile.

(** A view holds a live reference into the host's cache; [view] is that reference. *)
Inductive OaContent :=
| OaFile (source_path out_path : str) (x passthrough : bool)
| OaRaw (data : list N) (path : str) (x : bool)
| OaTarPath (path : str) (owned : bool)
| OaCpioPath (path : str) (owned : bool)
| OaView (view : nat).
Record OutputArtifact := mkArtifact {
  oa_group : str; oa_name : str; oa_type : ArtifactType; oa_content : OaContent; oa_hashout : str
}.

Inductive pb_OaContent :=
| PbFile (source_path out_path : option str) (x : option bool)
| PbRaw (data : option (list N)) (path : option str) (x : option bool)
| PbTarPath (path : str)
| PbCpioPath (path : str).
Record pb_OutputArtifact := mkPbArtifact {
  pboa_group : option str; pboa_name : option str; pboa_type : option (EnumValue pb_ArtifactType);
  pboa_content : option pb_OaContent; pboa_hashout : option str
}.

Definition oa_type_to_pb (t : ArtifactType) : pb_ArtifactType :=
  match t with OaOutput => AtOutput | OaLog => AtLog | OaSupportFile => AtSupportFile end.
Definition oa_type_from_pb (t : option (EnumValue pb_ArtifactType)) : result wire_error ArtifactType :=
  t ← required_enum t $"OutputArtifactRef.type";
  match t with
  | AtOutput => Ok OaOutput
  | AtLog => Ok OaLog
  | AtSupportFile => Ok OaSupportFile
  | AtUnspecified => Err (UnspecifiedEnum $"OutputArtifactRef.type")
  end.

Definition output_artifact_to_pb (oa : OutputArtifact) : result wire_error pb_OutputArtifact :=
  content ← match oa_content oa with
            | OaFile s o x _ => Ok (PbFile (Some s) (Some o) (Some x))
            | OaRaw d p x => Ok (PbRaw (Some d) (Some p) (Some x))
            | OaTarPath p _ => Ok (PbTarPath p)
            | OaCpioPath p _ => Ok (PbCpioPath p)
            | OaView _ => Err (Malformed (oa_name oa))
            end;
  Ok (mkPbArtifact (Some (oa_group oa)) (Some (oa_name oa)) (Some (Known (oa_type_to_pb (oa_type oa))))
        (Some content) (absent_if_empty (oa_hashout oa))).

Definition output_artifact_from_pb (oa : pb_OutputArtifact) : result wire_error OutputArtifact :=
  name ← required (pboa_name oa) $"OutputArtifactRef.name";
  c ← required (pboa_content oa) $"OutputArtifactRef.content";
  content ← match c with
            | PbFile s o x =>
                s ← required s $"ContentFile.source_path";
                o ← required o $"ContentFile.out_path";
                Ok (OaFile s o (default false x) false)
            | PbRaw d p x =>
                p ← required p $"ContentRaw.path";
                Ok (OaRaw (default [] d) p (default false x))
            | PbTarPath p => Ok (OaTarPath p false)
            | PbCpioPath p => Ok (OaCpioPath p false)
            end;
  t ← oa_type_from_pb (pboa_type oa);
  h ← absent_not_empty (pboa_hashout oa) $"OutputArtifactRef.hashout";
  Ok (mkArtifact (default [] (pboa_group oa)) name t content (default [] h)).

(** ** Exits and failures *)

Inductive Exit := ExitCode (c : Z) | ExitSignal (s : Z).
Definition exit_to_pb (e : Exit) : option Exit := Some e.
Definition exit_from_pb (e : option (option Exit)) : option Exit := e ≫= id.

(** What a run's failure carries: its text, the exit of a process, artifacts. *)
Record RunError := mkRunError { re_message : str; re_exit : option Exit; re_artifacts : list OutputArtifact }.
Record pb_RunFailure := mkPbRunFailure {
  pbrf_message : option str; pbrf_exit : option (option Exit); pbrf_artifacts : list pb_OutputArtifact
}.

(** [filter_map] keeping what converts. *)
Definition keep_ok {A B} (f : A -> result wire_error B) (l : list A) : list B :=
  omap (fun a => match f a with Ok b => Some b | Err _ => None end) l.

Definition run_failure_to_pb (err : RunError) (message : str) : pb_RunFailure :=
  mkPbRunFailure (Some message) (exit_to_pb <$> re_exit err) (keep_ok output_artifact_to_pb (re_artifacts err)).
Definition run_failure_from_pb (f : pb_RunFailure) : RunError :=
  mkRunError (default [] (pbrf_message f)) (exit_from_pb (pbrf_exit f))
    (keep_ok output_artifact_from_pb (pbrf_artifacts f)).

(** ** Run options *)

Inductive Disposition := DispDefault | DispIgnore.

(** What crosses of a [Foreground]; its signal channel is set up by the decoder
    and its host-only fields never cross. *)
Record Foreground := mkForeground {
  dispositions : list (Z * Disposition); nofile : option N; blocked : list Z
}.
Inductive RunStdio := Captured | Inherit (fg : Foreground) | Pty (fg : Foreground) (slave : Z).
Record RunOptions := mkRunOptions {
  cwd : option (list N); base_env : option (list (list N * list N)); ro_args : option (list (list N));
  stdio : RunStdio
}.
Definition RunOptions_default : RunOptions := mkRunOptions None None None Captured.

Definition is_default (o : RunOptions) : bool :=
  match cwd o, base_env o, ro_args o, stdio o with None, None, None, Captured => true | _, _, _, _ => false end.

Inductive pb_RunStdio := StdioUnspecified | StdioCaptured | StdioInherit | StdioPty.
Inductive pb_Disposition := PbDispUnspecified | PbDispDefault | PbDispIgnore.
Record pb_RunOptions := mkPbRunOptions {
  pbr_pty_slave_fd : option Z; pbr_cwd : option (list N);
  pbr_base_env : option (list (option (list N) * option (list N))); pbr_args : option (list (list N));
  pbr_stdio : option (EnumValue pb_RunStdio);
  pbr_dispositions : list (option Z * option (EnumValue pb_Disposition));
  pbr_nofile : option N; pbr_blocked : list Z
}.

Definition disposition_to_pb (e : Z * Disposition) : option Z * option (EnumValue pb_Disposition) :=
  (Some e.1, Some (Known (match e.2 with DispDefault => PbDispDefault | DispIgnore => PbDispIgnore end))).
Definition disposition_from_pb (e : option Z * option (EnumValue pb_Disposition))
    : result wire_error (Z * Disposition) :=
  sig ← required e.1 $"SignalDispositionEntry.signo";
  d ← required_enum e.2 $"SignalDispositionEntry.disposition";
  match d with
  | PbDispDefault => Ok (sig, DispDefault)
  | PbDispIgnore => Ok (sig, DispIgnore)
  | PbDispUnspecified => Err (UnspecifiedEnum $"SignalDispositionEntry.disposition")
  end.

Definition foreground_to_pb (fg : Foreground)
    : list (option Z * option (EnumValue pb_Disposition)) * option N * list Z :=
  (disposition_to_pb <$> dispositions fg, nofile fg, blocked fg).

(** The [match &o.stdio] of [run_options_to_pb]. *)
Definition stdio_to_pb (e : Entrypoint) (io : RunStdio)
    : result wire_error (pb_RunStdio * option Z * (list (option Z * option (EnumValue pb_Disposition)) * option N * list Z)) :=
  match io with
  | Captured => Ok (StdioCaptured, None, ([], None, []))
  | Inherit fg => Ok (StdioInherit, None, foreground_to_pb fg)
  | Pty fg slave =>
      if negb (offers_pty e) then Err (Malformed $"no PTY offered")
      else Ok (StdioPty, Some slave, foreground_to_pb fg)
  end.

Definition env_vars_to_pb (vars : list (list N * list N)) : list (option (list N) * option (list N)) :=
  (fun kv => (Some kv.1, Some kv.2)) <$> vars.

(** [ep] is the entrypoint the target's definition declared. *)
Definition run_options_to_pb (ep : option Entrypoint) (o : RunOptions) : result wire_error (option pb_RunOptions) :=
  if is_default o then Ok None
  else
    match ep with
    | None => Err (Malformed $"no entrypoint declared")
    | Some e =>
        '(kind, slave, (ds, nf, bl)) ← stdio_to_pb e (stdio o);
        Ok (Some (mkPbRunOptions slave (cwd o) (env_vars_to_pb <$> base_env o)
              (ro_args o) (Some (Known kind)) ds nf bl))
    end.

Inductive FdScope := SharedProcess | OtherProcess.

(** Which ends of the run's channels the decoder hands out. *)
Record RunChannels := mkRunChannels { ch_signals : bool; ch_continues : bool; ch_stops : bool }.
Definition RunChannels_default : RunChannels := mkRunChannels false false false.

(** [open] are the descriptors open in this process. *)
Definition take_pty_slave (open : gset Z) (fd : Z) (scope : FdScope) : result wire_error Z :=
  match scope with
  | OtherProcess => Err (Malformed $"RunOptions.pty_slave_fd")
  | SharedProcess =>
      if (fd <? 3)%Z then Err (Malformed $"RunOptions.pty_slave_fd")
      else if bool_decide (fd ∈ open) then Ok fd
      else Err (Malformed $"RunOptions.pty_slave_fd")
  end.

Definition env_var_from_pb (v : option (list N) * option (list N)) : result wire_error (list N * list N) :=
  k ← required v.1 $"EnvVar.key"; Ok (k, default [] v.2).

(** [from_captured] and [from_foreground] are the two arms of the final match. *)
Definition from_captured (o : pb_RunOptions) : result wire_error (RunStdio * RunChannels) :=
  match pbr_dispositions o, pbr_nofile o, pbr_blocked o with
  | [], None, [] => Ok (Captured, RunChannels_default)
  | _ :: _, _, _ => Err (Malformed $"RunOptions.dispositions")
  | _, Some _, _ => Err (Malformed $"RunOptions.nofile")
  | _, _, _ :: _ => Err (Malformed $"RunOptions.blocked_signals")
  end.
Definition from_foreground (o : pb_RunOptions) (kind : pb_RunStdio) (slave : option Z)
    : result wire_error (RunStdio * RunChannels) :=
  ds ← traverse disposition_from_pb (pbr_dispositions o);
  match kind, slave with
  | StdioPty, Some slave =>
      Ok (Pty (mkForeground ds (pbr_nofile o) (pbr_blocked o)) slave, mkRunChannels true true true)
  | StdioPty, None => Err (MissingField $"RunOptions.pty_slave_fd")
  | _, _ => Ok (Inherit (mkForeground ds (pbr_nofile o) (pbr_blocked o)), mkRunChannels true false false)
  end.

(** What follows once the slave is owned. *)
Definition run_options_decode (o : pb_RunOptions) (slave : option Z)
    : result wire_error (RunOptions * RunChannels) :=
  env ← transpose (traverse env_var_from_pb) (pbr_base_env o);
  kind ← match pbr_stdio o with None => Ok StdioCaptured | Some v => known_enum v $"RunOptions.stdio" end;
  _ ← (if bool_decide (is_Some slave) && negb (match kind with StdioPty => true | _ => false end)
       then Err (Malformed $"RunOptions.pty_slave_fd") else Ok tt);
  '(io, ch) ← match kind with
              | StdioCaptured | StdioUnspecified => from_captured o
              | StdioInherit | StdioPty => from_foreground o kind slave
              end;
  Ok (mkRunOptions (pbr_cwd o) env (pbr_args o) io, ch).

(** The decoded run and the descriptors still open: an owned slave that ends up
    in no run is closed on the way out. *)
Definition run_options_from_pb (o : option pb_RunOptions) (scope : FdScope) (open : gset Z)
    : result wire_error (RunOptions * RunChannels) * gset Z :=
  match o with
  | None => (Ok (RunOptions_default, RunChannels_default), open)
  | Some o =>
      match transpose (fun fd => take_pty_slave open fd scope) (pbr_pty_slave_fd o) with
      | Err e => (Err e, open)
      | Ok slave =>
          match run_options_decode o slave with
          | Ok r => (Ok r, open)
          | Err e => (Err e, match slave with Some fd => open ∖ {[fd]} | None => open end)
          end
      end
  end.

(** ** Round trips *)

Definition ta_ok (t : TargetAddr) : Prop := addr_args_ok (ref t).

Lemma addr_field_roundtrip a field : addr_args_ok a -> addr_field (Some (addr_to_pb a)) field = Ok a.
Proof. intros Ha. unfold addr_field. simpl. exact (wire_roundtrip addr_to_pb addr_from_pb a Ha). Qed.

#[export] Instance wire_target_addr : Wire target_addr_to_pb target_addr_from_pb ta_ok.
Proof. intros [r o f] Ht. unfold target_addr_from_pb, target_addr_to_pb. cbn -[addr_field addr_to_pb]. by rewrite addr_field_roundtrip. Qed.

Lemma target_addr_field_roundtrip t field : ta_ok t -> target_addr_field (Some (target_addr_to_pb t)) field = Ok t.
Proof. intros Ht. unfold target_addr_field. exact (wire_roundtrip target_addr_to_pb target_addr_from_pb t Ht). Qed.

(** Decode a field that was encoded, leaving the rest of the decoder. *)
Ltac wire_step := rewrite ?target_addr_field_roundtrip, ?addr_field_roundtrip by done; cbn [mbind result_bind required ok_or].

#[export] Instance wire_tool : Wire tool_to_pb tool_from_pb (fun t => ta_ok (tool_ref t)).
Proof. intros [r g h i] Ht. unfold tool_from_pb, tool_to_pb. cbn -[target_addr_field target_addr_to_pb] in *. by wire_step. Qed.

#[export] Instance wire_dep : Wire dep_to_pb dep_from_pb (fun d => ta_ok (dep_ref d)).
Proof.
  intros [r m g rt h i] Hd. unfold dep_from_pb, dep_to_pb. cbn -[target_addr_field target_addr_to_pb dep_mode_from_pb] in *.
  assert (dep_mode_from_pb (Some (Known (dep_mode_to_pb m))) = Ok m) as -> by by destruct m.
  cbn [mbind result_bind]. by wire_step.
Qed.

#[export] Instance wire_env : Wire env_to_pb env_from_pb (fun _ => True).
Proof. by intros [[s|] h a p] _. Qed.

Lemma map_roundtrip {A P} (to : A -> P) (from : P -> result wire_error A) (m : gmap str A) :
  (forall k a, m !! k = Some a -> from (to a) = Ok a) -> map_from_pb from (to <$> m) = Ok m.
Proof.
  intros H. unfold map_from_pb. rewrite map_to_list_fmap.
  rewrite (traverse_roundtrip (prod_map id to) (fun e => v ← from e.2; Ok (e.1, v))).
  - simpl. by rewrite list_to_map_to_list.
  - apply Forall_forall. intros [k a] Hin. simpl. apply elem_of_map_to_list in Hin. by rewrite (H k a Hin).
Qed.

(** Finished fields cross as they are; one that is not fails the whole map. *)
Lemma deferred_to_pb_exact m m' : deferred_to_pb m = Ok m' <-> m = Ready <$> m'.
Proof.
  unfold deferred_to_pb. split.
  - intros H. apply result_fmap_ok in H as (l & Hl & ->). apply traverse_ok in Hl.
    assert (Hm : map_to_list m = prod_map id Ready <$> l).
    { induction Hl as [|[k v] [k' s] ? ? Hv _ IH]; [done|]. simpl in *. destruct v; [|done].
      injection Hv as -> ->. by rewrite IH. }
    apply (f_equal (list_to_map (M := gmap str DeferredValue))) in Hm. rewrite list_to_map_to_list in Hm.
    by rewrite Hm, list_to_map_fmap.
  - intros ->. rewrite map_to_list_fmap, (traverse_roundtrip (prod_map id Ready)).
    + simpl. by rewrite list_to_map_to_list.
    + apply Forall_forall. by intros [k s] _.
Qed.

Lemma push_tools_fresh ts : forall s, NoDup (tool_key <$> ts) ->
  (forall t, t ∈ ts -> tool_key t ∉ tool_keys s) ->
  push_tools s ts = mkSandbox (tools s ++ ts) (deps s) (env s) (list_to_set (tool_key <$> ts) ∪ tool_keys s) (dep_keys s).
Proof.
  induction ts as [|t ts IH]; intros s Hn Hf; simpl.
  { destruct s. simpl. rewrite app_nil_r. f_equal. set_solver. }
  apply NoDup_cons in Hn as [Ht Hn]. unfold push_tools in *. simpl. unfold push_tool at 2.
  rewrite decide_False by (apply Hf; by left). simpl. rewrite IH; [|done|].
  - simpl. rewrite <-app_assoc. f_equal. set_solver.
  - intros u Hu. simpl. assert (tool_key u ∉ tool_keys s) by (apply Hf; by right).
    assert (tool_key u <> tool_key t) by (intros He; apply Ht; rewrite <-He; by apply list_elem_of_fmap_2). set_solver.
Qed.

Lemma push_deps_fresh ds : forall s, NoDup (dep_key <$> ds) ->
  (forall d, d ∈ ds -> dep_key d ∉ dep_keys s) ->
  push_deps s ds = mkSandbox (tools s) (deps s ++ ds) (env s) (tool_keys s) (list_to_set (dep_key <$> ds) ∪ dep_keys s).
Proof.
  induction ds as [|d ds IH]; intros s Hn Hf; simpl.
  { destruct s. simpl. rewrite app_nil_r. f_equal. set_solver. }
  apply NoDup_cons in Hn as [Hd Hn]. unfold push_deps in *. simpl. unfold push_dep at 2.
  rewrite decide_False by (apply Hf; by left). simpl. rewrite IH; [|done|].
  - simpl. rewrite <-app_assoc. f_equal. set_solver.
  - intros u Hu. simpl. assert (dep_key u ∉ dep_keys s) by (apply Hf; by right).
    assert (dep_key u <> dep_key d) by (intros He; apply Hd; rewrite <-He; by apply list_elem_of_fmap_2). set_solver.
Qed.

Record sandbox_ok (s : Sandbox) : Prop := {
  sbo_wf : sandbox_wf s;
  sbo_tools : Forall (fun t => ta_ok (tool_ref t)) (tools s);
  sbo_deps : Forall (fun d => ta_ok (dep_ref d)) (deps s);
}.

#[export] Instance wire_sandbox : Wire sandbox_to_pb sandbox_from_pb sandbox_ok.
Proof.
  intros [ts ds e tk dk] [[Htk Htn Hdk Hdn] Ht Hd]. unfold sandbox_from_pb, sandbox_to_pb. simpl in *.
  rewrite (wire_roundtrip (fmap tool_to_pb) (traverse tool_from_pb) ts Ht). cbn [mbind result_bind].
  rewrite (wire_roundtrip (fmap dep_to_pb) (traverse dep_from_pb) ds Hd). cbn [mbind result_bind].
  rewrite map_roundtrip by (intros k a _; by apply (wire_roundtrip env_to_pb env_from_pb)). cbn [mbind result_bind].
  rewrite push_tools_fresh by (done || set_solver). rewrite push_deps_fresh by (done || set_solver).
  simpl. subst. f_equal. f_equal; set_solver.
Qed.

#[export] Instance wire_input : Wire input_to_pb input_from_pb (fun i => ta_ok (input_ref i)).
Proof.
  intros [r m o an h rt] Hi. unfold input_from_pb, input_to_pb.
  cbn -[target_addr_field target_addr_to_pb input_mode_from_pb] in *. wire_step.
  assert (input_mode_from_pb (Some (Known (input_mode_to_pb m))) = Ok m) as -> by by destruct m. done.
Qed.

#[export] Instance wire_path : Wire path_to_pb path_from_pb (fun _ => True).
Proof. by intros [c [] b] _. Qed.

#[export] Instance wire_output : Wire output_to_pb output_from_pb (fun _ => True).
Proof.
  intros [g ps] _. unfold output_from_pb, paths_from_pb. simpl.
  by rewrite (wire_roundtrip (fmap path_to_pb) (traverse path_from_pb) ps (Forall_True ps)).
Qed.

#[export] Instance wire_cache_config : Wire cache_config_to_pb cache_config_from_pb (fun _ => True).
Proof. by intros [e r h] _. Qed.

#[export] Instance wire_entrypoint : Wire entrypoint_to_pb entrypoint_from_pb (fun _ => True).
Proof. by intros [a [] []] _. Qed.

#[export] Instance wire_credential_mount :
  Wire credential_mount_to_pb credential_mount_from_pb (fun m => addr_args_ok (cm_addr m)).
Proof. intros [a e p r] Hm. unfold credential_mount_from_pb. cbn -[addr_field addr_to_pb] in *. by wire_step. Qed.

Lemma scratch_mount_roundtrip m : addr_args_ok (sm_addr m) -> scratch_mount_from_pb (scratch_mount_to_pb m) = Some m.
Proof.
  destruct m as [a p e d]. intros Ha. unfold scratch_mount_from_pb. cbn -[addr_from_pb addr_to_pb] in *.
  by rewrite (wire_roundtrip addr_to_pb addr_from_pb a Ha).
Qed.

(** Declared pools come back as they were. *)
Lemma resources_pairs_id pairs : forall out, bt_sorted (out ++ pairs) ->
  Forall (fun kv => is_pool_name kv.1 = true) pairs -> length (out ++ pairs) <= MAX_POOLS ->
  resources_from_pairs out pairs = Ok (out ++ pairs).
Proof.
  induction pairs as [|[k v] pairs IH]; intros out Hs Hn Hl; simpl; [by rewrite app_nil_r|].
  inversion_clear Hn as [|?? Hk Hn']. unfold pool_name_try_from. simpl in Hk. rewrite Hk. cbn [mbind result_bind].
  assert (Hlast : bt_insert k v out = out ++ [(k, v)]).
  { apply bt_insert_last. clear -Hs. induction out as [|[k' v'] out IH]; simpl in *; [done|]. destruct Hs as [Hk Hs].
    constructor; [|by apply IH]. rewrite Forall_app in Hk. destruct Hk as [_ Hk]. by inversion Hk. }
  unfold resources_insert, bounded_insert. rewrite length_app in Hl. simpl in Hl.
  rewrite bool_decide_false by lia. simpl. rewrite Hlast, IH; [by rewrite <-app_assoc|by rewrite <-app_assoc|done|].
  rewrite !length_app. simpl. lia.
Qed.

Lemma resources_roundtrip r : pools_wf r -> resources_try_from_pairs (resources_to_pb r) = Ok r.
Proof.
  intros [Hs Hb Hn]. unfold resources_to_pb, resources_try_from_pairs. rewrite (bt_collect_id r Hs).
  by rewrite resources_pairs_id.
Qed.

Section target_def.
Context {RawDef : Type} (to_json : RawDef -> option (list N)) (from_json : list N -> option RawDef).

Record target_def_ok (td : TargetDef (RawDef := RawDef)) : Prop := {
  tdo_addr : addr_args_ok (td_addr td);
  tdo_inputs : Forall (fun i => ta_ok (input_ref i)) (td_inputs td);
  tdo_resources : pools_wf (resources td);
}.

(** What the other side holds: the driver's definition as the reader made it,
    and no demand, which the engine computes when it links. *)
Definition received (td : TargetDef (RawDef := RawDef)) (raw : RawDef) : TargetDef :=
  mkTargetDef (td_addr td) (td_labels td) raw (td_inputs td) (td_outputs td) (support_files td) (cache td)
    (td_entrypoint td) (pty td) (hash td) (td_transparent td) (resources td) [].

(** A definition crosses the plugin boundary unchanged. Whatever a definition
    holds, its address, labels, inputs with their flags, outputs, support files,
    cache policy, entrypoint, hash and declared pools are decoded exactly as they
    were encoded, and the driver's own part is what its reader makes of what its
    writer wrote. *)
Theorem target_def_crosses td data raw :
  target_def_ok td -> to_json (raw_def td) = Some data -> from_json data = Some raw ->
  exists p, target_def_to_pb to_json td = Ok p /\ target_def_from_pb from_json p = Ok (received td raw).
Proof.
  intros [Ha Hi Hr] Hj Hf. unfold target_def_to_pb, raw_def_to_blob. rewrite Hj. simpl.
  eexists. split; [reflexivity|]. unfold target_def_from_pb. cbn -[addr_field addr_to_pb traverse].
  wire_step. rewrite Hf. cbn [mbind result_bind ok_or].
  rewrite (wire_roundtrip (fmap input_to_pb) (traverse input_from_pb) (td_inputs td) Hi). cbn [mbind result_bind].
  rewrite (wire_roundtrip (fmap output_to_pb) (traverse output_from_pb) (td_outputs td) (Forall_True _)). cbn [mbind result_bind].
  unfold paths_from_pb.
  rewrite (wire_roundtrip (fmap path_to_pb) (traverse path_from_pb) (support_files td) (Forall_True _)). cbn [mbind result_bind].
  assert (transpose entrypoint_from_pb (entrypoint_to_pb <$> td_entrypoint td) = Ok (td_entrypoint td)) as ->
    by (destruct (td_entrypoint td) as [[? [] []]|]; done).
  cbn [mbind result_bind].
  rewrite resources_roundtrip by done. by destruct td as [? ? ? ? ? ? [] ? ? ? ? ? ?].
Qed.
End target_def.

Record target_spec_ok (t : TargetSpec) : Prop := {
  tso_addr : addr_args_ok (ts_addr t);
  tso_config : values_ok (ts_config t);
  tso_transitive : sandbox_ok (ts_transitive t);
}.

(** The spec a provider answers with crosses unchanged, the deduplication index
    of its sandbox rebuilt. *)
#[export] Instance wire_target_spec : Wire target_spec_to_pb target_spec_from_pb target_spec_ok.
Proof.
  intros [a d c ls s [r n]] [Ha Hc Hs]. unfold target_spec_from_pb, target_spec_to_pb.
  cbn -[addr_field addr_to_pb sandbox_to_pb sandbox_from_pb values_to_pb values_from_pb] in *. wire_step.
  rewrite (wire_roundtrip values_to_pb values_from_pb c Hc). cbn [mbind result_bind].
  by rewrite (wire_roundtrip sandbox_to_pb sandbox_from_pb s Hs).
Qed.

(** No decoder guesses a flag that a cache key or a gate depends on. Whatever
    decodes, the message said whether each input is hashed and materialized,
    each tool, dependency and variable hashed, the target cached, where and how
    far back, an approval required, and where an entrypoint runs, in a mode this
    build knows: an absent, unspecified or unknown one fails the decoding. *)
Theorem decoded_flags_were_sent :
  (forall p i, input_from_pb p = Ok i ->
     pbi_hashed p = Some (hashed i) /\ pbi_runtime p = Some (runtime i) /\
     pbi_mode p = Some (Known (input_mode_to_pb (mode i)))) /\
  (forall p t, tool_from_pb p = Ok t -> pbto_hash p = Some (tool_hash t)) /\
  (forall p d, dep_from_pb p = Ok d ->
     pbd_hash p = Some (dep_hash d) /\ pbd_mode p = Some (Known (dep_mode_to_pb (dep_mode d)))) /\
  (forall p e, env_from_pb p = Ok e -> pbe_hash p = Some (env_hash e)) /\
  (forall p c, cache_config_from_pb p = Ok c -> p = cache_config_to_pb c) /\
  (forall p a, approval_from_pb p = Ok a -> p = approval_to_pb a) /\
  (forall p e, entrypoint_from_pb p = Ok e -> exists w,
     pben_workdir p = Some (Known w) /\ workdir_from_pb (Some (Known w)) = Ok (workdir e)).
Proof.
  split_and!.
  - intros [r m o an h rt] i. unfold input_from_pb. destruct (target_addr_field _ _); [|done].
    destruct m as [[[]|]|], h, rt; simpl; try done; intros [= <-]; done.
  - intros [r g h i] t. unfold tool_from_pb. destruct (target_addr_field _ _); [|done]. destruct h; [|done].
    by intros [= <-].
  - intros [r m g rt h i] d. unfold dep_from_pb. destruct m as [[[]|]|]; simpl; try done;
      (destruct (target_addr_field _ _); [|done]); destruct h; try done; intros [= <-]; done.
  - intros [v h a p] e. destruct v, h; try done. by intros [= <-].
  - intros [[] [] []] c; try done; intros [= <-]; done.
  - intros [[] n] a; try done; intros [= <-]; done.
  - intros [a [[w|]|] o] e; try done. destruct w; try done; destruct o as [[]|]; intros [= <-]; eexists; split; reflexivity.
Qed.

(** ** Artifacts and failures *)

Definition is_view (oa : OutputArtifact) : bool := match oa_content oa with OaView _ => true | _ => false end.

(** What the host reads: files are packed and containers copied. *)
Definition crossed (oa : OutputArtifact) : OutputArtifact :=
  mkArtifact (oa_group oa) (oa_name oa) (oa_type oa)
    (match oa_content oa with
     | OaFile s o x _ => OaFile s o x false
     | OaTarPath p _ => OaTarPath p false
     | OaCpioPath p _ => OaCpioPath p false
     | c => c
     end) (oa_hashout oa).

Lemma artifact_crosses oa :
  match output_artifact_to_pb oa with
  | Ok p => is_view oa = false /\ output_artifact_from_pb p = Ok (crossed oa)
  | Err _ => is_view oa = true
  end.
Proof.
  destruct oa as [g n t c h]. unfold output_artifact_to_pb, output_artifact_from_pb. simpl.
  destruct c; simpl; try done; (split; [done|]); destruct t; simpl; rewrite absent_roundtrip; simpl; by rewrite absent_default.
Qed.

(** A failure crosses with what it has to say. The message and the exit of
    the process always arrive; so does every artifact, in order, with its group,
    name, type, bytes and hash, never borrowed from the plugin; only a view into
    the host's cache, which has no wire form, is left out. *)
Theorem run_failure_crosses err message :
  run_failure_from_pb (run_failure_to_pb err message) =
  mkRunError message (re_exit err) (crossed <$> filter (fun a => is_view a = false) (re_artifacts err)).
Proof.
  unfold run_failure_from_pb, run_failure_to_pb. simpl. f_equal; [by destruct (re_exit err)|].
  induction (re_artifacts err) as [|a l IH]; [done|]. unfold keep_ok in *. simpl.
  pose proof (artifact_crosses a) as H. rewrite filter_cons. destruct (output_artifact_to_pb a) as [p|e].
  - destruct H as [Hv Hp]. rewrite decide_True by done. simpl. rewrite Hp. simpl. by f_equal.
  - rewrite decide_False by congruence. exact IH.
Qed.

(** ** Runs *)

Lemma dispositions_roundtrip ds : traverse disposition_from_pb (disposition_to_pb <$> ds) = Ok ds.
Proof. apply traverse_roundtrip, Forall_forall. by intros [s []] _. Qed.

Lemma env_vars_roundtrip env : transpose (traverse env_var_from_pb) (env_vars_to_pb <$> env) = Ok env.
Proof.
  destruct env as [vars|]; [|done]. simpl. unfold env_vars_to_pb.
  rewrite traverse_roundtrip; [done|]. apply Forall_forall. by intros [k v] _.
Qed.

(** The slave a message hands over, when this process can take it. *)
Definition handed_over (o : option pb_RunOptions) (scope : FdScope) (open : gset Z) : option Z :=
  match o with
  | Some o => match transpose (fun fd => take_pty_slave open fd scope) (pbr_pty_slave_fd o) with
              | Ok s => s | Err _ => None end
  | None => None
  end.

Lemma take_pty_slave_ok open fd scope n : take_pty_slave open fd scope = Ok n ->
  n = fd /\ scope = SharedProcess /\ (3 <= fd)%Z /\ fd ∈ open.
Proof.
  unfold take_pty_slave. destruct scope; [|done]. destruct (fd <? 3)%Z eqn:Hl; [done|].
  case_bool_decide; [|done]. intros [= ->]. apply Z.ltb_ge in Hl. done.
Qed.

(** The slave of a decoded run is the one that was handed over. *)
Definition slave_of (io : RunStdio) : option Z := match io with Pty _ s => Some s | _ => None end.

Lemma decoded_slave o slave opts ch : run_options_decode o slave = Ok (opts, ch) -> slave_of (stdio opts) = slave.
Proof.
  unfold run_options_decode, from_captured, from_foreground. intros H.
  apply result_bind_ok in H as (env & _ & H). apply result_bind_ok in H as (kind & _ & H).
  destruct slave as [s|], kind; simpl in H; try done.
  all: apply result_bind_ok in H as ([io c] & Hio & [= <- <-]); simpl.
  all: try (destruct (pbr_dispositions o), (pbr_nofile o), (pbr_blocked o); try done; by injection Hio as <- <-).
  all: apply result_bind_ok in Hio as (ds & _ & Hio); try done; by injection Hio as <- <-.
Qed.

(** A descriptor in a message is owned exactly once. A decoded run owns the
    slave the message handed over and nothing is closed; a refused one closes
    the slave if it had taken it, and nothing else, so nothing leaks; and
    neither ever closes the standard streams, whatever number was sent. *)
Theorem run_options_fds o scope open r open' :
  run_options_from_pb o scope open = (r, open') ->
  match r with
  | Ok (opts, _) => open' = open /\ slave_of (stdio opts) = handed_over o scope open
  | Err _ => open' = match handed_over o scope open with Some fd => open ∖ {[fd]} | None => open end
  end /\
  (forall fd, (fd < 3)%Z -> fd ∈ open -> fd ∈ open').
Proof.
  unfold run_options_from_pb, handed_over. destruct o as [o|]; [|intros [= <- <-]; by split].
  destruct (transpose _ _) as [slave|e] eqn:Ht; [|intros [= <- <-]; by split].
  assert (Hslave : forall fd, slave = Some fd -> (3 <= fd)%Z).
  { intros fd ->. destruct (pbr_pty_slave_fd o) as [n|]; [|done]. simpl in Ht.
    apply result_fmap_ok in Ht as (m & Hm & [= <-]). apply take_pty_slave_ok in Hm as (-> & _ & H & _). done. }
  destruct (run_options_decode o slave) as [[opts ch]|e] eqn:Hd; intros [= <- <-].
  - split; [|done]. split; [done|]. by eapply decoded_slave.
  - split; [done|]. intros fd Hlt Hin. destruct slave as [s|]; [|done]. specialize (Hslave s eq_refl).
    apply elem_of_difference. split; [done|]. rewrite elem_of_singleton. lia.
Qed.

(** A run's options cross unchanged, and only to an entrypoint. What is sent
    for a run decodes, in the same process and with the slave still open, to the
    options that were given; a build's run sends nothing; options for a target
    that declared no entrypoint, and a terminal for one that did not offer to
    take it, are refused before anything is sent. *)
Theorem run_options_cross ep o open :
  (forall fd, slave_of (stdio o) = Some fd -> (3 <= fd)%Z /\ fd ∈ open) ->
  match run_options_to_pb ep o with
  | Ok p => (p = None <-> is_default o = true) /\
      exists ch, run_options_from_pb p SharedProcess open = (Ok (o, ch), open)
  | Err _ => is_default o = false /\
      (ep = None \/ exists e fg s, ep = Some e /\ offers_pty e = false /\ stdio o = Pty fg s)
  end.
Proof.
  intros Hfd. unfold run_options_to_pb. destruct (is_default o) eqn:Hdef.
  { split; [done|]. eexists. simpl. unfold is_default in Hdef. destruct o as [[] [] [] []]; try done. }
  destruct ep as [e|]; [|by auto]. destruct o as [cw en ar io]. simpl in *.
  destruct io as [|fg|fg s]; simpl.
  - split; [done|]. eexists. unfold run_options_decode. simpl. by rewrite env_vars_roundtrip.
  - split; [done|]. eexists. unfold run_options_decode, from_foreground. simpl.
    rewrite env_vars_roundtrip. simpl. rewrite dispositions_roundtrip. by destruct fg.
  - destruct (offers_pty e) eqn:Ho; simpl; [|by eauto 8].
    split; [done|]. destruct (Hfd s eq_refl) as [Hs Hin]. apply Z.ltb_ge in Hs. eexists.
    rewrite Hs, bool_decide_true by done. simpl. unfold run_options_decode, from_foreground. simpl.
    rewrite env_vars_roundtrip. simpl. rewrite dispositions_roundtrip. by destruct fg.
Qed.

(** ** Witnesses *)

Definition sample_def : TargetDef (RawDef := list N) :=
  mkTargetDef (mkAddr $"p" $"x" [($"a", $"1")]) [$"l"] [1%N; 2%N]
    [mkInput sample_ref Expand.Tool $"tools" {[$"k" := $"v"]} true false]
    [mkDefOutput [] [mkDefPath (Glob $"p/*.go") CodegenCopy true]] [] (mkCacheConfig true false 3)
    (Some (mkEntrypoint true TreeRoot true)) false [7%N] false [($"cpu", $"2")] [].

Lemma target_def_crosses_witness :
  exists p, target_def_to_pb Some sample_def = Ok p /\ target_def_from_pb Some p = Ok (received sample_def [1%N; 2%N]).
Proof.
  apply (target_def_crosses Some Some sample_def [1%N; 2%N] [1%N; 2%N]); [|reflexivity|reflexivity].
  split; [repeat constructor|repeat constructor|]. split; [repeat constructor| |repeat constructor].
  unfold MAX_POOLS. simpl. lia.
Defined.

(** A message that names a slave for a run that is not on a terminal. *)
Definition sample_refused : pb_RunOptions :=
  mkPbRunOptions (Some 5%Z) None None None (Some (Known StdioInherit)) [] None [].

Lemma run_options_fds_witness :
  (run_options_from_pb (Some sample_refused) SharedProcess {[1%Z; 5%Z]}).2 = {[1%Z]} /\
  1%Z ∈ (run_options_from_pb (Some sample_refused) SharedProcess {[1%Z; 5%Z]}).2.
Proof.
  split; [vm_compute; reflexivity|].
  apply (run_options_fds (Some sample_refused) SharedProcess {[1%Z; 5%Z]} _ _ (surjective_pairing _)); [lia|set_solver].
Defined.

Definition sample_run_options : RunOptions :=
  mkRunOptions (Some [47%N]) (Some [([65%N], [66%N])]) (Some []) (Pty (mkForeground [(2%Z, DispIgnore)] (Some 256%N) []) 7%Z).

Lemma run_options_cross_witness :
  exists p ch, run_options_to_pb (Some (mkEntrypoint true Caller true)) sample_run_options = Ok (Some p) /\
  run_options_from_pb (Some p) SharedProcess {[7%Z]} = (Ok (sample_run_options, ch), {[7%Z]}).
Proof.
  pose proof (run_options_cross (Some (mkEntrypoint true Caller true)) sample_run_options {[7%Z]}) as H.
  destruct H as [_ [ch H]]; [intros fd [= <-]; split; [lia|set_solver]|]. eexists. exists ch. split; [reflexivity|exact H].
Defined.
