(* ===== verification/LogTail.v ===== *)
(** The tail of a log: [last_n_lines_with_start], [read_tail_at], [tail_window]
    and [read_exact_at] of [crates/plugin/src/error.rs].

    A failure box shows the last lines of a log with their true line numbers.
    The reference is [last_n_lines_with_start] on the whole text; the routine in
    use never holds the whole log: it reads backwards in chunks until it has
    enough line breaks, then counts the breaks before the tail, through a
    positional read that may return short, be interrupted, or fail. *)
From S2P Require Import Prelude.
From Stdlib Require Import Wf_nat.

(** ** Text *)

Definition newline : char := 10%N.
Definition cr : char := 13%N.

(** [str::lines]: a line loses its line feed, and a carriage return before it;
    a last line without a line feed is kept as it is, unless it is empty. *)
Definition strip_cr (l : str) : str := default l (strip_suffix [cr] l).
Fixpoint lines_from (cur : str) (s : str) : list str :=
  match s with
  | [] => match cur with [] => [] | _ => [cur] end
  | c :: r =>
      if (c =? newline)%N then strip_cr cur :: lines_from [] r
      else lines_from (cur ++ [c]) r
  end.
Definition lines (s : str) : list str := lines_from [] s.

(** [last_n_lines_with_start] and [last_n_lines]. *)
Definition last_n_lines_with_start (s : str) (n : nat) : str * nat :=
  let ls := lines s in
  let start := (length ls - n)%nat in
  (join [newline] (drop start ls), S start).
Definition last_n_lines (s : str) (n : nat) : str := (last_n_lines_with_start s n).1.

(** [String::from_utf8_lossy]: a maximal ill-formed part becomes U+FFFD. *)
Definition replacement : char := 65533%N.
Definition in_range (lo hi b : N) : bool := ((lo <=? b) && (b <=? hi))%N.
Definition is_cont (b : N) : bool := in_range 128 191 b.
Definition second_of_3 (b0 b1 : N) : bool :=
  ((b0 =? 224) && in_range 160 191 b1 || in_range 225 236 b0 && in_range 128 191 b1
   || (b0 =? 237) && in_range 128 159 b1 || in_range 238 239 b0 && in_range 128 191 b1)%N.
Definition second_of_4 (b0 b1 : N) : bool :=
  ((b0 =? 240) && in_range 144 191 b1 || in_range 241 243 b0 && in_range 128 191 b1
   || (b0 =? 244) && in_range 128 143 b1)%N.
Fixpoint from_utf8_lossy (s : list N) : str :=
  match s with
  | [] => []
  | b0 :: r0 =>
      if (b0 <? 128)%N then b0 :: from_utf8_lossy r0
      else if in_range 194 223 b0 then
        match r0 with
        | b1 :: r1 =>
            if is_cont b1 then ((b0 - 192) * 64 + (b1 - 128))%N :: from_utf8_lossy r1
            else replacement :: from_utf8_lossy r0
        | [] => [replacement]
        end
      else if in_range 224 239 b0 then
        match r0 with
        | b1 :: r1 =>
            if second_of_3 b0 b1 then
              match r1 with
              | b2 :: r2 =>
                  if is_cont b2 then
                    ((b0 - 224) * 4096 + (b1 - 128) * 64 + (b2 - 128))%N :: from_utf8_lossy r2
                  else replacement :: from_utf8_lossy r1
              | [] => [replacement]
              end
            else replacement :: from_utf8_lossy r0
        | [] => [replacement]
        end
      else if in_range 240 244 b0 then
        match r0 with
        | b1 :: r1 =>
            if second_of_4 b0 b1 then
              match r1 with
              | b2 :: r2 =>
                  if is_cont b2 then
                    match r2 with
                    | b3 :: r3 =>
                        if is_cont b3 then
                          ((b0 - 240) * 262144 + (b1 - 128) * 4096 + (b2 - 128) * 64
                           + (b3 - 128))%N :: from_utf8_lossy r3
                        else replacement :: from_utf8_lossy r2
                    | [] => [replacement]
                    end
                  else replacement :: from_utf8_lossy r1
              | [] => [replacement]
              end
            else replacement :: from_utf8_lossy r0
        | [] => [replacement]
        end
      else replacement :: from_utf8_lossy r0
  end.

(** [LogTail]. *)
Record LogTail := mkLogTail { text : str; start_line : nat }.

#[export] Instance LogTail_eq_dec : EqDecision LogTail.
Proof. solve_decision. Defined.

(** ** Positional reads *)

(** [std::io::ErrorKind], the kinds the code tells apart. *)
Inductive io_error := IoNotFound | IoPermissionDenied | IoInterrupted | IoUnexpectedEof | IoOther.

#[export] Instance io_error_eq_dec : EqDecision io_error.
Proof. solve_decision. Defined.

(** A computation over the state [S] of a reader: [None] is fuel run out. *)
Definition rd (S A : Type) : Type := S -> option (S * result io_error A).
#[export] Instance rd_ret S : MRet (rd S) := fun A a s => Some (s, Ok a).
#[export] Instance rd_bind S : MBind (rd S) := fun A B f m s =>
  match m s with
  | Some (s, Ok a) => f a s
  | Some (s, Err e) => Some (s, Err e)
  | None => None
  end.

Definition TAIL_CHUNK : N := 8 * 1024.
Definition COUNT_CHUNK : N := 64 * 1024.

(** [body.iter().enumerate().filter(|b| b == '\n')], the offsets only. *)
Fixpoint newlines_from (i : nat) (b : list N) : list nat :=
  match b with
  | [] => []
  | c :: r => (if (c =? newline)%N then [i] else []) ++ newlines_from (S i) r
  end.
Definition newlines (b : list N) : list nat := newlines_from 0 b.

Section read_tail.
Context {S : Type}.
(** [read_at(buf, offset)], the bytes it put at the start of [buf] being its
    answer. *)
Variable read_at : S -> nat -> N -> S * result io_error (list N).
Variable fuel : nat.

(** [read_exact_at]: [want] is the length of the buffer left to fill. *)
Fixpoint read_exact_loop (fuel : nat) (want : nat) (off : N) : rd S (list N) := fun s =>
  match want, fuel with
  | O, _ => Some (s, Ok [])
  | _, O => None
  | _, Datatypes.S fuel =>
      match read_at s want off with
      | (s, Ok []) => Some (s, Err IoUnexpectedEof)
      | (s, Ok bs) =>
          (rest ← read_exact_loop fuel (want - length bs)%nat (off + N.of_nat (length bs))%N;
           mret (bs ++ rest)) s
      | (s, Err IoInterrupted) => read_exact_loop fuel want off s
      | (s, Err e) => Some (s, Err e)
      end
  end.
Definition read_exact_at (want : nat) (off : N) : rd S (list N) := read_exact_loop fuel want off.

(** The loop of [tail_window]. *)
Definition trailing (window : list N) : nat :=
  match last window with Some c => if (c =? newline)%N then 1 else 0 | None => 0 end.
Fixpoint tail_loop (steps : nat) (n : nat) (start : N) (window : list N) : rd S (N * list N) :=
  match steps with
  | O => fun _ => None
  | Datatypes.S steps =>
      let body := take (length window - trailing window) window in
      match reverse (newlines body) !! (n - 1)%nat with
      | Some i => mret ((start + N.of_nat i + 1)%N, drop (Datatypes.S i) window)
      | None =>
          if (start =? 0)%N then mret (0%N, window)
          else
            let tk := N.min start TAIL_CHUNK in
            let off := (start - tk)%N in
            chunk ← read_exact_at (N.to_nat tk) off;
            tail_loop steps n off (chunk ++ window)
      end
  end.
Definition tail_window (len : N) (n : nat) : rd S (N * list N) :=
  match n with
  | O => mret (len, [])
  | _ => tail_loop fuel n len []
  end.

Definition count_newlines (b : list N) : nat := length (newlines b).

(** The counting loop of [read_tail_at]. *)
Fixpoint count_loop (steps : nat) (cut off : N) (prefix_lines : nat) : rd S nat :=
  match steps with
  | O => fun _ => None
  | Datatypes.S steps =>
      if (off <? cut)%N then
        let want := N.min (cut - off) COUNT_CHUNK in
        got ← read_exact_at (N.to_nat want) off;
        count_loop steps cut (off + want)%N (prefix_lines + count_newlines got)%nat
      else mret prefix_lines
  end.

Definition read_tail_at (len : N) (n : nat) : rd S LogTail :=
  cw ← tail_window len n;
  let '(cut, window) := cw in
  prefix_lines ← count_loop fuel cut 0 0;
  match n with
  | O =>
      open ← (if (0 <? len)%N then
                last ← read_exact_at 1 (len - 1)%N;
                mret (if decide (last = [newline]) then 0%nat else 1%nat)
              else mret 0%nat);
      mret (mkLogTail [] (prefix_lines + open + 1)%nat)
  | _ =>
      let '(t, local_start) := last_n_lines_with_start (from_utf8_lossy window) n in
      mret (mkLogTail t (prefix_lines + local_start)%nat)
  end.
End read_tail.

(** ** Lines *)

Lemma newlines_from_length i j b : length (newlines_from i b) = length (newlines_from j b).
Proof.
  revert i j; induction b as [|c b IH]; intros; [done|]. simpl. rewrite !length_app.
  rewrite (IH (S i) (S j)). by case_match.
Qed.

Lemma count_newlines_cons c b :
  count_newlines (c :: b) = ((if (c =? newline)%N then 1 else 0) + count_newlines b)%nat.
Proof.
  unfold count_newlines, newlines. simpl. rewrite length_app.
  rewrite (newlines_from_length 1 0). by case_match.
Qed.

Lemma count_newlines_app a b :
  count_newlines (a ++ b) = (count_newlines a + count_newlines b)%nat.
Proof.
  induction a as [|c a IH]; [done|]. simpl app. rewrite !count_newlines_cons, IH. lia.
Qed.

(** The [n]-th line break from the end, when there is one. *)
Lemma newlines_nth i b k j :
  reverse (newlines_from i b) !! k = Some j ->
  exists x y, b = x ++ newline :: y /\ j = (i + length x)%nat /\ count_newlines y = k.
Proof.
  revert i; induction b as [|c b IH]; intros i; [done|]. simpl.
  destruct (N.eqb_spec c newline) as [->|Hc]; simpl.
  - rewrite reverse_cons, lookup_app_Some. intros [Hk|[Hle Hk]].
    + apply IH in Hk as (x & y & -> & -> & ?). exists (newline :: x), y. simpl. split_and!; [done|lia|done].
    + apply list_lookup_singleton_Some in Hk as [Hk <-]. exists [], b. simpl. split_and!; [done|lia|].
      unfold count_newlines, newlines. rewrite (newlines_from_length 0 (S i)).
      rewrite length_reverse in Hk, Hle. lia.
  - intros Hk. apply IH in Hk as (x & y & -> & -> & ?). exists (c :: x), y. simpl. split_and!; [done|lia|done].
Qed.

Lemma lines_from_app cur a b :
  lines_from cur (a ++ newline :: b) = lines_from cur (a ++ [newline]) ++ lines b.
Proof.
  revert cur; induction a as [|c a IH]; intros cur; simpl; [done|].
  destruct (c =? newline)%N; simpl; [f_equal|]; apply IH.
Qed.

(** Whether the last line is not closed by a line break. *)
Definition open_line (s : list N) : nat :=
  match last s with Some c => if (c =? newline)%N then 0 else 1 | None => 0 end.

Lemma open_line_app a b : b <> [] -> open_line (a ++ b) = open_line b.
Proof.
  intros Hb. unfold open_line. rewrite last_app. by destruct (last b) eqn:E; [|apply last_None in E].
Qed.

Lemma open_line_cons c d s : open_line (c :: d :: s) = open_line (d :: s).
Proof. by apply (open_line_app [c]). Qed.

Lemma length_lines_from cur s :
  length (lines_from cur s) =
    (count_newlines s + match s with [] => match cur with [] => 0 | _ => 1 end | _ => open_line s end)%nat.
Proof.
  revert cur; induction s as [|c s IH]; intros cur; [by destruct cur|].
  rewrite count_newlines_cons. simpl. destruct (N.eqb_spec c newline) as [->|Hc]; simpl; rewrite IH.
  - destruct s as [|d s]; [done|]. by rewrite open_line_cons.
  - destruct s as [|d s].
    + unfold open_line. simpl. rewrite (proj2 (N.eqb_neq c newline) Hc). by destruct cur.
    + by rewrite open_line_cons.
Qed.

(** As many lines as line breaks, plus the one left open. *)
Lemma length_lines s : length (lines s) = (count_newlines s + open_line s)%nat.
Proof. unfold lines. rewrite length_lines_from. by destruct s. Qed.

(** The last [n] lines of a text are those of its end after a line break, when
    that end has [n] lines. *)
Lemma last_n_lines_split a b n :
  length (lines b) = n ->
  last_n_lines_with_start (a ++ newline :: b) n =
    (join [newline] (lines b), (count_newlines (a ++ [newline]) + 1)%nat).
Proof.
  intros Hn. unfold last_n_lines_with_start. unfold lines at 1 2 3. rewrite lines_from_app.
  fold (lines (a ++ [newline])). assert (HL : length (lines (a ++ [newline])) = count_newlines (a ++ [newline])).
  { rewrite length_lines. unfold open_line. rewrite last_snoc. simpl. lia. }
  rewrite length_app, Hn, Nat.add_sub, drop_app_length. f_equal. lia.
Qed.

(** ** Lossy decoding *)

(** Byte ranges of the decoder, as inequalities. *)
Ltac high :=
  unfold is_cont, second_of_3, second_of_4, in_range, replacement in *;
  repeat match goal with H : _ || _ = true |- _ => apply orb_true_iff in H as [H|H] end;
  bool_simpl; lia.

(** The first [k] bytes of the input are one step of the decoder. *)
Ltac took k :=
  lazymatch goal with |- exists p, exists c, exists r, ?s = _ /\ _ =>
    let p := eval simpl in (take k s) in
    let t := eval simpl in (drop k s) in
    exists p; eexists _, t; split_and!;
      [reflexivity|done|repeat constructor; high|solve [reflexivity]|high]
  end.

(** A step of the decoder on a byte above ASCII takes some bytes above ASCII to
    one character above ASCII. *)
Lemma lossy_step b0 s :
  (128 <= b0)%N ->
  exists p c r, b0 :: s = p ++ r /\ p <> [] /\ Forall (fun b => 128 <= b)%N p /\
    from_utf8_lossy (b0 :: s) = c :: from_utf8_lossy r /\ (128 <= c)%N.
Proof.
  intros Hb. simpl. rewrite (proj2 (N.ltb_ge b0 128) Hb).
  destruct (in_range 194 223 b0) eqn:E2.
  { destruct s as [|b1 s]; [took 1%nat|]. destruct (is_cont b1) eqn:C1; [took 2%nat|took 1%nat]. }
  destruct (in_range 224 239 b0) eqn:E3.
  { destruct s as [|b1 s]; [took 1%nat|]. destruct (second_of_3 b0 b1) eqn:C1; [|took 1%nat].
    destruct s as [|b2 s]; [took 2%nat|]. destruct (is_cont b2) eqn:C2; [took 3%nat|took 2%nat]. }
  destruct (in_range 240 244 b0) eqn:E4; [|took 1%nat].
  destruct s as [|b1 s]; [took 1%nat|]. destruct (second_of_4 b0 b1) eqn:C1; [|took 1%nat].
  destruct s as [|b2 s]; [took 2%nat|]. destruct (is_cont b2) eqn:C2; [|took 2%nat].
  destruct s as [|b3 s]; [took 3%nat|]. destruct (is_cont b3) eqn:C3; [took 4%nat|took 3%nat].
Qed.

(** The decoder's own induction: an ASCII byte is itself, other bytes go by the
    steps above. *)
Lemma lossy_ind (P : list N -> str -> Prop) :
  P [] [] ->
  (forall b r, (b < 128)%N -> P r (from_utf8_lossy r) -> P (b :: r) (b :: from_utf8_lossy r)) ->
  (forall p c r, p <> [] -> Forall (fun b => 128 <= b)%N p -> (128 <= c)%N ->
     P r (from_utf8_lossy r) -> P (p ++ r) (c :: from_utf8_lossy r)) ->
  forall s, P s (from_utf8_lossy s).
Proof.
  intros H0 H1 H2 s. induction s as [s IH] using (induction_ltof1 _ (@length N)); unfold ltof in IH. destruct s as [|b s]; [done|].
  destruct (decide (b < 128)%N) as [Hlt|Hge].
  - simpl. rewrite (proj2 (N.ltb_lt b 128) Hlt). apply H1; [done|]. apply IH. simpl. lia.
  - destruct (lossy_step b s) as (p & c & r & Hs & Hp & Hh & -> & Hc); [lia|]. rewrite Hs.
    apply H2; [done..|]. apply IH. rewrite Hs, length_app. destruct p; [done|simpl; lia].
Qed.

(** Decoding keeps the line breaks. *)
Lemma count_newlines_high p : Forall (fun b => 128 <= b)%N p -> count_newlines p = 0%nat.
Proof.
  induction 1 as [|b p Hb _ IH]; [done|]. rewrite count_newlines_cons, IH.
  destruct (N.eqb_spec b newline); [unfold newline in *; lia|done].
Qed.

Lemma lossy_count s : count_newlines (from_utf8_lossy s) = count_newlines s.
Proof.
  apply (lossy_ind (fun s t => count_newlines t = count_newlines s)); [done|..].
  - intros b r _ IH. by rewrite !count_newlines_cons, IH.
  - intros p c r _ Hp Hc IH. rewrite count_newlines_app, (count_newlines_high p) by done.
    change (c :: from_utf8_lossy r) with ([c] ++ from_utf8_lossy r).
    by rewrite count_newlines_app, (count_newlines_high [c]), IH by by apply Forall_singleton.
Qed.

(** ...and whether the last line is open. *)
Lemma lossy_open s : open_line (from_utf8_lossy s) = open_line s /\ (from_utf8_lossy s = [] <-> s = []).
Proof.
  apply (lossy_ind (fun s t => open_line t = open_line s /\ (t = [] <-> s = []))); [done|..].
  - intros b r _ [IH Hn]. split; [|done]. destruct r as [|c r], (from_utf8_lossy _) as [|d t]; [done|naive_solver..|].
    by rewrite !open_line_cons.
  - intros p c r Hp Hh Hc [IH Hn]. split; [|by destruct p].
    destruct r as [|b r], (from_utf8_lossy _) as [|d t]; [|naive_solver..|].
    + rewrite app_nil_r. unfold open_line. destruct (last p) as [x|] eqn:Hx; [|by apply last_None in Hx].
      apply last_Some in Hx as [p' ->]. apply Forall_app in Hh as [_ Hx%Forall_inv].
      cbv beta in Hx. simpl.
      destruct (N.eqb_spec c newline), (N.eqb_spec x newline); unfold newline in *; lia.
    + by rewrite open_line_cons, open_line_app.
Qed.

(** A line break ends whatever the decoder was reading. *)
Lemma lossy_app a b :
  from_utf8_lossy (a ++ newline :: b) = from_utf8_lossy a ++ newline :: from_utf8_lossy b.
Proof.
  assert (N3 : forall b0, second_of_3 b0 newline = false)
    by (intros; unfold second_of_3; cbn; by rewrite !andb_false_r).
  assert (N4 : forall b0, second_of_4 b0 newline = false)
    by (intros; unfold second_of_4; cbn; by rewrite !andb_false_r).
  induction a as [a IH] using (induction_ltof1 _ (@length N)); unfold ltof in IH.
  destruct a as [|b0 a]; [done|].
  assert (IH0 := IH a ltac:(simpl; lia)). cbn [from_utf8_lossy app].
  destruct (b0 <? 128)%N; [by rewrite IH0|].
  destruct (in_range 194 223 b0), (in_range 224 239 b0), (in_range 240 244 b0);
    destruct a as [|b1 a]; cbn [app] in *; rewrite ?N3, ?N4; try (by rewrite IH0); try done;
    assert (IH1 := IH a ltac:(simpl; lia)); try (case_match; by rewrite ?IH0, ?IH1).
  all: destruct (second_of_3 b0 b1), (second_of_4 b0 b1); try (by rewrite IH0).
  all: destruct a as [|b2 a]; cbn [app] in *; try done;
    assert (IH2 := IH a ltac:(simpl; lia)); destruct (is_cont b2); try (by rewrite ?IH1, ?IH2).
  all: destruct a as [|b3 a]; cbn [app] in *; try done;
    assert (IH3 := IH a ltac:(simpl; lia)); destruct (is_cont b3); by rewrite ?IH2, ?IH3.
Qed.

(** The window's last byte closes its last line or leaves it open. *)
Lemma trailing_open w : w <> [] -> (trailing w + open_line w = 1)%nat.
Proof. unfold trailing, open_line. destruct (last w) eqn:E; [by case_match|by apply last_None in E]. Qed.

Lemma trailing_body w :
  w = take (length w - trailing w) w ++ (match trailing w with O => [] | _ => [newline] end).
Proof.
  unfold trailing. destruct (last w) as [c|] eqn:E; [|by rewrite Nat.sub_0_r, firstn_all, app_nil_r].
  destruct (N.eqb_spec c newline) as [->|_]; [|by rewrite Nat.sub_0_r, firstn_all, app_nil_r].
  apply last_Some in E as [w' ->]. rewrite length_app. simpl. by rewrite Nat.add_sub, take_app_length.
Qed.

(** The [n]-th break from the end of the body leaves [n] lines after it. *)
Lemma tail_cut w n i :
  (0 < n)%nat -> reverse (newlines (take (length w - trailing w) w)) !! (n - 1)%nat = Some i ->
  exists x, w = x ++ newline :: drop (S i) w /\ i = length x /\
    (count_newlines (drop (S i) w) + open_line (drop (S i) w))%nat = n.
Proof.
  intros Hn (x & y & Hb & -> & Hy)%newlines_nth. simpl. exists x.
  assert (Hw : w = (x ++ [newline]) ++ y ++ (match trailing w with O => [] | _ => [newline] end)).
  { rewrite (trailing_body w) at 1. rewrite Hb. by rewrite <- !app_assoc. }
  set (z := y ++ _) in Hw. assert (Hz : drop (S (length x)) w = z).
  { rewrite Hw. apply drop_app_length'. rewrite length_app. simpl. lia. }
  rewrite Hz. split_and!; [by rewrite Hw at 1; rewrite <- app_assoc|done|].
  assert (Hne : w <> []) by (rewrite Hw; by destruct x). apply trailing_open in Hne.
  unfold z in *. destruct (trailing w) as [|t] eqn:Ht.
  - rewrite app_nil_r in *. assert (y <> []) as Hy0.
    { intros ->. revert Ht. unfold trailing. rewrite Hw, app_nil_r, last_snoc. done. }
    rewrite Hw, open_line_app in Hne by done. lia.
  - rewrite count_newlines_app, open_line_app by done. cbn. lia.
Qed.

(** ** The reader's contract *)

(** What [read_at] promises over a file holding [data]: an answer is a prefix of
    what was asked for, empty only at the end of the file; interruptions are
    finitely many ([patience]); a [sound] reader has no other error. *)
Class ReaderLaws {S} (read_at : S -> nat -> N -> S * result io_error (list N))
    (data : list N) (patience : S -> nat) (sound : S -> Prop) : Prop := {
  read_ok s want off s' bs :
    read_at s want off = (s', Ok bs) ->
    bs `prefix_of` take want (drop (N.to_nat off) data) /\
    (bs = [] -> take want (drop (N.to_nat off) data) = []) /\
    (patience s' <= patience s)%nat /\ (sound s -> sound s');
  read_interrupted s want off s' :
    read_at s want off = (s', Err IoInterrupted) ->
    (patience s' < patience s)%nat /\ (sound s -> sound s');
  read_failed s want off s' e :
    read_at s want off = (s', Err e) -> e <> IoInterrupted ->
    (patience s' <= patience s)%nat /\ ~ sound s
}.

(** What the box shows of a log held whole: the reference. *)
Definition log_tail (log : list N) (n : nat) : LogTail :=
  let '(t, l) := last_n_lines_with_start (from_utf8_lossy log) n in mkLogTail t l.

(** The lines shown of the end of a log after a line break, with the breaks
    before it counted, are those of the whole log. *)
Lemma log_tail_split a w n :
  (count_newlines w + open_line w)%nat = n ->
  let '(t, l) := last_n_lines_with_start (from_utf8_lossy w) n in
  mkLogTail t (count_newlines (a ++ [newline]) + l)%nat = log_tail (a ++ newline :: w) n.
Proof.
  intros Hn. assert (Hl : length (lines (from_utf8_lossy w)) = n).
  { by rewrite length_lines, lossy_count, (proj1 (lossy_open w)). }
  unfold log_tail. rewrite lossy_app, (last_n_lines_split _ _ n Hl).
  unfold last_n_lines_with_start. rewrite Hl, Nat.sub_diag, drop_0.
  by rewrite !count_newlines_app, lossy_count.
Qed.

(** No line shown: the number is one past the last line. *)
Lemma log_tail_none log : log_tail log 0 = mkLogTail [] (count_newlines log + open_line log + 1)%nat.
Proof.
  unfold log_tail, last_n_lines_with_start. rewrite Nat.sub_0_r, drop_all, length_lines.
  rewrite lossy_count, (proj1 (lossy_open log)). f_equal. lia.
Qed.

Section reading.
Context {S : Type} {read_at : S -> nat -> N -> S * result io_error (list N)}
  {data : list N} {patience : S -> nat} {sound : S -> Prop}.
Context `{HL : !ReaderLaws read_at data patience sound}.
Variable len : N.
Variable fuel : nat.

(** The part of the file that is the log. *)
Local Abbreviation log := (take (N.to_nat len) data).

(** A computation that ends, with [Q] of what it returns; it fails only if the
    reader may, or if the file is shorter than [len]. *)
Definition reads {A} (m : rd S A) (s : S) (Q : A -> Prop) : Prop :=
  exists s' r, m s = Some (s', r) /\ (patience s' <= patience s)%nat /\ (sound s -> sound s') /\
    match r with Ok a => Q a | Err _ => ~ (sound s /\ (N.to_nat len <= length data)%nat) end.

Lemma reads_ret {A} (a : A) s (Q : A -> Prop) : Q a -> reads (mret a) s Q.
Proof. intros. by exists s, (Ok a). Qed.

Lemma reads_bind {A B} (m : rd S A) (f : A -> rd S B) s (Q : A -> Prop) (R : B -> Prop) :
  reads m s Q ->
  (forall a s', Q a -> (patience s' <= patience s)%nat -> reads (f a) s' R) ->
  reads (m ≫= f) s R.
Proof.
  intros (s' & [a|e] & Hm & Hp & Hs & HQ) Hf; unfold mbind, rd_bind, reads; rewrite Hm.
  - destruct (Hf a s' HQ Hp) as (s'' & r & Hr & Hp' & Hs' & HR).
    exists s'', r. split_and!; [done|lia|auto|]. destruct r; naive_solver.
  - by exists s', (Err e).
Qed.

(** A step of the reader, then the rest. *)
Lemma reads_after {A} (m m' : rd S A) s s1 (Q : A -> Prop) :
  m s = m' s1 -> (patience s1 <= patience s)%nat -> (sound s -> sound s1) ->
  reads m' s1 Q -> reads m s Q.
Proof.
  intros E Hp Hs (s' & r & Hr & Hp' & Hs' & HQ). exists s', r. rewrite E.
  split_and!; [done|lia|auto|]. destruct r; naive_solver.
Qed.

Lemma reads_weaken {A} (m : rd S A) s (Q R : A -> Prop) :
  reads m s Q -> (forall a, Q a -> R a) -> reads m s R.
Proof. intros (s' & r & Hr & Hp & Hs & HQ) HR. exists s', r. split_and!; [done..|]. destruct r; auto. Qed.

(** The bytes of the file from [off]. *)
Definition slice (off : N) (want : nat) : list N := take want (drop (N.to_nat off) data).

(** What is left of a read after a prefix of it. *)
Lemma slice_prefix off w bs :
  bs `prefix_of` slice off w -> (length bs <= w)%nat /\
  slice off w = bs ++ slice (off + N.of_nat (length bs)) (w - length bs).
Proof.
  intros [rest Hpre]. assert (Hk : (length bs <= w)%nat).
  { trans (length (slice off w)); [rewrite Hpre, length_app; lia|]. unfold slice. rewrite length_take. lia. }
  split; [done|]. unfold slice in *. replace w with (length bs + (w - length bs))%nat at 1 by lia.
  rewrite <- take_take_drop, drop_drop. f_equal; [|do 2 f_equal; lia].
  apply (f_equal (take (length bs))) in Hpre. rewrite take_app_length in Hpre.
  by rewrite take_take, Nat.min_l in Hpre by lia.
Qed.

Lemma read_exact_spec f want off s :
  (N.to_nat off + want <= N.to_nat len)%nat -> (want + patience s <= f)%nat ->
  reads (read_exact_loop read_at f want off) s
    (fun bs => bs = slice off want /\ length bs = want).
Proof.
  revert want off s. induction f as [|f IH]; intros want off s Hlen Hf.
  { assert (want = 0%nat) as -> by lia. by apply (reads_ret []). }
  destruct (decide (want = 0%nat)) as [->|Hw]; [by apply (reads_ret [])|].
  destruct (read_at s want off) as [s1 [bs|e]] eqn:Er.
  - pose proof (read_ok _ _ _ _ _ Er) as (Hpre & Hnil & Hp & Hs). fold (slice off want) in *.
    destruct bs as [|b bs].
    { exists s1, (Err IoUnexpectedEof). split_and!; [destruct want; [done|]; simpl; by rewrite Er|done..|].
      intros [_ Hd]. apply (f_equal length) in Hnil; [|done]. revert Hnil. unfold slice.
      rewrite length_take, length_drop. simpl. lia. }
    apply slice_prefix in Hpre as [Hk ->]. remember (b :: bs) as bs' eqn:Ebs.
    eapply (reads_after _ (rest ← read_exact_loop read_at f (want - length bs')
      (off + N.of_nat (length bs')); mret (bs' ++ rest)) s s1); [|done..|].
    { destruct want; [done|]. simpl. by rewrite Er, Ebs. }
    eapply reads_bind; [apply IH; subst bs'; simpl in *; lia|]. intros tl s' [-> Htl] _.
    apply reads_ret. split; [done|]. rewrite length_app, Htl. lia.
  - destruct (decide (e = IoInterrupted)) as [->|Hne].
    + pose proof (read_interrupted _ _ _ _ Er) as [Hp Hs].
      eapply (reads_after _ (read_exact_loop read_at f want off) s s1); [|lia|done|apply IH; lia].
      destruct want; [done|]. simpl. by rewrite Er.
    + pose proof (read_failed _ _ _ _ _ Er Hne) as [Hp Hs]. exists s1, (Err e).
      split_and!; [destruct want; [done|]; simpl; rewrite Er; by destruct e|done|naive_solver..].
Qed.
(** The log from [off] is a read of the file, then the log further on. *)
Lemma drop_log off w :
  (N.to_nat off + w <= N.to_nat len)%nat ->
  drop (N.to_nat off) log = slice off w ++ drop (N.to_nat off + w) log.
Proof.
  intros H. rewrite <- (take_drop w (drop (N.to_nat off) log)) at 1. rewrite drop_drop. f_equal.
  unfold slice. rewrite !take_drop_commute, take_take. f_equal. f_equal. lia.
Qed.

(** What [tail_window] returns: the end of the log, all of it or its last [n]
    lines, and where it starts. *)
Definition tail_at (n : nat) (cw : N * list N) : Prop :=
  let '(cut, window) := cw in
  (N.to_nat cut <= N.to_nat len)%nat /\ window = drop (N.to_nat cut) log /\
  length log = N.to_nat len /\
  (cut = 0%N \/ (exists a, take (N.to_nat cut) log = a ++ [newline]) /\
                (count_newlines window + open_line window)%nat = n).

Lemma tail_loop_spec steps n start s :
  (0 < n)%nat -> (N.to_nat start <= N.to_nat len)%nat ->
  length (drop (N.to_nat start) log) = (N.to_nat len - N.to_nat start)%nat ->
  (N.to_nat start < steps)%nat -> (N.to_nat len + patience s <= fuel)%nat ->
  reads (tail_loop read_at fuel steps n start (drop (N.to_nat start) log)) s (tail_at n).
Proof.
  intros Hn. revert start s. induction steps as [|steps IH]; intros start s Hst Hw Hsteps Hf; [lia|].
  simpl. set (w := drop _ log) in *. destruct (reverse _ !! _) as [i|] eqn:Hi.
  - apply tail_cut in Hi as (x & Hx & -> & Hc); [|done]. apply reads_ret.
    assert (Hpos : (length x < length w)%nat) by (rewrite Hx, length_app; simpl; lia).
    assert (Hlog : length log = N.to_nat len) by (unfold w in *; rewrite length_drop in *; lia).
    unfold tail_at. replace (N.to_nat (start + N.of_nat (length x) + 1)) with (N.to_nat start + Datatypes.S (length x))%nat by lia.
    split_and!; [lia|by unfold w; rewrite drop_drop|done|right]. split; [|done].
    exists (take (N.to_nat start) log ++ x). rewrite <- take_take_drop, <- app_assoc. f_equal. fold w.
    rewrite Hx at 1. rewrite cons_middle, (app_assoc x). apply take_app_length'. rewrite length_app. simpl. lia.
  - destruct (N.eqb_spec start 0) as [->|Hz].
    + apply reads_ret. unfold w in *. rewrite drop_0 in *. split_and!; [lia|done|lia|by left].
    + set (tk := N.min start TAIL_CHUNK). assert (0 < tk <= start)%N by (unfold tk, TAIL_CHUNK; lia).
      eapply reads_bind; [apply read_exact_spec; lia|]. intros bs s' [-> Hbs] Hp'.
      assert (E : slice (start - tk) (N.to_nat tk) ++ w = drop (N.to_nat (start - tk)) log).
      { rewrite (drop_log _ (N.to_nat tk)) by lia. unfold w. do 2 f_equal. lia. }
      rewrite E. apply IH; [lia| |lia..]. rewrite <- E, length_app. lia.
Qed.

Lemma count_loop_spec steps cut off c s :
  (N.to_nat off <= N.to_nat cut <= N.to_nat len)%nat -> (N.to_nat cut - N.to_nat off < steps)%nat ->
  (N.to_nat len + patience s <= fuel)%nat -> c = count_newlines (take (N.to_nat off) log) ->
  reads (count_loop read_at fuel steps cut off c) s
    (fun c => c = count_newlines (take (N.to_nat cut) log) /\
      ((N.to_nat off < N.to_nat cut)%nat -> (N.to_nat cut <= length data)%nat)).
Proof.
  revert off c s. induction steps as [|steps IH]; intros off c s Hoff Hsteps Hf Hc; [lia|]. simpl.
  destruct (N.ltb_spec off cut) as [Hlt|Hge].
  - set (want := N.min (cut - off) COUNT_CHUNK).
    assert (0 < want <= cut - off)%N by (unfold want, COUNT_CHUNK; lia).
    eapply reads_bind; [apply read_exact_spec; lia|]. intros bs s' [-> Hbs] Hp'.
    assert (Hd : (N.to_nat off + N.to_nat want <= length data)%nat)
      by (revert Hbs; unfold slice; rewrite length_take, length_drop; lia).
    eapply (reads_after _ _ s' s'); [done..|].
    replace (N.to_nat off + N.to_nat want)%nat with (N.to_nat (off + want)) in Hd by lia.
    eapply reads_weaken; [apply IH; [lia..|]|].
    + replace (N.to_nat (off + want)) with (N.to_nat off + N.to_nat want)%nat by lia.
      rewrite <- take_take_drop, count_newlines_app, Hc. do 2 f_equal.
      rewrite (drop_log _ (N.to_nat want)) by lia. by rewrite take_app_length' by lia.
    + intros c' [-> Hlt']. split; [done|]. intros _. destruct (decide (off + want < cut)%N); [apply Hlt'; lia|].
      replace cut with (off + want)%N by lia. lia.
  - apply reads_ret. assert (off = cut) as -> by lia. split; [done|lia].
Qed.

Lemma last_byte_spec s :
  (0 < N.to_nat len)%nat -> length log = N.to_nat len -> (1 + patience s <= fuel)%nat ->
  reads (last ← read_exact_at read_at fuel 1 (len - 1);
         mret (if decide (last = [newline]) then 0%nat else 1%nat)) s
    (fun o => o = open_line log).
Proof.
  intros Hl Hlog Hf. eapply reads_bind; [apply read_exact_spec; lia|]. intros bs s' [-> Hbs] _.
  apply reads_ret. rewrite <- (take_drop (N.to_nat (len - 1)) log), (drop_log _ 1) by lia.
  rewrite (drop_ge log (N.to_nat (len - 1) + 1)), app_nil_r by lia.
  destruct (slice (len - 1) 1) as [|x [|]]; [done| |done]. rewrite open_line_app by done.
  unfold open_line. simpl. destruct (N.eqb_spec x newline) as [->|]; case_decide; congruence.
Qed.

Lemma read_tail_spec n s :
  (N.to_nat len + patience s < fuel)%nat ->
  reads (read_tail_at read_at fuel len n) s (fun t => t = log_tail log n).
Proof.
  intros Hf. unfold read_tail_at, tail_window. destruct n as [|n].
  - eapply reads_bind; [by apply (reads_ret _ s (fun cw => cw = (len, [])))|]. intros ? s1 -> Hs1. simpl.
    eapply reads_bind; [apply count_loop_spec; [lia..|done]|]. intros c s2 [-> Hd] Hs2.
    assert (Hlog : length log = N.to_nat len) by (rewrite length_take; lia).
    eapply (reads_bind _ _ _ (fun o => o = open_line log)).
    + destruct (N.ltb_spec 0 len); [apply last_byte_spec; lia|]. apply reads_ret.
      assert (len = 0%N) as -> by lia. done.
    + intros o s3 -> _. apply reads_ret. by rewrite take_take, Nat.min_id, log_tail_none.
  - eapply (reads_bind _ _ _ (tail_at (Datatypes.S n))).
    { rewrite <- (drop_ge log (N.to_nat len)) by (rewrite length_take; lia).
      apply tail_loop_spec; [lia..| |lia|lia]. rewrite length_drop, length_take. lia. }
    intros [cut w] s1 (Hcut & -> & Hlog & Hw) Hs1.
    eapply reads_bind; [apply count_loop_spec; [lia..|done]|]. intros c s2 [-> _] _.
    destruct Hw as [->|[[a Ha] Hn]].
    + rewrite drop_0. unfold log_tail. destruct (last_n_lines_with_start _ _) as [t l].
      by apply reads_ret.
    + pose proof (log_tail_split a (drop (N.to_nat cut) log) (Datatypes.S n) Hn) as E.
      destruct (last_n_lines_with_start _ _) as [t l]. apply reads_ret. rewrite Ha, E. f_equal.
      by rewrite cons_middle, app_assoc, <- Ha, take_drop.
Qed.
End reading.

(** ** Readers *)

(** [read_at] of the bytes of a log held inline: the closure of [memory_tail]. *)
Definition bytes_read_at (bytes : list N) (u : unit) (want : nat) (off : N) :
    unit * result io_error (list N) :=
  let src := drop (N.to_nat off) bytes in
  let k := Nat.min (length src) want in
  (tt, Ok (take k src)).

#[export] Instance bytes_reader bytes :
  ReaderLaws (bytes_read_at bytes) bytes (fun _ => 0%nat) (fun _ => True).
Proof.
  split; [|done..]. unfold bytes_read_at. intros _ want off [] bs [= <-].
  set (src := drop _ bytes). assert (take (Nat.min (length src) want) src = take want src) as ->.
  { destruct (Nat.min_spec (length src) want) as [[? ->]|[? ->]]; [|done]. by rewrite !take_ge by lia. }
  done.
Qed.

(** [FileExt::read_at] of an open file, with what each call answers: a read that
    may come short, an interruption, a failure; reads are whole once the script
    is over. *)
Inductive answer := Short (k : nat) | Interrupt | Fault.
Definition file_read_at (data : list N) (script : list answer) (want : nat) (off : N) :
    list answer * result io_error (list N) :=
  let bytes := take want (drop (N.to_nat off) data) in
  match script with
  | [] => ([], Ok bytes)
  | Short k :: r => (r, Ok (take (S k) bytes))
  | Interrupt :: r => (r, Err IoInterrupted)
  | Fault :: r => (r, Err IoOther)
  end.
Definition no_fault (script : list answer) : Prop := Fault ∉ script.

#[export] Instance file_reader data :
  ReaderLaws (file_read_at data) data length no_fault.
Proof.
  unfold no_fault. split; unfold file_read_at; intros [|[k| |] r] want off s'; simpl; intros;
    simplify_eq; simpl; split_and?; set_solver || (try lia) || (try done).
  - exists (drop (S k) (take want (drop (N.to_nat off) data))). by rewrite take_drop.
  - destruct (take want _); [done|]. by simpl in *.
Qed.

(** C30: the tail of a log read backwards in chunks, with the lines before it
    counted in a second pass, is the tail of the whole log: for every reader that
    keeps the contract, however its reads come short or are interrupted,
    [read_tail_at] ends and returns the text and the line number that
    [last_n_lines_with_start] gives on the whole log, lossily decoded; it fails
    only if the reader does or if the log shrank meanwhile. *)
Theorem read_tail_exact {S} (read_at : S -> nat -> N -> S * result io_error (list N))
    data patience sound `{!ReaderLaws read_at data patience sound} len n fuel s :
  (N.to_nat len + patience s < fuel)%nat ->
  exists s' r, read_tail_at read_at fuel len n s = Some (s', r) /\
    match r with
    | Ok t => t = log_tail (take (N.to_nat len) data) n
    | Err _ => ~ (sound s /\ (N.to_nat len <= length data)%nat)
    end.
Proof. intros Hf. destruct (read_tail_spec len fuel n s Hf) as (s' & r & ? & _ & _ & ?). eauto. Qed.

Definition sample_log : list N :=
  $"one" ++ [newline] ++ $"two" ++ [cr; newline; 255%N; newline] ++ $"four".

Lemma read_tail_exact_witness :
  read_tail_at (file_read_at sample_log) 40 (N.of_nat (length sample_log)) 2
    [Short 0; Interrupt; Short 3] =
    Some ([], Ok (mkLogTail ([replacement; newline] ++ $"four") 3)) /\
  log_tail sample_log 2 = mkLogTail ([replacement; newline] ++ $"four") 3.
Proof.
  destruct (read_tail_exact (file_read_at sample_log) sample_log length no_fault
    (N.of_nat (length sample_log)) 2 40 [Short 0; Interrupt; Short 3]) as (s' & r & Hr & Hv);
    [vm_compute; lia|].
  split; [by vm_compute|]. vm_compute in Hr. injection Hr as <- <-. symmetry. exact Hv.
Defined.
