(* ===== verification/AddrKey.v ===== *)
(** The directory name of a failure slot: [addr_key] of
    [crates/engine/src/engine/failure_slot.rs].

    The name is a short readable part and a digest of the address. Unlike
    [Addr::hash_str] the digest is taken of length-prefixed fields, so that
    different addresses digest different bytes; the readable part is what makes
    the name safe as a file name. *)
From S2P Require Import Prelude Numerals Nom HtPkg HtAddr HtIntern LogTail.

Local Open Scope N_scope.

(** ** The key *)

Definition READABLE_MAX : N := 48.
Definition TEMP_PREFIX : str := $".tmp-".

(** [u64::to_le_bytes], for [k] bytes. *)
Fixpoint to_le_bytes (k : nat) (n : N) : list N :=
  match k with
  | O => []
  | S k => n mod 256 :: to_le_bytes k (n / 256)
  end.

(** What one [field] feeds the hasher. *)
Definition key_field (s : str) : list N := to_le_bytes 8 (str_len s) ++ as_bytes s.

(** Everything the hasher is fed. *)
Definition key_stream (a : Addr) : list N :=
  key_field (package a) ++ key_field (name a) ++
  (args a ≫= fun '(k, v) => key_field k ++ key_field v).

Definition readable_char (c : char) : char :=
  let c := to_ascii_lower_char c in
  if is_ascii_lowercase c || is_ascii_digit c then c else #"_".

(** The loop that builds the readable part. *)
Fixpoint readable_from (readable : str) (cs : str) : str :=
  match cs with
  | [] => readable
  | c :: r =>
      if READABLE_MAX <=? str_len readable then readable
      else readable_from (readable ++ [readable_char c]) r
  end.

Section key.
(** [Xxh3::digest128] of all the bytes fed. *)
Variable digest128 : list N -> N.

Definition addr_key (a : Addr) : str :=
  readable_from [] (package a ++ $":" ++ name a) ++ $"-" ++ pad0 32 (to_hex (digest128 (key_stream a))).
End key.

(** ** UTF-8 round trip *)

Lemma in_range_spec lo hi b : in_range lo hi b = true <-> lo <= b <= hi.
Proof. unfold in_range. by rewrite andb_true_iff, !N.leb_le. Qed.

Lemma in_range_out lo hi b : b < lo \/ hi < b -> in_range lo hi b = false.
Proof. intros H. apply not_true_iff_false. rewrite in_range_spec. lia. Qed.

Lemma second_of_3_true b0 b1 :
  224 <= b0 <= 239 -> 128 <= b1 <= 191 -> (b0 = 224 -> 160 <= b1) -> (b0 = 237 -> b1 <= 159) ->
  second_of_3 b0 b1 = true.
Proof. unfold second_of_3. rewrite !orb_true_iff, !andb_true_iff, !in_range_spec, !N.eqb_eq. lia. Qed.

Lemma second_of_4_true b0 b1 :
  240 <= b0 <= 244 -> 128 <= b1 <= 191 -> (b0 = 240 -> 144 <= b1) -> (b0 = 244 -> b1 <= 143) ->
  second_of_4 b0 b1 = true.
Proof. unfold second_of_4. rewrite !orb_true_iff, !andb_true_iff, !in_range_spec, !N.eqb_eq. lia. Qed.

(** A character's low six bits and the rest. *)
Ltac split64 c q m :=
  let E := fresh "Ediv" in let H := fresh "Hmod" in
  pose proof (N.div_mod c 64 ltac:(lia)) as E; pose proof (N.mod_lt c 64 ltac:(lia)) as H;
  set (q := c / 64) in *; set (m := c mod 64) in *.

Lemma div_4096 c : c / 4096 = c / 64 / 64.
Proof. by rewrite N.Div0.div_div. Qed.
Lemma div_262144 c : c / 262144 = c / 64 / 64 / 64.
Proof. by rewrite !N.Div0.div_div. Qed.

Lemma lossy_encode c r :
  is_scalar c = true -> from_utf8_lossy (utf8_encode c ++ r) = c :: from_utf8_lossy r.
Proof.
  unfold is_scalar, utf8_encode. rewrite orb_true_iff, andb_true_iff, N.ltb_lt, !N.leb_le. intros Hs.
  destruct (N.ltb_spec c 128) as [|H1]; [cbn; by rewrite (proj2 (N.ltb_lt c 128))|].
  rewrite ?div_262144, ?div_4096. split64 c q m.
  destruct (N.ltb_spec c 2048) as [|H2].
  { cbn [app from_utf8_lossy]. rewrite (proj2 (N.ltb_ge (192 + q) 128)) by lia.
    unfold is_cont. rewrite !(proj2 (in_range_spec _ _ _)) by lia. f_equal. lia. }
  split64 q q1 m1. destruct (N.ltb_spec c 65536) as [|H3].
  { cbn [app from_utf8_lossy]. rewrite (proj2 (N.ltb_ge (224 + q1) 128)), in_range_out by lia.
    unfold is_cont. rewrite second_of_3_true by lia. rewrite !(proj2 (in_range_spec _ _ _)) by lia. f_equal. lia. }
  split64 q1 q2 m2. cbn [app from_utf8_lossy].
  rewrite (proj2 (N.ltb_ge (240 + q2) 128)), (in_range_out 194), (in_range_out 224) by lia.
  unfold is_cont. rewrite second_of_4_true by lia. rewrite !(proj2 (in_range_spec _ _ _)) by lia. f_equal. lia.
Qed.

Lemma as_bytes_cons c s : as_bytes (c :: s) = utf8_encode c ++ as_bytes s.
Proof. done. Qed.

(** A text is recovered from its bytes. *)
Lemma lossy_as_bytes s : Forall (fun c => is_scalar c = true) s -> from_utf8_lossy (as_bytes s) = s.
Proof.
  induction 1 as [|c s Hc _ IH]; [done|]. by rewrite as_bytes_cons, lossy_encode, IH.
Qed.

Lemma length_as_bytes s : N.of_nat (length (as_bytes s)) = str_len s.
Proof.
  induction s as [|c s IH]; [done|]. rewrite as_bytes_cons, length_app, Nat2N.inj_add, IH.
  unfold utf8_encode. simpl. unfold utf8_len.
  by destruct (c <? 128), (c <? 2048), (c <? 65536).
Qed.

(** ** The digested bytes determine the address *)

(** Strings of Unicode scalar values, of fewer than 2^64 bytes. *)
Definition good_text (s : str) : Prop := Forall (fun c => is_scalar c = true) s /\ str_len s < 2 ^ 64.
Definition good_addr (a : Addr) : Prop :=
  good_text (package a) /\ good_text (name a) /\ Forall (fun kv => good_text kv.1 /\ good_text kv.2) (args a).

Lemma to_le_bytes_length k n : length (to_le_bytes k n) = k.
Proof. revert n; induction k as [|k IH]; intros n; simpl; [done|]. by rewrite IH. Qed.

Lemma to_le_bytes_inj k m n :
  m < 256 ^ N.of_nat k -> n < 256 ^ N.of_nat k -> to_le_bytes k m = to_le_bytes k n -> m = n.
Proof.
  revert m n; induction k as [|k IH]; intros m n Hm Hn; [simpl in *; lia|].
  rewrite Nat2N.inj_succ, N.pow_succ_r in Hm, Hn by lia. simpl. intros [= Hmod Hdiv].
  apply IH in Hdiv; [|by apply N.Div0.div_lt_upper_bound..].
  rewrite (N.div_mod m 256), (N.div_mod n 256) by lia. congruence.
Qed.

(** A field can be taken off the front of a stream in one way only. *)
Lemma key_field_app_inj s t x y :
  good_text s -> good_text t -> key_field s ++ x = key_field t ++ y -> s = t /\ x = y.
Proof.
  unfold key_field. intros [Hs Hls] [Ht Hlt] E. rewrite <- !app_assoc in E.
  apply app_inj_1 in E as [El E]; [|by rewrite !to_le_bytes_length].
  apply to_le_bytes_inj in El; [|done..]. rewrite <- !length_as_bytes in El.
  apply app_inj_1 in E as [Eb ->]; [|lia]. split; [|done].
  apply (f_equal from_utf8_lossy) in Eb. by rewrite !lossy_as_bytes in Eb.
Qed.

Lemma key_field_nonempty s x : key_field s ++ x <> [].
Proof. done. Qed.

Lemma key_args_inj l m :
  Forall (fun kv => good_text kv.1 /\ good_text kv.2) l ->
  Forall (fun kv => good_text kv.1 /\ good_text kv.2) m ->
  (l ≫= fun '(k, v) => key_field k ++ key_field v) =
  (m ≫= fun '(k, v) => key_field k ++ key_field v) -> l = m.
Proof.
  intros Hl. revert m. induction Hl as [|[k v] l [Hk Hv] _ IH]; intros m Hm; destruct Hm as [|[k' v'] m [Hk' Hv'] Hm];
    [done|done|done|]. simpl in *. rewrite <- !app_assoc.
  intros [-> E]%key_field_app_inj; [|done..]. apply key_field_app_inj in E as [-> E]; [|done..].
  f_equal. by apply IH.
Qed.

Lemma key_stream_inj a b : good_addr a -> good_addr b -> key_stream a = key_stream b -> a = b.
Proof.
  destruct a as [p n k], b as [p' n' k']. unfold good_addr, key_stream. simpl.
  intros (Hp & Hn & Hk) (Hp' & Hn' & Hk'). intros [-> E]%key_field_app_inj; [|done..].
  apply key_field_app_inj in E as [-> E]; [|done..]. f_equal. by apply key_args_inj.
Qed.

(** ** The key as a file name *)

(** Lowercase letters, digits, underscore and the dash. *)
Definition key_char (c : char) : bool :=
  is_ascii_lowercase c || is_ascii_digit c || (c =? #"_") || (c =? #"-").

Lemma readable_char_key c : key_char (readable_char c) = true.
Proof.
  unfold readable_char, key_char. destruct (is_ascii_lowercase (to_ascii_lower_char c)) eqn:E; simpl; [by rewrite E|].
  destruct (is_ascii_digit (to_ascii_lower_char c)) eqn:E'; [by rewrite E', orb_true_r|done].
Qed.

(** Such characters are ASCII: one byte each. *)
Lemma key_str_len s : Forall (fun c => key_char c = true) s -> str_len s = N.of_nat (length s).
Proof.
  induction 1 as [|c l Hc _ IH]; [done|]. simpl. rewrite IH. unfold utf8_len.
  unfold key_char, is_ascii_lowercase, is_ascii_digit in Hc.
  rewrite (proj2 (N.ltb_lt c 128)); [lia|].
  rewrite !orb_true_iff, !andb_true_iff, !N.leb_le, !N.eqb_eq in Hc. lia.
Qed.

Lemma readable_from_spec acc cs :
  Forall (fun c => key_char c = true) acc -> (length acc <= 48)%nat ->
  (exists t, readable_from acc cs = acc ++ t) /\
  Forall (fun c => key_char c = true) (readable_from acc cs) /\ (length (readable_from acc cs) <= 48)%nat.
Proof.
  revert acc; induction cs as [|c cs IH]; intros acc Hacc Hlen; [split; [by exists []; rewrite app_nil_r|done]|].
  simpl. rewrite key_str_len by done. unfold READABLE_MAX. destruct (N.leb_spec 48 (N.of_nat (length acc))) as [Hge|Hlt].
  - split; [by exists []; rewrite app_nil_r|done].
  - destruct (IH (acc ++ [readable_char c])) as ([t Ht] & Hf & Hl).
    + apply Forall_app. split; [done|]. apply Forall_singleton, readable_char_key.
    + rewrite length_app. simpl. lia.
    + split; [|done]. exists (readable_char c :: t). by rewrite Ht, <- app_assoc.
Qed.

Section key_facts.
Variable digest128 : list N -> N.
Hypothesis digest128_width : forall b, digest128 b < 2 ^ 128.

Lemma addr_key_digest a b :
  addr_key digest128 a = addr_key digest128 b ->
  digest128 (key_stream a) = digest128 (key_stream b).
Proof.
  unfold addr_key. rewrite !app_assoc. intros E. apply app_inj_2 in E as [_ E]; [by eapply pad0_hex_inj|].
  by rewrite !pad0_hex_length by (lia || apply digest128_width).
Qed.

(** A key is neither a temporary name nor hidden. *)
Lemma addr_key_head a : exists c t, addr_key digest128 a = c :: t /\ key_char c = true.
Proof.
  unfold addr_key. set (cs := package a ++ _). assert (exists c cs', cs = c :: cs') as (c & cs' & ->).
  { unfold cs. destruct (package a); simpl; eauto. }
  cbn [readable_from str_len foldr]. change (READABLE_MAX <=? 0) with false. cbn [app].
  destruct (readable_from_spec [readable_char c] cs') as ([t Ht] & _ & _).
  - apply Forall_singleton, readable_char_key.
  - simpl. lia.
  - rewrite Ht. eauto using readable_char_key.
Qed.

Lemma addr_key_not_temp a s : starts_with TEMP_PREFIX (addr_key digest128 a) = false /\
  addr_key digest128 a <> TEMP_PREFIX ++ s /\ starts_with $"." (addr_key digest128 a) = false.
Proof.
  destruct (addr_key_head a) as (c & t & -> & Hc).
  assert (46 <> c) as Hne by (intros <-; done).
  split_and!; [|by intros [= ->]|]; unfold starts_with; simpl; by rewrite decide_False.
Qed.
End key_facts.

(** Two addresses share a slot name only if the digest itself collides on
    different inputs: what is digested determines the address, because every
    string is preceded by its length. *)
Theorem addr_key_injective (digest128 : list N -> N) a b :
  (forall x, digest128 x < 2 ^ 128) -> good_addr a -> good_addr b ->
  addr_key digest128 a = addr_key digest128 b ->
  a = b \/ (key_stream a <> key_stream b /\ digest128 (key_stream a) = digest128 (key_stream b)).
Proof.
  intros Hw Ha Hb E. destruct (decide (a = b)) as [->|Hne]; [by left|right].
  split; [|by apply addr_key_digest]. intros Es. by apply Hne, key_stream_inj.
Qed.

Lemma addr_key_injective_witness :
  addr_key (fun _ => 0) colliding_1 = addr_key (fun _ => 0) colliding_2 /\
  (colliding_1 = colliding_2 \/ (key_stream colliding_1 <> key_stream colliding_2 /\ 0 = 0)).
Proof.
  split; [by vm_compute|].
  apply (addr_key_injective (fun _ => 0) colliding_1 colliding_2); [by vm_compute|..|by vm_compute];
    repeat constructor; by vm_compute.
Defined.

(** A slot's name is safe as a file name: only lowercase letters, digits,
    underscores and dashes, so no two differ by case alone and none is a path;
    at most 81 bytes; and it starts with no dot, so it is never the name of a
    slot being built or discarded. *)
Theorem addr_key_safe (digest128 : list N -> N) a s :
  (forall x, digest128 x < 2 ^ 128) ->
  Forall (fun c => key_char c = true) (addr_key digest128 a) /\
  to_ascii_lowercase (addr_key digest128 a) = addr_key digest128 a /\
  str_len (addr_key digest128 a) <= 81 /\
  starts_with $"." (addr_key digest128 a) = false /\ addr_key digest128 a <> TEMP_PREFIX ++ s.
Proof.
  intros Hw. assert (Hk : Forall (fun c => key_char c = true) (addr_key digest128 a)).
  { unfold addr_key. apply Forall_app. split; [by apply readable_from_spec; [|simpl; lia]|].
    apply Forall_app. split; [by repeat constructor|]. eapply Forall_impl; [apply pad0_hex_lower|].
    intros c Hc. unfold key_char. rewrite (orb_comm (is_ascii_lowercase c)), Hc. done. }
  split; [done|]. split; [|split].
  - unfold to_ascii_lowercase. etrans; [|apply list_fmap_id]. apply list_fmap_ext.
    intros i c Hi. eapply Forall_lookup_1 in Hk; [|done]. unfold to_ascii_lower_char, key_char in *.
    destruct (is_ascii_uppercase c) eqn:Hu; [|done]. exfalso.
    unfold is_ascii_uppercase, is_ascii_lowercase, is_ascii_digit in *.
    rewrite !orb_true_iff, !andb_true_iff, !N.leb_le, !N.eqb_eq in Hk. bool_simpl. lia.
  - rewrite key_str_len by done. unfold addr_key. rewrite !length_app, pad0_hex_length by (lia || apply Hw).
    destruct (readable_from_spec [] (package a ++ $":" ++ name a)) as (_ & _ & Hl); [done|simpl; lia|].
    cbn [length]. lia.
  - split; [by apply (addr_key_not_temp _ _ [])|by apply addr_key_not_temp].
Qed.

Lemma addr_key_safe_witness :
  addr_key (fun _ => 5) (mkAddr $"My/Pkg" $"x.y" []) = $"my_pkg_x_y-00000000000000000000000000000005" /\
  str_len (addr_key (fun _ => 5) (mkAddr $"My/Pkg" $"x.y" [])) <= 81.
Proof.
  split; [by vm_compute|]. apply (addr_key_safe (fun _ => 5) (mkAddr $"My/Pkg" $"x.y" []) []). by vm_compute.
Defined.
