(* ===== verification/FailureSlot.v ===== *)
(** The failure slots: [crates/engine/src/engine/failure_slot.rs], and how a
    failure carries its log ([crates/plugin/src/error.rs]).

    A failed run's log is kept in [<home>/failures/<key>/], in a directory built
    under a temporary name and renamed into place. The directory is a map from
    entry names to file trees; every call on it takes its answer from a script
    (done, or failed having done part of its work), and [w_seen] records every
    state the directory went through, so that what a concurrent reader or a
    crash can observe is a statement about [w_seen]. *)
From S2P Require Import Prelude Numerals Nom HtPkg HtAddr HtIntern LogTail AddrKey.
From S2P Require Import HtValue Wire WireDef.

(** ** The log a failure carries *)

Definition same_path (m p : OutputArtifact) : bool :=
  bool_decide (oa_group m = oa_group p /\ oa_name m = oa_name p).

(** [with_failure_artifacts]: [prev] is what the error already carries. *)
Definition with_failure_artifacts (prev : option (list OutputArtifact)) (artifacts : list OutputArtifact) :
    option (list OutputArtifact) :=
  match artifacts with
  | [] => prev
  | _ =>
      let kept :=
        match prev with
        | Some prev => List.filter (fun p => negb (existsb (fun m => same_path m p) artifacts)) prev
        | None => []
        end in
      Some (artifacts ++ kept)
  end.

Definition is_log (a : OutputArtifact) : bool := match oa_type a with OaLog => true | _ => false end.

(** [failure_log]. *)
Definition failure_log (carried : option (list OutputArtifact)) : option OutputArtifact :=
  carried ≫= List.find is_log.

(** [LogSource]. *)
Inductive LogSource :=
| SrcFile (path : str)
| SrcBytes (data : list N).

(** The loop of [select_log]. *)
Fixpoint choose_log (chosen : option OutputArtifact) (l : list OutputArtifact) : option OutputArtifact :=
  match l with
  | [] => chosen
  | a :: r =>
      if negb (is_log a) then choose_log chosen r
      else match chosen with
           | Some _ => choose_log chosen r
           | None => choose_log (Some a) r
           end
  end.
Definition select_log (carried : option (list OutputArtifact)) : option LogSource :=
  artifacts ← carried;
  a ← choose_log None artifacts;
  match oa_content a with
  | OaFile source_path _ _ _ => Some (SrcFile source_path)
  | OaRaw data _ _ => Some (SrcBytes data)
  | _ => None
  end.

(** ** The directory *)

(** A file tree, with what [symlink_metadata] reports as the modification time,
    and whether its owner may read a directory. *)
Inductive node :=
| NFile (mtime : option N) (data : list N)
| NDir (mtime : option N) (mode_ok : bool) (children : list (str * node)).

(** An entry's name: valid UTF-8, or bytes that are not. *)
Abbreviation os_name := (str + list N)%type.
Abbreviation directory := (gmap os_name node).

(** What a call answers: it succeeds, or fails after part [k] of its work. *)
Inductive fs_answer := Done | Fails (e : io_error) (k : nat).

Record world := mkWorld { w_dir : directory; w_answers : list fs_answer; w_seen : list directory }.

Definition fsm (A : Type) : Type := world -> world * result io_error A.
#[export] Instance fsm_ret : MRet fsm := fun A a w => (w, Ok a).
#[export] Instance fsm_bind : MBind fsm := fun A B f m w =>
  match m w with
  | (w, Ok a) => f a w
  | (w, Err e) => (w, Err e)
  end.

Definition next (w : world) : fs_answer * world :=
  match w_answers w with
  | [] => (Done, w)
  | a :: r => (a, mkWorld (w_dir w) r (w_seen w))
  end.
Definition set_dir (d : directory) (w : world) : world := mkWorld d (w_answers w) (d :: w_seen w).

(** The entry [f] of the directory [n] of the root. *)
Definition child (d : directory) (n : os_name) (f : str) : option node :=
  match d !! n with
  | Some (NDir _ true ch) => bt_get f ch
  | _ => None
  end.
Fixpoint child_set (f : str) (x : node) (ch : list (str * node)) : list (str * node) :=
  match ch with
  | [] => [(f, x)]
  | (g, y) :: r => if decide (f = g) then (f, x) :: r else (g, y) :: child_set f x r
  end.

Section fs.
(** The time the file system stamps what it creates with. *)
Variable now : N.
(** The files outside the slots, as [std::fs::copy] and [File::open] read them. *)
Variable read_file : str -> result io_error (list N).

Definition create_dir_all : fsm unit := fun w =>
  match next w with
  | (Done, w) => (w, Ok tt)
  | (Fails e _, w) => (w, Err e)
  end.

Definition create_dir (n : os_name) : fsm unit := fun w =>
  match next w with
  | (Fails e _, w) => (w, Err e)
  | (Done, w) =>
      match w_dir w !! n with
      | Some _ => (w, Err IoOther)
      | None => (set_dir (<[n := NDir (Some now) true []]> (w_dir w)) w, Ok tt)
      end
  end.

Definition put_file (n : os_name) (f : str) (data : list N) (d : directory) : directory :=
  match d !! n with
  | Some (NDir _ o ch) => <[n := NDir (Some now) o (child_set f (NFile (Some now) data) ch)]> d
  | _ => d
  end.

(** A file is created empty and then grows up to its first [k] bytes. *)
Definition grow_file (n : os_name) (f : str) (data : list N) (k : nat) (w : world) : world :=
  foldl (fun w i => set_dir (put_file n f (take i data) (w_dir w)) w) w (seq 0 (S k)).

(** [std::fs::write]. *)
Definition write_file (n : os_name) (f : str) (data : list N) : fsm unit := fun w =>
  match next w with
  | (Done, w) =>
      match w_dir w !! n with
      | Some (NDir _ true _) => (grow_file n f data (length data) w, Ok tt)
      | _ => (w, Err IoNotFound)
      end
  | (Fails e O, w) => (w, Err e)
  | (Fails e (S k), w) => (grow_file n f data k w, Err e)
  end.

(** [std::fs::copy]: the source is opened first. *)
Definition copy_file (from : str) (n : os_name) (f : str) : fsm unit := fun w =>
  match read_file from with
  | Err e => (w, Err e)
  | Ok data => write_file n f data w
  end.

(** [File::open]: the open file is its content, which a later rename of the
    directory does not change. *)
Definition open_file (n : os_name) (f : str) : fsm (list N) := fun w =>
  match next w with
  | (Fails e _, w) => (w, Err e)
  | (Done, w) =>
      match child (w_dir w) n f with
      | Some (NFile _ data) => (w, Ok data)
      | _ => (w, Err IoNotFound)
      end
  end.

(** [rename(2)]: over nothing, or a directory over an empty one. *)
Definition can_replace (dst : option node) (x : node) : bool :=
  match dst, x with
  | None, _ | Some (NDir _ _ []), NDir _ _ _ | Some (NFile _ _), NFile _ _ => true
  | _, _ => false
  end.
Definition rename (src dst : os_name) : fsm unit := fun w =>
  match next w with
  | (Fails e _, w) => (w, Err e)
  | (Done, w) =>
      match w_dir w !! src with
      | None => (w, Err IoNotFound)
      | Some x =>
          if can_replace (w_dir w !! dst) x
          then (set_dir (<[dst := x]> (delete src (w_dir w))) w, Ok tt)
          else (w, Err IoOther)
      end
  end.

(** [std::fs::remove_dir_all]: entry by entry, and then the directory. *)
Definition remove_children (n : os_name) (k : nat) (w : world) : world :=
  foldl (fun w _ =>
    match w_dir w !! n with
    | Some (NDir m o (_ :: ch)) => set_dir (<[n := NDir m o ch]> (w_dir w)) w
    | _ => w
    end) w (seq 0 k).
Definition remove_dir_all (n : os_name) : fsm unit := fun w =>
  let '(a, w) := next w in
  match w_dir w !! n with
  | None => (w, Err IoNotFound)
  | Some (NFile _ _) => (w, Err IoOther)
  | Some (NDir _ false _) => (w, Err IoPermissionDenied)
  | Some (NDir _ true ch) =>
      match a with
      | Done => let w := remove_children n (length ch) w in (set_dir (delete n (w_dir w)) w, Ok tt)
      | Fails e k => (remove_children n k w, Err e)
      end
  end.

(** [Drop for TempDir]: the removal's failure is ignored. *)
Definition drop_temp (n : os_name) (w : world) : world := (remove_dir_all n w).1.
End fs.

(** ** Slots *)

Definition MANIFEST : str := $"manifest.json".
Definition LOG : str := $"log.txt".
Definition MANIFEST_VERSION : N := 1.

(** [SlotManifest]. *)
Record SlotManifest := mkManifest { version : N; m_addr : str; hashin : str; failed_at : N }.

#[export] Instance SlotManifest_eq_dec : EqDecision SlotManifest.
Proof. solve_decision. Defined.

(** [FailureLog]: an open file, or a tail already read. *)
Inductive FailureLogSource :=
| LogOpen (file : list N)
| LogInMemory (t : LogTail).
Record FailureLog := mkFailureLog { fl_path : option str; fl_source : FailureLogSource; fl_lines : nat }.
Definition FailureLog_open (path : str) (file : list N) (lines : nat) : FailureLog :=
  mkFailureLog (Some path) (LogOpen file) lines.
Definition FailureLog_in_memory (t : LogTail) : FailureLog := mkFailureLog None (LogInMemory t) 0.

(** A read of [data], with room for every byte and every answer of [script]. *)
Definition tail_of (data : list N) (script : list answer) (lines : nat) : result io_error LogTail :=
  match read_tail_at (file_read_at data) (S (length data + length script)) (N.of_nat (length data)) lines script with
  | Some (_, r) => r
  | None => Err IoOther
  end.

(** [FailureLog::tail]. *)
Definition FailureLog_tail (script : list answer) (l : FailureLog) : result io_error LogTail :=
  match fl_source l with
  | LogInMemory t => Ok t
  | LogOpen file => tail_of file script (fl_lines l)
  end.

(** [Path::starts_with] on resolved paths: by components. *)
Definition path_starts_with (p base : str) : bool :=
  bool_decide (components base `prefix_of` components p).

(** [Fill], [carried] being the artifacts of [err]. *)
Record Fill := mkFill {
  f_addr : Addr; f_hashin : str; f_roots : list str;
  f_carried : option (list OutputArtifact); f_lines : nat; f_material : bool
}.

(** [Filled]. *)
Inductive Filled :=
| FilledNothing
| FilledMemory (t : LogTail)
| FilledSlot (key : str) (l : FailureLog)
| FilledFailed (e : io_error) (t : option LogTail).

(** [list_slots]. *)
Definition list_slots (d : directory) : gset str :=
  list_to_set (omap (fun '(n, _) =>
    match n with
    | inl s => if starts_with $"." s then None else Some s
    | inr _ => None
    end) (map_to_list d)).

Section slots.
(** The digest of the keys, and [serde_json] on a manifest. *)
Variable digest128 : list N -> N.
Variable to_json : SlotManifest -> list N.
Variable from_json : list N -> option SlotManifest.
(** The clock, the files outside the slots, path resolution, and how the reads of
    a log answer. *)
Variable now : N.
Variable now_ms : N.
Variable read_file : str -> result io_error (list N).
Variable canonicalize : str -> result io_error str.
Variable is_file : str -> result io_error bool.
Variable reads_answer : list answer.
(** [<home>/failures]. *)
Variable root : str.

(** [temp_name], [uuid] being the fresh identifier. *)
Definition temp_name (key uuid : str) : os_name := inl (TEMP_PREFIX ++ key ++ $"-" ++ uuid).

(** [resolve_in_roots]. *)
Definition resolve_in_roots (path : str) (roots : list str) : result io_error (option str) :=
  match canonicalize path with
  | Err IoNotFound => Ok None
  | Err e => Err e
  | Ok real =>
      let inside := existsb (fun r =>
        match canonicalize r with Ok r => path_starts_with real r | Err _ => false end) roots in
      if negb inside then Ok None
      else match is_file real with
           | Ok true => Ok (Some real)
           | Ok false => Ok None
           | Err e => Err e
           end
  end.

(** [memory_tail]. *)
Definition memory_tail (source : LogSource) (lines : nat) : result io_error LogTail :=
  match source with
  | SrcFile path => data ← read_file path; tail_of data reads_answer lines
  | SrcBytes bytes =>
      match read_tail_at (bytes_read_at bytes) (S (length bytes)) (N.of_nat (length bytes)) lines tt with
      | Some (_, r) => r
      | None => Err IoOther
      end
  end.

(** The log of [fill_slot]: copied or written. *)
Definition write_log (temp : os_name) (source : LogSource) : fsm unit :=
  match source with
  | SrcFile from => copy_file now read_file from temp LOG
  | SrcBytes bytes => write_file now temp LOG bytes
  end.

(** [fill_slot] up to the manifest: what is built under the temporary name. *)
Definition build_slot (temp : os_name) (manifest : SlotManifest) (source : LogSource) : fsm (list N) :=
  _ ← create_dir now temp;
  _ ← write_log temp source;
  file ← open_file temp LOG;
  _ ← write_file now temp MANIFEST (to_json manifest);
  mret file.

Definition fill_slot (key : str) (manifest : SlotManifest) (source : LogSource) (uuid1 uuid2 : str) :
    fsm (str * list N) := fun w =>
  match create_dir_all w with
  | (w, Err e) => (w, Err e)
  | (w, Ok _) =>
      let temp := temp_name key uuid1 in
      match build_slot temp manifest source w with
      | (w, Err e) => (drop_temp temp w, Err e)
      | (w, Ok file) =>
          let old := temp_name key uuid2 in
          let (w, moved) := rename (inl key) old w in
          match moved with
          | Ok _ | Err IoNotFound =>
              match rename temp (inl key) w with
              | (w, Err e) => (drop_temp temp (drop_temp old w), Err e)
              | (w, Ok _) => (drop_temp old w, Ok (path_push (path_push root key) LOG, file))
              end
          | Err e => (drop_temp temp (drop_temp old w), Err e)
          end
      end
  end.

(** [read_any_manifest], the manifest being read in [d1] and the log looked for
    in [d2], what the directory has become meanwhile. *)
Definition read_manifest_between (d1 d2 : directory) (n : os_name) : option SlotManifest :=
  match child d1 n MANIFEST with
  | Some (NFile _ bytes) =>
      m ← from_json bytes;
      match child d2 n LOG with
      | Some (NFile _ _) => if (version m =? MANIFEST_VERSION)%N then Some m else None
      | _ => None
      end
  | _ => None
  end.
Definition read_any_manifest (d : directory) (n : os_name) : option SlotManifest := read_manifest_between d d n.

(** [read_manifest] and [FailureSlots::read]. *)
Definition read_manifest (d : directory) (n : os_name) (addr : Addr) : option SlotManifest :=
  m ← read_any_manifest d n; if decide (m_addr m = format addr) then Some m else None.
Definition read_slot (d : directory) (addr : Addr) : option SlotManifest :=
  read_manifest d (inl (addr_key digest128 addr)) addr.

(** [FailureSlots::known]: listed on first use. *)
Definition known_slots (d : directory) (known : option (gset str)) : gset str :=
  match known with Some k => k | None => list_slots d end.

(** [FailureSlots::clear]. *)
Definition clear (addr : Addr) (w : world) (known : option (gset str)) : world * option (gset str) :=
  let set := known_slots (w_dir w) known in
  if decide (set = ∅) then (w, Some set)
  else
    let key := addr_key digest128 addr in
    if decide (key ∈ set) then (drop_temp (inl key) w, Some (set ∖ {[key]}))
    else (w, Some set).

(** The blocking part of [FailureSlots::fill]. *)
Definition fill_blocking (f : Fill) (source : LogSource) (uuid1 uuid2 : str) (w : world) : world * Filled :=
  let key := addr_key digest128 (f_addr f) in
  let manifest := mkManifest MANIFEST_VERSION (format (f_addr f)) (f_hashin f) now_ms in
  let resolved :=
    match source with
    | SrcFile path =>
        match resolve_in_roots path (f_roots f) with
        | Ok (Some p) => Ok (SrcFile p)
        | Ok None => Err FilledNothing
        | Err e => Err (FilledFailed e None)
        end
    | bytes => Ok bytes
    end in
  match resolved with
  | Err out => (w, out)
  | Ok source =>
      if f_material f then
        match memory_tail source (f_lines f) with
        | Ok t => (w, FilledMemory t)
        | Err e => (w, FilledFailed e None)
        end
      else
        match fill_slot key manifest source uuid1 uuid2 w with
        | (w, Ok (path, file)) => (w, FilledSlot key (FailureLog_open path file (f_lines f)))
        | (w, Err e) =>
            (w, FilledFailed e (match memory_tail source (f_lines f) with Ok t => Some t | Err _ => None end))
        end
  end.

(** [FailureSlots::fill]. *)
Definition fill (f : Fill) (uuid1 uuid2 : str) (w : world) (known : option (gset str)) :
    world * option (gset str) * option FailureLog :=
  match select_log (f_carried f) with
  | None => (w, known, None)
  | Some source =>
      match fill_blocking f source uuid1 uuid2 w with
      | (w, FilledNothing) => (w, known, None)
      | (w, FilledMemory t) => (w, known, Some (FailureLog_in_memory t))
      | (w, FilledSlot key l) => (w, Some (known_slots (w_dir w) known ∪ {[key]}), Some l)
      | (w, FilledFailed _ t) => (w, known, FailureLog_in_memory <$> t)
      end
  end.
End slots.

(** ** States the directory goes through *)

(** [I] holds now, and [J] held in every state recorded. *)
Definition traced (I J : directory -> Prop) (w : world) : Prop := I (w_dir w) /\ Forall J (w_seen w).

(** [I] says nothing of the entry [n]. *)
Definition ignores (I : directory -> Prop) (n : os_name) : Prop :=
  forall d o, I d -> I (partial_alter (fun _ => o) n d).

Lemma ignores_insert I n d x : ignores I n -> I d -> I (<[n := x]> d).
Proof. intros H. apply (H d (Some x)). Qed.
Lemma ignores_delete I n d : ignores I n -> I d -> I (delete n d).
Proof. intros H. apply (H d None). Qed.

Lemma traced_next I J w : traced I J w -> traced I J (next w).2.
Proof. unfold next. by destruct (w_answers w). Qed.

Lemma traced_set (I J : directory -> Prop) d w :
  (forall d, I d -> J d) -> I d -> traced I J w -> traced I J (set_dir d w).
Proof. intros HIJ Hd [_ Hs]. split; [done|]. simpl. constructor; auto. Qed.

Lemma next_dir w : w_dir (next w).2 = w_dir w.
Proof. unfold next. by destruct (w_answers w). Qed.

(** Takes the answer of a call. *)
Ltac answer :=
  match goal with |- context [next ?w] =>
    let Hd := fresh "Hd" in pose proof (next_dir w) as Hd;
    first [match goal with H : traced _ _ w |- _ => apply traced_next in H end|idtac];
    let a := fresh "a" in let w' := fresh "w" in
    destruct (next w) as [a w']; cbn [fst snd] in *
  end.

Section traces.
Context (I J : directory -> Prop) (now : N) (n : os_name) (HIJ : forall d, I d -> J d) (HI : ignores I n).

Lemma put_file_ignored f data d : I d -> I (put_file now n f data d).
Proof. intros H. unfold put_file. repeat case_match; by try apply ignores_insert. Qed.

Lemma traced_grow f data k w : traced I J w -> traced I J (grow_file now n f data k w).
Proof.
  unfold grow_file. generalize (seq 0 (S k)). intros l. revert w. induction l as [|i l IH]; intros w Hw; [done|].
  apply IH, traced_set; [done| |done]. apply put_file_ignored, Hw.
Qed.

Lemma traced_remove_children k w : traced I J w -> traced I J (remove_children n k w).
Proof.
  unfold remove_children. generalize (seq 0 k). intros l. revert w. induction l as [|i l IH]; intros w Hw; [done|].
  simpl. apply IH. destruct (w_dir w !! n) as [[|m o [|c ch]]|]; [done..|apply traced_set|done]; [done| |done].
  apply ignores_insert; [done|apply Hw].
Qed.

Lemma traced_create_dir w : traced I J w -> traced I J (create_dir now n w).1.
Proof.
  intros Hw. unfold create_dir. answer. destruct a; [|done]. case_match; [done|].
  apply traced_set; [done|apply ignores_insert; [done|apply Hw]|done].
Qed.

Lemma traced_write f data w : traced I J w -> traced I J (write_file now n f data w).1.
Proof.
  intros Hw. unfold write_file. answer. destruct a as [|e [|k]]; [|done|by apply traced_grow].
  destruct (w_dir w0 !! n) as [[|m [] ch]|]; simpl; [done|by apply traced_grow|done..].
Qed.

Lemma traced_open f w : traced I J w -> traced I J (open_file n f w).1.
Proof. intros Hw. unfold open_file. answer. by repeat case_match. Qed.

Lemma traced_drop w : traced I J w -> traced I J (drop_temp n w).
Proof.
  intros Hw. unfold drop_temp, remove_dir_all. answer.
  destruct (w_dir w0 !! n) as [[|m [] ch]|]; [done| |done..].
  destruct a; simpl; [|by apply traced_remove_children].
  pose proof (traced_remove_children (length ch) w0 Hw) as Hc.
  apply traced_set; [done|apply ignores_delete; [done|apply Hc]|done].
Qed.

Lemma traced_log read_file source w : traced I J w -> traced I J (write_log now read_file n source w).1.
Proof.
  intros Hw. unfold write_log, copy_file. destruct source as [p|]; [destruct (read_file p); [|done]|]; by apply traced_write.
Qed.

Lemma traced_build to_json read_file manifest source w :
  traced I J w -> traced I J (build_slot to_json now read_file n manifest source w).1.
Proof.
  intros Hw. unfold build_slot, mbind, fsm_bind.
  pose proof (traced_create_dir w Hw) as H1. destruct (create_dir now n w) as [w1 [[]|]]; [|done].
  pose proof (traced_log read_file source w1 H1) as H2. destruct (write_log _ _ _ _ w1) as [w2 [[]|]]; [|done].
  pose proof (traced_open LOG w2 H2) as H3. destruct (open_file n LOG w2) as [w3 [file|]]; [|done].
  pose proof (traced_write MANIFEST (to_json manifest) w3 H3) as H4.
  by destruct (write_file now n MANIFEST (to_json manifest) w3) as [w4 [[]|]].
Qed.
End traces.

(** ** The log chosen *)

(** The slot keeps the log [failure_log] names, and the outermost attachment of
    one is authoritative. *)
Lemma choose_log_find chosen l :
  choose_log chosen l = match chosen with Some a => Some a | None => List.find is_log l end.
Proof.
  revert chosen. induction l as [|a l IH]; intros chosen; simpl; [by destruct chosen|].
  rewrite !IH. destruct (is_log a), chosen; done.
Qed.

Lemma find_app_l l k a : List.find is_log l = Some a -> List.find is_log (l ++ k) = Some a.
Proof. induction l as [|x l IH]; simpl; [done|]. destruct (is_log x); auto. Qed.

Lemma select_log_outermost prev artifacts a :
  List.find is_log artifacts = Some a ->
  failure_log (with_failure_artifacts prev artifacts) = Some a /\
  select_log (with_failure_artifacts prev artifacts) =
    match oa_content a with
    | OaFile source_path _ _ _ => Some (SrcFile source_path)
    | OaRaw data _ _ => Some (SrcBytes data)
    | _ => None
    end.
Proof.
  intros Hf. destruct artifacts as [|x l]; [done|]. unfold with_failure_artifacts, select_log, failure_log.
  set (kept := match prev with Some _ => _ | None => _ end). cbn [mbind option_bind].
  rewrite choose_log_find, (find_app_l (x :: l) kept a) by done. done.
Qed.

(** ** What a fill builds *)

(** The bytes of the log to keep. *)
Definition source_bytes (read_file : str -> result io_error (list N)) (source : LogSource) :
    result io_error (list N) :=
  match source with SrcFile p => read_file p | SrcBytes b => Ok b end.

(** A complete slot. *)
Definition slot_node (now : N) (log json : list N) : node :=
  NDir (Some now) true [(LOG, NFile (Some now) log); (MANIFEST, NFile (Some now) json)].

Lemma child_set_set f x y ch : child_set f x (child_set f y ch) = child_set f x ch.
Proof.
  induction ch as [|[g z] ch IH]; simpl; [by rewrite decide_True|].
  destruct (decide (f = g)) as [->|Hne]; simpl; [by rewrite decide_True|]. by rewrite decide_False, IH.
Qed.

Section build.
Context (now : N) (to_json : SlotManifest -> list N) (read_file : str -> result io_error (list N)).

Lemma put_put n f a b d : put_file now n f a (put_file now n f b d) = put_file now n f a d.
Proof.
  unfold put_file. destruct (d !! n) as [[|m o ch]|] eqn:E; [by rewrite E| |by rewrite E].
  by rewrite lookup_insert_eq, insert_insert_eq, child_set_set.
Qed.

Lemma grow_file_dir n f data k w : w_dir (grow_file now n f data k w) = put_file now n f (take k data) (w_dir w).
Proof.
  unfold grow_file. rewrite seq_S, foldl_app. simpl.
  assert (H : forall l w, exists b, w_dir (foldl (fun w i => set_dir (put_file now n f (take i data) (w_dir w)) w) w l) = w_dir w
    \/ w_dir (foldl (fun w i => set_dir (put_file now n f (take i data) (w_dir w)) w) w l) = put_file now n f b (w_dir w)).
  { induction l as [|i l IH]; intros v; [exists []; by left|]. simpl. destruct (IH (set_dir (put_file now n f (take i data) (w_dir v)) v)) as [b Hb].
    simpl in Hb. destruct Hb as [->| ->]; [by eexists; right|]. rewrite put_put. eauto. }
  destruct (H (seq 0 k) w) as [b [->| ->]]; [done|]. apply put_put.
Qed.

Lemma create_dir_ok n w w' :
  create_dir now n w = (w', Ok tt) -> w_dir w' !! n = Some (NDir (Some now) true []).
Proof. unfold create_dir. answer. repeat case_match; intros [= <-]. simpl. apply lookup_insert_eq. Qed.

Lemma write_file_ok n f data w w' :
  write_file now n f data w = (w', Ok tt) ->
  exists m ch, w_dir w !! n = Some (NDir m true ch) /\
    w_dir w' !! n = Some (NDir (Some now) true (child_set f (NFile (Some now) data) ch)).
Proof.
  unfold write_file. answer. destruct a as [|e [|k]]; [|done..]. rewrite Hd.
  destruct (w_dir w !! n) as [[|m [] ch]|] eqn:E; [done| |done..]. intros [= <-]. exists m, ch. split; [done|].
  rewrite grow_file_dir, firstn_all, Hd. unfold put_file. rewrite E. apply lookup_insert_eq.
Qed.

Lemma build_slot_ok n manifest source w w' file :
  build_slot to_json now read_file n manifest source w = (w', Ok file) ->
  source_bytes read_file source = Ok file /\ w_dir w' !! n = Some (slot_node now file (to_json manifest)).
Proof.
  unfold build_slot, mbind, fsm_bind.
  destruct (create_dir now n w) as [w1 [[]|]] eqn:E1; [|done]. apply create_dir_ok in E1.
  destruct (write_log _ _ _ _ w1) as [w2 [[]|]] eqn:E2; [|done].
  assert (exists log, source_bytes read_file source = Ok log /\
    w_dir w2 !! n = Some (NDir (Some now) true [(LOG, NFile (Some now) log)])) as (log & Hs & H2).
  { unfold write_log, copy_file in E2. destruct source as [p|b]; simpl.
    - destruct (read_file p) as [b|]; [|done]. apply write_file_ok in E2 as (m & ch & Hm & Hw).
      rewrite E1 in Hm. simplify_eq. eauto.
    - apply write_file_ok in E2 as (m & ch & Hm & Hw). rewrite E1 in Hm. simplify_eq. eauto. }
  destruct (open_file n LOG w2) as [w3 [f|]] eqn:E3; [|done].
  assert (f = log /\ w_dir w3 = w_dir w2) as [-> H3].
  { revert E3. unfold open_file. answer. destruct a; [|done]. unfold child. rewrite Hd, H2. simpl.
    intros [= <- <-]. done. }
  destruct (write_file now n MANIFEST _ w3) as [w4 [[]|]] eqn:E4; [|done]. intros [= <- <-].
  apply write_file_ok in E4 as (m & ch & Hm & Hw). rewrite H3, H2 in Hm. simplify_eq. done.
Qed.
End build.

(** ** A fill as a reader sees it *)

Definition is_temp (n : os_name) : Prop := exists s, n = inl (TEMP_PREFIX ++ s).

Section fill_facts.
Context (to_json : SlotManifest -> list N) (from_json : list N -> option SlotManifest).
Context (now : N) (read_file : str -> result io_error (list N)) (root : str).
Context (key : str) (manifest : SlotManifest) (source : LogSource).
Context (Hkey : forall s, key <> TEMP_PREFIX ++ s).

(** Of the entry [key], the old slot, none, or the new one complete; of the other
    entries, temporaries aside, what was there. *)
Definition fill_sees (d0 d : directory) : Prop :=
  (d !! inl key = d0 !! inl key \/ d !! inl key = None \/
   exists log, source_bytes read_file source = Ok log /\
     d !! inl key = Some (slot_node now log (to_json manifest))) /\
  (forall n, n <> inl key -> ~ is_temp n -> d !! n = d0 !! n).

Lemma fill_sees_temp d0 n : is_temp n -> ignores (fill_sees d0) n.
Proof.
  intros [s ->] d o [Hk Hn]. assert (inl (TEMP_PREFIX ++ s) <> inl key :> os_name) by (intros [= E]; by apply (Hkey s)).
  split; [by rewrite lookup_partial_alter_ne|]. intros m Hm Ht. rewrite lookup_partial_alter_ne; [by apply Hn|].
  intros <-. apply Ht. by eexists.
Qed.

Lemma fill_sees_refl d : fill_sees d d.
Proof. split; [by left|done]. Qed.

Lemma temp_is_temp uuid : is_temp (temp_name key uuid).
Proof. by eexists. Qed.

Lemma temp_ne_key uuid : temp_name key uuid <> inl key.
Proof. intros [= E]. by apply (Hkey (key ++ $"-" ++ uuid)). Qed.

(** Moving the old slot aside. *)
Lemma traced_rename_aside d0 uuid w :
  traced (fill_sees d0) (fill_sees d0) w -> traced (fill_sees d0) (fill_sees d0) (rename (inl key) (temp_name key uuid) w).1.
Proof.
  intros Hw. unfold rename. answer. destruct a; [|done]. destruct (w_dir w0 !! inl key) as [x|]; [|done].
  destruct (can_replace _ x); [|done]. apply traced_set; [done| |done].
  apply ignores_insert; [apply fill_sees_temp, temp_is_temp|]. destruct (proj1 Hw) as [_ Hn].
  split; [right; left; apply lookup_delete_eq|]. intros m Hm Ht. rewrite lookup_delete_ne by done. by apply Hn.
Qed.

(** Moving the new slot into place. *)
Lemma traced_rename_in d0 uuid log w :
  source_bytes read_file source = Ok log ->
  w_dir w !! temp_name key uuid = Some (slot_node now log (to_json manifest)) ->
  traced (fill_sees d0) (fill_sees d0) w -> traced (fill_sees d0) (fill_sees d0) (rename (temp_name key uuid) (inl key) w).1.
Proof.
  intros Hs Ht Hw. unfold rename. answer. destruct a; [|done]. rewrite Hd, Ht.
  destruct (can_replace _ _); [|done]. apply traced_set; [done| |done]. destruct (proj1 Hw) as [_ Hn]. rewrite Hd in Hn.
  split; [right; right; exists log; by rewrite lookup_insert_eq|]. intros m Hm Hm'.
  rewrite lookup_insert_ne, lookup_delete_ne by (congruence || (intros <-; apply Hm', temp_is_temp)). by apply Hn.
Qed.

(** The slot that was built is not what moving the old one aside changes. *)
Lemma rename_keeps n m x ch w w' r :
  n <> inl key -> w_dir w !! n = Some (NDir m x ch) -> ch <> [] ->
  forall old, rename (inl key) old w = (w', r) -> w_dir w' !! n = Some (NDir m x ch).
Proof.
  intros Hn Hw Hch old. unfold rename. answer. destruct a; [|by intros [= <- <-]; rewrite Hd].
  destruct (w_dir w0 !! inl key) as [y|] eqn:Ey; [|by intros [= <- <-]; rewrite Hd].
  destruct (can_replace _ y) eqn:Er; intros [= <- <-]; [|by rewrite Hd]. simpl.
  destruct (decide (n = old)) as [->|Hne]; [|by rewrite lookup_insert_ne, lookup_delete_ne by done; rewrite Hd].
  rewrite Hd, Hw in Er. by destruct ch, y.
Qed.

Lemma fill_slot_traced d0 uuid1 uuid2 w w' r :
  fill_slot to_json now read_file root key manifest source uuid1 uuid2 w = (w', r) ->
  traced (fill_sees d0) (fill_sees d0) w -> traced (fill_sees d0) (fill_sees d0) w'.
Proof.
  intros E Hw. unfold fill_slot, create_dir_all in E. revert E. answer.
  destruct a; [|by intros [= <- <-]]. set (temp := temp_name key uuid1). set (old := temp_name key uuid2).
  assert (It : ignores (fill_sees d0) temp) by apply fill_sees_temp, temp_is_temp.
  assert (Io : ignores (fill_sees d0) old) by apply fill_sees_temp, temp_is_temp.
  pose proof (traced_build _ _ now temp (fun _ H => H) It to_json read_file manifest source w0 Hw) as Hb.
  destruct (build_slot _ _ _ _ _ _ w0) as [w1 [file|e]] eqn:Eb; simpl in Hb;
    [|intros [= <- <-]; by apply traced_drop].
  apply build_slot_ok in Eb as [Hs Hnode]. pose proof (traced_rename_aside d0 uuid2 w1 Hb) as Hr.
  fold old in Hr. destruct (rename (inl key) old w1) as [w2 moved] eqn:Er. simpl in Hr.
  eapply rename_keeps in Er; [|apply temp_ne_key|exact Hnode|done].
  pose proof (traced_rename_in d0 uuid1 file w2 Hs Er Hr) as Hi. fold temp in Hi.
  assert (Hfail : forall v, traced (fill_sees d0) (fill_sees d0) v -> traced (fill_sees d0) (fill_sees d0) (drop_temp temp (drop_temp old v)))
    by (intros; by repeat (apply traced_drop; [done..|])).
  destruct (rename temp (inl key) w2) as [w3 [[]|e3]]; simpl in Hi.
  - destruct moved as [[]|[]]; intros [= <- <-]; first [by apply Hfail|by apply traced_drop].
  - destruct moved as [[]|[]]; intros [= <- <-]; by apply Hfail.
Qed.

(** Calls on one entry leave the others. *)
Lemma ignores_entry n k o : n <> k -> ignores (fun d => d !! k = o) n.
Proof. intros Hne d x <-. by rewrite lookup_partial_alter_ne. Qed.

Lemma drop_temp_ne n k w : n <> k -> w_dir (drop_temp n w) !! k = w_dir w !! k.
Proof.
  intros Hne. apply (traced_drop (fun d => d !! k = w_dir w !! k) (fun _ => True)); [done|by apply ignores_entry|].
  split; [done|]. by apply Forall_true.
Qed.

Lemma build_slot_ne n k w :
  n <> k -> w_dir (build_slot to_json now read_file n manifest source w).1 !! k = w_dir w !! k.
Proof.
  intros Hne. apply (traced_build (fun d => d !! k = w_dir w !! k) (fun _ => True)); [done|by apply ignores_entry|].
  split; [done|]. by apply Forall_true.
Qed.

Lemma rename_in_result n k w w' r :
  n <> k -> rename n k w = (w', r) ->
  match r with Ok _ => w_dir w' !! k = w_dir w !! n | Err _ => w_dir w' = w_dir w end.
Proof.
  intros Hne. unfold rename. answer. destruct a; [|by intros [= <- <-]].
  destruct (w_dir w0 !! n) as [x|] eqn:E; [|by intros [= <- <-]].
  destruct (can_replace _ x); intros [= <- <-]; [|done]. simpl. by rewrite lookup_insert_eq, <- E, Hd.
Qed.

Lemma rename_aside_result k n w w' r :
  n <> k -> rename k n w = (w', r) -> w_dir w' !! k = w_dir w !! k \/ w_dir w' !! k = None.
Proof.
  intros Hne. unfold rename. answer. destruct a; [|intros [= <- <-]; rewrite Hd; by left].
  destruct (w_dir w0 !! k) as [x|] eqn:E; [|intros [= <- <-]; rewrite Hd; by left].
  destruct (can_replace _ x); intros [= <- <-]; [|rewrite Hd; by left].
  right. simpl. by rewrite lookup_insert_ne, lookup_delete_eq.
Qed.

(** How a fill ends: with its slot in place, or with the old one or none. *)
Lemma fill_slot_ends uuid1 uuid2 w w' r :
  fill_slot to_json now read_file root key manifest source uuid1 uuid2 w = (w', r) ->
  match r with
  | Ok (path, file) =>
      path = path_push (path_push root key) LOG /\ source_bytes read_file source = Ok file /\
      w_dir w' !! inl key = Some (slot_node now file (to_json manifest))
  | Err _ => w_dir w' !! inl key = w_dir w !! inl key \/ w_dir w' !! inl key = None
  end.
Proof.
  unfold fill_slot, create_dir_all. answer. destruct a; [|intros [= <- <-]; rewrite Hd; by left].
  pose proof (temp_ne_key uuid1) as Ht. pose proof (temp_ne_key uuid2) as Ho.
  set (temp := temp_name key uuid1) in *. set (old := temp_name key uuid2) in *.
  pose proof (build_slot_ne temp (inl key) w0 Ht) as Hb.
  destruct (build_slot _ _ _ _ _ _ w0) as [w1 [file|e]] eqn:Eb; cbn [fst] in Hb;
    [|intros [= <- <-]; left; by rewrite drop_temp_ne, Hb, Hd].
  apply build_slot_ok in Eb as [Hs Hnode]. destruct (rename (inl key) old w1) as [w2 moved] eqn:Er.
  pose proof (rename_aside_result _ _ _ _ _ Ho Er) as Ha. rewrite Hb, Hd in Ha.
  eapply rename_keeps in Er; [|exact Ht|exact Hnode|done].
  assert (Hfail : forall v, w_dir v = w_dir w2 ->
    w_dir (drop_temp temp (drop_temp old v)) !! inl key = w_dir w !! inl key \/
    w_dir (drop_temp temp (drop_temp old v)) !! inl key = None) by (intros v Hv; by rewrite !drop_temp_ne, Hv).
  destruct (rename temp (inl key) w2) as [w3 r3] eqn:E3. apply rename_in_result in E3; [|done].
  destruct r3 as [[]|e3], moved as [[]|[]]; intros [= <- <-]; try (by apply Hfail);
    by rewrite drop_temp_ne, E3, Er.
Qed.

(** The manifest a directory holds under [key], its log aside. *)
Definition held_manifest (d : directory) : option SlotManifest :=
  match child d (inl key) MANIFEST with
  | Some (NFile _ bytes) => m ← from_json bytes; if (version m =? MANIFEST_VERSION)%N then Some m else None
  | _ => None
  end.

(** What a reader makes of two states of a fill. *)
Lemma fill_sees_reads d0 d1 d2 :
  (forall m, from_json (to_json m) = Some m) -> fill_sees d0 d1 ->
  read_manifest_between from_json d1 d2 (inl key) ∈ [None; held_manifest d0; Some manifest].
Proof.
  intros Hj [Hk _]. unfold read_manifest_between.
  destruct (child d2 (inl key) LOG) as [[|]|]; cycle 1.
  { repeat case_match; try destruct (from_json _); simpl; set_solver. }
  { repeat case_match; try destruct (from_json _); simpl; set_solver. }
  assert (Hc : child d1 (inl key) MANIFEST = None \/ child d1 (inl key) MANIFEST = child d0 (inl key) MANIFEST \/
    exists t, child d1 (inl key) MANIFEST = Some (NFile t (to_json manifest))).
  { unfold child. destruct Hk as [->|[->|(log & _ & ->)]]; [by right; left|by left|right; right; by eexists]. }
  destruct Hc as [->|[->|[t ->]]]; [set_solver|unfold held_manifest; set_solver|].
  rewrite Hj. simpl. case_match; set_solver.
Qed.
End fill_facts.

Lemma fill_slot_source to_json now read_file root key manifest source uuid1 uuid2 w w' path file :
  fill_slot to_json now read_file root key manifest source uuid1 uuid2 w = (w', Ok (path, file)) ->
  source_bytes read_file source = Ok file.
Proof.
  unfold fill_slot, create_dir_all. answer. destruct a; [|done].
  destruct (build_slot _ _ _ _ _ _ w0) as [w1 [x|e]] eqn:Eb; [|done]. apply build_slot_ok in Eb as [Hs _].
  destruct (rename (inl key) _ w1) as [w2 moved]. destruct (rename _ (inl key) w2) as [w3 [[]|]];
    destruct moved as [[]|[]]; intros; by simplify_eq.
Qed.

(** C26: a slot is replaced atomically. Whatever calls fail, and wherever the
    process stops, a reader that reads the manifest in one state the directory
    went through and looks for the log in another finds no slot, the manifest
    that was there, or the new one; nothing but the slot and temporary names
    changes. A fill that succeeds leaves its slot complete, with the bytes of
    the log it was given; one that fails leaves the old slot or none. *)
Theorem fill_slot_atomic (to_json : SlotManifest -> list N) from_json now read_file root key manifest
    source uuid1 uuid2 w w' r :
  (forall m, from_json (to_json m) = Some m) -> version manifest = MANIFEST_VERSION ->
  (forall s, key <> TEMP_PREFIX ++ s) -> w_seen w = [] ->
  fill_slot to_json now read_file root key manifest source uuid1 uuid2 w = (w', r) ->
  (forall d1 d2, d1 ∈ w_dir w :: w_dir w' :: w_seen w' -> d2 ∈ w_dir w :: w_dir w' :: w_seen w' ->
     read_manifest_between from_json d1 d2 (inl key) ∈
       [None; held_manifest from_json key (w_dir w); Some manifest]) /\
  (forall d n, d ∈ w_dir w' :: w_seen w' -> n <> inl key -> ~ is_temp n -> d !! n = w_dir w !! n) /\
  match r with
  | Ok (path, file) =>
      read_any_manifest from_json (w_dir w') (inl key) = Some manifest /\
      source_bytes read_file source = Ok file /\ child (w_dir w') (inl key) LOG = Some (NFile (Some now) file)
  | Err _ => w_dir w' !! inl key = w_dir w !! inl key \/ w_dir w' !! inl key = None
  end.
Proof.
  intros Hj Hv Hkey Hseen E.
  assert (Ht : traced (fill_sees to_json now read_file key manifest source (w_dir w))
    (fill_sees to_json now read_file key manifest source (w_dir w)) w').
  { eapply fill_slot_traced; [done|done|]. split; [apply fill_sees_refl|by rewrite Hseen]. }
  destruct Ht as [Hn Hs]. rewrite Forall_forall in Hs. split_and!.
  - intros d1 d2 Hd1 _. apply (fill_sees_reads to_json from_json now read_file key manifest source); [done..|].
    apply elem_of_cons in Hd1 as [->|[->|Hd1]%elem_of_cons]; [apply fill_sees_refl|done|auto].
  - intros d n Hd. apply elem_of_cons in Hd as [->|Hd]; [apply Hn|by apply Hs].
  - eapply fill_slot_ends in E; [|done]. destruct r as [[path file]|]; [|done]. destruct E as (_ & Hb & Hk).
    unfold read_any_manifest, read_manifest_between, child. rewrite Hk. simpl. by rewrite Hj; simpl; rewrite Hv.
Qed.

(** A manifest as a list of numbers, for concrete runs. *)
Definition sample_json (m : SlotManifest) : list N :=
  version m :: failed_at m :: N.of_nat (length (m_addr m)) :: m_addr m ++ hashin m.
Definition sample_parse (b : list N) : option SlotManifest :=
  match b with
  | v :: t :: n :: r => Some (mkManifest v (take (N.to_nat n) r) (drop (N.to_nat n) r) t)
  | _ => None
  end.
Lemma sample_json_parse m : sample_parse (sample_json m) = Some m.
Proof.
  destruct m as [v a h t]. unfold sample_json. simpl. by rewrite Nat2N.id, take_app_length, drop_app_length.
Qed.

(** A home where the slot [k] is already filled. *)
Definition sample_old : SlotManifest := mkManifest 1 $"//p:x" $"h0" 5.
Definition sample_new : SlotManifest := mkManifest 1 $"//p:x" $"h1" 9.
Definition sample_world (answers : list fs_answer) : world :=
  mkWorld {[ inl $"k" := slot_node 5 $"old" (sample_json sample_old) ]} answers [].
Definition sample_fill (answers : list fs_answer) : world * result io_error (str * list N) :=
  fill_slot sample_json 9 (fun _ => Err IoNotFound) $"/h/failures" $"k" sample_new (SrcBytes $"new") $"u1" $"u2"
    (sample_world answers).

(** A fill that goes through, and one whose last rename fails: the old slot has
    been moved aside by then, and is gone. *)
Lemma fill_slot_atomic_witness :
  (sample_fill []).2 = Ok ($"/h/failures/k/log.txt", $"new") /\
  read_any_manifest sample_parse (w_dir (sample_fill []).1) (inl $"k") = Some sample_new /\
  (sample_fill [Done; Done; Done; Done; Done; Done; Fails IoOther 0]).2 = Err IoOther /\
  w_dir (sample_fill [Done; Done; Done; Done; Done; Done; Fails IoOther 0]).1 !! inl $"k" = None.
Proof.
  split; [by vm_compute|]. split; [|by vm_compute].
  destruct (sample_fill []) as [w' r] eqn:E.
  destruct (fill_slot_atomic sample_json sample_parse 9 (fun _ => Err IoNotFound) $"/h/failures" $"k" sample_new
    (SrcBytes $"new") $"u1" $"u2" (sample_world []) w' r sample_json_parse eq_refl ltac:(by intros s [=]) eq_refl E)
    as (_ & _ & Hr).
  assert (r = Ok ($"/h/failures/k/log.txt", $"new")) as -> by (apply (f_equal snd) in E; by vm_compute in E).
  apply Hr.
Defined.

(** ** What the failure box shows *)

Lemma tail_of_spec data script n :
  match tail_of data script n with Ok t => t = log_tail data n | Err _ => ~ no_fault script end.
Proof.
  unfold tail_of. destruct (read_tail_spec (N.of_nat (length data)) (S (length data + length script)) n script
    (HL := file_reader data)) as (s' & r & -> & _ & _ & Hr); [rewrite Nat2N.id; lia|].
  rewrite Nat2N.id, firstn_all in Hr. destruct r; [done|]. intros H. by apply Hr.
Qed.

Lemma memory_tail_spec reads_answer read_file source n :
  match memory_tail read_file reads_answer source n with
  | Ok t => exists bytes, source_bytes read_file source = Ok bytes /\ t = log_tail bytes n
  | Err _ => is_ok (source_bytes read_file source) = true -> ~ no_fault reads_answer
  end.
Proof.
  destruct source as [p|b]; simpl.
  - destruct (read_file p) as [data|e]; simpl; [|done]. pose proof (tail_of_spec data reads_answer n) as H.
    destruct (tail_of data reads_answer n); [eauto|done].
  - destruct (read_tail_spec (N.of_nat (length b)) (S (length b)) n tt (HL := bytes_reader b))
      as (s' & r & -> & _ & _ & Hr); [rewrite Nat2N.id; lia|].
    rewrite Nat2N.id, firstn_all in Hr. destruct r; [eauto|]. destruct Hr. done.
Qed.

(** A log is read from a regular file inside one of the roots, links resolved. *)
Definition log_within canonicalize is_file (roots : list str) (path real : str) : Prop :=
  canonicalize path = Ok real /\ is_file real = @Ok io_error _ true /\
  exists root r, root ∈ roots /\ canonicalize root = @Ok io_error _ r /\ path_starts_with real r = true.

Lemma resolve_in_roots_ok canonicalize is_file path roots real :
  resolve_in_roots canonicalize is_file path roots = Ok (Some real) ->
  log_within canonicalize is_file roots path real.
Proof.
  unfold resolve_in_roots, log_within. destruct (canonicalize path) as [p|[]]; [|done..].
  destruct (existsb _ roots) eqn:E; [|done]. simpl. destruct (is_file p) as [[]|] eqn:F; [|done..]. intros [= <-].
  split_and!; [done..|]. apply existsb_exists in E as (root & Hin & Hr). exists root.
  destruct (canonicalize root) as [r|]; [|done]. exists r. by rewrite list_elem_of_In.
Qed.

(** What a fill may take the log from. *)
Definition log_taken canonicalize is_file read_file (f : Fill) (bytes : list N) : Prop :=
  match select_log (f_carried f) with
  | Some (SrcBytes b) => b = bytes
  | Some (SrcFile p) => exists real, log_within canonicalize is_file (f_roots f) p real /\ read_file real = @Ok io_error _ bytes
  | None => False
  end.

(** The failure box shows the log the failure carried and no other. A fill
    that returns a log took it from the bytes the failure carries, or from a
    regular file that, with its links resolved, is inside one of the run's roots;
    its tail is the tail of that log, now and however often it is read; and for
    credential material it is only ever in memory: the directory and what the
    engine knows of it are left as they were. *)
Theorem fill_shows_carried (digest128 : list N -> N) to_json now now_ms read_file canonicalize is_file
    reads_answer root f uuid1 uuid2 w known w' known' l :
  fill digest128 to_json now now_ms read_file canonicalize is_file reads_answer root f uuid1 uuid2 w known =
    (w', known', Some l) ->
  (exists bytes, log_taken canonicalize is_file read_file f bytes /\
     forall script, match FailureLog_tail script l with
                    | Ok t => t = log_tail bytes (f_lines f)
                    | Err _ => ~ no_fault script
                    end) /\
  (f_material f = true -> w' = w /\ known' = known /\ fl_path l = None).
Proof.
  unfold fill, fill_blocking, log_taken. destruct (select_log (f_carried f)) as [source|]; [|done].
  set (resolved := match source with SrcFile _ => _ | SrcBytes _ => _ end).
  destruct resolved as [src|out] eqn:Er; cycle 1.
  { destruct source as [p|]; [|done]. unfold resolved in Er.
    by destruct (resolve_in_roots _ _ p _) as [[]|]; simplify_eq. }
  assert (Htaken : forall bytes, source_bytes read_file src = Ok bytes ->
    match source with SrcBytes b => b = bytes | SrcFile p => exists real,
      log_within canonicalize is_file (f_roots f) p real /\ read_file real = Ok bytes end).
  { intros bytes Hb. destruct source as [p|]; unfold resolved in Er; [|by simplify_eq/=].
    destruct (resolve_in_roots _ _ p _) as [[real|]|] eqn:E; simplify_eq/=. eauto using resolve_in_roots_ok. }
  clearbody resolved. pose proof (memory_tail_spec reads_answer read_file src (f_lines f)) as Hm.
  destruct (f_material f) eqn:Em.
  - destruct (memory_tail _ _ src _) as [t|]; [|done]. intros [= <- <- <-]. destruct Hm as (b & Hb & ->).
    split; [|done]. exists b. split; [by apply Htaken|done].
  - split; [|done]. destruct (fill_slot _ _ _ _ _ _ src _ _ w) as [w1 [[path file]|e]] eqn:Ef.
    + simplify_eq. eapply fill_slot_source in Ef. exists file. split; [by apply Htaken|].
      intros script. apply tail_of_spec.
    + destruct (memory_tail _ _ src _) as [t|]; simplify_eq/=. destruct Hm as (b & Hb & ->).
      exists b. split; [by apply Htaken|done].
Qed.

Definition sample_failure (material : bool) : Fill :=
  mkFill (mkAddr $"p" $"x" []) $"h1" [$"/s"]
    (with_failure_artifacts None
      [mkArtifact [] $"log.txt" OaLog (OaFile $"/s/log.txt" $"log.txt" false false) []]) 2 material.
Definition sample_run (material : bool) :=
  fill (fun _ => 5%N) sample_json 9 9000 (fun _ => Ok sample_log) (fun p => Ok p) (fun _ => Ok true) []
    $"/h/failures" (sample_failure material) $"u1" $"u2" (sample_world []) None.

Lemma fill_shows_carried_witness :
  (sample_run false).2 = Some (FailureLog_open $"/h/failures/p_x-00000000000000000000000000000005/log.txt" sample_log 2) /\
  (sample_run true).1.1 = sample_world [] /\
  exists l bytes, (sample_run true).2 = Some l /\
    log_taken (fun p => Ok p) (fun _ => Ok true) (fun _ => Ok sample_log) (sample_failure true) bytes /\
    FailureLog_tail [Short 1] l = Ok (log_tail bytes 2).
Proof.
  split; [by vm_compute|]. destruct (sample_run true) as [[w k] [l|]] eqn:E; [|by vm_compute in E].
  destruct (fill_shows_carried _ _ _ _ _ _ _ _ _ _ _ _ _ _ _ _ l E) as [(bytes & Hb & Ht) Hm].
  destruct (Hm eq_refl) as (-> & _ & _). split; [done|]. exists l, bytes. split; [done|]. split; [exact Hb|].
  pose proof (Ht [Short 1]) as H. destruct (FailureLog_tail [Short 1] l) as [t|].
  - by rewrite H.
  - destruct H. unfold no_fault. set_solver.
Defined.

(** ** The slots an engine knows *)

(** Every slot there is one the engine would clear. *)
Definition tracks (d : directory) (known : option (gset str)) : Prop :=
  forall s, starts_with $"." s = false -> is_Some (d !! inl s) -> s ∈ known_slots d known.

Lemma list_slots_spec d s :
  s ∈ list_slots d <-> starts_with $"." s = false /\ is_Some (d !! inl s).
Proof.
  unfold list_slots. rewrite elem_of_list_to_set, list_elem_of_omap. split.
  - intros ([n x] & Hin%elem_of_map_to_list & Hn). destruct n as [t|]; [|done].
    destruct (starts_with _ t) eqn:E; simplify_eq. eauto.
  - intros [Hs [x Hx]]. exists (inl s, x). rewrite elem_of_map_to_list. by rewrite Hs.
Qed.

(** On first use the listing is exact. *)
Lemma tracks_first_use d : tracks d None.
Proof. intros s Hs Hd. by apply list_slots_spec. Qed.

Lemma remove_children_delete n k w : delete n (w_dir (remove_children n k w)) = delete n (w_dir w).
Proof.
  unfold remove_children. generalize (seq 0 k). intros l. revert w. induction l as [|i l IH]; intros w; [done|].
  simpl. rewrite IH. destruct (w_dir w !! n) as [[|m o [|c ch]]|]; [done..| |done]. simpl. by rewrite delete_insert_eq.
Qed.

Lemma drop_temp_done n w :
  w_answers w = [] -> (forall x, w_dir w !! n = Some x -> exists m ch, x = NDir m true ch) ->
  w_dir (drop_temp n w) = delete n (w_dir w).
Proof.
  intros Ha Hx. unfold drop_temp, remove_dir_all, next. rewrite Ha. simpl.
  destruct (w_dir w !! n) as [x|] eqn:E; [|by rewrite delete_id].
  destruct (Hx x eq_refl) as (m & ch & ->). simpl. apply remove_children_delete.
Qed.

(** When its target next resolves, a slot goes: nothing else does, and the
    engine still knows every slot left. *)
Lemma clear_exact digest128 addr w known :
  tracks (w_dir w) known -> starts_with $"." (addr_key digest128 addr) = false -> w_answers w = [] ->
  (forall x, w_dir w !! inl (addr_key digest128 addr) = Some x -> exists m ch, x = NDir m true ch) ->
  let '(w', known') := clear digest128 addr w known in
  w_dir w' = delete (inl (addr_key digest128 addr)) (w_dir w) /\ tracks (w_dir w') known'.
Proof.
  intros Ht Hdot Ha Hx. unfold clear. set (key := addr_key digest128 addr) in *. set (K := known_slots _ known) in *.
  assert (Hgone : key ∉ K -> w_dir w = delete (inl key) (w_dir w) /\ tracks (w_dir w) (Some K)).
  { intros Hk. split; [|by intros s; apply Ht]. symmetry. apply delete_id. destruct (w_dir w !! inl key) eqn:E; [|done].
    destruct Hk. apply Ht; [done|by eexists]. }
  destruct (decide (K = ∅)) as [HK|HK]; [apply Hgone; set_solver|].
  destruct (decide (key ∈ K)) as [Hk|Hk]; [|by apply Hgone].
  rewrite drop_temp_done by done. split; [done|]. intros s Hs Hd. simpl.
  assert (s <> key) by (intros ->; rewrite lookup_delete_eq in Hd; by destruct Hd).
  rewrite lookup_delete_ne in Hd by congruence. apply elem_of_difference. split; [by apply Ht|set_solver].
Qed.

Section engine.
Context (digest128 : list N -> N) (to_json : SlotManifest -> list N).
Context (now now_ms : N) (read_file : str -> result io_error (list N))
  (canonicalize : str -> result io_error str) (is_file : str -> result io_error bool)
  (reads_answer : list answer) (root : str).

(** What an engine does with its slots: a failed run fills one, whatever the
    calls answer; a target that resolves clears its own. *)
Inductive slot_op :=
| OpFill (f : Fill) (uuid1 uuid2 : str) (answers : list fs_answer)
| OpClear (addr : Addr).

Abbreviation slots_state := (directory * option (gset str))%type.

Definition run_op (op : slot_op) (st : slots_state) : slots_state :=
  match op with
  | OpFill f uuid1 uuid2 answers =>
      let '(w, known, _) := fill digest128 to_json now now_ms read_file canonicalize is_file reads_answer
        root f uuid1 uuid2 (mkWorld st.1 answers []) st.2 in (w_dir w, known)
  | OpClear addr =>
      let '(w, known) := clear digest128 addr (mkWorld st.1 [] []) st.2 in (w_dir w, known)
  end.

(** The engine knows every slot, and every slot is a directory it may read. *)
Definition slots_inv (st : slots_state) : Prop :=
  tracks st.1 st.2 /\
  forall s x, starts_with $"." s = false -> st.1 !! inl s = Some x -> exists m ch, x = NDir m true ch.

(** A visible name is not a temporary one. *)
Lemma visible_not_temp s : starts_with $"." s = false -> ~ is_temp (inl s).
Proof. intros Hs [t [= ->]]. done. Qed.

Lemma addr_key_visible addr :
  (forall s, addr_key digest128 addr <> TEMP_PREFIX ++ s) /\ starts_with $"." (addr_key digest128 addr) = false.
Proof. split; [intros s; by apply addr_key_not_temp|by apply (addr_key_not_temp _ _ [])]. Qed.

(** What the directory is after the blocking part of a fill. *)
Lemma fill_blocking_dir f source uuid1 uuid2 d answers w out :
  let key := addr_key digest128 (f_addr f) in
  fill_blocking digest128 to_json now now_ms read_file canonicalize is_file reads_answer root f source
    uuid1 uuid2 (mkWorld d answers []) = (w, out) ->
  (forall n, n <> inl key -> ~ is_temp n -> w_dir w !! n = d !! n) /\
  match out with
  | FilledSlot k _ => k = key /\ exists m ch, w_dir w !! inl key = Some (NDir m true ch)
  | _ => w_dir w !! inl key = d !! inl key \/ w_dir w !! inl key = None
  end.
Proof.
  intros key. unfold fill_blocking. set (m := mkManifest _ _ _ _). set (resolved := match source with SrcFile _ => _ | SrcBytes _ => _ end).
  assert (Hout : match resolved with Err out => forall k l, out <> FilledSlot k l | Ok _ => True end).
  { unfold resolved. destruct source as [p|]; [|done]. by destruct (resolve_in_roots _ _ p _) as [[]|]. }
  destruct resolved as [src|o]; [|intros [= <- <-]; split; [done|]; destruct o; naive_solver].
  destruct (f_material f).
  { destruct (memory_tail _ _ src _); intros [= <- <-]; (split; [done|by left]). }
  destruct (fill_slot _ _ _ _ _ _ src _ _ _) as [w1 r] eqn:Ef.
  assert (Ht : traced (fill_sees to_json now read_file key m src d) (fill_sees to_json now read_file key m src d) w1).
  { eapply fill_slot_traced; [apply addr_key_visible|exact Ef|]. split; [apply fill_sees_refl|done]. }
  apply fill_slot_ends in Ef; [|apply addr_key_visible]. fold key in Ef.
  destruct r as [[path file]|e]; intros [= <- <-]; (split; [apply Ht|]).
  - split; [done|]. destruct Ef as (_ & _ & ->). unfold slot_node. eauto.
  - done.
Qed.

(** One slot changes: it stays, goes, or comes and is remembered. *)
Lemma slots_inv_update d d' known known' key :
  slots_inv (d, known) ->
  (forall s, s <> key -> starts_with $"." s = false -> d' !! inl s = d !! inl s) ->
  ((d' !! inl key = d !! inl key \/ d' !! inl key = None) /\ known' = known) \/
  ((exists m ch, d' !! inl key = Some (NDir m true ch)) /\ known' = Some (known_slots d' known ∪ {[key]})) ->
  slots_inv (d', known').
Proof.
  intros [Ht Hdir] Hold Hk. unfold slots_inv in *. cbn [fst snd] in *.
  assert (Hknown : forall s, starts_with $"." s = false -> is_Some (d' !! inl s) ->
    d' !! inl s = d !! inl s -> s ∈ known_slots d' known).
  { intros s Hs Hd Heq. destruct known as [K|]; [apply Ht; [done|by rewrite <- Heq]|by apply list_slots_spec]. }
  split.
  - intros s Hs Hd. destruct (decide (s = key)) as [->|Hne].
    + destruct Hk as [[[E|E] ->]|[_ ->]]; [by apply Hknown|rewrite E in Hd; by destruct Hd|simpl; set_solver].
    + assert (s ∈ known_slots d' known) by (apply Hknown; auto).
      destruct Hk as [[_ ->]|[_ ->]]; [done|simpl; set_solver].
  - intros s x Hs Hx. destruct (decide (s = key)) as [->|Hne]; [|rewrite Hold in Hx by done; by eapply Hdir].
    destruct Hk as [[[E|E] _]|[(m & ch & E) _]]; rewrite E in Hx; [by eapply Hdir|done|naive_solver].
Qed.

Lemma run_op_inv op st : slots_inv st -> slots_inv (run_op op st).
Proof.
  destruct st as [d known]. intros Hinv. unfold run_op. cbn [fst snd]. destruct op as [f u1 u2 answers|addr].
  - unfold fill. destruct (select_log (f_carried f)) as [source|]; [|done].
    destruct (fill_blocking _ _ _ _ _ _ _ _ _ f source u1 u2 _) as [w out] eqn:Ef.
    apply fill_blocking_dir in Ef as [Hn Hk].
    assert (Hold : forall s, s <> addr_key digest128 (f_addr f) -> starts_with $"." s = false ->
      w_dir w !! inl s = d !! inl s) by (intros s Hs Hv; apply Hn; [congruence|by apply visible_not_temp]).
    destruct out as [| |k l|]; cbn [fst]; eapply slots_inv_update; eauto; [right]. destruct Hk as [-> Hk]. done.
  - destruct Hinv as [Ht Hdir]. pose proof (clear_exact digest128 addr (mkWorld d [] []) known Ht (proj2 (addr_key_visible addr)) eq_refl
      ltac:(by intros; eapply Hdir; [apply addr_key_visible|])) as Hc.
    destruct (clear _ addr _ known) as [w k]. cbn [fst snd w_dir] in *. destruct Hc as [-> Htr]. split; [done|].
    cbn [fst snd] in *. intros s x Hs Hx%lookup_delete_Some. naive_solver.
Qed.

Definition run_ops (ops : list slot_op) (st : slots_state) : slots_state := foldl (fun st op => run_op op st) st ops.

Lemma run_ops_inv ops st : slots_inv st -> slots_inv (run_ops ops st).
Proof. revert st. induction ops as [|op ops IH]; intros st H; [done|]. by apply IH, run_op_inv. Qed.
End engine.

(** A slot does not outlive the failure it reports. In any run of an engine
    over a home, whatever its fills' calls answered, when a target resolves its
    slot is removed, whether it was there before the engine started or was filled
    since; the other slots are left as they were, and every one of them is still
    known to the engine. *)
Theorem resolved_slot_cleared digest128 to_json from_json now now_ms read_file canonicalize is_file
    reads_answer root d ops addr :
  (forall s x, starts_with $"." s = false -> d !! inl s = Some x -> exists m ch, x = NDir m true ch) ->
  let run := run_ops digest128 to_json now now_ms read_file canonicalize is_file reads_answer root in
  let before := run ops (d, None) in
  let after := run (ops ++ [OpClear addr]) (d, None) in
  read_slot digest128 from_json after.1 addr = None /\
  after.1 = delete (inl (addr_key digest128 addr)) before.1 /\ tracks after.1 after.2.
Proof.
  intros Hd run before after. assert (Hb : slots_inv before).
  { apply run_ops_inv. split; [apply tracks_first_use|done]. }
  assert (Ha : after = run_op digest128 to_json now now_ms read_file canonicalize is_file reads_answer root (OpClear addr) before)
    by (unfold after, run, run_ops; by rewrite foldl_app).
  destruct before as [d1 k1]. destruct Hb as [Ht Hdir]. cbn [fst snd] in *.
  pose proof (clear_exact digest128 addr (mkWorld d1 [] []) k1 Ht (proj2 (addr_key_visible digest128 addr)) eq_refl
    ltac:(by intros; eapply Hdir; [apply addr_key_visible|])) as Hc.
  rewrite Ha. unfold run_op. cbn [fst snd]. destruct (clear _ addr _ k1) as [w k]. cbn [fst snd w_dir] in *.
  destruct Hc as [-> Htr]. split_and!; [|done..].
  unfold read_slot, read_manifest, read_any_manifest, read_manifest_between, child. by rewrite lookup_delete_eq.
Qed.

Lemma resolved_slot_cleared_witness :
  (run_ops (fun _ => 5%N) sample_json 9 9000 (fun _ => Ok sample_log) (fun p => Ok p) (fun _ => Ok true) []
    $"/h/failures" [OpFill (sample_failure false) $"u1" $"u2" []; OpClear (mkAddr $"p" $"x" [])]
    (w_dir (sample_world []), None)).1 = w_dir (sample_world []).
Proof.
  pose proof (resolved_slot_cleared (fun _ => 5%N) sample_json sample_parse 9 9000 (fun _ => Ok sample_log)
    (fun p => Ok p) (fun _ => Ok true) [] $"/h/failures" (w_dir (sample_world []))
    [OpFill (sample_failure false) $"u1" $"u2" []] (mkAddr $"p" $"x" [])) as H.
  destruct H as (_ & -> & _); [|by vm_compute].
  intros s x _ Hx. simpl in Hx. apply lookup_singleton_Some in Hx as [_ <-]. unfold slot_node. eauto.
Defined.
