(* ===== verification/FailureGc.v ===== *)
(** The sweep of the failure slots: [crates/engine/src/engine/failure_gc.rs].

    The sweep lists [<home>/failures], resolves the targets of the recent slots,
    and removes what is aged, dead or litter. Runs go on meanwhile: the directory
    at removal need not be the one that was scanned, a slot is removed under its
    target's execute lock and only if its manifest is still the one scanned, and
    litter is looked at again. *)
From S2P Require Import Prelude Numerals Nom HtPkg HtAddr HtIntern LogTail AddrKey.
From S2P Require Import HtValue Wire WireDef FailureSlot.

(** ** Data *)

(** [LITTER_MIN_AGE], in nanoseconds as all instants here. *)
Definition LITTER_MIN_AGE : N := 60 * 1000000000.

Record FailureGcStats := mkStats {
  removed : nat; bytes_removed : N; kept : nat; locked : nat; errored : nat
}.
Definition stats0 : FailureGcStats := mkStats 0 0 0 0 0.

(** [Slot], [Scan] and [Verdict]. *)
Record Slot := mkSlot { sl_dir : os_name; sl_addr : Addr; sl_failed_at : N }.
Record Scan := mkScan { sc_slots : list Slot; sc_litter : list os_name; sc_errored : nat }.
Inductive Verdict := Live | Dead | Unknown.

(** What [try_lock_execute] answers. *)
Inductive lock_answer := LockTaken | LockBusy | LockFailed.

(** ** Sizes and removal *)

(** [tree_size]. *)
Fixpoint tree_size (x : node) : N :=
  match x with
  | NFile _ data => N.of_nat (length data)
  | NDir _ mode_ok ch =>
      if mode_ok then
        (fix go (acc : N) (l : list (str * node)) : N :=
           match l with
           | [] => acc
           | (_, y) :: r => go (saturating_add acc (tree_size y)) r
           end) 0%N ch
      else 0%N
  end.

Definition mtime_of (x : node) : option N :=
  match x with NFile t _ | NDir t _ _ => t end.

(** [is_litter]. *)
Definition is_litter (d : directory) (n : os_name) (now : N) : bool :=
  match d !! n ≫= mtime_of with
  | Some t => (LITTER_MIN_AGE <=? now - t)%N
  | None => false
  end.

(** [set_permissions(path, 0o700)]. *)
Definition make_readable (n : os_name) : fsm unit := fun w =>
  match next w with
  | (Fails e _, w) => (w, Err e)
  | (Done, w) =>
      match w_dir w !! n with
      | Some (NDir t _ ch) => (set_dir (<[n := NDir t true ch]> (w_dir w)) w, Ok tt)
      | Some (NFile _ _) => (w, Ok tt)
      | None => (w, Err IoNotFound)
      end
  end.

Definition size_at (d : directory) (n : os_name) : N :=
  match d !! n with Some x => tree_size x | None => 0 end.

(** How [remove_dir] ends. *)
Definition removed_bytes (bytes : N) (r : result io_error unit) : result io_error (option N) :=
  match r with
  | Ok _ => Ok (Some bytes)
  | Err IoNotFound => Ok None
  | Err e => Err e
  end.

(** [remove_dir]. *)
Definition remove_dir (n : os_name) : fsm (option N) := fun w =>
  match next w with
  | (Fails IoNotFound _, w) => (w, Ok None)
  | (Fails e _, w) => (w, Err e)
  | (Done, w) =>
      match w_dir w !! n with
      | None => (w, Ok None)
      | Some (NFile _ data) =>
          match next w with
          | (Done, w) => (set_dir (delete n (w_dir w)) w, Ok (Some (N.of_nat (length data))))
          | (Fails e _, w) => (w, removed_bytes 0 (Err e))
          end
      | Some (NDir _ _ _ as x) =>
          let bytes := tree_size x in
          match remove_dir_all n w with
          | (w, Err IoPermissionDenied) =>
              match make_readable n w with
              | (w, Err e) => (w, Err e)
              | (w, Ok _) =>
                  let bytes := size_at (w_dir w) n in
                  let (w, r) := remove_dir_all n w in (w, removed_bytes bytes r)
              end
          | (w, r) => (w, removed_bytes bytes r)
          end
      end
  end.

(** The [remove] closure of [remove_failure_slots]. *)
Definition remove_counted (n : os_name) (st : world * FailureGcStats) : world * FailureGcStats :=
  let '(w, s) := st in
  match remove_dir n w with
  | (w, Ok (Some bytes)) =>
      (w, mkStats (S (removed s)) (saturating_add (bytes_removed s) bytes) (kept s) (locked s) (errored s))
  | (w, Ok None) => (w, s)
  | (w, Err _) => (w, mkStats (removed s) (bytes_removed s) (kept s) (locked s) (S (errored s)))
  end.

(** ** The sweep *)

Section gc.
Context {nom : Nom}.
Variable digest128 : list N -> N.
Variable from_json : list N -> option SlotManifest.
(** [get_spec] of a slot's address, [None] when its task panicked, and the
    execute locks. *)
Variable resolve : Addr -> option Verdict.
Variable try_lock : Addr -> lock_answer.

(** One entry of [scan]. *)
Definition scan_entry (d : directory) (now : N) (n : os_name) (sc : Scan) : Scan :=
  let litter := if is_litter d n now then mkScan (sc_slots sc) (sc_litter sc ++ [n]) (sc_errored sc) else sc in
  match n with
  | inr _ => litter
  | inl name =>
      if starts_with TEMP_PREFIX name then litter
      else
        let slot :=
          m ← read_any_manifest from_json d n;
          match parse_addr (m_addr m) with
          | Ok addr => if decide (addr_key digest128 addr = name) then Some (mkSlot n addr (failed_at m)) else None
          | Err _ => None
          end in
        match slot with
        | Some s => mkScan (sc_slots sc ++ [s]) (sc_litter sc) (sc_errored sc)
        | None => litter
        end
  end.

(** [scan], of what [read_dir] listed. *)
Definition scan (listing : result io_error (list (result io_error os_name))) (d : directory) (now : N) : Scan :=
  match listing with
  | Err IoNotFound => mkScan [] [] 0
  | Err _ => mkScan [] [] 1
  | Ok entries =>
      foldl (fun sc e =>
        match e with
        | Ok n => scan_entry d now n sc
        | Err _ => mkScan (sc_slots sc) (sc_litter sc) (S (sc_errored sc))
        end) (mkScan [] [] 0) entries
  end.

(** [resolve_dead]: [(dead, kept, errored)]. *)
Fixpoint resolve_dead (slots : list Slot) : list Slot * nat * nat :=
  match slots with
  | [] => ([], 0, 0)
  | s :: r =>
      let '(dead, kept, errored) := resolve_dead r in
      match resolve (sl_addr s) with
      | Some Dead => (s :: dead, kept, errored)
      | Some Live => (dead, S kept, errored)
      | Some Unknown => (dead, S kept, S errored)
      | None => (dead, kept, S errored)
      end
  end.

(** [remove_failure_slots]: the loop over [litter], then the one over [doomed]. *)
Fixpoint remove_litter (now : N) (litter : list os_name) (st : world * FailureGcStats) : world * FailureGcStats :=
  match litter with
  | [] => st
  | n :: r => remove_litter now r (if is_litter (w_dir st.1) n now then remove_counted n st else st)
  end.

Definition remove_slot (slot : Slot) (st : world * FailureGcStats) : world * FailureGcStats :=
  let '(w, s) := st in
  match try_lock (sl_addr slot) with
  | LockBusy => (w, mkStats (removed s) (bytes_removed s) (kept s) (S (locked s)) (errored s))
  | LockFailed => (w, mkStats (removed s) (bytes_removed s) (kept s) (locked s) (S (errored s)))
  | LockTaken =>
      match read_any_manifest from_json (w_dir w) (sl_dir slot) with
      | Some m =>
          if (failed_at m =? sl_failed_at slot)%N then remove_counted (sl_dir slot) st
          else (w, mkStats (removed s) (bytes_removed s) (S (kept s)) (locked s) (errored s))
      | None => st
      end
  end.
Fixpoint remove_doomed (doomed : list Slot) (st : world * FailureGcStats) : world * FailureGcStats :=
  match doomed with
  | [] => st
  | s :: r => remove_doomed r (remove_slot s st)
  end.
Definition remove_failure_slots (litter : list os_name) (doomed : list Slot) (now : N) (w : world) :
    world * FailureGcStats :=
  remove_doomed doomed (remove_litter now litter (w, stats0)).

(** Whole milliseconds of an instant or a duration, as a [u64]. *)
Definition to_ms (ns : N) : N := N.min (ns / 1000000) u64_max.
Definition aged (now max_age : N) (s : Slot) : bool :=
  (to_ms max_age <=? saturating_sub (to_ms now) (sl_failed_at s))%N.

(** [gc_failure_slots_at]: [d] is the directory scanned, [w] the one at removal. *)
Definition gc_failure_slots_at (listing : result io_error (list (result io_error os_name))) (d : directory)
    (now max_age : N) (w : world) : world * FailureGcStats :=
  let sc := scan listing d now in
  let doomed := List.filter (aged now max_age) (sc_slots sc) in
  let recent := List.filter (fun s => negb (aged now max_age s)) (sc_slots sc) in
  let '(dead, kept1, errored1) := resolve_dead recent in
  let '(w, r) := remove_failure_slots (sc_litter sc) (doomed ++ dead) now w in
  (w, mkStats (removed r) (bytes_removed r) (kept1 + kept r) (locked r) (sc_errored sc + errored1 + errored r)).
End gc.

(** ** Removal of one entry *)

Lemma remove_dir_all_ne n k w : n <> k -> w_dir (remove_dir_all n w).1 !! k = w_dir w !! k.
Proof. exact (drop_temp_ne n k w). Qed.

Lemma make_readable_ne n k w : n <> k -> w_dir (make_readable n w).1 !! k = w_dir w !! k.
Proof.
  intros Hne. unfold make_readable. answer. rewrite <- Hd. destruct a; [|done].
  destruct (w_dir w0 !! n) as [[]|]; simpl; [done|by rewrite lookup_insert_ne|done].
Qed.

Lemma remove_dir_ne n k w : n <> k -> w_dir (remove_dir n w).1 !! k = w_dir w !! k.
Proof.
  intros Hne. unfold remove_dir. answer. rewrite <- Hd. destruct a as [|[]]; [|done..].
  destruct (w_dir w0 !! n) as [[t data|t o ch]|] eqn:E; [| |done].
  - clear Hd. answer. rewrite <- Hd. destruct a; simpl; [by rewrite lookup_delete_ne|done].
  - pose proof (remove_dir_all_ne n k w0 Hne) as H1. destruct (remove_dir_all n w0) as [w1 r1]. cbn [fst] in H1.
    rewrite <- H1. destruct r1 as [|[]]; [done|done| |done..].
    pose proof (make_readable_ne n k w1 Hne) as H2. destruct (make_readable n w1) as [w2 [[]|]]; cbn [fst] in H2; [|done].
    rewrite <- H2. pose proof (remove_dir_all_ne n k w2 Hne) as H3. by destruct (remove_dir_all n w2) as [w3 r3].
Qed.

Lemma remove_children_answers n k w : w_answers (remove_children n k w) = w_answers w.
Proof.
  unfold remove_children. generalize (seq 0 k). intros l. revert w. induction l as [|i l IH]; intros w; [done|].
  simpl. rewrite IH. by destruct (w_dir w !! n) as [[|m o [|c ch]]|].
Qed.

(** When no call fails, a directory its owner may read is removed. *)
Lemma remove_dir_all_done n w t ch :
  w_answers w = [] -> w_dir w !! n = Some (NDir t true ch) ->
  exists w', remove_dir_all n w = (w', Ok tt) /\ w_dir w' = delete n (w_dir w) /\ w_answers w' = [].
Proof.
  intros Ha Hn. unfold remove_dir_all, next. rewrite Ha, Hn. eexists. split; [done|]. simpl.
  by rewrite remove_children_delete, remove_children_answers.
Qed.

(** When no call fails, the entry goes, a directory without permissions too. *)
Lemma remove_dir_done n w :
  w_answers w = [] ->
  exists w' r, remove_dir n w = (w', Ok r) /\ w_dir w' = delete n (w_dir w) /\ w_answers w' = [].
Proof.
  intros Ha. unfold remove_dir. unfold next at 1. rewrite Ha.
  destruct (w_dir w !! n) as [[t data|t o ch]|] eqn:E.
  - unfold next. rewrite Ha. by eexists _, _.
  - destruct o.
    + destruct (remove_dir_all_done n w t ch Ha E) as (w' & -> & Hd & Ha'). by eexists _, _.
    + unfold remove_dir_all at 1. unfold next at 1. rewrite Ha, E. unfold make_readable, next at 1. rewrite Ha, E.
      set (w1 := set_dir _ w). destruct (remove_dir_all_done n w1 t ch) as (w' & -> & Hd & Ha'); [done|apply lookup_insert_eq|].
      eexists _, _. split; [done|]. split; [|done]. rewrite Hd. unfold w1. simpl. by rewrite delete_insert_eq.
  - eexists _, _. split; [done|]. by rewrite delete_id.
Qed.

Lemma remove_counted_world n w s : (remove_counted n (w, s)).1 = (remove_dir n w).1.
Proof. unfold remove_counted. by destruct (remove_dir n w) as [w' [[|]|]]. Qed.

Lemma remove_counted_ne n k st : n <> k -> w_dir (remove_counted n st).1 !! k = w_dir st.1 !! k.
Proof. destruct st as [w s]. rewrite remove_counted_world. apply remove_dir_ne. Qed.

Lemma remove_counted_done n st :
  w_answers st.1 = [] ->
  w_dir (remove_counted n st).1 = delete n (w_dir st.1) /\ w_answers (remove_counted n st).1 = [].
Proof.
  destruct st as [w s]. rewrite remove_counted_world. intros Ha.
  by destruct (remove_dir_done n w Ha) as (w' & r & -> & ? & ?).
Qed.

(** Litter and manifests are judged by the entry alone. *)
Lemma is_litter_ext d d' n now : d !! n = d' !! n -> is_litter d n now = is_litter d' n now.
Proof. unfold is_litter. by intros ->. Qed.
Lemma read_any_manifest_ext from_json d d' n :
  d !! n = d' !! n -> read_any_manifest from_json d n = read_any_manifest from_json d' n.
Proof. unfold read_any_manifest, read_manifest_between, child. by intros ->. Qed.

(** ** What a sweep removes *)

Section sweep.
Context {nom : Nom} (digest128 : list N -> N) (from_json : list N -> option SlotManifest).
Context (resolve : Addr -> option Verdict) (try_lock : Addr -> lock_answer).
Context (d0 : directory) (now max_age : N).

Lemma resolve_dead_elem slots s :
  s ∈ (resolve_dead resolve slots).1.1 <-> s ∈ slots /\ resolve (sl_addr s) = Some Dead.
Proof.
  induction slots as [|x slots IH]; simpl; [set_solver|].
  destruct (resolve_dead resolve slots) as [[dead k] e]. cbn [fst] in IH.
  destruct (resolve (sl_addr x)) as [[]|] eqn:E; cbn [fst]; rewrite ?elem_of_cons, IH; naive_solver.
Qed.

(** [slot] may be removed from [d0]: its lock is free and its manifest is the one
    scanned. *)
Definition removable (slot : Slot) : Prop :=
  try_lock (sl_addr slot) = LockTaken /\
  exists m, read_any_manifest from_json d0 (sl_dir slot) = Some m /\ failed_at m = sl_failed_at slot.

(** Every entry is as in [d0], or [J] holds of it. *)
Definition unless (J : os_name -> Prop) (st : world * FailureGcStats) : Prop :=
  forall n, w_dir st.1 !! n = d0 !! n \/ J n.

Lemma remove_litter_unless J litter st :
  (forall n, n ∈ litter -> is_litter d0 n now = true -> J n) -> unless J st -> unless J (remove_litter now litter st).
Proof.
  revert st. induction litter as [|n litter IH]; intros st HJ Hst; [done|]. simpl.
  apply IH; [set_solver|]. destruct (is_litter (w_dir st.1) n now) eqn:E; [|done]. intros k.
  destruct (decide (n = k)) as [->|Hne]; [|rewrite remove_counted_ne by done; apply Hst].
  right. destruct (Hst k) as [Hk|]; [|done]. apply HJ; [set_solver|]. by rewrite <- (is_litter_ext _ _ _ _ Hk).
Qed.

Lemma remove_slot_cases slot st :
  (remove_slot from_json try_lock slot st).1 = st.1 \/
  ((remove_slot from_json try_lock slot st).1 = (remove_counted (sl_dir slot) st).1 /\
   try_lock (sl_addr slot) = LockTaken /\
   exists m, read_any_manifest from_json (w_dir st.1) (sl_dir slot) = Some m /\ failed_at m = sl_failed_at slot).
Proof.
  destruct st as [w s]. unfold remove_slot. destruct (try_lock (sl_addr slot)) eqn:El; [|by left..].
  destruct (read_any_manifest _ (w_dir w) _) as [m|] eqn:Em; [|by left].
  destruct (N.eqb_spec (failed_at m) (sl_failed_at slot)) as [Hf|]; [|by left]. right. split; [done|]. eauto.
Qed.

Lemma remove_slot_taken slot st m :
  try_lock (sl_addr slot) = LockTaken -> read_any_manifest from_json (w_dir st.1) (sl_dir slot) = Some m ->
  failed_at m = sl_failed_at slot -> remove_slot from_json try_lock slot st = remove_counted (sl_dir slot) st.
Proof. destruct st as [w s]. unfold remove_slot. intros -> Hm Hf. cbn [fst] in Hm. by rewrite Hm, Hf, N.eqb_refl. Qed.

Lemma remove_doomed_unless J doomed st :
  (forall s, s ∈ doomed -> removable s -> J (sl_dir s)) -> unless J st ->
  unless J (remove_doomed from_json try_lock doomed st).
Proof.
  revert st. induction doomed as [|s doomed IH]; intros st HJ Hst; [done|]. simpl.
  apply IH; [set_solver|]. intros k. destruct (remove_slot_cases s st) as [->|(-> & Hl & m & Hm & Hf)]; [apply Hst|].
  destruct (decide (sl_dir s = k)) as [<-|Hne]; [|rewrite remove_counted_ne by done; apply Hst].
  right. destruct (Hst (sl_dir s)) as [Hk|]; [|done]. apply HJ; [set_solver|]. split; [done|]. exists m.
  by rewrite <- (read_any_manifest_ext _ _ _ _ Hk).
Qed.

(** No call fails: entries go whole or stay. *)
Definition whole (st : world * FailureGcStats) : Prop :=
  w_answers st.1 = [] /\ forall n, w_dir st.1 !! n = d0 !! n \/ w_dir st.1 !! n = None.

Lemma whole_remove n st : whole st -> whole (remove_counted n st) /\
  forall k, w_dir (remove_counted n st).1 !! k = if decide (k = n) then None else w_dir st.1 !! k.
Proof.
  intros [Ha Hd]. destruct (remove_counted_done n st Ha) as [E Ha'].
  assert (Hk : forall k, w_dir (remove_counted n st).1 !! k = if decide (k = n) then None else w_dir st.1 !! k).
  { intros k. rewrite E. case_decide; subst; [apply lookup_delete_eq|by rewrite lookup_delete_ne]. }
  split; [|done]. split; [done|]. intros k. rewrite Hk. case_decide; [by right|apply Hd].
Qed.

Lemma remove_litter_gone litter st :
  whole st -> whole (remove_litter now litter st) /\
  forall n, w_dir st.1 !! n = None \/ (n ∈ litter /\ is_litter d0 n now = true) ->
    w_dir (remove_litter now litter st).1 !! n = None.
Proof.
  revert st. induction litter as [|n litter IH]; intros st Hst; simpl; [split; [done|]; set_solver|].
  destruct (is_litter (w_dir st.1) n now) eqn:E.
  - destruct (whole_remove n st Hst) as [Hw Hk]. destruct (IH _ Hw) as [Hw' Hg]. split; [done|].
    intros k H. apply Hg. rewrite Hk. case_decide; [by left|]. set_solver.
  - destruct (IH _ Hst) as [Hw' Hg]. split; [done|]. intros k [H|[H Hl]]; [by apply Hg; left|].
    apply Hg. destruct (decide (k = n)) as [->|]; [left|right; set_solver].
    destruct (proj2 Hst n) as [Hn|]; [|done]. rewrite (is_litter_ext _ _ _ _ Hn) in E. congruence.
Qed.

Lemma remove_doomed_gone doomed st :
  whole st -> whole (remove_doomed from_json try_lock doomed st) /\
  forall n, w_dir st.1 !! n = None \/ (exists s, s ∈ doomed /\ sl_dir s = n /\ removable s) ->
    w_dir (remove_doomed from_json try_lock doomed st).1 !! n = None.
Proof.
  revert st. induction doomed as [|s doomed IH]; intros st Hst; simpl; [split; [done|]; set_solver|].
  destruct (whole_remove (sl_dir s) st Hst) as [Hw1 Hk].
  assert (Hstep : whole (remove_slot from_json try_lock s st) /\
    (forall k, w_dir st.1 !! k = None -> w_dir (remove_slot from_json try_lock s st).1 !! k = None)).
  { unfold whole in *. destruct (remove_slot_cases s st) as [->|(-> & _)]; [done|].
    split; [apply Hw1|]. intros k H. rewrite Hk. by case_decide. }
  destruct Hstep as [Hw Hn]. assert (Hr : removable s -> w_dir (remove_slot from_json try_lock s st).1 !! sl_dir s = None).
  { intros (Hl & m & Hm & Hf). destruct (proj2 Hst (sl_dir s)) as [E|E]; [|by apply Hn].
    rewrite (remove_slot_taken s st m), Hk, decide_True by (done || by rewrite (read_any_manifest_ext _ _ _ _ E)). done. }
  destruct (IH _ Hw) as [Hw' Hg]. split; [done|].
  intros k [H|(s' & Hs & <- & Hrem)]; apply Hg; [left; auto|].
  apply elem_of_cons in Hs as [->|Hs]; [left; auto|right; eauto].
Qed.
(** A scanned slot is under the key of the address its manifest names. *)
Lemma scan_slots listing d s :
  s ∈ sc_slots (scan digest128 from_json listing d now) ->
  sl_dir s = inl (addr_key digest128 (sl_addr s)).
Proof.
  unfold scan. destruct listing as [entries|[]]; [|set_solver..].
  assert (H : forall sc, (forall s, s ∈ sc_slots sc -> sl_dir s = inl (addr_key digest128 (sl_addr s))) ->
    forall s, s ∈ sc_slots (foldl (fun sc e => match e with
      | Ok n => scan_entry digest128 from_json d now n sc
      | Err _ => mkScan (sc_slots sc) (sc_litter sc) (S (sc_errored sc)) end) sc entries) ->
    sl_dir s = inl (addr_key digest128 (sl_addr s))); [|apply H; set_solver].
  induction entries as [|[n|e] entries IH]; intros sc Hsc; [done| |by apply IH]. simpl. apply IH. intros x.
  unfold scan_entry. destruct n as [name|raw]; [|case_match; apply Hsc].
  destruct (starts_with TEMP_PREFIX name); [case_match; apply Hsc|].
  destruct (read_any_manifest from_json d (inl name)) as [m|]; simpl; [|case_match; apply Hsc].
  destruct (parse_addr (m_addr m)) as [addr|]; [|case_match; apply Hsc].
  case_decide as Hk; [|case_match; apply Hsc]. simpl. rewrite elem_of_app, list_elem_of_singleton.
  intros [Hx| ->]; [by apply Hsc|]. simpl. by rewrite Hk.
Qed.

(** The entries a sweep is to remove, by the scan and by [d0], the directory as
    it is at removal: litter old enough in both, and slots that are aged or whose
    target is known not to exist, not running, and not refilled since. *)
Definition swept (sc : Scan) (n : os_name) : Prop :=
  (n ∈ sc_litter sc /\ is_litter d0 n now = true) \/
  exists s, s ∈ sc_slots sc /\ sl_dir s = n /\ n = inl (addr_key digest128 (sl_addr s)) /\
    (aged now max_age s = true \/ resolve (sl_addr s) = Some Dead) /\ removable s.

Lemma doomed_elem sc s :
  s ∈ List.filter (aged now max_age) (sc_slots sc) ++
      (resolve_dead resolve (List.filter (fun s => negb (aged now max_age s)) (sc_slots sc))).1.1 <->
  s ∈ sc_slots sc /\ (aged now max_age s = true \/ resolve (sl_addr s) = Some Dead).
Proof.
  rewrite elem_of_app, resolve_dead_elem, !list_elem_of_In, !filter_In, negb_true_iff.
  destruct (aged now max_age s); naive_solver.
Qed.
End sweep.

(** A sweep removes what it is to remove and nothing else. Whatever calls
    fail, an entry the sweep touches is litter still old enough when it is
    removed, or a slot, under its address's own name, that is aged or whose target
    is known not to exist, whose execute lock was free, and whose manifest is
    still the one scanned: a slot being built, a slot refilled meanwhile and a
    slot whose target could not be resolved stay. When no call fails, all of
    those are gone. *)
Theorem gc_failure_slots_exact {nom : Nom} digest128 from_json resolve try_lock listing d now max_age w w' stats :
  gc_failure_slots_at digest128 from_json resolve try_lock listing d now max_age w = (w', stats) ->
  let sc := scan digest128 from_json listing d now in
  let swept := swept digest128 from_json resolve try_lock (w_dir w) now max_age sc in
  (forall n, w_dir w' !! n = w_dir w !! n \/ swept n) /\
  (w_answers w = [] -> forall n, swept n -> w_dir w' !! n = None).
Proof.
  intros E sc sw. unfold gc_failure_slots_at in E. fold sc in E.
  pose proof (doomed_elem resolve now max_age sc) as Hdoom.
  destruct (resolve_dead resolve _) as [[dead k1] e1]. cbn [fst] in Hdoom.
  unfold remove_failure_slots in E. set (st1 := remove_litter now (sc_litter sc) (w, stats0)) in E.
  destruct (remove_doomed from_json try_lock _ st1) as [w2 r] eqn:Er. injection E as <- _.
  assert (Hw2 : w2 = (w2, r).1) by done. rewrite <- Er in Hw2. split.
  - rewrite Hw2. apply (remove_doomed_unless from_json try_lock (w_dir w) sw).
    + intros s [Hs Ha]%Hdoom Hrem. right. exists s. split_and!; [done|done|by eapply scan_slots|done..].
    + apply remove_litter_unless; [by intros n Hn Hl; left|]. intros n. by left.
  - intros Ha n Hn. destruct (remove_litter_gone (w_dir w) now (sc_litter sc) (w, stats0)) as [Hw1 Hg1].
    { split; [done|]. intros k. by left. }
    destruct (remove_doomed_gone from_json try_lock (w_dir w) (List.filter (aged now max_age) (sc_slots sc) ++ dead) st1 Hw1)
      as [_ Hg2].
    rewrite Hw2. apply Hg2. destruct Hn as [Hl|(s & Hs & <- & _ & Ha' & Hrem)]; [left; by apply Hg1; right|].
    right. exists s. split_and!; [by apply Hdoom|done|done].
Qed.

(** A home with the slot of a target that is gone, one of a target that does not
    resolve, a temporary directory left behind and one being built. *)
Definition gc_slot (addr : str) : node := slot_node 9 $"log" (sample_json (mkManifest 1 addr $"h" 1000)).
Definition gc_home : list (os_name * node) :=
  [ (inl $"p_x-00000000000000000000000000000005", gc_slot $"//p:x");
    (inl $"p_y-00000000000000000000000000000005", gc_slot $"//p:y");
    (inl $".tmp-old", NDir (Some 0%N) false []);
    (inl $".tmp-new", NDir (Some 119000000000%N) true []) ].
Definition gc_sample : world * FailureGcStats :=
  @gc_failure_slots_at nom_ref (fun _ => 5%N) sample_parse
    (fun a => if decide (name a = $"x") then Some Dead else Some Unknown) (fun _ => LockTaken)
    (Ok ((fun e => Ok e.1) <$> gc_home)) (list_to_map gc_home) 120000000000 (10 ^ 20)
    (mkWorld (list_to_map gc_home) [] []).

Lemma gc_failure_slots_exact_witness :
  gc_sample.2 = mkStats 2 12 1 0 1 /\
  w_dir gc_sample.1 !! inl $"p_x-00000000000000000000000000000005" = None /\
  w_dir gc_sample.1 !! inl $"p_y-00000000000000000000000000000005" = Some (gc_slot $"//p:y") /\
  w_dir gc_sample.1 !! inl $".tmp-old" = None /\
  is_Some (w_dir gc_sample.1 !! inl $".tmp-new").
Proof.
  split; [by vm_compute|]. split.
  - destruct gc_sample as [w' stats] eqn:E. eapply gc_failure_slots_exact in E as [_ H]. apply H; [done|].
    right. eexists (mkSlot (inl $"p_x-00000000000000000000000000000005") (mkAddr $"p" $"x" []) 1000).
    split_and!; [vm_compute; left|by vm_compute..|by right|]. split; [done|]. eexists. split; by vm_compute.
  - split_and!; [by vm_compute..|]. vm_compute. by eexists.
Defined.
