(* ===== verification/CodegenOverlap.v ===== *)
(** Colliding generated outputs: [crates/engine/src/engine/validate.rs], with the
    path arithmetic of [crates/core/src/paths.rs], [content_to_pattern] of
    [gitignore.rs], [join_all_failable] of [fanout.rs] and the output paths of the
    exec driver ([crates/plugin-exec/src/pluginexec/mod.rs]).

    Outputs of different targets that are the same path, or one inside the other,
    would overwrite each other in the source tree. They are found with one sort
    and, from each output, a scan of the outputs after it that stops at the first
    that does not overlap. The reference is the comparison of all pairs. *)
From stdpp Require Import sorting.
From S2P Require Import Prelude Numerals Nom HtPkg HtAddr Sorts Expand HtMatcher MatchTarget.

(** ** Paths *)

(** [comps]. *)
Definition comps (p : str) : list str :=
  List.filter (fun c => negb (bool_decide (c = [])) && negb (bool_decide (c = $"."))) (split_on #"/" p).

(** [d.iter().zip(a.iter()).all(|(x, y)| x == y)]. *)
Fixpoint zip_all_eq (x y : list str) : bool :=
  match x, y with
  | a :: x, b :: y => bool_decide (a = b) && zip_all_eq x y
  | _, _ => true
  end.

(** [is_ancestor]. *)
Definition is_ancestor (ancestor descendant : str) : bool :=
  let a := comps ancestor in
  let d := comps descendant in
  negb (bool_decide (a = [])) && Nat.ltb (length a) (length d) && zip_all_eq d a.

(** [paths_overlap]. *)
Definition paths_overlap (a b : str) : bool :=
  let x := comps a in
  let y := comps b in
  if bool_decide (x = []) || bool_decide (y = []) then false else zip_all_eq x y.

(** [content_to_pattern]. *)
Definition is_slash : char -> bool := N.eqb #"/".
Definition content_to_pattern (c : Content) : str :=
  match c with
  | FilePath p => #"/" :: trim_start_matches is_slash p
  | DirPath p => #"/" :: trim_end_matches is_slash (trim_start_matches is_slash p)
  | Glob g => #"/" :: trim_start_matches is_slash g
  end.

(** [spec_path_to_target_path] of the exec driver. *)
Definition spec_path_to_target_path (raw : str) (pkg : PkgBuf) (codegen : CodegenMode) : result pkg_error Path :=
  path ← join_rel_checked pkg raw;
  Ok (mkPath
    (if existsb (any_of $"*?[") path then Glob path
     else if ends_with $"/" path then DirPath path
     else FilePath path) codegen).

(** ** Fan-out *)

(** An error of a fan-out: one future's, or [MultiError]. *)
Inductive fan_error (E : Type) := One (e : E) | Multi (es : list E).
Arguments One {E} e.
Arguments Multi {E} es.

(** [try_join_all]: an error, here the first by position; which one surfaces when
    several futures fail is up to their interleaving. *)
Fixpoint try_join_all {E A} (rs : list (result E A)) : result E (list A) :=
  match rs with
  | [] => Ok []
  | r :: rs => a ← r; l ← try_join_all rs; Ok (a :: l)
  end.

(** [join_all_failable], of what the futures return. *)
Definition join_all_failable {E A} (rs : list (result E A)) (fail_fast : bool) : result (fan_error E) (list A) :=
  if fail_fast then map_err One (try_join_all rs)
  else
    let ok := omap (fun r => match r with Ok v => Some v | Err _ => None end) rs in
    let errs := omap (fun r => match r with Ok _ => None | Err e => Some e end) rs in
    match errs with
    | [] => Ok ok
    | [e] => Err (One e)
    | _ => Err (Multi errs)
    end.

(** ** Overlaps *)

Record CodegenOutput := mkOut { co_path : str; co_addr : Addr }.
Record CodegenOverlap := mkOverlap { ov_a : CodegenOutput; ov_b : CodegenOutput }.

#[export] Instance CodegenOutput_eq_dec : EqDecision CodegenOutput.
Proof. solve_decision. Defined.

(** [path_components]. *)
Definition path_components (p : str) : list str := split_on #"/" (trim_end_matches is_slash p).

(** [Iterator::cmp] on components. *)
Fixpoint lex_compare (x y : list str) : comparison :=
  match x, y with
  | [], [] => Eq
  | [], _ :: _ => Lt
  | _ :: _, [] => Gt
  | a :: x, b :: y => match str_compare a b with Eq => lex_compare x y | c => c end
  end.

(** The order the outputs are sorted by. *)
Definition out_compare (a b : CodegenOutput) : comparison :=
  match lex_compare (path_components (co_path a)) (path_components (co_path b)) with
  | Eq => str_compare (format (co_addr a)) (format (co_addr b))
  | c => c
  end.
Definition out_leb (a b : CodegenOutput) : bool :=
  match out_compare a b with Gt => false | _ => true end.

(** [pluginfs::is_fs_addr] and [overlap_exempt]. *)
Definition is_fs_addr (a : Addr) : bool := bool_decide (package a = FS_PKG).
Definition overlap_exempt (a b : Addr) : bool := is_fs_addr a && is_fs_addr b.

(** The inner loop, from output [a]: the outputs after it. *)
Fixpoint scan_after (a : CodegenOutput) (l : list CodegenOutput) : list CodegenOverlap :=
  match l with
  | [] => []
  | b :: r =>
      if negb (paths_overlap (co_path a) (co_path b)) then []
      else
        (if negb (bool_decide (co_addr a = co_addr b)) && negb (overlap_exempt (co_addr a) (co_addr b))
         then [mkOverlap a b] else []) ++ scan_after a r
  end.
Fixpoint scan_overlaps (l : list CodegenOutput) : list CodegenOverlap :=
  match l with
  | [] => []
  | a :: r => scan_after a r ++ scan_overlaps r
  end.

(** The sort, [dedup_by] with equality, and the scan. *)
Definition overlaps_of (outs : list CodegenOutput) : list CodegenOverlap :=
  scan_overlaps (dedup_adjacent (sort_by out_leb outs)).

(** The outputs a target copies into the tree. *)
Definition copied_outputs (addr : Addr) (outs : list Output) : list CodegenOutput :=
  (fun p => mkOut (content_to_pattern (content p)) addr) <$>
    List.filter (fun p => match codegen_tree p with CodegenCopy => true | _ => false end) (outs ≫= paths).

Section overlaps.
Context {E : Type}.
(** [get_def] of a listed target, [None] when it does not resolve on its own. *)
Variable get_def : Addr -> result E (option TargetDef).

Definition target_outputs (addr : Addr) : result E (list CodegenOutput) :=
  def ← get_def addr;
  Ok (match def with Some def => copied_outputs addr (outputs def) | None => [] end).

(** [codegen_copy_overlaps], of the targets the matcher selects. *)
Definition codegen_copy_overlaps (addrs : list Addr) (fail_fast : bool) : result (fan_error E) (list CodegenOverlap) :=
  per_target ← join_all_failable (target_outputs <$> addrs) fail_fast;
  Ok (overlaps_of (concat per_target)).
End overlaps.

(** ** The order *)

Lemma lex_compare_refl x : lex_compare x x = Eq.
Proof. induction x as [|a x IH]; simpl; [done|]. by rewrite str_compare_refl. Qed.

Lemma lex_compare_eq x y : lex_compare x y = Eq <-> x = y.
Proof.
  split; [|intros ->; apply lex_compare_refl]. revert y; induction x as [|a x IH]; intros [|b y]; simpl; try done.
  destruct (str_compare a b) eqn:E; [|done..]. apply str_compare_eq in E as ->. intros ->%IH. done.
Qed.

Lemma lex_compare_antisym x y : lex_compare y x = CompOpp (lex_compare x y).
Proof.
  revert y; induction x as [|a x IH]; intros [|b y]; simpl; try done.
  rewrite (str_compare_antisym a b). by destruct (str_compare a b); simpl.
Qed.

Lemma str_compare_trans c a b d : str_compare a b = c -> str_compare b d = c -> str_compare a d = c.
Proof.
  destruct c; [rewrite !str_compare_eq; congruence|apply str_lt_trans|].
  rewrite !str_compare_gt. intros. by etrans.
Qed.

Lemma lex_compare_trans c x y z : lex_compare x y = c -> lex_compare y z = c -> lex_compare x z = c.
Proof.
  intros Hxy. revert y z Hxy. induction x as [|a x IH]; intros [|b y] [|d z]; simpl; intros Hxy Hyz; try congruence.
  destruct (str_compare a b) eqn:E1, (str_compare b d) eqn:E2; try congruence.
  - rewrite (str_compare_trans Eq a b d) by done. by eapply IH.
  - apply str_compare_eq in E1 as ->. by rewrite E2.
  - apply str_compare_eq in E1 as ->. by rewrite E2.
  - apply str_compare_eq in E2 as ->. by rewrite E1.
  - by rewrite (str_compare_trans Lt a b d).
  - apply str_compare_eq in E2 as ->. by rewrite E1.
  - by rewrite (str_compare_trans Gt a b d).
Qed.

(** A total preorder: path first, address second. *)
Definition lex_le (x y : list str) : Prop := lex_compare x y <> Gt.

Lemma lex_le_trans x y z : lex_le x y -> lex_le y z -> lex_le x z.
Proof.
  unfold lex_le. destruct (lex_compare x y) eqn:E1, (lex_compare y z) eqn:E2; try done; intros _ _.
  - apply lex_compare_eq in E1 as ->, E2 as ->. by rewrite lex_compare_refl.
  - apply lex_compare_eq in E1 as ->. by rewrite E2.
  - apply lex_compare_eq in E2 as ->. by rewrite E1.
  - by rewrite (lex_compare_trans Lt x y z).
Qed.

Lemma out_leb_total a b : out_leb a b = false -> out_leb b a = true.
Proof.
  unfold out_leb, out_compare. rewrite (lex_compare_antisym (path_components (co_path a))).
  rewrite (str_compare_antisym (format (co_addr a))).
  destruct (lex_compare _ _); simpl; [|done..]. by destruct (str_compare _ _).
Qed.

Lemma out_leb_trans a b c : out_leb a b = true -> out_leb b c = true -> out_leb a c = true.
Proof.
  unfold out_leb, out_compare.
  set (x := path_components (co_path a)). set (y := path_components (co_path b)). set (z := path_components (co_path c)).
  destruct (lex_compare x y) eqn:E1, (lex_compare y z) eqn:E2; try done; intros H1 H2.
  - rewrite (lex_compare_trans Eq x y z) by done.
    set (p := format (co_addr a)) in *. set (q := format (co_addr b)) in *. set (r := format (co_addr c)) in *.
    destruct (str_compare p q) eqn:E3, (str_compare q r) eqn:E4; try done.
    + by rewrite (str_compare_trans Eq p q r).
    + apply str_compare_eq in E3 as ->. by rewrite E4.
    + apply str_compare_eq in E4 as <-. by rewrite E3.
    + by rewrite (str_compare_trans Lt p q r).
  - apply lex_compare_eq in E1 as ->. by rewrite E2.
  - apply lex_compare_eq in E2 as <-. by rewrite E1.
  - by rewrite (lex_compare_trans Lt x y z).
Qed.

Lemma out_leb_lex a b : out_leb a b = true -> lex_le (path_components (co_path a)) (path_components (co_path b)).
Proof. unfold out_leb, out_compare, lex_le. by destruct (lex_compare _ _). Qed.

(** What has [x] as a prefix is contiguous in the order. *)
Lemma lex_between x y z :
  x `prefix_of` y -> lex_le x z -> lex_le z y -> x `prefix_of` z.
Proof.
  unfold lex_le. intros [t ->]. revert z. induction x as [|a x IH]; intros z Hxz Hzy; [by apply prefix_nil|].
  destruct z as [|b z]; [done|]. simpl in *. destruct (str_compare a b) eqn:E.
  - apply str_compare_eq in E as <-. rewrite str_compare_refl in Hzy. by apply prefix_cons, IH.
  - by rewrite (str_compare_antisym a b), E in Hzy.
  - done.
Qed.

Lemma zip_all_eq_prefix x y : zip_all_eq x y = true <-> x `prefix_of` y \/ y `prefix_of` x.
Proof.
  revert y. induction x as [|a x IH]; intros [|b y]; simpl.
  - split; [left; done|done].
  - split; [left; apply prefix_nil|done].
  - split; [right; apply prefix_nil|done].
  - rewrite andb_true_iff, bool_decide_eq_true, IH. split.
    + intros [-> [H|H]]; [left|right]; by apply prefix_cons.
    + intros [H|H]; apply prefix_cons_inv_1 in H as E; apply prefix_cons_inv_2 in H; naive_solver.
Qed.

(** ** The scan is exact *)

(** A path spelled without empty or [.] segments but the leading one, a trailing
    slash aside: the sort key is what overlaps are decided by. *)
Definition spelled (p : str) : Prop := path_components p = [] :: comps p.

#[export] Instance spelled_dec p : Decision (spelled p).
Proof. unfold spelled. apply _. Defined.

(** Two outputs that would overwrite each other. *)
Definition clash (a b : CodegenOutput) : bool :=
  paths_overlap (co_path a) (co_path b) && negb (bool_decide (co_addr a = co_addr b)) &&
  negb (overlap_exempt (co_addr a) (co_addr b)).

Lemma lex_prefix_antisym x y : y `prefix_of` x -> lex_le x y -> x = y.
Proof.
  unfold lex_le. intros [t ->]. induction y as [|a y IH]; simpl; [by destruct t|].
  rewrite str_compare_refl. intros H. by f_equal; apply IH.
Qed.

Lemma paths_overlap_sorted a b :
  spelled a -> spelled b -> lex_le (path_components a) (path_components b) ->
  paths_overlap a b = true <-> comps a <> [] /\ comps a `prefix_of` comps b.
Proof.
  unfold spelled, paths_overlap. intros -> -> Hle. unfold lex_le in Hle. simpl in Hle.
  destruct (comps a) as [|x xs] eqn:Ea; [simpl; naive_solver|].
  destruct (comps b) as [|y ys] eqn:Eb; [done|]. rewrite !bool_decide_eq_false_2 by done. simpl orb. cbv iota.
  rewrite zip_all_eq_prefix. split; [|naive_solver]. intros [H|H]; [done|]. split; [done|].
  by rewrite (lex_prefix_antisym (x :: xs) (y :: ys)).
Qed.

Lemma paths_overlap_sym a b : paths_overlap a b = paths_overlap b a.
Proof.
  unfold paths_overlap. rewrite (orb_comm (bool_decide (comps a = []))). case_match; [done|].
  apply eq_true_iff_eq. rewrite !zip_all_eq_prefix. tauto.
Qed.

Lemma clash_sym a b : clash a b = clash b a.
Proof.
  unfold clash, overlap_exempt. rewrite paths_overlap_sym, (andb_comm (is_fs_addr (co_addr a))).
  do 3 f_equal. apply bool_decide_ext. split; intros ->; done.
Qed.

Abbreviation sorted := (StronglySorted (fun a b => out_leb a b = true)).

Lemma filter_none {A} (p : A -> bool) l : (forall c, c ∈ l -> p c = false) -> List.filter p l = [].
Proof.
  induction l as [|c l IH]; simpl; [done|]. intros H. rewrite H by set_solver. apply IH. set_solver.
Qed.

(** Stopping at the first output that does not overlap loses none. *)
Lemma scan_after_exact a l :
  Forall (fun o => spelled (co_path o)) (a :: l) -> sorted (a :: l) ->
  scan_after a l = mkOverlap a <$> List.filter (clash a) l.
Proof.
  intros Hsp Hs. apply Forall_cons in Hsp as [Ha Hl]. apply StronglySorted_inv in Hs as [Hs Hle].
  induction l as [|b l IH]; [done|]. apply Forall_cons in Hl as [Hb Hl]. apply Forall_cons in Hle as [Hab Hle].
  apply StronglySorted_inv in Hs as [Hs Hbl]. simpl. unfold clash at 1.
  destruct (paths_overlap (co_path a) (co_path b)) eqn:E; simpl.
  - rewrite IH by done. by destruct (_ && _).
  - rewrite filter_none; [done|]. intros c Hc.
    rewrite !Forall_forall in *. unfold clash. destruct (paths_overlap (co_path a) (co_path c)) eqn:Ec; [|done].
    exfalso. apply paths_overlap_sorted in Ec as [Hne Hpre]; [|done|by apply Hl|by apply out_leb_lex, Hle].
    apply not_true_iff_false in E. apply E.
    apply paths_overlap_sorted; [done..|by apply out_leb_lex|]. split; [done|].
    pose proof (lex_between (comps (co_path a)) (comps (co_path c)) (comps (co_path b)) Hpre) as H.
    pose proof (out_leb_lex _ _ Hab) as H1. pose proof (out_leb_lex _ _ (Hbl c Hc)) as H2.
    rewrite Ha, Hb in H1. rewrite Hb, (Hl c Hc) in H2. unfold lex_le in *. by apply H.
Qed.

Lemma scan_overlaps_sound l o :
  Forall (fun o => spelled (co_path o)) l -> sorted l ->
  o ∈ scan_overlaps l -> ov_a o ∈ l /\ ov_b o ∈ l /\ clash (ov_a o) (ov_b o) = true.
Proof.
  intros Hsp Hs. induction l as [|a l IH]; [set_solver|]. simpl. rewrite elem_of_app, scan_after_exact by done.
  intros [H|H].
  - apply list_elem_of_fmap in H as (b & -> & Hb). rewrite list_elem_of_In, filter_In, <- list_elem_of_In in Hb.
    simpl. destruct Hb. set_solver.
  - apply Forall_cons in Hsp as [_ Hsp]. apply StronglySorted_inv in Hs as [Hs _]. destruct (IH Hsp Hs H) as (? & ? & ?).
    set_solver.
Qed.

Lemma scan_overlaps_complete l x y :
  Forall (fun o => spelled (co_path o)) l -> sorted l -> x ∈ l -> y ∈ l -> clash x y = true ->
  mkOverlap x y ∈ scan_overlaps l \/ mkOverlap y x ∈ scan_overlaps l.
Proof.
  intros Hsp Hs Hx Hy Hc. induction l as [|a l IH]; [set_solver|]. simpl. rewrite !elem_of_app, scan_after_exact by done.
  assert (Hne : x <> y).
  { intros ->. unfold clash in Hc. by rewrite bool_decide_eq_true_2, andb_false_r in Hc. }
  assert (Hin : forall b, b ∈ l -> clash a b = true -> mkOverlap a b ∈ mkOverlap a <$> List.filter (clash a) l).
  { intros b Hb Hcb. apply list_elem_of_fmap. exists b. split; [done|].
    by rewrite list_elem_of_In, filter_In, <- list_elem_of_In. }
  apply elem_of_cons in Hx as [->|Hx]; apply elem_of_cons in Hy as [->|Hy]; [done|..].
  - left. left. by apply Hin.
  - right. left. apply Hin; [done|]. by rewrite clash_sym.
  - apply Forall_cons in Hsp as [_ Hsp]. apply StronglySorted_inv in Hs as [Hs _]. naive_solver.
Qed.

Lemma overlaps_of_exact outs x y :
  Forall (fun o => spelled (co_path o)) outs ->
  (x ∈ outs /\ y ∈ outs /\ clash x y = true) <->
  (mkOverlap x y ∈ overlaps_of outs \/ mkOverlap y x ∈ overlaps_of outs).
Proof.
  intros Hsp. unfold overlaps_of. set (l := dedup_adjacent (sort_by out_leb outs)).
  assert (Hl : forall o, o ∈ l <-> o ∈ outs) by (intros o; unfold l; by rewrite dedup_adjacent_elem, sort_by_elem).
  assert (Hs : sorted l) by (apply dedup_adjacent_sorted, sort_by_sorted; [apply out_leb_total|apply out_leb_trans]).
  assert (Hsl : Forall (fun o => spelled (co_path o)) l)
    by (rewrite Forall_forall in *; intros o Ho; by apply Hsp, Hl).
  split.
  - intros (Hx & Hy & Hc). apply scan_overlaps_complete; by rewrite ?Hl.
  - rewrite <- !Hl. intros [H|H]; (apply scan_overlaps_sound in H; [|done..]); simpl in H; [done|].
    rewrite clash_sym. naive_solver.
Qed.

(** ** The paths drivers declare *)

Lemma split_slash_join segs :
  Forall good_seg segs -> split_on #"/" (#"/" :: join $"/" segs) = [] :: match segs with [] => [[]] | _ => segs end.
Proof.
  intros H. change (#"/" :: join $"/" segs) with ([] ++ #"/" :: join $"/" segs). rewrite split_on_app.
  destruct segs as [|x segs]; [done|]. rewrite split_on_join; [done|done|by apply good_seg_no_slash].
Qed.

Lemma filter_good segs :
  Forall good_seg segs ->
  List.filter (fun c => negb (bool_decide (c = [])) && negb (bool_decide (c = $"."))) segs = segs.
Proof.
  induction 1 as [|x segs (H1 & H2 & _ & _) _ IH]; [done|]. cbn [List.filter].
  rewrite !bool_decide_eq_false_2 by done. simpl. by rewrite IH.
Qed.

(** Good segments after a slash, a trailing slash allowed. *)
Lemma spelled_good segs :
  Forall good_seg segs ->
  spelled (#"/" :: join $"/" segs) /\ (segs <> [] -> spelled (#"/" :: join $"/" segs ++ $"/")).
Proof.
  intros H. unfold spelled, path_components, comps.
  assert (Ht : segs <> [] -> trim_end_matches is_slash (#"/" :: join $"/" segs) = #"/" :: join $"/" segs).
  { intros Hne. destruct (join_good_last segs H Hne) as (s & c & -> & Hc).
    change (#"/" :: s ++ [c]) with ((#"/" :: s) ++ [c]). apply trim_end_matches_snoc_keep. by apply N.eqb_neq. }
  split.
  - destruct segs as [|x segs]; [done|]. rewrite Ht by done. rewrite split_slash_join by done.
    change (List.filter _ ([] :: x :: segs)) with
      (List.filter (fun c => negb (bool_decide (c = [])) && negb (bool_decide (c = $"."))) (x :: segs)).
    by rewrite filter_good.
  - intros Hne. change (#"/" :: join $"/" segs ++ $"/") with ((#"/" :: join $"/" segs) ++ [ #"/" ]).
    rewrite trim_end_matches_snoc_drop, Ht by done. rewrite split_on_app, !split_slash_join by done.
    destruct segs as [|x segs]; [done|]. rewrite List.filter_app. simpl List.filter at 2. rewrite app_nil_r.
    change (List.filter _ ([] :: x :: segs)) with
      (List.filter (fun c => negb (bool_decide (c = [])) && negb (bool_decide (c = $"."))) (x :: segs)).
    by rewrite filter_good.
Qed.

Lemma trim_start_join segs tl :
  Forall good_seg segs -> segs <> [] -> trim_start_matches is_slash (join $"/" segs ++ tl) = join $"/" segs ++ tl.
Proof.
  intros H Hne. destruct segs as [|[|c x] segs]; [done|by inversion H as [|?? [? _]]|].
  inversion H as [|?? (_ & _ & _ & Hs)]; subst.
  assert (exists t, join $"/" ((c :: x) :: segs) = c :: t) as [t ->] by (destruct segs; simpl; eauto).
  apply (trim_start_matches_head is_slash c (t ++ tl)). apply N.eqb_neq. set_solver.
Qed.

(** What the exec driver declares is spelled so that the scan is exact. *)
Lemma spec_path_spelled raw pkg codegen p :
  spec_path_to_target_path raw pkg codegen = Ok p -> spelled (content_to_pattern (content p)).
Proof.
  unfold spec_path_to_target_path, join_rel_checked. destruct (normalize _ []) as [out|] eqn:E; simpl; [|done].
  intros [= <-]. eapply normalize_good in E; [|apply split_on_Forall|constructor].
  apply Forall_reverse in E. remember (reverse out) as segs eqn:Es. clear Es out.
  destruct (decide (segs = [])) as [->|Hne].
  { unfold finish. simpl. rewrite andb_false_r. by vm_compute. }
  destruct (spelled_good segs E) as [H1 H2]. specialize (H2 Hne).
  pose proof (trim_start_join segs [] E Hne) as T1. rewrite app_nil_r in T1.
  pose proof (trim_start_join segs $"/" E Hne) as T2. pose proof (trim_join segs E) as T3.
  assert (T4 : trim_end_matches is_slash (join $"/" segs ++ $"/") = join $"/" segs)
    by (unfold is_slash; by rewrite trim_end_matches_snoc_drop).
  unfold finish. destruct (_ && _); simpl content; repeat case_match; unfold content_to_pattern;
    rewrite ?T1, ?T2, ?T4; try done; unfold is_slash; by rewrite T3.
Qed.

(** ** The check as a whole *)

Lemma try_join_all_ok {E A} (rs : list (result E A)) l : try_join_all rs = Ok l <-> rs = Ok <$> l.
Proof.
  revert l. induction rs as [|r rs IH]; intros l; simpl.
  - split; [by intros [= <-]|by destruct l].
  - split.
    + destruct r as [a|]; [|done]. intros H. ok_inv. simplify_eq/=. f_equal. by apply IH.
    + destruct l as [|a l]; intros [= -> ->]. simpl. by rewrite (proj2 (IH l) eq_refl).
Qed.

(** Both ways of joining succeed exactly when every future does, in order. *)
Lemma join_all_failable_ok {E A} (rs : list (result E A)) fail_fast l :
  join_all_failable rs fail_fast = Ok l <-> rs = Ok <$> l.
Proof.
  unfold join_all_failable. destruct fail_fast; [rewrite map_err_ok; apply try_join_all_ok|].
  split.
  - destruct (omap _ rs) as [|e es] eqn:E2 at 1; [|by destruct es]. intros [= <-].
    induction rs as [|[v|e] rs IH]; simpl in *; [done| |done]. f_equal. by apply IH.
  - intros ->. assert (omap (fun r : result E A => match r with Ok _ => None | Err e => Some e end) (Ok <$> l) = []) as ->.
    { induction l; simpl; auto. }
    f_equal. induction l as [|a l IH]; simpl; [done|]. by f_equal.
Qed.

Section check.
Context {E : Type} (get_def : Addr -> result E (option TargetDef)) (addrs : list Addr).

(** An output some selected target copies into the tree. *)
Definition declared (o : CodegenOutput) : Prop :=
  co_addr o ∈ addrs /\
  exists def, get_def (co_addr o) = Ok (Some def) /\ o ∈ copied_outputs (co_addr o) (outputs def).

Lemma copied_outputs_addr addr outs o : o ∈ copied_outputs addr outs -> co_addr o = addr.
Proof. unfold copied_outputs. by intros (p & -> & _)%list_elem_of_fmap. Qed.

Lemma declared_concat per_target o :
  target_outputs get_def <$> addrs = Ok <$> per_target -> o ∈ concat per_target <-> declared o.
Proof.
  unfold declared. intros Heq. rewrite list_elem_of_In, in_concat. split.
  - intros (l & Hl & Ho). rewrite <- list_elem_of_In in Hl; rewrite <- list_elem_of_In in Ho.
    assert (Ok l ∈ target_outputs get_def <$> addrs) as Hin by (rewrite Heq; by apply list_elem_of_fmap_2).
    apply list_elem_of_fmap in Hin as (addr & Hout & Haddr). symmetry in Hout. unfold target_outputs in Hout. ok_inv.
    destruct x as [def|]; [|set_solver]. pose proof (copied_outputs_addr _ _ _ Ho) as ->. eauto.
  - intros [Haddr (def & Hdef & Ho)]. exists (copied_outputs (co_addr o) (outputs def)). rewrite <- !list_elem_of_In.
    split; [|done]. assert (Ok (copied_outputs (co_addr o) (outputs def)) ∈ Ok (E := E) <$> per_target) as Hin.
    { rewrite <- Heq. apply list_elem_of_fmap. exists (co_addr o). split; [|done]. unfold target_outputs. by rewrite Hdef. }
    apply list_elem_of_fmap in Hin as (l & [= ->] & Hl). done.
Qed.
End check.

(** The sorted scan that stops at the first output that does not overlap
    reports exactly the collisions the comparison of all pairs finds: the check
    fails only if some definition does, and otherwise two outputs are reported, in
    one order or the other, exactly when selected targets declare both, they are
    the same path or one contains the other, and they are of different targets
    that are not both of the fs provider. The paths are to be spelled without
    empty or [.] segments. *)
Theorem codegen_overlaps_exact {E} (get_def : Addr -> result E (option TargetDef)) addrs fail_fast :
  (forall o, declared get_def addrs o -> spelled (co_path o)) ->
  match codegen_copy_overlaps get_def addrs fail_fast with
  | Ok overlaps => forall x y,
      (declared get_def addrs x /\ declared get_def addrs y /\ clash x y = true) <->
      (mkOverlap x y ∈ overlaps \/ mkOverlap y x ∈ overlaps)
  | Err _ => exists addr e, addr ∈ addrs /\ get_def addr = Err e
  end.
Proof.
  intros Hsp. unfold codegen_copy_overlaps.
  destruct (join_all_failable (target_outputs get_def <$> addrs) fail_fast) as [l|e] eqn:Ej; simpl.
  - apply join_all_failable_ok in Ej. intros x y. rewrite <- !(declared_concat get_def addrs l) by done.
    apply overlaps_of_exact. apply Forall_forall. intros o Ho. apply Hsp. by apply (declared_concat get_def addrs l).
  - destruct (decide (Exists (fun a => is_ok (get_def a) = false) addrs)) as [H|H].
    + apply Exists_exists in H as (a & Ha & Hg). destruct (get_def a) eqn:Eg; [done|]. eauto.
    + exfalso. apply not_Exists_Forall in H; [|apply _].
      assert (target_outputs get_def <$> addrs =
        Ok <$> ((fun a => match target_outputs get_def a with Ok l => l | Err _ => [] end) <$> addrs)) as Hok.
      { rewrite <- list_fmap_compose. apply list_fmap_ext. intros i a Hi. eapply Forall_lookup_1 in H; [|done].
        simpl in *. unfold target_outputs. by destruct (get_def a) as [d|]. }
      by rewrite (proj2 (join_all_failable_ok _ fail_fast _) Hok) in Ej.
Qed.

Definition sample_def (addr : Addr) (raw : str) : TargetDef :=
  mkDef addr [] [mkOutput [] (match spec_path_to_target_path raw (package addr) CodegenCopy with Ok p => [p] | Err _ => [] end)].
Definition sample_target (n : str) : Addr := mkAddr [] n [].
Definition sample_defs (raws : list (str * str)) (a : Addr) : result unit (option TargetDef) :=
  match bt_get (name a) raws with Some raw => Ok (Some (sample_def a raw)) | None => Ok None end.

Lemma codegen_overlaps_exact_witness :
  codegen_copy_overlaps (sample_defs [($"x", $"gen/"); ($"y", $"gen/./a.go"); ($"z", $"gen-b")])
    [sample_target $"z"; sample_target $"y"; sample_target $"x"] false =
    Ok [mkOverlap (mkOut $"/gen" (sample_target $"x")) (mkOut $"/gen/a.go" (sample_target $"y"))] /\
  (declared (sample_defs [($"x", $"gen/"); ($"y", $"gen/./a.go"); ($"z", $"gen-b")])
    [sample_target $"z"; sample_target $"y"; sample_target $"x"] (mkOut $"/gen" (sample_target $"x"))).
Proof.
  split; [by vm_compute|].
  pose proof (codegen_overlaps_exact (sample_defs [($"x", $"gen/"); ($"y", $"gen/./a.go"); ($"z", $"gen-b")])
    [sample_target $"z"; sample_target $"y"; sample_target $"x"] false) as H.
  set (r := codegen_copy_overlaps _ _ _) in H. vm_compute in r. subst r. cbv beta iota in H.
  apply (proj2 (H ltac:(intros o [Ha (def & Hd & Ho)];
    repeat (apply elem_of_cons in Ha as [Ha|Ha]); [..|set_solver]; rewrite Ha in Hd, Ho; vm_compute in Hd;
    injection Hd as <-; vm_compute in Ho; apply list_elem_of_singleton in Ho as ->; by vm_compute)
    (mkOut $"/gen" (sample_target $"x")) (mkOut $"/gen/a.go" (sample_target $"y")))).
  left. left.
Defined.

(** A path with a [.] segment sorts away from the path it names: the scan stops
    between the two, and a collision goes unreported. *)
Theorem dotted_overlap_missed :
  let a := mkOut (content_to_pattern (FilePath $"gen/./b")) (sample_target $"x") in
  let b := mkOut (content_to_pattern (FilePath $"gen/a")) (sample_target $"y") in
  let c := mkOut (content_to_pattern (FilePath $"gen/b")) (sample_target $"z") in
  clash a c = true /\ overlaps_of [a; b; c] = [].
Proof. by vm_compute. Qed.
