(* ===== verification/Gitignore.v ===== *)
(** The managed section of [.gitignore]: [crates/engine/src/engine/gitignore.rs].

    heph owns the text between two markers: it parses the section back, merges a
    rebuild of part of the workspace into it, and renders it in place or appends
    it. Each pattern is preceded by a comment naming the target it comes from. *)
From stdpp Require Import sorting.
From S2P Require Import Prelude Numerals Nom HtPkg HtAddr Sorts Expand LogTail HtMatcher MatchTarget CodegenOverlap.

(** ** Text *)

(** [str::find]: where the first occurrence starts. *)
Fixpoint find_sub (p s : str) : option nat :=
  if starts_with p s then Some O
  else match s with
       | [] => None
       | _ :: r => S <$> find_sub p r
       end.

(** [—], outside ASCII. *)
Definition em_dash : char := 8212%N.
Definition backquote : char := 96%N.
Definition BEGIN_MARKER : str :=
  $"# BEGIN heph-generated (managed by " ++ [backquote] ++ $"heph tool gen-gitignore" ++ [backquote] ++ $" " ++
  [em_dash] ++ $" do not edit)".
Definition END_MARKER : str := $"# END heph-generated".
Definition BEGIN_MARKER_PREFIX : str := $"# BEGIN heph-generated".
Definition COMMENT_PREFIX : str := $"# ".

(** ** Entries *)

Record GitignoreEntry := mkEntry { pattern : str; ge_addr : option Addr }.

#[export] Instance GitignoreEntry_eq_dec : EqDecision GitignoreEntry.
Proof. solve_decision. Defined.

Definition to_line (e : GitignoreEntry) : str :=
  match ge_addr e with
  | Some addr => COMMENT_PREFIX ++ format addr ++ [newline] ++ pattern e
  | None => pattern e
  end.

(** [sort_key], compared. *)
Definition entry_addr (e : GitignoreEntry) : str := from_option format [] (ge_addr e).
Definition entry_leb (a b : GitignoreEntry) : bool :=
  match str_compare (pattern a) (pattern b) with
  | Eq => match str_compare (entry_addr a) (entry_addr b) with Gt => false | _ => true end
  | Lt => true
  | Gt => false
  end.

(** [normalize]. *)
Definition normalize_entries (l : list GitignoreEntry) : list GitignoreEntry :=
  dedup_adjacent (sort_by entry_leb l).

Section patterns.
Context {E : Type}.
Variable get_def : Addr -> result E (option TargetDef).

(** [codegen_copy_gitignore_patterns], of the targets the matcher selects. *)
Definition target_entries (addr : Addr) : result E (list GitignoreEntry) :=
  def ← get_def addr;
  Ok (match def with
      | Some def => (fun o => mkEntry (co_path o) (Some addr)) <$> copied_outputs addr (outputs def)
      | None => []
      end).
Definition codegen_copy_gitignore_patterns (addrs : list Addr) (fail_fast : bool) :
    result (fan_error E) (list GitignoreEntry) :=
  per_target ← join_all_failable (target_entries <$> addrs) fail_fast;
  Ok (normalize_entries (concat per_target)).
End patterns.

(** ** The section *)

Section section.
Context {nom : Nom}.

(** An attribution with no pattern of its own, kept as a line. *)
Definition bare_comment (prev : Addr) : GitignoreEntry := mkEntry (COMMENT_PREFIX ++ format prev) None.
Definition flush (pending : option Addr) : list GitignoreEntry :=
  match pending with Some prev => [bare_comment prev] | None => [] end.

(** The loop of [parse_section]. *)
Fixpoint parse_lines (pending : option Addr) (ls : list str) : list GitignoreEntry :=
  match ls with
  | [] => flush pending
  | line :: r =>
      match strip_prefix $"#" line with
      | Some rest =>
          match parse_addr (trim rest) with
          | Ok addr => flush pending ++ parse_lines (Some addr) r
          | Err _ => mkEntry line None :: parse_lines pending r
          end
      | None => mkEntry line pending :: parse_lines None r
      end
  end.

Definition section_lines (text : str) : list str :=
  List.filter (fun l => negb (bool_decide (l = [])) && negb (starts_with BEGIN_MARKER_PREFIX l)) (trim <$> lines text).

(** [parse_section]. *)
Definition parse_section (existing : str) : list GitignoreEntry :=
  match find_sub BEGIN_MARKER_PREFIX existing, find_sub END_MARKER existing with
  | Some start, Some end_ =>
      if Nat.ltb end_ start then []
      else parse_lines None (section_lines (take (end_ - start) (drop start existing)))
  | _, _ => []
  end.

(** [merge_section]. *)
Definition merge_section (existing : str) (fresh : list GitignoreEntry) (matcher : Matcher) : list GitignoreEntry :=
  normalize_entries
    (List.filter (fun e => match ge_addr e with
                           | Some addr => match matches_addr matcher addr with MatchYes => false | _ => true end
                           | None => true
                           end) (parse_section existing) ++ fresh).
End section.

(** The section rendered. *)
Definition body (entries : list GitignoreEntry) : str := entries ≫= fun e => to_line e ++ [newline].
Definition section (entries : list GitignoreEntry) : str :=
  BEGIN_MARKER ++ [newline] ++ body entries ++ END_MARKER.

(** What separates an appended section from what was there. *)
Definition separator (existing : str) : str :=
  (if bool_decide (existing = []) || ends_with [newline] existing then [] else [newline]) ++
  (if bool_decide (existing = []) then [] else [newline]).

(** [render]. *)
Definition render (existing : str) (entries : list GitignoreEntry) : str :=
  let append := existing ++ separator existing ++ section entries ++ [newline] in
  match find_sub BEGIN_MARKER_PREFIX existing, find_sub END_MARKER existing with
  | Some start, Some end_ =>
      if Nat.leb start end_
      then take start existing ++ section entries ++ drop (end_ + length END_MARKER) existing
      else append
  | _, _ => append
  end.

(** ** First occurrences *)

(** [p] occurs in [s] after [a], and nowhere before. *)
Definition first_at (p s a b : str) : Prop :=
  s = a ++ p ++ b /\ forall a' b', s = a' ++ p ++ b' -> (length a <= length a')%nat.
Definition absent (p s : str) : Prop := forall a b, s <> a ++ p ++ b.

Lemma find_sub_first p s a b : first_at p s a b -> find_sub p s = Some (length a).
Proof.
  revert s. induction a as [|c a IH]; intros s [Hs Hmin].
  - rewrite Hs. simpl. destruct (p ++ b) eqn:E; simpl; rewrite <- ?E;
      by rewrite (proj2 (starts_with_true p (p ++ b))) by eauto.
  - destruct (starts_with p s) eqn:E.
    { apply starts_with_true in E as [r Hr]. specialize (Hmin [] r Hr). simpl in Hmin. lia. }
    subst s. simpl in E |- *. rewrite E, (IH (a ++ p ++ b)); [done|]. split; [done|].
    intros a' b' H. specialize (Hmin (c :: a') b'). simpl in Hmin. rewrite H in Hmin. specialize (Hmin eq_refl). lia.
Qed.

Lemma find_sub_Some p s i : find_sub p s = Some i -> exists a b, length a = i /\ first_at p s a b.
Proof.
  revert i. induction s as [|c s IH]; intros i; cbn [find_sub].
  - destruct (starts_with p []) eqn:E; [|done]. intros [= <-]. apply starts_with_true in E as [r Hr].
    exists [], r. split; [done|]. split; [done|]. simpl. lia.
  - destruct (starts_with p (c :: s)) eqn:E.
    + intros [= <-]. apply starts_with_true in E as [r Hr]. exists [], r. split; [done|]. split; [done|]. simpl. lia.
    + intros H. apply fmap_Some in H as (j & Hj & ->). destruct (IH j Hj) as (a & b & <- & -> & Hmin).
      exists (c :: a), b. split; [done|]. split; [done|]. intros [|c' a'] b' Heq.
      * exfalso. apply not_true_iff_false in E. apply E. apply starts_with_true. by exists b'.
      * injection Heq as -> Heq. apply Hmin in Heq. simpl. lia.
Qed.

Lemma find_sub_None p s : find_sub p s = None <-> absent p s.
Proof.
  split.
  - induction s as [|c s IH]; cbn [find_sub]; (destruct (starts_with _ _) eqn:E; [done|]).
    + intros _ [|] b H; [|done]. apply not_true_iff_false in E. apply E. apply starts_with_true. by exists b.
    + intros H [|c' a] b Heq.
      * apply not_true_iff_false in E. apply E. apply starts_with_true. by exists b.
      * injection Heq as -> Heq. destruct (find_sub p s) eqn:F; [done|]. by apply IH in Heq.
  - intros H. destruct (find_sub p s) as [i|] eqn:E; [|done]. apply find_sub_Some in E as (a & b & _ & Hs & _).
    by apply H in Hs.
Qed.

(** A pattern without line breaks does not occur across one. *)
Lemma occ_split (p x y a b : str) :
  newline ∉ p -> x ++ newline :: y = a ++ p ++ b ->
  (exists b', x = a ++ p ++ b') \/ (exists a', a = x ++ newline :: a' /\ y = a' ++ p ++ b).
Proof.
  intros Hp H. apply app_eq_app in H as (l & [[-> H]|[-> H]]).
  - symmetry in H. apply app_eq_app in H as (k & [[-> _]|[-> H]]); [left; by exists k|].
    destruct k as [|c k]; [left; exists []; by rewrite !app_nil_r|]. injection H as <- _. set_solver.
  - destruct l as [|c l]; [|injection H as <- ->; right; by exists l].
    destruct p as [|c p]; [left; exists []; by rewrite !app_nil_r|]. injection H as <- _. set_solver.
Qed.

(** An occurrence that ends within the first part is one of that part. *)
Lemma occ_prefix (p x y a b : str) :
  x ++ y = a ++ p ++ b -> (length a + length p <= length x)%nat -> exists b', x = a ++ p ++ b'.
Proof.
  intros H Hl. rewrite app_assoc in H. apply app_eq_app in H as (l & [[-> _]|[E _]]).
  - exists l. by rewrite app_assoc.
  - exists []. rewrite app_nil_r. apply (f_equal length) in E as El. rewrite !length_app in El.
    destruct l; [by rewrite app_nil_r in E|simpl in El; lia].
Qed.

(** ** Rendering in place *)

(** The text has a section between [pre] and [post]. *)
Definition has_section (ex pre post : str) : Prop :=
  exists m e, first_at BEGIN_MARKER_PREFIX ex pre m /\ first_at END_MARKER ex e post /\ (length pre <= length e)%nat.

(** Entries whose lines do not contain the end marker. *)
Definition no_end (entries : list GitignoreEntry) : Prop := Forall (fun e => absent END_MARKER (to_line e)) entries.

Lemma render_in_place ex pre post entries :
  has_section ex pre post -> render ex entries = pre ++ section entries ++ post.
Proof.
  intros (m & e & Hb & He & Hle). unfold render. rewrite (find_sub_first _ _ _ _ Hb), (find_sub_first _ _ _ _ He).
  rewrite (proj2 (Nat.leb_le _ _) Hle). destruct Hb as [Eb _], He as [Ee _]. f_equal; [|f_equal].
  - by rewrite Eb, take_app_length.
  - rewrite Ee, app_assoc. apply drop_app_length'. by rewrite length_app.
Qed.

Lemma end_no_newline : newline ∉ END_MARKER.
Proof. apply (bool_decide_unpack _). by vm_compute. Qed.
Lemma begin_no_newline : newline ∉ BEGIN_MARKER_PREFIX.
Proof. apply (bool_decide_unpack _). by vm_compute. Qed.

Lemma body_end entries post a b :
  no_end entries -> body entries ++ END_MARKER ++ post = a ++ END_MARKER ++ b -> (length (body entries) <= length a)%nat.
Proof.
  intros He. revert a. induction He as [|x l Hx _ IH]; intros a H; [simpl; lia|].
  unfold body in *. cbn [mbind list_bind] in *. rewrite <- !app_assoc in H. cbn [app] in H.
  apply (occ_split _ _ _ _ _ end_no_newline) in H as [[b' H]|(a' & -> & H)]; [by apply Hx in H|].
  apply IH in H. rewrite !length_app. simpl. lia.
Qed.

(** Where a section may start: the end of [pre] begins no marker. *)
Definition may_start (pre : str) : Prop :=
  first_at BEGIN_MARKER_PREFIX (pre ++ BEGIN_MARKER_PREFIX) pre [] /\ absent END_MARKER (pre ++ BEGIN_MARKER_PREFIX).

Lemma begin_marker : BEGIN_MARKER = BEGIN_MARKER_PREFIX ++ drop 22 BEGIN_MARKER.
Proof. by vm_compute. Qed.

Lemma section_first_at pre post entries :
  may_start pre -> no_end entries ->
  first_at BEGIN_MARKER_PREFIX (pre ++ section entries ++ post) pre
    (drop 22 BEGIN_MARKER ++ [newline] ++ body entries ++ END_MARKER ++ post) /\
  first_at END_MARKER (pre ++ section entries ++ post) (pre ++ BEGIN_MARKER ++ [newline] ++ body entries) post.
Proof.
  intros [[_ Hb] He] Hn. set (ex := pre ++ section entries ++ post). split.
  - split; [unfold ex, section; rewrite begin_marker at 1; by rewrite <- !app_assoc|].
    intros a b H. destruct (decide (length pre <= length a)%nat) as [|Hlt]; [done|].
    unfold ex, section in H. rewrite begin_marker in H. rewrite <- !app_assoc, app_assoc in H.
    apply occ_prefix in H as [b' H]; [by apply Hb in H|]. rewrite length_app. lia.
  - split; [unfold ex, section; by rewrite <- !app_assoc|]. intros a b H.
    assert (Hex : ex = (pre ++ BEGIN_MARKER) ++ newline :: body entries ++ END_MARKER ++ post)
      by (unfold ex, section; by rewrite <- !app_assoc).
    rewrite Hex in H. apply (occ_split _ _ _ _ _ end_no_newline) in H as [[b' H]|(a' & -> & H)]; [exfalso|].
    + destruct (decide (length a < length pre)%nat) as [Hlt|Hge].
      * rewrite begin_marker, app_assoc in H. apply occ_prefix in H as [b'' H]; [by apply He in H|].
        rewrite length_app. change (length END_MARKER) with 20%nat. change (length BEGIN_MARKER_PREFIX) with 22%nat. lia.
      * apply app_eq_app in H as (l & [[-> H]|[-> H]]).
        -- assert (l = []) as -> by (destruct l; [done|]; rewrite length_app in Hge; simpl in Hge; lia).
           assert (Hab : find_sub END_MARKER BEGIN_MARKER = None) by by vm_compute.
           apply find_sub_None in Hab. by apply (Hab [] b').
        -- assert (Hab : find_sub END_MARKER BEGIN_MARKER = None) by by vm_compute.
           apply find_sub_None in Hab. by apply (Hab l b').
    + apply body_end in H; [|done]. rewrite !length_app. simpl length. lia.
Qed.

Lemma section_placed pre post entries :
  may_start pre -> no_end entries -> has_section (pre ++ section entries ++ post) pre post.
Proof.
  intros Hs Hn. destruct (section_first_at pre post entries Hs Hn). eexists _, _. split_and!; [done..|].
  rewrite length_app. lia.
Qed.

(** ** Rendering again *)

Lemma begin_has_no_end : absent END_MARKER BEGIN_MARKER_PREFIX.
Proof. apply find_sub_None. by vm_compute. Qed.

Lemma has_section_may_start ex pre post : has_section ex pre post -> may_start pre.
Proof.
  intros (m & e & [Eb Hb] & [_ He] & Hle). rewrite app_assoc in Eb. split.
  - split; [by rewrite app_nil_r|]. intros a b H. rewrite H in Eb. eapply Hb. rewrite Eb. by rewrite <- !app_assoc.
  - intros a b H. assert (Ha : (length e <= length a)%nat).
    { eapply He. rewrite Eb, H. by rewrite <- !app_assoc. }
    apply app_eq_app in H as (l & [[-> H]|[-> H]]); [|by apply begin_has_no_end in H].
    rewrite length_app in Hle. assert (l = []) as -> by (destruct l; [done|simpl in Hle; lia]).
    by apply (begin_has_no_end [] b).
Qed.

Lemma newline_may_start y :
  absent BEGIN_MARKER_PREFIX y -> absent END_MARKER y -> may_start (y ++ [newline]).
Proof.
  intros Hb He. split; [split; [by rewrite app_nil_r|]|]; intros a b H; rewrite <- app_assoc in H.
  - apply (occ_split _ _ _ _ _ begin_no_newline) in H as [[b' H]|(a' & -> & H)]; [by apply Hb in H|].
    rewrite !length_app. simpl. lia.
  - apply (occ_split _ _ _ _ _ end_no_newline) in H as [[b' H]|(a' & -> & H)]; [by apply He in H|].
    by apply begin_has_no_end in H.
Qed.

Lemma absent_newline p y : newline ∉ p -> p <> [] -> absent p y -> absent p (y ++ [newline]).
Proof.
  intros Hp Hne Hy a b H. apply (occ_split _ _ _ _ _ Hp) in H as [[b' H]|(a' & -> & H)]; [by apply Hy in H|].
  destruct a', p; done.
Qed.

Lemma append_may_start ex :
  absent BEGIN_MARKER_PREFIX ex -> absent END_MARKER ex -> may_start (ex ++ separator ex).
Proof.
  intros Hb He. unfold separator. destruct ex as [|c ex].
  - split; [split; [done|simpl; lia]|apply begin_has_no_end].
  - rewrite bool_decide_eq_false_2 by done. simpl orb. remember (c :: ex) as y. destruct (ends_with _ y); simpl.
    + by apply newline_may_start.
    + change [newline; newline] with ([newline] ++ [newline]). rewrite app_assoc.
      apply newline_may_start; apply absent_newline; done || apply begin_no_newline || apply end_no_newline.
Qed.

(** A file heph can keep up to date: a section, or no trace of one. *)
Definition well_marked (ex : str) : Prop :=
  (exists pre post, has_section ex pre post) \/ (absent BEGIN_MARKER_PREFIX ex /\ absent END_MARKER ex).

Lemma render_shape ex :
  well_marked ex -> exists pre post,
    ((exists old, ex = pre ++ old ++ post) \/ (ex `prefix_of` pre /\ post = [newline])) /\
    may_start pre /\ forall entries, render ex entries = pre ++ section entries ++ post.
Proof.
  intros [(pre & post & H)|[Hb He]].
  - exists pre, post. split_and!; [|by eapply has_section_may_start|intros; by apply render_in_place].
    left. destruct H as (m & e & [Eb _] & [Ee _] & Hle). rewrite Ee in Eb.
    apply app_eq_app in Eb as (l & [[-> _]|[-> E]]).
    + exists (l ++ END_MARKER). by rewrite Ee, <- !app_assoc.
    + rewrite length_app in Hle. assert (l = []) as -> by (destruct l; [done|simpl in Hle; lia]).
      exists END_MARKER. by rewrite app_nil_r.
  - exists (ex ++ separator ex), [newline]. split_and!; [right; split; [by eexists|done]|by apply append_may_start|].
    intros entries. unfold render. rewrite (proj2 (find_sub_None _ _) Hb). by rewrite <- !app_assoc.
Qed.

Lemma render_again ex entries entries' :
  well_marked ex -> no_end entries -> render (render ex entries) entries' = render ex entries'.
Proof.
  intros Hw Hn. destruct (render_shape ex Hw) as (pre & post & _ & Hs & Hr). rewrite !Hr.
  by apply render_in_place, section_placed.
Qed.

(** ** Parsing back *)

Lemma lines_from_line cur x y :
  newline ∉ x -> lines_from cur (x ++ newline :: y) = strip_cr (cur ++ x) :: lines y.
Proof.
  revert cur. induction x as [|c x IH]; intros cur Hx; cbn [app lines_from].
  - by rewrite N.eqb_refl, app_nil_r.
  - rewrite (proj2 (N.eqb_neq c newline)) by set_solver. rewrite IH by set_solver. by rewrite <- app_assoc.
Qed.

Lemma lines_line x y : newline ∉ x -> lines (x ++ newline :: y) = strip_cr x :: lines y.
Proof. apply (lines_from_line []). Qed.

(** A line that is kept as it is by [lines] and [trim], and is not the marker. *)
Definition plain_line (l : str) : Prop :=
  (newline ∉ l) /\ l <> [] /\ trim (strip_cr l) = l /\ starts_with BEGIN_MARKER_PREFIX l = false.

Lemma section_lines_plain l y :
  plain_line l -> section_lines (l ++ newline :: y) = l :: section_lines y.
Proof.
  intros (Hn & Hne & Ht & Hb). unfold section_lines. rewrite lines_line by done. cbn [fmap list_fmap List.filter].
  by rewrite Ht, bool_decide_eq_false_2, Hb.
Qed.

Section round_trip.
Context {nom : Nom}.

(** An entry whose lines read back: its pattern is a line that is not a comment,
    and its comment is a line that names the target; a line without a target may
    also be a comment that names none. *)
Definition readable (e : GitignoreEntry) : Prop :=
  plain_line (pattern e) /\
  match ge_addr e with
  | Some a =>
      strip_prefix $"#" (pattern e) = None /\ plain_line (COMMENT_PREFIX ++ format a) /\
      trim (format a) = format a /\ parse_addr (format a) = Ok a
  | None =>
      match strip_prefix $"#" (pattern e) with
      | Some rest => is_ok (parse_addr (trim rest)) = false
      | None => True
      end
  end.

(** The lines of an entry. *)
Definition entry_lines (e : GitignoreEntry) : list str :=
  match ge_addr e with
  | Some a => [COMMENT_PREFIX ++ format a; pattern e]
  | None => [pattern e]
  end.

Lemma section_lines_body entries : Forall readable entries -> section_lines (body entries) = entries ≫= entry_lines.
Proof.
  induction 1 as [|[p o] l [Hp Ha] _ IH]; [done|]. unfold body in *. cbn [mbind list_bind].
  set (rest := l ≫= _) at 1. unfold to_line, entry_lines at 1. cbn [pattern ge_addr] in *. destruct o as [a|].
  - destruct Ha as (_ & Hc & _).
    assert (((COMMENT_PREFIX ++ format a ++ [newline] ++ p) ++ [newline]) ++ rest =
      (COMMENT_PREFIX ++ format a) ++ newline :: p ++ newline :: rest) as -> by by rewrite <- !app_assoc.
    rewrite (section_lines_plain (COMMENT_PREFIX ++ format a)), (section_lines_plain p) by done. unfold rest. by rewrite IH.
  - rewrite <- app_assoc. cbn [app]. rewrite section_lines_plain by done. unfold rest. by rewrite IH.
Qed.

Lemma trim_space s : trim (32%N :: s) = trim s.
Proof. done. Qed.

Lemma parse_lines_entries entries : Forall readable entries -> parse_lines None (entries ≫= entry_lines) = entries.
Proof.
  induction 1 as [|[p o] l [Hp Ha] _ IH]; [done|]. cbn [mbind list_bind]. unfold entry_lines at 1. cbn [pattern ge_addr] in *.
  destruct o as [a|].
  - destruct Ha as (Hs & _ & Ht & Hf). cbn [app]. unfold COMMENT_PREFIX. cbn [app parse_lines].
    change (strip_prefix $"#" (35%N :: 32%N :: format a)) with (Some (32%N :: format a)). cbv iota.
    rewrite trim_space, Ht, Hf. cbn [flush app parse_lines]. by rewrite Hs, IH.
  - cbn [app parse_lines]. destruct (strip_prefix _ p) as [rest|]; [|by rewrite IH].
    destruct (parse_addr (trim rest)); [done|]. by rewrite IH.
Qed.

Lemma begin_marker_line y : section_lines (BEGIN_MARKER ++ newline :: y) = section_lines y.
Proof.
  unfold section_lines. rewrite lines_line by (apply (bool_decide_unpack _); by vm_compute).
  cbn [fmap list_fmap List.filter].
  assert (starts_with BEGIN_MARKER_PREFIX (trim (strip_cr BEGIN_MARKER)) = true) as -> by by vm_compute.
  by rewrite andb_false_r.
Qed.

Lemma parse_section_placed pre post entries :
  may_start pre -> no_end entries -> Forall readable entries ->
  parse_section (pre ++ section entries ++ post) = entries.
Proof.
  intros Hs Hn Hr. destruct (section_first_at pre post entries Hs Hn) as [Hb He]. unfold parse_section.
  rewrite (find_sub_first _ _ _ _ Hb), (find_sub_first _ _ _ _ He), length_app.
  rewrite (proj2 (Nat.ltb_ge _ _)) by lia. rewrite drop_app_length, Nat.add_comm, Nat.add_sub.
  assert (section entries ++ post = (BEGIN_MARKER ++ [newline] ++ body entries) ++ END_MARKER ++ post) as ->
    by (unfold section; by rewrite <- !app_assoc).
  rewrite take_app_length. cbn [app]. by rewrite begin_marker_line, section_lines_body, parse_lines_entries.
Qed.
End round_trip.

(** ** Merging *)

(** A rebuild of part of the workspace replaces the entries of the targets it
    covers and keeps every other line. *)
Lemma merge_section_elem {nom : Nom} ex fresh m e :
  e ∈ merge_section ex fresh m <->
  e ∈ fresh \/ (e ∈ parse_section ex /\ forall a, ge_addr e = Some a -> matches_addr m a <> MatchYes).
Proof.
  unfold merge_section, normalize_entries. rewrite dedup_adjacent_elem, sort_by_elem, elem_of_app.
  rewrite list_elem_of_In, filter_In, <- list_elem_of_In.
  rewrite (or_comm (e ∈ fresh)). apply or_iff_compat_r, and_iff_compat_l. destruct (ge_addr e) as [a|]; [|by split].
  destruct (matches_addr m a) eqn:E; split; try done; [by intros H; destruct (H a)|intros _ ? [= <-]; by rewrite E..].
Qed.

(** The managed section round-trips and nothing else of the file is touched.
    For a file that has a section or no trace of one there are a text before and a
    text after, whatever the entries: rendering puts the section between them,
    parsing the result gives the entries back, and rendering again, with the same
    entries or others, replaces the section only; in particular rendering twice is
    rendering once. *)
Theorem gitignore_round_trip {nom : Nom} ex :
  well_marked ex ->
  exists pre post,
    ((exists old, ex = pre ++ old ++ post) \/ (ex `prefix_of` pre /\ post = [newline])) /\
    forall entries, no_end entries -> Forall readable entries ->
      render ex entries = pre ++ section entries ++ post /\
      parse_section (render ex entries) = entries /\
      (forall entries', render (render ex entries) entries' = pre ++ section entries' ++ post).
Proof.
  intros Hw. destruct (render_shape ex Hw) as (pre & post & Hout & Hs & Hr). exists pre, post. split; [done|].
  intros entries Hn Hrd. split; [done|]. rewrite Hr. split; [by apply parse_section_placed|].
  intros entries'. rewrite <- (Hr entries), (render_again ex entries entries') by done. apply Hr.
Qed.

Definition sample_entries : list GitignoreEntry :=
  [ mkEntry $"/gen" (Some (mkAddr $"p" $"x" [])); mkEntry $"# kept by hand" None;
    mkEntry $"/q/*.go" (Some (mkAddr $"q" $"y" [($"k", $"v")])) ].

Lemma gitignore_round_trip_witness :
  @parse_section nom_ref (render $"target/" sample_entries) = sample_entries /\
  render (render $"target/" sample_entries) sample_entries = render $"target/" sample_entries.
Proof.
  destruct (@gitignore_round_trip nom_ref $"target/") as (pre & post & _ & H).
  { right. split; apply find_sub_None; by vm_compute. }
  destruct (H sample_entries) as (E & Hp & Hr).
  - unfold no_end, sample_entries. rewrite !Forall_cons, Forall_nil. split_and!; [apply find_sub_None; by vm_compute..|done].
  - unfold sample_entries. rewrite !Forall_cons, Forall_nil. unfold readable, plain_line. cbn [pattern ge_addr].
    split_and!; try done; try (apply (bool_decide_unpack _); by vm_compute); by vm_compute.
  - split; [exact Hp|]. rewrite Hr. by rewrite E.
Defined.

(** Where the markers are out of order or one is missing, rendering is not
    idempotent: after a stray end marker every run appends one more section, and
    after a begin marker without its end the second run removes what the user wrote
    below it. *)
Theorem gitignore_not_idempotent :
  let stray := END_MARKER ++ [newline] in
  let open := BEGIN_MARKER_PREFIX ++ [newline] ++ $"mine" ++ [newline] in
  render (render stray []) [] <> render stray [] /\
  find_sub $"mine" (render open []) = Some 23%nat /\ find_sub $"mine" (render (render open []) []) = None.
Proof. split_and!; [apply (bool_decide_unpack _)|..]; by vm_compute. Qed.
