(* ===== verification/WriteQueue.v ===== *)
(** The write-behind queue of the SQLite cache:
    [crates/engine/src/engine/local_cache_sqlite.rs].

    Writes and deletes of cache entries are queued to one thread, which commits
    them in batches, one transaction each. Readers of a key that is still queued
    wait for it. What they find is a slot: the tracker maps each queued key to the
    slot of the last command for it, and the slot is completed when the batch of
    that command is over.

    [step] has one transition per critical section: under the lock of the tracker,
    under the lock of a slot, the commit of a transaction, and each message taken
    from the channel. Rows and connections are SQLite's: any call of a transaction
    may fail, which rolls it back. *)
From S2P Require Import Prelude.

(** [(addr, hashin, name)]. *)
Abbreviation Key := (str * str * str)%type.
Abbreviation bytes := (list N).
(** The committed rows. *)
Abbreviation rows := (gmap Key bytes).

Definition WRITE_BATCH_MAX : nat := 64.
Definition WRITE_BATCH_MAX_BYTES : N := 33554432.
Definition i64_max : N := 9223372036854775807.

(** ** Slots *)

(** [wakers]: who waits, a thread on the condition variable or a task. *)
Record SlotState := mkSlot { done : bool; wakers : list N }.

Definition SlotState_new : SlotState := mkSlot false [].

(** One look at a slot, [PendingSlot::wait_async] or an iteration of [wait]: ready,
    or the caller is left among those to wake. *)
Definition poll_slot (i : N) (st : SlotState) : bool * SlotState :=
  if done st then (true, st)
  else (false, mkSlot false (if bool_decide (i ∈ wakers st) then wakers st else wakers st ++ [i])).

(** [PendingSlot::complete]: with whom it wakes. *)
Definition complete_slot (st : SlotState) : SlotState * list N := (mkSlot true [], wakers st).

(** ** Commands *)

Record WriteJob := mkWriteJob { wj_key : Key; wj_buf : bytes; wj_size : N; wj_slot : N }.
Record DeleteJob := mkDeleteJob { dj_key : Key; dj_slot : N }.
Inductive WriterCmd := Write_ (job : WriteJob) | Delete_ (job : DeleteJob).

Definition cmd_key (c : WriterCmd) : Key := match c with Write_ j => wj_key j | Delete_ j => dj_key j end.
Definition cmd_slot (c : WriterCmd) : N := match c with Write_ j => wj_slot j | Delete_ j => dj_slot j end.

Definition write_bytes (c : WriterCmd) : N := match c with Write_ j => wj_size j | Delete_ _ => 0 end.

(** [SqliteCacheWriter]: the key and the spool, until they are committed. *)
Record SqliteCacheWriter := mkWriter { sw_key : option Key; sw_buf : option bytes; sw_size : N }.

Definition sqlite_writer (key : Key) : SqliteCacheWriter := mkWriter (Some key) (Some []) 0.

(** [write]: the spool takes the first [n] bytes of what it is given. Without a
    spool the code panics. *)
Definition sqlite_write (data : bytes) (n : nat) (w : SqliteCacheWriter) : option SqliteCacheWriter :=
  buf ← sw_buf w;
  Some (mkWriter (sw_key w) (Some (buf ++ take n data)) (sw_size w + N.of_nat (length (take n data)))).

Inductive commit_error := AlreadyCommitted | TooLarge (size : N) | WriterGone.

(** [commit], up to the queue. *)
Definition sqlite_commit (w : SqliteCacheWriter) : result commit_error (N -> WriterCmd) :=
  match sw_key w, sw_buf w with
  | Some key, Some buf =>
      if (sw_size w <=? i64_max)%N then Ok (fun slot => Write_ (mkWriteJob key buf (sw_size w) slot))
      else Err (TooLarge (sw_size w))
  | _, _ => Err AlreadyCommitted
  end.

(** ** The tracker *)

(** [PendingTracker::register_and_send], with [receiving] whether the channel has a
    receiver: the slot to wait for, the tracker, the channel and the displaced slot
    the caller has to complete. *)
Definition register_and_send (receiving : bool) (make : N -> WriterCmd) (slot : N)
    (m : gmap Key N) (tx : list WriterCmd) : option N * gmap Key N * list WriterCmd * list N :=
  let cmd := make slot in
  let key := cmd_key cmd in
  let superseded := m !! key in
  let m := <[key := slot]> m in
  if receiving then (Some slot, m, tx ++ [cmd], [])
  else (None, delete key m, tx, option_list superseded).

(** [pending]. *)
Definition find_pending (key : Key) (m : gmap Key N) : option N := m !! key.

(** The critical section of [PendingTracker::complete]. *)
Definition untrack (key : Key) (slot : N) (m : gmap Key N) : gmap Key N :=
  match m !! key with
  | Some current => if bool_decide (current = slot) then delete key m else m
  | None => m
  end.

(** ** Batches *)

(** The guard of the loop of [collect_batch]. *)
Definition batch_open (batch : list WriterCmd) : bool :=
  Nat.ltb (length batch) WRITE_BATCH_MAX &&
  (foldr (fun c n => write_bytes c + n) 0 batch <? WRITE_BATCH_MAX_BYTES)%N.

(** [collect_batch], where nothing is sent meanwhile: the batch and the channel. *)
Fixpoint collect_from (batch rx : list WriterCmd) : list WriterCmd * list WriterCmd :=
  match rx with
  | [] => (batch, rx)
  | cmd :: r => if batch_open batch then collect_from (batch ++ [cmd]) r else (batch, rx)
  end.
Definition collect_batch (first : WriterCmd) (rx : list WriterCmd) : list WriterCmd * list WriterCmd :=
  collect_from [first] rx.

Inductive db_error := BeginFailed | InsertFailed (k : Key) | OpenFailed (k : Key) | RewindFailed (k : Key)
  | CopyFailed (k : Key) | DeleteFailed (k : Key) | CommitFailed.

Definition check (ok : bool) (e : db_error) : result db_error () := if ok then Ok () else Err e.

(** [zeroblob(size)] written over from its start: a blob does not grow. *)
Definition copy_blob (key : Key) (buf : bytes) (size : N) : result db_error bytes :=
  if Nat.leb (length buf) (N.to_nat size)
  then Ok (buf ++ replicate (N.to_nat size - length buf) 0%N)
  else Err (CopyFailed key).

(** The loop of [process_batch], on the rows the transaction sees. [ok n] is whether
    the [n]-th call on the database, or on a spool, succeeds. *)
Fixpoint exec_batch (ok : nat -> bool) (n : nat) (batch : list WriterCmd) (t : rows) : result db_error (nat * rows) :=
  match batch with
  | [] => Ok (n, t)
  | Write_ job :: r =>
      let k := wj_key job in
      _ ← check (ok n) (InsertFailed k);
      _ ← check (ok (n + 1)) (OpenFailed k);
      _ ← check (ok (n + 2)) (RewindFailed k);
      blob ← copy_blob k (wj_buf job) (wj_size job);
      _ ← check (ok (n + 3)) (CopyFailed k);
      exec_batch ok (n + 4) r (<[k := blob]> t)
  | Delete_ job :: r =>
      _ ← check (ok n) (DeleteFailed (dj_key job));
      exec_batch ok (n + 1) r (delete (dj_key job) t)
  end.

(** [process_batch]: the transaction is rolled back unless it commits. *)
Definition process_batch (ok : nat -> bool) (batch : list WriterCmd) (t : rows) : result db_error () * rows :=
  match (_ ← check (ok 0) BeginFailed;
         '(n, t') ← exec_batch ok 1 batch t;
         _ ← check (ok n) CommitFailed;
         Ok t') with
  | Ok t' => (Ok (), t')
  | Err e => (Err e, t)
  end.

(** ** The thread and its callers *)

(** Where [writer_loop] is: at [recv]; collecting; releasing the slots of a batch
    that is over, each untracked first and completed second; unwinding, with
    [DrainOnExit] completing the slots that were tracked; returned, the receiver
    dropped. *)
Inductive Writer :=
  | Receiving
  | Collecting (batch : list WriterCmd)
  | Completing (batch : list WriterCmd)
  | Releasing (slot : N) (batch : list WriterCmd)
  | Unwinding
  | Draining (stranded : list N)
  | Gone.

(** A caller of [reader], [exists], [delete] or [drain_queued_writes] that has looked
    into the tracker: the key it is about, [None] for all, the slots it has yet to
    wait for, and how many commands had been sent when it looked. Without slots to
    wait for it returns, or goes on to read the rows. *)
Record Caller := mkCaller { c_key : option Key; c_slots : list N; c_seen : nat }.

Record world := mkWorld {
  table : rows;
  slots : gmap N SlotState;
  tracker : gmap Key N;
  queue : list WriterCmd;
  writer : Writer;
  (** Displaced slots a failed send has yet to complete. *)
  displaced : list N;
  callers : gmap N Caller;
  (** Callers that run: the others sleep. *)
  ready : gset N;
  (** The sending ends of the channel still exist. *)
  senders : bool;
  (** Every command sent, and whether the transactions of the first of them
      committed: the history of the queue. *)
  sent : list WriterCmd;
  settled : list bool;
}.

Definition receiving (wr : Writer) : bool := match wr with Gone => false | _ => true end.

Definition with_writer (wr : Writer) (w : world) : world :=
  mkWorld (table w) (slots w) (tracker w) (queue w) wr (displaced w) (callers w) (ready w) (senders w) (sent w) (settled w).
Definition with_queue (q : list WriterCmd) (w : world) : world :=
  mkWorld (table w) (slots w) (tracker w) q (writer w) (displaced w) (callers w) (ready w) (senders w) (sent w) (settled w).
Definition with_tracker (m : gmap Key N) (w : world) : world :=
  mkWorld (table w) (slots w) m (queue w) (writer w) (displaced w) (callers w) (ready w) (senders w) (sent w) (settled w).
Definition with_displaced (d : list N) (w : world) : world :=
  mkWorld (table w) (slots w) (tracker w) (queue w) (writer w) d (callers w) (ready w) (senders w) (sent w) (settled w).
Definition with_ready (r : gset N) (w : world) : world :=
  mkWorld (table w) (slots w) (tracker w) (queue w) (writer w) (displaced w) (callers w) r (senders w) (sent w) (settled w).
Definition drop_senders (w : world) : world :=
  mkWorld (table w) (slots w) (tracker w) (queue w) (writer w) (displaced w) (callers w) (ready w) false (sent w) (settled w).

(** A caller that starts to wait. *)
Definition add_caller (i : N) (c : Caller) (w : world) : world :=
  mkWorld (table w) (slots w) (tracker w) (queue w) (writer w) (displaced w) (<[i := c]> (callers w)) ({[i]} ∪ ready w)
    (senders w) (sent w) (settled w).

(** A slot is completed, its waiters wake. *)
Definition complete_at (s : N) (w : world) : world :=
  match slots w !! s with
  | Some st =>
      mkWorld (table w) (<[s := (complete_slot st).1]> (slots w)) (tracker w) (queue w) (writer w) (displaced w)
        (callers w) (list_to_set (complete_slot st).2 ∪ ready w) (senders w) (sent w) (settled w)
  | None => w
  end.

(** The end of a transaction. *)
Definition settle (batch : list WriterCmd) (r : result db_error () * rows) (w : world) : world :=
  mkWorld r.2 (slots w) (tracker w) (queue w) (Completing batch) (displaced w) (callers w) (ready w) (senders w)
    (sent w) (settled w ++ replicate (length batch) (is_ok r.1)).

(** A command is registered under a new slot and sent. *)
Definition send (make : N -> WriterCmd) (slot : N) (w : world) : world * option N :=
  let '(r, m, q, d) := register_and_send (receiving (writer w)) make slot (tracker w) (queue w) in
  (mkWorld (table w) (<[slot := SlotState_new]> (slots w)) m q (writer w) (displaced w ++ d) (callers w) (ready w)
     (senders w) (sent w ++ (if r is Some _ then [make slot] else [])) (settled w), r).

(** A running caller looks at its slots in turn, up to one that is not completed. *)
Fixpoint poll_slots (i : N) (l : list N) (ss : gmap N SlotState) : list N * gmap N SlotState :=
  match l with
  | [] => ([], ss)
  | s :: r =>
      match poll_slot i (default SlotState_new (ss !! s)) with
      | (true, _) => poll_slots i r ss
      | (false, st) => (l, <[s := st]> ss)
      end
  end.
Definition poll (i : N) (c : Caller) (w : world) : world :=
  let '(l, ss) := poll_slots i (c_slots c) (slots w) in
  mkWorld (table w) ss (tracker w) (queue w) (writer w) (displaced w)
    (<[i := mkCaller (c_key c) l (c_seen c)]> (callers w)) (ready w ∖ {[i]}) (senders w) (sent w) (settled w).

Inductive writer_step : world -> world -> Prop :=
| ws_recv w cmd q : writer w = Receiving -> queue w = cmd :: q ->
    writer_step w (with_writer (Collecting [cmd]) (with_queue q w))
| ws_more w batch cmd q : writer w = Collecting batch -> batch_open batch = true -> queue w = cmd :: q ->
    writer_step w (with_writer (Collecting (batch ++ [cmd])) (with_queue q w))
| ws_process w batch ok : writer w = Collecting batch -> batch_open batch = false \/ queue w = [] ->
    writer_step w (settle batch (process_batch ok batch (table w)) w)
| ws_untrack w cmd r : writer w = Completing (cmd :: r) ->
    writer_step w (with_writer (Releasing (cmd_slot cmd) r) (with_tracker (untrack (cmd_key cmd) (cmd_slot cmd) (tracker w)) w))
| ws_complete w s r : writer w = Releasing s r ->
    writer_step w (complete_at s (with_writer (Completing r) w))
| ws_again w : writer w = Completing [] ->
    writer_step w (with_writer Receiving w).

(** The thread ends: [recv] finds no sender, or it panics. *)
Inductive exit_step : world -> world -> Prop :=
| es_return w : writer w = Receiving -> queue w = [] -> senders w = false -> exit_step w (with_writer Unwinding w)
| es_panic w : writer w = Receiving \/ (exists batch, writer w = Collecting batch \/ writer w = Completing batch) ->
    exit_step w (with_writer Unwinding w)
| es_drain w : writer w = Unwinding ->
    exit_step w (with_writer (Draining (snd <$> map_to_list (tracker w))) (with_tracker ∅ w))
| es_complete w s l : writer w = Draining (s :: l) -> exit_step w (complete_at s (with_writer (Draining l) w))
| es_gone w : writer w = Draining [] -> exit_step w (with_writer Gone (with_queue [] w)).

Inductive caller_step : world -> world -> Prop :=
| cs_commit w sw make slot : senders w = true -> slots w !! slot = None -> sqlite_commit sw = Ok make ->
    caller_step w (send make slot w).1
| cs_delete w i key slot w' r : senders w = true -> slots w !! slot = None -> callers w !! i = None ->
    send (fun slot => Delete_ (mkDeleteJob key slot)) slot w = (w', r) ->
    caller_step w (if r is Some s then add_caller i (mkCaller (Some key) [s] (length (sent w'))) w' else w')
| cs_displaced w s d d' : displaced w = d ++ s :: d' -> caller_step w (complete_at s (with_displaced (d ++ d') w))
| cs_find w i key : callers w !! i = None ->
    caller_step w (add_caller i (mkCaller (Some key) (option_list (find_pending key (tracker w))) (length (sent w))) w)
| cs_drain w i : callers w !! i = None ->
    caller_step w (add_caller i (mkCaller None (snd <$> map_to_list (tracker w)) (length (sent w))) w)
| cs_poll w i c : callers w !! i = Some c -> i ∈ ready w -> caller_step w (poll i c w)
| cs_spurious w i c : callers w !! i = Some c -> caller_step w (with_ready ({[i]} ∪ ready w) w)
| cs_close w : caller_step w (drop_senders w).

Inductive step : world -> world -> Prop :=
| step_writer w w' : writer_step w w' -> step w w'
| step_exit w w' : exit_step w w' -> step w w'
| step_caller w w' : caller_step w w' -> step w w'.

Definition start (t0 : rows) : world := mkWorld t0 ∅ ∅ [] Receiving [] ∅ ∅ true [] [].

Definition reach (t0 : rows) (w : world) : Prop := rtc step (start t0) w.

(** The thread is in its loop. *)
Definition looping (w : world) : Prop :=
  match writer w with Unwinding | Draining _ | Gone => False | _ => True end.

(** ** What the rows mean *)

(** The reference: the commands whose transactions committed, in the order they
    were sent. *)
Definition apply_cmd (t : rows) (c : WriterCmd) : rows :=
  match c with
  | Write_ j => <[wj_key j := wj_buf j ++ replicate (N.to_nat (wj_size j) - length (wj_buf j)) 0%N]> t
  | Delete_ j => delete (dj_key j) t
  end.
Definition replay (t0 : rows) (log : list WriterCmd) (outcomes : list bool) : rows :=
  foldl (fun t '(c, ok) => if ok : bool then apply_cmd t c else t) t0 (zip log outcomes).

Lemma check_ok ok e : check ok e = Ok () <-> ok = true.
Proof. by destruct ok. Qed.

Lemma exec_batch_ok ok n batch t m t' :
  exec_batch ok n batch t = Ok (m, t') -> t' = foldl apply_cmd t batch.
Proof.
  revert n t. induction batch as [|[j|j] r IH]; intros n t; simpl; [by intros [= _ ->]| |];
    rewrite ?result_bind_ok; intros H; repeat (destruct H as (? & ? & H); try apply result_bind_ok in H).
  - unfold copy_blob in *. case_match; simplify_eq. by eapply IH.
  - by eapply IH.
Qed.

Lemma process_batch_spec ok batch t :
  (process_batch ok batch t).2 =
  if is_ok (process_batch ok batch t).1 then foldl apply_cmd t batch else t.
Proof.
  unfold process_batch. destruct (check (ok 0) BeginFailed); [|done]. simpl.
  destruct (exec_batch ok 1 batch t) as [[n t']|] eqn:E; [|done]. simpl.
  destruct (check (ok n) CommitFailed); [|done]. by apply exec_batch_ok in E.
Qed.

Lemma replay_more t0 pre batch q outs ok : length pre = length outs ->
  replay t0 (pre ++ batch ++ q) (outs ++ replicate (length batch) ok) =
  if ok : bool then foldl apply_cmd (replay t0 (pre ++ batch ++ q) outs) batch else replay t0 (pre ++ batch ++ q) outs.
Proof.
  intros Hl. unfold replay. rewrite zip_with_app by done. rewrite foldl_app.
  assert (zip_with pair (pre ++ batch ++ q) outs = zip_with pair pre outs) as ->.
  { pose proof (zip_with_app pair pre (batch ++ q) outs [] Hl) as E. by rewrite zip_with_nil_r, !app_nil_r in E. }
  generalize (foldl (fun t '(c, ok) => if ok : bool then apply_cmd t c else t) t0 (zip_with pair pre outs)).
  induction batch as [|c b IH]; intros t; simpl; [by destruct ok, q|]. rewrite IH. by destruct ok.
Qed.

Lemma replay_sent t0 log more outs : length outs <= length log -> replay t0 (log ++ more) outs = replay t0 log outs.
Proof.
  intros Hl. unfold replay. f_equal. revert outs Hl.
  induction log as [|c log IH]; intros [|o outs] Hl; simpl in *; [by destruct more|lia|done|]. f_equal. apply IH. lia.
Qed.

(** ** The invariant *)

(** Commands whose slots are tracked, and commands whose transactions are to come:
    both are ends of what was sent. *)
Definition held (wr : Writer) : list WriterCmd :=
  match wr with Collecting b | Completing b | Releasing _ b => b | _ => [] end.
Definition live (w : world) : list WriterCmd := held (writer w) ++ queue w.
Definition uncommitted (w : world) : list WriterCmd :=
  match writer w with Collecting b => b | _ => [] end ++ queue w.

(** The slot of the last command for a key. *)
Definition last_slot (k : Key) (l : list WriterCmd) : option N :=
  cmd_slot <$> last (filter (fun c => cmd_key c = k) l).

Definition wants (c : Caller) (cmd : WriterCmd) : Prop :=
  match c_key c with Some k => cmd_key cmd = k | None => True end.

Definition undone (s : N) (ss : gmap N SlotState) : Prop := exists st, ss !! s = Some st /\ done st = false.

Record inv (t0 : rows) (w : world) : Prop := {
  inv_live : exists pre, sent w = pre ++ live w /\
    match writer w with Releasing s _ => exists c, last pre = Some c /\ cmd_slot c = s | _ => True end;
  inv_settled : exists pre, sent w = pre ++ uncommitted w /\ length pre = length (settled w);
  inv_table : table w = replay t0 (sent w) (settled w);
  inv_tracker : forall k, tracker w !! k = last_slot k (live w);
  inv_distinct : NoDup (cmd_slot <$> sent w);
  inv_allocated : forall c, c ∈ sent w -> is_Some (slots w !! cmd_slot c);
  inv_undone : forall c, c ∈ live w -> undone (cmd_slot c) (slots w);
  inv_done : forall s, undone s (slots w) ->
    s ∈ cmd_slot <$> live w \/ exists r, writer w = Releasing s r;
  inv_displaced : displaced w = [];
  inv_seen : forall i c, callers w !! i = Some c -> c_seen c <= length (sent w) /\
    forall j cmd, j < c_seen c -> sent w !! j = Some cmd -> wants c cmd ->
      j < length (settled w) \/
      exists s j' cmd', s ∈ c_slots c /\ sent w !! j' = Some cmd' /\ cmd_slot cmd' = s /\ j <= j';
}.

(** Nobody sleeps on a slot that will not wake it: kept by every step. *)
Definition awake (w : world) : Prop :=
  (forall i c, callers w !! i = Some c ->
    i ∈ ready w \/ c_slots c = [] \/
    exists s r st, c_slots c = s :: r /\ slots w !! s = Some st /\ done st = false /\ i ∈ wakers st) /\
  (forall i c s, callers w !! i = Some c -> s ∈ c_slots c -> is_Some (slots w !! s)) /\
  (forall k s, tracker w !! k = Some s -> is_Some (slots w !! s)).

Lemma last_slot_snoc k l c :
  last_slot k (l ++ [c]) = if decide (cmd_key c = k) then Some (cmd_slot c) else last_slot k l.
Proof.
  unfold last_slot. rewrite filter_app, filter_cons, filter_nil. case_decide; [by rewrite last_snoc|by rewrite app_nil_r].
Qed.

Lemma last_slot_elem k l s : last_slot k l = Some s -> s ∈ cmd_slot <$> l.
Proof.
  unfold last_slot. intros H. apply fmap_Some in H as (c & H & ->). apply list_elem_of_fmap. exists c. split; [done|].
  apply last_Some_elem_of, list_elem_of_filter in H as [_ H]. done.
Qed.

Lemma last_slot_later k l j c : l !! j = Some c -> cmd_key c = k ->
  exists j' c', j <= j' /\ l !! j' = Some c' /\ last_slot k l = Some (cmd_slot c').
Proof.
  revert j. induction l as [|c' l IH] using rev_ind; intros j Hj Hk; [done|]. rewrite last_slot_snoc.
  case_decide as Hc.
  - exists (length l), c'. split; [|by rewrite lookup_app_r, Nat.sub_diag by done].
    apply lookup_lt_Some in Hj. rewrite length_app in Hj. simpl in Hj. lia.
  - apply lookup_snoc_Some in Hj as [[_ Hj]|[_ <-]]; [|done].
    destruct (IH j Hj Hk) as (j' & c'' & ? & Hj' & ?). exists j', c''. split_and!; [done| |done].
    by apply lookup_app_l_Some.
Qed.

Lemma untrack_spec m c r : NoDup (cmd_slot <$> (c :: r)) -> (forall k, m !! k = last_slot k (c :: r)) ->
  forall k, untrack (cmd_key c) (cmd_slot c) m !! k = last_slot k r.
Proof.
  intros Hnd Hm k. apply NoDup_cons in Hnd as [Hc _].
  assert (Hcons : forall k, last_slot k (c :: r) =
    match last_slot k r with Some s => Some s | None => if decide (cmd_key c = k) then Some (cmd_slot c) else None end).
  { intros k'. unfold last_slot. rewrite filter_cons. case_decide; [|by destruct (last _)].
    rewrite last_cons. by destruct (last _). }
  unfold untrack. pose proof (Hm (cmd_key c)) as Hk. rewrite Hcons in Hk.
  destruct (last_slot (cmd_key c) r) as [s|] eqn:E.
  - rewrite Hk. rewrite bool_decide_eq_false_2; [|by intros ->; apply last_slot_elem in E].
    rewrite Hm, Hcons. destruct (last_slot k r) eqn:E'; [done|]. case_decide; [congruence|done].
  - rewrite decide_True in Hk by done. rewrite Hk, bool_decide_eq_true_2 by done.
    destruct (decide (cmd_key c = k)) as [<-|Hne]; [by rewrite lookup_delete_eq|].
    rewrite lookup_delete_ne, Hm, Hcons, decide_False by done. by destruct (last_slot k r).
Qed.

(** A slot that is completed, or polled, leaves the others as they are. *)
Lemma undone_insert s s' st ss : undone s (<[s' := st]> ss) <-> (s = s' /\ done st = false) \/ (s <> s' /\ undone s ss).
Proof.
  unfold undone. destruct (decide (s = s')) as [->|Hne].
  - rewrite lookup_insert_eq. naive_solver.
  - setoid_rewrite lookup_insert_ne; [|done]. naive_solver.
Qed.

Lemma poll_slots_undone i l ss s : Forall (fun s => is_Some (ss !! s)) l ->
  undone s (poll_slots i l ss).2 <-> undone s ss.
Proof.
  induction 1 as [|s' l [st Hs] Hl IH]; simpl; [done|]. rewrite Hs. unfold poll_slot. simpl.
  destruct (done st) eqn:E; [done|]. simpl. rewrite undone_insert. simpl.
  destruct (decide (s = s')) as [->|]; [|naive_solver]. split; [by exists st|by left].
Qed.

Lemma poll_slots_dom i l ss s : is_Some (ss !! s) -> is_Some ((poll_slots i l ss).2 !! s).
Proof.
  intros Hs. induction l as [|s' l IH]; simpl; [done|]. destruct (poll_slot i _) as [[] st]; [done|].
  simpl. destruct (decide (s = s')) as [->|]; [by rewrite lookup_insert_eq|by rewrite lookup_insert_ne].
Qed.

(** What is left to wait for: an end of the list, and what is not is completed. *)
Lemma poll_slots_left i l ss s : s ∈ l -> s ∈ (poll_slots i l ss).1 \/ exists st, default SlotState_new (ss !! s) = st /\ done st = true.
Proof.
  induction l as [|s' l IH]; simpl; [set_solver|]. unfold poll_slot.
  destruct (done (default SlotState_new (ss !! s'))) eqn:E; simpl; [|by left].
  intros [->|?]%elem_of_cons; [right; eauto|auto].
Qed.

Lemma poll_slots_incl i l ss s : s ∈ (poll_slots i l ss).1 -> s ∈ l.
Proof.
  induction l as [|s' l IH]; simpl; [done|]. unfold poll_slot.
  destruct (done (default SlotState_new (ss !! s'))); simpl; [|done]. intros H. right. auto.
Qed.

(** A caller that stops waiting at a slot is left among those it wakes. *)
Lemma poll_slots_head i l ss s r : (poll_slots i l ss).1 = s :: r ->
  exists st, (poll_slots i l ss).2 !! s = Some st /\ done st = false /\ i ∈ wakers st.
Proof.
  induction l as [|s' l IH]; simpl; [done|]. unfold poll_slot.
  destruct (done (default SlotState_new (ss !! s'))) eqn:E; simpl; [done|]. intros [= -> ->].
  eexists. rewrite lookup_insert_eq. split_and!; [done..|]. simpl. case_bool_decide; [done|]. set_solver.
Qed.

(** ** Nobody sleeps for ever by a lost wake-up *)

Lemma complete_at_awake s w : awake w -> awake (complete_at s w).
Proof.
  intros (H1 & H2 & H3). unfold complete_at. destruct (slots w !! s) as [st|] eqn:Es; [|done].
  assert (Hdom : forall s', is_Some (slots w !! s') -> is_Some (<[s := (complete_slot st).1]> (slots w) !! s')).
  { intros s' ?. destruct (decide (s = s')) as [->|]; [by rewrite lookup_insert_eq|by rewrite lookup_insert_ne]. }
  split_and!; simpl; [|by eauto..]. intros i c Hc.
  destruct (H1 i c Hc) as [?|[?|(s' & r & st' & Hs & Hst & Hd & Hi)]]; [left; set_solver|by right; left|].
  destruct (decide (s = s')) as [->|Hne]; [left; simplify_eq; set_solver|].
  right; right. exists s', r, st'. by rewrite lookup_insert_ne.
Qed.

Lemma add_caller_awake i c w : (forall s, s ∈ c_slots c -> is_Some (slots w !! s)) -> awake w -> awake (add_caller i c w).
Proof.
  intros Hc (H1 & H2 & H3). split_and!; simpl; [| |done].
  - intros i' c'. rewrite lookup_insert_Some. intros [[<- <-]|[Hn H]]; [left; set_solver|].
    destruct (H1 i' c' H) as [?|?]; [left; set_solver|by right].
  - intros i' c' s. rewrite lookup_insert_Some. intros [[<- <-]|[Hn H]]; [auto|by eapply H2].
Qed.

Lemma send_awake make slot w : slots w !! slot = None -> cmd_slot (make slot) = slot ->
  awake w -> awake (send make slot w).1.
Proof.
  intros Hfresh Hslot (H1 & H2 & H3).
  assert (Hdom : forall s', is_Some (slots w !! s') -> is_Some (<[slot := SlotState_new]> (slots w) !! s')).
  { intros s' ?. destruct (decide (slot = s')) as [->|]; [by rewrite lookup_insert_eq|by rewrite lookup_insert_ne]. }
  unfold send, register_and_send. destruct (receiving (writer w)); (split_and!; simpl; [|by eauto|]).
  1,3: intros i c Hc; destruct (H1 i c Hc) as [?|[?|(s' & r & st' & Hs & Hst & Hd & Hi)]]; [by left|by right; left|];
    right; right; exists s', r, st'; rewrite lookup_insert_ne by (by intros ->; simplify_eq); done.
  - intros k s. rewrite lookup_insert_Some. intros [[_ <-]|[_ ?]]; [by rewrite lookup_insert_eq|eauto].
  - intros k s. rewrite lookup_delete_Some. intros [? H]. rewrite lookup_insert_ne in H by done. eauto.
Qed.

Lemma poll_awake i c w : callers w !! i = Some c -> awake w -> awake (poll i c w).
Proof.
  intros Hi (H1 & H2 & H3). unfold poll. destruct (poll_slots i (c_slots c) (slots w)) as [l ss] eqn:E.
  assert (Hss : ss = (poll_slots i (c_slots c) (slots w)).2) by by rewrite E.
  assert (Hl : l = (poll_slots i (c_slots c) (slots w)).1) by by rewrite E.
  assert (Hall : Forall (fun s => is_Some (slots w !! s)) (c_slots c)) by (apply Forall_forall; eauto).
  split_and!; simpl.
  - intros i' c'. rewrite lookup_insert_Some. intros [[<- <-]|[Hn H]]; simpl.
    + destruct l as [|s r]; [by right; left|]. symmetry in Hl. apply poll_slots_head in Hl as (st & Hst & Hd & Hw).
      rewrite <- Hss in Hst. right; right. by exists s, r, st.
    + destruct (H1 i' c' H) as [?|[?|(s' & r & st' & Hs & Hst & Hd & Hw)]]; [left; set_solver|by right; left|].
      right; right. clear -Hs Hst Hd Hw Hss Hall Hn. subst ss. revert Hall. generalize (c_slots c). intros l Hall.
      exists s', r. enough (exists st, (poll_slots i l (slots w)).2 !! s' = Some st /\ done st = false /\ i' ∈ wakers st) as (st & ?)
        by (by exists st).
      induction Hall as [|s l [st Hst'] Hall IH]; simpl; [by exists st'|]. rewrite Hst'. unfold poll_slot. simpl.
      destruct (done st) eqn:Ed; [done|]. simpl. destruct (decide (s = s')) as [->|Hne].
      * rewrite lookup_insert_eq. eexists. split; [done|]. simplify_eq. simpl. split; [done|]. case_bool_decide; set_solver.
      * rewrite lookup_insert_ne by done. by exists st'.
  - intros i' c' s. subst ss l. rewrite lookup_insert_Some. intros [[<- <-]|[Hn H]] Hs; simpl in *; apply poll_slots_dom.
    + apply poll_slots_incl in Hs. eauto.
    + eauto.
  - intros k s H. subst ss. apply poll_slots_dom. eauto.
Qed.

Lemma untrack_incl k s m k' s' : untrack k s m !! k' = Some s' -> m !! k' = Some s'.
Proof.
  unfold untrack. destruct (m !! k) as [c|]; [|done]. case_bool_decide; [|done]. rewrite lookup_delete_Some. naive_solver.
Qed.

Lemma map_values_elem (m : gmap Key N) s : s ∈ snd <$> map_to_list m <-> exists k, m !! k = Some s.
Proof.
  rewrite list_elem_of_fmap. split.
  - intros ((k & s') & -> & H). exists k. by apply elem_of_map_to_list.
  - intros (k & H). exists (k, s). split; [done|]. by apply elem_of_map_to_list.
Qed.

Lemma option_list_elem (o : option N) s : s ∈ option_list o <-> o = Some s.
Proof. destruct o; simpl; set_solver. Qed.

Lemma commit_slot sw make slot : sqlite_commit sw = Ok make -> cmd_slot (make slot) = slot.
Proof. unfold sqlite_commit. intros H. repeat case_match; by simplify_eq. Qed.

Lemma step_awake w w' : awake w -> step w w' -> awake w'.
Proof.
  intros Ha. destruct 1 as [w w' H|w w' H|w w' H]; destruct H; try exact Ha; try (apply complete_at_awake; exact Ha).
  - destruct Ha as (H1 & H2 & H3). split_and!; [done..|]. intros k s Hk. apply untrack_incl in Hk. eauto.
  - destruct Ha as (H1 & H2 & H3). by split_and!.
  - eapply send_awake; [done|by eapply commit_slot|done].
  - pose proof (send_awake (fun slot => Delete_ (mkDeleteJob key slot)) slot w H0 eq_refl Ha) as Hs. rewrite H2 in Hs.
    destruct r as [s|]; [|done]. apply add_caller_awake; [|done]. intros s' ->%list_elem_of_singleton.
    unfold send, register_and_send in H2. destruct (receiving (writer w)); simplify_eq; simpl.
    by rewrite lookup_insert_eq.
  - apply add_caller_awake; [|done]. intros s Hs. apply option_list_elem in Hs. by eapply Ha.
  - apply add_caller_awake; [|done]. intros s Hs. apply map_values_elem in Hs as [k ?]. by eapply Ha.
  - by apply poll_awake.
  - destruct Ha as (H1 & H2 & H3). split_and!; [|done..]. intros i' c' Hc. destruct (H1 i' c' Hc); [left; set_solver|by right].
Qed.

Lemma reach_awake t0 w : reach t0 w -> awake w.
Proof.
  unfold reach. remember (start t0) as w0. intros H. assert (awake w0) as Ha by (subst; by split_and!).
  clear Heqw0. induction H; eauto using step_awake.
Qed.

(** ** The invariant holds while the thread is in its loop *)

Lemma live_index t0 w c : inv t0 w -> forall j, sent w !! j = Some c -> c ∉ live w -> j < length (settled w).
Proof.
  intros Hi j Hj Hc. destruct (inv_live _ _ Hi) as (pre & E & _). destruct (inv_settled _ _ Hi) as (pre' & E' & Hl).
  rewrite E in Hj. rewrite <- Hl. apply lookup_app_Some in Hj as [Hj|[_ Hj]].
  - apply lookup_lt_Some in Hj. assert (length (uncommitted w) <= length (live w)) as Hu.
    { unfold uncommitted, live, held. rewrite !length_app. destruct (writer w); simpl; lia. }
    apply (f_equal length) in E, E'. rewrite length_app in E, E'. lia.
  - by apply list_elem_of_lookup_2 in Hj.
Qed.

(** Moves that change neither the history nor what is tracked. *)
Lemma inv_move t0 w wr q r s : inv t0 w ->
  (match writer w with Releasing _ _ => False | _ => True end) -> (match wr with Releasing _ _ => False | _ => True end) ->
  let w' := mkWorld (table w) (slots w) (tracker w) q wr (displaced w) (callers w) r s (sent w) (settled w) in
  live w' = live w -> uncommitted w' = uncommitted w -> inv t0 w'.
Proof.
  intros Hi Hr Hr' w' El Eu. destruct Hi as [H1 H2 H3 H4 H5 H6 H7 H8 H9 H10]. split; simpl; rewrite ?El, ?Eu; try done.
  - destruct H1 as (pre & E & _). exists pre. split; [done|]. by destruct wr.
  - intros s' Hs'. destruct (H8 s' Hs') as [?|[l E]]; [by left|]. by rewrite E in Hr.
Qed.

Lemma inv_settle t0 w batch ok : inv t0 w -> writer w = Collecting batch ->
  inv t0 (settle batch (process_batch ok batch (table w)) w).
Proof.
  intros Hi Hw. pose proof Hi as [H1 H2 H3 H4 H5 H6 H7 H8 H9 H10].
  unfold live, uncommitted in *. rewrite Hw in *. simpl in *.
  destruct H2 as (pre & E & Hl). split; simpl; unfold live, uncommitted; simpl; try done.
  - exists (pre ++ batch). rewrite <- app_assoc. split; [done|]. rewrite !length_app, length_replicate. lia.
  - rewrite process_batch_spec. rewrite E, replay_more by done. rewrite <- E, <- H3. done.
  - intros s Hs. destruct (H8 s Hs) as [?|[l E']]; [by left|]. done.
  - intros i c Hc. destruct (H10 i c Hc) as [? Hs]. split; [done|]. intros j cmd Hj Hcmd Hwants.
    destruct (Hs j cmd Hj Hcmd Hwants); [left; rewrite length_app; lia|by right].
Qed.

Lemma sent_index w s j j' c c' : NoDup (cmd_slot <$> sent w) -> sent w !! j = Some c -> sent w !! j' = Some c' ->
  cmd_slot c = s -> cmd_slot c' = s -> j = j'.
Proof.
  intros Hnd Hj Hj' Hc Hc'. eapply NoDup_lookup; [exact Hnd|..]; rewrite list_lookup_fmap.
  - rewrite Hj. simpl. by rewrite Hc.
  - rewrite Hj'. simpl. by rewrite Hc'.
Qed.

Lemma live_distinct t0 w : inv t0 w -> NoDup (cmd_slot <$> live w).
Proof.
  intros Hi. destruct (inv_live _ _ Hi) as (pre & E & _). pose proof (inv_distinct _ _ Hi) as Hnd.
  rewrite E, fmap_app in Hnd. by apply NoDup_app in Hnd as (_ & _ & ?).
Qed.

Lemma inv_untrack t0 w c r : inv t0 w -> writer w = Completing (c :: r) ->
  inv t0 (with_writer (Releasing (cmd_slot c) r) (with_tracker (untrack (cmd_key c) (cmd_slot c) (tracker w)) w)).
Proof.
  intros Hi Hw. pose proof (live_distinct _ _ Hi) as Hnd. destruct Hi as [H1 H2 H3 H4 H5 H6 H7 H8 H9 H10].
  unfold live, uncommitted in *. rewrite Hw in *. simpl in *.
  split; simpl; unfold live, uncommitted; simpl; try done.
  - destruct H1 as (pre & E & _). exists (pre ++ [c]). rewrite <- app_assoc. split; [done|].
    exists c. by rewrite last_snoc.
  - by apply untrack_spec.
  - intros c' Hc'. apply H7. by right.
  - intros s Hs. destruct (H8 s Hs) as [Hin|[l E]]; [|done]. apply elem_of_cons in Hin as [->|?]; [right; eauto|by left].
Qed.

Lemma inv_complete t0 w s r : inv t0 w -> writer w = Releasing s r -> inv t0 (complete_at s (with_writer (Completing r) w)).
Proof.
  intros Hi Hw. pose proof (inv_distinct _ _ Hi) as Hnd. destruct Hi as [H1 H2 H3 H4 H5 H6 H7 H8 H9 H10].
  unfold live, uncommitted in *. rewrite Hw in *. simpl in *. destruct H1 as (pre & E & c & Hlast & Hslot).
  assert (Hnot : s ∉ cmd_slot <$> (r ++ queue w)).
  { apply last_Some in Hlast as [pre' ->]. rewrite E, <- app_assoc, fmap_app in Hnd. simpl in Hnd.
    apply NoDup_app in Hnd as (_ & _ & Hnd). apply NoDup_cons in Hnd as [Hnd _]. by rewrite Hslot in Hnd. }
  assert (Hc : is_Some (slots w !! s)).
  { rewrite <- Hslot. apply H6. rewrite E. apply elem_of_app. left. by apply last_Some_elem_of. }
  destruct Hc as [st Hst]. unfold complete_at. simpl. rewrite Hst. simpl.
  split; simpl; unfold live, uncommitted; simpl; try done.
  - by exists pre.
  - intros c' Hc'. destruct (decide (s = cmd_slot c')) as [->|]; [by rewrite lookup_insert_eq|].
    rewrite lookup_insert_ne by done. by apply H6.
  - intros c' Hc'. apply undone_insert. right. split; [|by apply H7].
    intros Es. apply Hnot. rewrite <- Es. by apply list_elem_of_fmap_2.
  - intros s' Hs'. apply undone_insert in Hs' as [[_ ?]|[Hne Hs']]; [done|].
    destruct (H8 s' Hs') as [?|[l E']]; [by left|]. congruence.
Qed.

Lemma looping_receiving w : looping w -> receiving (writer w) = true.
Proof. unfold looping. by destruct (writer w). Qed.

(** A send while the thread is in its loop. *)
Lemma send_looping make slot w : looping w ->
  send make slot w =
  (mkWorld (table w) (<[slot := SlotState_new]> (slots w)) (<[cmd_key (make slot) := slot]> (tracker w)) (queue w ++ [make slot])
     (writer w) (displaced w ++ []) (callers w) (ready w) (senders w) (sent w ++ [make slot]) (settled w), Some slot).
Proof. intros Hl. unfold send, register_and_send. by rewrite looping_receiving. Qed.

Lemma inv_send t0 w make slot : inv t0 w -> looping w -> slots w !! slot = None -> cmd_slot (make slot) = slot ->
  inv t0 (send make slot w).1.
Proof.
  intros Hi Hl Hfresh Hslot. rewrite send_looping by done. pose proof Hi as [H1 H2 H3 H4 H5 H6 H7 H8 H9 H10].
  set (c := make slot) in *.
  assert (Hns : forall c', c' ∈ sent w -> cmd_slot c' <> slot).
  { intros c' Hc' E. apply H6 in Hc'. rewrite E, Hfresh in Hc'. by destruct Hc'. }
  assert (Hlen : length (settled w) <= length (sent w)).
  { destruct H2 as (pre & E & Hp). rewrite E, length_app. lia. }
  split; simpl; unfold live, uncommitted; simpl.
  - destruct H1 as (pre & E & Hr). exists pre. rewrite E. unfold live. by rewrite <- !app_assoc.
  - destruct H2 as (pre & E & Hp). exists pre. rewrite E. unfold uncommitted. by rewrite <- !app_assoc.
  - by rewrite replay_sent.
  - intros k. rewrite app_assoc, last_slot_snoc, Hslot. case_decide as Hk; [by rewrite Hk, lookup_insert_eq|].
    rewrite lookup_insert_ne by done. apply H4.
  - rewrite fmap_app. apply NoDup_app. split_and!; [done| |apply NoDup_singleton].
    intros s (c' & -> & Hc')%list_elem_of_fmap Hs. simpl in Hs. rewrite Hslot in Hs.
    apply list_elem_of_singleton in Hs. by eapply Hns.
  - intros c' [Hc'| ->%list_elem_of_singleton]%elem_of_app; [|by rewrite Hslot, lookup_insert_eq].
    rewrite lookup_insert_ne; [by apply H6|]. intros E. symmetry in E. by eapply Hns.
  - intros c'. rewrite app_assoc, elem_of_app, list_elem_of_singleton. intros [Hc'| ->].
    + apply undone_insert. right. split; [|by apply H7]. destruct H1 as (pre & E & _). apply Hns. rewrite E.
      apply elem_of_app. by right.
    + rewrite Hslot. apply undone_insert. by left.
  - intros s Hs. rewrite app_assoc, fmap_app. apply undone_insert in Hs as [[-> _]|[_ Hs]].
    + left. apply elem_of_app. right. simpl. rewrite Hslot. left.
    + destruct (H8 s Hs); [left; apply elem_of_app; by left|by right].
  - by rewrite H9.
  - intros i c' Hc'. destruct (H10 i c' Hc') as [Hseen Hs]. rewrite length_app. split; [lia|].
    intros j cmd Hj Hcmd Hw. rewrite lookup_app_l in Hcmd by lia.
    destruct (Hs j cmd Hj Hcmd Hw) as [?|(s & j' & cmd' & ? & ? & ? & ?)]; [by left|right].
    exists s, j', cmd'. split_and!; [done| |done..]. by apply lookup_app_l_Some.
Qed.

(** What is tracked for the keys a caller is about covers what is uncommitted. *)
Lemma tracked_covers t0 w j cmd : inv t0 w -> sent w !! j = Some cmd ->
  j < length (settled w) \/
  exists s j' cmd', tracker w !! cmd_key cmd = Some s /\ sent w !! j' = Some cmd' /\ cmd_slot cmd' = s /\ j <= j'.
Proof.
  intros Hi Hj. destruct (decide (j < length (settled w))) as [|Hge]; [by left|right].
  destruct (inv_live _ _ Hi) as (pre & E & _). rewrite (inv_tracker _ _ Hi).
  assert (Hpre : length pre <= j).
  { destruct (decide (length pre <= j)); [done|]. exfalso. apply Hge.
    destruct (inv_settled _ _ Hi) as (pre' & E' & Hp). rewrite <- Hp.
    assert (length (uncommitted w) <= length (live w)) as Hu.
    { unfold uncommitted, live, held. rewrite !length_app. destruct (writer w); simpl; lia. }
    apply (f_equal length) in E, E'. rewrite length_app in E, E'. lia. }
  rewrite E, lookup_app_r in Hj by done.
  destruct (last_slot_later _ _ _ _ Hj eq_refl) as (j' & cmd' & Hle & Hj' & Hlast).
  exists (cmd_slot cmd'), (length pre + j'), cmd'. split_and!; [done| |done|lia].
  rewrite E, lookup_app_r by lia. rewrite <- Hj'. f_equal. lia.
Qed.

Lemma inv_add_caller t0 w i c : inv t0 w -> c_seen c <= length (sent w) ->
  (forall j cmd, j < c_seen c -> sent w !! j = Some cmd -> wants c cmd ->
      j < length (settled w) \/
      exists s j' cmd', s ∈ c_slots c /\ sent w !! j' = Some cmd' /\ cmd_slot cmd' = s /\ j <= j') ->
  inv t0 (add_caller i c w).
Proof.
  intros [H1 H2 H3 H4 H5 H6 H7 H8 H9 H10] Hseen Hc. split; simpl; try done.
  intros i' c'. rewrite lookup_insert_Some. intros [[_ <-]|[_ H]]; [done|by eapply H10].
Qed.

Lemma inv_poll t0 w i c : inv t0 w -> awake w -> callers w !! i = Some c -> inv t0 (poll i c w).
Proof.
  intros Hi Ha Hc. pose proof Hi as [H1 H2 H3 H4 H5 H6 H7 H8 H9 H10].
  unfold poll. destruct (poll_slots i (c_slots c) (slots w)) as [l ss] eqn:E.
  assert (Hss : ss = (poll_slots i (c_slots c) (slots w)).2) by by rewrite E.
  assert (Hl : l = (poll_slots i (c_slots c) (slots w)).1) by by rewrite E.
  assert (Hall : Forall (fun s => is_Some (slots w !! s)) (c_slots c)).
  { apply Forall_forall. intros s Hs. destruct Ha as (_ & Ha & _). eauto. }
  split; simpl; unfold live, uncommitted; simpl; try done.
  - intros c' Hc'. subst ss. apply poll_slots_dom. by apply H6.
  - intros c' Hc'. subst ss. apply poll_slots_undone; [done|by apply H7].
  - intros s Hs. subst ss. apply poll_slots_undone in Hs; [by apply H8|done].
  - intros i' c'. rewrite lookup_insert_Some. intros [[_ <-]|[_ H]]; [simpl|by eapply H10].
    destruct (H10 i c Hc) as [Hseen Hs]. split; [done|]. intros j cmd Hj Hcmd Hw.
    destruct (Hs j cmd Hj Hcmd Hw) as [?|(s & j' & cmd' & Hin & Hj' & Hsl & Hle)]; [by left|].
    destruct (poll_slots_left i _ (slots w) s Hin) as [Hl'|(st & Hst & Hd)].
    + right. exists s, j', cmd'. by rewrite Hl.
    + left. enough (j' < length (settled w)) by lia. eapply live_index; [done..|]. intros Hlive.
      apply H7 in Hlive as (st' & Hst' & Hd'). rewrite Hsl in Hst'. rewrite Hst' in Hst. simpl in Hst. congruence.
Qed.

Lemma queue_step_inv t0 w w' : inv t0 w -> awake w -> looping w -> step w w' -> looping w' -> inv t0 w'.
Proof.
  intros Hi Ha Hl H Hl'. destruct H as [w w' H|w w' H|w w' H]; destruct H.
  - eapply (inv_move t0 w (Collecting [cmd]) q); [done|by rewrite H|done|..]; unfold live, uncommitted; simpl;
      by rewrite H, H0.
  - eapply (inv_move t0 w (Collecting (batch ++ [cmd])) q); [done|by rewrite H|done|..]; unfold live, uncommitted; simpl;
      by rewrite H, H1, <- app_assoc.
  - by apply inv_settle.
  - by apply inv_untrack.
  - by apply inv_complete.
  - eapply (inv_move t0 w Receiving (queue w)); [done|by rewrite H|done|..]; unfold live, uncommitted; simpl; by rewrite H.
  - done.
  - done.
  - done.
  - unfold looping in Hl. by rewrite H in Hl.
  - done.
  - apply inv_send; [done..|by eapply commit_slot].
  - pose proof (inv_send t0 w (fun slot => Delete_ (mkDeleteJob key slot)) slot Hi Hl H0 eq_refl) as Hs.
    pose proof (send_looping (fun slot => Delete_ (mkDeleteJob key slot)) slot w Hl) as E. rewrite H2 in Hs, E.
    injection E as Ew ->. simpl in Hs. apply inv_add_caller; [done..|]. simpl. intros j cmd Hj Hcmd Hw.
    right. exists slot, (length (sent w)), (Delete_ (mkDeleteJob key slot)). rewrite Ew in Hj, Hcmd |- *. simpl in *.
    rewrite length_app in Hj. simpl in Hj.
    split_and!; [left|by rewrite lookup_app_r, Nat.sub_diag by done|done|lia].
  - by rewrite (inv_displaced _ _ Hi) in H; destruct d.
  - apply inv_add_caller; [done..|]. simpl. intros j cmd Hj Hcmd Hw. unfold wants in Hw. simpl in Hw. subst key.
    destruct (tracked_covers t0 w j cmd Hi Hcmd) as [?|(s & j' & cmd' & Hs & ?)]; [by left|].
    right. exists s, j', cmd'. split; [by apply option_list_elem|done].
  - apply inv_add_caller; [done..|]. simpl. intros j cmd Hj Hcmd Hw.
    destruct (tracked_covers t0 w j cmd Hi Hcmd) as [?|(s & j' & cmd' & Hs & ?)]; [by left|].
    right. exists s, j', cmd'. split; [apply map_values_elem; eauto|done].
  - by apply inv_poll.
  - destruct Hi. by split.
  - destruct Hi. by split.
Qed.

Lemma complete_at_writer s w : writer (complete_at s w) = writer w.
Proof. unfold complete_at. by destruct (slots w !! s). Qed.

Lemma send_writer make slot w : writer (send make slot w).1 = writer w.
Proof. unfold send, register_and_send. by destruct (receiving (writer w)). Qed.

Lemma poll_writer i c w : writer (poll i c w) = writer w.
Proof. unfold poll. by destruct (poll_slots _ _ _). Qed.

(** The thread does not come back to its loop. *)
Lemma looping_back w w' : step w w' -> looping w' -> looping w.
Proof.
  unfold looping. destruct 1 as [w w' H|w w' H|w w' H]; destruct H;
    rewrite ?complete_at_writer, ?send_writer, ?poll_writer; simpl; try done; try (by rewrite H).
  replace (writer _) with (writer w); [done|]. replace w' with (send (fun slot => Delete_ (mkDeleteJob key slot)) slot w).1 by by rewrite H2.
  rewrite <- (send_writer (fun slot => Delete_ (mkDeleteJob key slot)) slot w) at 1. by destruct r.
Qed.

Lemma start_inv t0 : inv t0 (start t0).
Proof.
  split; unfold live, uncommitted; simpl; try done; try (by exists []); try (by constructor).
  - intros c Hc. by apply not_elem_of_nil in Hc.
  - intros c Hc. by apply not_elem_of_nil in Hc.
  - intros s (st & H & _). done.
Qed.

Lemma reach_inv t0 w : reach t0 w -> looping w -> inv t0 w.
Proof.
  apply (rtc_ind_r (fun w => looping w -> inv t0 w)); [intros _; apply start_inv|].
  intros w1 w2 Hr Hs IH Hl. apply looping_back in Hs as Hb; [|done].
  apply (queue_step_inv t0 w1); auto. by eapply reach_awake.
Qed.

(** ** A reader sees what was queued before it looked *)

(** C6: for a caller that has nothing left to wait for, [reader], [exists] and
    [delete] after their wait, or [drain_queued_writes] at its end: every command
    sent before it looked into the tracker and about its key has been through its
    transaction, whatever was queued since; and the rows are the commands whose
    transactions committed, in the order they were sent, so what it reads is no
    older than what it looked for. This while the thread is in its loop. *)
Theorem queue_read_your_writes t0 w i c :
  reach t0 w -> looping w -> callers w !! i = Some c -> c_slots c = [] ->
  (forall j cmd, j < c_seen c -> sent w !! j = Some cmd -> wants c cmd -> j < length (settled w)) /\
  table w = replay t0 (sent w) (settled w).
Proof.
  intros Hr Hl Hc Hs. pose proof (reach_inv t0 w Hr Hl) as Hi. split; [|apply Hi].
  intros j cmd Hj Hcmd Hw. destruct (inv_seen _ _ Hi i c Hc) as [_ H].
  destruct (H j cmd Hj Hcmd Hw) as [?|(s & j' & cmd' & Hin & _)]; [done|]. rewrite Hs in Hin. by apply not_elem_of_nil in Hin.
Qed.

(** ** The thread gets to the end of its queue *)

(** What the thread has to do before it waits for a message again. *)
Definition work (w : world) : nat :=
  5 * length (queue w) +
  match writer w with
  | Collecting b => 2 * length b + 2
  | Completing b => 2 * length b + 1
  | Releasing _ b => 2 * length b + 2
  | _ => 0
  end.

Lemma complete_at_queue s w : queue (complete_at s w) = queue w.
Proof. unfold complete_at. by destruct (slots w !! s). Qed.

Lemma writer_step_work w w' : writer_step w w' -> work w' < work w.
Proof.
  unfold work. destruct 1; rewrite ?complete_at_writer, ?complete_at_queue; simpl; rewrite ?length_app; simpl;
    repeat match goal with H : writer w = _ |- _ => rewrite H | H : queue w = _ |- _ => rewrite H end; simpl; lia.
Qed.

Lemma writer_step_looping w w' : writer_step w w' -> looping w -> looping w'.
Proof. unfold looping. destruct 1; rewrite ?complete_at_writer; by simpl. Qed.

(** It stops nowhere else than at [recv] with nothing to receive. *)
Lemma writer_progress w : looping w -> (writer w = Receiving /\ queue w = []) \/ exists w', writer_step w w'.
Proof.
  unfold looping. intros Hl. destruct (writer w) as [|b|[|c b]|s b| | |] eqn:Hw; try done.
  - destruct (queue w) as [|c q] eqn:Hq; [by left|right]. eexists. by eapply ws_recv.
  - right. destruct (batch_open b) eqn:Hb; [|eexists; apply (ws_process w b (fun _ => true)); auto].
    destruct (queue w) as [|c q] eqn:Hq; [eexists; apply (ws_process w b (fun _ => true)); auto|].
    eexists. by eapply ws_more.
  - right. eexists. by apply ws_again.
  - right. eexists. by eapply ws_untrack.
  - right. eexists. by eapply ws_complete.
Qed.

Lemma writer_runs w : looping w ->
  exists w', rtc writer_step w w' /\ looping w' /\ writer w' = Receiving /\ queue w' = [].
Proof.
  remember (work w) as n. revert w Heqn. induction (lt_wf n) as [n _ IH]. intros w -> Hl.
  destruct (writer_progress w Hl) as [[]|[w1 Hs]]; [exists w; by split_and!|].
  destruct (IH (work w1) (writer_step_work _ _ Hs) w1 eq_refl) as (w' & ? & ?); [by eapply writer_step_looping|].
  exists w'. split; [by eapply rtc_l|done].
Qed.

Lemma reach_writer t0 w w' : reach t0 w -> rtc writer_step w w' -> reach t0 w'.
Proof.
  intros Hr Hs. unfold reach in *. etrans; [exact Hr|]. eapply rtc_subrel; [|exact Hs]. intros. by constructor.
Qed.

Lemma looping_rtc w w' : rtc writer_step w w' -> looping w -> looping w'.
Proof. induction 1; eauto using writer_step_looping. Qed.

(** Everything sent has been through its transaction, nothing is tracked, and no
    caller sleeps. *)
Definition quiescent (w : world) : Prop :=
  length (settled w) = length (sent w) /\ tracker w = ∅ /\ (forall s, ~ undone s (slots w)) /\
  forall i c, callers w !! i = Some c -> i ∈ ready w \/ c_slots c = [].

Lemma idle_quiescent t0 w : reach t0 w -> looping w -> writer w = Receiving -> queue w = [] -> quiescent w.
Proof.
  intros Hr Hl Hw Hq. pose proof (reach_inv t0 w Hr Hl) as Hi. pose proof (reach_awake t0 w Hr) as (Ha & _).
  assert (El : live w = []) by (unfold live; by rewrite Hw, Hq).
  assert (Hu : forall s, ~ undone s (slots w)).
  { intros s Hs. apply (inv_done _ _ Hi) in Hs as [Hs|[r Hs]]; [|congruence]. rewrite El in Hs. by apply not_elem_of_nil in Hs. }
  split_and!; [| |done|].
  - destruct (inv_settled _ _ Hi) as (pre & E & <-). unfold uncommitted in E. rewrite Hw, Hq, app_nil_r in E. by rewrite E.
  - apply map_empty. intros k. by rewrite (inv_tracker _ _ Hi), El.
  - intros i c Hc. destruct (Ha i c Hc) as [?|[?|(s & r & st & _ & Hst & Hd & _)]]; [by left|by right|].
    destruct (Hu s). by exists st.
Qed.

(** No caller waits for ever while the thread is in its loop. In every reachable
    state the thread, left alone, takes a bounded number of steps and ends
    waiting for a message; wherever its steps end, every command has been
    through its transaction, the tracker is empty, every slot is completed and no
    caller is left asleep on one. *)
Theorem queue_drains t0 w :
  reach t0 w -> looping w ->
  (forall w', writer_step w w' -> work w' < work w /\ looping w') /\
  (exists w', rtc writer_step w w' /\ quiescent w') /\
  (forall w', rtc writer_step w w' -> (forall w'', ~ writer_step w' w'') -> quiescent w').
Proof.
  intros Hr Hl. split_and!.
  - intros w' H. eauto using writer_step_work, writer_step_looping.
  - destruct (writer_runs w Hl) as (w' & Hs & ? & ? & ?). exists w'. split; [done|].
    apply (idle_quiescent t0); [by eapply reach_writer|done..].
  - intros w' Hs Hn. assert (Hl' : looping w') by by eapply looping_rtc.
    destruct (writer_progress w' Hl') as [[]|[w'' H]]; [|by apply Hn in H].
    apply (idle_quiescent t0); [by eapply reach_writer|done..].
Qed.

(** ** Batches *)

Lemma collect_from_spec batch rx b rest : collect_from batch rx = (b, rest) ->
  batch ++ rx = b ++ rest /\ (batch_open b = false \/ rest = []) /\
  (b = batch \/ exists b' c, b = b' ++ [c] /\ batch_open b' = true).
Proof.
  revert batch. induction rx as [|c rx IH]; intros batch; simpl.
  - intros [= <- <-]. split_and!; auto.
  - destruct (batch_open batch) eqn:E; [|intros [= <- <-]; split_and!; auto].
    intros (E1 & E2 & E3)%IH. rewrite <- E1, <- app_assoc. split_and!; [done..|].
    right. destruct E3 as [->|?]; eauto.
Qed.

(** A batch is a prefix of what is queued, at most 64 commands, below the limit of
    bytes but for the last of them, and as long as that allows. *)
Lemma collect_batch_spec first rx b rest : collect_batch first rx = (b, rest) ->
  first :: rx = b ++ rest /\ (1 <= length b <= WRITE_BATCH_MAX) /\
  (foldr (fun c n => write_bytes c + n) 0 (removelast b) < WRITE_BATCH_MAX_BYTES)%N /\
  (batch_open b = false \/ rest = []).
Proof.
  unfold collect_batch. intros (E1 & E2 & [->|(b' & c & -> & E3)])%collect_from_spec; simpl in E1.
  - split_and!; [done|simpl; unfold WRITE_BATCH_MAX; lia..|done|done].
  - unfold batch_open in E3. apply andb_true_iff in E3 as [H1%Nat.ltb_lt H2%N.ltb_lt].
    rewrite removelast_last. split_and!; [done| | |done..]; rewrite ?length_app; simpl; lia.
Qed.

(** The steps of the thread collect it. *)
Lemma collect_batch_steps w first b rest : writer w = Collecting [first] -> collect_batch first (queue w) = (b, rest) ->
  rtc writer_step w (with_writer (Collecting b) (with_queue rest w)).
Proof.
  unfold collect_batch. generalize ([first]) as batch. remember (queue w) as rx eqn:Hrx. revert w Hrx.
  induction rx as [|c rx IH]; intros w Hq batch Hw; simpl.
  - intros [= <- <-]. rewrite Hq, <- Hw. by destruct w.
  - destruct (batch_open batch) eqn:E; [|intros [= <- <-]; rewrite Hq, <- Hw; by destruct w].
    intros Hc. apply (rtc_l _ _ _ _ (ws_more w batch c rx Hw E (eq_sym Hq))).
    exact (IH (with_writer (Collecting (batch ++ [c])) (with_queue rx w)) eq_refl (batch ++ [c]) eq_refl Hc).
Qed.

(** A writer that took every chunk commits their concatenation: the size the row is
    made with is the length of the spool, which [copy_blob] then fills exactly. *)
Lemma sqlite_writer_exact key chunks w :
  foldl (fun w d => w ≫= sqlite_write d (length d)) (Some (sqlite_writer key)) chunks = Some w ->
  sw_key w = Some key /\ sw_buf w = Some (concat chunks) /\ sw_size w = N.of_nat (length (concat chunks)).
Proof.
  revert w. induction chunks as [|d chunks IH] using rev_ind; intros w; [by intros [= <-]|].
  rewrite foldl_app. simpl. intros (w0 & E & Hw)%bind_Some. destruct (IH _ E) as (Hk & Hb & Hs).
  unfold sqlite_write in Hw. rewrite Hb in Hw. simpl in Hw. injection Hw as <-. simpl. rewrite take_ge, concat_app by lia. simpl.
  rewrite app_nil_r, Hs, length_app. split_and!; [done..|lia].
Qed.

Lemma copy_blob_exact key buf : copy_blob key buf (N.of_nat (length buf)) = Ok buf.
Proof. unfold copy_blob. rewrite Nat2N.id, Nat.leb_refl, Nat.sub_diag. by rewrite app_nil_r. Qed.

(** ** When the thread is gone *)

(** A slot nobody will complete: the receiver is dropped, the tracker does not know
    the slot, and no sender has it in hand. *)
Definition stranded (s i : N) (w : world) : Prop :=
  writer w = Gone /\ undone s (slots w) /\ ~ (s ∈ displaced w) /\ (forall k, tracker w !! k <> Some s) /\
  exists c, callers w !! i = Some c /\ c_slots c = [s].

Lemma complete_at_stranded s s' i w : s <> s' -> stranded s i w -> stranded s i (complete_at s' w).
Proof.
  intros Hne (H1 & H2 & H3 & H4 & H5). unfold complete_at. destruct (slots w !! s') as [st|]; [|by split_and!].
  split_and!; try done. simpl. apply undone_insert. by right.
Qed.

Lemma send_stranded make slot s i w : slots w !! slot = None -> cmd_slot (make slot) = slot ->
  stranded s i w -> stranded s i (send make slot w).1.
Proof.
  intros Hf Hs (H1 & H2 & H3 & H4 & H5). unfold send, register_and_send. rewrite H1. simpl.
  assert (s <> slot) by (intros ->; destruct H2 as (st & H2 & _); congruence).
  split_and!; simpl; try done.
  - apply undone_insert. by right.
  - rewrite elem_of_app, option_list_elem. intros [?|?]; [done|by eapply H4].
  - intros k Hk. apply lookup_delete_Some in Hk as [Hn Hk]. rewrite lookup_insert_ne in Hk by done. by eapply H4.
Qed.

Lemma poll_stranded s i i' c w : awake w -> callers w !! i' = Some c -> stranded s i w -> stranded s i (poll i' c w).
Proof.
  intros (_ & Ha & _) Hc (H1 & H2 & H3 & H4 & c0 & H5 & H6). unfold poll.
  destruct (poll_slots i' (c_slots c) (slots w)) as [l ss] eqn:E.
  assert (Hss : ss = (poll_slots i' (c_slots c) (slots w)).2) by by rewrite E.
  split_and!; simpl; try done.
  - subst ss. apply poll_slots_undone; [|done]. apply Forall_forall. eauto.
  - destruct (decide (i' = i)) as [->|]; [|exists c0; by rewrite lookup_insert_ne].
    rewrite lookup_insert_eq. eexists. split; [done|]. simpl. rewrite Hc in H5. injection H5 as ->.
    rewrite H6 in E. simpl in E. destruct H2 as (st & H2 & Hd). rewrite H2 in E. unfold poll_slot in E. simpl in E.
    rewrite Hd in E. by injection E as <- _.
Qed.

Lemma step_stranded s i w w' : awake w -> stranded s i w -> step w w' -> stranded s i w'.
Proof.
  intros Ha Hs H. pose proof Hs as (H1 & H2 & H3 & H4 & H5).
  destruct H as [w w' H|w w' H|w w' H]; [destruct H; congruence|destruct H; try congruence; destruct H as [?|[b [?|?]]]; congruence|].
  destruct H as [w sw make slot Ho Hf Hm|w i' key slot w' r Ho Hf Hi He|w s' d d' Hd|w i' key Hi|w i' Hi|w i' c Hi Hr|w i' c Hi|w].
  - apply send_stranded; [done|by eapply commit_slot|done].
  - pose proof (send_stranded (fun slot => Delete_ (mkDeleteJob key slot)) slot s i w Hf eq_refl Hs) as H. rewrite He in H.
    unfold send, register_and_send in He. rewrite H1 in He. by injection He as <- <-.
  - rewrite Hd in H3. apply complete_at_stranded; [intros ->; apply H3, elem_of_app; right; left|]. split_and!; try done.
    simpl. rewrite elem_of_app in H3 |- *. intros [?|?]; apply H3; [by left|by right; right].
  - split_and!; try done. destruct H5 as (c & ? & ?). exists c. simpl. split; [|done]. by rewrite lookup_insert_ne by congruence.
  - split_and!; try done. destruct H5 as (c & ? & ?). exists c. simpl. split; [|done]. by rewrite lookup_insert_ne by congruence.
  - by apply poll_stranded.
  - done.
  - done.
Qed.

Definition sample_key : Key := ($"//p:x", $"h", $"out").
Definition sample_sw (data : bytes) : SqliteCacheWriter := mkWriter (Some sample_key) (Some data) (N.of_nat (length data)).
Definition sample_write (data : bytes) (slot : N) : WriterCmd := Write_ (mkWriteJob sample_key data (N.of_nat (length data)) slot).
Definition sample_delete (slot : N) : WriterCmd := Delete_ (mkDeleteJob sample_key slot).

(** [DrainOnExit] completes the slots of the tracker only. A delete waits for its
    slot; a write of the same key takes its place in the tracker; the thread panics.
    The write's slot is completed, the delete's never is: whatever happens, its
    caller waits. *)
Theorem panic_strands_superseded :
  exists w, reach ∅ w /\ forall w', rtc step w w' -> stranded 1 7 w'.
Proof.
  set (w1 := add_caller 7 (mkCaller (Some sample_key) [1%N] 1) (send sample_delete 1 (start ∅)).1).
  set (w2 := (send (sample_write [5%N]) 2 w1).1).
  set (w3 := complete_at 2 (with_writer (Draining []) (with_writer (Draining [2%N]) (with_tracker ∅ (with_writer Unwinding w2))))).
  set (w4 := with_writer Gone (with_queue [] w3)).
  assert (Hr : reach ∅ w4).
  { apply (rtc_l _ _ w1). { apply step_caller. by apply (cs_delete (start ∅) 7 sample_key 1 (send sample_delete 1 (start ∅)).1 (Some 1%N)). }
    apply (rtc_l _ _ w2). { apply step_caller. apply (cs_commit w1 (sample_sw [5%N])); by vm_compute. }
    eapply rtc_l. { apply step_exit, es_panic. left. by vm_compute. }
    eapply rtc_l. { apply step_exit, es_drain. by vm_compute. }
    eapply rtc_l. { apply step_exit, (es_complete _ 2 []). by vm_compute. }
    eapply rtc_l; [apply step_exit, es_gone; by vm_compute|]. apply rtc_refl. }
  exists w4. split; [exact Hr|]. intros w' Hs. assert (Hw : stranded 1 7 w4).
  { split_and!; [by vm_compute|exists SlotState_new; by vm_compute|by apply not_elem_of_nil| |].
    { intros k. assert (tracker w4 = ∅) as -> by by vm_compute. by rewrite lookup_empty. }
    eexists. by vm_compute. }
  clearbody w4. apply reach_awake in Hr. clear w1 w2 w3.
  induction Hs as [w|w w0 w' Hst Hs IH]; [done|]. apply IH; [by eapply step_awake|by eapply step_stranded].
Qed.

(** One command on its own, from the queue to its slot. *)
Definition settle_one (ok : nat -> bool) (c : WriterCmd) (w : world) : world :=
  let w := with_writer (Collecting [c]) (with_queue [] w) in
  let w := settle [c] (process_batch ok [c] (table w)) w in
  let w := with_writer (Releasing (cmd_slot c) []) (with_tracker (untrack (cmd_key c) (cmd_slot c) (tracker w)) w) in
  with_writer Receiving (complete_at (cmd_slot c) (with_writer (Completing []) w)).

Lemma settle_one_steps ok c w : writer w = Receiving -> queue w = [c] -> rtc step w (settle_one ok c w).
Proof.
  intros Hw Hq. eapply rtc_l; [by eapply step_writer, ws_recv|].
  eapply rtc_l; [apply step_writer, (ws_process _ [c] ok); [done|by right]|].
  eapply rtc_l; [by eapply step_writer, ws_untrack|]. eapply rtc_l; [by eapply step_writer, ws_complete|].
  eapply rtc_l; [|apply rtc_refl]. apply step_writer, ws_again. by rewrite complete_at_writer.
Qed.

(** A transaction that fails is not reported. A delete whose batch is rolled back
    returns as one that landed, and the row it was to delete is read afterwards;
    so is the row a failed write was to replace. *)
Theorem failed_batch_unreported :
  exists w c, reach {[sample_key := [1%N]]} w /\ looping w /\ callers w !! 7%N = Some c /\ c_slots c = [] /\
    sent w = [sample_delete 1] /\ settled w = [false] /\ table w !! sample_key = Some [1%N].
Proof.
  set (w0 := start {[sample_key := [1%N]]}).
  set (w1 := add_caller 7 (mkCaller (Some sample_key) [1%N] 1) (send sample_delete 1 w0).1).
  set (w2 := settle_one (fun n => Nat.ltb n 2) (sample_delete 1) w1).
  set (c := mkCaller (Some sample_key) [1%N] 1).
  exists (poll 7 c w2), (mkCaller (Some sample_key) [] 1). split; [|by vm_compute].
  apply (rtc_l _ _ w1). { apply step_caller. by apply (cs_delete w0 7 sample_key 1 (send sample_delete 1 w0).1 (Some 1%N)). }
  etrans; [by apply (settle_one_steps (fun n => Nat.ltb n 2) (sample_delete 1))|].
  apply rtc_once, step_caller, cs_poll; [by vm_compute|]. apply (bool_decide_unpack _). by vm_compute.
Qed.

(** A write is queued, a reader finds it and sleeps, the thread commits it. *)
Definition sample_queued : world := (send (sample_write [5%N; 6%N]) 1 (start ∅)).1.
Definition sample_reader : Caller := mkCaller (Some sample_key) [1%N] 1.
Definition sample_asleep : world := poll 7 sample_reader (add_caller 7 sample_reader sample_queued).
Definition sample_read : world := poll 7 sample_reader (settle_one (fun _ => true) (sample_write [5%N; 6%N] 1) sample_asleep).

Lemma sample_asleep_reach : reach ∅ sample_asleep.
Proof.
  apply (rtc_l _ _ sample_queued). { apply step_caller, (cs_commit _ (sample_sw [5%N; 6%N])); by vm_compute. }
  apply (rtc_l _ _ (add_caller 7 sample_reader sample_queued)).
  { apply step_caller. exact (cs_find sample_queued 7 sample_key eq_refl). }
  apply rtc_once, step_caller, cs_poll; [by vm_compute|]. apply (bool_decide_unpack _). by vm_compute.
Qed.

Lemma sample_read_reach : reach ∅ sample_read.
Proof.
  unfold reach; etrans; [exact sample_asleep_reach|].
  etrans; [by apply (settle_one_steps (fun _ => true) (sample_write [5%N; 6%N] 1))|].
  apply rtc_once, step_caller, cs_poll; [by vm_compute|]. apply (bool_decide_unpack _). by vm_compute.
Qed.

Lemma queue_read_your_writes_witness :
  settled sample_read = [true] /\ table sample_read !! sample_key = Some [5%N; 6%N] /\
  table sample_read = replay ∅ (sent sample_read) (settled sample_read).
Proof.
  split_and!; [by vm_compute..|].
  apply (queue_read_your_writes ∅ sample_read 7 (mkCaller (Some sample_key) [] 1)); [exact sample_read_reach|by vm_compute..].
Defined.

Lemma queue_drains_witness :
  (7%N ∈ ready sample_asleep -> False) /\ exists w', rtc writer_step sample_asleep w' /\ quiescent w'.
Proof.
  split; [intros H; apply (bool_decide_pack _) in H; by vm_compute in H|].
  apply (queue_drains ∅ sample_asleep); [exact sample_asleep_reach|by vm_compute].
Defined.
