(* ===== verification/CacheTiers.v ===== *)
(** The tiers of the local cache: the trait [LocalCache] and [EntryWriter] of
    [crates/engine/src/engine/local_cache.rs], and [local_cache_spill.rs], which
    keeps small entries in one backend, SQLite, and large ones in another, files.

    [Backend] is the trait, [BackendLaws] what its documentation promises, in terms
    of the content of a backend: which bytes it serves for each key. The spilling
    tier is built over any two backends. Every call may fail, and a call that fails
    returns the state it leaves. *)
From S2P Require Import Prelude HtIntern Gc.

(** The interned address, the input hash, the name. *)
Abbreviation EntryKey := (arc * str * str)%type.
Abbreviation bytes := (list N).

(** [reader] drained, and [bytes] if it was in memory already. *)
Record SizedReader := mkSized { sr_size : N; sr_data : bytes; sr_bytes : option bytes }.

(** ** The trait *)

Class Backend (S W E : Type) := {
  reader : EntryKey -> S -> result E SizedReader;
  writer : EntryKey -> S -> result E W * S;
  (** [EntryWriter]: [io::Write], [commit], and a drop without commit. *)
  w_write : bytes -> W -> S -> result E nat * W * S;
  w_flush : W -> S -> result E () * W * S;
  w_commit : W -> S -> result E () * S;
  w_drop : W -> S -> S;
  entry_exists : EntryKey -> S -> result E bool;
  entry_existence : EntryKey -> S -> result E Existence;
  exists_committed : EntryKey -> S -> result E bool;
  entry_delete : EntryKey -> S -> result E () * S;
  list_entries : arc -> S -> result E (list str);
  seekable_reader : EntryKey -> S -> result E (option bytes);
  file_path : EntryKey -> S -> option str;
  adopt_file : EntryKey -> str -> S -> result E bool * S;
}.

(** What the trait promises. [content] is what a backend serves, with the writes it
    has queued; [queued] are the keys with such a write, which [exists_committed]
    ignores; [hidden] those whose file cannot be looked at, where [file_path] says
    nothing; [staged] what a writer took so far; [file] the bytes of a file. *)
Class BackendLaws (S W E : Type) `{Backend S W E} (not_found : E -> bool) (file : str -> bytes)
    (content : S -> gmap EntryKey bytes) (queued hidden : S -> EntryKey -> bool)
    (staged : W -> EntryKey * bytes) : Prop := {
  reader_ok k s r : reader k s = Ok r ->
    content s !! k = Some (sr_data r) /\ sr_size r = N.of_nat (length (sr_data r)) /\
    (sr_bytes r = None \/ sr_bytes r = Some (sr_data r));
  reader_not_found k s e : reader k s = Err e -> not_found e = true -> content s !! k = None;
  writer_spec k s r s' : writer k s = (r, s') ->
    content s' = content s /\ (forall w, r = Ok w -> staged w = (k, []));
  write_spec d w s r w' s' : w_write d w s = (r, w', s') ->
    content s' = content s /\ (staged w').1 = (staged w).1 /\
    (forall n, r = Ok n -> n <= length d /\ (staged w').2 = (staged w).2 ++ take n d);
  flush_spec w s r w' s' : w_flush w s = (r, w', s') ->
    content s' = content s /\ (staged w').1 = (staged w).1 /\ (r = Ok () -> staged w' = staged w);
  commit_spec w s r s' : w_commit w s = (r, s') ->
    content s' = match r with Ok _ => <[(staged w).1 := (staged w).2]> (content s) | Err _ => content s end;
  drop_spec w s : content (w_drop w s) = content s;
  exists_spec k s b : entry_exists k s = Ok b -> b = bool_decide (is_Some (content s !! k));
  existence_spec k s r : entry_existence k s = Ok r ->
    match r with Committed b => b = bool_decide (is_Some (content s !! k)) | QueuedWrite => queued s k = true end;
  committed_spec k s b : exists_committed k s = Ok b -> queued s k = false -> b = bool_decide (is_Some (content s !! k));
  delete_spec k s r s' : entry_delete k s = (r, s') ->
    content s' = delete k (content s) \/ ((exists e, r = Err e) /\ content s' = content s);
  delete_others k s r s' k' : entry_delete k s = (r, s') -> k' <> k -> reader k' s' = reader k' s;
  seekable_ok k s d : seekable_reader k s = Ok (Some d) -> content s !! k = Some d;
  seekable_not_found k s e : seekable_reader k s = Err e -> not_found e = true -> content s !! k = None;
  file_path_some k s path : file_path k s = Some path -> content s !! k = Some (file path);
  file_path_none k s : file_path k s = None -> hidden s k = false -> content s !! k = None;
  adopt_spec k src s r s' : adopt_file k src s = (r, s') ->
    content s' = match r with Ok true => <[k := file src]> (content s) | _ => content s end;
  entries_distinct a s hs : list_entries a s = Ok hs -> NoDup hs;
}.

(** [io::Write::write_all]: writes until everything is taken; each takes at least a
    byte, or the call fails. *)
Section write_all.
Context {S W E : Type} `{Backend S W E} (write_zero : E).

Fixpoint write_all_fuel (fuel : nat) (d : bytes) (w : W) (s : S) : result E () * W * S :=
  match d, fuel with
  | [], _ => (Ok (), w, s)
  | _, O => (Err write_zero, w, s)
  | _, Datatypes.S fuel =>
      match w_write d w s with
      | (Err e, w, s) => (Err e, w, s)
      | (Ok O, w, s) => (Err write_zero, w, s)
      | (Ok n, w, s) => write_all_fuel fuel (drop n d) w s
      end
  end.
Definition write_all (d : bytes) (w : W) (s : S) : result E () * W * S := write_all_fuel (length d) d w s.

(** Chunks as they come, as [io::copy] writes them. *)
Fixpoint write_chunks (chunks : list bytes) (w : W) (s : S) : result E () * W * S :=
  match chunks with
  | [] => (Ok (), w, s)
  | d :: r =>
      match write_all d w s with
      | (Err e, w, s) => (Err e, w, s)
      | (Ok _, w, s) => write_chunks r w s
      end
  end.

(** How a client stores an entry: a writer that fails is dropped. *)
Definition store (k : EntryKey) (chunks : list bytes) (s : S) : result E () * S :=
  match writer k s with
  | (Err e, s) => (Err e, s)
  | (Ok w, s) =>
      match write_chunks chunks w s with
      | (Err e, w, s) => (Err e, w_drop w s)
      | (Ok _, w, s) => w_commit w s
      end
  end.
End write_all.

(** ** The spilling tier *)

Definition is_manifest (name : str) : bool := bool_decide (name = MANIFEST_V1).

(** [SpillWriter]. *)
Record SpillWriter (WP WB : Type) := mkSpill {
  sp_key : EntryKey; sp_size : N; primary_writer : option WP; blob_writer : option WB }.
Arguments mkSpill {WP WB} _ _ _ _.
Arguments sp_key {WP WB} _.
Arguments sp_size {WP WB} _.
Arguments primary_writer {WP WB} _.
Arguments blob_writer {WP WB} _.

(** The writer of a manifest is the primary's own. *)
Inductive SpillW (WP WB : Type) := Direct (w : WP) | Spilling (w : SpillWriter WP WB).
Arguments Direct {WP WB} w.
Arguments Spilling {WP WB} w.

Section spill.
Context {P WP B WB E : Type} `{Backend P WP E, Backend B WB E}.
Variable not_found : E -> bool.
(** Errors of [io]'s own, the panic of an [expect], [bail!] of [commit]. *)
Variables write_zero panicked no_writer : E.
Variable spill_threshold : N.
(** [fs::metadata(src).len()]. *)
Variable stat : str -> result E N.

Definition spill_reader (k : EntryKey) (c : P * B) : result E SizedReader :=
  match reader k c.1 with
  | Err e => if not_found e then reader k c.2 else Err e
  | Ok r => Ok r
  end.

Definition drop_stale (k : EntryKey) (b : B) : result E () * B :=
  match file_path k b with Some _ => entry_delete k b | None => (Ok (), b) end.

Definition spill_writer (k : EntryKey) (c : P * B) : result E (SpillW WP WB) * (P * B) :=
  if is_manifest k.2 then
    let '(r, p) := writer k c.1 in (Direct <$> r, (p, c.2))
  else
    match drop_stale k c.2 with
    | (Err e, b) => (Err e, (c.1, b))
    | (Ok _, b) =>
        let '(r, p) := writer k c.1 in
        ((fun w => Spilling (mkSpill k 0 (Some w) None)) <$> r, (p, b))
    end.

(** [SpillWriter::spill]. The primary's writer is taken first; the other writer is
    dropped by a failure that comes after it was opened. *)
Definition spill (w : SpillWriter WP WB) (c : P * B) : result E () * SpillWriter WP WB * (P * B) :=
  match primary_writer w with
  | None => (Err panicked, w, c)
  | Some pw =>
      let key := sp_key w in
      let w := mkSpill key (sp_size w) None (blob_writer w) in
      match w_flush pw c.1 with
      | (Err e, pw, p) => (Err e, w, (w_drop pw p, c.2))
      | (Ok _, pw, p) =>
          match w_commit pw p with
          | (Err e, p) => (Err e, w, (p, c.2))
          | (Ok _, p) =>
              match writer key c.2 with
              | (Err e, b) => (Err e, w, (p, b))
              | (Ok bw, b) =>
                  match reader key p with
                  | Err e => (Err e, w, (p, w_drop bw b))
                  | Ok prefix =>
                      match write_all write_zero (sr_data prefix) bw b with
                      | (Err e, bw, b) => (Err e, w, (p, w_drop bw b))
                      | (Ok _, bw, b) =>
                          match entry_delete key p with
                          | (Err e, p) => (Err e, w, (p, w_drop bw b))
                          | (Ok _, p) => (Ok (), mkSpill key (sp_size w) None (Some bw), (p, b))
                          end
                      end
                  end
              end
          end
      end
  end.

(** [write]. *)
Definition spilling_write (data : bytes) (w : SpillWriter WP WB) (c : P * B) : result E nat * SpillWriter WP WB * (P * B) :=
  match blob_writer w with
  | Some bw =>
      match w_write data bw c.2 with
      | (Err e, bw, b) => (Err e, mkSpill (sp_key w) (sp_size w) (primary_writer w) (Some bw), (c.1, b))
      | (Ok n, bw, b) =>
          (Ok n, mkSpill (sp_key w) (sp_size w + N.of_nat n) (primary_writer w) (Some bw), (c.1, b))
      end
  | None =>
      match primary_writer w with
      | None => (Err panicked, w, c)
      | Some pw =>
          match w_write data pw c.1 with
          | (Err e, pw, p) => (Err e, mkSpill (sp_key w) (sp_size w) (Some pw) None, (p, c.2))
          | (Ok n, pw, p) =>
              let w := mkSpill (sp_key w) (sp_size w + N.of_nat n) (Some pw) None in
              if (spill_threshold <? sp_size w)%N then
                match spill w (p, c.2) with
                | (Err e, w, c) => (Err e, w, c)
                | (Ok _, w, c) => (Ok n, w, c)
                end
              else (Ok n, w, (p, c.2))
          end
      end
  end.
Definition spill_write (data : bytes) (w : SpillW WP WB) (c : P * B) : result E nat * SpillW WP WB * (P * B) :=
  match w with
  | Direct w => let '(r, w, p) := w_write data w c.1 in (r, Direct w, (p, c.2))
  | Spilling w => let '(r, w, c) := spilling_write data w c in (r, Spilling w, c)
  end.

(** [flush]. *)
Definition spill_flush (w : SpillW WP WB) (c : P * B) : result E () * SpillW WP WB * (P * B) :=
  match w with
  | Direct w => let '(r, w, p) := w_flush w c.1 in (r, Direct w, (p, c.2))
  | Spilling w =>
      match blob_writer w, primary_writer w with
      | Some bw, pw =>
          let '(r, bw, b) := w_flush bw c.2 in (r, Spilling (mkSpill (sp_key w) (sp_size w) pw (Some bw)), (c.1, b))
      | None, Some pw =>
          let '(r, pw, p) := w_flush pw c.1 in (r, Spilling (mkSpill (sp_key w) (sp_size w) (Some pw) None), (p, c.2))
      | None, None => (Ok (), Spilling w, c)
      end
  end.

(** [commit]; a writer that is not committed is dropped with the struct. *)
Definition spill_commit (w : SpillW WP WB) (c : P * B) : result E () * (P * B) :=
  match w with
  | Direct w => let '(r, p) := w_commit w c.1 in (r, (p, c.2))
  | Spilling w =>
      match blob_writer w, primary_writer w with
      | Some bw, pw =>
          let '(r, b) := w_commit bw c.2 in
          (r, (from_option (fun pw => w_drop pw c.1) c.1 pw, b))
      | None, Some pw => let '(r, p) := w_commit pw c.1 in (r, (p, c.2))
      | None, None => (Err no_writer, c)
      end
  end.

Definition spill_drop (w : SpillW WP WB) (c : P * B) : P * B :=
  match w with
  | Direct w => (w_drop w c.1, c.2)
  | Spilling w =>
      (from_option (fun pw => w_drop pw c.1) c.1 (primary_writer w), from_option (fun bw => w_drop bw c.2) c.2 (blob_writer w))
  end.

Definition spill_adopt_file (k : EntryKey) (src : str) (c : P * B) : result E bool * (P * B) :=
  if is_manifest k.2 then (Ok false, c)
  else
    match stat src with
    | Err e => (Err e, c)
    | Ok size =>
        if (size <=? spill_threshold)%N then (Ok false, c)
        else
          match adopt_file k src c.2 with
          | (Err e, b) => (Err e, (c.1, b))
          | (Ok false, b) => (Ok false, (c.1, b))
          | (Ok true, b) =>
              match exists_committed k c.1 with
              | Err e => (Err e, (c.1, b))
              | Ok false => (Ok true, (c.1, b))
              | Ok true =>
                  match entry_delete k c.1 with
                  | (Err e, p) => (Err e, (p, b))
                  | (Ok _, p) => (Ok true, (p, b))
                  end
              end
          end
    end.

(** [a? || b?]. *)
Definition or_else (a b : result E bool) : result E bool := found ← a; if found : bool then Ok true else b.

Definition spill_exists (k : EntryKey) (c : P * B) : result E bool :=
  or_else (entry_exists k c.1) (entry_exists k c.2).
Definition spill_exists_committed (k : EntryKey) (c : P * B) : result E bool :=
  or_else (exists_committed k c.1) (exists_committed k c.2).
Definition spill_existence (k : EntryKey) (c : P * B) : result E Existence :=
  match entry_existence k c.1 with
  | Err e => Err e
  | Ok QueuedWrite => Ok QueuedWrite
  | Ok (Committed true) => Ok (Committed true)
  | Ok (Committed false) => entry_existence k c.2
  end.

Definition spill_delete (k : EntryKey) (c : P * B) : result E () * (P * B) :=
  match entry_delete k c.1 with
  | (Err e, p) => (Err e, (p, c.2))
  | (Ok _, p) => let '(r, b) := entry_delete k c.2 in (r, (p, b))
  end.

Definition spill_seekable_reader (k : EntryKey) (c : P * B) : result E (option bytes) :=
  match seekable_reader k c.1 with
  | Err e => if not_found e then seekable_reader k c.2 else Err e
  | Ok r => Ok r
  end.

Definition spill_file_path (k : EntryKey) (c : P * B) : option str :=
  path ← file_path k c.2;
  match exists_committed k c.1 with
  | Ok false => Some path
  | _ => None
  end.

Definition spill_backend : Backend (P * B) (SpillW WP WB) E := {|
  reader := spill_reader;
  writer := spill_writer;
  w_write := spill_write;
  w_flush := spill_flush;
  w_commit := spill_commit;
  w_drop := spill_drop;
  entry_exists := spill_exists;
  entry_existence := spill_existence;
  exists_committed := spill_exists_committed;
  entry_delete := spill_delete;
  list_entries := fun a c => list_entries a c.1;
  seekable_reader := spill_seekable_reader;
  file_path := spill_file_path;
  adopt_file := spill_adopt_file;
|}.
End spill.

(** ** Writing everything *)

Section write_all_spec.
Context {S W E : Type} `{Backend S W E} {not_found : E -> bool} {file : str -> bytes}
  {content : S -> gmap EntryKey bytes} {queued hidden : S -> EntryKey -> bool} {staged : W -> EntryKey * bytes}
  `{!BackendLaws S W E not_found file content queued hidden staged} (write_zero : E).

Lemma write_all_fuel_spec fuel d w s r w' s' :
  length d <= fuel -> write_all_fuel write_zero fuel d w s = (r, w', s') ->
  content s' = content s /\ (staged w').1 = (staged w).1 /\ (r = Ok () -> (staged w').2 = (staged w).2 ++ d).
Proof.
  revert d w s. induction fuel as [|fuel IH]; intros [|c d] w s Hl; simpl in *; try lia;
    try (intros [= <- <- <-]; split_and!; [done..|]; intros _; by rewrite app_nil_r).
  destruct (w_write (c :: d) w s) as [[[n|e] w1] s1] eqn:E1;
    destruct (write_spec _ _ _ _ _ _ E1) as (Ec & Ek & En).
  - destruct n as [|n]; [intros [= <- <- <-]; split_and!; done|].
    destruct (En _ eq_refl) as [Hn Hd]. intros Hr. apply IH in Hr as (E2 & E3 & E4); [|rewrite length_drop; simpl in *; lia].
    split_and!; [congruence..|]. intros ->. rewrite E4, Hd by done. rewrite <- app_assoc. f_equal.
    apply (take_drop (Datatypes.S n) (c :: d)).
  - by intros [= <- <- <-].
Qed.

Lemma write_all_spec d w s r w' s' : write_all write_zero d w s = (r, w', s') ->
  content s' = content s /\ (staged w').1 = (staged w).1 /\ (r = Ok () -> (staged w').2 = (staged w).2 ++ d).
Proof. by apply write_all_fuel_spec. Qed.
End write_all_spec.

(** ** What a spilled entry is *)

Section spill_spec.
Context {P WP B WB E : Type} `{Backend P WP E, Backend B WB E} {not_found : E -> bool} {file : str -> bytes}
  {pc : P -> gmap EntryKey bytes} {pq ph : P -> EntryKey -> bool} {ps : WP -> EntryKey * bytes}
  {bc : B -> gmap EntryKey bytes} {bq bh : B -> EntryKey -> bool} {bs : WB -> EntryKey * bytes}
  `{!BackendLaws P WP E not_found file pc pq ph ps, !BackendLaws B WB E not_found file bc bq bh bs}.
Variables (write_zero panicked no_writer : E) (threshold : N) (stat : str -> result E N).

#[local] Instance tier : Backend (P * B) (SpillW WP WB) E :=
  spill_backend not_found write_zero panicked no_writer threshold stat.

(** A writer that took [data] for [k] without a failure, over what the backends held
    when it was opened. *)
Definition writing (k : EntryKey) (mp mb : gmap EntryKey bytes) (data : bytes) (w : SpillWriter WP WB) (c : P * B) : Prop :=
  sp_key w = k /\ sp_size w = N.of_nat (length data) /\ bc c.2 = mb /\
  match blob_writer w, primary_writer w with
  | Some bw, None => bs bw = (k, data) /\ (threshold < N.of_nat (length data))%N /\ pc c.1 = delete k mp
  | None, Some pw => ps pw = (k, data) /\ (N.of_nat (length data) <= threshold)%N /\ pc c.1 = mp
  | _, _ => False
  end.

(** What a failure may leave in the primary. *)
Definition left_behind (k : EntryKey) (mp : gmap EntryKey bytes) (data : bytes) (m : gmap EntryKey bytes) : Prop :=
  m = mp \/ m = delete k mp \/
  exists d, d `prefix_of` data /\ (threshold < N.of_nat (length d))%N /\ m = <[k := d]> mp.

Lemma writing_left k mp mb data data' w c : writing k mp mb data w c -> left_behind k mp (data ++ data') (pc c.1) /\ bc c.2 = mb.
Proof.
  intros (_ & _ & Hb & Hw). split; [|done]. unfold left_behind.
  destruct (blob_writer w), (primary_writer w); try done; destruct Hw as (_ & _ & ->); auto.
Qed.

Lemma pair_eq {A1 A2} (x : A1 * A2) a b : x.1 = a -> x.2 = b -> x = (a, b).
Proof. destruct x; simpl; congruence. Qed.

(** [spill], at a size over the threshold. *)
Lemma spill_spec k mp data pw w c r w' c' :
  sp_key w = k -> sp_size w = N.of_nat (length data) -> (threshold < N.of_nat (length data))%N ->
  primary_writer w = Some pw -> blob_writer w = None -> ps pw = (k, data) -> pc c.1 = mp ->
  spill write_zero panicked w c = (r, w', c') ->
  match r with
  | Ok _ => writing k mp (bc c.2) data w' c'
  | Err _ => left_behind k mp data (pc c'.1) /\ bc c'.2 = bc c.2
  end.
Proof.
  intros Hk Hs Ht Hpw Hbw Hst Hc. unfold spill. rewrite Hpw, Hk. unfold left_behind.
  destruct (w_flush pw c.1) as [[[[]|e] pw1] p1] eqn:E1; destruct (flush_spec _ _ _ _ _ E1) as (C1 & _ & S1).
  2: { intros [= <- <- <-]. simpl. rewrite drop_spec, C1, Hc. auto. }
  specialize (S1 eq_refl).
  destruct (w_commit pw1 p1) as [[[]|e] p2] eqn:E2; apply commit_spec in E2.
  2: { intros [= <- <- <-]. simpl. rewrite E2, C1, Hc. auto. }
  rewrite S1, Hst, C1, Hc in E2. simpl in E2.
  assert (Hpre : exists d, d `prefix_of` data /\ (threshold < N.of_nat (length d))%N /\ pc p2 = <[k := d]> mp) by eauto.
  destruct (writer k c.2) as [[bw|e] b1] eqn:E3; destruct (writer_spec _ _ _ _ E3) as (C3 & S3).
  2: { intros [= <- <- <-]. simpl. rewrite C3. auto. }
  destruct (reader k p2) as [pre|e] eqn:E4; [|intros [= <- <- <-]; simpl; rewrite drop_spec, C3; auto].
  apply reader_ok in E4 as (R4 & _ & _). rewrite E2, lookup_insert_eq in R4. injection R4 as R4.
  destruct (write_all write_zero (sr_data pre) bw b1) as [[[[]|e] bw1] b2] eqn:E5;
    destruct (write_all_spec write_zero _ _ _ _ _ _ E5) as (C5 & K5 & S5).
  2: { intros [= <- <- <-]. simpl. rewrite drop_spec, C5, C3. auto. }
  rewrite (S3 _ eq_refl) in K5, S5.
  destruct (entry_delete k p2) as [[[]|e] p3] eqn:E6; apply delete_spec in E6.
  - intros [= <- <- <-]. unfold writing. simpl. rewrite C5, C3. split_and!; try done.
    + apply pair_eq; [done|]. rewrite S5 by done. simpl. congruence.
    + destruct E6 as [->|[[e He] _]]; [|done]. by rewrite E2, delete_insert_eq.
  - intros [= <- <- <-]. simpl. rewrite drop_spec, C5, C3. split; [|done].
    destruct E6 as [->|[_ ->]]; [|by right; right]. rewrite E2, delete_insert_eq. auto.
Qed.

Lemma spilling_write_spec k mp mb data d w c r w' c' :
  writing k mp mb data w c -> spilling_write write_zero panicked threshold d w c = (r, w', c') ->
  match r with
  | Ok n => n <= length d /\ writing k mp mb (data ++ take n d) w' c'
  | Err _ => left_behind k mp (data ++ d) (pc c'.1) /\ bc c'.2 = mb
  end.
Proof.
  intros Hw. pose proof (writing_left k mp mb data d w c Hw) as Hleft.
  destruct Hw as (Hk & Hs & Hb & Hw). unfold spilling_write.
  destruct (blob_writer w) as [bw|] eqn:Ebw.
  - destruct (primary_writer w) eqn:Epw; [done|]. destruct Hw as (Hst & Ht & Hp).
    destruct (w_write d bw c.2) as [[[n|e] bw1] b1] eqn:E1; destruct (write_spec _ _ _ _ _ _ E1) as (C1 & K1 & S1);
      intros [= <- <- <-]; simpl; [|by rewrite C1].
    destruct (S1 _ eq_refl) as [Hn Hd]. split; [done|]. rewrite Hst in K1, Hd. simpl in K1, Hd.
    unfold writing. simpl. rewrite C1, Hk, Hs, length_app, length_take.
    split_and!; [done|lia|done|by apply pair_eq|lia|done].
  - destruct (primary_writer w) as [pw|] eqn:Epw; [|done]. destruct Hw as (Hst & Ht & Hp).
    destruct (w_write d pw c.1) as [[[n|e] pw1] p1] eqn:E1; destruct (write_spec _ _ _ _ _ _ E1) as (C1 & K1 & S1).
    2: { intros [= <- <- <-]. simpl. by rewrite C1. }
    destruct (S1 _ eq_refl) as [Hn Hd]. rewrite Hst in K1, Hd. simpl in K1, Hd.
    assert (Hlen : N.of_nat (length (data ++ take n d)) = (sp_size w + N.of_nat n)%N).
    { rewrite length_app, length_take, Hs. lia. }
    simpl. destruct (N.ltb_spec threshold (sp_size w + N.of_nat n)) as [Hlt|Hge].
    + set (w0 := mkSpill (sp_key w) (sp_size w + N.of_nat n) (Some pw1) None).
      destruct (spill write_zero panicked w0 (p1, c.2)) as [[r1 w1] c1] eqn:E2.
      assert (E3 := spill_spec k mp (data ++ take n d) pw1 w0 (p1, c.2) r1 w1 c1 Hk ltac:(simpl; lia) ltac:(lia)
        eq_refl eq_refl (pair_eq _ _ _ K1 Hd) ltac:(simpl; congruence) E2).
      simpl in E3. rewrite Hb in E3. destruct r1 as [[]|e]; intros [= <- <- <-]; [done|].
      destruct E3 as [E3 ->]. split; [|done].
      destruct E3 as [->|[->|(d' & Hd' & ? & ->)]]; unfold left_behind; [auto..|].
      right; right. exists d'. split_and!; [|done..]. etrans; [exact Hd'|].
      apply prefix_app. exists (drop n d). by rewrite take_drop.
    + intros [= <- <- <-]. split; [done|]. unfold writing. simpl. split_and!; [done|lia|done|by apply pair_eq|lia|by rewrite C1].
Qed.

(** The content under a drop, or a flush, of the writer. *)
Lemma spill_drop_content w c : pc (spill_drop w c).1 = pc c.1 /\ bc (spill_drop w c).2 = bc c.2.
Proof.
  destruct w as [w|w]; simpl; [by rewrite drop_spec|].
  destruct (primary_writer w), (blob_writer w); simpl; rewrite ?drop_spec; done.
Qed.

Lemma spill_write_all_spec k mp mb fuel d data w c r w' c' :
  length d <= fuel -> writing k mp mb data w c ->
  write_all_fuel write_zero fuel d (Spilling w) c = (r, w', c') ->
  match r with
  | Ok _ => exists w1, w' = Spilling w1 /\ writing k mp mb (data ++ d) w1 c'
  | Err _ => left_behind k mp (data ++ d) (pc c'.1) /\ bc c'.2 = mb
  end.
Proof.
  revert d data w c. induction fuel as [|fuel IH]; intros [|x d] data w c Hl Hw; simpl in *; try lia;
    try (intros [= <- <- <-]; rewrite app_nil_r; eauto).
  destruct (spilling_write _ _ _ (x :: d) w c) as [[r1 w1] c1] eqn:E1.
  pose proof (spilling_write_spec _ _ _ _ _ _ _ _ _ _ Hw E1) as E2. destruct r1 as [[|n]|e].
  - intros [= <- <- <-]. destruct E2 as [_ Hw1]. simpl in Hw1. rewrite app_nil_r in Hw1. by eapply writing_left.
  - destruct E2 as [Hn Hw1]. intros Hr. simpl in Hr.
    assert (Hl' : length (drop n d) <= fuel) by (rewrite length_drop; lia). apply (IH _ _ _ _ Hl' Hw1) in Hr.
    rewrite <- !app_assoc in Hr. simpl in Hr. by rewrite take_drop in Hr.
  - by intros [= <- <- <-].
Qed.

Lemma left_behind_more k mp data data' m : left_behind k mp data m -> left_behind k mp (data ++ data') m.
Proof.
  intros [->|[->|(d & Hd & ? & ->)]]; unfold left_behind; [auto..|]. right; right. exists d.
  split_and!; [|done..]. by apply prefix_app_r.
Qed.

Lemma spill_write_chunks_spec k mp mb chunks data w c r w' c' :
  writing k mp mb data w c -> write_chunks write_zero chunks (Spilling w) c = (r, w', c') ->
  match r with
  | Ok _ => exists w1, w' = Spilling w1 /\ writing k mp mb (data ++ concat chunks) w1 c'
  | Err _ => left_behind k mp (data ++ concat chunks) (pc c'.1) /\ bc c'.2 = mb
  end.
Proof.
  revert data w c. induction chunks as [|d chunks IH]; intros data w c Hw; simpl.
  - intros [= <- <- <-]. rewrite app_nil_r. eauto.
  - destruct (write_all write_zero d (Spilling w) c) as [[r1 w1] c1] eqn:E1.
    pose proof (spill_write_all_spec _ _ _ _ _ _ _ _ _ _ _ (le_n _) Hw E1) as E2. destruct r1 as [[]|e].
    + destruct E2 as (w2 & -> & Hw2). intros Hr. apply (IH _ _ _ Hw2) in Hr. by rewrite <- app_assoc in Hr.
    + destruct E2 as [E2 Hb]. intros [= <- <- <-]. split; [|done]. rewrite app_assoc. by apply left_behind_more.
Qed.

(** ** Storing an entry *)

Definition large (data : bytes) : Prop := (threshold < N.of_nat (length data))%N.

#[local] Instance large_dec data : base.Decision (large data).
Proof. unfold large. apply _. Defined.

(** An artifact. *)
Lemma spill_store_blob k chunks c r c' :
  is_manifest k.2 = false -> bh c.2 k = false ->
  store write_zero k chunks c = (r, c') ->
  match r with
  | Ok _ =>
      if decide (large (concat chunks))
      then pc c'.1 = delete k (pc c.1) /\ bc c'.2 = <[k := concat chunks]> (bc c.2)
      else pc c'.1 = <[k := concat chunks]> (pc c.1) /\ bc c'.2 = delete k (bc c.2)
  | Err _ =>
      bc c'.2 = delete k (bc c.2) /\ left_behind k (pc c.1) (concat chunks) (pc c'.1) \/
      bc c'.2 = bc c.2 /\ pc c'.1 = pc c.1
  end.
Proof.
  intros Hm Hh. unfold store. simpl. unfold spill_writer. rewrite Hm. unfold drop_stale.
  destruct (match file_path k c.2 with Some _ => entry_delete k c.2 | None => (Ok (), c.2) end) as [r0 b0] eqn:E0.
  assert (Hb : r0 = Ok () /\ bc b0 = delete k (bc c.2) \/ (exists e, r0 = Err e) /\ (bc b0 = bc c.2 \/ bc b0 = delete k (bc c.2))).
  { destruct (file_path k c.2) eqn:Ef.
    - apply delete_spec in E0. destruct E0 as [?|[? ?]]; [|right; auto]. destruct r0 as [[]|]; [by left|right; eauto].
    - injection E0 as <- <-. left. split; [done|]. symmetry. apply delete_id. by eapply file_path_none. }
  destruct Hb as [[-> Hb]|[[e ->] Hb]]; [|intros [= <- <-]; destruct Hb; [by right|left; split; [done|by left]]].
  destruct (writer k c.1) as [[pw|e] p1] eqn:E1; destruct (writer_spec _ _ _ _ E1) as (C1 & S1); simpl;
    [|intros [= <- <-]; simpl; left; split; [done|by left]].
  assert (Hw : writing k (pc c.1) (bc b0) [] (mkSpill k 0 (Some pw) None) (p1, b0)).
  { unfold writing. simpl. rewrite (S1 _ eq_refl). split_and!; [done..|lia|done]. }
  destruct (write_chunks write_zero chunks _ _) as [[r2 w2] c2] eqn:E2.
  pose proof (spill_write_chunks_spec _ _ _ _ _ _ _ _ _ _ Hw E2) as H2. simpl in H2. destruct r2 as [[]|e].
  - destruct H2 as (w3 & -> & Hk & Hs & Hb2 & H2). simpl. destruct (blob_writer w3) as [bw|].
    + destruct (primary_writer w3) eqn:Ep; [done|]. destruct H2 as (Hst & Hl & Hp).
      destruct (w_commit bw c2.2) as [[[]|e] b3] eqn:E3; apply commit_spec in E3; intros [= <- <-]; simpl;
        rewrite E3, Hb2, Hb.
      * rewrite decide_True by done. rewrite Hst. simpl. split; [done|]. by rewrite insert_delete_eq.
      * left. split; [done|]. right; by left.
    + destruct (primary_writer w3) as [pw3|]; [|done]. destruct H2 as (Hst & Hl & Hp).
      destruct (w_commit pw3 c2.1) as [[[]|e] p3] eqn:E3; apply commit_spec in E3; intros [= <- <-]; simpl;
        rewrite E3, Hb2, Hb.
      * rewrite decide_False by (unfold large; lia). rewrite Hst. simpl. by rewrite Hp.
      * left. split; [done|]. by left.
  - intros [= <- <-]. destruct H2 as [Hl Hb2]. destruct (spill_drop_content w2 c2) as [Hp3 Hb3].
    change (w_drop w2 c2) with (spill_drop w2 c2). rewrite Hp3, Hb3, Hb2, Hb. by left.
Qed.

(** A manifest is written by the primary's own writer. *)
Lemma direct_write_all_spec k fuel : forall d data w c r w' c', length d <= fuel -> ps w = (k, data) ->
  write_all_fuel write_zero fuel d (Direct w) c = (r, w', c') ->
  pc c'.1 = pc c.1 /\ c'.2 = c.2 /\ exists w1, w' = Direct w1 /\ (ps w1).1 = k /\ (r = Ok () -> ps w1 = (k, data ++ d)).
Proof.
  induction fuel as [|fuel IH]; intros [|x d] data w c r w' c' Hl Hw; simpl in *; try lia;
    try (intros [= <- <- <-]; split_and!; [done..|exists w; rewrite app_nil_r; by rewrite Hw]).
  destruct (w_write (x :: d) w c.1) as [[r1 w1] p1] eqn:E1. destruct (write_spec _ _ _ _ _ _ E1) as (C1 & K1 & S1).
  rewrite Hw in K1, S1. simpl in K1, S1. destruct r1 as [[|n]|e]; try (intros [= <- <- <-]; simpl; split_and!; [done..|by exists w1]).
  destruct (S1 _ eq_refl) as [Hn Hd]. intros Hr. simpl in Hr.
  assert (Hl' : length (drop n d) <= fuel) by (rewrite length_drop; lia).
  apply (IH _ _ _ _ _ _ _ Hl' (pair_eq _ _ _ K1 Hd)) in Hr as (Hp & Hb & w2 & -> & Hk & Hs).
  simpl in *. split_and!; [by rewrite Hp, C1|done|]. exists w2. split_and!; [done..|]. intros Hok. rewrite (Hs Hok), <- app_assoc. simpl.
  by rewrite take_drop.
Qed.
Lemma direct_write_chunks_spec k chunks : forall data w c r w' c', ps w = (k, data) -> write_chunks write_zero chunks (Direct w) c = (r, w', c') ->
  pc c'.1 = pc c.1 /\ c'.2 = c.2 /\ exists w1, w' = Direct w1 /\ (r = Ok () -> ps w1 = (k, data ++ concat chunks)).
Proof.
  induction chunks as [|d chunks IH]; intros data w c r w' c' Hw; simpl.
  - intros [= <- <- <-]. split_and!; [done..|]. exists w. by rewrite app_nil_r.
  - destruct (write_all write_zero d (Direct w) c) as [[r1 w1] c1] eqn:E1.
    apply (direct_write_all_spec k _ _ data _ _ _ _ _ (le_n _) Hw) in E1 as (Hp & Hb & w2 & -> & _ & Hs).
    destruct r1 as [[]|e]; [|intros [= <- <- <-]; split_and!; [done..|by exists w2]].
    intros Hr. apply (IH _ _ _ _ _ _ (Hs eq_refl)) in Hr as (Hp' & Hb' & w3 & -> & Hs').
    split_and!; [congruence..|]. exists w3. split; [done|]. intros Hok. by rewrite (Hs' Hok), <- app_assoc.
Qed.
Lemma spill_store_manifest k chunks c r c' : is_manifest k.2 = true -> store write_zero k chunks c = (r, c') ->
  bc c'.2 = bc c.2 /\ pc c'.1 = match r with Ok _ => <[k := concat chunks]> (pc c.1) | Err _ => pc c.1 end.
Proof.
  intros Hm. unfold store. simpl. unfold spill_writer. rewrite Hm.
  destruct (writer k c.1) as [[pw|e] p1] eqn:E1; destruct (writer_spec _ _ _ _ E1) as (C1 & S1); [|by intros [= <- <-]].
  simpl. match goal with |- context [write_chunks ?e ?l ?w ?s] => destruct (write_chunks e l w s) as [[r2 w2] c2] eqn:E2 end.
  apply (direct_write_chunks_spec k _ [] _ _ _ _ _ (S1 _ eq_refl)) in E2 as (Hp & Hb & w3 & -> & Hs). simpl in *.
  destruct r2 as [[]|e]; simpl.
  - destruct (w_commit w3 c2.1) as [r3 p3] eqn:E3. apply commit_spec in E3. intros [= <- <-]. simpl. rewrite Hb, E3. split; [done|].
    destruct r3 as [[]|e]; [|congruence]. rewrite (Hs eq_refl). simpl. congruence.
  - intros [= <- <-]. simpl. rewrite drop_spec, Hb. split; [done|congruence].
Qed.

(** C7: an artifact that is stored ends up in one backend, chosen by its size alone
    however it was cut into chunks, and is served as it was written; the other
    backend gives up what it held for the key. A manifest is in the primary whatever
    its size. When anything fails, no other key changes, a manifest is as it was, the
    blobs lose at most a stale copy of the key, and the primary keeps its old entry, or
    none, or - when what failed is a promotion - a truncated one, longer than the
    threshold. The premises: the two backends keep what they acknowledge, and the file a
    stale copy of an artifact would be can be looked at. *)
Theorem spill_store_exact k chunks c r c' :
  (is_manifest k.2 = false -> bh c.2 k = false) ->
  store write_zero k chunks c = (r, c') ->
  match r with
  | Ok _ =>
      if is_manifest k.2 then pc c'.1 = <[k := concat chunks]> (pc c.1) /\ bc c'.2 = bc c.2
      else if decide (large (concat chunks))
      then pc c'.1 = delete k (pc c.1) /\ bc c'.2 = <[k := concat chunks]> (bc c.2)
      else pc c'.1 = <[k := concat chunks]> (pc c.1) /\ bc c'.2 = delete k (bc c.2)
  | Err _ =>
      is_manifest k.2 = false /\ bc c'.2 = delete k (bc c.2) /\ left_behind k (pc c.1) (concat chunks) (pc c'.1) \/
      bc c'.2 = bc c.2 /\ pc c'.1 = pc c.1
  end.
Proof.
  intros Hh Hs. destruct (is_manifest k.2) eqn:Em.
  - apply spill_store_manifest in Hs as [Hb Hp]; [|done]. destruct r; auto.
  - pose proof (spill_store_blob _ _ _ _ _ Em (Hh eq_refl) Hs) as H2. destruct r; [done|]. destruct H2 as [[??]|?]; auto.
Qed.

(** ** One key, one backend *)

(** What the tier serves: the primary first. *)
Definition spill_content (c : P * B) : gmap EntryKey bytes := pc c.1 ∪ bc c.2.

(** Each key lives in one backend. *)
Definition one_home (c : P * B) : Prop := pc c.1 ##ₘ bc c.2.

Lemma spill_reader_ok k c r : reader k c = Ok r ->
  spill_content c !! k = Some (sr_data r) /\ sr_size r = N.of_nat (length (sr_data r)) /\
  (sr_bytes r = None \/ sr_bytes r = Some (sr_data r)).
Proof.
  simpl. unfold spill_reader, spill_content. destruct (reader k c.1) as [r1|e] eqn:Er.
  - intros [= <-]. apply reader_ok in Er as [Er ?]. split; [|done]. by apply lookup_union_Some_l.
  - destruct (not_found e) eqn:En; [|done]. intros [Hr ?]%reader_ok. split; [|done].
    rewrite lookup_union_r; [done|]. by eapply reader_not_found.
Qed.

Lemma spill_reader_not_found k c e : reader k c = Err e -> not_found e = true -> spill_content c !! k = None.
Proof.
  simpl. unfold spill_reader, spill_content. destruct (reader k c.1) as [r1|e1] eqn:Er; [done|].
  destruct (not_found e1) eqn:En; [|congruence]. intros Hr Hn. apply lookup_union_None. split; by eapply reader_not_found.
Qed.

Lemma union_is_Some (m1 m2 : gmap EntryKey bytes) k :
  bool_decide (is_Some ((m1 ∪ m2) !! k)) = bool_decide (is_Some (m1 !! k)) || bool_decide (is_Some (m2 !! k)).
Proof. rewrite lookup_union. by destruct (m1 !! k), (m2 !! k). Qed.

Lemma spill_exists_spec k c b : entry_exists k c = Ok b -> b = bool_decide (is_Some (spill_content c !! k)).
Proof.
  simpl. unfold spill_exists, or_else, spill_content. rewrite union_is_Some.
  intros (f & Hf & Hb)%result_bind_ok. apply exists_spec in Hf. destruct f.
  - injection Hb as <-. by rewrite <- Hf.
  - rewrite <- Hf. by apply exists_spec in Hb.
Qed.

Lemma spill_existence_spec k c r : entry_existence k c = Ok r ->
  match r with Committed b => b = bool_decide (is_Some (spill_content c !! k)) | QueuedWrite => pq c.1 k = true \/ bq c.2 k = true end.
Proof.
  simpl. unfold spill_existence, spill_content. rewrite union_is_Some.
  destruct (entry_existence k c.1) as [[[]|]|] eqn:Er; try done; apply existence_spec in Er.
  - intros [= <-]. by rewrite <- Er.
  - intros Hr. apply existence_spec in Hr. destruct r; [by rewrite <- Er|by right].
  - intros [= <-]. by left.
Qed.

(** A file is offered only for a key the primary does not have, so what is read from
    it is what [reader] reads. *)
Lemma spill_file_path_exact k c path : file_path k c = Some path -> pq c.1 k = false ->
  pc c.1 !! k = None /\ spill_content c !! k = Some (file path) /\
  forall r, reader k c = Ok r -> sr_data r = file path.
Proof.
  simpl. unfold spill_file_path. intros (p & Hp & Hr)%bind_Some Hq. apply file_path_some in Hp.
  destruct (exists_committed k c.1) as [[]|] eqn:Er; try done. injection Hr as <-.
  apply committed_spec in Er; [|done]. symmetry in Er. apply bool_decide_eq_false in Er. apply eq_None_not_Some in Er.
  assert (Hc : spill_content c !! k = Some (file p)) by (unfold spill_content; by rewrite lookup_union_r).
  split_and!; [done..|]. intros r Hr. apply spill_reader_ok in Hr as [Hr _]. congruence.
Qed.

Hypothesis stat_len : forall src n, stat src = Ok n -> n = N.of_nat (length (file src)).

(** Adopting a file decides by its size as writing it would, and moves the key. *)
Lemma spill_adopt_exact k src c r c' : is_manifest k.2 = false -> pq c.1 k = false -> adopt_file k src c = (r, c') ->
  match r with
  | Ok true => large (file src) /\ pc c'.1 = delete k (pc c.1) /\ bc c'.2 = <[k := file src]> (bc c.2)
  | Ok false => pc c'.1 = pc c.1 /\ bc c'.2 = bc c.2
  | Err _ => (pc c'.1 = pc c.1 \/ pc c'.1 = delete k (pc c.1)) /\ (bc c'.2 = bc c.2 \/ bc c'.2 = <[k := file src]> (bc c.2))
  end.
Proof.
  intros Hm Hq. simpl. unfold spill_adopt_file. rewrite Hm.
  destruct (stat src) as [n|] eqn:Es; [|intros [= <- <-]; auto]. apply stat_len in Es.
  destruct (N.leb_spec n threshold) as [Hn|Hn]; [by intros [= <- <-]|].
  destruct (adopt_file k src c.2) as [[[]|e] b] eqn:Ea; apply adopt_spec in Ea; try (intros [= <- <-]; simpl; auto).
  destruct (exists_committed k c.1) as [[]|] eqn:Ee.
  - destruct (entry_delete k c.1) as [[[]|e] p] eqn:Ed; apply delete_spec in Ed; intros [= <- <-]; simpl.
    + destruct Ed as [->|[[e He] _]]; [|done]. split_and!; [unfold large; lia|done..].
    + split; [|auto]. destruct Ed as [?|[_ ?]]; auto.
  - intros [= <- <-]. simpl. split_and!; [unfold large; lia| |done]. symmetry. apply delete_id.
    apply committed_spec in Ee; [|done]. symmetry in Ee. apply bool_decide_eq_false in Ee. by apply eq_None_not_Some in Ee.
  - intros [= <- <-]. auto.
Qed.

Lemma spill_delete_spec k c r c' : entry_delete k c = (r, c') ->
  (pc c'.1 = delete k (pc c.1) \/ pc c'.1 = pc c.1) /\ (bc c'.2 = delete k (bc c.2) \/ bc c'.2 = bc c.2) /\
  (r = Ok () -> pc c'.1 = delete k (pc c.1) /\ bc c'.2 = delete k (bc c.2)).
Proof.
  simpl. unfold spill_delete. destruct (entry_delete k c.1) as [[[]|e] p] eqn:E1; apply delete_spec in E1.
  - destruct (entry_delete k c.2) as [r2 b] eqn:E2. apply delete_spec in E2. intros [= <- <-]. simpl.
    destruct E1 as [->|[[e ?] _]]; [|done]. destruct E2 as [->|[[e ->] ->]]; split_and!; auto; done.
  - intros [= <- <-]. simpl. destruct E1 as [->|[_ ->]]; split_and!; auto; done.
Qed.

(** Storing keeps every key in one backend, whether it succeeds or not. *)
Lemma store_one_home k chunks c r c' : is_manifest k.2 = false -> bh c.2 k = false -> one_home c ->
  store write_zero k chunks c = (r, c') -> one_home c'.
Proof.
  unfold one_home. intros Hm Hh Hd Hs. apply spill_store_blob in Hs; [|done..].
  destruct r as [[]|e]; [case_decide|].
  - destruct Hs as [-> ->]. apply map_disjoint_insert_r_2; [by rewrite lookup_delete_eq|by apply map_disjoint_delete_l].
  - destruct Hs as [-> ->]. apply map_disjoint_insert_l_2; [by rewrite lookup_delete_eq|by apply map_disjoint_delete_r].
  - destruct Hs as [[-> Hl]|[-> ->]]; [|done].
    destruct Hl as [->|[->|(d & _ & _ & ->)]]; [by apply map_disjoint_delete_r| |].
    + by apply map_disjoint_delete_l, map_disjoint_delete_r.
    + apply map_disjoint_insert_l_2; [by rewrite lookup_delete_eq|by apply map_disjoint_delete_r].
Qed.

(** ** The tier is the cache of the garbage collector *)

(** [Engine::read_manifest_from]: [take(size)] of the stream, decoded. *)
Definition read_manifest_from {S W} `{Backend S W E} (decode : bytes -> result E Manifest) (a : arc) (h : str) (c : S)
    : result E (option Manifest) :=
  match reader (a, h, MANIFEST_V1) c with
  | Err e => if not_found e then Ok None else Err e
  | Ok sized => Some <$> decode (take (N.to_nat (sr_size sized)) (sr_data sized))
  end.

Variable decode : bytes -> result E Manifest.

#[local] Instance tier_local_cache : LocalCache (P * B) E := {
  Gc.read_manifest := read_manifest_from decode;
  lc_exists a h n c := entry_exists (a, h, n) c;
  existence a h n c := entry_existence (a, h, n) c;
  lc_delete a h n c := entry_delete (a, h, n) c;
  list_target_entries a c := list_entries a c;
}.

Definition tier_stored (c : P * B) (a : arc) (h n : str) : bool := bool_decide (is_Some (spill_content c !! (a, h, n))).

Lemma delete_or_same_lookup (m m' : gmap EntryKey bytes) k k' : m' = delete k m \/ m' = m -> k' <> k -> m' !! k' = m !! k'.
Proof. intros [->| ->] ?; [by rewrite lookup_delete_ne|done]. Qed.

(** A manifest of another revision reads the same after a deletion. *)
Lemma spill_delete_others k c r c' k' : entry_delete k c = (r, c') -> k' <> k -> reader k' c' = reader k' c.
Proof.
  simpl. unfold spill_delete, spill_reader. destruct (entry_delete k c.1) as [[[]|e] p] eqn:E1.
  - destruct (entry_delete k c.2) as [r2 b] eqn:E2. intros [= <- <-] Hk. simpl.
    by rewrite (delete_others _ _ _ _ _ E1 Hk), (delete_others _ _ _ _ _ E2 Hk).
  - intros [= <- <-] Hk. simpl. by rewrite (delete_others _ _ _ _ _ E1 Hk).
Qed.

(** The spilling tier keeps what the garbage collector asks of a cache, given
    that its two backends keep what the trait promises: a deletion concerns one
    entry, in whichever backend it is, and no manifest of another revision; a
    deletion that succeeds leaves no copy in either; the listing names a revision
    once. So the theorems of [Gc] and [Clean] hold of it. *)
Theorem tier_gc_laws : LocalCacheLaws (P * B) E tier_stored all_land.
Proof.
  split.
  - intros c a h n r c' a' h' n' Hd Hk. apply spill_delete_spec in Hd as (Hp & Hb & _).
    unfold tier_stored, spill_content. rewrite !union_is_Some.
    by rewrite (delete_or_same_lookup (pc c.1) (pc c'.1) (a, h, n)), (delete_or_same_lookup (bc c.2) (bc c'.2) (a, h, n)).
  - intros c a h n c' Hd. left. apply spill_delete_spec in Hd as (_ & _ & Hd). destruct (Hd eq_refl) as [Hp Hb].
    unfold tier_stored, spill_content. by rewrite union_is_Some, Hp, Hb, !lookup_delete_eq.
  - done.
  - intros c a h n r c' a' h' Hd Hk. cbn. unfold read_manifest_from.
    rewrite (spill_delete_others _ _ _ _ (a', h', MANIFEST_V1) Hd); [done|congruence].
  - intros c a hs Hl. cbn in Hl. by eapply (entries_distinct (content := pc)).
Qed.
End spill_spec.

(** ** Backends that keep the laws, and may run out of space *)

Inductive tier_error := NotFound | NoSpace | Io.

(** Entries, and how long one may be. *)
Record disk := mkDisk { entries : gmap EntryKey bytes; room : nat }.

Definition disk_entry (k : EntryKey) (d : disk) : result tier_error SizedReader :=
  match entries d !! k with
  | Some b => Ok (mkSized (N.of_nat (length b)) b None)
  | None => Err NotFound
  end.

(** A path is written as the bytes of its file. *)
#[export] Instance disk_backend : Backend disk (EntryKey * bytes) tier_error := {
  reader := disk_entry;
  writer k d := (Ok (k, []), d);
  w_write b w d := if Nat.leb (length w.2 + length b) (room d) then (Ok (length b), (w.1, w.2 ++ b), d) else (Err NoSpace, w, d);
  w_flush w d := (Ok (), w, d);
  w_commit w d := (Ok (), mkDisk (<[w.1 := w.2]> (entries d)) (room d));
  w_drop w d := d;
  entry_exists k d := Ok (bool_decide (is_Some (entries d !! k)));
  entry_existence k d := Ok (Committed (bool_decide (is_Some (entries d !! k))));
  exists_committed k d := Ok (bool_decide (is_Some (entries d !! k)));
  entry_delete k d := (Ok (), mkDisk (delete k (entries d)) (room d));
  list_entries a d := Ok (remove_dups (omap (fun '(a', h, _, _) => if decide (a' = a) then Some h else None) (map_to_list (entries d))));
  seekable_reader k d := match entries d !! k with Some b => Ok (Some b) | None => Err NotFound end;
  file_path k d := entries d !! k;
  adopt_file k src d := (Ok true, mkDisk (<[k := src]> (entries d)) (room d));
}.

Definition is_not_found (e : tier_error) : bool := match e with NotFound => true | _ => false end.

#[export] Instance disk_backend_laws :
  BackendLaws disk (EntryKey * bytes) tier_error is_not_found (fun path => path) entries (fun _ _ => false) (fun _ _ => false) id.
Proof.
  split; cbn; unfold disk_entry.
  - intros k s r H. case_match; [|done]. injection H as <-. simpl. auto.
  - intros k s e H. by case_match.
  - intros k s r s' [= <- <-]. split; [done|]. by intros w [= <-].
  - intros d w s r w' s'. case_match; intros [= <- <- <-]; split_and!; try done. intros n [= <-]. by rewrite take_ge.
  - intros w s r w' s' [= <- <- <-]. done.
  - intros w s r s' [= <- <-]. done.
  - done.
  - intros k s b [= <-]. done.
  - intros k s r [= <-]. done.
  - intros k s b [= <-]. done.
  - intros k s r s' [= <- <-]. by left.
  - intros k s r s' k' [= <- <-] Hk. simpl. by rewrite lookup_delete_ne.
  - intros k s d H. case_match; [|done]. by injection H as <-.
  - intros k s e H. by case_match.
  - done.
  - done.
  - intros k src s r s' [= <- <-]. done.
  - intros a s hs [= <-]. apply NoDup_remove_dups.
Qed.

Abbreviation sample_store k chunks c :=
  (@store _ _ _ (spill_backend is_not_found Io Io Io 2 (fun src => Ok (N.of_nat (length src)))) Io k chunks c).
Definition sample_key : EntryKey := (1%N, $"h", $"out").
Definition sample_tier (space : nat) (old : bytes) : disk * disk :=
  (mkDisk ∅ 100, mkDisk (if bool_decide (old = []) then ∅ else {[sample_key := old]}) space).

Lemma spill_store_exact_witness :
  entries (sample_store sample_key [[1%N]; [2%N; 3%N]; [4%N]] (sample_tier 100 [])).2.1 !! sample_key = None /\
  entries (sample_store sample_key [[1%N]; [2%N; 3%N]; [4%N]] (sample_tier 100 [])).2.2 = <[sample_key := [1%N; 2%N; 3%N; 4%N]]> ∅.
Proof.
  split; [by vm_compute|].
  pose proof (spill_store_exact Io Io Io 2 (fun src => Ok (N.of_nat (length src))) sample_key [[1%N]; [2%N; 3%N]; [4%N]]
    (sample_tier 100 []) (Ok ()) (sample_store sample_key [[1%N]; [2%N; 3%N]; [4%N]] (sample_tier 100 [])).2
    (fun _ => eq_refl) ltac:(by vm_compute)) as H.
  cbv beta iota in H. change (is_manifest sample_key.2) with false in H. cbv beta iota in H. rewrite decide_True in H by (by vm_compute). apply H.
Defined.

(** A promotion that fails after the prefix was committed: nothing takes it back.
    The write reports the failure, the writer is dropped uncommitted, and the key is
    served from then on with the bytes written so far. *)
Theorem failed_spill_surfaces :
  let '(r, c) := sample_store sample_key [[1%N; 2%N; 3%N]; [4%N; 5%N]] (sample_tier 2 []) in
  r = Err NoSpace /\ sr_data <$> spill_reader is_not_found sample_key c = Ok [1%N; 2%N; 3%N].
Proof. by vm_compute. Qed.

Lemma tier_gc_laws_witness :
  @LocalCacheLaws (disk * disk) tier_error
    (tier_local_cache (not_found := is_not_found) Io Io Io 2 (fun _ => Ok 0%N) (fun _ => Err Io))
    (tier_stored (pc := entries) (bc := entries)) all_land /\
  (spill_delete sample_key (sample_tier 100 [7%N; 8%N; 9%N])).1 = Ok ().
Proof. split; [eapply (tier_gc_laws (pc := entries) (bc := entries))|by vm_compute]. Defined.
