(* ===== verification/MemTier.v ===== *)
(** The memory tier of the local cache: [crates/engine/src/engine/local_cache_mem.rs].

    Small entries that were read are kept in memory, in front of any other backend.
    What is kept has to be what the backend serves: an entry is dropped from memory
    when a writer is opened for it, when a file is adopted for it and when it is
    deleted. The capacity is the third-party cache's business: it may drop any
    entries whenever one is added. *)
From S2P Require Import Prelude HtIntern Gc CacheTiers.

Record LocalCacheMem (S : Type) := mkMem { cache : gmap EntryKey bytes; inner : S }.
Arguments mkMem {S} _ _.
Arguments cache {S} _.
Arguments inner {S} _.

Section mem.
Context {S W E : Type} `{Backend S W E}.
Variable per_entry_bytes : N.
(** What is left after an insertion. *)
Variable evict : gmap EntryKey bytes -> gmap EntryKey bytes.

Definition cache_insert (k : EntryKey) (b : bytes) (m : LocalCacheMem S) : LocalCacheMem S :=
  mkMem (evict (<[k := b]> (cache m))) (inner m).
Definition cache_remove (k : EntryKey) (m : LocalCacheMem S) : LocalCacheMem S :=
  mkMem (delete k (cache m)) (inner m).

Definition in_memory (b : bytes) : SizedReader := mkSized (N.of_nat (length b)) b (Some b).

(** [reader], one access after the other: the look into memory, the read of the inner
    backend, the insertion. Anything may happen between them. *)
Inductive Access := Get | Fetch | Insert (b : bytes) (answer : SizedReader) | Answered (r : result E SizedReader).

Definition read_access (k : EntryKey) (a : Access) (m : LocalCacheMem S) : Access * LocalCacheMem S :=
  match a with
  | Get => (match cache m !! k with Some buf => Answered (Ok (in_memory buf)) | None => Fetch end, m)
  | Fetch =>
      (match reader k (inner m) with
       | Err e => Answered (Err e)
       | Ok sized =>
           if (per_entry_bytes <? sr_size sized)%N then Answered (Ok sized)
           else
             match sr_bytes sized with
             | Some arc => Insert arc sized
             | None => Insert (sr_data sized) (in_memory (sr_data sized))
             end
       end, m)
  | Insert b answer => (Answered (Ok answer), cache_insert k b m)
  | Answered r => (Answered r, m)
  end.

(** [reader] when nothing comes between. *)
Definition mem_reader (k : EntryKey) (m : LocalCacheMem S) : result E SizedReader * LocalCacheMem S :=
  match cache m !! k with
  | Some buf => (Ok (in_memory buf), m)
  | None =>
      match reader k (inner m) with
      | Err e => (Err e, m)
      | Ok sized =>
          if (per_entry_bytes <? sr_size sized)%N then (Ok sized, m)
          else
            match sr_bytes sized with
            | Some arc => (Ok sized, cache_insert k arc m)
            | None => (Ok (in_memory (sr_data sized)), cache_insert k (sr_data sized) m)
            end
      end
  end.

Definition mem_writer (k : EntryKey) (m : LocalCacheMem S) : result E W * LocalCacheMem S :=
  let m := cache_remove k m in
  let '(r, s) := writer k (inner m) in (r, mkMem (cache m) s).

Definition mem_adopt_file (k : EntryKey) (src : str) (m : LocalCacheMem S) : result E bool * LocalCacheMem S :=
  let m := cache_remove k m in
  let '(r, s) := adopt_file k src (inner m) in (r, mkMem (cache m) s).

Definition mem_delete (k : EntryKey) (m : LocalCacheMem S) : result E () * LocalCacheMem S :=
  let m := cache_remove k m in
  let '(r, s) := entry_delete k (inner m) in (r, mkMem (cache m) s).

Definition resident (k : EntryKey) (m : LocalCacheMem S) : bool := bool_decide (is_Some (cache m !! k)).

Definition mem_exists (k : EntryKey) (m : LocalCacheMem S) : result E bool :=
  if resident k m then Ok true else entry_exists k (inner m).
Definition mem_existence (k : EntryKey) (m : LocalCacheMem S) : result E Existence :=
  if resident k m then Ok (Committed true) else entry_existence k (inner m).
Definition mem_exists_committed (k : EntryKey) (m : LocalCacheMem S) : result E bool :=
  if resident k m then Ok true else exists_committed k (inner m).

Definition mem_seekable_reader (k : EntryKey) (m : LocalCacheMem S) : result E (option bytes) :=
  match cache m !! k with
  | Some buf => Ok (Some buf)
  | None => seekable_reader k (inner m)
  end.
Definition mem_file_path (k : EntryKey) (m : LocalCacheMem S) : option str := file_path k (inner m).
Definition mem_list_entries (a : arc) (m : LocalCacheMem S) : result E (list str) := list_entries a (inner m).

(** ** Calls and writers under way *)

(** A call that has begun: a read, at its next access, or a change that has dropped the
    entry from memory and has the inner call to make. *)
Inductive Pending := Reading (a : Access) | Opening | Deleting | Adopting (src : str).
Definition is_reading (p : Pending) : bool := match p with Reading _ => true | _ => false end.

(** The writers that are open are the inner backend's own. *)
Record world := mkWorld { tier : LocalCacheMem S; open : gmap N (EntryKey * W); pending : gmap N (EntryKey * Pending) }.

Definition with_inner (s : S) (m : LocalCacheMem S) : LocalCacheMem S := mkMem (cache m) s.

(** Whether a key is being read, and whether it is being changed: opened, written, adopted
    or deleted. *)
Definition reading (k : EntryKey) (ps : gmap N (EntryKey * Pending)) : Prop := exists i a, ps !! i = Some (k, Reading a).
Definition changing (k : EntryKey) (o : gmap N (EntryKey * W)) (ps : gmap N (EntryKey * Pending)) : Prop :=
  (exists i x, o !! i = Some (k, x)) \/ exists i p, ps !! i = Some (k, p) /\ is_reading p = false.

(** What other processes may make of the backend under a key. *)
Variable elsewhere : EntryKey -> S -> S -> Prop.

(** Readers and changes of one key come one after the other, as the locks of a revision
    have it; another process changes a key that is neither in memory nor being read. *)
Inductive mem_step : world -> world -> Prop :=
| mst_read_begins w i k : pending w !! i = None -> ~ changing k (open w) (pending w) ->
    mem_step w (mkWorld (tier w) (open w) (<[i := (k, Reading Get)]> (pending w)))
| mst_read w i k a a' m : pending w !! i = Some (k, Reading a) -> read_access k a (tier w) = (a', m) ->
    mem_step w (mkWorld m (open w) (<[i := (k, Reading a')]> (pending w)))
| mst_read_ends w i k a : pending w !! i = Some (k, Reading a) -> mem_step w (mkWorld (tier w) (open w) (delete i (pending w)))
| mst_change_begins w i k p : pending w !! i = None -> is_reading p = false -> ~ reading k (pending w) ->
    mem_step w (mkWorld (cache_remove k (tier w)) (open w) (<[i := (k, p)]> (pending w)))
| mst_open w i j k x s : pending w !! i = Some (k, Opening) -> open w !! j = None -> writer k (inner (tier w)) = (Ok x, s) ->
    mem_step w (mkWorld (with_inner s (tier w)) (<[j := (k, x)]> (open w)) (delete i (pending w)))
| mst_open_fails w i k e s : pending w !! i = Some (k, Opening) -> writer k (inner (tier w)) = (Err e, s) ->
    mem_step w (mkWorld (with_inner s (tier w)) (open w) (delete i (pending w)))
| mst_delete w i k : pending w !! i = Some (k, Deleting) ->
    mem_step w (mkWorld (with_inner (entry_delete k (inner (tier w))).2 (tier w)) (open w) (delete i (pending w)))
| mst_adopt w i k src : pending w !! i = Some (k, Adopting src) ->
    mem_step w (mkWorld (with_inner (adopt_file k src (inner (tier w))).2 (tier w)) (open w) (delete i (pending w)))
| mst_write w i k x d r x' s : open w !! i = Some (k, x) -> w_write d x (inner (tier w)) = (r, x', s) ->
    mem_step w (mkWorld (with_inner s (tier w)) (<[i := (k, x')]> (open w)) (pending w))
| mst_flush w i k x r x' s : open w !! i = Some (k, x) -> w_flush x (inner (tier w)) = (r, x', s) ->
    mem_step w (mkWorld (with_inner s (tier w)) (<[i := (k, x')]> (open w)) (pending w))
| mst_commit w i k x : open w !! i = Some (k, x) ->
    mem_step w (mkWorld (with_inner (w_commit x (inner (tier w))).2 (tier w)) (delete i (open w)) (pending w))
| mst_drop w i k x : open w !! i = Some (k, x) ->
    mem_step w (mkWorld (with_inner (w_drop x (inner (tier w))) (tier w)) (delete i (open w)) (pending w))
| mst_elsewhere w k s : cache (tier w) !! k = None -> ~ reading k (pending w) -> elsewhere k (inner (tier w)) s ->
    mem_step w (mkWorld (with_inner s (tier w)) (open w) (pending w)).

(** From any backend, with nothing in memory and nothing under way. *)
Definition mem_reach (s : S) (w : world) : Prop := rtc mem_step (mkWorld (mkMem ∅ s) ∅ ∅) w.
End mem.
Arguments Access E : clear implicits.
Arguments Get {E}.
Arguments Fetch {E}.
Arguments Insert {E} b answer.
Arguments Answered {E} r.
Arguments Pending E : clear implicits.
Arguments Reading {E} a.
Arguments Opening {E}.
Arguments Deleting {E}.
Arguments Adopting {E} src.
Arguments world S W E : clear implicits.

(** ** What is in memory is what the backend serves *)

(** Of the backend it is only asked that a call concerns its key: both a plain
    backend and the spilling tier keep this. [agree k] relates states that hold the
    same for a key; [of_key] says which key a writer that was obtained from the
    backend is for. *)
Class TierLaws (S W E : Type) `{Backend S W E} (content : S -> gmap EntryKey bytes)
    (agree : EntryKey -> S -> S -> Prop) (of_key : W -> option EntryKey) : Prop := {
  tier_agree_pre k : PreOrder (agree k);
  tier_agree k s s' : agree k s s' -> content s' !! k = content s !! k;
  tier_reader k s r : reader k s = Ok r ->
    content s !! k = Some (sr_data r) /\ sr_size r = N.of_nat (length (sr_data r)) /\
    (sr_bytes r = None \/ sr_bytes r = Some (sr_data r));
  tier_writer k s r s' : writer k s = (r, s') -> (forall w, r = Ok w -> of_key w = Some k) /\
    (forall k', k' <> k -> agree k' s s');
  tier_write d w s k r w' s' : of_key w = Some k -> w_write d w s = (r, w', s') -> of_key w' = Some k /\
    (forall k', k' <> k -> agree k' s s');
  tier_flush w s k r w' s' : of_key w = Some k -> w_flush w s = (r, w', s') -> of_key w' = Some k /\
    (forall k', k' <> k -> agree k' s s');
  tier_commit w s k k' : of_key w = Some k -> k' <> k -> agree k' s (w_commit w s).2;
  tier_drop w s k k' : of_key w = Some k -> k' <> k -> agree k' s (w_drop w s);
  tier_delete k s k' : k' <> k -> agree k' s (entry_delete k s).2;
  tier_adopt k src s k' : k' <> k -> agree k' s (adopt_file k src s).2;
}.

Section coherence.
Context {S W E : Type} `{TierLaws S W E content agree of_key}.
Variable per_entry_bytes : N.
Variable evict : gmap EntryKey bytes -> gmap EntryKey bytes.
Hypothesis evict_incl : forall m, evict m ⊆ m.
Variable elsewhere : EntryKey -> S -> S -> Prop.
Hypothesis elsewhere_one : forall k s s', elsewhere k s s' -> forall k', k' <> k -> agree k' s s'.

(** The accesses of a read, made at once, are [mem_reader]. *)
Lemma mem_reader_accesses k (m : LocalCacheMem S) :
  let acc a m := read_access (E := E) per_entry_bytes evict k a m in
  let x := acc Get m in let y := acc x.1 x.2 in
  acc y.1 y.2 = (Answered (mem_reader per_entry_bytes evict k m).1, (mem_reader per_entry_bytes evict k m).2).
Proof. simpl. unfold mem_reader. by repeat (case_match; simplify_eq/=). Qed.

(** What a read that got this far has seen. *)
Definition access_ok (k : EntryKey) (s : S) (a : Access E) : Prop :=
  match a with
  | Get | Fetch | Answered (Err _) => True
  | Insert b r => content s !! k = Some b /\ sr_data r = b /\ sr_size r = N.of_nat (length b)
  | Answered (Ok r) => content s !! k = Some (sr_data r) /\ sr_size r = N.of_nat (length (sr_data r))
  end.

Record coherent (w : world S W E) : Prop := {
  coh_cache k b : cache (tier w) !! k = Some b -> content (inner (tier w)) !! k = Some b /\ ~ changing k (open w) (pending w);
  coh_open i k x : open w !! i = Some (k, x) -> of_key x = Some k;
  coh_read i k a : pending w !! i = Some (k, Reading a) -> access_ok k (inner (tier w)) a /\ ~ changing k (open w) (pending w);
}.

Lemma mem_reader_inner k (m : LocalCacheMem S) : inner (mem_reader per_entry_bytes evict k m).2 = inner m.
Proof. unfold mem_reader. by repeat case_match. Qed.

Lemma changing_pending_insert k o (ps : gmap N (EntryKey * Pending E)) i k' p :
  changing (W := W) k o (<[i := (k', p)]> ps) -> (k = k' /\ is_reading p = false) \/ changing k o ps.
Proof.
  intros [?|(j & q & Hj & Hq)]; [right; by left|]. apply lookup_insert_Some in Hj as [[_ [= -> <-]]|[_ Hj]]; [by left|].
  right; right. by exists j, q.
Qed.
Lemma changing_pending_delete k o (ps : gmap N (EntryKey * Pending E)) i : changing (W := W) k o (delete i ps) -> changing k o ps.
Proof. intros [?|(j & q & Hj & Hq)]; [by left|]. apply lookup_delete_Some in Hj as [_ Hj]. right. by exists j, q. Qed.
Lemma changing_open_insert k o (ps : gmap N (EntryKey * Pending E)) i k' (x : W) :
  changing k (<[i := (k', x)]> o) ps -> k = k' \/ changing k o ps.
Proof.
  intros [(j & y & Hj)|?]; [|right; by right]. apply lookup_insert_Some in Hj as [[_ [= -> _]]|[_ Hj]]; [by left|].
  right; left. by exists j, y.
Qed.
Lemma changing_open_delete k o (ps : gmap N (EntryKey * Pending E)) i : changing (W := W) k (delete i o) ps -> changing k o ps.
Proof. intros [(j & y & Hj)|?]; [|by right]. apply lookup_delete_Some in Hj as [_ Hj]. left. by exists j, y. Qed.

(** The backend moves under a key that is neither in memory nor being read; what is under
    way is no more than before. *)
Lemma coherent_move w k s o ps : coherent w -> cache (tier w) !! k = None -> ~ reading k (pending w) ->
  (forall k', k' <> k -> agree k' (inner (tier w)) s) ->
  (forall k', changing k' o ps -> changing k' (open w) (pending w)) ->
  (forall i k' a, ps !! i = Some (k', Reading a) -> pending w !! i = Some (k', Reading a)) ->
  (forall i k' x, o !! i = Some (k', x) -> of_key x = Some k') ->
  coherent (mkWorld (with_inner s (tier w)) o ps).
Proof.
  intros [Hc _ Hr] Hn Hnr Hs Hch Hps Ho. split; simpl; [|done|].
  - intros k' b Hk'. destruct (Hc k' b Hk') as [Hb Hnc]. split; [|auto].
    rewrite (tier_agree _ _ _ (Hs k' ltac:(congruence))). done.
  - intros i k' a Hi%Hps. destruct (Hr i k' a Hi) as [Ha Hnc]. split; [|auto].
    assert (k' <> k) as Hne by (intros ->; apply Hnr; by exists i, a).
    destruct a as [| |b r|[r|e]]; simpl in *; try done; by rewrite (tier_agree _ _ _ (Hs k' Hne)).
Qed.

(** A key that is being changed is neither in memory nor being read. *)
Lemma coherent_changing w k : coherent w -> changing k (open w) (pending w) -> cache (tier w) !! k = None /\ ~ reading k (pending w).
Proof.
  intros [Hc _ Hr] Hch. split.
  - destruct (cache (tier w) !! k) as [b|] eqn:Ek; [|done]. by destruct (Hc k b Ek) as [_ []].
  - intros (i & a & Hi). by destruct (Hr i k a Hi) as [_ []].
Qed.

(** An access of a read. *)
Lemma read_access_ok k a (m : LocalCacheMem S) a' m' : read_access per_entry_bytes evict k a m = (a', m') ->
  access_ok k (inner m) a -> (forall b, cache m !! k = Some b -> content (inner m) !! k = Some b) ->
  inner m' = inner m /\ access_ok k (inner m) a' /\
  (forall k' b, cache m' !! k' = Some b -> cache m !! k' = Some b \/ k' = k /\ content (inner m) !! k = Some b).
Proof.
  intros Ha Hok Hc. destruct a as [| |b r|r]; simpl in Ha; injection Ha as <- <-.
  - split_and!; [done| |by left]. destruct (cache m !! k) as [buf|] eqn:Ek; [|done]. simpl. split; [by apply Hc|done].
  - split_and!; [done| |by left]. destruct (reader k (inner m)) as [sized|e] eqn:Er; [|done]. apply tier_reader in Er as (Ed & Es & Eb).
    case_match; [done|]. destruct Eb as [-> | ->]; simpl; split_and!; congruence.
  - destruct Hok as (Hb & Hd & Hl). split_and!; [done|simpl; rewrite Hd; done|]. intros k' b' Hk'. simpl in Hk'.
    apply (lookup_weaken _ _ _ _ Hk') in evict_incl as Hk2. apply lookup_insert_Some in Hk2 as [[<- <-]|[_ Hk2]]; auto.
  - split_and!; [done|done|by left].
Qed.

Lemma step_coherent w w' : coherent w -> mem_step per_entry_bytes evict elsewhere w w' -> coherent w'.
Proof.
  intros Hcoh Hstep. pose proof Hcoh as [Hc Ho Hr].
  assert (Hdel : forall j i k' (a : Access E), delete j (pending w) !! i = Some (k', Reading a) -> pending w !! i = Some (k', Reading a)).
  { intros j i k' a [_ ?]%lookup_delete_Some. done. }
  assert (Hmove : forall k s o ps, changing k (open w) (pending w) -> (forall k', k' <> k -> agree k' (inner (tier w)) s) ->
    (forall k', changing k' o ps -> changing k' (open w) (pending w)) ->
    (forall i k' a, ps !! i = Some (k', Reading a) -> pending w !! i = Some (k', Reading a)) ->
    (forall i k' x, o !! i = Some (k', x) -> of_key x = Some k') -> coherent (mkWorld (with_inner s (tier w)) o ps)).
  { intros k s o ps Hch. destruct (coherent_changing w k Hcoh Hch). by apply coherent_move. }
  destruct Hstep as [w i k Hi Hn|w i k a a' m Hi Ha|w i k a Hi|w i k p Hi Hp Hn|w i j k x s Hi Hj Hw|w i k e s Hi Hw|w i k Hi|w i k src Hi
    |w i k x d r x' s Hi Hw|w i k x r x' s Hi Hw|w i k x Hi|w i k x Hi|w k s Hk Hn He].
  - split; simpl; [|done|].
    + intros k' b Hk'. destruct (Hc k' b Hk') as [? Hnc]. split; [done|]. by intros [[_ [=]]|?]%changing_pending_insert.
    + intros i' k' a. rewrite lookup_insert_Some. intros [[_ [= <- <-]]|[_ Hi']]; [|destruct (Hr _ _ _ Hi')];
        (split; [done|]); by intros [[_ [=]]|?]%changing_pending_insert.
  - destruct (Hr _ _ _ Hi) as [Hok Hnc]. destruct (read_access_ok _ _ _ _ _ Ha Hok) as (Hin & Hok' & Hcache); [intros b Hb; by eapply Hc|].
    split; simpl; rewrite ?Hin; [|done|].
    + intros k' b [Hk'|[-> Hb]]%Hcache; [destruct (Hc _ _ Hk')|]; (split; [done|]); by intros [[_ [=]]|?]%changing_pending_insert.
    + intros i' k' a2. rewrite lookup_insert_Some. intros [[_ [= <- <-]]|[_ Hi']]; [|destruct (Hr _ _ _ Hi')];
        (split; [done|]); by intros [[_ [=]]|?]%changing_pending_insert.
  - split; simpl; [|done|].
    + intros k' b Hk'. destruct (Hc k' b Hk') as [? Hnc]. split; [done|]. by intros ?%changing_pending_delete.
    + intros i' k' a' Hi'%Hdel. destruct (Hr _ _ _ Hi') as [? Hnc]. split; [done|]. by intros ?%changing_pending_delete.
  - split; simpl; [|done|].
    + intros k' b [Hne Hk']%lookup_delete_Some. destruct (Hc k' b Hk') as [? Hnc]. split; [done|].
      by intros [[-> _]|?]%changing_pending_insert.
    + intros i' k' a. rewrite lookup_insert_Some. intros [[_ [= _ ->]]|[_ Hi']]; [done|]. destruct (Hr _ _ _ Hi') as [? Hnc].
      split; [done|]. intros [[-> _]|?]%changing_pending_insert; [|done]. apply Hn. by exists i', a.
  - assert (changing k (open w) (pending w)) as Hch by (right; by exists i, Opening).
    destruct (tier_writer _ _ _ _ Hw) as [Hx Hs]. apply (Hmove k); [done|done| |by apply Hdel|].
    + by intros k' [->|?%changing_pending_delete]%changing_open_insert.
    + intros j' k' y. rewrite lookup_insert_Some. intros [[_ [= <- <-]]|[_ Hj']]; [by apply Hx|by eapply Ho].
  - destruct (tier_writer _ _ _ _ Hw) as [_ Hs]. apply (Hmove k); [right; by exists i, Opening|done|intros k'; apply changing_pending_delete|by apply Hdel|done].
  - apply (Hmove k); [right; by exists i, Deleting|apply tier_delete|intros k'; apply changing_pending_delete|by apply Hdel|done].
  - apply (Hmove k); [right; by exists i, (Adopting src)|apply tier_adopt|intros k'; apply changing_pending_delete|by apply Hdel|done].
  - assert (changing k (open w) (pending w)) as Hch by (left; by exists i, x).
    destruct (tier_write _ _ _ k _ _ _ ltac:(by eapply Ho) Hw) as [Hx Hs]. apply (Hmove k); [done|done| |done|].
    + by intros k' [->|?]%changing_open_insert.
    + intros j' k' y. rewrite lookup_insert_Some. intros [[_ [= <- <-]]|[_ Hj']]; [done|by eapply Ho].
  - assert (changing k (open w) (pending w)) as Hch by (left; by exists i, x).
    destruct (tier_flush _ _ k _ _ _ ltac:(by eapply Ho) Hw) as [Hx Hs]. apply (Hmove k); [done|done| |done|].
    + by intros k' [->|?]%changing_open_insert.
    + intros j' k' y. rewrite lookup_insert_Some. intros [[_ [= <- <-]]|[_ Hj']]; [done|by eapply Ho].
  - apply (Hmove k); [left; by exists i, x|intros k' ?; eapply tier_commit; [by eapply Ho|done]|intros k'; apply changing_open_delete|done|].
    intros j' k' y [_ Hj']%lookup_delete_Some. by eapply Ho.
  - apply (Hmove k); [left; by exists i, x|intros k' ?; eapply tier_drop; [by eapply Ho|done]|intros k'; apply changing_open_delete|done|].
    intros j' k' y [_ Hj']%lookup_delete_Some. by eapply Ho.
  - apply (coherent_move w k); [done..|by apply elsewhere_one|done|done|done].
Qed.

Lemma reach_coherent s w : mem_reach per_entry_bytes evict elsewhere s w -> coherent w.
Proof.
  unfold mem_reach. intros Hr. remember (mkWorld (mkMem ∅ s) ∅ ∅) as w0 eqn:E0.
  assert (coherent w0) as Hc by (subst; split; intros * Hk; simpl in Hk; by rewrite lookup_empty in Hk). clear E0.
  induction Hr; eauto using step_coherent.
Qed.

(** C25: memory serves what the backend below serves, in every reachable state and at every
    access of the reads under way, whatever is read, written, committed, dropped, deleted,
    adopted or evicted: a read that has its answer has the bytes the backend holds, a read
    made at once answers them, and a key in memory is in the backend, so the presence
    checks that memory answers are right. The premises, which are guards of the steps: no
    key is read while it is being opened, written, adopted or deleted, or the other way
    round; and another process does not change a key that is in memory or being read. *)
Theorem mem_tier_coherent s w k :
  mem_reach per_entry_bytes evict elsewhere s w ->
  (forall i r, pending w !! i = Some (k, Reading (Answered (Ok r))) ->
     content (inner (tier w)) !! k = Some (sr_data r) /\ sr_size r = N.of_nat (length (sr_data r))) /\
  (forall r m', mem_reader per_entry_bytes evict k (tier w) = (Ok r, m') ->
     content (inner (tier w)) !! k = Some (sr_data r) /\ sr_size r = N.of_nat (length (sr_data r)) /\
     inner m' = inner (tier w)) /\
  (resident k (tier w) = true -> is_Some (content (inner (tier w)) !! k)).
Proof.
  intros Hr%reach_coherent. destruct Hr as [Hc _ Hr]. split_and!.
  - intros i r Hi. by destruct (Hr _ _ _ Hi).
  - intros r m' Hm. assert (Hi : inner m' = inner (tier w)).
    { pose proof (mem_reader_inner k (tier w)) as Hi. by rewrite Hm in Hi. }
    split_and!; [| |done]; unfold mem_reader in Hm; destruct (cache (tier w) !! k) as [buf|] eqn:Ek.
    + injection Hm as <- _. by destruct (Hc _ _ Ek).
    + destruct (reader k (inner (tier w))) as [sized|e] eqn:Er; [|done]. apply tier_reader in Er as (Hd & _).
      repeat case_match; by simplify_eq.
    + by injection Hm as <- _.
    + destruct (reader k (inner (tier w))) as [sized|e] eqn:Er; [|done]. apply tier_reader in Er as (_ & Hs & _).
      repeat case_match; by simplify_eq.
  - unfold resident. intros [b Hb]%bool_decide_eq_true. destruct (Hc _ _ Hb) as [-> _]. by eexists.
Qed.
End coherence.

(** ** Backends it may front *)

(** A call on a backend for a key. *)
Section calls.
Context {S W E : Type} `{Backend S W E} {staged : W -> EntryKey * bytes}.

Inductive call (k : EntryKey) : S -> S -> Prop :=
| call_writer s r s' : writer k s = (r, s') -> call k s s'
| call_write d w s r w' s' : (staged w).1 = k -> w_write d w s = (r, w', s') -> call k s s'
| call_flush w s r w' s' : (staged w).1 = k -> w_flush w s = (r, w', s') -> call k s s'
| call_commit w s r s' : (staged w).1 = k -> w_commit w s = (r, s') -> call k s s'
| call_drop w s : (staged w).1 = k -> call k s (w_drop w s)
| call_delete s r s' : entry_delete k s = (r, s') -> call k s s'
| call_adopt src s r s' : adopt_file k src s = (r, s') -> call k s s'.

Definition calls (k : EntryKey) : relation S := rtc (call k).

Lemma calls_r k s s' s'' : calls k s s' -> call k s' s'' -> calls k s s''.
Proof. apply rtc_r. Qed.
End calls.
Arguments calls {S W E H} staged k _ _.

(** A call for one key queues no write of another. *)
Class QueueLaws (S W E : Type) `{Backend S W E} (queued : S -> EntryKey -> bool) (staged : W -> EntryKey * bytes) : Prop :=
  queue_call k s s' k' : call (staged := staged) k s s' -> k' <> k -> queued s k' = false -> queued s' k' = false.

Section fronted.
Context {S W E : Type} `{Backend S W E} {not_found : E -> bool} {file : str -> bytes}
  {content : S -> gmap EntryKey bytes} {queued hidden : S -> EntryKey -> bool} {staged : W -> EntryKey * bytes}
  `{!BackendLaws S W E not_found file content queued hidden staged}.

(** A call for one key leaves what is served for the others. *)
Lemma call_content k s s' k' : call (staged := staged) k s s' -> k' <> k -> content s' !! k' = content s !! k'.
Proof.
  intros Hc Hk. destruct Hc as [s r s' Hw|d w s r w' s' Hs Hw|w s r w' s' Hs Hw|w s r s' Hs Hw|w s Hs|s r s' Hd|src s r s' Ha].
  - by destruct (writer_spec _ _ _ _ Hw) as [-> _].
  - by destruct (write_spec _ _ _ _ _ _ Hw) as (-> & _).
  - by destruct (flush_spec _ _ _ _ _ Hw) as (-> & _).
  - apply commit_spec in Hw. rewrite Hw. destruct r; [|done]. by rewrite Hs, lookup_insert_ne.
  - by rewrite drop_spec.
  - apply delete_spec in Hd. by apply (delete_or_same_lookup _ _ k); [destruct Hd as [|[_ ?]]; auto|].
  - apply adopt_spec in Ha. rewrite Ha. destruct r as [[]|]; [|done..]. by rewrite lookup_insert_ne.
Qed.

Lemma calls_content k s s' k' : calls staged k s s' -> k' <> k -> content s' !! k' = content s !! k'.
Proof. induction 1 as [|s1 s2 s3 Hc _ IH]; [done|]. intros Hk. rewrite IH by done. by apply (call_content k). Qed.

Lemma calls_queued `{!QueueLaws S W E queued staged} k s s' k' :
  calls staged k s s' -> k' <> k -> queued s k' = false -> queued s' k' = false.
Proof. induction 1; eauto using queue_call. Qed.

Lemma write_all_fuel_calls z fuel d w s r w' s' k : (staged w).1 = k -> write_all_fuel z fuel d w s = (r, w', s') -> calls staged k s s'.
Proof.
  intros Hk. revert d w s Hk. induction fuel as [|fuel IH]; intros [|c d] w s Hk; simpl; try (by intros [= <- <- <-]; apply rtc_refl).
  destruct (w_write (c :: d) w s) as [[r1 w1] s1] eqn:E1. pose proof (write_spec _ _ _ _ _ _ E1) as (_ & Hk1 & _).
  assert (calls staged k s s1) by (by eapply rtc_once, call_write).
  destruct r1 as [[|n]|e]; try (by intros [= <- <- <-]). intros Hr. etrans; [done|]. eapply IH; [|exact Hr]; congruence.
Qed.

(** A backend that keeps what the trait promises. *)
Definition same_content (k : EntryKey) (s s' : S) : Prop := content s' !! k = content s !! k.

Lemma backend_tier_laws : TierLaws S W E content same_content (fun w => Some (staged w).1).
Proof.
  assert (Hone : forall k s s' k', call (staged := staged) k s s' -> k' <> k -> same_content k' s s').
  { intros. by eapply call_content. }
  split.
  - intros k. unfold same_content. split; [done|]. intros ???. congruence.
  - done.
  - intros k s r. apply reader_ok.
  - intros k s r s' Hw. split; [|intros k'; apply (Hone k); by eapply call_writer].
    intros w Hr. destruct (writer_spec _ _ _ _ Hw) as [_ Hs]. by rewrite (Hs w Hr).
  - intros d w s k r w' s' [= Hk] Hw. split; [|intros k'; apply (Hone k); by eapply call_write].
    destruct (write_spec _ _ _ _ _ _ Hw) as (_ & -> & _). by rewrite Hk.
  - intros w s k r w' s' [= Hk] Hw. split; [|intros k'; apply (Hone k); by eapply call_flush].
    destruct (flush_spec _ _ _ _ _ Hw) as (_ & -> & _). by rewrite Hk.
  - intros w s k k' [= Hk]. apply (Hone k). eapply call_commit; [done|apply surjective_pairing].
  - intros w s k k' [= Hk]. by apply (Hone k), call_drop.
  - intros k s k'. apply (Hone k). eapply call_delete, surjective_pairing.
  - intros k src s k'. apply (Hone k). eapply call_adopt, surjective_pairing.
Qed.
End fronted.

(** [p'] is reached from [p] by the calls that the context has the equations of. *)
Ltac find_calls :=
  lazymatch goal with
  | |- @calls _ _ _ _ _ _ ?p ?p => apply rtc_refl
  | |- @calls _ _ _ _ _ _ _ (@w_drop _ _ _ _ _ _) => eapply calls_r; [|eapply call_drop; congruence]; find_calls
  | H : @writer _ _ _ _ _ _ = (_, ?p) |- @calls _ _ _ _ _ _ _ ?p => eapply calls_r; [|eapply call_writer; exact H]; find_calls
  | H : @w_write _ _ _ _ _ _ _ = (_, _, ?p) |- @calls _ _ _ _ _ _ _ ?p => eapply calls_r; [|eapply call_write; [|exact H]; congruence]; find_calls
  | H : @w_flush _ _ _ _ _ _ = (_, _, ?p) |- @calls _ _ _ _ _ _ _ ?p => eapply calls_r; [|eapply call_flush; [|exact H]; congruence]; find_calls
  | H : @w_commit _ _ _ _ _ _ = (_, ?p) |- @calls _ _ _ _ _ _ _ ?p => eapply calls_r; [|eapply call_commit; [|exact H]; congruence]; find_calls
  | H : @entry_delete _ _ _ _ _ _ = (_, ?p) |- @calls _ _ _ _ _ _ _ ?p => eapply calls_r; [|eapply call_delete; exact H]; find_calls
  | H : @adopt_file _ _ _ _ _ _ _ = (_, ?p) |- @calls _ _ _ _ _ _ _ ?p => eapply calls_r; [|eapply call_adopt; exact H]; find_calls
  | H : @write_all _ _ _ _ _ _ _ _ = (_, _, ?p) |- @calls _ _ _ _ _ _ _ ?p => etransitivity; [|eapply write_all_fuel_calls; [|exact H]; congruence]; find_calls
  end.

Section fronted_spill.
Context {P WP B WB E : Type} `{Backend P WP E, Backend B WB E} {not_found : E -> bool} {file : str -> bytes}
  {pc : P -> gmap EntryKey bytes} {pq ph : P -> EntryKey -> bool} {ps : WP -> EntryKey * bytes}
  {bc : B -> gmap EntryKey bytes} {bq bh : B -> EntryKey -> bool} {bs : WB -> EntryKey * bytes}
  `{!BackendLaws P WP E not_found file pc pq ph ps, !BackendLaws B WB E not_found file bc bq bh bs, !QueueLaws P WP E pq ps}.
Variables (write_zero panicked no_writer : E) (threshold : N) (stat : str -> result E N).

#[local] Instance spilling : Backend (P * B) (SpillW WP WB) E :=
  spill_backend not_found write_zero panicked no_writer threshold stat.

(** What calls for one key make of the two backends. *)
Definition moved (k : EntryKey) (c c' : P * B) : Prop := calls ps k c.1 c'.1 /\ calls bs k c.2 c'.2.

#[local] Instance moved_preorder k : PreOrder (moved k).
Proof. split; [done|]. intros c1 c2 c3 [??] [??]. split; by etrans. Qed.

(** The backends hold the same for a key. *)
Definition spill_agree (k : EntryKey) (c c' : P * B) : Prop :=
  pc c'.1 !! k = pc c.1 !! k /\ bc c'.2 !! k = bc c.2 !! k /\ (pq c.1 k = false -> pq c'.1 k = false).

Lemma moved_agree k k' c c' : moved k c c' -> k' <> k -> spill_agree k' c c'.
Proof. intros [Hp Hb] Hk. split_and!; [by eapply calls_content|by eapply calls_content|by eapply calls_queued]. Qed.

(** The key of a writer of the tier, if its parts agree on one. *)
Definition keyed (k : EntryKey) (o : option EntryKey) : bool := match o with Some k' => bool_decide (k' = k) | None => true end.
Definition spilling_key (w : SpillWriter WP WB) : option EntryKey :=
  if keyed (sp_key w) (fst ∘ ps <$> primary_writer w) && keyed (sp_key w) (fst ∘ bs <$> blob_writer w)
  then Some (sp_key w) else None.
Definition spill_key (w : SpillW WP WB) : option EntryKey :=
  match w with Direct w => Some (ps w).1 | Spilling w => spilling_key w end.

Lemma spilling_key_Some w k : spilling_key w = Some k <->
  sp_key w = k /\ (forall pw, primary_writer w = Some pw -> (ps pw).1 = k) /\ (forall bw, blob_writer w = Some bw -> (bs bw).1 = k).
Proof.
  unfold spilling_key, keyed. destruct (primary_writer w), (blob_writer w); simpl; repeat case_bool_decide; simpl; naive_solver.
Qed.

#[local] Ltac found := split; simpl; find_calls.

Lemma spill_moved w c k r w' c' : spilling_key w = Some k -> blob_writer w = None ->
  spill write_zero panicked w c = (r, w', c') -> spilling_key w' = Some k /\ moved k c c'.
Proof.
  intros Hk Hb. pose proof Hk as (Hsp & Hpw & _)%spilling_key_Some. unfold spill.
  destruct (primary_writer w) as [pw|] eqn:Ep; [|by intros [= <- <- <-]]. rewrite Hsp, Hb. specialize (Hpw _ eq_refl).
  assert (Hkey : spilling_key (mkSpill k (sp_size w) None None) = Some k) by (by apply spilling_key_Some).
  destruct (w_flush pw c.1) as [[rf pw1] p1] eqn:E1; destruct (flush_spec _ _ _ _ _ E1) as (_ & K1 & _).
  destruct rf as [[]|e]; [|intros [= <- <- <-]; split; [done|found]].
  destruct (w_commit pw1 p1) as [[[]|e] p2] eqn:E2; [|intros [= <- <- <-]; split; [done|found]].
  destruct (writer k c.2) as [[bw|e] b1] eqn:E3; destruct (writer_spec _ _ _ _ E3) as (_ & Hbw);
    [|intros [= <- <- <-]; split; [done|found]].
  specialize (Hbw _ eq_refl). assert (K3 : (bs bw).1 = k) by (by rewrite Hbw).
  destruct (reader k p2) as [pre|e]; [|intros [= <- <- <-]; split; [done|found]].
  destruct (write_all write_zero (sr_data pre) bw b1) as [[[[]|e] bw1] b2] eqn:E5;
    destruct (write_all_spec write_zero _ _ _ _ _ _ E5) as (_ & K5 & _); [|intros [= <- <- <-]; split; [done|found]].
  destruct (entry_delete k p2) as [[[]|e] p3] eqn:E6; intros [= <- <- <-]; (split; [|found]); [|done].
  apply spilling_key_Some. simpl. split_and!; [done..|]. intros bw' [= <-]. congruence.
Qed.

Lemma spilling_write_moved d w c k r w' c' : spilling_key w = Some k ->
  spilling_write write_zero panicked threshold d w c = (r, w', c') -> spilling_key w' = Some k /\ moved k c c'.
Proof.
  intros Hk. pose proof Hk as (Hsp & Hpw & Hbw)%spilling_key_Some. unfold spilling_write.
  destruct (blob_writer w) as [bw|] eqn:Eb.
  - specialize (Hbw _ eq_refl). destruct (w_write d bw c.2) as [[rw bw1] b1] eqn:E1.
    destruct (write_spec _ _ _ _ _ _ E1) as (_ & K1 & _).
    destruct rw; intros [= <- <- <-]; (split; [|found]); apply spilling_key_Some; simpl;
      (split_and!; [done..|]); intros bw' [= <-]; congruence.
  - destruct (primary_writer w) as [pw|] eqn:Ep; [|by intros [= <- <- <-]]. specialize (Hpw _ eq_refl).
    destruct (w_write d pw c.1) as [[rw pw1] p1] eqn:E1. destruct (write_spec _ _ _ _ _ _ E1) as (_ & K1 & _).
    assert (Hs : moved k c (p1, c.2)) by found.
    assert (Hkey : forall n, spilling_key (mkSpill (sp_key w) n (Some pw1) None) = Some k).
    { intros n. apply spilling_key_Some. simpl. split_and!; [done| |done]. intros pw' [= <-]. congruence. }
    destruct rw as [n|e]; [|intros [= <- <- <-]; split; [apply Hkey|done]].
    case_match; [|intros [= <- <- <-]; split; [apply Hkey|done]].
    destruct (spill _ _ _ _) as [[rs w1] c1] eqn:E2. apply (spill_moved _ _ k) in E2 as [Hk1 Hs1]; [|apply Hkey|done].
    destruct rs; intros [= <- <- <-]; (split; [done|]); by etrans.
Qed.

Lemma spill_writer_moved k c r c' : writer k c = (r, c') -> moved k c c' /\ (forall w, r = Ok w -> spill_key w = Some k).
Proof.
  simpl. unfold spill_writer, drop_stale. destruct (is_manifest k.2).
  - destruct (writer k c.1) as [[pw|e] p] eqn:E1; intros [= <- <-]; (split; [found|]); [|done].
    intros w [= <-]. destruct (writer_spec _ _ _ _ E1) as (_ & K1). simpl. by rewrite (K1 _ eq_refl).
  - destruct (match file_path k c.2 with Some _ => entry_delete k c.2 | None => (Ok (), c.2) end) as [rd b] eqn:Ed.
    assert (Hb : calls bs k c.2 b) by (destruct (file_path k c.2); [|injection Ed as _ <-]; find_calls).
    destruct rd as [[]|e]; [|intros [= <- <-]; split; [by split|done]].
    destruct (writer k c.1) as [[pw|e] p] eqn:E1; intros [= <- <-]; (split; [split; [find_calls|done]|]); [|done].
    intros w [= <-]. destruct (writer_spec _ _ _ _ E1) as (_ & K1). simpl.
    apply spilling_key_Some. simpl. split_and!; [done| |done]. intros pw' [= <-]. by rewrite (K1 _ eq_refl).
Qed.

Lemma spill_write_moved d w c k r w' c' : spill_key w = Some k -> w_write d w c = (r, w', c') -> spill_key w' = Some k /\ moved k c c'.
Proof.
  destruct w as [w|w]; simpl; intros Hk.
  - injection Hk as Hk. destruct (w_write d w c.1) as [[rw w1] p] eqn:E1. intros [= _ <- <-].
    destruct (write_spec _ _ _ _ _ _ E1) as (_ & K1 & _). split; [simpl; congruence|found].
  - destruct (spilling_write _ _ _ d w c) as [[rw w1] c1] eqn:E1. apply (spilling_write_moved _ _ _ k) in E1 as [Hk1 Hs]; [|done].
    by intros [= _ <- <-].
Qed.

Lemma spill_flush_moved w c k r w' c' : spill_key w = Some k -> w_flush w c = (r, w', c') -> spill_key w' = Some k /\ moved k c c'.
Proof.
  destruct w as [w|w]; simpl; intros Hk.
  - injection Hk as Hk. destruct (w_flush w c.1) as [[rw w1] p] eqn:E1. intros [= _ <- <-].
    destruct (flush_spec _ _ _ _ _ E1) as (_ & K1 & _). split; [simpl; congruence|found].
  - pose proof Hk as (Hsp & Hpw & Hbw)%spilling_key_Some. destruct (blob_writer w) as [bw|] eqn:Eb.
    + specialize (Hbw _ eq_refl). destruct (w_flush bw c.2) as [[rw w1] b] eqn:E1. intros [= _ <- <-].
      destruct (flush_spec _ _ _ _ _ E1) as (_ & K1 & _). split; [|found].
      apply spilling_key_Some. simpl. split_and!; [done..|]. intros bw' [= <-]. congruence.
    + destruct (primary_writer w) as [pw|] eqn:Ep; [|by intros [= _ <- <-]]. specialize (Hpw _ eq_refl).
      destruct (w_flush pw c.1) as [[rw w1] p] eqn:E1. intros [= _ <- <-].
      destruct (flush_spec _ _ _ _ _ E1) as (_ & K1 & _). split; [|found].
      apply spilling_key_Some. simpl. split_and!; [done| |done]. intros pw' [= <-]. congruence.
Qed.

Lemma spill_drop_moved w c k : spill_key w = Some k -> moved k c (w_drop w c).
Proof.
  destruct w as [w|w]; simpl; intros Hk; [injection Hk as Hk; found|].
  apply spilling_key_Some in Hk as (_ & Hpw & Hbw).
  destruct (primary_writer w) as [pw|]; destruct (blob_writer w) as [bw|]; split; simpl;
    try specialize (Hpw _ eq_refl); try specialize (Hbw _ eq_refl); find_calls.
Qed.

Lemma spill_commit_moved w c k : spill_key w = Some k -> moved k c (w_commit w c).2.
Proof.
  destruct w as [w|w]; simpl; intros Hk.
  - injection Hk as Hk. destruct (w_commit w c.1) as [r p] eqn:E1. found.
  - apply spilling_key_Some in Hk as (_ & Hpw & Hbw). destruct (blob_writer w) as [bw|].
    + specialize (Hbw _ eq_refl). destruct (w_commit bw c.2) as [r b] eqn:E1.
      destruct (primary_writer w) as [pw|]; [specialize (Hpw _ eq_refl)|]; found.
    + destruct (primary_writer w) as [pw|]; [|done]. specialize (Hpw _ eq_refl).
      destruct (w_commit pw c.1) as [r p] eqn:E1. found.
Qed.

Lemma spill_delete_moved k c : moved k c (entry_delete k c).2.
Proof.
  simpl. unfold spill_delete. destruct (entry_delete k c.1) as [[[]|e] p] eqn:E1; [|found].
  destruct (entry_delete k c.2) as [r b] eqn:E2. found.
Qed.

Lemma spill_adopt_moved k src c : moved k c (adopt_file k src c).2.
Proof.
  simpl. unfold spill_adopt_file. destruct (is_manifest k.2); [done|]. destruct (stat src); [|done]. case_match; [done|].
  destruct (adopt_file k src c.2) as [[[]|e] b] eqn:Ea; [|found..]. destruct (exists_committed k c.1) as [[]|]; [|found..].
  destruct (entry_delete k c.1) as [[[]|e] p] eqn:Ed; found.
Qed.

(** The spilling tier. *)
Lemma spill_tier_laws : TierLaws (P * B) (SpillW WP WB) E (spill_content (pc := pc) (bc := bc)) spill_agree spill_key.
Proof.
  split.
  - intros k. split; [done|]. intros c1 c2 c3 (Hp & Hb & ?) (Hp' & Hb' & ?). unfold spill_agree. rewrite Hp', Hb'. auto.
  - intros k c c' (Hp & Hb & _). unfold spill_content. by rewrite !lookup_union, Hp, Hb.
  - intros k c r. apply (spill_reader_ok write_zero panicked no_writer threshold stat).
  - intros k c r c' [Hm Hw]%spill_writer_moved. split; [done|]. intros k'. by apply moved_agree.
  - intros d w c k r w' c' Hk [Hk' Hm]%(spill_write_moved _ _ _ k); [|done]. split; [done|]. intros k'. by apply moved_agree.
  - intros w c k r w' c' Hk [Hk' Hm]%(spill_flush_moved _ _ k); [|done]. split; [done|]. intros k'. by apply moved_agree.
  - intros w c k k' Hk. by apply moved_agree, spill_commit_moved.
  - intros w c k k' Hk. by apply moved_agree, spill_drop_moved.
  - intros k c k'. apply moved_agree, spill_delete_moved.
  - intros k src c k'. apply moved_agree, spill_adopt_moved.
Qed.
End fronted_spill.

(** ** The tiers as they are stacked *)

(** Nothing is ever queued in [disk]. *)
#[export] Instance disk_queue_laws : QueueLaws disk (EntryKey * bytes) tier_error (fun _ _ => false) id.
Proof. done. Qed.

Definition stack_backend : Backend (disk * disk) (SpillW (EntryKey * bytes) (EntryKey * bytes)) tier_error :=
  spill_backend is_not_found Io Io Io 2 (fun src => Ok (N.of_nat (length src))).
Abbreviation stack_world := (world (disk * disk) (SpillW (EntryKey * bytes) (EntryKey * bytes)) tier_error).
Definition stack_disks : disk * disk := (mkDisk {[sample_key := [1%N; 2%N]]} 9, mkDisk ∅ 9).
(** Another process replaces an entry of the files. *)
Definition stack_elsewhere (k : EntryKey) (s s' : disk * disk) : Prop :=
  exists b, s' = (mkDisk (<[k := b]> (entries s.1)) (room s.1), s.2).

(** A read is begun, and makes its three accesses. *)
Definition stack_at (m : LocalCacheMem (disk * disk)) (a : Access tier_error) : stack_world := mkWorld m ∅ {[1%N := (sample_key, Reading a)]}.
Definition stack_next (x : Access tier_error * LocalCacheMem (disk * disk)) : Access tier_error * LocalCacheMem (disk * disk) :=
  @read_access _ _ _ stack_backend 4 id sample_key x.1 x.2.
Definition stack_answered : Access tier_error * LocalCacheMem (disk * disk) := stack_next (stack_next (stack_next (Get, mkMem ∅ stack_disks))).

Lemma stack_reach : @mem_reach _ _ _ stack_backend 4 id stack_elsewhere stack_disks (stack_at stack_answered.2 stack_answered.1).
Proof.
  assert (forall x, @mem_step _ _ _ stack_backend 4 id stack_elsewhere (stack_at x.2 x.1) (stack_at (stack_next x).2 (stack_next x).1)) as Hnext.
  { intros x. pose proof (@mst_read _ _ _ stack_backend 4 id stack_elsewhere (stack_at x.2 x.1) 1%N sample_key x.1
      (stack_next x).1 (stack_next x).2 (lookup_singleton_eq _ _) (surjective_pairing _)) as Hs.
    simpl in Hs. unfold stack_at at 2. by rewrite insert_singleton_eq in Hs. }
  eapply rtc_l; [|eapply rtc_l; [apply Hnext|]; eapply rtc_l; [apply Hnext|]; apply rtc_once, Hnext].
  apply (@mst_read_begins _ _ _ stack_backend 4 id stack_elsewhere (mkWorld (mkMem ∅ stack_disks) ∅ ∅) 1%N sample_key).
  - reflexivity.
  - intros [(i & x & H)|(i & p & H & _)]; simpl in H; by rewrite lookup_empty in H.
Qed.

(** The entry is in memory after it was read through two tiers, and is the primary's. *)
Lemma mem_tier_coherent_witness :
  resident sample_key stack_answered.2 = true /\
  stack_answered.1 = Answered (Ok (in_memory [1%N; 2%N])) /\
  spill_content (pc := entries) (bc := entries) (inner stack_answered.2) !! sample_key = Some [1%N; 2%N].
Proof.
  split; [by vm_compute|]. split; [by vm_compute|].
  assert (forall k s s', stack_elsewhere k s s' -> forall k', k' <> k ->
    spill_agree (pc := entries) (pq := fun _ _ => false) (bc := entries) k' s s') as Helse.
  { intros k s s' [b ->] k' Hk. split_and!; simpl; [by rewrite lookup_insert_ne|done|done]. }
  pose proof (@mem_tier_coherent _ _ _ stack_backend (spill_content (pc := entries) (bc := entries))
    (spill_agree (pc := entries) (pq := fun _ _ => false) (bc := entries)) (spill_key (ps := id) (bs := id)) (spill_tier_laws Io Io Io 2 (fun src => Ok (N.of_nat (length src))))
    4 id (fun m => reflexivity m) stack_elsewhere Helse _ (stack_at stack_answered.2 stack_answered.1) sample_key stack_reach) as [H _].
  exact (proj1 (H 1%N (in_memory [1%N; 2%N]) ltac:(by vm_compute))).
Defined.

(** The guards are needed. A read that has fetched an entry puts it into memory after
    another call deleted it: memory goes on serving what is not there. *)
Theorem mem_revives_deleted :
  let k := sample_key in
  let m0 := mkMem ∅ (mkDisk {[k := [1%N]]} 9) in
  let '(a1, m1) := read_access 4 id k Get m0 in
  let '(a2, m2) := read_access 4 id k a1 m1 in
  let '(r, m3) := mem_delete k m2 in
  let '(a4, m4) := read_access 4 id k a2 m3 in
  r = Ok () /\ sr_data <$> (mem_reader 4 id k m4).1 = Ok [1%N] /\ reader k (inner m4) = Err NotFound.
Proof. by vm_compute. Qed.

(** A read between the opening of a writer and its commit puts the old entry back in
    memory, where the commit leaves it: memory goes on serving it. *)
Theorem mem_stale_after_commit :
  let k := sample_key in
  let m0 := mkMem ∅ (mkDisk {[k := [1%N]]} 9) in
  let '(w, m1) := mem_writer k m0 in
  let '(_, m2) := mem_reader 4 id k m1 in
  w = Ok (k, []) /\
  let '(_, s) := w_commit (k, [2%N]) (inner m2) in
  let m3 := mkMem (cache m2) s in
  sr_data <$> (mem_reader 4 id k m3).1 = Ok [1%N] /\ sr_data <$> reader k (inner m3) = Ok [2%N].
Proof. by vm_compute. Qed.
