(* ===== verification/Revisions.v ===== *)
(** Revisions of a target in the local cache: [Engine]'s part of
    [crates/engine/src/engine/local_cache.rs], with what [result.rs] makes of it.

    A revision is a set of artifacts and a manifest that names them, all kept under
    the target's address and an input hash. The artifacts are written concurrently,
    the manifest after all of them; a caller is served from the manifest, and reads
    only the artifacts it asked for. Everything is over any [Backend] that keeps
    [StoreLaws]; both a plain backend and the spilling tier do. *)
From S2P Require Import Prelude Numerals HtPkg CodegenOverlap WireDef HtIntern Gc CacheTiers MemTier.

(** ** Manifests *)

Inductive ManifestArtifactContentType := McTar | McCpio.
Inductive ManifestArtifactEncoding := EncNone | EncGzip | EncZstd.
Inductive ManifestArtifactType := MOutput | MLog | MSupportFile.

Record ManifestArtifact := mkMA {
  hashout : str; group : str; name : str; size : N; type : ManifestArtifactType;
  content_type : ManifestArtifactContentType; encoding : ManifestArtifactEncoding }.
Record Manifest := mkManifest {
  version : str; target : str; created_at_nanos : Z; hashin : str; artifacts : list ManifestArtifact }.

(** [hartifactcontent::Type]. *)
Inductive container := Tar | Cpio.

(** Which of the engine's caches an artifact was written to: [local_cache], or
    [local_cache_tmp]. *)
Inductive which := Durable | Tmp.

Record CacheArtifact := mkCached {
  ca_addr : arc; ca_hashin : str; ca_name : str; ca_cache : which; ca_content_type : container;
  ca_hashout : str; ca_group : str; ca_type : ManifestArtifactType; ca_size : N }.
Record ArtifactMeta := mkMeta { meta_hashout : str }.

#[export] Instance manifest_content_type_dec : EqDecision ManifestArtifactContentType.
Proof. solve_decision. Defined.
#[export] Instance manifest_encoding_dec : EqDecision ManifestArtifactEncoding.
Proof. solve_decision. Defined.
#[export] Instance manifest_type_dec : EqDecision ManifestArtifactType.
Proof. solve_decision. Defined.
#[export] Instance manifest_artifact_dec : EqDecision ManifestArtifact.
Proof. solve_decision. Defined.
#[export] Instance manifest_dec : EqDecision Manifest.
Proof. solve_decision. Defined.
#[export] Instance container_dec : EqDecision container.
Proof. solve_decision. Defined.
#[export] Instance which_dec : EqDecision which.
Proof. solve_decision. Defined.

Definition is_output (t : ManifestArtifactType) : bool := bool_decide (t = MOutput).
Definition is_logged (t : ManifestArtifactType) : bool := bool_decide (t = MLog).

(** [support_files_needed_for], [support_files_needed]: a caller that asks for no
    group reads no support file, unless the revision has nothing else. *)
Definition support_files_needed_for (has_output_artifact : bool) (outputs : list str) : bool :=
  negb (bool_decide (outputs = [])) || negb has_output_artifact.
Definition support_files_needed (m : Manifest) (outputs : list str) : bool :=
  support_files_needed_for (existsb (fun a => is_output (type a)) (artifacts m)) outputs.

Definition artifact_is_needed (a : ManifestArtifact) (outputs : list str) (support_needed : bool) : bool :=
  match type a with
  | MOutput => bool_decide (group a ∈ outputs)
  | MSupportFile => support_needed
  | MLog => false
  end.

Definition needed_artifacts (m : Manifest) (outputs : list str) : list ManifestArtifact :=
  List.filter (fun a => artifact_is_needed a outputs (support_files_needed m outputs)) (artifacts m).

(** ** Entry names *)

Definition type_prefix (t : ArtifactType) : str :=
  match t with OaOutput => $"out" | OaLog => $"log" | OaSupportFile => $"support" end.

Definition cache_entry_name (a : OutputArtifact) : str :=
  match oa_content a with
  | OaRaw _ _ _ | OaFile _ _ _ _ | OaView _ => type_prefix (oa_type a) ++ $"_" ++ oa_name a ++ $".tar"
  | OaTarPath _ _ | OaCpioPath _ _ => type_prefix (oa_type a) ++ $"_" ++ oa_name a
  end.

Definition manifest_artifact_type (t : ArtifactType) : ManifestArtifactType :=
  match t with OaOutput => MOutput | OaLog => MLog | OaSupportFile => MSupportFile end.

Definition container_of (c : OaContent) : container :=
  match c with OaCpioPath _ _ => Cpio | _ => Tar end.
Definition content_type_of (c : container) : ManifestArtifactContentType :=
  match c with Tar => McTar | Cpio => McCpio end.
Definition type_of_content (c : ManifestArtifactContentType) : container :=
  match c with McTar => Tar | McCpio => Cpio end.

(** ** Writing one artifact *)

(** The errors of [cache_locally]: its [bail!], or what failed. *)
Inductive cache_error (E : Type) := Duplicate (name : str) | Failed (e : fan_error E).
Arguments Duplicate {E} _.
Arguments Failed {E} _.

(** The blocking job of an artifact, at the calls it makes. [Start] of a container
    reads its size and offers an owned file; [Copying] opens the file and a writer;
    [Streaming] has chunks left to write, and then a failure of their source, or
    none. [stated] is a container's size; a packed artifact counts what it wrote. *)
Inductive Job (W E : Type) :=
| Start
| Copying (stated : N)
| Streaming (w : W) (chunks : list bytes) (failure : option E) (stated : option N) (written : N)
| Finished (r : result E N).
Arguments Start {W E}.
Arguments Copying {W E} _.
Arguments Streaming {W E} _ _ _ _ _.
Arguments Finished {W E} _.

Section revisions.
Context {S W E : Type} `{Backend S W E}.
Variable not_found : E -> bool.
Variable write_zero : E.
(** [fs::metadata(path)?.size()]; what [io::copy] reads of a file, chunk by chunk,
    and the failure it then meets, if any. *)
Variable stat : str -> result E N.
Variable open_file : str -> result E (list bytes * option E).
(** What the tar packer, or a view's reader, writes, and then fails with. *)
Variable packed : OaContent -> list bytes * option E.
(** [borsh]. *)
Variable encode : Manifest -> list bytes.
Variable decode : bytes -> result E Manifest.
(** [Addr::format]. *)
Variable format : arc -> str.

(** A writer that is not committed is dropped with the job's frame. *)
Definition abandon (e : E) (w : W) (s : S) : Job W E * S := (Finished (Err e), w_drop w s).

Definition start_stream (src : list bytes * option E) (stated : option N) (k : EntryKey) (s : S) : Job W E * S :=
  match writer k s with
  | (Err e, s) => (Finished (Err e), s)
  | (Ok w, s) => (Streaming w src.1 src.2 stated 0, s)
  end.

(** [store_container], up to the copy. *)
Definition start_container (path : str) (owned : bool) (k : EntryKey) (s : S) : Job W E * S :=
  match stat path with
  | Err e => (Finished (Err e), s)
  | Ok n =>
      if owned then
        match adopt_file k path s with
        | (Err e, s) => (Finished (Err e), s)
        | (Ok true, s) => (Finished (Ok n), s)
        | (Ok false, s) => (Copying n, s)
        end
      else (Copying n, s)
  end.

Definition job_step (k : EntryKey) (c : OaContent) (j : Job W E) (s : S) : Job W E * S :=
  match j with
  | Start =>
      match c with
      | OaTarPath path owned | OaCpioPath path owned => start_container path owned k s
      | _ => start_stream (packed c) None k s
      end
  | Copying n =>
      match c with
      | OaTarPath path _ | OaCpioPath path _ =>
          match open_file path with
          | Err e => (Finished (Err e), s)
          | Ok src => start_stream src (Some n) k s
          end
      | _ => (j, s)
      end
  | Streaming w [] (Some e) _ _ => abandon e w s
  | Streaming w [] None stated written =>
      match w_commit w s with
      | (Err e, s) => (Finished (Err e), s)
      | (Ok _, s) => (Finished (Ok (default written stated)), s)
      end
  | Streaming w ([] :: chunks) failure stated written => (Streaming w chunks failure stated written, s)
  | Streaming w (d :: chunks) failure stated written =>
      match w_write d w s with
      | (Err e, w, s) => abandon e w s
      | (Ok O, w, s) => abandon write_zero w s
      | (Ok n, w, s) => (Streaming w (drop n d :: chunks) failure stated (written + N.of_nat n), s)
      end
  | Finished _ => (j, s)
  end.

(** [cache_artifact_locally], on its own. *)
Fixpoint run_job (fuel : nat) (k : EntryKey) (c : OaContent) (j : Job W E) (s : S) : Job W E * S :=
  match fuel with
  | O => (j, s)
  | Datatypes.S fuel => let '(j, s) := job_step k c j s in run_job fuel k c j s
  end.

Definition cached_artifact (cache : which) (addr : arc) (key : str) (a : OutputArtifact) (n : N) : CacheArtifact :=
  mkCached addr key (cache_entry_name a) cache (container_of (oa_content a)) (oa_hashout a) (oa_group a)
    (manifest_artifact_type (oa_type a)) n.
Definition manifest_artifact (a : OutputArtifact) (n : N) : ManifestArtifact :=
  mkMA (oa_hashout a) (oa_group a) (cache_entry_name a) n (manifest_artifact_type (oa_type a))
    (content_type_of (container_of (oa_content a))) EncNone.

(** ** Writing a revision *)

(** The first name that comes a second time. *)
Fixpoint duplicate_name (seen : list str) (l : list OutputArtifact) : option str :=
  match l with
  | [] => None
  | a :: l =>
      if decide (cache_entry_name a ∈ seen) then Some (cache_entry_name a)
      else duplicate_name (cache_entry_name a :: seen) l
  end.

(** The jobs and the artifacts they are for; a schedule says which moves next. *)
Definition entry_key (addr : arc) (key : str) (a : OutputArtifact) : EntryKey := (addr, key, cache_entry_name a).

Definition step_nth (addr : arc) (key : str) (l : list OutputArtifact) (i : nat) (x : list (Job W E) * S) : list (Job W E) * S :=
  match l !! i, x.1 !! i with
  | Some a, Some j => let '(j, s) := job_step (entry_key addr key a) (oa_content a) j x.2 in (<[i := j]> x.1, s)
  | _, _ => x
  end.
Fixpoint run_jobs (addr : arc) (key : str) (l : list OutputArtifact) (schedule : list nat) (x : list (Job W E) * S) :
    list (Job W E) * S :=
  match schedule with
  | [] => x
  | i :: schedule => run_jobs addr key l schedule (step_nth addr key l i x)
  end.

(** The results of the jobs, if all have one. *)
Fixpoint all_finished (js : list (Job W E)) : option (list (result E N)) :=
  match js with
  | [] => Some []
  | Finished r :: js => (r ::.) <$> all_finished js
  | _ => None
  end.

(** The probes of a cache that others use meanwhile: the [t]-th sees [seen t]. *)
Definition MAX_QUEUE_WAITS : nat := 8.

Fixpoint exists_local_from (waits : nat) (k : EntryKey) (seen : nat -> S) (t : nat) : result E bool * nat :=
  match waits with
  | O => (exists_committed k (seen t), Datatypes.S t)
  | Datatypes.S waits =>
      match entry_existence k (seen t) with
      | Err e => (Err e, Datatypes.S t)
      | Ok (Committed found) => (Ok found, Datatypes.S t)
      | Ok QueuedWrite => exists_local_from waits k seen (Datatypes.S t)
      end
  end.
Definition exists_local : EntryKey -> (nat -> S) -> nat -> result E bool * nat := exists_local_from MAX_QUEUE_WAITS.

Definition the_key (hashin : str) (tmp : option N) : str :=
  match tmp with Some nanos => hashin ++ $"_" ++ to_dec nanos | None => hashin end.
Definition the_cache (tmp : option N) : which := match tmp with Some _ => Tmp | None => Durable end.

Definition new_manifest (addr : arc) (hashin : str) (now : option Z) (l : list ManifestArtifact) : Manifest :=
  mkManifest $"1.0.0" (format addr) (default 0%Z now) hashin l.

(** [cache_locally]: [None] when the call is dropped before every job has ended.
    [tmp] carries the clock of a temporary revision; [now] that of the manifest.
    [seen] is what the last wait sees. *)
Definition cache_locally (schedule : list nat) (seen : nat -> S) (now : option Z) (addr : arc) (hashin : str)
    (l : list OutputArtifact) (tmp : option N) (s : S) : option (result (cache_error E) (list CacheArtifact)) * S :=
  match duplicate_name [] l with
  | Some n => (Some (Err (Duplicate n)), s)
  | None =>
      let key := the_key hashin tmp in
      let '(js, s) := run_jobs addr key l schedule ((fun _ => Start) <$> l, s) in
      match all_finished js with
      | None => (None, s)
      | Some rs =>
          match join_all_failable rs false with
          | Err e => (Some (Err (Failed e)), s)
          | Ok sizes =>
              let m := new_manifest addr hashin now (zip_with manifest_artifact l sizes) in
              match store write_zero (addr, key, MANIFEST_V1) (encode m) s with
              | (Err e, s) => (Some (Err (Failed (One e))), s)
              | (Ok _, s) =>
                  let cached := zip_with (cached_artifact (the_cache tmp) addr key) l sizes in
                  match tmp with
                  | Some _ => (Some (Ok cached), s)
                  | None =>
                      match (exists_local (addr, key, MANIFEST_V1) seen 0).1 with
                      | Err e => (Some (Err (Failed (One e))), s)
                      | Ok _ => (Some (Ok cached), s)
                      end
                  end
              end
          end
      end
  end.

(** ** Reading a revision *)

(** [read_manifest_from]: [take(size)] of the stream, decoded. *)
Definition read_manifest (addr : arc) (key : str) (s : S) : result E (option Manifest) :=
  match reader (addr, key, MANIFEST_V1) s with
  | Err e => if not_found e then Ok None else Err e
  | Ok sized => Some <$> decode (take (N.to_nat (sr_size sized)) (sr_data sized))
  end.

Fixpoint missing_among (addr : arc) (key : str) (seen : nat -> S) (l : list ManifestArtifact) (t : nat) : result E (list str) * nat :=
  match l with
  | [] => (Ok [], t)
  | a :: l =>
      match exists_local (addr, key, name a) seen t with
      | (Err e, t) => (Err e, t)
      | (Ok found, t) =>
          match missing_among addr key seen l t with
          | (Err e, t) => (Err e, t)
          | (Ok missing, t) => (Ok (if found : bool then missing else name a :: missing), t)
          end
      end
  end.
Definition missing_local_blobs (addr : arc) (key : str) (m : Manifest) (outputs : list str) (seen : nat -> S) (t : nat) :
    result E (list str) * nat := missing_among addr key seen (needed_artifacts m outputs) t.

Inductive BlobResidency := Unknown | Established.

Definition of_manifest (addr : arc) (key : str) (a : ManifestArtifact) : CacheArtifact :=
  mkCached addr key (name a) Durable (type_of_content (content_type a)) (hashout a) (group a) (type a) (size a).

(** The loop of [artifacts_from_manifest]; [None] is a blob that is gone. *)
Fixpoint gather (addr : arc) (key : str) (outputs : list str) (support_needed : bool) (residency : BlobResidency)
    (seen : nat -> S) (l : list ManifestArtifact) (t : nat) (results : list CacheArtifact) (metas : list ArtifactMeta) :
    result E (option (list CacheArtifact * list ArtifactMeta)) * nat :=
  match l with
  | [] => (Ok (Some (results, metas)), t)
  | a :: l =>
      if is_logged (type a) then gather addr key outputs support_needed residency seen l t results metas
      else
        let metas := metas ++ [mkMeta (hashout a)] in
        if negb (artifact_is_needed a outputs support_needed)
        then gather addr key outputs support_needed residency seen l t results metas
        else
          match (match residency with
                 | Unknown => exists_local (addr, key, name a) seen t
                 | Established => (Ok true, t)
                 end) with
          | (Err e, t) => (Err e, t)
          | (Ok false, t) => (Ok None, t)
          | (Ok true, t) =>
              gather addr key outputs support_needed residency seen l t (results ++ [of_manifest addr key a]) metas
          end
  end.

Definition artifacts_from_manifest (addr : arc) (key : str) (m : Manifest) (outputs : list str) (residency : BlobResidency)
    (seen : nat -> S) (t : nat) : result E (option (list CacheArtifact * list ArtifactMeta)) * nat :=
  gather addr key outputs (support_files_needed m outputs) residency seen (artifacts m) t [] [].

(** [artifacts_from_local_cache]: the manifest is read first. *)
Definition artifacts_from_local_cache (addr : arc) (key : str) (outputs : list str) (seen : nat -> S) (t : nat) :
    result E (option (list CacheArtifact * list ArtifactMeta)) * nat :=
  match read_manifest addr key (seen t) with
  | Err e => (Err e, Datatypes.S t)
  | Ok None => (Ok None, Datatypes.S t)
  | Ok (Some m) => artifacts_from_manifest addr key m outputs Unknown seen (Datatypes.S t)
  end.

(** ** Copying a revision *)

(** How [io::copy] cuts a stream. *)
Variable cut : bytes -> list bytes.

Fixpoint copy_blobs (addr : arc) (src dst : str) (l : list ManifestArtifact) (s : S) : result E () * S :=
  match l with
  | [] => (Ok (), s)
  | a :: l =>
      match reader (addr, src, name a) s with
      | Err e => (Err e, s)
      | Ok sized =>
          match store write_zero (addr, dst, name a) (cut (sr_data sized)) s with
          | (Err e, s) => (Err e, s)
          | (Ok _, s) => copy_blobs addr src dst l s
          end
      end
  end.

Definition i64_max : Z := 2 ^ 63 - 1.
(** [max(now, created_at_nanos.saturating_add(1))]. *)
Definition dup_created (now : option Z) (created : Z) : Z := (Z.max (default 0 now) (Z.min (created + 1) i64_max))%Z.

Definition duplicate_cache_entry (now : option Z) (addr : arc) (src dst : str) (m : Manifest) (s : S) : result E () * S :=
  match copy_blobs addr src dst (artifacts m) s with
  | (Err e, s) => (Err e, s)
  | (Ok _, s) =>
      store write_zero (addr, dst, MANIFEST_V1)
        (encode (mkManifest (version m) (target m) (dup_created now (created_at_nanos m)) dst (artifacts m))) s
  end.

Definition duplicate_cache_revision (now : option Z) (addr : arc) (src dst : str) (s : S) : result E bool * S :=
  if bool_decide (src = dst) then (Ok false, s)
  else
    match read_manifest addr src s with
    | Err e => (Err e, s)
    | Ok None => (Ok false, s)
    | Ok (Some m) =>
        match duplicate_cache_entry now addr src dst m s with
        | (Err e, s) => (Err e, s)
        | (Ok _, s) => (Ok true, s)
        end
    end.
End revisions.

(** ** What a caller is handed: [result.rs] *)

(** The content of a result: a cache entry, a source file read in place, a view, or
    an artifact as the driver gave it. *)
Inductive ResultContent :=
| FromCache (a : CacheArtifact)
| Passthrough (source_path out_path : str) (x : bool) (expected : str)
| View (view : nat)
| AsGiven (a : OutputArtifact).
Record ResultArtifact := mkResult { ra_content : ResultContent; ra_group : str; ra_type : ManifestArtifactType }.

Definition is_passthrough (use_tmp_cache : bool) (c : OaContent) : bool :=
  use_tmp_cache && match c with OaFile _ _ _ passthrough => passthrough | OaView _ => true | _ => false end.

Definition from_cache (a : CacheArtifact) : ResultArtifact := mkResult (FromCache a) (ca_group a) (ca_type a).
Definition passthrough (a : OutputArtifact) : ResultArtifact :=
  mkResult
    match oa_content a with
    | OaFile source_path out_path x _ => Passthrough source_path out_path x (oa_hashout a)
    | OaView v => View v
    | _ => AsGiven a
    end (oa_group a) (manifest_artifact_type (oa_type a)).

Record EResult := mkEResult {
  er_artifacts : list ResultContent; support_artifacts : list ResultContent; artifacts_meta : list ArtifactMeta }.

Definition build_eresult (produced : list ResultArtifact) (metas : list ArtifactMeta) (outputs : list str) : EResult :=
  let support_needed := support_files_needed_for (existsb (fun a => is_output (ra_type a)) produced) outputs in
  mkEResult
    (ra_content <$> List.filter (fun a => is_output (ra_type a) && bool_decide (ra_group a ∈ outputs)) produced)
    (ra_content <$> List.filter (fun a => bool_decide (ra_type a = MSupportFile) && support_needed) produced)
    metas.

(** The metas of a build: [execute_and_cache_inner]. *)
Definition metas_of (l : list OutputArtifact) : list ArtifactMeta :=
  (fun a => mkMeta (oa_hashout a)) <$> List.filter (fun a => negb (is_logged (manifest_artifact_type (oa_type a)))) l.

(** ** What the stores keep *)

(** What writing a revision asks of a cache, next to [TierLaws]. [writes k d w s]: [w]
    is open for [k] and took [d] so far; [clear s k]: no write of [k] is queued;
    [lost s k]: what was last acknowledged for [k] did not land, which the batches of
    the SQLite cache do not report, so that [content] is what is served once the queue
    is drained. A manifest changes with its commit only, and a lost one is as it was. *)
Class StoreLaws (S W E : Type) `{Backend S W E} (not_found : E -> bool) (file : str -> bytes) (content : S -> gmap EntryKey bytes)
    (agree : EntryKey -> S -> S -> Prop) (of_key : W -> option EntryKey)
    (writes : EntryKey -> bytes -> W -> S -> Prop) (clear lost : S -> EntryKey -> Prop) : Prop := {
  store_tier :: TierLaws S W E content agree of_key;
  store_clear k s s' : agree k s s' -> clear s k -> clear s' k;
  store_lost k s s' : agree k s s' -> lost s k -> lost s' k;
  store_agree k d w s s' : agree k s s' -> writes k d w s -> writes k d w s';
  store_key k d w s : writes k d w s -> of_key w = Some k;
  store_writer k s w s' : writer k s = (Ok w, s') -> writes k [] w s';
  store_write k d w s d' n w' s' : writes k d w s -> w_write d' w s = (Ok n, w', s') ->
    n <= length d' /\ writes k (d ++ take n d') w' s';
  store_commit k d w s s' : writes k d w s -> w_commit w s = (Ok (), s') -> content s' !! k = Some d \/ lost s' k;
  store_adopt k src s s' : adopt_file k src s = (Ok true, s') -> clear s k -> content s' !! k = Some (file src) \/ lost s' k;
  store_not_found k s e : reader k s = Err e -> not_found e = true -> content s !! k = None;
  store_existence k s b : entry_existence k s = Ok (Committed b) -> b = bool_decide (is_Some (content s !! k));
  store_drop w s : content (w_drop w s) = content s;
  manifest_writer k s r s' : is_manifest k.2 = true -> writer k s = (r, s') -> content s' !! k = content s !! k;
  manifest_write k d w s d' r w' s' : is_manifest k.2 = true -> writes k d w s -> w_write d' w s = (r, w', s') ->
    content s' !! k = content s !! k;
  manifest_commit k d w s r s' : is_manifest k.2 = true -> writes k d w s -> w_commit w s = (r, s') ->
    r = Ok () /\ content s' !! k = Some d \/ content s' !! k = content s !! k;
}.

(** A backend that keeps what the trait promises. *)
Section plain_store.
Context {S W E : Type} `{Backend S W E} {not_found : E -> bool} {file : str -> bytes}
  {content : S -> gmap EntryKey bytes} {queued hidden : S -> EntryKey -> bool} {staged : W -> EntryKey * bytes}
  `{!BackendLaws S W E not_found file content queued hidden staged}.

Lemma backend_store_laws : StoreLaws S W E not_found file content (same_content (content := content))
  (fun w => Some (staged w).1) (fun k d w _ => staged w = (k, d)) (fun _ _ => True) (fun _ _ => False).
Proof.
  split; try done.
  - apply (backend_tier_laws (not_found := not_found) (file := file) (queued := queued) (hidden := hidden)).
  - by intros k d w s ->.
  - intros k s w s' Hw. destruct (writer_spec _ _ _ _ Hw) as [_ Hs]. auto.
  - intros k d w s d' n w' s' Hs Hw. destruct (write_spec _ _ _ _ _ _ Hw) as (_ & Hk & Hn).
    destruct (Hn n eq_refl) as [? Hd]. split; [done|]. rewrite Hs in Hk, Hd. by apply pair_eq.
  - intros k d w s s' Hs Hw. left. apply commit_spec in Hw. by rewrite Hw, Hs, lookup_insert_eq.
  - intros k src s s' Ha _. left. apply adopt_spec in Ha. by rewrite Ha, lookup_insert_eq.
  - intros k s e. apply reader_not_found.
  - intros k s b Hb. by apply existence_spec in Hb.
  - intros w s. apply drop_spec.
  - intros k s r s' _ Hw. by destruct (writer_spec _ _ _ _ Hw) as [-> _].
  - intros k d w s d' r w' s' _ _ Hw. by destruct (write_spec _ _ _ _ _ _ Hw) as (-> & _).
  - intros k d w s r s' _ Hs Hw. apply commit_spec in Hw. destruct r as [[]|e]; [left|right; by rewrite Hw].
    by rewrite Hw, Hs, lookup_insert_eq.
Qed.
End plain_store.

(** The spilling tier. *)
Section spill_store.
Context {P WP B WB E : Type} `{Backend P WP E, Backend B WB E} {not_found : E -> bool} {file : str -> bytes}
  {pc : P -> gmap EntryKey bytes} {pq ph : P -> EntryKey -> bool} {ps : WP -> EntryKey * bytes}
  {bc : B -> gmap EntryKey bytes} {bq bh : B -> EntryKey -> bool} {bs : WB -> EntryKey * bytes}
  `{!BackendLaws P WP E not_found file pc pq ph ps, !BackendLaws B WB E not_found file bc bq bh bs, !QueueLaws P WP E pq ps}.
Variables (write_zero panicked no_writer : E) (threshold : N) (stat : str -> result E N).
Hypothesis stat_len : forall src n, stat src = Ok n -> n = N.of_nat (length (file src)).

#[local] Instance spilling_store : Backend (P * B) (SpillW WP WB) E :=
  spill_backend not_found write_zero panicked no_writer threshold stat.

Definition spill_writes (k : EntryKey) (d : bytes) (w : SpillW WP WB) (c : P * B) : Prop :=
  match w with
  | Direct w => is_manifest k.2 = true /\ ps w = (k, d)
  | Spilling w =>
      is_manifest k.2 = false /\
      writing (pc := pc) (ps := ps) (bc := bc) (bs := bs) threshold k (pc c.1) (bc c.2) d w c
  end.

Lemma writing_self k mp mb d w c :
  writing (pc := pc) (ps := ps) (bc := bc) (bs := bs) threshold k mp mb d w c ->
  writing (pc := pc) (ps := ps) (bc := bc) (bs := bs) threshold k (pc c.1) (bc c.2) d w c.
Proof.
  intros (? & ? & Hb & Hw). unfold writing. split_and!; [done..|].
  destruct (blob_writer w), (primary_writer w); try done; destruct Hw as (? & ? & Hp); split_and!; try done.
  by rewrite Hp, delete_delete_eq.
Qed.

Lemma writing_agree k d w c c' : pc c'.1 !! k = pc c.1 !! k ->
  writing (pc := pc) (ps := ps) (bc := bc) (bs := bs) threshold k (pc c.1) (bc c.2) d w c ->
  writing (pc := pc) (ps := ps) (bc := bc) (bs := bs) threshold k (pc c'.1) (bc c'.2) d w c'.
Proof.
  intros Hk (? & ? & Hb & Hw). unfold writing. split_and!; [done..|].
  destruct (blob_writer w), (primary_writer w); try done; destruct Hw as (? & ? & Hp); split_and!; try done.
  symmetry. apply delete_id. rewrite Hk, Hp. apply lookup_delete_eq.
Qed.

Lemma spill_store_commit k d w c c' : spill_writes k d w c -> w_commit w c = (Ok (), c') ->
  spill_content (pc := pc) (bc := bc) c' !! k = Some d.
Proof.
  destruct w as [w|w]; simpl; unfold spill_content; intros [Hm Hw].
  - destruct (w_commit w c.1) as [r p] eqn:E1. apply commit_spec in E1. intros [= -> <-]. simpl.
    rewrite E1, Hw. simpl. apply lookup_union_Some_l, lookup_insert_eq.
  - destruct Hw as (_ & _ & _ & Hw). destruct (blob_writer w) as [bw|].
    + destruct (primary_writer w); [done|]. destruct Hw as (Hst & _ & Hp). simpl.
      destruct (w_commit bw c.2) as [r b] eqn:E1. apply commit_spec in E1. intros [= -> <-]. simpl.
      rewrite E1, Hst, Hp. rewrite lookup_union_r by apply lookup_delete_eq. apply lookup_insert_eq.
    + destruct (primary_writer w) as [pw|]; [|done]. destruct Hw as (Hst & _ & Hp).
      destruct (w_commit pw c.1) as [r p] eqn:E1. apply commit_spec in E1. intros [= -> <-]. simpl.
      rewrite E1, Hst. simpl. apply lookup_union_Some_l, lookup_insert_eq.
Qed.

Lemma spill_store_writer k c w c' : writer k c = (Ok w, c') -> spill_writes k [] w c'.
Proof.
  simpl. unfold spill_writer. destruct (is_manifest k.2) eqn:Em.
  - destruct (writer k c.1) as [[pw|] p] eqn:E1; intros [= <- <-]. destruct (writer_spec _ _ _ _ E1) as (_ & K1).
    split; [done|]. by apply K1.
  - destruct (drop_stale k c.2) as [[[]|] b]; [|done]. destruct (writer k c.1) as [[pw|] p] eqn:E1; intros [= <- <-].
    destruct (writer_spec _ _ _ _ E1) as (_ & K1). split; [done|]. unfold writing. simpl. rewrite (K1 _ eq_refl).
    split_and!; [done..|lia|done].
Qed.

Lemma spill_store_write k d w c d' n w' c' : spill_writes k d w c -> w_write d' w c = (Ok n, w', c') ->
  n <= length d' /\ spill_writes k (d ++ take n d') w' c'.
Proof.
  destruct w as [w|w]; simpl; intros [Hm Hw].
  - destruct (w_write d' w c.1) as [[rw w1] p] eqn:E1. destruct (write_spec _ _ _ _ _ _ E1) as (_ & K1 & Hn).
    intros [= -> <- <-]. destruct (Hn n eq_refl) as [? Hd]. split; [done|]. split; [done|].
    rewrite Hw in K1, Hd. by apply pair_eq.
  - destruct (spilling_write _ _ _ d' w c) as [[rw w1] c1] eqn:E1. intros [= -> <- <-].
    apply (spilling_write_spec (pc := pc) (ps := ps) (bc := bc) (bs := bs) _ _ _ _ _ _ _ _ _ _ _ _ _ Hw) in E1 as [? Hw1].
    split; [done|]. split; [done|]. by eapply writing_self.
Qed.

Lemma spill_store_laws : StoreLaws (P * B) (SpillW WP WB) E not_found file (spill_content (pc := pc) (bc := bc))
  (spill_agree (pc := pc) (pq := pq) (bc := bc)) (spill_key (ps := ps) (bs := bs)) spill_writes
  (fun c k => pq c.1 k = false) (fun _ _ => False).
Proof.
  split.
  - by apply (spill_tier_laws (not_found := not_found) (file := file) (ph := ph) (bq := bq) (bh := bh)).
  - by intros k c c' (_ & _ & ?).
  - done.
  - intros k d w c c' (Hp & _ & _). destruct w as [w|w]; simpl; [done|]. intros [? ?]. split; [done|]. by eapply writing_agree.
  - intros k d [w|w] c; simpl; [by intros [_ ->]|]. intros [_ (<- & _ & _ & Hw)].
    apply spilling_key_Some. split; [done|]. destruct (blob_writer w), (primary_writer w); try done; destruct Hw as (Hs & _);
      (split; intros ? [= <-]; by rewrite Hs).
  - apply spill_store_writer.
  - apply spill_store_write.
  - intros k d w c c' Hw Hc. left. by eapply spill_store_commit.
  - intros k src c c' Ha Hq. left. destruct (is_manifest k.2) eqn:Em; [by simpl in Ha; unfold spill_adopt_file in Ha; rewrite Em in Ha|].
    apply (spill_adopt_exact write_zero panicked no_writer threshold stat stat_len) in Ha as (_ & Hp & Hb); [|done..].
    unfold spill_content. rewrite Hp, Hb. rewrite lookup_union_r by apply lookup_delete_eq. apply lookup_insert_eq.
  - intros k c e. apply (spill_reader_not_found write_zero panicked no_writer threshold stat).
  - intros k c b Hb. by apply (spill_existence_spec write_zero panicked no_writer threshold stat) in Hb.
  - intros w c. unfold spill_content. change (w_drop w c) with (spill_drop w c).
    by destruct (spill_drop_content w c) as [-> ->].
  - intros k c r c' Hm. simpl. unfold spill_writer. rewrite Hm. destruct (writer k c.1) as [rw p] eqn:E1.
    destruct (writer_spec _ _ _ _ E1) as (C1 & _). intros [= _ <-]. unfold spill_content. simpl. by rewrite C1.
  - intros k d [w|w] c d' r w' c' Hm; simpl; [intros [_ Hw]|by intros [? _]; congruence].
    destruct (w_write d' w c.1) as [[rw w1] p] eqn:E1. destruct (write_spec _ _ _ _ _ _ E1) as (C1 & _).
    intros [= _ _ <-]. unfold spill_content. simpl. by rewrite C1.
  - intros k d w c r c' Hm Hw Hc. destruct r as [[]|e]; [left; split; [done|by eapply spill_store_commit]|right].
    revert Hw Hc. destruct w as [w|w]; simpl; [intros [_ Hw]|by intros [? _]; congruence].
    destruct (w_commit w c.1) as [rw p] eqn:E1. apply commit_spec in E1. intros [= -> <-]. unfold spill_content. simpl. by rewrite E1.
Qed.
End spill_store.

(** ** The jobs *)

Section jobs.
Context {S W E : Type} `{Backend S W E} {not_found : E -> bool} {file : str -> bytes} {content : S -> gmap EntryKey bytes}
  {agree : EntryKey -> S -> S -> Prop} {of_key : W -> option EntryKey}
  {writes : EntryKey -> bytes -> W -> S -> Prop} {clear lost : S -> EntryKey -> Prop}
  `{L : !StoreLaws S W E not_found file content agree of_key writes clear lost}.
Variables (write_zero : E) (stat : str -> result E N) (open_file : str -> result E (list bytes * option E))
  (packed : OaContent -> list bytes * option E).
(** A file does not change while it is written: its size is that of its bytes, and a
    copy that reads to the end read them. *)
Hypothesis stat_len : forall path n, stat path = Ok n -> n = N.of_nat (length (file path)).
Hypothesis open_all : forall path chunks, open_file path = Ok (chunks, None) -> concat chunks = file path.

#[local] Existing Instance store_tier.
#[local] Instance agree_pre k : PreOrder (agree k) := tier_agree_pre k.

Lemma agree_content k s s' : agree k s s' -> content s' !! k = content s !! k.
Proof. apply tier_agree. Qed.

(** The bytes of an artifact's entry. *)
Definition blob_of (c : OaContent) : bytes :=
  match c with
  | OaTarPath path _ | OaCpioPath path _ => file path
  | _ => concat (packed c).1
  end.

Definition is_container (c : OaContent) : bool := match c with OaTarPath _ _ | OaCpioPath _ _ => true | _ => false end.

(** What is known of a job, and of the cache, on its way. *)
Definition job_ok (k : EntryKey) (c : OaContent) (s : S) (j : Job W E) : Prop :=
  match j with
  | Start => clear s k
  | Copying n => is_container c = true /\ n = N.of_nat (length (blob_of c))
  | Streaming w chunks failure stated written => exists d, writes k d w s /\
      (failure = None -> d ++ concat chunks = blob_of c) /\
      match stated with Some n => n = N.of_nat (length (blob_of c)) | None => written = N.of_nat (length d) end
  | Finished (Ok n) => (content s !! k = Some (blob_of c) \/ lost s k) /\ n = N.of_nat (length (blob_of c))
  | Finished (Err _) => True
  end.

Lemma job_ok_agree k c s s' j : agree k s s' -> job_ok k c s j -> job_ok k c s' j.
Proof.
  intros Ha. destruct j as [|n|w chunks failure stated written|[n|e]]; simpl; try done.
  - by apply store_clear.
  - intros (d & Hw & ?). exists d. split; [by eapply store_agree|done].
  - intros [[Hc|Hl] Hn]; (split; [|done]); [left; by rewrite (agree_content _ _ _ Ha)|right; by eapply store_lost].
Qed.

(** A move of a job keeps what is known of it, and touches no other key. *)
Definition step_spec (k : EntryKey) (c : OaContent) (s : S) (x : Job W E * S) : Prop :=
  job_ok k c x.2 x.1 /\ forall k', k' <> k -> agree k' s x.2.

Lemma start_stream_spec src stated k c s :
  (src.2 = None -> concat src.1 = blob_of c) ->
  match stated with Some n => n = N.of_nat (length (blob_of c)) | None => True end ->
  step_spec k c s (start_stream src stated k s).
Proof.
  intros Hsrc Hn. unfold start_stream, step_spec. destruct (writer k s) as [[w|e] s'] eqn:Ew; simpl;
    (split; [|by apply (tier_writer _ _ _ _ Ew)]); [|done].
  exists []. split_and!; [by eapply store_writer|done|]. by destruct stated.
Qed.

Lemma start_container_spec path owned k c s : is_container c = true -> blob_of c = file path -> clear s k ->
  step_spec k c s (start_container stat path owned k s).
Proof.
  intros Hc Hb Hq. unfold start_container, step_spec. destruct (stat path) as [n|e] eqn:Es; [|split; simpl; [done|by intros]].
  apply stat_len in Es as ->. destruct owned; [|simpl; rewrite Hb; by split].
  pose proof (fun k' => tier_adopt (content := content) (of_key := of_key) k path s k') as Ho.
  destruct (adopt_file k path s) as [[[]|e] s'] eqn:Ea; simpl in *; rewrite ?Hb; (split; [|exact Ho]); try done.
  split; [|done]. by eapply store_adopt.
Qed.

Lemma abandon_spec e w s k c s0 : of_key w = Some k -> (forall k', k' <> k -> agree k' s0 s) ->
  step_spec k c s0 (abandon e w s).
Proof.
  intros Hk Ha. split; [done|]. intros k' Hk'. simpl. etrans; [by apply Ha|]. by apply tier_drop with k.
Qed.

Lemma job_step_spec k c j s : job_ok k c s j -> step_spec k c s (job_step write_zero stat open_file packed k c j s).
Proof.
  assert (Hrefl : forall k', k' <> k -> agree k' s s) by done.
  destruct j as [|n|w [|[|b d] chunks] failure stated written|r]; simpl; intros Hj.
  - destruct c; try (by apply start_stream_spec); by apply start_container_spec.
  - destruct Hj as [Hc Hn]. destruct c as [| |path owned|path owned|]; try done;
      (destruct (open_file path) as [[chunks f]|e] eqn:Eo; [|by split]);
      (apply start_stream_spec; [|done]); simpl; intros ->; by apply open_all.
  - destruct Hj as (d & Hw & Hb & Hn). pose proof (store_key _ _ _ _ Hw) as Hk. destruct failure as [e|].
    + by apply abandon_spec.
    + pose proof (fun k' => tier_commit (agree := agree) w s k k' Hk) as Ho.
      destruct (w_commit w s) as [[[]|e] s'] eqn:Ec; (split; [|exact Ho]); [|done]. specialize (Hb eq_refl).
      simpl in Hb. rewrite app_nil_r in Hb. subst d. split; [by eapply store_commit|]. by destruct stated.
  - destruct Hj as (d & Hw & Hb & Hn). split; [|done]. by exists d.
  - destruct Hj as (d' & Hw & Hb & Hn). pose proof (store_key _ _ _ _ Hw) as Hk.
    destruct (w_write (b :: d) w s) as [[[[|n]|e] w'] s'] eqn:Ew; destruct (tier_write _ _ _ _ _ _ _ Hk Ew) as [Hk' Ho].
    + by apply abandon_spec.
    + destruct (store_write _ _ _ _ _ _ _ _ Hw Ew) as [Hl Hw']. split; [|done].
      exists (d' ++ take (Datatypes.S n) (b :: d)). split_and!; [done| |].
      * intros Hf. rewrite <- (Hb Hf). simpl. rewrite <- app_assoc. simpl. do 2 f_equal. by rewrite app_assoc, take_drop.
      * destruct stated; [done|]. rewrite length_app, length_take, Hn. simpl in *. lia.
    + by apply abandon_spec.
  - by split.
Qed.

(** ** The jobs of a revision *)

Lemma entry_name_not_manifest a : cache_entry_name a <> MANIFEST_V1.
Proof. unfold cache_entry_name. destruct (oa_content a), (oa_type a); by intros [=]. Qed.

Lemma duplicate_name_None seen l : duplicate_name seen l = None <->
  NoDup (cache_entry_name <$> l) /\ Forall (fun a => cache_entry_name a ∉ seen) l.
Proof.
  revert seen. induction l as [|a l IH]; intros seen; simpl; [split; [intros _; split; constructor|done]|].
  rewrite NoDup_cons, Forall_cons. case_decide as Hd; [split; [done|]; intros (_ & Hn & _); done|].
  rewrite IH. setoid_rewrite not_elem_of_cons. rewrite Forall_and, list_elem_of_fmap, Forall_forall. split.
  - intros (? & Hne & ?). split_and!; try done. intros (b & Hb & Hin). by eapply Hne.
  - intros ((Hne & ?) & ? & ?). split_and!; try done. intros b Hb E1. apply Hne. by exists b.
Qed.

Lemma entry_key_inj addr key l i i' a a' : NoDup (cache_entry_name <$> l) -> l !! i = Some a -> l !! i' = Some a' ->
  i' <> i -> entry_key addr key a' <> entry_key addr key a.
Proof.
  intros Hn Hi Hi' Hne [= He]. apply Hne. eapply NoDup_lookup; [exact Hn|by rewrite list_lookup_fmap, Hi'|].
  rewrite list_lookup_fmap, Hi. simpl. by rewrite He.
Qed.

(** All jobs, and what no job is for. *)
Record jobs_ok (addr : arc) (key : str) (l : list OutputArtifact) (s0 : S) (x : list (Job W E) * S) : Prop := {
  jobs_length : length x.1 = length l;
  jobs_each i a j : l !! i = Some a -> x.1 !! i = Some j -> job_ok (entry_key addr key a) (oa_content a) x.2 j;
  jobs_frame k : (forall a, a ∈ l -> k <> entry_key addr key a) -> agree k s0 x.2;
}.

Lemma step_nth_ok addr key l s0 i x : NoDup (cache_entry_name <$> l) -> jobs_ok addr key l s0 x ->
  jobs_ok addr key l s0 (step_nth write_zero stat open_file packed addr key l i x).
Proof.
  intros Hnd [Hlen Heach Hframe]. unfold step_nth. destruct (l !! i) as [a|] eqn:Ea; [|by split].
  destruct (x.1 !! i) as [j|] eqn:Ej; [|by split].
  pose proof (job_step_spec _ _ _ _ (Heach i a j Ea Ej)) as [Hok Hother].
  destruct (job_step _ _ _ _ _ _ j x.2) as [j' s'] eqn:Es. simpl in *. split; simpl.
  - by rewrite length_insert.
  - intros i' a' j'' Ha' Hj''. destruct (decide (i' = i)) as [->|Hne].
    + rewrite list_lookup_insert_eq in Hj'' by (by eapply lookup_lt_Some). by simplify_eq.
    + rewrite list_lookup_insert_ne in Hj'' by done. eapply job_ok_agree; [|by eapply Heach].
      apply Hother. by eapply entry_key_inj.
  - intros k Hk. etrans; [by apply Hframe|]. apply Hother, Hk. by eapply list_elem_of_lookup_2.
Qed.

Lemma run_jobs_ok addr key l s0 schedule x : NoDup (cache_entry_name <$> l) -> jobs_ok addr key l s0 x ->
  jobs_ok addr key l s0 (run_jobs write_zero stat open_file packed addr key l schedule x).
Proof. intros Hnd. revert x. induction schedule; intros x Hx; simpl; [done|]. by apply IHschedule, step_nth_ok. Qed.

Lemma start_jobs_ok addr key l s : (forall a, a ∈ l -> clear s (entry_key addr key a)) ->
  jobs_ok addr key l s ((fun _ => Start) <$> l, s).
Proof.
  intros Hc. split; simpl; [by rewrite length_fmap| |done]. intros i a j Ha. rewrite list_lookup_fmap, Ha. intros [= <-].
  apply Hc. by eapply list_elem_of_lookup_2.
Qed.

(** ** Storing an entry *)

(** What writing to [w] did: the other keys are as they were, and so is a manifest. *)
Definition wrote (k : EntryKey) (d : bytes) (s : S) (r : result E ()) (w : W) (s' : S) : Prop :=
  of_key w = Some k /\ (forall k', k' <> k -> agree k' s s') /\
  (is_manifest k.2 = true -> content s' !! k = content s !! k) /\ (r = Ok () -> writes k d w s').

Lemma write_all_fuel_wrote fuel k d data w s r w' s' : length data <= fuel -> writes k d w s ->
  write_all_fuel write_zero fuel data w s = (r, w', s') -> wrote k (d ++ data) s r w' s'.
Proof.
  revert d data w s. induction fuel as [|fuel IH]; intros d [|b data] w s Hl Hw; simpl in *; try lia;
    pose proof (store_key _ _ _ _ Hw) as Hk;
    try (intros [= <- <- <-]; rewrite app_nil_r; by split_and!).
  destruct (w_write (b :: data) w s) as [[rw w1] s1] eqn:E1. destruct (tier_write _ _ _ _ _ _ _ Hk E1) as [Hk1 Ho1].
  assert (Hm1 : is_manifest k.2 = true -> content s1 !! k = content s !! k) by (intros Hm; by eapply manifest_write).
  destruct rw as [[|n]|e]; try (intros [= <- <- <-]; by split_and!).
  destruct (store_write _ _ _ _ _ _ _ _ Hw E1) as [Hn Hw1]. intros Hr.
  assert (Hl' : length (drop n data) <= fuel) by (rewrite length_drop; lia).
  apply (IH _ _ _ _ Hl' Hw1) in Hr as (Hk2 & Ho2 & Hm2 & Hw2).
  split_and!; [done| |intros Hm; by rewrite Hm2, Hm1|].
  - intros k' Hne. etrans; [by apply Ho1|by apply Ho2].
  - intros Hok. specialize (Hw2 Hok). rewrite <- app_assoc in Hw2. simpl in Hw2. by rewrite take_drop in Hw2.
Qed.

Lemma write_chunks_wrote k d chunks w s r w' s' : writes k d w s -> write_chunks write_zero chunks w s = (r, w', s') ->
  wrote k (d ++ concat chunks) s r w' s'.
Proof.
  revert d w s. induction chunks as [|data chunks IH]; intros d w s Hw; simpl.
  - intros [= <- <- <-]. rewrite app_nil_r. split_and!; try done. by eapply store_key.
  - destruct (write_all write_zero data w s) as [[r1 w1] s1] eqn:E1.
    apply (write_all_fuel_wrote _ _ _ _ _ _ _ _ _ (le_n _) Hw) in E1 as (Hk1 & Ho1 & Hm1 & Hw1).
    destruct r1 as [[]|e]; [|intros [= <- <- <-]; by split_and!]. intros Hr.
    apply (IH _ _ _ (Hw1 eq_refl)) in Hr as (Hk2 & Ho2 & Hm2 & Hw2). split_and!; [done| |intros Hm; by rewrite Hm2, Hm1|].
    + intros k' Hne. etrans; [by apply Ho1|by apply Ho2].
    + intros Hok. rewrite app_assoc. auto.
Qed.

(** An entry that is stored is what was written, or lost; no other key is touched; a
    manifest that is not stored is what it was. *)
Lemma store_spec k chunks s r s' : store write_zero k chunks s = (r, s') ->
  (forall k', k' <> k -> agree k' s s') /\
  match r with
  | Ok _ => (content s' !! k = Some (concat chunks) \/ lost s' k) /\
      (is_manifest k.2 = true -> content s' !! k = Some (concat chunks) \/ content s' !! k = content s !! k)
  | Err _ => is_manifest k.2 = true -> content s' !! k = content s !! k
  end.
Proof.
  unfold store. destruct (writer k s) as [[w|e] s1] eqn:E1; destruct (tier_writer _ _ _ _ E1) as [_ Ho1].
  2: { intros [= <- <-]. split; [done|]. intros Hm. by eapply manifest_writer. }
  assert (Hm1 : is_manifest k.2 = true -> content s1 !! k = content s !! k) by (intros Hm; by eapply manifest_writer).
  pose proof (store_writer _ _ _ _ E1) as Hw1.
  destruct (write_chunks write_zero chunks w s1) as [[r2 w2] s2] eqn:E2.
  apply (write_chunks_wrote _ _ _ _ _ _ _ _ Hw1) in E2 as (Hk2 & Ho2 & Hm2 & Hw2).
  assert (Ho : forall k', k' <> k -> agree k' s s2) by (intros k' Hk; etrans; [by apply Ho1|by apply Ho2]).
  destruct r2 as [[]|e].
  - specialize (Hw2 eq_refl). pose proof (fun k' => tier_commit (agree := agree) w2 s2 k k' Hk2) as Ho3.
    destruct (w_commit w2 s2) as [[[]|e] s3] eqn:E3; intros [= <- <-]; simpl in Ho3;
      (split; [intros k' Hk; etrans; [by apply Ho|by apply Ho3]|]).
    + split; [by eapply store_commit|]. intros Hm. rewrite <- (Hm1 Hm), <- (Hm2 Hm).
      destruct (manifest_commit _ _ _ _ _ _ Hm Hw2 E3) as [[_ ?]|?]; auto.
    + intros Hm. rewrite <- (Hm1 Hm), <- (Hm2 Hm). by destruct (manifest_commit _ _ _ _ _ _ Hm Hw2 E3) as [[[=] _]|?].
  - intros [= <- <-]. split.
    + intros k' Hk. etrans; [by apply Ho|]. by apply tier_drop with k.
    + intros Hm. by rewrite store_drop, Hm2, Hm1.
Qed.

(** ** Jobs end *)

(** The calls a job has left, at most. *)
Definition weight (chunks : list bytes) : nat := foldr (fun d n => Datatypes.S (length d) + n) 0 chunks.
Definition copied (path : str) : nat := match open_file path with Ok src => weight src.1 | Err _ => 0 end.
Definition job_measure (c : OaContent) (j : Job W E) : nat :=
  match j with
  | Start =>
      match c with
      | OaTarPath path _ | OaCpioPath path _ => 3 + copied path
      | _ => 2 + weight (packed c).1
      end
  | Copying _ => match c with OaTarPath path _ | OaCpioPath path _ => 2 + copied path | _ => 0 end
  | Streaming _ chunks _ _ _ => 1 + weight chunks
  | Finished _ => 0
  end.

Lemma start_stream_measure c src stated k s : job_measure c (start_stream src stated k s).1 <= 1 + weight src.1.
Proof. unfold start_stream. destruct (writer k s) as [[w|e] s']; simpl; lia. Qed.

Lemma job_step_measure k c j s : (forall n, j = Copying n -> is_container c = true) ->
  Nat.pred (job_measure c j) >= job_measure c (job_step write_zero stat open_file packed k c j s).1.
Proof.
  intros Hc. destruct j as [|n|w [|[|b d] chunks] failure stated written|r]; simpl.
  - assert (Hs : forall path owned, is_container c = true -> (c = OaTarPath path owned \/ c = OaCpioPath path owned) ->
      job_measure c (start_container stat path owned k s).1 <= 2 + copied path).
    { intros path owned _ Hp. unfold start_container. destruct (stat path); [|simpl; lia].
      destruct owned; [destruct (adopt_file k path s) as [[[]|] ?]|]; simpl; destruct Hp as [-> | ->]; lia. }
    destruct c; try apply start_stream_measure; (apply Hs; [done|by auto]).
  - specialize (Hc n eq_refl). destruct c as [| |path owned|path owned|]; try done; unfold copied;
      (destruct (open_file path); [apply start_stream_measure|simpl; lia]).
  - destruct failure; [simpl; lia|]. destruct (w_commit w s) as [[]]; simpl; lia.
  - lia.
  - destruct (w_write (b :: d) w s) as [[[[|n]|e] w'] s']; simpl; [lia| |lia]. rewrite length_drop. lia.
  - lia.
Qed.

Lemma job_step_container k c j s : (forall n, j = Copying n -> is_container c = true) ->
  forall n, (job_step write_zero stat open_file packed k c j s).1 = Copying n -> is_container c = true.
Proof.
  intros Hc n. destruct j as [|n'|w [|[|b d] chunks] failure stated written|r]; simpl; try done.
  - destruct c; try done; unfold start_stream; by destruct (writer k s) as [[] ?].
  - by intros _; eapply Hc.
  - destruct failure; [done|]. by destruct (w_commit w s) as [[]].
  - by destruct (w_write (b :: d) w s) as [[[[|?]|?] ?] ?].
Qed.

(** A job that gets enough moves ends, whatever the others do. *)
Lemma run_jobs_ends addr key l schedule x i a j :
  l !! i = Some a -> x.1 !! i = Some j -> (forall n, j = Copying n -> is_container (oa_content a) = true) ->
  job_measure (oa_content a) j <= count_occ Nat.eq_dec schedule i ->
  exists r, (run_jobs write_zero stat open_file packed addr key l schedule x).1 !! i = Some (Finished r).
Proof.
  intros Ha. revert x j. induction schedule as [|i' schedule IH]; intros x j Hj Hc Hm.
  - simpl in *. exists (match j with Finished r => r | _ => Err write_zero end). rewrite Hj. f_equal.
    destruct j as [|n| |]; simpl in Hm; try done; try lia.
    + destruct (oa_content a); simpl in Hm; lia.
    + specialize (Hc n eq_refl). destruct (oa_content a); simpl in *; try done; lia.
  - simpl run_jobs. destruct (decide (i' = i)) as [->|Hne].
    + rewrite count_occ_cons_eq in Hm by done.
      pose proof (job_step_measure (entry_key addr key a) (oa_content a) j x.2 Hc) as Hs.
      pose proof (job_step_container (entry_key addr key a) (oa_content a) j x.2 Hc) as Hc'.
      unfold step_nth. rewrite Ha, Hj. destruct (job_step _ _ _ _ _ _ j x.2) as [j' s'] eqn:Es. simpl in *.
      apply (IH _ j'); simpl; [|done|lia]. apply list_lookup_insert_eq. by eapply lookup_lt_Some.
    + rewrite count_occ_cons_neq in Hm by done. apply (IH _ j); [|done..].
      unfold step_nth. destruct (l !! i') as [a'|]; [|done]. destruct (x.1 !! i') as [j'|]; [|done].
      destruct (job_step _ _ _ _ _ _ j' x.2) as [j'' s'']. simpl. by rewrite list_lookup_insert_ne.
Qed.

(** ** A revision that is written *)

Lemma all_finished_spec (js : list (Job W E)) rs : all_finished js = Some rs <-> js = Finished <$> rs.
Proof.
  revert rs. induction js as [|[|n|w chunks f st wr|r] js IH]; intros [|r' rs]; simpl; try done.
  - rewrite fmap_Some. naive_solver.
  - rewrite fmap_Some. setoid_rewrite IH. naive_solver.
Qed.

Lemma join_all_ok (rs : list (result E N)) sizes : join_all_failable rs false = Ok sizes <-> rs = Ok <$> sizes.
Proof.
  unfold join_all_failable. set (errs := omap _ rs). set (oks := omap _ rs).
  assert (Ho : errs = [] -> rs = Ok <$> oks).
  { subst oks errs. induction rs as [|[a|e] rs IH]; simpl; [done| |done]. intros He. f_equal. by apply IH. }
  split.
  - destruct errs as [|e [|]]; [|done..]. intros [= <-]. auto.
  - intros ->. assert (errs = [] /\ oks = sizes) as [-> ->]; [|done]. subst errs oks. clear Ho.
    induction sizes as [|n sizes [IH1 IH2]]; [done|]. split; [exact IH1|]. apply (f_equal (cons n) IH2).
Qed.

Variables (encode : Manifest -> list bytes) (decode : bytes -> result E Manifest) (format : arc -> str).

(** Every artifact of the list is in the cache as it is, or was lost. *)
Definition in_place (addr : arc) (key : str) (l : list OutputArtifact) (s : S) : Prop :=
  forall a, a ∈ l -> content s !! entry_key addr key a = Some (blob_of (oa_content a)) \/ lost s (entry_key addr key a).

Lemma jobs_in_place addr key l s0 sizes s : jobs_ok addr key l s0 (Finished <$> (Ok <$> sizes), s) ->
  in_place addr key l s /\ sizes = (fun a => N.of_nat (length (blob_of (oa_content a)))) <$> l.
Proof.
  intros [Hlen Heach _]. simpl in *. rewrite !length_fmap in Hlen.
  assert (He : forall i a, l !! i = Some a -> exists n, sizes !! i = Some n /\
    (content s !! entry_key addr key a = Some (blob_of (oa_content a)) \/ lost s (entry_key addr key a)) /\ n = N.of_nat (length (blob_of (oa_content a)))).
  { intros i a Ha. destruct (lookup_lt_is_Some_2 sizes i) as [n Hn]; [rewrite Hlen; by eapply lookup_lt_Some|].
    exists n. split; [done|]. apply (Heach i a (Finished (Ok n)) Ha). by rewrite !list_lookup_fmap, Hn. }
  split.
  - intros a [i Ha]%list_elem_of_lookup. by destruct (He i a Ha) as (n & _ & ? & _).
  - apply list_eq. intros i. rewrite list_lookup_fmap. destruct (l !! i) as [a|] eqn:Ea; simpl.
    + by destruct (He i a Ea) as (n & -> & _ & ->).
    + apply lookup_ge_None in Ea. apply lookup_ge_None. lia.
Qed.

Lemma in_place_agree addr key l k s s' : (forall k', k' <> k -> agree k' s s') ->
  (forall a, a ∈ l -> k <> entry_key addr key a) -> in_place addr key l s -> in_place addr key l s'.
Proof.
  intros Ha Hk Hp a Hin. assert (agree (entry_key addr key a) s s') as Hag by (apply Ha; intros Heq; by apply (Hk a Hin)).
  destruct (Hp a Hin) as [<- |Hl]; [left; by apply agree_content|right; by eapply store_lost].
Qed.

Lemma manifest_not_entry addr key (l : list OutputArtifact) a : a ∈ l -> (addr, key, MANIFEST_V1) <> entry_key addr key a.
Proof. intros _ [= He]. by eapply entry_name_not_manifest. Qed.

Definition entry_sizes (l : list OutputArtifact) : list N := (fun a => N.of_nat (length (blob_of (oa_content a)))) <$> l.

(** The manifest of a revision, and what its writer is handed. *)
Definition manifest_of (addr : arc) (hashin : str) (now : option Z) (l : list OutputArtifact) : Manifest :=
  new_manifest format addr hashin now (zip_with manifest_artifact l (entry_sizes l)).
Definition cached_of (addr : arc) (hashin : str) (tmp : option N) (l : list OutputArtifact) : list CacheArtifact :=
  zip_with (cached_artifact (the_cache tmp) addr (the_key hashin tmp)) l (entry_sizes l).

Abbreviation cache_locally := (cache_locally write_zero stat open_file packed encode format).

(** The two ways a call leaves the cache: without a manifest of its own, or with it
    and every artifact. *)
Lemma cache_locally_cases schedule seen now addr hashin l tmp s r s' :
  let key := the_key hashin tmp in
  let mk := (addr, key, MANIFEST_V1) in
  (forall a, a ∈ l -> clear s (entry_key addr key a)) ->
  cache_locally schedule seen now addr hashin l tmp s = (r, s') ->
  (forall k, (forall a, a ∈ l -> k <> entry_key addr key a) -> k <> mk -> content s' !! k = content s !! k) /\
  (content s' !! mk = content s !! mk /\ (forall cas, r <> Some (Ok cas)) \/
   (content s' !! mk = Some (concat (encode (manifest_of addr hashin now l))) \/ lost s' mk /\ content s' !! mk = content s !! mk) /\
   in_place addr key l s' /\ r <> None /\ forall cas, r = Some (Ok cas) -> cas = cached_of addr hashin tmp l).
Proof.
  intros key mk Hclear. unfold Revisions.cache_locally. fold key.
  destruct (duplicate_name [] l) eqn:Ed; [intros [= <- <-]; split; [done|left; by split]|].
  apply duplicate_name_None in Ed as [Hnd _].
  destruct (run_jobs write_zero stat open_file packed addr key l schedule ((fun _ => Start) <$> l, s)) as [js s1] eqn:Ej.
  pose proof (run_jobs_ok addr key l s schedule _ Hnd (start_jobs_ok addr key l s Hclear)) as Hok. rewrite Ej in Hok.
  pose proof (jobs_frame _ _ _ _ _ Hok) as Hframe. simpl in Hframe.
  assert (Hout : forall k, (forall a, a ∈ l -> k <> entry_key addr key a) -> content s1 !! k = content s !! k).
  { intros k Hk. by apply agree_content, Hframe. }
  assert (Hmk : content s1 !! mk = content s !! mk) by (apply Hout; intros a; apply manifest_not_entry).
  destruct (all_finished js) as [rs|] eqn:Ef; [|intros [= <- <-]; split; [by auto|left; by split]].
  destruct (join_all_failable rs false) as [sizes|e] eqn:Er; [|intros [= <- <-]; split; [by auto|left; by split]].
  apply all_finished_spec in Ef. apply join_all_ok in Er. subst rs js.
  apply jobs_in_place in Hok as [Hin ->]. cbv zeta. fold mk (entry_sizes l). fold (manifest_of addr hashin now l).
  destruct (store write_zero mk (encode (manifest_of addr hashin now l)) s1) as [rm s2] eqn:Em.
  apply store_spec in Em as [Ho Hm].
  assert (Hout2 : forall k, (forall a, a ∈ l -> k <> entry_key addr key a) -> k <> mk -> content s2 !! k = content s !! k).
  { intros k Hk Hne. rewrite <- (Hout k Hk). by apply agree_content, Ho. }
  destruct rm as [[]|e]; [|intros [= <- <-]; split; [done|left; split; [by rewrite Hm|done]]].
  destruct Hm as [Ha Hb]. specialize (Hb eq_refl). rewrite Hmk in Hb. assert (content s2 !! mk = Some (concat (encode (manifest_of addr hashin now l))) \/
    lost s2 mk /\ content s2 !! mk = content s !! mk) as Hm' by (destruct Ha, Hb; auto).
  assert (Hin2 : in_place addr key l s2) by (eapply in_place_agree; [exact Ho|apply manifest_not_entry|done]).
  fold (cached_of addr hashin tmp l). intros Hr. assert (s' = s2 /\ r <> None /\ forall cas, r = Some (Ok cas) -> cas = cached_of addr hashin tmp l)
    as (-> & Hsome & Hcas); [|split; [done|by right]].
  destruct tmp as [nanos|]; [|destruct (exists_local _ seen 0).1]; injection Hr as <- <-; split_and!; try done; by intros cas [= <-].
Qed.

Lemma run_jobs_length addr key l schedule (x : list (Job W E) * S) :
  length (run_jobs write_zero stat open_file packed addr key l schedule x).1 = length x.1.
Proof.
  revert x. induction schedule as [|i schedule IH]; intros x; simpl; [reflexivity|]. rewrite IH. unfold step_nth.
  destruct (l !! i); [|reflexivity]. destruct (x.1 !! i); [|reflexivity].
  destruct (job_step _ _ _ _ _ _ _ _). apply length_insert.
Qed.

Lemma cache_locally_total schedule seen now addr hashin l tmp s :
  (forall i a, l !! i = Some a -> job_measure (oa_content a) Start <= count_occ Nat.eq_dec schedule i) ->
  (cache_locally schedule seen now addr hashin l tmp s).1 <> None.
Proof.
  intros Hfair. unfold Revisions.cache_locally. destruct (duplicate_name [] l); [done|].
  set (key := the_key hashin tmp).
  destruct (run_jobs write_zero stat open_file packed addr key l schedule ((fun _ => Start) <$> l, s)) as [js s1] eqn:Ej.
  assert (Hall : is_Some (all_finished js)).
  { assert (Hj : forall i j, js !! i = Some j -> exists r, j = Finished r).
    { intros i j Hj. destruct (l !! i) as [a|] eqn:Ea.
      - assert (Hs : (((fun _ => Start) <$> l : list (Job W E)), s).1 !! i = Some Start) by (simpl; by rewrite list_lookup_fmap, Ea).
        destruct (run_jobs_ends addr key l schedule _ i a Start Ea Hs) as [r Hr]; [done|by apply Hfair|].
        rewrite Ej in Hr. simpl in Hr. exists r. congruence.
      - apply lookup_lt_Some in Hj. apply lookup_ge_None in Ea. pose proof (run_jobs_length addr key l schedule ((fun _ => Start) <$> l, s)) as Hlen.
        rewrite Ej in Hlen. simpl in Hlen. rewrite length_fmap in Hlen. lia. }
    clear Ej. induction js as [|j js IH]; simpl; [done|]. destruct (Hj 0 j eq_refl) as [r ->].
    destruct IH as [rs ->]; [|by eexists]. intros i j Hi. by apply (Hj (Datatypes.S i)). }
  destruct Hall as [rs ->]. destruct (join_all_failable rs false); [|done]. destruct (store _ _ _ _) as [[[]|e] s2]; [|done].
  destruct tmp; [done|]. by destruct (exists_local _ seen 0).1.
Qed.

(** ** Reading *)

Section reading.
Variables (addr : arc) (key : str) (outputs : list str).

Definition surfaced (l : list ManifestArtifact) : list ArtifactMeta :=
  (fun a => mkMeta (hashout a)) <$> List.filter (fun a => negb (is_logged (type a))) l.
Definition served (sn : bool) (l : list ManifestArtifact) : list CacheArtifact :=
  of_manifest addr key <$> List.filter (fun a => artifact_is_needed a outputs sn) l.

Lemma needed_not_logged a sn : is_logged (type a) = true -> artifact_is_needed a outputs sn = false.
Proof. unfold is_logged, artifact_is_needed. by destruct (type a). Qed.

Lemma gather_established sn seen l t res metas :
  gather addr key outputs sn Established seen l t res metas = (Ok (Some (res ++ served sn l, metas ++ surfaced l)), t).
Proof.
  revert res metas. induction l as [|a l IH]; intros res metas; simpl; [by rewrite !app_nil_r|].
  unfold served, surfaced. simpl. destruct (is_logged (type a)) eqn:El; simpl.
  - rewrite (needed_not_logged a sn El). apply IH.
  - destruct (artifact_is_needed a outputs sn); simpl; rewrite IH; by rewrite <- ?app_assoc.
Qed.

Lemma gather_unknown sn seen l t res metas :
  match missing_among addr key seen (List.filter (fun a => artifact_is_needed a outputs sn) l) t with
  | (Ok [], t') => gather addr key outputs sn Unknown seen l t res metas = (Ok (Some (res ++ served sn l, metas ++ surfaced l)), t')
  | (Ok _, _) => (gather addr key outputs sn Unknown seen l t res metas).1 = Ok None
  | (Err e, _) => (gather addr key outputs sn Unknown seen l t res metas).1 ∈ [Ok None; Err e]
  end.
Proof.
  revert t res metas. induction l as [|a l IH]; intros t res metas; simpl; [by rewrite !app_nil_r|].
  unfold served, surfaced. simpl. destruct (is_logged (type a)) eqn:El; simpl.
  { rewrite (needed_not_logged a sn El). apply IH. }
  destruct (artifact_is_needed a outputs sn) eqn:En; simpl.
  2: { specialize (IH t res (metas ++ [mkMeta (hashout a)])). unfold surfaced in IH. by rewrite <- app_assoc in IH. }
  destruct (exists_local (addr, key, name a) seen t) as [[[]|e] t1] eqn:Ex.
  - specialize (IH t1 (res ++ [of_manifest addr key a]) (metas ++ [mkMeta (hashout a)])).
    unfold served, surfaced in IH. rewrite <- !app_assoc in IH.
    by destruct (missing_among _ _ _ _ t1) as [[[|]|] ?].
  - destruct (missing_among _ _ _ _ t1) as [[ms|e'] ?]; simpl; [done|]. constructor.
  - simpl. by do 2 constructor.
Qed.

(** Whatever is served, is the same. *)
Lemma artifacts_served m residency seen t cas metas t' :
  artifacts_from_manifest addr key m outputs residency seen t = (Ok (Some (cas, metas)), t') ->
  cas = served (support_files_needed m outputs) (artifacts m) /\ metas = surfaced (artifacts m).
Proof.
  unfold artifacts_from_manifest. destruct residency.
  - pose proof (gather_unknown (support_files_needed m outputs) seen (artifacts m) t [] []) as Hg. intros Hr.
    rewrite Hr in Hg. destruct (missing_among _ _ _ _ _) as [[[|]|] ?]; [|done|].
    + simpl in Hg. by simplify_eq.
    + simpl in Hg. by rewrite !elem_of_cons, elem_of_nil in Hg; destruct Hg as [|[|]].
  - rewrite gather_established. by intros [= <- <-].
Qed.
End reading.

(** ** A hit is what was built *)

Definition the_manifest_artifact (a : OutputArtifact) : ManifestArtifact :=
  manifest_artifact a (N.of_nat (length (blob_of (oa_content a)))).
Definition the_cached_artifact (addr : arc) (key : str) (a : OutputArtifact) : CacheArtifact :=
  cached_artifact Durable addr key a (N.of_nat (length (blob_of (oa_content a)))).

Lemma zip_sizes {B} (f : OutputArtifact -> N -> B) l :
  zip_with f l (entry_sizes l) = (fun a => f a (N.of_nat (length (blob_of (oa_content a))))) <$> l.
Proof. unfold entry_sizes. induction l as [|a l IH]; simpl; [done|]. by f_equal. Qed.

Lemma manifest_artifacts addr hashin now l : artifacts (manifest_of addr hashin now l) = the_manifest_artifact <$> l.
Proof. apply zip_sizes. Qed.

Lemma of_the_manifest addr key a : of_manifest addr key (the_manifest_artifact a) = the_cached_artifact addr key a.
Proof. unfold the_cached_artifact, cached_artifact, of_manifest. simpl. by destruct (container_of (oa_content a)). Qed.

Lemma surfaced_metas l : surfaced (the_manifest_artifact <$> l) = metas_of l.
Proof. unfold surfaced, metas_of. induction l as [|a l IH]; simpl; [done|].
  destruct (is_logged (manifest_artifact_type (oa_type a))); simpl; [exact IH|by f_equal].
Qed.

Definition handed (addr : arc) (key : str) (l : list OutputArtifact) : list ResultArtifact := from_cache <$> (the_cached_artifact addr key <$> l).
Definition handed_hit (addr : arc) (key : str) (outputs : list str) (sn : bool) (l : list OutputArtifact) : list ResultArtifact :=
  from_cache <$> served addr key outputs sn (the_manifest_artifact <$> l).

Lemma handed_hit_cons addr key outputs sn a l : handed_hit addr key outputs sn (a :: l) =
  (if artifact_is_needed (the_manifest_artifact a) outputs sn then [from_cache (the_cached_artifact addr key a)] else []) ++ handed_hit addr key outputs sn l.
Proof.
  unfold handed_hit, served. simpl. destruct (artifact_is_needed _ outputs sn); [|done].
  rewrite !fmap_cons, of_the_manifest. done.
Qed.

(** What a hit leaves out is nothing that [build_eresult] keeps. *)
Lemma handed_filter (P : ResultArtifact -> bool) addr key outputs sn l :
  (forall a, P (from_cache (the_cached_artifact addr key a)) = true -> artifact_is_needed (the_manifest_artifact a) outputs sn = true) ->
  List.filter P (handed_hit addr key outputs sn l) = List.filter P (handed addr key l).
Proof.
  intros HP. induction l as [|a l IH]; [done|]. rewrite handed_hit_cons, List.filter_app, IH. unfold handed. simpl.
  specialize (HP a). destruct (artifact_is_needed _ outputs sn); simpl.
  - by destruct (P _).
  - destruct (P _); [|done]. by specialize (HP eq_refl).
Qed.

(** What it has, is needed. *)
Lemma handed_hit_needed addr key outputs sn l :
  Forall (fun r => match ra_type r with
                   | MOutput => ra_group r ∈ outputs
                   | MSupportFile => sn = true
                   | MLog => False
                   end) (handed_hit addr key outputs sn l).
Proof.
  induction l as [|a l IH]; [constructor|]. rewrite handed_hit_cons. apply Forall_app. split; [|done].
  unfold artifact_is_needed. simpl. destruct (oa_type a) eqn:Et; simpl.
  - case_bool_decide; [|constructor]. repeat constructor. simpl. by rewrite Et.
  - constructor.
  - destruct sn; [|constructor]. repeat constructor. simpl. by rewrite Et.
Qed.

Lemma has_output_handed addr key l :
  existsb (fun a => is_output (ra_type a)) (handed addr key l) = existsb (fun a => is_output (type a)) (the_manifest_artifact <$> l).
Proof.
  unfold handed. induction l as [|a l IH]; [done|].
  exact (f_equal (orb (is_output (manifest_artifact_type (oa_type a)))) IH).
Qed.

Lemma hit_eresult addr key l outputs metas :
  let sn := support_files_needed_for (existsb (fun a => is_output (type a)) (the_manifest_artifact <$> l)) outputs in
  build_eresult (handed_hit addr key outputs sn l) metas outputs = build_eresult (handed addr key l) metas outputs.
Proof.
  intros sn. unfold build_eresult. rewrite has_output_handed. fold sn.
  pose proof (handed_hit_needed addr key outputs sn l) as Hn. rewrite Forall_forall in Hn.
  assert (Hs : sn = true -> support_files_needed_for (existsb (fun a => is_output (ra_type a)) (handed_hit addr key outputs sn l)) outputs = true).
  { intros _. unfold support_files_needed_for. destruct (decide (outputs = [])) as [Ho|Ho]; [|by rewrite bool_decide_eq_false_2].
    destruct (existsb _ (handed_hit _ _ _ _ _)) eqn:Ex; [|by rewrite orb_true_r].
    apply existsb_exists in Ex as (r & Hr%list_elem_of_In & Ht). apply bool_decide_eq_true in Ht.
    specialize (Hn r Hr). rewrite Ht, Ho in Hn. by apply not_elem_of_nil in Hn. }
  f_equal; f_equal.
  - apply handed_filter. intros a. unfold artifact_is_needed, is_output. simpl. by destruct (oa_type a).
  - rewrite <- (handed_filter _ addr key outputs sn).
    + apply List.filter_ext_in. intros r Hr%list_elem_of_In. specialize (Hn r Hr).
      destruct (ra_type r); [done..|]. f_equal. etrans; [|by symmetry]. by apply Hs.
    + intros a. unfold artifact_is_needed. simpl. by destruct (oa_type a).
Qed.

(** C10: what a caller is handed on a hit is what it was handed when the target was
    built: whatever it asks for, whatever the cache answers meanwhile and whether or
    not the presence of the blobs was established before, when [artifacts_from_manifest]
    serves the manifest that [cache_locally] wrote, the result built from it - outputs,
    support files, and the metas that dependents fold into their keys - is the one
    built from the artifacts [cache_locally] returned. *)
Theorem hit_as_built addr hashin now l outputs residency seen t cas metas t' :
  artifacts_from_manifest addr hashin (manifest_of addr hashin now l) outputs residency seen t = (Ok (Some (cas, metas)), t') ->
  build_eresult (from_cache <$> cas) metas outputs =
  build_eresult (from_cache <$> cached_of addr hashin None l) (metas_of l) outputs.
Proof.
  intros [-> ->]%artifacts_served. unfold support_files_needed, cached_of. rewrite manifest_artifacts, surfaced_metas, zip_sizes.
  apply hit_eresult.
Qed.

(** C8: a revision that [cache_locally] returns is all there but for what the store lost,
    whatever the order in which the concurrent jobs made their calls: the manifest, unless
    it was lost, decodes to the artifacts in the order they came in; every entry that was
    not lost holds exactly the bytes of its artifact, with that size in the manifest;
    nothing outside the revision changed. And the call does return, if every job gets to
    make its calls. A store that keeps what it acknowledged loses nothing; the SQLite cache
    loses the entries of a batch that failed, and the call returns all the same. The
    premises: no write of an entry is queued when the call begins, and manifests decode. *)
Theorem revision_stored schedule seen now addr hashin l tmp s r s' :
  let key := the_key hashin tmp in
  (forall m, decode (concat (encode m)) = Ok m) ->
  (forall a, a ∈ l -> clear s (entry_key addr key a)) ->
  (forall i a, l !! i = Some a -> job_measure (oa_content a) Start <= count_occ Nat.eq_dec schedule i) ->
  cache_locally schedule seen now addr hashin l tmp s = (r, s') ->
  r <> None /\
  forall cas, r = Some (Ok cas) ->
    cas = cached_of addr hashin tmp l /\
    (forall m, read_manifest not_found decode addr key s' = Ok m ->
       m = Some (manifest_of addr hashin now l) \/ lost s' (addr, key, MANIFEST_V1)) /\
    (forall a, a ∈ l -> content s' !! entry_key addr key a = Some (blob_of (oa_content a)) \/ lost s' (entry_key addr key a)) /\
    (forall k, k.1 <> (addr, key) -> content s' !! k = content s !! k).
Proof.
  intros key Hdec Hclear Hfair Hr. pose proof (cache_locally_total schedule seen now addr hashin l tmp s Hfair) as Ht.
  rewrite Hr in Ht. split; [exact Ht|]. intros cas ->.
  apply cache_locally_cases in Hr as [Hout [[_ Hno]|(Hm & Hin & _ & Hcas)]]; [by destruct (Hno cas)| |done].
  fold key in Hm, Hin, Hout. split_and!; [by apply Hcas| |done|].
  - intros m Hread. destruct Hm as [Hm|[Hl _]]; [left|by right]. revert Hread. unfold read_manifest. destruct (reader (addr, key, MANIFEST_V1) s') as [sized|e] eqn:Er.
    + apply (tier_reader (agree := agree) (of_key := of_key)) in Er as (Ed & Es & _). rewrite Hm in Ed. injection Ed as Ed.
      rewrite Es, Nat2N.id, firstn_all, <- Ed, Hdec. by intros [= <-].
    + destruct (not_found e) eqn:En; [|done]. apply store_not_found in Er; [|done]. congruence.
  - intros [[a h] n] Hk. simpl in Hk. apply Hout; [intros b _ He|intros He]; apply Hk; by injection He as -> -> _.
Qed.

(** C9: the manifest is the last write: however the jobs interleave and wherever the
    call ends - a failure of any of them, a duplicate name, a call that is dropped
    while jobs are still writing - either the manifest is the one that was there, or
    none as before, or it is the new one and then every artifact it names is in
    place, unless the store acknowledged it and lost it, as a failed batch of the SQLite
    cache does; and nothing outside the revision changes. The premise: no write of an
    entry is queued when the call begins. *)
Theorem manifest_last schedule seen now addr hashin l tmp s r s' :
  let key := the_key hashin tmp in
  (forall a, a ∈ l -> clear s (entry_key addr key a)) ->
  cache_locally schedule seen now addr hashin l tmp s = (r, s') ->
  (forall k, k.1 <> (addr, key) -> content s' !! k = content s !! k) /\
  (content s' !! (addr, key, MANIFEST_V1) = content s !! (addr, key, MANIFEST_V1) \/
   content s' !! (addr, key, MANIFEST_V1) = Some (concat (encode (manifest_of addr hashin now l))) /\
   forall a, a ∈ artifacts (manifest_of addr hashin now l) ->
     (exists b, content s' !! (addr, key, name a) = Some b /\ size a = N.of_nat (length b)) \/ lost s' (addr, key, name a)).
Proof.
  intros key Hclear [Hout Hor]%cache_locally_cases; [|done]. split.
  - intros [[a h] n] Hk. simpl in Hk. apply Hout; [intros b _ He|intros He]; apply Hk; by injection He as -> -> _.
  - destruct Hor as [[? _]|([Hm|[_ ?]] & Hin & _)]; [by left|right|by left]. split; [done|]. intros a.
    rewrite manifest_artifacts. intros (b & -> & Hb)%list_elem_of_fmap. destruct (Hin _ Hb) as [Hc|]; [left|by right]. by eexists.
Qed.

(** ** Residency *)

(** A read that trusts [materialize_blobs] is the read that probes: whatever the
    cache answers from probe to probe, [artifacts_from_manifest] over a manifest whose
    needed blobs [missing_local_blobs] found to be all there serves, after the same
    probes, exactly what it serves when it does not probe at all; when one was
    missing, it is a miss; an error of a probe is that error, unless a blob before it
    was already missing. The metas are those of the revision, whatever is asked for. *)
Theorem residency_agrees addr key m outputs seen t :
  let trusted := (artifacts_from_manifest addr key m outputs Established seen t).1 in
  let probed := artifacts_from_manifest addr key m outputs Unknown seen t in
  trusted = Ok (Some (of_manifest addr key <$> needed_artifacts m outputs,
    (fun a => mkMeta (hashout a)) <$> List.filter (fun a => negb (is_logged (type a))) (artifacts m))) /\
  match missing_local_blobs addr key m outputs seen t with
  | (Ok [], t') => probed = (trusted, t')
  | (Ok _, _) => probed.1 = Ok None
  | (Err e, _) => probed.1 = Ok None \/ probed.1 = Err e
  end.
Proof.
  unfold artifacts_from_manifest, missing_local_blobs, needed_artifacts. rewrite gather_established. split; [done|].
  pose proof (gather_unknown addr key outputs (support_files_needed m outputs) seen (artifacts m) t [] []) as Hg.
  destruct (missing_among _ _ _ _ t) as [[[|]|e] t']; [done..|].
  rewrite !elem_of_cons, elem_of_nil in Hg. by destruct Hg as [|[|]]; auto.
Qed.

(** A probe waits for the queue at most [MAX_QUEUE_WAITS] times, and answers what was
    committed when it looked last. *)
Lemma exists_local_from_spec waits k seen t b t' : exists_local_from waits k seen t = (Ok b, t') ->
  t < t' <= t + waits + 1 /\
  (b = bool_decide (is_Some (content (seen (Nat.pred t')) !! k)) \/
   t' = t + waits + 1 /\ exists_committed k (seen (Nat.pred t')) = Ok b).
Proof.
  revert t. induction waits as [|waits IH]; intros t; simpl.
  - intros [= Hc <-]. split; [lia|]. right. split; [lia|done].
  - destruct (entry_existence k (seen t)) as [[found|]|e] eqn:Ee; [| |done].
    + intros [= <- <-]. split; [lia|]. left. by apply store_existence in Ee.
    + intros [Ht Hb]%IH. split; [lia|]. destruct Hb as [|[? ?]]; [by left|right; split; [lia|done]].
Qed.

(** ** A copy of a revision *)

(** In a store that keeps what it acknowledged. *)
Section copies.
Hypothesis lossless : forall s k, ~ lost s k.

Variable cut : bytes -> list bytes.
Hypothesis cut_whole : forall d, concat (cut d) = d.

Lemma copy_blobs_spec addr src dst l s r s' : src <> dst -> copy_blobs write_zero cut addr src dst l s = (r, s') ->
  (forall k, (forall a, a ∈ l -> k <> (addr, dst, name a)) -> content s' !! k = content s !! k) /\
  (r = Ok () -> forall a, a ∈ l -> exists b, content s !! (addr, src, name a) = Some b /\ content s' !! (addr, dst, name a) = Some b).
Proof.
  intros Hne. revert s. induction l as [|a l IH]; intros s; simpl.
  - intros [= <- <-]. split; [done|]. by intros _ a ?%not_elem_of_nil.
  - destruct (reader (addr, src, name a) s) as [sized|e] eqn:Er; [|by intros [= <- <-]].
    apply (tier_reader (agree := agree) (of_key := of_key)) in Er as (Ed & _).
    destruct (store write_zero (addr, dst, name a) (cut (sr_data sized)) s) as [rs s1] eqn:Es. apply store_spec in Es as [Ho Hc].
    assert (Ho' : forall k, k <> (addr, dst, name a) -> content s1 !! k = content s !! k) by (intros k Hk; by apply agree_content, Ho).
    destruct rs as [[]|e]; [|intros [= <- <-]; split; [intros k Hk; apply Ho', Hk; constructor|done]].
    destruct Hc as [[Hc|Hc%lossless] _]; [|done]. rewrite cut_whole in Hc. intros Hr. destruct (IH s1 Hr) as [Hk Hb]. split.
    + intros k Hall. rewrite Hk, Ho'; [done|apply Hall; constructor|]. intros a' ?. apply Hall. by constructor.
    + intros Hok a' [->|Hin]%elem_of_cons.
      * exists (sr_data sized). split; [done|]. destruct (decide ((addr, dst, name a) ∈ (fun a => (addr, dst, name a)) <$> l)) as [Hd|Hd].
        -- apply list_elem_of_fmap in Hd as (a2 & Heq & Hin2). destruct (Hb Hok a2 Hin2) as (b & Hb1 & Hb2).
           injection Heq as Heq. rewrite <- Heq in Hb1, Hb2. rewrite Hb2. rewrite Ho' in Hb1 by congruence. congruence.
        -- rewrite Hk; [done|]. intros a2 Hin2 Heq. apply Hd. apply list_elem_of_fmap. eauto.
      * destruct (Hb Hok a' Hin) as (b & Hb1 & Hb2). exists b. split; [|done]. by rewrite <- Hb1, Ho' by congruence.
Qed.

(** [duplicate_cache_revision] makes a revision that is the original under another
    key: it holds every blob the manifest names, byte for byte, and a manifest that
    says the new key and is strictly newer, so a trim does not take it first (unless
    the clock is at the end of its range); the original and every other revision are
    untouched. A copy that fails, or has nothing to copy, leaves the manifest of the
    new key as it was. *)
Theorem duplicate_served now addr src dst s r s' :
  (forall m, read_manifest not_found decode addr src s = Ok (Some m) -> Forall (fun a => name a <> MANIFEST_V1) (artifacts m)) ->
  duplicate_cache_revision not_found write_zero encode decode cut now addr src dst s = (r, s') ->
  (forall k, k.1 <> (addr, dst) -> content s' !! k = content s !! k) /\
  match r with
  | Ok true => exists m, read_manifest not_found decode addr src s = Ok (Some m) /\
      content s' !! (addr, dst, MANIFEST_V1) =
        Some (concat (encode (mkManifest (version m) (target m) (dup_created now (created_at_nanos m)) dst (artifacts m)))) /\
      (forall a, a ∈ artifacts m -> exists b,
        content s !! (addr, src, name a) = Some b /\ content s' !! (addr, dst, name a) = Some b) /\
      (created_at_nanos m < i64_max -> created_at_nanos m < dup_created now (created_at_nanos m))%Z
  | _ => content s' !! (addr, dst, MANIFEST_V1) = content s !! (addr, dst, MANIFEST_V1)
  end.
Proof.
  intros Hnames. unfold duplicate_cache_revision. case_bool_decide as Hne; [by intros [= <- <-]|].
  destruct (read_manifest not_found decode addr src s) as [[m|]|e] eqn:Em; [|by intros [= <- <-]..].
  specialize (Hnames m eq_refl). rewrite Forall_forall in Hnames. unfold duplicate_cache_entry.
  destruct (copy_blobs write_zero cut addr src dst (artifacts m) s) as [rc s1] eqn:Ec. apply copy_blobs_spec in Ec as [Hk Hb]; [|done].
  assert (Hother : forall k, k.1 <> (addr, dst) -> content s1 !! k = content s !! k).
  { intros k Hd. apply Hk. intros a _ ->. by apply Hd. }
  assert (Hmk : content s1 !! (addr, dst, MANIFEST_V1) = content s !! (addr, dst, MANIFEST_V1)).
  { apply Hk. intros a Hin [= Heq]. by apply (Hnames a Hin). }
  destruct rc as [[]|e]; [|by intros [= <- <-]].
  destruct (store _ _ _ s1) as [rm s2] eqn:Es. apply store_spec in Es as [Ho Hc].
  assert (Hother2 : forall k, k.1 <> (addr, dst) -> content s2 !! k = content s !! k).
  { intros k Hd. rewrite <- (Hother k Hd). apply agree_content, Ho. intros ->. by apply Hd. }
  destruct rm as [[]|e]; intros [= <- <-]; (split; [done|]); [|by rewrite Hc].
  destruct Hc as [[Hc|Hc%lossless] _]; [|done]. exists m. split_and!; [done..| |].
  - intros a Hin. destruct (Hb eq_refl a Hin) as (b & Hb1 & Hb2). exists b. split; [done|]. rewrite <- Hb2.
    apply agree_content, Ho. intros [= Heq]. by apply (Hnames a Hin).
  - intros Hlt. unfold dup_created. lia.
Qed.
End copies.
End jobs.

(** ** A cache of two tiers, an encoding, and a revision *)

(** A manifest is written field by field, strings and lists after their length. *)
Definition put_str (s : str) : bytes := N.of_nat (length s) :: s.
Definition get_str (b : bytes) : option (str * bytes) :=
  match b with n :: b => Some (take (N.to_nat n) b, drop (N.to_nat n) b) | [] => None end.

Definition type_code (t : ManifestArtifactType) : N := match t with MOutput => 0 | MLog => 1 | MSupportFile => 2 end.
Definition type_decode (n : N) : ManifestArtifactType := match n with 0%N => MOutput | 1%N => MLog | _ => MSupportFile end.
Definition content_code (c : ManifestArtifactContentType) : N := match c with McTar => 0 | McCpio => 1 end.
Definition content_decode (n : N) : ManifestArtifactContentType := match n with 0%N => McTar | _ => McCpio end.
Definition encoding_code (e : ManifestArtifactEncoding) : N := match e with EncNone => 0 | EncGzip => 1 | EncZstd => 2 end.
Definition encoding_decode (n : N) : ManifestArtifactEncoding := match n with 0%N => EncNone | 1%N => EncGzip | _ => EncZstd end.

Definition put_artifact (a : ManifestArtifact) : bytes :=
  put_str (hashout a) ++ put_str (group a) ++ put_str (name a) ++
  [size a; type_code (type a); content_code (content_type a); encoding_code (encoding a)].
Definition get_artifact (b : bytes) : option (ManifestArtifact * bytes) :=
  '(h, b) ← get_str b;
  '(g, b) ← get_str b;
  '(n, b) ← get_str b;
  match b with
  | s :: t :: c :: e :: b => Some (mkMA h g n s (type_decode t) (content_decode c) (encoding_decode e), b)
  | _ => None
  end.
Fixpoint get_artifacts (count : nat) (b : bytes) : option (list ManifestArtifact) :=
  match count with
  | O => Some []
  | Datatypes.S count => '(a, b) ← get_artifact b; (a ::.) <$> get_artifacts count b
  end.

Definition put_manifest (m : Manifest) : list bytes :=
  [put_str (version m); put_str (target m); [Z.to_N (created_at_nanos m); Z.to_N (- created_at_nanos m)]; put_str (hashin m);
   [N.of_nat (length (artifacts m))]; artifacts m ≫= put_artifact].
Definition get_manifest (b : bytes) : option Manifest :=
  '(v, b) ← get_str b;
  '(t, b) ← get_str b;
  match b with
  | c :: c' :: b =>
      '(h, b) ← get_str b;
      match b with
      | n :: b => mkManifest v t (Z.of_N c - Z.of_N c') h <$> get_artifacts (N.to_nat n) b
      | [] => None
      end
  | _ => None
  end.
Definition read_back (b : bytes) : result tier_error Manifest := ok_or Io (get_manifest b).

Lemma get_put_str s b : get_str (put_str s ++ b) = Some (s, b).
Proof. simpl. by rewrite Nat2N.id, take_app_length, drop_app_length. Qed.

Lemma get_put_artifact a b : get_artifact (put_artifact a ++ b) = Some (a, b).
Proof.
  unfold put_artifact, get_artifact. rewrite <- !app_assoc. do 3 (rewrite get_put_str; cbn [mbind option_bind]).
  destruct a as [h g n s t c e]. by destruct t, c, e.
Qed.

Lemma get_put_artifacts l : get_artifacts (length l) (l ≫= put_artifact) = Some l.
Proof.
  induction l as [|a l IH]; [done|]. 
  change (('(a', b) ← get_artifact (put_artifact a ++ (l ≫= put_artifact)); (a' ::.) <$> get_artifacts (length l) b) = Some (a :: l)).
  rewrite get_put_artifact. cbn [mbind option_bind]. by rewrite IH.
Qed.

Lemma read_back_put m : read_back (concat (put_manifest m)) = Ok m.
Proof.
  unfold read_back, put_manifest, get_manifest. cbn [concat app]. rewrite app_nil_r.
  do 3 (rewrite get_put_str; cbn [mbind option_bind]). rewrite Nat2N.id, get_put_artifacts.
  destruct m as [v t c h l]. simpl. do 2 f_equal. lia.
Qed.

(** Files are written as their bytes; what is packed is the data. *)
Definition sample_stat (path : str) : result tier_error N := Ok (N.of_nat (length path)).
Definition sample_open (path : str) : result tier_error (list bytes * option tier_error) := Ok ([path], None).
Definition sample_pack (c : OaContent) : list bytes * option tier_error :=
  match c with OaRaw data _ _ => ([data], None) | _ => ([], Some Io) end.

Definition sample_format (a : arc) : str := $"//p:t".

Lemma stack_store_laws : @StoreLaws (disk * disk) _ tier_error stack_backend is_not_found (fun path => path)
  (spill_content (pc := entries) (bc := entries))
  (spill_agree (pc := entries) (pq := fun _ _ => false) (bc := entries)) (spill_key (ps := id) (bs := id))
  (spill_writes (pc := entries) (ps := id) (bc := entries) (bs := id) 2) (fun _ _ => false = false) (fun _ _ => False).
Proof.
  refine (spill_store_laws (pc := entries) (ps := id) (bc := entries) (bs := id) (pq := fun _ _ => false) (ph := fun _ _ => false)
    (bq := fun _ _ => false) (bh := fun _ _ => false) Io Io Io 2 (fun src => Ok (N.of_nat (length src))) _).
  by intros src n [= <-].
Qed.

Abbreviation sample_cache_locally := (@cache_locally (disk * disk) _ tier_error stack_backend Io sample_stat sample_open sample_pack put_manifest
  sample_format).

Definition sample_artifact (n : str) (h : str) (c : OaContent) : OutputArtifact := WireDef.mkArtifact $"" n OaOutput c h.
Definition sample_revision : list OutputArtifact :=
  [sample_artifact $"a" $"ha" (OaRaw [1%N] $"a" false);
   sample_artifact $"b" $"hb" (OaTarPath [5%N; 6%N; 7%N; 8%N] true);
   sample_artifact $"c" $"hc" (OaTarPath [5%N; 6%N] false)].
Definition turns : list nat := concat (replicate 8 [2; 0; 1]).
Definition sample_disks (space : nat) : disk * disk := (mkDisk ∅ space, mkDisk ∅ space).
Definition sample_written := sample_cache_locally turns (fun _ => sample_disks 99) (Some 7%Z) 1%N $"h" sample_revision None (sample_disks 99).

Lemma revision_stored_witness :
  sample_written.1 = Some (Ok (cached_of (E := tier_error) (file := fun path => path) sample_pack 1%N $"h" None sample_revision)) /\
  spill_content (pc := entries) (bc := entries) sample_written.2 !! (1%N, $"h", $"out_b") = Some [5%N; 6%N; 7%N; 8%N].
Proof.
  split; [by vm_compute|].
  assert (Hfair : forall i a, sample_revision !! i = Some a ->
    job_measure sample_open sample_pack (oa_content a) (@Start (SpillW (EntryKey * bytes) (EntryKey * bytes)) tier_error)
      <= count_occ Nat.eq_dec turns i).
  { intros [|[|[|i]]] a [= <-]; vm_compute; lia. }
  pose proof (@revision_stored _ _ _ stack_backend is_not_found (fun path => path) _ _ _ _ _ _ stack_store_laws Io
    sample_stat sample_open sample_pack ltac:(by intros path n [= <-]) ltac:(intros path chunks [= <-]; apply app_nil_r) put_manifest read_back
    sample_format turns (fun _ => sample_disks 99) (Some 7%Z) 1%N $"h" sample_revision None (sample_disks 99)
    sample_written.1 sample_written.2 read_back_put ltac:(done) Hfair (surjective_pairing _)) as [_ Hok].
  destruct (Hok _ ltac:(by vm_compute)) as (_ & _ & Hin & _).
  by destruct (Hin (sample_artifact $"b" $"hb" (OaTarPath [5%N; 6%N; 7%N; 8%N] true)) ltac:(do 2 constructor)).
Defined.

(** The jobs are dropped halfway: no manifest. *)
Lemma manifest_last_witness :
  let x := sample_cache_locally [0; 1; 1; 0] (fun _ => sample_disks 99) (Some 7%Z) 1%N $"h" sample_revision None (sample_disks 99) in
  x.1 = None /\ spill_content (pc := entries) (bc := entries) x.2 !! (1%N, $"h", $"out_b") = Some [5%N; 6%N; 7%N; 8%N] /\
  spill_content (pc := entries) (bc := entries) x.2 !! (2%N, $"h", $"out_b") = None.
Proof.
  intros x. split; [by vm_compute|]. split; [by vm_compute|].
  pose proof (@manifest_last _ _ _ stack_backend is_not_found (fun path => path) _ _ _ _ _ _ stack_store_laws Io
    sample_stat sample_open sample_pack ltac:(by intros path n [= <-]) ltac:(intros path chunks [= <-]; apply app_nil_r) put_manifest
    sample_format [0; 1; 1; 0] (fun _ => sample_disks 99) (Some 7%Z) 1%N $"h" sample_revision None (sample_disks 99)
    x.1 x.2 ltac:(done) (surjective_pairing _)) as [Hout _].
  by rewrite Hout.
Defined.

Definition sample_manifest : Manifest :=
  manifest_of (E := tier_error) (file := fun path => path) sample_pack sample_format 1%N $"h" (Some 7%Z) sample_revision.

Lemma hit_as_built_witness :
  let asked := @artifacts_from_manifest _ _ _ stack_backend 1%N $"h" sample_manifest [$""] Unknown (fun _ => sample_written.2) 0 in
  exists cas metas, asked = (Ok (Some (cas, metas)), 3) /\
  build_eresult (from_cache <$> cas) metas [$""] =
  build_eresult (from_cache <$> cached_of (E := tier_error) (file := fun path => path) sample_pack 1%N $"h" None sample_revision)
    (metas_of sample_revision) [$""].
Proof.
  intros asked. eexists _, _. split; [by vm_compute|].
  refine (hit_as_built (H := stack_backend) (file := fun path => path) sample_pack sample_format 1%N $"h" (Some 7%Z) sample_revision [$""] Unknown (fun _ => sample_written.2) 0 _ _ 3 _).
  by vm_compute.
Defined.

Abbreviation sample_copy := (@duplicate_cache_revision _ _ _ stack_backend is_not_found Io put_manifest read_back (fun d => [d]) (Some 3%Z)
  1%N $"h" $"k" sample_written.2).
Abbreviation sample_reading := (@read_manifest _ _ _ stack_backend is_not_found read_back 1%N $"h" sample_written.2).

Lemma sample_manifest_read : sample_reading = Ok (Some sample_manifest).
Proof. by vm_compute. Qed.
Lemma sample_duplicated : exists s', sample_copy = (Ok true, s').
Proof. exists sample_copy.2. by vm_compute. Qed.
Lemma sample_manifest_names : Forall (fun a => name a <> MANIFEST_V1) (artifacts sample_manifest).
Proof. by repeat constructor. Qed.

Lemma duplicate_served_witness :
  exists s' m, sample_copy = (Ok true, s') /\ sample_reading = Ok (Some m) /\
    (created_at_nanos m < dup_created (Some 3%Z) (created_at_nanos m))%Z.
Proof.
  destruct sample_duplicated as [s' Hs]. assert (Hn : forall m, sample_reading = Ok (Some m) -> Forall (fun a => name a <> MANIFEST_V1) (artifacts m)).
  { intros m. rewrite sample_manifest_read. intros [= <-]. exact sample_manifest_names. }
  pose proof (@duplicate_served _ _ _ stack_backend is_not_found (fun path => path) _ _ _ _ _ _ stack_store_laws Io
    put_manifest read_back (fun _ _ lost => lost) (fun d => [d]) (fun d => app_nil_r d) (Some 3%Z) 1%N $"h" $"k" sample_written.2 (Ok true) s' Hn Hs)
    as [_ (m & Hr & _ & _ & Hlt)].
  exists s', m. split; [exact Hs|]. split; [exact Hr|]. apply Hlt.
  rewrite sample_manifest_read in Hr. injection Hr as <-. reflexivity.
Defined.

(** ** A store that loses batches *)

(** Rows, and the keys whose batches fail: they are acknowledged, and stay as they were. *)
Record batched := mkBatched { rows : gmap EntryKey bytes; failing : EntryKey -> bool }.

#[export] Instance batched_backend : Backend batched (EntryKey * bytes) tier_error := {
  reader k s := match rows s !! k with Some b => Ok (mkSized (N.of_nat (length b)) b (Some b)) | None => Err NotFound end;
  writer k s := (Ok (k, []), s);
  w_write b w s := (Ok (length b), (w.1, w.2 ++ b), s);
  w_flush w s := (Ok (), w, s);
  w_commit w s := (Ok (), if failing s w.1 then s else mkBatched (<[w.1 := w.2]> (rows s)) (failing s));
  w_drop w s := s;
  entry_exists k s := Ok (bool_decide (is_Some (rows s !! k)));
  entry_existence k s := Ok (Committed (bool_decide (is_Some (rows s !! k))));
  exists_committed k s := Ok (bool_decide (is_Some (rows s !! k)));
  entry_delete k s := (Ok (), if failing s k then s else mkBatched (delete k (rows s)) (failing s));
  list_entries a s := Ok (remove_dups (omap (fun '(a', h, _, _) => if decide (a' = a) then Some h else None) (map_to_list (rows s))));
  seekable_reader k s := match rows s !! k with Some b => Ok (Some b) | None => Err NotFound end;
  file_path _ _ := None;
  adopt_file _ _ s := (Ok false, s);
}.

Lemma batched_store_laws : StoreLaws batched (EntryKey * bytes) tier_error is_not_found (fun path => path) rows
  (fun k s s' => rows s' !! k = rows s !! k /\ failing s' k = failing s k) (fun w => Some w.1) (fun k d w _ => w = (k, d))
  (fun _ _ => True) (fun s k => failing s k = true).
Proof.
  split; [split|..]; cbn; try done.
  - intros k. split; [done|]. intros s1 s2 s3 [??] [??]. split; congruence.
  - by intros k s s' [? _].
  - intros k s r Hr. case_match; [|done]. injection Hr as <-. simpl. auto.
  - intros k s r s' [= <- <-]. split; [by intros w [= <-]|done].
  - intros d w s k r w' s' [= <-] [= <- <- <-]. done.
  - intros w s k r w' s' [= <-] [= <- <- <-]. done.
  - intros w s k k' [= <-] Hk. case_match; simpl; [done|]. by rewrite lookup_insert_ne.
  - intros k s k' Hk. case_match; simpl; [done|]. by rewrite lookup_delete_ne.
  - intros k s s' [_ ->]. done.
  - by intros k d w s ->.
  - by intros k s w s' [= <- <-].
  - intros k d w s d' n w' s' -> [= <- <- <-]. split; [done|]. by rewrite firstn_all.
  - intros k d w s s' -> [= <-]. simpl. destruct (failing s k) eqn:Ef; [by right|left]. simpl. by rewrite lookup_insert_eq.
  - intros k s e He Hn. by case_match.
  - intros k s b [= <-]. done.
  - by intros k s r s' _ [= _ <-].
  - by intros k d w s d' r w' s' _ _ [= _ _ <-].
  - intros k d w s r s' _ -> [= <- <-]. simpl. destruct (failing s k); [by right|left]. simpl. by rewrite lookup_insert_eq.
Qed.

(** The gap the laws leave is there: the batch of a blob fails and that of the manifest
    does not, so [cache_locally] returns its artifacts and the manifest stands over a blob
    that is not there. *)
Theorem failed_batch_mixes :
  let k := entry_key 1%N $"h" (sample_artifact $"a" $"ha" (OaRaw [1%N] $"a" false)) in
  let s := mkBatched ∅ (fun k' => bool_decide (k' = k)) in
  let x := @cache_locally batched _ tier_error batched_backend Io sample_stat sample_open sample_pack put_manifest sample_format
    turns (fun _ => s) (Some 7%Z) 1%N $"h" sample_revision None s in
  (if x.1 is Some (Ok _) then True else False) /\ is_Some (rows x.2 !! (1%N, $"h", MANIFEST_V1)) /\ rows x.2 !! k = None.
Proof. vm_compute. split; [done|]. split; [by eexists|done]. Qed.

(** A rebuild that fails halfway, over a revision that was there: the first artifact is
    replaced, the second does not fit, so the call fails and the old manifest stays.
    The next caller hits it: it promises the hashout of the first build and hands out
    the bytes of the second. *)
Theorem failed_rebuild_mixes :
  let build a b s := @cache_locally _ _ _ stack_backend Io sample_stat sample_open sample_pack put_manifest sample_format
    turns (fun _ => s) (Some 7%Z) 1%N $"h" [sample_artifact $"a" a.1 (OaRaw a.2 $"a" false); sample_artifact $"b" b.1 (OaRaw b.2 $"b" false)] None s in
  let s1 := (build ($"h1", [1%N]) ($"h2", [2%N]) (sample_disks 60)).2 in
  let '(r, s2) := build ($"h3", [3%N]) ($"h4", replicate 61 4%N) s1 in
  r = Some (Err (Failed (One NoSpace))) /\
  exists cas metas, @artifacts_from_local_cache _ _ _ stack_backend is_not_found read_back 1%N $"h" [$""] (fun _ => s2) 0 =
    (Ok (Some (cas, metas)), 3) /\
  (ca_hashout <$> cas) = [$"h1"; $"h2"] /\
  ((fun a => sr_data <$> @reader _ _ _ stack_backend (ca_addr a, ca_hashin a, ca_name a) s2) <$> cas) = [Ok [3%N]; Ok [2%N]].
Proof. vm_compute. split; [done|]. eexists _, _. split_and!; reflexivity. Qed.
