(* ===== verification/Resolution.v ===== *)
(** How a target is resolved under its lock: [resolve_locked_inner], [contend_for_write],
    [GuardSlot] and [reconcile_rebuilt_hashouts] of
    [crates/engine/src/engine/result.rs], over the locks of [result_lock.rs].

    A target has one gateway, and a reader/writer lock per revision. Any number of
    requests, in any processes, resolve it at once, each at a [Phase]; what a phase
    holds of the locks is a function of it, so the state of the locks is that of the
    requests. A caller keeps a read of the revision for as long as it uses the
    artifacts, and no longer: it rides. *)
From stdpp Require Import sorting.
From S2P Require Import Prelude CodegenOverlap Sorts WireDef HtIntern Gc CacheTiers MemTier Revisions.

(** ** Hashouts *)

(** [manifest_hashouts]: what a dependent can have folded into its key, sorted. *)
Definition manifest_hashouts (m : Manifest) : list str :=
  sort (hashout <$> List.filter (fun a => negb (is_logged (type a))) (artifacts m)).

(** [Resolved]: what the request resolved, and [Resolved::hashouts]. *)
Inductive Resolved := Hit (m : Manifest) | Executed (metas : list ArtifactMeta).
Definition resolved_hashouts (r : Resolved) : list str :=
  match r with
  | Hit m => manifest_hashouts m
  | Executed metas => sort (meta_hashout <$> metas)
  end.

(** [reconcile_rebuilt_hashouts]: [tag], and the triples of the two sides. *)
Definition tag (t : ManifestArtifactType) : option str :=
  match t with MOutput => Some $"output" | MSupportFile => Some $"support" | MLog => None end.

Definition promised (m : Manifest) : list (list str) :=
  omap (fun a => t ← tag (type a); Some [t; group a; hashout a]) (artifacts m).

Section reconcile.
Context {E : Type}.
(** [ViewContent::hashout]. *)
Variable view_hashout : nat -> result E str.
(** [bail!]. *)
Variable differs : list (list str) -> list (list str) -> E.

Definition content_hashout (c : ResultContent) : result E str :=
  match c with
  | FromCache a => Ok (ca_hashout a)
  | Passthrough _ _ _ expected => Ok expected
  | View v => view_hashout v
  | AsGiven a => Ok (oa_hashout a)
  end.

Fixpoint rebuilt (produced : list ResultArtifact) : result E (list (list str)) :=
  match produced with
  | [] => Ok []
  | a :: produced =>
      match tag (ra_type a) with
      | None => rebuilt produced
      | Some t => h ← content_hashout (ra_content a); l ← rebuilt produced; Ok ([t; ra_group a; h] :: l)
      end
  end.

Definition lex_leb (a b : list str) : bool := match lex_compare a b with Gt => false | _ => true end.
Definition sort_unstable (l : list (list str)) : list (list str) := sort_by lex_leb l.

Definition reconcile_rebuilt_hashouts (m : Manifest) (produced : list ResultArtifact) : result E () :=
  l ← rebuilt produced;
  if decide (sort_unstable (promised m) = sort_unstable l) then Ok ()
  else Err (differs (sort_unstable (promised m)) (sort_unstable l)).
End reconcile.

(** ** Requests *)

(** What a request asks of the target. *)
Record Options := mkOptions {
  o_hashin : str; o_force : bool; o_shell : bool; o_no_scratch : bool; o_enabled : bool;
  o_hash_only : bool; o_fs : bool }.

Definition can_cache (o : Options) : bool := negb (o_force o) && negb (o_no_scratch o) && o_enabled o && negb (o_shell o).
Definition durable (o : Options) : bool := o_enabled o && negb (o_shell o) && negb (o_hash_only o).

(** A revision that has a manifest: the manifest, and the bytes of its blobs, of which
    only the identity matters here. *)
Record Entry := mkEntry { e_manifest : Manifest; e_bytes : nat }.

(** Where a request is. [ReadWait] and [Probe] are the optimistic read, the [Late_]
    phases those of [contend_for_write], [Recheck] and [Execute] under the write
    lock; from [Built] the lock is downgraded to the riding read. [WriteOuter] to
    [Forced] are the path of a run that may not be cached. A [Riding] read protects the
    bytes [g] of the entry. [Lapsed] dropped every artifact; [HoldWait] and [Validate]
    are [GuardSlot::hold]. [Rebuilding]: a blob could not be had. The [Sweep] phases
    are a garbage collection, or [heph clean]. *)
Inductive Phase :=
| Start
| ReadWait | Probe
| TryWrite
| LateGateway | LateHeld | LateRead | LateProbe | LateTry
| Recheck | Execute
| Built (r : Resolved) (g : nat) | Downgrade (r : Resolved) (g : nat) | Upgradable (r : Resolved) (g : nat) | Handing (r : Resolved) (g : nat)
| Riding (r : Resolved) (g : nat)
| Lapsed (r : Resolved) | HoldWait (r : Resolved) | Validate (r : Resolved)
| WriteOuter | WriteInner | Forced | Unlocked
| Rebuilding (m : Manifest) (g : nat)
| Ephemeral | HashUnknown | Failed
| SweepWait | SweepTarget | SweepWrite (h : str) | SweepRevision (h : str).

Record Request := mkRequest { opts : Options; phase : Phase }.

(** The guards a phase holds. *)
Definition holds_gateway (p : Phase) : bool :=
  match p with
  | LateHeld | Recheck | Execute | Built _ _ | Downgrade _ _ | Upgradable _ _ | Handing _ _ | WriteInner | Forced
  | SweepTarget | SweepWrite _ | SweepRevision _ => true
  | _ => false
  end.
Definition holds_read (p : Phase) : bool :=
  match p with
  | Probe | LateProbe | Upgradable _ _ | Handing _ _ | Riding _ _ | Validate _ | Rebuilding _ _ => true
  | _ => false
  end.
Definition holds_write (p : Phase) : bool :=
  match p with Recheck | Execute | Built _ _ | Forced | SweepRevision _ => true | _ => false end.

(** The revision whose lock that is. *)
Definition revision (q : Request) : str :=
  match phase q with SweepWrite h | SweepRevision h => h | _ => o_hashin (opts q) end.

(** ** Steps *)

(** What the locks let a request do, the others being [qs]. *)
Definition gateway_free (qs : list Request) : bool := forallb (fun q => negb (holds_gateway (phase q))) qs.
Definition read_free (h : str) (qs : list Request) : bool :=
  forallb (fun q => negb (holds_write (phase q) && bool_decide (revision q = h))) qs.
Definition write_free (h : str) (qs : list Request) : bool :=
  forallb (fun q => negb ((holds_write (phase q) || holds_read (phase q)) && bool_decide (revision q = h))) qs.

(** What an execute leaves: the manifest [cache_locally] writes of its artifacts, and
    their metas. *)
Definition executes (m : Manifest) (metas : list ArtifactMeta) : Prop :=
  exists l sizes, length sizes = length l /\ artifacts m = zip_with manifest_artifact l sizes /\ metas = metas_of l.

(** The verdict of [reconcile_rebuilt_hashouts] on a rebuild that wrote [m']. *)
Definition same_outputs (m m' : Manifest) : bool := bool_decide (sort_unstable (promised m) = sort_unstable (promised m')).

Section steps.
(** What a rebuild of an entry may make of it. *)
Variable rebuilds : Entry -> Entry -> Prop.

Abbreviation disk := (gmap str Entry).

(** One step of a request. *)
Inductive request_step (qs : list Request) (o : Options) : Phase -> disk -> Phase -> disk -> Prop :=
| rs_uncached d : can_cache o = false -> o_fs o = false -> request_step qs o Start d WriteOuter d
| rs_unlocked d : can_cache o = false -> o_fs o = true -> request_step qs o Start d Unlocked d
| rs_cached d : can_cache o = true -> request_step qs o Start d ReadWait d
(* the optimistic read *)
| rs_read d : read_free (o_hashin o) qs = true -> request_step qs o ReadWait d Probe d
| rs_probe_hit d e : d !! o_hashin o = Some e -> request_step qs o Probe d (Riding (Hit (e_manifest e)) (e_bytes e)) d
| rs_probe_unknown d : d !! o_hashin o = None -> o_hash_only o = true -> request_step qs o Probe d HashUnknown d
| rs_probe_miss d : d !! o_hashin o = None -> o_hash_only o = false -> request_step qs o Probe d TryWrite d
| rs_try_won d p : (p = TryWrite \/ p = LateTry) -> gateway_free qs = true -> write_free (o_hashin o) qs = true -> request_step qs o p d Recheck d
| rs_try_lost d p : (p = TryWrite \/ p = LateTry) -> gateway_free qs && write_free (o_hashin o) qs = false -> request_step qs o p d LateGateway d
(* contend_for_write *)
| rs_late_gateway d : gateway_free qs = true -> request_step qs o LateGateway d LateHeld d
| rs_late_drop d : request_step qs o LateHeld d LateRead d
| rs_late_read d : read_free (o_hashin o) qs = true -> request_step qs o LateRead d LateProbe d
| rs_late_hit d e : d !! o_hashin o = Some e -> request_step qs o LateProbe d (Riding (Hit (e_manifest e)) (e_bytes e)) d
| rs_late_miss d : d !! o_hashin o = None -> request_step qs o LateProbe d LateTry d
(* under the write lock *)
| rs_recheck_hit d e : d !! o_hashin o = Some e -> request_step qs o Recheck d (Built (Hit (e_manifest e)) (e_bytes e)) d
| rs_recheck_remote d m g : d !! o_hashin o = None ->
    request_step qs o Recheck d (Built (Hit m) g) (<[o_hashin o := mkEntry m g]> d)
| rs_recheck_miss d : d !! o_hashin o = None -> request_step qs o Recheck d Execute d
| rs_executed d m metas g : executes m metas ->
    request_step qs o Execute d (Built (Executed metas) g) (<[o_hashin o := mkEntry m g]> d)
(* force, shell, no cache *)
| rs_write_outer d : gateway_free qs = true -> request_step qs o WriteOuter d WriteInner d
| rs_write_inner d : write_free (o_hashin o) qs = true -> request_step qs o WriteInner d Forced d
| rs_forced d m metas g : durable o = true -> executes m metas ->
    request_step qs o Forced d (Built (Executed metas) g) (<[o_hashin o := mkEntry m g]> d)
| rs_forced_fails d e g : durable o = true -> d !! o_hashin o = Some e ->
    request_step qs o Forced d Failed (<[o_hashin o := mkEntry (e_manifest e) g]> d)
| rs_ephemeral d p : (p = Forced /\ durable o = false \/ p = Unlocked) -> request_step qs o p d Ephemeral d
(* the hand-off *)
| rs_downgrade d r g : request_step qs o (Built r g) d (Downgrade r g) d
| rs_downgraded d r g : read_free (o_hashin o) qs = true -> request_step qs o (Downgrade r g) d (Upgradable r g) d
| rs_plain_read d r g : read_free (o_hashin o) qs = true -> request_step qs o (Upgradable r g) d (Handing r g) d
| rs_release d r g : request_step qs o (Handing r g) d (Riding r g) d
(* GuardSlot *)
| rs_lapse d r g : request_step qs o (Riding r g) d (Lapsed r) d
| rs_hold d r : request_step qs o (Lapsed r) d (HoldWait r) d
| rs_hold_read d r : read_free (o_hashin o) qs = true -> request_step qs o (HoldWait r) d (Validate r) d
| rs_unchanged d r e : d !! o_hashin o = Some e -> manifest_hashouts (e_manifest e) = resolved_hashouts r ->
    request_step qs o (Validate r) d (Riding r (e_bytes e)) d
| rs_changed d r : (forall e, d !! o_hashin o = Some e -> manifest_hashouts (e_manifest e) <> resolved_hashouts r) ->
    request_step qs o (Validate r) d Failed d
(* a blob that cannot be had *)
| rs_rebuild d m g : o_hash_only o = false -> request_step qs o (Riding (Hit m) g) d (Rebuilding m g) d
| rs_rebuild_unknown d m g : o_hash_only o = true -> request_step qs o (Riding (Hit m) g) d HashUnknown d
| rs_rebuilt d m g e e' : d !! o_hashin o = Some e -> rebuilds e e' ->
    request_step qs o (Rebuilding m g) d (if same_outputs m (e_manifest e') then Riding (Hit m) (e_bytes e') else Failed)
      (<[o_hashin o := e']> d)
(* garbage collection *)
| rs_sweep d : gateway_free qs = true -> request_step qs o SweepWait d SweepTarget d
| rs_sweep_revision d h : request_step qs o SweepTarget d (SweepWrite h) d
| rs_sweep_write d h : write_free h qs = true -> request_step qs o (SweepWrite h) d (SweepRevision h) d
| rs_sweep_busy d h : request_step qs o (SweepWrite h) d SweepTarget d
| rs_sweep_delete d h : request_step qs o (SweepRevision h) d SweepTarget (delete h d)
| rs_sweep_done d : request_step qs o SweepTarget d Failed d
(* an error, a cancellation or a crash: the guards are dropped *)
| rs_fail d p : request_step qs o p d Failed d.

Record world := mkWorld { requests : list Request; on_disk : disk }.

Inductive step : world -> world -> Prop :=
| step_request qs1 o p qs2 d p' d' : request_step (qs1 ++ qs2) o p d p' d' ->
    step (mkWorld (qs1 ++ mkRequest o p :: qs2) d) (mkWorld (qs1 ++ mkRequest o p' :: qs2) d')
| step_arrives qs d o p : (p = Start \/ p = SweepWait) -> step (mkWorld qs d) (mkWorld (mkRequest o p :: qs) d).

Definition reach (d : disk) (w : world) : Prop := rtc step (mkWorld [] d) w.
End steps.

(** ** Who may be where *)

(** The guards of two requests go together. *)
Definition compat (a b : Request) : bool :=
  negb (holds_gateway (phase a) && holds_gateway (phase b)) &&
  negb (bool_decide (revision a = revision b) &&
        (holds_write (phase a) && (holds_write (phase b) || holds_read (phase b)) || holds_read (phase a) && holds_write (phase b))).

Lemma compat_sym a b : compat a b = compat b a.
Proof.
  unfold compat. rewrite (andb_comm (holds_gateway (phase a))). f_equal. f_equal.
  rewrite (bool_decide_ext (revision a = revision b) (revision b = revision a)) by done. f_equal.
  destruct (holds_write (phase a)), (holds_write (phase b)), (holds_read (phase a)), (holds_read (phase b)); done.
Qed.

Fixpoint pairwise (l : list Request) : Prop :=
  match l with [] => True | q :: l => Forall (fun q' => compat q q' = true) l /\ pairwise l end.

Lemma pairwise_at l1 q l2 : pairwise (l1 ++ q :: l2) <-> Forall (fun q' => compat q q' = true) (l1 ++ l2) /\ pairwise (l1 ++ l2).
Proof.
  induction l1 as [|q1 l1 IH]; simpl; [done|]. rewrite IH, !Forall_app, !Forall_cons, Forall_app, (compat_sym q q1). tauto.
Qed.

(** What [compat] says of a request and the others. *)
Lemma compat_free q qs : Forall (fun q' => compat q q' = true) qs <->
  (holds_gateway (phase q) = true -> gateway_free qs = true) /\
  (holds_read (phase q) = true -> read_free (revision q) qs = true) /\
  (holds_write (phase q) = true -> write_free (revision q) qs = true).
Proof.
  unfold gateway_free, read_free, write_free.
  induction qs as [|q' qs IH]; simpl; [by split; repeat constructor|].
  rewrite Forall_cons, IH. unfold compat.
  rewrite (bool_decide_ext (revision q = revision q') (revision q' = revision q)) by done.
  rewrite !andb_true_iff.
  destruct (holds_gateway (phase q)), (holds_gateway (phase q')), (holds_write (phase q)), (holds_write (phase q')),
    (holds_read (phase q)), (holds_read (phase q')), (bool_decide (revision q' = revision q)); simpl; intuition congruence.
Qed.

(** ** What is on disk under a guard *)

Section safety.
Variable rebuilds : Entry -> Entry -> Prop.
Abbreviation disk := (gmap str Entry).
Abbreviation request_step := (request_step rebuilds).
Abbreviation step := (step rebuilds).
Abbreviation reach := (reach rebuilds).

Lemma request_step_compat qs o p d p' d' : request_step qs o p d p' d' ->
  Forall (fun q => compat (mkRequest o p) q = true) qs -> Forall (fun q => compat (mkRequest o p') q = true) qs.
Proof.
  intros Hs. rewrite !compat_free. unfold revision. simpl.
  destruct Hs; repeat match goal with H : _ \/ _ |- _ => destruct H as [?|?] end; subst; simpl;
    try (case_match; simpl); intuition congruence.
Qed.

(** The entry a request found, built or rides is the one on disk, with the bytes that
    were there when it took its guard; an execute of a miss has nothing on disk. *)
Definition data_ok (d : disk) (q : Request) : Prop :=
  let on_disk r g := exists e, d !! o_hashin (opts q) = Some e /\ e_bytes e = g /\ manifest_hashouts (e_manifest e) = resolved_hashouts r in
  match phase q with
  | Built r g | Downgrade r g | Upgradable r g | Handing r g | Riding r g => on_disk r g
  | Rebuilding m g => on_disk (Hit m) g
  | Execute => d !! o_hashin (opts q) = None
  | _ => True
  end.

(** The phases [data_ok] says something of hold a guard that keeps writers out. *)
Definition guarded (p : Phase) : bool :=
  match p with
  | Execute | Built _ _ | Downgrade _ _ | Upgradable _ _ | Handing _ _ | Riding _ _ | Rebuilding _ _ => true
  | _ => false
  end.

Lemma data_ok_unguarded d q : guarded (phase q) = false -> data_ok d q.
Proof. unfold data_ok. by destruct (phase q). Qed.

Lemma guarded_revision q : guarded (phase q) = true -> revision q = o_hashin (opts q) /\
  (holds_gateway (phase q) || holds_read (phase q)) = true.
Proof. unfold revision. by destruct (phase q). Qed.

Lemma data_ok_disk d d' q : d' !! o_hashin (opts q) = d !! o_hashin (opts q) -> data_ok d q -> data_ok d' q.
Proof. unfold data_ok. intros ->. done. Qed.

Lemma executed_hashouts m metas : executes m metas -> manifest_hashouts m = sort (meta_hashout <$> metas).
Proof.
  intros (l & sizes & Hlen & Hm & ->). unfold manifest_hashouts, metas_of. rewrite Hm. clear Hm. f_equal.
  revert sizes Hlen. induction l as [|a l IH]; intros [|n sizes] Hlen; try done. injection Hlen as Hlen. simpl.
  destruct (is_logged (manifest_artifact_type (oa_type a))); simpl; [by apply IH|]. f_equal. by apply IH.
Qed.

(** A rebuild that makes other outputs is not made. *)
Hypothesis reproducible : forall e e', rebuilds e e' ->
  e_bytes e' = e_bytes e /\ manifest_hashouts (e_manifest e') = manifest_hashouts (e_manifest e).

(** A step changes the revision it writes, or rebuilds it as it was. *)
Inductive disk_change (q : Request) (d : disk) : disk -> Prop :=
| no_change : disk_change q d d
| written d' : holds_write (phase q) = true -> (forall h, h <> revision q -> d' !! h = d !! h) -> disk_change q d d'
| redone e e' : d !! o_hashin (opts q) = Some e -> e_bytes e' = e_bytes e ->
    manifest_hashouts (e_manifest e') = manifest_hashouts (e_manifest e) -> disk_change q d (<[o_hashin (opts q) := e']> d).

Lemma request_step_disk qs o p d p' d' : request_step qs o p d p' d' -> disk_change (mkRequest o p) d d'.
Proof.
  destruct 1; try apply no_change; try (apply written; [done|intros h' Hh'; simpl in Hh'; by rewrite ?lookup_insert_ne, ?lookup_delete_ne]).
  match goal with H : rebuilds _ _ |- _ => destruct (reproducible _ _ H) end. by eapply (redone (mkRequest o (Rebuilding m g))).
Qed.

Lemma request_step_data qs o p d p' d' : request_step qs o p d p' d' -> data_ok d (mkRequest o p) -> data_ok d' (mkRequest o p').
Proof.
  intros Hs. destruct Hs; unfold data_ok; simpl; try done; rewrite ?lookup_insert_eq; eauto 7 using executed_hashouts.
  intros (e0 & He0 & <- & Hm). match goal with H : rebuilds _ _ |- _ => destruct (reproducible _ _ H) as [Hb Hh] end.
  simplify_eq. destruct (same_outputs m (e_manifest e')); [|done]. exists e'. split_and!; [done..|by rewrite Hh].
Qed.

(** The step of one leaves what the others know. *)
Lemma others_data d d' q q' : disk_change q d d' -> (holds_write (phase q) = true -> holds_gateway (phase q) = true) ->
  compat q q' = true -> data_ok d q' -> data_ok d' q'.
Proof.
  intros Hd Hwg Hc Hq. destruct (guarded (phase q')) eqn:Eg; [|by apply data_ok_unguarded].
  apply guarded_revision in Eg as [Hrev Hhold]. destruct Hd as [|d' Hw Hother|e e' He Hb Hm]; [done| |].
  - eapply data_ok_disk; [|exact Hq]. apply Hother. rewrite <- Hrev. intros Heq.
    unfold compat in Hc. rewrite (Hwg Hw), Hw, Heq, bool_decide_eq_true_2 in Hc by done.
    destruct (holds_gateway (phase q')), (holds_read (phase q')), (holds_write (phase q')); done.
  - destruct (decide (o_hashin (opts q) = o_hashin (opts q'))) as [Hh|Hh].
    + unfold data_ok in *. rewrite Hh in *. rewrite lookup_insert_eq. destruct (phase q'); try done;
        try (destruct Hq as (e0 & He0 & ? & ?); exists e'; split_and!; [done|congruence..]). congruence.
    + eapply data_ok_disk; [|exact Hq]. by rewrite lookup_insert_ne.
Qed.

Lemma write_has_gateway p : holds_write p = true -> holds_gateway p = true.
Proof. by destruct p. Qed.

Record inv (w : world) : Prop := {
  inv_locks : pairwise (requests w);
  inv_data : Forall (data_ok (on_disk w)) (requests w);
}.

Lemma inv_step w w' : inv w -> step w w' -> inv w'.
Proof.
  intros [Hl Hd]. destruct 1 as [qs1 o p qs2 d p' d' Hs|qs d o p Hp]; simpl in *.
  - apply pairwise_at in Hl as [Hc Hl]. apply Forall_app in Hd as [Hd1 [Hq Hd2]%Forall_cons]. split; simpl.
    + apply pairwise_at. split; [|done]. by eapply request_step_compat.
    + assert (Ho : forall q', q' ∈ qs1 ++ qs2 -> data_ok d q' -> data_ok d' q').
      { intros q' Hin. rewrite Forall_forall in Hc. eapply others_data; [by eapply request_step_disk|apply write_has_gateway|by apply Hc]. }
      rewrite Forall_app, Forall_cons. rewrite !Forall_forall in *. split_and!.
      * intros q' Hin. apply Ho; [apply elem_of_app; by left|by apply Hd1].
      * by eapply request_step_data.
      * intros q' Hin. apply Ho; [apply elem_of_app; by right|by apply Hd2].
  - split; simpl.
    + split; [|done]. apply Forall_forall. intros q _. unfold compat. by destruct Hp as [-> | ->]; simpl; rewrite ?andb_false_r.
    + constructor; [|done]. apply data_ok_unguarded. by destruct Hp as [-> | ->].
Qed.

Lemma inv_reach d w : reach d w -> inv w.
Proof.
  unfold Resolution.reach. intros Hr. remember (mkWorld [] d) as w0 eqn:E0. assert (inv w0) as Hi by (subst; by repeat constructor).
  clear E0. induction Hr; eauto using inv_step.
Qed.

(** C11: however the requests of a target interleave - hits, misses that contend, forced
    rebuilds, rebuilds of lost blobs, collections, failures and crashes - a caller
    that rides reads one revision: as long as it holds its artifacts, the entry on
    disk is the one it resolved, with the bytes that were there when it took its read,
    and the manifest promises the hashouts its dependents folded. At most one request
    builds the target at once, no one rides the revision it writes, and a build that
    was not forced only ever runs over a revision that is not there. The premise: a
    rebuild under a riding read, the one exemption of the locking, makes the outputs
    it made before. *)
Theorem riding_stable d w qs1 q qs2 : reach d w -> requests w = qs1 ++ q :: qs2 ->
  (forall r g, phase q = Riding r g -> exists e, on_disk w !! o_hashin (opts q) = Some e /\ e_bytes e = g /\
     manifest_hashouts (e_manifest e) = resolved_hashouts r) /\
  (phase q = Execute -> on_disk w !! o_hashin (opts q) = None) /\
  (phase q = Execute \/ phase q = Forced -> forall q', q' ∈ qs1 ++ qs2 -> phase q' <> Execute /\ phase q' <> Forced /\
     forall r g, phase q' = Riding r g -> o_hashin (opts q') <> o_hashin (opts q)).
Proof.
  intros Hr Hq. apply inv_reach in Hr as [Hl Hd]. rewrite Hq in *.
  apply Forall_app in Hd as [_ [Hd _]%Forall_cons]. apply pairwise_at in Hl as [Hc _]. rewrite Forall_forall in Hc.
  unfold data_ok in Hd. split_and!.
  - intros r g Hp. by rewrite Hp in Hd.
  - intros Hp. by rewrite Hp in Hd.
  - intros Hp q' Hin. specialize (Hc q' Hin). unfold compat, revision in Hc.
    split_and!; [intros Hp'; by destruct Hp as [Hp|Hp]; rewrite Hp, Hp' in Hc..|].
    intros r g Hp' Heq. destruct Hp as [Hp|Hp]; rewrite Hp, Hp', bool_decide_eq_true_2 in Hc; done.
Qed.

(** ** Who waits for whom *)

Definition contending (p : Phase) : bool :=
  match p with TryWrite | LateGateway | LateHeld | LateRead | LateProbe | LateTry => true | _ => false end.

Lemma own_step qs1 o p qs2 d p' : request_step (qs1 ++ qs2) o p d p' d ->
  step (mkWorld (qs1 ++ mkRequest o p :: qs2) d) (mkWorld (qs1 ++ mkRequest o p' :: qs2) d).
Proof. apply step_request. Qed.

Lemma no_writer qs h : gateway_free qs = true -> read_free h qs = true.
Proof.
  unfold gateway_free, read_free. rewrite !forallb_forall. intros Hg q Hin. specialize (Hg q Hin).
  pose proof (write_has_gateway (phase q)) as Hw. destruct (holds_write (phase q)); [|done]. by rewrite Hw in Hg.
Qed.

(** From the write lock or from a late read, a hit is shared. *)
Lemma recheck_shares qs1 o qs2 d e : d !! o_hashin o = Some e -> gateway_free (qs1 ++ qs2) = true ->
  rtc step (mkWorld (qs1 ++ mkRequest o Recheck :: qs2) d)
    (mkWorld (qs1 ++ mkRequest o (Riding (Hit (e_manifest e)) (e_bytes e)) :: qs2) d).
Proof.
  intros He Hg. pose proof (no_writer _ (o_hashin o) Hg) as Hr.
  eapply rtc_l; [by apply own_step, rs_recheck_hit|]. eapply rtc_l; [apply own_step, rs_downgrade|].
  eapply rtc_l; [by apply own_step, rs_downgraded|]. eapply rtc_l; [by apply own_step, rs_plain_read|].
  apply rtc_once, own_step, rs_release.
Qed.

Lemma late_shares qs1 o p qs2 d e : d !! o_hashin o = Some e -> gateway_free (qs1 ++ qs2) = true ->
  p = LateGateway \/ p = LateHeld \/ p = LateRead \/ p = LateProbe ->
  rtc step (mkWorld (qs1 ++ mkRequest o p :: qs2) d)
    (mkWorld (qs1 ++ mkRequest o (Riding (Hit (e_manifest e)) (e_bytes e)) :: qs2) d).
Proof.
  intros He Hg Hp. pose proof (no_writer _ (o_hashin o) Hg) as Hr.
  assert (H4 : rtc step (mkWorld (qs1 ++ mkRequest o LateProbe :: qs2) d)
    (mkWorld (qs1 ++ mkRequest o (Riding (Hit (e_manifest e)) (e_bytes e)) :: qs2) d)) by (by apply rtc_once, own_step, rs_late_hit).
  assert (H3 := rtc_l _ _ _ _ (own_step qs1 o LateRead qs2 d LateProbe (rs_late_read _ _ _ _ Hr)) H4).
  assert (H2 := rtc_l _ _ _ _ (own_step qs1 o LateHeld qs2 d LateRead (rs_late_drop _ _ _ _)) H3).
  destruct Hp as [->|[->|[->| ->]]]; try done. eapply rtc_l; [by apply own_step, rs_late_gateway|done].
Qed.

(** C12: a miss that lost the race to build does not wait for the consumers of what the
    winner built: as soon as the revision is there and no one holds the gateway, the
    request, wherever it is in the contention, ends by its own steps riding that
    revision, whoever rides it meanwhile and for however long; nothing on disk
    changes and no one else moves. *)
Theorem late_hit_shared w qs1 q qs2 e : requests w = qs1 ++ q :: qs2 ->
  contending (phase q) = true -> on_disk w !! o_hashin (opts q) = Some e -> gateway_free (qs1 ++ qs2) = true ->
  rtc step w (mkWorld (qs1 ++ mkRequest (opts q) (Riding (Hit (e_manifest e)) (e_bytes e)) :: qs2) (on_disk w)).
Proof.
  intros Hq Hp He Hg. destruct w as [qs dk]. simpl in *. subst qs. destruct q as [o p]. simpl in *.
  assert (Htry : p = TryWrite \/ p = LateTry -> rtc step (mkWorld (qs1 ++ mkRequest o p :: qs2) dk)
    (mkWorld (qs1 ++ mkRequest o (Riding (Hit (e_manifest e)) (e_bytes e)) :: qs2) dk)).
  { intros Hor. destruct (write_free (o_hashin o) (qs1 ++ qs2)) eqn:Ew.
    - eapply rtc_l; [by apply own_step, rs_try_won|]. by apply recheck_shares.
    - eapply rtc_l; [apply own_step, rs_try_lost; [done|by rewrite Hg, Ew]|]. apply late_shares; auto. }
  destruct p; try done; auto; apply late_shares; auto.
Qed.

(** A request that only hashes, nested in one that may ride the very revision, never
    waits for the gateway or for a write lock of a target that may be cached. *)
Definition hashing (p : Phase) : bool :=
  match p with
  | Start | ReadWait | Probe | Riding _ _ | Lapsed _ | HoldWait _ | Validate _ | HashUnknown | Failed => true
  | _ => false
  end.
Definition sweeping (p : Phase) : bool :=
  match p with SweepWait | SweepTarget | SweepWrite _ | SweepRevision _ => true | _ => false end.

Lemma request_step_hashing qs o p d p' d' : request_step qs o p d p' d' -> o_hash_only o = true -> can_cache o = true ->
  hashing p || sweeping p = true -> hashing p' || sweeping p' = true.
Proof.
  intros Hs Hh Hc. destruct Hs; simpl; try done; try congruence;
    repeat match goal with H : _ \/ _ |- _ => destruct H as [?|?] end; destruct_and?; subst; simpl; try done.
Qed.

Lemma hash_only_reads d w q : reach d w -> q ∈ requests w -> o_hash_only (opts q) = true -> can_cache (opts q) = true ->
  hashing (phase q) || sweeping (phase q) = true.
Proof.
  intros Hr Hq Hh Hc. assert (Hi : Forall (fun q => o_hash_only (opts q) = true -> can_cache (opts q) = true ->
    hashing (phase q) || sweeping (phase q) = true) (requests w)); [|by rewrite Forall_forall in Hi; apply Hi].
  clear q Hq Hh Hc. unfold Resolution.reach in Hr. remember (mkWorld [] d) as w0 eqn:E0.
  assert (Hi : Forall (fun q => o_hash_only (opts q) = true -> can_cache (opts q) = true ->
    hashing (phase q) || sweeping (phase q) = true) (requests w0)) by (subst; constructor).
  clear E0. induction Hr as [|w1 w2 w3 Hs _ IH]; [done|]. apply IH. clear IH.
  destruct Hs as [qs1 o p qs2 dk p' d' Hs|qs dk o p Hp]; simpl in *.
  - rewrite Forall_app, Forall_cons in *. destruct Hi as (? & Hp & ?). split_and!; [done| |done].
    simpl in *. intros Hh Hc. by eapply request_step_hashing, Hp.
  - constructor; [|done]. intros _ _. by destruct Hp as [-> | ->].
Qed.
End safety.

(** ** Rebuilds *)

(** The triples of what a manifest's artifacts are read back as. *)
Lemma rebuilt_from_cache {E} (view_hashout : nat -> result E str) addr key (m : Manifest) :
  rebuilt view_hashout (from_cache <$> (of_manifest addr key <$> artifacts m)) = Ok (promised m).
Proof.
  unfold promised. induction (artifacts m) as [|a l IH]; [done|]. rewrite !fmap_cons. simpl.
  destruct (tag (type a)); simpl; [|exact IH]. by rewrite IH.
Qed.

Lemma lex_leb_total a b : lex_leb a b = false -> lex_leb b a = true.
Proof. unfold lex_leb. rewrite (lex_compare_antisym a b). by destruct (lex_compare a b). Qed.
Lemma lex_leb_trans a b c : lex_leb a b = true -> lex_leb b c = true -> lex_leb a c = true.
Proof.
  unfold lex_leb. intros Hab Hbc. pose proof (lex_le_trans a b c) as Ht. unfold lex_le in Ht.
  destruct (lex_compare a b), (lex_compare b c), (lex_compare a c); try done; exfalso; by apply Ht.
Qed.
Lemma lex_leb_antisym a b : lex_leb a b = true -> lex_leb b a = true -> a = b.
Proof.
  unfold lex_leb. rewrite (lex_compare_antisym a b). destruct (lex_compare a b) eqn:Hab; try done. intros _ _. by apply lex_compare_eq.
Qed.

Lemma sort_unstable_perm l1 l2 : sort_unstable l1 = sort_unstable l2 <-> l1 ≡ₚ l2.
Proof. apply sort_by_unique; eauto using lex_leb_total, lex_leb_trans, lex_leb_antisym. Qed.

(** Strings compare as lists of one string. *)
Lemma sort_lex (l : list str) : (fun s => [s]) <$> sort l = sort_by lex_leb ((fun s => [s]) <$> l).
Proof.
  induction l as [|x l IH]; [done|]. rewrite fmap_cons. simpl. rewrite <- IH. clear IH. generalize (sort l). clear l. intros l.
  induction l as [|y l IH]; [done|]. simpl. unfold lex_leb at 1. simpl. destruct (str_compare x y); simpl; [done..|].
  exact (f_equal (cons [y]) IH).
Qed.

Lemma sort_of_perm (l1 l2 : list str) : l1 ≡ₚ l2 -> sort l1 = sort l2.
Proof.
  intros H. apply (inj (fmap (fun s : str => [s]))). rewrite !sort_lex. apply sort_unstable_perm. by rewrite H.
Qed.

(** What the triples of a manifest say: its hashouts, and those of each group. *)
Lemma promised_hashouts m : promised m ≡ₚ (fun a => [default [] (tag (type a)); group a; hashout a]) <$>
  List.filter (fun a => negb (is_logged (type a))) (artifacts m).
Proof.
  unfold promised. induction (artifacts m) as [|a l IH]; [done|]. simpl. destruct (type a) eqn:Et; simpl; rewrite ?Et; simpl; [by rewrite IH|done|by rewrite IH].
Qed.

(** A rebuild of a revision that others already counted on is accepted exactly when
    it makes the outputs the manifest promised: [reconcile_rebuilt_hashouts] on what
    the rebuild's own manifest hands out answers [Ok] if and only if the two manifests
    have the same artifacts, with their types, groups and hashouts, in any order; and
    then what dependents folded into their keys is unchanged, and so are the hashouts of
    every single output group. *)
Theorem reconcile_exact {E} (view_hashout : nat -> result E str) differs addr key (m m' : Manifest) :
  let verdict := reconcile_rebuilt_hashouts view_hashout differs m (from_cache <$> (of_manifest addr key <$> artifacts m')) in
  (verdict = Ok () <-> promised m ≡ₚ promised m') /\
  (verdict = Ok () -> manifest_hashouts m = manifest_hashouts m' /\
     forall g, (fun t => t !! 2) <$> List.filter (fun t => bool_decide (take 2 t = [$"output"; g])) (promised m) ≡ₚ
               (fun t => t !! 2) <$> List.filter (fun t => bool_decide (take 2 t = [$"output"; g])) (promised m')).
Proof.
  intros verdict. assert (Hv : verdict = Ok () <-> promised m ≡ₚ promised m').
  { unfold verdict, reconcile_rebuilt_hashouts. rewrite rebuilt_from_cache. simpl. rewrite <- sort_unstable_perm.
    by case_decide; split. }
  split; [done|]. intros Hok%Hv. split.
  - unfold manifest_hashouts. apply sort_of_perm. rewrite !promised_hashouts in Hok.
    apply (fmap_Permutation (fun t => default [] (t !! 2))) in Hok. rewrite <- !list_fmap_compose in Hok. exact Hok.
  - intros g. apply fmap_Permutation. clear Hv verdict. induction Hok; simpl; repeat case_match; try done;
      [by constructor|by constructor|by etrans].
Qed.

(** ** Runs *)

Definition sample_options : Options := mkOptions $"h" false false false true false false.
Definition sample_entry : Entry := mkEntry sample_manifest 0.
Definition sample_cache : gmap str Entry := {[$"h" := sample_entry]}.
Definition riding (g : nat) : Request := mkRequest sample_options (Riding (Hit sample_manifest) g).

Lemma sample_executes : executes sample_manifest (metas_of sample_revision).
Proof. exists sample_revision, [1%N; 4%N; 2%N]. split_and!; by vm_compute. Qed.

(** A cold miss builds, and rides what it built. *)
Definition sample_built : world :=
  mkWorld [mkRequest sample_options (Riding (Executed (metas_of sample_revision)) 0)] (<[$"h" := mkEntry sample_manifest 0]> ∅).

Lemma sample_built_reach : reach (fun e e' => e = e') ∅ sample_built.
Proof.
  unfold reach. eapply rtc_l; [apply step_arrives with (o := sample_options) (p := Start); by left|].
  pose proof (fun p d p' d' => step_request (fun e e' : Entry => e = e') [] sample_options p [] d p' d') as go. simpl in go.
  eapply rtc_l; [by apply go, rs_cached|]. eapply rtc_l; [by apply go, rs_read|].
  eapply rtc_l; [by apply go, rs_probe_miss|]. eapply rtc_l; [apply go, rs_try_won; auto|].
  eapply rtc_l; [by apply go, rs_recheck_miss|]. eapply rtc_l; [by apply go, rs_executed, sample_executes|].
  eapply rtc_l; [by apply go, rs_downgrade|]. eapply rtc_l; [by apply go, rs_downgraded|].
  eapply rtc_l; [by apply go, rs_plain_read|]. apply rtc_once. apply go, rs_release.
Qed.

Lemma riding_stable_witness : exists e, on_disk sample_built !! $"h" = Some e /\ e_bytes e = 0 /\
  manifest_hashouts (e_manifest e) = resolved_hashouts (Executed (metas_of sample_revision)).
Proof.
  refine (proj1 (riding_stable (fun e e' => e = e') _ ∅ sample_built [] _ [] sample_built_reach eq_refl) _ _ eq_refl).
  by intros e e' <-.
Defined.

(** A late request, with another that rides what it wants. *)
Lemma late_hit_shared_witness :
  contending LateTry = true /\
  rtc (step (fun e e' => e = e')) (mkWorld [riding 0; mkRequest sample_options LateTry] sample_cache)
    (mkWorld [riding 0; riding 0] sample_cache).
Proof.
  split; [done|].
  exact (late_hit_shared (fun e e' => e = e') (mkWorld [riding 0; mkRequest sample_options LateTry] sample_cache) [riding 0]
    (mkRequest sample_options LateTry) [] sample_entry eq_refl eq_refl eq_refl eq_refl).
Defined.

Lemma reconcile_exact_witness :
  reconcile_rebuilt_hashouts (E := ()) (fun _ => Err ()) (fun _ _ => ()) sample_manifest
    (from_cache <$> (of_manifest 1%N $"h" <$> artifacts sample_manifest)) = Ok ().
Proof. by apply (proj1 (reconcile_exact (E := ()) (fun _ => Err ()) (fun _ _ => ()) 1%N $"h" sample_manifest sample_manifest)). Defined.

(** Without the premise of [riding_stable]: two requests ride a revision, one of them
    finds a blob gone and rebuilds under its read; a target that is not reproducible
    then changes the bytes under the other, which still promises the old hashouts. *)
Theorem rebuild_under_read m' : exists w,
  rtc (step (fun _ _ => True)) (mkWorld [riding 0; riding 0] sample_cache) w /\
  requests w !! 0 = Some (riding 0) /\ on_disk w !! $"h" = Some (mkEntry m' 1).
Proof.
  pose proof (step_request (fun _ _ : Entry => True) [riding 0] sample_options) as go.
  eexists. split; [|shelve]. eapply rtc_l; [apply (go (Riding (Hit sample_manifest) 0) []), rs_rebuild; done|].
  apply rtc_once, (go (Rebuilding sample_manifest 0) []). by eapply (rs_rebuilt _ _ _ _ _ _ sample_entry (mkEntry m' 1)).
  Unshelve. split; [done|]. apply lookup_insert_eq.
Qed.
