(* ===== verification/Deferred.v ===== *)
(** Deferred values, [crates/engine/src/engine/deferred.rs], the staging of their
    artifacts, [engine/execute.rs] and [driver-support/src/driver_managed.rs], and what a
    driver is handed, [plugin/src/driver.rs]: a string anywhere in the config of a target
    may hold references [${read://a:b}] (the text of the output of another target),
    [${src://a:b}] (the path its file has in the sandbox) and [${resource:cpu}] (what the
    run was granted).

    A config is read twice. When a target is defined, [collect] finds the references and
    [inputs_for_labelled] makes an input of each target they name. When it runs,
    [render_deferred] writes the values into the fields it can finish, and
    [complete_deferred], once the inputs are staged, writes the paths into the others.

    A [HashMap] is an association list in the order the map happens to iterate. *)
From stdpp Require Import sorting.
From S2P Require Import Prelude Numerals Sorts Nom HtPkg HtAddr HtIntern HtValue Template TargetRef Expand LogTail CodegenOverlap WireDef.

(** ** What a config refers to *)

Definition DEFERRED_ORIGIN_PREFIX : str := $"option".
Definition DEFERRED_SRC_ANNOTATION : str := $"heph.deferred.src".
Definition MAX_VALUE_BYTES : nat := 64 * 1024.

Record Producer := mkProducer { p_kind : str; p_addr : TargetAddr }.
#[export] Instance Producer_eq_dec : EqDecision Producer.
Proof. solve_decision. Defined.

Record DeferredRef := mkDeferredRef { d_raw : str; producers : list Producer; d_path : str }.
#[export] Instance DeferredRef_eq_dec : EqDecision DeferredRef.
Proof. solve_decision. Defined.

Definition is_src (p : Producer) : bool := bool_decide (p_kind p = SRC_KIND).
Definition needs_sandbox (r : DeferredRef) : bool := existsb is_src (producers r).

Fixpoint any_ref (v : Value) : bool :=
  match v with
  | VString s => has_ref s
  | VList items => existsb any_ref items
  | VMap m => existsb (fun kv => any_ref kv.2) m
  | _ => false
  end.

(** The context [in `path`] around either. *)
Inductive collect_error :=
| InField (path : str) (e : template_error)
| NotATargetAddress (raw path arg : str) (e : target_addr_error).

Section collect.
Context {nom : Nom} (pkg : PkgBuf).

(** The loop of [parse_refs]: the producers so far, and whether a resource was named. *)
Fixpoint refs_of_pieces (path : str) (pieces : list Piece) (producers : list Producer) (names_resource : bool)
    : result collect_error (list Producer * bool) :=
  match pieces with
  | [] => Ok (producers, names_resource)
  | PRef r :: pieces =>
      if negb (claims (kind r) (arg r) DEFERRED_KINDS) then refs_of_pieces path pieces producers names_resource
      else if bool_decide (kind r = Some RESOURCE_KIND) then refs_of_pieces path pieces producers true
      else
        addr ← map_err (NotATargetAddress (raw r) path (arg r)) (TargetRef.parse (arg r) pkg);
        refs_of_pieces path pieces
          (producers ++ [mkProducer (if bool_decide (kind r = Some SRC_KIND) then SRC_KIND else READ_KIND) addr])
          names_resource
  | _ :: pieces => refs_of_pieces path pieces producers names_resource
  end.

Definition parse_refs (s path : str) : result collect_error (option DeferredRef) :=
  if negb (has_ref s) then Ok None
  else
    pieces ← map_err (InField path) (Template.parse s);
    '(producers, names_resource) ← refs_of_pieces path pieces [] false;
    match producers, names_resource with
    | [], false => Ok None
    | _, _ => Ok (Some (mkDeferredRef s producers path))
    end.

(** A walk of a value found at a path, with the references found so far. *)
Definition Walk : Type := str -> list DeferredRef -> result collect_error (list DeferredRef).

(** [if any_ref(item) { walk(item, ..)? }]. *)
Definition walk_if (found : bool) (w : Walk) : Walk := fun path out => if found then w path out else Ok out.

Fixpoint walk_items (path : str) (i : N) (items : list Walk) (out : list DeferredRef)
    : result collect_error (list DeferredRef) :=
  match items with
  | [] => Ok out
  | w :: items => out ← w (path ++ $"[" ++ to_dec i ++ $"]") out; walk_items path (i + 1)%N items out
  end.

Fixpoint walk_fields (at_key : str -> str) (fields : list (str * Walk)) (out : list DeferredRef)
    : result collect_error (list DeferredRef) :=
  match fields with
  | [] => Ok out
  | (k, w) :: fields => out ← w (at_key k) out; walk_fields at_key fields out
  end.


(** The keys are sorted, and the map read at each. *)
Fixpoint walk (v : Value) : Walk := fun path out =>
  match v with
  | VString s => r ← parse_refs s path; Ok (match r with Some r => out ++ [r] | None => out end)
  | VList items => walk_items path 0 (map (fun item => walk_if (any_ref item) (walk item)) items) out
  | VMap m =>
      walk_fields (fun k => path ++ $"." ++ k)
        (sort_by (str_key_leb fst) (map (fun kv => (kv.1, walk_if (any_ref kv.2) (walk kv.2))) m)) out
  | _ => Ok out
  end.

Definition raw_leb : DeferredRef -> DeferredRef -> bool := str_key_leb d_raw.

(** [dedup_by(|a, b| a.raw == b.raw)]: the first of equal neighbours stays. *)
Fixpoint dedup_raw_from (prev : str) (l : list DeferredRef) : list DeferredRef :=
  match l with
  | [] => []
  | r :: l => if decide (d_raw r = prev) then dedup_raw_from prev l else r :: dedup_raw_from (d_raw r) l
  end.
Definition dedup_raw (l : list DeferredRef) : list DeferredRef :=
  match l with [] => [] | r :: l => r :: dedup_raw_from (d_raw r) l end.

Definition collect (config : list (str * Value)) : result collect_error (list DeferredRef) :=
  if negb (existsb (fun kv => any_ref kv.2) config) then Ok []
  else
    out ← walk_fields id (sort_by (str_key_leb fst) (map (fun kv => (kv.1, walk_if (any_ref kv.2) (walk kv.2))) config)) [];
    Ok (dedup_raw (sort_by raw_leb out)).

(** [Engine::deferred_refs]: [accepts] is [accepts_deferred] of the schema of the driver,
    [None] when no driver has the name. *)
Inductive deferred_error := Collect (e : collect_error) | NotDeferrable (raw : str).

Definition deferred_refs (config : list (str * Value)) (accepts : option bool)
    : result deferred_error (list DeferredRef) :=
  if negb (existsb (fun kv => any_ref kv.2) config) then Ok []
  else
    refs ← map_err Collect (collect config);
    match refs with
    | [] => Ok refs
    | r :: _ => if default false accepts then Ok refs else Err (NotDeferrable (d_raw r))
    end.
End collect.

(** ** The inputs they contribute *)

Definition origin_id_for (r : DeferredRef) (p : Producer) (via : option Addr) : str :=
  match via with
  | Some v => DEFERRED_ORIGIN_PREFIX ++ $"|" ++ format v ++ $"|" ++ p_kind p ++ $"|" ++ d_path r
  | None => DEFERRED_ORIGIN_PREFIX ++ $"|" ++ p_kind p ++ $"|" ++ d_path r
  end.

Definition cell (p : Producer) : str * bool := (display (p_addr p), is_src p).

Definition edge (via : option Addr) (r : DeferredRef) (p : Producer) : Input :=
  mkInput (p_addr p) Standard (origin_id_for r p via)
    (if is_src p then {[ DEFERRED_SRC_ANNOTATION := [] ]} else ∅) true (is_src p).

(** The body of the two loops: the cells seen, and the inputs so far. *)
Definition push_edge (via : option Addr) (r : DeferredRef) (st : list (str * bool) * list Input) (p : Producer)
    : list (str * bool) * list Input :=
  if decide (cell p ∈ st.1) then st else (cell p :: st.1, st.2 ++ [edge via r p]).

Definition inputs_for_labelled (refs : list DeferredRef) (via : option Addr) : list Input :=
  (foldl (fun st r => foldl (push_edge via r) st (producers r)) ([], []) refs).2.

Definition inputs_for (refs : list DeferredRef) : list Input := inputs_for_labelled refs None.

(** ** Reading a value *)

(** What is read of an artifact: the paths of its entries, then the entries, each a file
    whose bytes a reader gives until it ends or fails, or something else. *)
Inductive EntryKind (E : Type) := EFile (data : list N) (fails : option E) | EOther.
Arguments EFile {E} data fails.
Arguments EOther {E}.

Record Readable (E : Type) := mkReadable {
  entry_paths : result E (list str); walk_entries : result E (list (result E (EntryKind E)))
}.
Arguments mkReadable {E}.
Arguments entry_paths {E}.
Arguments walk_entries {E}.

Inductive OutputMatcher := All | Exact (groups : list str).

Inductive value_of_error (E : Type) :=
| Failed (e : E)
| NotOneFile (names : list str)
| TooLarge
| NotUtf8
| EmptyValue
| ManyLines.
Arguments Failed {E} e.
Arguments NotOneFile {E} names.
Arguments TooLarge {E}.
Arguments NotUtf8 {E}.
Arguments EmptyValue {E}.
Arguments ManyLines {E}.

(** [String::from_utf8]. *)
Definition from_utf8 (bytes : list N) : option str :=
  let s := from_utf8_lossy bytes in if decide (as_bytes s = bytes) then Some s else None.

Section read.
Context {E : Type}.
(** [Engine::result_addr] with the outputs a reference asks for. *)
Variable result_addr : Addr -> OutputMatcher -> result E (list (Readable E)).

Definition matcher_of (addr : TargetAddr) : OutputMatcher :=
  match output addr with Some g => Exact [g] | None => All end.

Fixpoint all_names (artifacts : list (Readable E)) (names : list str) : result (value_of_error E) (list str) :=
  match artifacts with
  | [] => Ok names
  | a :: artifacts => ps ← map_err Failed (entry_paths a); all_names artifacts (names ++ ps)
  end.

(** [io::copy] from [take(MAX_VALUE_BYTES + 1)]. *)
Definition copy_capped (data : list N) (fails : option E) : result E (list N) :=
  if bool_decide (MAX_VALUE_BYTES < length data) then Ok (take (S MAX_VALUE_BYTES) data)
  else match fails with Some e => Err e | None => Ok data end.

Fixpoint read_entries (entries : list (result E (EntryKind E))) (body : list N) : result (value_of_error E) (list N) :=
  match entries with
  | [] => Ok body
  | entry :: entries =>
      kind ← map_err Failed entry;
      match kind with
      | EOther => read_entries entries body
      | EFile data fails =>
          read ← map_err Failed (copy_capped data fails);
          if bool_decide (MAX_VALUE_BYTES < length read) then Err TooLarge
          else read_entries entries (body ++ read)
      end
  end.

Fixpoint read_artifacts (artifacts : list (Readable E)) (body : list N) : result (value_of_error E) (list N) :=
  match artifacts with
  | [] => Ok body
  | a :: artifacts =>
      entries ← map_err Failed (walk_entries a);
      body ← read_entries entries body;
      read_artifacts artifacts body
  end.

Definition read_deferred_value (addr : TargetAddr) : result (value_of_error E) str :=
  res ← map_err Failed (result_addr (ref addr) (matcher_of addr));
  names ← all_names res [];
  if negb (bool_decide (length names = 1)) then Err (NotOneFile (sort names))
  else
    body ← read_artifacts res [];
    text ← ok_or NotUtf8 (from_utf8 body);
    let text := trim text in
    if bool_decide (text = []) then Err EmptyValue
    else if contains_char newline text then Err ManyLines
    else Ok text.
End read.

(** ** Substituting *)

Inductive render_error (E : Type) :=
| BadAddress (e : target_addr_error)
| NoAllotment (raw : str)
| NoValue (addr : TargetAddr)
| NotResolved (raw : str)
| NotStaged (arg origin_id : str)
| NoListPath (origin_id : str)
| StagedNothing (arg : str)
| StagedMany (arg : str) (paths : list str)
| Io (e : E).
Arguments BadAddress {E} e.
Arguments NoAllotment {E} raw.
Arguments NoValue {E} addr.
Arguments NotResolved {E} raw.
Arguments NotStaged {E} arg origin_id.
Arguments NoListPath {E} origin_id.
Arguments StagedNothing {E} arg.
Arguments StagedMany {E} arg paths.
Arguments Io {E} e.

(** [Allotment::reference]: the rendered amount of a pool, or the text itself. *)
Definition allotment_reference {E} (allotment : option (list (str * str))) (r : Ref) : result (render_error E) str :=
  match allotment with
  | None => Err (NoAllotment (raw r))
  | Some a => Ok (default (raw r) (bt_get (arg r) a))
  end.

Section render.
Context {nom : Nom} {E : Type}.
(** [read_deferred_value_cached]. *)
Variable read_value : TargetAddr -> result E str.

Definition is_read (p : Producer) : bool := bool_decide (p_kind p = READ_KIND).

Fixpoint read_producers (ps : list Producer) (by_addr : gmap str str) : result E (gmap str str) :=
  match ps with
  | [] => Ok by_addr
  | p :: ps =>
      if negb (is_read p) then read_producers ps by_addr
      else
        let key := display (p_addr p) in
        match by_addr !! key with
        | Some _ => read_producers ps by_addr
        | None => v ← read_value (p_addr p); read_producers ps (<[key := v]> by_addr)
        end
  end.

(** [deferred_values]. *)
Fixpoint deferred_values (refs : list DeferredRef) (by_addr : gmap str str) : result E (gmap str str) :=
  match refs with
  | [] => Ok by_addr
  | r :: refs => by_addr ← read_producers (producers r) by_addr; deferred_values refs by_addr
  end.

Definition read_deferred (refs : list DeferredRef) : result E (gmap str str) :=
  match refs with [] => Ok ∅ | _ => deferred_values refs ∅ end.

(** [collect::<BTreeMap<_, _>>()]. *)
Definition collect_map (l : list (str * str)) : gmap str str := foldl (fun m kv => <[kv.1 := kv.2]> m) ∅ l.

Definition reads_of (r : DeferredRef) (by_addr : gmap str str) : gmap str str :=
  collect_map (omap (fun p => if is_read p then (fun v => (display (p_addr p), v)) <$> by_addr !! display (p_addr p)
                              else None) (producers r)).
Definition srcs_of (r : DeferredRef) : gmap str str :=
  collect_map (omap (fun p => if is_src p then Some (display (p_addr p), origin_id_for r p None) else None) (producers r)).

(** The closure of [render_deferred]. *)
Definition resolve_read (pkg : PkgBuf) (by_addr : gmap str str) (allotment : option (list (str * str))) (t : Ref)
    : result (render_error E) str :=
  if bool_decide (kind t = Some RESOURCE_KIND) then allotment_reference allotment t
  else
    addr ← map_err BadAddress (TargetRef.parse (arg t) pkg);
    ok_or (NoValue addr) (by_addr !! display addr).

(** [render_deferred]: [pkg] is the package of the target. *)
Fixpoint render_deferred (pkg : PkgBuf) (refs : list DeferredRef) (by_addr : gmap str str)
    (allotment : option (list (str * str))) (values : gmap str DeferredValue)
    : result (subst_error (E := render_error E)) (gmap str DeferredValue) :=
  match refs with
  | [] => Ok values
  | r :: refs =>
      if needs_sandbox r then
        render_deferred pkg refs by_addr allotment
          (<[d_raw r := NeedsSandbox (reads_of r by_addr) (srcs_of r)]> values)
      else
        rendered ← substitute (resolve_read pkg by_addr allotment) (d_raw r) [READ_KIND; RESOURCE_KIND];
        render_deferred pkg refs by_addr allotment (<[d_raw r := Ready rendered]> values)
  end.

(** [resolve_deferred]. *)
Definition resolve_deferred (pkg : PkgBuf) (refs : list DeferredRef) (allotment : option (list (str * str)))
    : result (subst_error (E := render_error E)) (gmap str DeferredValue) :=
  by_addr ← map_err (fun e => Unresolved (Io e)) (read_deferred refs);
  render_deferred pkg refs by_addr allotment ∅.
End render.

(** ** Staging *)

Inductive ArtifactType := Dep | Support.

Record RunInput (C : Type) := mkRunInput {
  ri_type : ArtifactType; ri_content : C; ri_origin_id : str; ri_source_addr : Addr;
  ri_filters : list str; ri_annotations : gmap str str
}.
Arguments mkRunInput {C}.
Arguments ri_type {C}.
Arguments ri_content {C}.
Arguments ri_origin_id {C}.
Arguments ri_source_addr {C}.
Arguments ri_filters {C}.
Arguments ri_annotations {C}.

Record ManagedRunInput (C : Type) := mkManagedRunInput {
  m_input : RunInput C; m_list_path : option str; m_unpack_root : str
}.
Arguments mkManagedRunInput {C}.
Arguments m_input {C}.
Arguments m_list_path {C}.
Arguments m_unpack_root {C}.

(** [Path::join] of a relative path. *)
Definition join_path (dir name : str) : str := dir ++ $"/" ++ name.

Definition resolve_unpack_root {C} (input : RunInput C) (sandbox_dir ws_dir : str) : str :=
  match ri_type input with
  | Support => ws_dir
  | Dep =>
      match ri_annotations input !! $"unpack_root" with
      | Some root => join_path sandbox_dir ($"exec_" ++ root)
      | None => ws_dir
      end
  end.

Definition list_path_for {C} (input : RunInput C) (list_dir : str) : option str :=
  match ri_type input with
  | Dep => Some (join_path list_dir ($"input_" ++ ri_origin_id input ++ $".list"))
  | Support => None
  end.

(** [inputs_result_exec]: the artifacts of what each staged input refers to, and the support
    files that come with them. [produce] is [link] and [result_addr]. *)
Definition run_inputs {C} (produce : TargetAddr -> list C * list C) (i : Input) : list (RunInput C) :=
  let res := produce (input_ref i) in
  ((fun art => mkRunInput Dep art (origin_id i) (input_addr i) (filters (input_ref i)) (annotations i)) <$> res.1) ++
  ((fun art => mkRunInput Support art (origin_id i) (input_addr i) [] (annotations i)) <$> res.2).
Definition inputs_result_exec {C} (produce : TargetAddr -> list C * list C) (ins : list Input) : list (RunInput C) :=
  concat (run_inputs produce <$> filter (fun i => runtime i = true) ins).

Section stage.
Context {C E : Type}.
(** The entries of a content that pass the filters, in the order they are unpacked. *)
Variable unpack : C -> list str -> result E (list str).
Variables (sandbox_dir ws_dir list_dir : str).

(** The files the list names are in, by their path. *)
Abbreviation Files := (gmap str str).

(** [unpack] appends a line per entry to the list file, which it creates. *)
Definition append_list (list_path : option str) (root : str) (entries : list str) (files : Files) : Files :=
  match list_path with
  | None => files
  | Some p => <[p := default [] (files !! p) ++ concat ((fun e => join_path root e ++ [newline]) <$> entries)]> files
  end.

Fixpoint stage_inputs (ins : list (RunInput C)) (files : Files) : result E (list (ManagedRunInput C) * Files) :=
  match ins with
  | [] => Ok ([], files)
  | input :: ins =>
      let root := resolve_unpack_root input sandbox_dir ws_dir in
      let list_path := list_path_for input list_dir in
      entries ← unpack (ri_content input) (ri_filters input);
      '(inputs, files) ← stage_inputs ins (append_list list_path root entries files);
      Ok (mkManagedRunInput input list_path root :: inputs, files)
  end.

(** The groups of a [BTreeMap] by the path they are unpacked in. *)
Definition root_leb (a b : RunInput C) : bool :=
  match lex_compare (path_components (resolve_unpack_root a sandbox_dir ws_dir))
                    (path_components (resolve_unpack_root b sandbox_dir ws_dir)) with Gt => false | _ => true end.
Definition stage (ins : list (RunInput C)) : result E (list (ManagedRunInput C) * Files) :=
  stage_inputs (sort_by root_leb ins) ∅.
End stage.

(** ** Completing a field *)

Section complete.
Context {C E : Type} (no_such_file : E).
Variables (files : gmap str str) (ins : list (ManagedRunInput C)).

Definition require_list_path (m : ManagedRunInput C) : result (render_error E) str :=
  ok_or (NoListPath (ri_origin_id (m_input m))) (m_list_path m).

(** [staged_path]. *)
Definition staged_path (origin_id arg : str) : result (render_error E) str :=
  input ← ok_or (NotStaged arg origin_id) (List.find (fun m => bool_decide (ri_origin_id (m_input m) = origin_id)) ins);
  list_path ← require_list_path input;
  listed ← ok_or (Io no_such_file) (files !! list_path);
  match List.filter (fun l => negb (bool_decide (l = []))) (lines listed) with
  | [] => Err (StagedNothing arg)
  | [first] => Ok first
  | paths => Err (StagedMany arg (sort paths))
  end.

(** The closure of [complete_deferred]. *)
Definition resolve_staged (reads srcs : gmap str str) (allotment : option (list (str * str))) (r : Ref)
    : result (render_error E) str :=
  if bool_decide (kind r = Some RESOURCE_KIND) then allotment_reference allotment r
  else
    match reads !! arg r with
    | Some v => Ok v
    | None => origin_id ← ok_or (NotResolved (raw r)) (srcs !! arg r); staged_path origin_id (arg r)
    end.

Definition complete_field (allotment : option (list (str * str))) (raw : str) (slot : DeferredValue)
    : result (subst_error (E := render_error E)) DeferredValue :=
  match slot with
  | NeedsSandbox reads srcs => Ready <$> substitute (resolve_staged reads srcs allotment) raw DEFERRED_KINDS
  | Ready _ => Ok slot
  end.

(** [complete_deferred]: the fields in the order of the map, up to the first error. *)
Definition complete_deferred (allotment : option (list (str * str))) (fields : list (str * DeferredValue))
    : result (subst_error (E := render_error E)) (list (str * DeferredValue)) :=
  mapM (fun f => (fun v => (f.1, v)) <$> complete_field allotment f.1 f.2) fields.
End complete.

(** [RunRequest::resolve]: what a driver reads of a field. *)
Inductive resolve_error := NeverCompleted (raw : str) | HostDidNotResolve (raw : str).

Definition resolve (deferred : gmap str DeferredValue) (raw : str) : result resolve_error str :=
  match deferred !! raw with
  | Some (Ready v) => Ok v
  | Some (NeedsSandbox _ _) => Err (NeverCompleted raw)
  | None => if has_deferred_ref raw then Err (HostDidNotResolve raw) else Ok raw
  end.

(** ** What a config is collected into *)

(** The texts of a value, with the path each is found at. *)
Fixpoint leaves (path : str) (v : Value) : list (str * str) :=
  match v with
  | VString s => [(path, s)]
  | VList items =>
      (fix go (i : N) items :=
         match items with [] => [] | v :: items => leaves (path ++ $"[" ++ to_dec i ++ $"]") v ++ go (i + 1)%N items end)
        0%N items
  | VMap m => (fix go m := match m with [] => [] | (k, v) :: m => leaves (path ++ $"." ++ k) v ++ go m end) m
  | _ => []
  end.
Definition config_leaves (config : list (str * Value)) : list (str * str) :=
  concat ((fun kv => leaves kv.1 kv.2) <$> config).

Section collect_lemmas.
Context {nom : Nom} (pkg : PkgBuf).

(** The references of a text that name a target, and the producer each is read as. *)
Definition named (p : Piece) : option Ref :=
  match p with
  | PRef r => if claims (kind r) (arg r) DEFERRED_KINDS && negb (bool_decide (kind r = Some RESOURCE_KIND)) then Some r
              else None
  | _ => None
  end.
Definition producer_of (r : Ref) (p : Producer) : Prop :=
  TargetRef.parse (arg r) pkg = Ok (p_addr p) /\
  p_kind p = if bool_decide (kind r = Some SRC_KIND) then SRC_KIND else READ_KIND.

Lemma refs_of_pieces_spec path pieces : forall acc b,
  match refs_of_pieces pkg path pieces acc b with
  | Ok (ps, _) => exists qs, ps = acc ++ qs /\ Forall2 producer_of (omap named pieces) qs
  | Err e => exists r te, r ∈ omap named pieces /\ TargetRef.parse (arg r) pkg = Err te /\
                          e = NotATargetAddress (raw r) path (arg r) te
  end.
Proof.
  induction pieces as [|p pieces IH]; intros acc b; simpl; [exists []; split; [by rewrite app_nil_r|constructor]|].
  destruct p as [t| |r]; simpl; [apply IH..|].
  destruct (claims (kind r) (arg r) DEFERRED_KINDS) eqn:Ec; simpl; [|apply IH].
  case_bool_decide as Hr; simpl; [apply IH|].
  destruct (TargetRef.parse (arg r) pkg) as [addr|te] eqn:Ep; simpl.
  - pose proof (IH (acc ++ [mkProducer (if bool_decide (kind r = Some SRC_KIND) then SRC_KIND else READ_KIND) addr]) b) as H.
    destruct (refs_of_pieces _ _ _ _ _) as [[ps b']|e].
    + destruct H as (qs & -> & Hqs). eexists (_ :: qs). rewrite <- app_assoc. split; [done|]. by constructor.
    + destruct H as (r' & te & Hr' & H). exists r', te. split; [by right|done].
  - exists r, te. split; [by left|done].
Qed.

(** A text as [parse_refs] reads it: whether it can be read, and what it names. *)
Definition names_ok (s : str) : Prop :=
  has_ref s = false \/ exists pieces, Template.parse s = Ok pieces /\
    Forall (fun r => is_ok (TargetRef.parse (arg r) pkg) = true) (omap named pieces).

Lemma parse_refs_spec s path :
  match parse_refs pkg s path with
  | Ok None => names_ok s /\ forall pieces, Template.parse s = Ok pieces -> omap named pieces = []
  | Ok (Some r) => names_ok s /\ d_raw r = s /\ d_path r = path /\ exists pieces, Template.parse s = Ok pieces /\
      Forall2 producer_of (omap named pieces) (producers r)
  | Err _ => ~ names_ok s
  end.
Proof.
  unfold parse_refs, names_ok. destruct (has_ref s) eqn:Hh; simpl.
  - destruct (Template.parse s) as [pieces|e] eqn:Ep; simpl; [|naive_solver].
    pose proof (refs_of_pieces_spec path pieces [] false) as H.
    destruct (refs_of_pieces _ _ _ _ _) as [[ps b]|e]; simpl.
    + destruct H as (qs & -> & Hqs). rewrite app_nil_l in *.
      assert (Forall (fun r => is_ok (TargetRef.parse (arg r) pkg) = true) (omap named pieces)) as Hok.
      { clear -Hqs. induction Hqs as [|r q rs qs [Hp _] _ IH]; constructor; [by rewrite Hp|done]. }
      destruct qs as [|q qs]; [destruct b|]; simpl.
      * naive_solver.
      * split; [naive_solver|]. intros ? [= ->]. by apply Forall2_nil_inv_r in Hqs.
      * naive_solver.
    + destruct H as (r & te & Hr & Hp & _). intros [?|(? & [= <-] & Hok)]; [done|].
      rewrite Forall_forall in Hok. apply Hok in Hr. by rewrite Hp in Hr.
  - split; [by left|]. intros pieces Hp. apply has_ref_exact in Hh as (ps & Hp' & Hh). rewrite Hp in Hp'.
    injection Hp' as <-. clear Hp. induction pieces as [|[t| |r] ps IH]; simpl in *; auto. done.
Qed.

(** A walk over some texts: it adds what they name to what it was given, and fails at a
    text that cannot be read. *)
Definition reads (w : result collect_error (list DeferredRef)) (out : list DeferredRef) (ls : list (str * str)) : Prop :=
  match w with
  | Ok out' => Forall (fun l => names_ok l.2) ls /\ exists l, out' = out ++ l /\
      forall r, r ∈ l <-> exists path s, (path, s) ∈ ls /\ parse_refs pkg s path = Ok (Some r)
  | Err _ => exists l, l ∈ ls /\ ~ names_ok l.2
  end.

Lemma reads_none out : reads (Ok out) out [].
Proof. split; [done|]. exists []. rewrite app_nil_r. set_solver. Qed.

Lemma reads_seq w k out l1 l2 : reads w out l1 -> (forall out', reads (k out') out' l2) -> reads (w ≫= k) out (l1 ++ l2).
Proof.
  intros H1 H2. destruct w as [out'|e]; simpl in *; [|set_solver]. specialize (H2 out').
  destruct H1 as (Hok & l & -> & Hl). destruct (k _) as [out''|e]; simpl in *; [|set_solver].
  destruct H2 as (Hok' & l' & -> & Hl'). split; [by apply Forall_app|]. exists (l ++ l'). rewrite app_assoc.
  split; [done|]. set_solver.
Qed.

Lemma reads_same w out l1 l2 : (forall x, x ∈ l1 <-> x ∈ l2) -> reads w out l1 -> reads w out l2.
Proof.
  intros Hl. destruct w; simpl; rewrite ?Forall_forall; [|set_solver].
  intros (Hok & l & Ho & Hr). split; [intros x Hx; apply Hok; by rewrite Hl|]. exists l. split; [done|]. intros r. rewrite Hr. set_solver.
Qed.

Lemma reads_unread out ls : Forall (fun l => has_ref l.2 = false) ls -> reads (Ok out) out ls.
Proof.
  intros H. split; [eapply Forall_impl; [exact H|]; by left|]. exists []. rewrite app_nil_r. split; [done|].
  intros r. split; [set_solver|]. intros (path & s & Hin & Hp). rewrite Forall_forall in H. apply H in Hin. simpl in Hin.
  unfold parse_refs in Hp. by rewrite Hin in Hp.
Qed.

Lemma leaves_map path m : leaves path (VMap m) = concat ((fun kv => leaves (path ++ $"." ++ kv.1) kv.2) <$> m).
Proof. induction m as [|[k v] m IH]; [done|]. simpl in *. by rewrite IH. Qed.

Lemma leaves_any_ref v : forall path, any_ref v = false -> Forall (fun l => has_ref l.2 = false) (leaves path v).
Proof.
  induction v as [s| | | | | |m IH|items IH] using value_rect; intros path; simpl; auto.
  - intros H. change (Forall (fun l => has_ref l.2 = false) (leaves path (VMap m))). rewrite leaves_map.
    induction IH as [|[k v] m Hv _ IHm]; [constructor|]. simpl in *. apply orb_false_iff in H as [H1 H2].
    apply Forall_app. auto.
  - generalize 0%N. induction IH as [|v items Hv _ IHm]; intros i H; [constructor|]. simpl in *.
    apply orb_false_iff in H as [H1 H2]. apply Forall_app. auto.
Qed.

Lemma walk_if_reads v path out : (forall path out, reads (walk pkg v path out) out (leaves path v)) ->
  reads (walk_if (any_ref v) (walk pkg v) path out) out (leaves path v).
Proof. unfold walk_if. intros H. destruct (any_ref v) eqn:E; [done|]. by apply reads_unread, leaves_any_ref. Qed.

Lemma walk_fields_reads at_key m : Forall (fun kv => forall path out, reads (walk pkg kv.2 path out) out (leaves path kv.2)) m ->
  forall out, reads (walk_fields at_key (sort_by (str_key_leb fst) (map (fun kv => (kv.1, walk_if (any_ref kv.2) (walk pkg kv.2))) m)) out)
    out (concat ((fun kv => leaves (at_key kv.1) kv.2) <$> m)).
Proof.
  intros Hm out. rewrite (sort_by_fmap _ (str_key_leb fst)) by done.
  apply (reads_same _ _ (concat ((fun kv => leaves (at_key kv.1) kv.2) <$> sort_by (str_key_leb fst) m)));
    [intros x; by rewrite sort_by_perm|].
  rewrite <- (sort_by_perm (str_key_leb fst) m) in Hm. revert out.
  induction Hm as [|[k v] l Hv _ IH]; intros out; simpl; [apply reads_none|].
  apply reads_seq; [by apply walk_if_reads|exact IH].
Qed.

Lemma walk_reads v : forall path out, reads (walk pkg v path out) out (leaves path v).
Proof.
  induction v as [s| | | | | |m IH|items IH] using value_rect; intros path out; try apply reads_none.
  - simpl. pose proof (parse_refs_spec s path) as H. destruct (parse_refs pkg s path) as [[r|]|e] eqn:E; simpl.
    + destruct H as [H _]. split; [by apply Forall_singleton|]. exists [r]. split; [done|]. intros r'.
      rewrite list_elem_of_singleton. split; [intros ->; exists path, s; split; [by left|done]|].
      intros (path' & s' & Hin%list_elem_of_singleton & Hp). injection Hin as -> ->. congruence.
    + destruct H as [H _]. split; [by apply Forall_singleton|]. exists []. rewrite app_nil_r. split; [done|]. intros r'.
      split; [by intros ?%elem_of_nil|]. intros (path' & s' & Hin%list_elem_of_singleton & Hp). injection Hin as -> ->. congruence.
    + exists (path, s). split; [by left|done].
  - rewrite leaves_map. by apply walk_fields_reads.
  - simpl. generalize 0%N. revert out. induction IH as [|v items Hv _ IHl]; intros out i; simpl; [apply reads_none|].
    apply reads_seq; [by apply walk_if_reads|]. intros out'. apply IHl.
Qed.

(** ** The references of a config *)

Lemma dedup_raw_from_elem l : forall prev r,
  (r ∈ dedup_raw_from prev l -> r ∈ l) /\ (r ∈ l -> d_raw r = prev \/ exists r', r' ∈ dedup_raw_from prev l /\ d_raw r' = d_raw r).
Proof.
  induction l as [|x l IH]; intros prev r; [set_solver|]. simpl. case_decide as Hx.
  - destruct (IH prev r) as [IH1 IH2]. split; [set_solver|]. intros [->|H]%elem_of_cons; [by left|auto].
  - destruct (IH (d_raw x) r) as [IH1 IH2]. split; [set_solver|]. intros [->|H]%elem_of_cons; right.
    + exists x. split; [by left|done].
    + destruct (IH2 H) as [Heq|(r' & Hr' & Heq)]; [exists x|exists r']; split; try done; by constructor.
Qed.

Lemma dedup_raw_elem l r :
  (r ∈ dedup_raw l -> r ∈ l) /\ (r ∈ l -> exists r', r' ∈ dedup_raw l /\ d_raw r' = d_raw r).
Proof.
  destruct l as [|x l]; [set_solver|]. simpl. destruct (dedup_raw_from_elem l (d_raw x) r) as [H1 H2].
  split; [set_solver|]. intros [->|H]%elem_of_cons.
  - exists x. split; [by left|done].
  - destruct (H2 H) as [Heq|(r' & Hr' & Heq)]; [exists x|exists r']; split; try done; by constructor.
Qed.

Lemma dedup_raw_from_nodup l : forall prev, StronglySorted (fun a b => raw_leb a b = true) l ->
  Forall (fun r => d_raw r = prev \/ str_lt prev (d_raw r)) l -> NoDup (prev :: (d_raw <$> dedup_raw_from prev l)).
Proof.
  induction l as [|x l IH]; intros prev Hs Hp; [apply NoDup_singleton|].
  apply StronglySorted_inv in Hs as [Hs Hx]. apply Forall_cons in Hp as [Hpx Hp]. simpl. case_decide as Hd; [by apply IH|].
  destruct Hpx as [?|Hlt]; [done|]. rewrite fmap_cons.
  assert (Hx' : Forall (fun r => d_raw r = d_raw x \/ str_lt (d_raw x) (d_raw r)) l).
  { eapply Forall_impl; [exact Hx|]. intros r Hr. apply str_key_leb_lt in Hr as [Hr|Hr]; [left; by rewrite Hr|by right]. }
  apply NoDup_cons. split; [|by apply IH]. intros [Heq|Hin]%elem_of_cons; [congruence|].
  apply list_elem_of_fmap in Hin as (r & -> & Hr). apply (proj1 (dedup_raw_from_elem _ _ _)) in Hr. rewrite Forall_forall in Hx'.
  apply (str_lt_irrefl (d_raw r)). destruct (Hx' r Hr) as [Heq|Hlt']; [by rewrite Heq at 2|by eapply str_lt_trans].
Qed.

Lemma dedup_raw_nodup l : StronglySorted (fun a b => raw_leb a b = true) l -> NoDup (d_raw <$> dedup_raw l).
Proof.
  destruct l as [|x l]; [constructor|]. intros [Hs Hx]%StronglySorted_inv.
  apply dedup_raw_from_nodup; [done|]. eapply Forall_impl; [exact Hx|]. intros r Hr.
  apply str_key_leb_lt in Hr as [Hr|Hr]; [left; by rewrite Hr|by right].
Qed.

Lemma producer_of_det rs ps ps' : Forall2 producer_of rs ps -> Forall2 producer_of rs ps' -> ps = ps'.
Proof.
  intros H. revert ps'. induction H as [|r p rs ps [Hp Hk] _ IH]; intros ps' H'; inversion H' as [|? p' ? ps'' [Hp' Hk']]; subst; [done|].
  f_equal; [|auto]. destruct p as [k a], p' as [k' a']. simpl in *. rewrite Hp in Hp'. congruence.
Qed.

Lemma parse_refs_same s path path' r r' : parse_refs pkg s path = Ok (Some r) -> parse_refs pkg s path' = Ok (Some r') ->
  producers r = producers r'.
Proof.
  intros H H'. pose proof (parse_refs_spec s path) as Hs. pose proof (parse_refs_spec s path') as Hs'.
  rewrite H in Hs. rewrite H' in Hs'. destruct Hs as (_ & _ & _ & ps & Hp & Hps), Hs' as (_ & _ & _ & ps' & Hp' & Hps').
  rewrite Hp in Hp'. injection Hp' as <-. by eapply producer_of_det.
Qed.

Lemma collect_spec config :
  match collect pkg config with
  | Ok refs => Forall (fun l => names_ok l.2) (config_leaves config) /\ NoDup (d_raw <$> refs) /\
      (forall r, r ∈ refs -> exists path, (path, d_raw r) ∈ config_leaves config /\ parse_refs pkg (d_raw r) path = Ok (Some r)) /\
      (forall path s r, (path, s) ∈ config_leaves config -> parse_refs pkg s path = Ok (Some r) ->
         exists r', r' ∈ refs /\ d_raw r' = s /\ producers r' = producers r)
  | Err _ => exists l, l ∈ config_leaves config /\ ~ names_ok l.2
  end.
Proof.
  unfold collect. destruct (existsb (fun kv => any_ref kv.2) config) eqn:Ea; simpl.
  - pose proof (walk_fields_reads id config ltac:(apply Forall_forall; intros ? _ ??; apply walk_reads) []) as H.
    destruct (walk_fields _ _ _) as [out|e]; simpl; [|done]. destruct H as (Hok & l & -> & Hl). rewrite app_nil_l.
    assert (Hraw : forall path s r, parse_refs pkg s path = Ok (Some r) -> d_raw r = s).
    { intros path s r Hp. pose proof (parse_refs_spec s path) as Hs. rewrite Hp in Hs. naive_solver. }
    split; [done|]. split; [apply dedup_raw_nodup, str_key_sorted|]. split.
    + intros r Hr. apply (proj1 (dedup_raw_elem _ _)) in Hr. rewrite sort_by_elem, Hl in Hr. destruct Hr as (path & s & Hin & Hp).
      exists path. by rewrite (Hraw _ _ _ Hp).
    + intros path s r Hin Hp. destruct (dedup_raw_elem (sort_by raw_leb l) r) as [_ H].
      destruct H as (r' & Hr' & Heq); [rewrite sort_by_elem, Hl; by exists path, s|].
      exists r'. split; [done|]. rewrite Heq. split; [by eapply Hraw|]. apply (proj1 (dedup_raw_elem _ _)) in Hr'. rewrite sort_by_elem, Hl in Hr'.
      destruct Hr' as (path' & s' & _ & Hp'). assert (s' = s) as -> by by rewrite <- (Hraw _ _ _ Hp'), Heq, (Hraw _ _ _ Hp).
      by eapply parse_refs_same.
  - assert (Hn : Forall (fun l => has_ref l.2 = false) (config_leaves config)).
    { unfold config_leaves. induction config as [|[k v] m IH]; [constructor|]. simpl in *. apply orb_false_iff in Ea as [H1 H2].
      apply Forall_app. auto using leaves_any_ref. }
    pose proof (reads_unread [] _ Hn) as (Hok & l & Hl & Hr). split; [done|]. split; [constructor|]. split; [set_solver|].
    intros path s r Hin Hp. exfalso. destruct l; [|done]. apply (not_elem_of_nil r), Hr. eauto.
Qed.
End collect_lemmas.

(** ** The edges of a config *)

(** The cell an input is in: what it names, and whether it is staged. *)
Definition input_cell (i : Input) : str * bool := (display (input_ref i), runtime i).

Definition pushed (via : option Addr) (done : list (DeferredRef * Producer)) (st : list (str * bool) * list Input) : Prop :=
  (forall c, c ∈ st.1 <-> c ∈ input_cell <$> st.2) /\ NoDup (input_cell <$> st.2) /\
  (forall i, i ∈ st.2 -> exists r p, (r, p) ∈ done /\ i = edge via r p) /\
  (forall r p, (r, p) ∈ done -> cell p ∈ input_cell <$> st.2).

Lemma push_edge_pushed via done st r p : pushed via done st -> pushed via (done ++ [(r, p)]) (push_edge via r st p).
Proof.
  intros (H1 & H2 & H3 & H4). unfold push_edge. case_decide as Hc.
  - split_and!; [done..| |].
    + intros i Hi. destruct (H3 i Hi) as (r' & p' & Hin & ->). exists r', p'. split; [set_solver|done].
    + intros r' p' [Hin|[= -> ->]%list_elem_of_singleton]%elem_of_app; [by eapply H4|by apply H1].
  - unfold pushed. cbn [fst snd]. rewrite fmap_app. change (input_cell <$> [edge via r p]) with [cell p].
    rewrite H1 in Hc. split_and!.
    + intros c. rewrite elem_of_cons, elem_of_app, list_elem_of_singleton, H1. naive_solver.
    + apply NoDup_app. split; [done|]. split; [|apply NoDup_singleton]. intros c Hin ->%list_elem_of_singleton. done.
    + intros i [Hi| ->%list_elem_of_singleton]%elem_of_app.
      * destruct (H3 i Hi) as (r' & p' & Hin & ->). exists r', p'. split; [set_solver|done].
      * exists r, p. split; [set_solver|done].
    + intros r' p' [Hin|[= -> ->]%list_elem_of_singleton]%elem_of_app; [|set_solver].
      apply elem_of_app. left. by eapply H4.
Qed.

Lemma push_edges_pushed via r ps : forall done st, pushed via done st ->
  pushed via (done ++ (pair r <$> ps)) (foldl (push_edge via r) st ps).
Proof.
  induction ps as [|p ps IH]; intros done st H; simpl; [by rewrite app_nil_r|].
  apply (push_edge_pushed _ _ _ r p) in H. apply IH in H. by rewrite <- app_assoc in H.
Qed.

Definition named_by (refs : list DeferredRef) : list (DeferredRef * Producer) :=
  concat ((fun r => pair r <$> producers r) <$> refs).

Lemma inputs_pushed via refs :
  pushed via (named_by refs) (foldl (fun st r => foldl (push_edge via r) st (producers r)) ([], []) refs).
Proof.
  assert (H : forall done st, pushed via done st ->
    pushed via (done ++ named_by refs) (foldl (fun st r => foldl (push_edge via r) st (producers r)) st refs)).
  { unfold named_by. induction refs as [|r refs IH]; intros done st H; simpl; [by rewrite app_nil_r|].
    apply (push_edges_pushed _ r (producers r)) in H. apply IH in H. by rewrite <- app_assoc in H. }
  apply (H [] ([], [])). split_and!; set_solver by constructor.
Qed.

Lemma named_by_elem refs r p : (r, p) ∈ named_by refs <-> r ∈ refs /\ p ∈ producers r.
Proof.
  unfold named_by. induction refs as [|r' refs IH]; simpl; [set_solver|]. rewrite elem_of_app, IH, elem_of_cons, list_elem_of_fmap.
  naive_solver.
Qed.

Section edges.
Context {nom : Nom} (pkg : PkgBuf).

(** Every reference of a text that [parse_refs] reads names a producer, and every
    producer comes from a reference. *)
Lemma producer_of_ref s path r pieces : parse_refs pkg s path = Ok (Some r) -> Template.parse s = Ok pieces ->
  (forall t, t ∈ omap named pieces -> exists p, p ∈ producers r /\ producer_of pkg t p) /\
  (forall p, p ∈ producers r -> exists t, t ∈ omap named pieces /\ producer_of pkg t p).
Proof.
  intros H Hp. pose proof (parse_refs_spec pkg s path) as Hs. rewrite H in Hs.
  destruct Hs as (_ & _ & _ & pieces' & Hp' & Hps). rewrite Hp in Hp'. injection Hp' as <-. split.
  - intros t [i Hi]%list_elem_of_lookup. destruct (Forall2_lookup_l _ _ _ _ _ Hps Hi) as (p & Hpi & Ho).
    exists p. split; [by eapply list_elem_of_lookup_2|done].
  - intros p [i Hi]%list_elem_of_lookup. destruct (Forall2_lookup_r _ _ _ _ _ Hps Hi) as (t & Hti & Ho).
    exists t. split; [by eapply list_elem_of_lookup_2|done].
Qed.

Lemma named_parse s path pieces t : Template.parse s = Ok pieces -> names_ok pkg s -> t ∈ omap named pieces ->
  exists r, parse_refs pkg s path = Ok (Some r).
Proof.
  intros Hp Hok Ht. pose proof (parse_refs_spec pkg s path) as Hs. destruct (parse_refs pkg s path) as [[r|]|e]; [by exists r| |done].
  destruct Hs as [_ Hs]. rewrite (Hs _ Hp) in Ht. by apply elem_of_nil in Ht.
Qed.
End edges.

(** C24: every reference in a config is an edge of the target, of the kind it asks for, and
    there are no other edges: when [collect] answers, every [${read://..}] or
    [${src://..}] in a text of the config, however deep, names an address, and
    [inputs_for_labelled] has an input for that address which is hashed, staged exactly
    when the reference is a [src], and marked then as one whose tools, dependencies and
    environment are not inherited; every input it has comes from such a reference and
    says where it was found; no address has two inputs of a kind. [collect] answers
    exactly when every text can be read. *)
Theorem deferred_edges_exact {nom : Nom} pkg config via :
  (is_ok (collect pkg config) = true <-> Forall (fun l => names_ok pkg l.2) (config_leaves config)) /\
  forall refs, collect pkg config = Ok refs -> let ins := inputs_for_labelled refs via in
    (forall path s pieces t, (path, s) ∈ config_leaves config -> Template.parse s = Ok pieces -> t ∈ omap named pieces ->
       exists addr i, TargetRef.parse (arg t) pkg = Ok addr /\ i ∈ ins /\ display (input_ref i) = display addr /\
         hashed i = true /\ runtime i = bool_decide (kind t = Some SRC_KIND)) /\
    (forall i, i ∈ ins -> exists path s pieces t, (path, s) ∈ config_leaves config /\ Template.parse s = Ok pieces /\
       t ∈ omap named pieces /\ TargetRef.parse (arg t) pkg = Ok (input_ref i) /\ hashed i = true /\
       runtime i = bool_decide (kind t = Some SRC_KIND) /\
       annotations i = (if runtime i then {[ DEFERRED_SRC_ANNOTATION := [] ]} else ∅) /\
       exists p r, i = edge via r p /\ d_path r = path) /\
    NoDup (input_cell <$> ins).
Proof.
  pose proof (collect_spec pkg config) as Hc. split.
  { destruct (collect pkg config) as [refs|e]; simpl; [by destruct Hc|]. split; [done|]. destruct Hc as (l & Hin & Hn).
    rewrite Forall_forall. intros H. by apply H in Hin. }
  intros refs Hr ins. rewrite Hr in Hc. destruct Hc as (Hok & _ & Hfrom & Hall). rewrite Forall_forall in Hok.
  destruct (inputs_pushed via refs) as (_ & Hnd & Hedge & Hcell). fold (inputs_for_labelled refs via) in *. split_and!; [| |exact Hnd].
  - intros path s pieces t Hin Hp Ht. destruct (named_parse pkg s path pieces t Hp (Hok _ Hin) Ht) as [r Hpr].
    destruct (producer_of_ref pkg _ _ _ _ Hpr Hp) as [Ho _]. destruct (Ho t Ht) as (p & Hpin & Hpa & Hpk).
    destruct (Hall _ _ _ Hin Hpr) as (r' & Hr' & _ & Hps). rewrite <- Hps in Hpin.
    assert (Hci : cell p ∈ input_cell <$> ins) by (eapply Hcell, named_by_elem; eauto).
    apply list_elem_of_fmap in Hci as (i & Hi & Hini). exists (p_addr p), i. unfold cell, input_cell in Hi. injection Hi as Hi1 Hi2.
    split_and!; [done..| |].
    + by destruct (Hedge i Hini) as (? & ? & _ & ->).
    + rewrite <- Hi2. unfold is_src. rewrite Hpk. by case_bool_decide.
  - intros i Hi. destruct (Hedge i Hi) as (r & p & Hnp & ->). apply named_by_elem in Hnp as [Hrin Hpin].
    destruct (Hfrom r Hrin) as (path & Hin & Hpr). pose proof (parse_refs_spec pkg (d_raw r) path) as Hs. rewrite Hpr in Hs.
    destruct Hs as (_ & _ & Hpath & pieces & Hp & _). destruct (producer_of_ref pkg _ _ _ _ Hpr Hp) as [_ Ho].
    destruct (Ho p Hpin) as (t & Ht & Hpa & Hpk). exists path, (d_raw r), pieces, t.
    assert (Hsrc : is_src p = bool_decide (kind t = Some SRC_KIND)) by (unfold is_src; rewrite Hpk; by case_bool_decide).
    split_and!; try done. exists p, r. done.
Qed.

(** ** The list files *)

Section stage_lemmas.
Context {C E : Type} (unpack : C -> list str -> result E (list str)) (sandbox_dir ws_dir list_dir : str).
Abbreviation root_of input := (resolve_unpack_root input sandbox_dir ws_dir) (only parsing).
Abbreviation stage_from := (stage_inputs unpack sandbox_dir ws_dir list_dir).

Lemma list_path_for_inj (a b : RunInput C) p : list_path_for a list_dir = Some p -> list_path_for b list_dir = Some p ->
  ri_origin_id a = ri_origin_id b.
Proof.
  unfold list_path_for, join_path. destruct (ri_type a), (ri_type b); try done. intros [= <-] [= H].
  rewrite !app_inv_head_iff in H. injection H as H. by rewrite app_inv_tail_iff in H.
Qed.

Lemma stage_inputs_of ins : forall files ms files', stage_from ins files = Ok (ms, files') ->
  m_input <$> ms = ins /\ Forall (fun m => m_list_path m = list_path_for (m_input m) list_dir) ms.
Proof.
  induction ins as [|i ins IH]; intros files ms files' H; simpl in H; [by injection H as <- <-|].
  ok_inv. destruct x0 as [ms' files'']. injection H as <- <-. apply IH in H1 as [<- Hl]. split; [done|]. by constructor.
Qed.

(** A list file has the lines of the inputs of its origin, in order. *)
Lemma stage_inputs_files ins p : forall files ms files', stage_from ins files = Ok (ms, files') ->
  (forall i, i ∈ ins -> list_path_for i list_dir <> Some p) -> files' !! p = files !! p.
Proof.
  induction ins as [|i ins IH]; intros files ms files' H Hn; simpl in H; [by injection H as <- <-|].
  ok_inv. destruct x0 as [ms' files'']. injection H as <- <-. apply IH in H1; [|set_solver]. rewrite H1. unfold append_list.
  destruct (list_path_for i list_dir) eqn:Ei; [|done]. rewrite lookup_insert_ne; [done|]. intros ->. apply (Hn i); [by left|done].
Qed.

Lemma stage_inputs_one ins p input entries : forall files ms files', stage_from ins files = Ok (ms, files') ->
  filter (fun i => list_path_for i list_dir = Some p) ins = [input] -> unpack (ri_content input) (ri_filters input) = Ok entries ->
  files !! p = None -> files' !! p = Some (concat ((fun e => join_path (root_of input) e ++ [newline]) <$> entries)).
Proof.
  induction ins as [|i ins IH]; intros files ms files' H Hf Hu Hp; [done|]. simpl in H.
  ok_inv. destruct x0 as [ms' files'']. injection H as <- <-. rewrite filter_cons in Hf. case_decide as Hi.
  - injection Hf as <- Hf. rewrite Hu in H0. injection H0 as <-. rewrite (stage_inputs_files _ _ _ _ _ H1).
    + unfold append_list. rewrite Hi, lookup_insert_eq, Hp. done.
    + intros j Hj Hpj. apply (not_elem_of_nil j). rewrite <- Hf. apply list_elem_of_filter. done.
  - eapply IH; [exact H1|done..|]. unfold append_list. destruct (list_path_for i list_dir) as [q|] eqn:Eq; [|done].
    by rewrite lookup_insert_ne by congruence.
Qed.

(** A path that is a line of its own. *)
Definition plain_path (path : str) : Prop := (newline ∉ path) /\ ends_with [cr] path = false.

Lemma lines_plain path : plain_path path -> lines (path ++ [newline]) = [path].
Proof.
  intros [Hn He]. unfold lines. assert (H : forall cur, lines_from cur (path ++ [newline]) = [strip_cr (cur ++ path)]).
  { clear He. induction path as [|c r IH]; intros cur; simpl; [by rewrite app_nil_r|]. apply not_elem_of_cons in Hn as [Hc Hn].
    rewrite (proj2 (N.eqb_neq c newline)) by done. rewrite IH by done. by rewrite <- app_assoc. }
  rewrite H, app_nil_l. unfold strip_cr, ends_with in *. by destruct (strip_suffix [cr] path).
Qed.

Lemma root_leb_total (a b : RunInput C) : root_leb sandbox_dir ws_dir a b = false -> root_leb sandbox_dir ws_dir b a = true.
Proof. unfold root_leb. rewrite (lex_compare_antisym (path_components (root_of a))). by destruct (lex_compare _ _). Qed.
Lemma root_leb_trans (a b c : RunInput C) :
  root_leb sandbox_dir ws_dir a b = true -> root_leb sandbox_dir ws_dir b c = true -> root_leb sandbox_dir ws_dir a c = true.
Proof.
  unfold root_leb. intros Hab Hbc. pose proof (lex_le_trans (path_components (root_of a)) (path_components (root_of b))
    (path_components (root_of c))) as Ht. unfold lex_le in Ht.
  destruct (lex_compare (path_components (root_of a)) _), (lex_compare (path_components (root_of b)) _),
    (lex_compare (path_components (root_of a)) _); try done; exfalso; by apply Ht.
Qed.

(** Inputs unpacked in one directory keep their order. *)
Lemma stage_order (P : RunInput C -> Prop) `{!forall i, Decision (P i)} ins : (forall i, i ∈ ins -> P i -> root_of i = ws_dir) ->
  filter P (sort_by (root_leb sandbox_dir ws_dir) ins) = filter P ins.
Proof.
  intros HR. destruct (filter P ins) as [|z l] eqn:EF.
  - destruct (filter P (sort_by _ ins)) as [|x l] eqn:EF'; [done|]. exfalso. apply (not_elem_of_nil x). rewrite <- EF.
    assert (Hx : x ∈ filter P (sort_by (root_leb sandbox_dir ws_dir) ins)) by (rewrite EF'; by left).
    apply list_elem_of_filter in Hx as [HP Hx]. apply list_elem_of_filter. by rewrite sort_by_elem in Hx.
  - rewrite <- EF. assert (Hz : z ∈ filter P ins) by (rewrite EF; by left). apply list_elem_of_filter in Hz as [HPz Hz].
    pose proof (sort_by_stable (root_leb sandbox_dir ws_dir) root_leb_trans z ins) as Hs.
    assert (Hf : forall l : list (RunInput C), (forall i, i ∈ l -> i ∈ ins) ->
      filter P l = filter P (List.filter (Sorts.same (root_leb sandbox_dir ws_dir) z) l)).
    { clear -HR HPz Hz. induction l as [|i l IH]; intros Hl; [done|]. simpl. rewrite filter_cons. case_decide as Hi.
      - assert (Hr : Sorts.same (root_leb sandbox_dir ws_dir) z i = true).
        { unfold Sorts.same, root_leb. rewrite (HR z Hz HPz), (HR i (Hl i ltac:(by left)) Hi). by rewrite lex_compare_refl. }
        rewrite Hr, filter_cons_True by done. f_equal. apply IH. set_solver.
      - destruct (Sorts.same _ z i); rewrite ?filter_cons_False by done; apply IH; set_solver. }
    rewrite Hf, Hs, <- Hf; [done..|]. intros i. by rewrite sort_by_elem.
Qed.

(** The path of an origin whose artifact has one file, whatever support files come with it. *)
Lemma staged_path_one (no_such_file : E) ins ms files o arg input sup entry :
  stage unpack sandbox_dir ws_dir list_dir ins = Ok (ms, files) ->
  filter (fun i => ri_origin_id i = o) ins = input :: sup -> ri_type input = Dep -> Forall (fun i => ri_type i = Support) sup ->
  ri_annotations input !! $"unpack_root" = None ->
  unpack (ri_content input) (ri_filters input) = Ok [entry] -> plain_path (join_path ws_dir entry) ->
  staged_path no_such_file files ms o arg = Ok (join_path ws_dir entry).
Proof.
  intros Hs Hf Ht Hsup Ha Hu Hp. unfold stage in Hs. set (l := sort_by _ ins) in Hs.
  assert (Hroot : root_of input = ws_dir) by (unfold resolve_unpack_root; by rewrite Ht, Ha).
  assert (Hfl : filter (fun i => ri_origin_id i = o) l = input :: sup).
  { rewrite <- Hf. apply stage_order. intros i Hi Ho.
    assert (Hin : i ∈ filter (fun i => ri_origin_id i = o) ins) by by apply list_elem_of_filter.
    rewrite Hf in Hin. apply elem_of_cons in Hin as [->|Hin]; [done|]. rewrite Forall_forall in Hsup.
    unfold resolve_unpack_root. by rewrite Hsup. }
  assert (Ho : ri_origin_id input = o).
  { apply (list_elem_of_filter (fun i => ri_origin_id i = o) l). rewrite Hfl. by left. }
  pose proof (stage_inputs_of _ _ _ _ Hs) as [Hm Hlp].
  assert (Hpath : list_path_for input list_dir = Some (join_path list_dir ($"input_" ++ o ++ $".list"))).
  { unfold list_path_for. by rewrite Ht, Ho. }
  assert (Hfiles := stage_inputs_one l (join_path list_dir ($"input_" ++ o ++ $".list")) input [entry] _ _ _ Hs).
  rewrite Hroot in Hfiles. simpl in Hfiles. unfold staged_path.
  assert (Hfind : exists m, List.find (fun m => bool_decide (ri_origin_id (m_input m) = o)) ms = Some m /\ m_input m = input /\ m ∈ ms).
  { clear -Hm Hfl. rewrite <- Hm in Hfl. clear Hm. induction ms as [|m ms IH]; [done|]. simpl. rewrite fmap_cons, filter_cons in Hfl.
    case_decide; [rewrite bool_decide_true by done|rewrite bool_decide_false by done].
    - injection Hfl as <- _. exists m. split; [done|]. split; [done|by left].
    - destruct (IH Hfl) as (m' & ? & ? & ?). exists m'. split; [done|]. split; [done|by right]. }
  destruct Hfind as (m & -> & Hmi & Hmin). rewrite Forall_forall in Hlp. simpl. unfold require_list_path.
  rewrite (Hlp m Hmin), Hmi, Hpath. simpl. rewrite Hfiles; [|clear -Hfl Hpath Ho Hsup|done|done].
  - rewrite app_nil_r. simpl. rewrite lines_plain by done. simpl. rewrite bool_decide_false; [done|].
    unfold join_path. by destruct ws_dir.
  - etrans; [symmetry; apply (list_filter_filter_l _ (fun i => ri_origin_id i = o))|].
    + intros i Hi. rewrite <- Ho. symmetry. by eapply list_path_for_inj.
    + rewrite Hfl, filter_cons_True by done. f_equal. clear Hfl. induction Hsup as [|i sup Hi _ IH]; [done|]. rewrite filter_cons_False; [done|].
      unfold list_path_for. by rewrite Hi.
Qed.
End stage_lemmas.

(** ** What is written into a field *)

(** Two resolvers that give the same text for what is claimed substitute the same. *)
Lemma substitute_agree {E1 E2} (res1 : Ref -> result E1 str) (res2 : Ref -> result E2 str) want1 want2 s pieces :
  Template.parse s = Ok pieces ->
  (forall t, PRef t ∈ pieces -> claims (kind t) (arg t) want1 = claims (kind t) (arg t) want2) ->
  (forall t, PRef t ∈ pieces -> claims (kind t) (arg t) want1 = true -> exists v, res1 t = Ok v /\ res2 t = Ok v) ->
  exists v, substitute res1 s want1 = Ok v /\ substitute res2 s want2 = Ok v.
Proof.
  intros Hp Hw Hr. assert (H : exists vs,
    Forall2 (fun p v => if is_claimed want1 p then exists t, p = PRef t /\ res1 t = Ok v else v = piece_raw p) pieces vs /\
    Forall2 (fun p v => if is_claimed want2 p then exists t, p = PRef t /\ res2 t = Ok v else v = piece_raw p) pieces vs).
  { clear Hp. induction pieces as [|p pieces IH]; [by exists []|]. destruct IH as (vs & H1 & H2); [set_solver..|].
    destruct p as [t| |t]; [by exists (t :: vs); split; constructor|by eexists (_ :: vs); split; constructor|].
    pose proof (Hw t ltac:(by left)) as Hwt. destruct (claims (kind t) (arg t) want1) eqn:Ec.
    - destruct (Hr t ltac:(by left) Ec) as (v & Hv1 & Hv2). exists (v :: vs).
      split; constructor; try done; simpl; [rewrite Ec|rewrite <- Hwt]; eauto.
    - exists (raw t :: vs). split; constructor; try done; simpl; [by rewrite Ec|by rewrite <- Hwt]. }
  destruct H as (vs & H1 & H2). exists (concat vs). split; apply substitute_spec; eauto.
Qed.

Section render_lemmas.
Context {nom : Nom} {E : Type} (read_value : TargetAddr -> result E str).
Hypothesis read_by_text : forall t t', display t = display t' -> read_value t = read_value t'.

(** The values that were read are those of what is named. *)
Definition read_ok (by_addr : gmap str str) : Prop :=
  forall k v, by_addr !! k = Some v -> forall t, display t = k -> read_value t = Ok v.

Lemma read_producers_spec ps : forall by_addr by_addr', read_producers read_value ps by_addr = Ok by_addr' -> read_ok by_addr ->
  read_ok by_addr' /\ by_addr ⊆ by_addr' /\ forall p, p ∈ ps -> is_read p = true -> is_Some (by_addr' !! display (p_addr p)).
Proof.
  induction ps as [|p ps IH]; intros by_addr by_addr' H Hok; simpl in H; [injection H as <-; set_solver|].
  destruct (is_read p) eqn:Er; simpl in H.
  - destruct (by_addr !! display (p_addr p)) as [v|] eqn:El.
    + apply IH in H as (H1 & H2 & H3); [|done]. split_and!; [done..|]. intros q [->|Hq]%elem_of_cons Hr; [|auto].
      exists v. by eapply lookup_weaken.
    + ok_inv. apply IH in H as (H1 & H2 & H3).
      * split_and!; [done|by etrans; [apply insert_subseteq|]|]. intros q [->|Hq]%elem_of_cons Hr; [|auto].
        exists x. eapply lookup_weaken; [|done]. apply lookup_insert_eq.
      * intros k v [[<- <-]|[_ Hk]]%lookup_insert_Some; [|by apply Hok]. intros t Ht. by rewrite (read_by_text _ _ Ht).
  - apply IH in H as (H1 & H2 & H3); [|done]. split_and!; [done..|]. intros q [->|Hq]%elem_of_cons Hr; [by rewrite Er in Hr|auto].
Qed.

Lemma read_deferred_spec refs by_addr : read_deferred read_value refs = Ok by_addr ->
  read_ok by_addr /\ forall r p, r ∈ refs -> p ∈ producers r -> is_read p = true -> is_Some (by_addr !! display (p_addr p)).
Proof.
  intros H. assert (Hd : deferred_values read_value refs ∅ = Ok by_addr) by by destruct refs.
  clear H. assert (Hok : read_ok ∅) by by intros ? ? ?%lookup_empty_Some. revert Hok Hd. generalize (∅ : gmap str str).
  induction refs as [|r refs IH]; intros m Hok Hd; simpl in Hd; [injection Hd as <-; set_solver|].
  ok_inv. apply read_producers_spec in H as (H1 & H2 & H3); [|done]. assert (Hsub : x ⊆ by_addr).
  { clear -Hd H1 read_by_text. revert x H1 Hd. induction refs as [|r refs IH]; intros x Hok Hd; simpl in Hd; [by injection Hd as <-|].
    ok_inv. apply read_producers_spec in H as (H1 & H2 & _); [|done]. etrans; [exact H2|by apply IH]. }
  apply IH in Hd as [Ho Hd]; [|done]. split; [done|]. intros r' p [->|Hr]%elem_of_cons Hp Hrd; [|by eapply Hd].
  destruct (H3 p Hp Hrd) as [v Hv]. exists v. by eapply lookup_weaken.
Qed.
End render_lemmas.

Lemma collect_map_lookup (f : str -> str) l k : (forall kv, kv ∈ l -> kv.2 = f kv.1) ->
  collect_map l !! k = if bool_decide (k ∈ l.*1) then Some (f k) else None.
Proof.
  intros Hf. unfold collect_map. induction l as [|[k' v] l IH] using rev_ind; [done|].
  rewrite foldl_app, fmap_app. simpl. pose proof (Hf (k', v) ltac:(set_solver)) as Hv. simpl in Hv. subst v.
  destruct (decide (k' = k)) as [->|Hne].
  - rewrite lookup_insert_eq, bool_decide_true by set_solver. done.
  - rewrite lookup_insert_ne, IH by set_solver. erewrite bool_decide_ext; [done|]. set_solver.
Qed.

Lemma render_deferred_spec {nom : Nom} {E} pkg by_addr allotment refs : forall values values',
  render_deferred (E := E) pkg refs by_addr allotment values = Ok values' -> NoDup (d_raw <$> refs) ->
  (forall k, k ∉ d_raw <$> refs -> values' !! k = values !! k) /\
  forall r, r ∈ refs ->
    if needs_sandbox r then values' !! d_raw r = Some (NeedsSandbox (reads_of r by_addr) (srcs_of r))
    else exists v, values' !! d_raw r = Some (Ready v) /\
           substitute (resolve_read (E := E) pkg by_addr allotment) (d_raw r) [READ_KIND; RESOURCE_KIND] = Ok v.
Proof.
  induction refs as [|r refs IH]; intros values values' H Hn; simpl in H; [injection H as <-; set_solver|].
  rewrite fmap_cons in Hn. apply NoDup_cons in Hn as [Hr Hn]. destruct (needs_sandbox r) eqn:En.
  - apply IH in H as [H1 H2]; [|done]. split.
    + intros k Hk. rewrite fmap_cons in Hk. apply not_elem_of_cons in Hk as [Hk1 Hk2]. by rewrite H1, lookup_insert_ne.
    + intros r' [->|Hr']%elem_of_cons; [|by apply H2]. by rewrite En, H1, lookup_insert_eq.
  - ok_inv. apply IH in H as [H1 H2]; [|done]. split.
    + intros k Hk. rewrite fmap_cons in Hk. apply not_elem_of_cons in Hk as [Hk1 Hk2]. by rewrite H1, lookup_insert_ne.
    + intros r' [->|Hr']%elem_of_cons; [|by apply H2]. rewrite En, H1, lookup_insert_eq by done. eauto.
Qed.

(** What a field means: every reference replaced by what it names. *)
Definition meaning {nom : Nom} {E} (pkg : PkgBuf) (read_value : TargetAddr -> result E str) (path_of : TargetAddr -> str)
    (allotment : list (str * str)) (t : Ref) : result unit str :=
  if bool_decide (kind t = Some RESOURCE_KIND) then Ok (default (raw t) (bt_get (arg t) allotment))
  else
    match TargetRef.parse (arg t) pkg with
    | Err _ => Err ()
    | Ok addr => if bool_decide (kind t = Some SRC_KIND) then Ok (path_of addr)
                 else match read_value addr with Ok v => Ok v | Err _ => Err () end
    end.

(** A field whose [src] references can be told apart: they all name one target, spelled as
    it is displayed, which the field does not also read, and which no other field asks the
    path of. *)
Record lone_src {nom : Nom} (pkg : PkgBuf) (refs : list DeferredRef) (r : DeferredRef) : Prop := {
  spelled : forall pieces t addr, Template.parse (d_raw r) = Ok pieces -> t ∈ omap named pieces ->
    TargetRef.parse (arg t) pkg = Ok addr -> display addr = arg t;
  one_target : forall p p', p ∈ producers r -> p' ∈ producers r -> is_src p = true -> is_src p' = true -> p_addr p = p_addr p';
  not_read : forall p p', p ∈ producers r -> p' ∈ producers r -> is_src p = true -> display (p_addr p') = display (p_addr p) ->
    is_src p' = true;
  one_field : forall r' p p', r' ∈ refs -> r' <> r -> p ∈ producers r -> p' ∈ producers r' -> is_src p = true -> is_src p' = true ->
    display (p_addr p) <> display (p_addr p') /\ d_path r <> d_path r'
}.

(** A target whose selected outputs are one artifact with one file, at the path said. *)
Definition one_file {C E} (produce : TargetAddr -> list C * list C) (unpack : C -> list str -> result E (list str))
    (ws_dir : str) (path_of : TargetAddr -> str) (addr : TargetAddr) : Prop :=
  exists art entry, (produce addr).1 = [art] /\ unpack art (filters addr) = Ok [entry] /\
    path_of addr = join_path ws_dir entry /\ plain_path (path_of addr).

Definition src_origin : str := DEFERRED_ORIGIN_PREFIX ++ $"|" ++ SRC_KIND ++ $"|".
#[local] Arguments src_origin : simpl never.

(** Of some lists, those of one element pass and no others. *)
Lemma filter_concat_one {A B} (f : A -> list B) (P : B -> Prop) `{!forall b, Decision (P b)} l x : NoDup l -> x ∈ l ->
  (forall y, y ∈ f x -> P y) -> (forall z, z ∈ l -> z <> x -> forall y, y ∈ f z -> ~ P y) -> filter P (concat (f <$> l)) = f x.
Proof.
  assert (Hall : forall l : list B, (forall y, y ∈ l -> P y) -> filter P l = l).
  { intros k. induction k as [|y k IH]; intros Hk; [done|]. rewrite filter_cons_True by (apply Hk; by left). f_equal. apply IH. set_solver. }
  assert (Hnone : forall l : list B, (forall y, y ∈ l -> ~ P y) -> filter P l = []).
  { intros k. induction k as [|y k IH]; intros Hk; [done|]. rewrite filter_cons_False by (apply Hk; by left). apply IH. set_solver. }
  intros Hn Hx HP HN. induction Hn as [|z l Hz Hn IH]; [by apply elem_of_nil in Hx|]. rewrite fmap_cons. simpl. rewrite filter_app.
  apply elem_of_cons in Hx as [->|Hx].
  - rewrite Hall by done. rewrite <- (app_nil_r (f z)) at 2. f_equal. apply Hnone. intros y Hy.
    apply list_elem_of_In, in_concat in Hy as (k & Hk%list_elem_of_In & Hy%list_elem_of_In).
    apply list_elem_of_fmap in Hk as (z' & -> & Hz'). apply (HN z'); [by right|congruence|done].
  - rewrite Hnone, IH; [done|done|set_solver|]. intros y Hy. apply (HN z); [by left|congruence|done].
Qed.

Section delivered.
Context {nom : Nom} {C E : Type} (pkg : PkgBuf) (refs : list DeferredRef) (produce : TargetAddr -> list C * list C)
  (before after : list (RunInput C)).
Hypothesis Hothers : forall i, i ∈ before ++ after -> starts_with src_origin (ri_origin_id i) = false.

Lemma src_origin_of r p : is_src p = true -> origin_id_for r p None = src_origin ++ d_path r.
Proof.
  intros Hp%bool_decide_eq_true. unfold origin_id_for, src_origin. by rewrite Hp, <- !app_assoc.
Qed.

Lemma run_inputs_origin i x : x ∈ run_inputs produce i -> ri_origin_id x = origin_id i.
Proof. unfold run_inputs. by intros [(? & -> & _)%list_elem_of_fmap|(? & -> & _)%list_elem_of_fmap]%elem_of_app. Qed.

(** What is staged for a lone [src] reference: the artifacts of its target, and no others. *)
Lemma staged_for r p : r ∈ refs -> lone_src pkg refs r -> p ∈ producers r -> is_src p = true ->
  filter (fun i => ri_origin_id i = origin_id_for r p None) (before ++ inputs_result_exec produce (inputs_for refs) ++ after) =
  run_inputs produce (edge None r p).
Proof.
  intros Hr Hl Hp Hs. destruct (inputs_pushed None refs) as (_ & Hnd & Hedge & Hcell). fold (inputs_for_labelled refs None) in *.
  set (o := origin_id_for r p None). rewrite !filter_app.
  assert (Ho : forall l, (forall i, i ∈ l -> starts_with src_origin (ri_origin_id i) = false) ->
    filter (fun i : RunInput C => ri_origin_id i = o) l = []).
  { intros l Hno. induction l as [|i l IH]; [done|]. rewrite filter_cons_False; [apply IH; set_solver|]. intros Hi.
    specialize (Hno i ltac:(by left)). rewrite Hi in Hno. unfold o in Hno. rewrite src_origin_of in Hno by done.
    assert (Ht : starts_with src_origin (src_origin ++ d_path r) = true) by (apply starts_with_true; eauto). congruence. }
  rewrite (Ho before), (Ho after), app_nil_r by set_solver. simpl. clear Ho Hothers before after.
  (* the edges of this origin *)
  assert (Hown : forall i, i ∈ inputs_for refs -> runtime i = true -> origin_id i = o -> i = edge None r p).
  { intros i Hi Hrun Hoi. destruct (Hedge i Hi) as (r' & p' & Hn & ->). apply named_by_elem in Hn as [Hr' Hp'].
    change (is_src p' = true) in Hrun. change (origin_id_for r' p' None = o) in Hoi. unfold o in Hoi.
    rewrite !src_origin_of, app_inv_head_iff in Hoi by done. destruct (decide (r' = r)) as [->|Hne].
    - f_equal. destruct p as [k a], p' as [k' a']. unfold is_src in *. simpl in *. apply bool_decide_eq_true in Hs, Hrun.
      f_equal; [congruence|]. eapply (one_target _ _ _ Hl (mkProducer k' a') (mkProducer k a)); try done; by apply bool_decide_eq_true.
    - exfalso. by destruct (one_field _ _ _ Hl r' p p' Hr' Hne Hp Hp' Hs Hrun). }
  assert (Hin : edge None r p ∈ inputs_for refs).
  { assert (Hc : cell p ∈ input_cell <$> inputs_for refs) by (eapply Hcell, named_by_elem; eauto).
    apply list_elem_of_fmap in Hc as (i & Hci & Hi). destruct (Hedge i Hi) as (r' & p' & Hn & ->).
    apply named_by_elem in Hn as [Hr' Hp']. injection Hci as Hd Hsp. rewrite Hs in Hsp. symmetry in Hsp. change (is_src p' = true) in Hsp.
    change (display (p_addr p) = display (p_addr p')) in Hd. destruct (decide (r' = r)) as [->|Hne].
    - replace p with p'; [done|]. destruct p as [k a], p' as [k' a']. unfold is_src in *. simpl in *. apply bool_decide_eq_true in Hs, Hsp.
      f_equal; [congruence|]. eapply (one_target _ _ _ Hl (mkProducer k' a') (mkProducer k a)); try done; by apply bool_decide_eq_true.
    - exfalso. by destruct (one_field _ _ _ Hl r' p p' Hr' Hne Hp Hp' Hs Hsp). }
  unfold inputs_result_exec. apply (filter_concat_one _ _ _ (edge None r p)).
  - apply NoDup_filter. by apply (NoDup_fmap_1 input_cell).
  - by apply list_elem_of_filter.
  - intros x Hx. by apply run_inputs_origin in Hx.
  - intros i Hi Hne x Hx. apply list_elem_of_filter in Hi as [Hrun Hi]. apply run_inputs_origin in Hx. rewrite Hx.
    intros Hio. by apply Hne, Hown.
Qed.
End delivered.

Lemma srcs_of_lookup r p : p ∈ producers r -> is_src p = true -> srcs_of r !! display (p_addr p) = Some (src_origin ++ d_path r).
Proof.
  intros Hp Hs. unfold srcs_of. rewrite (collect_map_lookup (fun _ => src_origin ++ d_path r)), bool_decide_true; [done| |].
  - apply list_elem_of_fmap. eexists (_, _). split; [done|]. apply list_elem_of_omap. exists p. split; [done|]. by rewrite Hs.
  - intros [k' v] (q & Hq & H)%list_elem_of_omap. destruct (is_src q) eqn:Es; [|done]. injection H as <- <-. by apply src_origin_of.
Qed.

Lemma reads_of_lookup r by_addr k :
  ((forall p, p ∈ producers r -> is_read p = true -> display (p_addr p) <> k) -> reads_of r by_addr !! k = None) /\
  (forall p v, p ∈ producers r -> is_read p = true -> display (p_addr p) = k -> by_addr !! k = Some v -> reads_of r by_addr !! k = Some v).
Proof.
  unfold reads_of. rewrite (collect_map_lookup (fun k => default [] (by_addr !! k))).
  - split.
    + intros Hn. rewrite bool_decide_false; [done|]. intros ([k' v] & -> & H)%list_elem_of_fmap; simpl in *.
      apply list_elem_of_omap in H as (q & Hq & H). destruct (is_read q) eqn:Es; [|done].
      apply fmap_Some in H as (v' & Hv & [= -> ->]). by apply (Hn q).
    + intros p v Hp Hs <- Hv. rewrite bool_decide_true; [by rewrite Hv|]. apply list_elem_of_fmap. eexists (_, v). split; [done|].
      apply list_elem_of_omap. exists p. split; [done|]. by rewrite Hs, Hv.
  - intros [k' v] (p & Hp & H)%list_elem_of_omap. destruct (is_read p) eqn:Es; [|done].
    apply fmap_Some in H as (v' & Hv & [= -> ->]). simpl. by rewrite Hv.
Qed.

Lemma claims_kinds k a : claims k a DEFERRED_KINDS = true -> k = Some SRC_KIND \/ k = Some RESOURCE_KIND \/ k = Some READ_KIND.
Proof.
  unfold claims. destruct k as [k|]; [|done]. case_bool_decide as Hk; [|done]. unfold DEFERRED_KINDS in Hk. set_solver.
Qed.

Lemma claimed_named (pieces : list Piece) t : PRef t ∈ pieces -> claims (kind t) (arg t) DEFERRED_KINDS = true -> kind t <> Some RESOURCE_KIND ->
  t ∈ omap named pieces.
Proof.
  intros Hin Hc Hk. apply list_elem_of_omap. exists (PRef t). split; [done|]. simpl. by rewrite Hc, bool_decide_false.
Qed.

(** Of the kinds a field without a [src] is read for, and all of them. *)
Lemma claims_no_src k a : k <> Some SRC_KIND ->
  claims k a [READ_KIND; RESOURCE_KIND] = claims k a DEFERRED_KINDS.
Proof.
  intros Hk. unfold claims. destruct k as [k|]; [|done]. assert (Hs : k <> SRC_KIND) by congruence.
  erewrite bool_decide_ext; [done|]. unfold DEFERRED_KINDS. set_solver.
Qed.

(** C23: a field holds what its references name: once the producers of a target were read
    and its inputs staged, each field with references - whatever it holds beside them -
    ends as its own text with every [read] replaced by what the target it names printed,
    every [src] by the path its file was staged at, and every [resource] by what the run
    was granted, and nothing else; what was put in is not read again. Fields without a
    [src] need no premise; the premises of the others are those of [lone_src], and that
    the target has one file. *)
Theorem deferred_fields_delivered {nom : Nom} {C E} pkg config refs (read_value : TargetAddr -> result E str) by_addr allotment values
    (produce : TargetAddr -> list C * list C) (unpack : C -> list str -> result E (list str)) sandbox_dir ws_dir list_dir
    before after ms files (no_such_file : E) path_of :
  collect pkg config = Ok refs ->
  (forall t t', display t = display t' -> read_value t = read_value t') ->
  read_deferred read_value refs = Ok by_addr ->
  render_deferred (E := E) pkg refs by_addr (Some allotment) ∅ = Ok values ->
  stage unpack sandbox_dir ws_dir list_dir (before ++ inputs_result_exec produce (inputs_for refs) ++ after) = Ok (ms, files) ->
  (forall i, i ∈ before ++ after -> starts_with src_origin (ri_origin_id i) = false) ->
  forall r, r ∈ refs ->
    (needs_sandbox r = true -> lone_src pkg refs r /\
       forall p, p ∈ producers r -> is_src p = true -> one_file produce unpack ws_dir path_of (p_addr p)) ->
    exists slot v, values !! d_raw r = Some slot /\
      complete_field no_such_file files ms (Some allotment) (d_raw r) slot = Ok (Ready v) /\
      substitute (meaning pkg read_value path_of allotment) (d_raw r) DEFERRED_KINDS = Ok v.
Proof.
  intros Hc Hread Hrd Hren Hst Hoth r Hr Hsrc. pose proof (collect_spec pkg config) as Hcs. rewrite Hc in Hcs.
  destruct Hcs as (_ & Hnd & Hfrom & _). destruct (Hfrom r Hr) as (path & _ & Hpr).
  pose proof (parse_refs_spec pkg (d_raw r) path) as Hps. rewrite Hpr in Hps. destruct Hps as (_ & _ & _ & pieces & Hp & _).
  destruct (producer_of_ref pkg _ _ _ _ Hpr Hp) as [Hto Hof]. apply (read_deferred_spec read_value Hread) in Hrd as [Hval Hhas].
  apply render_deferred_spec in Hren as [_ Hren]; [|done]. specialize (Hren r Hr).
  (* what is read *)
  assert (Hreads : forall t, t ∈ omap named pieces -> kind t = Some READ_KIND -> exists addr v p, TargetRef.parse (arg t) pkg = Ok addr /\
    p ∈ producers r /\ p_addr p = addr /\ is_read p = true /\ by_addr !! display addr = Some v /\ read_value addr = Ok v).
  { intros t Ht Hk. destruct (Hto t Ht) as (p & Hpin & Hpa & Hpk). assert (Hrp : is_read p = true).
    { unfold is_read. rewrite Hpk, Hk. by apply bool_decide_eq_true. }
    destruct (Hhas r p Hr Hpin Hrp) as [v Hv]. exists (p_addr p), v, p. split_and!; try done. by eapply Hval. }
  destruct (needs_sandbox r) eqn:En.
  - destruct (Hsrc eq_refl) as [Hl Hone]. eexists. unfold complete_field.
    destruct (substitute_agree (resolve_staged no_such_file files ms (reads_of r by_addr) (srcs_of r) (Some allotment))
      (meaning pkg read_value path_of allotment) DEFERRED_KINDS DEFERRED_KINDS (d_raw r) pieces Hp) as (v & Hv1 & Hv2); [done| |].
    2: { exists v. split; [exact Hren|]. split; [|done]. cbn. by rewrite Hv1. }
    intros t Ht Hcl. unfold resolve_staged, meaning. case_bool_decide as Hres; [eauto|].
    assert (Hn := claimed_named _ _ Ht Hcl Hres). apply claims_kinds in Hcl as [Hk|[Hk|Hk]]; [|done|].
    + destruct (Hto t Hn) as (p & Hpin & Hpa & Hpk). assert (Hsp : is_src p = true).
      { unfold is_src. rewrite Hpk, Hk. by apply bool_decide_eq_true. }
      assert (Hd := spelled _ _ _ Hl _ _ _ Hp Hn Hpa).
      rewrite Hpa, bool_decide_true by done. exists (path_of (p_addr p)). split; [|done].
      rewrite (proj1 (reads_of_lookup r by_addr (arg t))).
      2: { intros p' Hp' Hrd' Hdd. rewrite <- Hd in Hdd. apply (not_read _ _ _ Hl p p' Hpin Hp' Hsp) in Hdd.
           unfold is_src, is_read in *. apply bool_decide_eq_true in Hdd, Hrd'. rewrite Hdd in Hrd'. discriminate. }
      rewrite <- Hd at 1. rewrite (srcs_of_lookup r p), <- (src_origin_of r p) by done.
      change (ok_or ?e (Some ?o) ≫= ?f) with (f o). cbn beta.
      destruct (Hone p Hpin Hsp) as (art & entry & Hart & Hun & Hpath & Hplain). rewrite Hpath in *.
      eapply (staged_path_one unpack sandbox_dir ws_dir list_dir); [exact Hst|rewrite (staged_for pkg) by done; unfold run_inputs; cbn [edge input_ref];
        rewrite Hart; reflexivity|done| |unfold edge; cbn [annotations ri_annotations]; rewrite Hsp; by apply lookup_singleton_ne|exact Hun|done].
      apply Forall_forall. by intros x (? & -> & _)%list_elem_of_fmap.
    + destruct (Hreads t Hn Hk) as (addr & v & p & Hpa & Hpin & <- & Hrp & Hv & Hrv).
      assert (Hd := spelled _ _ _ Hl _ _ _ Hp Hn Hpa). rewrite Hpa, (bool_decide_false (kind t = Some SRC_KIND)), Hrv by (rewrite Hk; done).
      exists v. split; [|done]. by rewrite (proj2 (reads_of_lookup r by_addr (arg t)) p v Hpin Hrp Hd) by (by rewrite <- Hd).
  - destruct Hren as (v & Hv & Hs). exists (Ready v), v. split; [done|]. split; [done|].
    assert (Hnosrc : forall t, PRef t ∈ pieces -> claims (kind t) (arg t) DEFERRED_KINDS = true -> kind t <> Some SRC_KIND).
    { intros t Ht Hcl Hk. destruct (Hto t) as (p & Hpin & _ & Hpk); [apply claimed_named; try done; by rewrite Hk|].
      apply not_true_iff_false in En. apply En, existsb_exists. exists p. split; [by apply list_elem_of_In|].
      unfold is_src. rewrite Hpk, Hk. by apply bool_decide_eq_true. }
    destruct (substitute_agree (resolve_read (E := E) pkg by_addr (Some allotment)) (meaning pkg read_value path_of allotment)
      [READ_KIND; RESOURCE_KIND] DEFERRED_KINDS (d_raw r) pieces Hp) as (v' & Hv1 & Hv2).
    + intros t Ht. destruct (claims (kind t) (arg t) DEFERRED_KINDS) eqn:Ec; [rewrite claims_no_src; eauto|].
      destruct (decide (kind t = Some SRC_KIND)) as [Hk|Hk]; [|by rewrite claims_no_src]. by rewrite Hk.
    + intros t Ht Hcl. assert (Hcl' : claims (kind t) (arg t) DEFERRED_KINDS = true).
      { destruct (decide (kind t = Some SRC_KIND)) as [Hk|Hk]; [by rewrite Hk in Hcl|by rewrite <- claims_no_src]. }
      unfold resolve_read, meaning. case_bool_decide as Hres; [eauto|].
      assert (Hn := claimed_named _ _ Ht Hcl' Hres). pose proof (Hnosrc t Ht Hcl') as Hns.
      apply claims_kinds in Hcl' as [Hk|[Hk|Hk]]; [done..|].
      destruct (Hreads t Hn Hk) as (addr & v' & p & Hpa & _ & _ & _ & Hv' & Hrv). rewrite Hpa, bool_decide_false, Hrv by done. simpl.
      rewrite Hv'. eauto.
    + rewrite Hs in Hv1. injection Hv1 as <-. exact Hv2.
Qed.

(** ** Examples *)

(** A target whose one file is called after it, with a text that says so. *)
Definition sample_read (t : TargetAddr) : result unit str := Ok ($"text of " ++ display t).
Definition sample_produce (t : TargetAddr) : list str * list str := ([name (ref t)], []).
Definition sample_unpack (c : str) (_ : list str) : result unit (list str) := Ok [c].
Definition sample_path (t : TargetAddr) : str := join_path $"/ws" (name (ref t)).
Definition sample_allotment : list (str * str) := [($"cpu", $"4")].

(** A config taken through both of its readings, up to the fields a driver is handed. *)
Definition sample_fields (config : list (str * Value)) : option (list (str * result (subst_error (E := render_error unit)) DeferredValue)) :=
  match @collect nom_ref $"app" config with
  | Err _ => None
  | Ok refs =>
      match read_deferred sample_read refs with
      | Err _ => None
      | Ok by_addr =>
          match @render_deferred nom_ref unit $"app" refs by_addr (Some sample_allotment) ∅,
                stage sample_unpack $"/sandbox" $"/ws" $"/sandbox/list" (inputs_result_exec sample_produce (inputs_for refs)) with
          | Ok values, Ok (ms, files) =>
              Some ((fun f => (f.1, complete_field () files ms (Some sample_allotment) f.1 f.2)) <$> map_to_list values)
          | _, _ => None
          end
      end
  end.

Definition sample_field : str := $"${src://tools:go} -j${resource:cpu} --tag=${read://infra:tag} $$PWD".
Definition sample_config : list (str * Value) :=
  [($"run", VList [VString $"sh"; VString sample_field]); ($"env", VMap [($"TAG", VString $"${read://infra:tag}")])].

Definition sample_refs : list DeferredRef := match @collect nom_ref $"app" sample_config with Ok refs => refs | Err _ => [] end.

Lemma deferred_edges_exact_witness : exists i, i ∈ inputs_for_labelled sample_refs None /\ runtime i = true.
Proof.
  destruct (proj2 (@deferred_edges_exact nom_ref $"app" sample_config None) sample_refs ltac:(vm_compute; reflexivity)) as [H _].
  destruct (H ($"run[1]") sample_field (match Template.parse sample_field with Ok ps => ps | Err _ => [] end)
    (make_ref $"src://tools:go")) as (addr & i & _ & Hi & _ & _ & Hrun).
  - vm_compute. right. left.
  - vm_compute. reflexivity.
  - vm_compute. left.
  - exists i. split; [exact Hi|]. rewrite Hrun. reflexivity.
Defined.

Definition sample_src : DeferredRef := match sample_refs !! 1 with Some r => r | None => mkDeferredRef [] [] [] end.

Lemma sample_lone : @lone_src nom_ref $"app" sample_refs sample_src.
Proof.
  constructor.
  - intros pieces t addr Hp. vm_compute in Hp. injection Hp as <-. intros Ht. vm_compute in Ht.
    repeat (apply elem_of_cons in Ht as [->|Ht]; [intros Ha; vm_compute in Ha; injection Ha as <-; reflexivity|]).
    by apply elem_of_nil in Ht.
  - intros p p' Hp Hp' Hs Hs'. vm_compute in Hp, Hp'.
    repeat (apply elem_of_cons in Hp as [->|Hp]); try by apply elem_of_nil in Hp.
    all: repeat (apply elem_of_cons in Hp' as [->|Hp']); try by apply elem_of_nil in Hp'.
    all: try reflexivity; vm_compute in Hs, Hs'; discriminate.
  - intros p p' Hp Hp' Hs Hd. vm_compute in Hp, Hp'.
    repeat (apply elem_of_cons in Hp as [->|Hp]); try by apply elem_of_nil in Hp.
    all: repeat (apply elem_of_cons in Hp' as [->|Hp']); try by apply elem_of_nil in Hp'.
    all: try reflexivity; vm_compute in Hs, Hd; discriminate.
  - intros r' p p' Hr Hne _ Hp' _ Hs'. exfalso. vm_compute in Hr.
    repeat (apply elem_of_cons in Hr as [->|Hr]); try by apply elem_of_nil in Hr.
    + vm_compute in Hp'. apply elem_of_cons in Hp' as [->|Hp']; [vm_compute in Hs'; discriminate|by apply elem_of_nil in Hp'].
    + by apply Hne.
Qed.

Lemma deferred_fields_delivered_witness : exists v,
  substitute (@meaning nom_ref unit $"app" sample_read sample_path sample_allotment) sample_field DEFERRED_KINDS = Ok v.
Proof.
  assert (Hst : exists ms files, stage sample_unpack $"/sandbox" $"/ws" $"/sandbox/list"
    ([] ++ inputs_result_exec sample_produce (inputs_for sample_refs) ++ []) = Ok (ms, files))
    by (eexists _, _; vm_compute; reflexivity).
  destruct Hst as (ms & files & Hst).
  destruct (@deferred_fields_delivered nom_ref str unit $"app" sample_config sample_refs sample_read
    (match read_deferred sample_read sample_refs with Ok m => m | Err _ => ∅ end) sample_allotment
    (match @resolve_deferred nom_ref unit sample_read $"app" sample_refs (Some sample_allotment) with Ok m => m | Err _ => ∅ end)
    sample_produce sample_unpack $"/sandbox" $"/ws" $"/sandbox/list" [] [] ms files tt sample_path
    ltac:(vm_compute; reflexivity) ltac:(intros t t' H; unfold sample_read; by rewrite H) ltac:(vm_compute; reflexivity)
    ltac:(vm_compute; reflexivity) Hst ltac:(intros i Hi; by apply elem_of_nil in Hi) sample_src ltac:(vm_compute; right; left))
    as (slot & v & _ & _ & Hv).
  - intros _. split; [exact sample_lone|]. intros p Hp Hs. vm_compute in Hp.
    repeat (apply elem_of_cons in Hp as [->|Hp]); [| |by apply elem_of_nil in Hp]; [|vm_compute in Hs; discriminate].
    exists $"go", $"go". split; [reflexivity|]. split; [reflexivity|]. split; [reflexivity|].
    split; [by apply (bool_decide_unpack _); vm_compute|vm_compute; reflexivity].
  - exists v. exact Hv.
Defined.

(** What [lone_src] excludes does not work. Two [src] references in one field share an
    origin, so the list of either has the files of both and neither has a path; a target
    that two fields ask the path of is staged for the first of them only; an address that
    is not spelled as it is displayed is not found; and a [src] of a target that the same
    field also reads is replaced by the text of its file instead of the path. *)
Theorem src_fields_conflated :
  let a := $"//tools:a" in
  sample_fields [($"run", VString $"${src://tools:a} ${src://tools:b}")] =
    Some [($"${src://tools:a} ${src://tools:b}", Err (Unresolved (StagedMany a [$"/ws/a"; $"/ws/b"])))] /\
  sample_fields [($"run", VString $"${src://tools:a}"); ($"tool", VString $"x${src://tools:a}")] =
    Some [($"x${src://tools:a}", Err (Unresolved (NotStaged a $"option|src|tool"))); ($"${src://tools:a}", Ok (Ready $"/ws/a"))] /\
  sample_fields [($"run", VString $"${src://tools:a@z=1,b=2}")] =
    Some [($"${src://tools:a@z=1,b=2}", Err (Unresolved (NotResolved $"${src://tools:a@z=1,b=2}")))] /\
  sample_fields [($"run", VString $"${read://tools:a},${src://tools:a}")] =
    Some [($"${read://tools:a},${src://tools:a}", Ok (Ready $"text of //tools:a,text of //tools:a"))].
Proof. vm_compute. repeat split. Qed.
