(* ===== verification/Scratch.v ===== *)
(** Scratch directories: [crates/builtins/src/pluginscratch/mod.rs],
    [engine/scratch.rs], [engine/scratch_store.rs] and the scopes of [engine/config.rs].

    A scratch is a directory that targets share and keep from run to run, declared by a
    target of its own. Its identity is a slot, a hash of the address of the declaration and
    its version; in a slot every scope - normally a branch - has a directory, the head of
    its lineage. A consumer takes the lock of every slot it references, exclusive or
    shared, in the order of the slots; under it the head of its scope is found, copied from
    another scope, dropped when it is too big, created, and pulled from a remote store.

    What a directory holds is a parameter, and so are the calls that copy, remove, measure
    and pull; each of them may fail and leave something behind. *)
From stdpp Require Import sorting.
From S2P Require Import Prelude Numerals Sorts Nom HtPkg HtAddr HtIntern LogTail AddrKey Capacity CodegenOverlap.

(** ** Declarations *)

Inductive Access := Exclusive | Shared.
#[export] Instance Access_eq_dec : EqDecision Access.
Proof. solve_decision. Defined.

Inductive scratch_error :=
| UnknownAccess (s : str)
| AbsolutePath (path : str)
| EscapingPath (path : str)
| RootPath (path : str)
| EmptyEnv
| BadMaxSize (max : str).

Definition access_parse (s : str) : result scratch_error Access :=
  if bool_decide (s = $"exclusive") then Ok Exclusive
  else if bool_decide (s = $"shared") then Ok Shared
  else Err (UnknownAccess s).
Definition access_as_str (a : Access) : str :=
  match a with Exclusive => $"exclusive" | Shared => $"shared" end.

(** [ScratchSpec], and [ScratchDef]. *)
Record ScratchSpec := mkScratchSpec {
  sp_path : str; sp_env : option str; sp_access : option str; sp_version : str; sp_remote : bool; sp_max_size : option str
}.
Record ScratchDef := mkScratchDef {
  sd_path : str; sd_env : str; sd_access : Access; sd_version : str; sd_remote : bool; sd_max_size : option str
}.

Definition to_ascii_uppercase (c : char) : char := if is_ascii_lowercase c then (c - 32)%N else c.
Definition default_env_name (name : str) : str :=
  $"SCRATCH_" ++
  ((fun c => let u := to_ascii_uppercase c in if is_ascii_alphanumeric u || (u =? #"_")%N then u else #"_") <$> name).

(** [Path::components] of a relative path: separators collapse, and a [.] counts only in
    front. *)
Inductive Component := CurDir | ParentDir | Normal (name : str).
Definition component_of (s : str) : Component :=
  if bool_decide (s = $".") then CurDir else if bool_decide (s = $"..") then ParentDir else Normal s.
Definition components (path : str) : list Component :=
  match List.filter (fun s => negb (bool_decide (s = []))) (split_on #"/" path) with
  | [] => []
  | s :: l => component_of s :: (component_of <$> List.filter (fun s => negb (bool_decide (s = $"."))) l)
  end.

(** The loop of [validate_path], over the depth so far. *)
Fixpoint depth_loop (path : str) (cs : list Component) (depth : Z) : result scratch_error Z :=
  match cs with
  | [] => Ok depth
  | ParentDir :: cs => if (depth - 1 <? 0)%Z then Err (EscapingPath path) else depth_loop path cs (depth - 1)%Z
  | CurDir :: cs => depth_loop path cs depth
  | Normal _ :: cs => depth_loop path cs (depth + 1)%Z
  end.

Definition validate_path (path : str) : result scratch_error () :=
  if starts_with $"/" path then Err (AbsolutePath path)
  else
    depth ← depth_loop path (components path) 0%Z;
    if (depth =? 0)%Z then Err (RootPath path) else Ok ().

(** [ScratchDef::from_spec]. *)
Definition from_spec (spec : ScratchSpec) (target_name : str) : result scratch_error ScratchDef :=
  _ ← (if bool_decide (sp_path spec = []) then Ok () else validate_path (sp_path spec));
  access ← match sp_access spec with Some s => access_parse s | None => Ok Exclusive end;
  env ← match sp_env spec with
        | Some e => if bool_decide (trim e = []) then Err EmptyEnv else Ok e
        | None => Ok (default_env_name target_name)
        end;
  _ ← match sp_max_size spec with
      | Some max => map_err (fun _ => BadMaxSize max) (parse_size max)
      | None => Ok 0%N
      end;
  Ok (mkScratchDef (sp_path spec) env access (sp_version spec) (sp_remote spec) (sp_max_size spec)).

(** ** References *)

Record ResolvedScratch := mkResolved { rs_addr : Addr; rs_def : ScratchDef }.

(** [ResolvedScratch::slot]: what is written into the hasher, and its digest, which is
    printed with its zeros. A [String] is written with a byte no text has after it. *)
Section slot.
Variable digest : list N -> N.
Definition SLOT_FORMAT : list N := [1; 0; 0; 0]%N.
Definition hash_string (s : str) : list N := as_bytes s ++ [255%N].
Definition slot_writes (addr : Addr) (version : str) : list N :=
  SLOT_FORMAT ++ hash_string (format addr) ++ hash_string version.
Definition slot (r : ResolvedScratch) : str := pad0 16 (to_hex (digest (slot_writes (rs_addr r) (sd_version (rs_def r))))).
End slot.

(** The first pair, in the order of the loops, that fails a check. *)
Fixpoint first_pair {A} (clash : A -> A -> bool) (l : list A) : option (A * A) :=
  match l with
  | [] => None
  | a :: l =>
      match List.find (clash a) l with
      | Some b => Some (a, b)
      | None => first_pair clash l
      end
  end.

Inductive resolve_error := EnvCollision (a b : Addr) | MountOverlap (a b : Addr).

Definition same_env (a b : ResolvedScratch) : bool := bool_decide (sd_env (rs_def a) = sd_env (rs_def b)).
Definition same_mount (a b : ResolvedScratch) : bool := paths_overlap (sd_path (rs_def a)) (sd_path (rs_def b)).

Definition check_env_collisions (resolved : list ResolvedScratch) : result resolve_error () :=
  match first_pair same_env resolved with Some (a, b) => Err (EnvCollision (rs_addr a) (rs_addr b)) | None => Ok () end.
Definition check_mount_overlaps (resolved : list ResolvedScratch) : result resolve_error () :=
  match first_pair same_mount resolved with Some (a, b) => Err (MountOverlap (rs_addr a) (rs_addr b)) | None => Ok () end.

(** The end of [resolve_scratch]. *)
Definition check_resolved (resolved : list ResolvedScratch) : result resolve_error (list ResolvedScratch) :=
  _ ← check_env_collisions resolved;
  _ ← check_mount_overlaps resolved;
  Ok resolved.

(** ** Scopes *)

Definition sanitize_char (c : char) : char :=
  if is_ascii_alphanumeric c || (c =? #".")%N || (c =? #"-")%N || (c =? #"_")%N then c else #"_".
Definition sanitize_scope (scope : str) : str :=
  match scope with [] => $"_" | _ => sanitize_char <$> scope end.

(** The layout of the store, as the components below the home directory. *)
Definition store_root : list str := [$"scratch"].
Definition slot_dir (slot : str) : list str := store_root ++ [slot].
Definition lineage_dir (slot scope : str) : list str := slot_dir slot ++ [sanitize_scope scope].
Definition head_dir (slot scope : str) : list str := lineage_dir slot scope ++ [$"head"].

(** Which directory that is: one of the slot, named after the scope, but for the scope [..],
    which leads out of the slot, to one directory for all slots. It is written without a
    slot; the name of a slot is never empty. (The head of a scope named [head] is inside
    the head of the scope [.]; the two are kept apart here.) *)
Definition head_key (slot scope : str) : str * str :=
  if decide (sanitize_scope scope = $"..") then ([], $"..") else (slot, sanitize_scope scope).

(** ** Preparing a directory *)

Inductive Prepared := Warm | Seeded | Cold | Pulled | DroppedOverMax | Audit.

Record ScratchOptions := mkOptions { scope : str; restore_scopes : list str; seed_on_fork : bool }.

(** A snapshot of the remote store: where it was made, and what is unpacked. *)
Record Snapshot (T : Type) := mkSnapshot { produced_at : list str; sn_bytes : N; sn_tree : T }.
Arguments mkSnapshot {T}.
Arguments produced_at {T}.
Arguments sn_bytes {T}.
Arguments sn_tree {T}.

Section prepare.
Context {T : Type}.
(** A directory without entries, and the bytes [measure] counts. *)
Variables (empty_dir : T) (is_cold : T -> bool) (measure : T -> N).

(** The heads of the store, by [head_key]. *)
Abbreviation Heads := (gmap (str * str) T).

(** What the calls answer, and what they leave: whether a head is seen, [copy_tree] from a
    tree onto what is there, [remove_dir_all], [create_dir_all], the head of the remote
    store and [scratch_pull] of it, which may stop halfway. *)
Record Calls := mkCalls {
  seen : str -> bool;
  copy_tree : T -> option T -> bool * option T;
  remove_dir_all : T -> bool * option T;
  create_dir_all : bool;
  remote_head : option (Snapshot T);
  scratch_pull : Snapshot T -> T -> bool * T
}.
Variable env : Calls.

Definition put (k : str * str) (t : option T) (heads : Heads) : Heads :=
  match t with Some t => <[k := t]> heads | None => delete k heads end.

(** [remove_dir_all], whose result may be dropped. *)
Definition remove_head (k : str * str) (heads : Heads) : bool * Heads :=
  match heads !! k with
  | None => (false, heads)
  | Some t => let '(ok, t) := remove_dir_all env t in (ok, put k t heads)
  end.

(** [exists]: an error counts as absent. *)
Definition head_exists (sl sc : str) (heads : Heads) : bool :=
  bool_decide (is_Some (heads !! (head_key sl sc))) && seen env sc.

(** The loop over [restore_scopes]. *)
Fixpoint seed_from (sl sc : str) (fallbacks : list str) (heads : Heads) : Prepared * Heads :=
  match fallbacks with
  | [] => (Cold, heads)
  | fallback :: fallbacks =>
      if bool_decide (fallback = sc) then seed_from sl sc fallbacks heads
      else
        match head_exists sl fallback heads, heads !! (head_key sl fallback) with
        | true, Some from =>
            let own := (head_key sl sc) in
            let '(ok, t) := copy_tree env from (heads !! own) in
            let heads := put own t heads in
            if ok then (Seeded, heads) else seed_from sl sc fallbacks (remove_head own heads).2
        | _, _ => seed_from sl sc fallbacks heads
        end
  end.

Definition resolve_scope_dir (sl : str) (opts : ScratchOptions) (heads : Heads) : Prepared * Heads :=
  if head_exists sl (scope opts) heads then (Warm, heads)
  else if seed_on_fork opts then seed_from sl (scope opts) (restore_scopes opts) heads
  else (Cold, heads).

(** [enforce_max_size]: a directory that is not there measures nothing. *)
Definition enforce_max_size (k : str * str) (max : option str) (heads : Heads) : bool * Heads :=
  match max with
  | None => (false, heads)
  | Some max =>
      match parse_size max with
      | Err _ => (false, heads)
      | Ok cap =>
          let bytes := match heads !! k with Some t => measure t | None => 0%N end in
          if (bytes <=? cap)%N then (false, heads) else remove_head k heads
      end
  end.

(** [create_dir_all] keeps what is there. *)
Definition create_head (k : str * str) (heads : Heads) : result () Heads :=
  match heads !! k with
  | Some _ => Ok heads
  | None => if create_dir_all env then Ok (<[k := empty_dir]> heads) else Err ()
  end.

(** [pull_if_cold]. *)
Definition pull_if_cold (k : str * str) (heads : Heads) : option N * Heads :=
  if negb (match heads !! k with Some t => is_cold t | None => true end) then (None, heads)
  else
    match remote_head env with
    | None => (None, heads)
    | Some head =>
        let '(ok, t) := scratch_pull env head (default empty_dir (heads !! k)) in
        let heads := <[k := t]> heads in
        if ok then (Some (sn_bytes head), heads)
        else
          let heads := (remove_head k heads).2 in
          (None, match create_head k heads with Ok heads => heads | Err _ => heads end)
    end.

(** [prepare_scratch_dir]; an audit prepares a directory of its own, outside the store. *)
Definition prepare_scratch_dir (sl : str) (opts : ScratchOptions) (def : ScratchDef) (no_scratch : bool) (heads : Heads)
    : result () Prepared * Heads :=
  if no_scratch then (if create_dir_all env then Ok Audit else Err (), heads)
  else
    let k := (head_key sl (scope opts)) in
    let '(prepared, heads) := resolve_scope_dir sl opts heads in
    let '(dropped, heads) := enforce_max_size k (sd_max_size def) heads in
    let prepared := if dropped then DroppedOverMax else prepared in
    match create_head k heads with
    | Err _ => (Err (), heads)
    | Ok heads =>
        if sd_remote def && negb dropped then
          let '(pulled, heads) := pull_if_cold k heads in
          (Ok (match pulled with Some _ => Pulled | None => prepared end), heads)
        else (Ok prepared, heads)
    end.
End prepare.
Arguments mkCalls {T}.

(** ** The store *)

Record SlotMeta := mkMeta { sm_format : N; sm_addr : str }.
Definition SLOT_META_FORMAT : N := 1.

(** A lineage as it is measured, and a directory of the store. *)
Record Lineage := mkLineage { ln_scope : str; ln_bytes : N; ln_newest : option N }.
Record StoreSlot := mkStoreSlot { st_slot : str; st_meta : option SlotMeta; st_lineages : list Lineage }.
Record SlotEntry := mkEntry {
  se_slot : str; se_meta : option SlotMeta; se_scopes : list str; se_bytes : N; se_last_used : option N
}.

(** [Option::max]: [None] is below everything. *)
Definition opt_max (a b : option N) : option N :=
  match a, b with Some a, Some b => Some (N.max a b) | Some a, None => Some a | None, b => b end.
Definition opt_leb (a b : option N) : bool :=
  match a, b with None, _ => true | Some _, None => false | Some a, Some b => (a <=? b)%N end.

Definition read_slot_meta (meta : option SlotMeta) : option SlotMeta :=
  m ← meta; if (sm_format m =? SLOT_META_FORMAT)%N then Some m else None.

Definition total_bytes (l : list N) : N := foldr N.add 0%N l.

Definition slot_entry (s : StoreSlot) : SlotEntry :=
  mkEntry (st_slot s) (read_slot_meta (st_meta s)) (sort (ln_scope <$> st_lineages s))
    (total_bytes (ln_bytes <$> st_lineages s)) (foldl opt_max None (ln_newest <$> st_lineages s)).

(** The newest first, then by name. *)
Definition newest_leb (a b : SlotEntry) : bool :=
  if opt_leb (se_last_used b) (se_last_used a) then
    if opt_leb (se_last_used a) (se_last_used b) then
      match str_compare (se_slot a) (se_slot b) with Gt => false | _ => true end
    else true
  else false.
Definition scratch_slots (store : list StoreSlot) : list SlotEntry := sort_by newest_leb (slot_entry <$> store).

Section store.
(** Whether [remove_dir_all] of a slot succeeds. *)
Variable removable : str -> bool.

(** [scratch_remove]: what went, or the slot that could not, and what went before it. *)
Fixpoint remove_loop (addr : option str) (slots : list SlotEntry) (removed : list str) (bytes : N)
    : result str N * list str :=
  match slots with
  | [] => (Ok bytes, removed)
  | s :: slots =>
      let matches :=
        match addr with
        | None => true
        | Some want => match se_meta s with Some m => bool_decide (sm_addr m = want) | None => false end
        end in
      if negb matches then remove_loop addr slots removed bytes
      else if removable (se_slot s) then remove_loop addr slots (removed ++ [se_slot s]) (bytes + se_bytes s)%N
      else (Err (se_slot s), removed)
  end.
Definition scratch_remove (addr : option str) (store : list StoreSlot) : result str N * list str :=
  remove_loop addr (scratch_slots store) [] 0%N.

(** A slot that is dropped: the slots removed so far, and the bytes freed. *)
Definition drop_slot (s : SlotEntry) (acc : list str * N) : list str * N :=
  if removable (se_slot s) then (acc.1 ++ [se_slot s], acc.2 + se_bytes s)%N else acc.

Definition is_stale (now max_age : N) (s : SlotEntry) : bool :=
  match se_last_used s with
  | Some t => if (t <=? now)%N then (max_age <? now - t)%N else false
  | None => false
  end.

(** [retain], with what it drops. *)
Fixpoint retain_fresh (now max_age : N) (slots : list SlotEntry) (acc : list str * N) : list SlotEntry * (list str * N) :=
  match slots with
  | [] => ([], acc)
  | s :: slots =>
      if is_stale now max_age s then retain_fresh now max_age slots (drop_slot s acc)
      else let '(kept, acc) := retain_fresh now max_age slots acc in (s :: kept, acc)
  end.

(** The [while] over the slots, the last of which is the oldest: here reversed. *)
Fixpoint evict_loop (max_bytes total : N) (slots : list SlotEntry) (acc : list str * N) : list SlotEntry * (list str * N) :=
  if (total <=? max_bytes)%N then (slots, acc)
  else
    match slots with
    | [] => ([], acc)
    | victim :: slots => evict_loop max_bytes (saturating_sub total (se_bytes victim)) slots (drop_slot victim acc)
    end.

(** [scratch_sweep], after the audit directories: the slots it is done with, what was
    removed and what that freed. *)
Definition scratch_sweep (max_bytes max_age : option N) (now : N) (store : list StoreSlot) : list SlotEntry * (list str * N) :=
  let slots := scratch_slots store in
  let '(slots, acc) := match max_age with Some max_age => retain_fresh now max_age slots ([], 0%N) | None => (slots, ([], 0%N)) end in
  match max_bytes with
  | Some max_bytes =>
      let '(kept, acc) := evict_loop max_bytes (total_bytes (se_bytes <$> slots)) (reverse slots) acc in (reverse kept, acc)
  | None => (slots, acc)
  end.
End store.

(** ** Declarations and references *)

(** Where a relative path leads, without looking at the disk: [None] when it leaves the
    directory it starts in. *)
Fixpoint resolve_components (cs : list Component) (at_ : list str) : option (list str) :=
  match cs with
  | [] => Some at_
  | Normal n :: cs => resolve_components cs (n :: at_)
  | CurDir :: cs => resolve_components cs at_
  | ParentDir :: cs => match at_ with [] => None | _ :: at_ => resolve_components cs at_ end
  end.

Lemma depth_loop_spec path cs : forall at_,
  depth_loop path cs (Z.of_nat (length at_)) =
    match resolve_components cs at_ with Some l => Ok (Z.of_nat (length l)) | None => Err (EscapingPath path) end.
Proof.
  induction cs as [|[| |n] cs IH]; intros at_; simpl; [done|apply IH| |].
  - destruct at_ as [|x at_]; [done|]. rewrite (proj2 (Z.ltb_ge _ _)) by (simpl; lia). rewrite <- IH. f_equal. simpl. lia.
  - rewrite <- IH. f_equal. simpl. lia.
Qed.

Lemma validate_path_exact path : validate_path path = Ok () <->
  starts_with $"/" path = false /\ exists n at_, resolve_components (components path) [] = Some (n :: at_).
Proof.
  unfold validate_path. destruct (starts_with $"/" path); [naive_solver|].
  rewrite (depth_loop_spec path (components path) [] : depth_loop path (components path) 0%Z = _).
  destruct (resolve_components (components path) []) as [[|n at_]|]; simpl; [naive_solver| |naive_solver].
  naive_solver.
Qed.

Lemma first_pair_none {A} (clash : A -> A -> bool) l : first_pair clash l = None <->
  forall i j a b, i < j -> l !! i = Some a -> l !! j = Some b -> clash a b = false.
Proof.
  induction l as [|x l IH]; simpl; [split; [by intros _ ????? H|done]|]. destruct (List.find (clash x) l) as [b|] eqn:E.
  - split; [done|]. intros H. apply List.find_some in E as [Hin Hc]. apply list_elem_of_In, list_elem_of_lookup in Hin as [j Hj].
    by rewrite (H 0 (S j) x b ltac:(lia) eq_refl Hj) in Hc.
  - rewrite IH. split.
    + intros H [|i] [|j] a b Hlt Ha Hb; [lia| |lia|eapply (H i j); eauto with lia]. injection Ha as <-.
      apply (List.find_none _ _ E), list_elem_of_In. by eapply list_elem_of_lookup_2.
    + intros H i j a b Hlt. apply (H (S i) (S j)). lia.
Qed.

(** The references of a target are accepted exactly when no two of them set one variable,
    and no two are mounted one inside the other. *)
Lemma check_resolved_exact resolved l : check_resolved resolved = Ok l <-> l = resolved /\
  (forall i j a b, i < j -> resolved !! i = Some a -> resolved !! j = Some b ->
     sd_env (rs_def a) <> sd_env (rs_def b) /\ paths_overlap (sd_path (rs_def a)) (sd_path (rs_def b)) = false).
Proof.
  unfold check_resolved, check_env_collisions, check_mount_overlaps.
  pose proof (first_pair_none same_env resolved) as He. pose proof (first_pair_none same_mount resolved) as Hm.
  destruct (first_pair same_env resolved) as [[a b]|]; simpl.
  { split; [done|]. intros [_ H]. destruct He as [_ He]. discriminate He. intros i j x y Hlt Hx Hy.
    apply bool_decide_eq_false. by apply (H i j). }
  destruct (first_pair same_mount resolved) as [[a b]|]; simpl.
  { split; [done|]. intros [_ H]. destruct Hm as [_ Hm]. discriminate Hm. intros i j x y Hlt Hx Hy. by apply (H i j). }
  split; [|by intros [-> _]]. intros [= <-]. split; [done|]. intros i j a b Hlt Ha Hb. split.
  - pose proof (proj1 He eq_refl i j a b Hlt Ha Hb) as H. by apply bool_decide_eq_false in H.
  - by apply (proj1 Hm eq_refl i j).
Qed.

(** No byte of a text ends the text it is written in. *)
Lemma utf8_encode_small c b : is_scalar c = true -> b ∈ utf8_encode c -> (b < 255)%N.
Proof.
  unfold is_scalar, utf8_encode. rewrite orb_true_iff, andb_true_iff, N.ltb_lt, !N.leb_le. intros Hs Hb.
  repeat case_match; bool_simpl; repeat (apply elem_of_cons in Hb as [->|Hb]); try by apply elem_of_nil in Hb.
  all: try lia.
  all: pose proof (N.mod_upper_bound c 64 ltac:(done)); pose proof (N.mod_upper_bound (c / 64) 64 ltac:(done));
    pose proof (N.mod_upper_bound (c / 4096) 64 ltac:(done)); try lia.
  all: try (pose proof (N.Div0.div_lt_upper_bound c 64 32); pose proof (N.Div0.div_lt_upper_bound c 4096 16);
    pose proof (N.Div0.div_lt_upper_bound c 262144 5); lia).
Qed.

Lemma as_bytes_small s b : Forall (fun c => is_scalar c = true) s -> b ∈ as_bytes s -> (b < 255)%N.
Proof.
  intros Hs Hb. apply list_elem_of_bind in Hb as (c & Hb & Hc). rewrite Forall_forall in Hs.
  eapply utf8_encode_small; eauto.
Qed.

(** A text with a byte after it that no text has: it can be taken off a stream in one way. *)
Lemma hash_string_app_inj s t x y :
  Forall (fun c => is_scalar c = true) s -> Forall (fun c => is_scalar c = true) t ->
  hash_string s ++ x = hash_string t ++ y -> s = t /\ x = y.
Proof.
  unfold hash_string. intros Hs Ht. rewrite <- !app_assoc. simpl.
  assert (as_bytes s ++ 255%N :: x = as_bytes t ++ 255%N :: y -> as_bytes s = as_bytes t /\ x = y) as Hb.
  { pose proof (fun b => as_bytes_small s b Hs) as Ls. pose proof (fun b => as_bytes_small t b Ht) as Lt.
    revert Ls Lt. generalize (as_bytes s) as u, (as_bytes t) as v. clear.
    induction u as [|b u IH]; intros [|c v] Hu Hv; simpl; intros E.
    - by injection E.
    - injection E as <- _. by pose proof (Hv 255%N ltac:(set_solver)).
    - injection E as -> _. by pose proof (Hu 255%N ltac:(set_solver)).
    - injection E as -> E2. destruct (IH v) as [-> ->]; [set_solver..|done]. }
  intros [E ->]%Hb. split; [|done]. apply (f_equal from_utf8_lossy) in E. by rewrite !lossy_as_bytes in E.
Qed.

Lemma slot_writes_inj a b v w :
  Forall (fun c => is_scalar c = true) (format a) -> Forall (fun c => is_scalar c = true) (format b) ->
  Forall (fun c => is_scalar c = true) v -> Forall (fun c => is_scalar c = true) w ->
  slot_writes a v = slot_writes b w -> format a = format b /\ v = w.
Proof.
  intros Ha Hb Hv Hw E. unfold slot_writes in E. apply app_inv_head in E.
  apply hash_string_app_inj in E as [E1 E]; [|done..]. split; [done|].
  rewrite <- (app_nil_r (hash_string v)), <- (app_nil_r (hash_string w)) in E.
  by apply hash_string_app_inj in E as [-> _].
Qed.

(** A reference with the declaration its address has, and the texts of a program. *)
Section references.
Context {nom : Nom} {nom_laws : NomLaws nom}.
(** What the grammar of addresses accepts is its own key. *)
Definition parsed (a : Addr) : Prop := exists input, parse_addr input = Ok a.
Lemma format_inj a b : parsed a -> parsed b -> format a = format b -> a = b.
Proof.
  intros [i Hi] [j Hj] E. apply parse_addr_roundtrip in Hi as [_ Hi], Hj as [_ Hj]. rewrite E in Hi. congruence.
Qed.


Variables (digest : list N -> N) (declared : Addr -> ScratchDef).
Definition scalar (s : str) : Prop := Forall (fun c => is_scalar c = true) s.
Definition resolve (addr : Addr) : ResolvedScratch := mkResolved addr (declared addr).
Definition good_ref (addr : Addr) : Prop := parsed addr /\ scalar (format addr) /\ scalar (sd_version (declared addr)).
(** The digest tells what is written for one of these addresses from what is written for
    another, in the digits a slot is printed with. *)
Definition separates (addrs : list Addr) : Prop := forall a b, a ∈ addrs -> b ∈ addrs ->
  slot digest (resolve a) = slot digest (resolve b) ->
  slot_writes a (sd_version (declared a)) = slot_writes b (sd_version (declared b)).

(** References that were accepted are in slots of their own: no target locks a slot
    twice. *)
Lemma accepted_slots_NoDup addrs : Forall good_ref addrs -> separates addrs ->
  check_resolved (resolve <$> addrs) = Ok (resolve <$> addrs) ->
  NoDup (slot digest <$> (resolve <$> addrs)).
Proof.
  intros Hg Hs [_ Hc]%check_resolved_exact. apply NoDup_alt. intros i j s Hi Hj.
  rewrite <- list_fmap_compose, list_lookup_fmap in Hi, Hj.
  apply fmap_Some in Hi as (a & Ha & Ea), Hj as (b & Hb & Eb).
  assert (a = b) as <-.
  { rewrite Forall_forall in Hg. pose proof (list_elem_of_lookup_2 _ _ _ Ha) as Ia. pose proof (list_elem_of_lookup_2 _ _ _ Hb) as Ib.
    destruct (Hg a Ia) as (Pa & Fa & Va). destruct (Hg b Ib) as (Pb & Fb & Vb).
    assert (slot digest (resolve a) = slot digest (resolve b)) as E by (simpl in Ea, Eb; congruence).
    apply format_inj; [done..|]. by destruct (slot_writes_inj a b _ _ Fa Fb Va Vb (Hs a b Ia Ib E)). }
  destruct (Nat.lt_trichotomy i j) as [H|[H|H]]; [|done|]; exfalso.
  - by destruct (Hc i j (resolve a) (resolve a) H) as [[] _]; [rewrite list_lookup_fmap, ?Ha, ?Hb..|].
  - by destruct (Hc j i (resolve a) (resolve a) H) as [[] _]; [rewrite list_lookup_fmap, ?Ha, ?Hb..|].
Qed.
End references.

(** ** Mounts *)

(** Where a mount is, below the directory of the target. *)
Definition place (path : str) : option (list str) := reverse <$> resolve_components (components path) [].
Definition climbs (path : str) : bool := existsb (fun s => bool_decide (s = $"..")) (split_on #"/" path).

Lemma resolve_normal l at_ : Forall (fun s => s <> $"." /\ s <> $"..") l ->
  resolve_components (component_of <$> l) at_ = Some (reverse l ++ at_).
Proof.
  intros H. revert at_. induction H as [|s l [H1 H2] _ IH]; intros at_; [done|]. simpl.
  unfold component_of. rewrite !bool_decide_eq_false_2 by done. simpl. rewrite IH, reverse_cons, <- app_assoc. done.
Qed.

(** A path that does not climb is where its components say. *)
Lemma place_comps path : climbs path = false -> place path = Some (comps path).
Proof.
  unfold place, climbs, components, comps. intros Hc.
  assert (forall s, In s (split_on #"/" path) -> s <> $"..") as Hup.
  { intros s Hs ->. apply not_true_iff_false in Hc. apply Hc, existsb_exists. eexists. split; [done|]. by apply bool_decide_eq_true. }
  revert Hup. generalize (split_on #"/" path) as l. clear Hc. intros l Hup.
  assert (forall l, (forall s, In s l -> s <> $"..") ->
    List.filter (fun c => negb (bool_decide (c = [])) && negb (bool_decide (c = $"."))) l =
    List.filter (fun s => negb (bool_decide (s = $"."))) (List.filter (fun s => negb (bool_decide (s = []))) l)) as Hf.
  { clear. intros l _. induction l as [|s l IH]; [done|]. simpl. destruct (bool_decide (s = [])); simpl; [done|].
    by destruct (bool_decide (s = $".")); simpl; rewrite IH. }
  rewrite (Hf l Hup). assert (forall s, In s (List.filter (fun s => negb (bool_decide (s = []))) l) -> s <> $"..") as Hu2.
  { intros s [Hs _]%List.filter_In. by apply Hup. }
  revert Hu2. generalize (List.filter (fun s => negb (bool_decide (s = []))) l) as k. clear. intros [|s k] Hup; [done|].
  assert (Forall (fun s => s <> $"." /\ s <> $"..") (List.filter (fun s => negb (bool_decide (s = $"."))) k)) as Hk.
  { apply List.Forall_forall. intros x [Hx Hd]%List.filter_In. split; [|apply Hup; by right].
    intros ->. by rewrite bool_decide_eq_true_2 in Hd. }
  simpl. destruct (decide (s = $".")) as [->|Hs].
  - rewrite resolve_normal by done. simpl. by rewrite app_nil_r, reverse_involutive.
  - rewrite (bool_decide_eq_false_2 (s = $".")) by done. simpl. unfold component_of.
    rewrite !bool_decide_eq_false_2 by (done || (apply Hup; by left)). simpl. rewrite resolve_normal by done. simpl.
    by rewrite reverse_app, reverse_involutive.
Qed.

Lemma accepted_mounts_disjoint resolved i j a b pa pb :
  check_resolved resolved = Ok resolved -> i < j -> resolved !! i = Some a -> resolved !! j = Some b ->
  climbs (sd_path (rs_def a)) = false -> climbs (sd_path (rs_def b)) = false ->
  place (sd_path (rs_def a)) = Some pa -> place (sd_path (rs_def b)) = Some pb -> pa <> [] -> pb <> [] ->
  ~ pa `prefix_of` pb /\ ~ pb `prefix_of` pa.
Proof.
  intros [_ Hc]%check_resolved_exact Hlt Ha Hb Ca Cb. rewrite !place_comps by done. intros [= <-] [= <-] Na Nb.
  destruct (Hc i j a b Hlt Ha Hb) as [_ H]. unfold paths_overlap in H.
  rewrite !bool_decide_eq_false_2 in H by done. simpl in H. apply not_true_iff_false in H.
  rewrite zip_all_eq_prefix in H. tauto.
Qed.

(** The name of a slot is not empty. *)
Lemma slot_ne digest r : slot digest r <> [].
Proof. intros He%(f_equal length). unfold slot, pad0 in He. rewrite length_app, length_replicate in He. simpl in He. lia. Qed.

(** ** Preparing *)

Section preparing.
Context {T : Type} (empty_dir : T) (is_cold : T -> bool) (measure : T -> N).
Implicit Types (env : Calls (T := T)) (heads : gmap (str * str) T).

(** A disk that works: a directory that is there is seen, and removing and creating one
    succeeds. Copies and transfers may still fail. *)
Record LocalOk env := {
  seen_all : forall sc, seen env sc = true;
  remove_all : forall t, remove_dir_all env t = (true, None);
  copy_some : forall t v u, copy_tree env t v = (true, u) -> is_Some u;
  create_ok : create_dir_all env = true
}.

Lemma put_ne k k' o heads : k' <> k -> put k o heads !! k' = heads !! k'.
Proof. intros. destruct o; simpl; [by rewrite lookup_insert_ne|by rewrite lookup_delete_ne]. Qed.
Lemma put_eq k o heads : put k o heads !! k = o.
Proof. destruct o; simpl; [by rewrite lookup_insert_eq|by rewrite lookup_delete_eq]. Qed.

Lemma remove_head_ne env k k' heads : k' <> k -> (remove_head env k heads).2 !! k' = heads !! k'.
Proof. intros. unfold remove_head. repeat case_match; simplify_eq/=; [by apply put_ne|done]. Qed.

Lemma seed_from_ne env sl sc fallbacks k heads : k <> (head_key sl sc) ->
  (seed_from env sl sc fallbacks heads).2 !! k = heads !! k.
Proof.
  intros Hk. revert heads. induction fallbacks as [|fb fallbacks IH]; intros heads; simpl; [done|].
  repeat case_match; simplify_eq/=; try done.
  - by apply put_ne.
  - by rewrite IH, remove_head_ne, put_ne.
Qed.

Lemma head_key_inj sl a b : head_key sl a = head_key sl b -> sanitize_scope a = sanitize_scope b.
Proof. unfold head_key. repeat case_decide; congruence. Qed.

(** The scope a directory was copied from, and the copy. *)
Definition seeded_by env (sl sc : str) (fallbacks : list str) heads (t : T) : Prop :=
  exists fb from onto, fb ∈ fallbacks /\ fb <> sc /\ copy_tree env from onto = (true, Some t) /\
    (sanitize_scope fb <> sanitize_scope sc -> heads !! (head_key sl fb) = Some from).

Lemma remove_head_eq env k heads : LocalOk env -> (remove_head env k heads).2 !! k = None.
Proof.
  intros Hok. unfold remove_head. destruct (heads !! k) as [t|] eqn:E; [|done].
  rewrite (remove_all env Hok). simpl. by rewrite lookup_delete_eq.
Qed.

Lemma seed_from_spec env sl sc fallbacks : LocalOk env -> forall heads p heads',
  heads !! (head_key sl sc) = None -> seed_from env sl sc fallbacks heads = (p, heads') ->
  (p = Cold /\ heads' !! (head_key sl sc) = None) \/
  (p = Seeded /\ exists t, heads' !! (head_key sl sc) = Some t /\ seeded_by env sl sc fallbacks heads t).
Proof.
  intros Hok. induction fallbacks as [|fb fallbacks IH]; intros heads p heads' Hown E; simpl in E; [left; naive_solver|].
  assert (forall h, (forall k, k <> (head_key sl sc) -> h !! k = heads !! k) ->
    h !! (head_key sl sc) = None -> seed_from env sl sc fallbacks h = (p, heads') ->
    (p = Cold /\ heads' !! (head_key sl sc) = None) \/
    (p = Seeded /\ exists t, heads' !! (head_key sl sc) = Some t /\ seeded_by env sl sc (fb :: fallbacks) heads t)) as Hlift.
  { intros h Hh Hn Es. destruct (IH h p heads' Hn Es) as [H|(-> & t & Ht & fb' & from & onto & Hin & Hne & Hc & Hf)]; [by left|].
    right. split; [done|]. exists t. split; [done|]. exists fb', from, onto. split; [by right|]. split; [done|]. split; [done|].
    intros Hs. rewrite <- Hf by done. symmetry. apply Hh. intros He. by apply Hs, (head_key_inj sl). }
  case_bool_decide as Hsc; [by eapply (Hlift heads)|].
  destruct (head_exists env sl fb heads); [|by eapply (Hlift heads)].
  destruct (heads !! (head_key sl fb)) as [from|] eqn:Ef; [|by eapply (Hlift heads)].
  destruct (copy_tree env from (heads !! (head_key sl sc))) as [ok o] eqn:Ec. destruct ok.
  - injection E as <- <-. right. split; [done|]. destruct (copy_some env Hok _ _ _ Ec) as [t ->].
    exists t. split; [apply (put_eq _ (Some t))|]. exists fb, from, (heads !! (head_key sl sc)).
    split; [by left|]. done.
  - eapply Hlift; [| |exact E]; [|by apply remove_head_eq]. intros k Hk. rewrite remove_head_ne by done. by apply put_ne.
Qed.

Lemma resolve_scope_dir_ne env sl opts k heads : k <> (head_key sl (scope opts)) ->
  (resolve_scope_dir env sl opts heads).2 !! k = heads !! k.
Proof. intros Hk. unfold resolve_scope_dir. repeat case_match; [done|by apply seed_from_ne|done]. Qed.

Lemma enforce_max_size_ne env k k' max heads : k' <> k ->
  (enforce_max_size measure env k max heads).2 !! k' = heads !! k'.
Proof. intros Hk. unfold enforce_max_size. repeat case_match; try done; by apply remove_head_ne. Qed.

(** The cap of a declaration, when it has one. *)
Definition cap_of (max : option str) : option N :=
  m ← max; match parse_size m with Ok cap => Some cap | Err _ => None end.
Definition within (max : option str) (t : T) : Prop := forall cap, cap_of max = Some cap -> (measure t <= cap)%N.

Lemma enforce_max_size_spec env k max heads dropped heads' : LocalOk env ->
  enforce_max_size measure env k max heads = (dropped, heads') ->
  if dropped then heads' !! k = None /\ exists t, heads !! k = Some t /\ ~ within max t
  else heads' = heads /\ forall t, heads !! k = Some t -> within max t.
Proof.
  unfold enforce_max_size, within, cap_of. intros Hok E. destruct max as [m|]; simpl; [|by simplify_eq].
  destruct (parse_size m) as [cap|] eqn:Ep; [|by simplify_eq].
  destruct (_ <=? cap)%N eqn:El; bool_simpl.
  - simplify_eq. split; [done|]. intros t Ht cap' [= <-]. by rewrite Ht in El.
  - pose proof (remove_head_eq env k heads Hok) as Hr. unfold remove_head in *. destruct (heads !! k) as [t|] eqn:Et; [|lia].
    rewrite (remove_all env Hok) in *. simplify_eq. split; [done|]. exists t. split; [done|]. intros H.
    specialize (H cap eq_refl). lia.
Qed.

Lemma create_head_ne env k k' heads h : k' <> k -> create_head empty_dir env k heads = Ok h -> h !! k' = heads !! k'.
Proof. intros Hk. unfold create_head. repeat case_match; intros; simplify_eq; [done|by apply lookup_insert_ne]. Qed.
Lemma create_head_spec env k heads : LocalOk env ->
  exists h, create_head empty_dir env k heads = Ok h /\ h !! k = Some (default empty_dir (heads !! k)).
Proof.
  intros Hok. unfold create_head. rewrite (create_ok env Hok). destruct (heads !! k) eqn:E; [eauto|].
  eexists. split; [done|]. apply lookup_insert_eq.
Qed.

Lemma pull_if_cold_ne env k k' heads : k' <> k ->
  (pull_if_cold empty_dir is_cold env k heads).2 !! k' = heads !! k'.
Proof.
  intros Hk. unfold pull_if_cold. repeat case_match; simpl; simplify_eq/=; try done.
  all: try (erewrite create_head_ne by eauto); try (rewrite remove_head_ne by done); by apply lookup_insert_ne.
Qed.

Lemma pull_if_cold_spec env k heads t0 pulled h : LocalOk env -> heads !! k = Some t0 ->
  pull_if_cold empty_dir is_cold env k heads = (pulled, h) ->
  match pulled with
  | Some n => is_cold t0 = true /\ exists snap t, remote_head env = Some snap /\ n = sn_bytes snap /\
      scratch_pull env snap t0 = (true, t) /\ h !! k = Some t
  | None => h !! k = Some t0 \/ is_cold t0 = true /\ h !! k = Some empty_dir
  end.
Proof.
  unfold pull_if_cold. intros Hok Ht E. rewrite Ht in E. destruct (is_cold t0) eqn:Ec; simpl in E; [|simplify_eq; by left].
  destruct (remote_head env) as [snap|] eqn:Er; [|simplify_eq; by left].
  destruct (scratch_pull env snap t0) as [ok t] eqn:Ep. destruct ok.
  - simplify_eq. split; [done|]. exists snap, t. split_and!; try done. apply lookup_insert_eq.
  - destruct (create_head_spec env k (remove_head env k (<[k:=t]> heads)).2 Hok) as (h' & Eh & Hh).
    rewrite Eh in E. simplify_eq. right. split; [done|]. by rewrite Hh, remove_head_eq.
Qed.

(** What a target finds in its directory, by what was done. *)
Definition delivered env sl (opts : ScratchOptions) (def : ScratchDef) heads (p : Prepared) (t : T) : Prop :=
  let own := (head_key sl (scope opts)) in
  let failed_pull t0 := sd_remote def = true /\ is_cold t0 = true /\ t = empty_dir in
  match p with
  | Warm => exists t0, heads !! own = Some t0 /\ within (sd_max_size def) t0 /\ (t = t0 \/ failed_pull t0)
  | Seeded => heads !! own = None /\ seed_on_fork opts = true /\
      exists t0, seeded_by env sl (scope opts) (restore_scopes opts) heads t0 /\ within (sd_max_size def) t0 /\ (t = t0 \/ failed_pull t0)
  | Cold => heads !! own = None /\ t = empty_dir
  | Pulled => sd_remote def = true /\ (forall t0, heads !! own = Some t0 -> within (sd_max_size def) t0) /\ exists snap t0, remote_head env = Some snap /\ is_cold t0 = true /\ scratch_pull env snap t0 = (true, t)
  | DroppedOverMax => t = empty_dir /\ exists t0, ~ within (sd_max_size def) t0 /\
      (heads !! own = Some t0 \/ seeded_by env sl (scope opts) (restore_scopes opts) heads t0)
  | Audit => False
  end.

Lemma resolve_scope_dir_spec env sl opts heads p h : LocalOk env ->
  resolve_scope_dir env sl opts heads = (p, h) -> let own := (head_key sl (scope opts)) in
  (p = Warm /\ h = heads /\ is_Some (heads !! own)) \/
  (p = Cold /\ heads !! own = None /\ h !! own = None) \/
  (p = Seeded /\ heads !! own = None /\ seed_on_fork opts = true /\
    exists t, h !! own = Some t /\ seeded_by env sl (scope opts) (restore_scopes opts) heads t).
Proof.
  unfold resolve_scope_dir, head_exists. intros Hok. rewrite (seen_all env Hok), andb_true_r.
  case_bool_decide as Hs; [intros [= <- <-]; by left|]. apply eq_None_not_Some in Hs.
  destruct (seed_on_fork opts) eqn:Ef; intros E; [|right; left; naive_solver].
  destruct (seed_from_spec env _ _ _ Hok _ _ _ Hs E) as [[-> H]|(-> & H)]; right; [by left|by right].
Qed.

(** Preparing changes one head. *)
Lemma prepare_scratch_dir_ne env sl opts def no_scratch heads k : k <> (head_key sl (scope opts)) ->
  (prepare_scratch_dir empty_dir is_cold measure env sl opts def no_scratch heads).2 !! k = heads !! k.
Proof.
  intros Hk. unfold prepare_scratch_dir. destruct no_scratch; [done|].
  pose proof (resolve_scope_dir_ne env sl opts k heads Hk) as Hr. destruct (resolve_scope_dir env sl opts heads) as [p1 h1].
  pose proof (enforce_max_size_ne env _ k (sd_max_size def) h1 Hk) as He.
  destruct (enforce_max_size measure env (head_key sl (scope opts)) (sd_max_size def) h1) as [dropped h2]. simpl in Hr, He. rewrite <- Hr, <- He.
  destruct (create_head empty_dir env (head_key sl (scope opts)) h2) as [h3|] eqn:E3; [|done].
  rewrite <- (create_head_ne env _ k h2 h3 Hk E3). destruct (sd_remote def && negb dropped); [|done].
  pose proof (pull_if_cold_ne env _ k h3 Hk) as Hp. by destruct (pull_if_cold empty_dir is_cold env (head_key sl (scope opts)) h3).
Qed.

(** C20: whatever the disk and the remote store do, preparing a directory changes nothing but
    the head its slot and scope lead to, and an audit not even that. On a disk that works it
    always gives a directory, and what is in it is what the outcome that is reported says:
    untouched when warm, the copy of an allowed scope when seeded, empty when cold or over
    the cap, the snapshot when pulled - never in place of what was just dropped; and only a
    snapshot may be over the cap. *)
Theorem scratch_prepare_exact env sl opts def no_scratch heads r heads' :
  prepare_scratch_dir empty_dir is_cold measure env sl opts def no_scratch heads = (r, heads') ->
  let own := (head_key sl (scope opts)) in
  (forall k, k <> own -> heads' !! k = heads !! k) /\
  (no_scratch = true -> heads' = heads) /\
  (LocalOk env -> exists p, r = Ok p /\
     (no_scratch = true -> p = Audit) /\
     (no_scratch = false -> exists t, heads' !! own = Some t /\ delivered env sl opts def heads p t /\
        (measure empty_dir = 0%N -> p <> Pulled -> within (sd_max_size def) t))).
Proof.
  intros E own. split; [|split].
  - intros k Hk. by rewrite <- (prepare_scratch_dir_ne env sl opts def no_scratch heads k Hk), E.
  - intros ->. by injection E.
  - intros Hok. unfold prepare_scratch_dir in E. destruct no_scratch.
    { injection E as <- <-. rewrite (create_ok env Hok). by exists Audit. }
    fold own in E. destruct (resolve_scope_dir env sl opts heads) as [p1 h1] eqn:E1.
    destruct (enforce_max_size measure env own (sd_max_size def) h1) as [dropped h2] eqn:E2.
    destruct (create_head_spec env own h2 Hok) as (h3 & E3 & H3). rewrite E3 in E.
    pose proof (resolve_scope_dir_spec env sl opts heads p1 h1 Hok E1) as H1. fold own in H1.
    pose proof (enforce_max_size_spec env own _ h1 dropped h2 Hok E2) as H2. clear E1 E2 E3. destruct dropped.
    { rewrite andb_false_r in E. injection E as <- <-. destruct H2 as (H2 & t0 & Ht0 & Hw). rewrite H2 in H3. simpl in H3.
      eexists. split; [done|]. split; [done|]. intros _. eexists. split; [done|]. split.
      - split; [done|]. exists t0. split; [done|]. naive_solver.
      - intros H _ cap _. rewrite H. lia. }
    destruct H2 as [-> Hw]. rewrite andb_true_r in E.
    assert (exists t0, h3 !! own = Some t0 /\ delivered env sl opts def heads p1 t0 /\
      (measure empty_dir = 0%N -> within (sd_max_size def) t0) /\
      (sd_remote def = true -> is_cold t0 = true -> delivered env sl opts def heads p1 empty_dir) /\
      (forall t1, heads !! own = Some t1 -> within (sd_max_size def) t1)) as (t0 & Ht0 & Hd & Hc & Hf & Hown).
    { destruct H1 as [(-> & -> & t & Ht)|[(-> & Hn & Hn')|(-> & Hn & Hs & t & Ht & Hb)]].
      - rewrite Ht in H3. exists t. split; [done|]. simpl. naive_solver.
      - rewrite Hn' in H3. exists empty_dir. split; [done|]. split; [done|]. split; [|split; [done|]].
        + intros H cap _. rewrite H. lia.
        + intros t1 Ht1. congruence.
      - rewrite Ht in H3. exists t. split; [done|]. split; [simpl; naive_solver|]. split; [auto|]. split; [simpl; naive_solver|]. intros t1 Ht1. congruence. }
    destruct (sd_remote def) eqn:Er; [|injection E as <- <-; exists p1; do 2 (split; [done|]); eauto 10].
    destruct (pull_if_cold empty_dir is_cold env own h3) as [pulled h4] eqn:E4. injection E as <- <-.
    apply (pull_if_cold_spec env own h3 t0) in E4; [|done..]. eexists. split; [done|]. split; [done|]. intros _. destruct pulled.
    + destruct E4 as (Hcold & snap & t & Hsnap & _ & Hpull & Ht). exists t. split; [done|]. split; [|done]. simpl. eauto 10.
    + destruct E4 as [H4|[Hcold H4]]; [eauto 10|]. exists empty_dir. split; [done|]. split; [auto|].
      intros H _ cap _. rewrite H. lia.
Qed.
End preparing.

(** ** Sweeping *)

Lemma opt_leb_total a b : opt_leb a b = false -> opt_leb b a = true.
Proof. destruct a, b; simpl; intros; bool_simpl; try done. apply N.leb_le. lia. Qed.
Lemma opt_leb_trans a b c : opt_leb a b = true -> opt_leb b c = true -> opt_leb a c = true.
Proof. destruct a, b, c; simpl; intros; bool_simpl; try done. apply N.leb_le. lia. Qed.

Lemma name_leb_iff (a b : str) : match str_compare a b with Gt => false | _ => true end = true <-> ~ str_lt b a.
Proof. pose proof (str_compare_gt a b) as H. destruct (str_compare a b); naive_solver. Qed.

Lemma newest_leb_total a b : newest_leb a b = false -> newest_leb b a = true.
Proof.
  unfold newest_leb. destruct (opt_leb (se_last_used b) (se_last_used a)) eqn:E1, (opt_leb (se_last_used a) (se_last_used b)) eqn:E2; try done.
  - intros H. apply name_leb_iff. apply not_true_iff_false in H. rewrite name_leb_iff in H.
    intros H'. apply H. intros H''. by apply (str_lt_irrefl (se_slot a)), (str_lt_trans _ (se_slot b)).
  - by rewrite (opt_leb_total _ _ E1) in E2.
Qed.
Lemma newest_leb_trans a b c : newest_leb a b = true -> newest_leb b c = true -> newest_leb a c = true.
Proof.
  unfold newest_leb. destruct (opt_leb (se_last_used b) (se_last_used a)) eqn:E1; [|done].
  destruct (opt_leb (se_last_used c) (se_last_used b)) eqn:E2; [|done].
  rewrite (opt_leb_trans _ _ _ E2 E1). destruct (opt_leb (se_last_used a) (se_last_used c)) eqn:E3; [|done].
  rewrite (opt_leb_trans _ _ _ E3 E2), (opt_leb_trans _ _ _ E1 E3), !name_leb_iff. unfold str_lt. intros H1 H2 H3.
  destruct (str_compare (se_slot b) (se_slot a)) eqn:Eb; [| |].
  - apply str_compare_eq in Eb. congruence.
  - done.
  - apply str_compare_gt in Eb. apply H2. by eapply str_lt_trans.
Qed.

Lemma scratch_slots_sorted store : StronglySorted (fun a b => newest_leb a b = true) (scratch_slots store).
Proof. apply sort_by_sorted; [apply newest_leb_total|apply newest_leb_trans]. Qed.

Section sweeping.
Context (removable : str -> bool).
Implicit Types (slots : list SlotEntry).

Definition drop_all slots (acc : list str * N) : list str * N := foldl (fun acc s => drop_slot removable s acc) acc slots.
Definition bytes_of slots : N := total_bytes (se_bytes <$> slots).

Lemma bytes_of_cons s l : bytes_of (s :: l) = (se_bytes s + bytes_of l)%N.
Proof. done. Qed.
Lemma bytes_of_app l k : bytes_of (l ++ k) = (bytes_of l + bytes_of k)%N.
Proof. induction l as [|s l IH]; [done|]. simpl. rewrite !bytes_of_cons, IH. lia. Qed.
Lemma bytes_of_reverse l : bytes_of (reverse l) = bytes_of l.
Proof. induction l as [|s l IH]; [done|]. rewrite reverse_cons, bytes_of_app, IH, !bytes_of_cons. unfold bytes_of. simpl. lia. Qed.

Lemma drop_all_spec slots r b : drop_all slots (r, b) =
  (r ++ (se_slot <$> List.filter (fun s => removable (se_slot s)) slots),
   b + bytes_of (List.filter (fun s => removable (se_slot s)) slots))%N.
Proof.
  revert r b. unfold drop_all. induction slots as [|s slots IH]; intros r b; simpl; [by rewrite app_nil_r, N.add_0_r|].
  unfold drop_slot at 2. simpl. destruct (removable (se_slot s)); rewrite IH; [|done].
  simpl. rewrite <- app_assoc, bytes_of_cons. f_equal. lia.
Qed.

Lemma retain_fresh_spec now max_age slots acc : retain_fresh removable now max_age slots acc =
  (List.filter (fun s => negb (is_stale now max_age s)) slots, drop_all (List.filter (is_stale now max_age) slots) acc).
Proof.
  revert acc. induction slots as [|s slots IH]; intros acc; simpl; [done|].
  destruct (is_stale now max_age s); simpl; by rewrite IH.
Qed.

Lemma evict_loop_spec m slots acc : exists gone kept, slots = gone ++ kept /\
  evict_loop removable m (bytes_of slots) slots acc = (kept, drop_all gone acc) /\
  (bytes_of kept <= m)%N /\ (forall gone' s, gone = gone' ++ [s] -> (m < bytes_of (s :: kept))%N).
Proof.
  revert acc. induction slots as [|s slots IH]; intros acc.
  - exists [], []. split_and!; [done| |unfold bytes_of; simpl; lia|by intros [|] ? ?].
    simpl. by case_match.
  - simpl. destruct (_ <=? m)%N eqn:El; bool_simpl.
    { exists [], (s :: slots). split_and!; [done..|by intros [|] ? ?]. }
    replace (saturating_sub (bytes_of (s :: slots)) (se_bytes s)) with (bytes_of slots)
      by (unfold saturating_sub; rewrite bytes_of_cons; lia).
    destruct (IH (drop_slot removable s acc)) as (gone & kept & -> & -> & Hk & Hg).
    exists (s :: gone), kept. split_and!; [done..|]. intros [|x gone'] y [= -> Hgone].
    + subst gone. exact El.
    + by eapply Hg.
Qed.

(** A sweep removes every slot whose newest file is too old, and of the others the least
    recently used ones, whole, until what is left fits: what it keeps is the most recently
    used part, it fits, and with the next slot it would not. It reports the slots it could
    remove and their bytes; one that it could not remove is counted as gone all the same. *)
Theorem scratch_sweep_exact max_bytes max_age now store : exists kept gone removed freed,
  scratch_sweep removable max_bytes max_age now store = (kept, (removed, freed)) /\
  let stale s := match max_age with Some a => is_stale now a s | None => false end in
  let slots := scratch_slots store in
  let dropped := List.filter stale slots ++ gone in
  StronglySorted (fun a b => newest_leb a b = true) slots /\
  List.filter (fun s => negb (stale s)) slots = kept ++ reverse gone /\
  match max_bytes with
  | Some m => (bytes_of kept <= m)%N /\ forall s older, reverse gone = s :: older -> (m < bytes_of (kept ++ [s]))%N
  | None => gone = []
  end /\
  removed = se_slot <$> List.filter (fun s => removable (se_slot s)) dropped /\
  freed = bytes_of (List.filter (fun s => removable (se_slot s)) dropped).
Proof.
  unfold scratch_sweep. set (slots := scratch_slots store).
  set (stale := fun s => match max_age with Some a => is_stale now a s | None => false end).
  assert ((match max_age with Some a => retain_fresh removable now a slots ([], 0%N) | None => (slots, ([], 0%N)) end) =
    (List.filter (fun s => negb (stale s)) slots, drop_all (List.filter stale slots) ([], 0%N))) as ->.
  { subst stale. destruct max_age as [a|]; [apply retain_fresh_spec|]. simpl.
    assert (forall l : list SlotEntry, List.filter (fun _ => true) l = l /\ List.filter (fun _ => false) l = []) as H.
    { induction l as [|s l [IH1 IH2]]; simpl; [done|]. by rewrite IH1, IH2. }
    destruct (H slots) as [-> ->]. done. }
  pose proof (scratch_slots_sorted store) as Hsort.
  set (fresh := List.filter (fun s => negb (stale s)) slots). destruct max_bytes as [m|].
  - destruct (evict_loop_spec m (reverse fresh) (drop_all (List.filter stale slots) ([], 0%N))) as (gone & kept & Hf & He & Hk & Hg).
    rewrite bytes_of_reverse in He. unfold bytes_of in He at 1. rewrite He.
    assert (fresh = reverse kept ++ reverse gone) as Hfresh by (by rewrite <- reverse_app, <- Hf, reverse_involutive).
    exists (reverse kept), gone. pose proof (drop_all_spec (List.filter stale slots ++ gone) [] 0%N) as Hd.
    unfold drop_all in Hd at 1. rewrite foldl_app in Hd. eexists _, _. split; [f_equal; exact Hd|]. simpl. split_and!; try done.
    + by rewrite bytes_of_reverse.
    + intros s older Hr. rewrite bytes_of_app, bytes_of_reverse, N.add_comm, <- bytes_of_app. apply (Hg (reverse older)).
      by rewrite <- (reverse_involutive gone), Hr, reverse_cons.
  - exists fresh, []. eexists _, _. split; [f_equal; apply drop_all_spec|]. simpl. rewrite !app_nil_r. done.
Qed.
End sweeping.

(** ** Scopes of a slot *)

Definition kept_char (c : char) : bool := is_ascii_alphanumeric c || (c =? #".")%N || (c =? #"-")%N || (c =? #"_")%N.
Lemma sanitize_scope_id sc : sc <> [] -> Forall (fun c => kept_char c = true) sc -> sanitize_scope sc = sc.
Proof.
  intros Hn H. destruct sc as [|c sc]; [done|]. unfold sanitize_scope. induction H as [|d l Hd Hl IH]; [done|].
  simpl. f_equal; [|destruct l as [|e l]; [done|by apply IH]]. unfold sanitize_char. unfold kept_char in Hd. by rewrite Hd.
Qed.

(** Scopes that are spelled with the characters a name keeps have directories of their own. *)
Lemma scopes_apart sl a b : a <> [] -> b <> [] -> Forall (fun c => kept_char c = true) a -> Forall (fun c => kept_char c = true) b ->
  head_dir sl a = head_dir sl b -> a = b.
Proof.
  intros Ha Hb Ka Kb. unfold head_dir, lineage_dir. rewrite !sanitize_scope_id by done. by intros [= ->].
Qed.

(** A branch [feature/x] has the directory of a branch [feature_x]: what one left there is
    warm for the other. And the name of a directory may be [..], which all slots share. *)
Lemma scopes_conflated sl sl' :
  head_dir sl $"feature/x" = head_dir sl $"feature_x" /\ lineage_dir sl $".." = slot_dir sl ++ [$".."] /\
  head_key sl $".." = head_key sl' $".." /\
  forall (T : Type) (e : T) cold measure env def t heads, seen env $"feature_x" = true -> sd_max_size def = None -> sd_remote def = false ->
    prepare_scratch_dir e cold measure env sl (mkOptions $"feature_x" [] true) def false (<[(head_key sl $"feature/x") := t]> heads) =
      (Ok Warm, <[(head_key sl $"feature/x") := t]> heads).
Proof.
  split; [done|]. split; [done|]. split; [done|]. intros T e cold measure env def t heads Hs Hm Hr.
  change (head_key sl $"feature/x") with (head_key sl $"feature_x").
  unfold prepare_scratch_dir, resolve_scope_dir, head_exists, enforce_max_size, create_head. simpl scope.
  rewrite bool_decide_eq_true_2, Hs by (rewrite lookup_insert_eq; eauto). simpl. by rewrite Hm, lookup_insert_eq, Hr.
Qed.

(** ** Concrete inputs *)

(** Directories with the numbers in them. A copy fails from the directory with a 9. *)
Definition sample_env : Calls (T := list N) := mkCalls (fun _ => true)
  (fun t _ => if decide (9%N ∈ t) then (false, Some []) else (true, Some t)) (fun _ => (true, None)) true
  (Some (mkSnapshot [] 3%N [7; 7; 7]%N)) (fun snap _ => (true, sn_tree snap)).
Definition sample_def : ScratchDef := mkScratchDef $"cache" $"C" Shared [] true (Some $"2").
Definition sample_heads : gmap (str * str) (list N) :=
  {[ ($"s", $"broken") := [9%N]; ($"s", $"main") := [1; 2]%N; ($"s", $"big") := [1; 2; 3]%N ]}.
Definition sample_prepare (sc : str) (fallbacks : list str) :=
  prepare_scratch_dir [] (fun t => bool_decide (t = [])) (fun t => N.of_nat (length t)) sample_env $"s"
    (mkOptions sc fallbacks true) sample_def false sample_heads.

Lemma sample_env_ok : LocalOk sample_env.
Proof. split; try done. intros t v u. simpl. case_decide; naive_solver. Qed.

Lemma scratch_prepare_exact_witness :
  ((sample_prepare $"feature/x" [$"broken"; $"main"]).1 = Ok Seeded /\
   (sample_prepare $"big" []).1 = Ok DroppedOverMax /\ (sample_prepare $"new" []).1 = Ok Pulled /\
   (sample_prepare $"main" []).1 = Ok Warm) /\
  (forall k, k <> ($"s", $"feature_x") -> (sample_prepare $"feature/x" [$"broken"; $"main"]).2 !! k = sample_heads !! k).
Proof.
  split; [by split_and!; vm_compute|]. intros k Hk.
  destruct (scratch_prepare_exact [] (fun t => bool_decide (t = [])) (fun t => N.of_nat (length t)) sample_env $"s"
    (mkOptions $"feature/x" [$"broken"; $"main"] true) sample_def false sample_heads
    (sample_prepare $"feature/x" [$"broken"; $"main"]).1 (sample_prepare $"feature/x" [$"broken"; $"main"]).2) as [H _].
  { apply surjective_pairing. }
  by apply H.
Defined.

(** The paths of mounts are compared as they are spelled: [a/../b] and [b] are one place,
    each is accepted, and together they pass the check. *)
Lemma mounts_overlap_missed :
  let def path env := mkScratchDef path env Exclusive [] false None in
  let refs := [mkResolved (mkAddr $"p" $"x" []) (def $"a/../b" $"X"); mkResolved (mkAddr $"p" $"y" []) (def $"b" $"Y")] in
  validate_path $"a/../b" = Ok () /\ validate_path $"b" = Ok () /\
  place $"a/../b" = Some [$"b"] /\ place $"b" = Some [$"b"] /\ check_resolved refs = Ok refs.
Proof. vm_compute. auto 10. Qed.
