(* ===== verification/ScratchLocks.v ===== *)
(** The consumers of scratch directories, running together: [acquire_scratch] of
    [engine/scratch.rs] and its place in [engine/execute.rs].

    A target takes the lock of each slot it references, in the order of the slots, and
    prepares the directory of a slot when it has its lock; with all of them it waits to be
    admitted, runs and writes into its directories, and lets all the locks go at its end.
    It may also stop before that, by an error or when the request is cancelled.

    Who gets a lock that is free, and who is admitted, is a policy: a parameter, with what
    the locks and the pool promise. *)
From stdpp Require Import sorting relations.
From S2P Require Import Prelude Sorts Nom HtPkg HtAddr Capacity CodegenOverlap Scratch.

(** What a target brings: its references as they were accepted, and the options of its
    engine. *)
Record Consumer := mkConsumer { cn_refs : list ResolvedScratch; cn_opts : ScratchOptions; cn_no_scratch : bool }.

(** How far a target is: before the lock of its [i]-th slot, with that lock, with all of
    them, running, and done. *)
Inductive Phase :=
| Locking (i : nat)
| Preparing (i : nat)
| Queued
| Running
| Finished (ok : bool).

Definition slot_leb {A} (a b : str * A) : bool := match str_compare a.1 b.1 with Gt => false | _ => true end.

Section system.
Context {T : Type} (empty_dir : T) (is_cold : T -> bool) (measure : T -> N) (digest : list N -> N).
Context (consumers : list Consumer).

(** The slots of a target, sorted. *)
Definition ordered (refs : list ResolvedScratch) : list (str * ResolvedScratch) :=
  sort_by slot_leb ((fun r => (slot digest r, r)) <$> refs).

Definition held (ph : Phase) (refs : list ResolvedScratch) : list (str * ResolvedScratch) :=
  match ph with
  | Locking i => take i (ordered refs)
  | Preparing i => take (S i) (ordered refs)
  | Queued | Running => ordered refs
  | Finished _ => []
  end.

(** After the [i]-th slot. *)
Definition next (refs : list ResolvedScratch) (i : nat) : Phase := if decide (i < length refs) then Locking i else Queued.

Record State := mkState { phases : list Phase; heads : gmap (str * str) T }.
Definition init (heads : gmap (str * str) T) : State := mkState ((fun cn => next (cn_refs cn) 0) <$> consumers) heads.

(** A target at its phase, the locks it has and the one it waits for. *)
Definition at_phase (st : State) (c : nat) (cn : Consumer) (ph : Phase) : Prop :=
  consumers !! c = Some cn /\ phases st !! c = Some ph.
Definition holds (st : State) (c : nat) (sl : str) (a : Access) : Prop :=
  exists cn ph r, at_phase st c cn ph /\ (sl, r) ∈ held ph (cn_refs cn) /\ a = sd_access (rs_def r).
Definition wants (st : State) (c : nat) (sl : str) (a : Access) : Prop :=
  exists cn i r, at_phase st c cn (Locking i) /\ ordered (cn_refs cn) !! i = Some (sl, r) /\ a = sd_access (rs_def r).

(** A lock can be had when every guard on it is shared, and so is the one that is asked
    for. Nothing is upgraded: a target that has the lock already waits for itself. *)
Definition free_for (st : State) (sl : str) (a : Access) : Prop := forall c b, holds st c sl b -> a = Shared /\ b = Shared.

Definition set_phase (c : nat) (ph : Phase) (st : State) : State := mkState (<[c := ph]> (phases st)) (heads st).

(** Whom the locks and the pool serve. *)
Variables (may_lock admitted : State -> nat -> Prop).

(** A step of a target on its way to the end. *)
Inductive advance (c : nat) (st : State) : State -> Prop :=
| adv_lock cn i : at_phase st c cn (Locking i) -> may_lock st c -> advance c st (set_phase c (Preparing i) st)
| adv_prepare cn i sl r env res heads' :
    at_phase st c cn (Preparing i) -> ordered (cn_refs cn) !! i = Some (sl, r) ->
    prepare_scratch_dir empty_dir is_cold measure env sl (cn_opts cn) (rs_def r) (cn_no_scratch cn) (heads st) = (res, heads') ->
    advance c st (mkState (<[c := match res with Ok _ => next (cn_refs cn) (S i) | Err _ => Finished false end]> (phases st)) heads')
| adv_admit cn : at_phase st c cn Queued -> admitted st c -> advance c st (set_phase c Running st)
| adv_finish cn ok : at_phase st c cn Running -> advance c st (set_phase c (Finished ok) st).

(** And what may happen at any time: the target that runs writes into one of its
    directories, or one stops. *)
Inductive disturb (c : nat) (st : State) : State -> Prop :=
| dis_write cn sl r t :
    at_phase st c cn Running -> (sl, r) ∈ ordered (cn_refs cn) -> cn_no_scratch cn = false ->
    disturb c st (mkState (phases st) (put (head_key sl (scope (cn_opts cn))) t (heads st)))
| dis_stop cn ph : at_phase st c cn ph -> disturb c st (set_phase c (Finished false) st).

Definition step (c : nat) (st st' : State) : Prop := advance c st st' \/ disturb c st st'.
Definition steps (st st' : State) : Prop := exists c, step c st st'.
Definition advances (st st' : State) : Prop := exists c, advance c st st'.
Definition reachable (st : State) : Prop := exists heads, rtc steps (init heads) st.
Definition all_finished (st : State) : Prop := forall c ph, phases st !! c = Some ph -> exists ok, ph = Finished ok.

(** What is relied on: a lock is given to a target that waits for it and can have it, and
    when nobody has a lock that is waited for, somebody who waits can have it; and when
    nobody runs, somebody who is queued is admitted. *)
Record Policy := {
  lock_sound : forall st c, may_lock st c -> forall sl a, wants st c sl a -> free_for st sl a;
  lock_live : forall st c sl a, wants st c sl a -> (forall c' b, ~ holds st c' sl b) -> exists c' b, wants st c' sl b /\ may_lock st c';
  admit_live : forall st c cn, at_phase st c cn Queued -> (forall c' cn', ~ at_phase st c' cn' Running) ->
    exists c' cn', at_phase st c' cn' Queued /\ admitted st c'
}.

(** ** The order of the locks *)

Lemma slot_leb_total {A} (a b : str * A) : slot_leb a b = false -> slot_leb b a = true.
Proof.
  unfold slot_leb. intros H. apply name_leb_iff. apply not_true_iff_false in H. rewrite name_leb_iff in H.
  intros H'. apply H. intros H''. by apply (str_lt_irrefl a.1), (str_lt_trans _ b.1).
Qed.
Lemma slot_leb_trans {A} (a b c : str * A) : slot_leb a b = true -> slot_leb b c = true -> slot_leb a c = true.
Proof.
  unfold slot_leb. rewrite !name_leb_iff. intros H1 H2 H3.
  destruct (str_compare b.1 a.1) eqn:E; [apply str_compare_eq in E; congruence|done|].
  apply str_compare_gt in E. apply H2. by eapply str_lt_trans.
Qed.
Lemma slot_leb_lt {A} (a b : str * A) : slot_leb a b = true -> a.1 <> b.1 -> str_lt a.1 b.1.
Proof.
  unfold slot_leb, str_lt. intros H Hne. destruct (str_compare a.1 b.1) eqn:E; [by apply str_compare_eq in E|done|done].
Qed.

Lemma ordered_length refs : length (ordered refs) = length refs.
Proof. unfold ordered. by rewrite sort_by_length, length_fmap. Qed.

Lemma ordered_lt refs i j a b : NoDup (slot digest <$> refs) ->
  ordered refs !! i = Some a -> ordered refs !! j = Some b -> i < j -> str_lt a.1 b.1.
Proof.
  intros Hn Ha Hb Hlt. apply slot_leb_lt.
  - by apply (StronglySorted_lookup _ (ordered refs) i j a b (sort_by_sorted _ slot_leb_total slot_leb_trans _)).
  - assert (NoDup (fst <$> ordered refs)) as Hd.
    { unfold ordered. rewrite sort_by_perm, <- list_fmap_compose. exact Hn. }
    intros E. assert (i = j); [|lia]. apply (NoDup_lookup _ i j a.1 Hd); rewrite list_lookup_fmap; [by rewrite Ha|by rewrite Hb, E].
Qed.

Lemma ordered_elem refs sl r : (sl, r) ∈ ordered refs -> r ∈ refs /\ sl = slot digest r.
Proof. unfold ordered. rewrite sort_by_elem. intros (r' & [= -> ->] & H)%list_elem_of_fmap. done. Qed.

Lemma elem_of_held ph refs x : x ∈ held ph refs -> x ∈ ordered refs.
Proof. destruct ph; simpl; intros H; try done; [by apply elem_of_take in H as (? & ? & _); eapply list_elem_of_lookup_2..|by apply elem_of_nil in H]. Qed.

(** ** Steps and locks *)

Lemma at_phase_set c ph st h c' cn ph' :
  at_phase (mkState (<[c := ph]> (phases st)) h) c' cn ph' -> (c' = c /\ ph' = ph /\ consumers !! c = Some cn) \/ (c' <> c /\ at_phase st c' cn ph').
Proof.
  intros [Hc Hp]. simpl in Hp. destruct (decide (c' = c)) as [->|Hne]; [left|right].
  - apply list_lookup_insert_Some in Hp as [(_ & -> & _)|[H _]]; [done|congruence].
  - rewrite list_lookup_insert_ne in Hp by done. done.
Qed.

Lemma at_phase_fun st c cn cn' ph ph' : at_phase st c cn ph -> at_phase st c cn' ph' -> cn = cn' /\ ph = ph'.
Proof. intros [H1 H2] [H3 H4]. split; congruence. Qed.

(** A phase that needs no lock that is not had. *)
Lemma holds_set st c cn ph ph' h c' sl a : at_phase st c cn ph ->
  (forall x, x ∈ held ph' (cn_refs cn) -> x ∈ held ph (cn_refs cn)) ->
  holds (mkState (<[c := ph']> (phases st)) h) c' sl a -> holds st c' sl a.
Proof.
  intros Hat Hsub (cn' & ph'' & r & Hat' & Hin & ->). apply at_phase_set in Hat' as [(-> & -> & Hc)|[Hne Hat']].
  - destruct Hat as [Hc' Hp]. replace cn' with cn in * by congruence. exists cn, ph, r. split_and!; [done..|by apply Hsub|done].
  - exists cn', ph'', r. done.
Qed.

Lemma held_next refs i x : x ∈ held (next refs (S i)) refs -> x ∈ held (Preparing i) refs.
Proof.
  unfold next. case_decide as H; [done|]. simpl. rewrite take_ge; [done|]. rewrite ordered_length. lia.
Qed.
Lemma held_finished refs ok ph x : x ∈ held (Finished ok) refs -> x ∈ held ph refs.
Proof. simpl. by intros H%elem_of_nil. Qed.

Lemma advance_holds c st st' : advance c st st' ->
  (forall c' sl a, holds st' c' sl a -> holds st c' sl a) \/
  (exists cn i sl r, at_phase st c cn (Locking i) /\ ordered (cn_refs cn) !! i = Some (sl, r) /\ may_lock st c /\
    forall c' sl' a, holds st' c' sl' a -> holds st c' sl' a \/ c' = c /\ sl' = sl /\ a = sd_access (rs_def r)) \/
  (exists cn i, at_phase st c cn (Locking i) /\ forall c' sl a, holds st' c' sl a -> holds st c' sl a).
Proof.
  intros [cn i Hat Hm|cn i sl r env res h' Hat Ho Hp|cn Hat Ha|cn ok Hat].
  - destruct (ordered (cn_refs cn) !! i) as [[sl r]|] eqn:Eo.
    + right; left. exists cn, i, sl, r. split_and!; [done..|]. intros c' sl' a (cn' & ph & r' & Hat' & Hin & ->).
      apply at_phase_set in Hat' as [(-> & -> & Hc)|[Hne Hat']]; [|left; by exists cn', ph, r'].
      destruct Hat as [Hc' Hph]. replace cn' with cn in * by congruence. simpl in Hin. rewrite (take_S_r _ _ _ Eo) in Hin.
      apply elem_of_app in Hin as [Hin|[= -> ->]%list_elem_of_singleton]; [left|by right]. by exists cn, (Locking i), r'.
    + right; right. exists cn, i. split; [done|]. intros c' sl a. eapply holds_set; [done|]. intros x. simpl.
      apply lookup_ge_None in Eo. by rewrite !take_ge by lia.
  - left. intros c' sl' a. eapply holds_set; [done|]. intros x. destruct res; [apply held_next|apply held_finished].
  - left. intros c' sl' a. by eapply holds_set.
  - left. intros c' sl' a. eapply holds_set; [done|]. intros x. apply held_finished.
Qed.

Lemma disturb_holds c st st' c' sl a : disturb c st st' -> holds st' c' sl a -> holds st c' sl a.
Proof. intros [cn sl' r t Hat Hin Hn|cn ph Hat]; [done|]. eapply holds_set; [done|]. intros x. apply held_finished. Qed.

(** Two targets have one lock only when both share it. *)
Definition exclusive (st : State) : Prop := forall c c' sl a b, c <> c' -> holds st c sl a -> holds st c' sl b -> a = Shared /\ b = Shared.
(** A phase points at a slot of its target. *)
Definition in_range (st : State) : Prop := length (phases st) = length consumers /\
  forall c cn i, at_phase st c cn (Locking i) \/ at_phase st c cn (Preparing i) -> i < length (cn_refs cn).

Lemma next_in_range refs j i : next refs j = Locking i \/ next refs j = Preparing i -> i < length refs.
Proof. unfold next. case_decide; intros [H'|H']; naive_solver. Qed.

Lemma in_range_set st c cn ph h : in_range st -> consumers !! c = Some cn ->
  (forall i, ph = Locking i \/ ph = Preparing i -> i < length (cn_refs cn)) -> in_range (mkState (<[c := ph]> (phases st)) h).
Proof.
  intros [Hl Hr] Hc Hp. split; [simpl; by rewrite length_insert|].
  intros c' cn' i [H|H]; apply at_phase_set in H as [(-> & Ei & Hc')|[Hne H]]; try (eapply Hr; eauto; done).
  - replace cn' with cn by congruence. apply Hp. by left.
  - replace cn' with cn by congruence. apply Hp. by right.
Qed.

Lemma step_in_range c st st' : in_range st -> step c st st' -> in_range st'.
Proof.
  intros Hr [[cn i Hat Hm|cn i sl r env res h' Hat Ho Hp|cn Hat Ha|cn ok Hat]|[cn sl r t Hat Hin Hn|cn ph Hat]]; [..|done|];
    (eapply in_range_set; [done|by destruct Hat|]); intros j Hj.
  - destruct Hj as [|[= <-]]; [done|]. apply (proj2 Hr c). by left.
  - destruct res; [by eapply next_in_range|naive_solver].
  - naive_solver.
  - naive_solver.
  - naive_solver.
Qed.

Lemma step_exclusive (pol : Policy) c st st' : exclusive st -> step c st st' -> exclusive st'.
Proof.
  intros He [Ha|Hd] c1 c2 sl a b Hne H1 H2; [|eapply He; [done|by eapply disturb_holds..]].
  destruct (advance_holds c st st' Ha) as [H|[(cn & i & sl' & r & Hat & Ho & Hm & H)|(cn & i & _ & H)]]; [by eapply He; eauto| |by eapply He; eauto].
  assert (free_for st sl' (sd_access (rs_def r))) as Hf by (apply (lock_sound pol st c Hm); by exists cn, i, r).
  destruct (H _ _ _ H1) as [H1'|(? & ? & ?)], (H _ _ _ H2) as [H2'|(? & ? & ?)]; subst.
  - by eapply He.
  - destruct (Hf _ _ H1') as [-> ->]. done.
  - by apply (Hf _ _ H2').
  - done.
Qed.

Lemma init_holds hs c sl a : ~ holds (init hs) c sl a.
Proof.
  intros (cn & ph & r & [Hc Hp] & Hin & _). unfold init in Hp. simpl in Hp. rewrite list_lookup_fmap, Hc in Hp. injection Hp as <-.
  revert Hin. unfold next. case_decide as H; [by intros Hin%elem_of_nil|]. simpl. intros [Hin _]%ordered_elem.
  destruct (cn_refs cn); [by apply elem_of_nil in Hin|simpl in H; lia].
Qed.

Lemma reachable_ok (pol : Policy) st : reachable st -> exclusive st /\ in_range st.
Proof.
  intros [hs Hr]. apply (rtc_ind_r (R := steps) (fun st => exclusive st /\ in_range st) (init hs)); [| |done].
  - split; [by intros c c' sl a b _ H%init_holds|]. split; [by unfold init; simpl; rewrite length_fmap|].
    intros c cn i H. assert (next (cn_refs cn) 0 = Locking i \/ next (cn_refs cn) 0 = Preparing i) as Hn; [|by eapply next_in_range].
    unfold at_phase, init in H. simpl in H. destruct H as [[Hc Hp]|[Hc Hp]]; rewrite list_lookup_fmap, Hc in Hp; simpl in Hp; injection Hp; auto.
  - intros s1 s2 _ [c Hs] [He Hi]. split; [by eapply step_exclusive|by eapply step_in_range].
Qed.

(** ** Progress *)

Lemma prepares_slot st c cn i sl r : at_phase st c cn (Preparing i) -> ordered (cn_refs cn) !! i = Some (sl, r) ->
  holds st c sl (sd_access (rs_def r)).
Proof.
  intros Hat Ho. exists cn, (Preparing i), r. split_and!; [done| |done]. simpl. rewrite (take_S_r _ _ _ Ho). apply elem_of_app. right. by left.
Qed.

(** The name of a slot is not empty. *)
Lemma slot_nonempty st c sl a : holds st c sl a -> sl <> [].
Proof.
  intros (cn & ph & r & _ & Hin & _). assert ((sl, r) ∈ ordered (cn_refs cn)) as Ho.
  { destruct ph; simpl in Hin; try done; [..|by apply elem_of_nil in Hin]; by eapply elem_of_take in Hin as (? & ?%list_elem_of_lookup_2 & _). }
  unfold ordered in Ho. rewrite sort_by_perm in Ho. apply list_elem_of_fmap in Ho as (r' & [= -> ->] & _).
  apply slot_ne.
Qed.
Lemma head_key_ne (sl sl' dir scope : str) : sl <> [] -> sl' <> sl -> (sl, dir) <> head_key sl' scope.
Proof. unfold head_key. case_decide; congruence. Qed.

(** A step changes a head of a slot only when it is a step of somebody who has its lock. *)
Lemma step_heads c st st' sl dir : sl <> [] -> step c st st' -> heads st' !! (sl, dir) = heads st !! (sl, dir) \/ exists a, holds st c sl a.
Proof.
  intros Hsl [[cn i Hat Hm|cn i sl' r env res h' Hat Ho Hp|cn Hat Ha|cn ok Hat]|[cn sl' r t Hat Hin Hn|cn ph Hat]]; simpl; auto;
    (destruct (decide (sl' = sl)) as [->|Hne]; [right|left]).
  - eexists. by eapply prepares_slot.
  - rewrite <- (prepare_scratch_dir_ne empty_dir is_cold measure env sl' (cn_opts cn) (rs_def r) (cn_no_scratch cn) (heads st)) by (by apply head_key_ne).
    by rewrite Hp.
  - eexists. by exists cn, Running, r.
  - by apply put_ne, head_key_ne.
Qed.

Lemma exists_max (l : list str) : l <> [] -> exists m, m ∈ l /\ forall x, x ∈ l -> ~ str_lt m x.
Proof.
  induction l as [|x l IH]; [done|]. intros _. destruct l as [|y l].
  - exists x. split; [by left|]. intros z ->%list_elem_of_singleton. apply str_lt_irrefl.
  - destruct IH as (m & Hm & Hmax); [done|]. destruct (str_compare m x) eqn:E.
    + exists m. split; [by right|]. apply str_compare_eq in E as ->. intros z [->|Hz]%elem_of_cons; [apply str_lt_irrefl|by apply Hmax].
    + exists x. split; [by left|]. intros z [->|Hz]%elem_of_cons; [apply str_lt_irrefl|]. intros H. by apply (Hmax z), (str_lt_trans _ x).
    + exists m. split; [by right|]. intros z [->|Hz]%elem_of_cons; [|by apply Hmax]. unfold str_lt. by rewrite E.
Qed.

Lemma in_range_at st c ph : in_range st -> phases st !! c = Some ph -> exists cn, at_phase st c cn ph.
Proof.
  intros [Hl _] Hp. destruct (consumers !! c) as [cn|] eqn:E; [by exists cn|].
  apply lookup_ge_None in E. apply lookup_lt_Some in Hp. lia.
Qed.
Lemma in_range_slot st c cn i : in_range st -> at_phase st c cn (Locking i) \/ at_phase st c cn (Preparing i) ->
  exists sl r, ordered (cn_refs cn) !! i = Some (sl, r).
Proof.
  intros [_ Hr] H. apply Hr in H. rewrite <- ordered_length in H. apply lookup_lt_is_Some in H as [[sl r] H]. eauto.
Qed.

(** The slot a target waits for. *)
Definition wanted (st : State) (c : nat) : option str :=
  cn ← consumers !! c; ph ← phases st !! c;
  match ph with Locking i => fst <$> ordered (cn_refs cn) !! i | _ => None end.

(** When all that is left waits for locks, the last slot that is waited for is held by
    nobody: who has it waits for a later one. *)
Lemma last_slot_free st : in_range st -> (forall cn, cn ∈ consumers -> NoDup (slot digest <$> cn_refs cn)) ->
  (forall c cn ph, at_phase st c cn ph -> (exists i, ph = Locking i) \/ (exists ok, ph = Finished ok)) ->
  forall c ph, phases st !! c = Some ph -> (forall ok, ph <> Finished ok) ->
  exists c' sl a, wants st c' sl a /\ forall c'' b, ~ holds st c'' sl b.
Proof.
  intros Hr Hn Hall c ph Hp Hf.
  assert (forall c cn i, at_phase st c cn (Locking i) -> exists sl r, ordered (cn_refs cn) !! i = Some (sl, r) /\
    sl ∈ omap (wanted st) (seq 0 (length consumers))) as Hw.
  { intros d cn i Hat. destruct (in_range_slot st d cn i Hr (or_introl Hat)) as (sl & r & Ho). exists sl, r. split; [done|].
    apply list_elem_of_omap. exists d. destruct Hat as [Hc Hph]. split.
    - apply elem_of_seq. apply lookup_lt_Some in Hc. lia.
    - unfold wanted. rewrite Hc, Hph. simpl. by rewrite Ho. }
  destruct (exists_max (omap (wanted st) (seq 0 (length consumers)))) as (m & Hm & Hmax).
  { destruct (in_range_at st c ph Hr Hp) as [cn Hat]. destruct (Hall _ _ _ Hat) as [[i ->]|[ok ->]]; [|by destruct (Hf ok)].
    destruct (Hw _ _ _ Hat) as (sl & _ & _ & Hin). by destruct (omap _ _); [apply elem_of_nil in Hin|]. }
  apply list_elem_of_omap in Hm as (d & _ & Hd). unfold wanted in Hd.
  destruct (consumers !! d) as [cn|] eqn:Hc; [|done]. destruct (phases st !! d) as [phd|] eqn:Hph; [|done]. simpl in Hd.
  destruct phd as [i| | | |]; try done. apply fmap_Some in Hd as ([m' r] & Ho & ->). simpl in *.
  exists d, m', (sd_access (rs_def r)). split; [by exists cn, i, r|]. intros e b (cn' & ph' & r' & Hat & Hin & _).
  destruct (Hall _ _ _ Hat) as [[j ->]|[ok ->]]; [|by apply elem_of_nil in Hin]. simpl in Hin.
  apply elem_of_take in Hin as (k & Hk & Hlt). destruct (Hw _ _ _ Hat) as (sl & r'' & Hj & Hin). apply (Hmax sl Hin).
  apply (ordered_lt (cn_refs cn') k j (m', r') (sl, r'')); [|done..]. apply Hn. destruct Hat. by eapply list_elem_of_lookup_2.
Qed.

Lemma phase_search st (P : Phase -> bool) :
  (exists c ph, phases st !! c = Some ph /\ P ph = true) \/ (forall c ph, phases st !! c = Some ph -> P ph = false).
Proof.
  destruct (existsb P (phases st)) eqn:E.
  - left. apply existsb_exists in E as (ph & Hin & HP). apply list_elem_of_In, list_elem_of_lookup in Hin as [c Hc]. eauto.
  - right. intros c ph Hc. apply not_true_iff_false. intros HP. apply not_true_iff_false in E. apply E, existsb_exists.
    exists ph. split; [|done]. apply list_elem_of_In. by eapply list_elem_of_lookup_2.
Qed.

Definition some_calls : Calls (T := T) := mkCalls (fun _ => true) (fun t _ => (true, Some t)) (fun _ => (true, None)) true None (fun _ t => (true, t)).

Lemma progress (pol : Policy) st c ph : in_range st -> (forall cn, cn ∈ consumers -> NoDup (slot digest <$> cn_refs cn)) ->
  phases st !! c = Some ph -> (forall ok, ph <> Finished ok) -> exists c' st', advance c' st st'.
Proof.
  intros Hr Hn Hp Hf.
  destruct (phase_search st (fun ph => match ph with Preparing _ => true | _ => false end)) as [(d & [|i| | |] & Hd & [=])|Hprep].
  { destruct (in_range_at _ _ _ Hr Hd) as [cn Hat]. destruct (in_range_slot _ _ _ _ Hr (or_intror Hat)) as (sl & r & Ho).
    destruct (prepare_scratch_dir empty_dir is_cold measure some_calls sl (cn_opts cn) (rs_def r) (cn_no_scratch cn) (heads st)) as [res h'] eqn:E.
    eexists d, _. by eapply adv_prepare. }
  destruct (phase_search st (fun ph => match ph with Running => true | _ => false end)) as [(d & [| | | |] & Hd & [=])|Hrun].
  { destruct (in_range_at _ _ _ Hr Hd) as [cn Hat]. eexists d, _. by apply (adv_finish d st cn true). }
  destruct (phase_search st (fun ph => match ph with Queued => true | _ => false end)) as [(d & [| | | |] & Hd & [=])|Hqueue].
  { destruct (in_range_at _ _ _ Hr Hd) as [cn Hat].
    destruct (admit_live pol st d cn Hat) as (d' & cn' & Hat' & Ha); [by intros e cn' [_ H%Hrun]|].
    eexists d', _. by eapply adv_admit. }
  destruct (last_slot_free st Hr Hn) with (c := c) (ph := ph) as (d & sl & a & Hw & Hfree); [|done..|].
  { intros d cn [i|i| | |ok] [_ H]; [left; eauto|by apply Hprep in H|by apply Hqueue in H|by apply Hrun in H|right; eauto]. }
  destruct (lock_live pol st d sl a Hw Hfree) as (d' & b & (cn & i & r & Hat & _) & Hm). eexists d', _. by eapply adv_lock.
Qed.

(** The steps that are left. *)
Definition weight (cn : Consumer) (ph : Phase) : nat :=
  match ph with
  | Locking i => 2 * (length (cn_refs cn) - i) + 3
  | Preparing i => 2 * (length (cn_refs cn) - i) + 2
  | Queued => 2
  | Running => 1
  | Finished _ => 0
  end.
Definition work (st : State) : nat := sum_list (zip_with weight consumers (phases st)).

Lemma sum_list_insert l c a b : l !! c = Some a -> b < a -> sum_list (<[c := b]> l) < sum_list l.
Proof. revert c. induction l as [|x l IH]; intros [|c] H Hlt; simplify_eq/=; [lia|]. specialize (IH c H Hlt). lia. Qed.

Lemma work_set st c cn ph ph' h : at_phase st c cn ph -> weight cn ph' < weight cn ph -> work (mkState (<[c := ph']> (phases st)) h) < work st.
Proof.
  intros [Hc Hp] Hlt. unfold work. simpl. replace consumers with (<[c := cn]> consumers) at 1 by (by apply list_insert_id).
  rewrite <- insert_zip_with. eapply sum_list_insert; [|done]. rewrite lookup_zip_with, Hc. simpl. by rewrite Hp.
Qed.

Lemma weight_next cn i : i < length (cn_refs cn) -> weight cn (next (cn_refs cn) (S i)) < weight cn (Preparing i).
Proof. intros H. unfold next. case_decide; simpl; lia. Qed.

Lemma advance_work c st st' : in_range st -> advance c st st' -> work st' < work st.
Proof.
  intros Hr [cn i Hat Hm|cn i sl r env res h' Hat Ho Hp|cn Hat Ha|cn ok Hat]; (eapply work_set; [done|]); simpl; try lia.
  destruct res; simpl; [|lia]. apply weight_next. eapply (proj2 Hr); eauto.
Qed.

(** ** Theorems *)

(** C22: two targets have the lock of one slot at one time only when both declared it shared;
    and while a target has a slot exclusively, from before its directory is prepared to its
    end, no step of another target changes any directory of the slot. (The directory of the
    scope [..] is one of no slot.) *)
Theorem scratch_exclusive (pol : Policy) st c sl : reachable st ->
  (forall c' a b, c <> c' -> holds st c sl a -> holds st c' sl b -> a = Shared /\ b = Shared) /\
  (holds st c sl Exclusive -> forall c' st' dir, c' <> c -> step c' st st' -> heads st' !! (sl, dir) = heads st !! (sl, dir)).
Proof.
  intros [He Hr]%(reachable_ok pol). split; [intros; by eapply He|]. intros Hx c' st' dir Hne Hs.
  destruct (step_heads c' st st' sl dir (slot_nonempty _ _ _ _ Hx) Hs) as [|[a Ha]]; [done|]. by destruct (He _ _ _ _ _ Hne Ha Hx).
Qed.

(** The references of every target are those of a program, and were accepted. *)
Definition accepted {nom : Nom} (declared : Addr -> ScratchDef) (cn : Consumer) : Prop := exists addrs,
  cn_refs cn = resolve declared <$> addrs /\ Forall (good_ref declared) addrs /\ separates digest declared addrs /\
  check_resolved (cn_refs cn) = Ok (cn_refs cn).

(** C21: targets that share scratch directories never wait for each other for ever. Whatever
    was scheduled, failed or was cancelled before, from there the targets can only take so
    many steps, and they stop only when all of them are done: no two of them hold what the
    other waits for, and none waits for itself. *)
Theorem scratch_no_deadlock {nom : Nom} {nom_laws : NomLaws nom} (declared : Addr -> ScratchDef) (pol : Policy) st :
  (forall cn, cn ∈ consumers -> accepted declared cn) -> reachable st ->
  (forall n st', nsteps advances n st st' -> n <= work st) /\
  (forall st', rtc advances st st' -> (forall c st'', ~ advance c st' st'') -> all_finished st').
Proof.
  intros Hacc Hreach.
  assert (forall cn, cn ∈ consumers -> NoDup (slot digest <$> cn_refs cn)) as Hn.
  { intros cn Hin. destruct (Hacc cn Hin) as (addrs & E & Hg & Hs & Hc). rewrite E in *. by eapply accepted_slots_NoDup. }
  assert (forall st', rtc advances st st' -> reachable st') as Hall.
  { intros st' Hs. destruct Hreach as [hs Hr]. exists hs. etransitivity; [exact Hr|].
    eapply rtc_subrel; [|done]. intros x y [c Hc]. exists c. by left. }
  split.
  - intros n. clear Hn. revert st Hreach Hall. induction n as [|n IH]; intros st Hreach Hall st' Hs; [lia|].
    inversion Hs as [|? ? y ? [c Hc] Hs']; subst. assert (work y < work st) by (eapply advance_work; [by apply (reachable_ok pol)|done]).
    enough (n <= work y) by lia. eapply IH; [apply Hall, rtc_once; by exists c| |done].
    intros z Hz. apply Hall. eapply rtc_l; [by exists c|done].
  - intros st' Hs Hstuck c ph Hp. destruct (reachable_ok pol st' (Hall _ Hs)) as [_ Hr].
    destruct ph as [i|i| | |ok]; [| | | |by exists ok]; exfalso;
      destruct (progress pol st' c _ Hr Hn Hp ltac:(done)) as (c' & st'' & H); by apply (Hstuck c' st'').
Qed.
End system.

(** ** Concrete targets *)

Definition sample_digest (l : list N) : N := foldl (fun h b => h * 256 + b)%N 0%N l.
Definition sample_addr (n : str) : Addr := mkAddr $"c" n [].
Definition sample_declared (access : Access) (a : Addr) : ScratchDef :=
  mkScratchDef [] (default_env_name (name a)) access [] false (Some $"2").
Definition sample_refs (access : Access) (names : list str) : list ResolvedScratch := resolve (sample_declared access) <$> (sample_addr <$> names).
(** Two targets that name the same two scratches in opposite orders. *)
Definition sample_consumers (access : Access) : list Consumer :=
  [mkConsumer (sample_refs access [$"go"; $"npm"]) (mkOptions $"main" [] true) false;
   mkConsumer (sample_refs access [$"npm"; $"go"]) (mkOptions $"main" [] true) false].
(** Two targets that share one. *)
Definition sharing_consumers : list Consumer :=
  [mkConsumer (sample_refs Shared [$"go"]) (mkOptions $"main" [] true) false;
   mkConsumer (sample_refs Shared [$"go"]) (mkOptions $"main" [] true) false].

Section sample.
Context (consumers : list Consumer).
Definition sample_lock (st : State (T := list N)) (c : nat) : Prop :=
  exists sl a, wants sample_digest consumers st c sl a /\ free_for sample_digest consumers st sl a.
Definition sample_admit (st : State (T := list N)) (c : nat) : Prop := True.

Lemma sample_policy : Policy sample_digest consumers sample_lock sample_admit.
Proof.
  split.
  - intros st c (sl & a & (cn & i & r & Hat & Ho & ->) & Hf) sl' a' (cn' & i' & r' & Hat' & Ho' & ->).
    destruct (at_phase_fun _ _ _ _ _ _ _ Hat Hat') as [-> [= ->]]. rewrite Ho in Ho'. by injection Ho' as -> ->.
  - intros st c sl a Hw Hf. exists c, a. split; [done|]. exists sl, a. split; [done|]. intros c' b H. by destruct (Hf c' b).
  - intros st c cn Hat _. by exists c, cn.
Qed.
End sample.

Definition sample_measure (t : list N) : N := N.of_nat (length t).
Definition sample_cold (t : list N) : bool := bool_decide (t = []).
Abbreviation sample_advance consumers := (advance [] sample_cold sample_measure sample_digest consumers (sample_lock consumers) sample_admit).
Abbreviation sample_reachable consumers := (reachable [] sample_cold sample_measure sample_digest consumers (sample_lock consumers) sample_admit).

Lemma sample_accepted access cn : cn ∈ sample_consumers access -> @accepted sample_digest nom_ref (sample_declared access) cn.
Proof.
  assert (forall n, n = $"go" \/ n = $"npm" -> @good_ref nom_ref (sample_declared access) (sample_addr n)) as Hg.
  { intros n [-> | ->]; (split; [|split; apply (bool_decide_unpack _); vm_compute; exact I]);
      [exists $"//c:go"|exists $"//c:npm"]; vm_compute; reflexivity. }
  assert (separates sample_digest (sample_declared access) [sample_addr $"go"; sample_addr $"npm"]) as Hs.
  { assert (slot sample_digest (resolve (sample_declared access) (sample_addr $"go")) <>
      slot sample_digest (resolve (sample_declared access) (sample_addr $"npm"))) as Hne by (vm_compute; discriminate).
    intros a b [->|[->|Ha%elem_of_nil]%elem_of_cons]%elem_of_cons [->|[->|Hb%elem_of_nil]%elem_of_cons]%elem_of_cons E;
      first [contradiction|reflexivity|by destruct Hne]. }
  intros [->|[->|H%elem_of_nil]%elem_of_cons]%elem_of_cons; [| |done].
  - exists [sample_addr $"go"; sample_addr $"npm"]. split; [done|]. split; [|split; [done|destruct access; vm_compute; reflexivity]].
    repeat constructor; apply Hg; auto.
  - exists [sample_addr $"npm"; sample_addr $"go"]. split; [done|]. split; [|split].
    + repeat constructor; apply Hg; auto.
    + intros a b Ha Hb. apply Hs; set_solver.
    + destruct access; vm_compute; reflexivity.
Qed.

Lemma scratch_no_deadlock_witness :
  let cs := sample_consumers Exclusive in let st := init cs (∅ : gmap (str * str) (list N)) in
  work cs st = 14 /\
  (forall st', rtc (fun s s' => exists c, sample_advance cs c s s') st st' -> (forall c st'', ~ sample_advance cs c st' st'') -> all_finished st').
Proof.
  intros cs st. split; [reflexivity|].
  apply (@scratch_no_deadlock (list N) [] sample_cold sample_measure sample_digest cs (sample_lock cs) sample_admit
    nom_ref nom_ref_laws (sample_declared Exclusive) (sample_policy cs) st).
  - intros cn Hin. by apply sample_accepted.
  - exists ∅. apply rtc_refl.
Defined.

(** The first of them has the lock of its first slot. *)
Lemma sample_first : let cs := sample_consumers Exclusive in let st := init cs (∅ : gmap (str * str) (list N)) in
  sample_reachable cs (set_phase 0 (Preparing 0) st) /\
  exists sl, holds sample_digest cs (set_phase 0 (Preparing 0) st) 0 sl Exclusive.
Proof.
  intros cs st. set (refs := sample_refs Exclusive [$"go"; $"npm"]).
  assert (exists x, ordered sample_digest refs !! 0 = Some x) as [[sl r] Ho] by (eexists; vm_compute; reflexivity).
  assert (sd_access (rs_def r) = Exclusive) as Hx.
  { apply list_elem_of_lookup_2, ordered_elem in Ho as [Hr _]. unfold refs, sample_refs in Hr. set_solver. }
  set (cn := mkConsumer refs (mkOptions $"main" [] true) false). split.
  - exists ∅. apply rtc_once. exists 0. left. apply (adv_lock _ _ _ _ _ _ _ 0 st cn 0); [split; reflexivity|].
    exists sl, (sd_access (rs_def r)). split; [exists cn, 0, r; split; [split; reflexivity|split; [exact Ho|reflexivity]]|].
    intros c b H. destruct (init_holds sample_digest cs (∅ : gmap (str * str) (list N)) c sl b H).
  - exists sl. pose proof (prepares_slot sample_digest cs (set_phase 0 (Preparing 0) st) 0 cn 0 sl r (conj eq_refl eq_refl) Ho) as H.
    rewrite Hx in H. exact H.
Qed.

Lemma scratch_exclusive_witness :
  let cs := sample_consumers Exclusive in let st := set_phase 0 (Preparing 0) (init cs (∅ : gmap (str * str) (list N))) in
  exists sl, forall c' st' dir, c' <> 0 -> sample_advance cs c' st st' -> heads st' !! (sl, dir) = heads st !! (sl, dir).
Proof.
  intros cs st. destruct sample_first as [Hr [sl Hh]]. exists sl. intros c' st' dir Hne Hs.
  refine (proj2 (scratch_exclusive [] sample_cold sample_measure sample_digest cs (sample_lock cs) sample_admit (sample_policy cs) st 0 sl Hr) Hh c' st' dir Hne (or_introl Hs)).
Defined.

(** ** Sharing *)

Lemma reach_step cs c st st' : sample_reachable cs st ->
  step [] sample_cold sample_measure sample_digest cs (sample_lock cs) sample_admit c st st' -> sample_reachable cs st'.
Proof. intros [hs Hr] Hs. exists hs. eapply rtc_r; [done|]. by exists c. Qed.

(** Everybody shares, so nobody waits. *)
Lemma sharing_lock st c cn i x : at_phase sharing_consumers st c cn (Locking i) -> ordered sample_digest (cn_refs cn) !! i = Some x ->
  sample_lock sharing_consumers st c.
Proof.
  assert (forall c cn sl r, sharing_consumers !! c = Some cn -> (sl, r) ∈ ordered sample_digest (cn_refs cn) -> sd_access (rs_def r) = Shared) as Hs.
  { intros d cn' sl r Hc [Hr _]%ordered_elem. apply list_elem_of_lookup_2 in Hc. unfold sharing_consumers in Hc.
    assert (cn_refs cn' = sample_refs Shared [$"go"]) as E by set_solver. rewrite E in Hr.
    by apply list_elem_of_singleton in Hr as ->. }
  destruct x as [sl r]. intros Hat Ho. exists sl, (sd_access (rs_def r)). split; [exists cn, i, r; split_and!; [exact Hat|exact Ho|reflexivity]|].
  intros d b (cn' & ph & r' & [Hc' _] & Hin & ->). apply elem_of_held in Hin. split.
  - destruct Hat as [Hc _]. eapply Hs; [exact Hc|]. by eapply list_elem_of_lookup_2.
  - eapply Hs; [exact Hc'|exact Hin].
Qed.

Definition shared_slot : str := Eval vm_compute in slot sample_digest (resolve (sample_declared Shared) (sample_addr $"go")).
Definition sharing_state (ph0 ph1 : Phase) (head : option (list N)) : State := mkState [ph0; ph1] (put (shared_slot, $"main") head ∅).
Definition sharing_consumer : Consumer := mkConsumer (sample_refs Shared [$"go"]) (mkOptions $"main" [] true) false.

Lemma sharing_slot : ordered sample_digest (cn_refs sharing_consumer) !! 0 = Some (shared_slot, resolve (sample_declared Shared) (sample_addr $"go")).
Proof. vm_compute. reflexivity. Qed.

(** A scratch that is shared and has a cap is emptied under the targets that use it. Of
    two targets that share it, one runs and has filled its directory over the cap; the
    other then takes the lock, as it may, prepares, and what the first works in is gone. *)
Theorem shared_prepare_drops_running : exists sl st st',
  sample_reachable sharing_consumers st /\ holds sample_digest sharing_consumers st 0 sl Shared /\
  phases st = [Running; Preparing 0] /\ heads st !! (sl, $"main") = Some [1; 2; 3]%N /\
  sample_advance sharing_consumers 1 st st' /\
  phases st' = [Running; Queued] /\ heads st' !! (sl, $"main") = Some [].
Proof.
  pose proof sharing_slot as Ho. pose proof (list_elem_of_lookup_2 _ _ _ Ho) as Hin.
  exists shared_slot, (sharing_state Running (Preparing 0) (Some [1; 2; 3]%N)), (sharing_state Running Queued (Some [])).
  split; [|split; [|split_and!; [reflexivity| | |reflexivity|apply put_eq]]].
  - assert (sample_reachable sharing_consumers (sharing_state (Locking 0) (Locking 0) None)) as H.
    { replace (sharing_state (Locking 0) (Locking 0) None) with (init sharing_consumers (∅ : gmap (str * str) (list N))) by (vm_compute; reflexivity).
      exists ∅. apply rtc_refl. }
    assert (sample_reachable sharing_consumers (sharing_state (Preparing 0) (Locking 0) None)) as H1.
    { eapply (reach_step _ 0); [exact H|]. left.
      refine (adv_lock _ _ _ _ _ _ _ 0 (sharing_state (Locking 0) (Locking 0) None) sharing_consumer 0 _ _); [split; reflexivity|].
      eapply (sharing_lock _ 0 sharing_consumer 0); [split; reflexivity|exact Ho]. }
    assert (sample_reachable sharing_consumers (sharing_state Queued (Locking 0) (Some []))) as H2.
    { eapply (reach_step _ 0); [exact H1|]. left.
      refine (adv_prepare _ _ _ _ _ _ _ 0 (sharing_state (Preparing 0) (Locking 0) None) sharing_consumer 0 _ _ sample_env (Ok Cold) _ _ Ho _);
        [split; reflexivity|vm_compute; reflexivity]. }
    assert (sample_reachable sharing_consumers (sharing_state Running (Locking 0) (Some []))) as H3.
    { eapply (reach_step _ 0); [exact H2|]. left.
      refine (adv_admit _ _ _ _ _ _ _ 0 (sharing_state Queued (Locking 0) (Some [])) sharing_consumer _ I). split; reflexivity. }
    assert (sample_reachable sharing_consumers (sharing_state Running (Locking 0) (Some [1; 2; 3]%N))) as H4.
    { eapply (reach_step _ 0); [exact H3|]. right.
      replace (sharing_state Running (Locking 0) (Some [1; 2; 3]%N)) with
        (mkState [Running; Locking 0] (put (shared_slot, $"main") (Some [1; 2; 3]%N) (heads (sharing_state Running (Locking 0) (Some []))))) by (vm_compute; reflexivity).
      refine (dis_write _ _ 0 (sharing_state Running (Locking 0) (Some [])) sharing_consumer shared_slot _ (Some [1; 2; 3]%N) _ Hin _);
        [split; reflexivity|reflexivity]. }
    eapply (reach_step _ 1); [exact H4|]. left.
    refine (adv_lock _ _ _ _ _ _ _ 1 (sharing_state Running (Locking 0) (Some [1; 2; 3]%N)) sharing_consumer 0 _ _); [split; reflexivity|].
    eapply (sharing_lock _ 1 sharing_consumer 0); [split; reflexivity|exact Ho].
  - exists sharing_consumer, Running, (resolve (sample_declared Shared) (sample_addr $"go")). split; [split; reflexivity|]. split; [exact Hin|reflexivity].
  - apply put_eq.
  - refine (adv_prepare _ _ _ _ _ _ _ 1 (sharing_state Running (Preparing 0) (Some [1; 2; 3]%N)) sharing_consumer 0 _ _ sample_env (Ok DroppedOverMax) _ _ Ho _);
      [split; reflexivity|vm_compute; reflexivity].
Qed.
