(* ===== verification/Definitions.v ===== *)
(** How a target comes to its definition and its cache key: [get_spec_inner],
    [probe_segments], [get_def_inner], [collect_transitive_deps] and
    [rewrite_query_inputs] of [engine/result.rs], [link.rs], [meta.rs], [approval.rs] and
    [states.rs].

    A provider is asked for the specification of an address, the driver it names parses
    it, the engine rewrites, extends and checks what comes back, and a hash of it and of
    what its inputs produced is the key of the cache.

    Providers, drivers and credentials are parameters, and so is what the engine answers
    for other targets: requests are memoized and cycles are refused in [RequestState],
    [DepDag] and [TaskCell]. *)
From stdpp Require Import sorting.
From S2P Require Import Prelude Revisions Numerals Sorts Nom HtPkg HtAddr HtIntern LogTail AddrKey MatchTarget Capacity Resources EnginePools HtValue Template TargetRef DepPath Expand CodegenOverlap Wire WireDef Deferred Scratch.

#[export] Instance Workdir_eq_dec : EqDecision Workdir.
Proof. solve_decision. Defined.
#[export] Instance Entrypoint_eq_dec : EqDecision Entrypoint.
Proof. solve_decision. Defined.

(** ** Specifications *)

Inductive GetError (E : Type) := NotFound | Other (e : E).
Arguments NotFound {E}.
Arguments Other {E} e.

Record Provider (E : Type) := mkProvider {
  pr_name : str;
  pr_probe : PkgBuf -> result E (list Wire.State);
  pr_get : Addr -> list Wire.State -> result (GetError E) TargetSpec
}.
Arguments mkProvider {E}.
Arguments pr_name {E}.
Arguments pr_probe {E}.
Arguments pr_get {E}.

Record EngineTargetSpec := mkEngineSpec { es_spec : TargetSpec; es_provider : str }.

Inductive spec_error (E : Type) :=
| InProvider (provider : str) (e : E)
| Cycled (e : E)
| TargetNotFound (addr : Addr).
Arguments InProvider {E}.
Arguments Cycled {E}.
Arguments TargetNotFound {E}.

Section specs.
Context {E : Type} (is_cycle : E -> bool) (providers : list (Provider E)).

Definition probe_one (p : Provider E) (pkg : PkgBuf) : result (spec_error E) (list Wire.State) :=
  map_err (InProvider (pr_name p)) (pr_probe p pkg).

(** The inner loop, and the outer one over the package and its ancestors. *)
Fixpoint probe_providers (ps : list (Provider E)) (pkg : PkgBuf) (acc : list Wire.State) : result (spec_error E) (list Wire.State) :=
  match ps with
  | [] => Ok acc
  | p :: ps => states ← probe_one p pkg; probe_providers ps pkg (acc ++ states)
  end.
Fixpoint probe_packages (pkgs : list PkgBuf) (acc : list Wire.State) : result (spec_error E) (list Wire.State) :=
  match pkgs with
  | [] => Ok acc
  | pkg :: pkgs => acc ← probe_providers providers pkg acc; probe_packages pkgs acc
  end.
Definition probe_segments (pkg : PkgBuf) : result (spec_error E) (list Wire.State) := probe_packages (parent_packages pkg) [].

Definition states_for (p : Provider E) (states : list Wire.State) : list Wire.State :=
  List.filter (fun s => bool_decide (s_provider s = pr_name p)) states.

(** The loop of [get_spec_inner], with the cycle seen last. *)
Fixpoint get_from (ps : list (Provider E)) (addr : Addr) (states : list Wire.State) (pending : option E)
    : result (spec_error E) EngineTargetSpec :=
  match ps with
  | [] => match pending with Some e => Err (Cycled e) | None => Err (TargetNotFound addr) end
  | p :: ps =>
      match pr_get p addr (states_for p states) with
      | Ok spec => Ok (mkEngineSpec spec (pr_name p))
      | Err NotFound => get_from ps addr states pending
      | Err (Other e) => if is_cycle e then get_from ps addr states (Some e) else Err (InProvider (pr_name p) e)
      end
  end.
Definition get_spec_inner (addr : Addr) : result (spec_error E) EngineTargetSpec :=
  states ← probe_segments (package addr);
  get_from providers addr states None.
End specs.

(** [states.rs]: the states of a package, from the root down. *)
Definition package_states (inherited : bool) (provider : option str) (pkg : PkgBuf) (states : list Wire.State) : list Wire.State :=
  sort_by_key (fun s => str_len (s_package s))
    (List.filter (fun s => match provider with Some p => bool_decide (s_provider s = p) | None => true end)
      (List.filter (fun s => inherited || bool_decide (s_package s = pkg)) states)).

(** ** Definitions *)

Section defs.
Context {nom : Nom} {E RawDef : Type} (xxh3 : list N -> N).
Abbreviation TargetDef := (WireDef.TargetDef (RawDef := RawDef)).

Definition set_inputs (def : TargetDef) (ins : list Input) : TargetDef :=
  mkTargetDef (td_addr def) (td_labels def) (raw_def def) ins (td_outputs def) (support_files def) (cache def)
    (td_entrypoint def) (pty def) (hash def) (td_transparent def) (resources def) (demand def).
Definition set_cache (def : TargetDef) (c : CacheConfig) : TargetDef :=
  mkTargetDef (td_addr def) (td_labels def) (raw_def def) (td_inputs def) (td_outputs def) (support_files def) c
    (td_entrypoint def) (pty def) (hash def) (td_transparent def) (resources def) (demand def).
(** What [parse] decided and [apply_transitive] may not change. *)
Definition set_parsed (def : TargetDef) (ep : option Entrypoint) (res : Resources) : TargetDef :=
  mkTargetDef (td_addr def) (td_labels def) (raw_def def) (td_inputs def) (td_outputs def) (support_files def) (cache def)
    ep (pty def) (hash def) (td_transparent def) res (demand def).
Definition set_demand (def : TargetDef) (d : Demand) : TargetDef :=
  mkTargetDef (td_addr def) (td_labels def) (raw_def def) (td_inputs def) (td_outputs def) (support_files def) (cache def)
    (td_entrypoint def) (pty def) (hash def) (td_transparent def) (resources def) d.

Definition QUERY_PACKAGE : str := $"@heph/query".
Definition GROUP_DRIVER : str := $"group".
Definition SCRATCH_DRIVER : str := $"scratch".
Definition SCRATCH_ANNOTATION : str := $"scratch".

Definition stamp_query (dest : Addr) (dest_provider : str) (i : Input) : Input :=
  let r := input_addr i in
  if bool_decide (package r = QUERY_PACKAGE) then
    let args := bt_insert $"_origin" (hash_str xxh3 dest) (HtAddr.args r) in
    let args := if negb (bool_decide (dest_provider = [])) && negb (Resources.contains_key $"exclude_provider" args)
                then bt_insert $"exclude_provider" dest_provider args else args in
    mkInput (mkTargetAddr (Addr_new (package r) (name r) args) (output (input_ref i)) (filters (input_ref i)))
      (mode i) (origin_id i) (annotations i) (hashed i) (runtime i)
  else i.
Definition rewrite_query_inputs (def : TargetDef) (dest : Addr) (dest_provider : str) : TargetDef :=
  set_inputs def (stamp_query dest dest_provider <$> td_inputs def).

(** [expand_introspect_inputs] reads the outputs and changes the inputs. *)
Definition plain_output (o : DefOutput) : Output :=
  mkOutput (do_group o) ((fun p => mkPath (dp_content p) (dp_codegen p)) <$> do_paths o).
Definition introspect (def : TargetDef) : TargetDef :=
  set_inputs def (inputs (expand_introspect_inputs (Expand.mkTargetDef (td_inputs def) (plain_output <$> td_outputs def) (td_transparent def) (td_entrypoint def)))).

Record Driver := mkDriver {
  dr_parse : TargetSpec -> result E TargetDef;
  dr_apply_transitive : TargetDef -> Sandbox -> result E TargetDef;
  dr_accepts_deferred : bool
}.
Record ExtendedTargetDef := mkExtended { target_def : TargetDef; applied_transitive : option Sandbox; ext_driver : str }.

Inductive def_error :=
| Spec (e : spec_error E)
| DriverNotFound (driver : str)
| DriverFailed (e : E)
| FanOut (e : fan_error def_error)
| DeferredFailed (e : deferred_error)
| EntrypointChanged (before : option Entrypoint) (after : Entrypoint)
| MissingHash
| NotAScratch (addr : Addr) (driver : str)
| ScratchFailed (e : scratch_error)
| ScratchSet (e : Scratch.resolve_error)
| NoSuchGroup (name : str)
| UnknownPool (pool : str)
| BadResources (e : resources_error)
| PoolNotReserved (path pool : str)
| NoSuchOutput (output : str) (addr : Addr)
| ToolFiles (addr : Addr) (group : str) (found : nat).

(** What the engine answers for other targets, and the parts that are not read here: the
    credentials an input list names with the references of their declarations, and the
    generated decoder of a scratch declaration. *)
Context (drivers : gmap str Driver) (pools : EnginePools).
Context (other_spec : Addr -> result def_error EngineTargetSpec) (other_def : Addr -> result def_error ExtendedTargetDef).
Context (resolve_credentials : Addr -> list Input -> result def_error (list (Addr * list DeferredRef))).
Context (scratch_spec : list (str * Value) -> result scratch_error ScratchSpec).

(** ** What is inherited *)

Definition inherits (i : Input) : bool := runtime i && negb (bool_decide (is_Some (annotations i !! DEFERRED_SRC_ANNOTATION))).

Definition transitive_of (n : nat) (i : Input) : result def_error (option (str * Sandbox)) :=
  spec ← other_spec (input_addr i);
  transitive ← (if bool_decide (ts_driver (es_spec spec) = GROUP_DRIVER) then applied_transitive <$> other_def (input_addr i)
                else if sandbox_empty (ts_transitive (es_spec spec)) then Ok None
                else Ok (Some (ts_transitive (es_spec spec))));
  Ok ((fun sb => ($"_transitive_" ++ hash_str xxh3 (ts_addr (es_spec spec)) ++ $"_" ++ to_dec (N.of_nat n), sb)) <$> transitive).

Definition merge_all (l : list (str * Sandbox)) : Sandbox := foldl (fun sb x => merge_sandbox sb x.2 x.1) Sandbox_default l.

Definition collect_transitive_deps (fail_fast : bool) (ins : list Input) : result def_error Sandbox :=
  results ← map_err FanOut (join_all_failable (imap transitive_of (List.filter inherits ins)) fail_fast);
  Ok (merge_all (omap id results)).

(** ** Checks *)

(** [input_in_group] and [validate_approval]. *)
Definition input_in_group (origin_id nm : str) : bool :=
  bool_decide (origin_id = nm) || existsb (fun seg => bool_decide (seg = nm)) (split_on #"|" origin_id).
Definition validate_approval (a : Approval) (origin_ids : list str) : result def_error () :=
  if negb (a_required a) then Ok ()
  else
    match List.find (fun nm => negb (existsb (fun oid => input_in_group oid nm) origin_ids)) (a_notice a) with
    | Some nm => Err (NoSuchGroup nm)
    | None => Ok ()
    end.

Definition validate_resources (r : Resources) : result def_error Demand :=
  match r with
  | [] => Ok []
  | _ =>
      match List.find (fun pa => negb (is_pool pools pa.1)) r with
      | Some (pool, _) => Err (UnknownPool pool)
      | None => map_err BadResources (resources_parse r (ep_unit pools))
      end
  end.

Fixpoint check_pieces (path : str) (pieces : list Piece) (d : Demand) : result def_error () :=
  match pieces with
  | [] => Ok ()
  | PRef t :: pieces =>
      if negb (claims (kind t) (arg t) [RESOURCE_KIND]) then check_pieces path pieces d
      else if negb (is_pool pools (arg t)) then Err (UnknownPool (arg t))
      else if negb (reserves d (arg t)) then Err (PoolNotReserved path (arg t))
      else check_pieces path pieces d
  | _ :: pieces => check_pieces path pieces d
  end.
Fixpoint validate_resource_refs (refs : list DeferredRef) (d : Demand) : result def_error () :=
  match refs with
  | [] => Ok ()
  | r :: refs =>
      match Template.parse (d_raw r) with
      | Err _ => validate_resource_refs refs d
      | Ok pieces => _ ← check_pieces (d_path r) pieces d; validate_resource_refs refs d
      end
  end.

Definition is_scratch_input (i : Input) : bool := bool_decide (annotations i !! SCRATCH_ANNOTATION = Some $"true").

Fixpoint resolve_scratch_refs (addrs : list Addr) : result def_error (list ResolvedScratch) :=
  match addrs with
  | [] => Ok []
  | addr :: addrs =>
      spec ← other_spec addr;
      if negb (bool_decide (ts_driver (es_spec spec) = SCRATCH_DRIVER)) then Err (NotAScratch addr (ts_driver (es_spec spec)))
      else
        decl ← map_err ScratchFailed (scratch_spec (ts_config (es_spec spec)));
        def ← map_err ScratchFailed (from_spec decl (name (ts_addr (es_spec spec))));
        l ← resolve_scratch_refs addrs;
        Ok (mkResolved addr def :: l)
  end.
Definition resolve_scratch (ins : list Input) : result def_error (list ResolvedScratch) :=
  match List.filter is_scratch_input ins with
  | [] => Ok []
  | refs => resolved ← resolve_scratch_refs ((fun i => input_addr i) <$> refs); map_err ScratchSet (check_resolved resolved)
  end.

(** ** [get_def_inner] *)

Definition cache_off : CacheConfig := mkCacheConfig false false 0.
Definition u32_max : N := 4294967295.
Definition double_history (c : CacheConfig) : CacheConfig :=
  mkCacheConfig (cc_enabled c) (cc_remote_enabled c) (N.min (cc_history c * 2) u32_max).
Definition in_place (def : TargetDef) : bool :=
  existsb (fun o => existsb (fun p => match dp_codegen p with CodegenInPlace => true | _ => false end) (do_paths o)) (td_outputs def).

Definition finish_cache (def : TargetDef) : TargetDef :=
  let def := if (0 <? cc_history (cache def))%N && in_place def then set_cache def (double_history (cache def)) else def in
  match td_entrypoint def with Some _ => set_cache def cache_off | None => def end.

(** The definition the driver parsed, with the inputs the engine gives it. *)
Definition parsed_def (addr : Addr) (spec : EngineTargetSpec) (driver : Driver) (refs : list DeferredRef) (def : TargetDef) : TargetDef :=
  let def := introspect (rewrite_query_inputs def addr (es_provider spec)) in
  set_inputs def (td_inputs def ++ inputs_for refs).

Definition apply_transitive (driver : Driver) (def : TargetDef) (sb : option Sandbox) : result def_error TargetDef :=
  match sb with
  | Some sb =>
      if sandbox_empty sb then Ok def
      else
        transitive ← map_err DriverFailed (dr_apply_transitive driver def sb);
        match td_entrypoint transitive with
        | Some after =>
            if bool_decide (td_entrypoint def = Some after) then Ok (set_parsed transitive (td_entrypoint def) (resources def))
            else Err (EntrypointChanged (td_entrypoint def) after)
        | None => Ok (set_parsed transitive (td_entrypoint def) (resources def))
        end
  | None => Ok def
  end.

Definition credential_inputs (creds : list (Addr * list DeferredRef)) : list Input :=
  creds ≫= fun c => inputs_for_labelled c.2 (Some c.1).

Definition get_def_inner (fail_fast : bool) (addr : Addr) (apply : bool) (spec : EngineTargetSpec) : result def_error ExtendedTargetDef :=
  let driver_name := ts_driver (es_spec spec) in
  driver ← ok_or (DriverNotFound driver_name) (drivers !! driver_name);
  def ← map_err DriverFailed (dr_parse driver (es_spec spec));
  refs ← map_err DeferredFailed (deferred_refs (package (ts_addr (es_spec spec))) (ts_config (es_spec spec)) (Some (dr_accepts_deferred driver)));
  let def := parsed_def addr spec driver refs def in
  all_transitive ← (if apply then
                      sb ← collect_transitive_deps fail_fast (td_inputs def);
                      Ok (if sandbox_empty sb then None else Some sb)
                    else Ok None);
  def ← apply_transitive driver def all_transitive;
  let def := finish_cache def in
  _ ← (if bool_decide (hash def = []) then Err MissingHash else Ok ());
  _ ← resolve_scratch (td_inputs def);
  creds ← resolve_credentials addr (td_inputs def);
  let def := set_inputs def (td_inputs def ++ credential_inputs creds) in
  _ ← validate_approval (ts_approval (es_spec spec)) (origin_id <$> td_inputs def);
  d ← validate_resources (resources def);
  let def := set_demand def d in
  _ ← validate_resource_refs refs d;
  Ok (mkExtended def all_transitive driver_name).

(** ** Linking *)

Record LinkedInput := mkLinkedInput {
  li_target : TargetDef; li_output_names : list str; li_origin_id : str; li_filters : list str; li_annotations : gmap str str
}.

Fixpoint unique (l seen : list str) : list str :=
  match l with
  | [] => []
  | x :: l => if decide (x ∈ seen) then unique l seen else x :: unique l (x :: seen)
  end.
Definition output_names (def : TargetDef) : list str := unique (do_group <$> td_outputs def) [].

Definition is_file_path (p : DefPath) : bool := match dp_content p with FilePath _ => true | _ => false end.

(** The outputs of a tool are one file each. *)
Fixpoint check_tool (addr : Addr) (names : list str) (outs : list DefOutput) : result def_error () :=
  match outs with
  | [] => Ok ()
  | o :: outs =>
      if decide (do_group o ∈ names) then
        let n := length (List.filter is_file_path (do_paths o)) in
        if decide (n = 1) then check_tool addr names outs else Err (ToolFiles addr (do_group o) n)
      else check_tool addr names outs
  end.

Definition link_input (i : Input) : result def_error LinkedInput :=
  ext ← other_def (input_addr i);
  let def := target_def ext in
  names ← match output (input_ref i) with
          | Some o => if existsb (fun out => bool_decide (do_group out = o)) (td_outputs def) then Ok [o] else Err (NoSuchOutput o (input_addr i))
          | None => Ok (output_names def)
          end;
  _ ← match mode i with Tool => check_tool (input_addr i) names (td_outputs def) | _ => Ok () end;
  Ok (mkLinkedInput def names (origin_id i) (filters (input_ref i)) (annotations i)).

(** [link], of the inputs [expanded_inputs_for] gave. *)
Definition link (fail_fast : bool) (expanded : list Input) : result def_error (list LinkedInput) :=
  map_err FanOut (join_all_failable (link_input <$> List.filter runtime expanded) fail_fast).

(** ** The key *)

Definition hashin_writes (driver : str) (def_hash : list N) (hashouts : list str) : list N :=
  as_bytes driver ++ [0%N] ++ def_hash ++ (hashouts ≫= as_bytes).
Definition hashin (ext : ExtendedTargetDef) (hashouts : list str) : str :=
  to_hex (xxh3 (hashin_writes (ext_driver ext) (hash (target_def ext)) hashouts)).

(** The results of the hashed inputs, whatever group the input names, and the key of them. *)
Definition inputs_result_meta (result_meta : Addr -> result def_error (list str)) (fail_fast : bool) (expanded : list Input) : result def_error (list (list str)) :=
  map_err FanOut (join_all_failable ((fun i => result_meta (input_addr i)) <$> List.filter hashed expanded) fail_fast).
Definition inner_meta (result_meta : Addr -> result def_error (list str)) (fail_fast : bool) (ext : ExtendedTargetDef) (expanded : list Input) : result def_error str :=
  results ← inputs_result_meta result_meta fail_fast expanded;
  Ok (hashin ext (sort_by (str_key_leb id) (concat results))).

(** ** What a definition is, in the end *)

Lemma edge_inherits_nothing refs via i : i ∈ inputs_for_labelled refs via -> inherits i = false.
Proof.
  unfold inputs_for_labelled. destruct (inputs_pushed via refs) as (_ & _ & H & _). intros Hi.
  destruct (H i Hi) as (r & p & _ & ->). unfold inherits, edge. simpl. destruct (is_src p); simpl; [|done].
  apply negb_false_iff, bool_decide_eq_true. rewrite lookup_singleton_eq. eauto.
Qed.

(** A reference makes a target wait for a value or a path, and inherit nothing. *)
Lemma collect_without_edges fail_fast ins refs :
  collect_transitive_deps fail_fast (ins ++ inputs_for refs) = collect_transitive_deps fail_fast ins.
Proof.
  unfold collect_transitive_deps. rewrite List.filter_app.
  replace (List.filter inherits (inputs_for refs)) with (@nil Input); [by rewrite app_nil_r|].
  symmetry. apply filter_none. intros i Hi. by eapply edge_inherits_nothing.
Qed.

(** The inputs a target has of its own: its driver's, with queries stamped and the
    introspection expanded. *)
Definition own_inputs (addr : Addr) (provider : str) (def : TargetDef) : list Input := td_inputs (introspect (rewrite_query_inputs def addr provider)).

Lemma own_inputs_clean addr provider def i : i ∈ own_inputs addr provider def ->
  is_introspect_outputs (input_addr i) = false /\
  (package (input_addr i) = QUERY_PACKAGE -> bt_get $"_origin" (HtAddr.args (input_addr i)) = Some (hash_str xxh3 addr)).
Proof.
  unfold own_inputs, introspect. simpl. set (d := Expand.mkTargetDef _ _ _ _).
  destruct (introspect_expansion d) as (Heq & Hno & _). intros Hi. split; [by apply Hno|].
  rewrite Heq in Hi. apply list_elem_of_bind in Hi as (j & Hi & Hj).
  destruct (is_introspect_outputs (input_addr j)).
  - apply list_elem_of_fmap in Hi as (a & -> & Ha). apply first_seen_elem in Ha as [_ Ha].
    apply list_elem_of_fmap in Ha as (p & -> & _). simpl. by destruct (content p).
  - apply list_elem_of_singleton in Hi as ->. subst d. simpl in Hj. apply list_elem_of_fmap in Hj as (k & -> & _).
    unfold stamp_query. case_bool_decide as Hq; [|done]. intros _. simpl. case_match; [|apply bt_get_insert_eq].
    rewrite bt_get_insert_ne by done. apply bt_get_insert_eq.
Qed.

Lemma apply_transitive_kept driver def sb def' : apply_transitive driver def sb = Ok def' ->
  td_entrypoint def' = td_entrypoint def /\ resources def' = resources def /\
  (sb = None -> def' = def) /\
  (forall s, sb = Some s -> sandbox_empty s = false ->
     exists t, dr_apply_transitive driver def s = Ok t /\ (td_entrypoint t = None \/ td_entrypoint t = td_entrypoint def) /\
       td_inputs def' = td_inputs t /\ hash def' = hash t /\ cache def' = cache t).
Proof.
  unfold apply_transitive. destruct sb as [s|]; [|intros [= <-]; split_and!; done].
  destruct (sandbox_empty s) eqn:Es; [intros [= <-]; split_and!; try done; intros s' [= <-]; congruence|].
  intros H. ok_inv. destruct (td_entrypoint x) as [after|] eqn:Ee.
  - case_bool_decide as Hb; [|done]. ok_inv. split_and!; try done. intros s' [= <-] _. exists x. split_and!; try done. right. by rewrite Hb.
  - ok_inv. split_and!; try done. intros s' [= <-] _. exists x. split_and!; try done. by left.
Qed.

Lemma finish_cache_kept def : let def' := finish_cache def in
  td_entrypoint def' = td_entrypoint def /\ resources def' = resources def /\ td_inputs def' = td_inputs def /\ hash def' = hash def /\
  cache def' = match td_entrypoint def with
               | Some _ => cache_off
               | None => if (0 <? cc_history (cache def))%N && in_place def then double_history (cache def) else cache def
               end.
Proof.
  unfold finish_cache. destruct ((0 <? _)%N && _); destruct def as [? ? ? ? ? ? ? [|] ? ? ? ? ?]; simpl; done.
Qed.

Lemma check_pieces_ok path pieces d t : check_pieces path pieces d = Ok () -> PRef t ∈ pieces ->
  claims (kind t) (arg t) [RESOURCE_KIND] = true -> is_pool pools (arg t) = true /\ reserves d (arg t) = true.
Proof.
  induction pieces as [|q pieces IH]; simpl; [by intros _ H%elem_of_nil|]. intros H [<-|Hin]%elem_of_cons Hc.
  - rewrite Hc in H. simpl in H. destruct (is_pool pools (arg t)); [|done]. simpl in H. by destruct (reserves d (arg t)).
  - apply IH; [|done..]. destruct q; [done|done|]. by repeat case_match.
Qed.
Lemma validate_resource_refs_ok refs d r pieces : validate_resource_refs refs d = Ok () -> r ∈ refs ->
  Template.parse (d_raw r) = Ok pieces -> check_pieces (d_path r) pieces d = Ok ().
Proof.
  induction refs as [|q refs IH]; simpl; [by intros _ H%elem_of_nil|]. intros H [<-|Hin]%elem_of_cons Hp.
  - rewrite Hp in H. ok_inv. by match goal with u : () |- _ => destruct u end.
  - apply IH; [|done..]. destruct (Template.parse (d_raw q)); [|done]. by ok_inv.
Qed.

(** C18: what a driver may not decide. Whatever [apply_transitive] answers, a definition keeps
    the entrypoint and the resources of the parse, has a hash, and an entrypoint is never
    cached. Without inherited tools its inputs are its own, an edge for every reference and
    those of its credentials, in this order. With them, the driver was shown the definition
    with the edges of the references, and its inputs are those the driver answered, which
    are not looked at again, and then the edges of the credentials; an entrypoint it answers
    is the one of the parse. What is inherited does not depend on the references. No
    introspection is among the inputs of the parse, and a query among them is stamped with
    this target; and every pool a reference names is a pool the definition reserves. *)
Theorem definition_kept fail_fast addr apply spec ext : get_def_inner fail_fast addr apply spec = Ok ext ->
  exists driver parsed refs creds,
    drivers !! ts_driver (es_spec spec) = Some driver /\ dr_parse driver (es_spec spec) = Ok parsed /\
    deferred_refs (package (ts_addr (es_spec spec))) (ts_config (es_spec spec)) (Some (dr_accepts_deferred driver)) = Ok refs /\
    let own := own_inputs addr (es_provider spec) parsed in
    let def := target_def ext in
    ext_driver ext = ts_driver (es_spec spec) /\
    td_entrypoint def = td_entrypoint parsed /\ resources def = resources parsed /\ hash def <> [] /\
    (is_Some (td_entrypoint parsed) -> cache def = cache_off) /\
    (applied_transitive ext = None -> td_inputs def = own ++ inputs_for refs ++ credential_inputs creds) /\
    (forall sb, applied_transitive ext = Some sb ->
       apply = true /\ collect_transitive_deps fail_fast own = Ok sb /\ sandbox_empty sb = false /\
       exists answer, dr_apply_transitive driver (parsed_def addr spec driver refs parsed) sb = Ok answer /\
         (td_entrypoint answer = None \/ td_entrypoint answer = td_entrypoint parsed) /\
         td_inputs def = td_inputs answer ++ credential_inputs creds) /\
    (forall i, i ∈ own -> is_introspect_outputs (input_addr i) = false /\
       (package (input_addr i) = QUERY_PACKAGE -> bt_get $"_origin" (HtAddr.args (input_addr i)) = Some (hash_str xxh3 addr))) /\
    validate_resources (resources parsed) = Ok (demand def) /\
    (forall r pieces t, r ∈ refs -> Template.parse (d_raw r) = Ok pieces -> PRef t ∈ pieces ->
       claims (kind t) (arg t) [RESOURCE_KIND] = true -> is_pool pools (arg t) = true /\ reserves (demand def) (arg t) = true).
Proof.
  intros H. unfold get_def_inner in H.
  apply result_bind_ok in H as (driver & Hdr & H). apply result_bind_ok in H as (parsed & Hp & H). apply map_err_ok in Hp.
  apply result_bind_ok in H as (refs & Hrefs & H). apply map_err_ok in Hrefs.
  apply result_bind_ok in H as (sb & Hsb & H). apply result_bind_ok in H as (def & Hdef & H).
  apply result_bind_ok in H as ([] & Hhash & H). apply result_bind_ok in H as (scr & Hscr & H).
  apply result_bind_ok in H as (creds & Hcreds & H). apply result_bind_ok in H as ([] & Happ & H).
  apply result_bind_ok in H as (d & Hd & H). apply result_bind_ok in H as ([] & Hres & H). injection H as <-.
  destruct (apply_transitive_kept _ _ _ _ Hdef) as (He & Hr & Hnone & Hsome).
  destruct (finish_cache_kept def) as (He' & Hr' & Hi' & Hh' & Hc').
  exists driver, parsed, refs, creds. split; [by destruct (drivers !! _); simplify_eq/=|]. split; [done|]. split; [done|].
  change (td_entrypoint (parsed_def addr spec driver refs parsed)) with (td_entrypoint parsed) in He.
  change (resources (parsed_def addr spec driver refs parsed)) with (resources parsed) in Hr.
  change (td_inputs (parsed_def addr spec driver refs parsed)) with (own_inputs addr (es_provider spec) parsed ++ inputs_for refs) in Hsb.
  rewrite collect_without_edges in Hsb. simpl. rewrite He', Hr', He, Hr in *. split_and!; try done.
  - rewrite Hh' in Hhash |- *. by case_bool_decide.
  - rewrite Hc'. by intros [ep ->].
  - intros ->. rewrite Hi', (Hnone eq_refl). change (td_inputs (parsed_def addr spec driver refs parsed)) with (own_inputs addr (es_provider spec) parsed ++ inputs_for refs).
    by rewrite <- app_assoc.
  - intros s ->. destruct apply; [|by simplify_eq]. split; [done|]. ok_inv. destruct (sandbox_empty x) eqn:Es; [done|]. simplify_eq.
    split; [done|]. split; [done|]. destruct (Hsome s eq_refl Es) as (t & Ht & Het & Hit & _). exists t. by rewrite Hi', Hit.
  - apply own_inputs_clean.
  - change (resources (set_inputs ?x ?l)) with (resources x) in Hd. by rewrite Hr' in Hd.
  - intros r pieces t Hin Hpar Hpi Hc. eapply check_pieces_ok; [|done..]. by eapply validate_resource_refs_ok.
Qed.

(** ** The key *)

Lemma to_hex_inj m n : to_hex m = to_hex n -> m = n.
Proof. intros He. apply (pad0_hex_inj 0). unfold pad0. by rewrite He. Qed.

Lemma as_bytes_inj s t : scalar s -> scalar t -> as_bytes s = as_bytes t -> s = t.
Proof. intros Hs Ht He. apply (f_equal from_utf8_lossy) in He. by rewrite !lossy_as_bytes in He. Qed.

(** Texts of one length can be told apart in a row. *)
Lemma blocks_inj w l m : 0 < w ->
  Forall (fun h => scalar h /\ length (as_bytes h) = w) l -> Forall (fun h => scalar h /\ length (as_bytes h) = w) m ->
  (l ≫= as_bytes) = (m ≫= as_bytes) -> l = m.
Proof.
  intros Hw Hl. revert m. induction Hl as [|h l [Hs Hh] _ IH]; intros m Hm He.
  - destruct Hm as [|g m [_ Hg] _]; [done|]. simpl in He. apply (f_equal length) in He. rewrite length_app in He. simpl in He. lia.
  - destruct Hm as [|g m [Hs' Hg] Hm]; simpl in He; [apply (f_equal length) in He; rewrite length_app in He; simpl in He; lia|].
    apply app_inj_1 in He as [E1 E2]; [|lia]. f_equal; [by apply as_bytes_inj|by apply IH].
Qed.

(** A driver's name has no zero byte, the hash of a definition has a length, and so have
    the hashes of artifacts. *)
Record plain_key (k w : nat) (ext : ExtendedTargetDef) (hashouts : list str) : Prop := {
  pk_name : scalar (ext_driver ext) /\ 0%N ∉ as_bytes (ext_driver ext);
  pk_hash : length (hash (target_def ext)) = k;
  pk_outs : Forall (fun h => scalar h /\ length (as_bytes h) = w) hashouts
}.

Lemma app_zero_inj (a b x y : list N) : 0%N ∉ a -> 0%N ∉ b -> a ++ 0%N :: x = b ++ 0%N :: y -> a = b /\ x = y.
Proof.
  revert b. induction a as [|c a IH]; intros [|d b] Ha Hb; simpl; intros He.
  - by injection He.
  - injection He as <- _. set_solver.
  - injection He as -> _. set_solver.
  - injection He as -> He. destruct (IH b) as [-> ->]; set_solver.
Qed.

Lemma hashin_writes_inj k w ext1 ext2 l1 l2 : 0 < w -> plain_key k w ext1 l1 -> plain_key k w ext2 l2 ->
  hashin_writes (ext_driver ext1) (hash (target_def ext1)) l1 = hashin_writes (ext_driver ext2) (hash (target_def ext2)) l2 ->
  ext_driver ext1 = ext_driver ext2 /\ hash (target_def ext1) = hash (target_def ext2) /\ l1 = l2.
Proof.
  intros Hw [[Hs1 Hz1] Hk1 Hl1] [[Hs2 Hz2] Hk2 Hl2] He. unfold hashin_writes in He. simpl in He.
  apply app_zero_inj in He as [Ed He]; [|done..]. apply app_inj_1 in He as [Eh He]; [|lia].
  split; [by apply as_bytes_inj|]. split; [done|]. by eapply blocks_inj.
Qed.

Lemma text_sort_unique (l1 l2 : list str) : sort_by (str_key_leb id) l1 = sort_by (str_key_leb id) l2 <-> l1 ≡ₚ l2.
Proof.
  apply sort_by_unique; [apply str_key_leb_total|apply str_key_leb_trans|].
  intros x y. rewrite !str_key_leb_lt. unfold id. intros [?|H1] [?|H2]; try done.
  by destruct (str_lt_irrefl x); eapply str_lt_trans.
Qed.

(** C17: two targets have one key exactly when their drivers, the hashes of their definitions
    and the hashes of what their hashed inputs produced are the same, the last in whatever
    order: the inputs that only the run reads do not count, and neither does who produced
    what. This as long as the digest does not collide and hashes have their full length. *)
Theorem cache_key_exact k w fail_fast metas1 metas2 ext1 ext2 ins1 ins2 outs1 outs2 :
  0 < w ->
  inputs_result_meta metas1 fail_fast ins1 = Ok outs1 -> inputs_result_meta metas2 fail_fast ins2 = Ok outs2 ->
  plain_key k w ext1 (concat outs1) -> plain_key k w ext2 (concat outs2) ->
  (forall l1 l2, l1 ≡ₚ concat outs1 -> l2 ≡ₚ concat outs2 ->
     let w1 := hashin_writes (ext_driver ext1) (hash (target_def ext1)) l1 in
     let w2 := hashin_writes (ext_driver ext2) (hash (target_def ext2)) l2 in xxh3 w1 = xxh3 w2 -> w1 = w2) ->
  inner_meta metas1 fail_fast ext1 ins1 = inner_meta metas2 fail_fast ext2 ins2 <->
  ext_driver ext1 = ext_driver ext2 /\ hash (target_def ext1) = hash (target_def ext2) /\ concat outs1 ≡ₚ concat outs2.
Proof.
  intros Hw E1 E2 [Hn1 Hk1 Hl1] [Hn2 Hk2 Hl2] Hx. unfold inner_meta. rewrite E1, E2. simpl.
  pose proof (sort_by_perm (str_key_leb id) (concat outs1)) as P1. pose proof (sort_by_perm (str_key_leb id) (concat outs2)) as P2.
  split.
  - intros [= He]. unfold hashin in He. apply to_hex_inj in He. apply (Hx _ _ P1 P2) in He.
    apply (hashin_writes_inj k w) in He as (Ed & Eh & El); [|done|split; [done..|by rewrite P1]|split; [done..|by rewrite P2]].
    split; [done|]. split; [done|]. by apply text_sort_unique.
  - intros (Ed & Eh & El). unfold hashin. by rewrite Ed, Eh, (proj2 (text_sort_unique _ _) El).
Qed.
End defs.

(** ** Finding a specification *)

Section find_spec.
Context {E : Type} (is_cycle : E -> bool) (providers : list (Provider E)).

(** What a provider says when it is not the one: nothing, or that it went in circles. *)
Definition declines (addr : Addr) (states : list Wire.State) (p : Provider E) : Prop :=
  match pr_get p addr (states_for p states) with
  | Ok _ => False
  | Err NotFound => True
  | Err (Other e) => is_cycle e = true
  end.
Definition cycles (addr : Addr) (states : list Wire.State) (p : Provider E) : Prop :=
  exists e, pr_get p addr (states_for p states) = Err (Other e) /\ is_cycle e = true.

Lemma get_from_first ps addr states : forall pending,
  match get_from is_cycle ps addr states pending with
  | Ok spec => exists before p after, ps = before ++ p :: after /\ Forall (declines addr states) before /\
      pr_get p addr (states_for p states) = Ok (es_spec spec) /\ es_provider spec = pr_name p
  | Err (InProvider n e) => exists before p after, ps = before ++ p :: after /\ Forall (declines addr states) before /\
      pr_get p addr (states_for p states) = Err (Other e) /\ is_cycle e = false /\ n = pr_name p
  | Err (Cycled e) => Forall (declines addr states) ps /\ (pending = Some e \/ Exists (cycles addr states) ps)
  | Err (TargetNotFound a) => a = addr /\ pending = None /\ Forall (declines addr states) ps /\ ~ Exists (cycles addr states) ps
  end.
Proof.
  induction ps as [|p ps IH]; intros pending; simpl.
  { destruct pending; split_and!; try done; [by left|by inversion 1]. }
  assert (declines addr states p -> forall pending',
    (pending' = pending /\ ~ cycles addr states p) \/ cycles addr states p ->
    match get_from is_cycle ps addr states pending' with
    | Ok spec => exists before p' after, p :: ps = before ++ p' :: after /\ Forall (declines addr states) before /\
        pr_get p' addr (states_for p' states) = Ok (es_spec spec) /\ es_provider spec = pr_name p'
    | Err (InProvider n e) => exists before p' after, p :: ps = before ++ p' :: after /\ Forall (declines addr states) before /\
        pr_get p' addr (states_for p' states) = Err (Other e) /\ is_cycle e = false /\ n = pr_name p'
    | Err (Cycled e) => Forall (declines addr states) (p :: ps) /\ (pending = Some e \/ Exists (cycles addr states) (p :: ps))
    | Err (TargetNotFound a) => a = addr /\ (pending' = None) /\ Forall (declines addr states) (p :: ps) /\ ~ Exists (cycles addr states) ps
    end) as Hstep.
  { intros Hd pending' Hp. specialize (IH pending'). destruct (get_from is_cycle ps addr states pending') as [spec|[n e|e|a]].
    - destruct IH as (b & q & a & -> & Hb & H). exists (p :: b), q, a. split; [done|]. split; [by constructor|done].
    - destruct IH as (b & q & a & -> & Hb & H). exists (p :: b), q, a. split; [done|]. split; [by constructor|done].
    - destruct IH as [Hf He]. split; [by constructor|]. destruct Hp as [[-> _]|Hc]; [|right; by left].
      destruct He as [He|He]; [by left|right; by right].
    - destruct IH as (-> & -> & Hf & He). split_and!; [done..|by constructor|done]. }
  destruct (pr_get p addr (states_for p states)) as [spec|[|e]] eqn:Eg.
  - exists [], p, ps. split_and!; [done..].
  - assert (declines addr states p) as Hd by (unfold declines; by rewrite Eg).
    assert (~ cycles addr states p) as Hnc by (intros (e & H & _); by rewrite Eg in H).
    specialize (Hstep Hd pending (or_introl (conj eq_refl Hnc))).
    destruct (get_from is_cycle ps addr states pending) as [?|[| |]]; try done.
    destruct Hstep as (-> & -> & Hf & He). split_and!; [done..|]. inversion 1; subst; done.
  - destruct (is_cycle e) eqn:Ec.
    + assert (declines addr states p) as Hd by (unfold declines; by rewrite Eg).
      assert (cycles addr states p) as Hc by (exists e; done). specialize (Hstep Hd (Some e) (or_intror Hc)).
      destruct (get_from is_cycle ps addr states (Some e)) as [?|[| |]]; try done. by destruct Hstep as (_ & ? & _).
    + exists [], p, ps. split_and!; done.
Qed.

(** The states are those of the package and of each of its ancestors, in this order, and of
    a package those of every provider. *)
Lemma probe_segments_ok (found : Provider E -> PkgBuf -> list Wire.State) pkg :
  (forall p q, p ∈ providers -> q ∈ parent_packages pkg -> pr_probe p q = Ok (found p q)) ->
  probe_segments providers pkg = Ok (parent_packages pkg ≫= fun q => providers ≫= fun p => found p q).
Proof.
  unfold probe_segments. generalize (parent_packages pkg) as pkgs. intros pkgs Hf.
  enough (forall acc, probe_packages providers pkgs acc = Ok (acc ++ (pkgs ≫= fun q => providers ≫= fun p => found p q))) as H by apply H.
  induction pkgs as [|q pkgs IH]; intros acc; simpl; [by rewrite app_nil_r|].
  assert (forall ps acc, (forall p, p ∈ ps -> p ∈ providers) ->
    probe_providers ps q acc = Ok (acc ++ (ps ≫= fun p => found p q))) as Hp.
  { induction ps as [|p ps IHp]; intros acc' Hin; simpl; [by rewrite app_nil_r|]. unfold probe_one.
    rewrite Hf by (try apply Hin; left). simpl. rewrite IHp by (intros; apply Hin; by right). by rewrite <- app_assoc. }
  rewrite Hp by done. simpl. rewrite IH by (intros; apply Hf; [done|by right]). by rewrite <- app_assoc.
Qed.

(** C19: an address is resolved by the first provider that has it, each being shown its own
    states of the package and its ancestors, the nearest first; a provider that says it has
    not, or that runs into a cycle, is passed over, and one that fails otherwise stops the
    search. A cycle is reported only when no provider has the target, and a target is
    unknown only when every provider says so. *)
Theorem spec_resolution_exact (found : Provider E -> PkgBuf -> list Wire.State) addr :
  (forall p q, p ∈ providers -> q ∈ parent_packages (package addr) -> pr_probe p q = Ok (found p q)) ->
  let states := parent_packages (package addr) ≫= fun q => providers ≫= fun p => found p q in
  match get_spec_inner is_cycle providers addr with
  | Ok spec => exists before p after, providers = before ++ p :: after /\ Forall (declines addr states) before /\
      pr_get p addr (states_for p states) = Ok (es_spec spec) /\ es_provider spec = pr_name p
  | Err (InProvider n e) => exists before p after, providers = before ++ p :: after /\ Forall (declines addr states) before /\
      pr_get p addr (states_for p states) = Err (Other e) /\ is_cycle e = false /\ n = pr_name p
  | Err (Cycled e) => Forall (declines addr states) providers /\ Exists (cycles addr states) providers
  | Err (TargetNotFound a) => a = addr /\ Forall (fun p => pr_get p addr (states_for p states) = Err NotFound) providers
  end.
Proof.
  intros Hf states.
  assert (get_spec_inner is_cycle providers addr = get_from is_cycle providers addr states None) as ->.
  { unfold get_spec_inner. by rewrite (probe_segments_ok found). }
  pose proof (get_from_first providers addr states None) as H.
  destruct (get_from is_cycle providers addr states None) as [spec|[n e|e|a]]; [exact H|exact H|naive_solver|].
  - destruct H as (-> & _ & Hd & Hc). split; [done|]. apply Forall_forall. intros p Hp. rewrite Forall_forall in Hd.
    specialize (Hd p Hp). unfold declines in Hd. destruct (pr_get p addr (states_for p states)) as [|[|e]] eqn:Eg; [done|done|].
    destruct Hc. apply Exists_exists. exists p. split; [done|]. by exists e.
Qed.
End find_spec.

(** ** Concrete targets *)

Definition sample_addr (s : str) : Addr := mkAddr $"p" s [].
Definition sample_dep (s : str) (group : option str) : Input :=
  mkInput (mkTargetAddr (sample_addr s) group []) Standard $"dep||0" ∅ true true.
Definition sample_def (outs : list DefOutput) (ins : list Input) (ep : option Entrypoint) (res : Resources) : WireDef.TargetDef (RawDef := unit) :=
  mkTargetDef (sample_addr $"t") [] tt ins outs [] (mkCacheConfig true true 3) ep false [1; 2; 3]%N false res [].
Definition sample_digest (l : list N) : N := foldl (fun h b => h * 256 + b)%N 1%N l.
Definition sample_extended (driver : str) : ExtendedTargetDef := mkExtended (sample_def [] [] None []) None driver.

Definition sample_metas (h : str) (_ : Addr) : result (def_error (E := unit)) (list str) := Ok [h].

Lemma cache_key_exact_witness :
  let key h := inner_meta (E := unit) sample_digest (sample_metas h) true (sample_extended $"bash") [sample_dep $"a" None] in
  key $"0badcafe" <> key $"0badf00d".
Proof.
  intros key E.
  apply (cache_key_exact (E := unit) sample_digest 3 8 true (sample_metas $"0badcafe") (sample_metas $"0badf00d") (sample_extended $"bash") (sample_extended $"bash")
    [sample_dep $"a" None] [sample_dep $"a" None] [[$"0badcafe"]] [[$"0badf00d"]]) in E.
  - destruct E as (_ & _ & E%Permutation_singleton_inj). discriminate.
  - lia.
  - reflexivity.
  - reflexivity.
  - split; [split; [apply (bool_decide_unpack _); vm_compute; exact I|apply (bool_decide_unpack _); vm_compute; exact I]|done|].
    repeat constructor; apply (bool_decide_unpack _); vm_compute; exact I.
  - split; [split; [apply (bool_decide_unpack _); vm_compute; exact I|apply (bool_decide_unpack _); vm_compute; exact I]|done|].
    repeat constructor; apply (bool_decide_unpack _); vm_compute; exact I.
  - intros l1 l2 H1 H2. simpl in H1, H2. apply Permutation_singleton_r in H1, H2. subst. vm_compute. discriminate.
Defined.

(** The hashes are written one after the other, without their leading zeros: what an input
    produced and what the next one did can be divided in another place. *)
Lemma key_ambiguous {E RawDef} xxh3 (ext : ExtendedTargetDef (RawDef := RawDef)) :
  let key l := inner_meta (E := E) xxh3 (fun _ => Ok l) true ext [sample_dep $"a" None] in key [$"1"; $"23"] = key [$"12"; $"3"].
Proof. reflexivity. Qed.

(** An artifact of a group, and a producer that answers with what it made. *)
Definition sample_artifact (grp hashout : str) : OutputArtifact := mkArtifact grp $"f" OaOutput (OaRaw [] $"f" false) hashout.
Definition metas_hashouts {E} (l : list OutputArtifact) (_ : Addr) : result (def_error (E := E)) (list str) := Ok (meta_hashout <$> metas_of l).

(** The key of a consumer has what its inputs produced, and not in which group: a producer
    puts its files into its groups the other way round, and a target that depends on one of
    the groups keeps its key, although another artifact of the manifest is needed for it. *)
Lemma key_blind_to_groups :
  let before := [sample_artifact $"bin" $"aaaa"; sample_artifact $"doc" $"bbbb"] in
  let after := [sample_artifact $"bin" $"bbbb"; sample_artifact $"doc" $"aaaa"] in
  let producer := mkExtended (sample_def [mkDefOutput $"bin" []; mkDefOutput $"doc" []] [] None []) None $"bash" in
  let input := sample_dep $"a" (Some $"bin") in
  (forall xxh3 (consumer : ExtendedTargetDef (RawDef := unit)) fail_fast,
     inner_meta (E := unit) xxh3 (metas_hashouts before) fail_fast consumer [input] =
     inner_meta (E := unit) xxh3 (metas_hashouts after) fail_fast consumer [input]) /\
  exists linked, link_input (E := unit) (fun _ => Ok producer) input = Ok linked /\
    let needed l := hashout <$> List.filter (fun a => artifact_is_needed a (li_output_names linked) false)
                                  ((fun a => manifest_artifact a 1) <$> l) in
    needed before = [$"aaaa"] /\ needed after = [$"bbbb"].
Proof. split; [by intros ? ? []|]. eexists. split; [vm_compute; reflexivity|]. split; vm_compute; reflexivity. Qed.

(** A provider that goes in circles, and one that has every target. *)
Definition sample_spec (driver : str) (config : list (str * Value)) (transitive : Sandbox) : TargetSpec :=
  mkTargetSpec (sample_addr $"t") driver config [] transitive Approval_default.
Definition sample_providers : list (Provider bool) :=
  [mkProvider $"go" (fun _ => Ok []) (fun _ _ => Err (Other true));
   mkProvider $"buildfile" (fun _ => Ok []) (fun _ _ => Ok (sample_spec $"bash" [] Sandbox_default))].

Lemma spec_resolution_exact_witness :
  es_provider <$> get_spec_inner id sample_providers (sample_addr $"t") = Ok $"buildfile" /\
  forall e, get_spec_inner id sample_providers (sample_addr $"t") <> Err (Cycled e).
Proof.
  split; [reflexivity|]. intros e He.
  pose proof (spec_resolution_exact id sample_providers (fun _ _ => []) (sample_addr $"t")) as H. rewrite He in H.
  destruct H as [H _].
  - intros p q Hp _. unfold sample_providers in Hp. by repeat (apply elem_of_cons in Hp as [->|Hp]); [..|by apply elem_of_nil in Hp].
  - inversion H as [|? ? _ H']. inversion H' as [|? ? H'' _]. exact H''.
Defined.

(** A driver that forgets, when it applies what is inherited, what it parsed. *)
Definition sample_entrypoint : Entrypoint := mkEntrypoint true Caller false.
Definition sample_driver : Driver (E := unit) (RawDef := unit) := mkDriver
  (fun _ => Ok (sample_def [] [sample_dep $"tool" None] (Some sample_entrypoint) [($"memory", $"1")]))
  (fun def _ => Ok (sample_def [] (td_inputs def) None [])) true.
Definition sample_sandbox_of (n : str) : Sandbox := (push_tool Sandbox_default (mkTool (mkTargetAddr (sample_addr n) None []) $"go" true [])).2.
Definition sample_other_spec (_ : Addr) : result (def_error (E := unit)) EngineTargetSpec :=
  Ok (mkEngineSpec (sample_spec $"bash" [] (sample_sandbox_of $"go")) $"buildfile").
Definition sample_engine_spec : EngineTargetSpec :=
  mkEngineSpec (sample_spec $"bash" [($"run", VString $"make -j${resource:memory}")] Sandbox_default) $"buildfile".
Definition sample_get_def : result def_error (ExtendedTargetDef (RawDef := unit)) :=
  @get_def_inner nom_ref unit unit sample_digest {[ $"bash" := sample_driver ]} (mkEnginePools [] 8 0) sample_other_spec
    (fun _ => Err MissingHash) (fun _ _ => Ok []) (fun _ => Err EmptyEnv) true (sample_addr $"t") true sample_engine_spec.

Lemma definition_kept_witness : exists ext, sample_get_def = Ok ext /\
  is_Some (applied_transitive ext) /\ td_entrypoint (target_def ext) = Some sample_entrypoint /\ resources (target_def ext) = [($"memory", $"1")].
Proof.
  destruct sample_get_def as [ext|] eqn:He; [|by vm_compute in He].
  exists ext. split; [done|]. split; [vm_compute in He; injection He as <-; by eexists|].
  destruct (@definition_kept nom_ref unit unit sample_digest {[ $"bash" := sample_driver ]} (mkEnginePools [] 8 0) sample_other_spec
    (fun _ => Err MissingHash) (fun _ _ => Ok []) (fun _ => Err EmptyEnv) true (sample_addr $"t") true sample_engine_spec ext He)
    as (driver & parsed & refs & creds & Hd & Hp & _ & _ & H1 & H2 & _).
  assert (driver = sample_driver) as -> by (vm_compute in Hd; by injection Hd as <-).
  vm_compute in Hp. injection Hp as <-. done.
Defined.
