(* ===== verification/RemoteHealth.v ===== *)
(** The health and the request budget of a remote cache: [CacheHealth],
    [ConfiguredCache::broken], [note_ok], [note_err], [meta_op] and
    [split_request_budget] of [crates/engine/src/engine/remote_cache.rs].

    Every operation on a remote cache ends in a note of how it went. The notes are made of
    relaxed atomic accesses, and any number of operations make theirs at once: a note is a
    small program, [note_step] its accesses one by one, and [step] interleaves the notes of
    all operations with the clock. An operation that starts looks at [broken] first.

    Requests take a slot: blobs one of the shared pool, metadata one of the shared pool if
    that has one to spare, and else one of a reserve. With its slot a request goes to the
    store, whose client (the [LimitStore] of [remote_cache_objstore.rs]) admits as many
    requests at once as the cache is configured for. *)
From S2P Require Import Prelude.

(** ** The breaker *)

Definition FAILURE_THRESHOLD : N := 3.
Definition BREAKER_COOLDOWN : N := 15 * 1000.
Definition BREAKER_COOLDOWN_MAX : N := 5 * 60 * 1000.

Record CacheHealth := mkHealth {
  warned : bool; auth_failed : bool; consecutive_failures : N; disabled_until_ms : N; cooldown_ms : N }.
Definition CacheHealth_default : CacheHealth := mkHealth false false 0 0 0.

Definition broken (now : N) (h : CacheHealth) : bool :=
  auth_failed h || (negb (disabled_until_ms h =? 0)%N && (now <? disabled_until_ms h)%N).

(** The cooldown of a trip, from the one before. *)
Definition next_cooldown (prev : N) : N :=
  N.min (if (prev =? 0)%N then BREAKER_COOLDOWN else saturating_mul prev 2) BREAKER_COOLDOWN_MAX.

Definition with_failures (n : N) (h : CacheHealth) : CacheHealth :=
  mkHealth (warned h) (auth_failed h) n (disabled_until_ms h) (cooldown_ms h).
Definition with_disabled (n : N) (h : CacheHealth) : CacheHealth :=
  mkHealth (warned h) (auth_failed h) (consecutive_failures h) n (cooldown_ms h).
Definition with_cooldown (n : N) (h : CacheHealth) : CacheHealth :=
  mkHealth (warned h) (auth_failed h) (consecutive_failures h) (disabled_until_ms h) n.
Definition with_warned (h : CacheHealth) : CacheHealth :=
  mkHealth true (auth_failed h) (consecutive_failures h) (disabled_until_ms h) (cooldown_ms h).
Definition with_auth (h : CacheHealth) : CacheHealth :=
  mkHealth (warned h) true (consecutive_failures h) (disabled_until_ms h) (cooldown_ms h).

(** Where a note is: before the access the constructor names, with what it has read.
    [Failed auth] is the entry of [note_err], [Succeeded] that of [note_ok]. *)
Inductive Note :=
| Succeeded | OkDisabled | OkCooldown
| Failed (auth : bool) | AuthSwap | ErrCount | ErrAuth (n : N) | ErrDisabled | ErrClock (until : N) | ErrCooldown
| TripCooldown (c : N) | TripClock (c : N) | TripDisabled (t c : N) | TripCount
| Noted.
#[export] Instance Note_eq_dec : EqDecision Note.
Proof. solve_decision. Defined.

(** One access, to the health or to the clock. [fetch_add] wraps; the [+ 1] after it is
    taken to wrap with it. *)
Definition note_step (now : N) (p : Note) (h : CacheHealth) : Note * CacheHealth :=
  match p with
  | Succeeded => (OkDisabled, with_failures 0 h)
  | OkDisabled => (OkCooldown, with_disabled 0 h)
  | OkCooldown => (Noted, with_cooldown 0 h)
  | Failed true => (AuthSwap, with_warned h)
  | AuthSwap => (Noted, with_auth h)
  | Failed false => (ErrCount, with_warned h)
  | ErrCount =>
      let n := ((consecutive_failures h + 1) mod 2 ^ 64)%N in
      (if (FAILURE_THRESHOLD <=? n)%N then ErrAuth n else Noted, with_failures n h)
  | ErrAuth _ => (if auth_failed h then Noted else ErrDisabled, h)
  | ErrDisabled => (ErrClock (disabled_until_ms h), h)
  | ErrClock until => (if negb (until =? 0)%N && (now <? until)%N then Noted else ErrCooldown, h)
  | ErrCooldown => (TripCooldown (next_cooldown (cooldown_ms h)), h)
  | TripCooldown c => (TripClock c, with_cooldown c h)
  | TripClock c => (TripDisabled now c, h)
  | TripDisabled t c => (TripCount, with_disabled (saturating_add t c) h)
  | TripCount => (Noted, with_failures 0 h)
  | Noted => (Noted, h)
  end.

(** A note that nothing comes between: ten accesses at most. *)
Fixpoint run_note (fuel : nat) (now : N) (p : Note) (h : CacheHealth) : Note * CacheHealth :=
  match fuel with
  | O => (p, h)
  | S fuel => let '(p, h) := note_step now p h in run_note fuel now p h
  end.
Definition note_ok (now : N) (h : CacheHealth) : CacheHealth := (run_note 10 now Succeeded h).2.
Definition note_err (auth : bool) (now : N) (h : CacheHealth) : CacheHealth := (run_note 10 now (Failed auth) h).2.

Lemma run_note_ends now p h : (run_note 10 now p h).1 = Noted.
Proof.
  assert (forall n p h, (run_note n now p h).1 = Noted -> (run_note (S n) now p h).1 = Noted) as Hmono.
  { induction n as [|n IH]; intros p' h' Hn; [simpl in *; by subst|].
    change (run_note (S n) now p' h') with (let '(p, h) := note_step now p' h' in run_note n now p h) in Hn.
    change (run_note (S (S n)) now p' h') with (let '(p, h) := note_step now p' h' in run_note (S n) now p h).
    destruct (note_step now p' h') as [p2 h2]. by apply IH. }
  destruct p as [| | |[]| | | | | | | | | | |]; simpl; try done;
    repeat (case_match; simplify_eq/=; try done).
Qed.

(** ** Notes at once *)

Section breaker.

(** The clock, the health, and the operations that have not made their note yet. [ops]
    are the operations in flight: an operation starts only past a look at [broken], may
    take any time and be dropped, and notes success or failure when it ends. *)
Inductive Op := InFlight | Noting (p : Note).
Record Breaker := mkBreaker { clock : N; health : CacheHealth; ops : list Op }.
Definition breaker_init : Breaker := mkBreaker 0 CacheHealth_default [].

Inductive step : Breaker -> Breaker -> Prop :=
| step_tick t b : (clock b <= t)%N -> step b (mkBreaker t (health b) (ops b))
| step_start b : broken (clock b) (health b) = false ->
    step b (mkBreaker (clock b) (health b) (ops b ++ [InFlight]))
| step_end b i p : ops b !! i = Some InFlight -> p = Succeeded \/ (exists auth, p = Failed auth) ->
    step b (mkBreaker (clock b) (health b) (<[i := Noting p]> (ops b)))
| step_note b i p : ops b !! i = Some (Noting p) ->
    step b (mkBreaker (clock b) (note_step (clock b) p (health b)).2
              (<[i := Noting (note_step (clock b) p (health b)).1]> (ops b)))
| step_drop b i op : ops b !! i = Some op -> step b (mkBreaker (clock b) (health b) (delete i (ops b))).

Definition reachable : Breaker -> Prop := rtc step breaker_init.












End breaker.

(** ** An outage, one failure after the other *)

(** The cooldown of the [k]-th trip in a row, from 0. *)
Definition backoff (k : nat) : N := N.min (BREAKER_COOLDOWN * 2 ^ N.of_nat k) BREAKER_COOLDOWN_MAX.

Lemma backoff_next k : next_cooldown (backoff k) = backoff (S k).
Proof.
  unfold next_cooldown, backoff, saturating_mul, BREAKER_COOLDOWN, BREAKER_COOLDOWN_MAX, u64_max.
  rewrite Nat2N.inj_succ, N.pow_succ_r'. pose proof (N.pow_nonzero 2 (N.of_nat k) ltac:(lia)).
  match goal with |- context [(?a =? 0)%N] => destruct (N.eqb_spec a 0) end; lia.
Qed.

Lemma note_ok_resets now h : note_ok now h = mkHealth (warned h) (auth_failed h) 0 0 0.
Proof. done. Qed.

(** A failure short of the threshold only counts; the one that reaches it trips. *)
Lemma note_err_counts now h : (consecutive_failures h + 1 < FAILURE_THRESHOLD)%N ->
  note_err false now h = with_failures (consecutive_failures h + 1) (with_warned h).
Proof.
  unfold note_err. intros Hn. cbn -[N.modulo N.pow FAILURE_THRESHOLD].
  rewrite N.mod_small by (unfold FAILURE_THRESHOLD in Hn; lia). by rewrite (proj2 (N.leb_gt _ _) Hn).
Qed.

Lemma note_err_trips now h : auth_failed h = false -> broken now h = false ->
  (FAILURE_THRESHOLD <= consecutive_failures h + 1 < 2 ^ 64)%N ->
  note_err false now h =
    mkHealth true false 0 (saturating_add now (next_cooldown (cooldown_ms h))) (next_cooldown (cooldown_ms h)).
Proof.
  unfold note_err, broken. intros Ha Hb [Hn Hm]. rewrite Ha in Hb. simpl in Hb.
  cbn -[N.modulo N.pow FAILURE_THRESHOLD next_cooldown saturating_add]. rewrite N.mod_small by done.
  rewrite (proj2 (N.leb_le _ _) Hn). cbn -[next_cooldown saturating_add]. rewrite Ha.
  cbn -[next_cooldown saturating_add]. rewrite Hb. cbn -[next_cooldown saturating_add]. unfold with_failures, with_warned, with_cooldown, with_disabled. cbn -[next_cooldown saturating_add]. by rewrite Ha.
Qed.

(** Three failures at their times; an outage is a sequence of such rounds, each after the
    pause of the round before. *)
Definition round (h : CacheHealth) (r : N * N * N) : CacheHealth :=
  let '(t1, t2, t3) := r in note_err false t3 (note_err false t2 (note_err false t1 h)).
Definition round_end (r : N * N * N) : N := r.2.

Fixpoint spaced (paused : N) (k : nat) (rounds : list (N * N * N)) : Prop :=
  match rounds with
  | [] => True
  | (t1, t2, t3) :: rounds =>
      (paused <= t1 /\ t1 <= t2 /\ t2 <= t3 /\ t3 + BREAKER_COOLDOWN_MAX <= u64_max)%N /\ spaced (t3 + backoff k) (S k) rounds
  end.

Definition armed (paused : N) (k : nat) (h : CacheHealth) : Prop :=
  auth_failed h = false /\ consecutive_failures h = 0%N /\ disabled_until_ms h = paused /\
  cooldown_ms h = match k with O => 0%N | S k => backoff k end.

Lemma armed_open now paused k h : armed paused k h -> (paused <= now)%N -> broken now h = false.
Proof.
  intros (Ha & _ & <- & _) Hn. unfold broken. rewrite Ha. simpl.
  destruct (N.ltb_spec now (disabled_until_ms h)); [lia|]. by rewrite andb_false_r.
Qed.

Lemma armed_cooldown paused k h : armed paused k h -> next_cooldown (cooldown_ms h) = backoff k.
Proof. intros (_ & _ & _ & ->). destruct k; [done|apply backoff_next]. Qed.

Lemma backoff_max k : (backoff k <= BREAKER_COOLDOWN_MAX)%N.
Proof. unfold backoff. lia. Qed.

Lemma round_trips paused k h t1 t2 t3 : armed paused k h -> spaced paused k [(t1, t2, t3)] ->
  broken t2 (note_err false t1 h) = false /\ broken t3 (note_err false t2 (note_err false t1 h)) = false /\
  armed (t3 + backoff k) (S k) (round h (t1, t2, t3)).
Proof.
  intros Harm [(H1 & H2 & H3 & H4) _]. pose proof (armed_cooldown _ _ _ Harm) as Hc. pose proof (backoff_max k).
  pose proof (armed_open t2 _ _ _ Harm ltac:(lia)) as B2. pose proof (armed_open t3 _ _ _ Harm ltac:(lia)) as B3.
  destruct Harm as (Ha & Hf & Hu & _). unfold round.
  rewrite (note_err_counts t1) by (rewrite Hf; done). rewrite Hf.
  rewrite (note_err_counts t2) by done. simpl.
  split_and!; [exact B2|exact B3|].
  rewrite note_err_trips; [|done|exact B3|done]. simpl. rewrite Hc.
  unfold saturating_add. rewrite N.min_l by lia. done.
Qed.

(** C38: the backoff of a cache that stays down. Each round of three failures pauses it once,
    the first two leave it in use, and the pause of the [k]-th round is fifteen seconds
    doubled [k] times, five minutes at most; one success starts all over. *)
Theorem backoff_exact rounds r : spaced 0 0 (rounds ++ [r]) ->
  let h := foldl round CacheHealth_default rounds in
  let '(t1, t2, t3) := r in
  (broken t1 h = false /\ broken t2 (note_err false t1 h) = false /\ broken t3 (note_err false t2 (note_err false t1 h)) = false) /\
  disabled_until_ms (round h r) = (t3 + backoff (length rounds))%N /\
  (forall now, broken now (round h r) = (now <? t3 + backoff (length rounds))%N) /\
  (forall now, armed 0 0 (note_ok now (round h r))).
Proof.
  assert (forall rs paused k h, armed paused k h -> spaced paused k (rs ++ [r]) ->
    exists paused', armed paused' (k + length rs) (foldl round h rs) /\ spaced paused' (k + length rs) [r]) as Hall.
  { induction rs as [|[[t1 t2] t3] rs IH]; intros paused k h Harm Hs; simpl.
    - exists paused. by rewrite Nat.add_0_r.
    - destruct Hs as [Hr Hs]. rewrite Nat.add_succ_r, <- Nat.add_succ_l. apply (IH (t3 + backoff k)%N); [|done].
      by eapply round_trips. }
  intros Hs. destruct (Hall rounds 0%N O CacheHealth_default) as (paused & Harm & Hlast); [by split_and!|done|].
  simpl in Harm, Hlast. destruct r as [[t1 t2] t3]. cbn zeta.
  destruct (round_trips _ _ _ _ _ _ Harm Hlast) as (B2 & B3 & Ha & Hf & Hu & _).
  split_and!; [|done|done|done| |].
  - apply (armed_open _ _ _ _ Harm). by destruct Hlast as [[? _] _].
  - intros now. unfold broken. rewrite Ha, Hu. simpl.
    destruct (N.eqb_spec (t3 + backoff (length rounds)) 0) as [H0|]; [|done]. rewrite H0. by destruct now.
  - intros now. rewrite note_ok_resets, Ha. by split_and!.
Qed.

(** ** Notes that meet *)

(** The next access of each note of a schedule. *)
Fixpoint play (schedule : list nat) (b : Breaker) : Breaker :=
  match schedule with
  | [] => b
  | i :: schedule =>
      match ops b !! i with
      | Some (Noting p) =>
          play schedule (mkBreaker (clock b) (note_step (clock b) p (health b)).2
            (<[i := Noting (note_step (clock b) p (health b)).1]> (ops b)))
      | _ => play schedule b
      end
  end.

Lemma play_steps schedule b : rtc step b (play schedule b).
Proof.
  revert b. induction schedule as [|i schedule IH]; intros b; simpl; [done|].
  destruct (ops b !! i) as [[|p]|] eqn:Ei; [apply IH| |apply IH].
  eapply rtc_l; [by apply (step_note _ i p)|]. apply IH.
Qed.

(** Operations of a cache in use that all fail. *)
Lemma fail_together n h : broken 0 h = false -> forall l,
  rtc step (mkBreaker 0 h l) (mkBreaker 0 h (l ++ replicate n (Noting (Failed false)))).
Proof.
  intros Hb. induction n as [|n IH]; intros l; simpl; [by rewrite app_nil_r|].
  eapply rtc_l; [by apply step_start|]. simpl.
  eapply rtc_l; [apply (step_end _ (length l) (Failed false)); [by apply list_lookup_middle|by right; exists false]|].
  simpl. rewrite insert_app_r_alt, Nat.sub_diag by done. simpl.
  etrans; [apply IH|]. by rewrite <- app_assoc.
Qed.

(** Four failures in a row, the last two at once: both find the cache in use, and each
    takes the cooldown that is there for that of the trip before. *)
Definition double_trip : list nat := [0; 0; 1; 1; 2; 2; 2; 2; 2; 3; 3; 3; 3; 3; 2; 2; 3; 3; 2; 2; 2; 3; 3; 3].

(** The first pause of a run can be longer than [BREAKER_COOLDOWN]. *)
Lemma first_pause_doubled : exists b, reachable b /\ cooldown_ms (health b) = (2 * BREAKER_COOLDOWN)%N /\
  broken (clock b + BREAKER_COOLDOWN) (health b) = true.
Proof.
  exists (play double_trip (mkBreaker 0 CacheHealth_default (replicate 4 (Noting (Failed false))))).
  split; [|split; vm_compute; reflexivity].
  unfold reachable. etrans; [apply (fail_together 4 CacheHealth_default); done|]. apply play_steps.
Qed.

(** Failures that come in during a pause count: after two of them the next one, once the
    cache is in use again, pauses it anew. *)
Lemma one_failure_trips paused k h t1 t2 t3 : armed paused k h -> (paused <= t3)%N -> (t3 + BREAKER_COOLDOWN_MAX <= u64_max)%N ->
  armed (t3 + backoff k) (S k) (note_err false t3 (note_err false t2 (note_err false t1 h))).
Proof.
  intros Harm Hp Hm.
  assert (round h (t1, t2, t3) = round h (t3, t3, t3)) as Hr.
  { destruct Harm as (_ & Hf & _). unfold round. do 2 rewrite (note_err_counts _ h) by (rewrite Hf; done).
    rewrite Hf. rewrite (note_err_counts t2 (with_failures (0 + 1) (with_warned h))), (note_err_counts t3 (with_failures (0 + 1) (with_warned h))) by done. done. }
  change (armed (t3 + backoff k) (S k) (round h (t1, t2, t3))). rewrite Hr.
  eapply round_trips; [done|]. repeat split; lia.
Qed.

(** ** The request budget *)

Definition META_SLOT_RESERVE : nat := 32.
Definition split_request_budget (concurrency : nat) : nat * nat :=
  let total := concurrency `max` 2 in
  let reserve := (META_SLOT_RESERVE `min` (total `div` 2)) `max` 1 in
  (reserve, (total - reserve) `max` 1).

(** The two add up to the budget, and each class of requests has a slot. *)
Lemma budget_split concurrency : let '(reserve, shared) := split_request_budget concurrency in
  1 <= reserve <= META_SLOT_RESERVE /\ 1 <= shared /\ reserve <= shared /\ reserve + shared = concurrency `max` 2.
Proof.
  unfold split_request_budget, META_SLOT_RESERVE. pose proof (Nat.div_mod (concurrency `max` 2) 2 ltac:(lia)).
  pose proof (Nat.mod_upper_bound (concurrency `max` 2) 2 ltac:(lia)). lia.
Qed.

(** The semaphores of a cache and of its store, and who has their permits: metadata
    requests with a slot of the shared pool, with one of the reserve, or queued for the
    reserve, and transfers of blobs. A request with a slot waits for the store or is at it. *)
Record Slots := mkSlots {
  shared_free : nat; reserve_free : nat; store_free : nat;
  shared_wait : nat; shared_at : nat; reserve_wait : nat; reserve_at : nat; meta_queued : nat;
  blobs_wait : nat; blobs_at : nat }.
Definition slots_new (concurrency : nat) : Slots :=
  let '(reserve, shared) := split_request_budget concurrency in mkSlots shared reserve concurrency 0 0 0 0 0 0 0.

(** [try_acquire] of the shared pool, and else the queue of the reserve. *)
Definition meta_start (s : Slots) : Slots :=
  match shared_free s with
  | S n => mkSlots n (reserve_free s) (store_free s) (S (shared_wait s)) (shared_at s) (reserve_wait s) (reserve_at s)
             (meta_queued s) (blobs_wait s) (blobs_at s)
  | O => mkSlots 0 (reserve_free s) (store_free s) (shared_wait s) (shared_at s) (reserve_wait s) (reserve_at s)
           (S (meta_queued s)) (blobs_wait s) (blobs_at s)
  end.

(** The steps of metadata requests: one starts, is granted a slot of the reserve, is
    admitted by the store, or ends. *)
Inductive meta_step : Slots -> Slots -> Prop :=
| meta_starts s : meta_step s (meta_start s)
| meta_granted a r n sw sa rw ra q bw ba : meta_step (mkSlots a (S r) n sw sa rw ra (S q) bw ba) (mkSlots a r n sw sa (S rw) ra q bw ba)
| shared_admitted a r n sw sa rw ra q bw ba : meta_step (mkSlots a r (S n) (S sw) sa rw ra q bw ba) (mkSlots a r n sw (S sa) rw ra q bw ba)
| reserve_admitted a r n sw sa rw ra q bw ba : meta_step (mkSlots a r (S n) sw sa (S rw) ra q bw ba) (mkSlots a r n sw sa rw (S ra) q bw ba)
| shared_ends a r n sw sa rw ra q bw ba : meta_step (mkSlots a r n sw (S sa) rw ra q bw ba) (mkSlots (S a) r (S n) sw sa rw ra q bw ba)
| reserve_ends a r n sw sa rw ra q bw ba : meta_step (mkSlots a r n sw sa rw (S ra) q bw ba) (mkSlots a (S r) (S n) sw sa rw ra q bw ba).

(** All steps: those of blobs, and requests that time out or are dropped while they wait. *)
Inductive slot_step : Slots -> Slots -> Prop :=
| slot_meta s s' : meta_step s s' -> slot_step s s'
| meta_leaves a r n sw sa rw ra q bw ba : slot_step (mkSlots a r n sw sa rw ra (S q) bw ba) (mkSlots a r n sw sa rw ra q bw ba)
| shared_leaves a r n sw sa rw ra q bw ba : slot_step (mkSlots a r n (S sw) sa rw ra q bw ba) (mkSlots (S a) r n sw sa rw ra q bw ba)
| reserve_leaves a r n sw sa rw ra q bw ba : slot_step (mkSlots a r n sw sa (S rw) ra q bw ba) (mkSlots a (S r) n sw sa rw ra q bw ba)
| blob_starts a r n sw sa rw ra q bw ba : slot_step (mkSlots (S a) r n sw sa rw ra q bw ba) (mkSlots a r n sw sa rw ra q (S bw) ba)
| blob_admitted a r n sw sa rw ra q bw ba : slot_step (mkSlots a r (S n) sw sa rw ra q (S bw) ba) (mkSlots a r n sw sa rw ra q bw (S ba))
| blob_ends a r n sw sa rw ra q bw ba : slot_step (mkSlots a r n sw sa rw ra q bw (S ba)) (mkSlots (S a) r (S n) sw sa rw ra q bw ba)
| blob_leaves a r n sw sa rw ra q bw ba : slot_step (mkSlots a r n sw sa rw ra q (S bw) ba) (mkSlots (S a) r n sw sa rw ra q bw ba).

Definition slots_ok (concurrency : nat) (s : Slots) : Prop :=
  let '(reserve, shared) := split_request_budget concurrency in
  reserve_free s + reserve_wait s + reserve_at s = reserve /\
  shared_free s + shared_wait s + shared_at s + blobs_wait s + blobs_at s = shared /\
  store_free s + shared_at s + reserve_at s + blobs_at s = concurrency.

Lemma slot_step_ok c s s' : slot_step s s' -> slots_ok c s -> slots_ok c s'.
Proof.
  unfold slots_ok. destruct (split_request_budget c) as [reserve shared].
  destruct 1 as [s s' Hm| | | | | | |]; [destruct Hm as [s| | | | |]|..]; unfold meta_start; try case_match; simpl; lia.
Qed.

Lemma slots_reachable c s : rtc slot_step (slots_new c) s -> slots_ok c s.
Proof.
  intros Hr. eapply (rtc_ind_r (fun s => slots_ok c s)); [|intros ?? _ Hs; by apply slot_step_ok|exact Hr].
  unfold slots_ok, slots_new. destruct (split_request_budget c); simpl. lia.
Qed.

(** The metadata that waits is served, by metadata that ends. *)
Lemma shared_served sw : forall a r n sa rw ra q bw ba, sw <= n ->
  rtc meta_step (mkSlots a r n sw sa rw ra q bw ba) (mkSlots a r (n - sw) 0 (sw + sa) rw ra q bw ba).
Proof.
  induction sw as [|sw IH]; intros a r n sa rw ra q bw ba Hn; simpl; [by rewrite Nat.sub_0_r|].
  destruct n as [|n]; [lia|]. eapply rtc_l; [apply shared_admitted|]. rewrite <- Nat.add_succ_r. apply IH. lia.
Qed.
Lemma reserve_served rw : forall a r n sw sa ra q bw ba, rw <= n ->
  rtc meta_step (mkSlots a r n sw sa rw ra q bw ba) (mkSlots a r (n - rw) sw sa 0 (rw + ra) q bw ba).
Proof.
  induction rw as [|rw IH]; intros a r n sw sa ra q bw ba Hn; simpl; [by rewrite Nat.sub_0_r|].
  destruct n as [|n]; [lia|]. eapply rtc_l; [apply reserve_admitted|]. rewrite <- Nat.add_succ_r. apply IH. lia.
Qed.
Lemma queue_empties q : forall a r n sa ra bw ba, 1 <= r + ra -> r <= n ->
  exists r' n' ra', rtc meta_step (mkSlots a r n 0 sa 0 ra q bw ba) (mkSlots a r' n' 0 sa 0 ra' 0 bw ba).
Proof.
  induction q as [|q IH]; intros a r n sa ra bw ba Hr Hn; [do 3 eexists; apply rtc_refl|].
  destruct r as [|r].
  - destruct ra as [|ra]; [lia|]. destruct (IH a 0 n sa (S ra) bw ba ltac:(lia) ltac:(lia)) as (r' & n' & ra' & Hs). exists r', n', ra'.
    eapply rtc_l; [apply reserve_ends|]. eapply rtc_l; [apply meta_granted|]. eapply rtc_l; [apply reserve_admitted|]. exact Hs.
  - destruct n as [|n]; [lia|]. destruct (IH a r n sa (S ra) bw ba ltac:(lia) ltac:(lia)) as (r' & n' & ra' & Hs). exists r', n', ra'.
    eapply rtc_l; [apply meta_granted|]. eapply rtc_l; [apply reserve_admitted|]. exact Hs.
Qed.

(** C37: blobs never stand in the way of metadata, in a cache that may have two requests at
    once or more. However requests come and go, those under way are never more than the
    budget, and whoever has a slot finds the store ready to admit it; a metadata request
    that has no slot waits behind metadata only, which fills the reserve; and without any
    blob being admitted or ending, all metadata that waits can be served. *)
Theorem metadata_not_starved c s : 2 <= c -> rtc slot_step (slots_new c) s ->
  shared_wait s + shared_at s + reserve_wait s + reserve_at s + blobs_wait s + blobs_at s <= c /\
  (0 < shared_wait s + reserve_wait s + blobs_wait s -> 0 < store_free s) /\
  (0 < meta_queued s -> reserve_free s = 0 ->
     reserve_wait s + reserve_at s = (split_request_budget c).1 /\ 1 <= reserve_wait s + reserve_at s) /\
  exists s', rtc meta_step s s' /\ meta_queued s' = 0 /\ shared_wait s' = 0 /\ reserve_wait s' = 0 /\
    blobs_wait s' = blobs_wait s /\ blobs_at s' = blobs_at s.
Proof.
  intros Hc Hr%slots_reachable. pose proof (budget_split c) as Hb. unfold slots_ok in Hr.
  destruct (split_request_budget c) as [reserve shared]. destruct s as [a r n sw sa rw ra q bw ba]. simpl in *.
  split_and!; [lia..|intros; lia|].
  destruct (queue_empties q a r (n - sw - rw) (sw + sa) (rw + ra) bw ba) as (r' & n' & ra' & Hs); [lia..|].
  exists (mkSlots a r' n' 0 (sw + sa) 0 ra' 0 bw ba). split; [|by split_and!].
  etrans; [apply shared_served; lia|]. etrans; [apply reserve_served; lia|]. exact Hs.
Qed.

(** A budget of one is split into two slots, and the store admits one request: a metadata
    request with a slot of its own waits for the transfer of a blob. *)
Lemma budget_of_one : split_request_budget 1 = (1, 1) /\
  exists s, rtc slot_step (slots_new 1) s /\ reserve_wait s = 1 /\ store_free s = 0 /\ blobs_at s = 1.
Proof.
  split; [done|]. exists (mkSlots 0 0 0 0 0 1 0 0 0 1). split; [|done].
  eapply rtc_l; [apply blob_starts|]. eapply rtc_l; [apply blob_admitted|].
  eapply rtc_l; [apply slot_meta, meta_starts|]. eapply rtc_l; [apply slot_meta, meta_granted|]. apply rtc_refl.
Qed.

(** ** Concrete runs *)




(** An outage with a second round just after the first pause. *)
Lemma backoff_exact_witness : spaced 0 0 [(1, 2, 3); (15003, 15004, 15005)]%N /\
  disabled_until_ms (round (round CacheHealth_default (1, 2, 3)%N) (15003, 15004, 15005)%N) = 45005%N.
Proof.
  assert (spaced 0 0 ([(1, 2, 3)] ++ [(15003, 15004, 15005)])%N) as Hs.
  { vm_compute. repeat split; discriminate. }
  split; [exact Hs|]. destruct (backoff_exact [(1, 2, 3)%N] (15003, 15004, 15005)%N Hs) as (_ & Hd & _). exact Hd.
Defined.

(** Blobs have every shared slot, and a metadata request waits. *)
Lemma metadata_not_starved_witness : exists s s', rtc slot_step (slots_new 2) s /\ meta_queued s = 1 /\ blobs_at s = 1 /\
  rtc meta_step s s' /\ meta_queued s' = 0.
Proof.
  assert (rtc slot_step (slots_new 2) (mkSlots 0 1 1 0 0 0 0 1 0 1)) as Hr.
  { eapply rtc_l; [apply blob_starts|]. eapply rtc_l; [apply blob_admitted|]. eapply rtc_l; [apply slot_meta, meta_starts|]. apply rtc_refl. }
  destruct (metadata_not_starved 2 _ (le_n 2) Hr) as (_ & _ & _ & s' & Hs & Hq & _).
  exists (mkSlots 0 1 1 0 0 0 0 1 0 1), s'. split; [exact Hr|]. split; [reflexivity|]. split; [reflexivity|]. split; [exact Hs|exact Hq].
Defined.
