(* ===== verification/RemoteConfig.v ===== *)
(** How remote caches are configured and in which order they are read:
    [RemoteCacheDef], [RemoteCacheSet::new], [compute_read_order], [measure_latency] and
    [config_hash] of [crates/engine/src/engine/remote_cache.rs], [remote_cache_latency.rs],
    and the environments of [remote_cache_objstore.rs].

    Each cache takes its credentials from the variables of its own namespace, of its kind,
    or from the ambient environment: the first of them that says anything. Caches are read
    in the order of their latency, which is measured once and kept in a file, for the
    definitions it was measured with.

    What a store's builder knows as a setting, the hash of the definitions and the answers
    of a cache to a probe are parameters. *)
From stdpp Require Import sorting.
From S2P Require Import Prelude Numerals Sorts HtIntern.

(** ** Definitions *)

Record RemoteCacheDef := mkDef {
  d_name : str; d_uri : str; d_read : bool; d_write : bool; d_concurrency : nat;
  d_endpoint : option str; d_region : option str }.

(** [split("://").next()]. *)
Fixpoint before (sep s : str) : str :=
  if starts_with sep s then [] else match s with [] => [] | c :: s => c :: before sep s end.

Definition backend_kind (d : RemoteCacheDef) : str :=
  let scheme := to_ascii_lowercase (before $"://" (d_uri d)) in
  if bool_decide (scheme ∈ [$"s3"; $"s3a"]) then $"s3"
  else if bool_decide (scheme = $"gs") then $"gcs"
  else if bool_decide (scheme ∈ [$"az"; $"adl"; $"azure"; $"abfs"; $"abfss"]) then $"azure"
  else if bool_decide (scheme ∈ [$"http"; $"https"]) then $"http"
  else if bool_decide (scheme = $"file") then $"file"
  else if bool_decide (scheme = $"memory") then $"memory"
  else $"other".

(** ** Namespaces of the environment *)

Definition to_ascii_upper_char (c : char) : char := if is_ascii_lowercase c then (c - 32)%N else c.

Definition CACHE_ENV_PREFIX : str := $"HEPH_CACHE_".
Definition cache_env_prefix (name : str) : str :=
  CACHE_ENV_PREFIX ++ ((fun c => if is_ascii_alphanumeric c then to_ascii_upper_char c else #"_") <$> name) ++ $"_".

(** [eq_ignore_ascii_case] of the head compares character by character. *)
Fixpoint strip_prefix_ascii_case (s prefix : str) : option str :=
  match prefix, s with
  | [], _ => Some s
  | p :: prefix, c :: s =>
      if decide (to_ascii_lower_char c = to_ascii_lower_char p) then strip_prefix_ascii_case s prefix else None
  | _ :: _, [] => None
  end.

Abbreviation vars := (list (str * str)).
Record SchemeEnv := mkSchemeEnv { scoped : vars; ambient : vars }.
Inductive config_error := UnknownSetting (name prefix key : str) | SharedNamespace (a b prefix : str) | OnlyS3 (field : str).

Section split.
(** [key.parse::<K>().is_ok()]. *)
Variable known : str -> bool.

(** [find_map] over the buckets: the first namespace the name is in, by its place, and
    the setting it names there. *)
Fixpoint in_namespace (name : str) (prefixes : list str) : option (nat * str * str) :=
  match prefixes with
  | [] => None
  | p :: prefixes =>
      match strip_prefix_ascii_case name p with
      | Some rest => Some (O, p, to_ascii_lowercase rest)
      | None => (fun x : nat * str * str => (S x.1.1, x.1.2, x.2)) <$> in_namespace name prefixes
      end
  end.

Fixpoint split_loop (prefixes : list str) (env : vars) (buckets : list vars) (amb : vars) : result config_error (list vars * vars) :=
  match env with
  | [] => Ok (buckets, amb)
  | (name, value) :: env =>
      match in_namespace name prefixes with
      | None => split_loop prefixes env buckets (amb ++ [(name, value)])
      | Some (i, prefix, key) =>
          if negb (known key) then Err (UnknownSetting name prefix key)
          else split_loop prefixes env (alter (fun b => b ++ [(key, value)]) i buckets) amb
      end
  end.

Definition first_nonempty (buckets : list vars) : vars :=
  default [] (List.find (fun b => negb (bool_decide (b = []))) buckets).

Definition split (prefixes : list str) (env : vars) : result config_error SchemeEnv :=
  x ← split_loop prefixes env (replicate (length prefixes) []) [];
  let scoped := first_nonempty x.1 in
  Ok (mkSchemeEnv scoped (if bool_decide (scoped = []) then x.2 else [])).
End split.

(** [StoreOptions]. *)
Record StoreOptions := mkStoreOptions { o_endpoint : option str; o_region : option str; o_prefix : option str }.
Definition reject_non_s3 (o : StoreOptions) : result config_error () :=
  match o_endpoint o, o_region o with
  | Some _, _ => Err (OnlyS3 $"endpoint")
  | _, Some _ => Err (OnlyS3 $"region")
  | _, _ => Ok ()
  end.
Definition prefixes (o : StoreOptions) (scheme_prefix : str) : list str :=
  match o_prefix o with Some p => [p; scheme_prefix] | None => [scheme_prefix] end.

Definition REQUEST_TIMEOUT : N := 5 * 60.
Definition transfer_opts (scheme : str) : vars :=
  if bool_decide (scheme ∈ [$"file"; $"memory"]) then [] else [($"timeout", to_dec REQUEST_TIMEOUT ++ $"s")].
Definition opts (e : SchemeEnv) (scheme : str) : vars := ambient e ++ transfer_opts scheme ++ scoped e.

(** [build_with_opts!]: what the builder knows is set, later over earlier. *)
Definition build_with_opts (known : str -> bool) (l : vars) : gmap str str :=
  foldl (fun m kv => let k := to_ascii_lowercase kv.1 in if known k then <[k := kv.2]> m else m) ∅ l.

(** The check of [RemoteCacheSet::new]; the names so far by their namespace. *)
Fixpoint check_namespaces (seen : gmap str str) (defs : list RemoteCacheDef) : result config_error () :=
  match defs with
  | [] => Ok ()
  | d :: defs =>
      let p := cache_env_prefix (d_name d) in
      match seen !! p with
      | Some other => Err (SharedNamespace other (d_name d) p)
      | None => check_namespaces (<[p := d_name d]> seen) defs
      end
  end.

(** ** The order of reads *)

(** [config_hash]: a digest of 64 bits, written with 16 digits. *)
Definition bool_byte (b : bool) : N := if b then 1 else 0.
Definition def_bytes (d : RemoteCacheDef) : list N :=
  as_bytes (d_name d) ++ [0%N] ++ as_bytes (d_uri d) ++ [0%N] ++ as_bytes (default [] (d_endpoint d)) ++ [0%N] ++
  as_bytes (default [] (d_region d)) ++ [bool_byte (d_read d); bool_byte (d_write d)] ++ [255%N].
Definition config_hash (xxh3 : list N -> N) (defs : list RemoteCacheDef) : str :=
  pad0 16 (to_hex (xxh3 (concat (def_bytes <$> sort_by (str_key_leb d_name) defs)))).

(** [StoredOrder] and the file that has one, if it can be read. *)
Record StoredOrder := mkStored { so_hash : str; so_order : list str }.
Definition load_order (file : option StoredOrder) (hash : str) : option (list str) :=
  match file with
  | Some s => if bool_decide (so_hash s = hash) then Some (so_order s) else None
  | None => None
  end.
(** [store_order]: the rename, or a failure that leaves the file as it was. *)
Definition store_order (writable : bool) (hash : str) (order : list str) (file : option StoredOrder) : option StoredOrder :=
  if writable then Some (mkStored hash order) else file.

Definition UNREACHABLE : N := (u64_max / 2 * 1000000000)%N.

(** [probe_latency]: the answers of the warmup and of the three measured calls, each with
    how long it took, in nanoseconds; the first failure ends it. *)
Definition LATENCY_SAMPLES : nat := 3.
Definition probe_latency {E} (warmup : result E N) (calls : list (result E N)) : result E (option N) :=
  match warmup with
  | Err e => Err e
  | Ok _ =>
      (fix go (n : nat) (calls : list (result E N)) (samples : list N) : result E (option N) :=
         match n, calls with
         | O, _ | _, [] => Ok (sort_N samples !! (LATENCY_SAMPLES / 2)%nat)
         | S n, Err e :: _ => Err e
         | S n, Ok t :: calls => go n calls (samples ++ [t])
         end) LATENCY_SAMPLES calls []
  end.

Section order.
Variable defs : list RemoteCacheDef.
(** What measuring a cache comes to: [None] when a probe of it fails. *)
Variable latency : nat -> option N.

Definition is_readable (i : nat) : bool := match defs !! i with Some d => d_read d | None => false end.
Definition readable : list nat := List.filter is_readable (seq 0 (length defs)).

(** The cache a name stands for: the first of that name that is readable and not there yet. *)
Definition named (ordered : list nat) (n : str) : option nat :=
  List.find (fun i => is_readable i && bool_decide ((d_name <$> defs !! i) = Some n) && negb (bool_decide (i ∈ ordered)))
    (seq 0 (length defs)).
Definition push_named (ordered : list nat) (n : str) : list nat :=
  match named ordered n with Some i => ordered ++ [i] | None => ordered end.
Definition push_rest (ordered : list nat) (i : nat) : list nat :=
  if bool_decide (i ∈ ordered) then ordered else ordered ++ [i].

Definition measured (i : nat) : N := default UNREACHABLE (latency i).

(** [compute_read_order]; with it the names to store, if it measured. *)
Definition compute_read_order (stored : option (list str)) : list nat * option (list str) :=
  if decide (length readable <= 1) then (readable, None)
  else
    match stored with
    | Some names => (foldl push_rest (foldl push_named [] names) readable, None)
    | None =>
        let ordered := sort_by_key measured readable in
        (ordered, Some (omap (fun i => d_name <$> defs !! i) ordered))
    end.

(** [measure_latency]: every cache, and the readable ones as the order to store. *)
Definition measure_latency : list nat * list str :=
  let results := sort_by_key measured (seq 0 (length defs)) in
  (results, omap (fun i => d_name <$> defs !! i) (List.filter is_readable results)).
End order.

(** ** What the namespaces promise *)

Section split_lemmas.
Variable known : str -> bool.
Variable prefixes : list str.

(** The settings of the [i]-th namespace, as the environment has them. *)
Definition setting_in (i : nat) (kv : str * str) : option (str * str) :=
  match in_namespace kv.1 prefixes with
  | Some (j, _, key) => if decide (j = i) then Some (key, kv.2) else None
  | None => None
  end.
Definition settings (i : nat) (env : vars) : vars := omap (setting_in i) env.
Definition outside (env : vars) : vars := List.filter (fun kv => bool_decide (in_namespace kv.1 prefixes = None)) env.
Definition unknown_setting (kv : str * str) : option config_error :=
  match in_namespace kv.1 prefixes with
  | Some (_, prefix, key) => if known key then None else Some (UnknownSetting kv.1 prefix key)
  | None => None
  end.

Lemma split_loop_spec env : forall buckets amb, length buckets = length prefixes ->
  split_loop known prefixes env buckets amb =
  match omap unknown_setting env with
  | [] => Ok (imap (fun i b => b ++ settings i env) buckets, amb ++ outside env)
  | e :: _ => Err e
  end.
Proof.
  induction env as [|[name value] env IH]; intros buckets amb Hl; simpl.
  { rewrite app_nil_r. f_equal. f_equal. apply list_eq. intros i. rewrite list_lookup_imap.
    destruct (buckets !! i); simpl; [by rewrite app_nil_r|done]. }
  unfold unknown_setting at 1. simpl. destruct (in_namespace name prefixes) as [[[i p] key]|] eqn:Ei.
  - destruct (known key) eqn:Ek; simpl; [|done].
    rewrite IH by (by rewrite length_alter). change (list_omap _ _ unknown_setting env) with (omap unknown_setting env).
    destruct (omap unknown_setting env); [|done]. f_equal. f_equal.
    apply list_eq. intros j. rewrite !list_lookup_imap. unfold setting_in. simpl. rewrite Ei.
    destruct (decide (i = j)) as [->|Hj].
    + rewrite list_lookup_alter_eq. destruct (buckets !! j); simpl; [|done]. by rewrite <- app_assoc.
    + by rewrite list_lookup_alter_ne.
  - rewrite IH by done. change (list_omap _ _ unknown_setting env) with (omap unknown_setting env).
    destruct (omap unknown_setting env); [|done]. f_equal. f_equal; [|by rewrite <- app_assoc].
    apply list_eq. intros j. rewrite !list_lookup_imap. unfold setting_in. simpl. by rewrite Ei.
Qed.

(** C39: the environment of a store. Every variable of a namespace must name a setting, also
    in a namespace that is not used; then the settings are those of the first namespace
    that has any, whole and in order, with nothing of another namespace or of the ambient
    environment beside them, and the ambient environment is used when no namespace has any. *)
Theorem namespaces_never_merge env :
  split known prefixes env =
  match omap unknown_setting env with
  | e :: _ => Err e
  | [] =>
      let own := (fun i => settings i env) <$> seq 0 (length prefixes) in
      match List.find (fun b => negb (bool_decide (b = []))) own with
      | Some s => Ok (mkSchemeEnv s [])
      | None => Ok (mkSchemeEnv [] (outside env))
      end
  end.
Proof.
  unfold split. rewrite split_loop_spec by apply length_replicate. destruct (omap unknown_setting env); [|done]. simpl.
  assert (imap (fun i b => b ++ settings i env) (replicate (length prefixes) []) = (fun i => settings i env) <$> seq 0 (length prefixes)) as ->.
  { apply list_eq. intros i. rewrite list_lookup_imap, list_lookup_fmap.
    destruct (decide (i < length prefixes)) as [Hi|Hi].
    - rewrite lookup_replicate_2, lookup_seq_lt by done. done.
    - rewrite lookup_seq_ge by lia. rewrite lookup_ge_None_2; [done|]. rewrite length_replicate. lia. }
  unfold first_nonempty. destruct (List.find _ _) as [s|] eqn:Ef; simpl.
  - apply List.find_some in Ef as [_ Hs]. apply negb_true_iff, bool_decide_eq_false in Hs. by rewrite bool_decide_false.
  - done.
Qed.
End split_lemmas.

Lemma build_with_opts_last known l1 l2 k v : known k = true -> to_ascii_lowercase k = k ->
  Forall (fun kv => to_ascii_lowercase kv.1 <> k) l2 -> build_with_opts known (l1 ++ (k, v) :: l2) !! k = Some v.
Proof.
  intros Hk Hl Hn. unfold build_with_opts. rewrite foldl_app. simpl. rewrite Hl, Hk.
  generalize (foldl (fun (m : gmap str str) (kv : str * str) => let k := to_ascii_lowercase kv.1 in if known k then <[k := kv.2]> m else m) ∅ l1).
  intros m. assert (forall m' : gmap str str, m' !! k = Some v -> foldl (fun m kv => let k := to_ascii_lowercase kv.1 in if known k then <[k := kv.2]> m else m) m' l2 !! k = Some v) as H.
  { clear m. induction Hn as [|kv l2 Hkv _ IH]; intros m' Hm; simpl; [done|]. apply IH. case_match; [|done].
    by rewrite lookup_insert_ne. }
  apply H, lookup_insert_eq.
Qed.

(** The timeout of a transfer is heph's, unless a namespace of heph's sets it. *)
Lemma timeout_kept known e scheme : known $"timeout" = true -> scheme <> $"file" -> scheme <> $"memory" ->
  Forall (fun kv => to_ascii_lowercase kv.1 <> $"timeout") (scoped e) ->
  build_with_opts known (opts e scheme) !! $"timeout" = Some $"300s".
Proof.
  intros Hk Hf Hm Hs. unfold opts, transfer_opts. rewrite bool_decide_false.
  - by apply build_with_opts_last.
  - intros [?|[?|[]%elem_of_nil]%elem_of_cons]%elem_of_cons; done.
Qed.

Lemma check_namespaces_spec defs : forall seen, check_namespaces seen defs = Ok () <->
  NoDup (cache_env_prefix ∘ d_name <$> defs) /\ Forall (fun d => seen !! cache_env_prefix (d_name d) = None) defs.
Proof.
  induction defs as [|d defs IH]; intros seen; simpl; [by split; [split; constructor|]|].
  rewrite NoDup_cons, Forall_cons. destruct (seen !! cache_env_prefix (d_name d)) eqn:Es; [naive_solver|].
  rewrite IH. rewrite list_elem_of_fmap. rewrite !Forall_forall. split.
  - intros [Hn Hf]. split_and!; try done.
    + intros (d' & He & Hd'). specialize (Hf _ Hd'). simpl in He. rewrite <- He, lookup_insert_eq in Hf. done.
    + intros d' Hd'. specialize (Hf _ Hd'). by apply lookup_insert_None in Hf as [].
  - intros [[Hn Hd] [_ Hf]]. split; [done|]. intros d' Hd'. apply lookup_insert_None. split; [by apply Hf|].
    intros He. apply Hn. by exists d'.
Qed.

Lemma strip_prefix_ascii_case_app p s : strip_prefix_ascii_case (p ++ s) p = Some s.
Proof. induction p as [|c p IH]; simpl; [by destruct s|]. by rewrite decide_True. Qed.

(** Namespaces that are apart can be one inside the other: every variable of the cache
    [a-b] is also a variable of the cache [a]. *)
Lemma namespace_nested a b key :
  strip_prefix_ascii_case (cache_env_prefix (a ++ $"-" ++ b) ++ key) (cache_env_prefix a) =
  Some (((fun c => if is_ascii_alphanumeric c then to_ascii_upper_char c else #"_") <$> b) ++ $"_" ++ key).
Proof.
  assert (cache_env_prefix (a ++ $"-" ++ b) ++ key = cache_env_prefix a ++
    ((fun c => if is_ascii_alphanumeric c then to_ascii_upper_char c else #"_") <$> b) ++ $"_" ++ key) as ->;
    [|apply strip_prefix_ascii_case_app].
  unfold cache_env_prefix. rewrite fmap_app. by rewrite <- !app_assoc.
Qed.

(** ** What the order promises *)

Section order_lemmas.
Variable defs : list RemoteCacheDef.
Variable latency : nat -> option N.

Lemma elem_readable i : i ∈ readable defs <-> is_readable defs i = true.
Proof.
  unfold readable. rewrite list_elem_of_In, filter_In, <- list_elem_of_In, elem_of_seq.
  unfold is_readable. destruct (defs !! i) eqn:Ei; [|naive_solver]. apply lookup_lt_Some in Ei. naive_solver lia.
Qed.

Lemma NoDup_readable : NoDup (readable defs).
Proof. apply NoDup_ListNoDup, List.NoDup_filter, NoDup_ListNoDup, NoDup_seq. Qed.

Lemma named_Some ordered n i : named defs ordered n = Some i ->
  is_readable defs i = true /\ (d_name <$> defs !! i) = Some n /\ i ∉ ordered.
Proof.
  intros [_ H]%find_some. apply andb_true_iff in H as [[Hr Hn]%andb_true_iff Ho].
  apply bool_decide_eq_true in Hn. by apply negb_true_iff, bool_decide_eq_false in Ho.
Qed.

Definition partial (l : list nat) : Prop := NoDup l /\ Forall (fun i => is_readable defs i = true) l.

Lemma push_named_partial l n : partial l -> partial (push_named defs l n).
Proof.
  intros [Hn Hf]. unfold push_named. destruct (named defs l n) as [i|] eqn:En; [|done].
  apply named_Some in En as (Hr & _ & Hi). split; [|by apply Forall_app_2; [|repeat constructor]].
  apply NoDup_app. split_and!; [done| |apply NoDup_singleton]. by intros x Hx ->%list_elem_of_singleton.
Qed.

Lemma push_rest_partial l i : is_readable defs i = true -> partial l -> partial (push_rest l i).
Proof.
  intros Hr [Hn Hf]. unfold push_rest. case_bool_decide as Hi; [done|]. split; [|by apply Forall_app_2; [|repeat constructor]].
  apply NoDup_app. split_and!; [done| |apply NoDup_singleton]. by intros x Hx ->%list_elem_of_singleton.
Qed.

Lemma push_rest_all rest : forall l, partial l -> Forall (fun i => is_readable defs i = true) rest ->
  partial (foldl push_rest l rest) /\ (forall i, i ∈ l \/ i ∈ rest -> i ∈ foldl push_rest l rest).
Proof.
  induction rest as [|j rest IH]; intros l Hl Hr; simpl; [split; [done|by intros i [?|?%elem_of_nil]]|].
  apply Forall_cons in Hr as [Hj Hr]. destruct (IH (push_rest l j)) as [Hp Hin]; [by apply push_rest_partial|done|].
  split; [done|]. intros i Hi. apply Hin. rewrite elem_of_cons in Hi.
  unfold push_rest. case_bool_decide; [|rewrite elem_of_app, list_elem_of_singleton]; naive_solver.
Qed.

Lemma push_rest_known l rest : (forall i, i ∈ rest -> i ∈ l) -> foldl push_rest l rest = l.
Proof.
  induction rest as [|j rest IH]; intros H; simpl; [done|]. unfold push_rest at 2.
  rewrite bool_decide_true by (apply H; by left). apply IH. intros i Hi. apply H. by right.
Qed.

(** With names of their own, caches are found by the names they were stored under. *)
Lemma push_named_back l : NoDup (d_name <$> defs) -> partial l ->
  foldl (push_named defs) [] (omap (fun i => d_name <$> defs !! i) l) = l.
Proof.
  intros Hn. induction l as [|i l IH] using rev_ind; intros [Hl Hf]; [done|].
  apply NoDup_app in Hl as (Hl & Hd & _). apply Forall_app in Hf as [Hf Hi]. rewrite Forall_singleton in Hi.
  rewrite omap_app, foldl_app, IH by done. simpl. unfold is_readable in Hi.
  destruct (defs !! i) as [d|] eqn:Ei; [|done]. simpl. unfold push_named.
  destruct (named defs l (d_name d)) as [j|] eqn:Ej.
  - apply named_Some in Ej as (_ & Hj & _). do 2 f_equal. rewrite <- list_lookup_fmap in Hj.
    eapply (NoDup_lookup _ _ _ _ Hn Hj). by rewrite list_lookup_fmap, Ei.
  - exfalso. unfold named in Ej. eapply find_none in Ej; [|apply in_seq; split; [apply Nat.le_0_l|by apply lookup_lt_Some in Ei]].
    unfold is_readable in Ej. rewrite Ei in Ej. simpl in Ej. rewrite Hi, bool_decide_true in Ej by done. simpl in Ej.
    apply negb_false_iff, bool_decide_eq_true in Ej. by apply (Hd i Ej), list_elem_of_singleton.
Qed.

Lemma measured_partial : partial (sort_by_key (measured latency) (readable defs)).
Proof.
  split; [apply sort_by_NoDup, NoDup_readable|]. apply Forall_forall. intros i Hi.
  apply sort_by_elem in Hi. by apply elem_readable.
Qed.

(** A read asks every readable cache, each once, whatever order is on disk; an order that
    is measured is that of the latencies, a cache that does not answer comes last; and a
    later run with the same caches reads in the order that was measured. *)
Theorem read_order_exact : 1 < length (readable defs) ->
  (forall stored, (compute_read_order defs latency stored).1 ≡ₚ readable defs) /\
  exists order names, compute_read_order defs latency None = (order, Some names) /\
    StronglySorted (fun i j => measured latency i <= measured latency j)%N order /\
    (NoDup (d_name <$> defs) -> forall latency', compute_read_order defs latency' (Some names) = (order, None)).
Proof.
  intros Hl. split.
  - intros stored. unfold compute_read_order. rewrite decide_False by lia. destruct stored as [names|]; simpl; [|apply sort_by_perm].
    assert (forall ns l, partial l -> partial (foldl (push_named defs) l ns)) as Hnames.
    { induction ns as [|n ns IH]; intros l Hp; simpl; [done|]. by apply IH, push_named_partial. }
    destruct (push_rest_all (readable defs) (foldl (push_named defs) [] names)) as [[Hn Hf] Hin];
      [apply Hnames; split; constructor|apply Forall_forall; intros i; apply elem_readable|].
    apply NoDup_Permutation; [done|apply NoDup_readable|]. intros i. split; [|by intros ?; apply Hin; right].
    intros Hi. apply elem_readable. by eapply Forall_forall in Hf.
  - unfold compute_read_order at 1. rewrite decide_False by lia. do 2 eexists. split; [done|]. split.
    + apply sort_by_key_sorted.
    + intros Hn latency'. unfold compute_read_order. rewrite decide_False by lia.
      rewrite push_named_back by (done || apply measured_partial). f_equal. apply push_rest_known.
      intros i Hi. by apply sort_by_elem.
Qed.
End order_lemmas.

(** The hash does not depend on the order of the definitions, so neither does the file. *)
Lemma config_hash_order xxh3 defs defs' : NoDup (d_name <$> defs) -> defs ≡ₚ defs' -> config_hash xxh3 defs = config_hash xxh3 defs'.
Proof. intros Hn Hp. unfold config_hash. by rewrite (str_key_sort_perm d_name defs defs'). Qed.

(** An order is taken from the file it was stored in as long as the hash is the same. *)
Lemma load_stored hash hash' order file : load_order (store_order true hash order file) hash' = if bool_decide (hash = hash') then Some order else None.
Proof. done. Qed.

(** The sample that is kept has one that is not slower, and one that is not faster. *)
Lemma probe_median {E} w (a b c : N) : exists m, probe_latency (E := E) (Ok w) [Ok a; Ok b; Ok c] = Ok (Some m) /\
  (m = a \/ m = b \/ m = c) /\ (N.min a (N.min b c) <= m <= N.max a (N.max b c))%N /\
  (N.max (N.min a b) (N.min (N.max a b) c) = m)%N.
Proof.
  unfold probe_latency. cbn [LATENCY_SAMPLES app]. unfold sort_N, sort_by_key, sort_by, le_key, id. cbn.
  destruct (N.leb_spec b c); cbn; [destruct (N.leb_spec a b); cbn|destruct (N.leb_spec a c); cbn];
    repeat match goal with |- context [(?x <=? ?y)%N] => destruct (N.leb_spec x y); cbn end; eexists; (split; [reflexivity|]); lia.
Qed.

(** ** Two caches *)

Definition sample_cache (n : str) : RemoteCacheDef := mkDef n $"s3://b/p" true true 256 None None.
Definition sample_caches : list RemoteCacheDef := [sample_cache $"corp"; sample_cache $"corp-ci"].
Definition sample_options (d : RemoteCacheDef) : StoreOptions := mkStoreOptions (d_endpoint d) (d_region d) (Some (cache_env_prefix (d_name d))).
Definition S3_ENV_PREFIX : str := $"HEPH_S3_".

(** A cache whose name begins with that of another one cannot be given credentials of its
    own. The two are accepted, since their namespaces are not the same; but the variables of
    the second are in the namespace of the first too, where they name no setting, and the
    first is refused when they are set. *)
Theorem namespace_overlap known v :
  known $"access_key_id" = true -> known $"ci_access_key_id" = false ->
  check_namespaces ∅ sample_caches = Ok () /\
  let env := [($"HEPH_CACHE_CORP_CI_ACCESS_KEY_ID", v)] in
  split known (prefixes (sample_options (sample_cache $"corp-ci")) S3_ENV_PREFIX) env = Ok (mkSchemeEnv [($"access_key_id", v)] []) /\
  split known (prefixes (sample_options (sample_cache $"corp")) S3_ENV_PREFIX) env =
    Err (UnknownSetting $"HEPH_CACHE_CORP_CI_ACCESS_KEY_ID" $"HEPH_CACHE_CORP_" $"ci_access_key_id").
Proof.
  intros H1 H2. split; [vm_compute; reflexivity|]. cbn zeta. split.
  - assert (in_namespace $"HEPH_CACHE_CORP_CI_ACCESS_KEY_ID" (prefixes (sample_options (sample_cache $"corp-ci")) S3_ENV_PREFIX) =
      Some (0, $"HEPH_CACHE_CORP_CI_", $"access_key_id")) as Hi by (vm_compute; reflexivity).
    unfold split, split_loop. rewrite Hi, H1. reflexivity.
  - assert (in_namespace $"HEPH_CACHE_CORP_CI_ACCESS_KEY_ID" (prefixes (sample_options (sample_cache $"corp")) S3_ENV_PREFIX) =
      Some (0, $"HEPH_CACHE_CORP_", $"ci_access_key_id")) as Hi by (vm_compute; reflexivity).
    unfold split, split_loop. rewrite Hi, H2. reflexivity.
Qed.

Lemma read_order_exact_witness :
  1 < length (readable sample_caches) /\
  exists order names, compute_read_order sample_caches (fun i => if decide (i = 1) then Some 5%N else None) None = (order, Some names) /\ order = [1; 0].
Proof.
  split; [vm_compute; lia|].
  destruct (read_order_exact sample_caches (fun i => if decide (i = 1) then Some 5%N else None)) as [_ (order & names & Hc & _)];
    [vm_compute; lia|]. exists order, names. split; [exact Hc|]. vm_compute in Hc. congruence.
Defined.

Lemma namespace_overlap_witness :
  let known k := bool_decide (k = $"access_key_id") in
  known $"access_key_id" = true /\ known $"ci_access_key_id" = false /\ check_namespaces ∅ sample_caches = Ok ().
Proof.
  cbn zeta. split; [reflexivity|]. split; [reflexivity|].
  exact (proj1 (namespace_overlap (fun k => bool_decide (k = $"access_key_id")) $"v" eq_refl eq_refl)).
Defined.
