(* ===== verification/Sniff.v ===== *)
(** Whether an artifact is worth compressing: [crates/core/src/hartifactcontent/sniff.rs].

    A tar is walked member by member; each is weighed by its size and known for compressed
    by its first bytes. The walk stops once too much of the archive is known not to be.

    What the [tar] crate makes of an archive is a parameter: its members, each with its
    size, whether it is a file, and what reading its beginning gives. *)
From S2P Require Import Prelude.

Abbreviation bytes := (list N).
Record Signature := mkSig { offset : nat; magic : bytes; label : str }.

Definition SIGNATURES : list Signature :=
  [mkSig 0 [31; 139]%N $"gzip";
   mkSig 0 [40; 181; 47; 253]%N $"zstd";
   mkSig 0 [253; 55; 122; 88; 90; 0]%N $"xz";
   mkSig 0 $"BZh" $"bzip2";
   mkSig 0 [4; 34; 77; 24]%N $"lz4";
   mkSig 0 [80; 75; 3; 4]%N $"zip";
   mkSig 0 [55; 122; 188; 175; 39; 28]%N $"7z";
   mkSig 0 [82; 97; 114; 33; 26; 7]%N $"rar";
   mkSig 0 [137; 80; 78; 71; 13; 10; 26; 10]%N $"png";
   mkSig 0 [255; 216; 255]%N $"jpeg";
   mkSig 0 $"GIF8" $"gif";
   mkSig 0 $"OggS" $"ogg";
   mkSig 0 $"fLaC" $"flac";
   mkSig 8 $"WEBP" $"webp";
   mkSig 4 $"ftyp" $"mp4";
   mkSig 0 $"wOFF" $"woff";
   mkSig 0 $"wOF2" $"woff2"].

Definition PEEK_LEN : nat := 12.
Definition BLOCK_BYTES : N := 512.
Definition MIN_MEMBER_BYTES : N := 4 * 1024.
Definition PRECOMPRESSED_PERCENT : N := 90.

Record Verdict := mkVerdict { precompressed : bool; incompressible_bytes : N; dominant : option str }.

Definition has_magic (head : bytes) (s : Signature) : bool :=
  bool_decide (offset s + length (magic s) <= length head) &&
  bool_decide (take (length (magic s)) (drop (offset s) head) = magic s).
Definition match_signature (head : bytes) : option str := label <$> List.find (has_magic head) SIGNATURES.

Section scan.
Context {E : Type}.

(** The calls of [read]: bytes, as many as are asked for at most, an interruption or a
    failure; after the last, the end. *)
Inductive Read := Data (d : bytes) | Interrupted | Failure (e : E).

(** [peek]: [want] more bytes fit the buffer. *)
Fixpoint peek (want : nat) (reads : list Read) : result E bytes :=
  match want, reads with
  | O, _ | _, [] => Ok []
  | _, Data [] :: _ => Ok []
  | _, Data d :: reads => let d := take want d in rest ← peek (want - length d) reads; Ok (d ++ rest)
  | _, Interrupted :: reads => peek want reads
  | _, Failure e :: _ => Err e
  end.

Record Entry := mkEntry { e_size : result E N; e_is_file : bool; e_reads : list Read }.

(** [by_label]: the format's bytes grow, or it is new. *)
Fixpoint add_label (l : str) (n : N) (by_label : list (str * N)) : list (str * N) :=
  match by_label with
  | [] => [(l, n)]
  | (l', m) :: r => if decide (l' = l) then (l', saturating_add m n) :: r else (l', m) :: add_label l n r
  end.
(** [max_by_key] returns the last of several. *)
Fixpoint max_label (best : option (str * N)) (by_label : list (str * N)) : option str :=
  match by_label with
  | [] => fst <$> best
  | (l, n) :: r =>
      max_label (match best with Some (l', m) => if (m <=? n)%N then Some (l, n) else Some (l', m) | None => Some (l, n) end) r
  end.

Definition matched_label (e : Entry) (size : N) : result E (option str) :=
  if e_is_file e && (MIN_MEMBER_BYTES <=? size)%N then match_signature <$> peek PEEK_LEN (e_reads e) else Ok None.

(** The walk over the members, and what it comes to. *)
Fixpoint walk (budget : N) (entries : list (result E Entry)) (rejected incompressible : N) (by_label : list (str * N)) :
    result E (N * list (str * N)) :=
  match entries with
  | [] => Ok (incompressible, by_label)
  | entry :: entries =>
      e ← entry;
      size ← e_size e;
      let rejected := saturating_add rejected BLOCK_BYTES in
      matched ← matched_label e size;
      match matched with
      | Some l => walk budget entries rejected (saturating_add incompressible size) (add_label l size by_label)
      | None =>
          let rejected := saturating_add rejected size in
          if (budget <? rejected)%N then Ok (incompressible, by_label)
          else walk budget entries rejected incompressible by_label
      end
  end.

Definition verdict (blob_size incompressible : N) : bool :=
  (0 <? blob_size)%N && (saturating_mul blob_size PRECOMPRESSED_PERCENT <=? saturating_mul incompressible 100)%N.

Definition scan_tar (entries : result E (list (result E Entry))) (blob_size : N) : result E Verdict :=
  es ← entries;
  x ← walk (blob_size / 100 * (100 - PRECOMPRESSED_PERCENT)) es 0 0 [];
  Ok (mkVerdict (verdict blob_size x.1) x.1 (max_label None x.2)).

(** ** The early stop *)

(** A member of a sound archive: its size, and the bytes of it that count. *)
Definition weight (entry : result E Entry) : option (N * N) :=
  match entry with
  | Ok e =>
      match e_size e with
      | Ok size => match matched_label e size with Ok (Some _) => Some (size, size) | Ok None => Some (size, 0%N) | Err _ => None end
      | Err _ => None
      end
  | Err _ => None
  end.

(** The whole walk, without the stop. *)
Definition weigh (entries : list (result E Entry)) : option (list (N * N)) := mapM weight entries.
Definition framed (ws : list (N * N)) : N := foldr (fun w n => BLOCK_BYTES + w.1 + n)%N 0%N ws.
Definition counted (ws : list (N * N)) : N := foldr (fun w n => w.2 + n)%N 0%N ws.

Lemma weight_le entry w : weight entry = Some w -> (w.2 = w.1 \/ w.2 = 0)%N.
Proof. unfold weight. repeat case_match; naive_solver. Qed.

Lemma counted_framed entries ws : weigh entries = Some ws -> (counted ws <= framed ws)%N /\ (counted ws = 0 \/ counted ws + BLOCK_BYTES <= framed ws)%N.
Proof.
  revert ws. induction entries as [|e es IH]; intros ws; simpl.
  { intros [= <-]. simpl. split; [lia|by left]. }
  intros (w & Hw & (ws' & Hws & [= <-])%bind_Some)%bind_Some. simpl. apply weight_le in Hw. destruct (IH _ Hws). lia.
Qed.

Lemma walk_verdict blob_size es : (blob_size * 100 <= u64_max)%N ->
  forall ws rejected inc lbl, weigh es = Some ws -> (rejected + inc + framed ws <= blob_size)%N ->
  exists inc' lbl', walk (blob_size / 100 * (100 - PRECOMPRESSED_PERCENT)) es rejected inc lbl = Ok (inc', lbl') /\ (inc' <= blob_size)%N /\
    verdict blob_size inc' = ((0 <? blob_size) && (blob_size * 90 <=? (inc + counted ws) * 100))%N.
Proof.
  intros Hu. induction es as [|e es IH]; intros ws rejected inc lbl Hw Hf; simpl.
  { apply (inj Some) in Hw. subst ws. exists inc, lbl. split; [done|]. split; [simpl in Hf; lia|].
    assert ((inc + counted [])%N = inc) as -> by apply N.add_0_r. unfold verdict, saturating_mul, PRECOMPRESSED_PERCENT.
    by rewrite !N.min_l by (simpl in Hf; lia). }
  apply bind_Some in Hw as (w & Hw & (ws' & Hws & [= <-])%bind_Some). simpl in Hf.
  pose proof (counted_framed _ _ Hws) as [Hc1 Hc2].
  unfold weight in Hw. destruct e as [e|]; [|done]. simpl. destruct (e_size e) as [size|]; [|done]. simpl.
  assert (saturating_add rejected BLOCK_BYTES = rejected + BLOCK_BYTES)%N as ->
    by (unfold saturating_add; rewrite N.min_l; [done|]; unfold BLOCK_BYTES in *; lia).
  destruct (matched_label e size) as [[l|]|]; [| |done]; simplify_eq; simpl in *.
  - unfold saturating_add at 1. rewrite N.min_l by lia.
    destruct (IH ws' (rejected + BLOCK_BYTES)%N (inc + size)%N (add_label l size lbl) Hws) as (inc' & lbl' & -> & ? & Hv); [lia|].
    exists inc', lbl'. split; [done|]. split; [done|]. by rewrite Hv, N.add_assoc.
  - unfold saturating_add. rewrite N.min_l by lia. destruct (N.ltb_spec (blob_size / 100 * (100 - PRECOMPRESSED_PERCENT)) (rejected + BLOCK_BYTES + size)).
    + exists inc, lbl. split; [done|]. split; [lia|].
      unfold verdict, saturating_mul, PRECOMPRESSED_PERCENT in *. rewrite !N.min_l by lia. f_equal.
      pose proof (N.div_mod blob_size 100 ltac:(lia)). pose proof (N.mod_lt blob_size 100 ltac:(lia)).
      unfold BLOCK_BYTES in *. destruct Hc2 as [->|Hc2]; [by rewrite !N.add_0_r|].
      transitivity false; [|symmetry]; apply N.leb_gt; lia.
    + destruct (IH ws' (rejected + BLOCK_BYTES + size)%N inc lbl Hws) as (inc' & lbl' & -> & ? & Hv); [lia|].
      exists inc', lbl'. split; [done|]. split; [done|]. by rewrite Hv.
Qed.

(** C36: stopping early does not change the answer. For an archive whose members fit it, each
    with a block of its own, the walk that stops once more than a tenth is known not to
    count finds the archive compressed exactly when nine tenths of it are members that do. *)
Theorem scan_stop_exact entries ws blob_size : weigh entries = Some ws ->
  (framed ws <= blob_size)%N -> (blob_size * 100 <= u64_max)%N ->
  exists v, scan_tar (Ok entries) blob_size = Ok v /\
    precompressed v = ((0 <? blob_size) && (blob_size * 90 <=? counted ws * 100))%N.
Proof.
  intros Hw Hf Hu. unfold scan_tar. simpl.
  destruct (walk_verdict blob_size entries Hu ws 0%N 0%N [] Hw) as (inc & lbl & -> & _ & Hv); [lia|]. simpl.
  eexists. split; [done|]. simpl. by rewrite Hv.
Qed.
End scan.
Arguments Read : clear implicits.
Arguments Entry : clear implicits.

(** A small text before a large layer. *)
Definition sample_entries : list (result () (Entry ())) :=
  [Ok (mkEntry (Ok 600%N) true [Data $"{}"]); Ok (mkEntry (Ok 20000%N) true [Interrupted; Data [31]%N; Data [139; 8]%N])].

Lemma scan_stop_exact_witness :
  exists v, scan_tar (Ok sample_entries) 22016 = Ok v /\ precompressed v = true.
Proof.
  destruct (scan_stop_exact sample_entries [(600, 0); (20000, 20000)]%N 22016) as (v & Hs & Hv);
    [vm_compute; reflexivity|vm_compute; discriminate|vm_compute; discriminate|].
  exists v. split; [exact Hs|]. rewrite Hv. vm_compute. reflexivity.
Defined.
