(* ===== verification/RemoteKeys.v ===== *)
(** The names of objects in a remote cache: [RemoteCacheSet::key], [revision_prefix],
    [key_segment] and [addr_name_segment] of [crates/engine/src/engine/remote_cache.rs].

    An object is named after the address of its target, the input hash and the artifact,
    one path segment each. A segment that would not be safe in a key is rewritten and has
    the hash of what it was appended. *)
From S2P Require Import Prelude Numerals HtPkg HtAddr HtIntern Template Nom.

Definition KEY_SEGMENT_MAX : nat := 96.
Definition KEY_HASH_MARKER : str := $"--".

Definition arg_text (kv : str * str) : str := kv.1 ++ $"=" ++ kv.2.
Definition addr_name_segment (a : Addr) : str :=
  match args a with
  | [] => name a
  | l => name a ++ $"@" ++ join $"," (arg_text <$> l)
  end.

Definition key_char (c : char) : bool := is_ascii_alphanumeric c || any_of $"._-@=," c.

Definition key_segment_is_plain (raw : str) : bool :=
  negb (bool_decide (raw = [])) && (str_len raw <=? N.of_nat KEY_SEGMENT_MAX)%N &&
  negb (bool_decide (raw = $".")) && negb (bool_decide (raw = $"..")) &&
  negb (contains_str KEY_HASH_MARKER raw) && forallb key_char raw.

Section keys.
Variable xxh3 : list N -> N.

Definition key_segment (raw : str) : str :=
  if key_segment_is_plain raw then raw
  else take KEY_SEGMENT_MAX ((fun c => if key_char c then c else #"_") <$> raw) ++ KEY_HASH_MARKER ++
       pad0 16 (to_hex (xxh3 (as_bytes raw))).

Definition revision_prefix (addr : Addr) (hashin : str) : str :=
  concat ((fun c => key_segment c ++ $"/") <$> components (package addr)) ++
  key_segment (addr_name_segment addr) ++ $"/" ++ key_segment hashin.
Definition key (addr : Addr) (hashin n : str) : str := revision_prefix addr hashin ++ $"/" ++ key_segment n.

(** ** Segments *)

Lemma key_char_not_slash c : key_char c = true -> c <> #"/".
Proof. by intros H ->. Qed.

Lemma contains_marker a b : contains_str KEY_HASH_MARKER (a ++ KEY_HASH_MARKER ++ b) = true.
Proof.
  induction a as [|c a IH].
  - cbn [app contains_str]. apply orb_true_iff. left. apply starts_with_true. by exists b.
  - cbn [app contains_str]. rewrite IH. apply orb_true_r.
Qed.

Lemma plain_no_marker raw : key_segment_is_plain raw = true -> contains_str KEY_HASH_MARKER raw = false.
Proof. unfold key_segment_is_plain. rewrite !andb_true_iff, !negb_true_iff. tauto. Qed.

Lemma key_segment_chars raw : Forall (fun c => key_char c = true) (key_segment raw).
Proof.
  unfold key_segment. destruct (key_segment_is_plain raw) eqn:Ep.
  - unfold key_segment_is_plain in Ep. rewrite !andb_true_iff in Ep. destruct Ep as [_ Hp]. by apply forallb_Forall in Hp.
  - apply Forall_app_2; [|apply Forall_app_2].
    + apply Forall_take, Forall_fmap, Forall_true. intros c. simpl. by destruct (key_char c) eqn:Ec.
    + by repeat constructor.
    + eapply Forall_impl; [apply pad0_hex_lower|]. intros c Hc. unfold key_char, is_ascii_alphanumeric.
      apply orb_true_iff in Hc as [->| ->]; [done|]. by rewrite orb_true_r.
Qed.

Lemma key_segment_no_slash raw : #"/" ∉ key_segment raw.
Proof. intros H. pose proof (key_segment_chars raw) as Hc. rewrite Forall_forall in Hc. by apply Hc in H. Qed.

(** A segment stands for one text, as long as the hashes of two texts tell them apart. *)
Lemma key_segment_inj r r' : (forall l, xxh3 l < 2 ^ 64)%N ->
  (xxh3 (as_bytes r) = xxh3 (as_bytes r') -> r = r') -> key_segment r = key_segment r' -> r = r'.
Proof.
  intros Hb Hx. unfold key_segment. destruct (key_segment_is_plain r) eqn:E1, (key_segment_is_plain r') eqn:E2; intros H.
  - done.
  - apply plain_no_marker in E1. by rewrite H, contains_marker in E1.
  - apply plain_no_marker in E2. by rewrite <- H, contains_marker in E2.
  - rewrite !app_assoc in H. apply app_inj_2 in H as [_ H]; [|by rewrite !pad0_hex_length by (lia || apply Hb)].
    apply Hx. by apply pad0_hex_inj in H.
Qed.

(** ** Keys *)

Definition segments (addr : Addr) (hashin n : str) : list str :=
  components (package addr) ++ [addr_name_segment addr; hashin; n].

Lemma join_next sep x l : l <> [] -> join sep (x :: l) = x ++ sep ++ join sep l.
Proof. by destruct l. Qed.

Lemma key_join addr hashin n : key addr hashin n = join $"/" (key_segment <$> segments addr hashin n).
Proof.
  unfold key, revision_prefix, segments. induction (components (package addr)) as [|c l IH]; cbn [fmap list_fmap concat app].
  - by rewrite <- !app_assoc.
  - rewrite join_next, <- IH by (by destruct l). by rewrite <- !app_assoc.
Qed.

(** Texts of two keys that a hash tells apart. *)
Definition hash_apart (l l' : list str) : Prop :=
  forall r r', r ∈ l -> r' ∈ l' -> xxh3 (as_bytes r) = xxh3 (as_bytes r') -> r = r'.

Lemma fmap_segment_inj l : forall l', (forall x, xxh3 x < 2 ^ 64)%N -> hash_apart l l' -> key_segment <$> l = key_segment <$> l' -> l = l'.
Proof.
  induction l as [|r l IH]; intros [|r' l'] Hb Hx; try done. rewrite !fmap_cons. intros [= H1 H2]. f_equal.
  - apply key_segment_inj; [done|apply Hx; left|done].
  - apply IH; [done| |done]. intros ? ? ? ?. by apply Hx; right.
Qed.

Lemma key_segments addr hashin n addr' hashin' n' : (forall x, xxh3 x < 2 ^ 64)%N ->
  hash_apart (segments addr hashin n) (segments addr' hashin' n') ->
  key addr hashin n = key addr' hashin' n' -> segments addr hashin n = segments addr' hashin' n'.
Proof.
  intros Hb Hx. rewrite !key_join. intros H. apply fmap_segment_inj; [done..|].
  assert (forall a h m, split_on #"/" (join $"/" (key_segment <$> segments a h m)) = key_segment <$> segments a h m) as Hs.
  { intros a h m. apply split_on_join; [by unfold segments; destruct (components _)|].
    apply Forall_fmap, Forall_true. intros r. apply key_segment_no_slash. }
  by rewrite <- Hs, H, Hs.
Qed.
End keys.

(** ** Addresses *)

(** What an address has to keep to for its segment to be read back: no [@] in the name, no
    [=] or [,] in the name of an argument, no [,] in its value. *)
Definition arg_clear (kv : str * str) : Prop := (#"," ∉ kv.1) /\ (#"=" ∉ kv.1) /\ (#"," ∉ kv.2).
Definition addr_clear (a : Addr) : Prop := canonical (package a) /\ (#"@" ∉ name a) /\ Forall arg_clear (args a).

#[export] Instance arg_clear_dec kv : Decision (arg_clear kv).
Proof. unfold arg_clear. apply _. Defined.

Lemma arg_text_inj kv kv' : arg_clear kv -> arg_clear kv' -> arg_text kv = arg_text kv' -> kv = kv'.
Proof.
  destruct kv as [k v], kv' as [k' v']. intros (_ & H1 & _) (_ & H2 & _) H. unfold arg_text in H. simpl in *.
  assert (split_once #"=" (k ++ #"=" :: v) = Some (k, v)) as E1 by by apply split_once_Some.
  assert (split_once #"=" (k' ++ #"=" :: v') = Some (k', v')) as E2 by by apply split_once_Some.
  rewrite H in E1. congruence.
Qed.

Lemma arg_texts_inj l l' : Forall arg_clear l -> Forall arg_clear l' -> l <> [] -> l' <> [] ->
  join $"," (arg_text <$> l) = join $"," (arg_text <$> l') -> l = l'.
Proof.
  intros Hl Hl' Hn Hn' H.
  assert (forall m, Forall arg_clear m -> m <> [] -> split_on #"," (join $"," (arg_text <$> m)) = arg_text <$> m) as Hs.
  { intros m Hm Hm'. apply split_on_join; [by destruct m|]. apply Forall_fmap. eapply Forall_impl; [exact Hm|].
    intros [k v] (H1 & _ & H3). unfold arg_text. simpl in *. apply not_elem_of_app. split; [done|]. by intros [?|?]%elem_of_cons. }
  assert (arg_text <$> l = arg_text <$> l') as Hf by by rewrite <- (Hs l), H, Hs.
  clear -Hl Hl' Hf. revert l' Hl' Hf. induction Hl as [|kv l Hkv Hl IH]; intros [|kv' l'] Hl' Hf; try done.
  apply Forall_cons in Hl' as [Hkv' Hl']. rewrite !fmap_cons in Hf. injection Hf as Hh Ht. f_equal; [by apply arg_text_inj|by apply IH].
Qed.

Lemma addr_name_segment_inj a a' : addr_clear a -> addr_clear a' -> addr_name_segment a = addr_name_segment a' ->
  name a = name a' /\ args a = args a'.
Proof.
  intros (_ & Hn & Ha) (_ & Hn' & Ha'). unfold addr_name_segment.
  assert (forall n rest, #"@" ∉ n -> split_once #"@" (n ++ $"@" ++ rest) = Some (n, rest)) as Hs by (intros; by apply split_once_Some).
  destruct (args a) as [|x l] eqn:El, (args a') as [|x' l'] eqn:El'; intros H.
  - done.
  - exfalso. apply Hn. rewrite H. apply elem_of_app. right. by left.
  - exfalso. apply Hn'. rewrite <- H. apply elem_of_app. right. by left.
  - pose proof (Hs (name a) (join $"," (arg_text <$> x :: l)) Hn) as E1.
    pose proof (Hs (name a') (join $"," (arg_text <$> x' :: l')) Hn') as E2.
    rewrite H, E2 in E1. injection E1 as -> E1. split; [done|]. by apply arg_texts_inj.
Qed.

Lemma key_parts xxh3 addr hashin n addr' hashin' n' : (forall x, xxh3 x < 2 ^ 64)%N ->
  addr_clear addr -> addr_clear addr' -> hash_apart xxh3 (segments addr hashin n) (segments addr' hashin' n') ->
  key xxh3 addr hashin n = key xxh3 addr' hashin' n' -> addr = addr' /\ hashin = hashin' /\ n = n'.
Proof.
  intros Hb Hc Hc' Hx H. apply key_segments in H; [|done..]. unfold segments in H.
  apply app_inj_2 in H as [Hp H]; [|done]. injection H as Ha -> ->. split_and!; [|done..].
  apply addr_name_segment_inj in Ha as [? ?]; [|done..]. destruct addr, addr'. simpl in *. f_equal; try done.
  by apply canonical_inj; [apply Hc|apply Hc'|].
Qed.

(** C16: an object of a remote cache has one owner. As long as the hash tells the texts of two
    keys apart, and the addresses have no separator where the key puts one, two keys are
    the same exactly when address, input hash and artifact are. *)
Theorem remote_key_exact xxh3 addr hashin n addr' hashin' n' : (forall x, xxh3 x < 2 ^ 64)%N ->
  addr_clear addr -> addr_clear addr' -> hash_apart xxh3 (segments addr hashin n) (segments addr' hashin' n') ->
  key xxh3 addr hashin n = key xxh3 addr' hashin' n' <-> addr = addr' /\ hashin = hashin' /\ n = n'.
Proof. intros Hb Hc Hc' Hx. split; [by apply key_parts|by intros (-> & -> & ->)]. Qed.

(** The separators are needed. [//p:t@a="1,b=2"] and [//p:t@a=1,b=2] are two targets, both
    of them written by users, and every object of the one is an object of the other: with
    an input hash in common, each is served what the other built. *)
Theorem remote_key_alias : exists a a',
  @parse_addr nom_ref ($"//p:t@a=" ++ [dquote] ++ $"1,b=2" ++ [dquote]) = Ok a /\ @parse_addr nom_ref $"//p:t@a=1,b=2" = Ok a' /\ a <> a' /\
  forall xxh3 hashin n, key xxh3 a hashin n = key xxh3 a' hashin n.
Proof.
  exists (mkAddr $"p" $"t" [($"a", $"1,b=2")]), (mkAddr $"p" $"t" [($"a", $"1"); ($"b", $"2")]).
  split; [vm_compute; reflexivity|]. split; [vm_compute; reflexivity|]. split; [done|]. done.
Qed.

Definition sample_hash (l : list N) : N := foldl (fun h b => (h * 257 + b) mod 2 ^ 64)%N 1%N l.
Definition sample_key_addr (n : str) : Addr := mkAddr $"a/b" n [($"os", $"linux")].

Lemma remote_key_exact_witness : key sample_hash (sample_key_addr $"t") $"h1" $"out_x.tar" <> key sample_hash (sample_key_addr $"u--v") $"h1" $"out_x.tar".
Proof.
  intros H. apply remote_key_exact in H as [H _]; [done| | | |].
  - intros l. unfold sample_hash. destruct l as [|b l] using rev_ind; [done|]. rewrite foldl_app. apply N.mod_lt. done.
  - split_and!; [|apply (bool_decide_unpack _); vm_compute; exact I..]. by exists [$"a"; $"b"]; split; [repeat constructor; apply (bool_decide_unpack _); vm_compute|].
  - split_and!; [|apply (bool_decide_unpack _); vm_compute; exact I..]. by exists [$"a"; $"b"]; split; [repeat constructor; apply (bool_decide_unpack _); vm_compute|].
  - intros r r' Hr Hr' Hx. vm_compute in Hr, Hr'.
    repeat (apply elem_of_cons in Hr as [->|Hr]; [|try by apply elem_of_nil in Hr]);
      repeat (apply elem_of_cons in Hr' as [->|Hr']; [|try by apply elem_of_nil in Hr']); vm_compute in Hx; try discriminate Hx; try reflexivity.
Defined.
