(* ===== verification/RemotePush.v ===== *)
(** Pushing revisions to a remote cache: [RemoteCacheSet::put_revision],
    [stream_file_to_backend] and [write_bytes_to_backend] of
    [crates/engine/src/engine/remote_cache.rs], and the trait [RemoteCacheBackend].

    A push uploads the blobs of a revision, a bounded number at a time, and the manifest
    after all of them. An upload is a small machine, [upload_step] one call of the store
    each, and so is a push, [push_step]. A bucket is shared: pushes of many machines move
    in any order, fail, and are abandoned at their deadline or when a request is
    cancelled. An object appears whole when its upload is finalized, or not at all. *)
From S2P Require Import Prelude HtPkg HtAddr HtIntern Gc CacheTiers RemoteHealth RemoteConfig RemoteKeys.

Definition REVISION_BLOB_CONCURRENCY : nat := 32.

(** ** The trait *)

(** A reader gives chunks, and then a failure or the end. *)
Class RemoteBackend (B RW E : Type) := {
  open_read : str -> B -> result E (option (list bytes * option E)) * B;
  open_write : str -> B -> result E RW * B;
  (** [write_all] and [shutdown] of the writer. *)
  rw_write : bytes -> RW -> B -> result E () * RW * B;
  rw_shutdown : RW -> B -> result E () * B;
  object_exists : str -> B -> result E bool * B;
  list_names : str -> B -> result E (list str) * B;
}.

(** An object under a prefix, by its last segment. *)
Definition under (prefix n k : str) : Prop := exists dir, k = prefix ++ $"/" ++ dir ++ n /\ (dir = [] \/ exists d, dir = d ++ $"/").

(** What the trait promises: a writer is finalized by its shutdown, and a call that fails
    may have been carried out. *)
Class RemoteLaws (B RW E : Type) `{RemoteBackend B RW E} (objects : B -> gmap str bytes) (staged : RW -> str * bytes) : Prop := {
  open_read_spec k b r b' : open_read k b = (r, b') -> objects b' = objects b /\
    match r with
    | Ok None => objects b !! k = None
    | Ok (Some (chunks, None)) => objects b !! k = Some (concat chunks)
    | _ => True
    end;
  open_write_spec k b r b' : open_write k b = (r, b') -> objects b' = objects b /\ (forall w, r = Ok w -> staged w = (k, []));
  rw_write_spec d w b r w' b' : rw_write d w b = (r, w', b') ->
    objects b' = objects b /\ (r = Ok () -> staged w' = ((staged w).1, (staged w).2 ++ d));
  rw_shutdown_spec w b r b' : rw_shutdown w b = (r, b') ->
    objects b' = <[(staged w).1 := (staged w).2]> (objects b) \/ ((exists e, r = Err e) /\ objects b' = objects b);
  list_names_spec p b r b' : list_names p b = (r, b') -> objects b' = objects b /\
    (forall names, r = Ok names -> forall n, #"/" ∉ n -> n ∈ names <-> exists k, is_Some (objects b !! k) /\ under p n k);
}.

(** ** Uploads *)

Section push.
Context {B RW E : Type} `{RemoteBackend B RW E}.
Variable xxh3 : list N -> N.

(** What opening a temporary file gives: its chunks as they are read, and the failure of a
    read, if one fails. *)
Abbreviation Source := (result E (list bytes * option E)).

Inductive Upload :=
| UOpen
| UWriting (w : RW) (chunks : list bytes) (failure : option E)
| UDone (r : result E ()).

Definition upload_step (k : str) (src : Source) (u : Upload) (b : B) : Upload * B :=
  match u with
  | UOpen =>
      match src with
      | Err e => (UDone (Err e), b)
      | Ok (chunks, failure) =>
          match open_write k b with
          | (Err e, b) => (UDone (Err e), b)
          | (Ok w, b) => (UWriting w chunks failure, b)
          end
      end
  | UWriting w [] (Some e) => (UDone (Err e), b)
  | UWriting w [] None => let '(r, b) := rw_shutdown w b in (UDone r, b)
  | UWriting w (d :: chunks) failure =>
      match rw_write d w b with
      | (Err e, _, b) => (UDone (Err e), b)
      | (Ok _, w, b) => (UWriting w chunks failure, b)
      end
  | UDone _ => (u, b)
  end.

Definition is_done (u : Upload) : bool := match u with UDone _ => true | _ => false end.

(** The results, in order: [None] until all are there, then the first error. *)
Fixpoint first_error (us : list Upload) : option (result E ()) :=
  match us with
  | [] => Some (Ok ())
  | UDone (Err e) :: us => if forallb is_done us then Some (Err e) else None
  | UDone (Ok _) :: us => first_error us
  | _ :: _ => None
  end.

(** [buffered]: an upload starts once fewer than its bound come before it that have not
    been collected, in order. *)
Fixpoint collected (us : list Upload) : nat :=
  match us with UDone _ :: us => S (collected us) | _ => 0 end.
Definition may_move (us : list Upload) (j : nat) : bool := (j <? collected us + REVISION_BLOB_CONCURRENCY).

(** ** Pushes *)

Inductive Phase :=
| PBlobs (us : list Upload)
| PManifest (u : Upload)
| PEnded (r : result E ()).

Record Push := mkPush { pu_addr : Addr; pu_hashin : str; pu_manifest : bytes; pu_blobs : list (str * Source); pu_phase : Phase }.
Definition with_phase (ph : Phase) (p : Push) : Push := mkPush (pu_addr p) (pu_hashin p) (pu_manifest p) (pu_blobs p) ph.

Definition new_push (a : Addr) (h : str) (m : bytes) (blobs : list (str * Source)) : Push :=
  mkPush a h m blobs (PBlobs ((fun _ => UOpen) <$> blobs)).

(** The next call of the [j]-th upload; when all are done, of the manifest. *)
Definition push_step (j : nat) (p : Push) (b : B) : Push * B :=
  match pu_phase p with
  | PBlobs us =>
      match first_error us with
      | Some (Ok _) => (with_phase (PManifest UOpen) p, b)
      | Some (Err e) => (with_phase (PEnded (Err e)) p, b)
      | None =>
          match us !! j, pu_blobs p !! j with
          | Some u, Some (n, src) =>
              if may_move us j then
                let '(u, b) := upload_step (key xxh3 (pu_addr p) (pu_hashin p) n) src u b in
                (with_phase (PBlobs (<[j := u]> us)) p, b)
              else (p, b)
          | _, _ => (p, b)
          end
      end
  | PManifest (UDone r) => (with_phase (PEnded r) p, b)
  | PManifest u =>
      let '(u, b) := upload_step (key xxh3 (pu_addr p) (pu_hashin p) MANIFEST_V1) (Ok ([pu_manifest p], None)) u b in
      (with_phase (PManifest u) p, b)
  | PEnded _ => (p, b)
  end.

Fixpoint run_push (schedule : list nat) (p : Push) (b : B) : Push * B :=
  match schedule with
  | [] => (p, b)
  | j :: schedule => let '(p, b) := push_step j p b in run_push schedule p b
  end.

(** [put_revision]: the writable caches that are in use each get a push, and a note of
    how it went; [auth] tells the errors that are about credentials. *)
Record Cache := mkCache { c_def : RemoteCacheDef; c_health : CacheHealth; c_store : B }.
Definition is_writer (now : N) (c : Cache) : bool := d_write (c_def c) && negb (broken now (c_health c)).

Definition note_result (auth : E -> bool) (now : N) (r : result E ()) (h : CacheHealth) : CacheHealth :=
  match r with Ok _ => note_ok now h | Err e => note_err (auth e) now h end.

Definition put_cache (auth : E -> bool) (now later : N) (schedule : list nat) (p : Push) (c : Cache) : Cache :=
  if is_writer now c then
    let '(p, b) := run_push schedule p (c_store c) in
    mkCache (c_def c) (match pu_phase p with PEnded r => note_result auth later r (c_health c) | _ => c_health c end) b
  else c.
Definition put_revision (auth : E -> bool) (now later : N) (schedule : nat -> list nat) (p : Push) (cs : list Cache) : list Cache :=
  imap (fun i => put_cache auth now later (schedule i) p) cs.
End push.
Arguments Upload : clear implicits.
Arguments Phase : clear implicits.
Arguments Push : clear implicits.
Arguments Cache : clear implicits.

(** ** A shared bucket *)

Section bucket.
Context {B RW E : Type} `{RemoteBackend B RW E} {objects : B -> gmap str bytes} {staged : RW -> str * bytes}
  `{!RemoteLaws B RW E objects staged}.
Variable xxh3 : list N -> N.

(** What the revision of an address and an input hash consists of, whoever builds it: the
    bytes of its manifest, and of its blobs as they are stored. *)
Variable published : Addr -> str -> option (bytes * list (str * bytes)).

(** The temporary file of a blob, if it can be read to its end, holds these bytes. *)
Definition source_of (d : bytes) (src : result E (list bytes * option E)) : Prop :=
  forall chunks, src = Ok (chunks, None) -> concat chunks = d.

(** A push of the revision as it is published. *)
Definition pushes (p : Push RW E) (m : bytes) (bl : list (str * bytes)) : Prop :=
  published (pu_addr p) (pu_hashin p) = Some (m, bl) /\ pu_manifest p = m /\
  Forall2 (fun x y => x.1 = y.1 /\ source_of y.2 x.2) (pu_blobs p) bl.

Record Bucket := mkBucket { bk_store : B; bk_pushes : list (Push RW E) }.

(** A push begins, makes a call, is dropped; and the store may change in ways that do not
    touch an object: connections come and go. *)
Inductive bucket_step : Bucket -> Bucket -> Prop :=
| bucket_begins bk p m bl : pushes p m bl -> pu_phase p = PBlobs ((fun _ => UOpen) <$> pu_blobs p) ->
    bucket_step bk (mkBucket (bk_store bk) (bk_pushes bk ++ [p]))
| bucket_moves bk i j p : bk_pushes bk !! i = Some p ->
    bucket_step bk (mkBucket (push_step xxh3 j p (bk_store bk)).2 (<[i := (push_step xxh3 j p (bk_store bk)).1]> (bk_pushes bk)))
| bucket_drops bk i : bucket_step bk (mkBucket (bk_store bk) (delete i (bk_pushes bk)))
| bucket_env bk b : objects b = objects (bk_store bk) -> bucket_step bk (mkBucket b (bk_pushes bk)).

(** A bucket that holds nothing but what is published, and a manifest only with its blobs. *)
Definition revision_sound (objs : gmap str bytes) (a : Addr) (h : str) (m : bytes) (bl : list (str * bytes)) : Prop :=
  (forall n d, (n, d) ∈ bl -> objs !! key xxh3 a h n = None \/ objs !! key xxh3 a h n = Some d) /\
  (objs !! key xxh3 a h MANIFEST_V1 = None \/
   objs !! key xxh3 a h MANIFEST_V1 = Some m /\ forall n d, (n, d) ∈ bl -> objs !! key xxh3 a h n = Some d).
Definition bucket_sound (objs : gmap str bytes) : Prop :=
  forall a h m bl, published a h = Some (m, bl) -> revision_sound objs a h m bl.

Definition upload_ok (k : str) (d : bytes) (u : Upload RW E) (objs : gmap str bytes) : Prop :=
  match u with
  | UOpen => True
  | UWriting w chunks failure => (staged w).1 = k /\ (failure = None -> (staged w).2 ++ concat chunks = d)
  | UDone (Ok _) => objs !! k = Some d
  | UDone (Err _) => True
  end.

Definition phase_ok (p : Push RW E) (m : bytes) (bl : list (str * bytes)) (objs : gmap str bytes) : Prop :=
  let k := key xxh3 (pu_addr p) (pu_hashin p) in
  match pu_phase p with
  | PBlobs us => Forall2 (fun u y => upload_ok (k y.1) y.2 u objs) us bl
  | PManifest u => (forall n d, (n, d) ∈ bl -> objs !! k n = Some d) /\ upload_ok (k MANIFEST_V1) m u objs
  | PEnded r => upload_ok (k MANIFEST_V1) m (UDone r) objs
  end.

Record bucket_ok (bk : Bucket) : Prop := {
  bk_sound : bucket_sound (objects (bk_store bk));
  bk_phases : Forall (fun p => exists m bl, pushes p m bl /\ phase_ok p m bl (objects (bk_store bk))) (bk_pushes bk) }.

(** ** Steps keep it *)

(** What the names of published objects need: the hypotheses of [key_parts]. *)
Record published_ok : Prop := {
  pub_hash : forall x, (xxh3 x < 2 ^ 64)%N;
  pub_clear a h m bl : published a h = Some (m, bl) -> addr_clear a;
  pub_names a h m bl : published a h = Some (m, bl) -> NoDup bl.*1 /\ MANIFEST_V1 ∉ bl.*1;
  pub_apart a h m bl a' h' m' bl' n n' : published a h = Some (m, bl) -> published a' h' = Some (m', bl') ->
    n ∈ MANIFEST_V1 :: bl.*1 -> n' ∈ MANIFEST_V1 :: bl'.*1 -> hash_apart xxh3 (segments a h n) (segments a' h' n') }.
Hypothesis ok : published_ok.

Lemma pub_key a h m bl n a' h' m' bl' n' : published a h = Some (m, bl) -> published a' h' = Some (m', bl') ->
  n ∈ MANIFEST_V1 :: bl.*1 -> n' ∈ MANIFEST_V1 :: bl'.*1 -> key xxh3 a h n = key xxh3 a' h' n' -> a = a' /\ h = h' /\ n = n'.
Proof.
  intros H1 H2 Hn Hn'. eapply key_parts; [apply (pub_hash ok)|by eapply (pub_clear ok)|by eapply (pub_clear ok)|by eapply (pub_apart ok)].
Qed.

Lemma blob_name (n : str) (d : bytes) (bl : list (str * bytes)) : (n, d) ∈ bl -> n ∈ MANIFEST_V1 :: bl.*1.
Proof. intros Hin. right. apply list_elem_of_fmap. by exists (n, d). Qed.

Lemma blob_unique a h m bl n d d' : published a h = Some (m, bl) -> (n, d) ∈ bl -> (n, d') ∈ bl -> d = d'.
Proof.
  intros Hp H1 H2. destruct (pub_names ok _ _ _ _ Hp) as [Hn _].
  apply list_elem_of_lookup in H1 as [i Hi], H2 as [j Hj].
  assert (i = j); [|by simplify_eq]. apply (NoDup_lookup _ i j n Hn); by rewrite list_lookup_fmap, ?Hi, ?Hj.
Qed.

Lemma upload_ok_mono k d u objs objs' : objs ⊆ objs' -> upload_ok k d u objs -> upload_ok k d u objs'.
Proof. destruct u as [| |[]]; simpl; try done. intros Hs Hk. by eapply lookup_weaken. Qed.

Lemma phase_ok_mono p m bl objs objs' : objs ⊆ objs' -> phase_ok p m bl objs -> phase_ok p m bl objs'.
Proof.
  intros Hs. unfold phase_ok. destruct (pu_phase p) as [us|u|]; [| |by apply upload_ok_mono].
  - intros Hf. eapply Forall2_impl; [exact Hf|]. intros u y. by apply upload_ok_mono.
  - intros [Hb Hu]. split; [|by eapply upload_ok_mono]. intros n d Hin. eapply lookup_weaken; [by apply Hb|done].
Qed.

(** A blob lands. *)
Lemma sound_blob objs a h m bl n d : bucket_sound objs -> published a h = Some (m, bl) -> (n, d) ∈ bl ->
  bucket_sound (<[key xxh3 a h n := d]> objs) /\ objs ⊆ <[key xxh3 a h n := d]> objs.
Proof.
  intros Hs Hp Hin. assert (objs ⊆ <[key xxh3 a h n := d]> objs) as Hsub.
  { destruct (Hs _ _ _ _ Hp) as [Hb _]. destruct (Hb n d Hin) as [Hb'|Hb']; [by apply insert_subseteq|by rewrite insert_id]. }
  split; [|done]. intros a' h' m' bl' Hp'. destruct (Hs _ _ _ _ Hp') as [Hb Hm]. split.
  - intros n' d' Hin'. destruct (decide (key xxh3 a h n = key xxh3 a' h' n')) as [Hk|Hk]; [|by rewrite lookup_insert_ne; auto].
    destruct (pub_key _ _ _ _ _ _ _ _ _ _ Hp Hp' (blob_name _ _ _ Hin) (blob_name _ _ _ Hin') Hk) as (-> & -> & ->).
    rewrite lookup_insert_eq. right. rewrite Hp in Hp'. injection Hp' as <- <-. f_equal. by eapply blob_unique.
  - rewrite lookup_insert_ne.
    + destruct Hm as [Hm|[Hm Hall]]; [by left|right]. split; [done|]. intros n' d' Hin'. eapply lookup_weaken; [by apply Hall|done].
    + intros Hk. destruct (pub_key _ _ _ _ _ _ _ _ _ _ Hp Hp' (blob_name _ _ _ Hin) (list_elem_of_here _ _) Hk) as (_ & _ & ->).
      destruct (pub_names ok _ _ _ _ Hp) as [_ Hn]. apply Hn, list_elem_of_fmap. by exists (MANIFEST_V1, d).
Qed.

(** The manifest lands, over all its blobs. *)
Lemma sound_manifest objs a h m bl : bucket_sound objs -> published a h = Some (m, bl) ->
  (forall n d, (n, d) ∈ bl -> objs !! key xxh3 a h n = Some d) ->
  bucket_sound (<[key xxh3 a h MANIFEST_V1 := m]> objs) /\ objs ⊆ <[key xxh3 a h MANIFEST_V1 := m]> objs.
Proof.
  intros Hs Hp Hall. assert (objs ⊆ <[key xxh3 a h MANIFEST_V1 := m]> objs) as Hsub.
  { destruct (Hs _ _ _ _ Hp) as [_ [Hm|[Hm _]]]; [by apply insert_subseteq|by rewrite insert_id]. }
  split; [|done]. intros a' h' m' bl' Hp'. destruct (Hs _ _ _ _ Hp') as [Hb Hm]. split.
  - intros n' d' Hin'. rewrite lookup_insert_ne; [by apply Hb|].
    intros Hk. destruct (pub_key _ _ _ _ _ _ _ _ _ _ Hp Hp' (list_elem_of_here _ _) (blob_name _ _ _ Hin') Hk) as (_ & _ & <-).
    destruct (pub_names ok _ _ _ _ Hp') as [_ Hn]. apply Hn, list_elem_of_fmap. by exists (MANIFEST_V1, d').
  - destruct (decide (key xxh3 a h MANIFEST_V1 = key xxh3 a' h' MANIFEST_V1)) as [Hk|Hk].
    + destruct (pub_key _ _ _ _ _ _ _ _ _ _ Hp Hp' (list_elem_of_here _ _) (list_elem_of_here _ _) Hk) as (-> & -> & _).
      rewrite Hp in Hp'. injection Hp' as <- <-. right. rewrite lookup_insert_eq. split; [done|].
      intros n' d' Hin'. eapply lookup_weaken; [by apply Hall|done].
    + rewrite lookup_insert_ne by done. destruct Hm as [Hm|[Hm Hall']]; [by left|right]. split; [done|].
      intros n' d' Hin'. eapply lookup_weaken; [by apply Hall'|done].
Qed.

Lemma upload_step_ok k d src u b u' b' : source_of d src -> upload_ok k d u (objects b) -> upload_step k src u b = (u', b') ->
  (objects b' = objects b \/ objects b' = <[k := d]> (objects b)) /\ upload_ok k d u' (objects b').
Proof.
  intros Hsrc Hu. destruct u as [|w [|d0 chunks] [e|]|r]; simpl in *.
  - destruct src as [[chunks failure]|e]; [|by intros [= <- <-]; split; [left|]].
    destruct (open_write k b) as [[w|e] b1] eqn:Eo; apply open_write_spec in Eo as [Ho Hw]; intros [= <- <-]; (split; [by left|]); simpl; [|done].
    rewrite (Hw w eq_refl). split; [done|]. intros ->. by apply Hsrc.
  - intros [= <- <-]. by split; [left|].
  - destruct Hu as [Hk Hd]. specialize (Hd eq_refl). rewrite app_nil_r in Hd.
    destruct (rw_shutdown w b) as [r b1] eqn:Es. apply rw_shutdown_spec in Es. rewrite Hk, Hd in Es. intros [= <- <-].
    destruct Es as [Es|[[e ->] Es]]; (split; [auto|]); simpl; [|done]. destruct r; [|done]. by rewrite Es, lookup_insert_eq.
  - destruct Hu as [Hk _]. destruct (rw_write d0 w b) as [[[[]|e'] w1] b1] eqn:Ew; apply rw_write_spec in Ew as [Ho Hw];
      intros [= <- <-]; (split; [by left|]); simpl; [|done]. rewrite (Hw eq_refl). by split.
  - destruct Hu as [Hk Hd]. specialize (Hd eq_refl).
    destruct (rw_write d0 w b) as [[[[]|e'] w1] b1] eqn:Ew; apply rw_write_spec in Ew as [Ho Hw];
      intros [= <- <-]; (split; [by left|]); simpl; [|done]. rewrite (Hw eq_refl). split; [done|]. intros _. simpl. by rewrite <- app_assoc.
  - intros [= <- <-]. auto.
Qed.

Lemma first_error_ok (us : list (Upload RW E)) r : first_error us = Some (Ok r) -> Forall (fun u => exists r, u = UDone (Ok r)) us.
Proof.
  induction us as [|u us IH]; simpl; [by constructor|]. destruct u as [| |[r'|e]]; try done.
  - intros Hf. constructor; [by exists r'|by apply IH].
  - by case_match.
Qed.

(** What a step of a push does to the bucket: it stays sound, and nothing is lost from it. *)
Definition moved (b : B) (m : bytes) (bl : list (str * bytes)) (x : Push RW E * B) : Prop :=
  bucket_sound (objects x.2) /\ objects b ⊆ objects x.2 /\ pushes x.1 m bl /\ phase_ok x.1 m bl (objects x.2).

Lemma blob_step_ok p m bl us j u n src b : bucket_sound (objects b) -> pushes p m bl -> pu_phase p = PBlobs us ->
  Forall2 (fun u y => upload_ok (key xxh3 (pu_addr p) (pu_hashin p) y.1) y.2 u (objects b)) us bl ->
  us !! j = Some u -> pu_blobs p !! j = Some (n, src) ->
  let '(u', b') := upload_step (key xxh3 (pu_addr p) (pu_hashin p) n) src u b in moved b m bl (with_phase (PBlobs (<[j := u']> us)) p, b').
Proof.
  intros Hs Hp Eph Hf Hj Hbl. destruct Hp as (Hpub & Hm & Hsrc).
  destruct (Forall2_lookup_l _ _ _ _ _ Hsrc Hbl) as ([n' d] & Hy & Hn & Hd). simpl in Hn, Hd. subst n'.
  pose proof (Forall2_lookup_lr _ _ _ _ _ _ Hf Hj Hy) as Hu. simpl in Hu.
  destruct (upload_step _ src u b) as [u' b'] eqn:Eu. destruct (upload_step_ok _ _ _ _ _ _ _ Hd Hu Eu) as [Ho Hu'].
  assert (bucket_sound (objects b') /\ objects b ⊆ objects b') as [Hs' Hsub].
  { destruct Ho as [-> | ->]; [done|]. eapply sound_blob; [done|exact Hpub|by eapply list_elem_of_lookup_2]. }
  split_and!; [done|done|done|]. unfold phase_ok. simpl.
  rewrite <- (list_insert_id bl j (n, d)) by done. apply Forall2_insert; [|done].
  eapply Forall2_impl; [exact Hf|]. intros ? ?. by apply upload_ok_mono.
Qed.

Lemma manifest_step_ok p m bl u b : bucket_sound (objects b) -> pushes p m bl -> pu_phase p = PManifest u -> phase_ok p m bl (objects b) ->
  let '(u', b') := upload_step (key xxh3 (pu_addr p) (pu_hashin p) MANIFEST_V1) (Ok ([pu_manifest p], None)) u b in
  moved b m bl (with_phase (PManifest u') p, b').
Proof.
  intros Hs Hp Eph Hph. unfold phase_ok in Hph. rewrite Eph in Hph. destruct Hph as [Hall Hu], Hp as (Hpub & Hm & Hsrc).
  destruct (upload_step _ _ u b) as [u' b'] eqn:Eu.
  apply (upload_step_ok _ m) in Eu as [Ho Hu']; [|intros chunks [= <-]; rewrite Hm; apply app_nil_r|done].
  assert (bucket_sound (objects b') /\ objects b ⊆ objects b') as [Hs' Hsub].
  { destruct Ho as [-> | ->]; [done|]. by eapply sound_manifest. }
  split_and!; [done|done|done|]. split; [|done]. intros n d Hin. eapply lookup_weaken; [by apply Hall|done].
Qed.

Lemma push_step_ok j p m bl b : bucket_sound (objects b) -> pushes p m bl -> phase_ok p m bl (objects b) ->
  moved b m bl (push_step xxh3 j p b).
Proof.
  intros Hs Hp Hph. assert (moved b m bl (p, b)) as Hstay by done. unfold push_step. destruct (pu_phase p) as [us|u|r] eqn:Eph; [| |done].
  - unfold phase_ok in Hph. rewrite Eph in Hph. destruct (first_error us) as [[r|e]|] eqn:Ef.
    + split_and!; [done..|]. unfold phase_ok. simpl. split; [|done]. intros n d Hin. apply first_error_ok in Ef.
      apply list_elem_of_lookup in Hin as [i Hi]. destruct (Forall2_lookup_r _ _ _ _ _ Hph Hi) as (u & Hu & Hok).
      destruct (Forall_lookup_1 _ _ _ _ Ef Hu) as [r' ->]. done.
    + by split_and!.
    + destruct (us !! j) as [u|] eqn:Ej; [|done]. destruct (pu_blobs p !! j) as [[n src]|] eqn:Eb; [|done].
      destruct (may_move us j); [|done]. pose proof (blob_step_ok p m bl us j u n src b Hs Hp Eph Hph Ej Eb) as Hst.
      by destruct (upload_step _ src u b).
  - destruct u as [|w chunks failure|r]; [| |unfold phase_ok in Hph; rewrite Eph in Hph; by split_and!; [..|apply Hph]].
    + pose proof (manifest_step_ok p m bl _ b Hs Hp Eph Hph) as Hst. by destruct (upload_step _ _ UOpen b).
    + pose proof (manifest_step_ok p m bl _ b Hs Hp Eph Hph) as Hst. by destruct (upload_step _ _ (UWriting w chunks failure) b).
Qed.

Lemma bucket_step_ok bk bk' : bucket_step bk bk' -> bucket_ok bk -> bucket_ok bk'.
Proof.
  destruct 1 as [bk p m bl Hp Hph|bk i j p Hi|bk i|bk b Hb]; intros [Hs Hf]; split; simpl; try done.
  - apply Forall_app_2; [done|]. repeat constructor. exists m, bl. split; [done|]. unfold phase_ok. rewrite Hph.
    destruct Hp as (_ & _ & Hsrc). clear -Hsrc. induction Hsrc; simpl; by constructor.
  - destruct (Forall_lookup_1 _ _ _ _ Hf Hi) as (m & bl & Hp & Hph). by apply (push_step_ok j p m bl).
  - destruct (Forall_lookup_1 _ _ _ _ Hf Hi) as (m & bl & Hp & Hph). destruct (push_step_ok j p m bl _ Hs Hp Hph) as (_ & Hsub & Hp' & Hph').
    apply Forall_insert; [|by exists m, bl]. eapply Forall_impl; [exact Hf|].
    intros q (m' & bl' & Hq & Hqh). exists m', bl'. split; [done|]. by eapply phase_ok_mono.
  - by apply Forall_delete.
  - by rewrite Hb.
  - by rewrite Hb.
Qed.

(** C14: a manifest in a bucket is complete. However many machines push to it at once, and
    whatever of their calls fails, is carried out though it failed, or is never made: when
    the manifest of a revision is there, so is every blob it stands for, with its bytes;
    and a push that reports success has put its manifest there. The premises: the bucket
    was so before, whoever pushes a revision pushes what is [published] for it, always the
    same bytes, and, with [published_ok], the keys of published objects do not coincide:
    their addresses have no separator where a key puts one and the hash tells them apart. *)
Theorem remote_manifest_last b0 bk : bucket_sound (objects b0) -> rtc bucket_step (mkBucket b0 []) bk ->
  (forall a h m bl, published a h = Some (m, bl) -> is_Some (objects (bk_store bk) !! key xxh3 a h MANIFEST_V1) ->
    objects (bk_store bk) !! key xxh3 a h MANIFEST_V1 = Some m /\
    forall n d, (n, d) ∈ bl -> objects (bk_store bk) !! key xxh3 a h n = Some d) /\
  (forall p, p ∈ bk_pushes bk -> pu_phase p = PEnded (Ok ()) ->
    objects (bk_store bk) !! key xxh3 (pu_addr p) (pu_hashin p) MANIFEST_V1 = Some (pu_manifest p)).
Proof.
  intros Hs Hr. assert (bucket_ok bk) as [Hsound Hph].
  { eapply (rtc_ind_r (fun bk => bucket_ok bk)); [|intros ?? _ Hst; by apply bucket_step_ok|exact Hr]. by split. }
  split.
  - intros a h m bl Hp [m' Hm]. destruct (Hsound _ _ _ _ Hp) as [_ [Hn|Hok]]; [by rewrite Hn in Hm|done].
  - intros p Hin He. rewrite Forall_forall in Hph. destruct (Hph p Hin) as (m & bl & (_ & -> & _) & Hok).
    unfold phase_ok in Hok. by rewrite He in Hok.
Qed.
End bucket.

(** ** Pushes end *)

Section ends.
Context {B RW E : Type} `{RemoteBackend B RW E}.
Variable xxh3 : list N -> N.

(** The calls an upload, and a push, have left at most. *)
Definition upload_left (src : result E (list bytes * option E)) (u : Upload RW E) : nat :=
  match u with
  | UOpen => match src with Ok (chunks, _) => length chunks + 2 | Err _ => 1 end
  | UWriting _ chunks _ => length chunks + 1
  | UDone _ => 0
  end.
Definition push_left (p : Push RW E) : nat :=
  match pu_phase p with
  | PBlobs us => 5 + sum_list (zip_with (fun x u => upload_left x.2 u) (pu_blobs p) us)
  | PManifest u => 1 + upload_left (Ok ([pu_manifest p], None)) u
  | PEnded _ => 0
  end.

(** A schedule that does not stand still: it picks an upload that is not done. *)
Definition useful (j : nat) (p : Push RW E) : Prop :=
  match pu_phase p with
  | PBlobs us => first_error us <> None \/ exists u x, us !! j = Some u /\ pu_blobs p !! j = Some x /\ is_done u = false /\ may_move us j = true
  | PManifest _ => True
  | PEnded _ => False
  end.
Definition push_shaped (p : Push RW E) : Prop := forall us, pu_phase p = PBlobs us -> length us = length (pu_blobs p).

Lemma upload_step_left k src u b : is_done u = false -> upload_left src (upload_step k src u b).1 < upload_left src u.
Proof.
  destruct u as [|w [|d chunks] [e|]|]; simpl; try done; intros _.
  - destruct src as [[chunks failure]|e]; simpl; [|lia]. destruct (open_write k b) as [[w|e] b']; simpl; lia.
  - lia.
  - destruct (rw_shutdown w b); simpl; lia.
  - destruct (rw_write d w b) as [[[[]|e'] w'] b']; simpl; lia.
  - destruct (rw_write d w b) as [[[[]|e'] w'] b']; simpl; lia.
Qed.

Lemma zip_left (blobs : list (str * result E (list bytes * option E))) : forall us j u u' x, us !! j = Some u -> blobs !! j = Some x ->
  upload_left x.2 u' < upload_left x.2 u ->
  sum_list (zip_with (fun x u => upload_left x.2 u) blobs (<[j := u']> us)) < sum_list (zip_with (fun x u => upload_left x.2 u) blobs us).
Proof.
  induction blobs as [|y blobs IH]; intros [|v us] [|j] u u' x; simpl; try done.
  - intros [= ->] [= ->]. lia.
  - intros Hu Hx Hlt. specialize (IH us j u u' x Hu Hx Hlt). lia.
Qed.

Lemma push_step_left j p b : useful j p -> push_left (push_step xxh3 j p b).1 < push_left p.
Proof.
  unfold useful, push_step, push_left. destruct (pu_phase p) as [us|u|] eqn:Eph; [| |done].
  - destruct (first_error us) as [[r|e]|] eqn:Ef; [simpl; lia..|]. intros [|(u & [n src] & Hu & Hx & Hd & Hm)]; [done|].
    rewrite Hu, Hx, Hm. pose proof (upload_step_left (key xxh3 (pu_addr p) (pu_hashin p) n) src u b Hd) as Hl.
    destruct (upload_step _ src u b) as [u' b']. simpl in *. pose proof (zip_left _ _ _ _ _ _ Hu Hx Hl). lia.
  - intros _. destruct u as [|w chunks failure|r]; [| |simpl; lia].
    + pose proof (upload_step_left (key xxh3 (pu_addr p) (pu_hashin p) MANIFEST_V1) (Ok ([pu_manifest p], None)) UOpen b eq_refl) as Hl.
      destruct (upload_step _ _ UOpen b) as [u' b']. simpl in *. lia.
    + pose proof (upload_step_left (key xxh3 (pu_addr p) (pu_hashin p) MANIFEST_V1) (Ok ([pu_manifest p], None)) (UWriting w chunks failure) b eq_refl) as Hl.
      destruct (upload_step _ _ (UWriting w chunks failure) b) as [u' b']. simpl in *. lia.
Qed.

Lemma first_error_None (us : list (Upload RW E)) : first_error us = None -> forallb is_done us = false.
Proof.
  induction us as [|u us IH]; simpl; [done|]. destruct u as [| |[]]; simpl; try done.
  by destruct (forallb is_done us).
Qed.

Lemma collected_next (us : list (Upload RW E)) : forallb is_done us = false -> exists u, us !! collected us = Some u /\ is_done u = false.
Proof. induction us as [|u us IH]; simpl; [done|]. destruct u; simpl; eauto. Qed.

Lemma push_moves p : push_shaped p -> (exists r, pu_phase p = PEnded r) \/ exists j, useful j p.
Proof.
  intros Hsh. unfold useful. destruct (pu_phase p) as [us|u|r] eqn:Eph; [|right; by exists 0|by left; exists r]. right.
  destruct (first_error us) eqn:Ef; [exists 0; by left|]. apply first_error_None in Ef. destruct (collected_next us Ef) as (u & Hu & Hd).
  destruct (lookup_lt_is_Some_2 (pu_blobs p) (collected us)) as [x Hx]; [rewrite <- (Hsh us Eph); by apply lookup_lt_Some in Hu|].
  exists (collected us). right. exists u, x. split_and!; try done. unfold may_move, REVISION_BLOB_CONCURRENCY. apply Nat.ltb_lt. lia.
Qed.

Lemma push_step_shaped j p b : push_shaped p -> push_shaped (push_step xxh3 j p b).1.
Proof.
  unfold push_shaped, push_step. intros Hsh us'. destruct (pu_phase p) as [us|u|r] eqn:Eph; [| |simpl; congruence].
  - specialize (Hsh us eq_refl). assert (pu_phase p = PBlobs us' -> length us' = length (pu_blobs p)) as Hp by (rewrite Eph; by intros [= <-]).
    destruct (first_error us) as [[]|]; [done..|]. destruct (us !! j) as [u|] eqn:Eu; [|done]. destruct (pu_blobs p !! j) as [[n src]|]; [|done].
    destruct (may_move us j); [|done]. destruct (upload_step _ src u b). simpl. intros [= <-]. by rewrite length_insert.
  - destruct u as [|w chunks failure|r]; [destruct (upload_step _ _ UOpen b)|destruct (upload_step _ _ (UWriting w chunks failure) b)|]; done.
Qed.

(** A run of a push that takes a useful step at a time; the store answers each as it likes. *)
Inductive push_run : nat -> Push RW E -> Push RW E -> Prop :=
| run_stop p : push_run 0 p p
| run_more n j p b p' : useful j p -> push_run n (push_step xxh3 j p b).1 p' -> push_run (S n) p p'.

(** C35: a push ends. It takes at most a step for each chunk of its blobs, two more for each
    blob and five for the manifest, whatever the store answers and in whatever order its
    uploads move; and until it has ended it can move. *)
Theorem push_ends a h m blobs n p : push_run n (new_push a h m blobs) p ->
  n <= push_left (new_push a h m blobs) /\ ((exists r, pu_phase p = PEnded r) \/ exists j, useful j p).
Proof.
  assert (forall n q p, push_run n q p -> push_shaped q -> n + push_left p <= push_left q /\ push_shaped p) as Hall.
  { clear. induction 1 as [|n j q b p Hu _ IH]; intros Hsh; [by split|].
    destruct (IH (push_step_shaped j q b Hsh)) as [Hl Hs]. pose proof (push_step_left j q b Hu). split; [lia|done]. }
  intros Hr. destruct (Hall _ _ _ Hr) as [Hl Hs]; [intros us [= <-]; by rewrite length_fmap|].
  split; [lia|by apply push_moves].
Qed.
End ends.

(** ** A store in memory *)

Record memory := mkMemory { mem_objects : gmap str bytes; mem_up : bool }.

Definition last_segment (k : str) : str := match rsplit_once #"/" k with Some (_, n) => n | None => k end.
Definition listed_under (p k : str) : option str := if starts_with (p ++ $"/") k then Some (last_segment k) else None.

#[export] Instance memory_backend : RemoteBackend memory (str * bytes) tier_error := {
  open_read k b := (if mem_up b then Ok ((fun d => ([d], None)) <$> mem_objects b !! k) else Err Io, b);
  open_write k b := (if mem_up b then Ok (k, []) else Err Io, b);
  rw_write d w b := (if mem_up b then Ok () else Err Io, (w.1, w.2 ++ d), b);
  rw_shutdown w b := if mem_up b then (Ok (), mkMemory (<[w.1 := w.2]> (mem_objects b)) true) else (Err Io, b);
  object_exists k b := (if mem_up b then Ok (bool_decide (is_Some (mem_objects b !! k))) else Err Io, b);
  list_names p b := (if mem_up b then Ok (omap (listed_under p) (map_to_list (mem_objects b)).*1) else Err Io, b);
}.

Lemma last_segment_under p n k : #"/" ∉ n -> under p n k -> last_segment k = n.
Proof.
  intros Hn (dir & -> & Hdir). unfold last_segment.
  assert (exists a, p ++ $"/" ++ dir ++ n = a ++ #"/" :: n) as [a ->].
  { destruct Hdir as [-> |[d ->]]; [by exists p|]. exists (p ++ $"/" ++ d). by rewrite <- !app_assoc. }
  by rewrite (proj2 (rsplit_once_Some #"/" (a ++ #"/" :: n) a n)).
Qed.

Lemma listed_under_spec p n k : #"/" ∉ n -> listed_under p k = Some n <-> under p n k.
Proof.
  intros Hn. unfold listed_under. destruct (starts_with (p ++ $"/") k) eqn:Es.
  - apply starts_with_true in Es as [rest ->]. split.
    + intros [= Hl]. unfold last_segment in Hl. rewrite <- app_assoc in *. unfold under.
      destruct (rsplit_once #"/" rest) as [[d n']|] eqn:Er.
      * apply rsplit_once_Some in Er as [-> Hn']. rewrite (proj2 (rsplit_once_Some #"/" _ (p ++ $"/" ++ d) n')) in Hl
          by (split; [by rewrite <- !app_assoc|done]). subst n'. exists (d ++ $"/"). rewrite <- !app_assoc. split; [done|]. right. by exists d.
      * apply rsplit_once_None in Er. rewrite (proj2 (rsplit_once_Some #"/" _ p rest)) in Hl by done. subst n. exists []. split; [done|by left].
    + intros Hu. f_equal. by eapply last_segment_under.
  - split; [done|]. intros (dir & -> & _). assert (starts_with (p ++ $"/") (p ++ $"/" ++ dir ++ n) = true) as Ht; [|by rewrite Ht in Es].
    apply starts_with_true. exists (dir ++ n). by rewrite <- app_assoc.
Qed.

#[export] Instance memory_laws : RemoteLaws memory (str * bytes) tier_error mem_objects id.
Proof.
  split; simpl.
  - intros k b r b' [= <- <-]. split; [done|]. destruct (mem_up b); [|done]. destruct (mem_objects b !! k); simpl; [by rewrite app_nil_r|done].
  - intros k b r b' [= <- <-]. split; [done|]. by destruct (mem_up b); intros w [= <-].
  - intros d w b r w' b' [= <- <- <-]. by split.
  - intros w b r b'. destruct (mem_up b); intros [= <- <-]; [by left|right]. split; [by eexists|done].
  - intros p b r b' [= <- <-]. split; [done|]. destruct (mem_up b); [|done]. intros names [= <-] n Hn.
    rewrite list_elem_of_omap. split.
    + intros (k & Hk & Hl). apply listed_under_spec in Hl; [|done]. exists k. split; [|done].
      apply list_elem_of_fmap in Hk as ([k' d] & -> & Hk). apply elem_of_map_to_list in Hk. by exists d.
    + intros (k & [d Hk] & Hu). exists k. split; [|by apply listed_under_spec].
      apply list_elem_of_fmap. exists (k, d). split; [done|by apply elem_of_map_to_list].
Qed.

(** A revision of two blobs, pushed by two machines at once; the first is abandoned. *)
Definition sample_blobs : list (str * bytes) := [($"out_a.tar", [1; 2]%N); ($"out_b.tar", [3]%N)].
Definition sample_published (a : Addr) (h : str) : option (bytes * list (str * bytes)) :=
  if decide (a = sample_key_addr $"t" /\ h = $"h1") then Some ([7; 7]%N, sample_blobs) else None.
Definition sample_push : Push (str * bytes) tier_error :=
  new_push (sample_key_addr $"t") $"h1" [7; 7]%N ((fun x : str * bytes => (x.1, Ok ([x.2], None))) <$> sample_blobs).

Lemma sample_clear n : #"@" ∉ n -> addr_clear (sample_key_addr n).
Proof.
  intros Hn. split_and!; [|done|apply (bool_decide_unpack _); vm_compute; exact I].
  exists [$"a"; $"b"]; split; [|done]. repeat constructor; apply (bool_decide_unpack _); vm_compute; exact I.
Qed.

Lemma sample_hash_bound l : (sample_hash l < 2 ^ 64)%N.
Proof. unfold sample_hash. destruct l as [|b l] using rev_ind; [done|]. rewrite foldl_app. apply N.mod_lt. done. Qed.

Definition sample_texts : list str := [$"a"; $"b"; $"t@os=linux"; $"h1"; MANIFEST_V1; $"out_a.tar"; $"out_b.tar"].
Lemma sample_texts_apart r r' : r ∈ sample_texts -> r' ∈ sample_texts -> sample_hash (as_bytes r) = sample_hash (as_bytes r') -> r = r'.
Proof.
  assert (forallb (fun r => forallb (fun r' => implb (sample_hash (as_bytes r) =? sample_hash (as_bytes r'))%N (bool_decide (r = r'))) sample_texts) sample_texts = true) as H
    by (vm_compute; reflexivity).
  intros Hr Hr' Hx. rewrite list_elem_of_In in Hr, Hr'. rewrite forallb_forall in H. apply H in Hr. rewrite forallb_forall in Hr. apply Hr in Hr'.
  rewrite Hx, N.eqb_refl in Hr'. by apply bool_decide_eq_true in Hr'.
Qed.

Lemma sample_published_ok : published_ok sample_hash sample_published.
Proof.
  assert (forall a h m bl, sample_published a h = Some (m, bl) -> a = sample_key_addr $"t" /\ h = $"h1" /\ bl = sample_blobs) as Hinv.
  { intros a h m bl. unfold sample_published. case_decide as Hd; [|done]. intros Hs. destruct Hd. split_and!; [done..|]. congruence. }
  split.
  - apply sample_hash_bound.
  - intros a h m bl (-> & _)%Hinv. apply sample_clear. apply (bool_decide_unpack _). vm_compute. exact I.
  - intros a h m bl (_ & _ & ->)%Hinv. split; apply (bool_decide_unpack _); vm_compute; exact I.
  - intros a h m bl a' h' m' bl' n n' (-> & -> & ->)%Hinv (-> & -> & ->)%Hinv Hn Hn' r r' Hr Hr'.
    assert (forall n r, n ∈ MANIFEST_V1 :: sample_blobs.*1 -> r ∈ segments (sample_key_addr $"t") $"h1" n -> r ∈ sample_texts) as Hin.
    { clear. intros n r Hn Hr. change (r ∈ [$"a"; $"b"; $"t@os=linux"; $"h1"; n]) in Hr. change (n ∈ [MANIFEST_V1; $"out_a.tar"; $"out_b.tar"]) in Hn.
      unfold sample_texts. rewrite !elem_of_cons in *. naive_solver. }
    apply sample_texts_apart; eauto.
Qed.

Definition sample_bucket (schedule : list nat) : Push (str * bytes) tier_error * memory := run_push sample_hash schedule sample_push (mkMemory ∅ true).

Lemma bucket_run schedule : forall p b, rtc (bucket_step (objects := mem_objects) sample_hash sample_published)
  (mkBucket b [p]) (mkBucket (run_push sample_hash schedule p b).2 [(run_push sample_hash schedule p b).1]).
Proof.
  induction schedule as [|j schedule IH]; intros p b; simpl; [done|].
  eapply rtc_l; [by apply (bucket_moves _ _ _ 0 j p)|]. simpl. destruct (push_step sample_hash j p b) as [p' b'] eqn:Ep. simpl. apply IH.
Qed.

Lemma remote_manifest_last_witness :
  let bk := sample_bucket [1; 0; 1; 0; 1; 0; 0; 0; 0; 0; 0] in
  pu_phase bk.1 = PEnded (Ok ()) /\ mem_objects bk.2 !! key sample_hash (sample_key_addr $"t") $"h1" $"out_a.tar" = Some [1; 2]%N.
Proof.
  intros bk. split; [vm_compute; reflexivity|].
  destruct (remote_manifest_last (objects := mem_objects) (staged := id) sample_hash sample_published sample_published_ok
    (mkMemory ∅ true) (mkBucket bk.2 [bk.1])) as [Hall _].
  - intros a h m bl _. split; [by left|by left].
  - eapply rtc_l; [|apply bucket_run]. refine (bucket_begins sample_hash sample_published (mkBucket (mkMemory ∅ true) []) sample_push [7; 7]%N sample_blobs _ _).
    + split; [vm_compute; reflexivity|]. split; [reflexivity|]. repeat constructor; simpl; intros chunks [= <-]; reflexivity.
    + reflexivity.
  - refine (proj2 (Hall (sample_key_addr $"t") $"h1" [7; 7]%N sample_blobs _ _) $"out_a.tar" [1; 2]%N _).
    + vm_compute. reflexivity.
    + vm_compute. eexists. reflexivity.
    + left.
Defined.

Lemma push_ends_witness : exists n p, push_run (RW := str * bytes) (E := tier_error) sample_hash n sample_push p /\ n <= push_left sample_push.
Proof.
  assert (push_run (B := memory) (RW := str * bytes) (E := tier_error) sample_hash 1 sample_push
    (push_step sample_hash 1 sample_push (mkMemory ∅ true)).1) as Hr.
  { eapply (run_more _ _ 1 _ (mkMemory ∅ true)); [|constructor]. right. do 2 eexists. split_and!; vm_compute; reflexivity. }
  exists 1, (push_step sample_hash 1 sample_push (mkMemory ∅ true)).1. split; [exact Hr|].
  exact (proj1 (push_ends (B := memory) sample_hash _ _ _ _ _ _ Hr)).
Defined.
