(* ===== verification/RemotePull.v ===== *)
(** Moving revisions between the local cache and the remote ones: [upload_to_remote],
    [fetch_manifest], [blobs_exist], [fetch_blob], [probe_remote_revision],
    [pull_remote_blobs] of [crates/engine/src/engine/remote_cache.rs], and
    [materialize_blobs] of [result.rs].

    An upload encodes each artifact of a local revision, compressed or not, and pushes it
    with a manifest that says which. A read finds the manifest on the first cache that has
    it, mirrors it into the local cache, and pulls the blobs a caller asks for, from the
    same cache, when it asks for them. What a remote cannot serve is a miss.

    The local cache is any [Backend], a remote one any [RemoteBackend]. [gzip], [borsh],
    the members of a tar and the temporary files are parameters. Blobs are pulled one after
    the other here; the code overlaps them, and they are different entries. *)
From S2P Require Import Prelude HtPkg HtAddr HtIntern Gc CacheTiers MemTier WireDef Revisions RemoteHealth RemoteConfig Sniff RemoteKeys RemotePush.

(** ** Manifests *)

Record RemoteManifestArtifact := mkRMA {
  r_hashout : str; r_group : str; r_name : str; r_size : N; r_type : ManifestArtifactType;
  r_content_type : ManifestArtifactContentType; r_encoding : ManifestArtifactEncoding }.
Record RemoteManifest := mkRM { r_version : str; r_target : str; r_hashin : str; r_artifacts : list RemoteManifestArtifact }.
Definition REMOTE_MANIFEST_VERSION : str := $"1.0.0".

Definition remote_artifact (a : ManifestArtifact) (e : ManifestArtifactEncoding) : RemoteManifestArtifact :=
  mkRMA (hashout a) (group a) (name a) (size a) (type a) (content_type a) e.
Definition remote_manifest (m : Manifest) (h : str) (encodings : list ManifestArtifactEncoding) : RemoteManifest :=
  mkRM REMOTE_MANIFEST_VERSION (target m) h (zip_with remote_artifact (artifacts m) encodings).

Definition local_artifact (a : RemoteManifestArtifact) : ManifestArtifact :=
  mkMA (r_hashout a) (r_group a) (r_name a) (r_size a) (r_type a) (r_content_type a) EncNone.
Definition local_manifest_from_remote (now : option Z) (r : RemoteManifest) (h : str) : Manifest :=
  mkManifest $"1.0.0" (r_target r) (default 0%Z now) h (local_artifact <$> r_artifacts r).

Definition MIN_COMPRESS_BYTES : N := 1024.
Definition MIN_SNIFF_BYTES : N := 1024 * 1024.
Definition compression_for (size : N) (pre : bool) : ManifestArtifactEncoding :=
  if (MIN_COMPRESS_BYTES <=? size)%N && negb pre then EncGzip else EncNone.

(** A revision that was located; which cache, and its manifest. *)
Record RemoteRevision := mkRev { cache_idx : nat; rv_manifest : RemoteManifest }.
Definition rev_artifact (rev : RemoteRevision) (n : str) : option RemoteManifestArtifact :=
  List.find (fun a => bool_decide (r_name a = n)) (r_artifacts (rv_manifest rev)).

(** The errors of the engine's own, and those of what it calls. *)
Inductive remote_error (E : Type) := NotNamed (n : str) | OutOfRange | Cancelled | Inner (e : E).
Arguments NotNamed {E} n.
Arguments OutOfRange {E}.
Arguments Cancelled {E}.
Arguments Inner {E} e.

Section remote.
Context {S W E : Type} `{Backend S W E} {B RW : Type} `{RemoteBackend B RW E}.
Variables (not_found : E -> bool) (write_zero : E) (auth : E -> bool).
Variable xxh3 : list N -> N.
(** The address behind an interned one. *)
Variable deref : arc -> Addr.
(** [borsh] of the local and of the remote manifest. *)
Variables (encode : Manifest -> list bytes) (decode : bytes -> result E Manifest).
Variables (encode_remote : RemoteManifest -> bytes) (decode_remote : bytes -> result E RemoteManifest).
(** The encoder, and what the decoder writes before it fails or ends. *)
Variables (gzip : bytes -> bytes) (gunzip : bytes -> list bytes * option E).
(** The chunks [io::copy] reads a file in. *)
Variable cut : bytes -> list bytes.
Variable tar_entries : bytes -> result E (list (result E (Sniff.Entry E))).
(** The directory of temporary files, writing one, and reading it back. *)
Variables (tmp_dir : result E ()) (temp_write : str -> result E ()) (temp_read : str -> bytes -> result E (list bytes * option E)).

Abbreviation caches := (list (Cache B)).

(** ** Uploads *)

Definition scan_precompressed (k : EntryKey) (size : N) (ct : ManifestArtifactContentType) (s : S) : bool :=
  if (size <? MIN_SNIFF_BYTES)%N then false
  else
    match ct with
    | McTar =>
        match seekable_reader k s with
        | Ok (Some d) => match scan_tar (tar_entries d) size with Ok v => precompressed v | Err _ => false end
        | _ => false
        end
    | McCpio => false
    end.

(** The codec step of one artifact: its bytes as they will be stored, and how. *)
Definition encode_blob (addr : arc) (h : str) (s : S) (a : ManifestArtifact) : result E (bytes * ManifestArtifactEncoding) :=
  let k := (addr, h, name a) in
  let encoding := compression_for (size a) (scan_precompressed k (size a) (content_type a) s) in
  sized ← reader k s;
  let d := take (N.to_nat (sr_size sized)) (sr_data sized) in
  _ ← temp_write (name a);
  Ok (match encoding with EncGzip => gzip d | _ => d end, encoding).

Fixpoint encode_all (addr : arc) (h : str) (s : S) (l : list ManifestArtifact) : result E (list (bytes * ManifestArtifactEncoding)) :=
  match l with
  | [] => Ok []
  | a :: l => x ← encode_blob addr h s a; xs ← encode_all addr h s l; Ok (x :: xs)
  end.

(** The local manifest and the encoded blobs; [None] when there is no manifest. *)
Definition prepare_upload (addr : arc) (h : str) (s : S) : result E (option (Manifest * list (bytes * ManifestArtifactEncoding))) :=
  m ← read_manifest not_found decode addr h s;
  match m with
  | None => Ok None
  | Some m => _ ← tmp_dir; xs ← encode_all addr h s (artifacts m); Ok (Some (m, xs))
  end.

Definition manifest_bytes (m : Manifest) (h : str) (xs : list (bytes * ManifestArtifactEncoding)) : bytes :=
  encode_remote (remote_manifest m h xs.*2).
Definition stored_blobs (m : Manifest) (xs : list (bytes * ManifestArtifactEncoding)) : list (str * bytes) :=
  zip_with (fun a x => (name a, x.1)) (artifacts m) xs.

Definition upload_push (addr : arc) (h : str) (m : Manifest) (xs : list (bytes * ManifestArtifactEncoding)) : Push RW E :=
  new_push (deref addr) h (manifest_bytes m h xs) ((fun x : str * bytes => (x.1, temp_read x.1 x.2)) <$> stored_blobs m xs).

Definition has_writable (cs : caches) : bool := existsb (fun c => d_write (c_def c)) cs.
Definition has_readable (cs : caches) : bool := existsb (fun c => d_read (c_def c)) cs.

(** [upload_to_remote]: a failure is a warning. *)
Definition upload_to_remote (now later : N) (schedule : nat -> list nat) (addr : arc) (h : str) (s : S) (cs : caches) : caches :=
  if negb (has_writable cs) then cs
  else
    match prepare_upload addr h s with
    | Ok (Some (m, xs)) => put_revision xxh3 auth now later schedule (upload_push addr h m xs) cs
    | _ => cs
    end.

(** ** The manifest *)

Definition with_store (b : B) (c : Cache B) : Cache B := mkCache (c_def c) (c_health c) b.
Definition with_health (f : CacheHealth -> CacheHealth) (c : Cache B) : Cache B := mkCache (c_def c) (f (c_health c)) (c_store c).

Definition read_small (k : str) (b : B) : result E (option bytes) * B :=
  match open_read k b with
  | (Err e, b) => (Err e, b)
  | (Ok None, b) => (Ok None, b)
  | (Ok (Some (chunks, None)), b) => (Ok (Some (concat chunks)), b)
  | (Ok (Some (_, Some e)), b) => (Err e, b)
  end.

(** The loop of [fetch_manifest]; [cancelled t] is the [t]-th look at the token. *)
Fixpoint fetch_from (now : N) (cancelled : nat -> bool) (k : str) (order : list nat) (t : nat) (cs : caches) : option (nat * bytes) * caches :=
  match order with
  | [] => (None, cs)
  | i :: order =>
      if cancelled t then (None, cs)
      else
        match cs !! i with
        | None => fetch_from now cancelled k order (t + 1) cs
        | Some c =>
            if broken now (c_health c) then fetch_from now cancelled k order (t + 1) cs
            else
              match read_small k (c_store c) with
              | (Ok (Some d), b) => (Some (i, d), <[i := with_health (note_ok now) (with_store b c)]> cs)
              | (Ok None, b) => fetch_from now cancelled k order (t + 1) (<[i := with_health (note_ok now) (with_store b c)]> cs)
              | (Err e, b) => fetch_from now cancelled k order (t + 1) (<[i := with_health (note_err (auth e) now) (with_store b c)]> cs)
              end
        end
  end.

Definition fetch_manifest (now : N) (cancelled : nat -> bool) (order : list nat) (addr : arc) (h : str) (cs : caches) : option RemoteRevision * caches :=
  if negb (has_readable cs) then (None, cs)
  else
    match fetch_from now cancelled (key xxh3 (deref addr) h MANIFEST_V1) order 0 cs with
    | (None, cs) => (None, cs)
    | (Some (i, d), cs) => (match decode_remote d with Ok m => Some (mkRev i m) | Err _ => None end, cs)
    end.

(** ** Blobs *)

Definition blobs_exist (now : N) (cancelled : bool) (rev : RemoteRevision) (addr : arc) (h : str) (names : list str) (cs : caches) : bool * caches :=
  if bool_decide (names = []) then (true, cs)
  else
    match cs !! cache_idx rev with
    | None => (false, cs)
    | Some c =>
        if cancelled then (false, cs)
        else
          match list_names (revision_prefix xxh3 (deref addr) h) (c_store c) with
          | (Err e, b) => (false, <[cache_idx rev := with_health (note_err (auth e) now) (with_store b c)]> cs)
          | (Ok present, b) =>
              (forallb (fun n => bool_decide (key_segment xxh3 n ∈ present)) names, <[cache_idx rev := with_health (note_ok now) (with_store b c)]> cs)
          end
    end.

(** What may happen to the transfer of a blob: creating the file it goes to, flushing it,
    and a cancellation while it runs. *)
Record Transfer := mkTransfer { tr_create : result E (); tr_flush : result E (); tr_cancelled : bool }.

Definition fetch_blob (now : N) (tr : Transfer) (rev : RemoteRevision) (addr : arc) (h n : str) (cs : caches) :
    result (remote_error E) (option bytes) * caches :=
  match cs !! cache_idx rev with
  | None => (Err OutOfRange, cs)
  | Some c =>
      let put b f := <[cache_idx rev := with_health f (with_store b c)]> cs in
      match open_read (key xxh3 (deref addr) h n) (c_store c) with
      | (Ok None, b) => (Ok None, put b id)
      | (Err e, b) => (Ok None, put b (note_err (auth e) now))
      | (Ok (Some (chunks, failure)), b) =>
          match tr_create tr with
          | Err e => (Err (Inner e), put b id)
          | Ok _ =>
              if tr_cancelled tr then (Ok None, put b id)
              else
                match failure with
                | Some e => (Ok None, put b (note_err (auth e) now))
                | None =>
                    match tr_flush tr with
                    | Err e => (Err (Inner e), put b id)
                    | Ok _ => (Ok (Some (concat chunks)), put b (note_ok now))
                    end
                end
          end
      end
  end.

(** A stream into an entry: a failure of the source drops the writer. *)
Definition store_stream (k : EntryKey) (src : list bytes * option E) (s : S) : result E () * S :=
  match writer k s with
  | (Err e, s) => (Err e, s)
  | (Ok w, s) =>
      match write_chunks write_zero src.1 w s with
      | (Err e, w, s) => (Err e, w_drop w s)
      | (Ok _, w, s) => match src.2 with Some e => (Err e, w_drop w s) | None => w_commit w s end
      end
  end.

Definition decoded (e : ManifestArtifactEncoding) (d : bytes) : list bytes * option E :=
  match e with EncGzip => gunzip d | _ => (cut d, None) end.

Definition pull_remote_blob (now : N) (tr : Transfer) (cancelled : bool) (rev : RemoteRevision) (addr : arc) (h n : str) (s : S) (cs : caches) :
    result (remote_error E) bool * S * caches :=
  match rev_artifact rev n with
  | None => (Err (NotNamed n), s, cs)
  | Some a =>
      match fetch_blob now tr rev addr h n cs with
      | (Err e, cs) => (Err e, s, cs)
      | (Ok None, cs) => (if cancelled then Err Cancelled else Ok false, s, cs)
      | (Ok (Some d), cs) =>
          match store_stream (addr, h, n) (decoded (r_encoding a) d) s with
          | (Err e, s) => (Err (Inner e), s, cs)
          | (Ok _, s) => (Ok true, s, cs)
          end
      end
  end.

(** The pulls of [pull_remote_blobs] and of [pull_missing_blobs], each a step, in the order
    of a schedule; [buffered] starts one once fewer than its bound come before it that have
    not been collected, and [try_collect] takes the outcomes in order and ends at the first
    error, dropping the rest. *)
Section fan_out.
Context {X : Type} (pull : str -> X -> option (result (remote_error E) bool) * X).

Fixpoint try_collect (outcomes : list (option (result (remote_error E) bool))) : option (result (remote_error E) bool) :=
  match outcomes with
  | [] => Some (Ok true)
  | Some (Ok served) :: outcomes =>
      match try_collect outcomes with Some (Ok rest) => Some (Ok (served && rest)) | r => r end
  | o :: _ => o
  end.
Fixpoint settled (outcomes : list (option (result (remote_error E) bool))) : nat :=
  match outcomes with Some (Ok _) :: outcomes => Datatypes.S (settled outcomes) | _ => 0 end.
Fixpoint run_pulls (schedule : list nat) (names : list str) (outcomes : list (option (result (remote_error E) bool))) (x : X) :
    option (result (remote_error E) bool) * X :=
  match try_collect outcomes, schedule with
  | None, j :: schedule =>
      match outcomes !! j, names !! j with
      | Some None, Some n =>
          if j <? settled outcomes + REVISION_BLOB_CONCURRENCY then
            let '(o, x) := pull n x in run_pulls schedule names (<[j := o]> outcomes) x
          else run_pulls schedule names outcomes x
      | _, _ => run_pulls schedule names outcomes x
      end
  | r, _ => (r, x)
  end.
Definition fan_out (schedule : list nat) (names : list str) (x : X) : option (result (remote_error E) bool) * X :=
  run_pulls schedule names ((fun _ => None) <$> names) x.
End fan_out.

(** [None] while a pull is under way. *)
Definition pull_remote_blobs (now : N) (tr : str -> Transfer) (cancelled : str -> bool) (rev : RemoteRevision) (addr : arc) (h : str)
    (schedule : list nat) (names : list str) (x : S * caches) : option (result (remote_error E) bool) * (S * caches) :=
  if bool_decide (names = []) then (Some (Ok true), x)
  else
    match tmp_dir with
    | Err e => (Some (Err (Inner e)), x)
    | Ok _ =>
        fan_out (fun n x => let '(r, s, cs) := pull_remote_blob now (tr n) (cancelled n) rev addr h n x.1 x.2 in (Some r, (s, cs))) schedule names x
    end.

(** The outcomes of the pulls of a request, by blob: [mem_remote_blob]. *)
Abbreviation memo := (gmap EntryKey (result (remote_error E) bool)).
Definition pull_one_remote_blob (now : N) (tr : str -> Transfer) (cancelled : str -> bool) (rev : RemoteRevision) (addr : arc) (h n : str) (x : S * caches) :
    option (result (remote_error E) bool) * (S * caches) := pull_remote_blobs now tr cancelled rev addr h [0] [n] x.
Definition pull_once (now : N) (tr : str -> Transfer) (cancelled : str -> bool) (rev : RemoteRevision) (addr : arc) (h n : str) (x : memo * (S * caches)) :
    option (result (remote_error E) bool) * (memo * (S * caches)) :=
  match x.1 !! (addr, h, n) with
  | Some r => (Some r, x)
  | None =>
      match pull_one_remote_blob now tr cancelled rev addr h n x.2 with
      | (Some r, y) => (Some r, (<[(addr, h, n) := r]> x.1, y))
      | (None, y) => (None, (x.1, y))
      end
  end.
Definition pull_missing_blobs (now : N) (tr : str -> Transfer) (cancelled : str -> bool) (rev : RemoteRevision) (addr : arc) (h : str)
    (schedule : list nat) (missing : list str) (x : memo * (S * caches)) : option (result (remote_error E) bool) * (memo * (S * caches)) :=
  fan_out (pull_once now tr cancelled rev addr h) schedule missing x.

(** ** Hits *)

Definition probe_remote_revision (now : N) (nanos : option Z) (cancelled : nat -> bool) (listing_cancelled : bool) (order : list nat) (addr : arc) (h : str)
    (output_groups : list str) (s : S) (cs : caches) : result E (option (Manifest * RemoteRevision)) * S * caches :=
  match fetch_manifest now cancelled order addr h cs with
  | (None, cs) => (Ok None, s, cs)
  | (Some rev, cs) =>
      let m := local_manifest_from_remote nanos (rv_manifest rev) h in
      match blobs_exist now listing_cancelled rev addr h (name <$> needed_artifacts m output_groups) cs with
      | (false, cs) => (Ok None, s, cs)
      | (true, cs) =>
          match store write_zero (addr, h, MANIFEST_V1) (encode m) s with
          | (Err e, s) => (Err e, s, cs)
          | (Ok _, s) => (Ok (Some (m, rev)), s, cs)
          end
      end
  end.

(** [locate_remote_revision], and the cell its answer is kept in. *)
Definition locate_remote_revision (remote_enabled : bool) (now : N) (cancelled : nat -> bool) (order : list nat) (addr : arc) (h : str) (cs : caches) :
    option RemoteRevision * caches :=
  if negb remote_enabled || negb (has_readable cs) then (None, cs) else fetch_manifest now cancelled order addr h cs.
Definition remote_revision (cell : option (option RemoteRevision)) (remote_enabled : bool) (now : N) (cancelled : nat -> bool) (order : list nat)
    (addr : arc) (h : str) (cs : caches) : option RemoteRevision * caches :=
  match cell with Some rev => (rev, cs) | None => locate_remote_revision remote_enabled now cancelled order addr h cs end.

(** [materialize_blobs]: the answer, or [None] while pulls are under way, and what the cell
    and the outcomes of the request hold then. The callers of a target that share a cell
    and the outcomes come one after the other. *)
Definition materialize_blobs (cell : option (option RemoteRevision)) (remote_enabled : bool) (now : N) (cancelled : nat -> bool) (order : list nat)
    (tr : str -> Transfer) (blob_cancelled : str -> bool) (schedule : list nat) (addr : arc) (h : str) (m : Manifest) (outputs : list str)
    (x : memo * (S * caches)) :
    option (result (remote_error E) (option BlobResidency)) * option (option RemoteRevision) * (memo * (S * caches)) :=
  let '(pulled, (s, cs)) := x in
  match (missing_local_blobs addr h m outputs (fun _ => s) 0).1 with
  | Err e => (Some (Err (Inner e)), cell, x)
  | Ok [] => (Some (Ok (Some Established)), cell, x)
  | Ok missing =>
      match remote_revision cell remote_enabled now cancelled order addr h cs with
      | (None, cs) => (Some (Ok None), Some None, (pulled, (s, cs)))
      | (Some rev, cs) =>
          let '(r, x) := pull_missing_blobs now tr blob_cancelled rev addr h schedule missing (pulled, (s, cs)) in
          (match r with
           | Some (Ok served) => Some (Ok (if served then Some Established else None))
           | Some (Err e) => Some (Err e)
           | None => None
           end, Some (Some rev), x)
      end
  end.
End remote.

(** ** Pulls in any order *)

Section fan_out_spec.
Context {E X : Type} (pull : str -> X -> option (result (remote_error E) bool) * X).

Lemma try_collect_true outcomes : try_collect (E := E) outcomes = Some (Ok true) -> Forall (fun o => o = Some (Ok true)) outcomes.
Proof.
  induction outcomes as [|[[served|e]|] outcomes IH]; simpl; [constructor|..|done|done].
  destruct (try_collect outcomes) as [[rest|e]|]; try done. intros [= Hb]. apply andb_true_iff in Hb as [-> ->]. constructor; [done|by apply IH].
Qed.

(** What every pull keeps is kept, and what a pull that served its blob establishes, and
    those that served the others keep, is there when all are served. *)
Lemma run_pulls_spec (I : X -> Prop) (Q : str -> X -> Prop) names :
  (forall n x o x', n ∈ names -> I x -> pull n x = (o, x') ->
    I x' /\ o <> None /\ (o = Some (Ok true) -> Q n x' /\ forall n', n' ∈ names -> Q n' x -> Q n' x')) ->
  forall schedule outcomes x r x', length outcomes = length names -> I x ->
  (Forall (fun o => o = None \/ o = Some (Ok true)) outcomes -> forall j n, outcomes !! j = Some (Some (Ok true)) -> names !! j = Some n -> Q n x) ->
  run_pulls pull schedule names outcomes x = (r, x') -> I x' /\ (r = Some (Ok true) -> forall n, n ∈ names -> Q n x').
Proof.
  intros Hp. assert (forall (outcomes : list (option (result (remote_error E) bool))) x, length outcomes = length names ->
    (Forall (fun o => o = None \/ o = Some (Ok true)) outcomes -> forall j n, outcomes !! j = Some (Some (Ok true)) -> names !! j = Some n -> Q n x) ->
    try_collect outcomes = Some (Ok true) -> forall n, n ∈ names -> Q n x) as Hend.
  { intros outcomes x Hl HQ Ht%try_collect_true n Hn. apply list_elem_of_lookup in Hn as [j Hj].
    destruct (lookup_lt_is_Some_2 outcomes j) as [o Ho]; [rewrite Hl; by eapply lookup_lt_Some|].
    rewrite (Forall_lookup_1 _ _ _ _ Ht Ho) in Ho. eapply HQ; [|done|done]. eapply Forall_impl; [exact Ht|]. auto. }
  induction schedule as [|j schedule IH]; intros outcomes x r x' Hl HI HQ; simpl.
  { destruct (try_collect outcomes) as [r0|] eqn:Et; intros [= <- <-]; (split; [done|]); [|done]. intros [= ->]. by eapply Hend. }
  destruct (try_collect outcomes) as [r0|] eqn:Et.
  { intros [= <- <-]. split; [done|]. intros [= ->]. by eapply Hend. }
  destruct (outcomes !! j) as [[o|]|] eqn:Eo; [by apply IH| |by apply IH].
  destruct (names !! j) as [n|] eqn:En; [|by apply IH]. case_match; [|by apply IH].
  destruct (pull n x) as [o x1] eqn:Ep. destruct (Hp n x o x1) as (HI1 & Ho & HQ1); [by eapply list_elem_of_lookup_2|done|done|].
  apply IH; [by rewrite length_insert|done|]. intros Hf j' n' Ho' Hn'.
  assert (Forall (fun o => o = None \/ o = Some (Ok true)) outcomes) as Hf'.
  { rewrite <- (list_insert_id outcomes j None Eo), <- (list_insert_insert_eq outcomes j None o). apply Forall_insert; [done|by left]. }
  rewrite list_lookup_insert in Ho'. case_decide as Hj.
  - destruct Hj as [-> _]. injection Ho' as ->. rewrite En in Hn'. injection Hn' as <-. exact (proj1 (HQ1 eq_refl)).
  - assert (o = None \/ o = Some (Ok true)) as [-> | ->].
    { apply (Forall_lookup_1 _ _ j _ Hf). apply list_lookup_insert_eq. by eapply lookup_lt_Some. }
    + done.
    + apply (proj2 (HQ1 eq_refl)); [by eapply list_elem_of_lookup_2|]. by eapply HQ.
Qed.

Lemma fan_out_spec (I : X -> Prop) (Q : str -> X -> Prop) names :
  (forall n x o x', n ∈ names -> I x -> pull n x = (o, x') ->
    I x' /\ o <> None /\ (o = Some (Ok true) -> Q n x' /\ forall n', n' ∈ names -> Q n' x -> Q n' x')) ->
  forall schedule x r x', I x -> fan_out pull schedule names x = (r, x') -> I x' /\ (r = Some (Ok true) -> forall n, n ∈ names -> Q n x').
Proof.
  intros Hp schedule x r x' HI. apply (run_pulls_spec I Q); [done|by rewrite length_fmap|done|].
  intros _ j n Ho. apply list_lookup_fmap_Some in Ho as (? & ? & ?). done.
Qed.

Lemma settled_next (outcomes : list (option (result (remote_error E) bool))) k o : k <= settled outcomes -> outcomes !! k = Some (Some o) ->
  try_collect outcomes <> None \/ Datatypes.S k <= settled outcomes.
Proof.
  revert k. induction outcomes as [|[[served|e]|] outcomes IH]; intros k; simpl; [done|..].
  - destruct k as [|k]; simpl; [right; lia|]. intros Hk Ho. destruct (IH k) as [Ht|Hs]; [lia|done|left|right; lia].
    by destruct (try_collect outcomes) as [[rest|e]|].
  - intros _ _. by left.
  - intros Hk. destruct k as [|k]; simpl; [done|lia].
Qed.
Lemma settled_insert (outcomes : list (option (result (remote_error E) bool))) k o : k <= settled outcomes -> k <= settled (<[k := o]> outcomes).
Proof.
  revert k. induction outcomes as [|[[served|e]|] outcomes IH]; intros [|k]; simpl; try lia. intros Hk. apply le_n_S, IH. lia.
Qed.
Lemma settled_all (outcomes : list (option (result (remote_error E) bool))) : length outcomes <= settled outcomes -> try_collect outcomes <> None.
Proof.
  induction outcomes as [|[[served|e]|] outcomes IH]; simpl; [done| |lia|lia].
  intros Hl. specialize (IH ltac:(lia)). by destruct (try_collect outcomes) as [[rest|e]|].
Qed.

(** Whatever was done before, the pulls get to an answer when each has its turn. *)
Lemma run_pulls_in_order names (Hp : forall n x, (pull n x).1 <> None) m : forall k outcomes x,
  length names <= k + m -> length outcomes = length names -> try_collect outcomes <> None \/ k <= settled outcomes ->
  (run_pulls pull (seq k m) names outcomes x).1 <> None.
Proof.
  induction m as [|m IH]; intros k outcomes x Hk Hl Hs; simpl.
  { assert (try_collect outcomes <> None) as Ht; [|by destruct (try_collect outcomes)].
    destruct Hs as [|Hs]; [done|]. apply settled_all. lia. }
  destruct (try_collect outcomes) as [r|] eqn:Et; [done|]. destruct Hs as [|Hs]; [done|].
  assert (k < length outcomes) as Hlt.
  { destruct (Nat.lt_ge_cases k (length outcomes)) as [|Hge]; [done|]. exfalso. apply (settled_all outcomes); [lia|done]. }
  destruct (lookup_lt_is_Some_2 outcomes k Hlt) as [o Ho]. rewrite Ho. destruct o as [o|].
  { apply IH; [lia|done|]. by eapply settled_next. }
  destruct (lookup_lt_is_Some_2 names k) as [n ->]; [lia|]. destruct (Nat.ltb_spec k (settled outcomes + REVISION_BLOB_CONCURRENCY)) as [_|Hn].
  2: { exfalso. unfold REVISION_BLOB_CONCURRENCY in Hn. lia. }
  specialize (Hp n x). destruct (pull n x) as [[o|] x1]; [|done]. apply IH; [lia|by rewrite length_insert|].
  eapply settled_next; [by apply settled_insert|]. apply list_lookup_insert_eq. lia.
Qed.
Lemma fan_out_ends names (Hp : forall n x, (pull n x).1 <> None) schedule m x :
  length names <= m -> seq 0 m `suffix_of` schedule -> (fan_out pull schedule names x).1 <> None.
Proof.
  intros Hm [before ->]. unfold fan_out. assert (length ((fun _ : str => None : option (result (remote_error E) bool)) <$> names) = length names) as Hl by apply length_fmap.
  revert Hl x. generalize ((fun _ : str => None : option (result (remote_error E) bool)) <$> names). induction before as [|j before IH]; intros outcomes Hl x.
  { apply run_pulls_in_order; [done|lia|done|right; lia]. }
  simpl. destruct (try_collect outcomes); [done|]. repeat case_match; try (by apply IH). apply IH. by rewrite length_insert.
Qed.
End fan_out_spec.

(** ** What is pulled is what was pushed *)

Section pulled.
Context {S W E : Type} `{Backend S W E} {not_found : E -> bool} {file : str -> bytes} {content : S -> gmap EntryKey bytes}
  {agree : EntryKey -> S -> S -> Prop} {of_key : W -> option EntryKey}
  {writes : EntryKey -> bytes -> W -> S -> Prop} {clear : S -> EntryKey -> Prop}
  `{L : !StoreLaws S W E not_found file content agree of_key writes clear (fun _ _ => False)}.
Context {B RW : Type} `{RemoteBackend B RW E} {objects : B -> gmap str bytes} {staged : RW -> str * bytes}
  `{!RemoteLaws B RW E objects staged}.
Variables (write_zero : E) (auth : E -> bool) (xxh3 : list N -> N) (deref : arc -> Addr).
Variables (encode : Manifest -> list bytes) (decode : bytes -> result E Manifest).
Variables (encode_remote : RemoteManifest -> bytes) (decode_remote : bytes -> result E RemoteManifest).
Variables (gzip : bytes -> bytes) (gunzip : bytes -> list bytes * option E) (cut : bytes -> list bytes).
Variable tar_entries : bytes -> result E (list (result E (Sniff.Entry E))).
Variables (tmp_dir : result E ()) (temp_write : str -> result E ()).
Hypothesis decode_encode_remote : forall m, decode_remote (encode_remote m) = Ok m.
Hypothesis gunzip_gzip : forall d, (gunzip (gzip d)).2 = None /\ concat (gunzip (gzip d)).1 = d.
Hypothesis cut_whole : forall d, concat (cut d) = d.

#[local] Existing Instance store_tier.
#[local] Instance agree_preorder k : PreOrder (agree k) := tier_agree_pre k.

Lemma store_stream_spec k src s r s' : store_stream write_zero k src s = (r, s') ->
  (forall k', k' <> k -> agree k' s s') /\ (r = Ok () -> src.2 = None /\ content s' !! k = Some (concat src.1)).
Proof.
  destruct src as [chunks [e|]]; unfold store_stream; simpl.
  - destruct (writer k s) as [[w|e'] s1] eqn:E1; destruct (tier_writer _ _ _ _ E1) as [_ Ho1]; [|intros [= <- <-]; by split].
    pose proof (store_writer _ _ _ _ E1) as Hw1. destruct (write_chunks write_zero chunks w s1) as [[r2 w2] s2] eqn:E2.
    apply (write_chunks_wrote (L := L) _ _ _ _ _ _ _ _ _ Hw1) in E2 as (Hk2 & Ho2 & _ & _).
    destruct r2 as [[]|e2]; intros [= <- <-]; (split; [|done]); intros k' Hk; (etrans; [by apply Ho1|]); (etrans; [by apply Ho2|]); by apply tier_drop with k.
  - intros Hs. destruct (store_spec (L := L) write_zero k chunks s r s' Hs) as [Ho Hc]. split; [done|]. intros ->. by destruct Hc as [[?|[]] _].
Qed.

(** An encoded blob that decodes to [d]. *)
Definition encodes (d : bytes) (e : ManifestArtifactEncoding) (x : bytes) : Prop :=
  (decoded gunzip cut e x).2 = None /\ concat (decoded gunzip cut e x).1 = d.

Abbreviation encode_blob := (encode_blob gzip tar_entries temp_write).
Abbreviation encode_all := (encode_all gzip tar_entries temp_write).

Lemma encode_blob_spec addr h s a x : encode_blob addr h s a = Ok x ->
  exists d, content s !! (addr, h, name a) = Some d /\ encodes d x.2 x.1.
Proof.
  unfold RemotePull.encode_blob. destruct (reader (addr, h, name a) s) as [sized|] eqn:Er; [|done]. simpl.
  apply (tier_reader (agree := agree) (of_key := of_key)) in Er as (Hc & Hs & _).
  destruct (temp_write (name a)); [|done]. simpl. intros [= <-]. exists (sr_data sized). split; [done|].
  rewrite Hs, Nat2N.id, firstn_all. unfold encodes, decoded. simpl. destruct (compression_for _ _); simpl; auto.
Qed.

Lemma encode_all_spec addr h s l xs : encode_all addr h s l = Ok xs ->
  Forall2 (fun a x => exists d, content s !! (addr, h, name a) = Some d /\ encodes d x.2 x.1) l xs.
Proof.
  revert xs. induction l as [|a l IH]; intros xs; simpl; [by intros [= <-]|].
  intros (x & Hx & (xs' & Hxs & [= <-])%result_bind_ok)%result_bind_ok. constructor; [by apply encode_blob_spec|by apply IH].
Qed.

Lemma find_unique {A} (f : A -> str) l i a : NoDup (f <$> l) -> l !! i = Some a -> List.find (fun x => bool_decide (f x = f a)) l = Some a.
Proof.
  intros Hn Hi. destruct (List.find _ l) as [b|] eqn:Ef.
  - apply find_some in Ef as [Hb Hf]. apply bool_decide_eq_true in Hf. apply list_elem_of_In, list_elem_of_lookup in Hb as [j Hj].
    assert (i = j); [|congruence]. apply (NoDup_lookup _ i j (f a) Hn); rewrite list_lookup_fmap; [by rewrite Hi|by rewrite Hj; simpl; rewrite Hf].
  - exfalso. eapply find_none in Ef; [|apply list_elem_of_In; by eapply list_elem_of_lookup_2]. by rewrite bool_decide_true in Ef.
Qed.

Lemma rev_artifact_pushed rev m h (xs : list (bytes * ManifestArtifactEncoding)) i a x : rv_manifest rev = remote_manifest m h xs.*2 ->
  length xs = length (artifacts m) -> NoDup (name <$> artifacts m) -> artifacts m !! i = Some a -> xs !! i = Some x ->
  rev_artifact rev (name a) = Some (remote_artifact a x.2).
Proof.
  intros Hm Hlen Hn Ha Hx. unfold rev_artifact. rewrite Hm. simpl.
  change (name a) with (r_name (remote_artifact a x.2)). apply (find_unique r_name _ i).
  - assert (r_name <$> zip_with remote_artifact (artifacts m) xs.*2 = name <$> artifacts m) as ->; [|done].
    clear -Hlen. revert xs Hlen. induction (artifacts m) as [|a l IH]; intros [|x xs] Hlen; simpl in *; try done. f_equal. apply IH. lia.
  - rewrite lookup_zip_with, Ha. simpl. by rewrite list_lookup_fmap, Hx.
Qed.

(** ** Reading does not change a bucket *)

Definition objs (cs : list (Cache B)) : list (gmap str bytes) := (fun c => objects (c_store c)) <$> cs.

Lemma objs_insert cs i c f b : cs !! i = Some c -> objects b = objects (c_store c) -> objs (<[i := with_health f (with_store b c)]> cs) = objs cs.
Proof.
  intros Hc Hb. unfold objs. rewrite list_fmap_insert. simpl. rewrite Hb. apply list_insert_id. by rewrite list_lookup_fmap, Hc.
Qed.

Lemma read_small_spec k b r b' : read_small k b = (r, b') -> objects b' = objects b /\ (forall d, r = Ok (Some d) -> objects b !! k = Some d).
Proof.
  unfold read_small. destruct (open_read k b) as [[[[chunks [e|]]|]|e] b1] eqn:Eo; apply open_read_spec in Eo as [Ho Hr];
    intros [= <- <-]; (split; [done|]); intros d [=]. by subst.
Qed.

Lemma fetch_from_spec now cancelled k order : forall t cs r cs', fetch_from auth now cancelled k order t cs = (r, cs') ->
  objs cs' = objs cs /\ (forall i d, r = Some (i, d) -> i ∈ order /\ exists o, objs cs !! i = Some o /\ o !! k = Some d).
Proof.
  induction order as [|i order IH]; intros t cs r cs'; simpl; [intros [= <- <-]; by split|].
  assert (forall t cs1 r cs', objs cs1 = objs cs -> fetch_from auth now cancelled k order t cs1 = (r, cs') ->
    objs cs' = objs cs /\ (forall j d, r = Some (j, d) -> j ∈ i :: order /\ exists o, objs cs !! j = Some o /\ o !! k = Some d)) as Hnext.
  { intros t1 cs1 r1 cs1' Hcs Hf. destruct (IH _ _ _ _ Hf) as [Ho Hr]. rewrite Hcs in Ho, Hr. split; [done|].
    intros j d Hj. destruct (Hr j d Hj) as [? ?]. split; [by right|done]. }
  destruct (cancelled t); [intros [= <- <-]; by split|]. destruct (cs !! i) as [c|] eqn:Ec; [|by apply Hnext].
  destruct (broken now (c_health c)); [by apply Hnext|].
  destruct (read_small k (c_store c)) as [[[d|]|e] b] eqn:Er; apply read_small_spec in Er as [Hb Hd].
  - intros [= <- <-]. split; [by apply objs_insert|]. intros j d' [= <- <-]. split; [by left|].
    exists (objects (c_store c)). split; [unfold objs; by rewrite list_lookup_fmap, Ec|by apply Hd].
  - apply Hnext. by apply objs_insert.
  - apply Hnext. by apply objs_insert.
Qed.

Lemma fetch_blob_spec now tr rev addr h n cs r cs' : fetch_blob auth xxh3 deref now tr rev addr h n cs = (r, cs') ->
  objs cs' = objs cs /\ (forall d, r = Ok (Some d) -> exists o, objs cs !! cache_idx rev = Some o /\ o !! key xxh3 (deref addr) h n = Some d).
Proof.
  unfold fetch_blob. destruct (cs !! cache_idx rev) as [c|] eqn:Ec; [|intros [= <- <-]; by split].
  destruct (open_read _ (c_store c)) as [[[[chunks failure]|]|e] b] eqn:Eo; apply open_read_spec in Eo as [Ho Hr].
  - assert (forall f, objs (<[cache_idx rev := with_health f (with_store b c)]> cs) = objs cs) as Hput by (intros f; by apply objs_insert).
    destruct (tr_create tr); [|intros [= <- <-]; by split]. destruct (tr_cancelled tr); [intros [= <- <-]; by split|].
    destruct failure as [e|]; [intros [= <- <-]; by split|]. destruct (tr_flush tr); intros [= <- <-]; (split; [done|]); [|done].
    intros d [= <-]. exists (objects (c_store c)). split; [unfold objs; by rewrite list_lookup_fmap, Ec|done].
  - intros [= <- <-]. split; [by apply objs_insert|done].
  - intros [= <- <-]. split; [by apply objs_insert|done].
Qed.

(** ** Pulls *)

Section of_revision.
Variables (addr : arc) (h : str) (rev : RemoteRevision).

(** Every cache that has a blob has it encoded as the manifest says, of these bytes. *)
Definition serves (cs : list (gmap str bytes)) (n : str) (d : bytes) : Prop :=
  exists a, rev_artifact rev n = Some a /\
    Forall (fun o : gmap str bytes => o !! key xxh3 (deref addr) h n = None \/
      exists x, o !! key xxh3 (deref addr) h n = Some x /\ encodes d (r_encoding a) x) cs.

Abbreviation pull_remote_blob := (pull_remote_blob write_zero auth xxh3 deref gunzip cut).

Lemma pull_remote_blob_spec now tr cancelled n d s cs r s' cs' : serves (objs cs) n d ->
  pull_remote_blob now tr cancelled rev addr h n s cs = (r, s', cs') ->
  objs cs' = objs cs /\ (forall k, k <> (addr, h, n) -> agree k s s') /\ (r = Ok true -> content s' !! (addr, h, n) = Some d).
Proof.
  intros (a & Ha & Hall). unfold RemotePull.pull_remote_blob. rewrite Ha.
  destruct (fetch_blob auth xxh3 deref now tr rev addr h n cs) as [[[x|]|e] cs1] eqn:Ef; apply fetch_blob_spec in Ef as [Ho Hd].
  - destruct (Hd x eq_refl) as (o & Hi & Hx). destruct (Forall_lookup_1 _ _ _ _ Hall Hi) as [Hn|(x' & Hx' & Hdec & Hcat)]; [congruence|].
    rewrite Hx in Hx'. injection Hx' as <-.
    destruct (store_stream _ _ _ s) as [[[]|e] s1] eqn:Es; apply store_stream_spec in Es as [Hag Hok]; intros [= <- <- <-]; split_and!; try done.
    intros _. destruct (Hok eq_refl) as [_ ->]. by rewrite Hcat.
  - intros [= <- <- <-]. split_and!; try done. by destruct cancelled.
  - intros [= <- <- <-]. by split_and!.
Qed.

(** A blob that was served has these bytes. *)
Abbreviation step_of now tr cancelled := (fun n (x : S * list (Cache B)) =>
  let '(r, s, cs) := pull_remote_blob now (tr n) (cancelled n) rev addr h n x.1 x.2 in (Some r, (s, cs))).
Lemma pulls_spec now tr cancelled (D : str -> bytes) schedule names s cs r s' cs' : Forall (fun n => serves (objs cs) n (D n)) names ->
  fan_out (step_of now tr cancelled) schedule names (s, cs) = (r, (s', cs')) ->
  objs cs' = objs cs /\ (forall k, (forall n, n ∈ names -> k <> (addr, h, n)) -> agree k s s') /\
  (r = Some (Ok true) -> forall n, n ∈ names -> content s' !! (addr, h, n) = Some (D n)).
Proof.
  intros Hall Hf. rewrite Forall_forall in Hall.
  destruct (fan_out_spec (step_of now tr cancelled)
    (fun x => objs x.2 = objs cs /\ forall k, (forall n, n ∈ names -> k <> (addr, h, n)) -> agree k s x.1)
    (fun n x => content x.1 !! (addr, h, n) = Some (D n)) names) with schedule (s, cs) r (s', cs') as [[Ho Hag] Hok]; [|by split|done|by split_and!].
  intros n [s1 cs1] o [s2 cs2] Hn [Ho Hag]. simpl in *. destruct (pull_remote_blob _ _ _ _ _ _ n s1 cs1) as [[r1 s3] cs3] eqn:E1.
  intros [= <- <- <-]. pose proof (Hall n Hn) as Hs. rewrite <- Ho in Hs.
  apply (pull_remote_blob_spec _ _ _ _ _ _ _ _ _ _ Hs) in E1 as (Ho1 & Ha1 & Hc1). split_and!; [congruence| |done|].
  - intros k Hk. etrans; [by apply Hag|]. apply Ha1. by apply Hk.
  - intros [= ->]. split; [by apply Hc1|]. intros n' Hn' Hc. destruct (decide (n' = n)) as [-> |Hne]; [by apply Hc1|].
    rewrite <- Hc. apply (tier_agree (agree := agree)), Ha1. congruence.
Qed.
End of_revision.

Abbreviation prepare_upload := (prepare_upload not_found decode gzip tar_entries tmp_dir temp_write).
Abbreviation fetch_manifest := (fetch_manifest auth xxh3 deref decode_remote).
Abbreviation pull_remote_blobs := (pull_remote_blobs write_zero auth xxh3 deref gunzip cut tmp_dir).

(** What the buckets of all caches have to keep. [remote_manifest_last] shows that they do
    when whoever pushes the revision pushes the same bytes; [repush_mixes] is what happens
    when another build of it is pushed. *)
Definition all_sound (addr : arc) (h : str) (m : Manifest) (xs : list (bytes * ManifestArtifactEncoding)) (cs : list (Cache B)) : Prop :=
  Forall (fun o => revision_sound xxh3 o (deref addr) h (manifest_bytes encode_remote m h xs) (stored_blobs m xs)) (objs cs).

(** A manifest as [cache_locally] writes it. *)
Definition plain_manifest (m : Manifest) : Prop :=
  version m = $"1.0.0" /\ NoDup (name <$> artifacts m) /\ Forall (fun a => encoding a = EncNone) (artifacts m).

Lemma prepared_blobs origin h s0 m xs : prepare_upload origin h s0 = Ok (Some (m, xs)) ->
  Forall2 (fun a x => exists d, content s0 !! (origin, h, name a) = Some d /\ encodes d x.2 x.1) (artifacts m) xs.
Proof.
  unfold RemotePull.prepare_upload. intros ([m'|] & Hm & Hx)%result_bind_ok; [|done].
  apply result_bind_ok in Hx as (_ & _ & (ys & Hys & [= -> ->])%result_bind_ok). by apply encode_all_spec.
Qed.

Lemma fetched_manifest now cancelled order addr h m xs cs rev cs' : all_sound addr h m xs cs ->
  fetch_manifest now cancelled order addr h cs = (Some rev, cs') -> rv_manifest rev = remote_manifest m h xs.*2.
Proof.
  intros Hs. unfold RemotePull.fetch_manifest. case_match; [done|].
  destruct (fetch_from _ _ _ _ _ _ _) as [[[i d]|] cs1] eqn:Ef; [|done]. apply fetch_from_spec in Ef as [_ Hd].
  destruct (Hd i d eq_refl) as (_ & o & Hi & Ho). destruct (Forall_lookup_1 _ _ _ _ Hs Hi) as [_ [Hn|[Hm _]]]; [congruence|].
  rewrite Ho in Hm. injection Hm as ->. unfold manifest_bytes. rewrite decode_encode_remote. by intros [= <- _].
Qed.

Lemma local_of_remote nanos m h xs : plain_manifest m -> length xs = length (artifacts m) ->
  local_manifest_from_remote nanos (remote_manifest m h xs) h = mkManifest (version m) (target m) (default 0%Z nanos) h (artifacts m).
Proof.
  intros (Hv & _ & He) Hl. unfold local_manifest_from_remote. simpl. rewrite Hv. f_equal.
  clear Hv. revert xs Hl. induction He as [|a l Ha _ IH]; intros [|x xs] Hl; simpl in *; try done. f_equal; [|apply IH; lia].
  destruct a. unfold local_artifact. simpl in *. by rewrite Ha.
Qed.

Lemma blobs_served addr h rev origin s0 m xs cs n : prepare_upload origin h s0 = Ok (Some (m, xs)) -> plain_manifest m ->
  rv_manifest rev = remote_manifest m h xs.*2 -> all_sound addr h m xs cs -> n ∈ name <$> artifacts m ->
  exists d, content s0 !! (origin, h, n) = Some d /\ serves addr h rev (objs cs) n d.
Proof.
  intros Hp%prepared_blobs (_ & Hn & _) Hrev Hs (a & -> & Ha)%list_elem_of_fmap. apply list_elem_of_lookup in Ha as [i Hi].
  destruct (Forall2_lookup_l _ _ _ _ _ Hp Hi) as (x & Hx & d & Hd & He). exists d. split; [done|].
  exists (remote_artifact a x.2). split; [eapply rev_artifact_pushed; [done|symmetry; by eapply Forall2_length|done..]|].
  eapply Forall_impl; [exact Hs|]. intros o [Hb _]. destruct (Hb (name a) x.1) as [?|?]; [|by left|right; by exists x.1].
  apply list_elem_of_lookup. exists i. unfold stored_blobs. rewrite lookup_zip_with, Hi. simpl. by rewrite Hx.
Qed.

Lemma pull_answers now tr cancelled rev addr h schedule names x : seq 0 (length names) `suffix_of` schedule ->
  (pull_remote_blobs now tr cancelled rev addr h schedule names x).1 <> None.
Proof.
  intros Hs. unfold RemotePull.pull_remote_blobs. case_bool_decide; [done|]. destruct tmp_dir; [|done]. eapply fan_out_ends; [|done|done].
  intros n [s cs]. simpl. by destruct (pull_remote_blob _ _ _ _ _ _ _ _ _ _ _ _ n s cs) as [[??]?].
Qed.

(** C13: a remote hit is what was pushed. A revision is read from the cache of one machine,
    encoded and pushed; on another, all of whose caches hold of this revision nothing but
    what this push stored, and its manifest only with all its blobs, the manifest that is found names the same artifacts, with their hashes and sizes, and
    whatever is pulled has, byte for byte, what the first machine had, whether it was
    compressed or not and in whatever order the pulls go. They get to an answer when each
    has its turn, and whatever it is, every other entry is left as it was. The local cache
    keeps what it acknowledges. *)
Theorem remote_hit_as_pushed now cancelled order origin addr h s0 m xs cs rev cs1 nanos :
  prepare_upload origin h s0 = Ok (Some (m, xs)) -> plain_manifest m -> all_sound addr h m xs cs ->
  fetch_manifest now cancelled order addr h cs = (Some rev, cs1) ->
  local_manifest_from_remote nanos (rv_manifest rev) h = mkManifest (version m) (target m) (default 0%Z nanos) h (artifacts m) /\
  forall now' tr blob_cancelled schedule names cs2 s r s' cs3, all_sound addr h m xs cs2 -> Forall (fun n => n ∈ name <$> artifacts m) names ->
    pull_remote_blobs now' tr blob_cancelled rev addr h schedule names (s, cs2) = (r, (s', cs3)) ->
    (seq 0 (length names) `suffix_of` schedule -> r <> None) /\
    (forall k, (forall n, n ∈ names -> k <> (addr, h, n)) -> content s' !! k = content s !! k) /\
    (r = Some (Ok true) -> forall n, n ∈ names -> is_Some (content s0 !! (origin, h, n)) /\ content s' !! (addr, h, n) = content s0 !! (origin, h, n)).
Proof.
  intros Hp Hpl Hs Hf. pose proof (fetched_manifest _ _ _ _ _ _ _ _ _ _ Hs Hf) as Hrev. split.
  { rewrite Hrev. apply local_of_remote; [done|]. rewrite length_fmap. symmetry. by eapply Forall2_length, prepared_blobs. }
  intros now' tr bc schedule names cs2 s r s' cs3 Hs2 Hnames Hpull. split; [intros Hsch ->; apply (pull_answers now' tr bc rev addr h schedule names (s, cs2) Hsch); by rewrite Hpull|].
  revert Hpull. unfold RemotePull.pull_remote_blobs.
  case_bool_decide as Hne; [intros [= <- <- <-]; split; [done|]; subst; by intros _ n ?%elem_of_nil|].
  set (D := fun n => default [] (content s0 !! (origin, h, n))).
  assert (forall n, n ∈ names -> content s0 !! (origin, h, n) = Some (D n) /\ serves addr h rev (objs cs2) n (D n)) as Hserve.
  { intros n Hn. rewrite Forall_forall in Hnames. destruct (blobs_served addr h rev origin s0 m xs cs2 n Hp Hpl Hrev Hs2 (Hnames n Hn)) as (d & Hd & Hsv).
    unfold D. rewrite Hd. done. }
  clear Hp Hf. destruct tmp_dir; [|intros [= <- <- <-]; by split]. intros Hpull.
  destruct (pulls_spec addr h rev now' tr bc D schedule names s cs2 r s' cs3) as (_ & Hag & Hok); [apply Forall_forall; intros n Hn; by apply Hserve|done|].
  split; [intros k Hk; by apply (tier_agree (agree := agree)), Hag|]. intros Hr n Hn. destruct (Hserve n Hn) as [-> _]. split; [by eexists|by apply Hok].
Qed.

(** ** Hits that can be read *)

Abbreviation probe_remote_revision := (probe_remote_revision write_zero auth xxh3 deref encode decode_remote).
Abbreviation materialize_blobs := (materialize_blobs write_zero auth xxh3 deref decode_remote gunzip cut tmp_dir).

Lemma fetch_manifest_objs now cancelled order addr h cs r cs' : fetch_manifest now cancelled order addr h cs = (r, cs') -> objs cs' = objs cs.
Proof.
  unfold RemotePull.fetch_manifest. case_match; [by intros [= _ <-]|].
  destruct (fetch_from _ _ _ _ _ _ _) as [[[i d]|] cs1] eqn:Ef; apply fetch_from_spec in Ef as [Ho _]; by intros [= _ <-].
Qed.

Lemma blobs_exist_spec now cancelled rev addr h names cs r cs' : blobs_exist auth xxh3 deref now cancelled rev addr h names cs = (r, cs') ->
  objs cs' = objs cs /\ (r = true -> names <> [] -> exists o, objs cs !! cache_idx rev = Some o /\
    forall n, n ∈ names -> exists k, is_Some (o !! k) /\ under (revision_prefix xxh3 (deref addr) h) (key_segment xxh3 n) k).
Proof.
  unfold blobs_exist. case_bool_decide as Hn; [by intros [= <- <-]|].
  destruct (cs !! cache_idx rev) as [c|] eqn:Ec; [|by intros [= <- <-]]. destruct cancelled; [by intros [= <- <-]|].
  destruct (list_names _ (c_store c)) as [[present|e] b] eqn:El; apply list_names_spec in El as [Ho Hl];
    intros [= <- <-]; (split; [by apply objs_insert|]); [|done].
  intros Hall _. exists (objects (c_store c)). split; [unfold objs; by rewrite list_lookup_fmap, Ec|].
  intros n Hin. rewrite forallb_forall in Hall. apply list_elem_of_In, Hall, bool_decide_eq_true in Hin.
  by apply (Hl present eq_refl) in Hin; [|apply key_segment_no_slash].
Qed.

(** C33: a remote hit is taken on evidence, and a miss leaves no trace. When a probe answers
    with a revision, its manifest is in the local cache, and the cache that served it has
    listed an object for every blob the groups need; whatever else it answers, the local
    manifest is as it was, and no other entry is ever touched. *)
Theorem probe_on_evidence now nanos cancelled lc order addr h groups s cs r s' cs' :
  probe_remote_revision now nanos cancelled lc order addr h groups s cs = (r, s', cs') ->
  (forall k, k <> (addr, h, MANIFEST_V1) -> content s' !! k = content s !! k) /\
  match r with
  | Ok (Some (m, rev)) =>
      content s' !! (addr, h, MANIFEST_V1) = Some (concat (encode m)) /\ m = local_manifest_from_remote nanos (rv_manifest rev) h /\
      (needed_artifacts m groups <> [] -> exists o, objs cs !! cache_idx rev = Some o /\
        forall a, a ∈ needed_artifacts m groups ->
          exists k, is_Some (o !! k) /\ under (revision_prefix xxh3 (deref addr) h) (key_segment xxh3 (name a)) k)
  | _ => content s' !! (addr, h, MANIFEST_V1) = content s !! (addr, h, MANIFEST_V1)
  end.
Proof.
  unfold RemotePull.probe_remote_revision. destruct (fetch_manifest now cancelled order addr h cs) as [[rev|] cs1] eqn:Ef; [|by intros [= <- <- <-]].
  apply fetch_manifest_objs in Ef. set (m := local_manifest_from_remote nanos (rv_manifest rev) h).
  destruct (blobs_exist _ _ _ _ _ _ _ _ _ cs1) as [[] cs2] eqn:Eb; [|by intros [= <- <- <-]]. apply blobs_exist_spec in Eb as [_ Hev].
  destruct (store write_zero (addr, h, MANIFEST_V1) (encode m) s) as [rs s1] eqn:Es. apply (store_spec (L := L)) in Es as [Ho Hc].
  destruct rs as [[]|e]; intros [= <- <- <-]; (split; [intros k Hk; by apply (tier_agree (agree := agree)), Ho|]); [|by apply Hc].
  split; [by destruct Hc as [[?|[]] _]|]. split; [done|]. intros Hne. rewrite Ef in Hev.
  destruct (Hev eq_refl) as (o & Hi & Hall); [intros Hnil%fmap_nil_inv; done|]. exists o. split; [done|].
  intros a Ha. apply Hall, list_elem_of_fmap. by exists a.
Qed.

(** What is committed can be read. *)
Hypothesis committed_read : forall k s, exists_committed k s = Ok true -> is_Some (content s !! k).

Lemma missing_spec addr h s l : forall t missing t', missing_among addr h (fun _ => s) l t = (Ok missing, t') ->
  forall a, a ∈ l -> name a ∈ missing \/ is_Some (content s !! (addr, h, name a)).
Proof.
  induction l as [|a l IH]; intros t missing t'; simpl; [by intros _ a ?%elem_of_nil|].
  destruct (exists_local (addr, h, name a) (fun _ => s) t) as [[found|e] t1] eqn:Ee; [|done].
  destruct (missing_among addr h (fun _ => s) l t1) as [[ms|e] t2] eqn:Em; [|done]. intros [= <- <-] b [-> |Hb]%elem_of_cons.
  - destruct found; [right|left; by left]. apply (exists_local_from_spec (L := L)) in Ee as [_ [Hf|[_ Hf]]]; [|by apply committed_read in Hf].
    symmetry in Hf. by apply bool_decide_eq_true in Hf.
  - destruct (IH _ _ _ Em b Hb) as [Hin|]; [left|by right]. destruct found; [done|by right].
Qed.

(** A pull that is served has an entry for its name, whatever the buckets hold. *)
Lemma pull_present now tr cancelled rev addr h n s cs r s' cs' :
  pull_remote_blob write_zero auth xxh3 deref gunzip cut now tr cancelled rev addr h n s cs = (r, s', cs') ->
  (forall k, k <> (addr, h, n) -> content s' !! k = content s !! k) /\ (r = Ok true -> is_Some (content s' !! (addr, h, n))).
Proof.
  unfold pull_remote_blob. case_match; [|by intros [= <- <- <-]].
  destruct (fetch_blob _ _ _ _ _ _ _ _ _ cs) as [[[x|]|e] cs2]; [|intros [= <- <- <-]; by destruct cancelled|by intros [= <- <- <-]].
  destruct (store_stream _ _ _ s) as [[[]|e] s2] eqn:Es; apply store_stream_spec in Es as [Ho Hok]; intros [= <- <- <-];
    (split; [intros k Hk; by apply (tier_agree (agree := agree)), Ho|]); [|done]. intros _. destruct (Hok eq_refl) as [_ ->]. by eexists.
Qed.

(** The outcomes a request keeps are of blobs that are there. *)
Definition memo_resident (addr : arc) (h : str) (x : gmap EntryKey (result (remote_error E) bool) * (S * list (Cache B))) : Prop :=
  forall n, x.1 !! (addr, h, n) = Some (Ok true) -> is_Some (content x.2.1 !! (addr, h, n)).

Abbreviation pull_once := (pull_once write_zero auth xxh3 deref gunzip cut tmp_dir).
Lemma pull_once_spec now tr cancelled rev addr h n x o x' : pull_once now tr cancelled rev addr h n x = (o, x') -> memo_resident addr h x ->
  memo_resident addr h x' /\ o <> None /\ (forall k, k <> (addr, h, n) -> content x'.2.1 !! k = content x.2.1 !! k) /\
  (o = Some (Ok true) -> is_Some (content x'.2.1 !! (addr, h, n))).
Proof.
  destruct x as [pulled [s cs]]. unfold RemotePull.pull_once, pull_one_remote_blob, pull_remote_blobs, fan_out. simpl. intros Hp Hm.
  destruct (pulled !! (addr, h, n)) as [r|] eqn:En; [injection Hp as <- <-; split_and!; [done|done|done|]; intros [= ->]; by apply Hm|].
  assert (forall r s' cs', (forall k, k <> (addr, h, n) -> content s' !! k = content s !! k) -> (r = Ok true -> is_Some (content s' !! (addr, h, n))) ->
    memo_resident addr h (<[(addr, h, n) := r]> pulled, (s', cs'))) as Hins.
  { intros r s' cs' Hk Hr n'. simpl. destruct (decide (n' = n)) as [-> |Hne]; [rewrite lookup_insert_eq; intros [= ->]; by apply Hr|].
    rewrite lookup_insert_ne by congruence. intros Hn'. rewrite Hk by congruence. by apply Hm. }
  destruct tmp_dir as [[]|e]; simpl in Hp.
  2: { injection Hp as <- <-. split_and!; [by apply Hins|done|done|done]. }
  destruct (pull_remote_blob _ _ _ _ _ _ _ _ _ _ _ _ n s cs) as [[r s1] cs1] eqn:Er. apply pull_present in Er as [Hk Hr].
  destruct r as [served|e]; simpl in Hp; injection Hp as <- <-; (split_and!; [apply Hins|done|done|]); try done; rewrite andb_true_r in *.
  all: intros [= ->]; by apply Hr.
Qed.

Lemma pull_missing_spec now tr cancelled rev addr h schedule missing x r x' :
  pull_missing_blobs write_zero auth xxh3 deref gunzip cut tmp_dir now tr cancelled rev addr h schedule missing x = (r, x') -> memo_resident addr h x ->
  (forall m, length missing <= m -> seq 0 m `suffix_of` schedule -> r <> None) /\
  memo_resident addr h x' /\ (forall k, (forall n, n ∈ missing -> k <> (addr, h, n)) -> content x'.2.1 !! k = content x.2.1 !! k) /\
  (r = Some (Ok true) -> forall n, n ∈ missing -> is_Some (content x'.2.1 !! (addr, h, n))).
Proof.
  unfold pull_missing_blobs. intros Hf Hm. split.
  { intros m Hl Hs ->. eapply (fan_out_ends (pull_once now tr cancelled rev addr h)); [|exact Hl|exact Hs|by rewrite Hf].
    intros n y. unfold RemotePull.pull_once. case_match; [done|].
    pose proof (pull_answers now tr cancelled rev addr h [0] [n] y.2) as Ha. unfold pull_one_remote_blob.
    destruct (pull_remote_blobs _ _ _ _ _ _ _ _ y.2) as [[?|] ?]; [done|]. by destruct Ha. }
  destruct (fan_out_spec (pull_once now tr cancelled rev addr h)
    (fun y => memo_resident addr h y /\ forall k, (forall n, n ∈ missing -> k <> (addr, h, n)) -> content y.2.1 !! k = content x.2.1 !! k)
    (fun n y => is_Some (content y.2.1 !! (addr, h, n))) missing) with schedule x r x' as [[Hm' Hk] Hok]; [|done|done|done].
  intros n y o y' Hn [Hmy Hky] Hp. destruct (pull_once_spec _ _ _ _ _ _ _ _ _ _ Hp Hmy) as (Hmy' & Ho & Hky' & Hr). split_and!; [done| |done|].
  - intros k Hk. rewrite Hky' by (by apply Hk). by apply Hky.
  - intros ->. split; [by apply Hr|]. intros n' _ Hc. destruct (decide (n' = n)) as [-> |]; [by apply Hr|]. rewrite Hky' by congruence. done.
Qed.

Lemma missing_needed addr h s l : forall t missing t', missing_among addr h (fun _ => s) l t = (Ok missing, t') -> missing `sublist_of` name <$> l.
Proof.
  induction l as [|a l IH]; intros t missing t'; simpl; [by intros [= <- <-]|].
  destruct (exists_local (addr, h, name a) (fun _ => s) t) as [[found|e] t1]; [|done].
  destruct (missing_among addr h (fun _ => s) l t1) as [[ms|e] t2] eqn:Em; [|done]. intros [= <- <-].
  destruct found; [apply sublist_cons|apply sublist_skip]; by eapply IH.
Qed.

(** C15: what is established is there. When [materialize_blobs] establishes a revision for the
    groups a caller asked for, every artifact they need can be read from the local cache,
    so that the read that follows need not look, and no other entry has changed. The
    outcomes of pulls that the callers of a request share stay those of blobs that are
    there, and the call gets to an answer when every pull has its turn. The local cache
    keeps what it acknowledges. *)
Theorem materialized_resident cell enabled now cancelled order tr bc schedule addr h m outputs x r cell' x' : memo_resident addr h x ->
  materialize_blobs cell enabled now cancelled order tr bc schedule addr h m outputs x = (r, cell', x') ->
  memo_resident addr h x' /\
  (seq 0 (length (needed_artifacts m outputs)) `suffix_of` schedule -> r <> None) /\
  (forall k, (forall a, a ∈ needed_artifacts m outputs -> k <> (addr, h, name a)) -> content x'.2.1 !! k = content x.2.1 !! k) /\
  (r = Some (Ok (Some Established)) -> forall a, a ∈ needed_artifacts m outputs -> is_Some (content x'.2.1 !! (addr, h, name a))).
Proof.
  destruct x as [pulled [s cs]]. unfold RemotePull.materialize_blobs, missing_local_blobs. intros Hm.
  destruct (missing_among addr h (fun _ => s) (needed_artifacts m outputs) 0) as [[missing|e] t] eqn:Em; simpl; [|intros [= <- <- <-]; by split_and!].
  pose proof (missing_spec _ _ _ _ _ _ _ Em) as Hin. apply missing_needed in Em as Hsub. destruct missing as [|n missing].
  { intros [= <- <- <-]. split_and!; [done..|]. intros _ a Ha. by destruct (Hin a Ha) as [?%elem_of_nil|]. }
  destruct (remote_revision _ _ _ _ _ _ _ _ _ _ _ _) as [[rev|] cs1]; [|intros [= <- <- <-]; by split_and!].
  destruct (pull_missing_blobs _ _ _ _ _ _ _ _ _ _ _ _ _ _ (n :: missing) _) as [r1 x1] eqn:Ep. intros [= <- <- <-].
  apply pull_missing_spec in Ep as (Hend & Hm1 & Hk & Hok); [|done]. apply sublist_length in Hsub as Hl. rewrite length_fmap in Hl. split_and!; [done|..].
  - intros Hs. specialize (Hend _ Hl Hs). by destruct r1 as [[]|].
  - intros k Hne. apply Hk. intros n' Hn'. eapply elem_of_sublist in Hn'; [|done]. apply list_elem_of_fmap in Hn' as (a & -> & Ha). by apply Hne.
  - intros Hr a Ha. assert (r1 = Some (Ok true)) as -> by (by destruct r1 as [[[]|]|]). destruct (Hin a Ha) as [Hn|Hs]; [by apply Hok|].
    destruct (decide (name a ∈ n :: missing)) as [Hn|Hn]; [by apply Hok|]. rewrite Hk; [done|]. intros n' Hn' [= <-]. done.
Qed.
End pulled.

(** ** Two machines *)

(** A remote manifest has the fields of a local one. *)
Definition as_local (a : RemoteManifestArtifact) : ManifestArtifact :=
  mkMA (r_hashout a) (r_group a) (r_name a) (r_size a) (r_type a) (r_content_type a) (r_encoding a).
Definition put_remote (m : RemoteManifest) : bytes :=
  concat (put_manifest (mkManifest (r_version m) (r_target m) 0 (r_hashin m) (as_local <$> r_artifacts m))).
Definition get_remote (d : bytes) : result tier_error RemoteManifest :=
  m ← read_back d; Ok (mkRM (version m) (target m) (hashin m) ((fun a => remote_artifact a (encoding a)) <$> artifacts m)).

Lemma get_put_remote m : get_remote (put_remote m) = Ok m.
Proof.
  unfold get_remote, put_remote. rewrite read_back_put. simpl. destruct m as [v t h l]. do 2 f_equal. simpl.
  rewrite <- list_fmap_compose. induction l as [|[] l IH]; [done|]. rewrite fmap_cons. by rewrite IH.
Qed.

Definition sample_gzip (d : bytes) : bytes := 31%N :: d.
Definition sample_gunzip (d : bytes) : list bytes * option tier_error :=
  match d with 31%N :: d => ([d], None) | _ => ([], Some Io) end.
Definition sample_entries (d : bytes) : result tier_error (list (result tier_error (Sniff.Entry tier_error))) := Err Io.
Definition sample_deref (_ : arc) : Addr := sample_key_addr $"t".
Definition sample_transfer (_ : str) : Transfer := @mkTransfer tier_error (Ok ()) (Ok ()) false.

(** A machine that has built the revision: one small artifact, and one to compress. *)
Definition built (small : N) (hash : str) : disk * disk :=
  (sample_cache_locally turns (fun _ => sample_disks 4999) (Some 7%Z) 1%N $"h1"
     [sample_artifact $"a" hash (OaRaw [small] $"a" false); sample_artifact $"b" $"hb" (OaRaw (replicate 1030 7%N) $"b" false)] None (sample_disks 4999)).2.

Abbreviation sample_prepare := (@prepare_upload (disk * disk) _ tier_error stack_backend is_not_found read_back sample_gzip sample_entries (Ok ()) (fun _ => Ok ())).
Abbreviation sample_fetch := (fetch_manifest (E := tier_error) (B := memory) (RW := str * bytes) (fun _ => false) sample_hash sample_deref get_remote).
Abbreviation sample_pull := (@pull_remote_blobs (disk * disk) _ tier_error stack_backend memory (str * bytes) memory_backend Io (fun _ => false) sample_hash
  sample_deref sample_gunzip (fun d => [d]) (Ok ())).

(** Its push, stopped after some steps. *)
Definition pushed (s : disk * disk) (schedule : list nat) (b : memory) : memory :=
  match sample_prepare 1%N $"h1" s with
  | Ok (Some (m, xs)) =>
      (run_push sample_hash schedule (upload_push sample_deref put_remote (fun _ d => Ok ([d], None)) 1%N $"h1" m xs) b).2
  | _ => b
  end.
Definition sample_set (b : memory) : list (Cache memory) := [mkCache (sample_cache $"corp") CacheHealth_default b].
Definition whole_push : list nat := [1; 0; 1; 0; 1; 0; 0; 0; 0; 0; 0].
Definition sample_names : list str := [$"out_a.tar"; $"out_b.tar"].

Definition sample_origin : disk * disk := built 1 $"ha".
Definition sample_remote : memory := pushed sample_origin whole_push (mkMemory ∅ true).
Definition sample_prepared : Manifest * list (bytes * ManifestArtifactEncoding) :=
  match sample_prepare 1%N $"h1" sample_origin with Ok (Some x) => x | _ => (mkManifest [] [] 0 [] [], []) end.

(** The entries of a local cache. *)
Abbreviation local_content := (spill_content (pc := entries) (bc := entries)).

Lemma sample_remote_sound : all_sound (objects := mem_objects) sample_hash sample_deref put_remote 2%N $"h1" sample_prepared.1 sample_prepared.2 (sample_set sample_remote).
Proof.
  apply Forall_cons. split; [|by constructor].
  assert (forallb (fun x : str * bytes => bool_decide (mem_objects sample_remote !! key sample_hash (sample_deref 2%N) $"h1" x.1 = Some x.2))
    (stored_blobs sample_prepared.1 sample_prepared.2) = true) as Hall by (vm_compute; reflexivity).
  assert (forall n d, (n, d) ∈ stored_blobs sample_prepared.1 sample_prepared.2 -> mem_objects sample_remote !! key sample_hash (sample_deref 2%N) $"h1" n = Some d) as Hin.
  { intros n d Hn. rewrite forallb_forall in Hall. apply list_elem_of_In, Hall, bool_decide_eq_true in Hn. exact Hn. }
  split; [intros n d Hn; right; by apply Hin|]. right. split; [|exact Hin]. apply (bool_decide_unpack _). vm_compute. exact I.
Qed.

Lemma sample_plain : plain_manifest sample_prepared.1.
Proof. split_and!; apply (bool_decide_unpack _); vm_compute; exact I. Qed.

(** Machine 2 pulls what machine 1 has built. *)
Lemma remote_hit_as_pushed_witness : exists rev cs s' cs',
  sample_fetch 0%N (fun _ => false) [0] 2%N $"h1" (sample_set sample_remote) = (Some rev, cs) /\
  sample_pull 0%N sample_transfer (fun _ => false) rev 2%N $"h1" [1; 0] sample_names (sample_disks 4999, sample_set sample_remote) = (Some (Ok true), (s', cs')) /\
  local_content s' !! (2%N, $"h1", $"out_b.tar") = local_content sample_origin !! (1%N, $"h1", $"out_b.tar").
Proof.
  destruct (sample_fetch 0%N (fun _ => false) [0] 2%N $"h1" (sample_set sample_remote)) as [rev cs] eqn:Ef.
  assert (exists r, rev = Some r) as [r ->] by (vm_compute in Ef; injection Ef as <- _; eexists; reflexivity).
  destruct (sample_pull 0%N sample_transfer (fun _ => false) r 2%N $"h1" [1; 0] sample_names (sample_disks 4999, sample_set sample_remote)) as [res [s' cs']] eqn:Ep.
  assert (res = Some (Ok true)) as ->.
  { vm_compute in Ef. injection Ef as <- _. vm_compute in Ep. injection Ep as <- _ _. reflexivity. }
  exists r, cs, s', cs'. split; [reflexivity|]. split; [exact Ep|].
  pose proof (@remote_hit_as_pushed _ _ _ stack_backend is_not_found (fun path => path) _ _ _ _ _ stack_store_laws memory (str * bytes) memory_backend mem_objects id _ Io
    (fun _ => false) sample_hash sample_deref read_back put_remote get_remote sample_gzip sample_gunzip (fun d => [d]) sample_entries (Ok ()) (fun _ => Ok ())
    get_put_remote ltac:(intros d; split; [reflexivity|apply app_nil_r]) ltac:(intros d; apply app_nil_r)
    0%N (fun _ => false) [0] 1%N 2%N $"h1" sample_origin sample_prepared.1 sample_prepared.2 (sample_set sample_remote) r cs (Some 3%Z)
    ltac:(vm_compute; reflexivity) sample_plain sample_remote_sound Ef) as [_ Hpull].
  refine (proj2 (proj2 (proj2 (Hpull 0%N sample_transfer (fun _ => false) [1; 0] sample_names (sample_set sample_remote) (sample_disks 4999) (Some (Ok true)) s' cs' sample_remote_sound _ Ep))
    eq_refl $"out_b.tar" _)).
  - apply (bool_decide_unpack _). vm_compute. exact I.
  - apply (bool_decide_unpack _). vm_compute. exact I.
Defined.

Abbreviation sample_probe := (@probe_remote_revision (disk * disk) _ tier_error stack_backend memory (str * bytes) memory_backend Io (fun _ => false) sample_hash
  sample_deref put_manifest get_remote).
Definition sample_probed : result tier_error (option (Manifest * RemoteRevision)) * (disk * disk) * list (Cache memory) :=
  sample_probe 0%N (Some 3%Z) (fun _ => false) false [0] 2%N $"h1" [$""] (sample_disks 4999) (sample_set sample_remote).

Lemma probe_on_evidence_witness : exists m rev, sample_probed.1.1 = Ok (Some (m, rev)) /\
  local_content sample_probed.1.2 !! (2%N, $"h1", MANIFEST_V1) = Some (concat (put_manifest m)).
Proof.
  pose proof (@probe_on_evidence _ _ _ stack_backend is_not_found (fun path => path) _ _ _ _ _ stack_store_laws memory (str * bytes) memory_backend mem_objects id _ Io
    (fun _ => false) sample_hash sample_deref put_manifest get_remote 0%N (Some 3%Z) (fun _ => false) false [0] 2%N $"h1" [$""] (sample_disks 4999)
    (sample_set sample_remote) sample_probed.1.1 sample_probed.1.2 sample_probed.2 ltac:(unfold sample_probed; vm_compute; reflexivity)) as [_ Hr].
  assert (match sample_probed.1.1 with Ok (Some _) => true | _ => false end = true) as Hf by (vm_compute; reflexivity).
  revert Hr Hf. generalize (local_content sample_probed.1.2). intros entries Hr Hf.
  destruct (sample_probed.1.1) as [[[m rev]|]|e]; [|discriminate Hf..].
  exists m, rev. split; [reflexivity|exact (proj1 Hr)].
Defined.

Abbreviation sample_materialize := (@materialize_blobs (disk * disk) _ tier_error stack_backend memory (str * bytes) memory_backend Io (fun _ => false) sample_hash
  sample_deref get_remote sample_gunzip (fun d => [d]) (Ok ())).
Definition sample_established (cell : option (option RemoteRevision)) (pulled : gmap EntryKey (result (remote_error tier_error) bool)) (b : memory) :=
  sample_materialize cell true 0%N (fun _ => false) [0] sample_transfer (fun _ => false) [1; 0] 2%N $"h1" sample_prepared.1 [$""]
    (pulled, (sample_disks 4999, sample_set b)).

Lemma disk_committed k (s : disk * disk) : @exists_committed _ _ _ stack_backend k s = Ok true -> is_Some (local_content s !! k).
Proof.
  destruct s as [p b]. unfold exists_committed, stack_backend, spill_backend, spill_exists_committed, or_else, spill_content. simpl.
  rewrite lookup_union. destruct (entries p !! k), (entries b !! k); simpl; try done; by eexists.
Qed.

Lemma materialized_resident_witness :
  (sample_established None ∅ sample_remote).1.1 = Some (Ok (Some Established)) /\
  forall a, a ∈ needed_artifacts sample_prepared.1 [$""] -> is_Some (local_content (sample_established None ∅ sample_remote).2.2.1 !! (2%N, $"h1", name a)).
Proof.
  assert ((sample_established None ∅ sample_remote).1.1 = Some (Ok (Some Established))) as He by (vm_compute; reflexivity).
  split; [exact He|].
  refine (proj2 (proj2 (proj2 (@materialized_resident _ _ _ stack_backend is_not_found (fun path => path) _ _ _ _ _ stack_store_laws memory (str * bytes) memory_backend Io
    (fun _ => false) sample_hash sample_deref get_remote sample_gunzip (fun d => [d]) (Ok ()) disk_committed None true 0%N (fun _ => false) [0] sample_transfer (fun _ => false)
    [1; 0] 2%N $"h1" sample_prepared.1 [$""] (∅, (sample_disks 4999, sample_set sample_remote)) (Some (Ok (Some Established))) (sample_established None ∅ sample_remote).1.2
    (sample_established None ∅ sample_remote).2 _ _))) eq_refl).
  - intros n Hn. discriminate Hn.
  - rewrite <- He. unfold sample_established. by repeat rewrite <- surjective_pairing.
Defined.

(** A cache that does not answer once has no revision for the rest of the request. The
    failure of a lookup is answered like an absent manifest and kept as such in the cell
    the callers of a target share: later callers find the target unavailable, though the
    cache would now serve it. *)
Theorem failed_lookup_sticks :
  let first := sample_established None ∅ (mkMemory (mem_objects sample_remote) false) in
  first.1 = (Some (Ok None), Some None) /\
  (sample_established first.1.2 first.2.1 sample_remote).1.1 = Some (Ok None) /\
  (sample_established None ∅ sample_remote).1.1 = Some (Ok (Some Established)).
Proof. vm_compute. split_and!; reflexivity. Qed.

(** A revision that is built twice and not the same is served as neither. A second push
    replaces the blobs before it replaces the manifest, and may be abandoned in between;
    then the manifest is that of the first build, with its hashes, and the bytes are those
    of the second: what a pull reports as served is not what the manifest says. *)
Theorem repush_mixes :
  let b := pushed (built 2 $"other") [0; 0; 0] sample_remote in
  exists rev cs s cs', sample_fetch 0%N (fun _ => false) [0] 2%N $"h1" (sample_set b) = (Some rev, cs) /\
    (r_hashout <$> rev_artifact rev $"out_a.tar") = Some $"ha" /\
    sample_pull 0%N sample_transfer (fun _ => false) rev 2%N $"h1" [1; 0] sample_names (sample_disks 4999, sample_set b) = (Some (Ok true), (s, cs')) /\
    local_content (built 1 $"ha") !! (1%N, $"h1", $"out_a.tar") = Some [1%N] /\
    local_content s !! (2%N, $"h1", $"out_a.tar") = Some [2%N].
Proof. do 4 eexists. split; [vm_compute; reflexivity|]. split; [vm_compute; reflexivity|]. split; [vm_compute; reflexivity|]. split; vm_compute; reflexivity. Qed.
